(* ===== verification/_CoqProject ===== *)
-Q . S2P
Prelude.v
UintArith.v
UintTheory.v
Felt.v
AdviceMap.v
Serde.v
SerdeTheory.v
Quad.v
Operations.v
OpSerde.v
SerdeSafe.v
OpBatch.v
Mast.v
BatchValid.v
BatchTheory.v
BatchCorrect.v
BlockSerde.v
BlockTheory.v
AceCircuit.v
Machine.v
StackOps.v
ArithOps.v
IoOps.v
CryptoOps.v
FriOps.v
ExecuteOp.v
Control.v
Exec.v
StepTheory.v
StepExec.v
Memory.v
Merkle.v
Forest.v
ForestTheory.v
CanonOrder.v
ForestCorrect.v
ForestWire.v
WireSound.v
WireRound.v
ForestTheorems.v
Deferred.v
DeferredTheory.v
DeferredHistory.v
UintPrecompile.v
UintEquality.v
MerkleTheory.v
SparsePath.v
SparseTree.v
FullSmt.v
TreeTheory.v
TreeMutations.v
SmtTheory.v
SimpleTheory.v
SmtTheorems.v
SmtSerde.v
SmtWitnesses.v
Advice.v
AdviceTheory.v
AdviceAtomic.v
FastStack.v
StackRefine.v
FastProcessor.v
ExecSim.v
ProcView.v
SysEvents.v
SpecSafe.v
ExecSafe.v
EventSim.v
ProgramRefine.v
AbstractRun.v
DeferredOp.v
EventTheorems.v
DeferredEvents.v
ArithTheorems.v
StackTheorems.v
MemoryTheorems.v
CryptoTheorems.v
Witnesses.v
EventWitnesses.v
WireWitnesses.v
