(* ===== verification/Prelude.v ===== *)
(** * A verification development of the Miden virtual machine

    ** The program

    The Miden VM executes programs given as Merkelized trees of basic blocks and
    control-flow nodes (MAST) over 64-bit prime-field elements.  The part
    verified here is what runs a program and decides its result:

    - the instruction handlers (processor/src/execution/operations), written
      against the processor traits (processor/src/processor.rs);
    - the fast processor that implements the traits (processor/src/fast): an
      operand stack in a growing and recentring buffer, memory, the advice
      provider, the hasher and the system registers;
    - the execution loop over a continuation stack (processor/src/execution,
      continuation_stack.rs) and the entry points that run a program in one go
      or one cycle at a time (fast/execution_api.rs, fast/step.rs);
    - events (fast/basic_block, core/src/events): system events, handled by the
      processor, and host events;
    - what these rest on: operation batches and MAST (core/src/mast), Merkle
      paths and the Merkle store (crates/crypto/src/merkle), the sponge
      (crates/crypto/src/hash/algebraic_sponge), the deferred-statement DAG
      (core/src/deferred) and its 256-bit arithmetic precompile
      (crates/precompiles/src/math);
    - how programs come in: the byte readers and writers
      (crates/serde-utils), the encoding of operations, batches and forests
      (core/src/mast/serialization), the forest builder with its canonical node
      order, and the validation of forests from untrusted sources
      (core/src/mast/untrusted.rs);
    - the sparse Merkle trees of the same cryptography library
      (crates/crypto/src/merkle/smt), the key-value stores whose roots and
      openings programs handle.

    ** How code becomes definitions

    A Rust method is a computation of the state and error monad [M] below: the
    receiver is the state, [Result] errors are [Err], and everything that would
    panic (an index out of range, an unsigned underflow or overflow in the
    checked profiles, [unwrap], [unreachable!]) is [Panic].  The state is kept
    when an error is returned, as Rust code leaves it.  Traits are type classes,
    enums inductive types, structs records, hash maps and ordered maps [gmap],
    with an explicit sort where the order of iteration is that of the keys and a
    parameter ([MapOrder]) where it is unspecified.  Machine
    integers are [Z] with their bounds written out; field elements are canonical
    representatives.  Calls of the tracer are events in a list, since a tracer
    only learns what it is told.

    Code outside the repository is a parameter with its documented laws: the
    Goldilocks field ([Goldilocks], [GoldilocksLaws]), its quadratic extension
    ([QuadField], [QuadInverse]), the Poseidon2 permutation ([Poseidon2], an
    arbitrary function), the hash that derives precompile ids, and the host
    ([EventHost]: its forests and the answers of its event handlers).  Felt.v
    and Quad.v prove that reference instances satisfy the laws, including the
    primality of the field order and that 7 is not a square.

    ** Files

    Shared: Prelude (monad, simulation, lists), Felt (the field order is prime;
    elements and words), Quad, AdviceMap (ordered words and the advice map),
    Machine (errors, tracer events and the processor traits).

    Instructions: Operations (the enum), StackOps, ArithOps (field and u32),
    IoOps, CryptoOps, FriOps, AceCircuit (the circuit evaluator) and ExecuteOp
    (the dispatcher), each the handlers of the module of that name.

    Programs: OpBatch (grouping of operations into batches), Mast (nodes,
    forests, programs), Control (continuations and the handlers of every node
    kind), Exec (the outer loop, stoppers, stepping).

    Serialization: Serde (readers, writers, basic types), SerdeTheory (what was
    written reads back), SerdeSafe (reading never panics), OpSerde (operations),
    BatchValid, BatchTheory and BatchCorrect (validators of batches, and that
    batching satisfies them), BlockSerde and BlockTheory (basic blocks).

    Forests: Forest (builder, canonical order, validation), ForestTheory,
    CanonOrder and ForestCorrect (what the validators accept, the canonical
    order is one), ForestWire (the wire format, trusted and untrusted readers),
    WireSound and WireRound (soundness and completeness of reading),
    ForestTheorems (the resulting statements).

    Components of the processor: Memory, Merkle (paths, store, sponge), Advice,
    FastStack (the buffer, and the same interface over a list, the
    specification), FastProcessor (the record and the trait implementations, over
    either stack), ProcView (options, construction), SysEvents (events).

    Deferred statements: Deferred (nodes, registry, state), UintArith (limb
    arithmetic with Barrett reduction), UintPrecompile (the precompile).

    Sparse Merkle trees: SparsePath (empty subtrees, paths without them),
    SparseTree (the traits with insertion, openings and prospective mutations),
    FullSmt (leaves, [Smt], its proofs, [SimpleSmt] with subtree insertion),
    SmtSerde (their wire format).  TreeTheory and TreeMutations prove what the
    provided methods do from a class of laws ([SparseTreeLaws]); SmtTheory and
    SimpleTheory show that the two trees satisfy the laws; SmtTheorems and
    SmtSerde have the resulting statements.

    Theory of runs: ExecSim (simulation of handlers and of runs, the fast
    processor refines the abstract one), StackRefine (the buffer implements the
    list), SpecSafe and ExecSafe (the abstract machine does not panic and
    terminates), ProgramRefine (the two combined, for instructions, programs and
    programs loaded from bytes), StepTheory and StepExec (stepping), EventSim,
    AbstractRun (evaluating instructions on the abstract stack), and per component
    MerkleTheory, AdviceTheory, AdviceAtomic, DeferredTheory, DeferredHistory,
    UintTheory and UintEquality.

    The statements about single instructions and events are in ArithTheorems,
    StackTheorems, MemoryTheorems, CryptoTheorems, EventTheorems, DeferredOp and
    DeferredEvents; the theorems at concrete inputs in Witnesses,
    EventWitnesses, WireWitnesses and SmtWitnesses.

    ** What the theorems show

    - Programs (ProgramRefine, StepExec).  From any inputs and options, running
      any well-formed program terminates without a panic, with the outputs or
      the error of the abstract list-stack machine; running it step by step is
      the same as running it in one go.  Well-formed ([forest_ok], [blocks_ok])
      means that children and roots are nodes of the forest and that blocks
      have consistent batches.
    - Instructions (ProgramRefine and the instruction files).  Every instruction on
      the buffer refines the list machine and does not panic; the arithmetic,
      u32, stack, memory, hashing, FRI, Horner, stream and Merkle instructions
      compute what they document, with their errors.
    - Events (EventTheorems, DeferredEvents).  Handling any event does not panic
      and changes the advice provider and the deferred state only; the values of
      hints, map lookups and map insertions; registration and evaluation of
      deferred nodes.  EventSim discharges with this what ProgramRefine asks of
      event handling, so that the witness of program execution runs with the
      processor's own handlers.
    - Advice (AdviceAtomic).  The size accounting is exact after every
      operation, and a batch of host mutations is applied entirely or not at all.
    - Merkle structures (MerkleTheory, CryptoTheorems).  Paths read from a
      store verify, openings are binding up to collisions, and after an update
      the store opens the new root to the new node.
    - Forests and untrusted programs (BatchCorrect, BlockTheory, ForestTheorems,
      ProgramRefine).  Batching keeps the operations and passes its validators;
      operations, blocks and forests survive serialization; whatever bytes are
      read as an untrusted forest, the reader ends with an error or a valid
      forest, and every root of that forest is a program that runs to an end
      without a panic.
    - Sparse Merkle trees (SmtTheorems, SmtSerde).  Insertion implements the
      update of a map, the tree is a function of its contents and its root
      commits to them, openings prove what the map holds, proofs from unknown
      bytes prove nothing else, mutations do what insertions do, and trees and
      proofs survive serialization.  One theorem shows a defect: mutations of a
      full leaf may fail half-way.
    - Deferred statements (DeferredHistory, UintEquality, DeferredOp).  Whatever
      requests are served, the root is the fold of the logged statements, each of
      which evaluates to TRUE; a logged equality of the uint precompile is a
      true equality of integers, and a true one can be logged; the limb
      arithmetic is arithmetic modulo the domain.

    ** Bounds and fuel

    The execution loops take fuel ([execute_impl], [execute_program],
    [execute_steps]); [None] is fuel running out.  The theorems on runs give an
    amount from which on the result is the same, which exists because every
    cycle advances the clock and the clock is limited by the options.  Evaluation
    of deferred nodes takes a depth; the invariant bounds the number of nodes by
    the element budget, 87382, and one more level than that never runs out.
    The correction loop of the Barrett reduction gets as many rounds as the
    estimate can be off by, and counting trailing bits 32.  Compacting and merging
    deferred states traverse a DAG with fuel ([import_reachable_from]); no
    theorem is about them yet.  Loops over the levels of a Merkle tree recurse
    on the depth, and reading [n] elements on [n].

    ** Hashes

    Nothing is assumed of the permutation, so statements that need collision
    resistance name the nodes that would collide: two nodes of the paths or of
    the store at hand ([path_collision], [store_collision]), two leaves
    ([leaf_collision]), or two steps of a fold ([fold_collision]).  A sparse tree
    drops a node whose hash is the root of an empty subtree; its theorems ask of
    the trees at hand that no other subtree has such a hash ([tree_clean],
    [clean_run]).

    ** Not modelled

    The asynchronous and trace-building variants of the entry points, which run
    the same handlers; source positions and debug information in errors;
    building the execution trace; the AIR constraints, prover and verifier; the
    assembler, packages and command line.  Of forests: the zero-copy views of the
    wire format, merging, sparse forests and removal of nodes, commitments and
    fingerprints; of serialization, the adapters of std::io.  Of sparse Merkle
    trees: the concurrent variants (written with rayon; with the feature
    "concurrent" [with_entries] and [compute_mutations] of [Smt] use them, the
    sequential ones modelled here are used without it), the serialization of
    mutation sets, and the partial, large and forest variants with their storage
    backends; the Merkle mountain range and the other trees.  The curve and Keccak
    precompiles, the wire format of deferred states and the other cryptography
    the processor does not call.  The permutation itself and the field arithmetic
    are library code. *)

From Stdlib Require Export ZArith Lia.
From stdpp Require Export base option list list_numbers gmap sorting strings.

#[global] Open Scope Z_scope.

(** [lia] with division and remainder by constants. *)
Ltac dlia := Z.to_euclidean_division_equations; lia.

(** ** Results

    [Ok] and [Err] are the constructors of Rust's [Result]; [Panic] is an
    explicit panic: an index out of range, an arithmetic underflow of a
    [usize], an [unwrap]/[expect] of a [None], or [panic!]. *)

Inductive res (E A : Type) :=
| Ok (a : A)
| Err (e : E)
| Panic.
Arguments Ok {E A} a.
Arguments Err {E A} e.
Arguments Panic {E A}.

(** ** State and error monad

    A computation over a mutable state [S] with errors in [E].  The state is
    kept on every path: Rust code that returns early with an error leaves
    behind what it has written so far. *)

Definition M (E S A : Type) : Type := S -> res E A * S.

Section Monad.
Context {E S : Type}.

Definition ret {A} (a : A) : M E S A := fun s => (Ok a, s).
Definition fail {A} (e : E) : M E S A := fun s => (Err e, s).
Definition panic {A} : M E S A := fun s => (Panic, s).

Definition bind {A B} (m : M E S A) (k : A -> M E S B) : M E S B :=
  fun s =>
    match m s with
    | (Ok a, s') => k a s'
    | (Err e, s') => (Err e, s')
    | (Panic, s') => (Panic, s')
    end.

(** Reading a component of the state, and a pure update of it. *)
Definition gets {A} (f : S -> A) : M E S A := fun s => (Ok (f s), s).
Definition modify (f : S -> S) : M E S unit := fun s => (Ok tt, f s).

(** [Option::ok_or] followed by [?]; indexing, which panics on [None]. *)
Definition ok_or {A} (o : option A) (e : E) : M E S A :=
  match o with Some a => ret a | None => fail e end.
Definition expect {A} (o : option A) : M E S A :=
  match o with Some a => ret a | None => panic end.

(** A fallible function that only reads, or only computes. *)
Definition lift_res {A} (r : res E A) : M E S A := fun s => (r, s).

End Monad.

(** ** Results without a state *)

Definition rbind {E A B} (m : res E A) (k : A -> res E B) : res E B :=
  match m with Ok a => k a | Err e => Err e | Panic => Panic end.

Definition rexpect {E A} (o : option A) : res E A :=
  match o with Some a => Ok a | None => Panic end.

Definition map_err {E E' A} (f : E -> E') (r : res E A) : res E' A :=
  match r with Ok a => Ok a | Err e => Err (f e) | Panic => Panic end.

(** A [for] loop over a list, without and with an accumulator. *)
Fixpoint rfor {E A} (l : list A) (f : A -> res E unit) : res E unit :=
  match l with
  | [] => Ok tt
  | a :: l => rbind (f a) (fun _ => rfor l f)
  end.

Fixpoint rfold {E A S} (f : S -> A -> res E S) (s : S) (l : list A) : res E S :=
  match l with
  | [] => Ok s
  | a :: l => rbind (f s a) (fun s => rfold f s l)
  end.

(** [iter().enumerate()]. *)
Definition enumerate {A} (l : list A) : list (nat * A) := zip (seq 0 (length l)) l.

Declare Scope monad_scope.
Delimit Scope monad_scope with M.
Notation "'let!' x := m 'in' k" := (bind m (fun x => k))
  (at level 10, x pattern, m at level 100, k at level 200) : monad_scope.
Notation "'do!' m ; k" := (bind m (fun _ => k))
  (at level 10, m at level 100, k at level 200) : monad_scope.
Notation "'let?' x := m 'in' k" := (rbind m (fun x => k))
  (at level 10, x pattern, m at level 100, k at level 200) : monad_scope.
Notation "'do?' m ; k" := (rbind m (fun _ => k))
  (at level 10, m at level 100, k at level 200) : monad_scope.
Open Scope monad_scope.

(** Two computations that agree on every state. *)
Definition meq {E S A} (m1 m2 : M E S A) : Prop := forall s, m1 s = m2 s.

#[export] Instance meq_equiv {E S A} : Equivalence (@meq E S A).
Proof.
  split.
  - by intros m s.
  - by intros m1 m2 H s.
  - intros m1 m2 m3 H1 H2 s. by rewrite H1, H2.
Qed.

#[export] Instance bind_proper {E S A B} :
  Proper (meq ==> pointwise_relation A meq ==> meq) (@bind E S A B).
Proof.
  intros m1 m2 Hm k1 k2 Hk s. unfold bind. rewrite (Hm s).
  destruct (m2 s) as [[a| |] s']; auto. apply Hk.
Qed.

Lemma bind_assoc {E S A B C} (m : M E S A) (f : A -> M E S B) (g : B -> M E S C) :
  meq (bind (bind m f) g) (bind m (fun a => bind (f a) g)).
Proof. intros s. unfold bind. by destruct (m s) as [[a| |] s']. Qed.

Lemma bind_ret_l {E S A B} (a : A) (k : A -> M E S B) : meq (bind (ret a) k) (k a).
Proof. by intros s. Qed.

(** Running the first step of a sequence. *)
Lemma bind_Ok {E S A B} (m : M E S A) (k : A -> M E S B) s x s' :
  m s = (Ok x, s') -> bind m k s = k x s'.
Proof. intros Hm. unfold bind. by rewrite Hm. Qed.

Lemma bind_gets {E S A B} (f : S -> A) (k : A -> M E S B) s : bind (gets f) k s = k (f s) s.
Proof. done. Qed.

Lemma bind_Err {E S A B} (m : M E S A) (k : A -> M E S B) s e s' :
  m s = (Err e, s') -> bind m k s = (Err e, s').
Proof. intros Hm. unfold bind. by rewrite Hm. Qed.

(** Two sequences with the same first step. *)
Lemma bind_post {E S A B} (m : M E S A) (k1 k2 : A -> M E S B) s :
  (forall a s', m s = (Ok a, s') -> k1 a s' = k2 a s') -> bind m k1 s = bind m k2 s.
Proof. intros Hk. unfold bind. destruct (m s) as [[a| |] s'] eqn:Hm; auto. Qed.

(** ** Safety and Hoare-style reasoning

    [triple P m Q]: from a state satisfying [P], [m] does not panic and its
    result and final state satisfy [Q] (which sees errors too). *)
Definition triple {E S A} (P : S -> Prop) (m : M E S A)
    (Q : res E A -> S -> Prop) : Prop :=
  forall s, P s -> match m s with (r, s') => r <> Panic /\ Q r s' end.

(** [keeps I m]: [m] preserves [I] on every path and never panics under it. *)
Definition keeps {E S A} (I : S -> Prop) (m : M E S A) : Prop :=
  triple I m (fun _ s' => I s').

Lemma keeps_ret {E S A} (I : S -> Prop) (a : A) : keeps (E:=E) I (ret a).
Proof. intros s Hs. by split. Qed.

Lemma keeps_fail {E S A} (I : S -> Prop) (e : E) : keeps (A:=A) I (fail e).
Proof. intros s Hs. by split. Qed.

Lemma keeps_gets {E S A} (I : S -> Prop) (f : S -> A) : keeps (E:=E) I (gets f).
Proof. intros s Hs. by split. Qed.

Lemma keeps_bind {E S A B} (I : S -> Prop) (m : M E S A) (k : A -> M E S B) :
  keeps I m -> (forall a, keeps I (k a)) -> keeps I (bind m k).
Proof.
  intros Hm Hk s Hs. specialize (Hm s Hs). unfold bind.
  destruct (m s) as [[a|e|] s']; destruct Hm as [Hp HI].
  - by apply Hk.
  - by split.
  - done.
Qed.

(** ** Simulation between computations

    [sim R m1 m2]: from related states, whenever the specification [m2] is
    defined (does not panic), the implementation [m1] returns the same result
    or error and ends in a related state. *)
Definition sim {E S1 S2 A} (R : S1 -> S2 -> Prop) (m1 : M E S1 A) (m2 : M E S2 A) : Prop :=
  forall s1 s2, R s1 s2 ->
    match m2 s2 with
    | (Panic, _) => True
    | (r, s2') => exists s1', m1 s1 = (r, s1') /\ R s1' s2'
    end.

Section Sim.
Context {E S1 S2 : Type} (R : S1 -> S2 -> Prop).

Lemma sim_ret {A} (a : A) : sim (E:=E) R (ret a) (ret a).
Proof. intros s1 s2 Hs. by eexists. Qed.

Lemma sim_fail {A} (e : E) : sim (A:=A) R (fail e) (fail e).
Proof. intros s1 s2 Hs. by eexists. Qed.

Lemma sim_panic {A} (m : M E S1 A) : sim R m panic.
Proof. by intros s1 s2 Hs. Qed.

Lemma sim_expect {A} (o : option A) : sim (E:=E) R (expect o) (expect o).
Proof. destruct o; [apply sim_ret|apply sim_panic]. Qed.

Lemma sim_ok_or {A} (o : option A) (e : E) : sim R (ok_or o e) (ok_or o e).
Proof. destruct o; [apply sim_ret|apply sim_fail]. Qed.

Lemma sim_bind {A B} (m1 : M E S1 A) (m2 : M E S2 A) (k1 : A -> M E S1 B) (k2 : A -> M E S2 B) :
  sim R m1 m2 -> (forall a, sim R (k1 a) (k2 a)) -> sim R (bind m1 k1) (bind m2 k2).
Proof.
  intros Hm Hk s1 s2 Hs. specialize (Hm s1 s2 Hs). unfold bind.
  destruct (m2 s2) as [[a|e|] s2'].
  - destruct Hm as (s1' & -> & Hs'). by apply Hk.
  - destruct Hm as (s1' & -> & Hs'). by eexists.
  - done.
Qed.

Lemma sim_gets {A} (f1 : S1 -> A) (f2 : S2 -> A) :
  (forall s1 s2, R s1 s2 -> f1 s1 = f2 s2) -> sim (E:=E) R (gets f1) (gets f2).
Proof. intros Hf s1 s2 Hs. eexists. split; [|done]. unfold gets. by rewrite (Hf s1 s2). Qed.

Lemma sim_modify (f1 : S1 -> S1) (f2 : S2 -> S2) :
  (forall s1 s2, R s1 s2 -> R (f1 s1) (f2 s2)) -> sim (E:=E) R (modify f1) (modify f2).
Proof. intros Hf s1 s2 Hs. eexists. split; [done|]. by apply Hf. Qed.

End Sim.

Create HintDb sim discriminated.
#[export] Hint Resolve sim_ret sim_fail sim_panic sim_expect sim_ok_or : sim.

(** ** Slices of vectors

    Rust's [v[a..b]], [copy_from_slice] and [fill] with their bounds checks. *)

Definition checked_sub (a b : nat) : option nat :=
  if (b <=? a)%nat then Some (a - b)%nat else None.

Definition slice {A} (a b : nat) (l : list A) : option (list A) :=
  if (a <=? b)%nat && (b <=? length l)%nat then Some (take (b - a) (drop a l)) else None.

Definition copy_at {A} (i : nat) (src l : list A) : option (list A) :=
  if (i + length src <=? length l)%nat
  then Some (take i l ++ src ++ drop (i + length src) l) else None.

Definition fill {A} (a b : nat) (x : A) (l : list A) : option (list A) :=
  if (a <=? b)%nat then copy_at a (replicate (b - a) x) l else None.

(** [v[i] = x]. *)
Definition update {A} (i : nat) (x : A) (l : list A) : option (list A) :=
  if (i <? length l)%nat then Some (<[i := x]> l) else None.

Lemma checked_sub_Some a b : (b <= a)%nat -> checked_sub a b = Some (a - b)%nat.
Proof. intros. unfold checked_sub. by rewrite (proj2 (Nat.leb_le _ _)). Qed.

Lemma update_Some {A} i (x : A) l : (i < length l)%nat -> update i x l = Some (<[i := x]> l).
Proof. intros. unfold update. by rewrite (proj2 (Nat.ltb_lt _ _)). Qed.

Lemma slice_Some {A} a b (l : list A) : (a <= b <= length l)%nat ->
  exists r, slice a b l = Some r /\ length r = (b - a)%nat /\
    forall i, r !! i = if decide (i < b - a)%nat then l !! (a + i)%nat else None.
Proof.
  intros Hab. unfold slice. rewrite (proj2 (Nat.leb_le a b)), (proj2 (Nat.leb_le b _)) by lia.
  eexists. split; [done|]. split; [rewrite length_take, length_drop; lia|].
  intros i. destruct (decide _).
  - by rewrite lookup_take_lt, lookup_drop.
  - by rewrite lookup_take_ge by lia.
Qed.

Lemma copy_at_Some {A} i (src l : list A) : (i + length src <= length l)%nat ->
  exists r, copy_at i src l = Some r /\ length r = length l /\
    forall j, r !! j = if decide (i <= j < i + length src)%nat then src !! (j - i)%nat else l !! j.
Proof.
  intros Hl. unfold copy_at. rewrite (proj2 (Nat.leb_le _ _)) by lia.
  eexists. split; [done|]. split; [rewrite !length_app, length_take, length_drop; lia|].
  intros j. destruct (decide (j < i)%nat).
  { rewrite decide_False, lookup_app_l, lookup_take_lt by (rewrite ?length_take; lia). done. }
  rewrite lookup_app_r, length_take, Nat.min_l by (rewrite ?length_take; lia).
  destruct (decide (i <= j < _)%nat).
  - by rewrite lookup_app_l by lia.
  - rewrite lookup_app_r, lookup_drop by lia. f_equal. lia.
Qed.

Lemma fill_Some {A} a b (x : A) l : (a <= b <= length l)%nat ->
  exists r, fill a b x l = Some r /\ length r = length l /\
    forall j, r !! j = if decide (a <= j < b)%nat then Some x else l !! j.
Proof.
  intros Hab. unfold fill. rewrite (proj2 (Nat.leb_le a b)) by lia.
  destruct (copy_at_Some a (replicate (b - a) x) l) as (r & -> & Hlen & Hr);
    [rewrite length_replicate; lia|].
  eexists. split; [done|]. split; [done|]. intros j. rewrite Hr, length_replicate.
  destruct (decide _); destruct (decide _); try lia; try done.
  apply lookup_replicate_2. lia.
Qed.

(** ** Loops over lists *)

Lemma rfor_Ok {E A} (f : A -> res E unit) l :
  (forall a, a ∈ l -> f a = Ok tt) -> rfor l f = Ok tt.
Proof.
  induction l as [|a l IH]; [done|]. intros Hl. cbn [rfor].
  rewrite Hl by apply list_elem_of_here. cbn [rbind]. apply IH. intros b Hb. by apply Hl, list_elem_of_further.
Qed.

(** A loop keeps an invariant indexed by the number of rounds. *)
Lemma rfold_inv {E A T} (f : T -> A -> res E T) (I : nat -> T -> Prop) l s :
  I 0%nat s -> (forall i a s, l !! i = Some a -> I i s -> exists s', f s a = Ok s' /\ I (i + 1)%nat s') ->
  exists s', rfold f s l = Ok s' /\ I (length l) s'.
Proof.
  revert I s. induction l as [|a l IH]; intros I s H0 Hf; [by eexists|]. cbn [rfold].
  destruct (Hf 0%nat a s eq_refl H0) as (s1 & -> & H1). cbn [rbind].
  apply (IH (fun i => I (S i)) s1 H1). intros i b s2 Hb Hi.
  destruct (Hf (S i) b s2 Hb Hi) as (s3 & ? & ?). by exists s3.
Qed.

Lemma enumerate_lookup {A} (l : list A) i : enumerate l !! i = (fun a => (i, a)) <$> l !! i.
Proof.
  unfold enumerate. destruct (l !! i) as [a|] eqn:Ha; cbn.
  - apply lookup_zip_with_Some. exists i, a. split; [done|]. split; [|done].
    apply lookup_seq. split; [done|]. by apply lookup_lt_Some in Ha.
  - apply lookup_zip_with_None. by right.
Qed.

Lemma elem_of_enumerate {A} (l : list A) p : p ∈ enumerate l -> l !! p.1 = Some p.2.
Proof.
  intros (i & Hi)%list_elem_of_lookup. rewrite enumerate_lookup in Hi.
  destruct (l !! i) eqn:E; simplify_eq/=. done.
Qed.

Lemma enumerate_app {A} (l : list A) x : enumerate (l ++ [x]) = enumerate l ++ [(length l, x)].
Proof.
  unfold enumerate. rewrite length_app, seq_app. cbn [length seq].
  rewrite zip_with_app by (by rewrite length_seq). done.
Qed.

Lemma elem_of_seq_0 n i : i ∈ seq 0 n -> (i < n)%nat.
Proof. rewrite elem_of_seq. lia. Qed.

Lemma rfold_app {E A T} (f : T -> A -> res E T) s l1 l2 :
  rfold f s (l1 ++ l2) = rbind (rfold f s l1) (fun s => rfold f s l2).
Proof.
  revert s. induction l1 as [|a l1 IH]; intros s; [done|]. cbn [app rfold]. destruct (f s a); cbn [rbind]; [apply IH|done|done].
Qed.

Lemma rbind_Ok {E A B} (m : res E A) (k : A -> res E B) b :
  rbind m k = Ok b <-> exists a, m = Ok a /\ k a = Ok b.
Proof. split; [destruct m; [by eexists|done|done]|]. by intros (a & -> & ?). Qed.

Lemma rfor_Ok_inv {E A} (f : A -> res E unit) l a : rfor l f = Ok tt -> a ∈ l -> f a = Ok tt.
Proof.
  induction l as [|b l IH]; [by intros _ ?%elem_of_nil|]. cbn [rfor]. intros ([] & Hb & Hl)%rbind_Ok.
  intros [->|Hin]%elem_of_cons; [done|by apply IH].
Qed.

(** ** Results that are not a panic *)

Definition rok {E A} (r : res E A) (Q : A -> Prop) : Prop :=
  match r with Ok a => Q a | Err _ => True | Panic => False end.

Lemma rok_mono {E A} (r : res E A) (P Q : A -> Prop) : rok r P -> (forall a, P a -> Q a) -> rok r Q.
Proof. destruct r; cbn; auto. Qed.

Lemma rok_bind {E A B} (m : res E A) (k : A -> res E B) (P : A -> Prop) (Q : B -> Prop) :
  rok m P -> (forall a, P a -> rok (k a) Q) -> rok (rbind m k) Q.
Proof. destruct m; cbn; auto. Qed.

Lemma rok_expect {E A} (o : option A) (Q : A -> Prop) a : o = Some a -> Q a -> rok (@rexpect E A o) Q.
Proof. by intros ->. Qed.

Lemma rok_map_err {E E' A} (f : E -> E') (r : res E A) Q : rok r Q -> rok (map_err f r) Q.
Proof. by destruct r. Qed.

Lemma rok_for {E A} (f : A -> res E unit) (P : A -> Prop) l :
  (forall a, a ∈ l -> rok (f a) (fun _ => P a)) -> rok (rfor l f) (fun _ => Forall P l).
Proof.
  induction l as [|a l IH]; intros Hl; cbn [rfor]; [by constructor|].
  eapply rok_bind; [apply Hl, list_elem_of_here|]. intros u Ha. eapply rok_mono; [apply IH|].
  - intros b Hb. by apply Hl, list_elem_of_further.
  - intros u' Hf. by constructor.
Qed.

Lemma rok_fold {E A T} (f : T -> A -> res E T) (I : nat -> T -> Prop) l s :
  I 0%nat s -> (forall i a s, l !! i = Some a -> I i s -> rok (f s a) (I (S i))) ->
  rok (rfold f s l) (I (length l)).
Proof.
  revert I s. induction l as [|a l IH]; intros I s H0 Hf; [done|]. cbn [rfold].
  eapply rok_bind; [by apply (Hf 0%nat a s)|]. intros s1 H1.
  apply (IH (fun i => I (S i)) s1 H1). intros i b s2 Hb Hi. by apply (Hf (S i)).
Qed.
