(* ===== verification/UintArith.v ===== *)
(** * 256-bit limb arithmetic

    crates/precompiles/src/math/uint/arithmetic.rs: little-endian arrays of
    32-bit limbs with 64-bit intermediates, and Barrett reduction.  An array is
    the list of its limbs; indexing past its end, a panic, is [None]. *)

From S2P Require Import Prelude.

(** [as u32] and 64-bit arithmetic. *)
Definition limb (x : Z) : Z := x mod 0x100000000.
Definition w64 (x : Z) : Z := x mod 0x10000000000000000.

Definition ZERO_LIMBS : list Z := replicate 8 0.
Definition ONE_LIMBS : list Z := [1; 0; 0; 0; 0; 0; 0; 0].
Definition TWO_LIMBS : list Z := [2; 0; 0; 0; 0; 0; 0; 0].

(** ** Addition and subtraction *)

(** The loop of [add_raw]. *)
Fixpoint add_loop (a b : list Z) (carry : Z) : list Z * Z :=
  match a, b with
  | x :: a, y :: b =>
      let sum := w64 (w64 (x + y) + carry) in
      let '(out, carry) := add_loop a b (Z.shiftr sum 32) in
      (limb sum :: out, carry)
  | _, _ => ([], carry)
  end.

Definition add_raw (a b : list Z) : list Z * Z :=
  let '(out, carry) := add_loop a b 0 in (out, limb carry).

(** The loop of [sub_raw]: [u32::wrapping_sub]. *)
Fixpoint sub_loop (a b : list Z) (borrow : Z) : list Z * Z :=
  match a, b with
  | x :: a, y :: b =>
      let subtrahend := w64 (y + borrow) in
      let '(out, borrow) := sub_loop a b (Z.b2z (x <? subtrahend)) in
      (limb (x - limb subtrahend) :: out, borrow)
  | _, _ => ([], borrow)
  end.

Definition sub_raw (a b : list Z) : list Z * Z :=
  let '(out, borrow) := sub_loop a b 0 in (out, limb borrow).

(** The loop of [sub_limbs9] and [limbs9_sub_mod]: [u64::wrapping_sub]. *)
Fixpoint sub_loop64 (a b : list Z) (borrow : Z) : list Z :=
  match a, b with
  | x :: a, y :: b =>
      let subtrahend := w64 (y + borrow) in
      limb (w64 (x - subtrahend)) :: sub_loop64 a b (Z.b2z (x <? subtrahend))
  | _, _ => []
  end.

Definition sub_limbs9 (a b : list Z) : list Z := sub_loop64 a b 0.
Definition limbs9_sub_mod (r modulus : list Z) : list Z := sub_loop64 r (modulus ++ [0]) 0.

(** [sub_small]. *)
Fixpoint sub_small_loop (l : list Z) (borrow : Z) : list Z :=
  match l with
  | [] => []
  | x :: l =>
      if borrow =? 0 then x :: l
      else limb (x - limb borrow) :: sub_small_loop l (Z.b2z (x <? borrow))
  end.

Definition sub_small (value : list Z) (rhs : Z) : list Z := sub_small_loop value rhs.

(** ** Comparison *)

(** From the most significant limb. *)
Fixpoint cmp_loop (a b : list Z) : comparison :=
  match a, b with
  | x :: a, y :: b => match x ?= y with Eq => cmp_loop a b | ordering => ordering end
  | _, _ => Eq
  end.

Definition cmp (a b : list Z) : comparison := cmp_loop (rev a) (rev b).

Fixpoint ge_loop (r modulus : list Z) : bool :=
  match r, modulus with
  | x :: r, y :: modulus => if negb (x =? y) then y <? x else ge_loop r modulus
  | _, _ => true
  end.

Definition limbs9_ge_mod (r modulus : list Z) : bool :=
  match rev r with
  | top :: r => if negb (top =? 0) then true else ge_loop r (rev modulus)
  | [] => true
  end.

(** ** Multiplication *)

(** The [while carry != 0] loop. *)
Fixpoint propagate (out : list Z) (carry : Z) : option (list Z) :=
  if carry =? 0 then Some out else
  match out with
  | [] => None
  | o :: out =>
      let cur := w64 (o + carry) in
      out ← propagate out (Z.shiftr cur 32); Some (limb cur :: out)
  end.

(** One row: [out[i..] += a_limb * b]. *)
Fixpoint mul_row (a_limb : Z) (b out : list Z) (carry : Z) : option (list Z) :=
  match b, out with
  | [], out => propagate out carry
  | _ :: _, [] => None
  | b_limb :: b, o :: out =>
      let cur := w64 (w64 (o + w64 (a_limb * b_limb)) + carry) in
      out ← mul_row a_limb b out (Z.shiftr cur 32); Some (limb cur :: out)
  end.

(** The rows start one limb further each time. *)
Fixpoint mul_rows (a b out : list Z) : option (list Z) :=
  match a with
  | [] => Some out
  | a_limb :: a =>
      out ← mul_row a_limb b out 0;
      match out with
      | o :: out => out ← mul_rows a b out; Some (o :: out)
      | [] => Some []
      end
  end.

Definition mul_limbs (a b : list Z) (len : nat) : option (list Z) := mul_rows a b (replicate len 0).
Definition mul_wide (a b : list Z) : option (list Z) := mul_rows a b (replicate 16 0).

Definition wrapping_add (a b : list Z) : list Z := fst (add_raw a b).
Definition wrapping_sub (a b : list Z) : list Z := fst (sub_raw a b).
Definition wrapping_mul (a b : list Z) : option (list Z) := take 8 <$> mul_wide a b.

Definition add_mod (a b modulus : list Z) : list Z :=
  let '(sum, carry) := add_raw a b in
  if negb (carry =? 0) || negb (bool_decide (cmp sum modulus = Lt))
  then fst (sub_raw sum modulus) else sum.

Definition sub_mod (a b modulus : list Z) : list Z :=
  let '(diff, borrow) := sub_raw a b in
  if negb (borrow =? 0) then fst (add_raw diff modulus) else diff.

(** ** Barrett reduction *)

(** [shl1_limbs9]. *)
Fixpoint shl1_loop (l : list Z) (carry : Z) : list Z :=
  match l with
  | [] => []
  | x :: l => Z.lor (limb (Z.shiftl x 1)) carry :: shl1_loop l (Z.shiftr x 31)
  end.
Definition shl1_limbs9 (l : list Z) : list Z := shl1_loop l 0.

(** [limbs[i] |= x]. *)
Definition or_at (i : nat) (x : Z) (l : list Z) : list Z := alter (fun y => Z.lor y x) i l.

(** The loop of [barrett_mu], from bit [bit - 1] down to bit 0. *)
Fixpoint mu_loop (bit : nat) (modulus quotient remainder : list Z) : list Z :=
  match bit with
  | O => quotient
  | S b =>
      let remainder := shl1_limbs9 remainder in
      let remainder := if (b =? 512)%nat then or_at 0 1 remainder else remainder in
      if limbs9_ge_mod remainder modulus then
        let remainder := limbs9_sub_mod remainder modulus in
        let quotient :=
          if (b <? 288)%nat then or_at (b / 32) (Z.shiftl 1 (Z.of_nat (b mod 32))) quotient
          else quotient in
        mu_loop b modulus quotient remainder
      else mu_loop b modulus quotient remainder
  end.

Definition barrett_mu (modulus : list Z) : list Z :=
  if forallb (Z.eqb 0) modulus then replicate 9 0
  else mu_loop 513 modulus (replicate 9 0) (replicate 9 0).

(** The [while] of [reduce_barrett]; [fuel] bounds its rounds. *)
Fixpoint reduce_loop (fuel : nat) (r modulus : list Z) : option (list Z) :=
  if limbs9_ge_mod r modulus then
    match fuel with
    | O => None
    | S fuel => reduce_loop fuel (limbs9_sub_mod r modulus) modulus
    end
  else Some r.

Definition reduce_barrett (value modulus mu : list Z) : option (list Z) :=
  let q1 := drop 7 value in
  q2 ← mul_limbs q1 mu 18;
  let q3 := drop 9 q2 in
  let r1 := take 9 value in
  q3m ← mul_limbs q3 modulus 18;
  let r2 := take 9 q3m in
  r ← reduce_loop 2 (sub_limbs9 r1 r2) modulus;
  Some (take 8 r).

Definition mul_mod_barrett (a b modulus mu : list Z) : option (list Z) :=
  if decide (a = ZERO_LIMBS \/ b = ZERO_LIMBS) then Some ZERO_LIMBS
  else if decide (a = ONE_LIMBS) then Some b
  else if decide (b = ONE_LIMBS) then Some a
  else wide ← mul_wide a b; reduce_barrett wide modulus mu.

Definition bit_is_set (limbs : list Z) (bit : nat) : option bool :=
  x ← limbs !! (bit / 32)%nat; Some (Z.land (Z.shiftr x (Z.of_nat (bit mod 32))) 1 =? 1).

(** The loop of [pow_mod_barrett] over the bits [bit .. bit + n]. *)
Fixpoint pow_loop (n bit : nat) (result base exponent modulus mu : list Z) : option (list Z) :=
  match n with
  | O => Some result
  | S n =>
      set ← bit_is_set exponent bit;
      result ← (if set : bool then mul_mod_barrett result base modulus mu else Some result);
      base ← mul_mod_barrett base base modulus mu;
      pow_loop n (S bit) result base exponent modulus mu
  end.

Definition pow_mod_barrett (base exponent modulus mu : list Z) : option (list Z) :=
  pow_loop 256 0 ONE_LIMBS base exponent modulus mu.

(** The outer option is a panic, the inner one the function's. *)
Definition inv_mod_prime_barrett (value modulus mu : list Z) : option (option (list Z)) :=
  if decide (value = ZERO_LIMBS \/ modulus = ZERO_LIMBS) then Some None
  else if decide (value = ONE_LIMBS) then Some (Some ONE_LIMBS)
  else Some <$> pow_mod_barrett value (sub_small modulus 2) modulus mu.
