(* ===== verification/UintTheory.v ===== *)
(** * 256-bit limb arithmetic: theory

    The routines of [UintArith] compute the integer operations: carries and
    borrows are exact, products do not overflow the 64-bit intermediates, and
    Barrett reduction returns the remainder after at most two corrections. *)

From Stdlib Require Import Zpow_facts.
From S2P Require Import Prelude UintArith.

(** ** Values *)

Definition B : Z := 0x100000000.

Definition value (l : list Z) : Z := foldr (fun x acc => x + B * acc) 0 l.
Definition wf (n : nat) (l : list Z) : Prop := length l = n /\ Forall (fun x => 0 <= x < B) l.
Definition bpow (n : nat) : Z := B ^ Z.of_nat n.

Lemma value_cons x l : value (x :: l) = x + B * value l.
Proof. done. Qed.
Lemma bpow_0 : bpow 0 = 1.
Proof. done. Qed.
Lemma bpow_S n : bpow (S n) = B * bpow n.
Proof. unfold bpow. rewrite Nat2Z.inj_succ, Z.pow_succ_r by lia. done. Qed.
Lemma bpow_add n m : bpow (n + m) = bpow n * bpow m.
Proof. unfold bpow. rewrite Nat2Z.inj_add, Z.pow_add_r by lia. done. Qed.
Lemma bpow_pos n : 0 < bpow n.
Proof. apply Z.pow_pos_nonneg; unfold B; lia. Qed.

Lemma wf_cons n x l : wf (S n) (x :: l) <-> 0 <= x < B /\ wf n l.
Proof. unfold wf. rewrite Forall_cons. cbn. naive_solver lia. Qed.
Lemma wf_nil n l : wf n l -> n = 0%nat -> l = [].
Proof. intros [Hl _] ->. by apply length_zero_iff_nil. Qed.

(** A list of limbs is empty or has a first limb. *)
Lemma wf_inv n l : wf n l ->
  match n with O => l = [] | S n => exists x l', l = x :: l' /\ 0 <= x < B /\ wf n l' end.
Proof.
  intros Hl. destruct n; [by apply wf_nil in Hl|]. destruct l as [|x l]; [by destruct Hl|].
  apply wf_cons in Hl. by exists x, l.
Qed.

Lemma value_bounds n l : wf n l -> 0 <= value l < bpow n.
Proof.
  revert l. induction n as [|n IH]; intros l Hl; apply wf_inv in Hl; [by subst|].
  destruct Hl as (x & l' & -> & Hx & Hl'). specialize (IH l' Hl'). rewrite bpow_S, value_cons.
  unfold B in *. lia.
Qed.

Lemma value_app l l' : value (l ++ l') = value l + bpow (length l) * value l'.
Proof.
  induction l as [|x l IH]; cbn [app length]; [rewrite bpow_0; change (value []) with 0; lia|].
  rewrite !value_cons, IH, bpow_S. lia.
Qed.

Lemma wf_app n m l l' : wf n l -> wf m l' -> wf (n + m) (l ++ l').
Proof. intros [] []. split; [rewrite length_app; lia|by apply Forall_app]. Qed.

Lemma wf_take n k l : wf n l -> (k <= n)%nat -> wf k (take k l).
Proof. intros [Hl Hf] Hk. split; [rewrite length_take; lia|by apply Forall_take]. Qed.

Lemma wf_drop n k l : wf n l -> wf (n - k) (drop k l).
Proof. intros [Hl Hf]. split; [rewrite length_drop; lia|by apply Forall_drop]. Qed.

Lemma wf_replicate n : wf n (replicate n 0).
Proof. split; [apply length_replicate|]. apply Forall_replicate. unfold B. lia. Qed.

Lemma value_replicate n : value (replicate n 0) = 0.
Proof. induction n as [|n IH]; [done|]. cbn [replicate]. rewrite value_cons. lia. Qed.

Lemma value_take_drop n k l : wf n l -> (k <= n)%nat ->
  value (take k l) = value l mod bpow k /\ value (drop k l) = value l / bpow k.
Proof.
  intros Hl Hk. pose proof (wf_take n k l Hl Hk) as Ht. pose proof (value_bounds _ _ Ht) as Hb.
  pose proof (bpow_pos k). rewrite <- (take_drop k l) at 2 4. rewrite value_app.
  destruct Ht as [-> _]. split; symmetry.
  - rewrite (Z.mul_comm (bpow k)), Z.mod_add by lia. by apply Z.mod_small.
  - rewrite (Z.mul_comm (bpow k)), Z.div_add by lia. rewrite Z.div_small by lia. lia.
Qed.

Lemma value_inj n l l' : wf n l -> wf n l' -> value l = value l' -> l = l'.
Proof.
  revert l l'. induction n as [|n IH]; intros l l' Hl Hl' Hv; apply wf_inv in Hl, Hl'; [by subst|].
  destruct Hl as (x & t & -> & Hx & Ht), Hl' as (x' & t' & -> & Hx' & Ht').
  rewrite !value_cons in Hv. unfold B in *.
  assert (x = x') as -> by lia. f_equal. apply IH; auto. lia.
Qed.

(** ** Addition and subtraction *)

Lemma limb_bounds x : 0 <= limb x < B.
Proof. unfold limb, B. dlia. Qed.

Lemma add_loop_spec n : forall a b c, wf n a -> wf n b -> 0 <= c <= 1 ->
  let '(out, c') := add_loop a b c in
  wf n out /\ 0 <= c' <= 1 /\ value out + bpow n * c' = value a + value b + c.
Proof.
  induction n as [|n IH]; intros a b c Ha Hb Hc; apply wf_inv in Ha, Hb.
  { subst. cbn. rewrite bpow_0. split; [done|]. lia. }
  destruct Ha as (x & a' & -> & Hx & Ha), Hb as (y & b' & -> & Hy & Hb). cbn [add_loop].
  set (sum := w64 (w64 (x + y) + c)).
  assert (sum = x + y + c) as Hsum by (unfold sum, w64, B in *; dlia).
  assert (0 <= Z.shiftr sum 32 <= 1) as Hs by (rewrite Hsum, Z.shiftr_div_pow2 by lia; unfold B in *; dlia).
  specialize (IH a' b' _ Ha Hb Hs). destruct (add_loop a' b' _) as [out c'].
  destruct IH as (Ho & Hc' & Hv). split; [apply wf_cons; split; [apply limb_bounds|done]|].
  split; [done|]. rewrite bpow_S. rewrite !value_cons.
  assert (limb sum + B * Z.shiftr sum 32 = sum) by
    (rewrite Z.shiftr_div_pow2 by lia; unfold limb, B; change (2 ^ 32) with 0x100000000; dlia).
  nia.
Qed.

Lemma sub_loop_spec n : forall a b c, wf n a -> wf n b -> 0 <= c <= 1 ->
  let '(out, c') := sub_loop a b c in
  wf n out /\ 0 <= c' <= 1 /\ value out = value a - value b - c + bpow n * c'.
Proof.
  induction n as [|n IH]; intros a b c Ha Hb Hc; apply wf_inv in Ha, Hb.
  { subst. cbn. rewrite bpow_0. split; [done|]. lia. }
  destruct Ha as (x & a' & -> & Hx & Ha), Hb as (y & b' & -> & Hy & Hb). cbn [sub_loop].
  set (s := w64 (y + c)). assert (s = y + c) as Hs by (unfold s, w64, B in *; dlia).
  assert (0 <= Z.b2z (x <? s) <= 1) as Hb2 by (destruct (x <? s); cbn; lia).
  specialize (IH a' b' _ Ha Hb Hb2). destruct (sub_loop a' b' _) as [out c'].
  destruct IH as (Ho & Hc' & Hv). split; [apply wf_cons; split; [apply limb_bounds|done]|].
  split; [done|]. rewrite bpow_S. rewrite !value_cons.
  assert (limb (x - limb s) = x - s + B * Z.b2z (x <? s)).
  { rewrite Hs. unfold limb, B in *. destruct (Z.ltb_spec x (y + c)); cbn; dlia. }
  nia.
Qed.

(** The 64-bit variant computes the same limbs. *)
Lemma sub_loop64_eq n : forall a b c, wf n a -> wf n b -> 0 <= c <= 1 ->
  sub_loop64 a b c = fst (sub_loop a b c).
Proof.
  induction n as [|n IH]; intros a b c Ha Hb Hc; apply wf_inv in Ha, Hb; [by subst|].
  destruct Ha as (x & a' & -> & Hx & Ha), Hb as (y & b' & -> & Hy & Hb). cbn [sub_loop sub_loop64].
  rewrite IH by (try done; destruct (_ <? _); cbn; lia). destruct (sub_loop a' b' _). cbn. f_equal.
  unfold limb, w64, B in *. dlia.
Qed.

Lemma sub_loop64_spec n a b : wf n a -> wf n b ->
  wf n (sub_loop64 a b 0) /\ value (sub_loop64 a b 0) = (value a - value b) mod bpow n.
Proof.
  intros Ha Hb. rewrite (sub_loop64_eq n) by (try done; lia).
  pose proof (sub_loop_spec n a b 0 Ha Hb ltac:(lia)) as Hs. destruct (sub_loop a b 0) as [out c].
  destruct Hs as (Ho & Hc & Hv). cbn [fst]. split; [done|]. pose proof (value_bounds _ _ Ho).
  rewrite <- (Z.mod_small (value out) (bpow n)) by done. rewrite Hv.
  replace (value a - value b - 0 + bpow n * c) with (value a - value b + c * bpow n) by lia.
  apply Z.mod_add. pose proof (bpow_pos n). lia.
Qed.

(** ** Comparison *)

Lemma cmp_loop_snoc l : forall l' x y, length l = length l' ->
  cmp_loop (l ++ [x]) (l' ++ [y]) = match cmp_loop l l' with Eq => x ?= y | o => o end.
Proof.
  induction l as [|z l IH]; intros [|z' l'] x y Hl; try done; cbn [app cmp_loop].
  - by destruct (x ?= y).
  - injection Hl as Hl. rewrite IH by done. by destruct (z ?= z').
Qed.

Lemma cmp_spec n : forall a b, wf n a -> wf n b -> cmp a b = (value a ?= value b).
Proof.
  unfold cmp. induction n as [|n IH]; intros a b Ha Hb; apply wf_inv in Ha, Hb; [by subst|].
  destruct Ha as (x & a' & -> & Hx & Ha), Hb as (y & b' & -> & Hy & Hb). cbn [rev].
  rewrite cmp_loop_snoc by (rewrite !length_rev; destruct Ha, Hb; congruence).
  rewrite (IH a' b') by done. rewrite !value_cons. unfold B in *.
  destruct (Z.compare_spec (value a') (value b')); symmetry; [|apply Z.compare_lt_iff; lia|apply Z.compare_gt_iff; lia].
  destruct (Z.compare_spec x y); [apply Z.compare_eq_iff|apply Z.compare_lt_iff|apply Z.compare_gt_iff]; lia.
Qed.

Lemma ge_loop_cmp l : forall l', ge_loop l l' = match cmp_loop l l' with Lt => false | _ => true end.
Proof.
  induction l as [|x l IH]; intros [|y l']; try done. cbn [ge_loop cmp_loop].
  destruct (Z.compare_spec x y) as [->|Hxy|Hxy].
  - rewrite Z.eqb_refl. apply IH.
  - rewrite (proj2 (Z.eqb_neq x y)) by lia. cbn. apply Z.ltb_ge. lia.
  - rewrite (proj2 (Z.eqb_neq x y)) by lia. cbn. apply Z.ltb_lt. lia.
Qed.

Lemma wf_snoc n l : wf (S n) l -> exists l' x, l = l' ++ [x] /\ wf n l' /\ 0 <= x < B.
Proof.
  intros [Hl Hf]. destruct l as [|x l _] using rev_ind; [done|]. exists l, x.
  rewrite Forall_app, Forall_singleton in Hf. rewrite length_app in Hl. cbn in Hl.
  split; [done|]. split; [|tauto]. split; [lia|tauto].
Qed.

Lemma limbs9_ge_mod_spec r m : wf 9 r -> wf 8 m -> limbs9_ge_mod r m = (value m <=? value r).
Proof.
  intros Hr Hm. destruct (wf_snoc 8 r Hr) as (r' & top & -> & Hr' & Ht). unfold limbs9_ge_mod.
  rewrite rev_app_distr. cbn [rev app]. rewrite ge_loop_cmp. fold (cmp r' m). rewrite (cmp_spec 8) by done.
  rewrite value_app. destruct Hr' as [Hl Hf]. rewrite Hl. cbn [value foldr].
  pose proof (value_bounds 8 m Hm). pose proof (value_bounds 8 r' (conj Hl Hf)).
  destruct (Z.eqb_spec top 0) as [->|Hne]; cbn [negb].
  - replace (value r' + bpow 8 * (0 + B * 0)) with (value r') by lia. rewrite Z.leb_compare.
    rewrite (Z.compare_antisym (value r')). by destruct (value r' ?= value m).
  - symmetry. apply Z.leb_le. assert (1 <= top) by lia. nia.
Qed.

(** ** Multiplication *)

Lemma limb_shiftr x : 0 <= x -> limb x + B * Z.shiftr x 32 = x.
Proof.
  intros Hx. rewrite Z.shiftr_div_pow2 by lia. unfold limb, B. change (2 ^ 32) with 0x100000000. dlia.
Qed.

Lemma shiftr_bounds x b : 0 <= x < B * b -> 0 <= Z.shiftr x 32 < b.
Proof.
  intros Hx. rewrite Z.shiftr_div_pow2 by lia. change (2 ^ 32) with B.
  split; [apply Z.div_pos; unfold B in *; lia|apply Z.div_lt_upper_bound; unfold B in *; lia].
Qed.

Lemma propagate_spec n : forall out c, wf n out -> 0 <= c < B -> value out + c < bpow n ->
  exists out', propagate out c = Some out' /\ wf n out' /\ value out' = value out + c.
Proof.
  induction n as [|n IH]; intros out c Ho Hc Hv; pose proof Ho as Ho'; apply wf_inv in Ho.
  { subst. rewrite bpow_0 in Hv. cbn in Hv. assert (c = 0) as -> by lia. by exists []. }
  destruct Ho as (o & out0 & -> & Hox & Ho). rewrite value_cons in *. rewrite bpow_S in Hv.
  cbn [propagate]. destruct (Z.eqb_spec c 0) as [->|Hne].
  { eexists. split; [done|]. split; [done|]. rewrite value_cons. lia. }
  set (cur := w64 (o + c)). assert (cur = o + c) as Hcur by (unfold cur, w64, B in *; dlia).
  pose proof (limb_shiftr cur ltac:(lia)) as Hsplit. pose proof (limb_bounds cur).
  assert (0 <= Z.shiftr cur 32 < 2) as Hs by (apply shiftr_bounds; unfold B in *; lia).
  destruct (IH out0 (Z.shiftr cur 32)) as (out' & -> & Hw & Hv'); [done|unfold B; lia|unfold B in *; lia|].
  cbn. eexists. split; [done|]. split; [by apply wf_cons|]. rewrite value_cons. lia.
Qed.

Lemma mul_row_spec m : forall n x b out c, wf m b -> wf n out -> (m <= n)%nat ->
  0 <= x < B -> 0 <= c < B -> value out + x * value b + c < bpow n ->
  exists out', mul_row x b out c = Some out' /\ wf n out' /\ value out' = value out + x * value b + c.
Proof.
  induction m as [|m IH]; intros n x b out c Hb Ho Hmn Hx Hc Hv; apply wf_inv in Hb.
  { subst. change (value []) with 0 in *. destruct (propagate_spec n out c) as (out' & ? & ? & ?); try done; [lia|].
    exists out'. split; [done|]. split; [done|]. lia. }
  destruct Hb as (y & b' & -> & Hy & Hb). destruct n as [|n]; [lia|]. apply wf_inv in Ho.
  destruct Ho as (o & out0 & -> & Hox & Ho). rewrite !value_cons in *. rewrite bpow_S in Hv.
  cbn [mul_row]. set (cur := w64 _).
  assert (0 <= x * y <= (B - 1) * (B - 1)) as Hxy by (split; [nia|apply Z.mul_le_mono_nonneg; lia]).
  assert (cur = o + x * y + c) as Hcur.
  { unfold cur, w64. unfold B in *. rewrite (Z.mod_small (x * y)), (Z.mod_small (o + x * y)), Z.mod_small; lia. }
  pose proof (limb_shiftr cur ltac:(unfold B in *; lia)) as Hsplit. pose proof (limb_bounds cur).
  assert (0 <= Z.shiftr cur 32 < B) as Hs by (apply shiftr_bounds; unfold B in *; lia).
  assert (value out0 + x * value b' + Z.shiftr cur 32 < bpow n) as Hlt by (unfold B in *; nia).
  destruct (IH n x b' out0 (Z.shiftr cur 32)) as (out' & -> & Hw & Hv'); [done|done|lia|done|done|done|].
  cbn. eexists. split; [done|]. split; [by apply wf_cons|]. rewrite value_cons. nia.
Qed.

Lemma mul_rows_spec k : forall m n a b out, wf k a -> wf m b -> wf n out -> (k + m <= n)%nat ->
  value out + value a * value b < bpow n ->
  exists out', mul_rows a b out = Some out' /\ wf n out' /\ value out' = value out + value a * value b.
Proof.
  induction k as [|k IH]; intros m n a b out Ha Hb Ho Hn Hv; apply wf_inv in Ha.
  { subst. exists out. split; [done|]. split; [done|]. change (value []) with 0. lia. }
  destruct Ha as (x & a' & -> & Hx & Ha). rewrite value_cons in *. cbn [mul_rows].
  pose proof (value_bounds m b Hb). pose proof (value_bounds k a' Ha).
  assert (0 <= value a' * value b) by nia.
  assert (value out + x * value b + 0 < bpow n) as Hrow by (unfold B in *; nia).
  destruct (mul_row_spec m n x b out 0) as (out1 & -> & Hw1 & Hv1); try done; try lia.
  cbn. destruct n as [|n]; [lia|]. apply wf_inv in Hw1. destruct Hw1 as (o & out2 & -> & Hox & Hw2).
  rewrite value_cons in Hv1. rewrite bpow_S in Hv.
  destruct (IH m n a' b out2) as (out3 & -> & Hw3 & Hv3); try done; try lia; [unfold B in *; nia|].
  cbn. eexists. split; [done|]. split; [by apply wf_cons|]. rewrite value_cons. nia.
Qed.

Lemma mul_limbs_spec k m n a b : wf k a -> wf m b -> (k + m <= n)%nat ->
  exists out, mul_limbs a b n = Some out /\ wf n out /\ value out = value a * value b.
Proof.
  intros Ha Hb Hn. pose proof (value_bounds _ _ Ha). pose proof (value_bounds _ _ Hb).
  assert (value a * value b < bpow n).
  { apply (Z.lt_le_trans _ (bpow (k + m))); [rewrite bpow_add; nia|].
    unfold bpow. apply Z.pow_le_mono_r; unfold B; lia. }
  destruct (mul_rows_spec k m n a b (replicate n 0)) as (out & ? & ? & ?); auto using wf_replicate;
    rewrite ?value_replicate in *; [lia|]. by exists out.
Qed.

(** ** Modular addition and subtraction *)

Lemma add_raw_spec n a b : wf n a -> wf n b ->
  let '(out, c) := add_raw a b in wf n out /\ 0 <= c <= 1 /\ value out + bpow n * c = value a + value b.
Proof.
  intros Ha Hb. unfold add_raw. pose proof (add_loop_spec n a b 0 Ha Hb ltac:(lia)) as Hs.
  destruct (add_loop a b 0) as [out c]. destruct Hs as (Ho & Hc & Hv).
  assert (limb c = c) as -> by (unfold limb; apply Z.mod_small; lia). split; [done|]. lia.
Qed.

Lemma sub_raw_spec n a b : wf n a -> wf n b ->
  let '(out, c) := sub_raw a b in wf n out /\ 0 <= c <= 1 /\ value out = value a - value b + bpow n * c.
Proof.
  intros Ha Hb. unfold sub_raw. pose proof (sub_loop_spec n a b 0 Ha Hb ltac:(lia)) as Hs.
  destruct (sub_loop a b 0) as [out c]. destruct Hs as (Ho & Hc & Hv).
  assert (limb c = c) as -> by (unfold limb; apply Z.mod_small; lia). split; [done|]. lia.
Qed.

Lemma wrapping_add_spec n a b : wf n a -> wf n b ->
  wf n (wrapping_add a b) /\ value (wrapping_add a b) = (value a + value b) mod bpow n.
Proof.
  intros Ha Hb. unfold wrapping_add. pose proof (add_raw_spec n a b Ha Hb) as Hs.
  destruct (add_raw a b) as [out c]. destruct Hs as (Ho & _ & Hv). split; [done|].
  rewrite <- Hv, (Z.mul_comm (bpow n)), Z.mod_add by (pose proof (bpow_pos n); lia).
  symmetry. by apply Z.mod_small, value_bounds.
Qed.

Lemma wrapping_sub_spec n a b : wf n a -> wf n b ->
  wf n (wrapping_sub a b) /\ value (wrapping_sub a b) = (value a - value b) mod bpow n.
Proof.
  intros Ha Hb. unfold wrapping_sub. pose proof (sub_raw_spec n a b Ha Hb) as Hs.
  destruct (sub_raw a b) as [out c]. destruct Hs as (Ho & _ & Hv). split; [done|]. cbn [fst].
  replace (value a - value b) with (value out + (- c) * bpow n) by lia.
  rewrite Z.mod_add by (pose proof (bpow_pos n); lia). symmetry. by apply Z.mod_small, value_bounds.
Qed.

Lemma wrapping_mul_spec a b : wf 8 a -> wf 8 b ->
  exists out, wrapping_mul a b = Some out /\ wf 8 out /\ value out = (value a * value b) mod bpow 8.
Proof.
  intros Ha Hb. unfold wrapping_mul. destruct (mul_limbs_spec 8 8 16 a b Ha Hb ltac:(lia)) as (w & Hm & Hw & Hv).
  unfold mul_limbs in Hm. unfold mul_wide. rewrite Hm. cbn [fmap option_fmap option_map].
  eexists. split; [done|]. split; [by apply (wf_take 16); [|lia]|].
  rewrite <- Hv. by apply (value_take_drop 16); [|lia].
Qed.

(** The unique residue. *)
Lemma mod_unique_add v m k : 0 <= v - k * m < m -> v mod m = v - k * m.
Proof. intros Hv. symmetry. apply (Z.mod_unique_pos v m k); lia. Qed.

Lemma add_mod_spec a b m : wf 8 a -> wf 8 b -> wf 8 m -> value a < value m -> value b < value m ->
  wf 8 (add_mod a b m) /\ value (add_mod a b m) = (value a + value b) mod value m.
Proof.
  intros Ha Hb Hm Ham Hbm. unfold add_mod. pose proof (add_raw_spec 8 a b Ha Hb) as Hs.
  destruct (add_raw a b) as [sum c]. destruct Hs as (Ho & Hc & Hv).
  pose proof (value_bounds _ _ Ho). pose proof (value_bounds _ _ Ha). pose proof (value_bounds _ _ Hb).
  pose proof (value_bounds _ _ Hm). rewrite (cmp_spec 8) by done.
  pose proof (sub_raw_spec 8 sum m Ho Hm) as Hs. destruct (sub_raw sum m) as [out c'].
  destruct Hs as (Ho' & Hc' & Hv'). pose proof (value_bounds _ _ Ho').
  destruct (Z.eqb_spec c 0) as [->|Hne]; cbn [negb orb].
  - destruct (Z.compare_spec (value sum) (value m)); cbn [bool_decide negb fst].
    1, 3: rewrite bool_decide_eq_false_2 by done; cbn [negb fst]; split; [done|];
      rewrite (mod_unique_add _ _ 1) by lia; assert (c' = 0 \/ c' = 1) as [-> | ->] by lia; lia.
    rewrite bool_decide_eq_true_2 by done. cbn [negb]. split; [done|]. rewrite Z.mod_small by lia. lia.
  - assert (c = 1) as -> by lia. cbn [fst]. split; [done|]. rewrite (mod_unique_add _ _ 1) by lia.
    assert (c' = 0 \/ c' = 1) as [-> | ->] by lia; lia.
Qed.

Lemma sub_mod_spec a b m : wf 8 a -> wf 8 b -> wf 8 m -> value a < value m -> value b < value m ->
  wf 8 (sub_mod a b m) /\ value (sub_mod a b m) = (value a - value b) mod value m.
Proof.
  intros Ha Hb Hm Ham Hbm. unfold sub_mod. pose proof (sub_raw_spec 8 a b Ha Hb) as Hs.
  destruct (sub_raw a b) as [diff c]. destruct Hs as (Ho & Hc & Hv).
  pose proof (value_bounds _ _ Ho). pose proof (value_bounds _ _ Ha). pose proof (value_bounds _ _ Hb).
  pose proof (value_bounds _ _ Hm). pose proof (add_raw_spec 8 diff m Ho Hm) as Hs.
  destruct (add_raw diff m) as [out c']. destruct Hs as (Ho' & Hc' & Hv').
  pose proof (value_bounds _ _ Ho').
  destruct (Z.eqb_spec c 0) as [->|Hne]; cbn [negb fst].
  - split; [done|]. rewrite Z.mod_small by lia. lia.
  - assert (c = 1) as -> by lia. split; [done|]. rewrite (mod_unique_add _ _ (-1)) by lia.
    assert (c' = 0 \/ c' = 1) as [-> | ->] by lia; lia.
Qed.

(** ** Barrett reduction *)

(** The estimate is at most two too small. *)
Lemma barrett_estimate v m b7 b9 : 0 < b7 <= m -> 0 < b9 -> 0 <= v < b7 * b9 ->
  let q3 := (v / b7 * (b7 * b9 / m)) / b9 in 0 <= v - q3 * m < 3 * m.
Proof.
  intros Hm Hb Hv q3. set (q1 := v / b7) in *. set (mu := b7 * b9 / m) in *.
  pose proof (Z.div_mod v b7 ltac:(lia)) as H1. pose proof (Z.mod_pos_bound v b7 ltac:(lia)) as H1b.
  pose proof (Z.div_mod (b7 * b9) m ltac:(lia)) as H2. pose proof (Z.mod_pos_bound (b7 * b9) m ltac:(lia)) as H2b.
  pose proof (Z.div_mod (q1 * mu) b9 ltac:(lia)) as H3. pose proof (Z.mod_pos_bound (q1 * mu) b9 ltac:(lia)) as H3b.
  fold q1 in H1. fold mu in H2. fold q3 in H3.
  set (r0 := v mod b7) in *. set (r1 := (b7 * b9) mod m) in *. set (r2 := (q1 * mu) mod b9) in *.
  assert (0 <= q1) by (apply Z.div_pos; lia). assert (0 <= mu) by (apply Z.div_pos; nia).
  assert (0 <= q3) by (apply Z.div_pos; nia).
  assert (v * (b7 * b9) = q1 * mu * m * b7 + q1 * b7 * r1 + r0 * (b7 * b9)) as Hexp by (rewrite H2 at 1; nia).
  assert (q1 * b7 <= v) by nia. split.
  - assert (q3 * m * (b7 * b9) <= v * (b7 * b9)); [|nia].
    assert (q3 * b9 * (m * b7) <= q1 * mu * (m * b7)) by (apply Z.mul_le_mono_nonneg_r; nia). nia.
  - assert (v * (b7 * b9) < (q3 + 3) * m * (b7 * b9)); [|nia].
    assert (q1 * mu * (m * b7) <= (q3 + 1) * b9 * (m * b7)) by (apply Z.mul_le_mono_nonneg_r; nia).
    assert (q1 * b7 * r1 <= v * m) by (apply Z.mul_le_mono_nonneg; lia).
    assert (v * m < b7 * b9 * m) by (apply Z.mul_lt_mono_pos_r; lia).
    assert (r0 * (b7 * b9) <= m * (b7 * b9)) by (apply Z.mul_le_mono_nonneg_r; nia). nia.
Qed.

Lemma limbs9_sub_mod_spec r m : wf 9 r -> wf 8 m -> value m <= value r ->
  wf 9 (limbs9_sub_mod r m) /\ value (limbs9_sub_mod r m) = value r - value m.
Proof.
  intros Hr Hm Hle. unfold limbs9_sub_mod. assert (wf 9 (m ++ [0])) as Hm9.
  { apply (wf_app 8 1); [done|]. apply (wf_replicate 1). }
  destruct (sub_loop64_spec 9 r (m ++ [0]) Hr Hm9) as [Hw Hv]. split; [done|]. rewrite Hv, value_app.
  change (value [0]) with 0. pose proof (value_bounds _ _ Hr). pose proof (value_bounds _ _ Hm).
  rewrite Z.mod_small; lia.
Qed.

Lemma reduce_loop_spec k m : wf 8 m -> 0 < value m -> forall r, wf 9 r -> value r < (Z.of_nat k + 1) * value m ->
  exists out, reduce_loop k r m = Some out /\ wf 9 out /\ value out = value r mod value m.
Proof.
  intros Hm Hpos. induction k as [|k IH]; intros r Hr Hlt; cbn [reduce_loop];
    rewrite limbs9_ge_mod_spec by done; pose proof (value_bounds _ _ Hr);
    destruct (Z.leb_spec (value m) (value r)).
  - lia.
  - exists r. split; [done|]. split; [done|]. symmetry. apply Z.mod_small. lia.
  - destruct (limbs9_sub_mod_spec r m Hr Hm ltac:(lia)) as [Hw Hv].
    destruct (IH _ Hw) as (out & Ho & Hwo & Hvo); [lia|]. exists out. split; [done|]. split; [done|].
    rewrite Hvo, Hv. rewrite <- (Z.mod_add (value r) (-1)) by lia. by f_equal; lia.
  - exists r. split; [done|]. split; [done|]. symmetry. apply Z.mod_small. lia.
Qed.

(** A modulus of full width with its Barrett constant. *)
Record barrett_ok (m mu : list Z) : Prop := {
  bo_wf : wf 8 m;
  bo_width : bpow 7 <= value m;
  bo_mu_wf : wf 9 mu;
  bo_mu : value mu = bpow 16 / value m
}.

Lemma bpow_mono n n' : (n <= n')%nat -> bpow n <= bpow n'.
Proof. intros Hn. unfold bpow. apply Z.pow_le_mono_r; unfold B; lia. Qed.

Lemma reduce_barrett_spec v m mu : wf 16 v -> barrett_ok m mu ->
  exists out, reduce_barrett v m mu = Some out /\ wf 8 out /\ value out = value v mod value m.
Proof.
  intros Hv [Hm Hw Hmu Hmuv]. unfold reduce_barrett. pose proof (bpow_pos 7). pose proof (bpow_pos 9).
  pose proof (wf_drop 16 7 v Hv) as Hq1. destruct (value_take_drop 16 7 v Hv ltac:(lia)) as [_ Hq1v].
  destruct (mul_limbs_spec 9 9 18 _ _ Hq1 Hmu ltac:(lia)) as (q2 & -> & Hq2 & Hq2v). cbn [mbind option_bind].
  pose proof (wf_drop 18 9 q2 Hq2) as Hq3. destruct (value_take_drop 18 9 q2 Hq2 ltac:(lia)) as [_ Hq3v].
  destruct (mul_limbs_spec 9 8 18 _ _ Hq3 Hm ltac:(lia)) as (q3m & -> & Hq3m & Hq3mv). cbn [mbind option_bind].
  pose proof (wf_take 16 9 v Hv ltac:(lia)) as Hr1. destruct (value_take_drop 16 9 v Hv ltac:(lia)) as [Hr1v _].
  pose proof (wf_take 18 9 q3m Hq3m ltac:(lia)) as Hr2. destruct (value_take_drop 18 9 q3m Hq3m ltac:(lia)) as [Hr2v _].
  destruct (sub_loop64_spec 9 _ _ Hr1 Hr2) as [Hr Hrv]. fold (sub_limbs9 (take 9 v) (take 9 q3m)) in Hr, Hrv.
  pose proof (value_bounds _ _ Hv) as Hvb. change 16%nat with (7 + 9)%nat in Hvb, Hmuv. rewrite bpow_add in Hvb, Hmuv.
  pose proof (barrett_estimate (value v) (value m) (bpow 7) (bpow 9) ltac:(lia) ltac:(lia) Hvb) as Hest.
  cbv zeta in Hest. rewrite <- Hmuv, <- Hq1v, <- Hq2v, <- Hq3v, <- Hq3mv in Hest.
  pose proof (value_bounds _ _ Hm). assert (3 * bpow 8 < bpow 9) by (rewrite (bpow_S 8); unfold B; pose proof (bpow_pos 8); lia).
  assert (value (sub_limbs9 (take 9 v) (take 9 q3m)) = value v - value q3m) as Hrv'.
  { rewrite Hrv, Hr1v, Hr2v, <- Zminus_mod. apply Z.mod_small. lia. }
  destruct (reduce_loop_spec 2 m Hm ltac:(lia) _ Hr ltac:(lia)) as (r & -> & Hwr & Hvr). cbn [mbind option_bind].
  eexists. split; [done|]. split; [by apply (wf_take 9); [|lia]|].
  destruct (value_take_drop 9 8 r Hwr ltac:(lia)) as [-> _]. rewrite Hvr, Hrv', Hq3mv.
  pose proof (Z.mod_pos_bound (value v - value (drop 9 q2) * value m) (value m) ltac:(lia)).
  rewrite (Z.mod_small _ (bpow 8)) by lia.
  replace (value v - value (drop 9 q2) * value m) with (value v + (- value (drop 9 q2)) * value m) by lia.
  apply Z.mod_add. lia.
Qed.

Lemma mul_mod_barrett_spec a b m mu : wf 8 a -> wf 8 b -> barrett_ok m mu ->
  value a < value m -> value b < value m ->
  exists out, mul_mod_barrett a b m mu = Some out /\ wf 8 out /\ value out = (value a * value b) mod value m.
Proof.
  intros Ha Hb Hm Ham Hbm. unfold mul_mod_barrett.
  pose proof (value_bounds _ _ Ha). pose proof (value_bounds _ _ Hb).
  case_decide as Hz.
  { exists ZERO_LIMBS. split; [done|]. split; [apply (wf_replicate 8)|].
    destruct Hz as [-> | ->]; rewrite ?Z.mul_0_l, ?Z.mul_0_r; by rewrite Z.mod_0_l by lia. }
  case_decide as H1; [subst; exists b|case_decide as H2; [subst; exists a|]].
  - split; [done|]. split; [done|]. change (value ONE_LIMBS) with 1. rewrite Z.mul_1_l, Z.mod_small; lia.
  - split; [done|]. split; [done|]. change (value ONE_LIMBS) with 1. rewrite Z.mul_1_r, Z.mod_small; lia.
  - destruct (mul_limbs_spec 8 8 16 a b Ha Hb ltac:(lia)) as (w & Hmul & Hw & Hv).
    unfold mul_limbs in Hmul. unfold mul_wide. rewrite Hmul. cbn [mbind option_bind]. rewrite <- Hv.
    by apply reduce_barrett_spec.
Qed.

(** ** Exponentiation *)

Lemma testbit_value n : forall l (bit : nat), wf n l -> (bit < 32 * n)%nat ->
  exists x, l !! (bit / 32)%nat = Some x /\
    Z.testbit (value l) (Z.of_nat bit) = Z.testbit x (Z.of_nat (bit mod 32)).
Proof.
  induction n as [|n IH]; intros l bit Hl Hb; [lia|]. apply wf_inv in Hl.
  destruct Hl as (x & l' & -> & Hx & Hl). rewrite value_cons.
  change B with (2 ^ 32) in *.
  destruct (decide (bit < 32)%nat) as [Hlt|Hge].
  - rewrite Nat.div_small, Nat.mod_small by lia. exists x. split; [done|].
    rewrite <- (Z.mod_pow2_bits_low (x + 2 ^ 32 * value l') 32) by lia.
    rewrite Z.mul_comm, Z.mod_add, Z.mod_small by lia. done.
  - destruct (IH l' (bit - 32)%nat Hl ltac:(lia)) as (y & Hy & Ht).
    assert (bit = bit - 32 + 1 * 32)%nat as Hbit by lia.
    exists y. rewrite Hbit, Nat.div_add, Nat.Div0.mod_add by lia. rewrite Nat.add_1_r. split; [done|].
    rewrite <- Ht. replace (Z.of_nat (bit - 32 + 1 * 32)) with (Z.of_nat (bit - 32) + 32) by lia.
    rewrite <- Z.div_pow2_bits by lia. f_equal. rewrite Z.mul_comm, Z.div_add by lia.
    rewrite Z.div_small by lia. lia.
Qed.

Lemma bit_is_set_spec l bit : wf 8 l -> (bit < 256)%nat ->
  bit_is_set l bit = Some (Z.testbit (value l) (Z.of_nat bit)).
Proof.
  intros Hl Hb. destruct (testbit_value 8 l bit Hl ltac:(lia)) as (x & Hx & ->).
  unfold bit_is_set. rewrite Hx. cbn [mbind option_bind]. f_equal.
  change 1 with (Z.ones 1) at 1. rewrite Z.land_ones by lia.
  change (2 ^ 1) with 2. rewrite Zmod_odd, <- Z.bit0_odd, Z.shiftr_spec by lia.
  rewrite Z.add_0_l. by destruct (Z.testbit _ _).
Qed.

(** The exponent bits [bit .. bit + n]. *)
Definition window (e : Z) (bit n : nat) : Z := (e / 2 ^ Z.of_nat bit) mod 2 ^ Z.of_nat n.

Lemma window_S e bit n : 0 <= e ->
  window e bit (S n) = Z.b2z (Z.testbit e (Z.of_nat bit)) + 2 * window e (S bit) n.
Proof.
  intros He. unfold window. rewrite !Nat2Z.inj_succ, Z.pow_succ_r, Z.testbit_spec' by lia.
  rewrite (Z.pow_succ_r 2 (Z.of_nat bit)), (Z.mul_comm 2 (2 ^ Z.of_nat bit)), <- Z.div_div by lia.
  assert (0 < 2 ^ Z.of_nat n) by (apply Z.pow_pos_nonneg; lia). rewrite Z.rem_mul_r by lia. done.
Qed.

Lemma pow_loop_spec m mu e : barrett_ok m mu -> wf 8 e -> forall n bit r b,
  (bit + n <= 256)%nat -> wf 8 r -> wf 8 b -> value r < value m -> value b < value m ->
  exists out, pow_loop n bit r b e m mu = Some out /\ wf 8 out /\
    value out = (value r * value b ^ window (value e) bit n) mod value m.
Proof.
  intros Hm He. assert (0 < value m) as Hpos by (destruct Hm as [_ Hw _ _]; pose proof (bpow_pos 7); lia).
  pose proof (value_bounds _ _ He) as Heb.
  induction n as [|n IH]; intros bit r b Hbit Hr Hb Hrm Hbm; cbn [pow_loop].
  { exists r. split; [done|]. split; [done|]. unfold window. change (2 ^ Z.of_nat 0) with 1.
    rewrite Z.mod_1_r, Z.pow_0_r, Z.mul_1_r. pose proof (value_bounds _ _ Hr). symmetry. apply Z.mod_small. lia. }
  rewrite bit_is_set_spec by (try done; lia). cbn [mbind option_bind].
  destruct (mul_mod_barrett_spec b b m mu Hb Hb Hm Hbm Hbm) as (b2 & Hb2 & Hwb2 & Hvb2).
  pose proof (Z.mod_pos_bound (value b * value b) (value m) Hpos).
  assert (0 <= window (value e) (S bit) n) by (apply Z.mod_pos_bound, Z.pow_pos_nonneg; lia).
  assert (forall x, (x * value b2 ^ window (value e) (S bit) n) mod value m =
    (x * value b ^ (2 * window (value e) (S bit) n)) mod value m) as Hsq.
  { intros x. rewrite Z.pow_mul_r, Z.pow_2_r, Hvb2 by lia.
    rewrite Z.mul_mod, <- Zpower_mod, <- Z.mul_mod by lia. done. }
  rewrite window_S by lia. destruct (Z.testbit (value e) (Z.of_nat bit)).
  - destruct (mul_mod_barrett_spec r b m mu Hr Hb Hm Hrm Hbm) as (r2 & -> & Hwr2 & Hvr2).
    pose proof (Z.mod_pos_bound (value r * value b) (value m) Hpos). cbn [mbind option_bind]. rewrite Hb2.
    cbn [mbind option_bind]. destruct (IH (S bit) r2 b2) as (out & Ho & Hwo & Hvo); try done; try lia.
    exists out. split; [done|]. split; [done|]. rewrite Hvo, Hsq, Hvr2, Z.mul_mod_idemp_l by lia.
    cbn [Z.b2z]. rewrite Z.pow_add_r, Z.pow_1_r, Z.mul_assoc by lia. done.
  - cbn [mbind option_bind]. rewrite Hb2. cbn [mbind option_bind].
    destruct (IH (S bit) r b2) as (out & Ho & Hwo & Hvo); try done; try lia.
    exists out. split; [done|]. split; [done|]. rewrite Hvo, Hsq. done.
Qed.

Lemma pow_mod_barrett_spec b e m mu : barrett_ok m mu -> wf 8 e -> wf 8 b ->
  1 < value m -> value b < value m ->
  exists out, pow_mod_barrett b e m mu = Some out /\ wf 8 out /\ value out = value b ^ value e mod value m.
Proof.
  intros Hm He Hb H1 Hbm. unfold pow_mod_barrett.
  destruct (pow_loop_spec m mu e Hm He 256 0 ONE_LIMBS b) as (out & Ho & Hw & Hv); try done.
  { by split; [|repeat constructor]. }
  exists out. split; [done|]. split; [done|]. rewrite Hv. change (value ONE_LIMBS) with 1. rewrite Z.mul_1_l.
  unfold window. rewrite Z.div_1_r, (Z.mod_small (value e)); [done|]. apply (value_bounds 8). done.
Qed.

(** ** Subtracting a small number *)

Lemma sub_small_spec n : forall l x, wf n l -> 0 <= x < B -> x <= value l ->
  wf n (sub_small l x) /\ value (sub_small l x) = value l - x.
Proof.
  unfold sub_small. induction n as [|n IH]; intros l x Hl Hx Hle; apply wf_inv in Hl.
  { subst. cbn in *. split; [done|]. lia. }
  destruct Hl as (y & l' & -> & Hy & Hl). rewrite value_cons in *. cbn [sub_small_loop].
  destruct (Z.eqb_spec x 0) as [->|Hne].
  { split; [by apply wf_cons|]. rewrite value_cons. lia. }
  assert (limb x = x) as -> by (unfold limb, B in *; apply Z.mod_small; lia).
  destruct (IH l' (Z.b2z (y <? x)) Hl) as [Hw Hv].
  { destruct (y <? x); cbn; unfold B; lia. }
  { pose proof (value_bounds _ _ Hl). destruct (Z.ltb_spec y x); cbn; unfold B in *; lia. }
  split; [apply wf_cons; split; [apply limb_bounds|done]|]. rewrite value_cons, Hv.
  unfold limb, B in *. destruct (Z.ltb_spec y x); cbn; dlia.
Qed.

Lemma inv_mod_prime_barrett_spec a m mu : barrett_ok m mu -> wf 8 a -> 2 < value m -> 0 < value a < value m ->
  exists out, inv_mod_prime_barrett a m mu = Some (Some out) /\ wf 8 out /\
    value out = value a ^ (value m - 2) mod value m.
Proof.
  intros Hm Ha H2 Hav. unfold inv_mod_prime_barrett. rewrite decide_False.
  2: { intros [-> | ->]; change (value ZERO_LIMBS) with 0 in *; lia. }
  case_decide as H1.
  { exists ONE_LIMBS. split; [done|]. split; [by split; [|repeat constructor]|]. subst.
    change (value ONE_LIMBS) with 1. rewrite Z.pow_1_l, Z.mod_small by lia. done. }
  pose proof Hm as [Hwm _ _ _]. destruct (sub_small_spec 8 m 2 Hwm ltac:(unfold B; lia) ltac:(lia)) as [Hw Hv].
  destruct (pow_mod_barrett_spec a (sub_small m 2) m mu) as (out & -> & Hwo & Hvo); try done; try lia.
  exists out. by rewrite Hvo, Hv.
Qed.
