(* ===== verification/Felt.v ===== *)
(** * The Goldilocks field: its modulus is prime, its elements and words

    The order of the field behind [Felt] (crates/field) is
    [2^64 - 2^32 + 1].  The VM inverts field elements, so the development needs
    this number to be prime: the documented behaviour of the external field
    library ([Felt.GoldilocksLaws]) can only hold then.  The proof is
    Pocklington's criterion with the factor [2^32] of [ORDER - 1] and the base
    7: every prime divisor of [ORDER] is [1] modulo [2^32], hence above its
    square root. *)

From Stdlib Require Import ZArith Lia Znumtheory Zpow_facts Zmod.
From Stdlib Require Import Zpow_facts Eqdep_dec.
From S2P Require Import Prelude.

Open Scope Z_scope.

(** [Felt::ORDER]. *)
Definition ORDER : Z := 18446744069414584321.

Lemma ORDER_eq : ORDER = 2 ^ 64 - 2 ^ 32 + 1.
Proof. reflexivity. Qed.

Lemma pow_one_mod q x n : 1 < q -> 0 <= n -> x mod q = 1 -> x ^ n mod q = 1.
Proof.
  intros Hq Hn Hx. rewrite Zpower_mod, Hx, Z.pow_1_l by lia. apply Z.mod_small. lia.
Qed.

(** Exponents that give one are closed under the greatest common divisor. *)
Lemma pow_gcd_mod q x m n : 1 < q -> 0 < m -> 0 < n ->
  x ^ m mod q = 1 -> x ^ n mod q = 1 -> x ^ Z.gcd m n mod q = 1.
Proof.
  intros Hq Hm Hn Em En.
  destruct (N.gcd_bezout_pos (Z.to_N m) (Z.to_N n)) as (a & b & Hab); [lia|].
  assert (Hg : Z.of_N a * m = Z.gcd m n + Z.of_N b * n).
  { apply (f_equal Z.of_N) in Hab.
    rewrite N2Z.inj_add, !N2Z.inj_mul, !Z2N.id in Hab by lia.
    rewrite Hab. f_equal. destruct m, n; try lia. reflexivity. }
  assert (E : x ^ (Z.of_N a * m) mod q = 1).
  { rewrite Z.mul_comm, Z.pow_mul_r by lia. apply pow_one_mod; lia. }
  rewrite Hg, Z.pow_add_r in E by (lia || apply Z.gcd_nonneg).
  rewrite (Z.mul_comm (Z.of_N b)), (Z.pow_mul_r x n) in E by lia.
  rewrite Z.mul_mod, (pow_one_mod q (x ^ n)), Z.mul_1_r, Z.mod_mod in E by lia.
  exact E.
Qed.

Lemma prime_divisor n : 1 < n -> exists q, Z.prime q /\ (q | n).
Proof.
  intros Hn.
  induction n as [n IH] using (well_founded_induction (Z.lt_wf 0)).
  destruct (prime_dec n) as [Hp|Hp].
  { exists n. split; [apply prime_alt, Hp|apply Z.divide_refl]. }
  destruct (not_prime_divide n Hn Hp) as (d & Hd & Hdn).
  destruct (IH d) as (q & Hq & Hqd); [lia|lia|].
  exists q. split; [exact Hq|]. exact (Z.divide_trans _ _ _ Hqd Hdn).
Qed.

Lemma divisor_of_pow2_32 d : 0 <= d -> (d | 2 ^ 32) -> d <> 2 ^ 32 -> (d | 2 ^ 31).
Proof.
  intros Hd0 Hd Hne.
  destruct (Zdivide_power_2 d 2 32 ltac:(lia) Hd0 (proj1 (prime_alt 2) Z.prime_2) Hd) as [m ->].
  destruct (Z_lt_le_dec m 0) as [Hm|Hm].
  { rewrite Z.pow_neg_r in Hd by lia. destruct Hd as [k Hk]. lia. }
  assert (m <= 32).
  { apply Z.divide_pos_le in Hd; [|lia]. apply Z.pow_le_mono_r_iff in Hd; lia. }
  assert (m <> 32) by (intros ->; lia).
  exists (2 ^ (31 - m)). rewrite <- Z.pow_add_r by lia. f_equal. lia.
Qed.

(** A primitive root of unity of order [2^32]: [7 ^ ((ORDER - 1) / 2^32)]. *)
Definition root32 : Z := 1753635133440165772.

Lemma root32_pow32 : root32 ^ (2 ^ 32) mod ORDER = 1.
Proof. rewrite <- Zpow_mod_correct by discriminate. vm_compute. reflexivity. Qed.

Lemma root32_pow31 : root32 ^ (2 ^ 31) mod ORDER = ORDER - 1.
Proof. rewrite <- Zpow_mod_correct by discriminate. vm_compute. reflexivity. Qed.

(** A residue of a multiple of [q] determines the residue modulo [q]. *)
Lemma mod_divisor a q n : 0 < q -> 0 < n -> (q | n) -> a mod q = (a mod n) mod q.
Proof.
  intros Hq Hn [k Hk]. rewrite (Z.div_mod a n) at 1 by lia.
  replace (n * (a / n) + a mod n) with (a mod n + (k * (a / n)) * q) by (rewrite Hk; ring).
  apply Z.mod_add. lia.
Qed.

Lemma prime_order_pow2 q c m n : Z.prime q -> 0 < m -> 0 < n ->
  c ^ m mod q = 1 -> c ^ n mod q <> 1 ->
  (forall d, 0 <= d -> (d | m) -> d <> m -> (d | n)) -> (m | q - 1).
Proof.
  intros Hq Hm Hn Ecm Ecn Hmn. pose proof (Z.prime_ge_2 q Hq).
  assert (Hcq : c ^ (q - 1) mod q = 1).
  { apply Z.fermat_nz; [exact Hq|]. intros E.
    rewrite Zpower_mod, E, Z.pow_0_l, Z.mod_0_l in Ecm by lia. lia. }
  pose proof (pow_gcd_mod q c m (q - 1) ltac:(lia) Hm ltac:(lia) Ecm Hcq) as Hg.
  destruct (Z.eq_dec (Z.gcd m (q - 1)) m) as [E|E].
  { rewrite <- E. apply Z.gcd_divide_r. }
  exfalso. apply Ecn. revert Hg.
  destruct (Hmn _ (Z.gcd_nonneg _ _) (Z.gcd_divide_l _ _) E) as [k ->].
  pose proof (Z.gcd_nonneg m (q - 1)) as Hg0.
  generalize dependent (Z.gcd m (q - 1)). intros g Hn _ _ _ Hg0 Hg.
  assert (Hk : 0 <= k) by (clear - Hn Hg0; nia).
  rewrite Z.mul_comm, Z.pow_mul_r by assumption. apply pow_one_mod; lia || assumption.
Qed.

Lemma prime_divisor_of_ORDER q : Z.prime q -> (q | ORDER) -> (2 ^ 32 | q - 1).
Proof.
  intros Hq Hdiv. pose proof (Z.prime_ge_2 q Hq).
  assert (Hodd : q <> 2).
  { intros ->. destruct Hdiv as [k Hk]. unfold ORDER in Hk. lia. }
  apply (prime_order_pow2 q root32 (2 ^ 32) (2 ^ 31) Hq);
    [reflexivity|reflexivity| | |exact divisor_of_pow2_32].
  - rewrite (mod_divisor _ q ORDER), root32_pow32; [|lia|reflexivity|exact Hdiv].
    apply Z.mod_small. lia.
  - rewrite (mod_divisor _ q ORDER), root32_pow31; [|lia|reflexivity|exact Hdiv].
    intros E. destruct Hdiv as [k Hk]. rewrite Hk in E.
    replace (k * q - 1) with ((q - 1) + (k - 1) * q) in E by lia.
    rewrite Z.mod_add, Z.mod_small in E by lia. lia.
Qed.

Lemma ORDER_prime : Z.prime ORDER.
Proof.
  split; [reflexivity|]. intros n Hn Hdiv.
  assert (exists m, 1 < m < 2 ^ 32 /\ (m | ORDER)) as (m & Hm & Hmo).
  { destruct (Z_lt_le_dec n (2 ^ 32)) as [Hs|Hs]; [exists n; tauto|].
    destruct Hdiv as [k Hk]. exists k. split; [|exists n; lia].
    unfold ORDER in *. nia. }
  destruct (prime_divisor m ltac:(lia)) as (q & Hq & Hqm).
  pose proof (prime_divisor_of_ORDER q Hq (Z.divide_trans _ _ _ Hqm Hmo)) as Hd.
  pose proof (Z.prime_ge_2 q Hq). apply Z.divide_pos_le in Hd; [|lia].
  apply Z.divide_pos_le in Hqm; lia.
Qed.

(** Every nonzero residue has an inverse, given by Fermat's little theorem. *)
Lemma fermat_inverse a : 0 < a < ORDER -> (a * (a ^ (ORDER - 2) mod ORDER)) mod ORDER = 1.
Proof.
  intros Ha. rewrite Z.mul_mod_idemp_r by discriminate.
  rewrite <- Z.pow_succ_r by discriminate.
  change (Z.succ (ORDER - 2)) with (ORDER - 1).
  apply Z.fermat_nz; [exact ORDER_prime|]. rewrite Z.mod_small; lia.
Qed.

(** ** Field elements and words

    [Felt] of crates/field/src/native/mod.rs.  A field element is its canonical
    representative, so Rust's [==], [Hash] and [as_canonical_u64] are equality
    and the projection.  The arithmetic is that of the third-party Goldilocks
    type: the operations are a class [Goldilocks], and what its documentation
    promises is [GoldilocksLaws].  [goldilocks_ref] is an executable instance
    that satisfies the laws, used by the witnesses.  [Word] is four elements
    (crates/field/src/word/mod.rs). *)

(** ** Machine integers *)

Definition U32_MAX : Z := 4294967295.
Definition U64_MAX : Z := 18446744073709551615.
(** [usize::MAX], on a 64-bit target. *)
Definition USIZE_MAX : Z := U64_MAX.

Definition is_u32 (x : Z) : Prop := 0 <= x <= U32_MAX.
Definition is_u64 (x : Z) : Prop := 0 <= x <= U64_MAX.

Definition wrap32 (x : Z) : Z := x mod 2 ^ 32.
Definition wrap64 (x : Z) : Z := x mod 2 ^ 64.

(** ** Field elements *)

Definition canonicalb (x : Z) : bool := (0 <=? x) && (x <? ORDER).

Record Felt := mkFelt {
  as_canonical_u64 : Z;
  felt_canonical : canonicalb as_canonical_u64 = true
}.

Lemma canonicalb_spec x : canonicalb x = true <-> 0 <= x < ORDER.
Proof. unfold canonicalb. rewrite andb_true_iff, Z.leb_le, Z.ltb_lt. done. Qed.

Lemma felt_range (a : Felt) : 0 <= as_canonical_u64 a < ORDER.
Proof. apply canonicalb_spec, felt_canonical. Qed.

Lemma felt_eq (a b : Felt) : as_canonical_u64 a = as_canonical_u64 b -> a = b.
Proof.
  destruct a as [a Ha], b as [b Hb]. simpl. intros <-. f_equal.
  apply UIP_dec. apply bool_dec.
Qed.

#[export] Instance felt_eq_dec : EqDecision Felt.
Proof.
  refine (fun a b => match Z.eq_dec (as_canonical_u64 a) (as_canonical_u64 b) with
                     | left H => left (felt_eq a b H)
                     | right H => right (fun E => H (f_equal as_canonical_u64 E))
                     end).
Defined.

(** The element represented by an integer.  The proof carried by the result is
    a computation, so that concrete elements evaluate to normal forms. *)
Lemma mod_ORDER_canonical z : canonicalb (z mod ORDER) = true.
Proof. apply canonicalb_spec, Z.mod_pos_bound. reflexivity. Qed.

Definition felt_of_Z (z : Z) : Felt :=
  let r := z mod ORDER in
  match canonicalb r as c return canonicalb r = c -> Felt with
  | true => fun H => mkFelt r H
  | false => fun _ => mkFelt 0 eq_refl
  end eq_refl.

Lemma as_canonical_felt_of_Z z : as_canonical_u64 (felt_of_Z z) = z mod ORDER.
Proof.
  assert (aux : forall r c (e : canonicalb r = c), c = true ->
    as_canonical_u64 (match c as c return canonicalb r = c -> Felt with
                      | true => fun H => mkFelt r H
                      | false => fun _ => mkFelt 0 eq_refl
                      end e) = r) by (by intros r [] e).
  apply aux, mod_ORDER_canonical.
Qed.

Lemma felt_of_Z_small z : 0 <= z < ORDER -> as_canonical_u64 (felt_of_Z z) = z.
Proof. intros. rewrite as_canonical_felt_of_Z. by apply Z.mod_small. Qed.

Lemma felt_of_canonical a : felt_of_Z (as_canonical_u64 a) = a.
Proof. apply felt_eq, felt_of_Z_small, felt_range. Qed.

#[export] Instance felt_inhabited : Inhabited Felt := populate (mkFelt 0 eq_refl).

#[export] Instance felt_countable : Countable Felt.
Proof.
  refine (inj_countable' as_canonical_u64 felt_of_Z _). apply felt_of_canonical.
Defined.

Definition ZERO : Felt := mkFelt 0 eq_refl.
Definition ONE : Felt := mkFelt 1 eq_refl.

(** [Felt::new_unchecked] accepts any [u64] and denotes its residue;
    [Felt::new] rejects values that are not canonical. *)
Definition new_unchecked (value : Z) : Felt := felt_of_Z value.
Definition felt_new (value : Z) : option Felt :=
  if value <? ORDER then Some (felt_of_Z value) else None.
Definition from_u32 (value : Z) : Felt := new_unchecked value.
Definition from_bool (b : bool) : Felt := new_unchecked (if b then 1 else 0).

(** [as_canonical_u64_ct] on the raw limb: one conditional subtraction. *)
Definition as_canonical_u64_ct (raw : Z) : Z :=
  let reduced := wrap64 (raw - ORDER) in
  let reduce := negb (raw <? ORDER) in
  if reduce then reduced else raw.

(** The single conditional subtraction reduces every raw [u64]. *)
Lemma as_canonical_u64_ct_correct raw : is_u64 raw ->
  as_canonical_u64_ct raw = as_canonical_u64 (new_unchecked raw).
Proof.
  unfold is_u64, U64_MAX. intros H. unfold new_unchecked.
  rewrite as_canonical_felt_of_Z. unfold as_canonical_u64_ct, wrap64.
  destruct (Z.ltb_spec raw ORDER) as [Hlt|Hge]; simpl.
  - symmetry. apply Z.mod_small. lia.
  - unfold ORDER in *. rewrite Z.mod_small by lia.
    apply (Z.mod_unique _ _ 1); lia.
Qed.

(** ** Goldilocks arithmetic, an external library *)

Class Goldilocks := {
  gl_add : Felt -> Felt -> Felt;
  gl_sub : Felt -> Felt -> Felt;
  gl_mul : Felt -> Felt -> Felt;
  gl_neg : Felt -> Felt;
  gl_try_inverse : Felt -> option Felt
}.

Declare Scope felt_scope.
Delimit Scope felt_scope with F.
Infix "+" := gl_add : felt_scope.
Infix "-" := gl_sub : felt_scope.
Infix "*" := gl_mul : felt_scope.
Notation "- x" := (gl_neg x) : felt_scope.
Bind Scope felt_scope with Felt.
Notation "⟦ a ⟧" := (as_canonical_u64 a) (at level 0, a at level 200, format "⟦ a ⟧").

Class GoldilocksLaws (G : Goldilocks) : Prop := {
  gl_add_spec a b : ⟦(a + b)%F⟧ = (⟦a⟧ + ⟦b⟧) mod ORDER;
  gl_sub_spec a b : ⟦(a - b)%F⟧ = (⟦a⟧ - ⟦b⟧) mod ORDER;
  gl_mul_spec a b : ⟦(a * b)%F⟧ = (⟦a⟧ * ⟦b⟧) mod ORDER;
  gl_neg_spec a : ⟦(- a)%F⟧ = (- ⟦a⟧) mod ORDER;
  gl_inverse_zero : gl_try_inverse ZERO = None;
  gl_inverse_spec a : a <> ZERO ->
    exists i, gl_try_inverse a = Some i /\ (a * i)%F = ONE
}.

(** [Field::inverse] panics on zero. *)
Definition gl_inverse `{Goldilocks} (a : Felt) : option Felt := gl_try_inverse a.

Definition goldilocks_ref : Goldilocks := {|
  gl_add a b := felt_of_Z (⟦a⟧ + ⟦b⟧);
  gl_sub a b := felt_of_Z (⟦a⟧ - ⟦b⟧);
  gl_mul a b := felt_of_Z (⟦a⟧ * ⟦b⟧);
  gl_neg a := felt_of_Z (- ⟦a⟧);
  gl_try_inverse a :=
    if decide (a = ZERO) then None else Some (felt_of_Z (Zpow_mod ⟦a⟧ (ORDER - 2) ORDER))
|}.

Lemma goldilocks_ref_laws : GoldilocksLaws goldilocks_ref.
Proof.
  split; try (intros; apply as_canonical_felt_of_Z); [done|].
  intros a Ha. eexists. cbn [gl_try_inverse goldilocks_ref].
  rewrite decide_False by done. split; [done|].
  apply felt_eq. cbn [gl_mul goldilocks_ref]. rewrite !as_canonical_felt_of_Z.
  rewrite Zpow_mod_correct by discriminate.
  rewrite Z.mod_mod by discriminate. rewrite fermat_inverse; [done|].
  pose proof (felt_range a). destruct (Z.eq_dec ⟦a⟧ 0) as [E|E]; [|lia].
  by destruct Ha; apply felt_eq.
Qed.

(** ** The ring laws, for any implementation that keeps the promise *)

(** Turns an equation between canonical values into one between residues of
    integer polynomials. *)
Ltac felt_push :=
  repeat (rewrite gl_add_spec || rewrite gl_sub_spec || rewrite gl_mul_spec
          || rewrite gl_neg_spec || rewrite as_canonical_felt_of_Z);
  change ⟦ZERO⟧ with 0; change ⟦ONE⟧ with 1;
  repeat first [rewrite Z.add_mod_idemp_l by discriminate
               |rewrite Z.add_mod_idemp_r by discriminate
               |rewrite Zminus_mod_idemp_l
               |rewrite Zminus_mod_idemp_r
               |rewrite Z.mul_mod_idemp_l by discriminate
               |rewrite Z.mul_mod_idemp_r by discriminate];
  rewrite ?Z.add_0_l, ?Z.mul_1_l, ?Z.add_opp_diag_r.

Section FeltRing.
Context `{GL : GoldilocksLaws}.

Lemma felt_ring_theory : ring_theory ZERO ONE gl_add gl_mul gl_sub gl_neg eq.
Proof.
  split; intros; apply felt_eq; felt_push;
    try (f_equal; ring); done || apply Z.mod_small, felt_range.
Qed.

Lemma felt_integral (a b : Felt) : (a * b)%F = ZERO -> a = ZERO \/ b = ZERO.
Proof.
  intros H. apply (f_equal as_canonical_u64) in H. rewrite gl_mul_spec in H.
  apply Z.mod_divide in H; [|done].
  pose proof (felt_range a); pose proof (felt_range b).
  apply Z.divide_prime_mul in H; [|exact ORDER_prime].
  destruct H as [H|H]; [left|right]; apply felt_eq; change ⟦ZERO⟧ with 0.
  - destruct (Z.eq_dec ⟦a⟧ 0); [done|]. apply Z.divide_pos_le in H; lia.
  - destruct (Z.eq_dec ⟦b⟧ 0); [done|]. apply Z.divide_pos_le in H; lia.
Qed.

End FeltRing.

(** ** Words *)

Record Word := mkWord { word_a : Felt; word_b : Felt; word_c : Felt; word_d : Felt }.

Definition into_elements (w : Word) : list Felt :=
  [word_a w; word_b w; word_c w; word_d w].

Definition word_of_list (l : list Felt) : option Word :=
  match l with [a; b; c; d] => Some (mkWord a b c d) | _ => None end.

#[export] Instance word_eq_dec : EqDecision Word.
Proof. solve_decision. Defined.

#[export] Instance word_countable : Countable Word.
Proof.
  refine (inj_countable' (fun w => (word_a w, word_b w, word_c w, word_d w))
            (fun t => mkWord t.1.1.1 t.1.1.2 t.1.2 t.2) _).
  by intros [].
Defined.

#[export] Instance word_inhabited : Inhabited Word := populate (mkWord ZERO ZERO ZERO ZERO).

Definition EMPTY_WORD : Word := mkWord ZERO ZERO ZERO ZERO.
Definition WORD_SIZE : nat := 4.

(** [word[i]] and [word[i] = x], with Rust's bounds check. *)
Definition word_get (w : Word) (i : nat) : option Felt := into_elements w !! i.
Definition word_set (w : Word) (i : nat) (x : Felt) : option Word :=
  match i with
  | 0%nat => Some (mkWord x (word_b w) (word_c w) (word_d w))
  | 1%nat => Some (mkWord (word_a w) x (word_c w) (word_d w))
  | 2%nat => Some (mkWord (word_a w) (word_b w) x (word_d w))
  | 3%nat => Some (mkWord (word_a w) (word_b w) (word_c w) x)
  | _ => None
  end.

Lemma word_get_set w i x w' : word_set w i x = Some w' ->
  forall j, word_get w' j = if decide (i = j) then Some x else word_get w j.
Proof.
  intros H j. do 4 (destruct i as [|i]; [injection H as <-;
    do 4 (destruct j as [|j]; [done|]); done|]). done.
Qed.

Lemma word_get_is_Some w i : (i < 4)%nat -> is_Some (word_get w i).
Proof. intros H. apply lookup_lt_is_Some. done. Qed.

Lemma word_set_is_Some w i x : (i < 4)%nat -> is_Some (word_set w i x).
Proof. intros H. do 4 (destruct i as [|i]; [by eexists|]). lia. Qed.
