(* ===== verification/AdviceMap.v ===== *)
(** * Words in order and the advice map

    The order of words (crates/field/src/word/mod.rs), [usize] arithmetic that
    reports overflow, and the advice map (core/src/advice/map.rs): a [BTreeMap]
    from words to lists of elements. *)

From S2P Require Import Prelude Felt.

(** ** [usize] arithmetic *)

Definition checked_add (a b : Z) : option Z := if a + b <=? USIZE_MAX then Some (a + b) else None.
Definition checked_mul (a b : Z) : option Z := if a * b <=? USIZE_MAX then Some (a * b) else None.

(** ** The order of words *)

Fixpoint cmp_elements (l : list (Felt * Felt)) : comparison :=
  match l with
  | [] => Eq
  | (felt0, felt1) :: l =>
      match Z.compare ⟦felt0⟧ ⟦felt1⟧ with Eq => cmp_elements l | ordering => ordering end
  end.

(** [Ord for Word]: the last element is the most significant one. *)
Definition word_cmp (a b : Word) : comparison :=
  cmp_elements (zip (reverse (into_elements a)) (reverse (into_elements b))).

Definition word_ltb (a b : Word) : bool := match word_cmp a b with Lt => true | _ => false end.

(** ** The map *)

Notation AdviceMap := (gmap Word (list Felt)) (only parsing).

Definition entry_le (e1 e2 : Word * list Felt) : Prop := word_cmp (fst e1) (fst e2) <> Gt.

#[export] Instance entry_le_dec e1 e2 : Decision (entry_le e1 e2).
Proof. unfold entry_le. apply _. Defined.

(** The entries in the order of their keys. *)
Definition map_iter (m : AdviceMap) : list (Word * list Felt) := merge_sort entry_le (map_to_list m).

(** [find_conflicting_entry], with the existing and the new values. *)
Fixpoint find_conflicting_entry (m : AdviceMap) (entries : list (Word * list Felt)) :
    option (Word * list Felt * list Felt) :=
  match entries with
  | [] => None
  | (key, new_value) :: rest =>
      match m !! key with
      | Some existing_value =>
          if decide (existing_value = new_value) then find_conflicting_entry m rest
          else Some (key, existing_value, new_value)
      | None => find_conflicting_entry m rest
      end
  end.

(** [merge_new]: [entry(key).or_insert_with(..)] for every entry. *)
Definition merge_new (m : AdviceMap) (entries : list (Word * list Felt)) : AdviceMap :=
  foldl (fun m e => match m !! fst e with Some _ => m | None => <[fst e := snd e]> m end) m entries.

(** [total_element_count], in [usize]. *)
Fixpoint count_elements (entries : list (Word * list Felt)) (total : Z) : option Z :=
  match entries with
  | [] => Some total
  | (_, values) :: rest =>
      entry_elements ← checked_add 4 (Z.of_nat (length values));
      total ← checked_add total entry_elements;
      count_elements rest total
  end.

Definition total_element_count (m : AdviceMap) : option Z := count_elements (map_iter m) 0.

(** ** Iteration visits every entry once *)

Lemma map_iter_perm m : map_iter m ≡ₚ map_to_list m.
Proof. apply merge_sort_Permutation. Qed.

Lemma map_iter_nodup m : NoDup (map_iter m).*1.
Proof. rewrite map_iter_perm. apply NoDup_fst_map_to_list. Qed.

Lemma map_iter_list_to_map m : list_to_map (map_iter m) = m.
Proof.
  symmetry. apply list_to_map_flip. symmetry. apply map_iter_perm.
Qed.
