(* ===== verification/Serde.v ===== *)
(** * Byte serialization

    crates/serde-utils: the reader and writer traits with the slice and the
    budgeted reader (byte_reader.rs, byte_writer.rs), and the [Serializable] and
    [Deserializable] traits with their implementations for integers and
    collections (lib.rs).

    A byte is an integer in [0..256], and [usize] is 64 bits wide.  A writer
    only ever appends, so writing a value is the list of the bytes appended.
    Readers are states of the error monad; an error does not roll the reader
    back.  The texts of [InvalidValue] are kept without the numbers formatted
    into them. *)

From S2P Require Import Prelude Felt.

Definition is_u8 (x : Z) : Prop := 0 <= x < 256.

Inductive DeserializationError :=
| UnexpectedEOF
| InvalidValue (msg : string)
| UnknownError (msg : string).

#[export] Instance deserialization_error_eq_dec : EqDecision DeserializationError.
Proof. solve_decision. Defined.

Notation DM R A := (M DeserializationError R A).
Notation DR A := (res DeserializationError A).

(** ** Little-endian bytes *)

Fixpoint to_le_bytes (n : nat) (x : Z) : list Z :=
  match n with
  | O => []
  | S n => x mod 256 :: to_le_bytes n (x / 256)
  end.

Definition from_le_bytes (l : list Z) : Z := foldr (fun b acc => b + 256 * acc) 0 l.

(** [u64::leading_zeros] and [u8::trailing_zeros]. *)
Definition leading_zeros64 (x : Z) : Z := if x <=? 0 then 64 else 63 - Z.log2 x.

Fixpoint trailing_zeros_from (fuel : nat) (i x : Z) : Z :=
  match fuel with
  | O => i
  | S fuel => if Z.testbit x i then i else trailing_zeros_from fuel (i + 1) x
  end.
Definition trailing_zeros8 (x : Z) : Z := trailing_zeros_from 8 0 x.

(** ** Writers *)

Definition write_u8 (value : Z) : list Z := [value].
Definition write_bytes (values : list Z) : list Z := values.
Definition write_bool (val : bool) : list Z := write_u8 (if val then 1 else 0).
Definition write_u16 (value : Z) : list Z := write_bytes (to_le_bytes 2 value).
Definition write_u32 (value : Z) : list Z := write_bytes (to_le_bytes 4 value).
Definition write_u64 (value : Z) : list Z := write_bytes (to_le_bytes 8 value).
Definition write_u128 (value : Z) : list Z := write_bytes (to_le_bytes 16 value).

Definition usize_encoded_len (value : Z) : nat :=
  let zeros := leading_zeros64 value in
  let len := Z.max 0 (zeros - 1) / 7 in
  Z.to_nat (9 - Z.min len 8).

Definition write_usize (value : Z) : list Z :=
  let length := usize_encoded_len value in
  if (length =? 9)%nat then write_u8 0 ++ write_bytes (to_le_bytes 8 value)
  else
    let encoded := Z.lor (wrap64 (Z.shiftl value 1)) 1 in
    let encoded_bytes := to_le_bytes 8 (wrap64 (Z.shiftl encoded (Z.of_nat length - 1))) in
    write_bytes (take length encoded_bytes).

(** ** Readers *)

Class ByteReader (R : Type) := {
  read_u8 : DM R Z;
  peek_u8 : R -> DR Z;
  read_slice : Z -> DM R (list Z);
  read_array : nat -> DM R (list Z);
  check_eor : R -> Z -> DR unit;
  has_more_bytes : R -> bool;
  max_alloc : R -> Z -> Z
}.

Section Provided.
Context {R : Type} `{BR : ByteReader R}.

Definition read_bool : DM R bool :=
  let! byte := read_u8 in
  if byte =? 0 then ret false
  else if byte =? 1 then ret true
  else fail (InvalidValue "not a boolean value").

Definition read_u16 : DM R Z := let! bytes := read_array 2 in ret (from_le_bytes bytes).
Definition read_u32 : DM R Z := let! bytes := read_array 4 in ret (from_le_bytes bytes).
Definition read_u64 : DM R Z := let! bytes := read_array 8 in ret (from_le_bytes bytes).
Definition read_u128 : DM R Z := let! bytes := read_array 16 in ret (from_le_bytes bytes).

(** The result is at most [usize::MAX] on a 64-bit platform. *)
Definition read_usize : DM R Z :=
  let! first_byte := fun r => (peek_u8 r, r) in
  let length := trailing_zeros8 first_byte + 1 in
  let! result :=
    (if length =? 9 then
       do! read_u8;
       let! value := read_array 8 in
       ret (from_le_bytes value)
     else
       let! value := read_slice length in
       let! encoded := expect (copy_at 0 value (replicate 8 0)) in
       ret (Z.shiftr (from_le_bytes encoded) length)) in
  if U64_MAX <? result then fail (InvalidValue "Encoded value must be less") else ret result.

Definition read_vec (len : Z) : DM R (list Z) := read_slice len.

End Provided.

(** ** The slice reader *)

Record SliceReader := mkSliceReader { sr_source : list Z; sr_pos : nat }.

Definition slice_reader_new (source : list Z) : SliceReader := mkSliceReader source 0.

Definition sr_check_eor (s : SliceReader) (num_bytes : Z) : DR unit :=
  let stop := Z.of_nat (sr_pos s) + num_bytes in
  if (stop <=? U64_MAX) && (stop <=? Z.of_nat (length (sr_source s))) then Ok tt
  else Err UnexpectedEOF.

Definition sr_read_slice (len : Z) : DM SliceReader (list Z) :=
  fun s =>
    match sr_check_eor s len with
    | Ok _ =>
        let stop := (sr_pos s + Z.to_nat len)%nat in
        match slice (sr_pos s) stop (sr_source s) with
        | Some result => (Ok result, mkSliceReader (sr_source s) stop)
        | None => (Panic, s)
        end
    | Err e => (Err e, s)
    | Panic => (Panic, s)
    end.

#[export] Instance slice_reader : ByteReader SliceReader := {|
  read_u8 := fun s =>
    match sr_check_eor s 1 with
    | Ok _ =>
        match sr_source s !! sr_pos s with
        | Some result => (Ok result, mkSliceReader (sr_source s) (sr_pos s + 1))
        | None => (Panic, s)
        end
    | Err e => (Err e, s)
    | Panic => (Panic, s)
    end;
  peek_u8 s := let? _ := sr_check_eor s 1 in rexpect (sr_source s !! sr_pos s);
  read_slice := sr_read_slice;
  read_array n := sr_read_slice (Z.of_nat n);
  check_eor := sr_check_eor;
  has_more_bytes s := (sr_pos s <? length (sr_source s))%nat;
  max_alloc _ _ := U64_MAX
|}.

(** ** The budgeted reader *)

Record BudgetedReader (R : Type) := mkBudgetedReader { br_inner : R; br_remaining : Z }.
Arguments mkBudgetedReader {R}.
Arguments br_inner {R}.
Arguments br_remaining {R}.

Section Budgeted.
Context {R : Type} `{BR : ByteReader R}.

Definition consume_budget (n : Z) : DM (BudgetedReader R) unit :=
  fun s =>
    if br_remaining s <? n then (Err (InvalidValue "budget exhausted"), s)
    else (Ok tt, mkBudgetedReader (br_inner s) (br_remaining s - n)).

Definition on_inner {A} (m : DM R A) : DM (BudgetedReader R) A :=
  fun s => let '(r, i) := m (br_inner s) in (r, mkBudgetedReader i (br_remaining s)).

#[export] Instance budgeted_reader : ByteReader (BudgetedReader R) := {|
  read_u8 := do! consume_budget 1; on_inner read_u8;
  peek_u8 s := peek_u8 (br_inner s);
  read_slice len := do! consume_budget len; on_inner (read_slice len);
  read_array n := do! consume_budget (Z.of_nat n); on_inner (read_array n);
  check_eor s num_bytes :=
    if br_remaining s <? num_bytes then Err (InvalidValue "budget exhausted")
    else check_eor (br_inner s) num_bytes;
  has_more_bytes s := (0 <? br_remaining s) && has_more_bytes (br_inner s);
  max_alloc s element_size := if element_size =? 0 then 0 else br_remaining s / element_size
|}.

End Budgeted.

(** ** Serializable and deserializable values *)

Class Serializable (T : Type) := { write_into : T -> list Z; get_size_hint : T -> Z }.

Class Deserializable (T : Type) := {
  read_from : forall {R : Type} {BR : ByteReader R}, DM R T;
  min_serialized_size : Z
}.

Definition write_many {T} `{Serializable T} (elements : list T) : list Z := elements ≫= write_into.

Section ReadMany.
Context {T : Type} `{DT : Deserializable T} {R : Type} `{BR : ByteReader R}.

(** The iterator of [read_many_iter], collected. *)
Fixpoint collect_many (n : nat) : DM R (list T) :=
  match n with
  | O => ret []
  | S n => let! x := read_from in let! l := collect_many n in ret (x :: l)
  end.

Definition read_many (num_elements : Z) : DM R (list T) :=
  let! max_elements := gets (fun r => max_alloc r min_serialized_size) in
  if max_elements <? num_elements
  then fail (InvalidValue "requested more elements than the reader can provide")
  else collect_many (Z.to_nat num_elements).

End ReadMany.

Definition read_from_bytes {T} `{Deserializable T} (bytes : list Z) : DR T :=
  fst (read_from (slice_reader_new bytes)).
Definition read_from_bytes_with_budget {T} `{Deserializable T} (bytes : list Z) (budget : Z) : DR T :=
  fst (read_from (mkBudgetedReader (slice_reader_new bytes) budget)).

(** *** Integers, each a type of its own *)

Record u8 := mkU8 { u8_val : Z }.
Record u32 := mkU32 { u32_val : Z }.
Record u64 := mkU64 { u64_val : Z }.
Record usize := mkUsize { usize_val : Z }.

#[export] Instance u8_serializable : Serializable u8 :=
  {| write_into x := write_u8 (u8_val x); get_size_hint _ := 1 |}.
#[export] Instance u8_deserializable : Deserializable u8 :=
  {| read_from R BR := let! x := read_u8 in ret (mkU8 x); min_serialized_size := 1 |}.

#[export] Instance u32_serializable : Serializable u32 :=
  {| write_into x := write_u32 (u32_val x); get_size_hint _ := 4 |}.
#[export] Instance u32_deserializable : Deserializable u32 :=
  {| read_from R BR := let! x := read_u32 in ret (mkU32 x); min_serialized_size := 4 |}.

#[export] Instance u64_serializable : Serializable u64 :=
  {| write_into x := write_u64 (u64_val x); get_size_hint _ := 8 |}.
#[export] Instance u64_deserializable : Deserializable u64 :=
  {| read_from R BR := let! x := read_u64 in ret (mkU64 x); min_serialized_size := 8 |}.

#[export] Instance usize_serializable : Serializable usize :=
  {| write_into x := write_usize (usize_val x);
     get_size_hint x := Z.of_nat (usize_encoded_len (usize_val x)) |}.
#[export] Instance usize_deserializable : Deserializable usize :=
  {| read_from R BR := let! x := read_usize in ret (mkUsize x); min_serialized_size := 1 |}.

(** *** Pairs, options and vectors *)

#[export] Instance pair_serializable {A B} `{Serializable A, Serializable B} : Serializable (A * B) :=
  {| write_into x := write_into (fst x) ++ write_into (snd x);
     get_size_hint x := get_size_hint (fst x) + get_size_hint (snd x) |}.
#[export] Instance pair_deserializable {A B} `{Deserializable A, Deserializable B} : Deserializable (A * B) :=
  {| read_from R BR := let! v1 := read_from in let! v2 := read_from in ret (v1, v2);
     min_serialized_size := Z.min U64_MAX (min_serialized_size (T := A) + min_serialized_size (T := B)) |}.

#[export] Instance option_serializable {A} `{Serializable A} : Serializable (option A) :=
  {| write_into o := match o with Some v => write_bool true ++ write_into v | None => write_bool false end;
     get_size_hint o := 1 + match o with Some v => get_size_hint v | None => 0 end |}.
#[export] Instance option_deserializable {A} `{Deserializable A} : Deserializable (option A) :=
  {| read_from R BR :=
       let! b := read_bool in
       if b : bool then let! v := read_from in ret (Some v) else ret None;
     min_serialized_size := 1 |}.

#[export] Instance vec_serializable {A} `{Serializable A} : Serializable (list A) :=
  {| write_into l := write_usize (Z.of_nat (length l)) ++ write_many l;
     get_size_hint l :=
       Z.of_nat (usize_encoded_len (Z.of_nat (length l))) + foldr Z.add 0 (get_size_hint <$> l) |}.
#[export] Instance vec_deserializable {A} `{Deserializable A} : Deserializable (list A) :=
  {| read_from R BR := let! len := read_usize in read_many len; min_serialized_size := 1 |}.

(** *** Field elements and words *)

#[export] Instance felt_serializable : Serializable Felt :=
  {| write_into x := write_u64 ⟦x⟧; get_size_hint _ := 8 |}.
#[export] Instance felt_deserializable : Deserializable Felt :=
  {| read_from R BR :=
       let! value := read_u64 in ok_or (felt_new value) (InvalidValue "not a valid felt");
     min_serialized_size := 8 |}.

Definition WORD_SERIALIZED_BYTES : Z := 32.

Definition read_word_element {R} `{ByteReader R} : DM R Felt :=
  let! e := read_u64 in
  if ORDER <=? e then fail (InvalidValue "value not in the appropriate range")
  else ret (new_unchecked e).

#[export] Instance word_serializable : Serializable Word :=
  {| write_into w := write_bytes (into_elements w ≫= fun x => to_le_bytes 8 ⟦x⟧);
     get_size_hint _ := WORD_SERIALIZED_BYTES |}.
#[export] Instance word_deserializable : Deserializable Word :=
  {| read_from R BR :=
       let! a := read_word_element in let! b := read_word_element in
       let! c := read_word_element in let! d := read_word_element in
       ret (mkWord a b c d);
     min_serialized_size := WORD_SERIALIZED_BYTES |}.
