(* ===== verification/SerdeTheory.v ===== *)
(** * Reading back what was written

    [ReaderLaws] states what a reader promises: given that it is ready to
    deliver some bytes, it delivers them and advances past them.  The slice
    reader and the budgeted reader keep the promise.  [SerdeComplete] states of a
    type that reading back a written value returns it on every such reader;
    instances for the composite types are built from those of their parts. *)

From S2P Require Import Prelude Felt Serde.

(** ** Little-endian bytes *)

Lemma length_to_le_bytes n x : length (to_le_bytes n x) = n.
Proof. revert x. induction n as [|n IH]; intros x; cbn; [done|]. by rewrite IH. Qed.

Lemma to_le_bytes_u8 n x : Forall is_u8 (to_le_bytes n x).
Proof.
  revert x. induction n as [|n IH]; intros x; constructor; [|apply IH].
  unfold is_u8. apply Z.mod_pos_bound. lia.
Qed.

Lemma from_to_le_bytes n x : from_le_bytes (to_le_bytes n x) = x mod 256 ^ Z.of_nat n.
Proof.
  revert x. induction n as [|n IH]; intros x; [cbn; by rewrite Z.mod_1_r|].
  rewrite Nat2Z.inj_succ, Z.pow_succ_r, Z.rem_mul_r by lia.
  cbn [to_le_bytes from_le_bytes foldr]. change (foldr _ 0 ?l) with (from_le_bytes l). by rewrite IH.
Qed.

Lemma from_to_le_bytes_small n x : 0 <= x < 256 ^ Z.of_nat n -> from_le_bytes (to_le_bytes n x) = x.
Proof. intros. rewrite from_to_le_bytes. by apply Z.mod_small. Qed.

Lemma from_le_bytes_range l : Forall is_u8 l -> 0 <= from_le_bytes l < 256 ^ Z.of_nat (length l).
Proof.
  induction 1 as [|b l Hb _ IH]; [cbn; lia|]. cbn [length]. rewrite Nat2Z.inj_succ, Z.pow_succ_r by lia.
  cbn [from_le_bytes foldr]. change (foldr _ 0 l) with (from_le_bytes l). unfold is_u8 in Hb. lia.
Qed.

Lemma to_from_le_bytes l : Forall is_u8 l -> to_le_bytes (length l) (from_le_bytes l) = l.
Proof.
  induction 1 as [|b l Hb _ IH]; [done|]. cbn [length to_le_bytes from_le_bytes foldr].
  change (foldr _ 0 l) with (from_le_bytes l). unfold is_u8 in Hb.
  rewrite Z.mul_comm, Z_mod_plus_full, Z.mod_small, Z.div_add, Z.div_small by lia. by rewrite Z.add_0_l, IH.
Qed.

Lemma take_to_le_bytes k n x : (k <= n)%nat -> take k (to_le_bytes n x) = to_le_bytes k x.
Proof.
  revert n x. induction k as [|k IH]; intros n x Hk; [done|]. destruct n as [|n]; [lia|].
  cbn. by rewrite IH by lia.
Qed.

Lemma from_le_bytes_zeros l n : from_le_bytes (l ++ replicate n 0) = from_le_bytes l.
Proof.
  unfold from_le_bytes. rewrite foldr_app. f_equal. induction n as [|n IH]; [done|]. cbn. by rewrite IH.
Qed.

(** ** The variable-length encoding of [usize] *)

Lemma usize_encoded_len_spec v : 0 <= v <= U64_MAX ->
  (1 <= usize_encoded_len v <= 9)%nat /\
  ((usize_encoded_len v <= 8)%nat -> v < 2 ^ (7 * Z.of_nat (usize_encoded_len v))) /\
  ((1 < usize_encoded_len v)%nat -> 2 ^ (7 * (Z.of_nat (usize_encoded_len v) - 1)) <= v).
Proof.
  intros Hv. unfold usize_encoded_len, leading_zeros64. destruct (Z.leb_spec v 0) as [Hz|Hz].
  { assert (v = 0) as -> by lia. change (Z.to_nat _) with 1%nat. split; [lia|]. split; intros; lia. }
  pose proof (Z.log2_spec v Hz) as HL. assert (Z.log2 v <= 63) as H63.
  { apply Z.log2_lt_pow2 with (b := 64) in Hz as [Hz _]. unfold U64_MAX in Hv. lia. }
  set (L := Z.log2 v) in *. pose proof (Z.log2_nonneg v) as Hnn. fold L in Hnn.
  set (q := Z.max 0 (63 - L - 1) / 7). assert (Hq : 0 <= q <= 8) by (unfold q; dlia).
  rewrite Z.min_l by lia. rewrite !Z2Nat.id by lia. split; [lia|]. split.
  - intros Hn. assert (q >= 1) by lia. eapply Z.lt_le_trans; [apply HL|].
    apply Z.pow_le_mono_r; [lia|]. unfold q in *. dlia.
  - intros Hn. etransitivity; [|apply HL]. apply Z.pow_le_mono_r; [lia|]. unfold q in *. dlia.
Qed.

Lemma trailing_zeros_from_spec fuel i t x : i <= t < i + Z.of_nat fuel ->
  (forall j, i <= j < t -> Z.testbit x j = false) -> Z.testbit x t = true ->
  trailing_zeros_from fuel i x = t.
Proof.
  revert i. induction fuel as [|fuel IH]; intros i Ht Hb Hx; [lia|]. cbn.
  destruct (Z.eq_dec i t) as [->|Hne]; [by rewrite Hx|]. rewrite Hb by lia.
  apply IH; [lia| |done]. intros j Hj. apply Hb. lia.
Qed.

Lemma trailing_zeros8_odd v k : 0 <= k < 8 -> trailing_zeros8 (((2 * v + 1) * 2 ^ k) mod 256) = k.
Proof.
  intros Hk. unfold trailing_zeros8. change 256 with (2 ^ 8). apply trailing_zeros_from_spec; [lia| |].
  - intros j Hj. rewrite Z.mod_pow2_bits_low, Z.mul_pow2_bits_low by lia. done.
  - rewrite Z.mod_pow2_bits_low, Z.mul_pow2_bits by lia. rewrite Z.sub_diag. apply Z.testbit_odd_0.
Qed.

(** The bytes of a value that needs fewer than nine. *)
Lemma write_usize_short v : 0 <= v <= U64_MAX -> (usize_encoded_len v <= 8)%nat ->
  let n := usize_encoded_len v in
  let w := (2 * v + 1) * 2 ^ (Z.of_nat n - 1) in
  write_usize v = to_le_bytes n w /\ 0 <= w < 256 ^ Z.of_nat n.
Proof.
  intros Hv Hn n w. destruct (usize_encoded_len_spec v Hv) as (Hr & Hlt & _). specialize (Hlt Hn).
  fold n in Hr, Hlt, Hn. unfold write_usize, write_bytes. fold n.
  assert (Hw : 0 <= w < 256 ^ Z.of_nat n).
  { unfold w. change 256 with (2 ^ 8). rewrite <- Z.pow_mul_r by lia.
    replace (8 * Z.of_nat n) with (7 * Z.of_nat n + 1 + (Z.of_nat n - 1)) by lia.
    rewrite Z.pow_add_r, Z.pow_add_r by lia. pose proof (Z.pow_pos_nonneg 2 (Z.of_nat n - 1)). nia. }
  split; [|done]. rewrite (proj2 (Nat.eqb_neq n 9)) by lia. rewrite take_to_le_bytes by lia. f_equal.
  assert (Hp : 2 ^ (7 * Z.of_nat n) <= 2 ^ 56) by (apply Z.pow_le_mono_r; lia).
  assert (Hwrap : wrap64 (Z.shiftl v 1) = 2 * v).
  { unfold wrap64. rewrite Z.shiftl_mul_pow2 by lia. rewrite Z.mod_small by lia. lia. }
  assert (Hlor : Z.lor (2 * v) 1 = 2 * v + 1) by (destruct v; [done|done|lia]).
  rewrite Hwrap, Hlor, Z.shiftl_mul_pow2 by lia. fold w. unfold wrap64. apply Z.mod_small. split; [lia|].
  eapply Z.lt_le_trans; [apply Hw|]. change (2 ^ 64) with (256 ^ 8). apply Z.pow_le_mono_r; lia.
Qed.

Lemma write_usize_long v : usize_encoded_len v = 9%nat -> write_usize v = 0 :: to_le_bytes 8 v.
Proof. intros Hn. unfold write_usize. by rewrite Hn. Qed.

Lemma length_write_usize v : 0 <= v <= U64_MAX -> length (write_usize v) = usize_encoded_len v.
Proof.
  intros Hv. destruct (usize_encoded_len_spec v Hv) as (Hr & _).
  destruct (decide (usize_encoded_len v <= 8)%nat) as [Hn|Hn].
  - destruct (write_usize_short v Hv Hn) as [-> _]. apply length_to_le_bytes.
  - assert (usize_encoded_len v = 9%nat) as E by lia. by rewrite write_usize_long, E.
Qed.

Lemma write_usize_u8 v : 0 <= v <= U64_MAX -> Forall is_u8 (write_usize v).
Proof.
  intros Hv. destruct (usize_encoded_len_spec v Hv) as (Hr & _).
  destruct (decide (usize_encoded_len v <= 8)%nat) as [Hn|Hn].
  - destruct (write_usize_short v Hv Hn) as [-> _]. apply to_le_bytes_u8.
  - rewrite write_usize_long by lia. constructor; [done|]. apply to_le_bytes_u8.
Qed.

(** ** What a reader promises *)

Class ReaderLaws (R : Type) `{BR : ByteReader R} := {
  (** The reader delivers these bytes next. *)
  ready : R -> list Z -> Prop;
  advance : R -> nat -> R;
  advance_0 r : advance r 0 = r;
  advance_add r m n : advance (advance r m) n = advance r (m + n)%nat;
  ready_advance r l bs : ready r (l ++ bs) -> ready (advance r (length l)) bs;
  read_u8_ready r b bs : ready r (b :: bs) -> read_u8 r = (Ok b, advance r 1);
  peek_u8_ready r b bs : ready r (b :: bs) -> peek_u8 r = Ok b;
  read_slice_ready r l bs n : ready r (l ++ bs) -> n = Z.of_nat (length l) ->
    read_slice n r = (Ok l, advance r (length l));
  read_array_ready r l bs n : ready r (l ++ bs) -> n = length l ->
    read_array n r = (Ok l, advance r (length l));
  max_alloc_ready r bs n s : ready r bs -> 0 < s -> n * s <= Z.of_nat (length bs) -> n <= max_alloc r s;
  (** The next bytes of the source. *)
  upcoming : R -> nat -> list Z;
  upcoming_0 r : upcoming r 0 = [];
  upcoming_add r m n : upcoming r (m + n)%nat = upcoming r m ++ upcoming (advance r m) n;
  upcoming_ready r l bs : ready r (l ++ bs) -> upcoming r (length l) = l
}.

Definition sr_ready (s : SliceReader) (bs : list Z) : Prop :=
  Z.of_nat (length (sr_source s)) <= U64_MAX /\ exists pre post,
    sr_source s = pre ++ bs ++ post /\ sr_pos s = length pre.

Lemma sr_read_slice_ready s l bs : sr_ready s (l ++ bs) ->
  sr_read_slice (Z.of_nat (length l)) s = (Ok l, mkSliceReader (sr_source s) (sr_pos s + length l)).
Proof.
  intros (Hmax & pre & post & Hs & Hp). unfold sr_read_slice, sr_check_eor.
  assert (Hlen : length (sr_source s) = (length pre + length l + length bs + length post)%nat)
    by (rewrite Hs, !length_app; lia).
  rewrite (proj2 (Z.leb_le _ U64_MAX)), (proj2 (Z.leb_le _ (Z.of_nat _))) by lia. cbn [andb].
  rewrite Nat2Z.id. unfold slice. rewrite (proj2 (Nat.leb_le _ (_ + _))), (proj2 (Nat.leb_le _ (length _))) by lia.
  cbn [andb]. rewrite Hs, Hp, drop_app_length, <- app_assoc.
  replace (length pre + length l - length pre)%nat with (length l) by lia. by rewrite take_app_length.
Qed.

#[export] Instance slice_reader_laws : ReaderLaws SliceReader.
Proof.
  refine {| ready := sr_ready; advance s n := mkSliceReader (sr_source s) (sr_pos s + n);
            upcoming s n := take n (drop (sr_pos s) (sr_source s)) |}.
  - intros [src p]. cbn. f_equal. lia.
  - intros [src p] m n. cbn. f_equal. lia.
  - intros s l bs (Hmax & pre & post & Hs & Hp). split; [done|]. exists (pre ++ l), post. cbn.
    rewrite Hs, Hp, length_app. split; [by rewrite <- !app_assoc|done].
  - intros s b bs (Hmax & pre & post & Hs & Hp). cbn. unfold sr_check_eor.
    assert (Hlen : length (sr_source s) = (length pre + S (length bs) + length post)%nat)
      by (rewrite Hs, !length_app; cbn; lia).
    rewrite (proj2 (Z.leb_le _ U64_MAX)), (proj2 (Z.leb_le _ (Z.of_nat _))) by lia. cbn [andb].
    rewrite Hs, Hp. cbn [app]. by rewrite list_lookup_middle.
  - intros s b bs (Hmax & pre & post & Hs & Hp). cbn. unfold sr_check_eor.
    assert (Hlen : length (sr_source s) = (length pre + S (length bs) + length post)%nat)
      by (rewrite Hs, !length_app; cbn; lia).
    rewrite (proj2 (Z.leb_le _ U64_MAX)), (proj2 (Z.leb_le _ (Z.of_nat _))) by lia. cbn [andb rbind].
    rewrite Hs, Hp. cbn [app]. by rewrite list_lookup_middle.
  - intros s l bs n Hr ->. by apply sr_read_slice_ready with bs.
  - intros s l bs n Hr ->. by apply sr_read_slice_ready with bs.
  - intros s bs n k (Hmax & pre & post & Hs & Hp) Hk Hn. cbn.
    assert (Hlen : length (sr_source s) = (length pre + length bs + length post)%nat)
      by (rewrite Hs, !length_app; lia). nia.
  - done.
  - intros s m n. cbn. rewrite <- drop_drop. by rewrite take_take_drop.
  - intros s l bs (Hmax & pre & post & Hs & Hp). by rewrite Hs, Hp, drop_app_length, <- app_assoc, take_app_length.
Defined.

#[export] Instance budgeted_reader_laws {R} `{RL : ReaderLaws R} : ReaderLaws (BudgetedReader R).
Proof.
  refine {| ready s bs := ready (br_inner s) bs /\ Z.of_nat (length bs) <= br_remaining s;
            advance s n := mkBudgetedReader (advance (br_inner s) n) (br_remaining s - Z.of_nat n);
            upcoming s n := upcoming (br_inner s) n |}.
  - intros [i b]. cbn. rewrite advance_0. f_equal. lia.
  - intros [i b] m n. cbn. rewrite advance_add. f_equal. lia.
  - intros s l bs [Hr Hb]. rewrite length_app in Hb. cbn. split; [by apply ready_advance|lia].
  - intros s b bs [Hr Hb]. cbn in *. unfold bind, consume_budget, on_inner.
    rewrite (proj2 (Z.ltb_ge _ _)) by lia. cbn. by rewrite (read_u8_ready _ _ _ Hr).
  - intros s b bs [Hr _]. exact (peek_u8_ready _ _ _ Hr).
  - intros s l bs n [Hr Hb] ->. rewrite length_app in Hb. cbn. unfold bind, consume_budget, on_inner.
    rewrite (proj2 (Z.ltb_ge _ _)) by lia. cbn. by rewrite (read_slice_ready _ _ _ _ Hr eq_refl).
  - intros s l bs n [Hr Hb] ->. rewrite length_app in Hb. cbn. unfold bind, consume_budget, on_inner.
    rewrite (proj2 (Z.ltb_ge _ _)) by lia. cbn. by rewrite (read_array_ready _ _ _ _ Hr eq_refl).
  - intros s bs n k [_ Hb] Hk Hn. cbn. rewrite (proj2 (Z.eqb_neq k 0)) by lia.
    apply Z.div_le_lower_bound; lia.
  - intros s. apply upcoming_0.
  - intros s m n. apply upcoming_add.
  - intros s l bs [Hr _]. by apply upcoming_ready with bs.
Defined.

(** ** Complete types *)

Class SerdeComplete (T : Type) `{ST : Serializable T} `{DT : Deserializable T} (ok : T -> Prop) := {
  serde_read R `(RL : ReaderLaws R) v r bs : ok v -> ready r (write_into v ++ bs) ->
    read_from r = (Ok v, advance r (length (write_into v)));
  serde_min v : ok v -> min_serialized_size <= Z.of_nat (length (write_into v));
  serde_pos : 0 < min_serialized_size;
  serde_u8 v : ok v -> Forall is_u8 (write_into v)
}.

Section Reading.
Context {R : Type} `{RL : ReaderLaws R}.

Lemma read_le_ready n x r bs : 0 <= x < 256 ^ Z.of_nat n -> ready r (to_le_bytes n x ++ bs) ->
  (let! bytes := read_array n in ret (from_le_bytes bytes)) r = (Ok x, advance r n).
Proof.
  intros Hx Hr. unfold bind. rewrite (read_array_ready _ _ _ _ Hr) by (by rewrite length_to_le_bytes).
  rewrite length_to_le_bytes, from_to_le_bytes_small by done. done.
Qed.

Lemma read_usize_ready v r bs : 0 <= v <= U64_MAX -> ready r (write_usize v ++ bs) ->
  read_usize r = (Ok v, advance r (length (write_usize v))).
Proof.
  intros Hv Hr. destruct (usize_encoded_len_spec v Hv) as (Hlen & _).
  rewrite (length_write_usize v Hv). unfold read_usize.
  destruct (decide (usize_encoded_len v <= 8)%nat) as [Hn|Hn].
  - destruct (write_usize_short v Hv Hn) as [Hw Hb]. set (n := usize_encoded_len v) in *.
    set (w := (2 * v + 1) * 2 ^ (Z.of_nat n - 1)) in *. rewrite Hw in Hr.
    assert (Hpeek : peek_u8 r = Ok (w mod 256)).
    { destruct n as [|m]; [lia|]. cbn [to_le_bytes app] in Hr. exact (peek_u8_ready _ _ _ Hr). }
    erewrite bind_Ok by (cbv beta; by rewrite Hpeek). unfold w at 1 2 3. rewrite trailing_zeros8_odd by lia. fold w.
    replace (Z.of_nat n - 1 + 1) with (Z.of_nat n) by lia. rewrite (proj2 (Z.eqb_neq _ _)) by lia.
    erewrite bind_Ok.
    2: { erewrite bind_Ok by (eapply read_slice_ready; [exact Hr|by rewrite length_to_le_bytes]).
         rewrite length_to_le_bytes.
         assert (copy_at 0 (to_le_bytes n w) (replicate 8 0) = Some (to_le_bytes n w ++ replicate (8 - n) 0)) as ->.
         { unfold copy_at. rewrite length_to_le_bytes, length_replicate, (proj2 (Nat.leb_le _ _)) by lia.
           cbn [take app]. by rewrite drop_replicate. }
         unfold bind, expect, ret. by rewrite from_le_bytes_zeros, from_to_le_bytes_small. }
    assert (Hshift : Z.shiftr w (Z.of_nat n) = v).
    { rewrite Z.shiftr_div_pow2 by lia. unfold w. replace (Z.of_nat n) with (1 + (Z.of_nat n - 1)) at 2 by lia.
      rewrite Z.pow_add_r, Z.div_mul_cancel_r by lia. dlia. }
    rewrite Hshift, (proj2 (Z.ltb_ge _ _)) by lia. done.
  - assert (usize_encoded_len v = 9%nat) as E by lia. rewrite write_usize_long in Hr by done. rewrite E.
    cbn [app] in Hr. erewrite bind_Ok by (cbv beta; by rewrite (peek_u8_ready _ _ _ Hr)).
    change (trailing_zeros8 0 + 1) with 9. cbn [Z.eqb Pos.eqb].
    erewrite bind_Ok.
    2: { erewrite bind_Ok by (by apply read_u8_ready with (to_le_bytes 8 v ++ bs)).
         apply (read_le_ready 8 v _ bs); [change (256 ^ Z.of_nat 8) with (U64_MAX + 1); lia|]. by apply (ready_advance r [0]). }
    rewrite (proj2 (Z.ltb_ge _ _)) by lia. by rewrite advance_add.
Qed.

End Reading.

Section Instances.

#[export] Instance u8_complete : SerdeComplete u8 (fun x => is_u8 (u8_val x)).
Proof.
  split; [|done|done|].
  - intros R BR RL [v] r bs _ Hr. cbn in *. by erewrite bind_Ok by (by apply read_u8_ready with bs).
  - intros [v] Hv. constructor; [done|constructor].
Qed.

#[export] Instance u32_complete : SerdeComplete u32 (fun x => is_u32 (u32_val x)).
Proof.
  split; [|intros; cbn; lia|done|intros; apply to_le_bytes_u8].
  intros R BR RL [v] r bs Hv Hr. unfold is_u32, U32_MAX in Hv. cbn [u32_val] in Hv. cbn [read_from u32_deserializable].
  erewrite bind_Ok by (apply (read_le_ready 4 v _ bs); [change (256 ^ Z.of_nat 4) with 4294967296; lia|exact Hr]).
  unfold ret. cbn [write_into u32_serializable u32_val]. unfold write_u32, write_bytes. by rewrite length_to_le_bytes.
Qed.

#[export] Instance u64_complete : SerdeComplete u64 (fun x => is_u64 (u64_val x)).
Proof.
  split; [|intros; cbn; lia|done|intros; apply to_le_bytes_u8].
  intros R BR RL [v] r bs Hv Hr. unfold is_u64, U64_MAX in Hv. cbn [u64_val] in Hv. cbn [read_from u64_deserializable].
  erewrite bind_Ok by (apply (read_le_ready 8 v _ bs); [change (256 ^ Z.of_nat 8) with 18446744073709551616; lia|exact Hr]).
  unfold ret. cbn [write_into u64_serializable u64_val]. unfold write_u64, write_bytes. by rewrite length_to_le_bytes.
Qed.

#[export] Instance usize_complete : SerdeComplete usize (fun x => is_u64 (usize_val x)).
Proof.
  split; [| |done|].
  - intros R BR RL [v] r bs Hv Hr. cbn [read_from usize_deserializable].
    erewrite bind_Ok by (apply (read_usize_ready v _ bs); [exact Hv|exact Hr]). done.
  - intros [v] Hv. cbn [write_into usize_serializable usize_val]. rewrite length_write_usize by done.
    destruct (usize_encoded_len_spec v Hv). cbn. lia.
  - intros [v] Hv. by apply write_usize_u8.
Qed.

#[export] Instance pair_complete {A B} `{CA : SerdeComplete A okA} `{CB : SerdeComplete B okB} : SerdeComplete (A * B)
  (fun p => okA (fst p) /\ okB (snd p)).
Proof.
  split.
  - intros R BR RL [a b] r bs [Ha Hb] Hr. cbn [write_into pair_serializable fst snd] in *.
    rewrite <- app_assoc in Hr. cbn [read_from pair_deserializable].
    erewrite bind_Ok by (apply (serde_read _ RL) with (write_into b ++ bs); done).
    erewrite bind_Ok by (apply (serde_read _ RL) with bs; [done|by apply ready_advance]).
    unfold ret. by rewrite advance_add, length_app.
  - intros [a b] [Ha Hb]. cbn [write_into pair_serializable fst snd min_serialized_size pair_deserializable] in *.
    pose proof (serde_min a Ha). pose proof (serde_min b Hb). rewrite length_app. lia.
  - cbn. pose proof (serde_pos (T := A)). pose proof (serde_pos (T := B)). unfold U64_MAX. lia.
  - intros [a b] [Ha Hb]. cbn in *. apply Forall_app. split; by apply (serde_u8).
Qed.

#[export] Instance option_complete {A} `{CA : SerdeComplete A okA} : SerdeComplete (option A)
  (fun o => from_option okA True o).
Proof.
  split.
  - intros R BR RL [a|] r bs Ho Hr; cbn [write_into option_serializable read_from option_deserializable] in *;
      unfold write_bool, write_u8 in *; cbn [app] in Hr.
    + erewrite bind_Ok by (unfold read_bool; erewrite bind_Ok by (exact (read_u8_ready _ _ _ Hr)); done).
      cbv iota. erewrite bind_Ok by (apply (serde_read _ RL) with bs; [done|by apply (ready_advance r [1])]).
      unfold ret. by rewrite advance_add.
    + erewrite bind_Ok by (unfold read_bool; erewrite bind_Ok by (exact (read_u8_ready _ _ _ Hr)); done). done.
  - intros [a|] _; cbn; lia.
  - done.
  - intros [a|] Ho; cbn; constructor; try done. by apply serde_u8.
Qed.

Lemma collect_many_ready {A} `{CA : SerdeComplete A okA} {R} `{RL : ReaderLaws R} l r bs : Forall okA l ->
  ready r (write_many l ++ bs) -> collect_many (length l) r = (Ok l, advance r (length (write_many l))).
Proof.
  intros Hl. revert r. induction Hl as [|a l Ha Hl IH]; intros r Hr.
  { cbn. unfold ret. by rewrite advance_0. }
  unfold write_many in *. cbn [mbind list_bind] in *. rewrite <- app_assoc in Hr. cbn [length collect_many].
  erewrite bind_Ok by (apply (serde_read _ RL) with ((l ≫= write_into) ++ bs); done).
  erewrite bind_Ok by (apply IH; by apply ready_advance).
  unfold ret. by rewrite advance_add, length_app.
Qed.

Lemma write_many_min {A} `{CA : SerdeComplete A okA} l : Forall okA l ->
  Z.of_nat (length l) * min_serialized_size <= Z.of_nat (length (write_many l)).
Proof.
  induction 1 as [|a l Ha _ IH]; [done|]. unfold write_many in *. cbn [mbind list_bind length].
  rewrite length_app. pose proof (serde_min a Ha). lia.
Qed.

Lemma write_many_u8 {A} `{CA : SerdeComplete A okA} l : Forall okA l -> Forall is_u8 (write_many l).
Proof.
  induction 1 as [|a l Ha _ IH]; [done|]. unfold write_many in *. cbn. apply Forall_app. split; [by apply serde_u8|done].
Qed.

Lemma read_many_ready {A} `{CA : SerdeComplete A okA} {R} `{RL : ReaderLaws R} l r bs n : Forall okA l ->
  n = Z.of_nat (length l) ->
  ready r (write_many l ++ bs) -> read_many n r = (Ok l, advance r (length (write_many l))).
Proof.
  intros Hl -> Hr. unfold read_many. erewrite bind_Ok by done. rewrite (proj2 (Z.ltb_ge _ _)).
  - rewrite Nat2Z.id. by apply collect_many_ready with bs.
  - eapply max_alloc_ready; [exact Hr|apply serde_pos|]. pose proof (write_many_min l Hl). rewrite length_app. lia.
Qed.

#[export] Instance vec_complete {A} `{CA : SerdeComplete A okA} : SerdeComplete (list A)
  (fun l => Forall okA l /\ Z.of_nat (length l) <= U64_MAX).
Proof.
  split.
  - intros R BR RL l r bs [Hl Hlen] Hr. cbn [write_into vec_serializable read_from vec_deserializable] in *.
    rewrite <- app_assoc in Hr. erewrite bind_Ok by (eapply (read_usize_ready (Z.of_nat (length l))); [lia|exact Hr]).
    rewrite (read_many_ready l _ bs) by (done || by apply ready_advance). by rewrite advance_add, length_app.
  - intros l [_ Hlen]. cbn [write_into vec_serializable min_serialized_size vec_deserializable].
    rewrite length_app, length_write_usize by lia. destruct (usize_encoded_len_spec (Z.of_nat (length l))); lia.
  - done.
  - intros l [Hl Hlen]. cbn. apply Forall_app. split; [apply write_usize_u8; lia|by apply write_many_u8].
Qed.

#[export] Instance felt_complete : SerdeComplete Felt (fun _ => True).
Proof.
  split; [|intros; cbn; lia|done|intros; apply to_le_bytes_u8].
  intros R BR RL v r bs _ Hr. pose proof (felt_range v) as Hv. cbn [read_from felt_deserializable].
  erewrite bind_Ok by (apply (read_le_ready 8 ⟦v⟧ _ bs); [|exact Hr];
    change (256 ^ Z.of_nat 8) with 18446744073709551616; unfold ORDER in Hv; lia).
  unfold felt_new. rewrite (proj2 (Z.ltb_lt _ _)), felt_of_canonical by lia. done.
Qed.

Lemma read_word_element_ready {R} `{RL : ReaderLaws R} x r bs : ready r (to_le_bytes 8 ⟦x⟧ ++ bs) ->
  read_word_element r = (Ok x, advance r 8) /\ ready (advance r 8) bs.
Proof.
  intros Hr. pose proof (felt_range x) as Hx. split; [|by apply (ready_advance r (to_le_bytes 8 ⟦x⟧))].
  unfold read_word_element. erewrite bind_Ok by (apply (read_le_ready 8 ⟦x⟧ _ bs); [|exact Hr];
    change (256 ^ Z.of_nat 8) with 18446744073709551616; unfold ORDER in Hx; lia).
  rewrite (proj2 (Z.leb_gt _ _)) by lia. unfold new_unchecked. by rewrite felt_of_canonical.
Qed.

#[export] Instance word_complete : SerdeComplete Word (fun _ => True).
Proof.
  split; [|intros v _; cbn; unfold WORD_SERIALIZED_BYTES; lia|done|].
  2: { intros [a b c d] _. cbn [write_into word_serializable into_elements mbind list_bind word_a word_b word_c word_d].
       repeat (apply Forall_app_2; [apply to_le_bytes_u8|]). constructor. }
  intros R BR RL [a b c d] r bs _ Hr. cbn [read_from word_deserializable write_into word_serializable] in *.
  unfold write_bytes in *. cbn [into_elements mbind list_bind word_a word_b word_c word_d] in *.
  rewrite <- !app_assoc in Hr. cbn [app] in Hr.
  destruct (read_word_element_ready a r _ Hr) as [Ha Hr1]. erewrite bind_Ok by exact Ha.
  destruct (read_word_element_ready b _ _ Hr1) as [Hb Hr2]. erewrite bind_Ok by exact Hb.
  destruct (read_word_element_ready c _ _ Hr2) as [Hc Hr3]. erewrite bind_Ok by exact Hc.
  destruct (read_word_element_ready d _ _ Hr3) as [Hd Hr4]. erewrite bind_Ok by exact Hd.
  unfold ret. by rewrite !advance_add, !length_app, !length_to_le_bytes.
Qed.

End Instances.

(** C26: The variable-length encoding of integers is as short as its 7 payload
    bits per byte allow.  Every 64-bit value takes between 1 and 9 bytes, the
    number the length hint announces; a value in at most 8 bytes is below
    [2^(7n)] and did not fit in one byte less; and followed by anything it reads
    back as itself, consuming exactly those bytes. *)
Theorem usize_encoding_bounds (v : Z) (rest : list Z) : 0 <= v <= U64_MAX ->
  let bytes := write_usize v in
  let n := length bytes in
  (1 <= n <= 9)%nat /\ n = usize_encoded_len v /\ Forall is_u8 bytes /\
  ((n <= 8)%nat -> v < 2 ^ (7 * Z.of_nat n)) /\
  ((1 < n)%nat -> 2 ^ (7 * (Z.of_nat n - 1)) <= v) /\
  (Z.of_nat (length (bytes ++ rest)) <= U64_MAX ->
   read_usize (slice_reader_new (bytes ++ rest)) = (Ok v, mkSliceReader (bytes ++ rest) n)).
Proof.
  intros Hv bytes n. unfold n, bytes. rewrite (length_write_usize v Hv). destruct (usize_encoded_len_spec v Hv) as (H1 & H2 & H3).
  split; [done|]. split; [done|]. split; [by apply write_usize_u8|]. split; [done|]. split; [done|]. intros Hl.
  rewrite (read_usize_ready v _ rest Hv); [by rewrite length_write_usize|]. split; [exact Hl|]. exists [], []. by rewrite app_nil_r.
Qed.
