(* ===== verification/Quad.v ===== *)
(** * The quadratic extension field

    [QuadFelt] is the third-party [BinomialExtensionField<Felt, 2>]: pairs of
    coefficients with multiplication modulo [x^2 - 7] (the modulus the VM's own
    [op_ext2mul] uses, processor/src/execution/operations/field_ops).  Its
    operations are the class [QuadField]; [QuadFieldLaws] states the documented
    arithmetic by coefficients; [quad_ref] is a reference instance. *)

From Stdlib Require Import Zpow_facts.
From S2P Require Import Prelude Felt.

Record QuadFelt := mkQuad { q0 : Felt; q1 : Felt }.

#[export] Instance quad_eq_dec : EqDecision QuadFelt.
Proof. solve_decision. Defined.

Class QuadField := {
  q_add : QuadFelt -> QuadFelt -> QuadFelt;
  q_sub : QuadFelt -> QuadFelt -> QuadFelt;
  q_mul : QuadFelt -> QuadFelt -> QuadFelt;
  q_mul_base : QuadFelt -> Felt -> QuadFelt
}.

Declare Scope quad_scope.
Delimit Scope quad_scope with Q.
Bind Scope quad_scope with QuadFelt.
Infix "+" := q_add : quad_scope.
Infix "-" := q_sub : quad_scope.
Infix "*" := q_mul : quad_scope.
Infix "*_" := q_mul_base (at level 40, left associativity) : quad_scope.

(** [QuadFelt::from(Felt)], [QuadFelt::ZERO], [QuadFelt::ONE]. *)
Definition quad_from (a : Felt) : QuadFelt := mkQuad a ZERO.
Definition QUAD_ZERO : QuadFelt := quad_from ZERO.
Definition QUAD_ONE : QuadFelt := quad_from ONE.

Definition SEVEN : Felt := new_unchecked 7.

Class QuadFieldLaws (G : Goldilocks) (Q : QuadField) : Prop := {
  q_add_spec a b : (a + b)%Q = mkQuad (q0 a + q0 b)%F (q1 a + q1 b)%F;
  q_sub_spec a b : (a - b)%Q = mkQuad (q0 a - q0 b)%F (q1 a - q1 b)%F;
  q_mul_spec a b : (a * b)%Q =
    mkQuad (q0 a * q0 b + SEVEN * (q1 a * q1 b))%F (q0 a * q1 b + q1 a * q0 b)%F;
  q_mul_base_spec a c : (a *_ c)%Q = mkQuad (q0 a * c)%F (q1 a * c)%F
}.

(** [Field::inverse] of the extension; [None] is the panic on zero. *)
Class QuadInverse := q_inverse : QuadFelt -> option QuadFelt.

Class QuadInverseLaws (Q : QuadField) (I : QuadInverse) : Prop :=
  q_inverse_spec a : a <> QUAD_ZERO -> exists b, q_inverse a = Some b /\ (a * b)%Q = QUAD_ONE.

Definition quad_ref (G : Goldilocks) : QuadField := {|
  q_add a b := mkQuad (q0 a + q0 b)%F (q1 a + q1 b)%F;
  q_sub a b := mkQuad (q0 a - q0 b)%F (q1 a - q1 b)%F;
  q_mul a b := mkQuad (q0 a * q0 b + SEVEN * (q1 a * q1 b))%F (q0 a * q1 b + q1 a * q0 b)%F;
  q_mul_base a c := mkQuad (q0 a * c)%F (q1 a * c)%F
|}.

Lemma quad_ref_laws (G : Goldilocks) : QuadFieldLaws G (quad_ref G).
Proof. by split. Qed.

(** ** The extension is a commutative ring over the base field *)

Section QuadRing.
Context `{GL : GoldilocksLaws} `{QL : !QuadFieldLaws G Q}.

Definition q_neg (a : QuadFelt) : QuadFelt := (QUAD_ZERO - a)%Q.

Add Ring felt_ring : felt_ring_theory.

Lemma quad_ring_theory :
  ring_theory QUAD_ZERO QUAD_ONE q_add q_mul q_sub q_neg eq.
Proof.
  split; intros; unfold q_neg, QUAD_ZERO, QUAD_ONE, quad_from;
    repeat first [rewrite q_add_spec | rewrite q_sub_spec | rewrite q_mul_spec];
    repeat match goal with x : QuadFelt |- _ => destruct x end;
    simpl; f_equal; ring.
Qed.

Lemma q_mul_base_from a c : (a *_ c)%Q = (a * quad_from c)%Q.
Proof.
  rewrite q_mul_base_spec, q_mul_spec. destruct a as [a0 a1]. simpl.
  f_equal; ring.
Qed.

Lemma quad_from_add a b : quad_from (a + b)%F = (quad_from a + quad_from b)%Q.
Proof. rewrite q_add_spec. unfold quad_from. simpl. f_equal; ring. Qed.

Lemma quad_from_mul a b : quad_from (a * b)%F = (quad_from a * quad_from b)%Q.
Proof. rewrite q_mul_spec. unfold quad_from. simpl. f_equal; ring. Qed.

(** ** A reference inverse

    By the norm, which vanishes at zero only because 7 is not a square. *)

Definition quad_inverse_ref : QuadInverse := fun a =>
  let norm := (q0 a * q0 a - SEVEN * (q1 a * q1 a))%F in
  n ← gl_try_inverse norm; Some (mkQuad (q0 a * n)%F (- (q1 a * n))%F).

Lemma seven_not_square (x : Felt) : (x * x)%F <> SEVEN.
Proof.
  intros H. assert (⟦x⟧ * ⟦x⟧ mod ORDER = 7) as Hx by (rewrite <- gl_mul_spec, H; done).
  assert (⟦x⟧ <> 0) as Hn by (intros E; rewrite E in Hx; done). pose proof (felt_range x).
  assert (⟦x⟧ ^ (ORDER - 1) mod ORDER = 1) as Hf.
  { pose proof (fermat_inverse ⟦x⟧ ltac:(lia)) as Hf. rewrite Z.mul_mod_idemp_r in Hf by done.
    by rewrite <- Z.pow_succ_r in Hf by discriminate. }
  change (ORDER - 1) with (2 * ((ORDER - 1) / 2)) in Hf. rewrite Z.pow_mul_r in Hf by done.
  rewrite Z.pow_2_r, Zpower_mod, Hx in Hf by done.
  rewrite <- Zpow_mod_correct in Hf by done. by vm_compute in Hf.
Qed.

Lemma norm_nonzero (a : QuadFelt) : a <> QUAD_ZERO -> (q0 a * q0 a - SEVEN * (q1 a * q1 a))%F <> ZERO.
Proof.
  destruct a as [x y]. cbn. intros Ha Hn.
  assert ((x * x)%F = (SEVEN * (y * y))%F) as Hs
    by (replace (x * x)%F with (x * x - SEVEN * (y * y) + SEVEN * (y * y))%F by ring; rewrite Hn; ring).
  destruct (decide (y = ZERO)) as [->|Hy].
  - replace (SEVEN * (ZERO * ZERO))%F with ZERO in Hs by ring.
    apply felt_integral in Hs as [->| ->]; by destruct Ha.
  - destruct (gl_inverse_spec y Hy) as (i & _ & Hi). apply (seven_not_square (x * i)%F).
    replace (x * i * (x * i))%F with (x * x * (i * i))%F by ring. rewrite Hs.
    replace (SEVEN * (y * y) * (i * i))%F with (SEVEN * ((y * i) * (y * i)))%F by ring. rewrite Hi. ring.
Qed.

Lemma quad_inverse_ref_laws : QuadInverseLaws Q quad_inverse_ref.
Proof.
  intros a Ha. destruct (gl_inverse_spec _ (norm_nonzero a Ha)) as (n & Hn & Hone).
  eexists. unfold q_inverse, quad_inverse_ref. cbv zeta. rewrite Hn. split; [done|].
  rewrite q_mul_spec. destruct a as [x y]. cbn in *. unfold QUAD_ONE, quad_from. f_equal; [|ring].
  rewrite <- Hone. ring.
Qed.

End QuadRing.
