(* ===== verification/Operations.v ===== *)
(** * Operations and their encoding

    The instruction set of core/src/operations/mod.rs: the opcodes, the
    [Operation] enum with its constructors in source order, the opcode and the
    stack-size flags of each operation.  The constructors live in the module
    [Op] ([Op.Add] is [Operation::Add]) because several of them would shadow
    names of the standard library. *)

From S2P Require Import Prelude Felt.

(** ** Opcodes *)

Module opcodes.
Notation NOOP := 0%Z (only parsing).
Notation EQZ := 1%Z (only parsing).
Notation NEG := 2%Z (only parsing).
Notation INV := 3%Z (only parsing).
Notation INCR := 4%Z (only parsing).
Notation NOT := 5%Z (only parsing).
Notation MLOAD := 7%Z (only parsing).
Notation SWAP := 8%Z (only parsing).
Notation CALLER := 9%Z (only parsing).
Notation MOVUP2 := 10%Z (only parsing).
Notation MOVDN2 := 11%Z (only parsing).
Notation MOVUP3 := 12%Z (only parsing).
Notation MOVDN3 := 13%Z (only parsing).
Notation ADVPOPW := 14%Z (only parsing).
Notation EXPACC := 15%Z (only parsing).
Notation MOVUP4 := 16%Z (only parsing).
Notation MOVDN4 := 17%Z (only parsing).
Notation MOVUP5 := 18%Z (only parsing).
Notation MOVDN5 := 19%Z (only parsing).
Notation MOVUP6 := 20%Z (only parsing).
Notation MOVDN6 := 21%Z (only parsing).
Notation MOVUP7 := 22%Z (only parsing).
Notation MOVDN7 := 23%Z (only parsing).
Notation SWAPW := 24%Z (only parsing).
Notation EXT2MUL := 25%Z (only parsing).
Notation MOVUP8 := 26%Z (only parsing).
Notation MOVDN8 := 27%Z (only parsing).
Notation SWAPW2 := 28%Z (only parsing).
Notation SWAPW3 := 29%Z (only parsing).
Notation SWAPDW := 30%Z (only parsing).
Notation EMIT := 31%Z (only parsing).
Notation ASSERT := 32%Z (only parsing).
Notation EQ := 33%Z (only parsing).
Notation ADD := 34%Z (only parsing).
Notation MUL := 35%Z (only parsing).
Notation AND := 36%Z (only parsing).
Notation OR := 37%Z (only parsing).
Notation U32AND := 38%Z (only parsing).
Notation U32XOR := 39%Z (only parsing).
Notation FRIE2F4 := 40%Z (only parsing).
Notation DROP := 41%Z (only parsing).
Notation CSWAP := 42%Z (only parsing).
Notation CSWAPW := 43%Z (only parsing).
Notation MLOADW := 44%Z (only parsing).
Notation MSTORE := 45%Z (only parsing).
Notation MSTOREW := 46%Z (only parsing).
Notation PAD := 48%Z (only parsing).
Notation DUP0 := 49%Z (only parsing).
Notation DUP1 := 50%Z (only parsing).
Notation DUP2 := 51%Z (only parsing).
Notation DUP3 := 52%Z (only parsing).
Notation DUP4 := 53%Z (only parsing).
Notation DUP5 := 54%Z (only parsing).
Notation DUP6 := 55%Z (only parsing).
Notation DUP7 := 56%Z (only parsing).
Notation DUP9 := 57%Z (only parsing).
Notation DUP11 := 58%Z (only parsing).
Notation DUP13 := 59%Z (only parsing).
Notation DUP15 := 60%Z (only parsing).
Notation ADVPOP := 61%Z (only parsing).
Notation SDEPTH := 62%Z (only parsing).
Notation CLK := 63%Z (only parsing).
Notation U32ADD := 64%Z (only parsing).
Notation U32SUB := 66%Z (only parsing).
Notation U32MUL := 68%Z (only parsing).
Notation U32DIV := 70%Z (only parsing).
Notation U32SPLIT := 72%Z (only parsing).
Notation U32ASSERT2 := 74%Z (only parsing).
Notation U32ADD3 := 76%Z (only parsing).
Notation U32MADD := 78%Z (only parsing).
Notation HPERM := 80%Z (only parsing).
Notation MPVERIFY := 81%Z (only parsing).
Notation PIPE := 82%Z (only parsing).
Notation MSTREAM := 83%Z (only parsing).
Notation SPLIT := 84%Z (only parsing).
Notation LOOP := 85%Z (only parsing).
Notation SPAN := 86%Z (only parsing).
Notation JOIN := 87%Z (only parsing).
Notation DYN := 88%Z (only parsing).
Notation HORNERBASE := 89%Z (only parsing).
Notation HORNEREXT := 90%Z (only parsing).
Notation PUSH := 91%Z (only parsing).
Notation DYNCALL := 92%Z (only parsing).
Notation EVALCIRCUIT := 93%Z (only parsing).
Notation LOGDEFERRED := 94%Z (only parsing).
Notation MRUPDATE := 96%Z (only parsing).
Notation CRYPTOSTREAM := 100%Z (only parsing).
Notation SYSCALL := 104%Z (only parsing).
Notation CALL := 108%Z (only parsing).
Notation END := 112%Z (only parsing).
Notation REPEAT := 116%Z (only parsing).
Notation RESPAN := 120%Z (only parsing).
Notation HALT := 124%Z (only parsing).
End opcodes.

(** ** The enum *)

Module Op.

Inductive t :=
| Noop
| Assert (f : Felt)
| SDepth
| Caller
| Clk
| Emit
| Add
| Neg
| Mul
| Inv
| Incr
| And
| Or
| Not
| Eq
| Eqz
| Expacc
| Ext2Mul
| U32split
| U32add
| U32assert2 (f : Felt)
| U32add3
| U32sub
| U32mul
| U32madd
| U32div
| U32and
| U32xor
| Pad
| Drop
| Dup0
| Dup1
| Dup2
| Dup3
| Dup4
| Dup5
| Dup6
| Dup7
| Dup9
| Dup11
| Dup13
| Dup15
| Swap
| SwapW
| SwapW2
| SwapW3
| SwapDW
| MovUp2
| MovUp3
| MovUp4
| MovUp5
| MovUp6
| MovUp7
| MovUp8
| MovDn2
| MovDn3
| MovDn4
| MovDn5
| MovDn6
| MovDn7
| MovDn8
| CSwap
| CSwapW
| Push (f : Felt)
| AdvPop
| AdvPopW
| MLoadW
| MStoreW
| MLoad
| MStore
| MStream
| Pipe
| CryptoStream
| HPerm
| MpVerify (f : Felt)
| MrUpdate
| FriE2F4
| HornerBase
| HornerExt
| EvalCircuit
| LogDeferred.

#[export] Instance t_eq_dec : EqDecision t.
Proof. solve_decision. Defined.

End Op.

#[export] Existing Instance Op.t_eq_dec.

Notation Operation := Op.t.

Definition OP_BITS : Z := 7.

(** The discriminant: the enum is [repr(u8)] with these explicit values. *)
Definition op_code (op : Operation) : Z :=
  match op with
  | Op.Noop => opcodes.NOOP
  | Op.Assert _ => opcodes.ASSERT
  | Op.SDepth => opcodes.SDEPTH
  | Op.Caller => opcodes.CALLER
  | Op.Clk => opcodes.CLK
  | Op.Emit => opcodes.EMIT
  | Op.Add => opcodes.ADD
  | Op.Neg => opcodes.NEG
  | Op.Mul => opcodes.MUL
  | Op.Inv => opcodes.INV
  | Op.Incr => opcodes.INCR
  | Op.And => opcodes.AND
  | Op.Or => opcodes.OR
  | Op.Not => opcodes.NOT
  | Op.Eq => opcodes.EQ
  | Op.Eqz => opcodes.EQZ
  | Op.Expacc => opcodes.EXPACC
  | Op.Ext2Mul => opcodes.EXT2MUL
  | Op.U32split => opcodes.U32SPLIT
  | Op.U32add => opcodes.U32ADD
  | Op.U32assert2 _ => opcodes.U32ASSERT2
  | Op.U32add3 => opcodes.U32ADD3
  | Op.U32sub => opcodes.U32SUB
  | Op.U32mul => opcodes.U32MUL
  | Op.U32madd => opcodes.U32MADD
  | Op.U32div => opcodes.U32DIV
  | Op.U32and => opcodes.U32AND
  | Op.U32xor => opcodes.U32XOR
  | Op.Pad => opcodes.PAD
  | Op.Drop => opcodes.DROP
  | Op.Dup0 => opcodes.DUP0
  | Op.Dup1 => opcodes.DUP1
  | Op.Dup2 => opcodes.DUP2
  | Op.Dup3 => opcodes.DUP3
  | Op.Dup4 => opcodes.DUP4
  | Op.Dup5 => opcodes.DUP5
  | Op.Dup6 => opcodes.DUP6
  | Op.Dup7 => opcodes.DUP7
  | Op.Dup9 => opcodes.DUP9
  | Op.Dup11 => opcodes.DUP11
  | Op.Dup13 => opcodes.DUP13
  | Op.Dup15 => opcodes.DUP15
  | Op.Swap => opcodes.SWAP
  | Op.SwapW => opcodes.SWAPW
  | Op.SwapW2 => opcodes.SWAPW2
  | Op.SwapW3 => opcodes.SWAPW3
  | Op.SwapDW => opcodes.SWAPDW
  | Op.MovUp2 => opcodes.MOVUP2
  | Op.MovUp3 => opcodes.MOVUP3
  | Op.MovUp4 => opcodes.MOVUP4
  | Op.MovUp5 => opcodes.MOVUP5
  | Op.MovUp6 => opcodes.MOVUP6
  | Op.MovUp7 => opcodes.MOVUP7
  | Op.MovUp8 => opcodes.MOVUP8
  | Op.MovDn2 => opcodes.MOVDN2
  | Op.MovDn3 => opcodes.MOVDN3
  | Op.MovDn4 => opcodes.MOVDN4
  | Op.MovDn5 => opcodes.MOVDN5
  | Op.MovDn6 => opcodes.MOVDN6
  | Op.MovDn7 => opcodes.MOVDN7
  | Op.MovDn8 => opcodes.MOVDN8
  | Op.CSwap => opcodes.CSWAP
  | Op.CSwapW => opcodes.CSWAPW
  | Op.Push _ => opcodes.PUSH
  | Op.AdvPop => opcodes.ADVPOP
  | Op.AdvPopW => opcodes.ADVPOPW
  | Op.MLoadW => opcodes.MLOADW
  | Op.MStoreW => opcodes.MSTOREW
  | Op.MLoad => opcodes.MLOAD
  | Op.MStore => opcodes.MSTORE
  | Op.MStream => opcodes.MSTREAM
  | Op.Pipe => opcodes.PIPE
  | Op.CryptoStream => opcodes.CRYPTOSTREAM
  | Op.HPerm => opcodes.HPERM
  | Op.MpVerify _ => opcodes.MPVERIFY
  | Op.MrUpdate => opcodes.MRUPDATE
  | Op.FriE2F4 => opcodes.FRIE2F4
  | Op.HornerBase => opcodes.HORNERBASE
  | Op.HornerExt => opcodes.HORNEREXT
  | Op.EvalCircuit => opcodes.EVALCIRCUIT
  | Op.LogDeferred => opcodes.LOGDEFERRED
  end.

Definition imm_value (op : Operation) : option Felt :=
  match op with
  | Op.Push imm => Some imm
  | _ => None
  end.

Definition increments_stack_size (op : Operation) : bool :=
  match op with
  | Op.SDepth | Op.Clk | Op.U32split | Op.Pad | Op.Dup0 | Op.Dup1 | Op.Dup2 | Op.Dup3
  | Op.Dup4 | Op.Dup5 | Op.Dup6 | Op.Dup7 | Op.Dup9 | Op.Dup11 | Op.Dup13 | Op.Dup15
  | Op.Push _ | Op.AdvPop => true
  | _ => false
  end.

Definition decrements_stack_size (op : Operation) : bool :=
  match op with
  | Op.Assert _ | Op.Add | Op.Mul | Op.And | Op.Or | Op.Eq | Op.U32add3 | Op.U32madd
  | Op.U32and | Op.U32xor | Op.Drop | Op.CSwap | Op.CSwapW | Op.MLoadW | Op.MStoreW
  | Op.MStore | Op.FriE2F4 => true
  | _ => false
  end.
