(* ===== verification/OpSerde.v ===== *)
(** * Serialization of operations

    core/src/operations/mod.rs: an operation is written as its opcode, followed
    by the error code or the immediate value of the operations that carry one. *)

From S2P Require Import Prelude Felt Serde SerdeTheory Operations.

(** The element written after the opcode. *)
Definition op_payload (op : Operation) : option Felt :=
  match op with
  | Op.Assert err_code | Op.MpVerify err_code | Op.U32assert2 err_code => Some err_code
  | Op.Push value => Some value
  | _ => None
  end.

Definition op_write_into (op : Operation) : list Z :=
  write_u8 (op_code op) ++
  match op_payload op with Some x => write_into x | None => [] end.

Definition encoded_size (op : Operation) : Z :=
  1 + match op_payload op with Some x => get_size_hint x | None => 0 end.

Definition op_read_from {R} `{ByteReader R} : DM R Operation :=
  let! op_code := read_u8 in
  match op_code with
  | opcodes.NOOP => ret Op.Noop
  | opcodes.EQZ => ret Op.Eqz
  | opcodes.NEG => ret Op.Neg
  | opcodes.INV => ret Op.Inv
  | opcodes.INCR => ret Op.Incr
  | opcodes.NOT => ret Op.Not
  | opcodes.MLOAD => ret Op.MLoad
  | opcodes.SWAP => ret Op.Swap
  | opcodes.CALLER => ret Op.Caller
  | opcodes.MOVUP2 => ret Op.MovUp2
  | opcodes.MOVDN2 => ret Op.MovDn2
  | opcodes.MOVUP3 => ret Op.MovUp3
  | opcodes.MOVDN3 => ret Op.MovDn3
  | opcodes.ADVPOPW => ret Op.AdvPopW
  | opcodes.EXPACC => ret Op.Expacc
  | opcodes.MOVUP4 => ret Op.MovUp4
  | opcodes.MOVDN4 => ret Op.MovDn4
  | opcodes.MOVUP5 => ret Op.MovUp5
  | opcodes.MOVDN5 => ret Op.MovDn5
  | opcodes.MOVUP6 => ret Op.MovUp6
  | opcodes.MOVDN6 => ret Op.MovDn6
  | opcodes.MOVUP7 => ret Op.MovUp7
  | opcodes.MOVDN7 => ret Op.MovDn7
  | opcodes.SWAPW => ret Op.SwapW
  | opcodes.EXT2MUL => ret Op.Ext2Mul
  | opcodes.MOVUP8 => ret Op.MovUp8
  | opcodes.MOVDN8 => ret Op.MovDn8
  | opcodes.SWAPW2 => ret Op.SwapW2
  | opcodes.SWAPW3 => ret Op.SwapW3
  | opcodes.SWAPDW => ret Op.SwapDW
  | opcodes.EMIT => ret Op.Emit
  | opcodes.ASSERT => let! x := read_from in ret (Op.Assert x)
  | opcodes.EQ => ret Op.Eq
  | opcodes.ADD => ret Op.Add
  | opcodes.MUL => ret Op.Mul
  | opcodes.AND => ret Op.And
  | opcodes.OR => ret Op.Or
  | opcodes.U32AND => ret Op.U32and
  | opcodes.U32XOR => ret Op.U32xor
  | opcodes.FRIE2F4 => ret Op.FriE2F4
  | opcodes.DROP => ret Op.Drop
  | opcodes.CSWAP => ret Op.CSwap
  | opcodes.CSWAPW => ret Op.CSwapW
  | opcodes.MLOADW => ret Op.MLoadW
  | opcodes.MSTORE => ret Op.MStore
  | opcodes.MSTOREW => ret Op.MStoreW
  | opcodes.PAD => ret Op.Pad
  | opcodes.DUP0 => ret Op.Dup0
  | opcodes.DUP1 => ret Op.Dup1
  | opcodes.DUP2 => ret Op.Dup2
  | opcodes.DUP3 => ret Op.Dup3
  | opcodes.DUP4 => ret Op.Dup4
  | opcodes.DUP5 => ret Op.Dup5
  | opcodes.DUP6 => ret Op.Dup6
  | opcodes.DUP7 => ret Op.Dup7
  | opcodes.DUP9 => ret Op.Dup9
  | opcodes.DUP11 => ret Op.Dup11
  | opcodes.DUP13 => ret Op.Dup13
  | opcodes.DUP15 => ret Op.Dup15
  | opcodes.ADVPOP => ret Op.AdvPop
  | opcodes.SDEPTH => ret Op.SDepth
  | opcodes.CLK => ret Op.Clk
  | opcodes.U32ADD => ret Op.U32add
  | opcodes.U32SUB => ret Op.U32sub
  | opcodes.U32MUL => ret Op.U32mul
  | opcodes.U32DIV => ret Op.U32div
  | opcodes.U32SPLIT => ret Op.U32split
  | opcodes.U32ASSERT2 => let! x := read_from in ret (Op.U32assert2 x)
  | opcodes.U32ADD3 => ret Op.U32add3
  | opcodes.U32MADD => ret Op.U32madd
  | opcodes.HPERM => ret Op.HPerm
  | opcodes.MPVERIFY => let! x := read_from in ret (Op.MpVerify x)
  | opcodes.PIPE => ret Op.Pipe
  | opcodes.MSTREAM => ret Op.MStream
  | opcodes.CRYPTOSTREAM => ret Op.CryptoStream
  | opcodes.HORNERBASE => ret Op.HornerBase
  | opcodes.HORNEREXT => ret Op.HornerExt
  | opcodes.LOGDEFERRED => ret Op.LogDeferred
  | opcodes.EVALCIRCUIT => ret Op.EvalCircuit
  | opcodes.MRUPDATE => ret Op.MrUpdate
  | opcodes.PUSH => let! x := read_from in ret (Op.Push x)
  | _ => fail (InvalidValue "Invalid opcode")
  end.

(** The size hint of an operation is the default, zero. *)
#[export] Instance operation_serializable : Serializable Operation :=
  {| write_into := op_write_into; get_size_hint _ := 0 |}.
#[export] Instance operation_deserializable : Deserializable Operation :=
  {| read_from R BR := op_read_from; min_serialized_size := 1 |}.

(** ** Round trip *)

Lemma op_write_length op : Z.of_nat (length (op_write_into op)) = encoded_size op.
Proof. unfold op_write_into, encoded_size. destruct (op_payload op); done. Qed.

Lemma op_code_u8 op : is_u8 (op_code op).
Proof. unfold is_u8. destruct op; cbn; lia. Qed.

#[export] Instance operation_complete : SerdeComplete Operation (fun _ => True).
Proof.
  split; [| |done|].
  - intros R BR RL op r bs _ Hr. cbn [write_into operation_serializable read_from operation_deserializable] in *.
    unfold op_write_into, write_u8 in *. unfold op_read_from. cbn [app] in Hr.
    erewrite bind_Ok by (exact (read_u8_ready _ _ _ Hr)). pose proof (ready_advance r [op_code op] _ Hr) as Hr1.
    cbn [length] in Hr1.
    assert (Hpay : forall x (k : Felt -> Operation), op_payload op = Some x ->
      (let! y := read_from in ret (k y)) (advance r 1) = (Ok (k x), advance r (1 + length (write_into x)))).
    { intros x k Hx. rewrite Hx in Hr1. erewrite bind_Ok by (apply (serde_read _ RL) with bs; done).
      unfold ret. by rewrite advance_add. }
    destruct op; cbn [op_code op_payload] in *; try done; by rewrite (Hpay _ _ eq_refl).
  - intros op _. cbn [write_into operation_serializable]. unfold op_write_into. rewrite length_app. cbn. lia.
  - intros op _. cbn [write_into operation_serializable]. unfold op_write_into. apply Forall_app.
    split; [by constructor; [apply op_code_u8|constructor]|]. destruct (op_payload op); [by apply serde_u8|constructor].
Qed.

(** ** Only the encoding is accepted *)

(** Reading [v] from a slice consumes exactly the bytes [v] is written as. *)
Definition consumes {T} `{Serializable T} (s : SliceReader) (v : T) (s' : SliceReader) : Prop :=
  sr_source s' = sr_source s /\
  exists pre post, sr_source s = pre ++ write_into v ++ post /\ length pre = sr_pos s /\
    sr_pos s' = (sr_pos s + length (write_into v))%nat.

Lemma sr_read_slice_inv n s l s' : 0 <= n -> sr_read_slice n s = (Ok l, s') ->
  length l = Z.to_nat n /\ sr_source s' = sr_source s /\ sr_pos s' = (sr_pos s + length l)%nat /\
  exists pre post, sr_source s = pre ++ l ++ post /\ length pre = sr_pos s.
Proof.
  intros Hn. unfold sr_read_slice, sr_check_eor. destruct (_ && _) eqn:E; [|done].
  apply andb_true_iff in E as [_ E%Z.leb_le]. unfold slice. destruct (_ && _) eqn:E'; [|done].
  apply andb_true_iff in E' as [_ E'%Nat.leb_le]. intros [= <- <-]. cbn.
  replace (sr_pos s + Z.to_nat n - sr_pos s)%nat with (Z.to_nat n) by lia.
  assert (Hl : length (take (Z.to_nat n) (drop (sr_pos s) (sr_source s))) = Z.to_nat n)
    by (rewrite length_take, length_drop; lia).
  split; [done|]. split; [done|]. split; [lia|].
  exists (take (sr_pos s) (sr_source s)), (drop (Z.to_nat n) (drop (sr_pos s) (sr_source s))).
  rewrite take_drop, take_drop, length_take. split; [done|lia].
Qed.

Lemma read_le_inv n s x s' : Forall is_u8 (sr_source s) ->
  (let! bytes := read_array n in ret (from_le_bytes bytes)) s = (Ok x, s') ->
  0 <= x < 256 ^ Z.of_nat n /\ sr_source s' = sr_source s /\ sr_pos s' = (sr_pos s + n)%nat /\
  exists pre post, sr_source s = pre ++ to_le_bytes n x ++ post /\ length pre = sr_pos s.
Proof.
  intros Hu. unfold bind. cbn [read_array slice_reader].
  destruct (sr_read_slice (Z.of_nat n) s) as [[l| |] s1] eqn:E; [|done|done]. intros [= <- <-].
  apply sr_read_slice_inv in E as (Hlen & Hs & Hp & pre & post & Hsrc & Hpre); [|lia]. rewrite Nat2Z.id in Hlen.
  assert (Hl : Forall is_u8 l) by (rewrite Hsrc in Hu; apply Forall_app in Hu as [_ Hu]; by apply Forall_app in Hu as [? _]).
  rewrite <- Hlen at 1. split; [by apply from_le_bytes_range|]. split; [done|]. split; [lia|].
  exists pre, post. rewrite <- Hlen, to_from_le_bytes by done. done.
Qed.

Lemma felt_read_inv (s : SliceReader) (v : Felt) s' : Forall is_u8 (sr_source s) -> read_from s = (Ok v, s') ->
  consumes s v s'.
Proof.
  intros Hu. cbn [read_from felt_deserializable]. unfold bind at 1. destruct (read_u64 s) as [[x| |] s1] eqn:E; [|done|done].
  apply (read_le_inv 8) in E as (Hx & Hs & Hp & pre & post & Hsrc & Hpre); [|done].
  unfold felt_new. destruct (Z.ltb_spec x ORDER) as [Hlt|]; cbn; intros [= <- <-].
  split; [done|]. exists pre, post. cbn [write_into felt_serializable]. unfold write_u64, write_bytes.
  rewrite felt_of_Z_small by lia. rewrite length_to_le_bytes. done.
Qed.

Lemma consumes_app {A B C} `{Serializable A, Serializable B, Serializable C} s (a : A) s1 (b : B) s2 (c : C) :
  consumes s a s1 -> consumes s1 b s2 -> write_into c = write_into a ++ write_into b -> consumes s c s2.
Proof.
  intros (E1 & pre & post & E2 & E3 & E4) (E5 & pre' & post' & E6 & E7 & E8) Hc. split; [congruence|].
  exists pre, post'. rewrite Hc, length_app. split; [|split; [done|lia]].
  assert (Hpre : length (pre ++ write_into a) = length pre') by (rewrite length_app; lia).
  rewrite E1, E2, app_assoc in E6. apply app_inj_1 in E6 as [_ E6]; [|done].
  by rewrite E2, E6, <- app_assoc.
Qed.

Lemma u8_read_inv (s : SliceReader) x s' : Forall is_u8 (sr_source s) -> read_u8 s = (Ok x, s') ->
  is_u8 x /\ consumes s (mkU8 x) s'.
Proof.
  intros Hu. cbn [read_u8 slice_reader]. destruct (sr_check_eor s 1); [|done|done].
  destruct (sr_source s !! sr_pos s) as [y|] eqn:E; [|done]. intros [= <- <-].
  split; [by eapply Forall_lookup_1|]. split; [done|]. exists (take (sr_pos s) (sr_source s)), (drop (S (sr_pos s)) (sr_source s)).
  cbn. split; [by rewrite take_drop_middle|]. apply lookup_lt_Some in E. rewrite length_take. lia.
Qed.

Lemma op_read_inv (s : SliceReader) op s' : Forall is_u8 (sr_source s) -> op_read_from s = (Ok op, s') ->
  consumes s op s'.
Proof.
  intros Hu. unfold op_read_from, bind at 1. destruct (read_u8 s) as [[c| |] s1] eqn:E; [|done|done].
  apply u8_read_inv in E as [Hc Hs]; [|done]. unfold is_u8 in Hc.
  assert (Hu1 : Forall is_u8 (sr_source s1)) by (by destruct Hs as [-> _]).
  assert (Hnone : forall op', op_code op' = c -> op_payload op' = None -> consumes s op' s1).
  { intros op' <- Hp. destruct Hs as (H1 & pre & post & H2 & H3 & H4). split; [done|]. exists pre, post.
    cbn [write_into operation_serializable]. unfold op_write_into. by rewrite Hp. }
  assert (Hsome : forall k : Felt -> Operation, (forall x, op_code (k x) = c /\ op_payload (k x) = Some x) ->
    (let! x := read_from in ret (k x)) s1 = (Ok op, s') -> consumes s op s').
  { intros k Hk. unfold bind. destruct (read_from s1) as [[x| |] s2] eqn:E; [|done|done]. intros [= <- <-].
    apply felt_read_inv in E; [|done]. refine (consumes_app _ (mkU8 c) _ x _ (k x) Hs E _). destruct (Hk x) as [<- Hp].
    cbn [write_into operation_serializable]. unfold op_write_into. by rewrite Hp. }
  clear Hs. revert Hnone Hsome. unfold fail, ret at 1.
  repeat case_match; intros Hnone Hsome Hop;
    first [discriminate Hop | injection Hop as <- <-; by apply Hnone | by eapply Hsome; [|exact Hop]].
Qed.

(** C25: The wire format of operations is a prefix code, and the reader decides
    it.  From the start of any bytes the reader returns an operation exactly
    when the bytes begin with what that operation is written as, and then
    consumes exactly its encoded size.  So no two operations share an encoding,
    none is a prefix of another, and nothing else is accepted. *)
Theorem operation_encoding (bytes : list Z) (op : Operation) (s : SliceReader) :
  Forall is_u8 bytes -> Z.of_nat (length bytes) <= U64_MAX ->
  op_read_from (slice_reader_new bytes) = (Ok op, s) <->
    s = mkSliceReader bytes (Z.to_nat (encoded_size op)) /\ exists rest, bytes = op_write_into op ++ rest.
Proof.
  intros Hu Hl. rewrite <- op_write_length, Nat2Z.id. split.
  - intros Hr. apply op_read_inv in Hr as (Hsrc & pre & post & Hs & Hp & Hpos); [|done]. cbn in Hp. destruct pre; [|done].
    split; [|by exists post]. destruct s as [src pos]. cbn in *. by subst.
  - intros [-> [rest ->]].
    pose proof (serde_read (T := Operation) _ slice_reader_laws op (slice_reader_new (op_write_into op ++ rest)) rest I) as Hr. apply Hr.
    split; [exact Hl|]. exists [], []. by rewrite app_nil_r.
Qed.
