(* ===== verification/SerdeSafe.v ===== *)
(** * Deserialization never panics

    [reads m Q]: on every reader in a good state the computation [m] ends in a
    value that satisfies [Q] or in an error, never in a panic, and leaves the
    reader in a good state.  Bytes are arbitrary. *)

From S2P Require Import Prelude Felt Serde SerdeTheory Operations OpSerde.

Class ReaderSafe (R : Type) `{BR : ByteReader R} := {
  rinv : R -> Prop;
  read_u8_safe r : rinv r -> rinv (snd (read_u8 r)) /\ rok (fst (read_u8 r)) is_u8;
  peek_u8_safe r : rinv r -> rok (peek_u8 r) is_u8;
  read_slice_safe n r : 0 <= n -> rinv r -> rinv (snd (read_slice n r)) /\
    rok (fst (read_slice n r)) (fun l => length l = Z.to_nat n /\ Forall is_u8 l);
  read_array_safe n r : rinv r -> rinv (snd (read_array n r)) /\
    rok (fst (read_array n r)) (fun l => length l = n /\ Forall is_u8 l)
}.

(** ** The slice reader *)

Definition sr_inv (s : SliceReader) : Prop := (sr_pos s <= length (sr_source s))%nat /\ Forall is_u8 (sr_source s).

Lemma sr_read_slice_safe n s : 0 <= n -> sr_inv s -> sr_inv (snd (sr_read_slice n s)) /\
  rok (fst (sr_read_slice n s)) (fun l => length l = Z.to_nat n /\ Forall is_u8 l).
Proof.
  intros Hn [Hp Hu]. unfold sr_read_slice, sr_check_eor. destruct (_ && _) eqn:E; [|done].
  apply andb_true_iff in E as [_ E%Z.leb_le]. unfold slice. rewrite (proj2 (Nat.leb_le _ (_ + _))) by lia.
  rewrite (proj2 (Nat.leb_le _ (length _))) by lia. cbn. split; [split; [cbn; lia|done]|]. split.
  - rewrite length_take, length_drop. lia.
  - by apply Forall_take, Forall_drop.
Qed.

#[export] Instance slice_reader_safe : ReaderSafe SliceReader.
Proof.
  refine {| rinv := sr_inv |}.
  - intros s [Hp Hu]. cbn [read_u8 slice_reader]. unfold sr_check_eor. destruct (_ && _) eqn:E; [|done].
    apply andb_true_iff in E as [_ E%Z.leb_le]. destruct (lookup_lt_is_Some_2 (sr_source s) (sr_pos s)) as [b Hb]; [lia|].
    rewrite Hb. cbn. split; [split; [cbn; lia|done]|]. by eapply Forall_lookup_1.
  - intros s [Hp Hu]. cbn [peek_u8 slice_reader]. unfold sr_check_eor. destruct (_ && _) eqn:E; [|done].
    apply andb_true_iff in E as [_ E%Z.leb_le]. destruct (lookup_lt_is_Some_2 (sr_source s) (sr_pos s)) as [b Hb]; [lia|].
    cbn [rbind]. rewrite Hb. cbn. by eapply Forall_lookup_1.
  - intros n s. apply sr_read_slice_safe.
  - intros n s Hs. destruct (sr_read_slice_safe (Z.of_nat n) s) as [H1 H2]; [lia|done|]. split; [done|].
    eapply rok_mono; [exact H2|]. intros l. by rewrite Nat2Z.id.
Defined.

#[export] Instance budgeted_reader_safe {R} `{RS : ReaderSafe R} : ReaderSafe (BudgetedReader R).
Proof.
  refine {| rinv s := rinv (br_inner s) |}.
  - intros s Hs. cbn. unfold bind, consume_budget, on_inner. destruct (_ <? _); [done|]. cbn.
    destruct (read_u8_safe _ Hs) as [H1 H2]. by destruct (read_u8 (br_inner s)).
  - intros s Hs. exact (peek_u8_safe (br_inner s) Hs).
  - intros n s Hn Hs. cbn. unfold bind, consume_budget, on_inner. destruct (_ <? _); [done|]. cbn.
    destruct (read_slice_safe n _ Hn Hs) as [H1 H2]. by destruct (read_slice n (br_inner s)).
  - intros n s Hs. cbn. unfold bind, consume_budget, on_inner. destruct (_ <? _); [done|]. cbn.
    destruct (read_array_safe n _ Hs) as [H1 H2]. by destruct (read_array n (br_inner s)).
Defined.

(** ** Safe computations *)

Section Reads.
Context {R : Type} `{RS : ReaderSafe R}.

Definition reads {A} (m : DM R A) (Q : A -> Prop) : Prop :=
  forall r, rinv r -> rinv (snd (m r)) /\ rok (fst (m r)) Q.

Lemma reads_ret {A} (a : A) (Q : A -> Prop) : Q a -> reads (ret a) Q.
Proof. by intros Ha r Hr. Qed.

Lemma reads_fail {A} e (Q : A -> Prop) : reads (fail e) Q.
Proof. by intros r Hr. Qed.

Lemma reads_bind {A B} (m : DM R A) (k : A -> DM R B) (P : A -> Prop) (Q : B -> Prop) :
  reads m P -> (forall a, P a -> reads (k a) Q) -> reads (bind m k) Q.
Proof.
  intros Hm Hk r Hr. unfold bind. destruct (Hm r Hr) as [H1 H2]. destruct (m r) as [[a|e|] r']; cbn in *; [by apply Hk|done|done].
Qed.

Lemma reads_mono {A} (m : DM R A) (P Q : A -> Prop) : reads m P -> (forall a, P a -> Q a) -> reads m Q.
Proof. intros Hm HPQ r Hr. destruct (Hm r Hr) as [H1 H2]. split; [done|]. by eapply rok_mono. Qed.

Lemma reads_lift {A} (x : DR A) (Q : A -> Prop) : rok x Q -> reads (lift_res x) Q.
Proof. by intros Hx r Hr. Qed.

Lemma reads_expect {A} (o : option A) (Q : A -> Prop) a : o = Some a -> Q a -> reads (expect o) Q.
Proof. intros ->. apply reads_ret. Qed.

Lemma reads_gets {A} (f : R -> A) : reads (gets f) (fun _ => True).
Proof. by intros r Hr. Qed.

Lemma reads_le n : reads (let! bytes := read_array n in ret (from_le_bytes bytes)) (fun x => 0 <= x < 256 ^ Z.of_nat n).
Proof.
  eapply reads_bind; [intros r Hr; by apply read_array_safe|]. intros l [Hl Hu]. apply reads_ret. rewrite <- Hl.
  by apply from_le_bytes_range.
Qed.

Lemma reads_u8 : reads read_u8 is_u8.
Proof. intros r. apply read_u8_safe. Qed.
Lemma reads_u32 : reads read_u32 is_u32.
Proof. eapply reads_mono; [apply (reads_le 4)|]. intros x Hx. unfold is_u32, U32_MAX. change (256 ^ Z.of_nat 4) with 4294967296 in Hx. cbv beta in Hx. lia. Qed.
Lemma reads_u64 : reads read_u64 is_u64.
Proof.
  eapply reads_mono; [apply (reads_le 8)|]. intros x Hx. unfold is_u64, U64_MAX.
  change (256 ^ Z.of_nat 8) with 18446744073709551616 in Hx. cbv beta in Hx. lia.
Qed.
Lemma reads_slice n : 0 <= n -> reads (read_slice n) (fun l => length l = Z.to_nat n /\ Forall is_u8 l).
Proof. intros Hn r. by apply read_slice_safe. Qed.
Lemma reads_array n : reads (read_array n) (fun l => length l = n /\ Forall is_u8 l).
Proof. intros r. by apply read_array_safe. Qed.

Lemma trailing_zeros_from_range fuel i x : i <= trailing_zeros_from fuel i x <= i + Z.of_nat fuel.
Proof.
  revert i. induction fuel as [|fuel IH]; intros i; cbn [trailing_zeros_from]; [lia|]. specialize (IH (i + 1)).
  destruct (Z.testbit x i); lia.
Qed.

Lemma reads_usize : reads read_usize is_u64.
Proof.
  unfold read_usize. eapply (reads_bind _ _ is_u8). { intros r Hr. split; [done|]. by apply peek_u8_safe. }
  intros b _. pose proof (trailing_zeros_from_range 8 0 b) as Ht. fold (trailing_zeros8 b) in Ht.
  eapply (reads_bind _ _ (fun x => 0 <= x)).
  - destruct (Z.eqb_spec (trailing_zeros8 b + 1) 9) as [E|E].
    + eapply reads_bind; [apply reads_u8|]. intros _ _. eapply reads_mono; [apply reads_u64|]. unfold is_u64. lia.
    + eapply reads_bind; [apply reads_slice; lia|]. intros l [Hl Hu]. unfold copy_at.
      rewrite (proj2 (Nat.leb_le _ _)) by (rewrite length_replicate; lia).
      eapply (reads_bind _ _ (Forall is_u8)); [apply (reads_expect _ _ _ eq_refl)|].
      { apply Forall_app. split; [by apply Forall_take, Forall_replicate|]. apply Forall_app. split; [done|].
        apply Forall_drop, Forall_replicate. done. }
      intros enc Henc. apply reads_ret. apply Z.shiftr_nonneg. by apply from_le_bytes_range.
  - intros x Hx. destruct (Z.ltb_spec U64_MAX x); [apply reads_fail|]. apply reads_ret. unfold is_u64. lia.
Qed.

End Reads.

(** ** Safe types *)

Class DeserSafe (T : Type) `{DT : Deserializable T} (ok : T -> Prop) :=
  read_from_safe : forall R `(RS : ReaderSafe R), reads read_from ok.

#[export] Instance u8_safe : DeserSafe u8 (fun x => is_u8 (u8_val x)).
Proof. intros R BR RS. eapply reads_bind; [apply reads_u8|]. intros x Hx. by apply reads_ret. Qed.
#[export] Instance u32_safe : DeserSafe u32 (fun x => is_u32 (u32_val x)).
Proof. intros R BR RS. eapply reads_bind; [apply reads_u32|]. intros x Hx. by apply reads_ret. Qed.
#[export] Instance u64_safe : DeserSafe u64 (fun x => is_u64 (u64_val x)).
Proof. intros R BR RS. eapply reads_bind; [apply reads_u64|]. intros x Hx. by apply reads_ret. Qed.

#[export] Instance felt_safe : DeserSafe Felt (fun _ => True).
Proof.
  intros R BR RS. eapply reads_bind; [apply reads_u64|]. intros x _. unfold ok_or.
  destruct (felt_new x); [by apply reads_ret|apply reads_fail].
Qed.

Lemma reads_word_element {R} `{RS : ReaderSafe R} : reads read_word_element (fun _ => True).
Proof.
  eapply reads_bind; [apply reads_u64|]. intros x _. destruct (_ <=? _); [apply reads_fail|by apply reads_ret].
Qed.

#[export] Instance word_safe : DeserSafe Word (fun _ => True).
Proof.
  intros R BR RS. cbn [read_from word_deserializable]. do 4 (eapply reads_bind; [apply reads_word_element|intros ? _]).
  by apply reads_ret.
Qed.

#[export] Instance pair_safe {A B} `{SA : DeserSafe A okA} `{SB : DeserSafe B okB} :
  DeserSafe (A * B) (fun p => okA (fst p) /\ okB (snd p)).
Proof.
  intros R BR RS. eapply reads_bind; [apply SA|]. intros a Ha. eapply reads_bind; [apply SB|]. intros b Hb.
  by apply reads_ret.
Qed.

Section Many.
Context {T : Type} `{ST : DeserSafe T ok} {R : Type} `{RS : ReaderSafe R}.

Lemma reads_collect_many n : reads (collect_many (T := T) n) (fun l => length l = n /\ Forall ok l).
Proof.
  induction n as [|n IH]; [by apply reads_ret|]. cbn [collect_many]. eapply reads_bind; [apply ST|]. intros x Hx.
  eapply reads_bind; [exact IH|]. intros l [Hl Hf]. apply reads_ret. split; [cbn; lia|by constructor].
Qed.

Lemma reads_many n : reads (read_many (T := T) n) (fun l => length l = Z.to_nat n /\ Forall ok l).
Proof.
  unfold read_many. eapply reads_bind; [apply reads_gets|]. intros max _. destruct (_ <? _); [apply reads_fail|].
  apply reads_collect_many.
Qed.

End Many.

#[export] Instance vec_safe {A} `{SA : DeserSafe A ok} : DeserSafe (list A) (Forall ok).
Proof.
  intros R BR RS. eapply reads_bind; [apply reads_usize|]. intros len _. eapply reads_mono; [apply reads_many|]. by intros l [_ ?].
Qed.

#[export] Instance operation_safe : DeserSafe Operation (fun _ => True).
Proof.
  intros R BR RS. eapply reads_bind; [apply reads_u8|]. intros c _.
  assert (Hk : forall k : Felt -> Operation, reads (let! x := read_from in ret (k x)) (fun _ => True)).
  { intros k. eapply reads_bind; [apply felt_safe|]. intros x _. by apply reads_ret. }
  repeat case_match; first [apply reads_fail|by apply reads_ret|apply Hk].
Qed.


Lemma reads_option {A} `{SA : DeserSafe A ok} {R} `{RS : ReaderSafe R} :
  reads (read_from (T := option A)) (fun o => from_option ok True o).
Proof.
  eapply (reads_bind _ _ (fun _ => True)).
  - eapply reads_bind; [apply reads_u8|]. intros b _. destruct (b =? 0); [by apply reads_ret|].
    destruct (b =? 1); [by apply reads_ret|apply reads_fail].
  - intros [] _; [|by apply reads_ret]. eapply reads_bind; [apply SA|]. intros x Hx. by apply reads_ret.
Qed.
