(* ===== verification/OpBatch.v ===== *)
(** * Operation batches

    core/src/mast/node/basic_block_node/op_batch.rs and the batching functions
    of basic_block_node/mod.rs: how a linear sequence of operations is packed
    into batches of at most eight groups, each holding up to nine opcodes of
    seven bits or one immediate value, with the padding [Noop]s the packing
    needs.

    A vector index out of range, or a [usize] subtraction below zero, is [None]
    here (a panic in the source).  [usize] is [nat]: every index is below 73. *)

From S2P Require Import Prelude Felt Operations.

Definition GROUP_SIZE : nat := 9.
Definition BATCH_SIZE : nat := 8.
Definition BATCH_SIZE_PLUS_ONE : nat := BATCH_SIZE + 1.

(** [usize::next_power_of_two] and [is_power_of_two]. *)
Definition next_power_of_two (n : nat) : nat := 2 ^ Nat.log2_up n.
Definition is_power_of_two (n : nat) : bool := (0 <? n)%nat && (2 ^ Nat.log2 n =? n)%nat.

Record OpBatch := mkOpBatch {
  ob_ops : list Operation;
  ob_indptr : list nat;
  ob_padding : list bool;
  ob_groups : list Felt;
  ob_num_groups : nat
}.

(** ** Reading a batch *)

(** The operations of group [i], without the padding [Noop]. *)
Definition raw_group (b : OpBatch) (i : nat) : option (list Operation) :=
  padded ← ob_padding b !! i;
  start_idx ← ob_indptr b !! i;
  next ← ob_indptr b !! (i + 1)%nat;
  end_idx ← checked_sub next (if padded : bool then 1 else 0)%nat;
  slice start_idx end_idx (ob_ops b).

Definition raw_ops (b : OpBatch) : option (list Operation) :=
  mjoin <$> mapM (raw_group b) (seq 0 (ob_num_groups b)).

(** [partition_point] of a slice that is partitioned: the length of the prefix
    on which the predicate holds. *)
Fixpoint partition_point {A} (p : A -> bool) (l : list A) : nat :=
  match l with
  | [] => 0
  | x :: l => if p x then S (partition_point p l) else 0
  end.

(** The result is [None] for an index out of bounds; the outer option is a panic. *)
Definition op_idx_in_batch_to_group (b : OpBatch) (op_idx_in_batch : nat) : option (option (nat * nat)) :=
  if (length (ob_ops b) <=? op_idx_in_batch)%nat then Some None
  else
    ends ← slice 1 (ob_num_groups b + 1) (ob_indptr b);
    let group_idx := partition_point (fun e => e <=? op_idx_in_batch)%nat ends in
    start ← ob_indptr b !! group_idx;
    i ← checked_sub op_idx_in_batch start;
    Some (Some (group_idx, i)).

Definition next_op_group_index (b : OpBatch) (after_this_group_index : nat) : option nat :=
  snd <$> list_find
    (fun g => Is_true (match ob_indptr b !! g, ob_indptr b !! (g + 1)%nat with
                       | Some x, Some y => negb (x =? y)%nat
                       | _, _ => false
                       end))
    (seq (after_this_group_index + 1) (ob_num_groups b - (after_this_group_index + 1))).

(** ** Iterating with group information

    The [while] of [OpBatchIterator::next] advances the group index past the
    groups that end at or before the operation; [fuel] is the number of groups. *)

Fixpoint advance_group (fuel : nat) (b : OpBatch) (current_op_idx grp_idx : nat) : option nat :=
  match fuel with
  | O => None
  | S fuel =>
      if (grp_idx + 1 <? ob_num_groups b)%nat then
        next ← ob_indptr b !! (grp_idx + 1)%nat;
        if (next <=? current_op_idx)%nat then advance_group fuel b current_op_idx (grp_idx + 1)
        else Some grp_idx
      else Some grp_idx
  end.

Record OpBatchIterator := mkOpBatchIterator { it_current_op_idx : nat; it_grp_idx : nat }.

Definition iterator_next (b : OpBatch) (it : OpBatchIterator) :
    option (option ((nat * nat * Operation) * OpBatchIterator)) :=
  match ob_ops b !! it_current_op_idx it with
  | None => Some None
  | Some op =>
      grp_idx ← advance_group (S (ob_num_groups b)) b (it_current_op_idx it) (it_grp_idx it);
      start ← ob_indptr b !! grp_idx;
      i ← checked_sub (it_current_op_idx it) start;
      Some (Some ((grp_idx, i, op), mkOpBatchIterator (it_current_op_idx it + 1) grp_idx))
  end.

Fixpoint iterate (fuel : nat) (b : OpBatch) (it : OpBatchIterator) :
    option (list (nat * nat * Operation)) :=
  match fuel with
  | O => None
  | S fuel =>
      r ← iterator_next b it;
      match r with
      | None => Some []
      | Some (x, it') => rest ← iterate fuel b it'; Some (x :: rest)
      end
  end.

(** All items of [iter_with_groups], in order. *)
Definition iter_with_groups (b : OpBatch) : option (list (nat * nat * Operation)) :=
  iterate (S (length (ob_ops b))) b (mkOpBatchIterator 0 0).

(** ** The accumulator *)

Record OpBatchAccumulator := mkAcc {
  acc_ops : list Operation;
  acc_indptr : list nat;
  acc_padding : list bool;
  acc_groups : list Felt;
  acc_group : Z;
  acc_op_idx : nat;
  acc_group_idx : nat;
  acc_next_group_idx : nat
}.

Definition INVALID_IDX : nat := BATCH_SIZE * GROUP_SIZE + 1.

Definition acc_new : OpBatchAccumulator :=
  mkAcc [] (replicate BATCH_SIZE_PLUS_ONE 0%nat) (replicate BATCH_SIZE false)
    (replicate BATCH_SIZE ZERO) 0 0 0 1.

Definition has_imm (op : Operation) : bool := bool_decide (is_Some (imm_value op)).

Definition can_accept_op (a : OpBatchAccumulator) (op : Operation) : bool :=
  if has_imm op then
    if (acc_op_idx a <? GROUP_SIZE - 1)%nat then (acc_next_group_idx a <? BATCH_SIZE)%nat
    else (acc_next_group_idx a + 1 <? BATCH_SIZE)%nat
  else (acc_op_idx a <? GROUP_SIZE)%nat || (acc_next_group_idx a <? BATCH_SIZE)%nat.

Definition push_op (a : OpBatchAccumulator) (op : Operation) : OpBatchAccumulator :=
  mkAcc (acc_ops a ++ [op]) (acc_indptr a) (acc_padding a) (acc_groups a)
    (Z.lor (acc_group a) (wrap64 (Z.shiftl (op_code op) (OP_BITS * Z.of_nat (acc_op_idx a)))))
    (acc_op_idx a + 1) (acc_group_idx a) (acc_next_group_idx a).

Definition pad_if_needed (a : OpBatchAccumulator) : option OpBatchAccumulator :=
  if (acc_op_idx a =? 0)%nat || from_option has_imm false (last (acc_ops a)) then
    let a := push_op a Op.Noop in
    padding ← update (acc_group_idx a) true (acc_padding a);
    Some (mkAcc (acc_ops a) (acc_indptr a) padding (acc_groups a) (acc_group a) (acc_op_idx a)
            (acc_group_idx a) (acc_next_group_idx a))
  else Some a.

(** The [while] of [finalize_indptr]; the index strictly decreases. *)
Fixpoint fix_uninit (uninit_group_idx group_idx n_ops : nat) (indptr : list nat) : option (list nat) :=
  if (group_idx <=? uninit_group_idx)%nat then
    x ← indptr !! uninit_group_idx;
    if (x =? INVALID_IDX)%nat then
      indptr ← update uninit_group_idx n_ops indptr;
      match uninit_group_idx with
      | O => None
      | S i => fix_uninit i group_idx n_ops indptr
      end
    else Some indptr
  else Some indptr.

Definition finalize_indptr (a : OpBatchAccumulator) : option OpBatchAccumulator :=
  let n_ops := length (acc_ops a) in
  indptr ← update (acc_next_group_idx a) n_ops (acc_indptr a);
  uninit ← checked_sub (acc_next_group_idx a) 1;
  indptr ← fix_uninit uninit (acc_group_idx a) n_ops indptr;
  Some (mkAcc (acc_ops a) indptr (acc_padding a) (acc_groups a) (acc_group a) (acc_op_idx a)
          (acc_group_idx a) (acc_next_group_idx a)).

Definition finalize_op_group (a : OpBatchAccumulator) : option OpBatchAccumulator :=
  a ← pad_if_needed a;
  groups ← update (acc_group_idx a) (new_unchecked (acc_group a)) (acc_groups a);
  a ← finalize_indptr
    (mkAcc (acc_ops a) (acc_indptr a) (acc_padding a) groups (acc_group a) (acc_op_idx a)
       (acc_group_idx a) (acc_next_group_idx a));
  Some (mkAcc (acc_ops a) (acc_indptr a) (acc_padding a) (acc_groups a) 0 0
          (acc_next_group_idx a) (acc_next_group_idx a + 1)).

(** Saving an immediate value at the next group index. *)
Definition save_imm (a : OpBatchAccumulator) (imm : Felt) : option OpBatchAccumulator :=
  groups ← update (acc_next_group_idx a) imm (acc_groups a);
  indptr ← update (acc_next_group_idx a) INVALID_IDX (acc_indptr a);
  Some (mkAcc (acc_ops a) indptr (acc_padding a) groups (acc_group a) (acc_op_idx a)
          (acc_group_idx a) (acc_next_group_idx a + 1)).

Definition add_op (a : OpBatchAccumulator) (op : Operation) : option OpBatchAccumulator :=
  a ← (if (acc_op_idx a =? GROUP_SIZE)%nat then finalize_op_group a else Some a);
  a ← match imm_value op with
      | Some imm =>
          a ← (if (acc_op_idx a =? GROUP_SIZE - 1)%nat then finalize_op_group a else Some a);
          save_imm a imm
      | None => Some a
      end;
  Some (push_op a op).

Fixpoint finalize_op_groups (n : nat) (a : OpBatchAccumulator) : option OpBatchAccumulator :=
  match n with
  | O => Some a
  | S n => a ← finalize_op_group a; finalize_op_groups n a
  end.

Definition into_batch (a : OpBatchAccumulator) : option OpBatch :=
  let num_groups := acc_next_group_idx a in
  let target_num_groups := next_power_of_two num_groups in
  a ← finalize_op_groups (target_num_groups - num_groups) a;
  groups ← (if negb (acc_group a =? 0) || negb (acc_op_idx a =? 0)%nat
            then update (acc_group_idx a) (new_unchecked (acc_group a)) (acc_groups a)
            else Some (acc_groups a));
  a ← pad_if_needed
    (mkAcc (acc_ops a) (acc_indptr a) (acc_padding a) groups (acc_group a) (acc_op_idx a)
       (acc_group_idx a) (acc_next_group_idx a));
  a ← finalize_indptr a;
  indptr ← fill (acc_next_group_idx a) BATCH_SIZE_PLUS_ONE (length (acc_ops a)) (acc_indptr a);
  Some (mkOpBatch (acc_ops a) indptr (acc_padding a) (acc_groups a) (acc_next_group_idx a)).

(** ** Batching *)

(** The loop of [batch_ops]: the batches pushed so far and the accumulator. *)
Definition batch_step (st : list OpBatch * OpBatchAccumulator) (op : Operation) :
    option (list OpBatch * OpBatchAccumulator) :=
  let '(batches, batch_acc) := st in
  st ← (if negb (can_accept_op batch_acc op) then
          batch ← into_batch batch_acc;
          Some (batches ++ [batch], acc_new)
        else Some (batches, batch_acc));
  let '(batches, batch_acc) := st in
  batch_acc ← add_op batch_acc op;
  Some (batches, batch_acc).

Fixpoint batch_loop (st : list OpBatch * OpBatchAccumulator) (ops : list Operation) :
    option (list OpBatch * OpBatchAccumulator) :=
  match ops with
  | [] => Some st
  | op :: ops => st ← batch_step st op; batch_loop st ops
  end.

Definition batch_ops (ops : list Operation) : option (list OpBatch) :=
  st ← batch_loop ([], acc_new) ops;
  let '(batches, batch_acc) := st in
  match acc_ops batch_acc with
  | [] => Some batches
  | _ => batch ← into_batch batch_acc; Some (batches ++ [batch])
  end.
