(* ===== verification/Mast.v ===== *)
(** * MAST nodes, forests and programs

    The node types of core/src/mast/node, [MastForest] and the trait
    [ExecutableMastForest] of core/src/mast/mod.rs, and [Program] and
    [KernelDescriptor] of core/src/program, as far as execution reads them. *)

From S2P Require Import Prelude Felt Operations OpBatch.

(** [MastNodeId] is a [u32] index into the nodes of its forest. *)
Notation MastNodeId := nat (only parsing).

Record BasicBlockNode := mkBasicBlockNode { op_batches : list OpBatch; bb_digest : Word }.
Record JoinNode := mkJoinNode { first : MastNodeId; second : MastNodeId; join_digest : Word }.
Record SplitNode := mkSplitNode { on_true : MastNodeId; on_false : MastNodeId; split_digest : Word }.
Record LoopNode := mkLoopNode { body : MastNodeId; loop_digest : Word }.
Record CallNode := mkCallNode { callee : MastNodeId; is_syscall : bool; call_digest : Word }.
Record DynNode := mkDynNode { is_dyncall : bool; dyn_digest : Word }.
Record ExternalNode := mkExternalNode { external_digest : Word }.

Inductive MastNode :=
| NBlock (n : BasicBlockNode)
| NJoin (n : JoinNode)
| NSplit (n : SplitNode)
| NLoop (n : LoopNode)
| NCall (n : CallNode)
| NDyn (n : DynNode)
| NExternal (n : ExternalNode).

Definition digest (n : MastNode) : Word :=
  match n with
  | NBlock n => bb_digest n
  | NJoin n => join_digest n
  | NSplit n => split_digest n
  | NLoop n => loop_digest n
  | NCall n => call_digest n
  | NDyn n => dyn_digest n
  | NExternal n => external_digest n
  end.

Definition is_external (n : MastNode) : bool := match n with NExternal _ => true | _ => false end.

(** The accessors panic ([None]) on a node of another kind. *)
Definition unwrap_basic_block (n : MastNode) : option BasicBlockNode :=
  match n with NBlock n => Some n | _ => None end.
Definition unwrap_loop (n : MastNode) : option LoopNode :=
  match n with NLoop n => Some n | _ => None end.
Definition unwrap_dyn (n : MastNode) : option DynNode :=
  match n with NDyn n => Some n | _ => None end.
Definition unwrap_external (n : MastNode) : option ExternalNode :=
  match n with NExternal n => Some n | _ => None end.

(** The ids a node refers to, in [append_children_to] order. *)
Definition children (n : MastNode) : list MastNodeId :=
  match n with
  | NJoin n => [first n; second n]
  | NSplit n => [on_true n; on_false n]
  | NLoop n => [body n]
  | NCall n => [callee n]
  | NBlock _ | NDyn _ | NExternal _ => []
  end.

(** ** Basic block nodes *)

Definition num_op_batches (n : BasicBlockNode) : nat := length (op_batches n).

(** [operations]: with the padding; [num_operations]: their number, as a [u32]. *)
Definition operations (n : BasicBlockNode) : list Operation := op_batches n ≫= ob_ops.
Definition num_operations (n : BasicBlockNode) : option Z :=
  let num_ops := Z.of_nat (sum_list (length ∘ ob_ops <$> op_batches n)) in
  if num_ops <=? U32_MAX then Some num_ops else None.

(** ** Forests *)

Class ExecutableMastForest (F : Type) := {
  get_node_by_id : F -> MastNodeId -> option MastNode;
  get_digest_by_id : F -> MastNodeId -> option Word;
  (** The outer option is a panic: a root that is not a node. *)
  find_procedure_root : F -> Word -> option (option MastNodeId);
  forest_advice_map : F -> gmap Word (list Felt)
}.

(** The cached commitments are not read by execution. *)
Record MastForest := mkMastForest {
  nodes : list MastNode;
  roots : list MastNodeId;
  advice_map : gmap Word (list Felt)
}.

Fixpoint find_root (f : MastForest) (d : Word) (rs : list MastNodeId) : option (option MastNodeId) :=
  match rs with
  | [] => Some None
  | root_id :: rs =>
      n ← nodes f !! root_id;
      if decide (digest n = d) then Some (Some root_id) else find_root f d rs
  end.

#[export] Instance dense_forest : ExecutableMastForest MastForest := {|
  get_node_by_id f id := nodes f !! id;
  get_digest_by_id f id := digest <$> nodes f !! id;
  find_procedure_root f d := find_root f d (roots f);
  forest_advice_map := advice_map
|}.

(** ** Programs *)

(** The kernel is the list of its procedure hashes. *)
Notation KernelDescriptor := (list Word) (only parsing).
Definition contains_proc (kernel : KernelDescriptor) (proc_hash : Word) : bool :=
  bool_decide (proc_hash ∈ kernel).

Record Program := mkProgram {
  mast_forest : MastForest;
  entrypoint : MastNodeId;
  program_kernel : KernelDescriptor
}.

(** [Program::with_kernel] asserts that the entrypoint is a node and a root. *)
Definition program_with_kernel (f : MastForest) (entry : MastNodeId) (kernel : KernelDescriptor) :
    option Program :=
  if bool_decide (is_Some (nodes f !! entry)) && bool_decide (entry ∈ roots f)
  then Some (mkProgram f entry kernel) else None.

(** ** Well-formed forests

    What [from_parts] establishes for the executor: ids in range, and basic
    blocks with at least one batch (the node builder rejects an empty one). *)

Definition node_wf (f : MastForest) (n : MastNode) : Prop :=
  Forall (fun id => (id < length (nodes f))%nat) (children n) /\
  match n with NBlock b => op_batches b <> [] | _ => True end.

Record forest_wf (f : MastForest) : Prop := {
  fw_nodes : Forall (node_wf f) (nodes f);
  fw_roots : Forall (fun id => (id < length (nodes f))%nat) (roots f)
}.

Lemma find_root_spec (f : MastForest) d rs :
  Forall (fun id => (id < length (nodes f))%nat) rs ->
  exists o, find_root f d rs = Some o /\
    match o with
    | Some id => id ∈ rs /\ exists n, nodes f !! id = Some n /\ digest n = d
    | None => forall id n, id ∈ rs -> nodes f !! id = Some n -> digest n <> d
    end.
Proof.
  induction 1 as [|r rs Hr Hrs IH]; cbn [find_root].
  { exists None. split; [done|]. intros id n Hin. by apply elem_of_nil in Hin. }
  destruct (lookup_lt_is_Some_2 _ _ Hr) as [n Hn]. rewrite Hn. cbn [mbind option_bind].
  destruct (decide (digest n = d)) as [Hd|Hd].
  { exists (Some r). split; [done|]. split; [by left|]. by exists n. }
  destruct IH as (o & -> & Ho). exists o. split; [done|]. destruct o as [id|].
  - destruct Ho as [Hin Ho]. split; [by right|done].
  - intros id n' Hin Hn'. apply elem_of_cons in Hin as [->|Hin]; [congruence|by eapply Ho].
Qed.
