(* ===== verification/BatchValid.v ===== *)
(** * Validation of operation batches

    The batch validators of [BasicBlockNode]
    (core/src/mast/node/basic_block_node/mod.rs) and of [OpBatch] (op_batch.rs),
    the placement of immediate values, the tables that translate between raw
    and padded operation indices, and the node's constructors.  The error
    strings are the constructors of [BatchError]. *)

From S2P Require Import Prelude Felt Operations OpBatch Mast.

Inductive BatchError :=
| BatchNotFull (batch_idx num_groups : nat)
| BatchNotPowerOfTwo (batch_idx num_groups : nat)
| ImmInLastGroup (batch_idx group_idx op_idx : nat)
| EndsWithImm (batch_idx group_idx : nat)
| TooManyGroups (batch_idx num_groups : nat)
| IndptrNotMonotonic (batch_idx i : nat)
| IndptrEnd (batch_idx final_indptr ops_len : nat)
| GroupTooLarge (batch_idx group_idx group_size : nat)
| OpcodeGroupMismatch (batch_idx group_idx : nat)
| InBatch (batch_idx : nat) (e : BatchError)
| PushImmMismatch (batch_idx imm_group_idx : nat)
| EmptyGroupNotZero (batch_idx group_idx : nat)
| ImmExceedsSlots
| ImmExceedsNumGroups (next_group_idx num_groups : nat)
| ImmOverlapsGroup (next_group_idx : nat)
| InvalidNumGroups (num_groups : nat)
| MissingPadding (group_idx : nat)
| MissingIndptrStart (group_idx : nat)
| MissingIndptrEnd (group_idx : nat)
| PaddedEmptyGroup (group_idx : nat)
| InvalidGroupBounds (group_idx : nat)
| PaddedGroupEnd (group_idx : nat).

Definition get_or {E A} (o : option A) (e : E) : res E A :=
  match o with Some a => Ok a | None => Err e end.

(** ** One batch *)

Definition padding_semantics_of_group (b : OpBatch) (group_idx : nat) : res BatchError unit :=
  let? is_padded := get_or (ob_padding b !! group_idx) (MissingPadding group_idx) in
  if negb is_padded then Ok tt
  else
    let? group_start := get_or (ob_indptr b !! group_idx) (MissingIndptrStart group_idx) in
    let? group_end := get_or (ob_indptr b !! (group_idx + 1)%nat) (MissingIndptrEnd group_idx) in
    if (group_start =? group_end)%nat then Err (PaddedEmptyGroup group_idx)
    else if (group_end <? group_start)%nat then Err (InvalidGroupBounds group_idx)
    else
      let? last_op := get_or (ob_ops b !! (group_end - 1)%nat) (InvalidGroupBounds group_idx) in
      if decide (last_op = Op.Noop) then Ok tt else Err (PaddedGroupEnd group_idx).

(** [OpBatch::validate_padding_semantics]. *)
Definition batch_padding_semantics (b : OpBatch) : res BatchError unit :=
  if (BATCH_SIZE <? ob_num_groups b)%nat then Err (InvalidNumGroups (ob_num_groups b))
  else rfor (seq 0 (ob_num_groups b)) (padding_semantics_of_group b).

(** The assertions of [OpBatch::validate_invariants]. *)
Definition validate_invariants (b : OpBatch) : option bool :=
  start ← ob_indptr b !! 0%nat;
  final_indptr ← ob_indptr b !! (BATCH_SIZE_PLUS_ONE - 1)%nat;
  let le i := match ob_indptr b !! i, ob_indptr b !! (i + 1)%nat with
              | Some x, Some y => (x <=? y)%nat
              | _, _ => false
              end in
  Some ((ob_num_groups b <=? BATCH_SIZE)%nat && (start =? 0)%nat
        && forallb le (seq 0 (ob_num_groups b)) && forallb le (seq 0 (BATCH_SIZE_PLUS_ONE - 1))
        && (final_indptr =? length (ob_ops b))%nat).

Definition place_immediate (indptr : list nat) (max_groups : nat) (num_groups : option nat)
    (st : list (nat * Felt) * nat) (op : Operation) : res BatchError (list (nat * Felt) * nat) :=
  let '(placements, next_group_idx) := st in
  match imm_value op with
  | None => Ok (placements, next_group_idx)
  | Some imm =>
      if (max_groups <=? next_group_idx)%nat then Err ImmExceedsSlots
      else if from_option (fun n => n <=? next_group_idx)%nat false num_groups
      then Err (ImmExceedsNumGroups next_group_idx (default 0%nat num_groups))
      else
        let? x := rexpect (indptr !! next_group_idx) in
        let? y := rexpect (indptr !! (next_group_idx + 1)%nat) in
        if negb (x =? y)%nat then Err (ImmOverlapsGroup next_group_idx)
        else Ok (placements ++ [(next_group_idx, imm)], (next_group_idx + 1)%nat)
  end.

Definition collect_immediate_placements (ops : list Operation) (indptr : list nat)
    (group_idx max_groups : nat) (num_groups : option nat) :
    res BatchError (list (nat * Felt) * nat) :=
  let? start := rexpect (indptr !! group_idx) in
  let? stop := rexpect (indptr !! (group_idx + 1)%nat) in
  let? group_ops := rexpect (slice start stop ops) in
  rfold (place_immediate indptr max_groups num_groups) ([], (group_idx + 1)%nat) group_ops.

(** The value an operation group is committed as. *)
Definition group_value (group_ops : list Operation) : Z :=
  foldl (fun v '(local_op_idx, op) =>
           Z.lor v (wrap64 (Z.shiftl (op_code op) (OP_BITS * Z.of_nat local_op_idx))))
    0 (enumerate group_ops).

(** ** The batches of a basic block *)

Section Validators.
Context (op_batches : list OpBatch).

Definition validate_power_of_two_groups : res BatchError unit :=
  rfor (enumerate op_batches) (fun '(batch_idx, batch) =>
    let num_groups := ob_num_groups batch in
    if (batch_idx + 1 <? length op_batches)%nat then
      if negb (num_groups =? BATCH_SIZE)%nat then Err (BatchNotFull batch_idx num_groups) else Ok tt
    else if negb (is_power_of_two num_groups) then Err (BatchNotPowerOfTwo batch_idx num_groups)
    else Ok tt).

Definition immediate_endings_of_group (batch_idx : nat) (batch : OpBatch) (group_idx : nat) :
    res BatchError unit :=
  let? group_start := rexpect (ob_indptr batch !! group_idx) in
  let? group_end := rexpect (ob_indptr batch !! (group_idx + 1)%nat) in
  if (group_start =? group_end)%nat then Ok tt
  else
    let? group_ops := rexpect (slice group_start group_end (ob_ops batch)) in
    if (group_idx =? ob_num_groups batch - 1)%nat then
      rfor (enumerate group_ops) (fun '(op_idx, op) =>
        if has_imm op then Err (ImmInLastGroup batch_idx group_idx op_idx) else Ok tt)
    else if from_option has_imm false (last group_ops) then Err (EndsWithImm batch_idx group_idx)
    else Ok tt.

Definition validate_no_immediate_endings : res BatchError unit :=
  rfor (enumerate op_batches) (fun '(batch_idx, batch) =>
    rfor (seq 0 (ob_num_groups batch)) (immediate_endings_of_group batch_idx batch)).

Definition structure_of_batch (batch_idx : nat) (batch : OpBatch) : res BatchError unit :=
  let indptr := ob_indptr batch in
  if (BATCH_SIZE <? ob_num_groups batch)%nat
  then Err (TooManyGroups batch_idx (ob_num_groups batch))
  else
    do? rfor (seq 0 (length indptr - 1)) (fun i =>
      let? x := rexpect (indptr !! i) in
      let? y := rexpect (indptr !! (i + 1)%nat) in
      if (y <? x)%nat then Err (IndptrNotMonotonic batch_idx i) else Ok tt);
    let? final := rexpect (indptr !! (length indptr - 1)%nat) in
    if negb (final =? length (ob_ops batch))%nat
    then Err (IndptrEnd batch_idx final (length (ob_ops batch)))
    else
      rfor (seq 0 (ob_num_groups batch)) (fun group_idx =>
        let? group_start := rexpect (indptr !! group_idx) in
        let? group_end := rexpect (indptr !! (group_idx + 1)%nat) in
        let? group_size := rexpect (checked_sub group_end group_start) in
        if (GROUP_SIZE <? group_size)%nat then Err (GroupTooLarge batch_idx group_idx group_size)
        else Ok tt).

Definition validate_batch_structure : res BatchError unit :=
  rfor (enumerate op_batches) (fun '(batch_idx, batch) => structure_of_batch batch_idx batch).

(** The first loop over the groups, which marks the slots of the immediates. *)
Definition commitment_of_group (batch_idx : nat) (batch : OpBatch) (immediate_slots : list bool)
    (group_idx : nat) : res BatchError (list bool) :=
  let? group_start := rexpect (ob_indptr batch !! group_idx) in
  let? group_end := rexpect (ob_indptr batch !! (group_idx + 1)%nat) in
  if (group_start =? group_end)%nat then Ok immediate_slots
  else
    let? group_ops := rexpect (slice group_start group_end (ob_ops batch)) in
    let? committed := rexpect (ob_groups batch !! group_idx) in
    if negb (bool_decide (committed = new_unchecked (group_value group_ops)))
    then Err (OpcodeGroupMismatch batch_idx group_idx)
    else
      let? (placements, _) :=
        map_err (InBatch batch_idx)
          (collect_immediate_placements (ob_ops batch) (ob_indptr batch) group_idx BATCH_SIZE
             (Some (ob_num_groups batch))) in
      rfold (fun slots '(imm_group_idx, imm_value) =>
               let? g := rexpect (ob_groups batch !! imm_group_idx) in
               if negb (bool_decide (g = imm_value))
               then Err (PushImmMismatch batch_idx imm_group_idx)
               else rexpect (update imm_group_idx true slots))
        immediate_slots placements.

Definition commitment_of_batch (batch_idx : nat) (batch : OpBatch) : res BatchError unit :=
  let? immediate_slots :=
    rfold (commitment_of_group batch_idx batch) (replicate BATCH_SIZE false)
      (seq 0 (ob_num_groups batch)) in
  rfor (seq 0 (ob_num_groups batch)) (fun group_idx =>
    let? x := rexpect (ob_indptr batch !! group_idx) in
    let? y := rexpect (ob_indptr batch !! (group_idx + 1)%nat) in
    let? is_imm := rexpect (immediate_slots !! group_idx) in
    let? g := rexpect (ob_groups batch !! group_idx) in
    if (x =? y)%nat && negb is_imm && negb (bool_decide (g = ZERO))
    then Err (EmptyGroupNotZero batch_idx group_idx) else Ok tt).

Definition validate_immediate_commitment : res BatchError unit :=
  rfor (enumerate op_batches) (fun '(batch_idx, batch) => commitment_of_batch batch_idx batch).

Definition validate_padding_semantics : res BatchError unit :=
  rfor (enumerate op_batches) (fun '(batch_idx, batch) =>
    map_err (InBatch batch_idx) (batch_padding_semantics batch)).

Definition validate_batch_invariants : res BatchError unit :=
  do? validate_power_of_two_groups;
  do? validate_batch_structure;
  do? validate_no_immediate_endings;
  do? validate_immediate_commitment;
  validate_padding_semantics.

End Validators.

(** [next_power_of_two] of the last batch, full batches before it. *)
Definition num_op_groups (op_batches : list OpBatch) : option nat :=
  b ← last op_batches;
  Some ((length op_batches - 1) * BATCH_SIZE + next_power_of_two (ob_num_groups b))%nat.

Definition raw_operations (op_batches : list OpBatch) : option (list Operation) :=
  mjoin <$> mapM raw_ops op_batches.

(** ** Raw and padded operation indices

    [RawToPaddedPrefix] and [PaddedToRawPrefix]: for every raw (padded) index,
    the number of paddings before it, with an entry for the end. *)

Definition group_lens (b : OpBatch) (g : nat) : option (nat * nat) :=
  stop ← ob_indptr b !! (g + 1)%nat;
  start ← ob_indptr b !! g;
  group_len ← checked_sub stop start;
  padded ← ob_padding b !! g;
  let has_pad := if padded : bool then 1%nat else 0%nat in
  raw_in_g ← checked_sub group_len has_pad;
  Some (raw_in_g, has_pad).

Definition raw_to_padded_group (b : OpBatch) (st : list nat * nat) (g : nat) :
    res BatchError (list nat * nat) :=
  let '(v, pads_so_far) := st in
  let? (raw_in_g, has_pad) := rexpect (group_lens b g) in
  Ok (v ++ replicate raw_in_g pads_so_far, (pads_so_far + has_pad)%nat).

Definition padded_to_raw_group (b : OpBatch) (st : list nat * nat) (g : nat) :
    res BatchError (list nat * nat) :=
  let '(v, pads_so_far) := st in
  let? (raw_in_g, has_pad) := rexpect (group_lens b g) in
  let v := v ++ replicate raw_in_g pads_so_far in
  if (has_pad =? 1)%nat then Ok (v ++ [pads_so_far], (pads_so_far + 1)%nat)
  else Ok (v, pads_so_far).

Definition prefix_new (f : OpBatch -> list nat * nat -> nat -> res BatchError (list nat * nat))
    (op_batches : list OpBatch) : res BatchError (list nat) :=
  let? (v, pads_so_far) :=
    rfold (fun st b => rfold (f b) st (seq 0 (ob_num_groups b))) ([], 0%nat) op_batches in
  Ok (v ++ [pads_so_far]).

Definition raw_to_padded_new := prefix_new raw_to_padded_group.
Definition padded_to_raw_new := prefix_new padded_to_raw_group.

Definition adjust_asm_op_indices (asm_op_indices : list nat) (op_batches : list OpBatch) :
    res BatchError (list nat) :=
  let? raw2pad := raw_to_padded_new op_batches in
  rexpect (mapM (fun raw_idx => (fun k => raw_idx + k)%nat <$> raw2pad !! raw_idx) asm_op_indices).

Definition unadjust_asm_op_indices (asm_op_indices : list nat) (op_batches : list OpBatch) :
    res BatchError (list nat) :=
  let? pad2raw := padded_to_raw_new op_batches in
  rexpect (mapM (fun padded_idx => pad2raw !! padded_idx ≫= checked_sub padded_idx) asm_op_indices).
