(* ===== verification/BatchTheory.v ===== *)
(** * Batching is a layout of groups

    A batch is the layout of a list of operation groups: each group takes one
    slot for its opcodes and one slot for each immediate value of its
    operations.  [acc_rep] relates an accumulator to the groups finished so far
    and the group being filled; every operation of the accumulator preserves it,
    and [into_batch] returns the layout of the groups. *)

From S2P Require Import Prelude Felt Operations OpBatch Mast BatchValid.

(** ** Groups and their layout *)

Record group := mkGroup { g_ops : list Operation; g_pad : bool }.

Definition imms (l : list Operation) : list Felt := omap imm_value l.
Definition num_imms (g : group) : nat := length (imms (g_ops g)).

Definition ops_of (gs : list group) : list Operation := gs ≫= g_ops.

(** The operations without the padding. *)
Definition raw_of (g : group) : list Operation :=
  take (length (g_ops g) - (if g_pad g then 1 else 0)) (g_ops g).
Definition raws (gs : list group) : list Operation := gs ≫= raw_of.

Fixpoint starts (off : nat) (gs : list group) : list nat :=
  match gs with
  | [] => []
  | g :: gs =>
      let stop := (off + length (g_ops g))%nat in
      off :: replicate (num_imms g) stop ++ starts stop gs
  end.

Definition pads (gs : list group) : list bool :=
  gs ≫= fun g => g_pad g :: replicate (num_imms g) false.
Definition codes (gs : list group) : list Felt :=
  gs ≫= fun g => new_unchecked (group_value (g_ops g)) :: imms (g_ops g).

(** The number of slots. *)
Definition width (gs : list group) : nat := sum_list (S ∘ num_imms <$> gs).

Definition layout (gs : list group) : OpBatch :=
  mkOpBatch (ops_of gs)
    (starts 0 gs ++ replicate (BATCH_SIZE_PLUS_ONE - width gs) (length (ops_of gs)))
    (pads gs ++ replicate (BATCH_SIZE - width gs) false)
    (codes gs ++ replicate (BATCH_SIZE - width gs) ZERO)
    (width gs).

(** A finished group: not empty, at most nine operations, the last of which
    carries no immediate value and is a [Noop] if the group is padded. *)
Definition group_wf (g : group) : Prop :=
  (0 < length (g_ops g) <= GROUP_SIZE)%nat /\
  from_option has_imm false (last (g_ops g)) = false /\
  (g_pad g = true -> last (g_ops g) = Some Op.Noop).

(** A batch: its groups fit, and their slots are a power of two. *)
Definition batch_wf (gs : list group) : Prop :=
  Forall group_wf gs /\ gs <> [] /\ (width gs <= BATCH_SIZE)%nat /\
  is_power_of_two (width gs) = true.

(** The group being filled. *)
Definition open_wf (cur : list Operation) : Prop :=
  (length cur <= GROUP_SIZE)%nat /\
  (length cur = GROUP_SIZE -> from_option has_imm false (last cur) = false).

(** What finishing it makes of it. *)
Definition needs_pad (cur : list Operation) : bool :=
  (length cur =? 0)%nat || from_option has_imm false (last cur).
Definition finish (cur : list Operation) : group :=
  if needs_pad cur then mkGroup (cur ++ [Op.Noop]) true else mkGroup cur false.

Lemma has_imm_spec op : has_imm op = match imm_value op with Some _ => true | None => false end.
Proof. unfold has_imm. by destruct op. Qed.

Lemma finish_ops cur : g_ops (finish cur) = cur ++ (if needs_pad cur then [Op.Noop] else []).
Proof. unfold finish. destruct (needs_pad cur); cbn; [done|]. by rewrite app_nil_r. Qed.

Lemma imms_app l1 l2 : imms (l1 ++ l2) = imms l1 ++ imms l2.
Proof. apply omap_app. Qed.

Lemma finish_imms cur : imms (g_ops (finish cur)) = imms cur.
Proof. rewrite finish_ops, imms_app. destruct (needs_pad cur); cbn; by rewrite app_nil_r. Qed.

Lemma finish_raw cur : raw_of (finish cur) = cur.
Proof.
  unfold raw_of, finish. destruct (needs_pad cur); cbn.
  - rewrite length_app. cbn. rewrite Nat.add_sub. by rewrite take_app_length.
  - by rewrite Nat.sub_0_r, firstn_all.
Qed.

Lemma group_value_app l op :
  group_value (l ++ [op]) =
  Z.lor (group_value l) (wrap64 (Z.shiftl (op_code op) (OP_BITS * Z.of_nat (length l)))).
Proof. unfold group_value. by rewrite enumerate_app, foldl_app. Qed.

Lemma group_value_noop l : group_value (l ++ [Op.Noop]) = group_value l.
Proof.
  rewrite group_value_app. change (op_code Op.Noop) with 0. rewrite Z.shiftl_0_l.
  change (wrap64 0) with 0. apply Z.lor_0_r.
Qed.

Lemma finish_value cur : group_value (g_ops (finish cur)) = group_value cur.
Proof. unfold finish. destruct (needs_pad cur); cbn; [apply group_value_noop|done]. Qed.

Lemma finish_wf cur : open_wf cur -> group_wf (finish cur).
Proof.
  intros [Hl Hf]. unfold finish, group_wf. destruct (needs_pad cur) eqn:Hp; cbn.
  - rewrite length_app, last_snoc. cbn. split; [|done].
    split; [lia|]. unfold needs_pad in Hp. apply orb_true_iff in Hp as [Hp|Hp].
    + apply Nat.eqb_eq in Hp. unfold GROUP_SIZE. lia.
    + destruct (decide (length cur = GROUP_SIZE)); [|lia]. rewrite Hf in Hp by done. done.
  - unfold needs_pad in Hp. apply orb_false_iff in Hp as [Hp%Nat.eqb_neq Hi]. split; [lia|]. done.
Qed.

(** ** Lengths and concatenation *)

Lemma width_app gs1 gs2 : width (gs1 ++ gs2) = (width gs1 + width gs2)%nat.
Proof. unfold width. by rewrite fmap_app, sum_list_with_app. Qed.

Lemma width_cons g gs : width (g :: gs) = (S (num_imms g) + width gs)%nat.
Proof. done. Qed.

Lemma width_finish gs cur : width (gs ++ [finish cur]) = (width gs + S (length (imms cur)))%nat.
Proof. rewrite width_app. unfold width at 2, num_imms. cbn. rewrite finish_imms. lia. Qed.

Lemma ops_of_app gs1 gs2 : ops_of (gs1 ++ gs2) = ops_of gs1 ++ ops_of gs2.
Proof. apply bind_app. Qed.
Lemma raws_app gs1 gs2 : raws (gs1 ++ gs2) = raws gs1 ++ raws gs2.
Proof. apply bind_app. Qed.
Lemma pads_app gs1 gs2 : pads (gs1 ++ gs2) = pads gs1 ++ pads gs2.
Proof. apply bind_app. Qed.
Lemma codes_app gs1 gs2 : codes (gs1 ++ gs2) = codes gs1 ++ codes gs2.
Proof. apply bind_app. Qed.

Lemma starts_app off gs1 gs2 :
  starts off (gs1 ++ gs2) = starts off gs1 ++ starts (off + length (ops_of gs1)) gs2.
Proof.
  revert off. induction gs1 as [|g gs1 IH]; intros off; cbn.
  { by rewrite Nat.add_0_r. }
  rewrite IH, <- app_assoc. do 4 f_equal. unfold ops_of. rewrite length_app. cbn. lia.
Qed.

Lemma length_starts off gs : length (starts off gs) = width gs.
Proof.
  revert off. induction gs as [|g gs IH]; intros off; [done|]. cbn [starts length].
  rewrite length_app, length_replicate, IH, width_cons. done.
Qed.

Lemma length_pads gs : length (pads gs) = width gs.
Proof.
  induction gs as [|g gs IH]; [done|]. rewrite width_cons. unfold pads in *.
  cbn [mbind list_bind length app]. by rewrite length_app, length_replicate, IH.
Qed.

Lemma length_codes gs : length (codes gs) = width gs.
Proof.
  induction gs as [|g gs IH]; [done|]. rewrite width_cons. unfold codes in *.
  cbn [mbind list_bind length app]. by rewrite length_app, IH.
Qed.

Lemma length_ops_of gs : Forall group_wf gs -> (length (ops_of gs) <= GROUP_SIZE * width gs)%nat.
Proof.
  induction 1 as [|g gs Hg _ IH]; [cbn; lia|]. rewrite width_cons. unfold ops_of in *. cbn.
  rewrite length_app. destruct Hg as [Hg _]. unfold GROUP_SIZE in *. lia.
Qed.

Lemma update_app {A} (l1 l2 : list A) (x y : A) :
  update (length l1) y (l1 ++ x :: l2) = Some (l1 ++ y :: l2).
Proof.
  rewrite update_Some by (rewrite length_app; cbn; lia). f_equal.
  rewrite <- (Nat.add_0_r (length l1)). by rewrite insert_app_r.
Qed.

(** ** The accumulator *)

Definition next_slot (gs : list group) (cur : list Operation) : nat :=
  width gs + S (length (imms cur)).

Ltac slot_lia := unfold next_slot, BATCH_SIZE_PLUS_ONE, INVALID_IDX, BATCH_SIZE, GROUP_SIZE in *; lia.

Definition rep (gs : list group) (cur : list Operation) : OpBatchAccumulator :=
  mkAcc (ops_of gs ++ cur)
    (starts 0 gs ++ length (ops_of gs) :: replicate (length (imms cur)) INVALID_IDX
     ++ replicate (BATCH_SIZE_PLUS_ONE - next_slot gs cur) 0%nat)
    (pads gs ++ replicate (BATCH_SIZE - width gs) false)
    (codes gs ++ ZERO :: imms cur ++ replicate (BATCH_SIZE - next_slot gs cur) ZERO)
    (group_value cur) (length cur) (width gs) (next_slot gs cur).

Definition rep_wf (gs : list group) (cur : list Operation) : Prop :=
  Forall group_wf gs /\ open_wf cur /\ (next_slot gs cur <= BATCH_SIZE)%nat.

Lemma rep_new : acc_new = rep [] [].
Proof. done. Qed.

Lemma fix_uninit_run (l1 l2 : list nat) x n k : x <> INVALID_IDX ->
  fix_uninit (length l1 + k) (length l1) n (l1 ++ x :: replicate k INVALID_IDX ++ l2) =
  Some (l1 ++ x :: replicate k n ++ l2).
Proof.
  intros Hx. revert l2. induction k as [|k IH]; intros l2.
  - rewrite Nat.add_0_r. cbn [replicate app].
    assert (Hg : forall u, u = length l1 -> fix_uninit u (length l1) n (l1 ++ x :: l2) = Some (l1 ++ x :: l2)).
    { intros [|u] Hu; cbn [fix_uninit]; rewrite Hu, Nat.leb_refl, list_lookup_middle by done;
        cbn [mbind option_bind]; by rewrite (proj2 (Nat.eqb_neq _ _)). }
    by apply Hg.
  - rewrite Nat.add_succ_r. cbn [fix_uninit].
    rewrite (proj2 (Nat.leb_le (length l1) (S _))) by lia.
    rewrite replicate_S_end, <- app_assoc. cbn [app].
    assert (HL : l1 ++ x :: replicate k INVALID_IDX ++ INVALID_IDX :: l2 =
                 (l1 ++ x :: replicate k INVALID_IDX) ++ INVALID_IDX :: l2) by (by rewrite <- app_assoc).
    rewrite HL, list_lookup_middle by (rewrite length_app; cbn; rewrite length_replicate; lia).
    cbn [mbind option_bind]. rewrite Nat.eqb_refl.
    replace (S (length l1 + k)) with (length (l1 ++ x :: replicate k INVALID_IDX))
      by (rewrite length_app; cbn; rewrite length_replicate; lia).
    rewrite update_app. cbn [mbind option_bind]. rewrite <- app_assoc. cbn [app].
    rewrite IH. by rewrite replicate_S_end, <- app_assoc.
Qed.

Lemma pad_if_needed_run O I P k G cur gi ni :
  gi = length P ->
  pad_if_needed (mkAcc (O ++ cur) I (P ++ replicate (S k) false) G (group_value cur) (length cur) gi ni) =
  Some (mkAcc (O ++ g_ops (finish cur)) I (P ++ g_pad (finish cur) :: replicate k false) G
          (group_value cur) (length (g_ops (finish cur))) gi ni).
Proof.
  intros ->. unfold pad_if_needed. cbn [acc_op_idx acc_ops].
  assert ((length cur =? 0)%nat || from_option has_imm false (last (O ++ cur)) = needs_pad cur) as ->.
  { unfold needs_pad. destruct cur as [|op cur _] using rev_ind; [done|].
    rewrite app_assoc, !last_snoc. done. }
  unfold finish. destruct (needs_pad cur); cbn [g_ops g_pad]; [|done].
  unfold push_op. cbn. rewrite update_app. cbn. rewrite length_app, app_assoc. cbn [length]. do 2 f_equal.
  change (op_code Op.Noop) with 0. rewrite Z.shiftl_0_l. change (wrap64 0) with 0. apply Z.lor_0_r.
Qed.

Lemma starts_finish gs cur :
  starts 0 (gs ++ [finish cur]) =
  starts 0 gs ++ length (ops_of gs) :: replicate (length (imms cur)) (length (ops_of (gs ++ [finish cur]))).
Proof.
  rewrite starts_app. cbn [starts]. rewrite app_nil_r. unfold num_imms. rewrite finish_imms.
  rewrite ops_of_app, length_app. unfold ops_of at 4. cbn. rewrite app_nil_r. done.
Qed.

Lemma finalize_indptr_run gs cur P G v i : rep_wf gs cur ->
  finalize_indptr
    (mkAcc (ops_of (gs ++ [finish cur])) (acc_indptr (rep gs cur)) P G v i (width gs) (next_slot gs cur)) =
  Some (mkAcc (ops_of (gs ++ [finish cur]))
          (starts 0 (gs ++ [finish cur]) ++ length (ops_of (gs ++ [finish cur]))
           :: replicate (BATCH_SIZE - next_slot gs cur) 0%nat)
          P G v i (width gs) (next_slot gs cur)).
Proof.
  intros (Hgs & Hcur & Hn). unfold finalize_indptr. 
  cbn [acc_ops acc_indptr acc_padding acc_groups acc_group acc_op_idx acc_next_group_idx acc_group_idx rep].
  set (n := length (ops_of (gs ++ [finish cur]))).
  replace (BATCH_SIZE_PLUS_ONE - next_slot gs cur)%nat with (S (BATCH_SIZE - next_slot gs cur))
    by (unfold BATCH_SIZE_PLUS_ONE; lia).
  cbn [replicate].
  assert (HL : forall l : list nat, starts 0 gs ++ length (ops_of gs) :: replicate (length (imms cur)) INVALID_IDX ++ l
    = (starts 0 gs ++ length (ops_of gs) :: replicate (length (imms cur)) INVALID_IDX) ++ l)
    by (intros; by rewrite <- app_assoc).
  rewrite HL.
  assert (Hlen : length (starts 0 gs ++ length (ops_of gs) :: replicate (length (imms cur)) INVALID_IDX)
                 = next_slot gs cur).
  { rewrite length_app, length_starts. cbn [length]. rewrite length_replicate. unfold next_slot. lia. }
  rewrite <- Hlen at 1. rewrite update_app. cbn [mbind option_bind]. rewrite <- HL.
  rewrite checked_sub_Some by (unfold next_slot; lia). cbn [mbind option_bind].
  assert (Hx : length (ops_of gs) <> INVALID_IDX).
  { pose proof (length_ops_of gs Hgs). slot_lia. }
  pose proof (fix_uninit_run (starts 0 gs) (n :: replicate (BATCH_SIZE - next_slot gs cur) 0%nat) _ n
                (length (imms cur)) Hx) as Hf.
  rewrite length_starts in Hf.
  replace (next_slot gs cur - 1)%nat with (width gs + length (imms cur))%nat by (unfold next_slot; lia).
  rewrite Hf.
  cbn [mbind option_bind]. do 2 f_equal.
  rewrite starts_finish, <- app_assoc. done.
Qed.

Lemma codes_finish gs cur :
  codes (gs ++ [finish cur]) = codes gs ++ new_unchecked (group_value cur) :: imms cur.
Proof.
  rewrite codes_app. unfold codes at 2. cbn. by rewrite finish_value, finish_imms, app_nil_r.
Qed.

Lemma pads_finish gs cur :
  pads (gs ++ [finish cur]) = pads gs ++ g_pad (finish cur) :: replicate (length (imms cur)) false.
Proof. rewrite pads_app. unfold pads at 2, num_imms. cbn. by rewrite finish_imms, app_nil_r. Qed.

Lemma ops_of_finish gs cur : ops_of (gs ++ [finish cur]) = ops_of gs ++ g_ops (finish cur).
Proof. rewrite ops_of_app. unfold ops_of at 2. cbn. by rewrite app_nil_r. Qed.

Lemma next_slot_finish gs cur : next_slot (gs ++ [finish cur]) [] = S (next_slot gs cur).
Proof. unfold next_slot. rewrite width_finish. cbn. lia. Qed.

Lemma pads_room gs cur : (next_slot gs cur <= BATCH_SIZE)%nat ->
  pads gs ++ g_pad (finish cur) :: replicate (BATCH_SIZE - width gs - 1) false =
  pads (gs ++ [finish cur]) ++ replicate (BATCH_SIZE - width (gs ++ [finish cur])) false.
Proof.
  intros Hn. rewrite pads_finish, <- app_assoc, width_finish. cbn. do 2 f_equal.
  rewrite <- replicate_add. f_equal. slot_lia.
Qed.

Lemma finalize_op_group_run gs cur : rep_wf gs cur -> (next_slot gs cur < BATCH_SIZE)%nat ->
  finalize_op_group (rep gs cur) = Some (rep (gs ++ [finish cur]) []).
Proof.
  intros Hwf Hn. unfold finalize_op_group.
  assert (Hp : pad_if_needed (rep gs cur) =
    Some (mkAcc (ops_of (gs ++ [finish cur])) (acc_indptr (rep gs cur))
            (pads (gs ++ [finish cur]) ++ replicate (BATCH_SIZE - width (gs ++ [finish cur])) false)
            (acc_groups (rep gs cur)) (group_value cur) (length (g_ops (finish cur)))
            (width gs) (next_slot gs cur))).
  { rewrite <- pads_room by lia. rewrite ops_of_finish. unfold rep at 1.
    destruct (BATCH_SIZE - width gs)%nat as [|k] eqn:Ek; [slot_lia|].
    replace (S k - 1)%nat with k by lia. by rewrite pad_if_needed_run by (by rewrite length_pads). }
  rewrite Hp. cbn [mbind option_bind acc_group_idx acc_group acc_groups rep].
  rewrite <- (length_codes gs) at 1. rewrite update_app. cbn [mbind option_bind].
  cbn [acc_ops acc_padding acc_op_idx acc_next_group_idx].
  rewrite finalize_indptr_run by done. cbn.
  unfold rep. rewrite next_slot_finish, codes_finish, app_nil_r, <- app_assoc.
  cbn [app imms omap list_omap replicate length].
  destruct (8 - next_slot gs cur)%nat as [|k] eqn:Ek; [slot_lia|].
  replace (BATCH_SIZE_PLUS_ONE - S (next_slot gs cur))%nat with (S k) by slot_lia.
  replace (BATCH_SIZE - S (next_slot gs cur))%nat with k by slot_lia.
  rewrite width_finish. fold (next_slot gs cur). f_equal. f_equal. lia.
Qed.

Lemma raws_finish gs cur : raws (gs ++ [finish cur]) = raws gs ++ cur.
Proof. rewrite raws_app. unfold raws at 2. cbn. by rewrite finish_raw, app_nil_r. Qed.

Lemma rep_wf_finish gs cur : rep_wf gs cur -> (next_slot gs cur < BATCH_SIZE)%nat ->
  rep_wf (gs ++ [finish cur]) [].
Proof.
  intros (Hgs & Hcur & _) Hn. split; [|split].
  - apply Forall_app. split; [done|]. apply Forall_singleton. by apply finish_wf.
  - split; cbn; [lia|done].
  - rewrite next_slot_finish. lia.
Qed.

Lemma imms_snoc cur op : imms (cur ++ [op]) = imms cur ++ (match imm_value op with Some x => [x] | None => [] end).
Proof. rewrite imms_app. cbn. by destruct (imm_value op). Qed.

Lemma push_op_run gs cur op : imm_value op = None ->
  push_op (rep gs cur) op = rep gs (cur ++ [op]).
Proof.
  intros Hop. unfold push_op, rep, next_slot. rewrite (imms_snoc cur op), Hop, app_nil_r. cbn.
  by rewrite length_app, group_value_app, <- app_assoc.
Qed.

Lemma rep_wf_push gs cur op : imm_value op = None -> rep_wf gs cur -> (length cur < GROUP_SIZE)%nat ->
  rep_wf gs (cur ++ [op]).
Proof.
  intros Hop (Hgs & [Hc _] & Hn) Hl. split; [done|]. split.
  - split; rewrite ?length_app, ?last_snoc; cbn; [slot_lia|]. intros _. by rewrite has_imm_spec, Hop.
  - unfold next_slot in *. by rewrite imms_snoc, Hop, app_nil_r.
Qed.

Lemma save_imm_run gs cur op imm : imm_value op = Some imm -> (next_slot gs cur < BATCH_SIZE)%nat ->
  (a ← save_imm (rep gs cur) imm; Some (push_op a op)) = Some (rep gs (cur ++ [op])).
Proof.
  intros Hop Hn. unfold save_imm. cbn [acc_next_group_idx acc_groups acc_indptr rep].
  destruct (BATCH_SIZE - next_slot gs cur)%nat as [|k] eqn:Ek; [slot_lia|].
  replace (BATCH_SIZE_PLUS_ONE - next_slot gs cur)%nat with (S (S k)) by slot_lia.
  assert (Hc : forall l, codes gs ++ ZERO :: imms cur ++ l = (codes gs ++ ZERO :: imms cur) ++ l)
    by (intros; by rewrite <- app_assoc).
  assert (Hi : forall l : list nat, starts 0 gs ++ length (ops_of gs) :: replicate (length (imms cur)) INVALID_IDX ++ l
    = (starts 0 gs ++ length (ops_of gs) :: replicate (length (imms cur)) INVALID_IDX) ++ l)
    by (intros; by rewrite <- app_assoc).
  rewrite Hc, Hi. cbn [replicate].
  replace (next_slot gs cur) with (length (codes gs ++ ZERO :: imms cur)) at 1
    by (rewrite length_app, length_codes; cbn; slot_lia).
  rewrite update_app. cbn [mbind option_bind].
  replace (next_slot gs cur) with
    (length (starts 0 gs ++ length (ops_of gs) :: replicate (length (imms cur)) INVALID_IDX)) at 1
    by (rewrite length_app, length_starts; cbn; rewrite length_replicate; slot_lia).
  rewrite update_app. cbn [mbind option_bind]. unfold push_op, rep. cbn [acc_ops acc_indptr acc_padding
    acc_groups acc_group acc_op_idx acc_group_idx acc_next_group_idx].
  assert (Hn' : next_slot gs (cur ++ [op]) = S (next_slot gs cur)).
  { unfold next_slot. rewrite imms_snoc, Hop, length_app. cbn. lia. }
  rewrite Hn', imms_snoc, Hop, group_value_app, !length_app, <- !app_assoc. cbn.
  replace (7 - next_slot gs cur)%nat with k by slot_lia.
  replace (8 - next_slot gs cur)%nat with (S k) by slot_lia.
  rewrite replicate_add, <- !app_assoc. cbn. do 2 f_equal. lia.
Qed.

Lemma rep_wf_imm gs cur op imm : imm_value op = Some imm -> rep_wf gs cur ->
  (length cur < GROUP_SIZE - 1)%nat -> (next_slot gs cur < BATCH_SIZE)%nat -> rep_wf gs (cur ++ [op]).
Proof.
  intros Hop (Hgs & [Hc _] & _) Hl Hn. split; [done|]. split.
  - split; rewrite ?length_app; cbn; slot_lia.
  - unfold next_slot in *. rewrite imms_snoc, Hop, length_app. cbn. slot_lia.
Qed.

(** The accumulator accepts what [can_accept_op] announces, and adds it after
    what it holds. *)
Lemma add_op_run gs cur op : rep_wf gs cur -> can_accept_op (rep gs cur) op = true ->
  exists gs' cur', add_op (rep gs cur) op = Some (rep gs' cur') /\ rep_wf gs' cur' /\
    cur' <> [] /\ raws gs' ++ cur' = raws gs ++ cur ++ [op].
Proof.
  intros Hwf. unfold can_accept_op, add_op. rewrite has_imm_spec.
  cbn [rep acc_op_idx acc_next_group_idx]. intros Hacc.
  assert (Hfull : exists gs1 cur1, (if (length cur =? GROUP_SIZE)%nat then finalize_op_group (rep gs cur)
      else Some (rep gs cur)) = Some (rep gs1 cur1) /\ rep_wf gs1 cur1 /\ (length cur1 < GROUP_SIZE)%nat /\
      raws gs1 ++ cur1 = raws gs ++ cur /\
      (imm_value op <> None -> if (length cur1 =? GROUP_SIZE - 1)%nat then (next_slot gs1 cur1 + 1 < BATCH_SIZE)%nat
        else (next_slot gs1 cur1 < BATCH_SIZE)%nat)).
  { destruct (Nat.eqb_spec (length cur) GROUP_SIZE) as [Hl|Hl].
    - assert (next_slot gs cur < BATCH_SIZE)%nat as Hn.
      { destruct (imm_value op); rewrite ?(proj2 (Nat.ltb_ge _ _)) in Hacc by slot_lia; cbn [orb] in Hacc;
          apply Nat.ltb_lt in Hacc; slot_lia. }
      exists (gs ++ [finish cur]), []. rewrite finalize_op_group_run by done. split; [done|].
      split; [by apply rep_wf_finish|]. split; [cbn; slot_lia|].
      split; [by rewrite raws_finish, app_nil_r|]. intros Hi. cbn. rewrite next_slot_finish.
      destruct (imm_value op); [|done]. rewrite (proj2 (Nat.ltb_ge _ _)) in Hacc by slot_lia.
      apply Nat.ltb_lt in Hacc. slot_lia.
    - exists gs, cur. split; [done|]. split; [done|]. destruct Hwf as (_ & [Hc _] & _).
      split; [slot_lia|]. split; [done|]. intros Hi. destruct (imm_value op); [|done].
      destruct (Nat.eqb_spec (length cur) (GROUP_SIZE - 1)) as [E|E].
      + rewrite (proj2 (Nat.ltb_ge _ _)) in Hacc by slot_lia. by apply Nat.ltb_lt in Hacc.
      + rewrite (proj2 (Nat.ltb_lt _ _)) in Hacc by slot_lia. by apply Nat.ltb_lt in Hacc. }
  destruct Hfull as (gs1 & cur1 & -> & Hwf1 & Hl1 & Hr1 & Hi1). cbn [mbind option_bind].
  destruct (imm_value op) as [imm|] eqn:Hop.
  2: { exists gs1, (cur1 ++ [op]). cbn [mbind option_bind]. rewrite push_op_run by done.
       split; [done|]. split; [by apply rep_wf_push|]. split; [by destruct cur1|].
       by rewrite app_assoc, Hr1, app_assoc. }
  specialize (Hi1 ltac:(done)). cbn [rep acc_op_idx].
  destruct (Nat.eqb_spec (length cur1) (GROUP_SIZE - 1)) as [E|E]; cbn [mbind option_bind].
  - rewrite finalize_op_group_run by (done || slot_lia). cbn [mbind option_bind].
    exists (gs1 ++ [finish cur1]), ([] ++ [op]).
    rewrite <- (save_imm_run _ [] op imm) by (done || (rewrite next_slot_finish; slot_lia)).
    split; [done|]. split.
    { eapply rep_wf_imm; [done|apply rep_wf_finish; [done|slot_lia]|cbn; slot_lia|].
      rewrite next_slot_finish. slot_lia. }
    split; [done|]. rewrite raws_finish, <- app_assoc. cbn. by rewrite app_assoc, Hr1, app_assoc.
  - exists gs1, (cur1 ++ [op]). rewrite <- (save_imm_run _ _ op imm) by done. split; [done|].
    split; [eapply rep_wf_imm; [done..|slot_lia|done]|]. split; [by destruct cur1|].
    by rewrite app_assoc, Hr1, app_assoc.
Qed.

(** ** Finishing a batch *)

Lemma finalize_op_groups_run n gs cur : rep_wf gs cur -> (next_slot gs cur + n <= BATCH_SIZE)%nat ->
  exists gs' cur', finalize_op_groups n (rep gs cur) = Some (rep gs' cur') /\ rep_wf gs' cur' /\
    raws gs' ++ cur' = raws gs ++ cur /\ next_slot gs' cur' = (next_slot gs cur + n)%nat.
Proof.
  revert gs cur. induction n as [|n IH]; intros gs cur Hwf Hn.
  { exists gs, cur. rewrite Nat.add_0_r. done. }
  cbn [finalize_op_groups]. rewrite finalize_op_group_run by (done || slot_lia). cbn [mbind option_bind].
  destruct (IH (gs ++ [finish cur]) []) as (gs' & cur' & H1 & H2 & H3 & H4).
  { apply rep_wf_finish; [done|slot_lia]. }
  { rewrite next_slot_finish. slot_lia. }
  exists gs', cur'. split; [done|]. split; [done|]. rewrite H3, H4, raws_finish, app_nil_r, next_slot_finish.
  split; [done|lia].
Qed.

Lemma fill_app {A} (l1 l2 : list A) x n : n = (length l1 + length l2)%nat ->
  fill (length l1) n x (l1 ++ l2) = Some (l1 ++ replicate (length l2) x).
Proof.
  intros ->. unfold fill, copy_at. rewrite (proj2 (Nat.leb_le _ _)) by lia.
  rewrite length_replicate, length_app.
  replace (length l1 + length l2 - length l1)%nat with (length l2) by lia.
  rewrite Nat.leb_refl, take_app_length, drop_ge by (rewrite length_app; lia). by rewrite app_nil_r.
Qed.

Lemma next_power_of_two_small n : (1 <= n <= BATCH_SIZE)%nat ->
  (n <= next_power_of_two n <= BATCH_SIZE)%nat /\ is_power_of_two (next_power_of_two n) = true.
Proof.
  unfold BATCH_SIZE. intros Hn. do 9 (destruct n as [|n]; [vm_compute; (lia || (split; [lia|done]))|]). lia.
Qed.

Lemma into_batch_run gs cur : rep_wf gs cur ->
  exists gs', into_batch (rep gs cur) = Some (layout gs') /\ batch_wf gs' /\
    raws gs' = raws gs ++ cur /\ width gs' = next_power_of_two (next_slot gs cur).
Proof.
  intros Hwf. pose proof Hwf as (_ & _ & Hn).
  destruct (next_power_of_two_small (next_slot gs cur)) as [Hp Hpow]; [slot_lia|].
  unfold into_batch. cbn [acc_next_group_idx rep].
  destruct (finalize_op_groups_run (next_power_of_two (next_slot gs cur) - next_slot gs cur) gs cur)
    as (gs1 & cur1 & -> & Hwf1 & Hr1 & Hn1); [done|slot_lia|]. cbn [mbind option_bind].
  assert (Hnext : next_slot gs1 cur1 = next_power_of_two (next_slot gs cur)) by lia.
  clear Hn1. set (gs' := gs1 ++ [finish cur1]).
  assert (Hw : width gs' = next_slot gs1 cur1) by apply width_finish.
  assert (Hg : (if negb (acc_group (rep gs1 cur1) =? 0) || negb (acc_op_idx (rep gs1 cur1) =? 0)%nat
      then update (acc_group_idx (rep gs1 cur1)) (new_unchecked (acc_group (rep gs1 cur1))) (acc_groups (rep gs1 cur1))
      else Some (acc_groups (rep gs1 cur1))) = Some (codes gs' ++ replicate (BATCH_SIZE - width gs') ZERO)).
  { rewrite Hw. unfold gs'. rewrite codes_finish, <- app_assoc. cbn [rep acc_group acc_op_idx acc_group_idx acc_groups app].
    destruct cur1 as [|op cur1]; [done|]. rewrite orb_true_r. rewrite <- (length_codes gs1) at 1.
    by rewrite update_app. }
  rewrite Hg. cbn [mbind option_bind].
  assert (Hpad : pad_if_needed (mkAcc (acc_ops (rep gs1 cur1)) (acc_indptr (rep gs1 cur1)) (acc_padding (rep gs1 cur1))
      (codes gs' ++ replicate (BATCH_SIZE - width gs') ZERO) (acc_group (rep gs1 cur1)) (acc_op_idx (rep gs1 cur1))
      (acc_group_idx (rep gs1 cur1)) (acc_next_group_idx (rep gs1 cur1))) =
    Some (mkAcc (ops_of gs') (acc_indptr (rep gs1 cur1)) (pads gs' ++ replicate (BATCH_SIZE - width gs') false)
      (codes gs' ++ replicate (BATCH_SIZE - width gs') ZERO) (group_value cur1) (length (g_ops (finish cur1)))
      (width gs1) (next_slot gs1 cur1))).
  { unfold gs'. rewrite <- pads_room by lia. rewrite ops_of_finish.
    cbn [rep acc_ops acc_padding acc_group acc_op_idx acc_group_idx acc_next_group_idx].
    destruct (BATCH_SIZE - width gs1)%nat as [|k] eqn:Ek; [slot_lia|].
    replace (S k - 1)%nat with k by lia. by rewrite pad_if_needed_run by (by rewrite length_pads). }
  rewrite Hpad. cbn [mbind option_bind]. unfold gs'. rewrite finalize_indptr_run by done. fold gs'.
  cbn [mbind option_bind acc_next_group_idx acc_ops acc_indptr acc_padding acc_groups].
  assert (Hfill : forall n, fill (width gs') BATCH_SIZE_PLUS_ONE n
      (starts 0 gs' ++ n :: replicate (BATCH_SIZE - width gs') 0%nat) =
    Some (starts 0 gs' ++ replicate (BATCH_SIZE_PLUS_ONE - width gs') n)).
  { intros n. rewrite <- (length_starts 0 gs') at 1.
    rewrite fill_app by (cbn; rewrite length_starts, length_replicate; slot_lia).
    cbn [length]. rewrite length_replicate. do 3 f_equal. slot_lia. }
  exists gs'. rewrite <- Hw, Hfill. split; [done|].
  split; [|split; [unfold gs'; by rewrite raws_finish|lia]].
  split; [|split; [by destruct gs1|split; [lia|by rewrite Hw, Hnext]]].
  destruct Hwf1 as (? & ? & _). apply Forall_app. split; [done|]. apply Forall_singleton. by apply finish_wf.
Qed.

(** ** Batching *)

(** A rejected operation closes a full batch. *)
Lemma rejected_full gs cur op : rep_wf gs cur -> can_accept_op (rep gs cur) op = false ->
  next_power_of_two (next_slot gs cur) = BATCH_SIZE.
Proof.
  intros (_ & [Hc _] & Hn) Ha.
  assert (7 <= next_slot gs cur)%nat as H7.
  { unfold can_accept_op in Ha. cbn [rep acc_op_idx acc_next_group_idx] in Ha.
    destruct (has_imm op); [destruct (_ <? GROUP_SIZE - 1)%nat|];
      repeat (apply orb_false_iff in Ha as [? Ha]); apply Nat.ltb_ge in Ha; slot_lia. }
  assert (next_slot gs cur = 7 \/ next_slot gs cur = 8)%nat as [-> | ->] by slot_lia; done.
Qed.

Definition full_batch (gs : list group) : Prop := batch_wf gs /\ width gs = BATCH_SIZE.

Definition loop_inv (st : list OpBatch * OpBatchAccumulator) (done : list Operation) : Prop :=
  exists gss gs cur, st = (layout <$> gss, rep gs cur) /\ Forall full_batch gss /\ rep_wf gs cur /\
    (gs = [] -> cur = [] -> gss = []) /\ (gs <> [] -> cur <> []) /\
    (gss ≫= raws) ++ raws gs ++ cur = done.

Lemma batch_step_inv st done op : loop_inv st done ->
  exists st', batch_step st op = Some st' /\ loop_inv st' (done ++ [op]).
Proof.
  intros (gss & gs & cur & -> & Hfull & Hwf & He & Hne & <-). unfold batch_step.
  destruct (can_accept_op (rep gs cur) op) eqn:Ha; cbn [negb mbind option_bind].
  - destruct (add_op_run gs cur op Hwf Ha) as (gs' & cur' & -> & Hwf' & Hc & Hr). cbn [mbind option_bind].
    eexists. split; [done|]. exists gss, gs', cur'. split; [done|]. split; [done|]. split; [done|].
    split; [by intros _ ?|]. split; [done|]. by rewrite Hr, <- !app_assoc.
  - destruct (into_batch_run gs cur Hwf) as (gs1 & -> & Hb & Hr1 & Hw). cbn [mbind option_bind].
    rewrite (rejected_full gs cur op) in Hw by done.
    destruct (add_op_run [] [] op) as (gs' & cur' & Hadd & Hwf' & Hc & Hr).
    { split; [done|]. split; [split; cbn; [lia|done]|]. cbn. slot_lia. }
    { unfold can_accept_op. by destruct (has_imm op). }
    rewrite rep_new, Hadd. cbn [mbind option_bind]. eexists. split; [done|].
    exists (gss ++ [gs1]), gs', cur'. rewrite fmap_app. split; [done|].
    split; [apply Forall_app; split; [done|by apply Forall_singleton]|]. split; [done|].
    split; [by intros _ ?|]. split; [done|]. rewrite Hr, bind_app, <- !app_assoc. cbn.
    by rewrite Hr1, app_nil_r, <- !app_assoc.
Qed.

Lemma batch_loop_inv ops st done : loop_inv st done ->
  exists st', batch_loop st ops = Some st' /\ loop_inv st' (done ++ ops).
Proof.
  revert st done. induction ops as [|op ops IH]; intros st done Hinv; cbn [batch_loop].
  { exists st. by rewrite app_nil_r. }
  destruct (batch_step_inv st done op Hinv) as (st' & -> & Hinv'). cbn [mbind option_bind].
  destruct (IH st' _ Hinv') as (st'' & ? & ?). exists st''. by rewrite cons_middle, app_assoc.
Qed.

(** The batches of a sequence of operations are the layouts of groups that hold
    exactly these operations and the padding; all but the last are full. *)
Lemma batch_ops_layout ops : exists gss, batch_ops ops = Some (layout <$> gss) /\
  Forall batch_wf gss /\ (forall i gs, gss !! i = Some gs -> (i + 1 < length gss)%nat -> width gs = BATCH_SIZE) /\
  gss ≫= raws = ops /\ (ops = [] <-> gss = []).
Proof.
  unfold batch_ops. destruct (batch_loop_inv ops ([], acc_new) []) as (st & -> & Hinv).
  { exists [], [], []. split; [done|]. split; [done|]. split; [|done].
    split; [done|]. split; [split; cbn; [lia|done]|]. cbn. slot_lia. }
  destruct Hinv as (gss & gs & cur & -> & Hfull & Hwf & He & Hne & Hr). cbn [mbind option_bind].
  assert (Hgss : Forall batch_wf gss) by (eapply Forall_impl; [done|by intros ? [? ?]]).
  assert (Hw : forall i g, gss !! i = Some g -> width g = BATCH_SIZE).
  { intros i g Hi. by destruct (Forall_lookup_1 _ _ _ _ Hfull Hi). }
  change (acc_ops (rep gs cur)) with (ops_of gs ++ cur).
  destruct (decide (cur = [])) as [->|Hcur].
  - destruct gs as [|g gs]; [|by destruct Hne]. rewrite (He eq_refl eq_refl) in *. cbn in *.
    exists []. by subst ops.
  - destruct (into_batch_run gs cur Hwf) as (gs1 & Hb & Hb1 & Hr1 & _).
    destruct (ops_of gs ++ cur) eqn:E; [by apply app_nil in E as [_ ?]|].
    rewrite Hb. cbn [mbind option_bind]. exists (gss ++ [gs1]). rewrite fmap_app. split; [done|].
    split; [apply Forall_app; split; [done|by apply Forall_singleton]|]. split.
    { intros i g Hi Hlt. rewrite length_app in Hlt. cbn in Hlt. rewrite lookup_app_l in Hi by lia. by eapply Hw. }
    split; [rewrite bind_app; cbn; by rewrite app_nil_r, Hr1|]. cbn in Hr. subst ops.
    split; [|by destruct gss]. intros E'. by apply app_nil in E' as [_ [_ ?]%app_nil].
Qed.
