(* ===== verification/BatchCorrect.v ===== *)
(** * Batching is correct

    Reading a layout: what every slot of a batch holds.  The batches of any
    sequence of operations pass every validator, their raw operations are the
    sequence, and translating raw to padded indices and back is the identity. *)

From S2P Require Import Prelude Felt Operations OpBatch Mast BatchValid BatchTheory.

(** ** Slots *)

Lemma lookup_tail {A} (x : A) l i : (x :: l) !! S i = l !! i.
Proof. done. Qed.

Lemma slot_split gs i : (i < width gs)%nat ->
  exists gs1 g gs2 j, gs = gs1 ++ g :: gs2 /\ i = (width gs1 + j)%nat /\ (j <= num_imms g)%nat.
Proof.
  revert i. induction gs as [|g gs IH]; intros i; [cbn; lia|]. rewrite width_cons. intros Hi.
  destruct (decide (i <= num_imms g)%nat) as [Hj|Hj].
  { exists [], g, gs, i. done. }
  destruct (IH (i - S (num_imms g))%nat) as (gs1 & g' & gs2 & j & -> & ? & ?); [lia|].
  exists (g :: gs1), g', gs2, j. rewrite width_cons. split; [done|]. split; [lia|done].
Qed.

Section Slots.
Context (gs1 : list group) (g : group) (gs2 : list group).
Notation gs := (gs1 ++ g :: gs2).
Notation base := (length (ops_of gs1)).
Notation stop := (length (ops_of gs1) + length (g_ops g))%nat.

Lemma slot_width : width gs = (width gs1 + S (num_imms g) + width gs2)%nat.
Proof. rewrite width_app, width_cons. lia. Qed.

Lemma slot_ops : ops_of gs = ops_of gs1 ++ g_ops g ++ ops_of gs2.
Proof. by rewrite ops_of_app. Qed.

Lemma slot_slice n : (n <= length (g_ops g))%nat ->
  slice base (base + n) (ops_of gs) = Some (take n (g_ops g)).
Proof.
  intros Hn. unfold slice. rewrite (proj2 (Nat.leb_le base _)) by lia.
  rewrite slot_ops, (proj2 (Nat.leb_le _ _)) by (rewrite !length_app; lia). cbn [andb].
  rewrite drop_app_length. f_equal. replace (base + n - base)%nat with n by lia. by rewrite take_app_le.
Qed.

Lemma slot_slice_all : slice base stop (ops_of gs) = Some (g_ops g).
Proof. rewrite slot_slice by lia. by rewrite firstn_all. Qed.

Lemma slot_start : ob_indptr (layout gs) !! width gs1 = Some base.
Proof.
  cbn [layout ob_indptr]. rewrite starts_app, <- app_assoc, lookup_app_r by (by rewrite length_starts).
  by rewrite length_starts, Nat.sub_diag.
Qed.

Lemma slot_imm j : (0 < j <= num_imms g)%nat -> ob_indptr (layout gs) !! (width gs1 + j)%nat = Some stop.
Proof.
  intros Hj. cbn [layout ob_indptr].
  rewrite starts_app, <- app_assoc, lookup_app_r by (rewrite length_starts; lia).
  rewrite length_starts. replace (width gs1 + j - width gs1)%nat with (S (j - 1)) by lia. cbn [starts app].
  rewrite lookup_tail, <- app_assoc, lookup_app_l by (rewrite length_replicate; lia). apply lookup_replicate_2. lia.
Qed.

Lemma slot_next j : (width gs <= BATCH_SIZE)%nat -> (j <= num_imms g)%nat ->
  ob_indptr (layout gs) !! (width gs1 + j + 1)%nat = Some stop.
Proof.
  intros Hw Hj. destruct (decide (j < num_imms g)%nat) as [Hlt|Hge].
  { rewrite <- Nat.add_assoc. apply slot_imm. lia. }
  replace (width gs1 + j + 1)%nat with (width (gs1 ++ [g])) by (rewrite width_app, width_cons; cbn; lia).
  cbn [layout ob_indptr]. replace gs with ((gs1 ++ [g]) ++ gs2) by (by rewrite <- app_assoc).
  rewrite starts_app, <- app_assoc, lookup_app_r, length_starts, Nat.sub_diag by (by rewrite length_starts).
  assert (Hs : length (ops_of (gs1 ++ [g])) = stop).
  { rewrite ops_of_app, length_app. unfold ops_of at 2. cbn. rewrite app_nil_r. lia. }
  destruct gs2 as [|g' gs2']; cbn [starts app Nat.add].
  - rewrite app_nil_r, Hs. apply lookup_replicate_2. rewrite width_app, width_cons in *.
    cbn in *. slot_lia.
  - by rewrite Hs.
Qed.

Lemma slot_padding j : (j <= num_imms g)%nat ->
  ob_padding (layout gs) !! (width gs1 + j)%nat = Some (if (j =? 0)%nat then g_pad g else false).
Proof.
  intros Hj. cbn [layout ob_padding]. rewrite pads_app, <- app_assoc, lookup_app_r by (rewrite length_pads; lia).
  rewrite length_pads. replace (width gs1 + j - width gs1)%nat with j by lia.
  unfold pads. cbn [mbind list_bind app]. destruct j as [|j]; [done|].
  rewrite lookup_tail, <- app_assoc, lookup_app_l by (rewrite length_replicate; lia). by apply lookup_replicate_2.
Qed.

Lemma slot_code : ob_groups (layout gs) !! width gs1 = Some (new_unchecked (group_value (g_ops g))).
Proof.
  cbn [layout ob_groups]. rewrite codes_app, <- app_assoc, lookup_app_r by (by rewrite length_codes).
  by rewrite length_codes, Nat.sub_diag.
Qed.

Lemma slot_imm_value j x : imms (g_ops g) !! j = Some x ->
  ob_groups (layout gs) !! (width gs1 + S j)%nat = Some x.
Proof.
  intros Hj. cbn [layout ob_groups]. rewrite codes_app, <- app_assoc, lookup_app_r by (rewrite length_codes; lia).
  rewrite length_codes. replace (width gs1 + S j - width gs1)%nat with (S j) by lia.
  unfold codes. cbn [mbind list_bind app]. rewrite lookup_tail, <- app_assoc.
  by apply lookup_app_l_Some.
Qed.

End Slots.

(** ** Placing immediates *)

(** The immediates of a group in the slots from [off] on. *)
Definition imm_placements (off : nat) (l : list Felt) : list (nat * Felt) := zip (seq off (length l)) l.

Lemma place_run indptr max num l pl off :
  (forall i, (off <= i < off + length (imms l))%nat -> (i < max)%nat /\
     from_option (fun n => i < n)%nat True num /\
     exists x, indptr !! i = Some x /\ indptr !! (i + 1)%nat = Some x) ->
  rfold (place_immediate indptr max num) (pl, off) l =
  Ok (pl ++ imm_placements off (imms l), (off + length (imms l))%nat).
Proof.
  revert pl off. induction l as [|op l IH]; intros pl off Hi; cbn [rfold].
  { cbn. by rewrite app_nil_r, Nat.add_0_r. }
  unfold place_immediate at 1. unfold imms in *. cbn [omap list_omap] in *. destruct (imm_value op) as [x|]; cbn [rbind].
  2: { by rewrite IH. }
  cbn [length] in *. destruct (Hi off) as (H1 & H2 & y & H3 & H4); [lia|].
  rewrite (proj2 (Nat.leb_gt _ _)) by done.
  assert (from_option (fun n => n <=? off)%nat false num = false) as ->.
  { destruct num; cbn in *; [by apply Nat.leb_gt|done]. }
  rewrite H3, H4. cbn [rexpect rbind]. rewrite Nat.eqb_refl. cbn [negb rbind].
  rewrite IH by (intros; apply Hi; lia). unfold imm_placements. cbn [length seq zip zip_with].
  rewrite <- app_assoc. cbn [app]. rewrite !Nat.add_1_r. do 2 f_equal. lia.
Qed.

Lemma mark_run batch_idx batch l off slots :
  (forall j x, l !! j = Some x -> ob_groups batch !! (off + j)%nat = Some x /\ (off + j < length slots)%nat) ->
  exists slots', rfold (fun slots '(imm_group_idx, imm_value) =>
      let? g := rexpect (ob_groups batch !! imm_group_idx) in
      if negb (bool_decide (g = imm_value)) then Err (PushImmMismatch batch_idx imm_group_idx)
      else rexpect (update imm_group_idx true slots)) slots (imm_placements off l) = Ok slots' /\
    length slots' = length slots /\ (forall k, slots !! k = Some true -> slots' !! k = Some true) /\
    (forall j, (j < length l)%nat -> slots' !! (off + j)%nat = Some true).
Proof.
  revert off slots. induction l as [|x l IH]; intros off slots Hl.
  { exists slots. split; [done|]. split; [done|]. split; [done|]. cbn. intros; lia. }
  unfold imm_placements. cbn [length seq zip zip_with rfold]. destruct (Hl 0%nat x eq_refl) as [H1 H2].
  rewrite Nat.add_0_r in *. rewrite H1. cbn [rexpect rbind]. rewrite bool_decide_true by done. cbn [negb].
  rewrite update_Some by done. cbn [rexpect rbind].
  destruct (IH (S off) (<[off := true]> slots)) as (slots' & Hr & Hlen & Hold & Hnew).
  { intros j y Hj. rewrite length_insert, Nat.add_succ_l, <- Nat.add_succ_r. by apply Hl. }
  exists slots'. split; [done|]. rewrite length_insert in Hlen. split; [done|]. split.
  - intros k Hk. apply Hold. destruct (decide (k = off)) as [->|].
    + by rewrite list_lookup_insert_eq.
    + by rewrite list_lookup_insert_ne.
  - intros [|j] Hj; [|rewrite Nat.add_succ_r, <- Nat.add_succ_l; apply Hnew; lia].
    rewrite Nat.add_0_r. apply Hold. by rewrite list_lookup_insert_eq.
Qed.

Lemma split_unique gs1 gs1' g g' gs2 gs2' :
  gs1 ++ g :: gs2 = gs1' ++ g' :: gs2' -> width gs1' = width gs1 -> gs1 = gs1' /\ g = g' /\ gs2 = gs2'.
Proof.
  revert gs1'. induction gs1 as [|h gs1 IH]; intros [|h' gs1'] He; rewrite ?width_cons; cbn in *; intros Hw;
    simplify_eq; try lia; [done|]. destruct (IH gs1') as (-> & -> & ->); [done|lia|done].
Qed.

Lemma split_before gs1 a g h gs2 b : gs1 ++ g :: gs2 = a ++ h :: b -> (width a < width gs1)%nat ->
  (width a + S (num_imms h) <= width gs1)%nat.
Proof.
  revert a. induction gs1 as [|x gs1 IH]; intros [|y a] He; rewrite ?width_cons; cbn in *; intros Hw;
    simplify_eq; try lia. specialize (IH a ltac:(done)). lia.
Qed.

(** ** Reading a batch *)

Section Batch.
Context (gs : list group) (Hwf : batch_wf gs).

Lemma bw_width : (width gs <= BATCH_SIZE)%nat.
Proof. by destruct Hwf as (_ & _ & ? & _). Qed.

Lemma bw_group gs1 g gs2 : gs = gs1 ++ g :: gs2 -> group_wf g.
Proof. intros ->. destruct Hwf as [Hg _]. apply Forall_app in Hg as [_ Hg]. by inversion Hg. Qed.

Lemma length_indptr : length (ob_indptr (layout gs)) = BATCH_SIZE_PLUS_ONE.
Proof. cbn [layout ob_indptr]. rewrite length_app, length_starts, length_replicate. pose proof bw_width. slot_lia. Qed.

Lemma indptr_tail i : (width gs <= i <= BATCH_SIZE)%nat ->
  ob_indptr (layout gs) !! i = Some (length (ops_of gs)).
Proof.
  intros Hi. cbn [layout ob_indptr]. rewrite lookup_app_r by (rewrite length_starts; lia).
  rewrite length_starts. apply lookup_replicate_2. slot_lia.
Qed.

(** The two ends of every interval of [indptr]. *)
Lemma indptr_step i : (i < BATCH_SIZE)%nat ->
  exists x y, ob_indptr (layout gs) !! i = Some x /\ ob_indptr (layout gs) !! (i + 1)%nat = Some y /\
    (x <= y <= length (ops_of gs))%nat /\ (y - x <= GROUP_SIZE)%nat.
Proof.
  intros Hi. pose proof bw_width as Hw. destruct (decide (i < width gs)%nat) as [Hlt|Hge].
  2: { exists (length (ops_of gs)), (length (ops_of gs)). rewrite !indptr_tail by lia.
       split; [done|]. split; [done|]. slot_lia. }
  destruct (slot_split gs i Hlt) as (gs1 & g & gs2 & j & Hgs & -> & Hj).
  pose proof (bw_group _ _ _ Hgs) as [Hg _].
  pose proof (slot_next gs1 g gs2 j) as Hn. pose proof (slot_imm gs1 g gs2 j) as Hi'.
  pose proof (slot_start gs1 g gs2) as Hs.
  pose proof (slot_ops gs1 g gs2) as Ho. rewrite <- Hgs in *. rewrite Hn by done.
  assert (Hlen : (length (ops_of gs1) + length (g_ops g) <= length (ops_of gs))%nat)
    by (rewrite Ho, !length_app; lia).
  destruct j as [|j].
  - rewrite Nat.add_0_r, Hs. do 2 eexists. split; [done|]. split; [done|]. slot_lia.
  - rewrite Hi' by lia. do 2 eexists. split; [done|]. split; [done|]. slot_lia.
Qed.

(** What the readers find in a slot: a group of operations, or an empty
    interval that holds an immediate value. *)
Inductive slot (i : nat) : Prop :=
| slot_group gs1 g gs2 :
    gs = gs1 ++ g :: gs2 -> i = width gs1 -> group_wf g ->
    ob_indptr (layout gs) !! i = Some (length (ops_of gs1)) ->
    ob_indptr (layout gs) !! (i + 1)%nat = Some (length (ops_of gs1) + length (g_ops g))%nat ->
    ob_padding (layout gs) !! i = Some (g_pad g) -> slot i
| slot_value gs1 g gs2 j x :
    gs = gs1 ++ g :: gs2 -> i = (width gs1 + S j)%nat -> imms (g_ops g) !! j = Some x ->
    ob_indptr (layout gs) !! i = Some (length (ops_of gs1) + length (g_ops g))%nat ->
    ob_indptr (layout gs) !! (i + 1)%nat = Some (length (ops_of gs1) + length (g_ops g))%nat ->
    ob_padding (layout gs) !! i = Some false -> ob_groups (layout gs) !! i = Some x -> slot i.

Lemma slot_at i : (i < width gs)%nat -> slot i.
Proof.
  intros Hlt. destruct (slot_split gs i Hlt) as (gs1 & g & gs2 & j & Hgs & -> & Hj). pose proof bw_width as Hw.
  pose proof (slot_next gs1 g gs2 j) as Hn. pose proof (slot_padding gs1 g gs2 j Hj) as Hp.
  rewrite <- Hgs in *. specialize (Hn Hw Hj). destruct j as [|j].
  - rewrite Nat.add_0_r in *. eapply slot_group; [done|done|by eapply bw_group| |done|done].
    rewrite Hgs. apply slot_start.
  - destruct (lookup_lt_is_Some_2 (imms (g_ops g)) j) as [x Hx]; [unfold num_imms in Hj; lia|].
    eapply slot_value; [done|done|done| |done|done|]; rewrite Hgs; [apply slot_imm; lia|by apply slot_imm_value].
Qed.

Lemma raw_group_layout gs1 g gs2 j : gs = gs1 ++ g :: gs2 -> (j <= num_imms g)%nat ->
  raw_group (layout gs) (width gs1 + j) = Some (if (j =? 0)%nat then raw_of g else []).
Proof.
  intros Hgs Hj. pose proof bw_width as Hw. pose proof (bw_group _ _ _ Hgs) as [Hg _].
  unfold raw_group. rewrite Hgs in *. rewrite slot_padding by done. cbn [mbind option_bind].
  destruct j as [|j]; cbn [Nat.eqb].
  - pose proof (slot_next gs1 g gs2 0 Hw Hj) as Hn. rewrite Nat.add_0_r in *.
    rewrite slot_start. cbn [mbind option_bind]. rewrite Hn. cbn [mbind option_bind].
    rewrite checked_sub_Some by (destruct (g_pad g); lia). cbn [mbind option_bind layout ob_ops].
    rewrite <- Nat.add_sub_assoc by (destruct (g_pad g); lia). by rewrite slot_slice by lia.
  - rewrite slot_imm by lia. cbn [mbind option_bind]. rewrite slot_next by done. cbn [mbind option_bind].
    rewrite checked_sub_Some by lia. cbn [mbind option_bind layout ob_ops]. rewrite Nat.sub_0_r.
    unfold slice. rewrite Nat.leb_refl, Nat.sub_diag. cbn [andb].
    rewrite (proj2 (Nat.leb_le _ _)); [done|]. rewrite slot_ops, !length_app. lia.
Qed.

Lemma raw_ops_layout : raw_ops (layout gs) = Some (raws gs).
Proof.
  unfold raw_ops. cbn [ob_num_groups layout].
  assert (Hm : forall gs1 gs2, gs = gs1 ++ gs2 ->
    Forall2 (fun i r => raw_group (layout gs) i = Some r) (seq (width gs1) (width gs2))
      (gs2 ≫= fun g => raw_of g :: replicate (num_imms g) [])).
  { intros gs1 gs2. revert gs1. induction gs2 as [|g gs2 IH]; intros gs1 Hgs; [constructor|].
    rewrite width_cons, seq_app. cbn [mbind list_bind]. apply Forall2_app.
    - apply Forall2_same_length_lookup.
      split; [cbn; by rewrite length_seq, length_replicate|]. intros i a r [-> Hi]%lookup_seq Hr.
      rewrite (raw_group_layout gs1 g gs2) by (done || lia). destruct i as [|i]; cbn in *; [by rewrite Hr|].
      by apply lookup_replicate in Hr as [-> _].
    - replace (width gs1 + S (num_imms g))%nat with (width (gs1 ++ [g]))
        by (rewrite width_app, width_cons; cbn; lia).
      apply (IH (gs1 ++ [g])). by rewrite Hgs, <- app_assoc. }
  specialize (Hm [] gs eq_refl). change (width []) with 0%nat in Hm.
  rewrite (mapM_Some_2 _ _ _ Hm). cbn. f_equal. unfold raws. clear. induction gs as [|g gs' IH]; [done|]. cbn.
  rewrite join_app, IH. f_equal. clear. by induction (num_imms g).
Qed.

(** ** The validators accept a layout *)

Lemma structure_ok batch_idx : structure_of_batch batch_idx (layout gs) = Ok tt.
Proof.
  pose proof bw_width as Hw. unfold structure_of_batch. cbn [ob_num_groups layout].
  rewrite (proj2 (Nat.ltb_ge _ _)) by done. fold (layout gs). rewrite length_indptr.
  rewrite rfor_Ok; cbn [rbind].
  2: { intros i Hi%elem_of_seq_0. destruct (indptr_step i) as (x & y & -> & -> & ? & _); [slot_lia|].
       cbn [rexpect rbind]. by rewrite (proj2 (Nat.ltb_ge _ _)) by lia. }
  rewrite indptr_tail by slot_lia. cbn [rexpect rbind ob_ops layout]. rewrite Nat.eqb_refl. cbn [negb].
  apply rfor_Ok. intros i Hi%elem_of_seq_0. fold (layout gs).
  destruct (indptr_step i) as (x & y & -> & -> & ? & ?); [slot_lia|]. cbn [rexpect rbind].
  rewrite checked_sub_Some by lia. cbn [rexpect rbind]. by rewrite (proj2 (Nat.ltb_ge _ _)) by lia.
Qed.

Lemma invariants_ok : validate_invariants (layout gs) = Some true.
Proof.
  pose proof bw_width as Hw. unfold validate_invariants.
  rewrite (indptr_tail (BATCH_SIZE_PLUS_ONE - 1)) by slot_lia.
  assert (ob_indptr (layout gs) !! 0%nat = Some 0%nat) as ->.
  { destruct Hwf as (_ & Hne & _). destruct gs; [done|]. done. }
  cbn [mbind option_bind].
  assert (Hall : forall n, (n <= BATCH_SIZE)%nat -> forallb (fun i =>
      match ob_indptr (layout gs) !! i, ob_indptr (layout gs) !! (i + 1)%nat with
      | Some x, Some y => (x <=? y)%nat
      | _, _ => false
      end) (seq 0 n) = true).
  { intros n Hn. apply forallb_forall. intros i [_ Hi]%in_seq.
    destruct (indptr_step i) as (x & y & -> & -> & ? & _); [lia|]. apply Nat.leb_le. lia. }
  change (ob_num_groups (layout gs)) with (width gs). rewrite !Hall by slot_lia. cbn [ob_ops layout].
  by rewrite (proj2 (Nat.leb_le _ _)), !Nat.eqb_refl by done.
Qed.

Lemma endings_ok batch_idx :
  rfor (seq 0 (ob_num_groups (layout gs))) (immediate_endings_of_group batch_idx (layout gs)) = Ok tt.
Proof.
  apply rfor_Ok. intros i Hi%elem_of_seq_0. cbn [ob_num_groups layout] in Hi. unfold immediate_endings_of_group.
  destruct (slot_at i Hi) as [gs1 g gs2 Hgs -> (Hg & Hlast & _) H1 H2 H3|gs1 g gs2 j x Hgs -> Hx H1 H2 H3 H4];
    rewrite H1, H2; cbn [rexpect rbind]; [|by rewrite Nat.eqb_refl].
  rewrite (proj2 (Nat.eqb_neq _ _)) by lia. cbn [ob_ops ob_num_groups layout].
  rewrite Hgs at 1. rewrite slot_slice_all. cbn [rexpect rbind]. rewrite Hlast.
  destruct (Nat.eqb_spec (width gs1) (width gs - 1)) as [E|E]; [|done].
  assert (num_imms g = 0)%nat as Hn by (rewrite Hgs, slot_width in E; lia).
  apply rfor_Ok. intros [k op] Hop%elem_of_enumerate. rewrite has_imm_spec.
  destruct (imm_value op) as [x|] eqn:Hx; [|done]. apply nil_length_inv in Hn.
  assert (x ∈ imms (g_ops g)) as Hin; [|rewrite Hn in Hin; by apply elem_of_nil in Hin].
  apply list_elem_of_omap. exists op. split; [|done]. by eapply list_elem_of_lookup_2.
Qed.

Lemma padding_ok : batch_padding_semantics (layout gs) = Ok tt.
Proof.
  pose proof bw_width as Hw. unfold batch_padding_semantics. cbn [ob_num_groups layout].
  rewrite (proj2 (Nat.ltb_ge _ _)) by done. apply rfor_Ok. intros i Hi%elem_of_seq_0. fold (layout gs).
  unfold padding_semantics_of_group.
  destruct (slot_at i Hi) as [gs1 g gs2 Hgs -> (Hg & _ & Hpad) H1 H2 H3|gs1 g gs2 j x Hgs -> Hx H1 H2 H3 H4];
    rewrite H3; cbn [get_or rbind negb]; [|done].
  destruct (g_pad g); cbn [negb]; [|done]. rewrite H1, H2. cbn [get_or rbind].
  rewrite (proj2 (Nat.eqb_neq _ _)), (proj2 (Nat.ltb_ge _ _)) by lia. cbn [ob_ops layout].
  rewrite Hgs, slot_ops, lookup_app_r by lia.
  replace (length (ops_of gs1) + length (g_ops g) - 1 - length (ops_of gs1))%nat
    with (pred (length (g_ops g))) by lia.
  rewrite lookup_app_l, <- last_lookup, Hpad by lia. done.
Qed.

Lemma collect_ok gs1 g gs2 num : gs = gs1 ++ g :: gs2 -> from_option (fun n => width gs <= n)%nat True num ->
  collect_immediate_placements (ops_of gs) (ob_indptr (layout gs)) (width gs1) BATCH_SIZE num =
  Ok (imm_placements (width gs1 + 1) (imms (g_ops g)), (width gs1 + 1 + num_imms g)%nat).
Proof.
  intros Hgs Hnum. pose proof bw_width as Hw. unfold collect_immediate_placements.
  pose proof (slot_next gs1 g gs2 0) as Hn. pose proof (slot_start gs1 g gs2) as Hs.
  rewrite <- Hgs, Nat.add_0_r in *. rewrite Hs, Hn by (done || lia). cbn [rexpect rbind].
  rewrite Hgs at 1. rewrite slot_slice_all. cbn [rexpect rbind]. rewrite place_run; [done|].
  intros i Hi. pose proof (slot_width gs1 g gs2) as Hw'. rewrite <- Hgs in Hw'. unfold num_imms in *.
  split; [lia|]. split; [destruct num; cbn in *; [lia|done]|].
  exists (length (ops_of gs1) + length (g_ops g))%nat. rewrite Hgs.
  replace i with (width gs1 + (i - width gs1))%nat by lia.
  split; [apply slot_imm|apply slot_next; [by rewrite <- Hgs|]]; unfold num_imms; lia.
Qed.

(** The slots marked so far: those of the immediates of the groups before. *)
Definition marked (i : nat) (slots : list bool) : Prop :=
  length slots = BATCH_SIZE /\
  forall gs1 g gs2 j, gs = gs1 ++ g :: gs2 -> (width gs1 < i)%nat -> (j < num_imms g)%nat ->
    slots !! (width gs1 + S j)%nat = Some true.

Lemma commitment_group_ok batch_idx i slots : (i < width gs)%nat -> marked i slots ->
  exists slots', commitment_of_group batch_idx (layout gs) slots i = Ok slots' /\ marked (i + 1) slots'.
Proof.
  intros Hi [Hlen Hm]. pose proof bw_width as Hw. unfold commitment_of_group.
  destruct (slot_at i Hi) as [gs1 g gs2 Hgs -> (Hg & _ & _) H1 H2 H3|gs1 g gs2 j x Hgs -> Hx H1 H2 H3 H4];
    rewrite H1, H2; cbn [rexpect rbind].
  - rewrite (proj2 (Nat.eqb_neq _ _)) by lia. cbn [ob_ops ob_num_groups layout]. fold (layout gs).
    pose proof (slot_slice_all gs1 g gs2) as Hsl. pose proof (slot_code gs1 g gs2) as Hc. rewrite <- Hgs in Hsl, Hc.
    rewrite Hsl, Hc. cbn [rexpect rbind]. rewrite bool_decide_true by done. cbn [negb].
    rewrite (collect_ok gs1 g gs2) by (done || cbn; lia). cbn [map_err rbind].
    destruct (mark_run batch_idx (layout gs) (imms (g_ops g)) (width gs1 + 1) slots) as (slots' & -> & Hl' & Hold & Hnew).
    { intros k y Hy. pose proof (slot_imm_value gs1 g gs2 k y Hy) as Hv. rewrite <- Hgs in Hv.
      replace (width gs1 + 1 + k)%nat with (width gs1 + S k)%nat by lia. split; [done|].
      apply lookup_lt_Some in Hy. pose proof (slot_width gs1 g gs2) as Hw'. rewrite <- Hgs in Hw'.
      unfold num_imms in *. slot_lia. }
    exists slots'. split; [done|]. split; [congruence|]. intros gs1' g' gs2' j Hgs' Hlt Hj.
    destruct (decide (width gs1' = width gs1)) as [E|E].
    + destruct (split_unique gs1 gs1' g g' gs2 gs2') as (-> & -> & ->); [congruence|done|].
      replace (width gs1' + S j)%nat with (width gs1' + 1 + j)%nat by lia. by apply Hnew.
    + apply Hold. eapply Hm; [done|lia|done].
  - rewrite Nat.eqb_refl. exists slots. split; [done|]. split; [done|]. intros gs1' g' gs2' k Hgs' Hlt Hk.
    destruct (decide (width gs1' = width gs1 + S j)%nat) as [E|E]; [exfalso|eapply Hm; [done|lia|done]].
    pose proof (slot_start gs1' g' gs2') as Hs. pose proof (slot_next gs1' g' gs2' 0) as Hn.
    pose proof (bw_group _ _ _ Hgs') as [Hg _].
    rewrite <- Hgs', Nat.add_0_r, E in *. rewrite Hn in H2 by (done || lia). rewrite Hs in H1. simplify_eq. lia.
Qed.

Lemma commitment_ok batch_idx : commitment_of_batch batch_idx (layout gs) = Ok tt.
Proof.
  pose proof bw_width as Hw. unfold commitment_of_batch. cbn [ob_num_groups layout]. fold (layout gs).
  destruct (rfold_inv (commitment_of_group batch_idx (layout gs)) marked (seq 0 (width gs))
              (replicate BATCH_SIZE false)) as (slots & -> & Hlen & Hm).
  { split; [by rewrite length_replicate|]. intros; lia. }
  { intros i a sl [-> Hi]%lookup_seq Hs. by apply commitment_group_ok. }
  cbn [rbind]. apply rfor_Ok. intros i Hi%elem_of_seq_0.
  destruct (slot_at i Hi) as [gs1 g gs2 Hgs -> (Hg & _ & _) H1 H2 H3|gs1 g gs2 j x Hgs -> Hx H1 H2 H3 H4];
    rewrite H1, H2; cbn [rexpect rbind].
  - destruct (lookup_lt_is_Some_2 slots (width gs1)) as [b Hb]; [slot_lia|]. rewrite Hb. cbn [rexpect rbind].
    pose proof (slot_code gs1 g gs2) as Hc. rewrite <- Hgs in Hc. rewrite Hc. cbn [rexpect rbind].
    by rewrite (proj2 (Nat.eqb_neq _ _)) by lia.
  - rewrite (Hm gs1 g gs2 j); [|done|rewrite length_seq; lia|by apply lookup_lt_Some in Hx].
    cbn [rexpect rbind]. rewrite H4. cbn [rexpect rbind]. by rewrite andb_false_r.
Qed.

End Batch.

(** ** All batches of a block *)

Definition block_wf (gss : list (list group)) : Prop :=
  Forall batch_wf gss /\
  forall i gs, gss !! i = Some gs -> (i + 1 < length gss)%nat -> width gs = BATCH_SIZE.

Lemma layouts_lookup gss p : p ∈ enumerate (layout <$> gss) ->
  exists gs, gss !! p.1 = Some gs /\ p.2 = layout gs.
Proof.
  intros Hp%elem_of_enumerate. rewrite list_lookup_fmap in Hp.
  destruct (gss !! p.1) as [gs|] eqn:E; simplify_eq/=. by exists gs.
Qed.

Lemma validate_layouts gss : block_wf gss -> validate_batch_invariants (layout <$> gss) = Ok tt.
Proof.
  intros [Hall Hfull]. unfold validate_batch_invariants.
  assert (Hwf : forall i gs, gss !! i = Some gs -> batch_wf gs) by (intros; by eapply Forall_lookup_1).
  assert (Hfor : forall f : nat * OpBatch -> res BatchError unit,
    (forall i gs, gss !! i = Some gs -> batch_wf gs -> f (i, layout gs) = Ok tt) ->
    rfor (enumerate (layout <$> gss)) f = Ok tt).
  { intros f Hf. apply rfor_Ok. intros [i b] Hp. apply layouts_lookup in Hp as (gs & Hgs & E). cbn in *. subst b.
    eapply Hf; [done|by eapply Hwf]. }
  unfold validate_power_of_two_groups, validate_batch_structure, validate_no_immediate_endings,
    validate_immediate_commitment, validate_padding_semantics.
  rewrite !Hfor; [done|..]; intros i gs Hi Hgs.
  - by rewrite padding_ok.
  - by apply commitment_ok.
  - by apply endings_ok.
  - by apply structure_ok.
  - rewrite length_fmap. cbn [ob_num_groups layout]. destruct (Nat.ltb_spec (i + 1) (length gss)) as [Hlt|Hge].
    + by rewrite (Hfull i gs Hi Hlt).
    + destruct Hgs as (_ & _ & _ & Hp). by rewrite Hp.
Qed.

Lemma raw_operations_layouts gss : Forall batch_wf gss ->
  raw_operations (layout <$> gss) = Some (gss ≫= raws).
Proof.
  intros Hall. unfold raw_operations. rewrite (mapM_Some_2 _ _ (raws <$> gss)); [|].
  { cbn. f_equal. clear. induction gss as [|gs gss IH]; [done|]. cbn. f_equal. exact IH. }
  apply Forall2_fmap_2. induction Hall; constructor; [by apply raw_ops_layout|done].
Qed.

(** ** Index tables *)

Definition pad_of (g : group) : nat := if g_pad g then 1 else 0.
Definition npads (gs : list group) : nat := sum_list (pad_of <$> gs).

Fixpoint raw_table (p : nat) (gs : list group) : list nat :=
  match gs with
  | [] => [p]
  | g :: gs => replicate (length (raw_of g)) p ++ raw_table (p + pad_of g) gs
  end.

Fixpoint pad_table (p : nat) (gs : list group) : list nat :=
  match gs with
  | [] => [p]
  | g :: gs => replicate (length (raw_of g)) p ++ (if g_pad g then [p] else []) ++ pad_table (p + pad_of g) gs
  end.

(** A fold over the slots of a batch that passes over the immediates is a fold
    over its groups. *)
Lemma fold_slots {E T} (F : T -> nat -> res E T) (step : T -> group -> T) gs s : batch_wf gs ->
  (forall gs1 g gs2 s, gs = gs1 ++ g :: gs2 -> F s (width gs1) = Ok (step s g)) ->
  (forall gs1 g gs2 j s, gs = gs1 ++ g :: gs2 -> (j < num_imms g)%nat -> F s (width gs1 + S j)%nat = Ok s) ->
  rfold F s (seq 0 (width gs)) = Ok (foldl step s gs).
Proof.
  intros Hwf Hg Hi.
  assert (Hrun : forall gs2 gs1 s, gs = gs1 ++ gs2 ->
    rfold F s (seq (width gs1) (width gs2)) = Ok (foldl step s gs2)).
  { induction gs2 as [|g gs2 IH]; intros gs1 s' Hgs; [done|].
    rewrite width_cons. cbn [Nat.add seq rfold foldl]. rewrite (Hg gs1 g gs2) by done. cbn [rbind].
    assert (Hskip : forall n j s', (j + n = num_imms g)%nat ->
      rfold F s' (seq (width gs1 + S j) (n + width gs2)) = rfold F s' (seq (width (gs1 ++ [g])) (width gs2))).
    { induction n as [|n IHn]; intros j t Hj.
      - do 2 f_equal. rewrite width_app, width_cons. cbn. lia.
      - cbn [Nat.add seq rfold]. rewrite (Hi gs1 g gs2) by (done || lia). cbn [rbind].
        rewrite <- (IHn (S j)) by lia. do 2 f_equal. lia. }
    specialize (Hskip (num_imms g) 0%nat (step s' g)). rewrite Nat.add_1_r in Hskip. rewrite Hskip by lia.
    apply IH. by rewrite Hgs, <- app_assoc. }
  by apply (Hrun gs []).
Qed.

Lemma length_raw g : length (raw_of g) = (length (g_ops g) - pad_of g)%nat.
Proof. unfold raw_of, pad_of. rewrite length_take. lia. Qed.

Section Lens.
Context (gs : list group) (Hwf : batch_wf gs) (gs1 : list group) (g : group) (gs2 : list group)
  (Hgs : gs = gs1 ++ g :: gs2).

Lemma group_lens_group : group_lens (layout gs) (width gs1) = Some (length (raw_of g), pad_of g).
Proof.
  pose proof (bw_width gs Hwf) as Hw. destruct (bw_group gs Hwf _ _ _ Hgs) as [Hg _].
  unfold group_lens. pose proof (slot_next gs1 g gs2 0) as Hn. pose proof (slot_padding gs1 g gs2 0) as Hp.
  pose proof (slot_start gs1 g gs2) as Hs. rewrite <- Hgs, Nat.add_0_r in *.
  rewrite Hn, Hs, Hp by (done || lia). cbn [mbind option_bind]. rewrite checked_sub_Some by lia. cbn [mbind option_bind].
  replace (length (ops_of gs1) + length (g_ops g) - length (ops_of gs1))%nat with (length (g_ops g)) by lia.
  rewrite length_raw. unfold pad_of. cbn [Nat.eqb]. destruct (g_pad g); rewrite checked_sub_Some by lia; done.
Qed.

Lemma group_lens_imm j : (j < num_imms g)%nat -> group_lens (layout gs) (width gs1 + S j) = Some (0, 0)%nat.
Proof.
  intros Hj. pose proof (bw_width gs Hwf) as Hw. unfold group_lens.
  rewrite Hgs in *. rewrite slot_next, slot_imm, slot_padding by (done || lia). cbn [mbind option_bind].
  rewrite checked_sub_Some by lia. cbn [mbind option_bind]. rewrite Nat.sub_diag. done.
Qed.

End Lens.

Lemma prefix_layouts f step tail gss :
  (forall gs gs1 g gs2 v p, batch_wf gs -> gs = gs1 ++ g :: gs2 ->
     f (layout gs) (v, p) (width gs1) = Ok (v ++ tail p g, (p + pad_of g)%nat)) ->
  (forall gs gs1 g gs2 j v p, batch_wf gs -> gs = gs1 ++ g :: gs2 -> (j < num_imms g)%nat ->
     f (layout gs) (v, p) (width gs1 + S j)%nat = Ok (v, p)) ->
  (forall p, step p [] = [p]) -> (forall p g gs, step p (g :: gs) = tail p g ++ step (p + pad_of g)%nat gs) ->
  Forall batch_wf gss -> prefix_new f (layout <$> gss) = Ok (step 0%nat (mjoin gss)).
Proof.
  intros Hf Hi Hnil Hcons Hall. unfold prefix_new.
  set (st := fun (s : list nat * nat) g => (s.1 ++ tail s.2 g, (s.2 + pad_of g)%nat)).
  assert (Hrun : forall s, rfold (fun st b => rfold (f b) st (seq 0 (ob_num_groups b))) s (layout <$> gss) =
    Ok (foldl st s (mjoin gss))).
  { induction Hall as [|gs gss Hgs _ IH]; intros s; [done|]. cbn [fmap list_fmap rfold]. cbn [ob_num_groups layout].
    fold (layout gs). rewrite (fold_slots (f (layout gs)) st); [|done|..].
    - cbn [rbind]. rewrite IH. cbn. by rewrite foldl_app.
    - intros gs1 g gs2 [v p] E. by rewrite (Hf _ gs1 g gs2).
    - intros gs1 g gs2 j [v p] E Hj. by apply (Hi _ gs1 g gs2). }
  rewrite Hrun. cbn [rbind].
  assert (Hfold : forall gs v p, let '(v', p') := foldl st (v, p) gs in v' ++ [p'] = v ++ step p gs).
  { induction gs as [|g gs IH]; intros v p; cbn [foldl]; [by rewrite Hnil|]. unfold st at 2. cbn [fst snd].
    specialize (IH (v ++ tail p g) (p + pad_of g)%nat). destruct (foldl st _ gs) as [v' p'].
    by rewrite IH, Hcons, <- app_assoc. }
  specialize (Hfold (mjoin gss) [] 0%nat). destruct (foldl st ([], 0%nat) (mjoin gss)) as [v p]. by rewrite Hfold.
Qed.

Lemma raw_to_padded_layouts gss : Forall batch_wf gss ->
  raw_to_padded_new (layout <$> gss) = Ok (raw_table 0 (mjoin gss)).
Proof.
  apply (prefix_layouts _ _ (fun p g => replicate (length (raw_of g)) p)); [| |done|done].
  - intros gs gs1 g gs2 v p Hwf Hgs. unfold raw_to_padded_group. by rewrite (group_lens_group gs Hwf gs1 g gs2).
  - intros gs gs1 g gs2 j v p Hwf Hgs Hj. unfold raw_to_padded_group.
    rewrite (group_lens_imm gs Hwf gs1 g gs2) by done. cbn. by rewrite app_nil_r, Nat.add_0_r.
Qed.

Lemma padded_to_raw_layouts gss : Forall batch_wf gss ->
  padded_to_raw_new (layout <$> gss) = Ok (pad_table 0 (mjoin gss)).
Proof.
  apply (prefix_layouts _ _ (fun p g => replicate (length (raw_of g)) p ++ (if g_pad g then [p] else []))).
  - intros gs gs1 g gs2 v p Hwf Hgs. unfold padded_to_raw_group. rewrite (group_lens_group gs Hwf gs1 g gs2) by done.
    cbn [rexpect rbind]. unfold pad_of. destruct (g_pad g); cbn; by rewrite ?app_assoc, ?app_nil_r, ?Nat.add_0_r.
  - intros gs gs1 g gs2 j v p Hwf Hgs Hj. unfold padded_to_raw_group.
    rewrite (group_lens_imm gs Hwf gs1 g gs2) by done. cbn. by rewrite app_nil_r.
  - done.
  - intros p g gs. cbn. by rewrite <- app_assoc.
Qed.

(** The tables are inverse to each other, and lead to the same operation. *)
Lemma tables_inverse gs p r : Forall group_wf gs -> (r <= length (raws gs))%nat ->
  exists k, raw_table p gs !! r = Some (p + k)%nat /\ pad_table p gs !! (r + k)%nat = Some (p + k)%nat /\
    ops_of gs !! (r + k)%nat = raws gs !! r.
Proof.
  intros Hwf. revert p r. induction Hwf as [|g gs [Hg _] _ IH]; intros p r.
  { cbn. intros Hr. exists 0%nat. assert (r = 0)%nat as -> by lia. by rewrite Nat.add_0_r. }
  unfold raws, ops_of in *. cbn [mbind list_bind raw_table pad_table]. rewrite length_app. intros Hr.
  pose proof (length_raw g) as Hlen. destruct (decide (r < length (raw_of g))%nat) as [Hlt|Hge].
  - exists 0%nat. rewrite !Nat.add_0_r. rewrite !lookup_app_l by (rewrite ?length_replicate; lia).
    rewrite lookup_replicate_2 by done. split; [done|]. split; [done|].
    unfold raw_of in *. rewrite length_take in Hlt. by rewrite lookup_take_lt by lia.
  - destruct (IH (p + pad_of g)%nat (r - length (raw_of g))%nat) as (k & H1 & H2 & H3); [lia|].
    exists (pad_of g + k)%nat.
    assert (pad_of g <= length (g_ops g))%nat as Hp by (unfold pad_of; destruct (g_pad g); lia).
    rewrite !lookup_app_r by (rewrite ?length_replicate; lia). rewrite length_replicate, H1.
    split; [f_equal; lia|]. split.
    + assert (length (if g_pad g then [p] else []) = pad_of g) as Hlp by (unfold pad_of; by destruct (g_pad g)).
      rewrite lookup_app_r, Hlp by lia.
      replace (r + (pad_of g + k) - length (raw_of g) - pad_of g)%nat with (r - length (raw_of g) + k)%nat by lia.
      rewrite H2. f_equal. lia.
    + rewrite (lookup_app_r (g_ops g)), (lookup_app_r (raw_of g)), <- H3 by lia. f_equal. lia.
Qed.

(** ** Iterating over a batch *)

(** The group of an operation, and its position in it. *)
Lemma op_position gs k : (k < length (ops_of gs))%nat ->
  exists gs1 g gs2, gs = gs1 ++ g :: gs2 /\
    (length (ops_of gs1) <= k < length (ops_of gs1) + length (g_ops g))%nat.
Proof.
  revert k. induction gs as [|g gs IH]; intros k; [cbn; lia|]. unfold ops_of in *. cbn [mbind list_bind].
  rewrite length_app. intros Hk. destruct (decide (k < length (g_ops g))%nat) as [Hlt|Hge].
  { exists [], g, gs. cbn. split; [done|lia]. }
  destruct (IH (k - length (g_ops g))%nat) as (gs1 & g' & gs2 & -> & Hb); [lia|].
  exists (g :: gs1), g', gs2. split; [done|]. cbn [mbind list_bind]. rewrite length_app. lia.
Qed.

Section Iterate.
Context (gs : list group) (Hwf : batch_wf gs).

(** The groups before the one that holds operation [k] end at or before [k]. *)
Lemma ends_before gs1 g gs2 k i : gs = gs1 ++ g :: gs2 -> (length (ops_of gs1) <= k)%nat -> (i < width gs1)%nat ->
  exists e, ob_indptr (layout gs) !! (i + 1)%nat = Some e /\ (e <= k)%nat.
Proof.
  intros Hgs Hk Hi. pose proof (bw_width gs Hwf) as Hw.
  destruct (slot_split gs1 i Hi) as (a & h & b & j & -> & -> & Hj).
  pose proof (slot_next a h (b ++ g :: gs2) j) as Hn.
  replace (a ++ h :: b ++ g :: gs2) with gs in Hn by (by rewrite Hgs, <- app_assoc).
  rewrite Hn by done. eexists. split; [done|]. rewrite slot_ops, !length_app in Hk. lia.
Qed.

Lemma partition_point_spec {A} (p : A -> bool) l n :
  (forall i x, l !! i = Some x -> (i < n)%nat -> p x = true) ->
  (exists x, l !! n = Some x /\ p x = false) -> partition_point p l = n.
Proof.
  revert n. induction l as [|a l IH]; intros n Hlt (x & Hx & Hp); [done|]. cbn [partition_point].
  destruct n as [|n]; [by simplify_eq/=; rewrite Hp|]. rewrite (Hlt 0%nat a) by (done || lia). f_equal.
  apply IH; [|by exists x]. intros i y Hy Hi. apply (Hlt (S i)); [done|lia].
Qed.

Lemma to_group_layout gs1 g gs2 k : gs = gs1 ++ g :: gs2 ->
  (length (ops_of gs1) <= k < length (ops_of gs1) + length (g_ops g))%nat ->
  op_idx_in_batch_to_group (layout gs) k = Some (Some (width gs1, (k - length (ops_of gs1))%nat)).
Proof.
  intros Hgs Hk. pose proof (bw_width gs Hwf) as Hw. unfold op_idx_in_batch_to_group. cbn [ob_ops ob_num_groups layout].
  fold (layout gs). pose proof (slot_width gs1 g gs2) as Hw'. pose proof (slot_ops gs1 g gs2) as Ho.
  rewrite <- Hgs in *.
  rewrite (proj2 (Nat.leb_gt _ _)) by (rewrite Ho, !length_app; lia).
  destruct (slice_Some 1 (width gs + 1) (ob_indptr (layout gs))) as (ends & -> & Hlen & Hends).
  { rewrite length_indptr by done. slot_lia. }
  cbn [mbind option_bind].
  rewrite (partition_point_spec _ ends (width gs1)).
  - pose proof (slot_start gs1 g gs2) as Hs. rewrite <- Hgs in Hs. rewrite Hs. cbn [mbind option_bind].
    by rewrite checked_sub_Some by lia.
  - intros i x Hx Hi. rewrite Hends, decide_True in Hx by lia.
    destruct (ends_before gs1 g gs2 k i Hgs) as (e & He & Hle); [lia|done|].
    rewrite Nat.add_comm in He. rewrite He in Hx. simplify_eq. by apply Nat.leb_le.
  - exists (length (ops_of gs1) + length (g_ops g))%nat. rewrite Hends, decide_True by lia.
    pose proof (slot_next gs1 g gs2 0) as Hn. rewrite <- Hgs, Nat.add_0_r in Hn.
    rewrite Nat.add_comm, Hn by (done || lia). split; [done|]. apply Nat.leb_gt. lia.
Qed.

Lemma advance_run fuel k grp w stop : (grp <= w < width gs)%nat -> (w - grp < fuel)%nat ->
  (forall i, (grp <= i < w)%nat -> exists e, ob_indptr (layout gs) !! (i + 1)%nat = Some e /\ (e <= k)%nat) ->
  ob_indptr (layout gs) !! (w + 1)%nat = Some stop -> (k < stop)%nat ->
  advance_group fuel (layout gs) k grp = Some w.
Proof.
  revert grp. induction fuel as [|fuel IH]; intros grp Hg Hf Hb Hs Hk; [lia|]. cbn [advance_group ob_num_groups layout].
  fold (layout gs). destruct (decide (grp = w)) as [->|Hne].
  - destruct (Nat.ltb_spec (w + 1) (width gs)); [|done]. rewrite Hs. cbn [mbind option_bind].
    by rewrite (proj2 (Nat.leb_gt _ _)).
  - rewrite (proj2 (Nat.ltb_lt _ _)) by lia. destruct (Hb grp) as (e & -> & He); [lia|]. cbn [mbind option_bind].
    rewrite (proj2 (Nat.leb_le _ _)) by done. apply IH; [lia|lia| |done|done]. intros i Hi. apply Hb. lia.
Qed.

(** The incremental iterator returns what the binary search finds. *)
Lemma iterate_layout fuel k grp : (length (ops_of gs) - k < fuel)%nat -> (k <= length (ops_of gs))%nat ->
  (forall gs1 g gs2, gs = gs1 ++ g :: gs2 ->
     (length (ops_of gs1) <= k < length (ops_of gs1) + length (g_ops g))%nat -> (grp <= width gs1)%nat) ->
  exists l, iterate fuel (layout gs) (mkOpBatchIterator k grp) = Some l /\
    length l = (length (ops_of gs) - k)%nat /\
    forall i g_idx o_idx op, l !! i = Some (g_idx, o_idx, op) <->
      op_idx_in_batch_to_group (layout gs) (k + i) = Some (Some (g_idx, o_idx)) /\
      ops_of gs !! (k + i)%nat = Some op.
Proof.
  revert k grp. induction fuel as [|fuel IH]; intros k grp Hf Hk Hgrp; [lia|]. cbn [iterate].
  unfold iterator_next. cbn [it_current_op_idx it_grp_idx ob_ops ob_num_groups layout]. fold (layout gs).
  destruct (ops_of gs !! k) as [op|] eqn:Hop.
  2: { apply lookup_ge_None in Hop. exists []. cbn. split; [done|]. split; [lia|]. intros i g_idx o_idx op. split; [done|].
       intros [_ Ho%lookup_lt_Some]. lia. }
  pose proof (lookup_lt_Some _ _ _ Hop) as Hlt.
  destruct (op_position gs k Hlt) as (gs1 & g & gs2 & Hgs & Hpos).
  pose proof (slot_next gs1 g gs2 0) as Hn. pose proof (slot_start gs1 g gs2) as Hs.
  pose proof (slot_width gs1 g gs2) as Hw. pose proof (bw_width gs Hwf) as Hbw.
  rewrite <- Hgs, Nat.add_0_r in *.
  rewrite (advance_run (S (width gs)) k grp (width gs1) (length (ops_of gs1) + length (g_ops g))).
  2: { split; [by eapply Hgrp|lia]. }
  2: lia.
  2: { intros i Hi. eapply ends_before; [done|lia|lia]. }
  2: { apply Hn; [done|lia]. }
  2: lia.
  cbn [mbind option_bind]. rewrite Hs. cbn [mbind option_bind]. rewrite checked_sub_Some by lia. cbn [mbind option_bind].
  destruct (IH (k + 1)%nat (width gs1)) as (l & -> & Hlen & Hl); [lia|lia| |].
  { intros a h b Hab Hpos'. destruct (decide (width gs1 <= width a)%nat) as [|Hlt']; [done|exfalso].
    destruct (ends_before gs1 g gs2 k (width a + num_imms h) Hgs) as (e & He & Hle); [lia| |].
    { pose proof (split_before gs1 a g h gs2 b). rewrite <- Hgs in *. intuition lia. }
    pose proof (slot_next a h b (num_imms h)) as Hn'. rewrite <- Hab in Hn'. rewrite Hn' in He by (done || lia).
    simplify_eq. lia. }
  cbn [mbind option_bind]. eexists. split; [done|]. split; [cbn; lia|]. intros [|i] g_idx o_idx op'.
  - rewrite Nat.add_0_r, (to_group_layout gs1 g gs2 k Hgs Hpos). cbn. rewrite Hop. naive_solver.
  - cbn [lookup list_lookup]. change (list_lookup i l) with (l !! i). rewrite Hl.
    by replace (k + S i)%nat with (k + 1 + i)%nat by lia.
Qed.

End Iterate.

(** ** Theorems *)

Lemma num_op_groups_layouts gss : block_wf gss -> gss <> [] ->
  num_op_groups (layout <$> gss) = Some (sum_list (width <$> gss)).
Proof.
  intros [Hall Hfull] Hne. unfold num_op_groups. rewrite fmap_last.
  destruct gss as [|gs gss _] using rev_ind; [done|]. rewrite last_snoc. cbn [fmap option_fmap option_map mbind option_bind].
  cbn [ob_num_groups layout]. f_equal. rewrite length_fmap, length_app, fmap_app, sum_list_with_app. cbn.
  apply Forall_app in Hall as [_ Hgs]. apply Forall_singleton in Hgs as (_ & _ & Hw & Hp).
  assert (next_power_of_two (width gs) = width gs) as ->.
  { revert Hw Hp. unfold BATCH_SIZE. generalize (width gs). intros n Hn. do 9 (destruct n as [|n]; [done|]). lia. }
  assert (Hsum : sum_list (width <$> gss) = (length gss * BATCH_SIZE)%nat).
  { assert (Hf : Forall (fun g => width g = BATCH_SIZE) gss).
    { apply Forall_lookup. intros i g Hi. apply (Hfull i); [by apply lookup_app_l_Some|].
      apply lookup_lt_Some in Hi. rewrite length_app. cbn. lia. }
    clear -Hf. induction Hf as [|g gss Hg _ IH]; [done|]. cbn in *. rewrite IH, Hg. unfold BATCH_SIZE. lia. }
  unfold sum_list in *. rewrite Hsum. unfold BATCH_SIZE. lia.
Qed.

(** Within every batch of [batch_ops], the incremental iterator
    [iter_with_groups] yields every operation in order, at the group and
    position that the binary search of [op_idx_in_batch_to_group] computes. *)
Lemma group_iteration_agrees (ops : list Operation) batches : batch_ops ops = Some batches ->
    Forall (fun b => exists items, iter_with_groups b = Some items /\
      items.*2 = ob_ops b /\
      forall i, op_idx_in_batch_to_group b i = Some (fst <$> items !! i)) batches.
Proof.
  destruct (batch_ops_layout ops) as (gss & -> & Hwf & _). intros <-%(inj Some).
  apply Forall_fmap. eapply Forall_impl; [done|]. intros gs Hgs. cbn.
  destruct (iterate_layout gs Hgs (S (length (ops_of gs))) 0 0) as (l & Hl & Hlen & Hspec); [lia|lia|lia|].
  exists l. split; [done|]. cbn [ob_ops layout]. cbn [Nat.add] in Hspec. split.
  - apply list_eq. intros i. rewrite list_lookup_fmap. destruct (l !! i) as [[[a b] op]|] eqn:E; cbn.
    + by apply Hspec in E as [_ ->].
    + symmetry. apply lookup_ge_None. apply lookup_ge_None in E. lia.
  - intros i. destruct (l !! i) as [[[a b] op]|] eqn:E; cbn.
    + by apply Hspec in E as [-> _].
    + unfold op_idx_in_batch_to_group. cbn [ob_ops layout]. apply lookup_ge_None in E.
      by rewrite (proj2 (Nat.leb_le _ _)) by lia.
Qed.

(** Translating raw operation indices of a block (or its end) to padded
    ones leads to the same operations among the padded ones, and translating
    back returns the raw indices. *)
Lemma asm_op_indices_roundtrip (ops : list Operation) batches (idx : list nat) : batch_ops ops = Some batches ->
  Forall (fun i => i <= length ops)%nat idx ->
  exists padded,
    adjust_asm_op_indices idx batches = Ok padded /\
    unadjust_asm_op_indices padded batches = Ok idx /\
    Forall2 (fun r p => (batches ≫= ob_ops) !! p = ops !! r) idx padded.
Proof.
  destruct (batch_ops_layout ops) as (gss & -> & Hwf & _ & Hraw & _). intros <-%(inj Some) Hidx.
  assert (Hg : Forall group_wf (mjoin gss)).
  { clear -Hwf. induction Hwf as [|gs gss [Hgs _] _ IH]; [constructor|]. cbn. by apply Forall_app. }
  assert (Hr : raws (mjoin gss) = ops) by (rewrite <- Hraw; clear; induction gss as [|gs gss IH]; [done|];
    cbn; rewrite raws_app; f_equal; exact IH).
  assert (Ho : (layout <$> gss) ≫= ob_ops = ops_of (mjoin gss)).
  { clear. induction gss as [|gs gss IH]; [done|]. cbn. rewrite ops_of_app. f_equal. exact IH. }
  unfold adjust_asm_op_indices, unadjust_asm_op_indices.
  rewrite raw_to_padded_layouts, padded_to_raw_layouts by done. cbn [rbind]. rewrite Ho.
  assert (Hone : exists padded,
    Forall2 (fun r p => exists k, raw_table 0 (mjoin gss) !! r = Some k /\ p = (r + k)%nat /\
      pad_table 0 (mjoin gss) !! p = Some k /\ ops_of (mjoin gss) !! p = ops !! r) idx padded).
  { induction Hidx as [|r idx Hlt _ (padded & IH)]; [by exists []|].
    destruct (tables_inverse (mjoin gss) 0 r Hg) as (k & H1 & H2 & H3); [by rewrite Hr|].
    exists ((r + k)%nat :: padded). constructor; [|done]. exists k. by rewrite H3, Hr. }
  destruct Hone as (padded & Hp). exists padded.
  split; [|split]; [| |by eapply Forall2_impl; [done|]; intros r p (k & _ & _ & _ & ?)].
  - rewrite (mapM_Some_2 _ _ padded); [done|]. eapply Forall2_impl; [done|].
    intros r p (k & -> & -> & _). done.
  - rewrite (mapM_Some_2 _ _ idx); [done|]. apply Forall2_flip. eapply Forall2_impl; [done|].
    intros r p (k & _ & -> & -> & _). cbn. rewrite checked_sub_Some by lia. f_equal. lia.
Qed.

(** C24: [batch_ops] groups any sequence of operations into batches without a
    panic.  The batches pass [validate_batch_invariants] and the debug
    assertions of every batch, there is none exactly for the empty sequence,
    their raw operations, without the padding, are the sequence, and
    [num_op_groups] is the number of groups they hold.  Within every batch the
    incremental iterator [iter_with_groups] yields every operation in order, at
    the group and position that the binary search of [op_idx_in_batch_to_group]
    computes.  Translating raw operation indices (or the end) to padded ones
    leads to the same operations, and translating back returns the raw ones. *)
Theorem batch_ops_correct (ops : list Operation) :
  exists batches, batch_ops ops = Some batches /\
    (ops = [] <-> batches = []) /\
    validate_batch_invariants batches = Ok tt /\
    Forall (fun b => validate_invariants b = Some true) batches /\
    raw_operations batches = Some ops /\
    (batches = [] \/ num_op_groups batches = Some (sum_list (ob_num_groups <$> batches))) /\
    Forall (fun b => exists items, iter_with_groups b = Some items /\ items.*2 = ob_ops b /\
      forall i, op_idx_in_batch_to_group b i = Some (fst <$> items !! i)) batches /\
    forall idx, Forall (fun i => i <= length ops)%nat idx ->
      exists padded, adjust_asm_op_indices idx batches = Ok padded /\ unadjust_asm_op_indices padded batches = Ok idx /\
        Forall2 (fun r p => (batches ≫= ob_ops) !! p = ops !! r) idx padded.
Proof.
  pose proof (group_iteration_agrees ops) as Hit. pose proof (asm_op_indices_roundtrip ops) as Hidx.
  destruct (batch_ops_layout ops) as (gss & Hb & Hwf & Hfull & Hraw & Hne). exists (layout <$> gss).
  split; [done|]. split; [rewrite Hne; split; [by intros ->|apply fmap_nil_inv]|].
  split; [by apply validate_layouts|]. split.
  { apply Forall_fmap. eapply Forall_impl; [done|]. intros gs Hgs. by apply invariants_ok. }
  split; [rewrite <- Hraw; by apply raw_operations_layouts|]. split.
  { destruct gss as [|gs gss]; [by left|right]. rewrite num_op_groups_layouts by done. by rewrite <- list_fmap_compose. }
  split; [by apply Hit|]. intros idx. by apply Hidx.
Qed.
