(* ===== verification/BlockSerde.v ===== *)
(** * The wire format of basic blocks

    core/src/mast/serialization/basic_blocks.rs: the operations of a block, the
    number of its batches, four bytes of packed group sizes for each batch and
    one byte of padding flags for each batch.  The decoder reconstructs the
    groups of every batch from these.

    [None] in the encoder is a panic (an index out of bounds or a negative
    [usize]). *)

From S2P Require Import Prelude Felt Serde Operations OpSerde OpBatch Mast BatchValid.

Definition wrap8 (x : Z) : Z := x mod 2 ^ 8.

(** ** Encoding *)

Definition basic_block_data_len (basic_block : BasicBlockNode) : Z :=
  let '(op_count, ops_size) :=
    foldl (fun '(op_count, ops_size) op => (op_count + 1, ops_size + encoded_size op)) (0, 0)
      (operations basic_block) in
  get_size_hint (mkUsize op_count) + ops_size + 4 + 5 * Z.of_nat (num_op_batches basic_block).

Definition pack_delta (indptr : list nat) (packed : option (list Z)) (i : nat) : option (list Z) :=
  packed ← packed;
  next ← indptr !! (i + 1)%nat;
  cur ← indptr !! i;
  delta ← checked_sub next cur;
  let byte_idx := (i / 2)%nat in
  let nibble_shift := Z.of_nat (i mod 2) * 4 in
  b ← packed !! byte_idx;
  update byte_idx (Z.lor b (wrap8 (Z.shiftl (wrap8 (Z.of_nat delta)) nibble_shift))) packed.

Definition pack_indptr_deltas (indptr : list nat) : option (list Z) :=
  foldl (pack_delta indptr) (Some (replicate 4 0)) (seq 0 8).

Definition pack_padding (padding : list bool) : Z :=
  foldl (fun packed '(i, is_padded) =>
           if is_padded : bool then Z.lor packed (Z.shiftl 1 (Z.of_nat i)) else packed)
    0 (take 8 (enumerate padding)).

(** The bytes [encode_basic_block] appends; the offset it returns is the length
    of the data before them. *)
Definition encode_basic_block (basic_block : BasicBlockNode) : option (list Z) :=
  let op_batches := op_batches basic_block in
  indptrs ← mapM (fun batch => pack_indptr_deltas (ob_indptr batch)) op_batches;
  Some (write_into (operations basic_block)
        ++ write_u32 (Z.of_nat (length op_batches) mod 2 ^ 32)
        ++ mjoin indptrs
        ++ (op_batches ≫= fun batch => write_u8 (pack_padding (ob_padding batch)))).

(** ** Decoding *)

Definition unpack_delta (packed : list Z) (indptr : list nat) (i : nat) : DR (list nat) :=
  let? b := rexpect (packed !! (i / 2)%nat) in
  let delta := Z.to_nat (Z.land (Z.shiftr b (Z.of_nat (i mod 2) * 4)) 15) in
  if (GROUP_SIZE <? delta)%nat then Err (InvalidValue "indptr delta exceeds maximum")
  else
    let? cur := rexpect (indptr !! i) in
    rexpect (update (i + 1) (cur + delta)%nat indptr).

Definition unpack_indptr_deltas (packed : list Z) : DR (list nat) :=
  rfold (unpack_delta packed) (replicate 9 0%nat) (seq 0 8).

Definition unpack_padding (packed : Z) : list bool :=
  (fun i => negb (Z.land packed (Z.shiftl 1 (Z.of_nat i)) =? 0)) <$> seq 0 8.

Definition INDPTR_BYTES_PER_BATCH : Z := 4.
Definition PADDING_BYTES_PER_BATCH : Z := 1.
Definition BATCH_METADATA_BYTES_PER_BATCH : Z := INDPTR_BYTES_PER_BATCH + PADDING_BYTES_PER_BATCH.

(** [read::<[u8; 4]>]. *)
Definition read_bytes4 {R} `{ByteReader R} : DM R (list Z) :=
  let! l := read_many (T := u8) 4 in ret (u8_val <$> l).

Definition read_indptr {R} `{ByteReader R} : DM R (list nat) :=
  let! packed := read_bytes4 in lift_res (unpack_indptr_deltas packed).
Definition read_padding {R} `{ByteReader R} : DM R (list bool) :=
  let! packed := read_u8 in ret (unpack_padding packed).

Fixpoint read_times {R A} (n : nat) (m : DM R A) : DM R (list A) :=
  match n with
  | O => ret []
  | S n => let! x := m in let! l := read_times n m in ret (x :: l)
  end.

(** The operations, and the indptr array and padding flags of each batch. *)
Definition read_block_parts {R} `{ByteReader R} : DM R (list Operation * list (list nat * list bool)) :=
  let! operations := read_from (T := list Operation) in
  let! num_batches := read_u32 in
  let! max_batches := gets (fun r => max_alloc r BATCH_METADATA_BYTES_PER_BATCH) in
  if max_batches <? num_batches
  then fail (InvalidValue "batch count exceeds remaining data capacity")
  else
    let! batch_indptrs := read_times (Z.to_nat num_batches) read_indptr in
    let! batch_padding := read_times (Z.to_nat num_batches) read_padding in
    ret (operations, zip batch_indptrs batch_padding).

(** The largest index from [i] down to 1 whose preceding group is not empty, or 1. *)
Fixpoint find_op_group (indptr : list nat) (i : nat) : option nat :=
  match i with
  | O => Some 1%nat
  | S prev =>
      hi ← indptr !! i;
      lo ← indptr !! prev;
      if (lo <? hi)%nat then Some i else find_op_group indptr prev
  end.
Definition highest_op_group (indptr : list nat) : option nat := find_op_group indptr 8.

Definition decode_group (batch_ops : list Operation) (indptr : list nat)
    (st : list Felt * nat) (array_idx : nat) : DR (list Felt * nat) :=
  let '(groups, next_group_idx) := st in
  let? start := rexpect (indptr !! array_idx) in
  let? stop := rexpect (indptr !! (array_idx + 1)%nat) in
  if (start <? stop)%nat then
    let? group_ops := rexpect (slice start stop batch_ops) in
    let? groups := rexpect (update array_idx (new_unchecked (group_value group_ops)) groups) in
    let? (placements, next_group_idx_after) :=
      map_err (fun _ => InvalidValue "invalid immediate placement")
        (collect_immediate_placements batch_ops indptr array_idx BATCH_SIZE None) in
    let? groups := rfold (fun groups '(imm_group_idx, imm_value) =>
        rexpect (update imm_group_idx imm_value groups)) groups placements in
    Ok (groups, next_group_idx_after)
  else Ok (groups, next_group_idx).

Definition decode_batch (operations : list Operation) (st : list OpBatch * nat)
    (meta : list nat * list bool) : DR (list OpBatch * nat) :=
  let '(op_batches, global_op_offset) := st in
  let '(indptr, padding) := meta in
  let? highest_op_group := rexpect (highest_op_group indptr) in
  let? batch_num_ops := rexpect (indptr !! highest_op_group) in
  let batch_ops_end := (global_op_offset + batch_num_ops)%nat in
  if (length operations <? batch_ops_end)%nat
  then Err (InvalidValue "batch_op_end exceeds operations length")
  else
    let? batch_ops := rexpect (slice global_op_offset batch_ops_end operations) in
    let? (groups, num_groups) :=
      rfold (decode_group batch_ops indptr) (replicate 8 ZERO, 0%nat) (seq 0 highest_op_group) in
    let op_batch := mkOpBatch batch_ops indptr padding groups num_groups in
    do? map_err (fun _ => InvalidValue "invalid padding") (batch_padding_semantics op_batch);
    Ok (op_batches ++ [op_batch], batch_ops_end).

Definition build_op_batches (operations : list Operation) (metas : list (list nat * list bool)) :
    DR (list OpBatch) :=
  let? (op_batches, global_op_offset) := rfold (decode_batch operations) ([], 0%nat) metas in
  if negb (global_op_offset =? length operations)%nat
  then Err (InvalidValue "batch metadata does not cover the operations")
  else Ok op_batches.

Definition decode_operations (node_data : list Z) (ops_offset : Z) : DR (list OpBatch) :=
  if Z.of_nat (length node_data) <? ops_offset
  then Err (InvalidValue "ops_offset exceeds basic_block_data length")
  else
    let remaining_bytes := Z.of_nat (length node_data) - ops_offset in
    let reader := mkBudgetedReader (slice_reader_new (drop (Z.to_nat ops_offset) node_data))
                    remaining_bytes in
    let? (operations, metas) := fst (read_block_parts reader) in
    build_op_batches operations metas.
