(* ===== verification/BlockTheory.v ===== *)
(** * Basic blocks survive their wire format, and reading them is safe

    Decoding the encoding of batches that are layouts of groups returns the
    batches, and the size the serializer accounts for a block is the number of
    bytes it writes. *)

From S2P Require Import Prelude Felt Serde SerdeTheory Operations OpSerde SerdeSafe OpBatch Mast.
From S2P Require Import BatchValid BatchTheory BatchCorrect BlockSerde.

(** ** Packing *)

Definition nibbles (a b : nat) : Z :=
  Z.lor (Z.lor 0 (wrap8 (Z.shiftl (wrap8 (Z.of_nat a)) (Z.of_nat 0 * 4))))
    (wrap8 (Z.shiftl (wrap8 (Z.of_nat b)) (Z.of_nat 1 * 4))).

Lemma nibbles_spec a b : (a <= GROUP_SIZE)%nat -> (b <= GROUP_SIZE)%nat ->
  is_u8 (nibbles a b) /\ Z.to_nat (Z.land (Z.shiftr (nibbles a b) (Z.of_nat 0 * 4)) 15) = a /\
  Z.to_nat (Z.land (Z.shiftr (nibbles a b) (Z.of_nat 1 * 4)) 15) = b.
Proof.
  unfold GROUP_SIZE, is_u8. intros Ha Hb.
  do 10 (destruct a as [|a]; [do 10 (destruct b as [|b]; [vm_compute; intuition congruence|]); lia|]). lia.
Qed.

Lemma checked_sub_add a b : checked_sub (a + b) a = Some b.
Proof. rewrite checked_sub_Some by lia. f_equal. lia. Qed.

(** An indptr array by the sizes of its groups. *)
Fixpoint sums (acc : nat) (ds : list nat) : list nat :=
  acc :: match ds with [] => [] | d :: ds => sums (acc + d) ds end.

Lemma sums_deltas n l acc : length l = S n -> l !! 0%nat = Some acc ->
  (forall i, (i < n)%nat -> exists x y, l !! i = Some x /\ l !! (i + 1)%nat = Some y /\
     (x <= y)%nat /\ (y - x <= GROUP_SIZE)%nat) ->
  exists ds, l = sums acc ds /\ length ds = n /\ Forall (fun d => d <= GROUP_SIZE)%nat ds.
Proof.
  revert l acc. induction n as [|n IH]; intros [|x l] acc Hl H0 Hs; simplify_eq/=.
  { apply nil_length_inv in Hl as ->. exists []. done. }
  destruct (Hs 0%nat) as (x & y & Hx & Hy & Hle & Hd); [lia|]. cbn in Hx. simplify_eq.
  destruct (IH l y) as (ds & -> & Hds & Hf); [done|done| |].
  { intros i Hi. apply (Hs (S i)). lia. }
  exists ((y - x)%nat :: ds). cbn [sums length]. split; [|split; [lia|by constructor]].
  do 2 f_equal. lia.
Qed.

Lemma pack_step indptr packed i x d b : indptr !! (i + 1)%nat = Some (x + d)%nat -> indptr !! i = Some x ->
  packed !! (i / 2)%nat = Some b ->
  pack_delta indptr (Some packed) i =
  Some (<[(i / 2)%nat := Z.lor b (wrap8 (Z.shiftl (wrap8 (Z.of_nat d)) (Z.of_nat (i mod 2) * 4)))]> packed).
Proof.
  intros H1 H2 H3. unfold pack_delta. cbn [mbind option_bind]. rewrite H1, H2. cbn [mbind option_bind].
  rewrite checked_sub_add. cbn [mbind option_bind]. rewrite H3. cbn [mbind option_bind].
  apply update_Some. by eapply lookup_lt_Some.
Qed.

Lemma unpack_step packed indptr i x d b : (i + 1 < length indptr)%nat -> indptr !! i = Some x ->
  packed !! (i / 2)%nat = Some b -> Z.to_nat (Z.land (Z.shiftr b (Z.of_nat (i mod 2) * 4)) 15) = d ->
  (d <= GROUP_SIZE)%nat ->
  unpack_delta packed indptr i = Ok (<[(i + 1)%nat := (x + d)%nat]> indptr).
Proof.
  intros H1 H2 H3 H4 H5. unfold unpack_delta. rewrite H3. cbn [rexpect rbind]. rewrite H4, H2.
  rewrite (proj2 (Nat.ltb_ge _ _)) by done. cbn [rexpect rbind]. by rewrite update_Some by done.
Qed.

Lemma pack_indptr_sums ds : length ds = 8%nat -> Forall (fun d => d <= GROUP_SIZE)%nat ds ->
  exists packed, pack_indptr_deltas (sums 0 ds) = Some packed /\ length packed = 4%nat /\
    Forall is_u8 packed /\ unpack_indptr_deltas packed = Ok (sums 0 ds).
Proof.
  intros Hl Hf. do 8 (destruct ds as [|? ds]; [done|]). destruct ds; [|done].
  repeat match goal with H : Forall _ (_ :: _) |- _ => apply Forall_cons in H as [? H] end.
  match goal with |- context [sums 0 [?a; ?b; ?c; ?d; ?e; ?f; ?g; ?h]] =>
    exists [nibbles a b; nibbles c d; nibbles e f; nibbles g h];
    destruct (nibbles_spec a b) as (?&?&?); [done|done|]; destruct (nibbles_spec c d) as (?&?&?); [done|done|];
    destruct (nibbles_spec e f) as (?&?&?); [done|done|]; destruct (nibbles_spec g h) as (?&?&?); [done|done|]
  end.
  split; [|split; [done|split; [by do 4 (constructor; [done|])|]]].
  - unfold pack_indptr_deltas. cbn [seq foldl sums].
    erewrite (pack_step _ _ 0), (pack_step _ _ 1), (pack_step _ _ 2), (pack_step _ _ 3), (pack_step _ _ 4),
      (pack_step _ _ 5), (pack_step _ _ 6), (pack_step _ _ 7) by reflexivity. done.
  - unfold unpack_indptr_deltas. cbn [seq rfold sums].
    do 8 (erewrite unpack_step; [cbn [rbind]|cbn; lia|reflexivity|reflexivity|eassumption|done]). done.
Qed.

Lemma unpack_pack_padding l : length l = 8%nat ->
  is_u8 (pack_padding l) /\ unpack_padding (pack_padding l) = l.
Proof.
  intros Hl. do 8 (destruct l as [|[] l]; [done| |]); (destruct l; [|done]); vm_compute; intuition congruence.
Qed.

(** ** One batch *)

Lemma find_op_group_spec indptr h n : (h <= n)%nat ->
  (forall j, (h < j <= n)%nat -> exists x, indptr !! j = Some x /\ indptr !! (j - 1)%nat = Some x) ->
  (exists x y, indptr !! (h - 1)%nat = Some x /\ indptr !! h = Some y /\ (x < y)%nat) -> (1 <= h)%nat ->
  find_op_group indptr n = Some h.
Proof.
  intros Hh. induction Hh as [|n Hh IH]; intros Hj Hx H1.
  - destruct Hx as (x & y & Hx & Hy & Hlt). destruct h as [|h]; [lia|]. cbn [find_op_group].
    replace (S h - 1)%nat with h in Hx by lia. rewrite Hx, Hy. cbn [mbind option_bind].
    by rewrite (proj2 (Nat.ltb_lt _ _)).
  - destruct (Hj (S n)) as (x & E1 & E2); [lia|]. cbn [find_op_group]. replace (S n - 1)%nat with n in E2 by lia.
    rewrite E1, E2. cbn [mbind option_bind]. rewrite Nat.ltb_irrefl. apply IH; [|done|done].
    intros j Hr. apply Hj. lia.
Qed.

Lemma update_placements l1 (l : list Felt) l2 l3 : length l2 = length l ->
  rfold (fun groups '(imm_group_idx, imm_value) => rexpect (update imm_group_idx imm_value groups))
    (l1 ++ l2 ++ l3) (imm_placements (length l1) l) = @Ok DeserializationError _ (l1 ++ l ++ l3).
Proof.
  revert l1 l2. induction l as [|x l IH]; intros l1 [|y l2] Hl; try done. unfold imm_placements.
  cbn [length seq zip zip_with rfold app]. rewrite update_app. cbn [rexpect rbind].
  specialize (IH (l1 ++ [x]) l2 ltac:(cbn in Hl; lia)). rewrite <- !app_assoc, length_app, Nat.add_1_r in IH.
  apply IH.
Qed.

Section Layout.
Context (gs : list group) (Hwf : batch_wf gs).

Lemma layout_last : exists gs1 g, gs = gs1 ++ [g].
Proof. destruct Hwf as (_ & Hne & _). destruct (exists_last Hne) as (gs1 & g & ->). eauto. Qed.

Lemma highest_layout gs1 g : gs = gs1 ++ [g] -> highest_op_group (ob_indptr (layout gs)) = Some (width gs1 + 1)%nat.
Proof.
  intros Hgs. pose proof (bw_width gs Hwf) as Hw. pose proof (bw_group gs Hwf gs1 g [] Hgs) as [Hg _].
  pose proof (slot_start gs1 g []) as H0. pose proof (slot_next gs1 g [] ) as Hn. pose proof (slot_width gs1 g []) as Hww.
  pose proof (slot_imm gs1 g []) as Hi. pose proof (slot_ops gs1 g []) as Ho. rewrite <- Hgs in *. cbn in Hww.
  assert (Hlen : (length (ops_of gs1) + length (g_ops g))%nat = length (ops_of gs))
    by (rewrite Ho, !length_app; cbn; lia).
  apply find_op_group_spec; [slot_lia| |do 2 eexists; split; [|split]|lia].
  - intros j Hj. exists (length (ops_of gs)).
    assert (Hall : forall k, (width gs1 < k <= BATCH_SIZE)%nat -> ob_indptr (layout gs) !! k = Some (length (ops_of gs))).
    { intros k Hk. destruct (decide (width gs <= k)%nat); [apply indptr_tail; lia|].
      replace k with (width gs1 + (k - width gs1))%nat by lia. rewrite Hi by lia. by rewrite Hlen. }
    split; apply Hall; slot_lia.
  - rewrite Nat.add_sub. exact H0.
  - rewrite <- (Nat.add_0_r (width gs1)) at 1. apply Hn; lia.
  - lia.
Qed.

Lemma decode_group_layout gs1 g gs2 n : gs = gs1 ++ g :: gs2 ->
  decode_group (ops_of gs) (ob_indptr (layout gs))
    (codes gs1 ++ replicate (BATCH_SIZE - width gs1) ZERO, n) (width gs1) =
  Ok (codes (gs1 ++ [g]) ++ replicate (BATCH_SIZE - width (gs1 ++ [g])) ZERO, width (gs1 ++ [g])).
Proof.
  intros Hgs. pose proof (bw_width gs Hwf) as Hw. pose proof (bw_group gs Hwf gs1 g gs2 Hgs) as [Hg _].
  pose proof (slot_start gs1 g gs2) as H0. pose proof (slot_next gs1 g gs2) as Hn. pose proof (slot_width gs1 g gs2) as Hww.
  pose proof (slot_imm gs1 g gs2) as Hi. pose proof (slot_slice_all gs1 g gs2) as Hs. rewrite <- Hgs in *.
  assert (H1 : ob_indptr (layout gs) !! (width gs1 + 1)%nat = Some (length (ops_of gs1) + length (g_ops g))%nat).
  { rewrite <- (Nat.add_0_r (width gs1)) at 1. apply Hn; lia. }
  unfold decode_group. rewrite H0, H1. cbn [rexpect rbind]. rewrite (proj2 (Nat.ltb_lt _ _)) by lia.
  rewrite Hs. cbn [rexpect rbind].
  destruct (BATCH_SIZE - width gs1)%nat as [|k] eqn:Ek; [lia|]. cbn [replicate].
  rewrite <- (length_codes gs1) at 1. rewrite update_app. cbn [rexpect rbind].
  unfold collect_immediate_placements. rewrite H0, H1. cbn [rexpect rbind]. rewrite Hs. cbn [rexpect rbind].
  rewrite place_run.
  2: { intros i Hr. change (length (imms (g_ops g))) with (num_imms g) in Hr. split; [lia|]. split; [done|].
       exists (length (ops_of gs1) + length (g_ops g))%nat.
       replace i with (width gs1 + (i - width gs1))%nat by lia. split; [apply Hi; lia|apply Hn; lia]. }
  cbn [map_err rbind app]. rewrite width_app, width_cons. unfold num_imms in *.
  replace k with (length (imms (g_ops g)) + (BATCH_SIZE - (width gs1 + (S (length (imms (g_ops g))) + width []))))%nat
    by (change (width []) with 0%nat; lia).
  rewrite replicate_add. rewrite <- (length_codes gs1), Nat.add_1_r.
  assert (E : forall x : Felt, S (length (codes gs1)) = length (codes gs1 ++ [x])) by (intros; rewrite length_app; cbn; lia).
  erewrite (E _). rewrite cons_middle, app_assoc. rewrite update_placements by (by rewrite length_replicate).
  cbn [rbind]. do 2 f_equal.
  - rewrite codes_app.
    assert (codes [g] = new_unchecked (group_value (g_ops g)) :: imms (g_ops g)) as ->
      by (unfold codes; cbn; by rewrite app_nil_r).
    by rewrite <- !app_assoc.
  - rewrite length_app. cbn [length]. change (width []) with 0%nat. lia.
Qed.

(** The slots of immediate values are skipped. *)
Lemma decode_imm_slots gs1 g gs2 st n k : gs = gs1 ++ g :: gs2 -> (0 < k)%nat -> (k + n <= S (num_imms g))%nat ->
  rfold (decode_group (ops_of gs) (ob_indptr (layout gs))) st (seq (width gs1 + k) n) = Ok st.
Proof.
  intros Hgs. pose proof (bw_width gs Hwf) as Hw.
  pose proof (slot_next gs1 g gs2) as Hn. pose proof (slot_imm gs1 g gs2) as Hi. rewrite <- Hgs in *.
  revert k. induction n as [|n IH]; intros k Hk Hr; [done|]. cbn [seq rfold].
  unfold decode_group at 1. destruct st as [groups next]. rewrite Hi, Hn by lia. cbn [rexpect rbind].
  rewrite Nat.ltb_irrefl. cbn [rbind]. rewrite <- Nat.add_succ_r. apply IH; lia.
Qed.

Lemma decode_groups_layout gs1 gs2 : gs = gs1 ++ gs2 ->
  rfold (decode_group (ops_of gs) (ob_indptr (layout gs))) (replicate 8 ZERO, 0%nat) (seq 0 (width gs1)) =
  Ok (codes gs1 ++ replicate (BATCH_SIZE - width gs1) ZERO, width gs1).
Proof.
  revert gs2. induction gs1 as [|g gs1 IH] using rev_ind; intros gs2 Hgs; [done|].
  assert (Hgs' : gs = gs1 ++ g :: gs2) by (by rewrite Hgs, <- app_assoc).
  rewrite width_app, width_cons, seq_app, rfold_app, (IH (g :: gs2)) by done. cbn [rbind Nat.add seq rfold].
  rewrite (decode_group_layout gs1 g gs2) by done. cbn [rbind]. change (width []) with 0%nat. rewrite Nat.add_0_r.
  rewrite <- (Nat.add_1_r (width gs1)), (decode_imm_slots gs1 g gs2) by (done || lia).
  by rewrite width_app, width_cons, Nat.add_0_r.
Qed.

Lemma decode_groups_all gs1 g : gs = gs1 ++ [g] ->
  rfold (decode_group (ops_of gs) (ob_indptr (layout gs))) (replicate 8 ZERO, 0%nat) (seq 0 (width gs1 + 1)) =
  Ok (ob_groups (layout gs), width gs).
Proof.
  intros Hgs. rewrite seq_app, rfold_app, (decode_groups_layout gs1 [g]) by done. cbn [rbind Nat.add seq rfold].
  rewrite (decode_group_layout gs1 g []) by done. by rewrite Hgs.
Qed.

Definition meta (b : OpBatch) : list nat * list bool := (ob_indptr b, ob_padding b).

Lemma decode_batch_layout before after bs :
  decode_batch (before ++ ops_of gs ++ after) (bs, length before) (meta (layout gs)) =
  Ok (bs ++ [layout gs], (length before + length (ops_of gs))%nat).
Proof.
  destruct layout_last as (gs1 & g & Hgs). unfold decode_batch, meta. rewrite (highest_layout gs1 g) by done.
  cbn [rexpect rbind]. pose proof (slot_next gs1 g [] 0) as Hn. rewrite <- Hgs, Nat.add_0_r in Hn.
  pose proof (bw_width gs Hwf) as Hw. rewrite Hn by lia. cbn [rexpect rbind].
  assert (Hlen : (length (ops_of gs1) + length (g_ops g))%nat = length (ops_of gs)).
  { rewrite Hgs, (slot_ops gs1 g []), !length_app. cbn. lia. }
  rewrite Hlen, !length_app, (proj2 (Nat.ltb_ge _ _)) by lia.
  assert (slice (length before) (length before + length (ops_of gs)) (before ++ ops_of gs ++ after) = Some (ops_of gs)) as ->.
  { unfold slice. rewrite (proj2 (Nat.leb_le _ (_ + _))), (proj2 (Nat.leb_le _ (length _)))
      by (rewrite ?length_app; lia). cbn [andb]. rewrite drop_app_length.
    replace (_ + _ - _)%nat with (length (ops_of gs)) by lia. by rewrite take_app_length. }
  cbn [rexpect rbind]. rewrite (decode_groups_all gs1 g) by done. cbn [rbind].
  change (mkOpBatch (ops_of gs) _ _ _ _) with (layout gs). rewrite padding_ok by done. done.
Qed.

Lemma layout_packed : exists packed, pack_indptr_deltas (ob_indptr (layout gs)) = Some packed /\
  length packed = 4%nat /\ Forall is_u8 packed /\ unpack_indptr_deltas packed = Ok (ob_indptr (layout gs)).
Proof.
  destruct (sums_deltas 8 (ob_indptr (layout gs)) 0) as (ds & -> & Hl & Hf).
  - by apply length_indptr.
  - destruct Hwf as (_ & Hne & _). by destruct gs.
  - intros i Hi. destruct (indptr_step gs Hwf i) as (x & y & ? & ? & ? & ?); [slot_lia|]. exists x, y. repeat split; try done; lia.
  - by apply pack_indptr_sums.
Qed.

Lemma layout_padding : is_u8 (pack_padding (ob_padding (layout gs))) /\
  unpack_padding (pack_padding (ob_padding (layout gs))) = ob_padding (layout gs).
Proof.
  apply unpack_pack_padding. cbn [layout ob_padding]. rewrite length_app, length_pads, length_replicate.
  pose proof (bw_width gs Hwf). slot_lia.
Qed.

End Layout.

(** ** The batches of a block *)

Lemma decode_batches_layout gss before bs : Forall batch_wf gss ->
  forall after, rfold (decode_batch (before ++ (gss ≫= ops_of) ++ after)) (bs, length before) (meta ∘ layout <$> gss) =
  Ok (bs ++ (layout <$> gss), (length before + length (gss ≫= ops_of))%nat).
Proof.
  intros Hwf. revert before bs. induction Hwf as [|gs gss Hgs _ IH]; intros before bs after.
  { cbn. by rewrite app_nil_r, Nat.add_0_r. }
  cbn [mbind list_bind fmap list_fmap rfold compose]. rewrite <- app_assoc, decode_batch_layout by done. cbn [rbind].
  rewrite <- length_app, app_assoc. rewrite IH, !length_app. rewrite <- app_assoc. cbn [app].
  by rewrite Nat.add_assoc.
Qed.

Lemma build_op_batches_layout gss : Forall batch_wf gss ->
  build_op_batches (gss ≫= ops_of) (meta ∘ layout <$> gss) = Ok (layout <$> gss).
Proof.
  intros Hwf. unfold build_op_batches. pose proof (decode_batches_layout gss [] [] Hwf []) as H.
  cbn [app length] in H. rewrite app_nil_r in H. rewrite H. cbn [rbind app Nat.add]. by rewrite Nat.eqb_refl.
Qed.

(** ** Reading the parts *)

Lemma app_assoc4 {A} (l1 l2 l3 l4 l5 : list A) : (l1 ++ l2 ++ l3 ++ l4) ++ l5 = l1 ++ l2 ++ l3 ++ l4 ++ l5.
Proof. by rewrite <- !app_assoc. Qed.

Lemma read_times_ready {R A B} `{RL : ReaderLaws R} (m : DM R B) (enc : A -> list Z) (dec : A -> B) xs r bs :
  (forall x r bs, x ∈ xs -> ready r (enc x ++ bs) -> m r = (Ok (dec x), advance r (length (enc x)))) ->
  ready r ((xs ≫= enc) ++ bs) ->
  read_times (length xs) m r = (Ok (dec <$> xs), advance r (length (xs ≫= enc))).
Proof.
  revert r. induction xs as [|x xs IH]; intros r Hm Hr.
  { cbn. by rewrite advance_0. }
  cbn [length read_times mbind list_bind fmap list_fmap] in *. rewrite <- app_assoc in Hr.
  erewrite bind_Ok by (apply (Hm x _ ((xs ≫= enc) ++ bs)); [apply list_elem_of_here|done]).
  erewrite bind_Ok.
  2: { apply IH; [|by apply ready_advance]. intros y r' bs' Hy. by apply Hm, list_elem_of_further. }
  unfold ret. by rewrite advance_add, length_app.
Qed.

Lemma read_bytes4_ready {R} `{RL : ReaderLaws R} l r bs : length l = 4%nat -> Forall is_u8 l -> ready r (l ++ bs) ->
  read_bytes4 r = (Ok l, advance r 4).
Proof.
  intros Hl Hu Hr. unfold read_bytes4.
  assert (Hw : write_many (mkU8 <$> l) = l).
  { clear. unfold write_many. induction l as [|x l IH]; [done|]. cbn [fmap list_fmap mbind list_bind]. by rewrite IH. }
  erewrite bind_Ok.
  2: { apply (read_many_ready (mkU8 <$> l) _ bs); [|by rewrite length_fmap, Hl|by rewrite Hw].
       apply Forall_fmap. exact Hu. }
  rewrite Hw, Hl. unfold ret. do 2 f_equal. rewrite <- list_fmap_compose. apply list_fmap_id.
Qed.

Definition packed_indptr (gs : list group) : list Z := default [] (pack_indptr_deltas (ob_indptr (layout gs))).
Definition packed_padding (gs : list group) : list Z := write_u8 (pack_padding (ob_padding (layout gs))).

Lemma length_metadata gss : Forall batch_wf gss -> length (gss ≫= packed_indptr) = (4 * length gss)%nat /\
  length (gss ≫= packed_padding) = length gss.
Proof.
  induction 1 as [|gs gss Hgs _ [IH1 IH2]]; [done|]. cbn [mbind list_bind length]. rewrite !length_app, IH1, IH2.
  unfold packed_indptr. destruct (layout_packed gs Hgs) as (p & -> & Hp & _). cbn in *. lia.
Qed.

Section Block.
Context (gss : list (list group)) (d : Word) (Hwf : Forall batch_wf gss).
Notation block := (mkBasicBlockNode (layout <$> gss) d).

Lemma operations_layout : operations block = gss ≫= ops_of.
Proof. unfold operations. cbn [op_batches]. by rewrite list_fmap_bind. Qed.

Lemma encode_layout : encode_basic_block block =
  Some (write_into (gss ≫= ops_of) ++ write_u32 (Z.of_nat (length gss) mod 2 ^ 32)
        ++ (gss ≫= packed_indptr) ++ (gss ≫= packed_padding)).
Proof.
  unfold encode_basic_block. cbn [op_batches].
  assert (mapM (fun batch => pack_indptr_deltas (ob_indptr batch)) (layout <$> gss) = Some (packed_indptr <$> gss)) as ->.
  { apply mapM_Some. rewrite Forall2_fmap. apply Forall_Forall2_diag. eapply Forall_impl; [exact Hwf|].
    intros gs Hgs. unfold packed_indptr. destruct (layout_packed gs Hgs) as (p & Hp & _).
    rewrite Hp. done. }
  cbn [mbind option_bind]. rewrite operations_layout, length_fmap, list_join_bind, !list_fmap_bind. done.
Qed.

Lemma read_block_parts_ready {R} `{RL : ReaderLaws R} r bs bytes : Z.of_nat (length gss) <= U32_MAX ->
  Z.of_nat (length (gss ≫= ops_of)) <= U64_MAX -> encode_basic_block block = Some bytes -> ready r (bytes ++ bs) ->
  read_block_parts r = (Ok (gss ≫= ops_of, meta ∘ layout <$> gss), advance r (length bytes)).
Proof.
  intros Hn Ho. rewrite encode_layout. intros <-%(inj Some) Hr. unfold read_block_parts. rewrite app_assoc4 in Hr.
  pose proof (length_metadata gss Hwf) as [Hl1 Hl2]. 
  rewrite (Z.mod_small (Z.of_nat (length gss))) in Hr |- * by (unfold U32_MAX in Hn; lia).
  erewrite bind_Ok.
  2: { eapply (serde_read _ RL); [|exact Hr]. split; [by apply Forall_true|done]. }
  apply ready_advance in Hr. erewrite bind_Ok.
  2: { eapply (read_le_ready 4); [|exact Hr]. unfold U32_MAX in Hn. cbn. lia. }
  pose proof (ready_advance _ (to_le_bytes 4 _) _ Hr) as Hr2. rewrite length_to_le_bytes in Hr2.
  erewrite bind_Ok by reflexivity.
  assert (Hmax := max_alloc_ready _ _ (Z.of_nat (length gss)) BATCH_METADATA_BYTES_PER_BATCH Hr2).
  rewrite (proj2 (Z.ltb_ge _ _)).
  2: { apply Hmax; [done|]. rewrite !length_app, Hl1, Hl2. unfold BATCH_METADATA_BYTES_PER_BATCH,
         INDPTR_BYTES_PER_BATCH, PADDING_BYTES_PER_BATCH. lia. }
  rewrite Nat2Z.id. erewrite bind_Ok.
  2: { eapply (read_times_ready _ packed_indptr (fun gs => ob_indptr (layout gs)) gss _ _); [|exact Hr2].
       intros gs r' bs' Hin Hr'. unfold read_indptr, packed_indptr in *.
       destruct (layout_packed gs) as (p & Hp & Hpl & Hpu & Hpd); [by eapply Forall_forall in Hwf|].
       rewrite Hp in *. change (default [] (Some p)) with p in *. erewrite bind_Ok by (by apply (read_bytes4_ready p _ bs')).
       unfold lift_res. by rewrite Hpd, Hpl. }
  pose proof (ready_advance _ _ _ Hr2) as Hr3. erewrite bind_Ok.
  2: { eapply (read_times_ready _ packed_padding (fun gs => ob_padding (layout gs)) gss _ _); [|exact Hr3].
       intros gs r' bs' Hin Hr'. unfold read_padding, packed_padding in *.
       destruct (layout_padding gs) as (Hu & Hp); [by eapply Forall_forall in Hwf|].
       erewrite bind_Ok by (exact (read_u8_ready _ _ _ Hr')). by rewrite Hp. }
  unfold ret. rewrite !advance_add. unfold write_u32, write_bytes. rewrite !length_app, length_to_le_bytes.
  do 3 f_equal. clear. induction gss as [|gs l IH]; [done|]. cbn. by f_equal.
Qed.

Lemma block_size bytes : Z.of_nat (length (gss ≫= ops_of)) <= U64_MAX -> encode_basic_block block = Some bytes ->
  Z.of_nat (length bytes) = basic_block_data_len block.
Proof.
  intros Ho. rewrite encode_layout. intros <-%(inj Some). pose proof (length_metadata gss Hwf) as [Hl1 Hl2].
  unfold basic_block_data_len. rewrite operations_layout.
  assert (Hfold : forall (l : list Operation) a b, foldl (fun '(op_count, ops_size) op => (op_count + 1, ops_size + encoded_size op)) (a, b) l
    = (a + Z.of_nat (length l), b + Z.of_nat (length (write_many l)))).
  { clear. induction l as [|op l IH]; intros a b; cbn [foldl]; [by rewrite !Z.add_0_r|]. rewrite IH.
    unfold write_many. cbn [mbind list_bind length]. rewrite length_app, <- op_write_length. cbn [write_into operation_serializable].
    f_equal; lia. }
  rewrite Hfold, !length_app. unfold num_op_batches. cbn [op_batches write_into vec_serializable]. rewrite length_fmap.
  rewrite length_app, length_write_usize by lia. unfold write_u32, write_bytes. rewrite length_to_le_bytes, Hl1, Hl2.
  cbn [get_size_hint usize_serializable usize_val]. rewrite !Z.add_0_l. lia.
Qed.

Lemma block_ops_bound bytes : encode_basic_block block = Some bytes ->
  (length (gss ≫= ops_of) <= length bytes)%nat.
Proof.
  rewrite encode_layout. intros <-%(inj Some). rewrite length_app. cbn [write_into vec_serializable].
  rewrite length_app. pose proof (write_many_min (gss ≫= ops_of)) as Hm. cbn [min_serialized_size operation_deserializable] in Hm.
  assert (Forall (fun _ => True) (gss ≫= ops_of)) as Ht by (by apply Forall_true). specialize (Hm Ht). lia.
Qed.

Lemma decode_encode_block before after bytes : Z.of_nat (length gss) <= U32_MAX ->
  Z.of_nat (length (before ++ bytes ++ after)) <= U64_MAX -> encode_basic_block block = Some bytes ->
  decode_operations (before ++ bytes ++ after) (Z.of_nat (length before)) = Ok (layout <$> gss).
Proof.
  intros Hn Hd Hb. unfold decode_operations. rewrite (proj2 (Z.ltb_ge _ _)) by (rewrite length_app; lia).
  rewrite Nat2Z.id, drop_app_length. pose proof (block_ops_bound _ Hb). rewrite !length_app in Hd.
  erewrite (read_block_parts_ready _ after bytes); [|lia|lia|done|].
  - cbn [fst rbind]. by apply build_op_batches_layout.
  - cbn. split; [|rewrite !length_app; lia]. split; [cbn; rewrite length_app; lia|]. exists [], []. cbn. by rewrite app_nil_r.
Qed.

End Block.

(** C23: Every basic block survives its wire format.  Batching any operations
    and encoding the block succeeds; the number of bytes is the size the
    serializer accounts for; and decoding at the offset of the block, whatever
    data surrounds it, returns the very same batches: operations, group
    boundaries, padding flags, group values and number of groups. *)
Theorem basic_block_roundtrip ops d before after bs :
  batch_ops ops = Some bs -> Z.of_nat (length bs) <= U32_MAX ->
  exists bytes, encode_basic_block (mkBasicBlockNode bs d) = Some bytes /\
    (Z.of_nat (length (before ++ bytes ++ after)) <= U64_MAX ->
     Z.of_nat (length bytes) = basic_block_data_len (mkBasicBlockNode bs d) /\
     decode_operations (before ++ bytes ++ after) (Z.of_nat (length before)) = Ok bs).
Proof.
  intros Hb Hn. destruct (batch_ops_layout ops) as (gss & Hgss & Hwf & _). rewrite Hb in Hgss.
  apply (inj Some) in Hgss as ->. rewrite length_fmap in Hn. 
  assert (exists bytes, encode_basic_block (mkBasicBlockNode (layout <$> gss) d) = Some bytes) as [bytes He]
    by (rewrite encode_layout by done; by eexists).
  exists bytes. split; [done|]. intros Hlen. pose proof (block_ops_bound gss d Hwf _ He). split.
  - apply block_size; [done| |done]. rewrite !length_app in Hlen. lia.
  - by apply decode_encode_block with d.
Qed.

(** ** Decoding and validating blocks never panics

    Whatever the bytes, [decode_operations] returns batches with the array
    lengths of [OpBatch], increasing group boundaries that end at the last
    operation, or an error; and the validators of a block run on such batches
    without a panic. *)

(** The arrays of an [OpBatch] have fixed lengths. *)
Record sized (b : OpBatch) : Prop := {
  sz_indptr : length (ob_indptr b) = BATCH_SIZE_PLUS_ONE;
  sz_padding : length (ob_padding b) = BATCH_SIZE;
  sz_groups : length (ob_groups b) = BATCH_SIZE
}.

Definition monotone (indptr : list nat) : Prop :=
  forall i, (i < BATCH_SIZE)%nat -> exists x y, indptr !! i = Some x /\ indptr !! (i + 1)%nat = Some y /\ (x <= y)%nat.

Record structured (b : OpBatch) : Prop := {
  st_sized : sized b;
  st_groups : (ob_num_groups b <= BATCH_SIZE)%nat;
  st_monotone : monotone (ob_indptr b);
  st_end : ob_indptr b !! BATCH_SIZE = Some (length (ob_ops b))
}.

Lemma monotone_le indptr i j x y : monotone indptr -> (i <= j <= BATCH_SIZE)%nat ->
  indptr !! i = Some x -> indptr !! j = Some y -> (x <= y)%nat.
Proof.
  intros Hm [Hij Hj]. revert y Hj. induction Hij as [|j Hij IH]; intros y Hj Hx Hy; [simplify_eq; lia|].
  destruct (Hm j ltac:(lia)) as (a & b & Ha & Hb & Hab). rewrite Nat.add_1_r in Hb. simplify_eq.
  etrans; [|exact Hab]. apply IH; [lia|done|done].
Qed.

(** ** Validators *)

Section Batch.
Context (b : OpBatch).

Lemma structure_safe idx : sized b -> rok (structure_of_batch idx b) (fun _ => structured b).
Proof.
  intros Hs. pose proof (sz_indptr _ Hs) as Hl. unfold structure_of_batch. destruct (Nat.ltb_spec BATCH_SIZE (ob_num_groups b)) as [|Hg]; [done|].
  assert (Hlook : forall i, (i <= BATCH_SIZE)%nat -> exists x, ob_indptr b !! i = Some x).
  { intros i Hi. apply lookup_lt_is_Some. rewrite Hl. unfold BATCH_SIZE_PLUS_ONE. lia. }
  eapply (rok_bind _ _ (fun _ => monotone (ob_indptr b))).
  { eapply rok_mono.
    - apply (rok_for _ (fun i => exists x y, ob_indptr b !! i = Some x /\ ob_indptr b !! (i + 1)%nat = Some y /\ (x <= y)%nat)).
      intros i Hi%elem_of_seq_0. rewrite Hl in Hi. unfold BATCH_SIZE_PLUS_ONE in Hi.
      destruct (Hlook i ltac:(lia)) as [x Hx], (Hlook (i + 1)%nat ltac:(lia)) as [y Hy]. rewrite Hx, Hy. cbn [rexpect rbind].
      destruct (Nat.ltb_spec y x); [done|]. cbn. by exists x, y.
    - intros [] Hf i Hi. apply (proj1 (Forall_forall _ _) Hf). apply elem_of_seq. rewrite Hl. unfold BATCH_SIZE_PLUS_ONE. lia. }
  intros _ Hm. rewrite Hl. change (BATCH_SIZE_PLUS_ONE - 1)%nat with BATCH_SIZE. destruct (Hlook BATCH_SIZE) as [e He]; [done|].
  rewrite He. cbn [rexpect rbind]. destruct (Nat.eqb_spec e (length (ob_ops b))) as [->|]; cbn [negb]; [|done].
  assert (Hst : structured b) by (by split). eapply rok_mono; [apply (rok_for _ (fun _ => True))|done].
  intros i Hi%elem_of_seq_0. destruct (Hm i ltac:(lia)) as (x & y & -> & -> & Hxy). cbn [rexpect rbind].
  rewrite checked_sub_Some by done. cbn [rexpect rbind]. by destruct (_ <? _)%nat.
Qed.

Context (Hst : structured b).

Lemma group_bounds i : (i < ob_num_groups b)%nat -> exists x y, ob_indptr b !! i = Some x /\
  ob_indptr b !! (i + 1)%nat = Some y /\ (x <= y <= length (ob_ops b))%nat /\
  exists l, slice x y (ob_ops b) = Some l.
Proof.
  intros Hi. pose proof (st_groups _ Hst). destruct (st_monotone _ Hst i ltac:(lia)) as (x & y & Hx & Hy & Hxy).
  exists x, y. split; [done|]. split; [done|].
  assert (y <= length (ob_ops b))%nat by (eapply (monotone_le _ (i + 1) BATCH_SIZE); [apply Hst|lia|done|apply Hst]).
  split; [lia|]. unfold slice. rewrite (proj2 (Nat.leb_le _ _)), (proj2 (Nat.leb_le _ _)) by done. by eexists.
Qed.

Lemma endings_safe idx i : (i < ob_num_groups b)%nat -> rok (immediate_endings_of_group idx b i) (fun _ => True).
Proof.
  intros Hi. destruct (group_bounds i Hi) as (x & y & Hx & Hy & _ & l & Hl). unfold immediate_endings_of_group.
  rewrite Hx, Hy. cbn [rexpect rbind]. destruct (_ =? _)%nat; [done|]. rewrite Hl. cbn [rexpect rbind].
  destruct (_ =? _)%nat; [|by destruct (from_option _ _ _)].
  eapply rok_mono; [apply (rok_for _ (fun _ => True))|done]. intros [j op] _. by destruct (has_imm op).
Qed.

Lemma placements_safe max num i : (max <= BATCH_SIZE)%nat -> (i < ob_num_groups b)%nat ->
  rok (collect_immediate_placements (ob_ops b) (ob_indptr b) i max num)
    (fun '(pl, next) => (Forall (fun p => p.1 < max) pl)%nat).
Proof.
  intros Hmax Hi. destruct (group_bounds i Hi) as (x & y & Hx & Hy & _ & l & Hl). unfold collect_immediate_placements.
  rewrite Hx, Hy. cbn [rexpect rbind]. rewrite Hl. cbn [rexpect rbind].
  eapply rok_mono; [apply (rok_fold _ (fun _ '(pl, _) => Forall (fun p => p.1 < max)%nat pl))|]; [by constructor| |by intros [? ?]].
  intros k op [pl next] _ Hpl. unfold place_immediate. destruct (imm_value op) as [imm|]; [|done].
  destruct (Nat.leb_spec max next); [done|]. destruct (from_option _ _ _); [done|].
  destruct (st_monotone _ Hst next ltac:(lia)) as (u & v & -> & -> & _). cbn [rexpect rbind]. destruct (_ =? _)%nat; cbn; [|done].
  apply Forall_app. split; [done|]. by repeat constructor.
Qed.

Lemma commitment_safe idx : rok (commitment_of_batch idx b) (fun _ => True).
Proof.
  pose proof (st_groups _ Hst) as Hg. pose proof (sz_groups _ (st_sized _ Hst)) as Hgl. unfold commitment_of_batch.
  eapply (rok_bind _ _ (fun slots => length slots = BATCH_SIZE)).
  - eapply rok_mono; [apply (rok_fold _ (fun _ slots => length slots = BATCH_SIZE))|by intros].
    + apply length_replicate.
    + intros k i slots [-> Hk]%lookup_seq Hs. cbn [Nat.add]. destruct (group_bounds k Hk) as (x & y & Hx & Hy & _ & l & Hl).
      unfold commitment_of_group. rewrite Hx, Hy. cbn [rexpect rbind]. destruct (_ =? _)%nat; [done|]. rewrite Hl. cbn [rexpect rbind].
      destruct (lookup_lt_is_Some_2 (ob_groups b) k) as [g ->]; [lia|]. cbn [rexpect rbind]. destruct (negb _); [done|].
      eapply rok_bind; [apply rok_map_err, placements_safe; done|]. intros [pl next] Hpl.
      eapply rok_mono; [apply (rok_fold _ (fun _ slots => length slots = BATCH_SIZE))|by intros]; [done|].
      intros j [p imm] sl Hj Hsl. assert (p < BATCH_SIZE)%nat by (by eapply Forall_lookup_1 in Hj; [|exact Hpl]).
      destruct (lookup_lt_is_Some_2 (ob_groups b) p) as [g' ->]; [lia|]. cbn [rexpect rbind]. destruct (negb _); [done|].
      rewrite update_Some by lia. cbn. by rewrite length_insert.
  - intros slots Hs. eapply rok_mono; [apply (rok_for _ (fun _ => True))|done]. intros i Hi%elem_of_seq_0.
    destruct (group_bounds i Hi) as (x & y & -> & -> & _). cbn [rexpect rbind].
    destruct (lookup_lt_is_Some_2 slots i) as [s ->]; [lia|]. destruct (lookup_lt_is_Some_2 (ob_groups b) i) as [g ->]; [lia|].
    cbn [rexpect rbind]. by destruct (_ && _).
Qed.

End Batch.

Lemma get_or_safe {E A} (o : option A) (e : E) : rok (get_or o e) (fun _ => True).
Proof. by destruct o. Qed.

Lemma padding_safe b : rok (batch_padding_semantics b) (fun _ => True).
Proof.
  unfold batch_padding_semantics. destruct (_ <? _)%nat; [done|]. eapply rok_mono; [apply (rok_for _ (fun _ => True))|done].
  intros i _. unfold padding_semantics_of_group. eapply rok_bind; [apply get_or_safe|]. intros [] _; cbn [negb]; [|done].
  eapply rok_bind; [apply get_or_safe|]. intros x _. eapply rok_bind; [apply get_or_safe|]. intros y _.
  destruct (_ =? _)%nat; [done|]. destruct (_ <? _)%nat; [done|]. eapply rok_bind; [apply get_or_safe|]. intros op _.
  by destruct (decide _).
Qed.

Lemma rok_for_enumerate {E A} (f : nat * A -> res E unit) (P : A -> Prop) l :
  (forall i a, l !! i = Some a -> rok (f (i, a)) (fun _ => P a)) -> rok (rfor (enumerate l) f) (fun _ => Forall P l).
Proof.
  intros Hf. eapply rok_mono; [apply (rok_for _ (fun p => P p.2))|].
  - intros [i a] Hp%elem_of_enumerate. by apply Hf.
  - intros u Hall. apply Forall_lookup. intros i a Ha. apply (proj1 (Forall_forall _ _) Hall (i, a)).
    apply list_elem_of_lookup_2 with i. by rewrite enumerate_lookup, Ha.
Qed.

Lemma validators_safe bs : Forall sized bs -> rok (validate_batch_invariants bs) (fun _ => Forall structured bs).
Proof.
  intros Hs. unfold validate_batch_invariants. eapply (rok_bind _ _ (fun _ => True)).
  { eapply rok_mono; [apply (rok_for_enumerate _ (fun _ => True))|done]. intros i b _.
    cbv beta iota zeta. by repeat case_match. }
  intros _ _. eapply rok_bind.
  { apply (rok_for_enumerate _ structured). intros i b Hb. apply structure_safe. by eapply Forall_lookup_1. }
  intros u Hst. cbv beta in Hst. eapply (rok_bind _ _ (fun _ => True)).
  { eapply rok_mono; [apply (rok_for_enumerate _ (fun _ => True))|done]. intros i b Hb.
    eapply rok_mono; [apply (rok_for _ (fun _ => True))|done]. intros g Hg%elem_of_seq_0. apply endings_safe; [|done].
    by eapply Forall_lookup_1. }
  intros _ _. eapply (rok_bind _ _ (fun _ => True)).
  { eapply rok_mono; [apply (rok_for_enumerate _ (fun _ => True))|done]. intros i b Hb. apply commitment_safe. by eapply Forall_lookup_1. }
  intros _ _. eapply rok_mono; [apply (rok_for_enumerate _ (fun _ => True))|done]. intros i b Hb. apply rok_map_err, padding_safe.
Qed.

(** ** Decoding *)

Lemma unpack_indptr_safe packed : length packed = 4%nat ->
  rok (unpack_indptr_deltas packed) (fun l => length l = BATCH_SIZE_PLUS_ONE /\ monotone l).
Proof.
  intros Hp. unfold unpack_indptr_deltas.
  eapply rok_mono; [apply (rok_fold _ (fun i l => length l = 9%nat /\
    forall j, (j < i)%nat -> exists x y, l !! j = Some x /\ l !! (j + 1)%nat = Some y /\ (x <= y)%nat))|].
  - split; [done|]. intros j Hj. lia.
  - intros k i l [-> Hk]%lookup_seq [Hl Hm]. cbn [Nat.add]. unfold unpack_delta.
    destruct (lookup_lt_is_Some_2 packed (k / 2)%nat) as [b ->]; [rewrite Hp; apply Nat.Div0.div_lt_upper_bound; lia|]. cbn [rexpect rbind].
    destruct (_ <? _)%nat; [done|]. destruct (lookup_lt_is_Some_2 l k) as [cur Hcur]; [lia|]. rewrite Hcur. cbn [rexpect rbind].
    rewrite update_Some by lia. cbn [rexpect rok]. split; [by rewrite length_insert|]. intros j Hj.
    destruct (decide (j = k)) as [->|].
    + rewrite list_lookup_insert_ne, list_lookup_insert_eq by lia. do 2 eexists. split; [done|]. split; [done|]. lia.
    + rewrite !list_lookup_insert_ne by lia. apply Hm. lia.
  - intros l [Hl Hm]. split; [done|]. exact Hm.
Qed.

Lemma reads_times {R A} `{RS : ReaderSafe R} (m : DM R A) (Q : A -> Prop) n : reads m Q ->
  reads (read_times n m) (fun l => length l = n /\ Forall Q l).
Proof.
  intros Hm. induction n as [|n IH]; [by apply reads_ret|]. cbn [read_times]. eapply reads_bind; [exact Hm|]. intros x Hx.
  eapply reads_bind; [exact IH|]. intros l [Hl Hf]. apply reads_ret. split; [cbn; lia|by constructor].
Qed.

Definition meta_ok (p : list nat * list bool) : Prop :=
  length p.1 = BATCH_SIZE_PLUS_ONE /\ monotone p.1 /\ length p.2 = BATCH_SIZE.

Lemma reads_block_parts {R} `{RS : ReaderSafe R} : reads read_block_parts (fun p => Forall meta_ok p.2).
Proof.
  unfold read_block_parts. eapply reads_bind; [apply vec_safe|]. intros ops _. eapply reads_bind; [apply reads_u32|]. intros k _.
  eapply reads_bind; [apply reads_gets|]. intros max _. destruct (_ <? _); [apply reads_fail|].
  eapply reads_bind.
  { apply (reads_times _ (fun l => length l = BATCH_SIZE_PLUS_ONE /\ monotone l)). unfold read_indptr.
    eapply (reads_bind _ _ (fun l => length l = 4%nat)).
    - unfold read_bytes4. eapply reads_bind; [apply (reads_many (T := u8))|]. intros l [Hl _]. apply reads_ret. by rewrite length_fmap.
    - intros l Hl. apply reads_lift. by apply unpack_indptr_safe. }
  intros ips [_ His]. eapply reads_bind.
  { apply (reads_times _ (fun l => length l = BATCH_SIZE)). unfold read_padding. eapply reads_bind; [apply reads_u8|].
    intros b _. by apply reads_ret. }
  intros ps [_ Hps]. apply reads_ret. cbn. apply Forall_lookup. intros i [l p] Hi%lookup_zip_Some. destruct Hi as [Hi Hp].
  destruct (Forall_lookup_1 _ _ _ _ His Hi). by split; [|split; [|eapply (Forall_lookup_1 _ _ _ _ Hps Hp)]].
Qed.

Lemma find_op_group_safe indptr i : monotone indptr -> (i <= BATCH_SIZE)%nat -> length indptr = BATCH_SIZE_PLUS_ONE ->
  exists h, find_op_group indptr i = Some h /\ (1 <= h <= Nat.max 1 i)%nat /\
    forall j, (h <= j <= i)%nat -> indptr !! j = indptr !! h.
Proof.
  intros Hm Hi Hl. induction i as [|i IH]; cbn [find_op_group].
  { exists 1%nat. split; [done|]. split; [lia|]. intros j Hj. lia. }
  destruct (Hm i ltac:(lia)) as (x & y & Hx & Hy & Hxy). rewrite Nat.add_1_r in Hy. rewrite Hx, Hy. cbn [mbind option_bind].
  destruct (Nat.ltb_spec x y) as [Hlt|Hge].
  - exists (S i). split; [done|]. split; [lia|]. intros j Hj. by replace j with (S i) by lia.
  - destruct IH as (h & Hh & Hr & Heq); [lia|]. exists h. split; [done|]. split; [lia|]. intros j Hj.
    destruct (decide (j = S i)) as [->|]; [|apply Heq; lia]. destruct (decide (h <= i)%nat) as [Hhi|].
    + rewrite <- (Heq i) by lia. rewrite Hx, Hy. f_equal. lia.
    + by replace h with (S i) by lia.
Qed.

Lemma decode_group_safe ops indptr groups next i : monotone indptr -> (i < BATCH_SIZE)%nat ->
  indptr !! BATCH_SIZE = Some (length ops) -> length groups = BATCH_SIZE -> (next <= BATCH_SIZE)%nat ->
  rok (decode_group ops indptr (groups, next) i) (fun '(groups, next) => length groups = BATCH_SIZE /\ (next <= BATCH_SIZE)%nat).
Proof.
  intros Hm Hi He Hg Hn. unfold decode_group. destruct (Hm i Hi) as (x & y & Hx & Hy & Hxy). rewrite Hx, Hy. cbn [rexpect rbind].
  assert (y <= length ops)%nat by (eapply (monotone_le _ (i + 1) BATCH_SIZE); [done|lia|done|done]).
  assert (exists l, slice x y ops = Some l) as [l Hl].
  { unfold slice. rewrite (proj2 (Nat.leb_le _ _)), (proj2 (Nat.leb_le _ _)) by done. by eexists. }
  destruct (_ <? _)%nat; [|done]. rewrite Hl. cbn [rexpect rbind]. rewrite update_Some by lia. cbn [rexpect rbind].
  eapply (rok_bind _ _ (fun '(pl, next) => Forall (fun p => p.1 < BATCH_SIZE)%nat pl /\ (next <= BATCH_SIZE)%nat)).
  { apply rok_map_err. unfold collect_immediate_placements. rewrite Hx, Hy. cbn [rexpect rbind]. rewrite Hl. cbn [rexpect rbind].
    eapply rok_mono; [apply (rok_fold _ (fun _ '(pl, next) => Forall (fun p => p.1 < BATCH_SIZE)%nat pl /\ (next <= BATCH_SIZE)%nat))|];
      [split; [constructor|lia]| |by intros [? ?]].
    intros k op [pl nx] _ [Hpl Hnx]. unfold place_immediate. destruct (imm_value op) as [imm|]; [|done].
    destruct (Nat.leb_spec BATCH_SIZE nx); [done|]. cbn [from_option].
    destruct (Hm nx ltac:(lia)) as (u & v & -> & -> & _). cbn [rexpect rbind]. destruct (_ =? _)%nat; cbn [negb rok]; [|done].
    split; [|lia]. apply Forall_app. split; [done|]. by constructor; [|constructor]. }
  intros [pl nx] [Hpl Hnx]. eapply (rok_bind _ _ (fun groups => length groups = BATCH_SIZE)); [|by intros gs Hgs].
  eapply rok_mono; [apply (rok_fold _ (fun _ groups => length groups = BATCH_SIZE))|by intros]; [by rewrite length_insert|].
  intros j [p imm] gs Hj Hgs. assert (p < BATCH_SIZE)%nat by (by eapply Forall_lookup_1 in Hj; [|exact Hpl]).
  rewrite update_Some by lia. cbn. by rewrite length_insert.
Qed.

Lemma decode_batch_safe ops bs off m : meta_ok m -> Forall structured bs -> (off <= length ops)%nat ->
  rok (decode_batch ops (bs, off) m) (fun '(bs, off) => Forall structured bs /\ (off <= length ops)%nat).
Proof.
  destruct m as [indptr padding]. intros (Hl & Hm & Hp) Hbs Hoff. cbn [fst snd] in *. unfold decode_batch.
  destruct (find_op_group_safe indptr 8 Hm) as (h & Hh & Hr & Heq); [done|done|]. unfold highest_op_group. rewrite Hh. cbn [rexpect rbind].
  destruct (lookup_lt_is_Some_2 indptr h) as [k Hk]; [rewrite Hl; unfold BATCH_SIZE_PLUS_ONE, BATCH_SIZE; lia|]. rewrite Hk. cbn [rexpect rbind].
  destruct (Nat.ltb_spec (length ops) (off + k)) as [|Hle]; [done|].
  assert (exists l, slice off (off + k) ops = Some l /\ length l = k) as (l & -> & Hlen).
  { unfold slice. rewrite (proj2 (Nat.leb_le _ (_ + _))), (proj2 (Nat.leb_le _ (length _))) by lia. eexists. split; [done|].
    rewrite length_take, length_drop. lia. }
  cbn [rexpect rbind].
  assert (Hend : indptr !! BATCH_SIZE = Some (length l)) by (rewrite Hlen, <- Hk; apply Heq; unfold BATCH_SIZE; lia).
  eapply (rok_bind _ _ (fun '(groups, next) => length groups = BATCH_SIZE /\ (next <= BATCH_SIZE)%nat)).
  { eapply rok_mono; [apply (rok_fold _ (fun _ '(groups, next) => length groups = BATCH_SIZE /\ (next <= BATCH_SIZE)%nat))|by intros [? ?]];
      [split; [done|unfold BATCH_SIZE; lia]|].
    intros j i [gs nx] [-> Hj]%lookup_seq [Hgs Hnx]. apply decode_group_safe; try done. unfold BATCH_SIZE. lia. }
  intros [groups next] [Hg Hn]. eapply rok_bind; [apply rok_map_err, padding_safe|]. intros _ _. cbn [rok]. split; [|done].
  apply Forall_app. split; [done|]. constructor; [|constructor]. by split.
Qed.

(** ** On every input *)

Lemma decode_operations_safe data off : Forall is_u8 data -> 0 <= off ->
  rok (decode_operations data off) (Forall structured).
Proof.
  intros Hu Hoff. unfold decode_operations. destruct (Z.ltb_spec (Z.of_nat (length data)) off) as [|Hle]; [done|].
  match goal with |- context [read_block_parts ?r] => destruct (reads_block_parts r) as [_ Hok] end.
  { cbn. split; cbn; [lia|by apply Forall_drop]. }
  eapply rok_bind; [exact Hok|]. intros [ops metas] Hmetas. unfold build_op_batches.
  eapply (rok_bind _ _ (fun '(bs, off) => Forall structured bs)).
  { eapply rok_mono; [apply (rok_fold _ (fun _ '(bs, off) => Forall structured bs /\ (off <= length ops)%nat))|by intros [? ?] [? ?]];
      [split; [constructor|lia]|].
    intros i m [bs o] Hi [Hbs Ho]. apply decode_batch_safe; try done. by eapply Forall_lookup_1. }
  intros [bs o] Hbs. by destruct (negb _).
Qed.
