(* ===== verification/AceCircuit.v ===== *)
(** * Arithmetic circuit evaluation: the chiplet's sequential evaluator

    The gate encoding of processor/src/trace/chiplets/ace/instruction.rs and
    the evaluator [CircuitEvaluation]/[WireBus] of ace/trace.rs, which the
    [EvalCircuit] operation drives. *)

From S2P Require Import Prelude Felt Quad.

Inductive AceError :=
| AceTooManyWires (num_wires : Z)
| AceBadNumVars (num_vars : Z)
| AceBadNumEval (num_eval : Z)
| AceDecodeFailed
| AceWireReadFailed
| AceNotZero.

(** ** Gate encoding *)

Definition ID_BITS : Z := 30.
Definition MAX_ID : Z := Z.shiftl 1 ID_BITS - 1.

Module AceOp.
Inductive t := Sub | Mul | Add.
End AceOp.

Definition ace_op_try_from (value : Z) : option AceOp.t :=
  if value =? 0 then Some AceOp.Sub
  else if value =? 1 then Some AceOp.Mul
  else if value =? 2 then Some AceOp.Add
  else None.

Definition decode_instruction (instruction : Felt) : option (Z * Z * AceOp.t) :=
  let remaining := ⟦instruction⟧ in
  let id_l := Z.land remaining MAX_ID in
  let remaining := Z.shiftr remaining ID_BITS in
  let id_r := Z.land remaining MAX_ID in
  let remaining := Z.shiftr remaining ID_BITS in
  if (MAX_ID <? id_l) || (MAX_ID <? id_r) then None
  else
    match ace_op_try_from remaining with
    | Some op => Some (id_l, id_r, op)
    | None => None
    end.

Definition MAX_NUM_ACE_WIRES : Z := MAX_ID.
Definition PTR_OFFSET_ELEM : Felt := ONE.
Definition PTR_OFFSET_WORD : Felt := new_unchecked 4.

(** ** The wire bus *)

Record WireBus := mkWireBus {
  id_next : Felt;
  wires : list (QuadFelt * Z);
  num_wires : Z
}.

Record ReadNode := mkReadNode {
  rn_ptr : Felt; rn_id_0 : Felt; rn_v_0 : QuadFelt; rn_id_1 : Felt; rn_v_1 : QuadFelt
}.

Record EvalNode := mkEvalNode {
  en_ptr : Felt; en_eval_op : Felt; en_id_0 : Felt; en_v_0 : QuadFelt;
  en_id_1 : Felt; en_v_1 : QuadFelt; en_id_2 : Felt; en_v_2 : QuadFelt
}.

Record CircuitEvaluation := mkCircuitEvaluation {
  ce_ctx : Z;
  ce_clk : Z;
  ce_wire_bus : WireBus;
  ce_read_nodes : list ReadNode;
  ce_eval_nodes : list EvalNode
}.

Section Ace.
Context `{G : Goldilocks} `{Q : QuadField}.

Definition wire_bus_new (num_wires : Z) : WireBus :=
  mkWireBus (from_u32 (num_wires - 1)) [] num_wires.

Definition wire_bus_insert (b : WireBus) (value : QuadFelt) : Felt * WireBus :=
  (id_next b, mkWireBus (id_next b - ONE)%F (wires b ++ [(value, 0)]) (num_wires b)).

(** [num_wires.checked_sub(id + 1)], then a lookup that bumps the
    multiplicity. *)
Definition wire_bus_read_value (b : WireBus) (id : Z) : option (QuadFelt * WireBus) :=
  if num_wires b <? id + 1 then None
  else
    let i := Z.to_nat (num_wires b - (id + 1)) in
    match wires b !! i with
    | Some (v, m) => Some (v, mkWireBus (id_next b) (<[i := (v, m + 1)]> (wires b)) (num_wires b))
    | None => None
    end.

Definition wire_bus_is_finalized (b : WireBus) : bool :=
  Z.of_nat (length (wires b)) =? num_wires b.

(** ** The evaluator *)

Definition circuit_evaluation_new (ctx clk num_read_rows num_eval_rows : Z) :
    option CircuitEvaluation :=
  let num_wires := 2 * num_read_rows + num_eval_rows in
  if num_wires <=? MAX_NUM_ACE_WIRES
  then Some (mkCircuitEvaluation ctx clk (wire_bus_new num_wires) [] [])
  else None.

Definition do_read (e : CircuitEvaluation) (ptr : Felt) (word : Word) : CircuitEvaluation :=
  let v_0 := mkQuad (word_a word) (word_b word) in
  let '(id_0, bus) := wire_bus_insert (ce_wire_bus e) v_0 in
  let v_1 := mkQuad (word_c word) (word_d word) in
  let '(id_1, bus) := wire_bus_insert bus v_1 in
  mkCircuitEvaluation (ce_ctx e) (ce_clk e) bus
    (ce_read_nodes e ++ [mkReadNode ptr id_0 v_0 id_1 v_1]) (ce_eval_nodes e).

Definition ace_apply (op : AceOp.t) (v_l v_r : QuadFelt) : QuadFelt :=
  match op with
  | AceOp.Sub => (v_l - v_r)%Q
  | AceOp.Mul => (v_l * v_r)%Q
  | AceOp.Add => (v_l + v_r)%Q
  end.

Definition ace_eval_op (op : AceOp.t) : Felt :=
  match op with
  | AceOp.Sub => (- ONE)%F
  | AceOp.Mul => ZERO
  | AceOp.Add => ONE
  end.

Definition do_eval (e : CircuitEvaluation) (ptr instruction : Felt) :
    res AceError CircuitEvaluation :=
  match decode_instruction instruction with
  | None => Err AceDecodeFailed
  | Some (id_l, id_r, op) =>
      match wire_bus_read_value (ce_wire_bus e) id_l with
      | None => Err AceWireReadFailed
      | Some (v_l, bus) =>
          match wire_bus_read_value bus id_r with
          | None => Err AceWireReadFailed
          | Some (v_r, bus) =>
              let v_0 := ace_apply op v_l v_r in
              let '(id_0, bus) := wire_bus_insert bus v_0 in
              Ok (mkCircuitEvaluation (ce_ctx e) (ce_clk e) bus (ce_read_nodes e)
                    (ce_eval_nodes e ++
                     [mkEvalNode ptr (ace_eval_op op) id_0 v_0 (from_u32 id_l) v_l
                        (from_u32 id_r) v_r]))
          end
      end
  end.

Definition output_value (e : CircuitEvaluation) : option QuadFelt :=
  if wire_bus_is_finalized (ce_wire_bus e)
  then match last (wires (ce_wire_bus e)) with Some (v, _) => Some v | None => None end
  else None.

End Ace.
