(* ===== verification/Machine.v ===== *)
(** * Errors, tracer events and the processor interfaces

    The vocabulary the operation handlers are written in: the error types of
    processor/src/errors.rs, the in-cycle events and the helper registers of
    processor/src/tracer.rs, and the traits of processor/src/processor.rs as
    type classes.  A handler is generic in the processor type [P], as in the
    source, so a theorem proved against the interfaces holds for every
    implementation.

    Diagnostics (labels, source files, formatted messages) are not modelled;
    the wrappers [IoError], [CryptoError], [AceEvalError] and [map_exec_err]
    only inject the inner error into [ExecutionError], so the inner error is
    raised directly. *)

From S2P Require Import Prelude Felt Quad AceCircuit.

Notation ContextId := Z (only parsing).
Notation RowIndex := Z (only parsing).

(** ** Errors *)

Record NodeIndex := mkNodeIndex { ni_depth : Z; ni_position : Z }.

Inductive MerkleError :=
| ConflictingRoots (expected_root actual_root : Word)
| DepthTooSmall (depth : Z)
| DepthTooBig (depth : Z)
| DuplicateValuesForIndex (position : Z)
| EntryIsNotLeaf (node : NodeIndex)
| InvalidNodeIndex (depth position : Z)
| InvalidNodeIndexDepth (expected provided : Z)
| InvalidPathLength (len : Z)
| SubtreeDepthExceedsDepth (subtree_depth tree_depth : Z)
| TooManyEntries (depth : Z)
| TooManyLeafEntries (actual : Z)
| NodeIndexNotFoundInTree (index : NodeIndex)
| NodeIndexNotFoundInStore (node : Word) (index : NodeIndex)
| NumLeavesNotPowerOfTwo (len : Z)
| RootNotInStore (root : Word)
| UntrackedKey (key : Word)
| InternalError (message : string).

Inductive AdviceError :=
| MapKeyAlreadyPresent (key : Word) (prev_values new_values : list Felt)
| MapKeyNotFound (key : Word)
| StackReadFailed
| SizeBudgetExceeded (current added max : Z)
| InvalidMerkleTreeDepth (depth : Felt)
| InvalidMerkleTreeNodeIndex (depth index : Felt)
| MerkleStoreLookupFailed (e : MerkleError)
| MerkleStoreMergeFailed (e : MerkleError)
| MerkleStoreUpdateFailed (e : MerkleError).

Inductive MemoryError :=
| AddressOutOfBounds (addr : Z)
| IllegalMemoryAccess (ctx : ContextId) (addr : Z) (clk : Felt)
| InvalidMemoryRange (start_addr end_addr : Z)
| UnalignedWordAccess (addr : Z) (ctx : ContextId)
| MemoryElementLimitExceeded (ctx : ContextId) (addr max : Z).

Inductive FriErrorKind :=
| FriCosetTooBig (coset : Z)
| FriDomainSizeZero
| FriInconsistentProjection (coset : Z).

Inductive BinaryValueErrorContext := BvOperation | BvIf | BvLoop.

(** The errors of the deferred-statement subsystem (core/src/deferred). *)
Inductive DeferredError :=
| InvalidTag
| DeferredMissingNode
| ConflictingNode
| InvalidPayload
| DeferredAssertionFailed
| DeferredStateTooLarge (num_elements max : Z)
| Unsupported
| InvalidDeferredRootTransition (expected actual : Word).

Inductive PrecompileError :=
| MissingNode
| InvalidNode
| AssertionFailed
| OtherDeferred (e : DeferredError)
| InPrecompile (name : string) (source : PrecompileError).

Inductive OperationError :=
| CircularExternalNode (digest : Word)
| DivideByZero
| Deferred (e : PrecompileError)
| FailedAssertion (err_code : Felt)
| U32AssertionFailed (err_code : Felt) (invalid_values : list Felt)
| FriError (e : FriErrorKind)
| InvalidHornerEvaluationPointWord (ctx : ContextId) (addr : Z)
| InvalidMerklePathLength (path_len : Z) (depth : Felt)
| InvalidStackDepthOnReturn (depth : Z)
| LogArgumentZero
| MalformedMastForestInHost (root_digest : Word)
| MerkleDepthOutOfRange (depth : Felt)
| MerklePathVerificationFailed (value : Word) (index : Felt) (root : Word) (err_code : Felt)
| NotBinaryValue (context : BinaryValueErrorContext) (value : Felt)
| NotU32Values (values : list Felt)
| SyscallTargetNotInKernel (proc_root : Word)
| OpInternal (msg : string).

Inductive ExecutionError :=
| AceChipError (e : AceError)
| EAdvice (e : AdviceError)
| CycleLimitExceeded (max_cycles : Z)
| EventError (event_id : Felt)
| EDeferred (e : PrecompileError)
| EInternal (msg : string)
| StackDepthLimitExceeded (depth max : Z)
| EMemory (e : MemoryError)
| MemoryErrorNoCtx (e : MemoryError)
| EOperation (e : OperationError)
| OutputStackOverflow (n : Z)
| ProcedureNotFound (root_digest : Word).

(** ** Merkle paths and hasher states as data *)

Notation MerklePath := (list Word) (only parsing).

(** The 12-element sponge state by words: [state[0..4]], [state[4..8]] and
    [state[8..12]] (the ranges RATE0, RATE1 and CAPACITY). *)
Record HasherState := mkHasherState { hs_rate0 : Word; hs_rate1 : Word; hs_capacity : Word }.

(** ** Tracer events

    A [Tracer] is notified of what a cycle does through methods that return
    nothing, so what a tracer knows after a cycle is a function of the list of
    calls it received; the handlers append to that list. *)

Inductive TracerEvent :=
| record_hasher_permute (input_state output_state : HasherState)
| record_hasher_build_merkle_root (node : Word) (path : option MerklePath) (depth index : Felt)
    (output_root : Word)
| record_hasher_update_merkle_root (old_value new_value : Word) (path : option MerklePath)
    (depth index : Felt) (old_root new_root : Word)
| record_memory_read_element (element addr : Felt) (ctx : ContextId) (clk : RowIndex)
| record_memory_read_word (word : Word) (addr : Felt) (ctx : ContextId) (clk : RowIndex)
| record_memory_write_element (element addr : Felt) (ctx : ContextId) (clk : RowIndex)
| record_memory_write_word (word : Word) (addr : Felt) (ctx : ContextId) (clk : RowIndex)
| record_memory_read_dword (word1 word2 : Word) (addr : Felt) (ctx : ContextId) (clk : RowIndex)
| record_dyncall_memory (callee_hash : Word) (read_addr : Felt) (read_ctx fmp_ctx : ContextId)
    (clk : RowIndex)
| record_crypto_stream (plain1 plain2 : Word) (src_addr : Felt) (cipher1 cipher2 : Word)
    (dst_addr : Felt) (ctx : ContextId) (clk : RowIndex)
| record_pipe (word1 word2 : Word) (addr : Felt) (ctx : ContextId) (clk : RowIndex)
| record_advice_pop_stack (value : Felt)
| record_advice_pop_stack_word (word : Word)
| record_u32and (a b : Felt)
| record_u32xor (a b : Felt)
| record_u32_range_checks (u32_lo u32_hi : Felt)
| record_u32div_range_checks (quotient remainder remainder_diff : Felt)
| record_kernel_proc_access (proc_hash : Word)
| record_circuit_evaluation (evaluation : CircuitEvaluation).

(** ** Helper registers *)

Module Helper.
Inductive t :=
| Eq (stack_second stack_first : Felt)
| U32Split (lo hi : Felt)
| Eqz (top : Felt)
| Expacc (acc_update_val : Felt)
| FriExt2Fold4 (ev es : QuadFelt) (x x_inv : Felt)
| U32Add (sum carry : Felt)
| U32Add3 (sum carry : Felt)
| U32Sub (second_new : Felt)
| U32Mul (lo hi : Felt)
| U32Madd (lo hi : Felt)
| U32Div (quotient remainder remainder_diff : Felt)
| U32Assert2 (first second : Felt)
| HPerm (addr : Felt)
| MerklePath (addr : Felt)
| HornerEvalBase (alpha tmp0 tmp1 : QuadFelt)
| HornerEvalExt (alpha acc_tmp : QuadFelt)
| LogDeferred (addr : Felt) (state_prev : Word)
| Empty.
End Helper.

Notation OperationHelperRegisters := Helper.t.

(** ** The processor traits

    Methods taking [&self] or [&mut self] are computations over the processor;
    a method that indexes out of range panics. *)

Notation PM P A := (M ExecutionError P A).

Class SystemInterface (P : Type) := {
  sys_caller_hash : PM P Word;
  sys_clock : PM P RowIndex;
  sys_ctx : PM P ContextId;
  sys_deferred_root : PM P Word;
  sys_set_caller_hash : Word -> PM P unit;
  sys_set_ctx : ContextId -> PM P unit;
  sys_increment_clock : PM P unit;
  sys_log_deferred_statement : Word -> Word -> PM P unit;
  sys_save_call_state : PM P unit;
  sys_restore_call_state : PM P unit
}.

(** [get_mut] is [stack_get] followed by [stack_set] on the same index. *)
Class StackInterface (P : Type) := {
  stack_get : nat -> PM P Felt;
  stack_get_word : nat -> PM P Word;
  stack_depth : PM P Z;
  stack_set : nat -> Felt -> PM P unit;
  stack_set_word : nat -> Word -> PM P unit;
  stack_swap : nat -> nat -> PM P unit;
  stack_swapw_nth : nat -> PM P unit;
  stack_rotate_left : nat -> PM P unit;
  stack_rotate_right : nat -> PM P unit;
  stack_increment_size : PM P unit;
  stack_decrement_size : PM P unit;
  stack_start_context : PM P unit;
  stack_restore_context : PM P unit
}.

Class AdviceProviderInterface (P : Type) := {
  adv_pop_stack : PM P Felt;
  adv_pop_stack_word : PM P Word;
  adv_pop_stack_dword : PM P (Word * Word);
  adv_get_merkle_path : Word -> Felt -> Felt -> PM P (option MerklePath);
  adv_update_merkle_node : Word -> Felt -> Felt -> Word -> PM P (option MerklePath)
}.

Class MemoryInterface (P : Type) := {
  mem_read_element : ContextId -> Felt -> PM P Felt;
  mem_read_word : ContextId -> Felt -> RowIndex -> PM P Word;
  mem_write_element : ContextId -> Felt -> Felt -> PM P unit;
  mem_write_word : ContextId -> Felt -> RowIndex -> Word -> PM P unit
}.

Class HasherInterface (P : Type) := {
  hash_permute : HasherState -> PM P (Felt * HasherState);
  hash_verify_merkle_root :
    Word -> Word -> option MerklePath -> Felt -> OperationError -> PM P Felt;
  hash_update_merkle_root :
    Word -> Word -> Word -> option MerklePath -> Felt -> OperationError -> PM P (Felt * Word)
}.

Class Processor (P : Type) := {
  #[global] processor_system :: SystemInterface P;
  #[global] processor_stack :: StackInterface P;
  #[global] processor_advice :: AdviceProviderInterface P;
  #[global] processor_memory :: MemoryInterface P;
  #[global] processor_hasher :: HasherInterface P
}.

(** ** Handlers: computations over the processor and the tracer *)

Record St (P : Type) := mkSt { st_proc : P; st_trace : list TracerEvent }.
Arguments mkSt {P}.
Arguments st_proc {P}.
Arguments st_trace {P}.

Notation VM P A := (M ExecutionError (St P) A).

(** A call on the processor, and a call on the tracer. *)
Definition on_proc {P A} (m : PM P A) : VM P A :=
  fun s => match m (st_proc s) with (r, p') => (r, mkSt p' (st_trace s)) end.

Definition trace {P} (e : TracerEvent) : VM P unit :=
  modify (fun s => mkSt (st_proc s) (st_trace s ++ [e])).

Definition fail_op {S A} (e : OperationError) : M ExecutionError S A := fail (EOperation e).
Definition fail_mem {S A} (e : MemoryError) : M ExecutionError S A := fail (EMemory e).

Section Handlers.
Context {P : Type} `{Processor P}.

Definition get (i : nat) : VM P Felt := on_proc (stack_get i).
Definition set (i : nat) (x : Felt) : VM P unit := on_proc (stack_set i x).
Definition get_word (i : nat) : VM P Word := on_proc (stack_get_word i).
Definition set_word (i : nat) (w : Word) : VM P unit := on_proc (stack_set_word i w).
Definition swap (i j : nat) : VM P unit := on_proc (stack_swap i j).
Definition increment_size : VM P unit := on_proc stack_increment_size.
Definition decrement_size : VM P unit := on_proc stack_decrement_size.
Definition ctx : VM P ContextId := on_proc sys_ctx.
Definition clock : VM P RowIndex := on_proc sys_clock.

(** The default [get_double_word]: eight reads from [start], as two words. *)
Definition get_double_word (start : nat) : VM P (Word * Word) :=
  let! x0 := get (start + 0) in
  let! x1 := get (start + 1) in
  let! x2 := get (start + 2) in
  let! x3 := get (start + 3) in
  let! x4 := get (start + 4) in
  let! x5 := get (start + 5) in
  let! x6 := get (start + 6) in
  let! x7 := get (start + 7) in
  ret (mkWord x0 x1 x2 x3, mkWord x4 x5 x6 x7).

End Handlers.
