(* ===== verification/StackOps.v ===== *)
(** * Stack and system operations

    The handlers of processor/src/execution/operations/stack_ops/mod.rs and
    sys_ops/mod.rs, generic in the processor. *)

From S2P Require Import Prelude Felt Machine.

Section StackOps.
Context {P : Type} `{Processor P}.

Definition op_push (element : Felt) : VM P OperationHelperRegisters :=
  do! increment_size;
  do! set 0 element;
  ret Helper.Empty.

Definition op_pad : VM P OperationHelperRegisters :=
  do! increment_size;
  do! set 0 ZERO;
  ret Helper.Empty.

Definition op_swap : VM P OperationHelperRegisters :=
  do! swap 0 1;
  ret Helper.Empty.

Definition op_swap_double_word : VM P OperationHelperRegisters :=
  do! swap 0 8;
  do! swap 1 9;
  do! swap 2 10;
  do! swap 3 11;
  do! swap 4 12;
  do! swap 5 13;
  do! swap 6 14;
  do! swap 7 15;
  ret Helper.Empty.

Definition dup_nth (n : nat) : VM P OperationHelperRegisters :=
  let! to_dup := get n in
  do! increment_size;
  do! set 0 to_dup;
  ret Helper.Empty.

Definition op_cswap : VM P OperationHelperRegisters :=
  let! condition := get 0 in
  do! decrement_size;
  do! (if ⟦condition⟧ =? 0 then ret tt
       else if ⟦condition⟧ =? 1 then swap 0 1
       else fail_op (NotBinaryValue BvOperation condition));
  ret Helper.Empty.

Definition op_cswapw : VM P OperationHelperRegisters :=
  let! condition := get 0 in
  do! decrement_size;
  do! (if ⟦condition⟧ =? 0 then ret tt
       else if ⟦condition⟧ =? 1 then
         do! swap 0 4;
         do! swap 1 5;
         do! swap 2 6;
         swap 3 7
       else fail_op (NotBinaryValue BvOperation condition));
  ret Helper.Empty.

(** The arms of [execute_op] that act on the stack directly. *)
Definition op_drop : VM P OperationHelperRegisters :=
  do! decrement_size;
  ret Helper.Empty.

Definition op_swapw_nth (n : nat) : VM P OperationHelperRegisters :=
  do! on_proc (stack_swapw_nth n);
  ret Helper.Empty.

Definition op_movup (n : nat) : VM P OperationHelperRegisters :=
  do! on_proc (stack_rotate_left n);
  ret Helper.Empty.

Definition op_movdn (n : nat) : VM P OperationHelperRegisters :=
  do! on_proc (stack_rotate_right n);
  ret Helper.Empty.

(** ** System operations *)

Definition op_assert (err_code : Felt) : VM P OperationHelperRegisters :=
  let! top := get 0 in
  if decide (top <> ONE) then fail_op (FailedAssertion err_code)
  else
    do! decrement_size;
    ret Helper.Empty.

Definition op_sdepth : VM P OperationHelperRegisters :=
  let! depth := on_proc stack_depth in
  do! increment_size;
  do! set 0 (from_u32 depth);
  ret Helper.Empty.

Definition op_caller : VM P OperationHelperRegisters :=
  let! caller_hash := on_proc sys_caller_hash in
  do! set_word 0 caller_hash;
  ret Helper.Empty.

Definition op_clk : VM P OperationHelperRegisters :=
  let! clk := clock in
  do! increment_size;
  do! set 0 (from_u32 clk);
  ret Helper.Empty.

End StackOps.
