(* ===== verification/ArithOps.v ===== *)
(** * Field and 32-bit integer operations

    The handlers of processor/src/execution/operations/field_ops/mod.rs and
    u32_ops/mod.rs. *)

From S2P Require Import Prelude Felt Machine.

Section FieldOps.
Context `{G : Goldilocks} {P : Type} `{Processor P}.

Definition assert_binary (value : Felt) : VM P unit :=
  if decide (value <> ZERO /\ value <> ONE) then fail_op (NotBinaryValue BvOperation value)
  else ret tt.

Definition pop2_applyfn_push (f : Felt -> Felt -> Felt) : VM P unit :=
  let! b := get 0 in
  let! a := get 1 in
  do! decrement_size;
  set 0 (f a b).

Definition pop2_applyfn_push_op (f : Felt -> Felt -> VM P Felt) : VM P unit :=
  let! b := get 0 in
  let! a := get 1 in
  do! decrement_size;
  let! r := f a b in
  set 0 r.

Definition op_add : VM P OperationHelperRegisters :=
  do! pop2_applyfn_push (fun a b => (a + b)%F);
  ret Helper.Empty.

Definition op_neg : VM P OperationHelperRegisters :=
  let! element := get 0 in
  do! set 0 (- element)%F;
  ret Helper.Empty.

Definition op_mul : VM P OperationHelperRegisters :=
  do! pop2_applyfn_push (fun a b => (a * b)%F);
  ret Helper.Empty.

Definition op_inv : VM P OperationHelperRegisters :=
  let! top := get 0 in
  if decide (top = ZERO) then fail_op DivideByZero
  else
    let! inv := expect (gl_inverse top) in
    do! set 0 inv;
    ret Helper.Empty.

Definition op_incr : VM P OperationHelperRegisters :=
  let! top := get 0 in
  do! set 0 (top + ONE)%F;
  ret Helper.Empty.

Definition op_and : VM P OperationHelperRegisters :=
  do! pop2_applyfn_push_op (fun a b =>
    do! assert_binary b;
    do! assert_binary a;
    ret (if decide (a = ONE /\ b = ONE) then ONE else ZERO));
  ret Helper.Empty.

Definition op_or : VM P OperationHelperRegisters :=
  do! pop2_applyfn_push_op (fun a b =>
    do! assert_binary b;
    do! assert_binary a;
    ret (if decide (a = ONE \/ b = ONE) then ONE else ZERO));
  ret Helper.Empty.

Definition op_not : VM P OperationHelperRegisters :=
  let! top := get 0 in
  do! (if decide (top = ZERO) then set 0 ONE
       else if decide (top = ONE) then set 0 ZERO
       else fail_op (NotBinaryValue BvOperation top));
  ret Helper.Empty.

Definition op_eq : VM P OperationHelperRegisters :=
  let! b := get 0 in
  let! a := get 1 in
  do! decrement_size;
  let result := if decide (a = b) then ONE else ZERO in
  do! set 0 result;
  ret (Helper.Eq a b).

Definition op_eqz : VM P OperationHelperRegisters :=
  let! old_top := get 0 in
  do! (if decide (old_top = ZERO) then set 0 ONE else set 0 ZERO);
  ret (Helper.Eqz old_top).

Definition op_expacc : VM P OperationHelperRegisters :=
  let! old_base := get 1 in
  let! old_acc := get 2 in
  let! old_exp := get 3 in
  let old_exp_int := ⟦old_exp⟧ in
  let new_exp := new_unchecked (Z.shiftr old_exp_int 1) in
  let exp_lsb := Z.land old_exp_int 1 in
  let acc_update_val := if exp_lsb =? 1 then old_base else ONE in
  let new_acc := (old_acc * acc_update_val)%F in
  let new_base := (old_base * old_base)%F in
  do! set 0 (new_unchecked exp_lsb);
  do! set 1 new_base;
  do! set 2 new_acc;
  do! set 3 new_exp;
  ret (Helper.Expacc acc_update_val).

Definition op_ext2mul : VM P OperationHelperRegisters :=
  let SEVEN := new_unchecked 7 in
  let! w := get_word 0 in
  let b0 := word_a w in
  let b1 := word_b w in
  let a0 := word_c w in
  let a1 := word_d w in
  let b0_times_a0 := (b0 * a0)%F in
  let b1_times_a1 := (b1 * a1)%F in
  let c1 := ((b0 + b1) * (a1 + a0) - b0_times_a0 - b1_times_a1)%F in
  let c0 := (b0_times_a0 + SEVEN * b1_times_a1)%F in
  do! set 2 c0;
  do! set 3 c1;
  ret Helper.Empty.

End FieldOps.

(** ** 32-bit integer operations

    The handlers of processor/src/execution/operations/u32_ops/mod.rs.  The
    additions, multiplications and shifts are those of [u64]; [wrap64] is
    written where the source wraps ([wrapping_sub]); the others do not overflow
    on operands that passed the range check ([ArithTheorems]). *)

Section U32Ops.
Context {P : Type} `{Processor P}.

(** [(value >> 32, value as u32)], in that order. *)
Definition split_element (value : Felt) : Felt * Felt :=
  let value := ⟦value⟧ in
  let lo := wrap32 value in
  let hi := Z.shiftr value 32 in
  (new_unchecked hi, new_unchecked lo).

(** The macro [require_u32_operands!] for two and three operands. *)
Definition not_u32 (x : Felt) : bool := U32_MAX <? ⟦x⟧.

Definition require_u32_operands2 (i j : nat) : VM P (Felt * Felt) :=
  let! x := get i in
  let! y := get j in
  match List.filter not_u32 [x; y] with
  | [] => ret (x, y)
  | invalid_values => fail_op (NotU32Values invalid_values)
  end.

Definition require_u32_operands3 (i j k : nat) : VM P (Felt * Felt * Felt) :=
  let! x := get i in
  let! y := get j in
  let! z := get k in
  match List.filter not_u32 [x; y; z] with
  | [] => ret (x, y, z)
  | invalid_values => fail_op (NotU32Values invalid_values)
  end.

Definition op_u32split : VM P OperationHelperRegisters :=
  let! top := get 0 in
  let '(top_hi, top_lo) := split_element top in
  do! trace (record_u32_range_checks top_lo top_hi);
  do! increment_size;
  do! set 0 top_lo;
  do! set 1 top_hi;
  ret (Helper.U32Split top_lo top_hi).

Definition op_u32add : VM P OperationHelperRegisters :=
  let! (a, b) := require_u32_operands2 0 1 in
  let result := new_unchecked (⟦a⟧ + ⟦b⟧) in
  let '(carry, sum) := split_element result in
  do! trace (record_u32_range_checks sum carry);
  do! set 0 sum;
  do! set 1 carry;
  ret (Helper.U32Add sum carry).

Definition op_u32add3 : VM P OperationHelperRegisters :=
  let! (a, b, c) := require_u32_operands3 0 1 2 in
  let result := new_unchecked (⟦a⟧ + ⟦b⟧ + ⟦c⟧) in
  let '(carry, sum) := split_element result in
  do! trace (record_u32_range_checks sum carry);
  do! decrement_size;
  do! set 0 sum;
  do! set 1 carry;
  ret (Helper.U32Add3 sum carry).

Definition op_u32sub : VM P OperationHelperRegisters :=
  let! (b, a) := require_u32_operands2 0 1 in
  let result := wrap64 (⟦a⟧ - ⟦b⟧) in
  let borrow := new_unchecked (Z.shiftr result 63) in
  let diff := new_unchecked (Z.land result U32_MAX) in
  do! trace (record_u32_range_checks diff ZERO);
  do! set 0 borrow;
  do! set 1 diff;
  ret (Helper.U32Sub diff).

Definition op_u32mul : VM P OperationHelperRegisters :=
  let! (a, b) := require_u32_operands2 0 1 in
  let result := new_unchecked (⟦a⟧ * ⟦b⟧) in
  let '(hi, lo) := split_element result in
  do! trace (record_u32_range_checks lo hi);
  do! set 0 lo;
  do! set 1 hi;
  ret (Helper.U32Mul lo hi).

Definition op_u32madd : VM P OperationHelperRegisters :=
  let! (a, b, c) := require_u32_operands3 0 1 2 in
  let result := new_unchecked (⟦a⟧ * ⟦b⟧ + ⟦c⟧) in
  let '(hi, lo) := split_element result in
  do! trace (record_u32_range_checks lo hi);
  do! decrement_size;
  do! set 0 lo;
  do! set 1 hi;
  ret (Helper.U32Madd lo hi).

Definition op_u32div : VM P OperationHelperRegisters :=
  let! (b, a) := require_u32_operands2 0 1 in
  let denominator := ⟦b⟧ in
  let numerator := ⟦a⟧ in
  if denominator =? 0 then fail_op DivideByZero
  else
    let quotient := numerator / denominator in
    let remainder := numerator - quotient * denominator in
    do! set 0 (new_unchecked remainder);
    do! set 1 (new_unchecked quotient);
    let remainder_diff := new_unchecked (denominator - remainder - 1) in
    let quotient := new_unchecked quotient in
    let remainder := new_unchecked remainder in
    do! trace (record_u32div_range_checks quotient remainder remainder_diff);
    ret (Helper.U32Div quotient remainder remainder_diff).

Definition op_u32and : VM P OperationHelperRegisters :=
  let! (a, b) := require_u32_operands2 0 1 in
  do! trace (record_u32and a b);
  let result := Z.land ⟦a⟧ ⟦b⟧ in
  do! decrement_size;
  do! set 0 (new_unchecked result);
  ret Helper.Empty.

Definition op_u32xor : VM P OperationHelperRegisters :=
  let! (a, b) := require_u32_operands2 0 1 in
  do! trace (record_u32xor a b);
  let result := Z.lxor ⟦a⟧ ⟦b⟧ in
  do! decrement_size;
  do! set 0 (new_unchecked result);
  ret Helper.Empty.

Definition op_u32assert2 (err_code : Felt) : VM P OperationHelperRegisters :=
  let! first := get 0 in
  let! second := get 1 in
  let first_invalid := not_u32 first in
  let second_invalid := not_u32 second in
  if first_invalid || second_invalid then
    let invalid_values :=
      (if first_invalid then [first] else []) ++ (if second_invalid then [second] else []) in
    if decide (err_code <> ZERO) then fail_op (U32AssertionFailed err_code invalid_values)
    else fail_op (NotU32Values invalid_values)
  else
    do! trace (record_u32_range_checks first second);
    ret (Helper.U32Assert2 first second).

End U32Ops.
