(* ===== verification/IoOps.v ===== *)
(** * Input and output operations

    The handlers of processor/src/execution/operations/io_ops/mod.rs: the
    advice stack, memory reads and writes, and the streaming operations. *)

From S2P Require Import Prelude Felt Machine.

(** [WORD_SIZE_FELT] and [DOUBLE_WORD_SIZE] of operations/mod.rs. *)
Definition WORD_SIZE_FELT : Felt := new_unchecked 4.
Definition DOUBLE_WORD_SIZE : Felt := new_unchecked 8.

Section IoOps.
Context `{G : Goldilocks} {P : Type} `{Processor P}.

Definition op_advpop : VM P OperationHelperRegisters :=
  let! value := on_proc adv_pop_stack in
  do! trace (record_advice_pop_stack value);
  do! increment_size;
  do! set 0 value;
  ret Helper.Empty.

Definition op_advpopw : VM P OperationHelperRegisters :=
  let! word := on_proc adv_pop_stack_word in
  do! trace (record_advice_pop_stack_word word);
  do! set_word 0 word;
  ret Helper.Empty.

Definition op_mloadw : VM P OperationHelperRegisters :=
  let! addr := get 0 in
  let! ctx0 := ctx in
  let! clk0 := clock in
  do! decrement_size;
  let! word := on_proc (mem_read_word ctx0 addr clk0) in
  let! ctx1 := ctx in
  let! clk1 := clock in
  do! trace (record_memory_read_word word addr ctx1 clk1);
  do! set_word 0 word;
  ret Helper.Empty.

Definition op_mstorew : VM P OperationHelperRegisters :=
  let! addr := get 0 in
  let! x1 := get 1 in
  let! x2 := get 2 in
  let! x3 := get 3 in
  let! x4 := get 4 in
  let word := mkWord x1 x2 x3 x4 in
  let! ctx0 := ctx in
  let! clk0 := clock in
  do! decrement_size;
  do! on_proc (mem_write_word ctx0 addr clk0 word);
  let! ctx1 := ctx in
  let! clk1 := clock in
  do! trace (record_memory_write_word word addr ctx1 clk1);
  ret Helper.Empty.

Definition op_mload : VM P OperationHelperRegisters :=
  let! ctx0 := ctx in
  let! addr := get 0 in
  let! element := on_proc (mem_read_element ctx0 addr) in
  let! ctx1 := ctx in
  let! clk1 := clock in
  do! trace (record_memory_read_element element addr ctx1 clk1);
  do! set 0 element;
  ret Helper.Empty.

Definition op_mstore : VM P OperationHelperRegisters :=
  let! addr := get 0 in
  let! value := get 1 in
  let! ctx0 := ctx in
  do! decrement_size;
  do! on_proc (mem_write_element ctx0 addr value);
  let! ctx1 := ctx in
  let! clk1 := clock in
  do! trace (record_memory_write_element value addr ctx1 clk1);
  ret Helper.Empty.

Definition MEM_ADDR_STACK_IDX : nat := 12.

Definition op_mstream : VM P OperationHelperRegisters :=
  let! ctx0 := ctx in
  let! clk0 := clock in
  let! addr_first_word := get MEM_ADDR_STACK_IDX in
  let addr_second_word := (addr_first_word + WORD_SIZE_FELT)%F in
  let! first_word := on_proc (mem_read_word ctx0 addr_first_word clk0) in
  let! second_word := on_proc (mem_read_word ctx0 addr_second_word clk0) in
  do! trace (record_memory_read_dword first_word second_word addr_first_word ctx0 clk0);
  do! set_word 0 first_word;
  do! set_word 4 second_word;
  do! set MEM_ADDR_STACK_IDX (addr_first_word + DOUBLE_WORD_SIZE)%F;
  ret Helper.Empty.

Definition op_pipe : VM P OperationHelperRegisters :=
  let! clk0 := clock in
  let! ctx0 := ctx in
  let! addr_first_word := get MEM_ADDR_STACK_IDX in
  let addr_second_word := (addr_first_word + WORD_SIZE_FELT)%F in
  let! (word0, word1) := on_proc adv_pop_stack_dword in
  do! on_proc (mem_write_word ctx0 addr_first_word clk0 word0);
  do! on_proc (mem_write_word ctx0 addr_second_word clk0 word1);
  do! trace (record_pipe word0 word1 addr_first_word ctx0 clk0);
  do! set_word 0 word0;
  do! set_word 4 word1;
  do! set MEM_ADDR_STACK_IDX (addr_first_word + DOUBLE_WORD_SIZE)%F;
  ret Helper.Empty.

End IoOps.
