(* ===== verification/CryptoOps.v ===== *)
(** * Cryptographic operations

    The handlers of processor/src/execution/operations/crypto_ops/mod.rs: the
    Poseidon2 permutation, Merkle path verification and update, Horner
    evaluation, the deferred-statement log and the stream cipher. *)

From S2P Require Import Prelude Felt Quad Machine IoOps.

(** [MAX_MERKLE_DEPTH] (air/src/trace/chiplets/hasher.rs). *)
Definition MAX_MERKLE_DEPTH : Z := 64.

(** [Tag::AND.as_word()] (core/src/deferred/node.rs). *)
Definition TAG_AND : Word := mkWord ONE ZERO ZERO ZERO.

Section CryptoOps.
Context `{G : Goldilocks} `{Q : QuadField} {P : Type} `{Processor P}.

Definition op_hperm : VM P OperationHelperRegisters :=
  let! (dw0, dw1) := get_double_word 0 in
  let! word := get_word 8 in
  let input_state := mkHasherState dw0 dw1 word in
  let! (addr, output_state) := on_proc (hash_permute input_state) in
  do! set_word 0 (hs_rate0 output_state);
  do! set_word 4 (hs_rate1 output_state);
  do! set_word 8 (hs_capacity output_state);
  do! trace (record_hasher_permute input_state output_state);
  ret (Helper.HPerm addr).

Definition validate_merkle_depth (depth : Felt) : VM P unit :=
  let depth_u64 := ⟦depth⟧ in
  if (depth_u64 =? 0) || (MAX_MERKLE_DEPTH <? depth_u64)
  then fail_op (MerkleDepthOutOfRange depth) else ret tt.

Definition validate_materialized_merkle_path_length (path_len : nat) (expected_depth : Felt) :
    VM P unit :=
  if Z.of_nat path_len =? ⟦expected_depth⟧ then ret tt
  else fail_op (InvalidMerklePathLength (Z.of_nat path_len) expected_depth).

Definition validate_merkle_path_length (path : option MerklePath) (expected_depth : Felt) :
    VM P unit :=
  match path with
  | Some path => validate_materialized_merkle_path_length (length path) expected_depth
  | None => ret tt
  end.

Definition op_mpverify (err_code : Felt) : VM P OperationHelperRegisters :=
  let! node := get_word 0 in
  let! depth := get 4 in
  let! index := get 5 in
  let! root := get_word 6 in
  do! validate_merkle_depth depth;
  let! path := on_proc (adv_get_merkle_path root depth index) in
  do! validate_merkle_path_length path depth;
  do! trace (record_hasher_build_merkle_root node path depth index root);
  let! addr := on_proc (hash_verify_merkle_root root node path index
    (MerklePathVerificationFailed node index root err_code)) in
  ret (Helper.MerklePath addr).

Definition op_mrupdate : VM P OperationHelperRegisters :=
  let! old_value := get_word 0 in
  let! depth := get 4 in
  let! index := get 5 in
  let! claimed_old_root := get_word 6 in
  let! new_value := get_word 10 in
  do! validate_merkle_depth depth;
  let! path := on_proc (adv_update_merkle_node claimed_old_root depth index new_value) in
  do! validate_merkle_path_length path depth;
  let! (addr, new_root) := on_proc (hash_update_merkle_root claimed_old_root old_value new_value
    path index (MerklePathVerificationFailed old_value index claimed_old_root ZERO)) in
  do! trace (record_hasher_update_merkle_root old_value new_value path depth index
    claimed_old_root new_root);
  do! set_word 0 new_root;
  ret (Helper.MerklePath addr).

(** ** Horner evaluation *)

Definition ALPHA_ADDR_INDEX : nat := 13.
Definition ACC_LOW_INDEX : nat := 14.
Definition ACC_HIGH_INDEX : nat := 15.

Definition read_horner_eval_point (addr : Felt) : VM P QuadFelt :=
  let! clk0 := clock in
  let! ctx0 := ctx in
  let! word := on_proc (mem_read_word ctx0 addr clk0) in
  if decide (word_c word <> ZERO \/ word_d word <> ZERO)
  then fail_op (InvalidHornerEvaluationPointWord ctx0 ⟦addr⟧)
  else
    do! trace (record_memory_read_word word addr ctx0 clk0);
    ret (mkQuad (word_a word) (word_b word)).

Definition op_horner_eval_base : VM P OperationHelperRegisters :=
  let! alpha_addr := get ALPHA_ADDR_INDEX in
  let! alpha := read_horner_eval_point alpha_addr in
  let! (coef_lo, coef_hi) := get_double_word 0 in
  let c0 := quad_from (word_a coef_lo) in
  let c1 := quad_from (word_b coef_lo) in
  let c2 := quad_from (word_c coef_lo) in
  let c3 := quad_from (word_d coef_lo) in
  let c4 := quad_from (word_a coef_hi) in
  let c5 := quad_from (word_b coef_hi) in
  let c6 := quad_from (word_c coef_hi) in
  let c7 := quad_from (word_d coef_hi) in
  let! acc_low := get ACC_LOW_INDEX in
  let! acc_high := get ACC_HIGH_INDEX in
  let acc := mkQuad acc_low acc_high in
  let tmp0 := ((acc * alpha + c0) * alpha + c1)%Q in
  let tmp1 := (((tmp0 * alpha + c2) * alpha + c3) * alpha + c4)%Q in
  let acc_new := (((tmp1 * alpha + c5) * alpha + c6) * alpha + c7)%Q in
  do! set ACC_HIGH_INDEX (q1 acc_new);
  do! set ACC_LOW_INDEX (q0 acc_new);
  ret (Helper.HornerEvalBase alpha tmp0 tmp1).

(** One step [acc -> coef + alpha * acc] of the fold. *)
Definition horner_step (alpha acc coef : QuadFelt) : QuadFelt := (coef + alpha * acc)%Q.

Definition op_horner_eval_ext : VM P OperationHelperRegisters :=
  let! lo0 := get 0 in
  let! hi0 := get 1 in
  let! lo1 := get 2 in
  let! hi1 := get 3 in
  let! lo2 := get 4 in
  let! hi2 := get 5 in
  let! lo3 := get 6 in
  let! hi3 := get 7 in
  let coef := [mkQuad lo0 hi0; mkQuad lo1 hi1; mkQuad lo2 hi2; mkQuad lo3 hi3] in
  let! alpha_addr := get ALPHA_ADDR_INDEX in
  let! alpha := read_horner_eval_point alpha_addr in
  let! acc_low := get ACC_LOW_INDEX in
  let! acc_high := get ACC_HIGH_INDEX in
  let acc_old := mkQuad acc_low acc_high in
  let acc_tmp := fold_left (horner_step alpha) (take 2 coef) acc_old in
  let acc_new := fold_left (horner_step alpha) (drop 2 coef) acc_tmp in
  do! set ACC_HIGH_INDEX (q1 acc_new);
  do! set ACC_LOW_INDEX (q0 acc_new);
  ret (Helper.HornerEvalExt alpha acc_tmp).

(** ** Deferred statements *)

Definition op_log_deferred : VM P OperationHelperRegisters :=
  let! statement_digest := get_word 4 in
  let! state_prev := on_proc sys_deferred_root in
  let hasher_state := mkHasherState state_prev statement_digest TAG_AND in
  let! (addr, output_state) := on_proc (hash_permute hasher_state) in
  let state_new := hs_rate0 output_state in
  let out_rate1 := hs_rate1 output_state in
  let out_cap := hs_capacity output_state in
  do! on_proc (sys_log_deferred_statement statement_digest state_new);
  do! set_word 0 state_new;
  do! set_word 4 out_rate1;
  do! set_word 8 out_cap;
  do! trace (record_hasher_permute hasher_state output_state);
  ret (Helper.LogDeferred addr state_prev).

(** ** Stream cipher *)

Definition MEMORY_SIZE : Z := U32_MAX + 1.

Definition validate_dual_word_stream_addrs (src_addr dst_addr : Felt) (ctx : ContextId)
    (clk : RowIndex) : VM P unit :=
  let src_addr_u64 := ⟦src_addr⟧ in
  let dst_addr_u64 := ⟦dst_addr⟧ in
  if U32_MAX <? src_addr_u64 then fail_mem (AddressOutOfBounds src_addr_u64) else
  let src_end := src_addr_u64 + 8 in
  if MEMORY_SIZE <? src_end then fail_mem (AddressOutOfBounds src_addr_u64) else
  if U32_MAX <? dst_addr_u64 then fail_mem (AddressOutOfBounds dst_addr_u64) else
  let dst_end := dst_addr_u64 + 8 in
  if MEMORY_SIZE <? dst_end then fail_mem (AddressOutOfBounds dst_addr_u64) else
  if (src_addr_u64 <? dst_end) && (dst_addr_u64 <? src_end) then
    let dst_word2 := dst_addr_u64 + 4 in
    let overlap_first := (src_addr_u64 <=? dst_addr_u64) && (dst_addr_u64 <? src_end) in
    let offending_addr := if overlap_first then dst_addr_u64 else dst_word2 in
    fail_mem (IllegalMemoryAccess ctx offending_addr (from_u32 clk))
  else ret tt.

Definition SRC_PTR_IDX : nat := 12.
Definition DST_PTR_IDX : nat := 13.

Definition word_add (a b : Word) : Word :=
  mkWord (word_a a + word_a b)%F (word_b a + word_b b)%F
         (word_c a + word_c b)%F (word_d a + word_d b)%F.

Definition op_crypto_stream : VM P OperationHelperRegisters :=
  let! ctx0 := ctx in
  let! clk0 := clock in
  let! src_addr := get SRC_PTR_IDX in
  let! dst_addr := get DST_PTR_IDX in
  do! validate_dual_word_stream_addrs src_addr dst_addr ctx0 clk0;
  let src_addr_word2 := (src_addr + WORD_SIZE_FELT)%F in
  let! plaintext_word1 := on_proc (mem_read_word ctx0 src_addr clk0) in
  let! plaintext_word2 := on_proc (mem_read_word ctx0 src_addr_word2 clk0) in
  let! (rate_lo, rate_hi) := get_double_word 0 in
  let ciphertext_word1 := word_add plaintext_word1 rate_lo in
  let ciphertext_word2 := word_add plaintext_word2 rate_hi in
  let dst_addr_word2 := (dst_addr + WORD_SIZE_FELT)%F in
  do! on_proc (mem_write_word ctx0 dst_addr clk0 ciphertext_word1);
  do! on_proc (mem_write_word ctx0 dst_addr_word2 clk0 ciphertext_word2);
  do! trace (record_crypto_stream plaintext_word1 plaintext_word2 src_addr
    ciphertext_word1 ciphertext_word2 dst_addr ctx0 clk0);
  do! set_word 0 ciphertext_word1;
  do! set_word 4 ciphertext_word2;
  do! set SRC_PTR_IDX (src_addr + DOUBLE_WORD_SIZE)%F;
  do! set DST_PTR_IDX (dst_addr + DOUBLE_WORD_SIZE)%F;
  ret Helper.Empty.

End CryptoOps.
