(* ===== verification/FriOps.v ===== *)
(** * The FRI folding operation and arithmetic circuit evaluation

    The handlers of processor/src/execution/operations/fri_ops/mod.rs and
    eval_circuit.rs. *)

From S2P Require Import Prelude Felt Quad AceCircuit Machine.

(** ** FRI *)

Definition EIGHT : Felt := new_unchecked 8.
Definition TWO_INV : Felt := new_unchecked 9223372034707292161.
Definition TAU_INV : Felt := new_unchecked 18446462594437873665.
Definition TAU2_INV : Felt := new_unchecked 18446744069414584320.
Definition TAU3_INV : Felt := new_unchecked 281474976710656.

Definition bit_reverse_coset (coset : Z) : option nat :=
  if coset =? 0 then Some 0%nat
  else if coset =? 1 then Some 2%nat
  else if coset =? 2 then Some 1%nat
  else if coset =? 3 then Some 3%nat
  else None.

Definition get_tau_factor (coset : Z) : option Felt :=
  if coset =? 0 then Some ONE
  else if coset =? 1 then Some TAU_INV
  else if coset =? 2 then Some TAU2_INV
  else if coset =? 3 then Some TAU3_INV
  else None.

(** The one-hot flags, as the array [[f0; f1; f2; f3]]. *)
Definition get_coset_flags (coset : Z) : option Word :=
  if coset =? 0 then Some (mkWord ONE ZERO ZERO ZERO)
  else if coset =? 1 then Some (mkWord ZERO ONE ZERO ZERO)
  else if coset =? 2 then Some (mkWord ZERO ZERO ONE ZERO)
  else if coset =? 3 then Some (mkWord ZERO ZERO ZERO ONE)
  else None.

Section FriOps.
Context `{G : Goldilocks} `{Q : QuadField} {P : Type} `{Processor P}.

Definition compute_evaluation_points (alpha : QuadFelt) (x_inv : Felt) : QuadFelt * QuadFelt :=
  let ev := (alpha *_ x_inv)%Q in
  let es := (ev * ev)%Q in
  (ev, es).

Definition fold2 (f_x f_neg_x ep : QuadFelt) : QuadFelt :=
  ((f_x + f_neg_x + ((f_x - f_neg_x) * ep)) *_ TWO_INV)%Q.

Definition fold4 (v0 v1 v2 v3 ev es : QuadFelt) : QuadFelt * QuadFelt * QuadFelt :=
  let tmp0 := fold2 v0 v2 ev in
  let tmp1 := fold2 v1 v3 (ev *_ TAU_INV)%Q in
  let folded_value := fold2 tmp0 tmp1 es in
  (folded_value, tmp0, tmp1).

Definition get_query_values : VM P (list QuadFelt) :=
  let! w0 := get_word 0 in
  let! w1 := get_word 4 in
  ret [mkQuad (word_a w0) (word_b w0); mkQuad (word_c w0) (word_d w0);
       mkQuad (word_a w1) (word_b w1); mkQuad (word_c w1) (word_d w1)].

(** [[values[0], values[2], values[1], values[3]]]. *)
Definition reorder_bitrev4 (values : list QuadFelt) : option (QuadFelt * QuadFelt * QuadFelt * QuadFelt) :=
  match values with
  | [v0; v1; v2; v3] => Some (v0, v2, v1, v3)
  | _ => None
  end.

Definition op_fri_ext2fold4 : VM P OperationHelperRegisters :=
  let! query_values := get_query_values in
  let! (n0, n1, n2, n3) := expect (reorder_bitrev4 query_values) in
  let! coset_felt := get 9 in
  let coset := ⟦coset_felt⟧ in
  if 3 <? coset then fail_op (FriError (FriCosetTooBig coset)) else
  let! folded_pos := get 8 in
  let! poe := get 10 in
  if decide (poe = ZERO) then fail_op (FriError FriDomainSizeZero) else
  let! pe0 := get 11 in
  let! pe1 := get 12 in
  let prev_value := mkQuad pe0 pe1 in
  let! a0 := get 13 in
  let! a1 := get 14 in
  let alpha := mkQuad a0 a1 in
  let! layer_ptr := get 15 in
  let! row_idx := expect (bit_reverse_coset coset) in
  let! row_value := expect (query_values !! row_idx) in
  if decide (row_value <> prev_value)
  then fail_op (FriError (FriInconsistentProjection coset)) else
  let! f_tau := expect (get_tau_factor coset) in
  let x := (poe * f_tau)%F in
  let! x_inv := expect (gl_inverse x) in
  let '(ev, es) := compute_evaluation_points alpha x_inv in
  let '(folded_value, tmp0, tmp1) := fold4 n0 n1 n2 n3 ev es in
  let! coset_flags := expect (get_coset_flags coset) in
  let poe2 := (poe * poe)%F in
  let poe4 := (poe2 * poe2)%F in
  do! decrement_size;
  do! set 0 (q0 tmp0);
  do! set 1 (q1 tmp0);
  do! set 2 (q0 tmp1);
  do! set 3 (q1 tmp1);
  do! set 4 (word_b coset_flags);
  do! set 5 (word_c coset_flags);
  do! set 6 (word_d coset_flags);
  do! set 7 poe2;
  let next_layer_ptr := (layer_ptr + EIGHT)%F in
  do! set 8 next_layer_ptr;
  do! set 9 next_layer_ptr;
  do! set 10 poe4;
  do! set 11 folded_pos;
  do! set 12 (q0 folded_value);
  do! set 13 (q1 folded_value);
  do! set 14 next_layer_ptr;
  ret (Helper.FriExt2Fold4 ev es x x_inv).

(** ** Circuit evaluation *)

(** The READ loop: one word per row. *)
Fixpoint ace_read_rows (n : nat) (ctx clk : Z) (ptr : Felt) (e : CircuitEvaluation) :
    PM P (Felt * CircuitEvaluation) :=
  match n with
  | O => ret (ptr, e)
  | S n =>
      let! word := mem_read_word ctx ptr clk in
      ace_read_rows n ctx clk (ptr + PTR_OFFSET_WORD)%F (do_read e ptr word)
  end.

(** The EVAL loop: one instruction element per row. *)
Fixpoint ace_eval_rows (n : nat) (ctx : Z) (ptr : Felt) (e : CircuitEvaluation) :
    PM P CircuitEvaluation :=
  match n with
  | O => ret e
  | S n =>
      let! instruction := mem_read_element ctx ptr in
      match do_eval e ptr instruction with
      | Ok e' => ace_eval_rows n ctx (ptr + PTR_OFFSET_ELEM)%F e'
      | Err err => fail (AceChipError err)
      | Panic => panic
      end
  end.

Definition eval_circuit_impl (ctx : Z) (ptr : Felt) (clk : Z) (num_vars num_eval : Felt) :
    PM P CircuitEvaluation :=
  let num_vars := ⟦num_vars⟧ in
  let num_eval := ⟦num_eval⟧ in
  let num_wires := Z.min U64_MAX (num_vars + num_eval) in
  if MAX_NUM_ACE_WIRES <? num_wires then fail (AceChipError (AceTooManyWires num_wires)) else
  if negb (num_vars mod 2 =? 0) || (num_vars =? 0)
  then fail (AceChipError (AceBadNumVars num_vars)) else
  if negb (num_eval mod 4 =? 0) || (num_eval =? 0)
  then fail (AceChipError (AceBadNumEval num_eval)) else
  let num_read_rows := num_vars / 2 in
  let num_eval_rows := num_eval in
  let! e := expect (circuit_evaluation_new ctx clk num_read_rows num_eval_rows) in
  let! (ptr, e) := ace_read_rows (Z.to_nat num_read_rows) ctx clk ptr e in
  let! e := ace_eval_rows (Z.to_nat num_eval_rows) ctx ptr e in
  match output_value e with
  | Some v => if decide (v = QUAD_ZERO) then ret e else fail (AceChipError AceNotZero)
  | None => fail (AceChipError AceNotZero)
  end.

Definition op_eval_circuit : VM P unit :=
  let! num_eval := get 2 in
  let! num_read := get 1 in
  let! ptr := get 0 in
  let! ctx0 := ctx in
  let! clk0 := clock in
  let! e := on_proc (eval_circuit_impl ctx0 ptr clk0 num_read num_eval) in
  trace (record_circuit_evaluation e).

End FriOps.
