(* ===== verification/ExecuteOp.v ===== *)
(** * The operation dispatcher

    [execute_op] of processor/src/execution/operations/mod.rs: every operation
    of the instruction set to its handler.  [Emit] panics there: basic-block
    execution intercepts it before the dispatcher is reached. *)

From S2P Require Import Prelude Felt Quad Operations Machine StackOps ArithOps IoOps CryptoOps.
From S2P Require Import FriOps.

Section ExecuteOp.
Context `{G : Goldilocks} `{Q : QuadField} {P : Type} `{Processor P}.

Definition execute_op (op : Operation) : VM P OperationHelperRegisters :=
  match op with
  (* system operations *)
  | Op.Noop => ret Helper.Empty
  | Op.Assert err_code => op_assert err_code
  | Op.SDepth => op_sdepth
  | Op.Caller => op_caller
  | Op.Clk => op_clk
  | Op.Emit => panic
  (* field operations *)
  | Op.Add => op_add
  | Op.Neg => op_neg
  | Op.Mul => op_mul
  | Op.Inv => op_inv
  | Op.Incr => op_incr
  | Op.And => op_and
  | Op.Or => op_or
  | Op.Not => op_not
  | Op.Eq => op_eq
  | Op.Eqz => op_eqz
  | Op.Expacc => op_expacc
  | Op.Ext2Mul => op_ext2mul
  (* u32 operations *)
  | Op.U32split => op_u32split
  | Op.U32add => op_u32add
  | Op.U32add3 => op_u32add3
  | Op.U32sub => op_u32sub
  | Op.U32mul => op_u32mul
  | Op.U32madd => op_u32madd
  | Op.U32div => op_u32div
  | Op.U32and => op_u32and
  | Op.U32xor => op_u32xor
  | Op.U32assert2 err_code => op_u32assert2 err_code
  (* stack manipulation *)
  | Op.Pad => op_pad
  | Op.Drop => op_drop
  | Op.Dup0 => dup_nth 0
  | Op.Dup1 => dup_nth 1
  | Op.Dup2 => dup_nth 2
  | Op.Dup3 => dup_nth 3
  | Op.Dup4 => dup_nth 4
  | Op.Dup5 => dup_nth 5
  | Op.Dup6 => dup_nth 6
  | Op.Dup7 => dup_nth 7
  | Op.Dup9 => dup_nth 9
  | Op.Dup11 => dup_nth 11
  | Op.Dup13 => dup_nth 13
  | Op.Dup15 => dup_nth 15
  | Op.Swap => op_swap
  | Op.SwapW => op_swapw_nth 1
  | Op.SwapW2 => op_swapw_nth 2
  | Op.SwapW3 => op_swapw_nth 3
  | Op.SwapDW => op_swap_double_word
  | Op.MovUp2 => op_movup 3
  | Op.MovUp3 => op_movup 4
  | Op.MovUp4 => op_movup 5
  | Op.MovUp5 => op_movup 6
  | Op.MovUp6 => op_movup 7
  | Op.MovUp7 => op_movup 8
  | Op.MovUp8 => op_movup 9
  | Op.MovDn2 => op_movdn 3
  | Op.MovDn3 => op_movdn 4
  | Op.MovDn4 => op_movdn 5
  | Op.MovDn5 => op_movdn 6
  | Op.MovDn6 => op_movdn 7
  | Op.MovDn7 => op_movdn 8
  | Op.MovDn8 => op_movdn 9
  | Op.CSwap => op_cswap
  | Op.CSwapW => op_cswapw
  (* input / output *)
  | Op.Push value => op_push value
  | Op.AdvPop => op_advpop
  | Op.AdvPopW => op_advpopw
  | Op.MLoadW => op_mloadw
  | Op.MStoreW => op_mstorew
  | Op.MLoad => op_mload
  | Op.MStore => op_mstore
  | Op.MStream => op_mstream
  | Op.Pipe => op_pipe
  (* cryptographic operations *)
  | Op.HPerm => op_hperm
  | Op.MpVerify err_code => op_mpverify err_code
  | Op.MrUpdate => op_mrupdate
  | Op.FriE2F4 => op_fri_ext2fold4
  | Op.HornerBase => op_horner_eval_base
  | Op.HornerExt => op_horner_eval_ext
  | Op.EvalCircuit =>
      do! op_eval_circuit;
      ret Helper.Empty
  | Op.LogDeferred => op_log_deferred
  | Op.CryptoStream => op_crypto_stream
  end.

End ExecuteOp.
