(* ===== verification/Control.v ===== *)
(** * The execution loop

    processor/src/execution: the loop that pops continuations and runs them
    against an abstract processor, tracer and stopper, with the handlers of the
    node kinds (join.rs, split.rs, loop.rs, call.rs, dyn.rs, external.rs,
    basic_block.rs).  The functions are those of the path without package
    debug info ([execute_impl_pure] and the [_pure] handlers; the other path
    differs in the source positions it carries along).

    [ControlFlow::Break(r)] is [Err r]; a handler that returns
    [ControlFlow<BreakReason>] is lifted with [map_break], as in the source.
    The continuation stack is a list with its top first. *)

From S2P Require Import Prelude Felt Quad Operations OpBatch Mast AceCircuit Machine ExecuteOp.

(** ** Continuations *)

Inductive Continuation (F : Type) :=
| StartNode (node_id : MastNodeId)
| FinishJoin (node_id : MastNodeId)
| FinishSplit (node_id : MastNodeId)
| FinishLoop (node_id : MastNodeId)
| FinishCall (node_id : MastNodeId)
| FinishDyn (node_id : MastNodeId)
| ResumeBasicBlock (node_id : MastNodeId) (batch_index op_idx_in_batch : nat)
| Respan (node_id : MastNodeId) (batch_index : nat)
| FinishBasicBlock (node_id : MastNodeId)
| EnterForest (forest : F).
Arguments StartNode {F}.
Arguments FinishJoin {F}.
Arguments FinishSplit {F}.
Arguments FinishLoop {F}.
Arguments FinishCall {F}.
Arguments FinishDyn {F}.
Arguments ResumeBasicBlock {F}.
Arguments Respan {F}.
Arguments FinishBasicBlock {F}.
Arguments EnterForest {F}.

Definition increments_clk {F} (c : Continuation F) : bool :=
  match c with EnterForest _ => false | _ => true end.

Definition exec_node {F} (c : Continuation F) : option MastNodeId :=
  match c with
  | StartNode id | FinishJoin id | FinishSplit id | FinishLoop id | FinishCall id | FinishDyn id
  | ResumeBasicBlock id _ _ | Respan id _ | FinishBasicBlock id => Some id
  | EnterForest _ => None
  end.

(** [iter_continuations_for_next_clock]. *)
Fixpoint continuations_for_next_clock {F} (l : list (Continuation F)) : list (Continuation F) :=
  match l with
  | [] => []
  | c :: l => if increments_clk c then [c] else c :: continuations_for_next_clock l
  end.

(** ** Break reasons *)

Inductive BreakReason (F : Type) :=
| BreakErr (e : ExecutionError)
| Stopped (continuation : option (Continuation F)).
Arguments BreakErr {F}.
Arguments Stopped {F}.

Inductive InternalBreakReason (F : Type) :=
| User (r : BreakReason F)
| EmitBreak (op_idx : nat) (continuation : Continuation F)
| LoadMastForestFromDyn (callee_hash : Word)
| LoadMastForestFromExternal (external_node_id : MastNodeId) (procedure_hash : Word).
Arguments User {F}.
Arguments EmitBreak {F}.
Arguments LoadMastForestFromDyn {F}.
Arguments LoadMastForestFromExternal {F}.

(** ** Tracers and stoppers *)

Class Tracer (T P F : Type) := {
  tr_start_clock_cycle : P -> Continuation F -> list (Continuation F) -> F -> T -> T;
  tr_finalize_clock_cycle : P -> OperationHelperRegisters -> F -> M ExecutionError T unit;
  tr_record_mast_forest_resolution : MastNodeId -> F -> T -> T;
  tr_record_external_node_entered : MastNodeId -> F -> T -> T;
  tr_event : TracerEvent -> T -> T
}.

(** [NoopTracer]. *)
#[export] Instance noop_tracer {P F : Type} : Tracer unit P F := {|
  tr_start_clock_cycle _ _ _ _ t := t;
  tr_finalize_clock_cycle _ _ _ := ret tt;
  tr_record_mast_forest_resolution _ _ t := t;
  tr_record_external_node_entered _ _ t := t;
  tr_event _ t := t
|}.

(** The continuation to add on stopping is a closure: it is evaluated, and may
    panic ([None]), only when the stopper calls it. *)
Class Stopper (P F : Type) :=
  should_stop : P -> list (Continuation F) -> option (option (Continuation F)) ->
    res (BreakReason F) unit.

(** ** The state threaded through execution *)

Record XState (P F H T : Type) := mkX {
  x_processor : P;
  x_stack : list (Continuation F);
  x_forest : F;
  x_host : H;
  x_tracer : T
}.
Arguments mkX {P F H T}.
Arguments x_processor {P F H T}.
Arguments x_stack {P F H T}.
Arguments x_forest {P F H T}.
Arguments x_host {P F H T}.
Arguments x_tracer {P F H T}.

Definition FMP_INIT_VALUE : Felt := new_unchecked (2 ^ 31).
Definition FMP_ADDR : Felt := new_unchecked (U32_MAX - 1).

Section Control.
Context `{G : Goldilocks} `{Q : QuadField} {P : Type} `{PP : Processor P}.
Context {F : Type} `{EF : ExecutableMastForest F} {H T : Type} `{TT : Tracer T P F}.
Context `{SS : Stopper P F} (kernel : KernelDescriptor).

Notation X := (XState P F H T).
Notation BM A := (M (BreakReason F) X A).
Notation XM A := (M (InternalBreakReason F) X A).

(** ** State access *)

Definition put_processor (p : P) (x : X) : X :=
  mkX p (x_stack x) (x_forest x) (x_host x) (x_tracer x).
Definition put_conts (l : list (Continuation F)) (x : X) : X :=
  mkX (x_processor x) l (x_forest x) (x_host x) (x_tracer x).
Definition put_forest (f : F) (x : X) : X :=
  mkX (x_processor x) (x_stack x) f (x_host x) (x_tracer x).
Definition put_tracer (t : T) (x : X) : X :=
  mkX (x_processor x) (x_stack x) (x_forest x) (x_host x) t.

Definition map_break {A} (m : BM A) : XM A :=
  fun x =>
    match m x with
    | (Ok a, x') => (Ok a, x')
    | (Err r, x') => (Err (User r), x')
    | (Panic, x') => (Panic, x')
    end.

(** A method of the processor, its error reported as [BreakReason::Err]. *)
Definition on_processor {A} (m : PM P A) : BM A :=
  fun x =>
    match m (x_processor x) with
    | (Ok a, p) => (Ok a, put_processor p x)
    | (Err e, p) => (Err (BreakErr e), put_processor p x)
    | (Panic, p) => (Panic, put_processor p x)
    end.

(** An operation handler: it calls the tracer in the order of its events. *)
Definition on_handler {A} (m : VM P A) : BM A :=
  fun x =>
    let '(r, s) := m (mkSt (x_processor x) []) in
    let x' := put_tracer (foldl (fun t e => tr_event e t) (x_tracer x) (st_trace s))
                (put_processor (st_proc s) x) in
    (match r with Ok a => Ok a | Err e => Err (BreakErr e) | Panic => Panic end, x').

Definition trace_call (f : T -> T) : BM unit := modify (fun x => put_tracer (f (x_tracer x)) x).
Definition record (e : TracerEvent) : BM unit := trace_call (tr_event e).

Definition push_continuation (c : Continuation F) : BM unit :=
  modify (fun x => put_conts (c :: x_stack x) x).

(** [option_map_break_reason]. *)
Definition option_map_break_reason {A} (o : option A) (err_msg : string) : BM A :=
  ok_or o (BreakErr (EInternal err_msg)).

Definition fail_operation {A} (e : OperationError) : BM A := fail (BreakErr (EOperation e)).

(** ** Clock cycles *)

Definition start_clock_cycle (c : Continuation F) : BM unit :=
  modify (fun x =>
    put_tracer (tr_start_clock_cycle (x_processor x) c (x_stack x) (x_forest x) (x_tracer x)) x).

Definition finalize_clock_cycle_with_continuation_and_op_helpers
    (continuation_after_stop : option (option (Continuation F)))
    (op_helper_registers : OperationHelperRegisters) (current_forest : F) : BM unit :=
  do! (fun x =>
    match tr_finalize_clock_cycle (x_processor x) op_helper_registers current_forest (x_tracer x) with
    | (Ok _, t) => (Ok tt, put_tracer t x)
    | (Err e, t) => (Err (BreakErr e), put_tracer t x)
    | (Panic, t) => (Panic, put_tracer t x)
    end);
  do! on_processor sys_increment_clock;
  fun x => (should_stop (x_processor x) (x_stack x) continuation_after_stop, x).

Definition finalize_clock_cycle_with_continuation
    (continuation_after_stop : option (option (Continuation F))) (current_forest : F) : BM unit :=
  finalize_clock_cycle_with_continuation_and_op_helpers continuation_after_stop Helper.Empty
    current_forest.

Definition finalize_clock_cycle (current_forest : F) : BM unit :=
  finalize_clock_cycle_with_continuation (Some None) current_forest.

(** [get_next_ctx_id]: [clock() + 1], an addition on [u32]. *)
Definition get_next_ctx_id : BM ContextId :=
  let! clk := on_processor sys_clock in
  if clk <? U32_MAX then ret (clk + 1) else panic.

(** ** Join *)

Definition start_join_node (join_node : JoinNode) (node_id : MastNodeId) (current_forest : F) :
    BM unit :=
  do! start_clock_cycle (StartNode node_id);
  do! push_continuation (FinishJoin node_id);
  do! push_continuation (StartNode (second join_node));
  do! push_continuation (StartNode (first join_node));
  finalize_clock_cycle current_forest.

Definition finish_join_node (node_id : MastNodeId) (current_forest : F) : BM unit :=
  do! start_clock_cycle (FinishJoin node_id);
  finalize_clock_cycle_with_continuation (Some None) current_forest.

(** ** Split *)

Definition start_split_node (split_node : SplitNode) (node_id : MastNodeId) (current_forest : F) :
    BM unit :=
  do! start_clock_cycle (StartNode node_id);
  let! condition := on_processor (stack_get 0) in
  do! on_processor stack_decrement_size;
  do! (if decide (condition = ONE) then
         do! push_continuation (FinishSplit node_id);
         push_continuation (StartNode (on_true split_node))
       else if decide (condition = ZERO) then
         do! push_continuation (FinishSplit node_id);
         push_continuation (StartNode (on_false split_node))
       else fail_operation (NotBinaryValue BvIf condition));
  finalize_clock_cycle current_forest.

Definition finish_split_node (node_id : MastNodeId) (current_forest : F) : BM unit :=
  do! start_clock_cycle (FinishSplit node_id);
  finalize_clock_cycle_with_continuation (Some None) current_forest.

(** ** Loop *)

Definition start_loop_node (loop_node : LoopNode) (current_node_id : MastNodeId)
    (current_forest : F) : BM unit :=
  do! start_clock_cycle (StartNode current_node_id);
  do! push_continuation (FinishLoop current_node_id);
  do! push_continuation (StartNode (body loop_node));
  finalize_clock_cycle current_forest.

Definition finish_loop_node (current_node_id : MastNodeId) (current_forest : F) : BM unit :=
  let! condition := on_processor (stack_get 0) in
  let! node := option_map_break_reason (get_node_by_id current_forest current_node_id)
                 "loop node not found in current forest" in
  let! loop_node := expect (unwrap_loop node) in
  if decide (condition = ONE) then
    do! start_clock_cycle (FinishLoop current_node_id);
    do! on_processor stack_decrement_size;
    do! push_continuation (FinishLoop current_node_id);
    do! push_continuation (StartNode (body loop_node));
    finalize_clock_cycle current_forest
  else if decide (condition = ZERO) then
    do! start_clock_cycle (FinishLoop current_node_id);
    do! on_processor stack_decrement_size;
    finalize_clock_cycle_with_continuation (Some None) current_forest
  else fail_operation (NotBinaryValue BvLoop condition).

(** ** Call *)

Definition start_call_node (call_node : CallNode) (current_node_id : MastNodeId)
    (current_forest : F) : BM unit :=
  do! start_clock_cycle (StartNode current_node_id);
  do! on_processor stack_start_context;
  do! on_processor sys_save_call_state;
  let! callee_hash := option_map_break_reason (get_digest_by_id current_forest (callee call_node))
                        "callee node not found in current forest" in
  do! (if is_syscall call_node then
         if negb (contains_proc kernel callee_hash)
         then fail_operation (SyscallTargetNotInKernel callee_hash)
         else
           do! record (record_kernel_proc_access callee_hash);
           on_processor (sys_set_ctx 0)
       else
         let! new_ctx := get_next_ctx_id in
         do! on_processor (sys_set_ctx new_ctx);
         do! on_processor (sys_set_caller_hash callee_hash);
         do! on_processor (mem_write_element new_ctx FMP_ADDR FMP_INIT_VALUE);
         let! clk := on_processor sys_clock in
         record (record_memory_write_element FMP_INIT_VALUE FMP_ADDR new_ctx clk));
  do! push_continuation (FinishCall current_node_id);
  do! push_continuation (StartNode (callee call_node));
  finalize_clock_cycle current_forest.

Definition finish_call_node (node_id : MastNodeId) (current_forest : F) : BM unit :=
  do! start_clock_cycle (FinishCall node_id);
  do! on_processor stack_restore_context;
  do! on_processor sys_restore_call_state;
  finalize_clock_cycle_with_continuation (Some None) current_forest.

(** ** Dyn *)

Definition start_dyn_node (current_node_id : MastNodeId) (current_forest : F) : XM unit :=
  do! map_break (start_clock_cycle (StartNode current_node_id));
  let! node := map_break (option_map_break_reason (get_node_by_id current_forest current_node_id)
                 "dyn node not found in current forest") in
  let! dyn_node := expect (unwrap_dyn node) in
  let! read_ctx := map_break (on_processor sys_ctx) in
  let! clk := map_break (on_processor sys_clock) in
  let! mem_addr := map_break (on_processor (stack_get 0)) in
  let! callee_hash := map_break (on_processor (mem_read_word read_ctx mem_addr clk)) in
  do! map_break (on_processor stack_decrement_size);
  do! map_break
    (if is_dyncall dyn_node then
       let! new_ctx := get_next_ctx_id in
       do! on_processor stack_start_context;
       do! on_processor sys_save_call_state;
       do! on_processor (sys_set_ctx new_ctx);
       do! on_processor (sys_set_caller_hash callee_hash);
       do! on_processor (mem_write_element new_ctx FMP_ADDR FMP_INIT_VALUE);
       record (record_dyncall_memory callee_hash mem_addr read_ctx new_ctx clk)
     else record (record_memory_read_word callee_hash mem_addr read_ctx clk));
  do! map_break (push_continuation (FinishDyn current_node_id));
  let! root := expect (find_procedure_root current_forest callee_hash) in
  match root with
  | Some callee_id =>
      do! map_break (push_continuation (StartNode callee_id));
      map_break (finalize_clock_cycle current_forest)
  | None => fail (LoadMastForestFromDyn callee_hash)
  end.

(** The caller holds the old forest in [x_forest]; it is replaced by the new
    one before the cycle is finalized. *)
Definition finish_load_mast_forest_from_dyn_start (root_id : MastNodeId) (new_forest : F) : BM unit :=
  let! old_forest := gets x_forest in
  do! push_continuation (EnterForest old_forest);
  do! push_continuation (StartNode root_id);
  do! modify (put_forest new_forest);
  do! finalize_clock_cycle old_forest;
  trace_call (tr_record_mast_forest_resolution root_id new_forest).

Definition finish_dyn_node (node_id : MastNodeId) (current_forest : F) : BM unit :=
  do! start_clock_cycle (FinishDyn node_id);
  let! node := option_map_break_reason (get_node_by_id current_forest node_id)
                 "dyn node not found in current forest" in
  let! dyn_node := expect (unwrap_dyn node) in
  do! (if is_dyncall dyn_node then
         do! on_processor stack_restore_context;
         on_processor sys_restore_call_state
       else ret tt);
  finalize_clock_cycle_with_continuation (Some None) current_forest.

(** ** External *)

Definition execute_external_node (external_node_id : MastNodeId) (current_forest : F) : XM unit :=
  do! map_break (trace_call (tr_record_external_node_entered external_node_id current_forest));
  let! node := map_break (option_map_break_reason (get_node_by_id current_forest external_node_id)
                 "external node not found in current forest") in
  let! external_node := expect (unwrap_external node) in
  fail (LoadMastForestFromExternal external_node_id (external_digest external_node)).

Definition finish_load_mast_forest_from_external (resolved_node_id_new_forest : MastNodeId)
    (new_mast_forest : F) (external_node_id_old_forest : MastNodeId) : BM unit :=
  let! old_forest := gets x_forest in
  let! node := option_map_break_reason (get_node_by_id old_forest external_node_id_old_forest)
                 "external node not found in current forest" in
  let! external_node_old_forest := expect (unwrap_external node) in
  let! resolved_node_new_forest :=
    option_map_break_reason (get_node_by_id new_mast_forest resolved_node_id_new_forest)
      "resolved node not found in new mast forest" in
  if is_external resolved_node_new_forest
  then fail_operation (CircularExternalNode (external_digest external_node_old_forest))
  else
    do! trace_call (tr_record_mast_forest_resolution resolved_node_id_new_forest new_mast_forest);
    do! push_continuation (EnterForest old_forest);
    do! push_continuation (StartNode resolved_node_id_new_forest);
    modify (put_forest new_mast_forest).

(** ** Basic blocks *)

Definition get_continuation_after_executing_operation (basic_block_node : BasicBlockNode)
    (node_id : MastNodeId) (batch_index op_idx_in_batch : nat) : option (Continuation F) :=
  batch ← op_batches basic_block_node !! batch_index;
  last_op_idx_in_batch ← checked_sub (length (ob_ops batch)) 1;
  last_batch_idx_in_block ← checked_sub (num_op_batches basic_block_node) 1;
  Some (if (op_idx_in_batch <? last_op_idx_in_batch)%nat
        then ResumeBasicBlock node_id batch_index (op_idx_in_batch + 1)
        else if (batch_index <? last_batch_idx_in_block)%nat then Respan node_id (batch_index + 1)
        else FinishBasicBlock node_id).

Definition finish_basic_block (node_id : MastNodeId) (current_forest : F) : BM unit :=
  do! start_clock_cycle (FinishBasicBlock node_id);
  finalize_clock_cycle_with_continuation (Some None) current_forest.

(** One iteration of the loop of [execute_op_batch]. *)
Definition execute_batch_op (basic_block : BasicBlockNode) (node_id : MastNodeId)
    (batch_index batch_offset_in_block op_idx_in_batch : nat) (op : Operation)
    (current_forest : F) : XM unit :=
  let after := get_continuation_after_executing_operation basic_block node_id batch_index
                 op_idx_in_batch in
  do! map_break (start_clock_cycle (ResumeBasicBlock node_id batch_index op_idx_in_batch));
  let! operation_helpers :=
    match op with
    | Op.Emit =>
        let! continuation := expect after in
        fail (EmitBreak (batch_offset_in_block + op_idx_in_batch) continuation)
    | _ => map_break (on_handler (execute_op op))
    end in
  map_break (finalize_clock_cycle_with_continuation_and_op_helpers (Some <$> after)
               operation_helpers current_forest).

Fixpoint execute_batch_ops (basic_block : BasicBlockNode) (node_id : MastNodeId)
    (batch_index batch_offset_in_block op_idx_in_batch : nat) (ops : list Operation)
    (current_forest : F) : XM unit :=
  match ops with
  | [] => ret tt
  | op :: ops =>
      do! execute_batch_op basic_block node_id batch_index batch_offset_in_block op_idx_in_batch op
            current_forest;
      execute_batch_ops basic_block node_id batch_index batch_offset_in_block (S op_idx_in_batch)
        ops current_forest
  end.

Definition execute_op_batch (basic_block : BasicBlockNode) (node_id : MastNodeId)
    (batch_index start_op_idx batch_offset_in_block : nat) (current_forest : F) : XM unit :=
  let! batch := expect (op_batches basic_block !! batch_index) in
  execute_batch_ops basic_block node_id batch_index batch_offset_in_block start_op_idx
    (drop start_op_idx (ob_ops batch)) current_forest.

(** The loop over the remaining batches, each after its RESPAN. *)
Fixpoint execute_batches (basic_block : BasicBlockNode) (node_id : MastNodeId)
    (batch_index batch_offset_in_block : nat) (batches : list OpBatch) (current_forest : F) :
    XM unit :=
  match batches with
  | [] => map_break (finish_basic_block node_id current_forest)
  | op_batch :: batches =>
      do! map_break (start_clock_cycle (Respan node_id batch_index));
      do! map_break (finalize_clock_cycle_with_continuation
                       (Some (Some (ResumeBasicBlock node_id batch_index 0))) current_forest);
      do! execute_op_batch basic_block node_id batch_index 0 batch_offset_in_block current_forest;
      execute_batches basic_block node_id (S batch_index)
        (batch_offset_in_block + length (ob_ops op_batch)) batches current_forest
  end.

Definition batch_offset (basic_block : BasicBlockNode) (batch_index : nat) : nat :=
  sum_list (length ∘ ob_ops <$> take batch_index (op_batches basic_block)).

Definition execute_basic_block_node_from_batch (basic_block_node : BasicBlockNode)
    (node_id : MastNodeId) (start_batch_index : nat) (current_forest : F) : XM unit :=
  execute_batches basic_block_node node_id start_batch_index
    (batch_offset basic_block_node start_batch_index)
    (drop start_batch_index (op_batches basic_block_node)) current_forest.

Definition execute_basic_block_node_from_op_idx (basic_block_node : BasicBlockNode)
    (node_id : MastNodeId) (start_batch_index start_op_idx_in_batch : nat) (current_forest : F) :
    XM unit :=
  do! execute_op_batch basic_block_node node_id start_batch_index start_op_idx_in_batch
        (batch_offset basic_block_node start_batch_index) current_forest;
  execute_basic_block_node_from_batch basic_block_node node_id (start_batch_index + 1)
    current_forest.

Definition execute_basic_block_node_from_start (basic_block_node : BasicBlockNode)
    (node_id : MastNodeId) (current_forest : F) : XM unit :=
  do! map_break (start_clock_cycle (StartNode node_id));
  do! map_break (finalize_clock_cycle_with_continuation
                   (Some (Some (ResumeBasicBlock node_id 0 0))) current_forest);
  do! match op_batches basic_block_node with
      | [] => ret tt
      | _ => execute_op_batch basic_block_node node_id 0 0 0 current_forest
      end;
  execute_basic_block_node_from_batch basic_block_node node_id 1 current_forest.

Definition finish_emit_op_execution (post_emit_continuation : Continuation F) (current_forest : F) :
    BM unit :=
  do! finalize_clock_cycle_with_continuation (Some (Some post_emit_continuation)) current_forest;
  push_continuation post_emit_continuation.

(** ** The main loop *)

(** The body of the [while]: one popped continuation. *)
Definition execute_continuation (c : Continuation F) : XM unit :=
  let! current_forest := gets x_forest in
  match c with
  | StartNode node_id =>
      let! node := expect (get_node_by_id current_forest node_id) in
      match node with
      | NBlock n => execute_basic_block_node_from_start n node_id current_forest
      | NJoin n => map_break (start_join_node n node_id current_forest)
      | NSplit n => map_break (start_split_node n node_id current_forest)
      | NLoop n => map_break (start_loop_node n node_id current_forest)
      | NCall n => map_break (start_call_node n node_id current_forest)
      | NDyn _ => start_dyn_node node_id current_forest
      | NExternal _ => execute_external_node node_id current_forest
      end
  | FinishJoin node_id => map_break (finish_join_node node_id current_forest)
  | FinishSplit node_id => map_break (finish_split_node node_id current_forest)
  | FinishLoop node_id => map_break (finish_loop_node node_id current_forest)
  | FinishCall node_id => map_break (finish_call_node node_id current_forest)
  | FinishDyn node_id => map_break (finish_dyn_node node_id current_forest)
  | ResumeBasicBlock node_id batch_index op_idx_in_batch =>
      let! node := expect (get_node_by_id current_forest node_id) in
      let! basic_block_node := expect (unwrap_basic_block node) in
      execute_basic_block_node_from_op_idx basic_block_node node_id batch_index op_idx_in_batch
        current_forest
  | Respan node_id batch_index =>
      let! node := expect (get_node_by_id current_forest node_id) in
      let! basic_block_node := expect (unwrap_basic_block node) in
      execute_basic_block_node_from_batch basic_block_node node_id batch_index current_forest
  | FinishBasicBlock node_id => map_break (finish_basic_block node_id current_forest)
  | EnterForest forest => modify (put_forest forest)
  end.

(** [execute_impl]: pop and run until the stack is empty or a break.  [None]:
    more than [fuel] iterations. *)
Fixpoint execute_impl (fuel : nat) (x : X) : option (res (InternalBreakReason F) unit * X) :=
  match fuel with
  | O => None
  | S fuel =>
      match x_stack x with
      | [] => Some (Ok tt, x)
      | c :: rest =>
          match execute_continuation c (put_conts rest x) with
          | (Ok _, x') => execute_impl fuel x'
          | (Err r, x') => Some (Err r, x')
          | (Panic, x') => Some (Panic, x')
          end
      end
  end.

End Control.
