(* ===== verification/Exec.v ===== *)
(** * Running programs

    The outer loop of the fast processor (processor/src/fast/execution_api.rs):
    it runs the execution loop, serves its breaks (an emitted event, a forest to
    load) and turns the final stack into outputs; in one go with [NeverStopper],
    or one clock cycle at a time with [StepStopper] (fast/step.rs).

    The functions are generic in the processor; what they read of
    [FastProcessor] without going through a trait is [ProcessorView].  The host
    is a parameter: the forests it serves ([get_mast_forest]), and the handling
    of an emitted event ([op_emit_sync]). *)

From S2P Require Import Prelude Felt Quad Operations OpBatch Mast AceCircuit Machine ExecuteOp.
From S2P Require Import Control.

Class ProcessorView (P : Type) := {
  view_clk : P -> Z;
  view_max_cycles : P -> Z;
  view_max_num_continuations : P -> nat;
  (** [stack[stack_bot_idx..stack_top_idx]], top first; [None] is a panic. *)
  view_stack : P -> option (list Felt);
  view_extend_map : gmap Word (list Felt) -> PM P unit
}.

Class SyncHost (H P F : Type) := {
  get_mast_forest : H -> Word -> option F;
  op_emit_sync : nat -> M ExecutionError (P * H) unit
}.

Definition STACK_OUTPUTS_SIZE : nat := 16.

(** ** Stoppers *)

Section Stoppers.
Context {P F : Type} `{PV : ProcessorView P}.

Definition check_if_max_cycles_exceeded (p : P) : res (BreakReason F) unit :=
  if view_max_cycles p <? view_clk p then Err (BreakErr (CycleLimitExceeded (view_max_cycles p)))
  else Ok tt.

Definition check_if_continuation_stack_too_large (p : P) (l : list (Continuation F)) :
    res (BreakReason F) unit :=
  if (view_max_num_continuations p <? length l)%nat
  then Err (BreakErr (EInternal "continuation stack size exceeded the allowed maximum"))
  else Ok tt.

Definition NeverStopper : Stopper P F := fun p l _ =>
  match check_if_max_cycles_exceeded p with
  | Ok _ => check_if_continuation_stack_too_large p l
  | r => r
  end.

Definition StepStopper : Stopper P F := fun p l continuation_after_stop =>
  match check_if_max_cycles_exceeded p with
  | Ok _ =>
      match check_if_continuation_stack_too_large p l with
      | Ok _ =>
          match continuation_after_stop with
          | Some c => Err (Stopped c)
          | None => Panic
          end
      | r => r
      end
  | r => r
  end.

End Stoppers.

(** ** The outer loop *)

Section Exec.
Context `{G : Goldilocks} `{Q : QuadField} {P : Type} `{PP : Processor P} `{PV : !ProcessorView P}.
Context {F : Type} `{EF : ExecutableMastForest F} {H : Type} `{HH : SyncHost H P F}.
Context {T : Type} `{TT : Tracer T P F} (kernel : KernelDescriptor).

Notation X := (XState P F H T).
Notation BM A := (M (BreakReason F) X A).

(** A call that may change the processor and the host. *)
Definition on_host {A} (m : M ExecutionError (P * H) A) : BM A :=
  fun x =>
    let '(r, (p, h)) := m (x_processor x, x_host x) in
    (match r with Ok a => Ok a | Err e => Err (BreakErr e) | Panic => Panic end,
     mkX p (x_stack x) (x_forest x) h (x_tracer x)).

Definition load_mast_forest_sync (node_digest : Word) : BM (MastNodeId * F) :=
  let! h := gets x_host in
  let! mast_forest := ok_or (get_mast_forest h node_digest) (BreakErr (ProcedureNotFound node_digest)) in
  let! root := expect (find_procedure_root mast_forest node_digest) in
  let! root_id := ok_or root (BreakErr (EOperation (MalformedMastForestInHost node_digest))) in
  do! on_processor (view_extend_map (forest_advice_map mast_forest));
  ret (root_id, mast_forest).

(** [StackOutputs::new]. *)
Definition stack_outputs_new (values : list Felt) : option (list Felt) :=
  if (STACK_OUTPUTS_SIZE <? length values)%nat then None
  else Some (values ++ replicate (STACK_OUTPUTS_SIZE - length values) ZERO).

Section Stopper.
Context (SS : Stopper P F).

(** The [match] on the break reason. *)
Definition handle_break (r : InternalBreakReason F) : BM unit :=
  match r with
  | User break_reason => fail break_reason
  | EmitBreak op_idx continuation =>
      do! on_host (op_emit_sync op_idx);
      let! current_forest := gets x_forest in
      finish_emit_op_execution continuation current_forest
  | LoadMastForestFromDyn callee_hash =>
      let! (root_id, new_forest) := load_mast_forest_sync callee_hash in
      finish_load_mast_forest_from_dyn_start root_id new_forest
  | LoadMastForestFromExternal external_node_id procedure_hash =>
      let! (root_id, new_forest) := load_mast_forest_sync procedure_hash in
      finish_load_mast_forest_from_external root_id new_forest external_node_id
  end.

(** After the loop: the outputs, or [OutputStackOverflow]. *)
Definition take_outputs : BM (list Felt) :=
  let! p := gets x_processor in
  let! values := expect (view_stack p) in
  match stack_outputs_new values with
  | Some outputs => ret outputs
  | None =>
      let! n := expect (checked_sub (length values) STACK_OUTPUTS_SIZE) in
      fail (BreakErr (OutputStackOverflow (Z.of_nat n)))
  end.

(** [FastProcessor::execute_impl]. *)
Fixpoint execute_program (fuel : nat) (x : X) : option (res (BreakReason F) (list Felt) * X) :=
  match fuel with
  | O => None
  | S n =>
      match execute_impl kernel fuel x with
      | None => None
      | Some (Ok _, x') => Some (take_outputs x')
      | Some (Panic, x') => Some (Panic, x')
      | Some (Err r, x') =>
          match handle_break r x' with
          | (Ok _, x'') => execute_program n x''
          | (Err b, x'') => Some (Err b, x'')
          | (Panic, x'') => Some (Panic, x'')
          end
      end
  end.

End Stopper.

(** ** In one go *)

(** [ContinuationStack::new] and the advice map of the program's forest. *)
Definition initial_state (p : P) (h : H) (t : T) (f : F) (entry : MastNodeId) :
    res ExecutionError unit * X :=
  let '(r, p') := view_extend_map (forest_advice_map f) p in
  (r, mkX p' [StartNode entry] f h t).

(** [execute_with_tracer_sync]: a [Stopped] break is [unreachable!]. *)
Definition execute_with_tracer_sync (fuel : nat) (p : P) (h : H) (t : T) (f : F)
    (entry : MastNodeId) : option (res ExecutionError (list Felt) * X) :=
  match initial_state p h t f entry with
  | (Ok _, x) =>
      match execute_program NeverStopper fuel x with
      | None => None
      | Some (Ok outputs, x') => Some (Ok outputs, x')
      | Some (Err (BreakErr e), x') => Some (Err e, x')
      | Some (Err (Stopped _), x') => Some (Panic, x')
      | Some (Panic, x') => Some (Panic, x')
      end
  | (Err e, x) => Some (Err e, x)
  | (Panic, x) => Some (Panic, x)
  end.

End Exec.

(** ** Step by step *)

Section Step.
Context `{G : Goldilocks} `{Q : QuadField} {P : Type} `{PP : Processor P} `{PV : !ProcessorView P}.
Context {F : Type} `{EF : ExecutableMastForest F} {H : Type} `{HH : SyncHost H P F}.
Context (kernel : KernelDescriptor).

Notation X := (XState P F H unit).

(** The [while] of [resume_context_from_flow]. *)
Fixpoint enter_forests (l : list (Continuation F)) (f : F) : list (Continuation F) * F :=
  match l with
  | EnterForest f' :: l => enter_forests l f'
  | _ => (l, f)
  end.

(** [Some x]: the context to resume from; [None]: the program has finished. *)
Definition resume_context_from_flow (flow : res (BreakReason F) (list Felt)) (x : X) :
    res ExecutionError (option X) :=
  match flow with
  | Ok _ => Ok None
  | Err (BreakErr e) => Err e
  | Err (Stopped maybe_continuation) =>
      let l := match maybe_continuation with Some c => c :: x_stack x | None => x_stack x end in
      let '(l, f) := enter_forests l (x_forest x) in
      Ok (Some (put_forest f (put_conts l x)))
  | Panic => Panic
  end.

Definition step_sync (fuel : nat) (x : X) : option (res ExecutionError (option X) * X) :=
  match execute_program kernel StepStopper fuel x with
  | None => None
  | Some (flow, x') => Some (resume_context_from_flow flow x', x')
  end.

(** The loop of [execute_by_step_sync]; [current_stack_outputs] unwraps. *)
Fixpoint execute_steps (fuel : nat) (x : X) : option (res ExecutionError (list Felt) * X) :=
  match fuel with
  | O => None
  | S n =>
      match step_sync fuel x with
      | None => None
      | Some (Ok (Some x'), _) => execute_steps n x'
      | Some (Ok None, x') =>
          Some (match view_stack (x_processor x') ≫= stack_outputs_new with
                | Some outputs => Ok outputs
                | None => Panic
                end, x')
      | Some (Err e, x') => Some (Err e, x')
      | Some (Panic, x') => Some (Panic, x')
      end
  end.

Definition execute_by_step_sync (fuel : nat) (p : P) (h : H) (f : F) (entry : MastNodeId) :
    option (res ExecutionError (list Felt) * X) :=
  match initial_state p h tt f entry with
  | (Ok _, x) => execute_steps fuel x
  | (Err e, x) => Some (Err e, x)
  | (Panic, x) => Some (Panic, x)
  end.

(** [execute_sync]: with the no-op tracer. *)
Definition execute_sync (fuel : nat) (p : P) (h : H) (f : F) (entry : MastNodeId) :
    option (res ExecutionError (list Felt) * X) :=
  execute_with_tracer_sync kernel fuel p h tt f entry.

End Step.
