(* ===== verification/StepTheory.v ===== *)
(** * Runs of a program, stopping and resuming

    The nested loops of a program run (the outer loop of the fast processor
    around the execution loop) as a single transition system: [tick] pops one
    continuation and serves its break; [runs x r y] is a complete run.  The fuel
    of the executable loops is only a bound on their iterations
    ([execute_program_runs]). *)

From S2P Require Import Prelude Felt Quad Operations OpBatch Mast AceCircuit Machine ExecuteOp.
From S2P Require Import Control Exec.

Section Runs.
Context `{G : Goldilocks} `{Q : QuadField} {P : Type} `{PP : Processor P} `{PV : !ProcessorView P}.
Context {F : Type} `{EF : ExecutableMastForest F} {H : Type} `{HH : SyncHost H P F}.
Context {T : Type} `{TT : Tracer T P F} (kernel : KernelDescriptor) (SS : Stopper P F).

Notation X := (XState P F H T).

Definition tick_with (c : Continuation F) (x : X) : res (BreakReason F) unit * X :=
  match execute_continuation kernel c x with
  | (Ok _, x') => (Ok tt, x')
  | (Err r, x') => handle_break SS r x'
  | (Panic, x') => (Panic, x')
  end.

Inductive runs (x : X) : res (BreakReason F) (list Felt) -> X -> Prop :=
| runs_done r y : x_stack x = [] -> take_outputs x = (r, y) -> runs x r y
| runs_tick c rest x1 r y :
    x_stack x = c :: rest -> tick_with c (put_conts rest x) = (Ok tt, x1) -> runs x1 r y ->
    runs x r y
| runs_break c rest b y :
    x_stack x = c :: rest -> tick_with c (put_conts rest x) = (Err b, y) -> runs x (Err b) y
| runs_panic c rest y :
    x_stack x = c :: rest -> tick_with c (put_conts rest x) = (Panic, y) -> runs x Panic y.

(** ** More fuel does not change a result *)

Lemma execute_impl_mono n (x : X) r :
  execute_impl kernel n x = Some r -> execute_impl kernel (S n) x = Some r.
Proof.
  revert x. induction n as [|n IH]; intros x; [done|]. cbn [execute_impl].
  destruct (x_stack x) as [|c rest]; [done|].
  destruct (execute_continuation kernel c (put_conts rest x)) as [[a|e|] x']; [apply IH|done|done].
Qed.

Lemma execute_program_mono n (x : X) r :
  execute_program kernel SS n x = Some r -> execute_program kernel SS (S n) x = Some r.
Proof.
  revert x. induction n as [|n IH]; intros x; [done|]. intros Hr.
  cbn [execute_program] in Hr.
  change (execute_program kernel SS (S (S n)) x) with
    (match execute_impl kernel (S (S n)) x with
     | None => None
     | Some (Ok _, x') => Some (take_outputs x')
     | Some (Panic, x') => Some (Panic, x')
     | Some (Err r, x') =>
         match handle_break SS r x' with
         | (Ok _, x'') => execute_program kernel SS (S n) x''
         | (Err b, x'') => Some (Err b, x'')
         | (Panic, x'') => Some (Panic, x'')
         end
     end).
  destruct (execute_impl kernel (S n) x) as [i|] eqn:Hi; [|done].
  rewrite (execute_impl_mono _ _ _ Hi). destruct i as [[a|b|] x']; try done.
  destruct (handle_break SS b x') as [[a|c|] x'']; try done. by apply IH.
Qed.

Lemma execute_program_mono_le n m (x : X) r : (n <= m)%nat ->
  execute_program kernel SS n x = Some r -> execute_program kernel SS m x = Some r.
Proof. induction 1; [done|]. intros Hn. by apply execute_program_mono, IHle. Qed.

(** ** The loops are the transition system *)

Lemma execute_impl_runs n (x : X) :
  match execute_impl kernel n x with
  | None => True
  | Some (Ok _, x') => x_stack x' = [] /\ forall r y, take_outputs x' = (r, y) -> runs x r y
  | Some (Err b, x') =>
      match handle_break SS b x' with
      | (Ok _, x'') => forall r y, runs x'' r y -> runs x r y
      | (Err b', x'') => runs x (Err b') x''
      | (Panic, x'') => runs x Panic x''
      end
  | Some (Panic, x') => runs x Panic x'
  end.
Proof.
  revert x. induction n as [|n IH]; intros x; [done|]. cbn [execute_impl].
  destruct (x_stack x) as [|c rest] eqn:Hx.
  { split; [done|]. intros r y Hr. by apply runs_done. }
  assert (forall x1 r y, tick_with c (put_conts rest x) = (Ok tt, x1) -> runs x1 r y -> runs x r y)
    as Hstep by (intros; by eapply runs_tick).
  assert (forall b y, tick_with c (put_conts rest x) = (Err b, y) -> runs x (Err b) y)
    as Hbreak by (intros; by eapply runs_break).
  assert (forall y, tick_with c (put_conts rest x) = (Panic, y) -> runs x Panic y)
    as Hpanic by (intros; by eapply runs_panic).
  unfold tick_with in Hstep, Hbreak, Hpanic.
  destruct (execute_continuation kernel c (put_conts rest x)) as [[[]|b|] x1].
  - specialize (IH x1). destruct (execute_impl kernel n x1) as [[[a|b|] x2]|]; [| | |done].
    + destruct IH as [Hs IH]. split; [done|]. eauto.
    + destruct (handle_break SS b x2) as [[a|b'|] x3]; eauto.
    + eauto.
  - destruct (handle_break SS b x1) as [[[]|b'|] x2]; eauto.
  - eauto.
Qed.

Lemma execute_program_sound n (x : X) r y :
  execute_program kernel SS n x = Some (r, y) -> runs x r y.
Proof.
  revert x. induction n as [|n IH]; intros x; [done|]. cbn [execute_program].
  pose proof (execute_impl_runs (S n) x) as Hi.
  destruct (execute_impl kernel (S n) x) as [[[a|b|] x1]|]; [| | |done].
  - intros [= Hr]. by apply Hi.
  - destruct (handle_break SS b x1) as [[[]|b'|] x2].
    + intros Hr. by apply Hi, IH.
    + by intros [= <- <-].
    + by intros [= <- <-].
  - by intros [= <- <-].
Qed.

(** One tick and the rest of the run. *)
Lemma execute_program_tick n (x : X) c rest : x_stack x = c :: rest ->
  match tick_with c (put_conts rest x) with
  | (Ok _, x1) => forall v, execute_program kernel SS n x1 = Some v ->
      execute_program kernel SS (S n) x = Some v
  | (Err b, y) => execute_program kernel SS (S n) x = Some (Err b, y)
  | (Panic, y) => execute_program kernel SS (S n) x = Some (Panic, y)
  end.
Proof.
  intros Hx. unfold tick_with. cbn [execute_program execute_impl]. rewrite Hx.
  destruct (execute_continuation kernel c (put_conts rest x)) as [[[]|b|] x1].
  - intros v. destruct n as [|n]; [done|]. cbn [execute_program].
    destruct (execute_impl kernel (S n) x1) as [[[a|b|] x2]|]; [done| |done|done].
    destruct (handle_break SS b x2) as [[[]|b'|] x3]; [|done|done].
    apply execute_program_mono.
  - destruct (handle_break SS b x1) as [[[]|b'|] x2]; [|done|done]. done.
  - done.
Qed.

Lemma execute_program_complete (x : X) r y :
  runs x r y -> exists n, execute_program kernel SS n x = Some (r, y).
Proof.
  induction 1 as [x r y Hx Hr|x c rest x1 r y Hx Ht _ [n IH]|x c rest b y Hx Ht|x c rest y Hx Ht].
  - exists 1%nat. cbn [execute_program execute_impl]. by rewrite Hx, Hr.
  - exists (S n). pose proof (execute_program_tick n x c rest Hx) as Hn. rewrite Ht in Hn. by apply Hn.
  - exists 1%nat. pose proof (execute_program_tick 0 x c rest Hx) as Hn. by rewrite Ht in Hn.
  - exists 1%nat. pose proof (execute_program_tick 0 x c rest Hx) as Hn. by rewrite Ht in Hn.
Qed.

Lemma execute_program_runs (x : X) r y :
  (exists n, execute_program kernel SS n x = Some (r, y)) <-> runs x r y.
Proof. split; [by intros [n Hn]; eapply execute_program_sound|apply execute_program_complete]. Qed.

Lemma runs_det (x : X) r1 y1 r2 y2 : runs x r1 y1 -> runs x r2 y2 -> r1 = r2 /\ y1 = y2.
Proof.
  intros [n Hn]%execute_program_complete [m Hm]%execute_program_complete.
  apply (execute_program_mono_le _ (n + m)) in Hn; [|lia].
  apply (execute_program_mono_le _ (n + m)) in Hm; [|lia]. rewrite Hn in Hm. by injection Hm.
Qed.

End Runs.

(** ** Stopping and resuming

    Running with [StepStopper] stops after every clock cycle and names the
    continuation to resume from; running with [NeverStopper] goes on.  The
    second is the first with every stop resumed: [exec_resumed] says so of one
    continuation, [handle_resumed] of one served break. *)

Section Step.
Context `{G : Goldilocks} `{Q : QuadField} {P : Type} `{PP : Processor P} `{PV : !ProcessorView P}.
Context {F : Type} `{EF : ExecutableMastForest F} {H : Type} `{HH : SyncHost H P F}.
Context (kernel : KernelDescriptor).

Notation X := (XState P F H unit).
Notation BM A := (M (BreakReason F) X A).
Notation XM A := (M (InternalBreakReason F) X A).
Notation never := (NeverStopper (P := P) (F := F)).
Notation step := (StepStopper (P := P) (F := F)).

(** ** Catching stops *)

(** [m] with every stop handed to [k]. *)
Definition catch (k : option (Continuation F) -> XM unit) (m : XM unit) : XM unit :=
  fun x =>
    match m x with
    | (Err (User (Stopped c)), x') => k c x'
    | r => r
    end.

(** A computation that is not stopped: it may fail or break. *)
Definition quiet {A} (m : XM A) : Prop :=
  forall x c x', m x <> (Err (User (Stopped c)), x').
Definition bquiet {A} (m : BM A) : Prop := forall x c x', m x <> (Err (Stopped c), x').

Lemma quiet_map_break {A} (m : BM A) : bquiet m -> quiet (map_break m).
Proof.
  intros Hm x c x'. unfold map_break. specialize (Hm x). destruct (m x) as [[a|r|] y]; [done| |done].
  intros [= -> ->]. by apply (Hm c x').
Qed.

Lemma bquiet_bind {A B} (m : BM A) (k : A -> BM B) :
  bquiet m -> (forall a, bquiet (k a)) -> bquiet (bind m k).
Proof.
  intros Hm Hk x c x'. unfold bind. specialize (Hm x). destruct (m x) as [[a|r|] y]; [by apply Hk| |done].
  intros [= -> ->]. by apply (Hm c x').
Qed.

Lemma bquiet_ret {A} (a : A) : bquiet (ret a).
Proof. done. Qed.
Lemma bquiet_gets {A} (f : X -> A) : bquiet (gets f).
Proof. done. Qed.
Lemma bquiet_modify f : bquiet (modify f).
Proof. done. Qed.
Lemma bquiet_panic {A} : bquiet (A := A) panic.
Proof. done. Qed.
Lemma bquiet_expect {A} (o : option A) : bquiet (expect o).
Proof. by destruct o. Qed.
Lemma bquiet_fail_err {A} e : bquiet (A := A) (fail (BreakErr e)).
Proof. done. Qed.
Lemma bquiet_on_processor {A} (m : PM P A) : bquiet (on_processor m).
Proof. intros x c x'. unfold on_processor. by destruct (m (x_processor x)) as [[]]. Qed.
Lemma bquiet_on_handler {A} (m : VM P A) : bquiet (on_handler m).
Proof. intros x c x'. unfold on_handler. by destruct (m _) as [[]]. Qed.
Lemma bquiet_on_host {A} (m : M ExecutionError (P * H) A) : bquiet (on_host m).
Proof. intros x c x'. unfold on_host. by destruct (m _) as [[] []]. Qed.
Lemma bquiet_option {A} (o : option A) msg : bquiet (option_map_break_reason o msg).
Proof. by destruct o. Qed.
Lemma bquiet_ok_or {A} (o : option A) e : bquiet (ok_or o (BreakErr e)).
Proof. by destruct o. Qed.

Lemma bquiet_start_clock_cycle c : bquiet (start_clock_cycle c).
Proof. done. Qed.
Lemma bquiet_push_continuation c : bquiet (push_continuation c).
Proof. done. Qed.
Lemma bquiet_trace_call f : bquiet (trace_call f).
Proof. done. Qed.
Lemma bquiet_record e : bquiet (record e).
Proof. done. Qed.
Lemma bquiet_fail_operation {A} e : bquiet (A := A) (fail_operation e).
Proof. done. Qed.

Lemma bquiet_get_next_ctx_id : bquiet get_next_ctx_id.
Proof.
  apply bquiet_bind; [apply bquiet_on_processor|]. intros clk. by destruct (clk <? U32_MAX).
Qed.

Lemma quiet_gets {A} (f : X -> A) : quiet (gets f).
Proof. done. Qed.
Lemma quiet_expect {A} (o : option A) : quiet (expect o).
Proof. by destruct o. Qed.

End Step.

Create HintDb quiet discriminated.
#[export] Hint Resolve quiet_map_break bquiet_bind bquiet_ret bquiet_gets bquiet_modify bquiet_panic
  bquiet_expect bquiet_fail_err bquiet_on_processor bquiet_on_handler bquiet_on_host bquiet_option
  bquiet_ok_or bquiet_get_next_ctx_id bquiet_start_clock_cycle bquiet_push_continuation
  bquiet_trace_call bquiet_record bquiet_fail_operation quiet_gets quiet_expect : quiet.

(** ** Computations that leave the stack and the forest alone *)

Section Framed.
Context `{G : Goldilocks} `{Q : QuadField} {P : Type} `{PP : Processor P}.
Context {F : Type} `{EF : ExecutableMastForest F} {H T : Type} `{TT : Tracer T P F}.

Notation X := (XState P F H T).

Definition framed {E A} (m : M E X A) : Prop :=
  forall x, x_stack (m x).2 = x_stack x /\ x_forest (m x).2 = x_forest x.

Lemma framed_bind {E A B} (m : M E X A) (k : A -> M E X B) :
  framed m -> (forall a, framed (k a)) -> framed (bind m k).
Proof.
  intros Hm Hk x. specialize (Hm x). unfold bind. destruct (m x) as [[a|e|] y]; [|done|done].
  destruct Hm as [Hs Hf], (Hk a y) as [Hs' Hf']. cbn in *. split; congruence.
Qed.

Lemma framed_map_break {A} (m : M (BreakReason F) X A) : framed m -> framed (map_break m).
Proof. intros Hm x. specialize (Hm x). unfold map_break. by destruct (m x) as [[] y]. Qed.

Lemma framed_ret {E A} (a : A) : framed (E := E) (ret a).
Proof. done. Qed.
Lemma framed_fail {E A} (e : E) : framed (A := A) (fail e).
Proof. done. Qed.
Lemma framed_panic {E A} : framed (E := E) (A := A) panic.
Proof. done. Qed.
Lemma framed_gets {E A} (f : X -> A) : framed (E := E) (gets f).
Proof. done. Qed.
Lemma framed_expect {E A} (o : option A) : framed (E := E) (expect o).
Proof. by destruct o. Qed.
Lemma framed_option {A} (o : option A) msg : framed (option_map_break_reason o msg).
Proof. by destruct o. Qed.
Lemma framed_on_processor {A} (m : PM P A) : framed (on_processor m).
Proof. intros x. unfold on_processor. by destruct (m _) as [[]]. Qed.
Lemma framed_on_handler {A} (m : VM P A) : framed (on_handler m).
Proof. intros x. unfold on_handler. by destruct (m _) as [[]]. Qed.
Lemma framed_trace_call f : framed (trace_call f).
Proof. done. Qed.
Lemma framed_start_clock_cycle c : framed (start_clock_cycle c).
Proof. done. Qed.

Lemma framed_finalize (SS : Stopper P F) after h f :
  framed (finalize_clock_cycle_with_continuation_and_op_helpers after h f).
Proof.
  apply framed_bind; [|intros _; apply framed_bind; [apply framed_on_processor|done]].
  intros x. by destruct (tr_finalize_clock_cycle _ _ _ _) as [[]].
Qed.

End Framed.

Create HintDb framed discriminated.
#[export] Hint Resolve framed_bind framed_map_break framed_ret framed_fail framed_panic framed_gets
  framed_expect framed_option framed_on_processor framed_on_handler framed_trace_call
  framed_start_clock_cycle framed_finalize : framed.

Ltac quiet_auto :=
  repeat match goal with
         | |- forall _, _ => intros ?
         | |- bquiet (bind _ _) => apply bquiet_bind
         | |- quiet (map_break _) => apply quiet_map_break
         | |- bquiet (if ?c then _ else _) => destruct c
         | |- _ => solve [eauto 1 with quiet]
         end.

Section Resume.
Context `{G : Goldilocks} `{Q : QuadField} {P : Type} `{PP : Processor P} `{PV : !ProcessorView P}.
Context {F : Type} `{EF : ExecutableMastForest F} {H : Type} `{HH : SyncHost H P F}.
Context (kernel : KernelDescriptor).

Notation X := (XState P F H unit).
Notation BM A := (M (BreakReason F) X A).
Notation XM A := (M (InternalBreakReason F) X A).
Notation never := (NeverStopper (P := P) (F := F)).
Notation step := (StepStopper (P := P) (F := F)).

(** ** Handlers that end a cycle with the stack as it is *)

(** [mn] does what [ms] does, with a stop after which the stack says how to go
    on taken as success. *)
Definition stops_clean (mn ms : BM unit) : Prop :=
  forall x, match ms x with
            | (Err (Stopped c), x') => c = None /\ mn x = (Ok tt, x')
            | r => mn x = r
            end.

Lemma clean_quiet (m : BM unit) : bquiet m -> stops_clean m m.
Proof.
  intros Hm x. specialize (Hm x). destruct (m x) as [[[]|[e|c]|] y]; try done. by destruct (Hm c y).
Qed.

Lemma clean_bind {A} (m : BM A) (kn ks : A -> BM unit) :
  bquiet m -> (forall a, stops_clean (kn a) (ks a)) -> stops_clean (bind m kn) (bind m ks).
Proof.
  intros Hm Hk x. specialize (Hm x). unfold bind.
  destruct (m x) as [[a|[e|c]|] y]; [apply Hk|done| |done]. by destruct (Hm c y).
Qed.

(** Both stoppers make the same checks. *)
Lemma step_never (p : P) (l : list (Continuation F)) after :
  step p l (Some after) =
  match never p l (Some after) with Ok _ => Err (Stopped after) | r => r end.
Proof.
  unfold StepStopper, NeverStopper. by destruct (check_if_max_cycles_exceeded p), (check_if_continuation_stack_too_large p l).
Qed.

Lemma never_not_stopped (p : P) (l : list (Continuation F)) a c : never p l a <> Err (Stopped c).
Proof.
  unfold NeverStopper, check_if_max_cycles_exceeded, check_if_continuation_stack_too_large.
  by repeat destruct (_ <? _)%nat || destruct (_ <? _).
Qed.

Lemma finalize_step (after : option (Continuation F)) h (f : F) (x : X) :
  finalize_clock_cycle_with_continuation_and_op_helpers (SS := step) (Some after) h f x =
  match finalize_clock_cycle_with_continuation_and_op_helpers (SS := never) (Some after) h f x with
  | (Ok _, x') => (Err (Stopped after), x')
  | r => r
  end.
Proof.
  unfold finalize_clock_cycle_with_continuation_and_op_helpers, bind. cbn.
  destruct (on_processor sys_increment_clock _) as [[[]|r|] y] eqn:Hi; [|done|done].
  unfold should_stop. rewrite step_never. by destruct (never _ _ _).
Qed.

Lemma finalize_never_bquiet after h (f : F) :
  bquiet (finalize_clock_cycle_with_continuation_and_op_helpers (H := H) (SS := never) after h f).
Proof.
  apply bquiet_bind; [by intros x c x'|]. intros _. apply bquiet_bind; [quiet_auto|].
  intros _ x c x' [= Hs _]. by apply never_not_stopped in Hs.
Qed.

Lemma clean_finalize h (f : F) :
  stops_clean (finalize_clock_cycle_with_continuation_and_op_helpers (SS := never) (Some None) h f)
    (finalize_clock_cycle_with_continuation_and_op_helpers (SS := step) (Some None) h f).
Proof.
  intros x. rewrite finalize_step.
  pose proof (finalize_never_bquiet (Some None) h f x) as Hq.
  destruct (finalize_clock_cycle_with_continuation_and_op_helpers _ _ _ x) as [[[]|[e|c]|] y]; try done.
  by destruct (Hq c y).
Qed.

Ltac clean_auto :=
  unfold finalize_clock_cycle, finalize_clock_cycle_with_continuation;
  repeat first
    [ apply clean_finalize
    | apply clean_bind; [solve [quiet_auto]|intros ?]
    | apply clean_quiet; solve [quiet_auto]
    | case_match ].

(** ** One continuation *)

Definition resumed (c : option (Continuation F)) : XM unit :=
  match c with
  | Some c => execute_continuation (SS := never) kernel c
  | None => ret tt
  end.

Lemma catch_clean (mn ms : BM unit) (x : X) :
  stops_clean mn ms -> map_break mn x = catch resumed (map_break ms) x.
Proof.
  intros Hc. specialize (Hc x). unfold catch, map_break.
  destruct (ms x) as [[[]|[e|c]|] y]; try by rewrite Hc.
  by destruct Hc as [-> ->].
Qed.

Lemma catch_bind {A} (m : XM A) (k : A -> XM unit) (x : X) :
  quiet m -> catch resumed (bind m k) x = bind m (fun a => catch resumed (k a)) x.
Proof.
  intros Hm. specialize (Hm x). unfold catch, bind.
  destruct (m x) as [[a|[[e|c]| | |]|] y]; try done. by destruct (Hm c y).
Qed.

Lemma catch_assoc {A B} (m : XM A) (g : A -> XM B) (K : B -> XM unit) (x : X) :
  catch resumed (bind (bind m g) K) x = catch resumed (bind m (fun a => bind (g a) K)) x.
Proof. unfold catch. by rewrite (bind_assoc _ _ _ x). Qed.

(** A step whose cycle ends inside a block. *)
Lemma catch_finalize after h (f : F) (k : unit -> XM unit) (x : X) :
  catch resumed
    (bind (map_break (finalize_clock_cycle_with_continuation_and_op_helpers (SS := step) (Some after) h f)) k) x =
  bind (map_break (finalize_clock_cycle_with_continuation_and_op_helpers (SS := never) (Some after) h f))
    (fun _ => resumed after) x.
Proof.
  unfold catch, bind, map_break. rewrite finalize_step.
  pose proof (finalize_never_bquiet (Some after) h f x) as Hq.
  destruct (finalize_clock_cycle_with_continuation_and_op_helpers _ _ _ x) as [[[]|[e|c]|] y]; try done.
  by destruct (Hq c y).
Qed.

(** *** Basic blocks *)

Lemma clean_finish_basic_block id f :
  stops_clean (finish_basic_block (SS := never) id f) (finish_basic_block (SS := step) id f).
Proof. unfold finish_basic_block. clean_auto. Qed.

Lemma batch_offset_S bb b batch : op_batches bb !! b = Some batch ->
  batch_offset bb (S b) = (batch_offset bb b + length (ob_ops batch))%nat.
Proof.
  intros Hb. unfold batch_offset. rewrite (take_S_r _ _ _ Hb), fmap_app, sum_list_with_app.
  cbn. lia.
Qed.

Section Block.
Context (bb : BasicBlockNode) (id : nat) (f : F).

Lemma from_batch_cons (SS : Stopper P F) j batch : op_batches bb !! j = Some batch ->
  execute_basic_block_node_from_batch (H := H) bb id j f =
  (do! map_break (start_clock_cycle (Respan id j));
   do! map_break (finalize_clock_cycle_with_continuation (Some (Some (ResumeBasicBlock id j 0))) f);
   do! execute_op_batch bb id j 0 (batch_offset bb j) f;
   execute_basic_block_node_from_batch bb id (S j) f).
Proof.
  intros Hj. unfold execute_basic_block_node_from_batch. rewrite (drop_S _ _ _ Hj).
  cbn [execute_batches]. by rewrite (batch_offset_S _ _ _ Hj).
Qed.

Lemma from_batch_end (SS : Stopper P F) j : op_batches bb !! j = None ->
  execute_basic_block_node_from_batch (H := H) bb id j f = map_break (finish_basic_block id f).
Proof.
  intros Hj. unfold execute_basic_block_node_from_batch. apply lookup_ge_None in Hj.
  by rewrite drop_ge.
Qed.

Lemma op_batch_cons (SS : Stopper P F) b i off batch op (K : unit -> XM unit) (x : X) :
  op_batches bb !! b = Some batch -> ob_ops batch !! i = Some op ->
  bind (execute_op_batch bb id b i off f) K x =
  bind (execute_batch_op bb id b off i op f)
    (fun _ => bind (execute_op_batch bb id b (S i) off f) K) x.
Proof.
  intros Hb Hi. unfold execute_op_batch. rewrite Hb. cbn [expect].
  rewrite (bind_assoc _ _ _ x), (bind_ret_l _ _ x), (drop_S _ _ _ Hi).
  cbn [execute_batch_ops]. rewrite (bind_assoc _ _ _ x). apply bind_post. intros [] y _.
  by rewrite (bind_assoc _ _ _ y), (bind_ret_l _ _ y).
Qed.

Lemma op_batch_end (SS : Stopper P F) b i off batch (x : X) :
  op_batches bb !! b = Some batch -> ob_ops batch !! i = None ->
  execute_op_batch bb id b i off f x = (Ok tt, x).
Proof.
  intros Hb Hi. unfold execute_op_batch. rewrite Hb. apply lookup_ge_None in Hi.
  unfold bind. cbn [expect ret]. by rewrite drop_ge.
Qed.

Lemma get_continuation_Some b i batch : op_batches bb !! b = Some batch ->
  (i < length (ob_ops batch))%nat ->
  get_continuation_after_executing_operation (F := F) bb id b i =
  Some (if (i <? length (ob_ops batch) - 1)%nat then ResumeBasicBlock id b (S i)
        else if (b <? length (op_batches bb) - 1)%nat then Respan id (S b)
        else FinishBasicBlock id).
Proof.
  intros Hb Hi. apply lookup_lt_Some in Hb as Hlt.
  unfold get_continuation_after_executing_operation, num_op_batches. rewrite Hb. cbn [mbind option_bind].
  rewrite !checked_sub_Some by lia. cbn [mbind option_bind]. by rewrite !Nat.add_1_r.
Qed.

(** The block is a node of the current forest. *)
Definition in_block (x : X) : Prop := x_forest x = f /\ get_node_by_id f id = Some (NBlock bb).

Lemma in_block_framed {E A} (m : M E X A) (x y : X) a :
  framed m -> m x = (a, y) -> in_block x -> in_block y.
Proof. intros Hm Hy [Hf Hn]. destruct (Hm x) as [_ Hf']. rewrite Hy in Hf'. split; [|done]. by rewrite <- Hf. Qed.

Lemma exec_resume (SS : Stopper P F) b i (x : X) : in_block x ->
  execute_continuation kernel (ResumeBasicBlock id b i) x =
  execute_basic_block_node_from_op_idx bb id b i f x.
Proof. intros [<- Hn]. cbn. unfold bind at 1. cbn. by rewrite Hn. Qed.

Lemma exec_respan (SS : Stopper P F) b (x : X) : in_block x ->
  execute_continuation kernel (Respan id b) x = execute_basic_block_node_from_batch bb id b f x.
Proof. intros [<- Hn]. cbn. unfold bind at 1. cbn. by rewrite Hn. Qed.

Lemma exec_finish (SS : Stopper P F) (x : X) : in_block x ->
  execute_continuation kernel (FinishBasicBlock id) x = map_break (finish_basic_block id f) x.
Proof. by intros [<- Hn]. Qed.

(** The continuation named after an operation is the rest of the block. *)
Lemma after_operation b i batch op : op_batches bb !! b = Some batch -> ob_ops batch !! i = Some op ->
  exists k, get_continuation_after_executing_operation bb id b i = Some k /\
    forall (SS : Stopper P F) (x : X), in_block x ->
      execute_continuation kernel k x =
      (do! execute_op_batch bb id b (S i) (batch_offset bb b) f;
       execute_basic_block_node_from_batch bb id (S b) f) x.
Proof.
  intros Hb Hi. apply lookup_lt_Some in Hi as Hlt. eexists. split; [by apply get_continuation_Some|].
  intros SS x Hx.
  destruct (Nat.ltb_spec i (length (ob_ops batch) - 1)).
  { rewrite exec_resume by done. unfold execute_basic_block_node_from_op_idx.
    by rewrite Nat.add_1_r. }
  assert (ob_ops batch !! S i = None) as Hend by (apply lookup_ge_None; lia).
  rewrite (bind_Ok _ _ _ _ _ (op_batch_end SS _ _ _ _ _ Hb Hend)).
  destruct (Nat.ltb_spec b (length (op_batches bb) - 1)).
  { by rewrite exec_respan by done. }
  rewrite exec_finish by done. by rewrite from_batch_end by (apply lookup_ge_None; lia).
Qed.

Lemma batch_op_framed (SS : Stopper P F) b off i op :
  framed (execute_batch_op (H := H) bb id b off i op f).
Proof.
  apply framed_bind; [auto with framed|]. intros _.
  apply framed_bind; [|intros h; auto with framed].
  destruct op; auto with framed.
Qed.

Lemma helpers_quiet op (o : option (Continuation F)) n :
  quiet (match op with
         | Op.Emit => let! c := expect o in fail (EmitBreak n c)
         | _ => map_break (on_handler (H := H) (T := unit) (execute_op (P := P) op))
         end).
Proof. destruct op; try (quiet_auto; fail). intros x c x'. by destruct o. Qed.

(** One operation, then its stop. *)
Lemma catch_batch_op b i off op k (K : unit -> XM unit) (x : X) :
  get_continuation_after_executing_operation bb id b i = Some k ->
  catch resumed (bind (execute_batch_op (SS := step) bb id b off i op f) K) x =
  bind (execute_batch_op (SS := never) bb id b off i op f) (fun _ => resumed (Some k)) x.
Proof.
  intros Hk. unfold execute_batch_op. rewrite Hk. cbn [fmap option_fmap option_map].
  rewrite catch_assoc, catch_bind, bind_assoc by quiet_auto. apply bind_post. intros _ y _.
  rewrite catch_assoc, catch_bind, bind_assoc by apply helpers_quiet. apply bind_post.
  intros h z _. apply catch_finalize.
Qed.

Lemma resume_from_batch j (x : X) : in_block x ->
  execute_basic_block_node_from_batch (SS := never) bb id j f x =
  catch resumed (execute_basic_block_node_from_batch (SS := step) bb id j f) x.
Proof.
  intros Hx. destruct (op_batches bb !! j) as [batch|] eqn:Hj.
  - rewrite !(from_batch_cons _ _ _ Hj), catch_bind by quiet_auto.
    apply bind_post. intros [] y Hy. unfold finalize_clock_cycle_with_continuation.
    rewrite catch_finalize. apply bind_post. intros [] z Hz. cbn [resumed]. rewrite exec_resume.
    + unfold execute_basic_block_node_from_op_idx. by rewrite Nat.add_1_r.
    + eapply in_block_framed; [|exact Hz|]; [auto with framed|].
      eapply in_block_framed; [|exact Hy|done]. auto with framed.
  - rewrite !from_batch_end by done. apply catch_clean, clean_finish_basic_block.
Qed.

Lemma resume_from_op_idx b i (x : X) : in_block x ->
  execute_basic_block_node_from_op_idx (SS := never) bb id b i f x =
  catch resumed (execute_basic_block_node_from_op_idx (SS := step) bb id b i f) x.
Proof.
  intros Hx. unfold execute_basic_block_node_from_op_idx. rewrite !Nat.add_1_r.
  destruct (op_batches bb !! b) as [batch|] eqn:Hb.
  2: { unfold catch, execute_op_batch, bind. rewrite Hb. done. }
  destruct (ob_ops batch !! i) as [op|] eqn:Hi.
  - destruct (after_operation b i batch op Hb Hi) as (k & Hk & Hafter).
    transitivity (bind (execute_batch_op (SS := never) bb id b (batch_offset bb b) i op f)
                    (fun _ => resumed (Some k)) x).
    + rewrite (op_batch_cons never _ _ _ _ _ _ _ Hb Hi). apply bind_post. intros [] y Hy.
      cbn [resumed]. rewrite Hafter; [done|]. eapply in_block_framed; [|exact Hy|done].
      apply batch_op_framed.
    + erewrite <- catch_batch_op by done. unfold catch.
      by rewrite (op_batch_cons step _ _ _ _ _ _ _ Hb Hi).
  - rewrite (bind_Ok _ _ _ _ _ (op_batch_end never _ _ _ _ _ Hb Hi)), resume_from_batch by done.
    unfold catch. by rewrite (bind_Ok _ _ _ _ _ (op_batch_end step _ _ _ _ _ Hb Hi)).
Qed.

Lemma resume_from_start (x : X) : in_block x -> op_batches bb <> [] ->
  execute_basic_block_node_from_start (SS := never) bb id f x =
  catch resumed (execute_basic_block_node_from_start (SS := step) bb id f) x.
Proof.
  intros Hx Hne. unfold execute_basic_block_node_from_start, finalize_clock_cycle_with_continuation.
  rewrite catch_bind by quiet_auto. apply bind_post. intros [] y Hy.
  rewrite catch_finalize. apply bind_post. intros [] z Hz. cbn [resumed]. rewrite exec_resume.
  - unfold execute_basic_block_node_from_op_idx. by destruct (op_batches bb).
  - eapply in_block_framed; [|exact Hz|]; [auto with framed|].
    eapply in_block_framed; [|exact Hy|done]. auto with framed.
Qed.

End Block.

(** *** Every continuation *)

(** The node builder rejects a basic block without batches. *)
Definition blocks_ok (f : F) : Prop :=
  forall id bb, get_node_by_id f id = Some (NBlock bb) -> op_batches bb <> [].

Lemma clean_join n id f :
  stops_clean (start_join_node (SS := never) n id f) (start_join_node (SS := step) n id f).
Proof. unfold start_join_node. clean_auto. Qed.

Lemma clean_split n id f :
  stops_clean (start_split_node (SS := never) n id f) (start_split_node (SS := step) n id f).
Proof. unfold start_split_node. clean_auto. Qed.

Lemma clean_loop n id f :
  stops_clean (start_loop_node (SS := never) n id f) (start_loop_node (SS := step) n id f).
Proof. unfold start_loop_node. clean_auto. Qed.

Lemma clean_finish_loop id f :
  stops_clean (finish_loop_node (SS := never) id f) (finish_loop_node (SS := step) id f).
Proof. unfold finish_loop_node. clean_auto. Qed.

Lemma clean_finish_join id f :
  stops_clean (finish_join_node (SS := never) id f) (finish_join_node (SS := step) id f).
Proof. unfold finish_join_node. clean_auto. Qed.

Lemma clean_finish_split id f :
  stops_clean (finish_split_node (SS := never) id f) (finish_split_node (SS := step) id f).
Proof. unfold finish_split_node. clean_auto. Qed.

Lemma clean_finish_call id f :
  stops_clean (finish_call_node (SS := never) id f) (finish_call_node (SS := step) id f).
Proof. unfold finish_call_node. clean_auto. Qed.

Lemma clean_call n id f :
  stops_clean (start_call_node (SS := never) kernel n id f) (start_call_node (SS := step) kernel n id f).
Proof. unfold start_call_node. clean_auto. Qed.

Lemma clean_finish_dyn id f :
  stops_clean (finish_dyn_node (SS := never) id f) (finish_dyn_node (SS := step) id f).
Proof. unfold finish_dyn_node. clean_auto. Qed.

Lemma resume_dyn id f (x : X) :
  start_dyn_node (SS := never) id f x = catch resumed (start_dyn_node (SS := step) id f) x.
Proof.
  unfold start_dyn_node.
  repeat (rewrite catch_bind by quiet_auto; apply bind_post; intros ? ? _).
  case_match.
  - rewrite catch_bind by quiet_auto; apply bind_post; intros ? ? _.
    apply catch_clean. clean_auto.
  - done.
Qed.

Lemma exec_resumed c (x : X) : blocks_ok (x_forest x) ->
  execute_continuation (SS := never) kernel c x =
  catch resumed (execute_continuation (SS := step) kernel c) x.
Proof.
  intros Hok. unfold execute_continuation. rewrite catch_bind by quiet_auto.
  rewrite !bind_gets. destruct c as [id|id|id|id|id|id|id b i|id b|id|f].
  - destruct (get_node_by_id (x_forest x) id) as [n|] eqn:Hn; [|done].
    rewrite (bind_Ok _ _ x n x) by done. unfold catch. rewrite (bind_Ok _ _ x n x) by done.
    change (match ?m x with
            | (Err (User (Stopped c)), x') => resumed c x'
            | r => r
            end) with (catch resumed m x).
    destruct n as [n|n|n|n|n|n|n].
    + apply resume_from_start; [by split|]. by eapply Hok.
    + apply catch_clean, clean_join.
    + apply catch_clean, clean_split.
    + apply catch_clean, clean_loop.
    + apply catch_clean, clean_call.
    + apply resume_dyn.
    + unfold execute_external_node.
      repeat (rewrite catch_bind by quiet_auto; apply bind_post; intros ? ? _). done.
  - apply catch_clean, clean_finish_join.
  - apply catch_clean, clean_finish_split.
  - apply catch_clean, clean_finish_loop.
  - apply catch_clean, clean_finish_call.
  - apply catch_clean, clean_finish_dyn.
  - destruct (get_node_by_id (x_forest x) id) as [[n| | | | | |]|] eqn:Hn; try done.
    apply resume_from_op_idx. by split.
  - destruct (get_node_by_id (x_forest x) id) as [[n| | | | | |]|] eqn:Hn; try done.
    apply resume_from_batch. by split.
  - apply catch_clean, clean_finish_basic_block.
  - done.
Qed.

End Resume.
