(* ===== verification/StepExec.v ===== *)
(** * Executing step by step

    [execute_by_step_sync] resumes after every clock cycle;
    [execute_sync] runs to the end.  Both produce the same result and the same
    final state. *)

From S2P Require Import Prelude Felt Quad Operations OpBatch Mast AceCircuit Machine ExecuteOp.
From S2P Require Import Control Exec StepTheory.

Section StepExec.
Context `{G : Goldilocks} `{Q : QuadField} {P : Type} `{PP : Processor P} `{PV : !ProcessorView P}.
Context {F : Type} `{EF : ExecutableMastForest F} {H : Type} `{HH : SyncHost H P F}.
Context (kernel : KernelDescriptor).

Notation X := (XState P F H unit).
Notation BM A := (M (BreakReason F) X A).
Notation XM A := (M (InternalBreakReason F) X A).
Notation never := (NeverStopper (P := P) (F := F)).
Notation step := (StepStopper (P := P) (F := F)).
Notation finalize := finalize_clock_cycle_with_continuation_and_op_helpers.

(** ** Serving a break *)

Definition push_opt (c : option (Continuation F)) (x : X) : X :=
  match c with Some c => put_conts (c :: x_stack x) x | None => x end.

Lemma put_tracer_unit (u : unit) (x : X) : put_tracer u x = x.
Proof. by destruct x as [p l f h []], u. Qed.

Lemma finalize_not_stopped after h (f : F) (x : X) c y :
  finalize (SS := never) after h f x <> (Err (Stopped c), y).
Proof. apply finalize_never_bquiet. Qed.

Lemma load_quiet d : bquiet (load_mast_forest_sync (H := H) (T := unit) d).
Proof. unfold load_mast_forest_sync. quiet_auto. Qed.

Lemma bind_same {A} (m : BM A) (kn ks : A -> BM unit) (x : X) :
  bquiet m ->
  (forall a y, kn a y = match ks a y with
                        | (Err (Stopped c), x') => (Ok tt, push_opt c x')
                        | r => r
                        end) ->
  bind m kn x = match bind m ks x with
                | (Err (Stopped c), x') => (Ok tt, push_opt c x')
                | r => r
                end.
Proof.
  intros Hm Hk. specialize (Hm x). unfold bind.
  destruct (m x) as [[a|[e|c]|] y]; [apply Hk|done| |done]. by destruct (Hm c y).
Qed.

(** Serving a break without stopping is serving it with the stop resumed. *)
Lemma handle_resumed r (x : X) : (forall c, r <> User (Stopped c)) ->
  handle_break never r x =
  match handle_break step r x with
  | (Err (Stopped c), x') => (Ok tt, push_opt c x')
  | res => res
  end.
Proof.
  intros Hr. destruct r as [[e|c]|n k|d|id d]; [done|by destruct (Hr c)|..]; cbn [handle_break].
  - apply bind_same; [quiet_auto|]. intros _ y. apply bind_same; [quiet_auto|]. intros f z.
    unfold finish_emit_op_execution, finalize_clock_cycle_with_continuation, bind.
    rewrite finalize_step. pose proof (finalize_not_stopped (Some (Some k)) Helper.Empty f z) as Hq.
    destruct (finalize _ _ _ z) as [[[]|[e|c]|] w]; try done. by destruct (Hq c w).
  - apply bind_same; [apply load_quiet|]. intros [root f] y.
    unfold finish_load_mast_forest_from_dyn_start, finalize_clock_cycle,
      finalize_clock_cycle_with_continuation.
    do 4 (apply bind_same; [quiet_auto|]; intros ? ?). unfold bind.
    rewrite finalize_step.
    match goal with |- context [finalize (SS := never) ?a ?h ?g ?z] =>
      pose proof (finalize_not_stopped a h g z) as Hq;
      destruct (finalize (SS := never) a h g z) as [[[]|[e|c]|] w] end; try done.
    + unfold trace_call, modify. by rewrite put_tracer_unit.
    + by destruct (Hq c w).
  - apply bind_same; [apply load_quiet|]. intros [root f] y.
    assert (bquiet (P := P) (finish_load_mast_forest_from_external (H := H) (T := unit) root f id)) as Hq.
    { unfold finish_load_mast_forest_from_external. quiet_auto. }
    specialize (Hq y). destruct (finish_load_mast_forest_from_external _ _ _ y) as [[[]|[e|c]|] z]; try done.
    by destruct (Hq c z).
Qed.

(** ** Where a step stops *)

(** The continuation a stop names satisfies [R], and if there is one the forest
    is unchanged. *)
Definition stops_at (R : option (Continuation F) -> Prop) (m : XM unit) : Prop :=
  forall x c x', m x = (Err (User (Stopped c)), x') ->
    R c /\ (is_Some c -> x_forest x' = x_forest x).

Lemma stops_bind {A} R (m : XM A) (k : A -> XM unit) :
  quiet m -> framed m -> (forall a, stops_at R (k a)) -> stops_at R (bind m k).
Proof.
  intros Hm Hf Hk x c x'. specialize (Hm x). destruct (Hf x) as [_ Hf']. unfold bind.
  destruct (m x) as [[a|b|] y]; [|intros [= -> ->]; by destruct (Hm c x')|done].
  cbn in Hf'. rewrite <- Hf'. apply Hk.
Qed.

Lemma stops_finalize after h (f : F) (k : unit -> XM unit) :
  stops_at (fun c => c = after) (bind (map_break (finalize (SS := step) (Some after) h f)) k).
Proof.
  intros x c x'. pose proof (framed_finalize step (Some after) h f x) as [_ Hf]. revert Hf.
  unfold bind, map_break. rewrite finalize_step.
  pose proof (finalize_not_stopped (Some after) h f x) as Hq.
  destruct (finalize (SS := never) _ _ _ x) as [[[]|[e|c']|] y]; cbn; intros Hf; try done.
  - by intros [= <- <-].
  - by destruct (Hq c' y).
Qed.

(** Stops that leave the rest to the stack. *)
Definition stops_none (m : XM unit) : Prop :=
  forall x c x', m x = (Err (User (Stopped c)), x') -> c = None.

Lemma none_clean (mn ms : BM unit) : stops_clean mn ms -> stops_none (map_break ms).
Proof.
  intros Hc x c x'. specialize (Hc x). unfold map_break.
  destruct (ms x) as [[[]|[e|c']|] y]; try done. intros [= <- <-]. apply Hc.
Qed.

Lemma none_quiet (m : XM unit) : quiet m -> stops_none m.
Proof. intros Hm x c x' Hx. by destruct (Hm x c x'). Qed.

Lemma none_bind {A} (m : XM A) (k : A -> XM unit) :
  quiet m -> (forall a, stops_none (k a)) -> stops_none (bind m k).
Proof.
  intros Hm Hk x c x'. specialize (Hm x). unfold bind.
  destruct (m x) as [[a|b|] y]; [apply Hk|intros [= -> ->]; by destruct (Hm c x')|done].
Qed.

Lemma stops_at_none R m : stops_none m -> R None -> stops_at R m.
Proof. intros Hm HR x c x' Hx. rewrite (Hm x c x' Hx). split; [done|]. by intros []. Qed.

Lemma stops_assoc {A B} R (m : XM A) (g : A -> XM B) (k : B -> XM unit) :
  stops_at R (bind m (fun a => bind (g a) k)) -> stops_at R (bind (bind m g) k).
Proof. intros Hs x c x'. rewrite (bind_assoc m g k x). apply Hs. Qed.

(** ** The cycles left in a block *)

Definition batches_left (l : list OpBatch) : nat := sum_list_with (fun b => length (ob_ops b) + 2)%nat l.

Definition cycles_left (f : F) (c : Continuation F) : nat :=
  match c with
  | StartNode id =>
      match get_node_by_id f id with Some (NBlock bb) => batches_left (op_batches bb) + 2 | _ => 0 end
  | ResumeBasicBlock id b i =>
      match get_node_by_id f id with
      | Some (NBlock bb) =>
          from_option (fun batch => length (ob_ops batch) - i)%nat 0%nat (op_batches bb !! b) +
          batches_left (drop (S b) (op_batches bb)) + 1
      | _ => 0
      end
  | Respan id b =>
      match get_node_by_id f id with
      | Some (NBlock bb) => batches_left (drop b (op_batches bb)) + 1
      | _ => 0
      end
  | _ => 0
  end%nat.

Definition fewer (f : F) (c : Continuation F) (k : option (Continuation F)) : Prop :=
  match k with Some k => (cycles_left f k < cycles_left f c)%nat | None => True end.

Lemma stops_weaken (R R' : option (Continuation F) -> Prop) m :
  (forall c, R c -> R' c) -> stops_at R m -> stops_at R' m.
Proof. intros HR Hm x c x' Hx. destruct (Hm x c x' Hx). auto. Qed.

Lemma batches_left_cons (l : list OpBatch) b batch : l !! b = Some batch ->
  batches_left (drop b l) = (length (ob_ops batch) + 2 + batches_left (drop (S b) l))%nat.
Proof. intros Hb. by rewrite (drop_S _ _ _ Hb). Qed.

Section Block.
Context (bb : BasicBlockNode) (id : nat) (f : F) (Hn : get_node_by_id f id = Some (NBlock bb)).

Lemma stops_from_batch b c : (batches_left (drop b (op_batches bb)) < cycles_left f c)%nat ->
  stops_at (fewer f c) (execute_basic_block_node_from_batch (SS := step) bb id b f).
Proof.
  intros Hc. destruct (op_batches bb !! b) as [batch|] eqn:Hb.
  - rewrite (from_batch_cons _ _ _ _ _ _ Hb). apply stops_bind; [quiet_auto|auto with framed|].
    intros _. eapply stops_weaken; [|apply stops_finalize]. intros k ->. cbn [fewer cycles_left].
    rewrite Hn, Hb. cbn [from_option]. rewrite (batches_left_cons _ _ _ Hb) in Hc. lia.
  - rewrite from_batch_end by done.
    apply stops_at_none; [|done]. eapply none_clean, clean_finish_basic_block.
Qed.

Lemma stops_from_op_idx b i :
  stops_at (fewer f (ResumeBasicBlock id b i))
    (execute_basic_block_node_from_op_idx (SS := step) bb id b i f).
Proof.
  unfold execute_basic_block_node_from_op_idx. rewrite Nat.add_1_r.
  destruct (op_batches bb !! b) as [batch|] eqn:Hb.
  2: { unfold execute_op_batch. rewrite Hb. by intros x c x'. }
  destruct (ob_ops batch !! i) as [op|] eqn:Hi.
  2: { intros x c x'. rewrite (bind_Ok _ _ _ _ _ (op_batch_end _ _ _ step _ _ _ _ _ Hb Hi)).
       apply stops_from_batch. cbn [cycles_left]. rewrite Hn. lia. }
  intros x c x'. rewrite (op_batch_cons _ _ _ step _ _ _ _ _ _ _ Hb Hi). revert x c x'.
  apply lookup_lt_Some in Hi. unfold execute_batch_op.
  rewrite (get_continuation_Some _ _ _ _ _ Hb Hi). cbn [fmap option_fmap option_map].
  apply stops_assoc, stops_bind; [quiet_auto|auto with framed|]. intros _.
  apply stops_assoc, stops_bind; [apply helpers_quiet| |].
  { destruct op; auto with framed. }
  intros h. eapply stops_weaken; [|apply stops_finalize]. intros c ->. cbn [fewer].
  unfold cycles_left at 2. rewrite Hn, Hb. cbn [from_option].
  destruct (Nat.ltb_spec i (length (ob_ops batch) - 1)); [cbn; rewrite Hn, Hb; cbn; lia|].
  destruct (Nat.ltb_spec b (length (op_batches bb) - 1)); cbn; [|lia].
  rewrite Hn. lia.
Qed.

Lemma stops_from_start : op_batches bb <> [] ->
  stops_at (fewer f (StartNode id)) (execute_basic_block_node_from_start (SS := step) bb id f).
Proof.
  intros Hne. unfold execute_basic_block_node_from_start, finalize_clock_cycle_with_continuation.
  apply stops_bind; [quiet_auto|auto with framed|]. intros _.
  eapply stops_weaken; [|apply stops_finalize]. intros c ->. cbn [fewer cycles_left]. rewrite Hn.
  destruct (op_batches bb) as [|batch l]; [done|]. pose proof (batches_left_cons (batch :: l) 0 batch eq_refl) as Hl.
  rewrite drop_0 in Hl. cbn [lookup list_lookup from_option]. lia.
Qed.

End Block.

Lemma none_dyn id f : stops_none (start_dyn_node (SS := step) (H := H) id f).
Proof.
  unfold start_dyn_node.
  repeat (apply none_bind; [quiet_auto|intros ?]). case_match.
  - apply none_bind; [quiet_auto|]. intros _. eapply none_clean, clean_finalize.
  - by intros x c x'.
Qed.

Lemma none_external id f : stops_none (execute_external_node (H := H) (T := unit) (P := P) id f).
Proof. unfold execute_external_node. repeat (apply none_bind; [quiet_auto|intros ?]). done. Qed.

Lemma exec_stops c (x : X) k x' : blocks_ok (x_forest x) ->
  execute_continuation (SS := step) kernel c x = (Err (User (Stopped (Some k))), x') ->
  (cycles_left (x_forest x) k < cycles_left (x_forest x) c)%nat /\ x_forest x' = x_forest x.
Proof.
  intros Hok. remember (x_forest x) as f eqn:Hf. unfold execute_continuation.
  rewrite bind_gets, <- Hf.
  assert (forall m : XM unit, stops_none m -> m x = (Err (User (Stopped (Some k))), x') ->
    (cycles_left f k < cycles_left f c)%nat /\ x_forest x' = f) as Hnone.
  { intros m Hm Hx. by specialize (Hm _ _ _ Hx). }
  assert (forall m : XM unit, stops_at (fewer f c) m -> m x = (Err (User (Stopped (Some k))), x') ->
    (cycles_left f k < cycles_left f c)%nat /\ x_forest x' = f) as Hat.
  { intros m Hm Hx. destruct (Hm _ _ _ Hx) as [Hk Hx']. rewrite Hx' by done. by split. }
  destruct c as [id|id|id|id|id|id|id b i|id b|id|f'].
  - destruct (get_node_by_id f id) as [n|] eqn:Hn; [|done].
    rewrite (bind_Ok _ _ x n x) by done. destruct n as [n|n|n|n|n|n|n].
    + apply Hat, stops_from_start; [done|]. by eapply Hok.
    + eapply Hnone, none_clean, clean_join.
    + eapply Hnone, none_clean, clean_split.
    + eapply Hnone, none_clean, clean_loop.
    + eapply Hnone, none_clean, clean_call.
    + apply Hnone, none_dyn.
    + apply Hnone, none_external.
  - eapply Hnone, none_clean, clean_finish_join.
  - eapply Hnone, none_clean, clean_finish_split.
  - eapply Hnone, none_clean, clean_finish_loop.
  - eapply Hnone, none_clean, clean_finish_call.
  - eapply Hnone, none_clean, clean_finish_dyn.
  - destruct (get_node_by_id f id) as [[n| | | | | |]|] eqn:Hn; try done.
    by apply Hat, stops_from_op_idx.
  - destruct (get_node_by_id f id) as [[n| | | | | |]|] eqn:Hn; try done.
    apply Hat, stops_from_batch; [done|]. cbn [cycles_left]. rewrite Hn. lia.
  - eapply Hnone, none_clean, clean_finish_basic_block.
  - done.
Qed.

(** ** One tick *)

Notation tick_never := (tick_with kernel never).
Notation tick_step := (tick_with kernel step).

Lemma tick_resumed c (x : X) : blocks_ok (x_forest x) ->
  match tick_step c x with
  | (Err (Stopped k), x') =>
      tick_never c x = (Ok tt, push_opt k x') \/
      exists k', k = Some k' /\ tick_never c x = tick_never k' x' /\ x_forest x' = x_forest x /\
        (cycles_left (x_forest x) k' < cycles_left (x_forest x) c)%nat
  | r => tick_never c x = r
  end.
Proof.
  intros Hok. unfold tick_with. pose proof (exec_stops c x) as Hs.
  rewrite exec_resumed by done. unfold catch.
  destruct (execute_continuation (SS := step) kernel c x) as [[[]|r|] y] eqn:Hx; [done| |done].
  destruct r as [[e|[k|]]|n k|d|id d].
  2: { right. exists k. destruct (Hs k y Hok eq_refl). by split_and!. }
  2: by left.
  all: rewrite handle_resumed by done; by destruct (handle_break step _ y) as [[[]|[e'|k']|] z]; try left.
Qed.

(** ** Forests whose blocks have batches *)

Definition cont_ok (c : Continuation F) : Prop :=
  match c with EnterForest f => blocks_ok f | _ => True end.
Definition forests_ok (x : X) : Prop := blocks_ok (x_forest x) /\ Forall cont_ok (x_stack x).

Definition break_ok (b : BreakReason F) : Prop :=
  match b with Stopped (Some k) => cont_ok k | _ => True end.
Definition reason_ok (r : InternalBreakReason F) : Prop :=
  match r with User b => break_ok b | EmitBreak _ k => cont_ok k | _ => True end.

Definition stays_ok {E A} (R : E -> Prop) (m : M E X A) : Prop :=
  forall x, forests_ok x -> forests_ok (m x).2 /\ forall r, (m x).1 = Err r -> R r.

Lemma stays_bind {E A B} R (m : M E X A) (k : A -> M E X B) :
  stays_ok R m -> (forall a x y, m x = (Ok a, y) -> stays_ok R (k a)) -> stays_ok R (bind m k).
Proof.
  intros Hm Hk x Hx. specialize (Hm x Hx). unfold bind.
  destruct (m x) as [[a|e|] y] eqn:Hmx; cbn in *; destruct Hm as [Hy Hr]; [by eapply Hk| |].
  - split; [done|]. intros r [= <-]. by apply Hr.
  - by split.
Qed.

Lemma ok_framed {E A} (R : E -> Prop) (m : M E X A) :
  framed m -> (forall x r, (m x).1 = Err r -> R r) -> stays_ok R m.
Proof.
  intros Hf HR x [Hx Hl]. destruct (Hf x) as [Hs Hfo]. split; [|apply HR].
  split; [by rewrite Hfo|by rewrite Hs].
Qed.

Lemma ok_map_break {A} (m : BM A) : stays_ok break_ok m -> stays_ok reason_ok (map_break m).
Proof.
  intros Hm x Hx. destruct (Hm x Hx) as [Hy Hr]. unfold map_break.
  destruct (m x) as [[a|e|] y]; cbn in *; split; try done. intros r [= <-]. by apply Hr.
Qed.

Lemma ok_on_processor {A} (m : PM P A) : stays_ok break_ok (on_processor m).
Proof.
  apply ok_framed; [apply framed_on_processor|]. intros x r. unfold on_processor.
  destruct (m _) as [[]]; [done|by intros [= <-]|done].
Qed.

Lemma ok_on_handler {A} (m : VM P A) : stays_ok break_ok (on_handler m).
Proof.
  apply ok_framed; [apply framed_on_handler|]. intros x r. unfold on_handler.
  destruct (m _) as [[]]; [done|by intros [= <-]|done].
Qed.

Lemma stays_gets {E A} (R : E -> Prop) (f : X -> A) : stays_ok R (gets f).
Proof. by apply ok_framed. Qed.
Lemma stays_ret {E A} (R : E -> Prop) (a : A) : stays_ok R (ret a).
Proof. by apply ok_framed. Qed.
Lemma stays_panic {E A} (R : E -> Prop) : stays_ok (A := A) R panic.
Proof. by apply ok_framed. Qed.
Lemma stays_fail {E A} (R : E -> Prop) e : R e -> stays_ok (A := A) R (fail e).
Proof. intros He. apply ok_framed; [done|]. by intros x r [= <-]. Qed.
Lemma ok_expect {E A} (R : E -> Prop) (o : option A) : stays_ok R (expect o).
Proof. apply ok_framed; by destruct o. Qed.
Lemma ok_or_err {A} (o : option A) e : stays_ok break_ok (ok_or o (BreakErr e)).
Proof. apply ok_framed; destruct o; try done. by intros x r [= <-]. Qed.
Lemma ok_start c : stays_ok break_ok (start_clock_cycle c).
Proof. by apply ok_framed. Qed.
Lemma ok_trace f : stays_ok break_ok (trace_call f).
Proof. by apply ok_framed. Qed.
Lemma ok_push c : cont_ok c -> stays_ok break_ok (push_continuation c).
Proof. intros Hc x [Hx Hl]. split; [|done]. split; [done|by constructor]. Qed.
Lemma ok_put_forest f : blocks_ok f -> stays_ok (E := BreakReason F) break_ok (modify (put_forest f)).
Proof. intros Hf x [Hx Hl]. by split. Qed.

Lemma ok_finalize after h f : (forall k, after = Some (Some k) -> cont_ok k) ->
  stays_ok break_ok (finalize (SS := step) after h f).
Proof.
  intros Ha. apply stays_bind; [by apply ok_framed|intros _ _ _ _].
  apply stays_bind; [apply ok_on_processor|intros _ _ _ _]. apply ok_framed; [done|]. intros x r. cbn. unfold should_stop, StepStopper.
  unfold check_if_max_cycles_exceeded, check_if_continuation_stack_too_large.
  destruct (_ <? _); [by intros [= <-]|]. destruct (_ <? _)%nat; [by intros [= <-]|].
  destruct after as [[k|]|]; [|by intros [= <-]|done]. intros [= <-]. by apply Ha.
Qed.

Create HintDb forests discriminated.
Hint Resolve ok_on_processor ok_on_handler stays_gets stays_ret stays_panic ok_expect ok_or_err ok_start ok_trace
  ok_put_forest : forests.

Ltac ok_auto :=
  unfold finalize_clock_cycle, finalize_clock_cycle_with_continuation, option_map_break_reason,
    record, fail_operation, get_next_ctx_id;
  repeat match goal with
         | |- forall _, _ => intros ?
         | |- stays_ok _ (bind _ _) => apply stays_bind
         | |- stays_ok reason_ok (map_break _) => apply ok_map_break
         | |- stays_ok _ (if ?c then _ else _) => destruct c
         | |- stays_ok _ (fail _) => apply stays_fail; exact I
         | |- stays_ok _ (push_continuation _) => apply ok_push; exact I
         | |- stays_ok _ (finalize (Some _) _ _) => apply ok_finalize; intros ? [= <-]; exact I
         | |- _ => solve [eauto 2 with forests]
         end.

Lemma ok_batch_op bb id b off i op f : stays_ok reason_ok (execute_batch_op (SS := step) bb id b off i op f).
Proof.
  unfold execute_batch_op.
  assert (forall k, get_continuation_after_executing_operation bb id b i = Some k -> cont_ok k) as Hk.
  { unfold get_continuation_after_executing_operation. intros k.
    destruct (op_batches bb !! b) as [batch|]; [|done]. cbn [mbind option_bind].
    destruct (checked_sub (length _) 1) as [n|]; cbn [mbind option_bind]; [|done].
    destruct (checked_sub (num_op_batches bb) 1) as [m|]; cbn [mbind option_bind]; [|done].
    intros [= <-].
    destruct (i <? n)%nat; [exact I|]. destruct (b <? m)%nat; exact I. }
  ok_auto.
  - destruct op; ok_auto. apply stays_fail, Hk.
    match goal with He : expect ?o _ = (Ok _, _) |- _ =>
      destruct o; [by injection He as <-|done] end.
  - apply ok_finalize. intros k. destruct (get_continuation_after_executing_operation bb id b i) eqn:Hc; [|done].
    intros [= <-]. by apply Hk.
Qed.

Lemma ok_op_batch bb id b i off f :
  stays_ok reason_ok (execute_op_batch (SS := step) bb id b i off f).
Proof.
  unfold execute_op_batch. apply stays_bind; [apply ok_expect|]. intros batch _ _ _.
  generalize (drop i (ob_ops batch)) as ops. intros ops. revert i.
  induction ops as [|op ops IH]; intros i; [apply stays_ret|].
  apply stays_bind; [apply ok_batch_op|]. intros _ _ _ _. apply IH.
Qed.

Lemma ok_from_batch bb id b f :
  stays_ok reason_ok (execute_basic_block_node_from_batch (SS := step) bb id b f).
Proof.
  unfold execute_basic_block_node_from_batch. generalize (drop b (op_batches bb)) as l.
  generalize (batch_offset bb b) as off. intros off l. revert b off.
  induction l as [|batch l IH]; intros b off; cbn [execute_batches].
  - unfold finish_basic_block. ok_auto.
  - ok_auto. apply ok_op_batch.
Qed.

Lemma ok_get_forest {E A} (R : E -> Prop) (k : F -> M E X A) :
  (forall f, blocks_ok f -> stays_ok R (k f)) -> stays_ok R (bind (gets x_forest) k).
Proof. intros Hk x Hx. rewrite bind_gets. apply Hk; [apply Hx|done]. Qed.

Lemma ok_exec c : cont_ok c -> stays_ok reason_ok (execute_continuation (SS := step) kernel c).
Proof.
  intros Hc. apply ok_get_forest. intros f Hf.
  destruct c as [id|id|id|id|id|id|id b i|id b|id|f'].
  - apply stays_bind; [apply ok_expect|]. intros n _ _ _. destruct n as [n|n|n|n|n|n|n].
    + unfold execute_basic_block_node_from_start. do 2 (apply stays_bind; [ok_auto|intros _ _ _ _]).
      apply stays_bind; [|intros _ _ _ _; apply ok_from_batch].
      destruct (op_batches n); [apply stays_ret|apply ok_op_batch].
    + unfold start_join_node. ok_auto.
    + unfold start_split_node. ok_auto.
    + unfold start_loop_node. ok_auto.
    + unfold start_call_node. ok_auto.
    + unfold start_dyn_node. ok_auto.
      match goal with |- stays_ok _ (match ?o with _ => _ end) => destruct o end; ok_auto.
    + unfold execute_external_node. ok_auto.
  - unfold finish_join_node. ok_auto.
  - unfold finish_split_node. ok_auto.
  - unfold finish_loop_node. ok_auto.
  - unfold finish_call_node. ok_auto.
  - unfold finish_dyn_node. ok_auto.
  - unfold execute_basic_block_node_from_op_idx. ok_auto; [apply ok_op_batch|apply ok_from_batch].
  - ok_auto. apply ok_from_batch.
  - unfold finish_basic_block. ok_auto.
  - intros x [Hx Hl]. by split.
Qed.

(** ** Complete runs *)

Context (host_ok : forall (h : H) d f, get_mast_forest h d = Some f -> blocks_ok f).

Lemma ok_load d : stays_ok break_ok (load_mast_forest_sync (H := H) (T := unit) d).
Proof. unfold load_mast_forest_sync. ok_auto. Qed.

Lemma load_ok d (x y : X) root f : load_mast_forest_sync d x = (Ok (root, f), y) -> blocks_ok f.
Proof.
  unfold load_mast_forest_sync. rewrite bind_gets.
  destruct (get_mast_forest (x_host x) d) as [g|] eqn:Hg; [|done]. cbn [ok_or]. rewrite (bind_ret_l _ _ x).
  destruct (find_procedure_root g d) as [[id|]|]; [|done|done]. unfold bind. cbn.
  destruct (on_processor _ x) as [[[]| |] z]; [|done|done]. intros [= <- <- <-]. by eapply host_ok.
Qed.

Lemma ok_handle r : reason_ok r -> stays_ok break_ok (handle_break step r).
Proof.
  intros Hr. destruct r as [b|n k|d|id d]; cbn [handle_break reason_ok] in *.
  - by apply stays_fail.
  - apply stays_bind; [|intros _ _ _ _].
    { apply ok_framed; intros x; unfold on_host; destruct (op_emit_sync n _) as [[[]|e|] [p h]]; try done.
      by intros r [= <-]. }
    apply ok_get_forest. intros f Hf. unfold finish_emit_op_execution.
    apply stays_bind; [apply ok_finalize; by intros ? [= <-]|intros _ _ _ _]. by apply ok_push.
  - apply stays_bind; [apply ok_load|]. intros [root f] x y Hf%load_ok.
    apply ok_get_forest. intros f' Hf'. apply stays_bind; [by apply ok_push|intros _ _ _ _]. ok_auto.
  - apply stays_bind; [apply ok_load|]. intros [root f] x y Hf%load_ok.
    apply ok_get_forest. intros f' Hf'. ok_auto. by apply ok_push.
Qed.

Lemma tick_ok c (x : X) : cont_ok c -> forests_ok x ->
  match tick_step c x with
  | (Err b, y) => break_ok b /\ forests_ok y
  | (_, y) => forests_ok y
  end.
Proof.
  intros Hc Hx. destruct (ok_exec c Hc x Hx) as [Hy Hr]. unfold tick_with.
  destruct (execute_continuation (SS := step) kernel c x) as [[[]|r|] y]; try done.
  destruct (ok_handle r (Hr r eq_refl) y Hy) as [Hz Hb].
  destruct (handle_break step r y) as [[[]|b|] z]; try done. split; [by apply Hb|done].
Qed.

(** *** From steps to the run *)

Notation runs_never := (runs kernel never).
Notation runs_step := (runs kernel step).

Lemma put_conts_same (x : X) l l' : put_conts l (put_conts l' x) = put_conts l x.
Proof. done. Qed.

Lemma put_conts_eta (x : X) : put_conts (x_stack x) x = x.
Proof. by destruct x. Qed.

Lemma outputs_not_stopped (x : X) k y : take_outputs x <> (Err (Stopped k), y).
Proof.
  unfold take_outputs. rewrite bind_gets. destruct (view_stack (x_processor x)) as [l|]; [|done].
  cbn [expect]. rewrite (bind_ret_l _ _ x). destruct (stack_outputs_new l); [done|].
  by destruct (checked_sub _ _).
Qed.

(** A run that starts by finishing the tick of [c]. *)
Lemma runs_same_tick (x x' : X) c c' rest r y : x_stack x = c :: rest ->
  tick_never c (put_conts rest x) = tick_never c' x' ->
  runs_never (push_opt (Some c') x') r y -> runs_never x r y.
Proof.
  intros Hx Ht Hr. inversion Hr as [r' z Hz|d rest' z r' w Hz Hd Hw|d rest' b w Hz Hd|d rest' w Hz Hd];
    subst; cbn in Hz; try done; injection Hz as <- <-;
    cbn [push_opt] in Hd; rewrite put_conts_same, put_conts_eta, <- Ht in Hd.
  - by eapply runs_tick.
  - by eapply runs_break.
  - by eapply runs_panic.
Qed.

Lemma step_run_sound (x : X) flow y : runs_step x flow y -> forests_ok x ->
  match flow with
  | Err (Stopped k) =>
      forests_ok (push_opt k y) /\ forall r z, runs_never (push_opt k y) r z -> runs_never x r z
  | _ => runs_never x flow y
  end.
Proof.
  induction 1 as [x r y Hx Hr|x c rest x1 r y Hx Ht _ IH|x c rest b y Hx Ht|x c rest y Hx Ht];
    intros Hok; destruct Hok as [Hf Hl].
  { destruct r as [o|[e|k]|]; try by apply runs_done. by apply outputs_not_stopped in Hr. }
  all: rewrite Hx in Hl; inversion_clear Hl as [|? ? Hc Hrest];
    pose proof (tick_ok c (put_conts rest x) Hc (conj Hf Hrest)) as Hok;
    pose proof (tick_resumed c (put_conts rest x) Hf) as Hres; rewrite Ht in Hok, Hres.
  - specialize (IH Hok). destruct r as [o|[e|k]|]; try by eapply runs_tick.
    destruct IH as [Hk IH]. split; [done|]. intros r z Hz. by eapply runs_tick, IH.
  - destruct b as [e|k]; [by eapply runs_break|]. destruct Hok as [Hk Hy]. split.
    { destruct k as [k|]; [|done]. destruct Hy as [Hy Hly]. split; [done|by constructor]. }
    intros r z Hz. destruct Hres as [Hres|(k' & -> & Hres & _)]; [by eapply runs_tick|].
    by eapply runs_same_tick.
  - by eapply runs_panic.
Qed.

(** *** Entering forests early *)

Definition enter (x : X) : X :=
  let '(l, f) := enter_forests (x_stack x) (x_forest x) in put_forest f (put_conts l x).

Lemma tick_enter (SS : Stopper P F) f (x : X) :
  tick_with kernel SS (EnterForest f) x = (Ok tt, put_forest f x).
Proof. done. Qed.

Lemma enter_cases (x : X) :
  enter x = x \/
  exists f l, x_stack x = EnterForest f :: l /\ enter x = enter (put_forest f (put_conts l x)).
Proof.
  unfold enter. destruct x as [p st f h t]. cbn. destruct st as [|c l]; [by left|].
  destruct c; try by left. right. by eexists _, l.
Qed.

Lemma enter_ind (R : X -> Prop) :
  (forall x, enter x = x -> R x) ->
  (forall x f l, x_stack x = EnterForest f :: l -> enter x = enter (put_forest f (put_conts l x)) ->
     R (put_forest f (put_conts l x)) -> R x) ->
  forall x, R x.
Proof.
  intros Hb Hi x. remember (length (x_stack x)) as n eqn:Hn. revert x Hn.
  induction n as [n IH] using lt_wf_ind. intros x ->.
  destruct (enter_cases x) as [Hx|(f & l & Hx & He)]; [by apply Hb|].
  eapply Hi; [done..|]. eapply IH; [|done]. cbn. rewrite Hx. cbn. lia.
Qed.

Lemma runs_enter (SS : Stopper P F) (x : X) r y :
  runs kernel SS (enter x) r y <-> runs kernel SS x r y.
Proof.
  revert x. apply (enter_ind (fun x => runs kernel SS (enter x) r y <-> runs kernel SS x r y)).
  { by intros x ->. }
  intros x f l Hx -> IH. rewrite IH. split; intros Hr; [by eapply runs_tick|].
  inversion Hr as [? ? Hs|? ? ? ? ? Hs Ht|? ? ? ? Hs Ht|? ? ? Hs Ht]; subst; rewrite Hx in Hs; try done;
    injection Hs as <- <-; rewrite tick_enter in Ht; by simplify_eq.
Qed.

Lemma enter_ok (x : X) : forests_ok x -> forests_ok (enter x).
Proof.
  revert x. apply (enter_ind (fun x => forests_ok x -> forests_ok (enter x))); [by intros x ->|].
  intros x f l Hx -> IH [Hf Hl]. apply IH. rewrite Hx in Hl. by inversion Hl.
Qed.

(** *** The step loop *)

Inductive steps (x : X) : res ExecutionError (list Felt) -> X -> Prop :=
| steps_done o y : runs_step x (Ok o) y ->
    steps x (match view_stack (x_processor y) ≫= stack_outputs_new with
             | Some outputs => Ok outputs
             | None => Panic
             end) y
| steps_err e y : runs_step x (Err (BreakErr e)) y -> steps x (Err e) y
| steps_panic y : runs_step x Panic y -> steps x Panic y
| steps_resume k y r z : runs_step x (Err (Stopped k)) y -> steps (enter (push_opt k y)) r z ->
    steps x r z.

Lemma resume_stopped k (y : X) :
  resume_context_from_flow (Err (Stopped k)) y = Ok (Some (enter (push_opt k y))).
Proof.
  unfold resume_context_from_flow, enter. destruct k as [k|]; cbn [push_opt put_conts x_stack x_forest].
  - by destruct (enter_forests (k :: x_stack y) (x_forest y)).
  - by destruct (enter_forests (x_stack y) (x_forest y)).
Qed.

Lemma execute_steps_sound n (x : X) r y : execute_steps kernel n x = Some (r, y) -> steps x r y.
Proof.
  revert x. induction n as [|n IH]; intros x; [done|]. cbn [execute_steps]. unfold step_sync.
  destruct (execute_program kernel step (S n) x) as [[flow z]|] eqn:Hp; [|done].
  apply execute_program_sound in Hp. destruct flow as [o|[e|k]|].
  - intros [= <- <-]. by eapply steps_done.
  - intros [= <- <-]. by apply steps_err.
  - rewrite resume_stopped. intros Hr. by eapply steps_resume, IH.
  - intros [= <- <-]. by apply steps_panic.
Qed.

Lemma execute_steps_mono n (x : X) v :
  execute_steps kernel n x = Some v -> execute_steps kernel (S n) x = Some v.
Proof.
  revert x. induction n as [|n IH]; intros x; [done|].
  intros Hv. change (execute_steps kernel (S (S n)) x) with
    (match step_sync kernel (S (S n)) x with
     | None => None
     | Some (Ok (Some x'), _) => execute_steps kernel (S n) x'
     | Some (Ok None, x') =>
         Some (match view_stack (x_processor x') ≫= stack_outputs_new with
               | Some outputs => Ok outputs
               | None => Panic
               end, x')
     | Some (Err e, x') => Some (Err e, x')
     | Some (Panic, x') => Some (Panic, x')
     end).
  cbn [execute_steps] in Hv. unfold step_sync in *.
  destruct (execute_program kernel step (S n) x) as [[flow z]|] eqn:Hp; [|done].
  rewrite (execute_program_mono _ _ _ _ _ Hp).
  destruct (resume_context_from_flow flow z) as [[x'|]| |]; try done. by apply IH.
Qed.

Lemma execute_steps_complete (x : X) r y : steps x r y -> exists n, execute_steps kernel n x = Some (r, y).
Proof.
  induction 1 as [x o y Hr|x e y Hr|x y Hr|x k y r z Hr _ [m IH]];
    apply execute_program_complete in Hr as [n Hn]; (destruct n as [|n]; [done|]).
  1-3: exists (S n); cbn [execute_steps]; unfold step_sync; by rewrite Hn.
  exists (S (n + m)). cbn [execute_steps]. unfold step_sync.
  rewrite (execute_program_mono_le kernel step (S n) (S (n + m)) x _ ltac:(lia) Hn), resume_stopped.
  clear -IH. induction n as [|n IHn]; [done|]. by apply execute_steps_mono.
Qed.

Definition flow_of (r : res ExecutionError (list Felt)) : res (BreakReason F) (list Felt) :=
  match r with Ok o => Ok o | Err e => Err (BreakErr e) | Panic => Panic end.

Lemma take_outputs_Ok (x y : X) o : take_outputs x = (Ok o, y) ->
  y = x /\ view_stack (x_processor x) ≫= stack_outputs_new = Some o.
Proof.
  unfold take_outputs. rewrite bind_gets. destruct (view_stack (x_processor x)) as [l|]; [|done].
  cbn [expect mbind option_bind]. rewrite (bind_ret_l _ _ x).
  destruct (stack_outputs_new l); [by intros [= -> ->]|]. by destruct (checked_sub _ _).
Qed.

Lemma runs_outputs (SS : Stopper P F) (x y : X) o : runs kernel SS x (Ok o) y ->
  view_stack (x_processor y) ≫= stack_outputs_new = Some o.
Proof.
  remember (Ok o) as r eqn:Hr. induction 1 as [x r y Hx Ht| | |]; try done; [|by apply IHruns].
  subst r. by apply take_outputs_Ok in Ht as [-> ?].
Qed.

Lemma steps_sound (x : X) r y : steps x r y -> forests_ok x -> runs_never x (flow_of r) y.
Proof.
  induction 1 as [x o y Hr|x e y Hr|x y Hr|x k y r z Hr _ IH]; intros Hok;
    pose proof (step_run_sound _ _ _ Hr Hok) as Hn.
  - by rewrite (runs_outputs _ _ _ _ Hr).
  - done.
  - done.
  - destruct Hn as [Hk Hn]. apply Hn, runs_enter, IH. by apply enter_ok.
Qed.

(** *** From the run to steps *)

Lemma steps_tick (x x1 : X) c rest r y : x_stack x = c :: rest ->
  tick_step c (put_conts rest x) = (Ok tt, x1) -> steps x1 r y -> steps x r y.
Proof.
  intros Hx Ht Hs. inversion Hs; subst.
  - eapply steps_done, runs_tick; eauto.
  - eapply steps_err, runs_tick; eauto.
  - eapply steps_panic, runs_tick; eauto.
  - eapply steps_resume; [eapply runs_tick; eauto|done].
Qed.

Lemma steps_enter (x : X) r y : steps x r y -> steps (enter x) r y.
Proof.
  intros Hs. inversion Hs; subst.
  - by eapply steps_done, runs_enter.
  - by eapply steps_err, runs_enter.
  - by eapply steps_panic, runs_enter.
  - by eapply steps_resume; [apply runs_enter|].
Qed.

Lemma steps_complete_tick n c (x : X) : (cycles_left (x_forest x) c < n)%nat ->
  forests_ok x -> cont_ok c ->
  match tick_never c x with
  | (Ok _, x1) => forests_ok x1 /\ forall r y, steps x1 r y -> steps (push_opt (Some c) x) r y
  | (Err (BreakErr e), y) => steps (push_opt (Some c) x) (Err e) y
  | (Err (Stopped _), _) => False
  | (Panic, y) => steps (push_opt (Some c) x) Panic y
  end.
Proof.
  revert c x. induction n as [|n IH]; intros c x Hn Hok Hc; [lia|].
  pose proof (tick_resumed c x (proj1 Hok)) as Hres. pose proof (tick_ok c x Hc Hok) as Hto.
  assert (forall r y, (exists k z, tick_step c x = (Err (Stopped k), z) /\ steps (push_opt k z) r y) ->
    steps (push_opt (Some c) x) r y) as Hstop.
  { intros r y (k & z & Ht & Hs). eapply steps_resume; [|by apply steps_enter].
    by eapply runs_break; [done|]; cbn [push_opt]; rewrite put_conts_same, put_conts_eta. }
  destruct (tick_step c x) as [[[]|[e|k]|] z] eqn:Ht.
  - rewrite Hres. split; [done|]. intros r y Hs. eapply steps_tick; [done| |by apply Hs].
    cbn [push_opt]. by rewrite put_conts_same, put_conts_eta.
  - rewrite Hres. apply steps_err. eapply runs_break; [done|]. cbn [push_opt].
    by rewrite put_conts_same, put_conts_eta.
  - destruct Hto as [Hk Hz]. destruct Hres as [->|(k' & -> & -> & Hf & Hlt)].
    + split; [|by eauto 7]. destruct k as [k|]; [|done]. destruct Hz. split; [done|by constructor].
    + specialize (IH k' z ltac:(rewrite Hf; lia) Hz Hk).
      destruct (tick_never k' z) as [[[]|[e|k'']|] w]; [|eauto 6..|done|eauto 6].
      destruct IH as [Hw IH]. split; [done|]. eauto 7.
  - rewrite Hres. apply steps_panic. eapply runs_panic; [done|]. cbn [push_opt].
    by rewrite put_conts_same, put_conts_eta.
Qed.

Lemma push_opt_pop (x : X) c rest : x_stack x = c :: rest -> push_opt (Some c) (put_conts rest x) = x.
Proof. intros Hx. destruct x. cbn in *. by subst. Qed.

Lemma steps_complete (x : X) flow y : runs_never x flow y -> forests_ok x ->
  exists r, flow = flow_of r /\ steps x r y.
Proof.
  induction 1 as [x r y Hx Hr|x c rest x1 r y Hx Ht _ IH|x c rest b y Hx Ht|x c rest y Hx Ht]; intros Hok.
  { assert (runs_step x r y) as Hs by by apply runs_done. destruct r as [o|[e|k]|].
    - exists (Ok o). split; [done|]. pose proof (steps_done _ _ _ Hs) as Hd.
      by rewrite (runs_outputs _ _ _ _ Hs) in Hd.
    - exists (Err e). split; [done|]. by apply steps_err.
    - by apply outputs_not_stopped in Hr.
    - exists Panic. split; [done|]. by apply steps_panic. }
  all: destruct Hok as [Hf Hl]; rewrite Hx in Hl; inversion_clear Hl as [|? ? Hc Hrest];
    pose proof (steps_complete_tick (S (cycles_left (x_forest x) c)) c (put_conts rest x)
      (Nat.lt_succ_diag_r _) (conj Hf Hrest) Hc) as Hn; rewrite Ht, (push_opt_pop _ _ _ Hx) in Hn.
  - destruct Hn as [Hx1 Hn]. destruct (IH Hx1) as (r' & -> & Hs). eauto.
  - destruct b as [e|k]; [|done]. by exists (Err e).
  - by exists Panic.
Qed.

End StepExec.

(** ** The theorem *)

Section Equiv.
Context `{G : Goldilocks} `{Q : QuadField} {P : Type} `{PP : Processor P} `{PV : !ProcessorView P}.
Context {F : Type} `{EF : ExecutableMastForest F} {H : Type} `{HH : SyncHost H P F}.

(** C3: stopping after every clock cycle and resuming changes nothing:
    [execute_by_step_sync], which returns to its caller at the end of every
    cycle with the continuation to resume from, ends with a result and a state
    exactly when [execute_sync], which runs the program in one go, ends with
    the same result (outputs, error or panic) and the same final state of the
    processor and the host.  The forests involved have no empty basic block,
    which the node builder rejects. *)
Theorem execute_by_step_equiv (kernel : KernelDescriptor) (p : P) (h : H) (f : F) (entry : MastNodeId) :
  blocks_ok f -> (forall (h : H) d g, get_mast_forest h d = Some g -> blocks_ok g) ->
  forall r y,
    (exists n, execute_by_step_sync kernel n p h f entry = Some (r, y)) <->
    (exists n, execute_sync kernel n p h f entry = Some (r, y)).
Proof.
  intros Hf Hh r y. unfold execute_by_step_sync, execute_sync, execute_with_tracer_sync, initial_state.
  destruct (view_extend_map (forest_advice_map f) p) as [[[]|e|] p']; [|done..].
  set (x := mkX p' [StartNode entry] f h ()).
  assert (forests_ok x) as Hx by (split; [done|by repeat constructor]). split.
  - intros [n Hn]. apply execute_steps_sound, steps_sound, execute_program_complete in Hn as [m Hm];
      [|done..]. exists m. rewrite Hm. by destruct r.
  - intros [n Hn].
    destruct (execute_program kernel NeverStopper n x) as [[flow z]|] eqn:Hp; [|done].
    apply execute_program_sound, steps_complete in Hp as (r' & -> & Hs); [|done..].
    assert (r = r' /\ y = z) as [-> ->] by (by destruct r'; injection Hn as <- <-).
    by apply execute_steps_complete.
Qed.

End Equiv.

(** The forests the node builder makes qualify. *)
Lemma dense_blocks_ok (f : MastForest) : forest_wf f -> blocks_ok f.
Proof. intros [Hn _] id bb Hid. by apply (Forall_lookup_1 _ _ _ _ Hn) in Hid as [_ Hid]. Qed.
