(* ===== verification/Memory.v ===== *)
(** * The processor's memory

    processor/src/fast/memory.rs: a map from (context, word address) to words
    with a bound on the number of entries.  Reads of unwritten locations give
    zeros; word accesses must be aligned; contexts do not see each other. *)

From S2P Require Import Prelude Felt Quad AceCircuit Machine.

Record Memory := mkMemory {
  memory : gmap (Z * Z) Word;
  max_entries : Z
}.

(** [usize::div_ceil]. *)
Definition div_ceil (a b : Z) : Z := (a + b - 1) / b.

Definition memory_new (max_elements : Z) : Memory := mkMemory ∅ (div_ceil max_elements 4).

Definition set_max_elements (m : Memory) (max_elements : Z) : Memory :=
  mkMemory (memory m) (div_ceil max_elements 4).

Definition max_element_limit (m : Memory) : Z := Z.min USIZE_MAX (max_entries m * 4).

Definition clean_addr (addr : Felt) : res MemoryError Z :=
  if ⟦addr⟧ <=? U32_MAX then Ok ⟦addr⟧ else Err (AddressOutOfBounds ⟦addr⟧).

Definition split_addr (addr : Z) : Z * Z :=
  let idx := addr mod 4 in
  (addr - idx, idx).

Definition enforce_word_aligned_addr (ctx : ContextId) (addr : Z) : res MemoryError Z :=
  if addr mod 4 =? 0 then Ok addr else Err (UnalignedWordAccess addr ctx).

Definition read_element_impl (m : Memory) (ctx : ContextId) (addr : Z) : option Felt :=
  let '(word_addr, idx) := split_addr addr in
  match memory m !! (ctx, word_addr) with
  | Some word => word_get word (Z.to_nat idx)
  | None => None
  end.

Definition read_word_impl (m : Memory) (ctx : ContextId) (addr : Z) :
    res MemoryError (option Word) :=
  match enforce_word_aligned_addr ctx addr with
  | Ok addr => Ok (memory m !! (ctx, addr))
  | Err e => Err e
  | Panic => Panic
  end.

Definition read_element (m : Memory) (ctx : ContextId) (addr : Felt) : res MemoryError Felt :=
  match clean_addr addr with
  | Ok a => Ok (default ZERO (read_element_impl m ctx a))
  | Err e => Err e
  | Panic => Panic
  end.

Definition read_word (m : Memory) (ctx : ContextId) (addr : Felt) : res MemoryError Word :=
  match clean_addr addr with
  | Ok a =>
      match read_word_impl m ctx a with
      | Ok o => Ok (default EMPTY_WORD o)
      | Err e => Err e
      | Panic => Panic
      end
  | Err e => Err e
  | Panic => Panic
  end.

(** Whether an insertion at a key would grow the map beyond its limit. *)
Definition would_exceed (m : Memory) (k : Z * Z) : bool :=
  bool_decide (memory m !! k = None) && (max_entries m <=? Z.of_nat (size (memory m))).

Definition write_element (m : Memory) (ctx : ContextId) (addr element : Felt) :
    res MemoryError unit * Memory :=
  match clean_addr addr with
  | Ok a =>
      let '(word_addr, idx) := split_addr a in
      if would_exceed m (ctx, word_addr)
      then (Err (MemoryElementLimitExceeded ctx word_addr (max_element_limit m)), m)
      else
        let word := default EMPTY_WORD (memory m !! (ctx, word_addr)) in
        match word_set word (Z.to_nat idx) element with
        | Some word' => (Ok tt, mkMemory (<[(ctx, word_addr) := word']> (memory m)) (max_entries m))
        | None => (Panic, m)
        end
  | Err e => (Err e, m)
  | Panic => (Panic, m)
  end.

Definition write_word (m : Memory) (ctx : ContextId) (addr : Felt) (word : Word) :
    res MemoryError unit * Memory :=
  match clean_addr addr with
  | Ok a =>
      match enforce_word_aligned_addr ctx a with
      | Ok a =>
          if would_exceed m (ctx, a)
          then (Err (MemoryElementLimitExceeded ctx a (max_element_limit m)), m)
          else (Ok tt, mkMemory (<[(ctx, a) := word]> (memory m)) (max_entries m))
      | Err e => (Err e, m)
      | Panic => (Panic, m)
      end
  | Err e => (Err e, m)
  | Panic => (Panic, m)
  end.

(** ** The element view of memory

    [elem_at m ctx a] is what element address [a] of context [ctx] holds; every
    operation is characterised by what it does to this function. *)

Definition elem_at (m : Memory) (ctx : ContextId) (a : Z) : Felt :=
  default ZERO (read_element_impl m ctx a).

(** The key of the word that holds an element address. *)
Definition word_key (ctx : ContextId) (a : Z) : Z * Z := (ctx, a - a mod 4).

Definition word_at (m : Memory) (k : Z * Z) : Word := default EMPTY_WORD (memory m !! k).

Lemma word_nth_empty i : (i < 4)%nat -> word_get EMPTY_WORD i = Some ZERO.
Proof. intros. do 4 (destruct i as [|i]; [done|]). lia. Qed.

Lemma elem_at_word m ctx a :
  Some (elem_at m ctx a) = word_get (word_at m (word_key ctx a)) (Z.to_nat (a mod 4)).
Proof.
  assert (Hi : (Z.to_nat (a mod 4) < 4)%nat) by dlia.
  unfold elem_at, read_element_impl, split_addr, word_at, word_key.
  destruct (memory m !! (ctx, a - a mod 4)) as [w|]; simpl.
  - destruct (word_get_is_Some w _ Hi) as [x ->]. done.
  - by rewrite word_nth_empty.
Qed.

Lemma word_at_insert ms k w mx k' :
  word_at (mkMemory (<[k := w]> ms) mx) k' =
    if decide (k' = k) then w else default EMPTY_WORD (ms !! k').
Proof.
  unfold word_at. simpl. destruct (decide (k' = k)) as [->|Hne].
  - by rewrite lookup_insert_eq.
  - by rewrite lookup_insert_ne.
Qed.

Lemma clean_addr_ok addr a : clean_addr addr = Ok a -> a = ⟦addr⟧ /\ is_u32 a.
Proof.
  unfold clean_addr, is_u32. pose proof (felt_range addr).
  destruct (Z.leb_spec ⟦addr⟧ U32_MAX); [|done]. intros [= <-]. lia.
Qed.

Lemma clean_addr_no_panic addr : clean_addr addr <> Panic.
Proof. unfold clean_addr. by destruct (_ <=? _). Qed.

Lemma enforce_aligned_ok ctx a b :
  enforce_word_aligned_addr ctx a = Ok b -> b = a /\ a mod 4 = 0.
Proof.
  unfold enforce_word_aligned_addr. destruct (Z.eqb_spec (a mod 4) 0); [|done].
  by intros [= <-].
Qed.

(** What a successful element write did, and nothing else. *)
Lemma write_element_inv m ctx addr x m' :
  write_element m ctx addr x = (Ok tt, m') ->
  is_u32 ⟦addr⟧ /\ would_exceed m (word_key ctx ⟦addr⟧) = false /\
  exists w', word_set (word_at m (word_key ctx ⟦addr⟧)) (Z.to_nat (⟦addr⟧ mod 4)) x = Some w' /\
    m' = mkMemory (<[word_key ctx ⟦addr⟧ := w']> (memory m)) (max_entries m).
Proof.
  unfold write_element. destruct (clean_addr addr) as [a| |] eqn:Ha; try done.
  apply clean_addr_ok in Ha as [-> Ha]. simpl.
  unfold word_key, word_at. destruct (would_exceed m _); [done|].
  destruct (word_set _ _ x) as [w'|] eqn:Hw; [|done].
  intros [= <-]. eauto.
Qed.

Lemma write_word_inv m ctx addr w m' :
  write_word m ctx addr w = (Ok tt, m') ->
  is_u32 ⟦addr⟧ /\ ⟦addr⟧ mod 4 = 0 /\ would_exceed m (ctx, ⟦addr⟧) = false /\
  m' = mkMemory (<[(ctx, ⟦addr⟧) := w]> (memory m)) (max_entries m).
Proof.
  unfold write_word. destruct (clean_addr addr) as [a| |] eqn:Ha; try done.
  apply clean_addr_ok in Ha as [-> Ha].
  destruct (enforce_word_aligned_addr _ _) as [b| |] eqn:Hb; try done.
  apply enforce_aligned_ok in Hb as [-> Hb].
  destruct (would_exceed m _) eqn:?; [done|]. intros [= <-]. auto.
Qed.

Lemma elem_at_write_element m ctx addr x m' :
  write_element m ctx addr x = (Ok tt, m') ->
  forall ctx' a, elem_at m' ctx' a =
    if decide (ctx' = ctx /\ a = ⟦addr⟧) then x else elem_at m ctx' a.
Proof.
  intros (Ha & _ & w' & Hw & ->)%write_element_inv ctx' a.
  apply (inj Some). rewrite elem_at_word, word_at_insert.
  destruct (decide (word_key ctx' a = word_key ctx ⟦addr⟧)) as [Hk|Hk].
  - rewrite (word_get_set _ _ _ _ Hw). injection Hk as -> Hk.
    destruct (decide _) as [Hi|Hi]; destruct (decide _) as [Hd|Hd]; try done.
    + exfalso. apply Hd. split; [done|]. dlia.
    + exfalso. apply Hi. destruct Hd as [_ ->]. done.
    + rewrite elem_at_word. unfold word_key at 2. rewrite Hk. done.
  - rewrite decide_False by (intros [-> ->]; done). rewrite elem_at_word. done.
Qed.

Lemma elem_at_write_word m ctx addr w m' :
  write_word m ctx addr w = (Ok tt, m') ->
  forall ctx' a, Some (elem_at m' ctx' a) =
    if decide (ctx' = ctx /\ ⟦addr⟧ <= a < ⟦addr⟧ + 4)
    then word_get w (Z.to_nat (a - ⟦addr⟧)) else Some (elem_at m ctx' a).
Proof.
  intros (Ha & Hal & _ & ->)%write_word_inv ctx' a.
  rewrite elem_at_word, word_at_insert. unfold word_key.
  destruct (decide ((ctx', a - a mod 4) = (ctx, ⟦addr⟧))) as [Hk|Hk].
  - injection Hk as -> Hk. rewrite decide_True by (split; [done|dlia]).
    do 2 f_equal. dlia.
  - rewrite decide_False; [by rewrite elem_at_word|].
    intros [-> Hr]. apply Hk. f_equal. dlia.
Qed.

Lemma read_element_elem_at m ctx addr :
  read_element m ctx addr =
    if decide (is_u32 ⟦addr⟧) then Ok (elem_at m ctx ⟦addr⟧)
    else Err (AddressOutOfBounds ⟦addr⟧).
Proof.
  unfold read_element, clean_addr, is_u32. pose proof (felt_range addr).
  destruct (Z.leb_spec ⟦addr⟧ U32_MAX).
  - rewrite decide_True by lia. done.
  - rewrite decide_False by lia. done.
Qed.

Lemma word_ext w1 w2 : (forall i, (i < 4)%nat -> word_get w1 i = word_get w2 i) -> w1 = w2.
Proof.
  intros Hw. pose proof (Hw 0%nat ltac:(lia)) as H0. pose proof (Hw 1%nat ltac:(lia)) as H1.
  pose proof (Hw 2%nat ltac:(lia)) as H2. pose proof (Hw 3%nat ltac:(lia)) as H3.
  destruct w1, w2. cbv in H0, H1, H2, H3. congruence.
Qed.

(** A word is the four elements from its address on. *)
Definition word_of_elems (m : Memory) (ctx : ContextId) (a : Z) : Word :=
  mkWord (elem_at m ctx a) (elem_at m ctx (a + 1)) (elem_at m ctx (a + 2)) (elem_at m ctx (a + 3)).

Lemma word_of_elems_at m ctx a : a mod 4 = 0 -> word_of_elems m ctx a = word_at m (ctx, a).
Proof.
  intros Ha. apply word_ext. intros i Hi.
  assert (E : forall j, 0 <= j < 4 ->
    Some (elem_at m ctx (a + j)) = word_get (word_at m (ctx, a)) (Z.to_nat j)).
  { intros j Hj. rewrite elem_at_word. unfold word_key. f_equal; [f_equal; f_equal; dlia|dlia]. }
  pose proof (E 0 ltac:(lia)) as E0. rewrite Z.add_0_r in E0.
  do 4 (destruct i as [|i];
    [first [exact E0 | exact (E 1 ltac:(lia)) | exact (E 2 ltac:(lia)) | exact (E 3 ltac:(lia))]|]).
  lia.
Qed.

Lemma read_word_elems m ctx addr :
  read_word m ctx addr =
    if decide (is_u32 ⟦addr⟧) then
      if decide (⟦addr⟧ mod 4 = 0) then Ok (word_of_elems m ctx ⟦addr⟧)
      else Err (UnalignedWordAccess ⟦addr⟧ ctx)
    else Err (AddressOutOfBounds ⟦addr⟧).
Proof.
  unfold read_word, read_word_impl, clean_addr, enforce_word_aligned_addr, is_u32.
  pose proof (felt_range addr). destruct (Z.leb_spec ⟦addr⟧ U32_MAX).
  - rewrite decide_True by lia. destruct (Z.eqb_spec (⟦addr⟧ mod 4) 0) as [E|E].
    + rewrite decide_True by done. rewrite word_of_elems_at by done. done.
    + by rewrite decide_False.
  - rewrite decide_False by lia. done.
Qed.

(** ** The limit on entries *)

Definition within_limit (m : Memory) : Prop := Z.of_nat (size (memory m)) <= max_entries m.

Lemma insert_within_limit m k w :
  within_limit m -> would_exceed m k = false ->
  within_limit (mkMemory (<[k := w]> (memory m)) (max_entries m)).
Proof.
  unfold within_limit, would_exceed. intros Hl He. simpl.
  destruct (memory m !! k) as [w0|] eqn:Hk.
  - rewrite map_size_insert, Hk. simpl. lia.
  - rewrite map_size_insert, Hk. simpl.
    rewrite bool_decide_true in He by done. apply Z.leb_gt in He. lia.
Qed.
