(* ===== verification/Merkle.v ===== *)
(** * Merkle paths, the Merkle store and the sponge

    crates/crypto/src/merkle: node indices (index.rs), openings (path.rs) and
    the store of inner nodes shared by many trees (store/mod.rs), with the
    two-to-one hash of crates/crypto/src/hash/algebraic_sponge/mod.rs.  The
    Poseidon2 permutation itself is Plonky3 code and stays a parameter.

    No theorem assumes that hashing is injective, which no compression function
    is: the conclusions hold unless two of the nodes at hand, of the store or of
    the paths, are a collision ([colliding]). *)

From S2P Require Import Prelude Felt Quad AceCircuit Machine.

(** ** The compression function *)

Class Poseidon2 := apply_permutation : HasherState -> HasherState.

(** ** The data of the store *)

Record StoreNode := mkStoreNode { sn_left : Word; sn_right : Word }.

Notation MerkleStore := (gmap Word StoreNode) (only parsing).

Section Merkle.
Context `{Poseidon2}.

Definition merge (l r : Word) : Word :=
  hs_rate0 (apply_permutation (mkHasherState l r EMPTY_WORD)).

(** ** Node indices *)

(** [64 - position.leading_zeros()]. *)
Definition bit_len (position : Z) : Z := if position =? 0 then 0 else Z.log2 position + 1.

Definition node_index_new (depth position : Z) : res MerkleError NodeIndex :=
  if 64 <? depth then Err (DepthTooBig depth)
  else if depth <? bit_len position then Err (InvalidNodeIndex depth position)
  else Ok (mkNodeIndex depth position).

Definition from_elements (depth position : Felt) : res MerkleError NodeIndex :=
  if 255 <? ⟦depth⟧ then Err (DepthTooBig ⟦depth⟧) else node_index_new ⟦depth⟧ ⟦position⟧.

Definition node_index_root : NodeIndex := mkNodeIndex 0 0.

Definition is_position_odd (i : NodeIndex) : bool := Z.land (ni_position i) 1 =? 1.

Definition is_nth_bit_odd (i : NodeIndex) (n : nat) : bool :=
  Z.land (Z.shiftr (ni_position i) (Z.of_nat n)) 1 =? 1.

Definition move_up (i : NodeIndex) : NodeIndex :=
  mkNodeIndex (Z.max 0 (ni_depth i - 1)) (Z.shiftr (ni_position i) 1).

Definition build_node (i : NodeIndex) (slf sibling : Word) : Word * Word :=
  if is_position_odd i then (sibling, slf) else (slf, sibling).

(** ** Merkle paths *)

(** [MerklePath::depth]: a path holds at most 255 nodes. *)
Definition path_depth (nodes : MerklePath) : option Z :=
  if Z.of_nat (length nodes) <=? 255 then Some (Z.of_nat (length nodes)) else None.

(** The step of [compute_root]'s fold; [move_up] advances the captured index. *)
Definition root_step (acc : NodeIndex * Word) (sibling : Word) : NodeIndex * Word :=
  let '(l, r) := build_node (fst acc) (snd acc) sibling in
  (move_up (fst acc), merge l r).

Definition compute_root (nodes : MerklePath) (index : Z) (node : Word) : res MerkleError Word :=
  match path_depth nodes with
  | None => Panic
  | Some depth =>
      match node_index_new depth index with
      | Ok i => Ok (snd (foldl root_step (i, node) nodes))
      | Err e => Err e
      | Panic => Panic
      end
  end.

Definition verify (nodes : MerklePath) (index : Z) (node root : Word) : res MerkleError unit :=
  match compute_root nodes index node with
  | Ok computed_root =>
      if decide (computed_root = root) then Ok tt else Err (ConflictingRoots root computed_root)
  | Err e => Err e
  | Panic => Panic
  end.

Record InnerNodeInfo := mkInnerNodeInfo { in_value : Word; in_left : Word; in_right : Word }.

(** Two nodes with different children and the same hash. *)
Definition colliding (n m : InnerNodeInfo) : Prop :=
  (in_left n, in_right n) <> (in_left m, in_right m) /\
  merge (in_left n) (in_right n) = merge (in_left m) (in_right m).

(** [InnerNodeIterator::next] run to exhaustion from an index of depth [d]. *)
Fixpoint inner_nodes (nodes : MerklePath) (d : nat) (position : Z) (value : Word) :
    option (list InnerNodeInfo) :=
  match d with
  | O => Some []
  | S d' =>
      sibling_pos ← checked_sub (length nodes) d;
      sibling ← nodes !! sibling_pos;
      let '(l, r) := build_node (mkNodeIndex (Z.of_nat d) position) value sibling in
      rest ← inner_nodes nodes d' (Z.shiftr position 1) (merge l r);
      Some (mkInnerNodeInfo (merge l r) l r :: rest)
  end.

Definition authenticated_nodes (nodes : MerklePath) (index : Z) (node_to_prove : Word) :
    res MerkleError (list InnerNodeInfo) :=
  match path_depth nodes with
  | None => Panic
  | Some depth =>
      match node_index_new depth index with
      | Ok i =>
          match inner_nodes nodes (Z.to_nat (ni_depth i)) (ni_position i) node_to_prove with
          | Some l => Ok l
          | None => Panic
          end
      | Err e => Err e
      | Panic => Panic
      end
  end.

(** ** The store *)

(** The entries every store starts with, from the table of roots of empty
    subtrees (root first). *)
Definition empty_hashes (subtrees : list Word) : list (Word * StoreNode) :=
  zip_with (fun child parent => (parent, mkStoreNode child child))
    (reverse subtrees) (drop 1 (reverse subtrees)).

Definition merkle_store_new (subtrees : list Word) : MerkleStore :=
  foldl (fun m e => <[fst e := snd e]> m) ∅ (empty_hashes subtrees).

Definition num_internal_nodes (s : MerkleStore) : Z := Z.of_nat (size s).

(** The loop [for i in (0..index.depth()).rev()] of [get_path]; the siblings
    are pushed from the root down. *)
Fixpoint walk (s : MerkleStore) (index : NodeIndex) (d : nat) (hash : Word) (path : list Word) :
    res MerkleError (Word * list Word) :=
  match d with
  | O => Ok (hash, path)
  | S i =>
      match s !! hash with
      | None => Err (NodeIndexNotFoundInStore hash index)
      | Some node =>
          if is_nth_bit_odd index i
          then walk s index i (sn_right node) (path ++ [sn_left node])
          else walk s index i (sn_left node) (path ++ [sn_right node])
      end
  end.

Record MerkleProof := mkMerkleProof { mp_value : Word; mp_path : MerklePath }.

Definition get_path (s : MerkleStore) (root : Word) (index : NodeIndex) :
    res MerkleError MerkleProof :=
  match s !! root with
  | None => Err (RootNotInStore root)
  | Some _ =>
      match walk s index (Z.to_nat (ni_depth index)) root [] with
      | Ok (hash, path) =>
          match path_depth path with
          | Some _ => Ok (mkMerkleProof hash (reverse path))
          | None => Panic
          end
      | Err e => Err e
      | Panic => Panic
      end
  end.

(** The loop of [get_node], which keeps no path. *)
Fixpoint descend (s : MerkleStore) (index : NodeIndex) (d : nat) (hash : Word) :
    res MerkleError Word :=
  match d with
  | O => Ok hash
  | S i =>
      match s !! hash with
      | None => Err (NodeIndexNotFoundInStore hash index)
      | Some node =>
          descend s index i (if is_nth_bit_odd index i then sn_right node else sn_left node)
      end
  end.

Definition get_node (s : MerkleStore) (root : Word) (index : NodeIndex) : res MerkleError Word :=
  match s !! root with
  | None => Err (RootNotInStore root)
  | Some _ => descend s index (Z.to_nat (ni_depth index)) root
  end.

Fixpoint has_path_from (s : MerkleStore) (index : NodeIndex) (d : nat) (hash : Word) : bool :=
  match d with
  | O => true
  | S i =>
      match s !! hash with
      | None => false
      | Some node =>
          has_path_from s index i (if is_nth_bit_odd index i then sn_right node else sn_left node)
      end
  end.

Definition has_path (s : MerkleStore) (root : Word) (index : NodeIndex) : bool :=
  match s !! root with
  | None => false
  | Some _ => has_path_from s index (Z.to_nat (ni_depth index)) root
  end.

(** Inserting the nodes an iterator yields, and the last value it yields. *)
Definition insert_node (s : MerkleStore) (n : InnerNodeInfo) : MerkleStore :=
  <[in_value n := mkStoreNode (in_left n) (in_right n)]> s.

Definition store_extend (s : MerkleStore) (nodes : list InnerNodeInfo) : MerkleStore :=
  foldl insert_node s nodes.

Definition add_merkle_path (s : MerkleStore) (index : Z) (node : Word) (path : MerklePath) :
    res MerkleError Word * MerkleStore :=
  match authenticated_nodes path index node with
  | Ok nodes => (Ok (foldl (fun _ n => in_value n) EMPTY_WORD nodes), store_extend s nodes)
  | Err e => (Err e, s)
  | Panic => (Panic, s)
  end.

Definition set_node (s : MerkleStore) (root : Word) (index : NodeIndex) (value : Word) :
    res MerkleError (Word * MerklePath) * MerkleStore :=
  match get_path s root index with
  | Ok proof =>
      if decide (value = mp_value proof) then (Ok (root, mp_path proof), s)
      else
        match add_merkle_path s (ni_position index) value (mp_path proof) with
        | (Ok root', s') => (Ok (root', mp_path proof), s')
        | (Err e, s') => (Err e, s')
        | (Panic, s') => (Panic, s')
        end
  | Err e => (Err e, s)
  | Panic => (Panic, s)
  end.

Definition merge_roots (s : MerkleStore) (left_root right_root : Word) : Word * MerkleStore :=
  let parent := merge left_root right_root in
  (parent, <[parent := mkStoreNode left_root right_root]> s).

End Merkle.

(** ** The sponge construction

    crates/crypto/src/hash/algebraic_sponge/mod.rs: hashing sequences of field
    elements with the permutation, and merging in a domain. *)

Definition RATE_WIDTH : nat := 8.

(** [state[i] = x] on a word and on the rate. *)
Definition word_put (w : Word) (i : nat) (x : Felt) : Word :=
  match i with
  | 0 => mkWord x (word_b w) (word_c w) (word_d w)
  | 1 => mkWord (word_a w) x (word_c w) (word_d w)
  | 2 => mkWord (word_a w) (word_b w) x (word_d w)
  | _ => mkWord (word_a w) (word_b w) (word_c w) x
  end%nat.

Definition rate_put (s : HasherState) (i : nat) (x : Felt) : HasherState :=
  if (i <? 4)%nat then mkHasherState (word_put (hs_rate0 s) i x) (hs_rate1 s) (hs_capacity s)
  else mkHasherState (hs_rate0 s) (word_put (hs_rate1 s) (i - 4) x) (hs_capacity s).

Section Sponge.
Context `{Poseidon2}.

(** The loop over the elements, with the position [i] in the rate. *)
Fixpoint absorb_elements (l : list Felt) (s : HasherState) (i : nat) : HasherState * nat :=
  match l with
  | [] => (s, i)
  | x :: l =>
      let s := rate_put s i x in
      if (S i =? RATE_WIDTH)%nat then absorb_elements l (apply_permutation s) 0
      else absorb_elements l s (S i)
  end.

(** [while i != RATE_WIDTH]: [n] positions are left. *)
Fixpoint pad_rate (n i : nat) (s : HasherState) : HasherState :=
  match n with O => s | S n => pad_rate n (S i) (rate_put s i ZERO) end.

Definition hash_elements_internal (l : list Felt) (s : HasherState) : Word :=
  let total_len := length l in
  let cap := hs_capacity s in
  let s := mkHasherState (hs_rate0 s) (hs_rate1 s)
             (word_put cap 0 (new_unchecked (Z.of_nat (total_len mod RATE_WIDTH)))) in
  let '(s, i) := absorb_elements l s 0 in
  let s :=
    if (0 <? i)%nat then apply_permutation (pad_rate (RATE_WIDTH - i) i s)
    else if (total_len =? 0)%nat && negb (bool_decide (word_b (hs_capacity s) = ZERO)) then
      apply_permutation (mkHasherState (hs_rate0 s) (hs_rate1 s) (word_put (hs_capacity s) 2 ONE))
    else s in
  hs_rate0 s.

Definition zero_state : HasherState := mkHasherState EMPTY_WORD EMPTY_WORD EMPTY_WORD.

Definition hash_elements (l : list Felt) : Word := hash_elements_internal l zero_state.

Definition hash_elements_in_domain (l : list Felt) (domain : Felt) : Word :=
  hash_elements_internal l
    (mkHasherState EMPTY_WORD EMPTY_WORD (word_put EMPTY_WORD 1 domain)).

Definition merge_in_domain (a b : Word) (domain : Felt) : Word :=
  hs_rate0 (apply_permutation (mkHasherState a b (word_put EMPTY_WORD 1 domain))).

(** ** Whole blocks *)

(** A rate block overwrites the rate. *)
Definition absorb_block (s : HasherState) (b : Word * Word) : HasherState :=
  apply_permutation (mkHasherState (fst b) (snd b) (hs_capacity s)).

Definition block_felts (b : Word * Word) : list Felt := into_elements (fst b) ++ into_elements (snd b).

Lemma absorb_elements_block b l s :
  absorb_elements (block_felts b ++ l) s 0 = absorb_elements l (absorb_block s b) 0.
Proof. by destruct b as [[] []]. Qed.

Lemma absorb_elements_blocks bs : forall s,
  absorb_elements (bs ≫= block_felts) s 0 = (foldl absorb_block s bs, 0%nat).
Proof.
  induction bs as [|b bs IH]; intros s; [done|].
  change ((b :: bs) ≫= block_felts) with (block_felts b ++ (bs ≫= block_felts)).
  rewrite absorb_elements_block. apply IH.
Qed.

Lemma blocks_length bs : length (bs ≫= block_felts) = (8 * length bs)%nat.
Proof.
  induction bs as [|b bs IH]; [done|].
  change ((b :: bs) ≫= block_felts) with (block_felts b ++ (bs ≫= block_felts)).
  rewrite length_app, IH. cbn. lia.
Qed.

(** Hashing whole blocks absorbs them in order from the zero state. *)
Lemma hash_elements_blocks bs :
  hash_elements (bs ≫= block_felts) = hs_rate0 (foldl absorb_block zero_state bs).
Proof.
  unfold hash_elements, hash_elements_internal. rewrite absorb_elements_blocks, blocks_length.
  replace ((8 * length bs) mod RATE_WIDTH)%nat with 0%nat
    by (unfold RATE_WIDTH; rewrite Nat.mul_comm, Nat.Div0.mod_mul; done).
  cbn [hs_rate0 hs_rate1 hs_capacity zero_state Nat.ltb Nat.leb].
  change (word_put EMPTY_WORD 0 (new_unchecked (Z.of_nat 0))) with EMPTY_WORD. fold zero_state.
  destruct bs as [|b bs]; [done|]. done.
Qed.

End Sponge.
