(* ===== verification/Forest.v ===== *)
(** * Building, finalizing and validating MAST forests

    core/src/mast: the node builders (node/*.rs), the forest builder
    (dense_builder.rs), the canonical node order (dense_order.rs) and the
    validators of [MastForest] (mod.rs).

    An index out of range and a failing [expect] is [Panic].  Node ids are
    natural numbers: a forest has at most [MAX_NODES] nodes, far below 2^32.  The
    commitments cached in a forest are not modelled. *)

From S2P Require Import Prelude Felt AdviceMap Serde Operations OpBatch Mast BatchValid Machine.
From S2P Require Import Merkle.

(** ** Errors *)

Inductive OrderReason := ClassOrder | ExternalDigests | Cycle.

Inductive MastForestError :=
| TooManyNodes
| NodeIdOverflow (node_id : MastNodeId) (len : nat)
| EmptyBasicBlock
| DigestRequiredForDeserialization
| InvalidBatchPadding (node_id : MastNodeId) (e : BatchError)
| InvalidNodeOrder (node_id : MastNodeId) (reason : OrderReason)
| ForwardReference (node_id child_id : MastNodeId)
| HashMismatch (node_id : MastNodeId) (expected computed : Word)
| Deserialization (e : DeserializationError).

Definition MAX_NODES : Z := 2 ^ 30 - 1.

(** ** Node classes *)

Inductive MastNodeOrderClass := External | BasicBlock | Internal.

#[export] Instance order_class_eq_dec : EqDecision MastNodeOrderClass.
Proof. solve_decision. Defined.

(** The derived order. *)
Definition class_rank (c : MastNodeOrderClass) : nat :=
  match c with External => 0 | BasicBlock => 1 | Internal => 2 end.

Definition order_class (n : MastNode) : MastNodeOrderClass :=
  match n with NExternal _ => External | NBlock _ => BasicBlock | _ => Internal end.

(** ** Validation of parts *)

Definition validate_mast_forest_parts_bounds (nodes : list MastNode) (roots : list MastNodeId) :
    res MastForestError unit :=
  if MAX_NODES <? Z.of_nat (length nodes) then Err TooManyNodes
  else
    let node_count := length nodes in
    rfor roots (fun root_id =>
      if (node_count <=? root_id)%nat then Err (NodeIdOverflow root_id node_count) else Ok tt).

(** The last child that [bad] holds of. *)
Definition last_child (bad : MastNodeId -> bool) (n : MastNode) : option MastNodeId :=
  foldl (fun acc child_id => if bad child_id then Some child_id else acc) None (children n).

(** The external digests are strictly increasing. *)
Definition check_external (node_id : MastNodeId) (previous : option Word) (d : Word) :
    res MastForestError (option Word) :=
  match previous with
  | Some previous_digest =>
      if word_ltb previous_digest d then Ok (Some d) else Err (InvalidNodeOrder node_id ExternalDigests)
  | None => Ok (Some d)
  end.

Definition dense_order_step (st : MastNodeOrderClass * option Word) (entry : nat * MastNode) :
    res MastForestError (MastNodeOrderClass * option Word) :=
  let '(previous_class, previous_external_digest) := st in
  let '(node_id, node) := entry in
  let node_class := order_class node in
  if (class_rank node_class <? class_rank previous_class)%nat
  then Err (InvalidNodeOrder node_id ClassOrder)
  else
    let? previous_external_digest :=
      (if is_external node then check_external node_id previous_external_digest (digest node)
       else Ok previous_external_digest) in
    match last_child (fun child_id => node_id <=? child_id)%nat node with
    | Some child_id => Err (ForwardReference node_id child_id)
    | None => Ok (node_class, previous_external_digest)
    end.

Definition validate_dense_node_order (nodes : list MastNode) : res MastForestError unit :=
  let? _ := rfold dense_order_step (External, None) (enumerate nodes) in Ok tt.

(** ** The canonical order *)

Definition ids_of_class (c : MastNodeOrderClass) (nodes : list MastNode) : list MastNodeId :=
  fst <$> filter (fun p => order_class p.2 = c) (enumerate nodes).

(** [nodes[id].digest()], on ids of [nodes]. *)
Definition digest_of (nodes : list MastNode) (id : MastNodeId) : Word :=
  from_option digest EMPTY_WORD (nodes !! id).

(** The comparison of [sort_by]: by digest, then by id. *)
Definition external_le (nodes : list MastNode) (left_id right_id : MastNodeId) : Prop :=
  Is_true (match word_cmp (digest_of nodes left_id) (digest_of nodes right_id) with
           | Lt => true
           | Eq => (left_id <=? right_id)%nat
           | Gt => false
           end).

#[export] Instance external_le_dec nodes : RelDecision (external_le nodes).
Proof. intros x y. unfold external_le. apply _. Defined.

(** [BTreeSet<MastNodeId>] as its increasing list of elements. *)
Fixpoint bt_insert (x : nat) (l : list nat) : list nat :=
  match l with
  | [] => [x]
  | y :: l' => if (x <? y)%nat then x :: l else if (x =? y)%nat then l else y :: bt_insert x l'
  end.

Definition check_external_ids (nodes : list MastNode) (external_ids : list MastNodeId) :
    res MastForestError (option Word) :=
  rfold (fun previous node_id => check_external node_id previous (digest_of nodes node_id)) None external_ids.

(** Counting the children of an internal node that are not ordered yet. *)
Definition count_child (node_count : nat) (ordered : list bool) (node_id : MastNodeId)
    (st : list nat * list (list MastNodeId)) (child_id : MastNodeId) :
    res MastForestError (list nat * list (list MastNodeId)) :=
  let '(unresolved_child_counts, parents_by_child) := st in
  if (child_id <? node_count)%nat then
    let? is_ordered := rexpect (ordered !! child_id) in
    if is_ordered : bool then Ok st
    else
      let? count := rexpect (unresolved_child_counts !! node_id) in
      let? counts := rexpect (update node_id (count + 1)%nat unresolved_child_counts) in
      let? parents := rexpect (parents_by_child !! child_id) in
      let? parents_by_child := rexpect (update child_id (parents ++ [node_id]) parents_by_child) in
      Ok (counts, parents_by_child)
  else Ok st.

Record OrderState := mkOrderState {
  os_ready : list MastNodeId;
  os_ordered : list bool;
  os_ordered_ids : list MastNodeId;
  os_ordered_internal_count : nat;
  os_parents : list (list MastNodeId);
  os_counts : list nat
}.

(** One parent of an emitted node has one child less to wait for. *)
Definition release_parent (st : list nat * list MastNodeId) (parent_id : MastNodeId) :
    res MastForestError (list nat * list MastNodeId) :=
  let '(counts, ready) := st in
  let? count := rexpect (counts !! parent_id) in
  let? count := rexpect (checked_sub count 1) in
  let? counts := rexpect (update parent_id count counts) in
  Ok (counts, if (count =? 0)%nat then bt_insert parent_id ready else ready).

(** The body of the [while let], for the popped [node_id]. *)
Definition emit_internal (st : OrderState) (node_id : MastNodeId) (ready : list MastNodeId) :
    res MastForestError OrderState :=
  let? ordered := rexpect (update node_id true (os_ordered st)) in
  let? parents := rexpect (os_parents st !! node_id) in
  let? parents_by_child := rexpect (update node_id [] (os_parents st)) in
  let? (counts, ready) := rfold release_parent (os_counts st, ready) parents in
  Ok (mkOrderState ready ordered (os_ordered_ids st ++ [node_id])
        (os_ordered_internal_count st + 1) parents_by_child counts).

(** [fuel] bounds the number of nodes the loop can pop. *)
Fixpoint order_loop (fuel : nat) (st : OrderState) : res MastForestError OrderState :=
  match os_ready st with
  | [] => Ok st
  | node_id :: ready =>
      match fuel with
      | O => Panic
      | S fuel => let? st := emit_internal st node_id ready in order_loop fuel st
      end
  end.

Definition final_dense_node_order (nodes : list MastNode) : res MastForestError (list MastNodeId) :=
  let node_count := length nodes in
  let external_ids := merge_sort (external_le nodes) (ids_of_class External nodes) in
  let basic_block_ids := ids_of_class BasicBlock nodes in
  let internal_ids := ids_of_class Internal nodes in
  let? _ := check_external_ids nodes external_ids in
  let ordered_ids := external_ids ++ basic_block_ids in
  let? ordered := rfold (fun ordered node_id => rexpect (update node_id true ordered))
                    (replicate node_count false) ordered_ids in
  let? (unresolved_child_counts, parents_by_child) :=
    rfold (fun st node_id =>
        let? node := rexpect (nodes !! node_id) in
        rfold (count_child node_count ordered node_id) st (children node))
      (replicate node_count 0%nat, replicate node_count []) internal_ids in
  do? rfor internal_ids (fun node_id =>
        let? node := rexpect (nodes !! node_id) in
        match last_child (fun child_id => node_count <=? child_id)%nat node with
        | Some child_id => Err (NodeIdOverflow child_id node_count)
        | None => Ok tt
        end);
  let? ready := rfold (fun ready node_id =>
        let? count := rexpect (unresolved_child_counts !! node_id) in
        Ok (if (count =? 0)%nat then bt_insert node_id ready else ready)) [] internal_ids in
  let? st := order_loop (length internal_ids)
               (mkOrderState ready ordered ordered_ids 0 parents_by_child unresolved_child_counts) in
  if negb (os_ordered_internal_count st =? length internal_ids)%nat then
    let? node_id := rexpect (snd <$> list_find
        (fun node_id => Is_true (negb (default true (os_ordered st !! node_id)))) internal_ids) in
    Err (InvalidNodeOrder node_id Cycle)
  else Ok (os_ordered_ids st).

(** ** Node builders *)

Inductive OperationData :=
| Raw (operations : list Operation)
| Batched (op_batches : list OpBatch).

Inductive MastNodeBuilder :=
| BBasicBlock (operation_data : OperationData) (digest : option Word)
| BCall (callee : MastNodeId) (is_syscall : bool) (digest : option Word)
| BDyn (is_dyncall : bool) (digest : option Word)
| BExternal (digest : Word)
| BJoin (first second : MastNodeId) (digest : option Word)
| BLoop (body : MastNodeId) (digest : option Word)
| BSplit (on_true on_false : MastNodeId) (digest : option Word).

Definition DYNCALL_DEFAULT_DIGEST : Word :=
  mkWord (new_unchecked 16830415514927835337) (new_unchecked 12164645914672292987)
    (new_unchecked 13192574193032437705) (new_unchecked 4604554596675732269).
Definition DYN_DEFAULT_DIGEST : Word :=
  mkWord (new_unchecked 16952228088962355159) (new_unchecked 5793482471479538911)
    (new_unchecked 14446299416172848527) (new_unchecked 13522295374716441620).

Section Hashing.
Context `{Poseidon2}.

Definition hash_batches (op_batches : list OpBatch) : Word := hash_elements (op_batches ≫= ob_groups).

Definition domain (opcode : Z) : Felt := new_unchecked opcode.

Definition hash_join (left right : Word) : Word := merge_in_domain left right (domain opcodes.JOIN).
Definition hash_split (on_true on_false : Word) : Word := merge_in_domain on_true on_false (domain opcodes.SPLIT).
Definition hash_loop (body : Word) : Word := merge_in_domain body EMPTY_WORD (domain opcodes.LOOP).
Definition hash_call (is_syscall : bool) (callee : Word) : Word :=
  merge_in_domain callee EMPTY_WORD (domain (if is_syscall then opcodes.SYSCALL else opcodes.CALL)).
Definition hash_dyn (is_dyncall : bool) : Word :=
  if is_dyncall then DYNCALL_DEFAULT_DIGEST else DYN_DEFAULT_DIGEST.

Definition batch_and_hash_ops (ops : list Operation) : option (list OpBatch * Word) :=
  batches ← batch_ops ops; Some (batches, hash_batches batches).

Definition build_basic_block (data : OperationData) (forced : option Word) :
    res MastForestError BasicBlockNode :=
  match data with
  | Raw [] => Err EmptyBasicBlock
  | Raw operations =>
      let? (op_batches, computed_digest) := rexpect (batch_and_hash_ops operations) in
      Ok (mkBasicBlockNode op_batches (default computed_digest forced))
  | Batched [] => Err EmptyBasicBlock
  | Batched op_batches =>
      let? d := rexpect forced in
      Ok (mkBasicBlockNode op_batches d)
  end.

(** [context.get_node_by_id(id)], or the error of the builders. *)
Definition child_node (context : list MastNode) (id : MastNodeId) : res MastForestError MastNode :=
  get_or (context !! id) (NodeIdOverflow id (length context)).

Definition builder_build (context : list MastNode) (b : MastNodeBuilder) : res MastForestError MastNode :=
  match b with
  | BBasicBlock data forced => let? n := build_basic_block data forced in Ok (NBlock n)
  | BCall callee is_syscall forced =>
      let? n := child_node context callee in
      Ok (NCall (mkCallNode callee is_syscall (default (hash_call is_syscall (digest n)) forced)))
  | BDyn is_dyncall forced => Ok (NDyn (mkDynNode is_dyncall (default (hash_dyn is_dyncall) forced)))
  | BExternal d => Ok (NExternal (mkExternalNode d))
  | BJoin first second forced =>
      let? l := child_node context first in
      let? r := child_node context second in
      Ok (NJoin (mkJoinNode first second (default (hash_join (digest l) (digest r)) forced)))
  | BLoop body forced =>
      let? n := child_node context body in
      Ok (NLoop (mkLoopNode body (default (hash_loop (digest n)) forced)))
  | BSplit on_true on_false forced =>
      let? t := child_node context on_true in
      let? f := child_node context on_false in
      Ok (NSplit (mkSplitNode on_true on_false (default (hash_split (digest t) (digest f)) forced)))
  end.

Definition build_linked (b : MastNodeBuilder) : res MastForestError MastNode :=
  match b with
  | BBasicBlock data forced => let? n := build_basic_block data forced in Ok (NBlock n)
  | BCall callee is_syscall forced =>
      let? d := get_or forced DigestRequiredForDeserialization in Ok (NCall (mkCallNode callee is_syscall d))
  | BDyn is_dyncall forced => Ok (NDyn (mkDynNode is_dyncall (default (hash_dyn is_dyncall) forced)))
  | BExternal d => Ok (NExternal (mkExternalNode d))
  | BJoin first second forced =>
      let? d := get_or forced DigestRequiredForDeserialization in Ok (NJoin (mkJoinNode first second d))
  | BLoop body forced =>
      let? d := get_or forced DigestRequiredForDeserialization in Ok (NLoop (mkLoopNode body d))
  | BSplit on_true on_false forced =>
      let? d := get_or forced DigestRequiredForDeserialization in Ok (NSplit (mkSplitNode on_true on_false d))
  end.

Definition to_builder (n : MastNode) : MastNodeBuilder :=
  match n with
  | NBlock n => BBasicBlock (Batched (op_batches n)) (Some (bb_digest n))
  | NJoin n => BJoin (first n) (second n) (Some (join_digest n))
  | NSplit n => BSplit (on_true n) (on_false n) (Some (split_digest n))
  | NLoop n => BLoop (body n) (Some (loop_digest n))
  | NCall n => BCall (callee n) (is_syscall n) (Some (call_digest n))
  | NDyn n => BDyn (is_dyncall n) (Some (dyn_digest n))
  | NExternal n => BExternal (external_digest n)
  end.

(** A [DenseIdMap]: the new id of each old id, where there is one. *)
Notation DenseIdMap := (list (option MastNodeId)) (only parsing).
Definition id_map_get (m : DenseIdMap) (id : MastNodeId) : option MastNodeId := mjoin (m !! id).
Definition remap_id (m : DenseIdMap) (id : MastNodeId) : MastNodeId := default id (id_map_get m id).

Definition remap_children (m : DenseIdMap) (b : MastNodeBuilder) : MastNodeBuilder :=
  match b with
  | BCall callee is_syscall d => BCall (remap_id m callee) is_syscall d
  | BJoin first second d => BJoin (remap_id m first) (remap_id m second) d
  | BLoop body d => BLoop (remap_id m body) d
  | BSplit on_true on_false d => BSplit (remap_id m on_true) (remap_id m on_false) d
  | BBasicBlock _ _ | BDyn _ _ | BExternal _ => b
  end.

(** ** Canonicalization *)

Definition canonicalize_parts (nodes : list MastNode) (roots : list MastNodeId) :
    res MastForestError (list MastNode * list MastNodeId * DenseIdMap) :=
  let node_count := length nodes in
  let? ordered_ids := final_dense_node_order nodes in
  let? remapping := rfold (fun m '(new_index, old_id) => rexpect (update old_id (Some new_index) m))
                      (replicate node_count None) (enumerate ordered_ids) in
  if forallb (fun '(index, old_id) => old_id =? index)%nat (enumerate ordered_ids)
  then Ok (nodes, roots, remapping)
  else
    let? new_nodes := rfold (fun acc old_id =>
        let? node := rexpect (nodes !! old_id) in
        let? remapped_node := build_linked (remap_children remapping (to_builder node)) in
        Ok (acc ++ [remapped_node])) [] ordered_ids in
    let? new_roots := rfold (fun acc root_id =>
        let? id := get_or (id_map_get remapping root_id) (NodeIdOverflow root_id node_count) in
        Ok (acc ++ [id])) [] roots in
    Ok (new_nodes, new_roots, remapping).

(** ** Validation of a forest *)

Definition check_no_forward_ref (node_id child_id : MastNodeId) : res MastForestError unit :=
  if (node_id <=? child_id)%nat then Err (ForwardReference node_id child_id) else Ok tt.

Definition compute_node_hash (computed_hashes : list Word) (node_id : MastNodeId) (node : MastNode) :
    res MastForestError Word :=
  match node with
  | NBlock n => Ok (hash_batches (op_batches n))
  | NJoin n =>
      do? check_no_forward_ref node_id (first n);
      do? check_no_forward_ref node_id (second n);
      let? left_digest := rexpect (computed_hashes !! first n) in
      let? right_digest := rexpect (computed_hashes !! second n) in
      Ok (hash_join left_digest right_digest)
  | NSplit n =>
      do? check_no_forward_ref node_id (on_true n);
      do? check_no_forward_ref node_id (on_false n);
      let? true_digest := rexpect (computed_hashes !! on_true n) in
      let? false_digest := rexpect (computed_hashes !! on_false n) in
      Ok (hash_split true_digest false_digest)
  | NLoop n =>
      do? check_no_forward_ref node_id (body n);
      let? body_digest := rexpect (computed_hashes !! body n) in
      Ok (hash_loop body_digest)
  | NCall n =>
      do? check_no_forward_ref node_id (callee n);
      let? callee_digest := rexpect (computed_hashes !! callee n) in
      Ok (hash_call (is_syscall n) callee_digest)
  | NDyn n => Ok (hash_dyn (is_dyncall n))
  | NExternal n => Ok (external_digest n)
  end.

Definition compute_node_hashes (nodes : list MastNode) : res MastForestError (list Word) :=
  rfold (fun computed_hashes '(node_idx, node) =>
      let? computed_digest := compute_node_hash computed_hashes node_idx node in
      Ok (computed_hashes ++ [computed_digest])) [] (enumerate nodes).

Definition validate_node_hashes (f : MastForest) : res MastForestError unit :=
  let? computed_hashes := compute_node_hashes (nodes f) in
  rfor (enumerate (zip (nodes f) computed_hashes)) (fun '(node_idx, (node, computed_digest)) =>
    if bool_decide (digest node = computed_digest) then Ok tt
    else Err (HashMismatch node_idx (digest node) computed_digest)).

Definition validate_basic_block_invariants (f : MastForest) : res MastForestError unit :=
  rfor (enumerate (nodes f)) (fun '(node_id, node) =>
    match node with
    | NBlock b => map_err (InvalidBatchPadding node_id) (validate_batch_invariants (op_batches b))
    | _ => Ok tt
    end).

(** [MastForest::validate]. *)
Definition forest_validate (f : MastForest) : res MastForestError unit := validate_basic_block_invariants f.

Definition from_parts_with_id_map (nodes : list MastNode) (roots : list MastNodeId)
    (advice_map : gmap Word (list Felt)) : res MastForestError (MastForest * DenseIdMap) :=
  do? validate_mast_forest_parts_bounds nodes roots;
  let? (new_nodes, new_roots, id_remapping) := canonicalize_parts nodes roots in
  let forest := mkMastForest new_nodes new_roots advice_map in
  do? validate_dense_node_order new_nodes;
  do? forest_validate forest;
  do? validate_node_hashes forest;
  Ok (forest, id_remapping).

Definition from_trusted_deserialization_parts (nodes : list MastNode) (roots : list MastNodeId)
    (advice_map : gmap Word (list Felt)) : res MastForestError MastForest :=
  do? validate_mast_forest_parts_bounds nodes roots;
  do? validate_dense_node_order nodes;
  Ok (mkMastForest nodes roots advice_map).

(** ** The forest builder *)

Record DenseMastForestBuilder := mkDenseMastForestBuilder {
  db_nodes : list MastNode;
  db_roots : list MastNodeId;
  db_advice_map : gmap Word (list Felt)
}.

Definition builder_new : DenseMastForestBuilder := mkDenseMastForestBuilder [] [] ∅.

Definition push_node (s : DenseMastForestBuilder) (b : MastNodeBuilder) :
    res MastForestError (MastNodeId * DenseMastForestBuilder) :=
  let? node := builder_build (db_nodes s) b in
  if U32_MAX <=? Z.of_nat (length (db_nodes s)) then Err TooManyNodes
  else Ok (length (db_nodes s),
           mkDenseMastForestBuilder (db_nodes s ++ [node]) (db_roots s) (db_advice_map s)).

Definition mark_root (s : DenseMastForestBuilder) (root : MastNodeId) : option DenseMastForestBuilder :=
  if (root <? length (db_nodes s))%nat then
    Some (if bool_decide (root ∈ db_roots s) then s
          else mkDenseMastForestBuilder (db_nodes s) (db_roots s ++ [root]) (db_advice_map s))
  else None.

Definition build_with_id_map (s : DenseMastForestBuilder) : res MastForestError (MastForest * DenseIdMap) :=
  from_parts_with_id_map (db_nodes s) (db_roots s) (db_advice_map s).

End Hashing.
