(* ===== verification/ForestTheory.v ===== *)
(** * What the forest validators accept

    The order of words is a strict total order; [validate_dense_node_order] and
    [validate_node_hashes] decide their specifications and never panic. *)

From S2P Require Import Prelude Felt AdviceMap Serde Operations OpBatch Mast BatchValid Machine.
From S2P Require Import Merkle Forest.

(** ** Loops that collect *)

Lemma rfold_push {E A B} (f : A -> res E B) (F : list B -> A -> res E (list B)) l acc :
  (forall acc a, F acc a = rbind (f a) (fun b => Ok (acc ++ [b]))) ->
  match rfold F acc l with
  | Ok r => exists bs, r = acc ++ bs /\ Forall2 (fun a b => f a = Ok b) l bs
  | Err e => exists a, a ∈ l /\ f a = Err e
  | Panic => exists a, a ∈ l /\ f a = Panic
  end.
Proof.
  intros HF. revert acc. induction l as [|a l IH]; intros acc; cbn [rfold].
  { exists []. by rewrite app_nil_r. }
  rewrite HF. destruct (f a) as [b|e|] eqn:Hf; cbn [rbind].
  - specialize (IH (acc ++ [b])). destruct (rfold F _ l) as [r|e|].
    + destruct IH as (bs & -> & Hbs). exists (b :: bs). rewrite <- app_assoc. split; [done|]. by constructor.
    + destruct IH as (x & Hx & He). exists x. split; [by apply list_elem_of_further|done].
    + destruct IH as (x & Hx & He). exists x. split; [by apply list_elem_of_further|done].
  - exists a. split; [apply list_elem_of_here|done].
  - exists a. split; [apply list_elem_of_here|done].
Qed.

(** ** The order of words *)

Definition word_lt (a b : Word) : Prop :=
  ⟦word_d a⟧ < ⟦word_d b⟧ \/ ⟦word_d a⟧ = ⟦word_d b⟧ /\
  (⟦word_c a⟧ < ⟦word_c b⟧ \/ ⟦word_c a⟧ = ⟦word_c b⟧ /\
   (⟦word_b a⟧ < ⟦word_b b⟧ \/ ⟦word_b a⟧ = ⟦word_b b⟧ /\ ⟦word_a a⟧ < ⟦word_a b⟧)).

Lemma word_eq_values a b : ⟦word_a a⟧ = ⟦word_a b⟧ -> ⟦word_b a⟧ = ⟦word_b b⟧ -> ⟦word_c a⟧ = ⟦word_c b⟧ ->
  ⟦word_d a⟧ = ⟦word_d b⟧ -> a = b.
Proof. destruct a, b. cbn. intros. f_equal; by apply felt_eq. Qed.

Lemma word_cmp_spec a b : CompareSpec (a = b) (word_lt a b) (word_lt b a) (word_cmp a b).
Proof.
  unfold word_cmp, word_lt. destruct a as [a0 a1 a2 a3], b as [b0 b1 b2 b3]. cbn.
  destruct (Z.compare_spec ⟦a3⟧ ⟦b3⟧); [|constructor; lia|constructor; lia].
  destruct (Z.compare_spec ⟦a2⟧ ⟦b2⟧); [|constructor; lia|constructor; lia].
  destruct (Z.compare_spec ⟦a1⟧ ⟦b1⟧); [|constructor; lia|constructor; lia].
  destruct (Z.compare_spec ⟦a0⟧ ⟦b0⟧); [|constructor; lia|constructor; lia].
  constructor. by apply word_eq_values.
Qed.

Lemma word_ltb_spec a b : word_ltb a b = true <-> word_lt a b.
Proof.
  unfold word_ltb. destruct (word_cmp_spec a b) as [->|Hlt|Hlt]; (split; [try done|]); unfold word_lt in *; try done; lia.
Qed.

Lemma word_lt_trans a b c : word_lt a b -> word_lt b c -> word_lt a c.
Proof. unfold word_lt. lia. Qed.

Lemma word_lt_irrefl a : ~ word_lt a a.
Proof. unfold word_lt. lia. Qed.

Lemma word_lt_total a b : word_lt a b \/ a = b \/ word_lt b a.
Proof. destruct (word_cmp_spec a b); auto. Qed.

(** ** The dense order *)

(** Children come before their parents. *)
Definition backward (ns : list MastNode) : Prop :=
  forall i n c, ns !! i = Some n -> c ∈ children n -> (c < i)%nat.
Definition classes_sorted (ns : list MastNode) : Prop :=
  forall i j n m, ns !! i = Some n -> ns !! j = Some m -> (i < j)%nat ->
    (class_rank (order_class n) <= class_rank (order_class m))%nat.
Definition externals_increasing (ns : list MastNode) : Prop :=
  forall i j n m, ns !! i = Some n -> ns !! j = Some m -> (i < j)%nat ->
    is_external n = true -> is_external m = true -> word_lt (digest n) (digest m).

Record dense (ns : list MastNode) : Prop := {
  dense_backward : backward ns;
  dense_classes : classes_sorted ns;
  dense_externals : externals_increasing ns
}.

Definition last_external (ns : list MastNode) : option Word :=
  last (digest <$> filter (fun n => is_external n = true) ns).

Lemma last_child_None bad n : last_child bad n = None <-> forall c, c ∈ children n -> bad c = false.
Proof.
  unfold last_child. assert (H : forall l acc, foldl (fun acc c => if bad c then Some c else acc) acc l = None <->
    acc = None /\ forall c : MastNodeId, c ∈ l -> bad c = false).
  { induction l as [|x l IH]; intros acc; cbn [foldl].
    { split; [|by intros [? _]]. intros ->. split; [done|]. intros c Hc. by apply elem_of_nil in Hc. }
    rewrite IH. split.
    - intros [Ha Hl]. destruct (bad x) eqn:Hx; [done|]. split; [done|].
      intros c [->|Hc]%elem_of_cons; [done|by apply Hl].
    - intros [-> Hl]. rewrite (Hl x) by apply list_elem_of_here. split; [done|].
      intros c Hc. by apply Hl, list_elem_of_further. }
  rewrite H. split; [by intros [_ ?]|done].
Qed.

Lemma lookup_snoc {A} (l : list A) x i y : (l ++ [x]) !! i = Some y <->
  l !! i = Some y \/ i = length l /\ x = y.
Proof.
  rewrite lookup_app_Some. split.
  - intros [H|[Hi H]]; [by left|]. right. destruct (i - length l)%nat as [|k] eqn:E; [|done]. cbn in H.
    simplify_eq. split; [lia|done].
  - intros [H|[-> ->]]; [by left|]. right. split; [lia|]. by rewrite Nat.sub_diag.
Qed.

Lemma lookup_last_external ns d : last_external ns = Some d ->
  exists i n, ns !! i = Some n /\ is_external n = true /\ digest n = d /\
    forall j m, ns !! j = Some m -> is_external m = true -> (j <= i)%nat.
Proof.
  unfold last_external. revert d. induction ns as [|x ns IH] using rev_ind; [done|]. intros d.
  rewrite filter_app, fmap_app. cbn [filter list_filter]. destruct (decide (is_external x = true)) as [Hx|Hx].
  - cbn [fmap list_fmap]. rewrite last_snoc. intros [= <-]. exists (length ns), x.
    split; [apply lookup_snoc; by right|]. split; [done|]. split; [done|].
    intros j m Hj%lookup_lt_Some _. rewrite length_app in Hj. cbn in Hj. lia.
  - cbn [fmap list_fmap]. rewrite app_nil_r. intros Hd. destruct (IH d Hd) as (i & n & Hi & Hn & Hdn & Hall).
    exists i, n. split; [apply lookup_snoc; by left|]. split; [done|]. split; [done|].
    intros j m [Hj|[-> ->]]%lookup_snoc Hm; [by eapply Hall|done].
Qed.

Lemma last_external_None ns i n : last_external ns = None -> ns !! i = Some n -> is_external n = false.
Proof.
  unfold last_external. intros Hl Hi. apply last_None in Hl. destruct (is_external n) eqn:E; [|done].
  apply fmap_nil_inv in Hl. assert (n ∈ filter (fun n => is_external n = true) ns) as Hn.
  { apply list_elem_of_filter. split; [done|]. by eapply list_elem_of_lookup_2. }
  rewrite Hl in Hn. by apply elem_of_nil in Hn.
Qed.

Definition extends_dense (ns : list MastNode) (x : MastNode) : Prop :=
  (forall c, c ∈ children x -> (c < length ns)%nat) /\
  (class_rank (order_class x) >= class_rank (from_option order_class External (last ns)))%nat /\
  (is_external x = true -> from_option (fun d => word_lt d (digest x)) True (last_external ns)).

Lemma last_lookup_max {A} (l : list A) i x : l !! i = Some x -> exists y, last l = Some y /\ l !! (length l - 1)%nat = Some y.
Proof.
  intros Hi%lookup_lt_Some. rewrite last_lookup. destruct (lookup_lt_is_Some_2 l (pred (length l))) as [y Hy]; [lia|].
  exists y. split; [done|]. by replace (length l - 1)%nat with (pred (length l)) by lia.
Qed.

Lemma dense_snoc ns x : dense (ns ++ [x]) <-> dense ns /\ extends_dense ns x.
Proof.
  split.
  - intros [Hb Hc He]. split; [split|split; [|split]].
    + intros i n c Hi. apply Hb. apply lookup_snoc. by left.
    + intros i j n m Hi Hj. apply Hc; apply lookup_snoc; by left.
    + intros i j n m Hi Hj. apply He; apply lookup_snoc; by left.
    + intros c. apply Hb. apply lookup_snoc. by right.
    + destruct (last ns) as [y|] eqn:Hl; cbn; [|lia]. rewrite last_lookup in Hl.
      assert (Hlt := lookup_lt_Some _ _ _ Hl).
      apply (Hc (pred (length ns)) (length ns)); [apply lookup_snoc; by left|apply lookup_snoc; by right|lia].
    + intros Hx. destruct (last_external ns) as [d|] eqn:Hl; [|done].
      apply lookup_last_external in Hl as (i & n & Hi & Hn & <- & _). cbn.
      apply (He i (length ns)); [apply lookup_snoc; by left|apply lookup_snoc; by right| |done|done].
      by apply lookup_lt_Some in Hi.
  - intros [[Hb Hc He] (Hxb & Hxc & Hxe)]. split.
    + intros i n c [Hi|[-> ->]]%lookup_snoc; [by apply Hb|apply Hxb].
    + intros i j n m [Hi|[-> ->]]%lookup_snoc [Hj|[-> ->]]%lookup_snoc Hij; [by eapply Hc| |apply lookup_lt_Some in Hj; lia|lia].
      destruct (last_lookup_max _ _ _ Hi) as (y & Hy & Hyl). rewrite Hy in Hxc. cbn in Hxc.
      destruct (decide (i = (length ns - 1)%nat)) as [->|]; [simplify_eq; lia|].
      pose proof (Hc i (length ns - 1)%nat n y Hi Hyl). lia.
    + intros i j n m [Hi|[-> ->]]%lookup_snoc [Hj|[-> ->]]%lookup_snoc Hij Hn Hm;
        [by eapply He| |apply lookup_lt_Some in Hj; lia|lia].
      specialize (Hxe Hm). destruct (last_external ns) as [d|] eqn:Hl.
      * apply lookup_last_external in Hl as (k & y & Hk & Hy & <- & Hmax). cbn in Hxe.
        pose proof (Hmax i n Hi Hn). destruct (decide (i = k)) as [->|]; [by simplify_eq|].
        eapply word_lt_trans; [apply (He i k); done || lia|done].
      * by rewrite (last_external_None _ _ _ Hl Hi) in Hn.
Qed.

Lemma check_external_spec id prev d :
  match check_external id prev d with
  | Ok o => o = Some d /\ from_option (fun p => word_lt p d) True prev
  | Err _ => ~ from_option (fun p => word_lt p d) True prev
  | Panic => False
  end.
Proof.
  unfold check_external. destruct prev as [p|]; [|done]. cbn. destruct (word_ltb p d) eqn:E.
  - apply word_ltb_spec in E. done.
  - intros H%word_ltb_spec. congruence.
Qed.

Lemma dense_order_step_spec ns x :
  match dense_order_step (from_option order_class External (last ns), last_external ns) (length ns, x) with
  | Ok st => extends_dense ns x /\ st = (order_class x, last_external (ns ++ [x]))
  | Err _ => ~ extends_dense ns x
  | Panic => False
  end.
Proof.
  unfold dense_order_step, extends_dense. destruct (Nat.ltb_spec (class_rank (order_class x))
    (class_rank (from_option order_class External (last ns)))) as [Hlt|Hge]; [lia|].
  assert (Hchild : forall ext : option Word, match match last_child (fun c => length ns <=? c)%nat x with
      | Some child_id => Err (ForwardReference (length ns) child_id) | None => Ok (order_class x, ext) end with
    | Ok st => (forall c, c ∈ children x -> (c < length ns)%nat) /\ st = (order_class x, ext)
    | Err _ => ~ forall c, c ∈ children x -> (c < length ns)%nat
    | Panic => False end).
  { intros ext. destruct (last_child _ x) eqn:E.
    - intros Hall. assert (last_child (fun c => length ns <=? c)%nat x = None) as E'; [|congruence].
      apply last_child_None. intros c Hc. apply Nat.leb_gt. by apply Hall.
    - split; [|done]. intros c Hc. apply Nat.leb_gt. by apply (proj1 (last_child_None _ _) E). }
  assert (Hext : last_external (ns ++ [x]) = if is_external x then Some (digest x) else last_external ns).
  { unfold last_external. rewrite filter_app, fmap_app. cbn [filter list_filter].
    destruct (decide (is_external x = true)) as [Hx|Hx%not_true_is_false]; rewrite Hx; cbn [fmap list_fmap];
      [by rewrite last_snoc|by rewrite app_nil_r]. }
  rewrite Hext. destruct (is_external x).
  - pose proof (check_external_spec (length ns) (last_external ns) (digest x)) as Hce.
    destruct (check_external _ _ _) as [o|e|]; cbn [rbind]; [destruct Hce as [-> Hce]|naive_solver|done].
    specialize (Hchild (Some (digest x))). destruct (last_child _ x); [naive_solver|].
    destruct Hchild as [Hc _]. split; [|done]. split; [done|]. split; [lia|done].
  - cbn [rbind]. specialize (Hchild (last_external ns)). destruct (last_child _ x); [naive_solver|].
    destruct Hchild as [Hc _]. split; [|done]. split; [done|]. split; [lia|done].
Qed.

Lemma dense_order_run ns :
  match rfold dense_order_step (External, None) (enumerate ns) with
  | Ok st => dense ns /\ st = (from_option order_class External (last ns), last_external ns)
  | Err _ => ~ dense ns
  | Panic => False
  end.
Proof.
  induction ns as [|x ns IH] using rev_ind.
  { cbn. split; [|done]. by split; intros i. }
  rewrite enumerate_app, rfold_app. destruct (rfold _ _ (enumerate ns)) as [st|e|]; cbn [rbind rfold]; [|by rewrite dense_snoc; intros [??]|done].
  destruct IH as [Hd ->]. pose proof (dense_order_step_spec ns x) as Hs.
  destruct (dense_order_step _ _) as [st|e|]; cbn [rbind]; [|by rewrite dense_snoc; intros [??]|done].
  destruct Hs as [He ->]. split; [by apply dense_snoc|]. by rewrite last_snoc.
Qed.

Lemma validate_dense_node_order_spec ns :
  match validate_dense_node_order ns with Ok _ => dense ns | Err _ => ~ dense ns | Panic => False end.
Proof.
  unfold validate_dense_node_order. pose proof (dense_order_run ns) as H.
  destruct (rfold _ _ _); cbn [rbind]; [by destruct H|done|done].
Qed.

Lemma validate_dense_iff ns : validate_dense_node_order ns = Ok tt <-> dense ns.
Proof.
  pose proof (validate_dense_node_order_spec ns). destruct (validate_dense_node_order ns) as [[]|e|]; [done| |done].
  by split.
Qed.

(** ** Node hashes *)

Section Hashes.
Context `{Poseidon2}.

(** The hash a node has by its structure and the hashes of its children. *)
Definition node_hash (look : MastNodeId -> option Word) (n : MastNode) : option Word :=
  match n with
  | NBlock n => Some (hash_batches (op_batches n))
  | NJoin n => l ← look (first n); r ← look (second n); Some (hash_join l r)
  | NSplit n => t ← look (on_true n); f ← look (on_false n); Some (hash_split t f)
  | NLoop n => b ← look (body n); Some (hash_loop b)
  | NCall n => c ← look (callee n); Some (hash_call (is_syscall n) c)
  | NDyn n => Some (hash_dyn (is_dyncall n))
  | NExternal n => Some (external_digest n)
  end.

Lemma node_hash_ext look look' n : (forall c, c ∈ children n -> look c = look' c) ->
  node_hash look n = node_hash look' n.
Proof.
  intros Hl. destruct n; cbn [node_hash children] in *; try done;
    rewrite !Hl by (repeat first [apply list_elem_of_here|apply list_elem_of_further]); done.
Qed.

Definition is_hash_table (ns : list MastNode) (hs : list Word) : Prop :=
  length hs = length ns /\
  forall i n, ns !! i = Some n -> node_hash (fun c => hs !! c) n = hs !! i.

(** Every stored digest is the hash of the node. *)
Definition digests_ok (ns : list MastNode) : Prop := is_hash_table ns (digest <$> ns).

Lemma hash_table_unique ns hs1 hs2 : backward ns -> is_hash_table ns hs1 -> is_hash_table ns hs2 -> hs1 = hs2.
Proof.
  intros Hb [Hl1 H1] [Hl2 H2]. apply list_eq. intros i. induction i as [i IH] using lt_wf_ind.
  destruct (ns !! i) as [n|] eqn:Hn.
  - rewrite <- (H1 _ _ Hn), <- (H2 _ _ Hn). apply node_hash_ext. intros c Hc. apply IH. by eapply Hb.
  - apply lookup_ge_None in Hn. rewrite !lookup_ge_None_2 by lia. done.
Qed.

Lemma check_no_forward_ref_spec id c :
  match check_no_forward_ref id c with Ok _ => (c < id)%nat | Err _ => (id <= c)%nat | Panic => False end.
Proof. unfold check_no_forward_ref. by destruct (Nat.leb_spec id c). Qed.

Lemma compute_node_hash_spec hs n :
  match compute_node_hash hs (length hs) n with
  | Ok d => (forall c, c ∈ children n -> (c < length hs)%nat) /\ node_hash (fun c => hs !! c) n = Some d
  | Err _ => ~ forall c, c ∈ children n -> (c < length hs)%nat
  | Panic => False
  end.
Proof.
  assert (Hl : forall c, (c < length hs)%nat -> exists d, hs !! c = Some d) by (intros; by apply lookup_lt_is_Some).
  destruct n as [n|n|n|n|n|n|n]; cbn [compute_node_hash node_hash children];
    try (split; [intros c Hc; by apply elem_of_nil in Hc|done]);
    repeat match goal with |- context [check_no_forward_ref ?i ?c] =>
      let Hc := fresh "Hc" in pose proof (check_no_forward_ref_spec i c) as Hc;
      destruct (check_no_forward_ref i c) as [[]|e|]; cbn [rbind];
      [destruct (Hl _ Hc) as [? ->]| |done] end;
    cbn [rexpect rbind mbind option_bind];
    first [split; [|done]; intros c; rewrite ?elem_of_cons, elem_of_nil; naive_solver
          |intros Hall; match goal with H : (_ <= ?c)%nat |- _ => assert (c < length hs)%nat; [|lia];
             apply Hall; repeat first [apply list_elem_of_here|apply list_elem_of_further] end].
Qed.

Lemma is_hash_table_snoc ns hs n : is_hash_table ns hs -> backward ns ->
  (forall c, c ∈ children n -> (c < length ns)%nat) ->
  node_hash (fun c => hs !! c) n = Some (default EMPTY_WORD (node_hash (fun c => hs !! c) n)) ->
  is_hash_table (ns ++ [n]) (hs ++ [default EMPTY_WORD (node_hash (fun c => hs !! c) n)]).
Proof.
  intros [Hl Ht] Hb Hc Hd. split; [rewrite !length_app; cbn; lia|]. intros i m [Hi|[-> <-]]%lookup_snoc.
  - rewrite lookup_app_l by (apply lookup_lt_Some in Hi; lia). rewrite <- (Ht _ _ Hi). apply node_hash_ext.
    intros c Hcm. pose proof (Hb _ _ _ Hi Hcm). apply lookup_lt_Some in Hi. apply lookup_app_l. lia.
  - rewrite (node_hash_ext _ (fun c => hs !! c)) by (intros c Hcn; apply lookup_app_l; rewrite Hl; by apply Hc).
    rewrite <- Hl, Hd. symmetry. apply lookup_snoc. by right.
Qed.

Lemma backward_snoc ns x : backward (ns ++ [x]) <-> backward ns /\ forall c, c ∈ children x -> (c < length ns)%nat.
Proof.
  split.
  - intros Hb. split; [intros i n c Hi|intros c]; apply Hb; apply lookup_snoc; [by left|by right].
  - intros [Hb Hx] i n c [Hi|[-> <-]]%lookup_snoc; [by apply Hb|apply Hx].
Qed.

Lemma compute_node_hashes_spec ns :
  match compute_node_hashes ns with
  | Ok hs => backward ns /\ is_hash_table ns hs
  | Err _ => ~ backward ns
  | Panic => False
  end.
Proof.
  unfold compute_node_hashes. induction ns as [|x ns IH] using rev_ind.
  { cbn. split; [by intros i|]. by split; [|intros i]. }
  rewrite enumerate_app, rfold_app. destruct (rfold _ _ (enumerate ns)) as [hs|e|]; cbn [rbind rfold];
    [|by rewrite backward_snoc; intros [??]|done].
  destruct IH as [Hb Ht]. pose proof (compute_node_hash_spec hs x) as Hs. destruct Ht as [Hl Ht]. rewrite Hl in Hs.
  destruct (compute_node_hash _ _ _) as [d|e|]; cbn [rbind]; [|by rewrite backward_snoc; intros [??]|done].
  destruct Hs as [Hc Hd]. split; [by apply backward_snoc|].
  pose proof (is_hash_table_snoc ns hs x (conj Hl Ht) Hb Hc) as Hsn. rewrite Hd in Hsn. by apply Hsn.
Qed.

Lemma validate_node_hashes_spec f :
  match validate_node_hashes f with
  | Ok _ => backward (nodes f) /\ digests_ok (nodes f)
  | Err _ => ~ (backward (nodes f) /\ digests_ok (nodes f))
  | Panic => False
  end.
Proof.
  unfold validate_node_hashes. pose proof (compute_node_hashes_spec (nodes f)) as Hc.
  destruct (compute_node_hashes (nodes f)) as [hs|e|]; cbn [rbind]; [|by intros [??]|done]. destruct Hc as [Hb Ht].
  assert (Hlook : forall p, p ∈ enumerate (zip (nodes f) hs) -> nodes f !! p.1 = Some p.2.1 /\ hs !! p.1 = Some p.2.2).
  { intros [i [n d]] Hp%elem_of_enumerate. cbn in *. by apply lookup_zip_Some in Hp. }
  assert (Hr : forall l, (forall p, p ∈ l -> nodes f !! p.1 = Some p.2.1 /\ hs !! p.1 = Some p.2.2) ->
    match rfor l (fun '(node_idx, (node, computed_digest)) =>
      if bool_decide (digest node = computed_digest) then Ok tt
      else Err (HashMismatch node_idx (digest node) computed_digest)) with
    | Ok _ => Forall (fun p => digest p.2.1 = p.2.2) l
    | Err _ => ~ digests_ok (nodes f)
    | Panic => False end).
  { induction l as [|[i [n d]] l IH]; intros Hl; [by constructor|]. cbn [rfor].
    destruct (Hl (i, (n, d)) ltac:(apply list_elem_of_here)) as [Hn Hd]. cbn in Hn, Hd.
    destruct (decide (digest n = d)) as [Heq|Hne]; [rewrite bool_decide_true by done|rewrite bool_decide_false by done];
      cbn [rbind].
    - specialize (IH ltac:(intros p Hp; apply Hl; by apply list_elem_of_further)).
      destruct (rfor _ _); [by constructor|done|done].
    - intros Hok. apply Hne. pose proof (hash_table_unique _ _ _ Hb Ht Hok) as ->.
      rewrite list_lookup_fmap, Hn in Hd. by injection Hd. }
  specialize (Hr _ Hlook). destruct (rfor _ _); [|naive_solver|done]. split; [done|].
  unfold digests_ok. assert (digest <$> nodes f = hs) as ->; [|done]. apply list_eq. intros i. destruct Ht as [Hl _].
  rewrite list_lookup_fmap. destruct (nodes f !! i) as [n|] eqn:Hn.
  - assert (i < length hs)%nat as Hi by (rewrite Hl; by eapply lookup_lt_Some).
    apply lookup_lt_is_Some in Hi as [d Hd]. rewrite Hd. cbn. f_equal.
    apply (proj1 (Forall_forall _ _) Hr (i, (n, d))). apply list_elem_of_lookup_2 with i. rewrite enumerate_lookup.
    assert (zip (nodes f) hs !! i = Some (n, d)) as -> by (by apply lookup_zip_Some). done.
  - apply lookup_ge_None in Hn. cbn. symmetry. apply lookup_ge_None. lia.
Qed.

Lemma validate_hashes_iff f : validate_node_hashes f = Ok tt <-> backward (nodes f) /\ digests_ok (nodes f).
Proof.
  pose proof (validate_node_hashes_spec f). destruct (validate_node_hashes f) as [[]|e|]; [done| |done]. by split.
Qed.

End Hashes.
