(* ===== verification/CanonOrder.v ===== *)
(** * The canonical node order

    [final_dense_node_order] is a topological sort: external nodes by digest,
    basic blocks, then the internal nodes, each after its children, the smallest
    ready id first.  Its state is a function of the internal nodes emitted so
    far, so that each step of the loop is an equation. *)

From S2P Require Import Prelude Felt AdviceMap Serde Operations OpBatch Mast BatchValid Machine.
From S2P Require Import Merkle Forest ForestTheory.

(** ** Tables *)

Section Tables.
Context {A : Type}.
Implicit Types (f g : nat -> A).

Definition tab (n : nat) f : list A := f <$> seq 0 n.
Definition fupd f (i : nat) (v : A) (j : nat) : A := if decide (j = i) then v else f j.

Lemma tab_lookup n f i : (i < n)%nat -> tab n f !! i = Some (f i).
Proof. intros Hi. unfold tab. by rewrite list_lookup_fmap, lookup_seq_lt. Qed.

Lemma tab_ext n f g : (forall i, (i < n)%nat -> f i = g i) -> tab n f = tab n g.
Proof. intros Hf. apply list_fmap_ext. intros i x [-> Hi]%lookup_seq. by apply Hf. Qed.

Lemma tab_update n f i v : (i < n)%nat -> update i v (tab n f) = Some (tab n (fupd f i v)).
Proof.
  intros Hi. rewrite update_Some by (unfold tab; by rewrite length_fmap, length_seq). f_equal. apply list_eq. intros j.
  destruct (decide (j < n)%nat) as [Hj|Hj].
  - rewrite (tab_lookup n (fupd f i v)) by done. unfold fupd. case_decide as Hji.
    + subst. rewrite list_lookup_insert_eq; [done|]. unfold tab. by rewrite length_fmap, length_seq.
    + rewrite list_lookup_insert_ne by done. by apply tab_lookup.
  - rewrite !lookup_ge_None_2; [done| |]; rewrite ?length_insert; unfold tab; rewrite length_fmap, length_seq; lia.
Qed.

Lemma replicate_tab n (x : A) : replicate n x = tab n (fun _ => x).
Proof.
  apply list_eq. intros i. destruct (decide (i < n)%nat).
  - by rewrite tab_lookup, lookup_replicate_2.
  - rewrite !lookup_ge_None_2; [done| |]; unfold tab; rewrite ?length_fmap, ?length_seq, ?length_replicate; lia.
Qed.

End Tables.

(** The number of occurrences. *)
Definition occ (x : nat) (l : list nat) : nat := length (filter (eq x) l).

Lemma occ_cons x y l : occ x (y :: l) = ((if decide (x = y) then 1 else 0) + occ x l)%nat.
Proof. unfold occ. rewrite filter_cons. by case_decide. Qed.
Lemma occ_app x l1 l2 : occ x (l1 ++ l2) = (occ x l1 + occ x l2)%nat.
Proof. unfold occ. by rewrite filter_app, length_app. Qed.
Lemma occ_0 x l : occ x l = 0%nat <-> x ∉ l.
Proof.
  induction l as [|y l IH]; [split; [intros _ H; by apply elem_of_nil in H|done]|]. rewrite occ_cons, elem_of_cons.
  case_decide; [split; [lia|naive_solver]|]. rewrite IH. naive_solver.
Qed.
Lemma occ_replicate x y n : occ x (replicate n y) = if decide (x = y) then n else 0%nat.
Proof.
  induction n as [|n IH]; cbn [replicate]; [by case_decide|]. rewrite occ_cons, IH. by case_decide.
Qed.
Lemma occ_filter x P `{!forall y, Decision (P y)} l : occ x (filter P l) = if decide (P x) then occ x l else 0%nat.
Proof.
  induction l as [|y l IH]; [by case_decide|]. rewrite filter_cons. destruct (decide (P y)) as [Hy|Hy].
  - rewrite !occ_cons, IH. destruct (decide (x = y)) as [->|]; [by rewrite !decide_True by done|]. by case_decide.
  - rewrite IH, occ_cons. destruct (decide (P x)); [|done]. rewrite decide_False by naive_solver. done.
Qed.

(** ** Increasing lists *)

Notation increasing := (StronglySorted lt).

Lemma increasing_ext l1 l2 : increasing l1 -> increasing l2 -> (forall x, x ∈ l1 <-> x ∈ l2) -> l1 = l2.
Proof.
  revert l2. induction l1 as [|x l1 IH]; intros [|y l2] H1 H2 Hx.
  - done.
  - specialize (Hx y). rewrite elem_of_nil in Hx. exfalso. apply Hx, list_elem_of_here.
  - specialize (Hx x). rewrite elem_of_nil in Hx. exfalso. apply Hx, list_elem_of_here.
  - apply StronglySorted_inv in H1 as [H1 F1], H2 as [H2 F2]. rewrite Forall_forall in F1, F2.
    assert (x = y) as ->.
    { assert (x ∈ y :: l2) as [->|Hin]%elem_of_cons by (apply Hx, list_elem_of_here); [done|].
      assert (y ∈ x :: l1) as [->|Hin']%elem_of_cons by (apply Hx, list_elem_of_here); [done|].
      specialize (F1 _ Hin'). specialize (F2 _ Hin). lia. }
    f_equal. apply IH; [done|done|]. intros z. specialize (Hx z). rewrite !elem_of_cons in Hx.
    destruct (decide (z = y)) as [->|]; [|naive_solver].
    split; intros Hz; exfalso; [specialize (F1 _ Hz)|specialize (F2 _ Hz)]; lia.
Qed.

Lemma elem_of_bt_insert x y l : y ∈ bt_insert x l <-> y = x \/ y ∈ l.
Proof.
  induction l as [|z l IH]; cbn [bt_insert]; [by rewrite list_elem_of_singleton, elem_of_nil; naive_solver|].
  destruct (Nat.ltb_spec x z); [by rewrite !elem_of_cons|]. destruct (Nat.eqb_spec x z) as [->|].
  - rewrite elem_of_cons. naive_solver.
  - rewrite !elem_of_cons, IH. naive_solver.
Qed.

Lemma bt_insert_increasing x l : increasing l -> increasing (bt_insert x l).
Proof.
  induction l as [|z l IH]; cbn [bt_insert]; intros Hl; [by repeat constructor|].
  destruct (Nat.ltb_spec x z).
  - constructor; [done|]. constructor; [done|]. apply StronglySorted_inv in Hl as [_ Hl].
    eapply Forall_impl; [exact Hl|]. cbn. lia.
  - destruct (Nat.eqb_spec x z) as [->|]; [done|]. apply StronglySorted_inv in Hl as [Hl Hz].
    constructor; [by apply IH|]. apply Forall_forall. intros y [->|Hy]%elem_of_bt_insert; [lia|].
    by apply (proj1 (Forall_forall _ _) Hz).
Qed.

Lemma increasing_filter P `{!forall y, Decision (P y)} l : increasing l -> increasing (filter P l).
Proof.
  induction 1 as [|x l Hl IH Hx]; [constructor|]. rewrite filter_cons. case_decide; [|done]. constructor; [done|].
  apply Forall_forall. intros y [_ Hy]%list_elem_of_filter. by apply (proj1 (Forall_forall _ _) Hx).
Qed.

Lemma increasing_NoDup l : increasing l -> NoDup l.
Proof.
  induction 1 as [|x l Hl IH Hx]; constructor; [|done]. intros Hin. apply (proj1 (Forall_forall _ _) Hx) in Hin. lia.
Qed.

Lemma StronglySorted_lookup {A} (R : A -> A -> Prop) l i j x y : StronglySorted R l -> (i < j)%nat ->
  l !! i = Some x -> l !! j = Some y -> R x y.
Proof.
  intros Hl. revert i j. induction Hl as [|z l Hl IH Hz]; intros [|i] [|j] Hij Hi Hj; try done; try lia; cbn in *.
  - injection Hi as <-. eapply (proj1 (Forall_forall _ _) Hz). by eapply list_elem_of_lookup_2.
  - apply (IH i j); [lia|done|done].
Qed.

(** ** Ids by class *)

Lemma elem_of_ids c ns i : i ∈ ids_of_class c ns <-> exists n, ns !! i = Some n /\ order_class n = c.
Proof.
  unfold ids_of_class. rewrite list_elem_of_fmap. split.
  - intros ([j n] & -> & [Hc Hn%elem_of_enumerate]%list_elem_of_filter). by exists n.
  - intros (n & Hn & Hc). exists (i, n). split; [done|]. apply list_elem_of_filter. split; [done|].
    apply list_elem_of_lookup_2 with i. by rewrite enumerate_lookup, Hn.
Qed.

Lemma ids_lt c ns i : i ∈ ids_of_class c ns -> (i < length ns)%nat.
Proof. intros (n & Hn & _)%elem_of_ids. by eapply lookup_lt_Some. Qed.

Lemma increasing_snoc l x : increasing l -> (forall y, y ∈ l -> (y < x)%nat) -> increasing (l ++ [x]).
Proof.
  induction 1 as [|z l Hl IH Hz]; intros Hx; [by repeat constructor|]. cbn. constructor.
  - apply IH. intros y Hy. by apply Hx, list_elem_of_further.
  - apply Forall_app. split; [done|]. constructor; [apply Hx, list_elem_of_here|constructor].
Qed.

Lemma ids_increasing c ns : increasing (ids_of_class c ns).
Proof.
  induction ns as [|x ns IH] using rev_ind; [constructor|]. unfold ids_of_class in *.
  rewrite enumerate_app, filter_app, fmap_app, filter_cons. case_decide; cbn; [|by rewrite app_nil_r].
  apply increasing_snoc; [done|]. intros y Hy. by apply (ids_lt c).
Qed.

(** ** The loop *)

Section Order.
Context (ns : list MastNode).
Notation n := (length ns).
Notation I := (ids_of_class Internal ns).
Notation B := (ids_of_class BasicBlock ns).
Notation E := (merge_sort (external_le ns) (ids_of_class External ns)).

Definition children_of (i : nat) : list nat := from_option children [] (ns !! i).

Lemma elem_of_E i : i ∈ E <-> i ∈ ids_of_class External ns.
Proof. by rewrite merge_sort_Permutation. Qed.

(** Every id is external, a block or internal, and only one of them. *)
Lemma id_classes i : (i < n)%nat <-> i ∈ E \/ i ∈ B \/ i ∈ I.
Proof.
  rewrite elem_of_E, !elem_of_ids. split.
  - intros [m Hm]%lookup_lt_is_Some. destruct (order_class m) eqn:Hc; eauto.
  - intros [(m & Hm & _)|[(m & Hm & _)|(m & Hm & _)]]; by eapply lookup_lt_Some.
Qed.

Lemma internal_not_ordered i : i ∈ I -> i ∉ E ++ B.
Proof.
  rewrite elem_of_app, elem_of_E, !elem_of_ids. intros (m & Hm & Hc) [(m' & Hm' & Hc')|(m' & Hm' & Hc')]; congruence.
Qed.

(** The children of [i] that are internal and not emitted. *)
Definition pend (S : list nat) (i : nat) : nat := length (filter (fun c => c ∈ I /\ c ∉ S) (children_of i)).
Definition parents0 (c : nat) : list nat :=
  if decide (c ∈ I) then I ≫= fun i => replicate (occ c (children_of i)) i else [].

Definition ordered_tab (S : list nat) : list bool := tab n (fun i => bool_decide (i ∈ E ++ B ++ S)).
Definition parents_tab (S : list nat) : list (list nat) := tab n (fun c => if decide (c ∈ S) then [] else parents0 c).
Definition ready_of (S : list nat) : list nat := filter (fun i => i ∉ S /\ pend S i = 0%nat) I.

Definition state_of (S : list nat) : OrderState :=
  mkOrderState (ready_of S) (ordered_tab S) (E ++ B ++ S) (length S) (parents_tab S) (tab n (pend S)).

Lemma children_of_leaf i : i ∉ I -> children_of i = [].
Proof.
  unfold children_of. destruct (ns !! i) as [m|] eqn:Hm; [|done]. intros Hi. cbn.
  destruct m; try done; (destruct Hi; apply elem_of_ids; eexists; split; [exact Hm|done]).
Qed.

Lemma mark_ordered : rfold (fun ordered node_id => rexpect (update node_id true ordered)) (replicate n false) (E ++ B) =
  @Ok MastForestError _ (ordered_tab []).
Proof.
  assert (H : forall l o, (forall i, i ∈ l -> (i < n)%nat) ->
    rfold (fun ordered node_id => rexpect (update node_id true ordered)) (tab n o) l =
    @Ok MastForestError _ (tab n (fun i => o i || bool_decide (i ∈ l)))).
  { induction l as [|x l IH]; intros o Hl; cbn [rfold].
    - f_equal. apply tab_ext. intros i _. rewrite bool_decide_false by apply not_elem_of_nil. by rewrite orb_false_r.
    - rewrite tab_update by (apply Hl, list_elem_of_here). cbn [rexpect rbind].
      rewrite IH by (intros i Hi; by apply Hl, list_elem_of_further). f_equal. apply tab_ext. intros i _. unfold fupd.
      case_decide as Hix; [subst; rewrite (bool_decide_true (x ∈ x :: l)) by apply list_elem_of_here; by rewrite orb_true_r|].
      f_equal. apply bool_decide_ext. rewrite elem_of_cons. naive_solver. }
  rewrite replicate_tab, H.
  - f_equal. apply tab_ext. intros i _. cbn. by rewrite app_nil_r.
  - intros i [Hi|Hi]%elem_of_app; apply id_classes; auto.
Qed.

Lemma not_ordered_internal c : (c < n)%nat -> bool_decide (c ∈ E ++ B ++ []) = negb (bool_decide (c ∈ I)).
Proof.
  intros Hc%id_classes. rewrite app_nil_r. destruct (decide (c ∈ I)) as [Hi|Hi].
  - rewrite (bool_decide_true (c ∈ I)) by done. apply bool_decide_false. by apply internal_not_ordered.
  - rewrite (bool_decide_false (c ∈ I)) by done. apply bool_decide_true. rewrite elem_of_app. tauto.
Qed.

Lemma count_children_run i cf pf l : (i < n)%nat ->
  rfold (count_child n (ordered_tab []) i) (tab n cf, tab n pf) l =
  Ok (tab n (fupd cf i (cf i + length (filter (.∈ I) l))%nat),
      tab n (fun c => pf c ++ if decide (c ∈ I) then replicate (occ c l) i else [])).
Proof.
  intros Hi. revert cf pf. induction l as [|c l IH]; intros cf pf; cbn [rfold].
  { f_equal. f_equal; apply tab_ext; intros j _; [unfold fupd; case_decide; [subst; cbn; lia|done]|].
    case_decide; by rewrite app_nil_r. }
  unfold count_child at 1.
  assert (Hskip : c ∉ I -> tab n (fupd cf i (cf i + length (filter (.∈ I) l))%nat) =
      tab n (fupd cf i (cf i + length (filter (.∈ I) (c :: l)))%nat) /\
    tab n (fun c' => pf c' ++ if decide (c' ∈ I) then replicate (occ c' l) i else []) =
    tab n (fun c' => pf c' ++ if decide (c' ∈ I) then replicate (occ c' (c :: l)) i else [])).
  { intros Hc. split; [by rewrite filter_cons, decide_False|]. apply tab_ext. intros j _. f_equal. case_decide; [|done].
    rewrite occ_cons. rewrite decide_False by (intros ->; done). done. }
  destruct (Nat.ltb_spec c n) as [Hcn|Hcn]; cbn [rbind].
  2: { rewrite IH. destruct Hskip as [-> ->]; [|done]. intros Hc%ids_lt. lia. }
  unfold ordered_tab. rewrite tab_lookup by done. cbn [rexpect rbind]. rewrite not_ordered_internal by done.
  fold (ordered_tab []). destruct (decide (c ∈ I)) as [Hc|Hc].
  2: { rewrite (bool_decide_false (c ∈ I)) by done. cbn [negb rbind]. rewrite IH. by destruct Hskip as [-> ->]. }
  rewrite (bool_decide_true (c ∈ I)) by done. cbn [negb]. rewrite tab_lookup by done. cbn [rexpect rbind].
  rewrite tab_update by done. cbn [rexpect rbind]. rewrite tab_lookup by done. cbn [rexpect rbind].
  rewrite tab_update by done. cbn [rexpect rbind]. rewrite IH. f_equal. f_equal; apply tab_ext; intros j _.
  - rewrite filter_cons, decide_True by done. unfold fupd. case_decide; [|done]. rewrite decide_True by done. cbn. lia.
  - unfold fupd. rewrite occ_cons. destruct (decide (j = c)) as [->|]; [|done].
    rewrite !(decide_True (P := c ∈ I)) by done. by rewrite <- app_assoc.
Qed.

Lemma count_run L cf pf : (forall i, i ∈ L -> i ∈ I) ->
  rfold (fun st node_id =>
      let? node := rexpect (ns !! node_id) in
      rfold (count_child n (ordered_tab []) node_id) st (children node)) (tab n cf, tab n pf) L =
  Ok (tab n (fun j => cf j + occ j L * pend [] j)%nat,
      tab n (fun c => pf c ++ if decide (c ∈ I) then L ≫= fun i => replicate (occ c (children_of i)) i else [])).
Proof.
  revert cf pf. induction L as [|i L IH]; intros cf pf HL; cbn [rfold].
  { f_equal. f_equal; apply tab_ext; intros j _; [cbn; lia|]. case_decide; by rewrite app_nil_r. }
  pose proof (HL i ltac:(apply list_elem_of_here)) as Hi. pose proof Hi as (m & Hm & _)%elem_of_ids. rewrite Hm. cbn [rexpect rbind].
  rewrite count_children_run by (by apply (ids_lt Internal)). cbn [rbind].
  rewrite IH by (intros j Hj; by apply HL, list_elem_of_further).
  assert (Hch : children_of i = children m) by (unfold children_of; by rewrite Hm).
  f_equal. f_equal; apply tab_ext; intros j _.
  - rewrite occ_cons. unfold fupd. case_decide; [subst|lia]. unfold pend. rewrite Hch.
    rewrite (list_filter_iff (fun c => c ∈ I /\ c ∉ []) (.∈ I)); [lia|]. intros c. pose proof (not_elem_of_nil c). tauto.
  - case_decide; [|by rewrite !app_nil_r]. cbn [mbind list_bind]. by rewrite Hch, <- app_assoc.
Qed.

Lemma occ_NoDup x l : NoDup l -> occ x l = if decide (x ∈ l) then 1%nat else 0%nat.
Proof.
  induction 1 as [|y l Hy Hl IH]; [done|]. rewrite occ_cons, IH. destruct (decide (x = y)) as [->|].
  - rewrite (decide_False (P := y ∈ l)), decide_True; [done|apply list_elem_of_here|done].
  - case_decide as H1; case_decide as H2; try done; rewrite elem_of_cons in H2; naive_solver.
Qed.

Lemma I_NoDup : NoDup I.
Proof. apply increasing_NoDup, ids_increasing. Qed.

Lemma pend_leaf S i : i ∉ I -> pend S i = 0%nat.
Proof. intros Hi. unfold pend. by rewrite children_of_leaf. Qed.

Lemma count_all :
  rfold (fun st node_id =>
      let? node := rexpect (ns !! node_id) in
      rfold (count_child n (ordered_tab []) node_id) st (children node))
    (replicate n 0%nat, replicate n []) I = Ok (tab n (pend []), parents_tab []).
Proof.
  rewrite !replicate_tab, count_run by done. do 2 f_equal. apply tab_ext. intros j _.
  rewrite occ_NoDup by apply I_NoDup. case_decide; [lia|]. by rewrite pend_leaf.
Qed.

Lemma ready_init :
  rfold (fun ready node_id =>
      let? count := rexpect (tab n (pend []) !! node_id) in
      Ok (if (count =? 0)%nat then bt_insert node_id ready else ready)) [] I = @Ok MastForestError _ (ready_of []).
Proof.
  assert (H : forall L r, (forall i, i ∈ L -> i ∈ I) -> increasing r -> exists r',
    rfold (fun ready node_id =>
      let? count := rexpect (tab n (pend []) !! node_id) in
      Ok (if (count =? 0)%nat then bt_insert node_id ready else ready)) r L = @Ok MastForestError _ r' /\ increasing r' /\
    forall i, i ∈ r' <-> i ∈ r \/ i ∈ L /\ pend [] i = 0%nat).
  { induction L as [|i L IH]; intros r HL Hr; cbn [rfold].
    { exists r. split; [done|]. split; [done|]. intros i. rewrite elem_of_nil. tauto. }
    rewrite tab_lookup by (apply (ids_lt Internal), HL, list_elem_of_here). cbn [rexpect rbind].
    destruct (IH (if (pend [] i =? 0)%nat then bt_insert i r else r)) as (r' & -> & Hr' & Hin).
    { intros j Hj. by apply HL, list_elem_of_further. }
    { destruct (_ =? 0)%nat; [by apply bt_insert_increasing|done]. }
    exists r'. split; [done|]. split; [done|]. intros j. rewrite Hin, elem_of_cons.
    destruct (Nat.eqb_spec (pend [] i) 0); rewrite ?elem_of_bt_insert; naive_solver. }
  destruct (H I [] ltac:(done) ltac:(constructor)) as (r & -> & Hr & Hin). f_equal.
  apply increasing_ext; [done|apply increasing_filter, ids_increasing|]. intros i. unfold ready_of.
  rewrite Hin, list_elem_of_filter, elem_of_nil. pose proof (not_elem_of_nil i). tauto.
Qed.

Lemma release_run ps cf r : (forall j, j ∈ ps -> (j < n)%nat) -> (forall j, occ j ps <= cf j)%nat -> increasing r ->
  exists r', rfold release_parent (tab n cf, r) ps = Ok (tab n (fun j => cf j - occ j ps)%nat, r') /\
    increasing r' /\ forall i, i ∈ r' <-> i ∈ r \/ i ∈ ps /\ cf i = occ i ps.
Proof.
  revert cf r. induction ps as [|p ps IH]; intros cf r Hn Hc Hr; cbn [rfold].
  { exists r. split; [|split; [done|]].
    - do 2 f_equal. apply tab_ext. intros j _. cbn. lia.
    - intros i. rewrite elem_of_nil. tauto. }
  unfold release_parent at 1. assert (Hp : (p < n)%nat) by (apply Hn, list_elem_of_here).
  assert (Hcp := Hc p). rewrite occ_cons, decide_True in Hcp by done.
  rewrite tab_lookup by done. cbn [rexpect rbind]. rewrite checked_sub_Some by lia. cbn [rexpect rbind].
  rewrite tab_update by done. cbn [rexpect rbind].
  destruct (IH (fupd cf p (cf p - 1)%nat) (if (cf p - 1 =? 0)%nat then bt_insert p r else r)) as (r' & -> & Hr' & Hin).
  { intros j Hj. by apply Hn, list_elem_of_further. }
  { intros j. specialize (Hc j). rewrite occ_cons in Hc. unfold fupd. destruct (decide (j = p)); subst; lia. }
  { destruct (_ =? 0)%nat; [by apply bt_insert_increasing|done]. }
  exists r'. split; [|split; [done|]].
  - do 2 f_equal. apply tab_ext. intros j _. unfold fupd. rewrite occ_cons. destruct (decide (j = p)); subst; lia.
  - intros i. rewrite Hin, elem_of_cons, occ_cons. unfold fupd. destruct (decide (i = p)) as [->|Hip]; cbv iota.
    + destruct (Nat.eqb_spec (cf p - 1) 0) as [E0|E0]; rewrite ?elem_of_bt_insert.
      * split; [|tauto]. intros _. right. split; [by left|]. pose proof (occ_0 p ps). lia.
      * destruct (decide (p ∈ ps)) as [Hps|Hps].
        -- split; [intros [?|[? ?]]; [by left|right; split; [by left|lia]]|]. intros [?|[_ ?]]; [by left|right; split; [done|lia]].
        -- pose proof (proj2 (occ_0 p ps) Hps). split; [tauto|]. intros [?|[_ ?]]; [by left|]. lia.
    + assert (i ∈ (if (cf p - 1 =? 0)%nat then bt_insert p r else r) <-> i ∈ r) as ->.
      { destruct (_ =? 0)%nat; [|done]. rewrite elem_of_bt_insert. tauto. }
      cbn. tauto.
Qed.

Lemma pend_snoc S x i : x ∈ I -> x ∉ S -> pend S i = (pend (S ++ [x]) i + occ x (children_of i))%nat.
Proof.
  intros Hx HS. unfold pend. generalize (children_of i). intros l. induction l as [|c l IH]; [done|].
  rewrite occ_cons, !filter_cons. destruct (decide (x = c)) as [<-|Hne].
  - rewrite decide_True by done. rewrite (decide_False (P := x ∈ I /\ x ∉ S ++ [x])); [cbn; lia|].
    rewrite elem_of_app, list_elem_of_singleton. tauto.
  - destruct (decide (c ∈ I /\ c ∉ S)) as [Hc|Hc].
    + rewrite (decide_True (P := c ∈ I /\ c ∉ S ++ [x])); [cbn; lia|].
      rewrite elem_of_app, list_elem_of_singleton. naive_solver.
    + rewrite (decide_False (P := c ∈ I /\ c ∉ S ++ [x])); [done|]. rewrite elem_of_app. tauto.
Qed.

Lemma occ_bind_replicate j (f : nat -> nat) L : occ j (L ≫= fun i => replicate (f i) i) = (occ j L * f j)%nat.
Proof.
  induction L as [|i L IH]; [done|]. rewrite bind_cons, occ_app, occ_replicate, occ_cons, IH. destruct (decide (j = i)); subst; lia.
Qed.

Lemma occ_parents j x : x ∈ I -> occ j (parents0 x) = occ x (children_of j).
Proof.
  intros Hx. unfold parents0. rewrite decide_True by done. rewrite (occ_bind_replicate j (fun i => occ x (children_of i))).
  rewrite occ_NoDup by apply I_NoDup. case_decide as Hj; [lia|]. by rewrite children_of_leaf.
Qed.

(** What the loop keeps of the emitted nodes: distinct internal nodes, each
    after its internal children. *)
Record emitted (S : list nat) : Prop := {
  em_NoDup : NoDup S;
  em_internal i : i ∈ S -> i ∈ I;
  em_order k i c : S !! k = Some i -> c ∈ children_of i -> c ∈ I -> c ∈ take k S
}.

Lemma pend_0 S i : pend S i = 0%nat <-> forall c, c ∈ children_of i -> c ∈ I -> c ∈ S.
Proof.
  unfold pend. split.
  - intros H%nil_length_inv c Hc Hi. destruct (decide (c ∈ S)) as [|Hn]; [done|].
    assert (c ∈ filter (fun c => c ∈ I /\ c ∉ S) (children_of i)) as Hf by (by apply list_elem_of_filter).
    rewrite H in Hf. by apply elem_of_nil in Hf.
  - intros Hall. destruct (filter _ _) as [|c l] eqn:Hf; [done|].
    assert (c ∈ filter (fun c => c ∈ I /\ c ∉ S) (children_of i)) as Hc by (rewrite Hf; apply list_elem_of_here).
    apply list_elem_of_filter in Hc as [[Hi Hn] Hc]. by destruct Hn; apply Hall.
Qed.

Lemma emitted_closed S i : emitted S -> i ∈ S -> pend S i = 0%nat.
Proof.
  intros Hem (k & Hk)%list_elem_of_lookup. apply pend_0. intros c Hc Hi.
  eapply subseteq_take. by eapply (em_order _ Hem).
Qed.

Lemma emitted_snoc S x : emitted S -> x ∈ ready_of S -> emitted (S ++ [x]).
Proof.
  intros Hem [[HS Hp] HI]%list_elem_of_filter. split.
  - apply NoDup_app. split; [by apply em_NoDup|]. split; [|apply NoDup_singleton].
    intros y Hy Hyx%list_elem_of_singleton. by subst.
  - intros i [Hi| ->%list_elem_of_singleton]%elem_of_app; [by apply (em_internal _ Hem)|done].
  - intros k i c [Hk|[-> <-]]%lookup_snoc Hc Hci.
    + rewrite take_app_le by (apply lookup_lt_Some in Hk; lia). by eapply (em_order _ Hem).
    + rewrite take_app_length. by apply (proj1 (pend_0 S x) Hp).
Qed.

Lemma ready_snoc S x rest r' : emitted S -> ready_of S = x :: rest -> increasing r' ->
  (forall i, i ∈ r' <-> i ∈ rest \/ i ∈ parents0 x /\ pend S i = occ i (parents0 x)) -> r' = ready_of (S ++ [x]).
Proof.
  intros Hem Hr Hinc Hin.
  assert (x ∈ ready_of S) as [[HxS Hxp] HxI]%list_elem_of_filter by (rewrite Hr; apply list_elem_of_here).
  pose proof (increasing_filter (fun i => i ∉ S /\ pend S i = 0%nat) I (ids_increasing _ _)) as Hinc'.
  change (filter _ I) with (ready_of S) in Hinc'. rewrite Hr in Hinc'. apply StronglySorted_inv in Hinc' as [_ Hrest].
  apply increasing_ext; [done|apply increasing_filter, ids_increasing|]. intros i. unfold ready_of.
  rewrite Hin, list_elem_of_filter, elem_of_app, list_elem_of_singleton, occ_parents by done.
  pose proof (pend_snoc S x i HxI HxS) as Hps. split.
  - intros [Hi|[Hi He]].
    + assert (i ∈ ready_of S) as [[HiS Hip] HiI]%list_elem_of_filter by (rewrite Hr; by apply list_elem_of_further).
      apply (proj1 (Forall_forall _ _) Hrest) in Hi. split; [|done]. split; [|lia]. intros [?| ->]; [done|lia].
    + assert (occ i (parents0 x) <> 0%nat) as Hocc by (rewrite occ_0; tauto). rewrite occ_parents in Hocc by done.
      assert (i ∈ I) as HiI by (destruct (decide (i ∈ I)); [done|rewrite pend_leaf in He by done; lia]).
      split; [|done]. split; [|lia]. intros [HiS| ->]; [|lia]. rewrite (emitted_closed S i) in He by done. lia.
  - intros [[Hni Hp] HiI]. destruct (decide (pend S i = 0%nat)) as [E0|E0].
    + left. assert (i ∈ ready_of S) as Hi by (apply list_elem_of_filter; tauto). rewrite Hr in Hi.
      apply elem_of_cons in Hi as [->|Hi]; tauto.
    + right. split; [|lia]. destruct (decide (i ∈ parents0 x)) as [|Hn]; [done|]. apply occ_0 in Hn.
      rewrite occ_parents in Hn by done. lia.
Qed.

Lemma emit_step S x rest : emitted S -> ready_of S = x :: rest ->
  emit_internal (state_of S) x rest = Ok (state_of (S ++ [x])).
Proof.
  intros Hem Hr.
  assert (x ∈ ready_of S) as [[HxS Hxp] HxI]%list_elem_of_filter by (rewrite Hr; apply list_elem_of_here).
  pose proof (ids_lt _ _ _ HxI) as Hxn. unfold emit_internal. cbn [state_of os_ordered os_parents os_counts os_ordered_ids os_ordered_internal_count].
  unfold ordered_tab, parents_tab. rewrite tab_update by done. cbn [rexpect rbind]. rewrite tab_lookup by done. cbn [rexpect rbind].
  rewrite decide_False by done. rewrite tab_update by done. cbn [rexpect rbind].
  assert (Hrest : increasing rest).
  { pose proof (increasing_filter (fun i => i ∉ S /\ pend S i = 0%nat) I (ids_increasing _ _)) as Hinc'.
    change (filter _ I) with (ready_of S) in Hinc'. rewrite Hr in Hinc'. by apply StronglySorted_inv in Hinc' as [? _]. }
  destruct (release_run (parents0 x) (pend S) rest) as (r' & -> & Hr' & Hin).
  - intros j Hj. apply (ids_lt Internal). destruct (decide (j ∈ I)) as [|Hn]; [done|].
    assert (occ j (parents0 x) = 0%nat) as H0 by (rewrite occ_parents, children_of_leaf by done; done). by apply occ_0 in H0.
  - intros j. rewrite occ_parents, (pend_snoc S x) by done. lia.
  - done.
  - cbn [rbind]. unfold state_of. rewrite length_app, <- !app_assoc. cbn [length]. f_equal. f_equal.
    + by eapply ready_snoc.
    + apply tab_ext. intros j _. unfold fupd. case_decide as Hj.
      * subst. symmetry. apply bool_decide_true. rewrite !elem_of_app, list_elem_of_singleton. tauto.
      * apply bool_decide_ext. rewrite !elem_of_app, list_elem_of_singleton. tauto.
    + apply tab_ext. intros j _. unfold fupd. rewrite (decide_ext (j ∈ S ++ [x]) (j ∈ S \/ j = x))
        by (rewrite elem_of_app, list_elem_of_singleton; done).
      destruct (decide (j = x)); [by rewrite decide_True by tauto|].
      destruct (decide (j ∈ S)); [by rewrite decide_True by tauto|by rewrite decide_False by tauto].
    + apply tab_ext. intros j _. rewrite occ_parents, (pend_snoc S x) by done. lia.
Qed.

Lemma emitted_length S : emitted S -> (length S <= length I)%nat.
Proof.
  intros Hem. apply submseteq_length, NoDup_submseteq; [by apply em_NoDup|]. intros i. by apply em_internal.
Qed.

(** [P] is any further invariant of the loop. *)
Lemma order_loop_inv (P : list nat -> Prop) fuel S :
  (forall S x rest, emitted S -> P S -> ready_of S = x :: rest -> P (S ++ [x])) ->
  emitted S -> P S -> (length I <= fuel + length S)%nat ->
  exists S', order_loop fuel (state_of S) = Ok (state_of S') /\ emitted S' /\ P S' /\ ready_of S' = [].
Proof.
  intros Hstep. revert S. induction fuel as [|fuel IH]; intros S Hem HP Hf; cbn [order_loop].
  all: change (os_ready (state_of S)) with (ready_of S); destruct (ready_of S) as [|x rest] eqn:Hr; [by exists S|].
  all: assert (emitted (S ++ [x])) as Hem' by (apply emitted_snoc; [done|rewrite Hr; apply list_elem_of_here]).
  - apply emitted_length in Hem'. rewrite length_app in Hem'. cbn in Hem'. lia.
  - rewrite emit_step by done. cbn [rbind]. apply IH; [done|by eapply Hstep|]. rewrite length_app. cbn. lia.
Qed.

Lemma emitted_nil : emitted [].
Proof. split; [constructor|intros i Hi; by apply elem_of_nil in Hi|by intros [|k]]. Qed.

(** When no node is ready, the nodes left form a cycle: they all wait for one
    another. *)
Lemma emitted_all S : emitted S -> ready_of S = [] ->
  (exists rank : nat -> nat, forall i c, i ∈ I -> c ∈ children_of i -> c ∈ I -> (rank c < rank i)%nat) ->
  forall i, i ∈ I -> i ∈ S.
Proof.
  intros Hem Hr [rank Hrank].
  assert (H : forall k i, (rank i < k)%nat -> i ∈ I -> i ∈ S).
  { induction k as [|k IH]; intros i Hk Hi; [lia|]. destruct (decide (i ∈ S)) as [|HiS]; [done|].
    assert (i ∈ ready_of S) as Hin; [|rewrite Hr in Hin; by apply elem_of_nil in Hin].
    apply list_elem_of_filter. split; [|done]. split; [done|]. apply pend_0. intros c Hc HcI.
    apply IH; [|done]. specialize (Hrank i c Hi Hc HcI). lia. }
  intros i. apply (H (Datatypes.S (rank i))). lia.
Qed.

Lemma emitted_full S : emitted S -> length S = length I -> S ≡ₚ I.
Proof.
  intros Hem Hl. apply submseteq_length_Permutation; [|lia]. apply NoDup_submseteq; [by apply em_NoDup|].
  intros i. by apply em_internal.
Qed.

(** ** The external nodes *)

Lemma check_external_ids_run l prev :
  match rfold (fun previous node_id => check_external node_id previous (digest_of ns node_id)) prev l with
  | Ok _ => Sorted word_lt (option_list prev ++ (digest_of ns <$> l))
  | Err _ => ~ Sorted word_lt (option_list prev ++ (digest_of ns <$> l))
  | Panic => False
  end.
Proof.
  revert prev. induction l as [|i l IH]; intros prev; cbn [rfold].
  { destruct prev; cbn; [by repeat constructor|constructor]. }
  pose proof (check_external_spec i prev (digest_of ns i)) as Hc. destruct (check_external _ _ _) as [o|e|]; cbn [rbind]; [|clear IH|done].
  - destruct Hc as [-> Hc]. specialize (IH (Some (digest_of ns i))). cbn [option_list app fmap list_fmap] in *.
    destruct prev as [p|]; cbn [option_list app]; [|done].
    destruct (rfold _ _ l); [|intros Hs%Sorted_inv; tauto|done]. constructor; [done|]. by constructor.
  - destruct prev as [p|]; cbn in *; [|done]. intros [_ Hh]%Sorted_inv. by inversion Hh.
Qed.

Definition distinct_externals : Prop := forall i j a b, ns !! i = Some a -> ns !! j = Some b ->
  is_external a = true -> is_external b = true -> digest a = digest b -> i = j.

Lemma external_le_spec i j : external_le ns i j <->
  word_lt (digest_of ns i) (digest_of ns j) \/ digest_of ns i = digest_of ns j /\ (i <= j)%nat.
Proof.
  unfold external_le. destruct (word_cmp_spec (digest_of ns i) (digest_of ns j)) as [E|L|G]; cbn.
  - rewrite E. split.
    + intros Ht%Is_true_true%Nat.leb_le. by right.
    + intros [Hl|[_ Hl]]; [by apply word_lt_irrefl in Hl|]. by apply Is_true_true, Nat.leb_le.
  - split; [by left|done].
  - split; [done|]. intros [Hl|[E _]]; [|rewrite E in G]; eapply word_lt_irrefl; [by eapply word_lt_trans|done].
Qed.

#[local] Instance external_le_total : Total (external_le ns).
Proof.
  intros i j. rewrite !external_le_spec. destruct (word_lt_total (digest_of ns i) (digest_of ns j)) as [?|[E|?]]; [tauto| |tauto].
  rewrite E. destruct (decide (i <= j)%nat); [left|right]; right; (split; [done|lia]).
Qed.

#[local] Instance external_le_trans : Transitive (external_le ns).
Proof.
  intros i j k. rewrite !external_le_spec. intros [L1|[E1 L1]] [L2|[E2 L2]]; rewrite ?E1, <- ?E2.
  - left. by eapply word_lt_trans.
  - by left.
  - by left.
  - right. split; [done|lia].
Qed.

Lemma externals_sorted : Sorted word_lt (digest_of ns <$> E) <-> distinct_externals.
Proof.
  assert (Hlook : forall i a, ns !! i = Some a -> is_external a = true -> i ∈ E /\ digest_of ns i = digest a).
  { intros i a Hi Ha. split; [|unfold digest_of; by rewrite Hi]. apply elem_of_E, elem_of_ids. exists a. split; [done|].
    by destruct a. }
  split.
  - intros Hs i j a b Hi Hj Ha Hb Hd. destruct (Hlook _ _ Hi Ha) as [Ei Di], (Hlook _ _ Hj Hb) as [Ej Dj].
    apply Sorted_StronglySorted in Hs; [|intros x y z; apply word_lt_trans].
    apply list_elem_of_lookup in Ei as [p Hp], Ej as [q Hq].
    assert (H : forall (p q i j : nat), (p < q)%nat -> E !! p = Some i -> E !! q = Some j ->
      word_lt (digest_of ns i) (digest_of ns j)).
    { intros p' q' i' j' Hlt Hp' Hq'. apply (StronglySorted_lookup _ _ p' q' _ _ Hs Hlt); by rewrite list_lookup_fmap, ?Hp', ?Hq'. }
    destruct (lt_eq_lt_dec p q) as [[Hlt| ->]|Hlt]; [|congruence|].
    + pose proof (H _ _ _ _ Hlt Hp Hq) as Hw. rewrite Di, Dj, Hd in Hw. by apply word_lt_irrefl in Hw.
    + pose proof (H _ _ _ _ Hlt Hq Hp) as Hw. rewrite Di, Dj, Hd in Hw. by apply word_lt_irrefl in Hw.
  - intros Hd. apply StronglySorted_Sorted.
    pose proof (StronglySorted_merge_sort (external_le ns) (ids_of_class External ns)) as Hs.
    assert (Hnd : NoDup E).
    { rewrite merge_sort_Permutation. apply increasing_NoDup, ids_increasing. }
    assert (Hin : forall i, i ∈ E -> exists a, ns !! i = Some a /\ is_external a = true).
    { intros i (a & Ha & Hc)%elem_of_E%elem_of_ids. exists a. split; [done|]. by destruct a. }
    revert Hs Hnd Hin. generalize E as l. clear Hlook. induction l as [|i l IH]; intros Hs Hnd Hin; [constructor|].
    apply StronglySorted_inv in Hs as [Hs Hi]. apply NoDup_cons in Hnd as [Hni Hnd]. cbn. constructor.
    + apply IH; [done|done|]. intros j Hj. by apply Hin, list_elem_of_further.
    + apply Forall_fmap, Forall_forall. intros j Hj. cbn. apply (proj1 (Forall_forall _ _) Hi) in Hj as Hle.
      apply external_le_spec in Hle as [|[He _]]; [done|].
      destruct (Hin i ltac:(apply list_elem_of_here)) as (a & Ha & Hea).
      destruct (Hin j ltac:(by apply list_elem_of_further)) as (b & Hb & Heb).
      unfold digest_of in He. rewrite Ha, Hb in He. by pose proof (Hd _ _ _ _ Ha Hb Hea Heb He); subst.
Qed.

(** ** The order *)

Definition children_in_range : Prop := forall i m c, ns !! i = Some m -> c ∈ children m -> (c < n)%nat.
Definition acyclic : Prop := exists rank : nat -> nat, forall i m c, ns !! i = Some m -> c ∈ children m ->
  (rank c < rank i)%nat.

(** What a forest needs to have a canonical order. *)
Record orderable : Prop := {
  ord_externals : distinct_externals;
  ord_range : children_in_range;
  ord_acyclic : acyclic
}.

Lemma overflow_check : children_in_range \/ ~ children_in_range /\ exists e,
  rfor I (fun node_id =>
        let? node := rexpect (ns !! node_id) in
        match last_child (fun child_id => n <=? child_id)%nat node with
        | Some child_id => Err (NodeIdOverflow child_id n)
        | None => Ok tt
        end) = Err e.
Proof.
  assert (H : forall L, (forall i, i ∈ L -> i ∈ I) ->
    (forall i c, i ∈ L -> c ∈ children_of i -> (c < n)%nat) \/
    ~ children_in_range /\ exists e, rfor L (fun node_id =>
        let? node := rexpect (ns !! node_id) in
        match last_child (fun child_id => n <=? child_id)%nat node with
        | Some child_id => Err (NodeIdOverflow child_id n)
        | None => Ok tt
        end) = Err e).
  { induction L as [|i L IH]; intros HL; [left; intros i c Hi; by apply elem_of_nil in Hi|]. cbn [rfor].
    pose proof (HL i ltac:(apply list_elem_of_here)) as (m & Hm & _)%elem_of_ids. rewrite Hm. cbn [rexpect rbind].
    destruct (last_child _ m) as [c|] eqn:Hc; cbn [rbind].
    - right. split; [|by eexists]. intros Hr.
      assert (last_child (fun c => n <=? c)%nat m = None) as Hn; [|congruence]. apply last_child_None.
      intros c' Hc'. apply Nat.leb_gt. by eapply Hr.
    - destruct (IH ltac:(intros j Hj; by apply HL, list_elem_of_further)) as [Hr|Hr]; [left|by right].
      intros j c [->|Hj]%elem_of_cons Hcj; [|by eapply Hr]. unfold children_of in Hcj. rewrite Hm in Hcj.
      apply Nat.leb_gt. by apply (proj1 (last_child_None _ _) Hc). }
  destruct (H I ltac:(done)) as [Hr|Hr]; [left|by right]. intros i m c Hm Hc.
  destruct (decide (i ∈ I)) as [Hi|Hi]; [apply (Hr i c Hi)|apply children_of_leaf in Hi]; unfold children_of in *; rewrite Hm in *.
  - done.
  - cbn in Hi. rewrite Hi in Hc. by apply elem_of_nil in Hc.
Qed.

Lemma overflow_ok : children_in_range -> rfor I (fun node_id =>
        let? node := rexpect (ns !! node_id) in
        match last_child (fun child_id => n <=? child_id)%nat node with
        | Some child_id => Err (NodeIdOverflow child_id n)
        | None => Ok tt
        end) = Ok tt.
Proof.
  intros Hr. apply rfor_Ok. intros i (m & Hm & _)%elem_of_ids. rewrite Hm. cbn [rexpect rbind].
  assert (last_child (fun c => n <=? c)%nat m = None) as ->; [|done]. apply last_child_None.
  intros c Hc. apply Nat.leb_gt. by eapply Hr.
Qed.

(** A forest in dense order is emitted in the order it has. *)
Definition emits_prefix (S : list nat) : Prop := backward ns -> S = take (length S) I.

Lemma emits_prefix_step S x rest : emitted S -> emits_prefix S -> ready_of S = x :: rest -> emits_prefix (S ++ [x]).
Proof.
  intros Hem HP Hr Hb. specialize (HP Hb).
  assert (x ∈ ready_of S) as [[HxS Hxp] HxI]%list_elem_of_filter by (rewrite Hr; apply list_elem_of_here).
  assert (Hlt : (length S < length I)%nat).
  { destruct (decide (length S < length I)%nat) as [|Hge]; [done|]. rewrite take_ge in HP by lia. congruence. }
  apply lookup_lt_is_Some in Hlt as [y Hy]. rewrite length_app. cbn [length]. rewrite Nat.add_1_r, (take_S_r _ _ _ Hy), <- HP.
  f_equal. f_equal.
  assert (HyS : y ∉ S).
  { intros (k & Hk)%list_elem_of_lookup. assert (Hk' := lookup_lt_Some _ _ _ Hk). rewrite HP in Hk.
    apply lookup_take_Some in Hk as [Hk _]. pose proof (NoDup_lookup _ _ _ _ I_NoDup Hk Hy). lia. }
  assert (Hyr : y ∈ ready_of S).
  { apply list_elem_of_filter. split; [|by eapply list_elem_of_lookup_2]. split; [done|]. apply pend_0. intros c Hc HcI.
    rewrite HP. apply list_elem_of_lookup in HcI as [k Hk]. apply list_elem_of_lookup. exists k. apply lookup_take_Some. split; [done|].
    assert (y ∈ I) as (m & Hm & _)%elem_of_ids by (by eapply list_elem_of_lookup_2).
    unfold children_of in Hc. rewrite Hm in Hc. specialize (Hb _ _ _ Hm Hc).
    destruct (lt_eq_lt_dec k (length S)) as [[?| ->]|Hgt]; [done|simplify_eq; lia|].
    pose proof (StronglySorted_lookup _ _ _ _ _ _ (ids_increasing Internal ns) Hgt Hy Hk). lia. }
  rewrite Hr in Hyr. apply elem_of_cons in Hyr as [->|Hyrest]; [done|].
  pose proof (increasing_filter (fun i => i ∉ S /\ pend S i = 0%nat) I (ids_increasing _ _)) as Hinc.
  change (filter _ I) with (ready_of S) in Hinc. rewrite Hr in Hinc. apply StronglySorted_inv in Hinc as [_ Hinc].
  apply (proj1 (Forall_forall _ _) Hinc) in Hyrest.
  apply list_elem_of_lookup in HxI as [k Hk]. destruct (lt_eq_lt_dec k (length S)) as [[Hlt| ->]|Hgt].
  - destruct HxS. rewrite HP. apply list_elem_of_lookup. exists k. by apply lookup_take_Some.
  - by simplify_eq.
  - pose proof (StronglySorted_lookup _ _ _ _ _ _ (ids_increasing Internal ns) Hgt Hy Hk). lia.
Qed.

(** [order] lists the externals, the blocks and the internal nodes [S]. *)
Definition canonical_order (order : list nat) : Prop :=
  exists S, order = E ++ B ++ S /\ emitted S /\ emits_prefix S /\ length S = length I.

Lemma final_order_spec :
  match final_dense_node_order ns with
  | Ok order => orderable /\ canonical_order order
  | Err _ => ~ orderable
  | Panic => False
  end.
Proof.
  unfold final_dense_node_order, check_external_ids. pose proof (check_external_ids_run E None) as He. cbn [option_list app] in He.
  destruct (rfold _ None E) as [o|e|]; cbn [rbind]; [|by intros [?%externals_sorted _ _]|done].
  apply externals_sorted in He. rewrite mark_ordered. cbn [rbind]. rewrite count_all. cbn [rbind].
  destruct overflow_check as [Hr|[Hr [e ->]]]; [rewrite overflow_ok by done|by intros [_ ? _]]. cbn [rbind].
  rewrite ready_init. cbn [rbind].
  replace (mkOrderState _ _ _ _ _ _) with (state_of []) by (unfold state_of; by rewrite app_nil_r).
  destruct (order_loop_inv emits_prefix (length I) [] emits_prefix_step emitted_nil) as (S & -> & Hem & Hpre & Hready);
    [done|lia|]. cbn [rbind].
  change (os_ordered_internal_count (state_of S)) with (length S).
  destruct (Nat.eqb_spec (length S) (length I)) as [Hl|Hl]; cbn [negb].
  - split; [split; [done|done|]|by exists S]. exists (fun i => from_option Datatypes.S 0%nat (fst <$> list_find (eq i) S)).
    intros i m c Hm Hc. assert (i ∈ I) as Hi.
    { destruct (decide (i ∈ I)) as [|Hn%children_of_leaf]; [done|]. unfold children_of in Hn. rewrite Hm in Hn. cbn in Hn.
      rewrite Hn in Hc. by apply elem_of_nil in Hc. }
    rewrite <- (emitted_full S Hem Hl) in Hi. destruct (list_find_elem_of (eq i) S i Hi eq_refl) as [[k j] Hk]. rewrite Hk. cbn.
    apply list_find_Some in Hk as (Hk & <- & Hfirst).
    destruct (list_find (eq c) S) as [[k' j']|] eqn:Hk'; cbn; [|lia].
    apply list_find_Some in Hk' as (Hk' & <- & _). assert (c ∈ I) as HcI by (apply (em_internal _ Hem); by eapply list_elem_of_lookup_2).
    assert (c ∈ take k S) as (q & Hq)%list_elem_of_lookup.
    { eapply (em_order _ Hem); [done| |done]. unfold children_of. by rewrite Hm. }
    apply lookup_take_Some in Hq as [Hq Hlt]. assert (k' = q) as -> by (eapply NoDup_lookup; [apply Hem|done|done]). lia.
  - assert (Hex : exists i, i ∈ I /\ i ∉ S).
    { destruct (decide (Forall (.∈ S) I)) as [Hall|Hne].
      - rewrite Forall_forall in Hall. pose proof (emitted_length S Hem).
        assert (length I <= length S)%nat by (apply submseteq_length, NoDup_submseteq; [apply I_NoDup|exact Hall]). lia.
      - apply not_Forall_Exists in Hne; [|apply _]. by apply Exists_exists in Hne. }
    destruct Hex as (i & Hi & HiS).
    destruct (list_find_elem_of (fun node_id => Is_true (negb (default true (os_ordered (state_of S) !! node_id)))) I i Hi) as [p Hp].
    { cbn [state_of os_ordered]. unfold ordered_tab. rewrite tab_lookup by (by apply (ids_lt Internal)). cbn.
      rewrite bool_decide_false; [done|]. rewrite app_assoc, elem_of_app. intros [H|H]; [|done]. by apply internal_not_ordered in H. }
    match goal with |- context [list_find ?P ?l] => destruct (list_find P l) as [q|] eqn:Hq; [|congruence] end.
    cbn [fmap option_fmap option_map rexpect rbind]. intros [_ _ [rank Hrank]]. apply HiS.
    apply (emitted_all S Hem Hready); [|done]. exists rank. intros j c Hj Hc _. apply elem_of_ids in Hj as (m & Hm & _).
    apply (Hrank j m c Hm). unfold children_of in Hc. by rewrite Hm in Hc.
Qed.

End Order.
