(* ===== verification/ForestCorrect.v ===== *)
(** * Canonicalization and finalization are correct

    [canonicalize_parts] renumbers the nodes of a forest by a bijection into
    dense order, succeeds whenever such an order exists, never panics, and
    leaves a forest in dense order as it is.  Digests survive the renumbering. *)

From S2P Require Import Prelude Felt AdviceMap Serde Operations OpBatch Mast BatchValid BatchTheory.
From S2P Require Import BatchCorrect BlockTheory Machine Merkle Forest ForestTheory CanonOrder.

(** ** Renaming children *)

Definition map_children (f : nat -> nat) (n : MastNode) : MastNode :=
  match n with
  | NJoin n => NJoin (mkJoinNode (f (first n)) (f (second n)) (join_digest n))
  | NSplit n => NSplit (mkSplitNode (f (on_true n)) (f (on_false n)) (split_digest n))
  | NLoop n => NLoop (mkLoopNode (f (body n)) (loop_digest n))
  | NCall n => NCall (mkCallNode (f (callee n)) (is_syscall n) (call_digest n))
  | NBlock _ | NDyn _ | NExternal _ => n
  end.

Lemma children_map f n : children (map_children f n) = f <$> children n.
Proof. by destruct n. Qed.
Lemma digest_map f n : digest (map_children f n) = digest n.
Proof. by destruct n. Qed.
Lemma class_map f n : order_class (map_children f n) = order_class n.
Proof. by destruct n. Qed.
Lemma external_map f n : is_external (map_children f n) = is_external n.
Proof. by destruct n. Qed.

Lemma map_children_id f n : (forall c, c ∈ children n -> f c = c) -> map_children f n = n.
Proof.
  intros Hf. destruct n as [n|n|n|n|n|n|n]; cbn [map_children children] in *; try done;
    rewrite !Hf by (repeat first [apply list_elem_of_here|apply list_elem_of_further]); by destruct n.
Qed.

Definition empty_block (n : MastNode) : bool :=
  match n with NBlock b => match op_batches b with [] => true | _ => false end | _ => false end.

Lemma build_linked_remap `{Poseidon2} m n :
  build_linked (remap_children m (to_builder n)) =
  if empty_block n then Err EmptyBasicBlock else Ok (map_children (remap_id m) n).
Proof.
  destruct n as [n|n|n|n|n|n|n]; try done.
  - destruct n as [[|b bs] d]; done.
  - by destruct n.
  - by destruct n.
Qed.

(** ** Orders *)

Section Canon.
Context (ns : list MastNode).
Notation n := (length ns).
Notation I := (ids_of_class Internal ns).
Notation B := (ids_of_class BasicBlock ns).
Notation E := (merge_sort (external_le ns) (ids_of_class External ns)).

Record topo_order (order : list nat) : Prop := {
  to_perm : order ≡ₚ seq 0 n;
  to_classes k k' i i' a b : (k < k')%nat -> order !! k = Some i -> order !! k' = Some i' ->
    ns !! i = Some a -> ns !! i' = Some b -> (class_rank (order_class a) <= class_rank (order_class b))%nat;
  to_externals k k' i i' a b : (k < k')%nat -> order !! k = Some i -> order !! k' = Some i' ->
    ns !! i = Some a -> ns !! i' = Some b -> is_external a = true -> is_external b = true ->
    word_lt (digest a) (digest b);
  to_children k i a c : order !! k = Some i -> ns !! i = Some a -> c ∈ children a ->
    exists k', (k' < k)%nat /\ order !! k' = Some c
}.

(** The class of the node at a position of the order. *)
Lemma order_class_at S k i a : emitted ns S -> (E ++ B ++ S) !! k = Some i -> ns !! i = Some a ->
  ((k < length E)%nat /\ E !! k = Some i /\ order_class a = External) \/
  ((length E <= k < length E + length B)%nat /\ order_class a = BasicBlock) \/
  ((length E + length B <= k)%nat /\ S !! (k - length E - length B)%nat = Some i /\ order_class a = Internal).
Proof.
  intros Hem Hk Ha.
  assert (Hc : forall c, i ∈ ids_of_class c ns -> order_class a = c).
  { intros c (a' & Ha' & Hc)%elem_of_ids. congruence. }
  apply lookup_app_Some in Hk as [Hk|[Hle Hk]].
  - left. split; [by eapply lookup_lt_Some|]. split; [done|]. apply Hc, elem_of_E. by eapply list_elem_of_lookup_2.
  - right. apply lookup_app_Some in Hk as [Hk|[Hle' Hk]].
    + left. split; [apply lookup_lt_Some in Hk; lia|]. apply Hc. by eapply list_elem_of_lookup_2.
    + right. split; [lia|]. split; [done|]. apply Hc, (em_internal _ _ Hem). by eapply list_elem_of_lookup_2.
Qed.

Lemma canonical_topo order : orderable ns -> canonical_order ns order -> topo_order order.
Proof.
  intros [He Hr _] (S & -> & Hem & _ & Hl). pose proof (emitted_full ns S Hem Hl) as Hperm. split.
  - apply NoDup_Permutation; [|apply NoDup_seq|].
    + rewrite Hperm, merge_sort_Permutation. apply NoDup_app. split; [apply increasing_NoDup, ids_increasing|]. split.
      * intros i (a & Ha & Hc)%elem_of_ids [(b & Hb & Hc')%elem_of_ids|(b & Hb & Hc')%elem_of_ids]%elem_of_app; congruence.
      * apply NoDup_app. split; [apply increasing_NoDup, ids_increasing|]. split; [|apply I_NoDup].
        intros i (a & Ha & Hc)%elem_of_ids (b & Hb & Hc')%elem_of_ids; congruence.
    + intros i. rewrite Hperm, elem_of_seq, !elem_of_app, <- id_classes. lia.
  - intros k k' i i' a b Hk Hi Hi' Ha Hb.
    destruct (order_class_at S k i a Hem Hi Ha) as [(?&?&->)|[(?&->)|(?&?&->)]],
      (order_class_at S k' i' b Hem Hi' Hb) as [(?&?&->)|[(?&->)|(?&?&->)]]; cbn; lia.
  - intros k k' i i' a b Hk Hi Hi' Ha Hb Hea Heb.
    destruct (order_class_at S k i a Hem Hi Ha) as [(?&Hki&?)|[(?&Hc)|(?&?&Hc)]]; [|by destruct a|by destruct a].
    destruct (order_class_at S k' i' b Hem Hi' Hb) as [(?&Hki'&?)|[(?&Hc)|(?&?&Hc)]]; [|by destruct b|by destruct b].
    apply externals_sorted, Sorted_StronglySorted in He; [|intros x y z; apply word_lt_trans].
    apply (StronglySorted_lookup _ _ _ _ _ _ He Hk); rewrite list_lookup_fmap, ?Hki, ?Hki'; unfold digest_of; cbn; by rewrite ?Ha, ?Hb.
  - intros k i a c Hk Ha Hc.
    destruct (order_class_at S k i a Hem Hk Ha) as [(?&?&Hca)|[(?&Hca)|(Hle&HS&Hca)]];
      [destruct a; try done; by apply elem_of_nil in Hc|destruct a; try done; by apply elem_of_nil in Hc|].
    pose proof (Hr _ _ _ Ha Hc) as Hcn. apply id_classes in Hcn as [HcE|[HcB|HcI]].
    + apply list_elem_of_lookup in HcE as [p Hp]. assert (Hp' := lookup_lt_Some _ _ _ Hp). exists p. split; [lia|].
      by apply lookup_app_l_Some.
    + apply list_elem_of_lookup in HcB as [p Hp]. assert (Hp' := lookup_lt_Some _ _ _ Hp). exists (length E + p)%nat. split; [lia|].
      rewrite lookup_app_r by lia. replace (length E + p - length E)%nat with p by lia. by apply lookup_app_l_Some.
    + assert (c ∈ take (k - length E - length B) S) as (p & Hp)%list_elem_of_lookup.
      { eapply (em_order _ _ Hem); [done| |done]. unfold children_of. by rewrite Ha. }
      apply lookup_take_Some in Hp as [Hp Hlt]. exists (length E + (length B + p))%nat. split; [lia|].
      rewrite lookup_app_r by lia. replace (length E + _ - length E)%nat with (length B + p)%nat by lia.
      rewrite lookup_app_r by lia. by replace (length B + p - length B)%nat with p by lia.
Qed.

(** ** The remapping *)

Lemma remap_run order : NoDup order -> (forall i, i ∈ order -> (i < n)%nat) ->
  exists m, rfold (fun m '(new_index, old_id) => rexpect (update old_id (Some new_index) m))
      (replicate n None) (enumerate order) = @Ok MastForestError _ m /\
    length m = n /\ forall k i, order !! k = Some i -> m !! i = Some (Some k).
Proof.
  intros Hnd Hin.
  destruct (rfold_inv (E := MastForestError) (fun m '(new_index, old_id) => rexpect (update old_id (Some new_index) m))
    (fun j m => length m = n /\ forall k i, (k < j)%nat -> order !! k = Some i -> m !! i = Some (Some k))
    (enumerate order) (replicate n None)) as (m & Hm & Hlen & Hmap).
  - split; [by rewrite length_replicate|]. intros k i Hk. lia.
  - intros j [j' x] m Hj [Hlen Hmap]. rewrite enumerate_lookup in Hj. destruct (order !! j) as [x'|] eqn:Hx; [|done].
    cbn in Hj. injection Hj as <- <-. assert (x' < length m)%nat as Hlt by (rewrite Hlen; apply Hin; by eapply list_elem_of_lookup_2).
    rewrite update_Some by done. eexists. split; [done|]. rewrite length_insert. split; [done|].
    intros k i Hk Hi. destruct (decide (k = j)) as [->|Hne].
    + simplify_eq. by rewrite list_lookup_insert_eq.
    + rewrite list_lookup_insert_ne; [apply Hmap; [lia|done]|]. intros ->. apply Hne. by eapply NoDup_lookup.
  - exists m. split; [done|]. split; [done|]. intros k i Hk. apply Hmap; [|done].
    unfold enumerate. rewrite length_zip_with, length_seq, Nat.min_id. by eapply lookup_lt_Some.
Qed.

(** [m] renumbers the nodes of [ns] to [ns']. *)
Record renumbers (m : list (option nat)) (ns' : list MastNode) : Prop := {
  rn_length : length ns' = n;
  rn_lt i : (i < n)%nat -> (remap_id m i < n)%nat;
  rn_inj i j : (i < n)%nat -> (j < n)%nat -> remap_id m i = remap_id m j -> i = j;
  rn_node i a : ns !! i = Some a -> ns' !! remap_id m i = Some (map_children (remap_id m) a)
}.

Section Renumber.
Context (order : list nat) (Ht : topo_order order) (m : list (option nat)).
Context (Hm : forall k i, order !! k = Some i -> m !! i = Some (Some k)).

Lemma order_length : length order = n.
Proof. rewrite (to_perm _ Ht). apply length_seq. Qed.

Lemma order_NoDup : NoDup order.
Proof. rewrite (to_perm _ Ht). apply NoDup_seq. Qed.

Lemma order_lt i : i ∈ order <-> (i < n)%nat.
Proof. rewrite (to_perm _ Ht), elem_of_seq. lia. Qed.

Lemma remap_at k i : order !! k = Some i -> remap_id m i = k.
Proof. intros Hk. unfold remap_id, id_map_get. by rewrite (Hm _ _ Hk). Qed.

Lemma remap_pos i : (i < n)%nat -> order !! remap_id m i = Some i.
Proof. intros Hi%order_lt. apply list_elem_of_lookup in Hi as [k Hk]. by rewrite (remap_at _ _ Hk). Qed.

Lemma renumbers_order ns' : length ns' = n ->
  (forall k i a, order !! k = Some i -> ns !! i = Some a -> ns' !! k = Some (map_children (remap_id m) a)) ->
  renumbers m ns'.
Proof.
  intros Hlen Hn. split; [done| | |].
  - intros i Hi%remap_pos. apply lookup_lt_Some in Hi. by rewrite order_length in Hi.
  - intros i j Hi%remap_pos Hj%remap_pos He. rewrite He in Hi. congruence.
  - intros i a Ha. assert (i < n)%nat as Hi%remap_pos by (by eapply lookup_lt_Some). by eapply Hn.
Qed.

Lemma renumbers_dense ns' : renumbers m ns' -> dense ns'.
Proof.
  intros Hr.
  assert (Hinv : forall k a', ns' !! k = Some a' -> exists i a, order !! k = Some i /\ ns !! i = Some a /\
    a' = map_children (remap_id m) a).
  { intros k a' Ha'. assert (k < length order)%nat as Hk by (rewrite order_length, <- (rn_length _ _ Hr); by eapply lookup_lt_Some).
    apply lookup_lt_is_Some in Hk as [i Hi]. assert (i < n)%nat as Hin by (apply order_lt; by eapply list_elem_of_lookup_2).
    apply lookup_lt_is_Some in Hin as [a Ha]. exists i, a. split; [done|]. split; [done|].
    pose proof (rn_node _ _ Hr i a Ha) as Hn. rewrite (remap_at _ _ Hi) in Hn. congruence. }
  split.
  - intros k a' c' Ha' Hc'. destruct (Hinv _ _ Ha') as (i & a & Hi & Ha & ->). rewrite children_map in Hc'.
    apply list_elem_of_fmap in Hc' as (c & -> & Hc). destruct (to_children _ Ht _ _ _ _ Hi Ha Hc) as (k' & Hlt & Hk').
    by rewrite (remap_at _ _ Hk').
  - intros k k' a' b' Ha' Hb' Hlt. destruct (Hinv _ _ Ha') as (i & a & Hi & Ha & ->), (Hinv _ _ Hb') as (j & b & Hj & Hb & ->).
    rewrite !class_map. by eapply (to_classes _ Ht k k').
  - intros k k' a' b' Ha' Hb' Hlt. destruct (Hinv _ _ Ha') as (i & a & Hi & Ha & ->), (Hinv _ _ Hb') as (j & b & Hj & Hb & ->).
    rewrite !external_map, !digest_map. by eapply (to_externals _ Ht k k').
Qed.

End Renumber.

(** ** Dense forests keep their order *)

Lemma increasing_app l1 l2 : increasing l1 -> increasing l2 -> (forall x y, x ∈ l1 -> y ∈ l2 -> (x < y)%nat) ->
  increasing (l1 ++ l2).
Proof.
  induction 1 as [|x l1 Hl IH Hx]; intros H2 Hlt; [done|]. cbn. constructor.
  - apply IH; [done|]. intros y z Hy. by apply Hlt, list_elem_of_further.
  - apply Forall_app. split; [done|]. apply Forall_forall. intros y. apply Hlt, list_elem_of_here.
Qed.

Lemma seq_increasing k len : increasing (seq k len).
Proof.
  revert k. induction len as [|len IH]; intros k; [constructor|]. cbn. constructor; [apply IH|].
  apply Forall_forall. intros x Hx%elem_of_seq. lia.
Qed.

Lemma class_before c c' i j : classes_sorted ns -> (class_rank c < class_rank c')%nat ->
  i ∈ ids_of_class c ns -> j ∈ ids_of_class c' ns -> (i < j)%nat.
Proof.
  intros Hs Hc (a & Ha & <-)%elem_of_ids (b & Hb & <-)%elem_of_ids. destruct (lt_eq_lt_dec i j) as [[?| ->]|Hlt]; [done|simplify_eq; lia|].
  pose proof (Hs _ _ _ _ Hb Ha Hlt). lia.
Qed.

Lemma dense_externals_sorted : dense ns -> E = ids_of_class External ns.
Proof.
  intros [_ _ He]. eapply (StronglySorted_unique_strong (external_le ns)).
  - intros i j Hi Hj. rewrite !external_le_spec. intros [L1|[E1 L1]] [L2|[E2 L2]].
    + destruct (word_lt_irrefl (digest_of ns i)). by eapply word_lt_trans.
    + rewrite E2 in L1. by apply word_lt_irrefl in L1.
    + rewrite E1 in L2. by apply word_lt_irrefl in L2.
    + lia.
  - apply StronglySorted_merge_sort; [apply external_le_trans|apply external_le_total].
  - pose proof (ids_increasing External ns) as Hinc.
    assert (Hin : forall i, i ∈ ids_of_class External ns -> exists a, ns !! i = Some a /\ is_external a = true).
    { intros i (a & Ha & Hc)%elem_of_ids. exists a. split; [done|]. by destruct a. }
    revert Hinc Hin. generalize (ids_of_class External ns). induction l as [|x l IH]; intros Hinc Hin; [constructor|].
    apply StronglySorted_inv in Hinc as [Hinc Hx]. constructor.
    + apply IH; [done|]. intros i Hi. by apply Hin, list_elem_of_further.
    + apply Forall_forall. intros y Hy. apply external_le_spec. left.
      destruct (Hin x ltac:(apply list_elem_of_here)) as (a & Ha & Hea).
      destruct (Hin y ltac:(by apply list_elem_of_further)) as (b & Hb & Heb).
      unfold digest_of. rewrite Ha, Hb. cbn. apply (proj1 (Forall_forall _ _) Hx) in Hy. by eapply He.
  - apply merge_sort_Permutation.
Qed.

Lemma dense_order_identity order : dense ns -> orderable ns -> canonical_order ns order -> order = seq 0 n.
Proof.
  intros Hd Ho Hc. pose proof (canonical_topo _ Ho Hc) as Ht. destruct Hc as (S & -> & Hem & Hpre & Hl).
  assert (S = I) as ->.
  { rewrite (Hpre (dense_backward _ Hd)), Hl. apply firstn_all. }
  pose proof (dense_classes _ Hd) as Hs. apply increasing_ext.
  - rewrite dense_externals_sorted by done. apply increasing_app; [apply ids_increasing| |].
    + apply increasing_app; [apply ids_increasing|apply ids_increasing|]. intros x y. apply class_before; [done|cbn; lia].
    + intros x y Hx [Hy|Hy]%elem_of_app; (eapply class_before; [done| |exact Hx|exact Hy]); cbn; lia.
  - apply seq_increasing.
  - intros x. by rewrite (to_perm _ Ht).
Qed.

(** ** Canonicalization *)

Definition roots_in_range (roots : list nat) : Prop := Forall (fun r => (r < n)%nat) roots.

Lemma canonicalize_spec `{Poseidon2} roots :
  match canonicalize_parts ns roots with
  | Ok (ns', roots', m) => orderable ns /\ renumbers m ns' /\ dense ns' /\ roots' = remap_id m <$> roots /\
      (dense ns -> ns' = ns /\ roots' = roots)
  | Err _ => ~ (orderable ns /\ Forall (fun a => empty_block a = false) ns /\ roots_in_range roots)
  | Panic => False
  end.
Proof.
  unfold canonicalize_parts. pose proof (final_order_spec ns) as Hf.
  destruct (final_dense_node_order ns) as [order|e|]; cbn [rbind]; [|tauto|done]. destruct Hf as [Ho Hc].
  pose proof (canonical_topo _ Ho Hc) as Ht.
  destruct (remap_run order) as (m & -> & Hlen & Hm); [by apply order_NoDup|intros i; by apply order_lt|]. cbn [rbind].
  assert (Hout : forall i, (n <= i)%nat -> remap_id m i = i).
  { intros i Hi. unfold remap_id, id_map_get. by rewrite lookup_ge_None_2 by lia. }
  destruct (forallb _ _) eqn:Hid.
  - assert (Hrm : forall i, remap_id m i = i).
    { intros i. destruct (decide (i < n)%nat) as [Hi|Hi]; [|apply Hout; lia].
      pose proof (remap_pos order Ht m Hm i Hi) as Hp. rewrite forallb_forall in Hid.
      specialize (Hid (remap_id m i, i)). symmetry. apply Nat.eqb_eq, Hid, list_elem_of_In, list_elem_of_lookup.
      exists (remap_id m i). by rewrite enumerate_lookup, Hp. }
    assert (Hrn : renumbers m ns).
    { apply (renumbers_order order Ht m Hm); [done|]. intros k i a Hk Ha. rewrite map_children_id by done.
      by rewrite <- (remap_at order m Hm _ _ Hk), Hrm. }
    split; [done|]. split; [done|]. split; [by eapply renumbers_dense|]. split; [|done].
    rewrite <- (list_fmap_id roots) at 1. apply list_fmap_ext. intros k r _. by rewrite Hrm.
  - match goal with |- context [rfold ?F [] order] => pose proof (rfold_push (fun old_id =>
        let? node := rexpect (ns !! old_id) in build_linked (remap_children m (to_builder node))) F order []) as Hp end.
    destruct (rfold _ _ order) as [ns'|e|]; cbn [rbind]; (lapply Hp; [clear Hp; intros Hp|intros acc a; by destruct (ns !! a)]).
    2: { destruct Hp as (i & Hi & He). intros (_ & Hne & _). apply (order_lt order Ht) in Hi. apply lookup_lt_is_Some in Hi as [a Ha].
         rewrite Ha in He. cbn [rexpect rbind] in He. rewrite build_linked_remap in He.
         assert (empty_block a = false) as Hb by (eapply Forall_forall in Hne; [done|by eapply list_elem_of_lookup_2]).
         by rewrite Hb in He. }
    2: { destruct Hp as (i & Hi & He). apply (order_lt order Ht) in Hi. apply lookup_lt_is_Some in Hi as [a Ha].
         rewrite Ha in He. cbn [rexpect rbind] in He. rewrite build_linked_remap in He. by destruct (empty_block a). }
    destruct Hp as (bs & -> & Hbs). cbn [app].
    assert (Hrn : renumbers m bs).
    { apply (renumbers_order order Ht m Hm).
      - rewrite <- (Forall2_length _ _ _ Hbs). by apply order_length.
      - intros k i a Hk Ha. destruct (Forall2_lookup_l _ _ _ _ _ Hbs Hk) as (b & Hb & He).
        rewrite Ha in He. cbn [rexpect rbind] in He. rewrite build_linked_remap in He.
        destruct (empty_block a); [done|]. by injection He as <-. }
    match goal with |- context [rfold ?F [] roots] => pose proof (rfold_push (fun root_id =>
        get_or (id_map_get m root_id) (NodeIdOverflow root_id n)) F roots []) as Hr end.
    destruct (rfold _ _ roots) as [rs|e|]; cbn [rbind]; (lapply Hr; [clear Hr; intros Hr|done]).
    2: { destruct Hr as (r & Hr & He). intros (_ & _ & Hrr). apply (proj1 (Forall_forall _ _) Hrr) in Hr.
         pose proof (remap_pos order Ht m Hm r Hr) as Hp. unfold id_map_get in He. by rewrite (Hm _ _ Hp) in He. }
    2: { destruct Hr as (r & Hr & He). by destruct (id_map_get m r). }
    destruct Hr as (rs' & -> & Hrs). cbn [app].
    assert (rs' = remap_id m <$> roots) as ->.
    { symmetry. apply list_eq_Forall2, Forall2_fmap_l. eapply Forall2_impl; [exact Hrs|]. cbn. intros r r'.
      unfold remap_id. destruct (id_map_get m r); cbn; congruence. }
    split; [done|]. split; [done|]. split; [by eapply renumbers_dense|]. split; [done|].
    intros Hd. exfalso. pose proof (dense_order_identity order Hd Ho Hc) as ->.
    assert (forallb (fun '(index, old_id) => (old_id =? index)%nat) (enumerate (seq 0 n)) = true) as Ht'; [|congruence].
    apply forallb_forall. intros [i j] Hij%list_elem_of_In%elem_of_enumerate. cbn in Hij. apply lookup_seq in Hij as [-> _].
    by apply Nat.eqb_eq.
Qed.

End Canon.

(** ** Finalized forests are well formed

    [from_parts_with_id_map] accepts exactly the parts that can be put into
    dense order and whose digests and batches are valid; what it returns is the
    renumbered forest, well formed for the executor, with digests that are the
    hashes of the nodes.  A forest made with [DenseMastForestBuilder] from
    builders without forced digests is always accepted. *)

(** ** Blocks *)

Definition node_sized (n : MastNode) : Prop :=
  match n with NBlock b => Forall sized (op_batches b) | _ => True end.
Definition block_valid (n : MastNode) : Prop :=
  match n with NBlock b => validate_batch_invariants (op_batches b) = Ok tt | _ => True end.

Lemma rfor_decides {E A} (f : A -> res E unit) (P : A -> Prop) l :
  (forall a, a ∈ l -> match f a with Ok _ => P a | Err _ => ~ P a | Panic => False end) ->
  match rfor l f with Ok _ => Forall P l | Err _ => ~ Forall P l | Panic => False end.
Proof.
  induction l as [|a l IH]; intros Hf; cbn [rfor]; [by constructor|].
  pose proof (Hf a ltac:(apply list_elem_of_here)) as Ha. destruct (f a); cbn [rbind]; [|by intros [??]%Forall_cons|done].
  specialize (IH ltac:(intros b Hb; by apply Hf, list_elem_of_further)).
  destruct (rfor l f); [by constructor|by intros [??]%Forall_cons|done].
Qed.

Lemma Forall_enumerate {A} (P : A -> Prop) l : Forall (fun p => P p.2) (enumerate l) <-> Forall P l.
Proof.
  rewrite !Forall_lookup. split.
  - intros Hp i a Ha. apply (Hp i (i, a)). by rewrite enumerate_lookup, Ha.
  - intros Hp i p Hi. rewrite enumerate_lookup in Hi. destruct (l !! i) as [a|] eqn:Ha; [|done]. cbn in Hi. simplify_eq. by apply (Hp i).
Qed.

Lemma validate_blocks_spec f : Forall node_sized (nodes f) ->
  match validate_basic_block_invariants f with
  | Ok _ => Forall block_valid (nodes f)
  | Err _ => ~ Forall block_valid (nodes f)
  | Panic => False
  end.
Proof.
  intros Hs. unfold validate_basic_block_invariants.
  match goal with |- context [rfor ?l ?f] => pose proof (rfor_decides f (fun p => block_valid p.2) l) as Hr end.
  lapply Hr; [clear Hr; intros Hr|].
  - destruct (rfor _ _); [by apply Forall_enumerate|by rewrite Forall_enumerate in Hr|done].
  - intros [i a] Hp%elem_of_enumerate. cbn [fst snd] in *. destruct a as [b| | | | | |]; try done.
    eapply Forall_lookup_1 in Hp; [|exact Hs]. pose proof (validators_safe _ Hp) as Hv. cbn [block_valid].
    by destruct (validate_batch_invariants (op_batches b)) as [[]|e|].
Qed.

(** ** Bounds *)

Lemma parts_bounds_spec ns roots :
  match validate_mast_forest_parts_bounds ns roots with
  | Ok _ => Z.of_nat (length ns) <= MAX_NODES /\ roots_in_range ns roots
  | Err _ => ~ (Z.of_nat (length ns) <= MAX_NODES /\ roots_in_range ns roots)
  | Panic => False
  end.
Proof.
  unfold validate_mast_forest_parts_bounds. destruct (Z.ltb_spec MAX_NODES (Z.of_nat (length ns))); [lia|].
  match goal with |- context [rfor roots ?f] => pose proof (rfor_decides f (fun r => (r < length ns)%nat) roots) as Hr end.
  lapply Hr; [clear Hr; intros Hr|].
  - destruct (rfor roots _); [done| |done]. by intros [??].
  - intros r _. destruct (Nat.leb_spec (length ns) r); lia.
Qed.

(** ** Renumbering *)

Section Renumber.
Context `{Poseidon2} (ns ns' : list MastNode) (m : list (option nat)) (Hr : renumbers ns m ns').

Lemma node_hash_map look f n : node_hash look (map_children f n) = node_hash (fun c => look (f c)) n.
Proof. by destruct n. Qed.

(** Every node of the new forest is a renamed old one. *)
Lemma renumbered k a' : ns' !! k = Some a' ->
  exists i a, ns !! i = Some a /\ remap_id m i = k /\ a' = map_children (remap_id m) a.
Proof.
  intros Hk. assert (Hlt : (k < length ns)%nat) by (rewrite <- (rn_length _ _ _ Hr); by eapply lookup_lt_Some).
  assert (Hsurj : k ∈ remap_id m <$> seq 0 (length ns)).
  { assert (remap_id m <$> seq 0 (length ns) ≡ₚ seq 0 (length ns)) as ->; [|apply elem_of_seq; lia].
    apply submseteq_length_Permutation; [|by rewrite length_fmap]. apply NoDup_submseteq.
    - apply NoDup_fmap_2_strong; [|apply NoDup_seq]. intros x y Hx%elem_of_seq Hy%elem_of_seq. apply (rn_inj _ _ _ Hr); lia.
    - intros x (i & -> & Hi%elem_of_seq)%list_elem_of_fmap. apply elem_of_seq. pose proof (rn_lt _ _ _ Hr i). lia. }
  apply list_elem_of_fmap in Hsurj as (i & -> & Hi%elem_of_seq). destruct (lookup_lt_is_Some_2 ns i) as [a Ha]; [lia|].
  exists i, a. split; [done|]. split; [done|]. pose proof (rn_node _ _ _ Hr i a Ha). congruence.
Qed.

Lemma renumbered_Forall (P : MastNode -> Prop) : (forall f n, P (map_children f n) <-> P n) -> Forall P ns' <-> Forall P ns.
Proof.
  intros HP. rewrite !Forall_lookup. split.
  - intros Hall i a Ha. apply (HP (remap_id m)). eapply Hall. by apply (rn_node _ _ _ Hr).
  - intros Hall k a' (i & a & Ha & _ & ->)%renumbered. apply HP. by eapply Hall.
Qed.

Lemma renumbered_digests : children_in_range ns -> digests_ok ns' <-> digests_ok ns.
Proof.
  intros Hrange.
  assert (Hlook : forall c, (c < length ns)%nat -> (digest <$> ns') !! remap_id m c = (digest <$> ns) !! c).
  { intros c [a Ha]%lookup_lt_is_Some. rewrite !list_lookup_fmap, (rn_node _ _ _ Hr c a Ha), Ha. cbn. by rewrite digest_map. }
  assert (Hhash : forall i a, ns !! i = Some a ->
    node_hash (fun c => (digest <$> ns') !! c) (map_children (remap_id m) a) = node_hash (fun c => (digest <$> ns) !! c) a).
  { intros i a Ha. rewrite node_hash_map. apply node_hash_ext. intros c Hc. apply Hlook. by eapply Hrange. }
  split; intros [_ Hd]; (split; [by rewrite length_fmap|]).
  - intros i a Ha. rewrite <- (Hhash i a Ha), <- Hlook by (by eapply lookup_lt_Some). apply Hd. by apply (rn_node _ _ _ Hr).
  - intros k a' (i & a & Ha & <- & ->)%renumbered. rewrite (Hhash i a Ha), Hlook by (by eapply lookup_lt_Some). by apply Hd.
Qed.

End Renumber.

(** ** From parts *)

(** What the parts of a forest need. *)
Record parts_ok `{Poseidon2} (ns : list MastNode) (roots : list nat) : Prop := {
  po_count : Z.of_nat (length ns) <= MAX_NODES;
  po_roots : roots_in_range ns roots;
  po_orderable : orderable ns;
  po_blocks : Forall block_valid ns;
  po_digests : digests_ok ns
}.

(** A forest the executor and the serializer can work with. *)
Record forest_valid `{Poseidon2} (f : MastForest) : Prop := {
  fv_wf : forest_wf f;
  fv_count : Z.of_nat (length (nodes f)) <= MAX_NODES;
  fv_dense : dense (nodes f);
  fv_blocks : Forall block_valid (nodes f);
  fv_digests : digests_ok (nodes f)
}.

Definition built_node (n : MastNode) : Prop := node_sized n /\ empty_block n = false.

Lemma built_map f n : built_node (map_children f n) <-> built_node n.
Proof. by destruct n. Qed.
Lemma block_valid_map f n : block_valid (map_children f n) <-> block_valid n.
Proof. by destruct n. Qed.

Lemma dense_wf f : dense (nodes f) -> Forall built_node (nodes f) -> roots_in_range (nodes f) (roots f) -> forest_wf f.
Proof.
  intros [Hb _ _] Hbuilt Hr. split; [|done]. apply Forall_lookup. intros i n Hn. split.
  - apply Forall_forall. intros c Hc. pose proof (Hb _ _ _ Hn Hc). apply lookup_lt_Some in Hn. lia.
  - pose proof (Forall_lookup_1 _ _ _ _ Hbuilt Hn) as [_ He]. destruct n as [b| | | | | |]; try done. cbn in He. by destruct (op_batches b).
Qed.

Lemma from_parts_spec `{Poseidon2} ns rs am : Forall built_node ns ->
  match from_parts_with_id_map ns rs am with
  | Ok (f, m) => parts_ok ns rs /\ forest_valid f /\ renumbers ns m (nodes f) /\
      roots f = remap_id m <$> rs /\ advice_map f = am /\ (dense ns -> f = mkMastForest ns rs am)
  | Err _ => ~ parts_ok ns rs
  | Panic => False
  end.
Proof.
  intros Hbuilt. unfold from_parts_with_id_map. pose proof (parts_bounds_spec ns rs) as Hbd.
  destruct (validate_mast_forest_parts_bounds ns rs) as [[]|e|]; cbn [rbind]; [|by intros [? ? _ _ _]; tauto|done].
  destruct Hbd as [Hcount Hroots]. pose proof (canonicalize_spec ns rs) as Hc.
  assert (Hne : Forall (fun a => empty_block a = false) ns) by (eapply Forall_impl; [exact Hbuilt|]; by intros a [_ ?]).
  destruct (canonicalize_parts ns rs) as [[[ns' rs'] m]|e|]; cbn [rbind]; [|by intros [_ _ Ho _ _]; tauto|done].
  destruct Hc as (Ho & Hr & Hd & -> & Hid). rewrite (proj2 (validate_dense_iff ns') Hd). cbn [rbind].
  assert (Hbuilt' : Forall built_node ns') by (apply (renumbered_Forall ns ns' m Hr); [apply built_map|done]).
  unfold forest_validate. pose proof (validate_blocks_spec (mkMastForest ns' (remap_id m <$> rs) am)) as Hv. cbn [nodes] in Hv.
  lapply Hv; [clear Hv; intros Hv|eapply Forall_impl; [exact Hbuilt'|]; by intros a [? _]].
  pose proof (renumbered_Forall ns ns' m Hr block_valid block_valid_map) as Hbv.
  destruct (validate_basic_block_invariants _) as [[]|e|]; cbn [rbind]; [|by intros [_ _ _ ? _]; tauto|done].
  pose proof (validate_node_hashes_spec (mkMastForest ns' (remap_id m <$> rs) am)) as Hh. cbn [nodes] in Hh.
  pose proof (renumbered_digests ns ns' m Hr (ord_range _ Ho)) as Hdg.
  destruct (validate_node_hashes _) as [[]|e|]; cbn [rbind]; [|intros [_ _ _ _ ?]; apply Hh; split; [apply Hd|tauto]|done].
  destruct Hh as [_ Hh]. split; [split; tauto|]. split; [|split; [done|split; [done|split; [done|]]]].
  - split; cbn [nodes]; [|by rewrite (rn_length _ _ _ Hr)|done|done|done]. apply dense_wf; cbn [nodes roots]; [done|done|].
    unfold roots_in_range. rewrite (rn_length _ _ _ Hr). apply Forall_fmap. eapply Forall_impl; [exact Hroots|]. cbn. intros r. apply (rn_lt _ _ _ Hr).
  - intros Hdn. destruct (Hid Hdn) as [-> ->]. done.
Qed.

(** ** The builder *)

Lemma layout_sized gs : batch_wf gs -> sized (layout gs).
Proof.
  intros Hgs. pose proof (bw_width gs Hgs). split.
  - by apply length_indptr.
  - cbn [layout ob_padding]. rewrite length_app, length_pads, length_replicate. slot_lia.
  - cbn [layout ob_groups]. rewrite length_app, length_codes, length_replicate. slot_lia.
Qed.

Lemma batch_ops_valid ops bs : batch_ops ops = Some bs ->
  validate_batch_invariants bs = Ok tt /\ Forall sized bs /\ (bs = [] -> ops = []).
Proof.
  intros Hb. destruct (batch_ops_layout ops) as (gss & Hgss & Hwf & Hfull & _ & Hne). rewrite Hb in Hgss.
  apply (inj Some) in Hgss as ->. split; [by apply validate_layouts|]. split.
  - apply Forall_fmap. eapply Forall_impl; [exact Hwf|]. intros gs. apply layout_sized.
  - intros He%fmap_nil_inv. by apply Hne.
Qed.

(** A builder that computes the digest of its node. *)
Definition unforced (b : MastNodeBuilder) : Prop :=
  match b with
  | BBasicBlock (Raw _) None | BCall _ _ None | BDyn _ None | BExternal _ | BJoin _ _ None | BLoop _ None | BSplit _ _ None => True
  | _ => False
  end.

Record builder_inv `{Poseidon2} (s : DenseMastForestBuilder) : Prop := {
  bi_built : Forall built_node (db_nodes s);
  bi_blocks : Forall block_valid (db_nodes s);
  bi_backward : backward (db_nodes s);
  bi_digests : digests_ok (db_nodes s);
  bi_roots : roots_in_range (db_nodes s) (db_roots s)
}.

Section Builder.
Context `{Poseidon2}.

Lemma builder_build_spec ns b : unforced b ->
  rok (builder_build ns b) (fun n => built_node n /\ block_valid n /\ (forall c, c ∈ children n -> (c < length ns)%nat) /\
    node_hash (fun c => (digest <$> ns) !! c) n = Some (digest n)).
Proof.
  assert (Hchild : forall id, rok (child_node ns id) (fun n => ns !! id = Some n)).
  { intros id. unfold child_node. by destruct (ns !! id). }
  assert (Hlt : forall id n, ns !! id = Some n -> (id < length ns)%nat /\ (digest <$> ns) !! id = Some (digest n)).
  { intros id n Hn. split; [by eapply lookup_lt_Some|]. by rewrite list_lookup_fmap, Hn. }
  destruct b as [[ops|bs] [d|]|c sys [d|]|dy [d|]|d|l r [d|]|bd [d|]|t f [d|]]; try done; intros _; cbn [builder_build].
  - destruct ops as [|op ops]; [done|]. cbn [build_basic_block]. unfold batch_and_hash_ops.
    destruct (batch_ops (op :: ops)) as [bs|] eqn:Hb.
    + cbn. destruct (batch_ops_valid _ _ Hb) as (Hv & Hs & He). repeat split; try done; [|intros c Hc; by apply elem_of_nil in Hc].
      cbn. destruct bs; [|done]. by specialize (He eq_refl).
    + destruct (batch_ops_layout (op :: ops)) as (gss & Hgss & _). congruence.
  - eapply rok_bind; [apply Hchild|]. intros n [Hn Hd]%Hlt. cbn. repeat split; [|by rewrite Hd].
    intros x ->%list_elem_of_singleton. done.
  - cbn. repeat split; try done. intros c Hc. by apply elem_of_nil in Hc.
  - cbn. repeat split; try done. intros c Hc. by apply elem_of_nil in Hc.
  - eapply rok_bind; [apply Hchild|]. intros n [Hn Hd]%Hlt. eapply rok_bind; [apply Hchild|]. intros n' [Hn' Hd']%Hlt.
    cbn. repeat split; [|by rewrite Hd; cbn; rewrite Hd'].
    intros x [->|[->|Hx]%elem_of_cons]%elem_of_cons; [done|done|by apply elem_of_nil in Hx].
  - eapply rok_bind; [apply Hchild|]. intros n [Hn Hd]%Hlt. cbn. repeat split; [|by rewrite Hd].
    intros x ->%list_elem_of_singleton. done.
  - eapply rok_bind; [apply Hchild|]. intros n [Hn Hd]%Hlt. eapply rok_bind; [apply Hchild|]. intros n' [Hn' Hd']%Hlt.
    cbn. repeat split; [|by rewrite Hd; cbn; rewrite Hd'].
    intros x [->|[->|Hx]%elem_of_cons]%elem_of_cons; [done|done|by apply elem_of_nil in Hx].
Qed.

Lemma builder_inv_new : builder_inv builder_new.
Proof. split; [constructor|constructor|by intros i|split; [done|by intros i]|constructor]. Qed.

Lemma push_node_inv s b : builder_inv s -> unforced b ->
  rok (push_node s b) (fun '(id, s') => builder_inv s' /\ id = length (db_nodes s)).
Proof.
  intros [Hbt Hbl Hbw Hd Hr] Hu. unfold push_node. eapply rok_bind; [by apply builder_build_spec|].
  intros n (H1 & H2 & H3 & H4). destruct (_ <=? _); [done|]. cbn. split; [|done]. split; cbn [db_nodes db_roots].
  - apply Forall_app. split; [done|by apply Forall_singleton].
  - apply Forall_app. split; [done|by apply Forall_singleton].
  - by apply backward_snoc.
  - unfold digests_ok in *. rewrite fmap_app. cbn [fmap list_fmap].
    pose proof (is_hash_table_snoc _ _ n Hd Hbw H3) as Hs. rewrite H4 in Hs. by apply Hs.
  - unfold roots_in_range in *. eapply Forall_impl; [exact Hr|]. cbn. intros r. rewrite length_app. lia.
Qed.

Lemma mark_root_inv s r s' : builder_inv s -> mark_root s r = Some s' -> builder_inv s'.
Proof.
  intros [Hbt Hbl Hbw Hd Hr]. unfold mark_root. destruct (Nat.ltb_spec r (length (db_nodes s))); [|done].
  intros [= <-]. destruct (bool_decide _); split; cbn [db_nodes db_roots]; try done.
  apply Forall_app. split; [done|by apply Forall_singleton].
Qed.

(** What can be done with a builder. *)
Inductive built : DenseMastForestBuilder -> Prop :=
| built_new : built builder_new
| built_push s b id s' : built s -> unforced b -> push_node s b = Ok (id, s') -> built s'
| built_root s r s' : built s -> mark_root s r = Some s' -> built s'.

Lemma built_inv s : built s -> builder_inv s.
Proof.
  induction 1 as [|s b id s' _ IH Hu Hp|s r s' _ IH Hm].
  - apply builder_inv_new.
  - pose proof (push_node_inv s b IH Hu) as Hok. rewrite Hp in Hok. by destruct Hok.
  - by eapply mark_root_inv.
Qed.

Lemma built_parts s : built s -> Z.of_nat (length (db_nodes s)) <= MAX_NODES -> distinct_externals (db_nodes s) ->
  parts_ok (db_nodes s) (db_roots s).
Proof.
  intros [Hbt Hbl Hbw Hd Hr]%built_inv Hc He. split; try done. split; [done| |].
  - intros i n c Hn Hcn. pose proof (Hbw _ _ _ Hn Hcn). apply lookup_lt_Some in Hn. lia.
  - exists id. intros i n c. apply Hbw.
Qed.

End Builder.
