(* ===== verification/ForestWire.v ===== *)
(** * The wire format of MAST forests

    core/src/mast/serialization (mod.rs, layout.rs, info.rs, resolved.rs) and
    core/src/mast/untrusted.rs: writing a forest with or without its node
    hashes, scanning the layout of a payload, resolving digests, materializing
    the forest, and validating an untrusted one.

    A [usize] is a [Z] with the overflow checks of the source.  [None] in the
    writer is a panic.  Log messages and caller locations are not modelled, and
    reserving memory succeeds. *)

From S2P Require Import Prelude Felt AdviceMap Serde Operations OpSerde OpBatch Mast BatchValid.
From S2P Require Import BlockSerde Machine Merkle Forest.

(** ** Node entries *)

Inductive MastNodeEntry :=
| EJoin (left_child_id right_child_id : Z)
| ESplit (if_branch_id else_branch_id : Z)
| ELoop (body_id : Z)
| EBlock (ops_offset : Z)
| ECall (callee_id : Z)
| ESysCall (callee_id : Z)
| EDyn
| EDyncall
| EExternal.

Definition SERIALIZED_SIZE : Z := 8.

Definition entry_new (mast_node : MastNode) (ops_offset : Z) : MastNodeEntry :=
  match mast_node with
  | NBlock _ => EBlock ops_offset
  | NJoin n => EJoin (Z.of_nat (first n)) (Z.of_nat (second n))
  | NSplit n => ESplit (Z.of_nat (on_true n)) (Z.of_nat (on_false n))
  | NLoop n => ELoop (Z.of_nat (body n))
  | NCall n => if is_syscall n then ESysCall (Z.of_nat (callee n)) else ECall (Z.of_nat (callee n))
  | NDyn n => if is_dyncall n then EDyncall else EDyn
  | NExternal _ => EExternal
  end.

Definition discriminant (e : MastNodeEntry) : Z :=
  match e with
  | EJoin _ _ => 0 | ESplit _ _ => 1 | ELoop _ => 2 | EBlock _ => 3 | ECall _ => 4
  | ESysCall _ => 5 | EDyn => 6 | EDyncall => 7 | EExternal => 8
  end.

(** The assertions that both values fit in 30 bits. *)
Definition encode_u32_pair (left_value right_value : Z) : option Z :=
  if (left_value <? 2 ^ 30) && (right_value <? 2 ^ 30)
  then Some (Z.lor (Z.shiftl left_value 30) right_value) else None.

Definition entry_payload (e : MastNodeEntry) : option Z :=
  match e with
  | EJoin l r => encode_u32_pair l r
  | ESplit t f => encode_u32_pair t f
  | ELoop x | EBlock x | ECall x | ESysCall x => Some x
  | EDyn | EDyncall | EExternal => Some 0
  end.

Definition entry_write (e : MastNodeEntry) : option (list Z) :=
  payload ← entry_payload e;
  Some (write_u64 (Z.lor (Z.shiftl (discriminant e) 60) payload)).

Definition decode_u32_pair (payload : Z) : Z * Z :=
  (wrap32 (Z.shiftr payload 30), wrap32 (Z.land payload 1073741823)).

Definition decode_u32_payload (payload : Z) : DR Z :=
  if payload <=? U32_MAX then Ok payload else Err (InvalidValue "Invalid payload: expected to fit in u32").

Definition entry_decode (value : Z) : DR MastNodeEntry :=
  let discriminant := Z.shiftr value 60 in
  let payload := Z.land value 1152921504606846975 in
  match discriminant with
  | 0 => let '(l, r) := decode_u32_pair payload in Ok (EJoin l r)
  | 1 => let '(t, f) := decode_u32_pair payload in Ok (ESplit t f)
  | 2 => let? x := decode_u32_payload payload in Ok (ELoop x)
  | 3 => let? x := decode_u32_payload payload in Ok (EBlock x)
  | 4 => let? x := decode_u32_payload payload in Ok (ECall x)
  | 5 => let? x := decode_u32_payload payload in Ok (ESysCall x)
  | 6 => Ok EDyn
  | 7 => Ok EDyncall
  | 8 => Ok EExternal
  | _ => Err (InvalidValue "Invalid tag for MAST node")
  end.

Definition entry_read {R} `{ByteReader R} : DM R MastNodeEntry :=
  let! value := read_u64 in lift_res (entry_decode value).

Definition from_u32_with_node_count (id node_count : Z) : DR MastNodeId :=
  if id <? node_count then Ok (Z.to_nat id) else Err (InvalidValue "Invalid deserialized MAST node ID").

Definition try_into_mast_node_builder (e : MastNodeEntry) (node_count : Z) (node_data : list Z) (d : Word) :
    DR MastNodeBuilder :=
  match e with
  | EBlock ops_offset =>
      let? op_batches := decode_operations node_data ops_offset in
      Ok (BBasicBlock (Batched op_batches) (Some d))
  | EJoin l r =>
      let? left_child := from_u32_with_node_count l node_count in
      let? right_child := from_u32_with_node_count r node_count in
      Ok (BJoin left_child right_child (Some d))
  | ESplit t f =>
      let? if_branch := from_u32_with_node_count t node_count in
      let? else_branch := from_u32_with_node_count f node_count in
      Ok (BSplit if_branch else_branch (Some d))
  | ELoop x => let? body_id := from_u32_with_node_count x node_count in Ok (BLoop body_id (Some d))
  | ECall x => let? callee_id := from_u32_with_node_count x node_count in Ok (BCall callee_id false (Some d))
  | ESysCall x => let? callee_id := from_u32_with_node_count x node_count in Ok (BCall callee_id true (Some d))
  | EDyn => Ok (BDyn false (Some d))
  | EDyncall => Ok (BDyn true (Some d))
  | EExternal => Ok (BExternal d)
  end.

(** ** Advice maps *)

Definition write_advice_map (m : AdviceMap) : list Z :=
  write_usize (Z.of_nat (size m)) ++ write_many (map_iter m).

Definition read_advice_map {R} `{ByteReader R} : DM R (AdviceMap) :=
  let! count := read_usize in
  let! entries := read_times (Z.to_nat count) (read_from (T := Word * list Felt)) in
  ret (foldl (fun map '(key, values) => <[key := values]> map) ∅ entries).

(** ** Writing *)

(** [b"MAST"]. *)
Definition MAGIC : list Z := [77; 65; 83; 84].
Definition FLAG_HASHLESS : Z := 2.
Definition FLAGS_RESERVED_MASK : Z := 253.
Definition VERSION : list Z := [0; 0; 4].

(** The four buffers filled in the loop over the nodes. *)
Record WriteState := mkWriteState {
  ws_node_data : list Z;
  ws_entries : list MastNodeEntry;
  ws_external_digests : list Word;
  ws_node_hashes : list Word
}.

Definition write_node (hashless : bool) (st : option WriteState) (mast_node : MastNode) : option WriteState :=
  st ← st;
  block ← match mast_node with NBlock b => encode_basic_block b | _ => Some [] end;
  let ops_offset := match mast_node with
                    | NBlock _ => wrap32 (Z.of_nat (length (ws_node_data st)))
                    | _ => 0
                    end in
  Some (mkWriteState (ws_node_data st ++ block) (ws_entries st ++ [entry_new mast_node ops_offset])
          (if is_external mast_node then ws_external_digests st ++ [digest mast_node]
           else ws_external_digests st)
          (if negb (is_external mast_node) && negb hashless then ws_node_hashes st ++ [digest mast_node]
           else ws_node_hashes st)).

(** [take_while(is_external).count()]. *)
Fixpoint count_while_external (l : list MastNode) : nat :=
  match l with
  | [] => 0
  | n :: l => if is_external n then S (count_while_external l) else 0
  end.

Definition write_into_with_options (f : MastForest) (hashless : bool) : option (list Z) :=
  match validate_dense_node_order (nodes f) with
  | Ok _ =>
      let node_count := length (nodes f) in
      let external_node_count := count_while_external (nodes f) in
      let internal_node_count := (node_count - external_node_count)%nat in
      st ← foldl (write_node hashless) (Some (mkWriteState [] [] [] [])) (nodes f);
      entries ← mapM entry_write (ws_entries st);
      Some (write_bytes MAGIC ++ write_u8 (if hashless then FLAG_HASHLESS else 0) ++ write_bytes VERSION
            ++ write_usize (Z.of_nat internal_node_count) ++ write_usize (Z.of_nat external_node_count)
            ++ write_into ((fun r => mkU32 (Z.of_nat r)) <$> roots f)
            ++ write_into (mkU8 <$> ws_node_data st)
            ++ mjoin entries
            ++ (ws_external_digests st ≫= write_into)
            ++ (if hashless then [] else ws_node_hashes st ≫= write_into)
            ++ write_advice_map (advice_map f))
  | _ => None
  end.

(** ** The tracking reader *)

Record TrackingReader (R : Type) := mkTrackingReader {
  tr_inner : R;
  tr_offset : Z;
  tr_recorded : option (list Z)
}.
Arguments mkTrackingReader {R}.
Arguments tr_inner {R}.
Arguments tr_offset {R}.
Arguments tr_recorded {R}.

Section Tracking.
Context {R : Type} `{BR : ByteReader R}.

Definition tracking_new (inner : R) : TrackingReader R := mkTrackingReader inner 0 None.
Definition tracking_new_recording (inner : R) : TrackingReader R := mkTrackingReader inner 0 (Some []).
Definition into_recorded (t : TrackingReader R) : list Z := default [] (tr_recorded t).

Definition tr_on_inner {A} (m : DM R A) : DM (TrackingReader R) A :=
  fun t => let '(r, i) := m (tr_inner t) in (r, mkTrackingReader i (tr_offset t) (tr_recorded t)).

Definition advance_offset (len : Z) : DM (TrackingReader R) unit :=
  fun t =>
    match checked_add (tr_offset t) len with
    | Some offset => (Ok tt, mkTrackingReader (tr_inner t) offset (tr_recorded t))
    | None => (Err (InvalidValue "offset overflow"), t)
    end.

Definition record_slice (slice : list Z) : DM (TrackingReader R) unit :=
  modify (fun t => mkTrackingReader (tr_inner t) (tr_offset t) ((fun rec => rec ++ slice) <$> tr_recorded t)).

#[export] Instance tracking_reader : ByteReader (TrackingReader R) := {|
  read_u8 :=
    let! byte := tr_on_inner read_u8 in
    do! advance_offset 1;
    do! record_slice [byte];
    ret byte;
  peek_u8 t := peek_u8 (tr_inner t);
  read_slice len :=
    let! slice := tr_on_inner (read_slice len) in
    do! advance_offset len;
    do! record_slice slice;
    ret slice;
  read_array n :=
    let! array := tr_on_inner (read_array n) in
    do! advance_offset (Z.of_nat n);
    do! record_slice array;
    ret array;
  check_eor t := check_eor (tr_inner t);
  has_more_bytes t := has_more_bytes (tr_inner t);
  max_alloc t := max_alloc (tr_inner t)
|}.

End Tracking.

(** ** The header and the layout *)

Definition is_hashless_flag (flags : Z) : bool := negb (Z.land flags FLAG_HASHLESS =? 0).

Record MastForestHeader := mkMastForestHeader {
  hd_flags : Z;
  hd_node_count : Z;
  hd_internal_node_count : Z;
  hd_external_node_count : Z;
  hd_roots_count : Z;
  hd_roots_offset : Z;
  hd_basic_block_len : Z;
  hd_external_digests_len : Z;
  hd_node_entries_len : Z;
  hd_core_tail_len : Z
}.

Record ForestLayout := mkForestLayout {
  ly_node_count : Z;
  ly_internal_node_count : Z;
  ly_external_node_count : Z;
  ly_roots_count : Z;
  ly_roots_offset : Z;
  ly_basic_block_offset : Z;
  ly_basic_block_len : Z;
  ly_node_entry_offset : Z;
  ly_external_digest_offset : Z;
  ly_node_hash_offset : option Z;
  ly_advice_map_offset : Z
}.

Definition overflow {A} (o : option A) (what : string) : DR A := get_or o (InvalidValue what).

Section Layout.
Context {R : Type} `{BR : ByteReader R}.

Definition validate_budgeted_count (count element_size : Z) (label : string) : DM R unit :=
  let! max_count := gets (fun r => max_alloc r element_size) in
  if max_count <? count then fail (InvalidValue label) else ret tt.

Definition read_and_validate_header : DM R (Z * list Z) :=
  let! magic := read_array 4 in
  if negb (bool_decide (magic = MAGIC)) then fail (InvalidValue "Invalid magic bytes")
  else
    let! flags := read_u8 in
    let! version := read_array 3 in
    if negb (bool_decide (version = VERSION)) then fail (InvalidValue "Unsupported version")
    else if negb (Z.land flags FLAGS_RESERVED_MASK =? 0)
    then fail (InvalidValue "Unknown flags set in MAST header")
    else ret (flags, version).

End Layout.

(** [MastForestHeader::read_from]. *)
Definition header_read_from {R} `{ByteReader R} (flags : Z) : DM (TrackingReader R) MastForestHeader :=
  let! internal_node_count := read_usize in
  let! external_node_count := read_usize in
  let! node_count := lift_res (overflow (checked_add internal_node_count external_node_count) "node count overflow") in
  if MAX_NODES <? node_count then fail (InvalidValue "node count exceeds maximum allowed")
  else
    do! validate_budgeted_count node_count SERIALIZED_SIZE "node count";
    do! validate_budgeted_count external_node_count WORD_SERIALIZED_BYTES "external node count";
    do! (if is_hashless_flag flags then ret tt
         else validate_budgeted_count internal_node_count WORD_SERIALIZED_BYTES "internal node count");
    let! roots_count := read_usize in
    do! validate_budgeted_count roots_count 4 "root count";
    let! roots_len_bytes := lift_res (overflow (checked_mul roots_count 4) "roots length overflow") in
    let! external_digests_len := lift_res (overflow (checked_mul external_node_count WORD_SERIALIZED_BYTES)
                                             "external digest length overflow") in
    let! node_entries_len := lift_res (overflow (checked_mul node_count SERIALIZED_SIZE)
                                         "node entry length overflow") in
    let! node_hash_len := lift_res (if is_hashless_flag flags then Ok 0
                                    else overflow (checked_mul internal_node_count WORD_SERIALIZED_BYTES)
                                           "node hash length overflow") in
    let! node_digest_len := lift_res (overflow (checked_add external_digests_len node_hash_len)
                                        "node digest length overflow") in
    let! roots_offset := gets tr_offset in
    do! read_slice roots_len_bytes;
    let! basic_block_len := read_usize in
    let! core_tail_len := lift_res (overflow
        (len ← checked_add basic_block_len node_digest_len; checked_add len node_entries_len)
        "core payload length overflow") in
    do! validate_budgeted_count core_tail_len 1 "core payload length";
    ret (mkMastForestHeader flags node_count internal_node_count external_node_count roots_count
           roots_offset basic_block_len external_digests_len node_entries_len core_tail_len).

(** The loop of [validate_node_entries] over the entries. *)
Fixpoint count_externals (n : nat) (counted : Z) : DM SliceReader Z :=
  match n with
  | O => ret counted
  | S n =>
      let! node_entry := entry_read in
      let! counted := lift_res (match node_entry with
                                | EExternal => overflow (checked_add counted 1) "external node count overflow"
                                | _ => Ok counted
                                end) in
      count_externals n counted
  end.

Definition validate_node_entries (node_entries : list Z) (node_count external_node_count : Z) : DR unit :=
  let? counted := fst (count_externals (Z.to_nat node_count) 0 (slice_reader_new node_entries)) in
  if negb (counted =? external_node_count)
  then Err (InvalidValue "header external node count does not match") else Ok tt.

Definition scan_layout_sections {R} `{ByteReader R} (h : MastForestHeader) : DM (TrackingReader R) ForestLayout :=
  let! basic_block_offset := gets tr_offset in
  let! core_tail := read_slice (hd_core_tail_len h) in
  let! node_entry_offset := lift_res (overflow (checked_add basic_block_offset (hd_basic_block_len h))
                                        "node entry offset overflow") in
  let! external_digest_offset := lift_res (overflow (checked_add node_entry_offset (hd_node_entries_len h))
                                             "external digest offset overflow") in
  let! node_hash_offset := lift_res (
      if is_hashless_flag (hd_flags h) then Ok None
      else let? o := overflow (checked_add external_digest_offset (hd_external_digests_len h))
                       "node hash offset overflow" in Ok (Some o)) in
  let! advice_map_offset := lift_res (overflow (checked_add basic_block_offset (hd_core_tail_len h))
                                        "advice map offset overflow") in
  let node_entries_start := hd_basic_block_len h in
  let! node_entries_end := lift_res (overflow (checked_add node_entries_start (hd_node_entries_len h))
                                       "node entries slice offset overflow") in
  let! node_entries_slice := expect (slice (Z.to_nat node_entries_start) (Z.to_nat node_entries_end) core_tail) in
  do! lift_res (validate_node_entries node_entries_slice (hd_node_count h) (hd_external_node_count h));
  ret (mkForestLayout (hd_node_count h) (hd_internal_node_count h) (hd_external_node_count h)
         (hd_roots_count h) (hd_roots_offset h) basic_block_offset (hd_basic_block_len h)
         node_entry_offset external_digest_offset node_hash_offset advice_map_offset).

Definition read_header_and_scan_layout {R} `{ByteReader R} (allow_hashless : bool) :
    DM (TrackingReader R) (Z * ForestLayout) :=
  let! (flags, _) := read_and_validate_header in
  if is_hashless_flag flags && negb allow_hashless
  then fail (InvalidValue "HASHLESS flag is set")
  else
    let! header := header_read_from flags in
    let! layout := scan_layout_sections header in
    ret (flags, layout).

(** ** Random access *)

Definition read_fixed_section_entry (bytes : list Z) (section_offset entry_size index : Z) : DR (list Z) :=
  let? entry_offset := overflow (delta ← checked_mul index entry_size; checked_add section_offset delta)
                         "offset overflow" in
  let? entry_end := overflow (checked_add entry_offset entry_size) "length overflow" in
  if Z.of_nat (length bytes) <? entry_end then Err UnexpectedEOF
  else rexpect (slice (Z.to_nat entry_offset) (Z.to_nat entry_end) bytes).

Definition ly_is_hashless (l : ForestLayout) : bool :=
  match ly_node_hash_offset l with None => true | Some _ => false end.

Definition read_procedure_root_at (l : ForestLayout) (bytes : list Z) (index : Z) : DR MastNodeId :=
  if ly_roots_count l <=? index then Err (InvalidValue "root index out of bounds")
  else
    let? raw := read_fixed_section_entry bytes (ly_roots_offset l) 4 index in
    from_u32_with_node_count (from_le_bytes raw) (ly_node_count l).

Definition read_node_entry_at (l : ForestLayout) (bytes : list Z) (index : Z) : DR MastNodeEntry :=
  if ly_node_count l <=? index then Err (InvalidValue "node index out of bounds")
  else
    let? entry := read_fixed_section_entry bytes (ly_node_entry_offset l) SERIALIZED_SIZE index in
    fst (entry_read (slice_reader_new entry)).

Definition read_digest_entry (bytes : list Z) (digest_section_offset index : Z) : DR Word :=
  let? entry := read_fixed_section_entry bytes digest_section_offset WORD_SERIALIZED_BYTES index in
  fst (read_from (T := Word) (slice_reader_new entry)).

Definition basic_block_data (bytes : list Z) (basic_block_offset basic_block_len : Z) : DR (list Z) :=
  let? stop := overflow (checked_add basic_block_offset basic_block_len) "basic-block data overflow" in
  if Z.of_nat (length bytes) <? stop then Err UnexpectedEOF
  else rexpect (slice (Z.to_nat basic_block_offset) (Z.to_nat stop) bytes).

(** ** Allocation budgets *)

Definition DEFAULT_UNTRUSTED_ALLOCATION_BUDGET_MULTIPLIER : Z := 7.
Definition TRUSTED_BYTE_READ_BUDGET_MULTIPLIER : Z := 64.

Definition reserve_allocation (remaining_budget count elem_size : Z) : DR Z :=
  let? bytes_needed := overflow (checked_mul count elem_size) "size overflow" in
  if remaining_budget <? bytes_needed then Err (InvalidValue "exceeding the remaining untrusted allocation budget")
  else Ok (remaining_budget - bytes_needed).

Definition reserve_node_capacity (remaining : option Z) (node_count elem_size : Z) : DR (option Z) :=
  match remaining with
  | Some budget => let? budget := reserve_allocation budget node_count elem_size in Ok (Some budget)
  | None => Ok None
  end.

Definition saturating_mul (a b : Z) : Z := Z.min U64_MAX (a * b).
Definition default_untrusted_allocation_budget (bytes_len : Z) : Z :=
  saturating_mul bytes_len DEFAULT_UNTRUSTED_ALLOCATION_BUDGET_MULTIPLIER.

(** ** Digests *)

(** The next slots of the two digest sections, and the slots so far. *)
Definition digest_slot (l : ForestLayout) (bytes : list Z) (st : list Z * Z * Z) (index : nat) :
    DR (list Z * Z * Z) :=
  let '(slots, external_slot, node_hash_slot) := st in
  let? entry := read_node_entry_at l bytes (Z.of_nat index) in
  match entry with
  | EExternal =>
      if external_slot + 1 <=? U32_MAX then Ok (slots ++ [external_slot], external_slot + 1, node_hash_slot)
      else Err (InvalidValue "external digest slot overflow")
  | _ =>
      if node_hash_slot + 1 <=? U32_MAX then Ok (slots ++ [node_hash_slot], external_slot, node_hash_slot + 1)
      else Err (InvalidValue "node hash slot overflow")
  end.

Definition build_digest_slot_by_node (bytes : list Z) (l : ForestLayout) (remaining : option Z) :
    DR (list Z * option Z) :=
  let? remaining := reserve_node_capacity remaining (ly_node_count l) 4 in
  let? (slots, _, _) := rfold (digest_slot l bytes) ([], 0, 0) (seq 0 (Z.to_nat (ly_node_count l))) in
  Ok (slots, remaining).

Definition checked_child_index (parent_index child_id node_count : Z) : DR nat :=
  if node_count <=? child_id then Err (InvalidValue "child id out of bounds")
  else if parent_index <=? child_id then Err (InvalidValue "forward reference")
  else Ok (Z.to_nat child_id).

Section Digests.
Context `{Poseidon2}.

Definition recompute_hash (bytes node_data : list Z) (l : ForestLayout) (st : list Word * Z) (index : nat) :
    DR (list Word * Z) :=
  let '(digests, external_slot) := st in
  let? entry := read_node_entry_at l bytes (Z.of_nat index) in
  let child id := checked_child_index (Z.of_nat index) id (ly_node_count l) in
  let? (computed, external_slot) :=
    (match entry with
     | EBlock ops_offset =>
         let? op_batches := decode_operations node_data ops_offset in
         Ok (hash_batches op_batches, external_slot)
     | EJoin l r =>
         let? left_child := child l in
         let? right_child := child r in
         let? d1 := rexpect (digests !! left_child) in
         let? d2 := rexpect (digests !! right_child) in
         Ok (hash_join d1 d2, external_slot)
     | ESplit t f =>
         let? on_true := child t in
         let? on_false := child f in
         let? d1 := rexpect (digests !! on_true) in
         let? d2 := rexpect (digests !! on_false) in
         Ok (hash_split d1 d2, external_slot)
     | ELoop x =>
         let? body := child x in
         let? d := rexpect (digests !! body) in
         Ok (hash_loop d, external_slot)
     | ECall x =>
         let? callee := child x in
         let? d := rexpect (digests !! callee) in
         Ok (hash_call false d, external_slot)
     | ESysCall x =>
         let? callee := child x in
         let? d := rexpect (digests !! callee) in
         Ok (hash_call true d, external_slot)
     | EDyn => Ok (hash_dyn false, external_slot)
     | EDyncall => Ok (hash_dyn true, external_slot)
     | EExternal =>
         let? d := read_digest_entry bytes (ly_external_digest_offset l) external_slot in
         let? external_slot := overflow (checked_add external_slot 1) "external digest slot overflow" in
         Ok (d, external_slot)
     end) in
  Ok (digests ++ [computed], external_slot).

Definition recompute_hash_table (bytes : list Z) (l : ForestLayout) (remaining : option Z) : DR (list Word) :=
  let? node_data := basic_block_data bytes (ly_basic_block_offset l) (ly_basic_block_len l) in
  do? reserve_node_capacity remaining (ly_node_count l) WORD_SERIALIZED_BYTES;
  let? (digests, _) := rfold (recompute_hash bytes node_data l) ([], 0) (seq 0 (Z.to_nat (ly_node_count l))) in
  Ok digests.

Record ForestDigests := mkForestDigests { slot_by_node : list Z; hash_table : option (list Word) }.

Definition digests_new (bytes : list Z) (l : ForestLayout) (remaining : option Z) : DR ForestDigests :=
  let? (slot_by_node, remaining) := build_digest_slot_by_node bytes l remaining in
  let? hash_table :=
    (match ly_node_hash_offset l with
     | None => let? t := recompute_hash_table bytes l remaining in Ok (Some t)
     | Some _ => Ok None
     end) in
  Ok (mkForestDigests slot_by_node hash_table).

Definition digest_at (ds : ForestDigests) (bytes : list Z) (l : ForestLayout) (index : nat) (entry : MastNodeEntry) :
    DR Word :=
  let? slot := get_or (slot_by_node ds !! index) (InvalidValue "node index out of bounds for digest slots") in
  match entry with
  | EExternal => read_digest_entry bytes (ly_external_digest_offset l) slot
  | _ =>
      match hash_table ds with
      | Some t => get_or (t !! index) (InvalidValue "node index out of bounds for rebuilt digests")
      | None =>
          let? node_hash_offset := get_or (ly_node_hash_offset l) (InvalidValue "node hash section is absent") in
          read_digest_entry bytes node_hash_offset slot
      end
  end.

(** ** Materializing *)

Definition materialize_node (ds : ForestDigests) (bytes node_data : list Z) (l : ForestLayout) (index : nat) :
    DR MastNode :=
  let? entry := read_node_entry_at l bytes (Z.of_nat index) in
  let? d := digest_at ds bytes l index entry in
  let? b := try_into_mast_node_builder entry (ly_node_count l) node_data d in
  map_err (fun _ => InvalidValue "failed to build node while deserializing MAST forest") (build_linked b).

Definition materialize (ds : ForestDigests) (bytes : list Z) (l : ForestLayout) (advice_map : AdviceMap) :
    DR MastForest :=
  let? node_data := basic_block_data bytes (ly_basic_block_offset l) (ly_basic_block_len l) in
  let? nodes := rfold (fun nodes index =>
      let? node := materialize_node ds bytes node_data l index in
      Ok (nodes ++ [node])) [] (seq 0 (Z.to_nat (ly_node_count l))) in
  let? roots := rfold (fun roots index =>
      let? root := read_procedure_root_at l bytes (Z.of_nat index) in
      Ok (roots ++ [root])) [] (seq 0 (Z.to_nat (ly_roots_count l))) in
  map_err (fun _ => InvalidValue "failed to construct trusted deserialized MAST forest")
    (from_trusted_deserialization_parts nodes roots advice_map).

(** ** Untrusted forests *)

Record UntrustedMastForest := mkUntrustedMastForest {
  um_bytes : list Z;
  um_layout : ForestLayout;
  um_advice_map : AdviceMap;
  um_remaining_allocation_budget : option Z
}.

Definition into_materialized (u : UntrustedMastForest) : DR MastForest :=
  let? ds := digests_new (um_bytes u) (um_layout u) (um_remaining_allocation_budget u) in
  materialize ds (um_bytes u) (um_layout u) (um_advice_map u).

(** The source reader is given back as [recording.inner] is a borrow of it. *)
Definition decode_from_reader_inner {R} `{ByteReader R} (allow_hashless : bool) (remaining : option Z) :
    DM R (Z * UntrustedMastForest) :=
  fun source =>
    let '(r, recording) :=
      (let! (flags, layout) := read_header_and_scan_layout allow_hashless in
       let! advice_map := read_advice_map in
       let! bytes := gets into_recorded in
       ret (flags, mkUntrustedMastForest bytes layout advice_map remaining))
        (tracking_new_recording source) in
    (r, tr_inner recording).

(** [UntrustedMastForest::validate]. *)
Definition untrusted_validate (u : UntrustedMastForest) : res MastForestError MastForest :=
  let? forest := map_err Deserialization (into_materialized u) in
  do? (if ly_is_hashless (um_layout u) then Ok tt else validate_node_hashes forest);
  do? forest_validate forest;
  Ok forest.

Record UntrustedMastForestReadOptions := mkReadOptions {
  ro_wire_byte_budget : option Z;
  ro_validation_allocation_budget : option Z
}.

Definition untrusted_read_from_bytes_with_options (bytes : list Z) (options : UntrustedMastForestReadOptions) :
    DR UntrustedMastForest :=
  let wire_byte_budget := default (Z.of_nat (length bytes)) (ro_wire_byte_budget options) in
  let allocation_budget :=
    default (default_untrusted_allocation_budget wire_byte_budget) (ro_validation_allocation_budget options) in
  let '(r, reader) := decode_from_reader_inner true (Some allocation_budget)
                        (mkBudgetedReader (slice_reader_new bytes) wire_byte_budget) in
  let? (_, forest) := r in
  if has_more_bytes reader then Err (InvalidValue "extra bytes after MastForest payload") else Ok forest.

Definition untrusted_read_from_bytes (bytes : list Z) : DR UntrustedMastForest :=
  untrusted_read_from_bytes_with_options bytes (mkReadOptions None None).

(** [MastForest::read_from_bytes]. *)
Definition forest_read_from_bytes (bytes : list Z) : DR MastForest :=
  let budget := saturating_mul (Z.of_nat (length bytes)) TRUSTED_BYTE_READ_BUDGET_MULTIPLIER in
  let '(r, reader) := decode_from_reader_inner false None (mkBudgetedReader (slice_reader_new bytes) budget) in
  let? (_, u) := r in
  let? forest := into_materialized u in
  if has_more_bytes reader then Err (InvalidValue "extra bytes after MastForest payload") else Ok forest.

End Digests.
