(* ===== verification/WireSound.v ===== *)
(** * Untrusted forests: no panic, and only valid forests

    On arbitrary bytes, reading and validating a forest ends in an error or in a
    forest that is well formed, in dense order, with valid batches and with
    digests that are the hashes of its nodes. *)

From S2P Require Import Prelude Felt AdviceMap Serde SerdeTheory Operations OpSerde SerdeSafe.
From S2P Require Import OpBatch Mast BatchValid BlockSerde BlockTheory Machine Merkle Forest.
From S2P Require Import ForestTheory CanonOrder ForestCorrect ForestWire.

(** ** Tracking *)

#[export] Instance tracking_reader_safe {R} `{RS : ReaderSafe R} : ReaderSafe (TrackingReader R).
Proof.
  refine {| rinv t := rinv (tr_inner t) /\ 0 <= tr_offset t /\ Forall is_u8 (into_recorded t) |}.
  - intros t (Hi & Ho & Hrec). cbn. unfold bind, tr_on_inner. destruct (read_u8_safe _ Hi) as [H1 H2].
    destruct (read_u8 (tr_inner t)) as [[b|e|] i]; cbn in *; [|done|done]. unfold advance_offset, checked_add, USIZE_MAX. cbn.
    destruct (_ <=? _); cbn; [|done]. split; [|done]. split; [done|]. split; [lia|]. unfold into_recorded in *. cbn.
    destruct (tr_recorded t); cbn in *; [|constructor]. apply Forall_app. split; [done|by apply Forall_singleton].
  - intros t (Hi & _). exact (peek_u8_safe _ Hi).
  - intros n t Hn (Hi & Ho & Hrec). cbn. unfold bind, tr_on_inner. destruct (read_slice_safe n _ Hn Hi) as [H1 H2].
    destruct (read_slice n (tr_inner t)) as [[l|e|] i]; cbn in *; [|done|done]. unfold advance_offset, checked_add, USIZE_MAX. cbn.
    destruct (_ <=? _); cbn; [|done]. split; [|done]. split; [done|]. split; [lia|]. unfold into_recorded in *. cbn.
    destruct (tr_recorded t); cbn in *; [|constructor]. apply Forall_app. by split; [|apply H2].
  - intros n t (Hi & Ho & Hrec). cbn. unfold bind, tr_on_inner. destruct (read_array_safe n _ Hi) as [H1 H2].
    destruct (read_array n (tr_inner t)) as [[l|e|] i]; cbn in *; [|done|done]. unfold advance_offset, checked_add, USIZE_MAX. cbn.
    destruct (_ <=? _); cbn; [|done]. split; [|done]. split; [done|]. split; [lia|]. unfold into_recorded in *. cbn.
    destruct (tr_recorded t); cbn in *; [|constructor]. apply Forall_app. by split; [|apply H2].
Defined.

(** ** Layouts *)

Lemma overflow_add a b what : 0 <= a -> 0 <= b -> rok (overflow (checked_add a b) what) (fun x => x = a + b /\ 0 <= x).
Proof. intros Ha Hb. unfold overflow, checked_add, USIZE_MAX. destruct (_ <=? _); cbn; [lia|done]. Qed.
Lemma overflow_mul a b what : 0 <= a -> 0 <= b -> rok (overflow (checked_mul a b) what) (fun x => x = a * b /\ 0 <= x).
Proof. intros Ha Hb. unfold overflow, checked_mul, USIZE_MAX. destruct (_ <=? _); cbn; [lia|done]. Qed.

Definition entry_ok (e : MastNodeEntry) : Prop :=
  match e with
  | EJoin a b | ESplit a b => 0 <= a /\ 0 <= b
  | ELoop a | EBlock a | ECall a | ESysCall a => 0 <= a
  | EDyn | EDyncall | EExternal => True
  end.

Lemma entry_decode_safe v : rok (entry_decode v) entry_ok.
Proof.
  unfold entry_decode.
  assert (Hp : 0 <= Z.land v 1152921504606846975) by (apply Z.land_nonneg; right; lia).
  assert (Hpay : rok (decode_u32_payload (Z.land v 1152921504606846975)) (fun x => 0 <= x)).
  { unfold decode_u32_payload. by destruct (_ <=? _). }
  assert (Hpair : 0 <= fst (decode_u32_pair (Z.land v 1152921504606846975)) /\ 0 <= snd (decode_u32_pair (Z.land v 1152921504606846975))).
  { unfold decode_u32_pair, wrap32. cbn. split; apply Z.mod_pos_bound; lia. }
  assert (Hk : forall k : Z -> MastNodeEntry, (forall x, 0 <= x -> entry_ok (k x)) ->
    rok (let? x := decode_u32_payload (Z.land v 1152921504606846975) in Ok (k x)) entry_ok).
  { intros k Hk. eapply rok_bind; [exact Hpay|]. intros x Hx. by apply Hk. }
  repeat case_match; try done; first [apply Hk; done|idtac]; cbn in *; subst; done.
Qed.

Lemma reads_entry {R} `{RS : ReaderSafe R} : reads entry_read entry_ok.
Proof. eapply reads_bind; [apply reads_u64|]. intros v _. apply reads_lift, entry_decode_safe. Qed.

Record header_ok (h : MastForestHeader) : Prop := {
  ho_node_count : 0 <= hd_node_count h <= MAX_NODES;
  ho_roots_count : 0 <= hd_roots_count h;
  ho_roots_offset : 0 <= hd_roots_offset h;
  ho_bb : 0 <= hd_basic_block_len h;
  ho_ext : 0 <= hd_external_digests_len h;
  ho_entries : 0 <= hd_node_entries_len h;
  ho_tail : hd_basic_block_len h + hd_node_entries_len h <= hd_core_tail_len h
}.

Record layout_ok (l : ForestLayout) : Prop := {
  lo_node_count : 0 <= ly_node_count l <= MAX_NODES;
  lo_roots_count : 0 <= ly_roots_count l;
  lo_roots : 0 <= ly_roots_offset l;
  lo_bb : 0 <= ly_basic_block_offset l;
  lo_bb_len : 0 <= ly_basic_block_len l;
  lo_entries : 0 <= ly_node_entry_offset l;
  lo_ext : 0 <= ly_external_digest_offset l;
  lo_hash : from_option (fun o => 0 <= o) True (ly_node_hash_offset l)
}.

Section Readers.
Context {R : Type} `{RS : ReaderSafe R}.

Lemma reads_count c s what : reads (R := R) (validate_budgeted_count c s what) (fun _ => True).
Proof.
  eapply reads_bind; [apply reads_gets|]. intros m _. destruct (_ <? _); [apply reads_fail|by apply reads_ret].
Qed.

Lemma reads_magic : reads (R := R) read_and_validate_header (fun _ => True).
Proof.
  eapply reads_bind; [apply reads_array|]. intros l _. destruct (negb _); [apply reads_fail|].
  eapply reads_bind; [apply reads_u8|]. intros f _. eapply reads_bind; [apply reads_array|]. intros v _.
  destruct (negb _); [apply reads_fail|]. destruct (negb _); [apply reads_fail|by apply reads_ret].
Qed.

Lemma reads_advice_map : reads (R := R) read_advice_map (fun _ => True).
Proof.
  eapply reads_bind; [apply reads_usize|]. intros c _. eapply reads_bind; [apply reads_times, pair_safe|]. intros es _.
  by apply reads_ret.
Qed.

End Readers.

Section Layouts.
Context {R : Type} `{RS : ReaderSafe R}.

Lemma reads_offset : reads (R := TrackingReader R) (gets tr_offset) (fun o => 0 <= o).
Proof. intros t Ht. split; [done|]. by destruct Ht as (_ & ? & _). Qed.

Lemma reads_header flags : reads (R := TrackingReader R) (header_read_from flags) header_ok.
Proof.
  unfold header_read_from. eapply reads_bind; [apply reads_usize|]. intros ic Hic. eapply reads_bind; [apply reads_usize|]. intros ec Hec.
  unfold is_u64 in *. eapply reads_bind; [apply reads_lift, overflow_add; lia|]. intros nc [-> Hnc].
  destruct (Z.ltb_spec MAX_NODES (ic + ec)); [apply reads_fail|].
  eapply reads_bind; [apply reads_count|]. intros _ _. eapply reads_bind; [apply reads_count|]. intros _ _.
  eapply (reads_bind _ _ (fun _ => True)). { destruct (is_hashless_flag flags); [by apply reads_ret|apply reads_count]. }
  intros _ _. eapply reads_bind; [apply reads_usize|]. intros rc Hrc. unfold is_u64 in *.
  eapply reads_bind; [apply reads_count|]. intros _ _. eapply reads_bind; [apply reads_lift, overflow_mul; lia|]. intros rl [_ Hrl].
  eapply reads_bind; [apply reads_lift, overflow_mul; unfold WORD_SERIALIZED_BYTES; lia|]. intros el [_ Hel].
  eapply reads_bind; [apply reads_lift, overflow_mul; unfold SERIALIZED_SIZE; lia|]. intros nl [_ Hnl].
  eapply (reads_bind _ _ (fun x => 0 <= x)).
  { apply reads_lift. destruct (is_hashless_flag flags); [done|]. eapply rok_mono; [apply overflow_mul; unfold WORD_SERIALIZED_BYTES; lia|]. by intros x [_ Hx]. }
  intros hl Hhl. cbv beta in Hhl. eapply reads_bind; [apply reads_lift, overflow_add; lia|]. intros dl [_ Hdl].
  eapply reads_bind; [apply reads_offset|]. intros ro Hro. cbv beta in Hro. eapply reads_bind; [by apply reads_slice|]. intros _ _.
  eapply reads_bind; [apply reads_usize|]. intros bl Hbl. unfold is_u64 in *.
  eapply (reads_bind _ _ (fun x => x = bl + dl + nl)).
  { apply reads_lift. unfold overflow, checked_add, USIZE_MAX. destruct (_ <=? _); cbn; [|done]. by destruct (_ <=? _). }
  intros tl ->. eapply reads_bind; [apply reads_count|]. intros _ _. apply reads_ret. split; cbn; lia.
Qed.

Lemma reads_count_externals n c : 0 <= c -> reads (R := SliceReader) (count_externals n c) (fun _ => True).
Proof.
  revert c. induction n as [|n IH]; intros c Hc; [by apply reads_ret|]. cbn [count_externals].
  eapply reads_bind; [apply reads_entry|]. intros e _. eapply (reads_bind _ _ (fun x => 0 <= x)).
  { apply reads_lift. destruct e; try done. eapply rok_mono; [apply overflow_add; lia|]. by intros x [_ Hx]. }
  intros c' Hc'. by apply IH.
Qed.

Lemma validate_node_entries_safe l nc ec : Forall is_u8 l -> rok (validate_node_entries l nc ec) (fun _ => True).
Proof.
  intros Hu. unfold validate_node_entries. eapply rok_bind.
  - apply (reads_count_externals (Z.to_nat nc) 0 ltac:(lia) (slice_reader_new l)). split; [cbn; lia|done].
  - intros c _. by destruct (negb _).
Qed.

Lemma reads_scan h : header_ok h -> reads (R := TrackingReader R) (scan_layout_sections h) layout_ok.
Proof.
  intros []. unfold scan_layout_sections. eapply reads_bind; [apply reads_offset|]. intros bo Hbo. cbv beta in Hbo.
  eapply reads_bind; [apply reads_slice; lia|]. intros tail [Htl Hu].
  eapply reads_bind; [apply reads_lift, overflow_add; lia|]. intros no [-> Hno].
  eapply reads_bind; [apply reads_lift, overflow_add; lia|]. intros eo [-> Heo].
  eapply (reads_bind _ _ (fun o => from_option (fun o => 0 <= o) True o)).
  { apply reads_lift. destruct (is_hashless_flag _); [done|]. eapply rok_bind; [apply overflow_add; lia|]. intros o [_ Ho]. done. }
  intros ho Hho. eapply reads_bind; [apply reads_lift, overflow_add; lia|]. intros ao [_ Hao].
  eapply reads_bind; [apply reads_lift, overflow_add; lia|]. intros ne [-> Hne].
  assert (exists s, slice (Z.to_nat (hd_basic_block_len h)) (Z.to_nat (hd_basic_block_len h + hd_node_entries_len h)) tail = Some s /\ Forall is_u8 s)
    as (s & Hs & Hsu).
  { unfold slice. rewrite (proj2 (Nat.leb_le _ _)), (proj2 (Nat.leb_le _ _)) by lia. eexists. split; [done|]. by apply Forall_take, Forall_drop. }
  eapply (reads_bind _ _ (Forall is_u8)); [by eapply reads_expect|]. intros s' Hs'.
  eapply reads_bind; [apply reads_lift, validate_node_entries_safe; done|]. intros _ _. apply reads_ret. by split.
Qed.

Lemma reads_layout allow : reads (R := TrackingReader R) (read_header_and_scan_layout allow) (fun p => layout_ok p.2).
Proof.
  eapply reads_bind; [apply reads_magic|]. intros [flags v] _. destruct (_ && _); [apply reads_fail|].
  eapply reads_bind; [apply reads_header|]. intros h Hh. eapply reads_bind; [by apply reads_scan|]. intros l Hl. by apply reads_ret.
Qed.

End Layouts.

Definition untrusted_ok (u : UntrustedMastForest) : Prop := layout_ok (um_layout u) /\ Forall is_u8 (um_bytes u).

Lemma reads_decode {R} `{RS : ReaderSafe R} allow rem : reads (R := R) (decode_from_reader_inner allow rem) (fun p => untrusted_ok p.2).
Proof.
  intros r Hr. unfold decode_from_reader_inner.
  assert (H : reads (R := TrackingReader R) (let! (flags, layout) := read_header_and_scan_layout allow in
       let! advice_map := read_advice_map in
       let! bytes := gets into_recorded in
       ret (flags, mkUntrustedMastForest bytes layout advice_map rem)) (fun p => untrusted_ok p.2)).
  { eapply reads_bind; [apply reads_layout|]. intros [flags l] Hl. eapply reads_bind; [apply reads_advice_map|]. intros am _.
    eapply (reads_bind _ _ (Forall is_u8)); [|intros bs Hbs; by apply reads_ret].
    intros t Ht. split; [done|]. by destruct Ht as (_ & _ & ?). }
  destruct (H (tracking_new_recording r)) as [H1 H2]. { split; [done|]. split; [cbn; lia|constructor]. }
  destruct (bind _ _ _) as [res t]. cbn in *. by destruct H1.
Qed.

(** ** A validated forest is valid

    The random access into the bytes of a serialized forest, the slots of the
    digests, the hashes rebuilt from the bytes, and the materialized nodes. *)

Lemma rok_fold_seq {E T} (f : T -> nat -> res E T) (I : nat -> T -> Prop) n s :
  I 0%nat s -> (forall i s, (i < n)%nat -> I i s -> rok (f s i) (I (S i))) -> rok (rfold f s (seq 0 n)) (I n).
Proof.
  intros H0 Hf. pose proof (rok_fold f I (seq 0 n) s H0) as Hr. rewrite length_seq in Hr. apply Hr.
  intros i a st [-> Hi]%lookup_seq. by apply Hf.
Qed.

Lemma rok_fold_push {E A} (f : nat -> res E A) (P : nat -> A -> Prop) n :
  (forall i, (i < n)%nat -> rok (f i) (P i)) ->
  rok (rfold (fun acc i => let? x := f i in Ok (acc ++ [x])) [] (seq 0 n))
      (fun l => length l = n /\ forall i x, l !! i = Some x -> P i x).
Proof.
  intros Hf. apply (rok_fold_seq _ (fun k l => length l = k /\ forall i x, l !! i = Some x -> P i x)); [by split|].
  intros i l Hi [Hl Hp]. eapply rok_bind; [by apply Hf|]. intros x Hx. cbn [rok].
  split; [rewrite length_app; cbn; lia|]. intros j y [Hj|[-> <-]]%lookup_snoc; [by apply Hp|]. by rewrite Hl.
Qed.

(** ** Random access *)

Section Access.
Context (bytes : list Z) (l : ForestLayout) (Hl : layout_ok l) (Hu : Forall is_u8 bytes).

Lemma slice_u8 a b s : slice a b bytes = Some s -> Forall is_u8 s /\ length s = (b - a)%nat.
Proof.
  unfold slice. destruct (Nat.leb_spec a b), (Nat.leb_spec b (length bytes)); cbn; intros [= <-].
  split; [by apply Forall_take, Forall_drop|]. rewrite length_take, length_drop. lia.
Qed.

Lemma fixed_entry_safe off size i : 0 <= off -> 0 <= size -> 0 <= i ->
  rok (read_fixed_section_entry bytes off size i) (fun s => Forall is_u8 s /\ length s = Z.to_nat size).
Proof.
  intros Ho Hs Hi. unfold read_fixed_section_entry.
  eapply (rok_bind _ _ (fun o => 0 <= o)).
  { unfold overflow, checked_mul, checked_add, USIZE_MAX. destruct (_ <=? _); cbn; [|done]. destruct (_ <=? _); cbn; [lia|done]. }
  intros o Hoo. cbv beta in Hoo. eapply rok_bind; [by apply overflow_add|]. intros e [-> He].
  destruct (Z.ltb_spec (Z.of_nat (length bytes)) (o + size)); [done|].
  destruct (slice (Z.to_nat o) (Z.to_nat (o + size)) bytes) as [s|] eqn:Hsl.
  - cbn. apply slice_u8 in Hsl as [? ?]. split; [done|lia].
  - unfold slice in Hsl. rewrite (proj2 (Nat.leb_le _ _)), (proj2 (Nat.leb_le _ _)) in Hsl by lia. done.
Qed.

Lemma reads_slice_result {A} (m : DM SliceReader A) Q s : reads m Q -> Forall is_u8 s -> rok (fst (m (slice_reader_new s))) Q.
Proof. intros Hm Hs. apply (Hm (slice_reader_new s)). split; [cbn; lia|done]. Qed.

Lemma node_entry_safe i : 0 <= i -> rok (read_node_entry_at l bytes i) entry_ok.
Proof.
  intros Hi. unfold read_node_entry_at. destruct (_ <=? _); [done|].
  eapply rok_bind; [apply fixed_entry_safe; [apply Hl|unfold SERIALIZED_SIZE; lia|done]|]. intros s [Hs _].
  apply reads_slice_result; [apply reads_entry|done].
Qed.

Lemma digest_entry_safe off i : 0 <= off -> 0 <= i -> rok (read_digest_entry bytes off i) (fun _ => True).
Proof.
  intros Ho Hi. eapply rok_bind; [apply fixed_entry_safe; [done|unfold WORD_SERIALIZED_BYTES; lia|done]|]. intros s [Hs _].
  apply reads_slice_result; [apply word_safe|done].
Qed.

Lemma root_entry_safe i : 0 <= i -> rok (read_procedure_root_at l bytes i) (fun _ => True).
Proof.
  intros Hi. unfold read_procedure_root_at. destruct (_ <=? _); [done|].
  eapply rok_bind; [apply fixed_entry_safe; [apply Hl|lia|done]|]. intros s _. unfold from_u32_with_node_count. by destruct (_ <? _).
Qed.

Lemma block_data_safe : rok (basic_block_data bytes (ly_basic_block_offset l) (ly_basic_block_len l)) (Forall is_u8).
Proof.
  destruct Hl. unfold basic_block_data. eapply rok_bind; [by apply overflow_add|]. intros e [-> He].
  destruct (Z.ltb_spec (Z.of_nat (length bytes)) (ly_basic_block_offset l + ly_basic_block_len l)); [done|].
  destruct (slice _ _ _) as [s|] eqn:Hsl; [by apply slice_u8 in Hsl as [? _]|].
  unfold slice in Hsl. rewrite (proj2 (Nat.leb_le _ _)), (proj2 (Nat.leb_le _ _)) in Hsl by lia. done.
Qed.

Lemma reserve_safe remaining n s : 0 <= n -> 0 <= s -> rok (reserve_node_capacity remaining n s) (fun _ => True).
Proof.
  intros Hn Hs. destruct remaining as [b|]; [|done]. cbn. unfold reserve_allocation.
  eapply (rok_bind _ _ (fun _ => True)); [|by intros]. eapply rok_bind; [by apply overflow_mul|]. intros x _. by destruct (_ <? _).
Qed.

(** ** Slots *)

Definition is_ext (i : nat) : bool :=
  match read_node_entry_at l bytes (Z.of_nat i) with Ok EExternal => true | _ => false end.
Fixpoint ext_before (i : nat) : Z :=
  match i with O => 0 | S i => ext_before i + (if is_ext i then 1 else 0) end.

Lemma ext_before_range i : 0 <= ext_before i <= Z.of_nat i.
Proof. induction i as [|i IH]; cbn [ext_before]; [lia|]. destruct (is_ext i); lia. Qed.

Definition slot (i : nat) : Z := if is_ext i then ext_before i else Z.of_nat i - ext_before i.

Lemma slot_nonneg i : 0 <= slot i.
Proof. unfold slot. pose proof (ext_before_range i). destruct (is_ext i); lia. Qed.

Lemma slots_safe remaining : rok (build_digest_slot_by_node bytes l remaining) (fun p => p.1 = slot <$> seq 0 (Z.to_nat (ly_node_count l))).
Proof.
  unfold build_digest_slot_by_node. eapply rok_bind; [apply reserve_safe; [apply Hl|lia]|]. intros rem _.
  eapply (rok_bind _ _ (fun st => st.1.1 = slot <$> seq 0 (Z.to_nat (ly_node_count l)))); [|by intros [[??]?] Hs].
  eapply rok_mono; [apply (rok_fold_seq _ (fun k st => st.1.1 = slot <$> seq 0 k /\ st.1.2 = ext_before k /\ st.2 = Z.of_nat k - ext_before k))|by intros st (? & _)]; [done|].
  intros i [[ss es] hs] Hi (Hss & Hes & Hhs). cbn [fst snd] in *. subst ss es hs. unfold digest_slot.
  pose proof (node_entry_safe (Z.of_nat i) ltac:(lia)) as He.
  destruct (read_node_entry_at l bytes (Z.of_nat i)) as [e|e|] eqn:Hee; cbn [rbind]; [|done|done].
  assert (Hx : is_ext i = match e with EExternal => true | _ => false end) by (unfold is_ext; by rewrite Hee).
  assert (Hsl : slot <$> seq 0 (S i) = (slot <$> seq 0 i) ++ [if is_ext i then ext_before i else Z.of_nat i - ext_before i])
    by (by rewrite seq_S, fmap_app).
  rewrite Hsl. cbn [ext_before]. rewrite Hx. destruct e; destruct (_ <=? _); cbn [rok fst snd]; try done; (split; [done|lia]).
Qed.

(** ** Rebuilt hashes *)

Context `{Poseidon2} (node_data : list Z) (Hdata : Forall is_u8 node_data).

Definition entry_children (e : MastNodeEntry) : list nat :=
  match e with
  | EJoin a b | ESplit a b => [Z.to_nat a; Z.to_nat b]
  | ELoop a | ECall a | ESysCall a => [Z.to_nat a]
  | EBlock _ | EDyn | EDyncall | EExternal => []
  end.

Definition res_option {E A} (r : res E A) : option A := match r with Ok a => Some a | _ => None end.

(** The hash of the node an entry describes. *)
Definition entry_hash (look : nat -> option Word) (i : nat) (e : MastNodeEntry) : option Word :=
  match e with
  | EBlock off => hash_batches <$> res_option (decode_operations node_data off)
  | EJoin a b => x ← look (Z.to_nat a); y ← look (Z.to_nat b); Some (hash_join x y)
  | ESplit a b => x ← look (Z.to_nat a); y ← look (Z.to_nat b); Some (hash_split x y)
  | ELoop a => x ← look (Z.to_nat a); Some (hash_loop x)
  | ECall a => x ← look (Z.to_nat a); Some (hash_call false x)
  | ESysCall a => x ← look (Z.to_nat a); Some (hash_call true x)
  | EDyn => Some (hash_dyn false)
  | EDyncall => Some (hash_dyn true)
  | EExternal => res_option (read_digest_entry bytes (ly_external_digest_offset l) (ext_before i))
  end.

Lemma entry_hash_ext look look' i e : (forall c, c ∈ entry_children e -> look c = look' c) ->
  entry_hash look i e = entry_hash look' i e.
Proof.
  intros Hlk. destruct e; cbn [entry_hash entry_children] in *; try done;
    rewrite !Hlk by (repeat first [apply list_elem_of_here|apply list_elem_of_further]); done.
Qed.

(** Entry [i] refers to entries before it and has the hash [hs !! i]. *)
Definition entry_hashed (hs : list Word) (i : nat) : Prop :=
  exists e d, read_node_entry_at l bytes (Z.of_nat i) = Ok e /\ (forall c, c ∈ entry_children e -> (c < i)%nat) /\
    hs !! i = Some d /\ entry_hash (fun c => hs !! c) i e = Some d.

Lemma child_index_safe i c n : 0 <= c -> rok (checked_child_index (Z.of_nat i) c n) (fun k => k = Z.to_nat c /\ (k < i)%nat).
Proof. intros Hc. unfold checked_child_index. destruct (_ <=? _); [done|]. destruct (Z.leb_spec (Z.of_nat i) c); cbn; [done|lia]. Qed.

Lemma rok_child {B} ds i c n (k : Word -> DR B) Q : 0 <= c -> length ds = i ->
  (forall d, (Z.to_nat c < i)%nat -> ds !! Z.to_nat c = Some d -> rok (k d) Q) ->
  rok (let? j := checked_child_index (Z.of_nat i) c n in let? d := rexpect (ds !! j) in k d) Q.
Proof.
  intros Hc <- Hk. eapply rok_bind; [by apply child_index_safe|]. intros j [-> Hj].
  destruct (lookup_lt_is_Some_2 _ _ Hj) as [d Hd]. rewrite Hd. cbn [rexpect rbind]. by apply Hk.
Qed.

Lemma rok_children {B} ds i a b n (k : Word -> Word -> DR B) Q : 0 <= a -> 0 <= b -> length ds = i ->
  (forall d1 d2, (Z.to_nat a < i)%nat -> (Z.to_nat b < i)%nat -> ds !! Z.to_nat a = Some d1 -> ds !! Z.to_nat b = Some d2 ->
     rok (k d1 d2) Q) ->
  rok (let? x := checked_child_index (Z.of_nat i) a n in let? y := checked_child_index (Z.of_nat i) b n in
       let? d1 := rexpect (ds !! x) in let? d2 := rexpect (ds !! y) in k d1 d2) Q.
Proof.
  intros Ha Hb Hi Hk. eapply rok_bind; [by apply child_index_safe|]. intros j [-> Hj].
  eapply rok_bind; [by apply child_index_safe|]. intros j [-> Hj'].
  destruct (lookup_lt_is_Some_2 ds (Z.to_nat a)) as [d1 Hd1]; [lia|]. destruct (lookup_lt_is_Some_2 ds (Z.to_nat b)) as [d2 Hd2]; [lia|].
  rewrite Hd1, Hd2. cbn [rexpect rbind]. by apply Hk.
Qed.

Lemma entry_hashed_snoc ds i d e : length ds = i -> read_node_entry_at l bytes (Z.of_nat i) = Ok e ->
  (forall c, c ∈ entry_children e -> (c < i)%nat) -> entry_hash (fun c => ds !! c) i e = Some d ->
  entry_hashed (ds ++ [d]) i.
Proof.
  intros Hi He Hc Hd. exists e, d. split; [done|]. split; [done|]. split; [apply lookup_snoc; by right|].
  rewrite <- Hd. apply entry_hash_ext. intros c Hcc. apply lookup_app_l. rewrite Hi. by apply Hc.
Qed.

Lemma recompute_hash_safe i ds : length ds = i ->
  rok (recompute_hash bytes node_data l (ds, ext_before i) i)
      (fun st => st.2 = ext_before (S i) /\ exists d, st.1 = ds ++ [d] /\ entry_hashed st.1 i).
Proof.
  intros Hi. unfold recompute_hash. pose proof (node_entry_safe (Z.of_nat i) ltac:(lia)) as He.
  destruct (read_node_entry_at l bytes (Z.of_nat i)) as [e|e|] eqn:Hee; cbn [rbind]; [|done|done]. cbn [rok] in He.
  assert (Hx : is_ext i = match e with EExternal => true | _ => false end) by (unfold is_ext; by rewrite Hee).
  eapply (rok_bind _ _ (fun p => p.2 = ext_before (S i) /\ (forall c, c ∈ entry_children e -> (c < i)%nat) /\
    entry_hash (fun c => ds !! c) i e = Some p.1)).
  2:{ intros [d s] (Hs & Hc & Hd). cbn [rok fst snd] in *. split; [done|]. exists d. split; [done|]. by eapply entry_hashed_snoc. }
  cbn [ext_before]. rewrite Hx.
  assert (Hone : forall a (c : nat), (Z.to_nat a < i)%nat -> c ∈ [Z.to_nat a] -> (c < i)%nat) by (intros a c ? ->%list_elem_of_singleton; done).
  assert (Htwo : forall a b (c : nat), (Z.to_nat a < i)%nat -> (Z.to_nat b < i)%nat -> c ∈ [Z.to_nat a; Z.to_nat b] -> (c < i)%nat)
    by (intros a b c ? ? [->|[->|[]%elem_of_nil]%elem_of_cons]%elem_of_cons; done).
  destruct e as [a b|a b|a|off|a|a| | |]; cbn [entry_ok entry_children entry_hash] in *;
    try (apply rok_children; [lia|lia|done|]; intros d1 d2 Ha Hb Hd1 Hd2; rewrite Hd1, Hd2; cbn; split; [lia|]; split; [|done]; eauto);
    try (apply rok_child; [lia|done|]; intros d1 Ha Hd1; rewrite Hd1; cbn; split; [lia|]; split; [|done]; eauto);
    try (cbn; split; [lia|]; split; [|done]; by intros c ?%elem_of_nil).
  - pose proof (decode_operations_safe node_data off Hdata He) as Hd.
    destruct (decode_operations node_data off); cbn in Hd |- *; [|done|done]. split; [lia|]. split; [by intros c ?%elem_of_nil|done].
  - pose proof (ext_before_range i). pose proof (digest_entry_safe (ly_external_digest_offset l) (ext_before i) (lo_ext _ Hl) ltac:(lia)) as Hd.
    destruct (read_digest_entry _ _ _) as [d| |]; cbn [rbind]; [|done|done].
    eapply rok_bind; [apply overflow_add; lia|]. intros s [-> _]. cbn. split; [lia|]. split; [by intros c ?%elem_of_nil|done].
Qed.

Lemma hash_table_safe remaining : basic_block_data bytes (ly_basic_block_offset l) (ly_basic_block_len l) = Ok node_data ->
  rok (recompute_hash_table bytes l remaining)
      (fun hs => length hs = Z.to_nat (ly_node_count l) /\ forall i, (i < length hs)%nat -> entry_hashed hs i).
Proof.
  intros Hbb. unfold recompute_hash_table. rewrite Hbb. cbn [rbind].
  eapply rok_bind; [apply reserve_safe; [apply Hl|unfold WORD_SERIALIZED_BYTES; lia]|]. intros _ _.
  eapply (rok_bind _ _ (fun st => length st.1 = Z.to_nat (ly_node_count l) /\ forall i, (i < length st.1)%nat -> entry_hashed st.1 i));
    [|by intros [? ?]].
  eapply rok_mono; [apply (rok_fold_seq _ (fun k st => length st.1 = k /\ st.2 = ext_before k /\ forall i, (i < length st.1)%nat -> entry_hashed st.1 i))|];
    [split; [done|split; [done|cbn; lia]]| |by intros st (? & _ & ?)].
  intros i [ds s] Hi (Hlen & Hs & Hall). cbn [fst snd] in *. subst s. eapply rok_mono; [by apply recompute_hash_safe|].
  intros [ds' s'] (Hs' & d & -> & Hd). cbn [fst snd] in *. rewrite length_app, Hlen in *. cbn [length] in *. split; [lia|]. split; [done|].
  intros j Hj. destruct (decide (j = i)) as [->|Hne]; [done|]. destruct (Hall j ltac:(lia)) as (e & d' & He & Hc & Hd' & Hh).
  exists e, d'. split; [done|]. split; [done|]. split; [by apply lookup_app_l_Some|]. rewrite <- Hh. apply entry_hash_ext.
  intros c Hcc%Hc. apply lookup_app_l. lia.
Qed.

(** ** Materialized nodes *)

(** The digests of the nodes: stored in the bytes, or rebuilt. *)
Record digests_of (ds : ForestDigests) : Prop := {
  dg_slots : slot_by_node ds = slot <$> seq 0 (Z.to_nat (ly_node_count l));
  dg_table : match hash_table ds with
             | Some hs => ly_node_hash_offset l = None /\ length hs = Z.to_nat (ly_node_count l) /\
                 forall i, (i < length hs)%nat -> entry_hashed hs i
             | None => is_Some (ly_node_hash_offset l)
             end
}.

Lemma digests_new_safe remaining : basic_block_data bytes (ly_basic_block_offset l) (ly_basic_block_len l) = Ok node_data ->
  rok (digests_new bytes l remaining) digests_of.
Proof.
  intros Hbb. unfold digests_new. eapply rok_bind; [apply slots_safe|]. intros [ss rem] Hss. cbn [fst] in Hss.
  destruct (ly_node_hash_offset l) as [o|] eqn:Ho; cbn [rbind]; [cbn; split; cbn; [done|by rewrite Ho]|].
  pose proof (hash_table_safe rem Hbb) as Ht. destruct (recompute_hash_table bytes l rem) as [hs| |]; cbn in Ht |- *; [|done|done].
  split; cbn; [done|by rewrite Ho].
Qed.

(** Node [i] of the forest, from entry [i]. *)
Definition node_from (ds : ForestDigests) (i : nat) (n : MastNode) : Prop :=
  exists e d, read_node_entry_at l bytes (Z.of_nat i) = Ok e /\ digest_at ds bytes l i e = Ok d /\ digest n = d /\ built_node n /\
    forall look, node_hash look n = match e with EExternal => Some d | _ => entry_hash look i e end.

Lemma digest_at_safe ds i e : digests_of ds -> rok (digest_at ds bytes l i e) (fun _ => True).
Proof.
  intros [Hs Ht]. unfold digest_at. rewrite Hs, list_lookup_fmap.
  destruct (seq 0 (Z.to_nat (ly_node_count l)) !! i) as [k|] eqn:Hk; cbn; [|done]. apply lookup_seq in Hk as [-> Hi]. pose proof (slot_nonneg (0 + i)).
  assert (Hd : forall o, 0 <= o -> rok (read_digest_entry bytes o (slot (0 + i))) (fun _ => True)) by (intros; by apply digest_entry_safe).
  destruct Hl. destruct (hash_table ds) as [t|], (ly_node_hash_offset l) as [o|], e; cbn [get_or rbind rok]; try done; try (by apply Hd); apply get_or_safe.
Qed.

Lemma from_u32_safe id n : rok (from_u32_with_node_count id n) (fun k => k = Z.to_nat id).
Proof. unfold from_u32_with_node_count. by destruct (_ <? _). Qed.

Lemma materialize_node_safe ds i : digests_of ds -> rok (materialize_node ds bytes node_data l i) (node_from ds i).
Proof.
  intros Hds. unfold materialize_node. pose proof (node_entry_safe (Z.of_nat i) ltac:(lia)) as He.
  destruct (read_node_entry_at l bytes (Z.of_nat i)) as [e| |] eqn:Hee; cbn [rbind]; [|done|done]. cbn [rok] in He.
  pose proof (digest_at_safe ds i e Hds) as Hd. destruct (digest_at ds bytes l i e) as [d| |] eqn:Hdd; cbn [rbind]; [|done|done].
  assert (Hn : forall n, digest n = d -> built_node n -> (forall look, node_hash look n = match e with EExternal => Some d | _ => entry_hash look i e end) ->
    rok (E := DeserializationError) (Ok n) (node_from ds i)) by (intros n ? ? ?; by exists e, d).
  destruct e as [a b|a b|a|off|a|a| | |]; cbn [try_into_mast_node_builder];
    repeat match goal with |- context [from_u32_with_node_count ?a ?n] =>
      let Hk := fresh "Hk" in pose proof (from_u32_safe a n) as Hk; destruct (from_u32_with_node_count a n); cbn [rbind rok] in Hk |- *;
      [subst|done|done] end; cbn [rbind]; try (by apply Hn).
  cbn in He. pose proof (decode_operations_safe node_data off Hdata He) as Hdo.
  destruct (decode_operations node_data off) as [bs| |] eqn:Hdec; cbn [rbind rok build_linked build_basic_block] in *; [|done|done].
  destruct bs as [|b bs]; [done|]. cbn [rexpect rbind map_err]. apply Hn; [done| |].
  - split; [|done]. cbn. eapply Forall_impl; [exact Hdo|]. by intros x [? _ _ _].
  - intros look. cbn. by rewrite Hdec.
Qed.

(** With rebuilt hashes, the digests of the nodes are their hashes. *)
Lemma rebuilt_digests ds ns hs : digests_of ds -> hash_table ds = Some hs -> length ns = Z.to_nat (ly_node_count l) ->
  (forall i n, ns !! i = Some n -> node_from ds i n) -> digests_ok ns.
Proof.
  intros [Hs Ht] Hhs Hlen Hns. rewrite Hhs in Ht. destruct Ht as (_ & Hl2 & Ht).
  assert (Hd : forall i n, ns !! i = Some n -> hs !! i = Some (digest n) /\ node_hash (fun c => hs !! c) n = hs !! i).
  { intros i n Hn. pose proof (lookup_lt_Some _ _ _ Hn) as Hi. destruct (Hns _ _ Hn) as (e & d & He & Hd & <- & _ & Hh).
    destruct (Ht i ltac:(lia)) as (e' & d' & He' & _ & Hd' & Hh'). rewrite He in He'. injection He' as <-.
    unfold digest_at in Hd. rewrite Hs, list_lookup_fmap, lookup_seq_lt in Hd by lia. cbn in Hd. unfold slot in Hd.
    assert (Hx : is_ext i = match e with EExternal => true | _ => false end) by (unfold is_ext; by rewrite He).
    rewrite Hx, Hhs, Hd' in Hd. destruct e; cbn in Hd; try (injection Hd as <-; rewrite Hh, Hh', Hd'; done).
    cbn [entry_hash] in Hh'. rewrite Hd in Hh'. cbn in Hh'. rewrite Hh, Hd'. split; congruence. }
  assert (Heq : digest <$> ns = hs).
  { apply list_eq. intros i. rewrite list_lookup_fmap. destruct (ns !! i) as [n|] eqn:Hn; cbn; [by rewrite (proj1 (Hd _ _ Hn))|].
    symmetry. apply lookup_ge_None. apply lookup_ge_None in Hn. lia. }
  unfold digests_ok. rewrite Heq. split; [lia|]. intros i n Hn. apply (Hd _ _ Hn).
Qed.

Lemma materialize_safe ds am : digests_of ds -> basic_block_data bytes (ly_basic_block_offset l) (ly_basic_block_len l) = Ok node_data ->
  rok (materialize ds bytes l am)
      (fun f => forest_wf f /\ Z.of_nat (length (nodes f)) <= MAX_NODES /\ dense (nodes f) /\ Forall node_sized (nodes f) /\
        (ly_is_hashless l = true -> digests_ok (nodes f))).
Proof.
  intros Hds Hbb. unfold materialize. rewrite Hbb. cbn [rbind].
  eapply rok_bind; [apply rok_fold_push; intros i _; by apply materialize_node_safe|]. intros ns [Hlen Hns]. cbv beta in Hlen, Hns.
  eapply rok_bind; [apply (rok_fold_push _ (fun _ _ => True)); intros i _; by apply root_entry_safe; lia|]. intros rs _.
  apply rok_map_err. unfold from_trusted_deserialization_parts. pose proof (parts_bounds_spec ns rs) as Hb.
  destruct (validate_mast_forest_parts_bounds ns rs) as [[]| |]; cbn [rbind]; [|done|done]. destruct Hb as [Hc Hr].
  pose proof (validate_dense_node_order_spec ns) as Hv. destruct (validate_dense_node_order ns) as [[]| |]; cbn [rbind rok]; [|done|done].
  assert (Hbn : Forall built_node ns) by (apply Forall_lookup; intros i n (e & d & _ & _ & _ & Hb & _)%Hns; exact Hb). cbn [nodes].
  split; [by apply dense_wf|]. split; [done|]. split; [done|]. split; [eapply Forall_impl; [exact Hbn|]; by intros n [? _]|].
  unfold ly_is_hashless. intros Hh. pose proof (dg_table _ Hds) as Ht. destruct (hash_table ds) as [hs|] eqn:Hhs; [by eapply rebuilt_digests|].
  destruct Ht as [o Ho]. by rewrite Ho in Hh.
Qed.

End Access.

(** ** Untrusted forests *)

Section Untrusted.
Context `{Poseidon2}.

Lemma into_materialized_safe u : untrusted_ok u ->
  rok (into_materialized u)
      (fun f => forest_wf f /\ Z.of_nat (length (nodes f)) <= MAX_NODES /\ dense (nodes f) /\ Forall node_sized (nodes f) /\
        (ly_is_hashless (um_layout u) = true -> digests_ok (nodes f))).
Proof.
  intros [Hl Hu]. unfold into_materialized. pose proof (block_data_safe _ _ Hl Hu) as Hb.
  destruct (basic_block_data _ _ _) as [data| |] eqn:Hbb; [| |done].
  - eapply rok_bind; [by apply (digests_new_safe _ _ Hl Hu data)|]. intros ds Hds. by apply (materialize_safe _ _ Hl Hu data).
  - unfold digests_new, materialize, recompute_hash_table. rewrite Hbb.
    eapply (rok_bind _ _ (fun _ => True)); [|done].
    eapply rok_bind; [by apply slots_safe|]. intros [ss rem] _. by destruct (ly_node_hash_offset _).
Qed.

Lemma untrusted_validate_safe u : untrusted_ok u -> rok (untrusted_validate u) forest_valid.
Proof.
  intros Hok. unfold untrusted_validate. eapply rok_bind; [by apply rok_map_err, into_materialized_safe|].
  intros f (Hwf & Hc & Hd & Hs & Hh). eapply (rok_bind _ _ (fun _ => digests_ok (nodes f))).
  { destruct (ly_is_hashless (um_layout u)); [by apply Hh|]. pose proof (validate_node_hashes_spec f) as Hv.
    destruct (validate_node_hashes f); [apply Hv|done|done]. }
  intros _ Hdg. unfold forest_validate. pose proof (validate_blocks_spec f Hs) as Hb.
  destruct (validate_basic_block_invariants f); cbn; [|done|done]. by split.
Qed.

Lemma rfor_Err {E A} (g : A -> res E unit) l e : rfor l g = Err e -> exists a, g a = Err e.
Proof.
  induction l as [|a l IH]; [done|]. cbn [rfor]. destruct (g a) as [[]|e'|] eqn:Ha; cbn [rbind]; [done| |done].
  intros [= ->]. by exists a.
Qed.

(** The errors of the validation. *)
Definition validation_error (e : MastForestError) : Prop :=
  match e with Deserialization _ | HashMismatch _ _ _ | InvalidBatchPadding _ _ => True | _ => False end.

Lemma untrusted_validate_errors u e : untrusted_ok u -> untrusted_validate u = Err e -> validation_error e.
Proof.
  intros Hok. unfold untrusted_validate. pose proof (into_materialized_safe u Hok) as Hm.
  destruct (into_materialized u) as [f| |]; cbn [map_err rbind]; [|by intros [= <-]|done]. destruct Hm as (_ & _ & Hd & _).
  assert (Hh : forall e, validate_node_hashes f = Err e -> validation_error e).
  { intros e'. unfold validate_node_hashes. pose proof (compute_node_hashes_spec (nodes f)) as Hc.
    destruct (compute_node_hashes (nodes f)); cbn [rbind]; [|by destruct Hc; apply Hd|done].
    intros [[i [n d]] Hr]%rfor_Err. destruct (bool_decide _); [done|]. by injection Hr as <-. }
  assert (Hv : forall e, (do? forest_validate f; Ok f) = Err e -> validation_error e).
  { intros e'. destruct (forest_validate f) as [|e''|] eqn:Hf; cbn [rbind]; [done| |done]. intros [= <-].
    apply rfor_Err in Hf as [[i n] Hr]. destruct n; try done. destruct (validate_batch_invariants _); cbn in Hr; [done| |done]. by injection Hr as <-. }
  destruct (ly_is_hashless (um_layout u)); [apply Hv|]. destruct (validate_node_hashes f); cbn [rbind]; [apply Hv| |done].
  intros [= <-]. by apply Hh.
Qed.

Lemma rinv_budgeted bytes b : Forall is_u8 bytes -> rinv (mkBudgetedReader (slice_reader_new bytes) b).
Proof. intros Hu. cbn. split; cbn; [lia|done]. Qed.

Lemma untrusted_read_safe bytes options : Forall is_u8 bytes ->
  rok (untrusted_read_from_bytes_with_options bytes options) untrusted_ok.
Proof.
  intros Hu. unfold untrusted_read_from_bytes_with_options.
  match goal with |- context [decode_from_reader_inner ?a ?rem ?r] =>
    destruct (reads_decode a rem r (rinv_budgeted _ _ Hu)) as [_ Hr]; destruct (decode_from_reader_inner a rem r) as [res t] end.
  eapply rok_bind; [exact Hr|]. intros [fl u] Hok. by destruct (has_more_bytes t).
Qed.

Lemma trusted_read_safe bytes : Forall is_u8 bytes ->
  rok (forest_read_from_bytes bytes) (fun f => forest_wf f /\ Z.of_nat (length (nodes f)) <= MAX_NODES /\ dense (nodes f)).
Proof.
  intros Hu. unfold forest_read_from_bytes.
  match goal with |- context [decode_from_reader_inner ?a ?rem ?r] =>
    destruct (reads_decode a rem r (rinv_budgeted _ _ Hu)) as [_ Hr]; destruct (decode_from_reader_inner a rem r) as [res t] end.
  eapply rok_bind; [exact Hr|]. intros [fl u] Hok. eapply rok_bind; [by apply into_materialized_safe|].
  intros f (? & ? & ? & _). by destruct (has_more_bytes t).
Qed.

End Untrusted.
