(* ===== verification/WireRound.v ===== *)
(** * Reading a written forest back, section by section and as a whole

    The entries of the nodes, the sections of a payload, and the scan of a
    payload that the serializer wrote. *)

From S2P Require Import Prelude Felt AdviceMap Serde SerdeTheory Operations OpSerde OpBatch Mast.
From S2P Require Import BatchValid BatchTheory BatchCorrect BlockSerde BlockTheory Machine Merkle.
From S2P Require Import Forest ForestTheory CanonOrder ForestCorrect ForestWire WireSound.

(** ** Tracking *)

#[export] Instance tracking_reader_laws {R} `{RL : ReaderLaws R} : ReaderLaws (TrackingReader R).
Proof.
  refine {| ready t bs := ready (tr_inner t) bs /\ tr_offset t + Z.of_nat (length bs) <= U64_MAX;
            advance t n := mkTrackingReader (advance (tr_inner t) n) (tr_offset t + Z.of_nat n)
                             ((fun rec => rec ++ upcoming (tr_inner t) n) <$> tr_recorded t);
            upcoming t n := upcoming (tr_inner t) n |}.
  - intros [i o rec]. cbn. rewrite advance_0, upcoming_0, Z.add_0_r. f_equal. destruct rec; cbn; [by rewrite app_nil_r|done].
  - intros [i o rec] m n. cbn. rewrite advance_add, upcoming_add. f_equal; [lia|]. destruct rec; cbn; [by rewrite app_assoc|done].
  - intros t l bs [Hr Ho]. rewrite length_app in Ho. cbn. split; [by apply ready_advance|lia].
  - intros t b bs [Hr Ho]. cbn in *. unfold bind, tr_on_inner. rewrite (read_u8_ready _ _ _ Hr). unfold advance_offset, checked_add, USIZE_MAX. cbn.
    rewrite (proj2 (Z.leb_le _ _)) by lia. cbn. pose proof (upcoming_ready (tr_inner t) [b] bs Hr) as Hup. cbn in Hup. by rewrite Hup.
  - intros t b bs [Hr _]. exact (peek_u8_ready _ _ _ Hr).
  - intros t l bs n [Hr Ho] ->. rewrite length_app in Ho. cbn. unfold bind, tr_on_inner. rewrite (read_slice_ready _ _ _ _ Hr eq_refl).
    unfold advance_offset, checked_add, USIZE_MAX. cbn. rewrite (proj2 (Z.leb_le _ _)) by lia. cbn. by rewrite (upcoming_ready _ _ _ Hr).
  - intros t l bs n [Hr Ho] ->. rewrite length_app in Ho. cbn. unfold bind, tr_on_inner. rewrite (read_array_ready _ _ _ _ Hr eq_refl).
    unfold advance_offset, checked_add, USIZE_MAX. cbn. rewrite (proj2 (Z.leb_le _ _)) by lia. cbn. by rewrite (upcoming_ready _ _ _ Hr).
  - intros t bs n s [Hr _]. exact (max_alloc_ready (tr_inner t) bs n s Hr).
  - intros t. apply upcoming_0.
  - intros t m n. apply upcoming_add.
  - intros t l bs [Hr _]. by apply upcoming_ready with bs.
Defined.

(** ** Entries *)

(** What the fields of an entry need to fit. *)
Definition entry_fits (e : MastNodeEntry) : Prop :=
  match e with
  | EJoin a b | ESplit a b => 0 <= a < 2 ^ 30 /\ 0 <= b < 2 ^ 30
  | ELoop a | EBlock a | ECall a | ESysCall a => 0 <= a <= U32_MAX
  | EDyn | EDyncall | EExternal => True
  end.

Lemma lor_shiftl a b n : 0 <= n -> 0 <= b < 2 ^ n -> Z.lor (Z.shiftl a n) b = a * 2 ^ n + b.
Proof.
  intros Hn Hb. rewrite <- Z.shiftl_mul_pow2 by done. symmetry. apply Z.add_nocarry_lor.
  apply Z.bits_inj'. intros i Hi. rewrite Z.land_spec, Z.bits_0. destruct (Z.lt_ge_cases i n) as [Hlt|Hge].
  - by rewrite Z.shiftl_spec_low by done.
  - assert (Z.testbit b i = false) as ->; [|apply andb_false_r]. destruct (Z.eq_dec b 0) as [->|]; [apply Z.bits_0|].
    apply Z.bits_above_log2; [lia|]. apply Z.log2_lt_pow2; [lia|]. eapply Z.lt_le_trans; [apply Hb|]. apply Z.pow_le_mono_r; lia.
Qed.

Lemma split_word a b n : 0 <= n -> 0 <= b < 2 ^ n -> 0 <= a ->
  Z.shiftr (Z.lor (Z.shiftl a n) b) n = a /\ Z.land (Z.lor (Z.shiftl a n) b) (Z.ones n) = b.
Proof.
  intros Hn Hb Ha. rewrite lor_shiftl by done. rewrite Z.shiftr_div_pow2, Z.land_ones by done.
  pose proof (Z.pow_pos_nonneg 2 n ltac:(lia) Hn). split.
  - rewrite Z.div_add_l by lia. rewrite Z.div_small by done. lia.
  - rewrite Z.add_comm, Z.mod_add by lia. by apply Z.mod_small.
Qed.

Lemma entry_codec e : entry_fits e -> exists p, entry_payload e = Some p /\ 0 <= p < 2 ^ 60 /\
  entry_decode (Z.lor (Z.shiftl (discriminant e) 60) p) = Ok e.
Proof.
  assert (Hdec : forall (k d p : Z), 0 <= d -> 0 <= p < 2 ^ 60 -> k = Z.lor (Z.shiftl d 60) p ->
    Z.shiftr k 60 = d /\ Z.land k 1152921504606846975 = p).
  { intros k d p Hd Hp ->. change 1152921504606846975 with (Z.ones 60). by apply split_word. }
  assert (Hpair : forall a b, 0 <= a < 2 ^ 30 -> 0 <= b < 2 ^ 30 -> exists p, encode_u32_pair a b = Some p /\ 0 <= p < 2 ^ 60 /\ decode_u32_pair p = (a, b)).
  { intros a b Ha Hb. unfold encode_u32_pair. rewrite (proj2 (Z.ltb_lt _ _)), (proj2 (Z.ltb_lt _ _)) by lia. eexists. split; [done|].
    unfold decode_u32_pair. change 1073741823 with (Z.ones 30). destruct (split_word a b 30) as [-> ->]; [lia..|].
    rewrite lor_shiftl by lia. split; [lia|]. unfold wrap32. by rewrite !Z.mod_small by lia. }
  intros He. destruct e as [a b|a b|a|a|a|a| | |]; cbn [entry_fits entry_payload discriminant] in *.
  1-2: destruct He as [Ha Hb]; destruct (Hpair a b Ha Hb) as (p & Hp & Hr & Hd); exists p; split; [done|]; split; [done|];
    unfold entry_decode; edestruct Hdec as [-> ->]; [| |reflexivity|]; [lia|done|by rewrite Hd].
  5-7: exists 0; split; [done|]; split; [lia|done].
  all: unfold U32_MAX in He; exists a; split; [done|]; split; [lia|]; unfold entry_decode;
    edestruct Hdec as [-> ->]; [| |reflexivity|]; [lia|lia|]; unfold decode_u32_payload, U32_MAX; by rewrite (proj2 (Z.leb_le _ _)) by lia.
Qed.

Lemma entry_write_fits e : entry_fits e -> exists bytes, entry_write e = Some bytes /\ length bytes = 8%nat /\
  forall R `(RL : ReaderLaws R) r bs, ready r (bytes ++ bs) -> entry_read r = (Ok e, advance r 8).
Proof.
  intros He. destruct (entry_codec e He) as (p & Hp & Hr & Hd). exists (write_u64 (Z.lor (Z.shiftl (discriminant e) 60) p)).
  split; [unfold entry_write; by rewrite Hp|]. split; [apply length_to_le_bytes|]. intros R BR RL r bs Hrd. unfold entry_read, read_u64.
  erewrite bind_Ok; [by rewrite Hd|]. apply (read_le_ready 8 _ r bs); [|exact Hrd].
  rewrite lor_shiftl by lia. change (256 ^ Z.of_nat 8) with (2 ^ 64). assert (0 <= discriminant e <= 8) by (by destruct e). lia.
Qed.

(** ** Advice maps *)

Lemma foldl_insert_map `{Countable K} {A} (l : list (K * A)) :
  NoDup l.*1 -> foldl (fun map '(key, values) => <[key := values]> map) (∅ : gmap K A) l = list_to_map l.
Proof.
  intros Hl. transitivity (list_to_map (M := gmap K A) (reverse l)).
  - clear Hl. induction l as [|[k v] l IH] using rev_ind; [done|]. rewrite foldl_app, IH, reverse_snoc. done.
  - symmetry. apply list_to_map_proper; [done|]. by rewrite reverse_Permutation.
Qed.

Lemma map_iter_entries m : NoDup (map_iter m).*1 /\ list_to_map (map_iter m) = m /\ length (map_iter m) = size m /\
  forall k v, (k, v) ∈ map_iter m <-> m !! k = Some v.
Proof.
  pose proof (map_iter_perm m) as Hp. split; [apply map_iter_nodup|]. split; [apply map_iter_list_to_map|]. split.
  - by rewrite Hp, length_map_to_list.
  - intros k v. by rewrite Hp, elem_of_map_to_list.
Qed.

Lemma advice_entry_size k v m : m !! k = Some v -> (length v <= length (write_advice_map m))%nat.
Proof.
  intros Hm. unfold write_advice_map. destruct (map_iter_entries m) as (_ & _ & _ & He).
  apply He in Hm. unfold write_many. rewrite length_app.
  enough (length v <= length (map_iter m ≫= write_into))%nat by lia.
  apply list_elem_of_split in Hm as (l1 & l2 & ->). rewrite bind_app, bind_cons, !length_app.
  enough (length v <= length (write_into (k, v)))%nat by lia.
  change (write_into (k, v)) with (write_into k ++ write_usize (Z.of_nat (length v)) ++ write_many v). rewrite !length_app.
  assert (length v <= length (write_many v))%nat; [|lia]. clear. induction v as [|x v IH]; [done|].
  unfold write_many in *. cbn [mbind list_bind length]. rewrite length_app.
  assert (1 <= length (write_into x))%nat by (cbn; lia). lia.
Qed.

Lemma read_advice_map_ready {R} `{RL : ReaderLaws R} m r bs : Z.of_nat (length (write_advice_map m)) <= U64_MAX ->
  ready r (write_advice_map m ++ bs) -> read_advice_map r = (Ok m, advance r (length (write_advice_map m))).
Proof.
  intros Hb Hr. destruct (map_iter_entries m) as (Hn & Hm & Hs & He).
  pose proof (fun k v => advice_entry_size k v m) as Hsz. unfold write_advice_map in *. rewrite <- app_assoc in Hr. unfold read_advice_map.
  assert (Hok : Forall (fun p : Word * list Felt => (fun _ => True) (fst p) /\
    (fun l => Forall (fun _ => True) l /\ Z.of_nat (length l) <= U64_MAX) (snd p)) (map_iter m)).
  { apply Forall_forall. intros [k v] Hkv%He%Hsz. split; [done|]. split; [by apply Forall_true|]. cbn. rewrite length_app in Hkv, Hb. lia. }
  assert (Hsm : Z.of_nat (size m) <= U64_MAX).
  { pose proof (write_many_min (map_iter m) Hok) as Hmin. rewrite Hs in Hmin. rewrite length_app in Hb.
    assert (1 <= min_serialized_size (T := Word * list Felt)) by (by vm_compute). nia. }
  erewrite bind_Ok by (eapply (read_usize_ready (Z.of_nat (size m))); [lia|exact Hr]). apply ready_advance in Hr. rewrite Nat2Z.id. revert Hr. rewrite <- Hs. intros Hr.
  erewrite bind_Ok.
  2:{ apply (read_times_ready read_from write_into id (map_iter m) _ bs); [|exact Hr].
      intros x r' bs' Hx Hr'. apply (serde_read _ RL) with bs'; [|exact Hr']. by eapply Forall_forall in Hx; [|exact Hok]. }
  unfold ret. rewrite advance_add, list_fmap_id, foldl_insert_map, Hm by done. by rewrite length_app.
Qed.

(** ** Sections of entries of one size *)

Lemma length_mjoin {A} (chunks : list (list A)) size : Forall (fun c => length c = size) chunks -> length (mjoin chunks) = (length chunks * size)%nat.
Proof. induction 1 as [|x l Hx _ IH]; [done|]. change (mjoin (x :: l)) with (x ++ mjoin l). rewrite length_app, IH. cbn. lia. Qed.

Lemma mjoin_fmap {A B} (f : A -> list B) l : mjoin (f <$> l) = l ≫= f.
Proof. induction l as [|x l IH]; [done|]. rewrite bind_cons, <- IH. done. Qed.

Lemma mjoin_lookup {A} (chunks : list (list A)) i c size : Forall (fun c => length c = size) chunks -> chunks !! i = Some c ->
  exists pre post, mjoin chunks = pre ++ c ++ post /\ length pre = (i * size)%nat.
Proof.
  intros Hf Hi. exists (mjoin (take i chunks)), (mjoin (drop (S i) chunks)). split.
  - rewrite <- (take_drop_middle _ _ _ Hi) at 1. by rewrite join_app.
  - rewrite (length_mjoin _ size) by (by apply Forall_take). apply lookup_lt_Some in Hi. rewrite length_take. lia.
Qed.

Lemma slice_middle {A} (pre c post : list A) : slice (length pre) (length pre + length c) (pre ++ c ++ post) = Some c.
Proof.
  unfold slice. rewrite !length_app, (proj2 (Nat.leb_le _ _)), (proj2 (Nat.leb_le _ _)) by lia. cbn.
  rewrite drop_app_length. replace (length pre + length c - length pre)%nat with (length c) by lia. by rewrite take_app_length.
Qed.

Lemma fixed_entry bytes pre chunks post size i c : bytes = pre ++ mjoin chunks ++ post ->
  Forall (fun c => length c = Z.to_nat size) chunks -> chunks !! i = Some c -> Z.of_nat (length bytes) <= U64_MAX -> 0 <= size ->
  read_fixed_section_entry bytes (Z.of_nat (length pre)) size (Z.of_nat i) = Ok c.
Proof.
  intros -> Hf Hi Hb Hs. destruct (mjoin_lookup _ _ _ _ Hf Hi) as (a & b & Hj & Ha). rewrite Hj in Hb |- *.
  pose proof (Forall_lookup_1 _ _ _ _ Hf Hi) as Hc. cbv beta in Hc. rewrite !length_app in Hb.
  assert (Hpos : Z.of_nat (length a) = Z.of_nat i * size) by lia.
  unfold read_fixed_section_entry, overflow, checked_mul, checked_add, USIZE_MAX. rewrite <- Hpos.
  rewrite (proj2 (Z.leb_le _ _)) by lia. cbn [mbind option_bind]. rewrite (proj2 (Z.leb_le _ _)) by lia. cbn [get_or rbind].
  rewrite (proj2 (Z.leb_le _ _)) by lia. cbn [get_or rbind]. rewrite !length_app, (proj2 (Z.ltb_ge _ _)) by lia.
  pose proof (slice_middle (pre ++ a) c (b ++ post)) as Hsl. rewrite <- !app_assoc in Hsl |- *.
  replace (Z.to_nat (Z.of_nat (length pre) + Z.of_nat (length a))) with (length (pre ++ a)) by (rewrite length_app; lia).
  replace (Z.to_nat (Z.of_nat (length pre) + Z.of_nat (length a) + size)) with (length (pre ++ a) + length c)%nat by (rewrite length_app; lia).
  rewrite <- (app_assoc c). by rewrite Hsl.
Qed.

Lemma slice_reader_ready l : Z.of_nat (length l) <= U64_MAX -> ready (slice_reader_new l) (l ++ []).
Proof. intros Hl. split; [done|]. exists [], []. by rewrite !app_nil_r. Qed.

Lemma digest_entry bytes pre (ds : list Word) post i d : bytes = pre ++ (ds ≫= write_into) ++ post -> ds !! i = Some d ->
  Z.of_nat (length bytes) <= U64_MAX -> read_digest_entry bytes (Z.of_nat (length pre)) (Z.of_nat i) = Ok d.
Proof.
  intros Hb Hi Hl. unfold read_digest_entry.
  rewrite (fixed_entry bytes pre (write_into <$> ds) post _ i (write_into d)); [cbn [rbind]|by rewrite Hb, mjoin_fmap| |by rewrite list_lookup_fmap, Hi|done|done].
  - rewrite (serde_read (T := Word) _ slice_reader_laws d _ []); [done|done|]. by apply slice_reader_ready.
  - apply Forall_fmap, Forall_true. by intros [].
Qed.

(** ** A payload *)

Definition entry_external (e : MastNodeEntry) : bool := match e with EExternal => true | _ => false end.
Definition externals_of (es : list MastNodeEntry) : nat := length (filter (fun e => entry_external e = true) es).

Section Payload.
Context (hashless : bool) (ni ne : nat) (roots : list nat) (data : list Z) (es : list MastNodeEntry)
  (ebs : list (list Z)) (xs hs : list Word) (am : gmap Word (list Felt)).

Definition flags_of : Z := if hashless then FLAG_HASHLESS else 0.
Definition head : list Z :=
  MAGIC ++ [flags_of] ++ VERSION ++ write_usize (Z.of_nat ni) ++ write_usize (Z.of_nat ne) ++ write_usize (Z.of_nat (length roots)).
Definition root_section : list Z := roots ≫= fun r => write_u32 (Z.of_nat r).
Definition data_len : list Z := write_usize (Z.of_nat (length data)).
Definition core : list Z := data ++ mjoin ebs ++ (xs ≫= write_into) ++ (hs ≫= write_into).
Definition payload : list Z := head ++ root_section ++ data_len ++ core ++ write_advice_map am.

Definition entries_at : nat := (length head + length root_section + length data_len + length data)%nat.
Definition payload_layout : ForestLayout :=
  mkForestLayout (Z.of_nat (ni + ne)) (Z.of_nat ni) (Z.of_nat ne) (Z.of_nat (length roots)) (Z.of_nat (length head))
    (Z.of_nat (length head + length root_section + length data_len)) (Z.of_nat (length data))
    (Z.of_nat entries_at) (Z.of_nat (entries_at + length (mjoin ebs)))
    (if hashless then None else Some (Z.of_nat (entries_at + length (mjoin ebs) + length (xs ≫= write_into))))
    (Z.of_nat (length head + length root_section + length data_len + length core)).

Record payload_ok : Prop := {
  pk_entries : Forall2 (fun e b => entry_fits e /\ entry_write e = Some b) es ebs;
  pk_count : length es = (ni + ne)%nat;
  pk_max : Z.of_nat (ni + ne) <= MAX_NODES;
  pk_externals : externals_of es = ne;
  pk_xs : length xs = ne;
  pk_hs : length hs = if hashless then 0%nat else ni;
  pk_size : Z.of_nat (length payload) <= U64_MAX
}.

Context (Hok : payload_ok).

Lemma entry_bytes_size : Forall (fun b => length b = 8%nat) ebs.
Proof.
  pose proof (pk_entries Hok) as He. clear Hok. induction He as [|e b es' ebs' [Hf Hw] _ IH]; [constructor|]. constructor; [|done].
  destruct (entry_write_fits e Hf) as (b' & Hw' & Hl & _). congruence.
Qed.

Lemma words_size (ws : list Word) : length (ws ≫= write_into) = (length ws * 32)%nat.
Proof. induction ws as [|w ws IH]; [done|]. rewrite bind_cons, length_app, IH. by destruct w. Qed.

Lemma root_section_size : length root_section = (4 * length roots)%nat.
Proof. unfold root_section. induction roots as [|r rs IH]; [done|]. rewrite bind_cons, length_app, IH. cbn [length]. unfold write_u32, write_bytes. rewrite length_to_le_bytes. lia. Qed.

Lemma core_size : length core = (length data + 8 * (ni + ne) + 32 * ne + (if hashless then 0 else 32 * ni))%nat.
Proof.
  destruct Hok as [He Hc _ _ Hx Hh _]. unfold core. rewrite !length_app, (length_mjoin _ 8 entry_bytes_size), !words_size, Hx, Hh.
  apply Forall2_length in He. destruct hashless; lia.
Qed.

Lemma payload_size : length payload = (length head + 4 * length roots + length data_len + length core + length (write_advice_map am))%nat.
Proof. unfold payload. rewrite !length_app, root_section_size. lia. Qed.

Lemma is_hashless_flags : is_hashless_flag flags_of = hashless.
Proof. unfold flags_of. by destruct hashless. Qed.

Lemma count_ready {R} `{RL : ReaderLaws R} (c s : Z) what r bs : ready r bs -> 0 < s -> c * s <= Z.of_nat (length bs) ->
  validate_budgeted_count c s what r = (Ok tt, r).
Proof.
  intros Hr Hs Hc. unfold validate_budgeted_count. unfold bind, gets. rewrite (proj2 (Z.ltb_ge _ _)); [done|].
  by eapply max_alloc_ready.
Qed.

Lemma magic_ready {R} `{RL : ReaderLaws R} r bs : ready r (MAGIC ++ [flags_of] ++ VERSION ++ bs) ->
  read_and_validate_header r = (Ok (flags_of, VERSION), advance r 8).
Proof.
  intros Hr. unfold read_and_validate_header. erewrite bind_Ok by (by eapply read_array_ready; [exact Hr|]).
  apply ready_advance in Hr. rewrite bool_decide_true by done. cbn [negb].
  erewrite bind_Ok by (by eapply read_u8_ready; exact Hr). apply (ready_advance _ [flags_of]) in Hr.
  erewrite bind_Ok by (by eapply read_array_ready; [exact Hr|]). rewrite bool_decide_true by done. cbn [negb].
  rewrite !advance_add. unfold flags_of. by destruct hashless.
Qed.

Section Scan.
Context {R : Type} `{RL : ReaderLaws R}.

Lemma overflow_fits {A} (o : option A) a what : o = Some a -> overflow o what = Ok a.
Proof. by intros ->. Qed.
Lemma checked_add_fits a b : a + b <= U64_MAX -> checked_add a b = Some (a + b).
Proof. intros Hab. unfold checked_add, USIZE_MAX. by rewrite (proj2 (Z.leb_le _ _)). Qed.
Lemma checked_mul_fits a b : a * b <= U64_MAX -> checked_mul a b = Some (a * b).
Proof. intros Hab. unfold checked_mul, USIZE_MAX. by rewrite (proj2 (Z.leb_le _ _)). Qed.

Lemma lift_Ok {E S A} (r : res E A) a (s : S) : r = Ok a -> lift_res r s = (Ok a, s).
Proof. by intros ->. Qed.

Definition counts : list Z := write_usize (Z.of_nat ni) ++ write_usize (Z.of_nat ne) ++ write_usize (Z.of_nat (length roots)).

Definition payload_header (offset : Z) : MastForestHeader :=
  mkMastForestHeader flags_of (Z.of_nat (ni + ne)) (Z.of_nat ni) (Z.of_nat ne) (Z.of_nat (length roots))
    offset (Z.of_nat (length data)) (Z.of_nat ne * 32) (Z.of_nat (ni + ne) * 8) (Z.of_nat (length core)).

Lemma header_ready (t : TrackingReader R) rest : ready t (counts ++ root_section ++ data_len ++ core ++ rest) ->
  header_read_from flags_of t =
    (Ok (payload_header (tr_offset t + Z.of_nat (length counts))), advance t (length (counts ++ root_section ++ data_len))).
Proof.
  intros Hr. destruct Hok as [He Hc Hmax Hext Hx Hh Hs]. pose proof core_size as Hcore. pose proof root_section_size as Hrs.
  rewrite payload_size in Hs. unfold counts in Hr. rewrite <- !app_assoc in Hr. unfold header_read_from.
  assert (MAX_NODES <= 1073741823) as HM by done. unfold U64_MAX in Hs.
  erewrite bind_Ok by (eapply (read_usize_ready (Z.of_nat ni)); [unfold U64_MAX; lia|exact Hr]). apply ready_advance in Hr.
  erewrite bind_Ok by (eapply (read_usize_ready (Z.of_nat ne)); [unfold U64_MAX; lia|exact Hr]). apply ready_advance in Hr.
  erewrite bind_Ok by (apply lift_Ok, overflow_fits, checked_add_fits; unfold U64_MAX; lia).
  rewrite <- Nat2Z.inj_add, (proj2 (Z.ltb_ge _ _)) by lia.
  assert (Hrest : (length core <= length (write_usize (Z.of_nat (length roots)) ++ root_section ++ data_len ++ core ++ rest))%nat)
    by (rewrite !length_app; lia).
  erewrite bind_Ok by (eapply count_ready; [exact Hr|done|unfold SERIALIZED_SIZE; lia]).
  erewrite bind_Ok by (eapply count_ready; [exact Hr|done|unfold WORD_SERIALIZED_BYTES; lia]).
  erewrite bind_Ok.
  2:{ rewrite is_hashless_flags. destruct hashless eqn:Eh; [done|]. eapply count_ready; [exact Hr|done|unfold WORD_SERIALIZED_BYTES; lia]. }
  erewrite bind_Ok by (eapply (read_usize_ready (Z.of_nat (length roots))); [unfold U64_MAX; lia|exact Hr]). apply ready_advance in Hr.
  erewrite bind_Ok by (eapply count_ready; [exact Hr|done|rewrite !length_app; lia]).
  erewrite bind_Ok by (apply lift_Ok, overflow_fits, checked_mul_fits; unfold U64_MAX; lia).
  erewrite bind_Ok by (apply lift_Ok, overflow_fits, checked_mul_fits; unfold U64_MAX, WORD_SERIALIZED_BYTES; lia).
  erewrite bind_Ok by (apply lift_Ok, overflow_fits, checked_mul_fits; unfold U64_MAX, SERIALIZED_SIZE; lia).
  erewrite (bind_Ok _ _ _ (if hashless then 0 else Z.of_nat ni * 32)).
  2:{ apply lift_Ok. rewrite is_hashless_flags. destruct hashless eqn:Eh; [done|].
      apply overflow_fits, checked_mul_fits; unfold U64_MAX, WORD_SERIALIZED_BYTES; lia. }
  erewrite bind_Ok by (apply lift_Ok, overflow_fits, checked_add_fits; unfold U64_MAX, WORD_SERIALIZED_BYTES; destruct hashless; lia).
  erewrite bind_Ok by done.
  erewrite bind_Ok by (eapply read_slice_ready; [exact Hr|lia]). apply ready_advance in Hr.
  erewrite bind_Ok by (eapply (read_usize_ready (Z.of_nat (length data))); [unfold U64_MAX; lia|exact Hr]). apply ready_advance in Hr.
  erewrite (bind_Ok _ _ _ (Z.of_nat (length core))).
  2:{ apply lift_Ok, overflow_fits. rewrite checked_add_fits by (unfold U64_MAX, WORD_SERIALIZED_BYTES; destruct hashless; lia).
      cbn [mbind option_bind]. rewrite checked_add_fits by (unfold U64_MAX, WORD_SERIALIZED_BYTES, SERIALIZED_SIZE; destruct hashless; lia).
      f_equal. unfold WORD_SERIALIZED_BYTES, SERIALIZED_SIZE. destruct hashless; lia. }
  erewrite bind_Ok by (eapply count_ready; [exact Hr|done|rewrite length_app; lia]).
  unfold ret, payload_header. f_equal; [|by rewrite !advance_add; f_equal; unfold counts; rewrite !length_app; unfold data_len; lia].
  do 2 f_equal. unfold counts. rewrite !length_app. cbn. lia.
Qed.

Lemma count_externals_ready l lbs (s : SliceReader) c rest : Forall2 (fun e b => entry_fits e /\ entry_write e = Some b) l lbs ->
  ready s (mjoin lbs ++ rest) -> 0 <= c -> c + Z.of_nat (length l) <= U64_MAX ->
  fst (count_externals (length l) c s) = Ok (c + Z.of_nat (externals_of l)).
Proof.
  intros He. revert s c. induction He as [|e b l' lbs' [Hf Hw] _ IH]; intros s c Hr Hc Hl.
  { cbn. f_equal. lia. }
  change (mjoin (b :: lbs')) with (b ++ mjoin lbs') in Hr. rewrite <- app_assoc in Hr.
  destruct (entry_write_fits e Hf) as (b' & Hw' & Hlb & Hread). rewrite Hw in Hw'. apply (inj Some) in Hw' as <-.
  cbn [length count_externals]. erewrite bind_Ok by (by eapply (Hread _ _ slice_reader_laws)). apply ready_advance in Hr. rewrite Hlb in Hr.
  erewrite (bind_Ok _ _ _ (c + Z.of_nat (externals_of [e]))).
  2:{ apply lift_Ok. cbn [length] in Hl. assert (Z.of_nat (externals_of [e]) = if entry_external e then 1 else 0) as -> by (by destruct e).
      destruct e; cbn; try (f_equal; lia). apply overflow_fits. apply checked_add_fits. lia. }
  assert (Z.of_nat (externals_of [e]) <= 1) by (by destruct e). cbn [length] in Hl.
  assert (externals_of (e :: l') = externals_of [e] + externals_of l')%nat as -> by (unfold externals_of; rewrite !filter_cons; by destruct e).
  rewrite IH; [f_equal; lia|exact Hr|lia|lia].
Qed.

Lemma scan_ready (t : TrackingReader R) rest : ready t (core ++ rest) ->
  tr_offset t = Z.of_nat (length head + length root_section + length data_len) ->
  scan_layout_sections (payload_header (Z.of_nat (length head))) t = (Ok payload_layout, advance t (length core)).
Proof.
  intros Hr Ht. destruct Hok as [He Hc Hmax Hext Hx Hh Hs]. pose proof core_size as Hcore. pose proof root_section_size as Hrs.
  pose proof (length_mjoin _ 8 entry_bytes_size) as Heb. pose proof (words_size xs) as Hxs. rewrite Hx in Hxs. pose proof (Forall2_length _ _ _ He) as Hel.
  rewrite payload_size in Hs. unfold U64_MAX in Hs. unfold scan_layout_sections. cbn [hd_core_tail_len hd_basic_block_len hd_node_entries_len
    hd_flags hd_external_digests_len hd_node_count hd_external_node_count hd_internal_node_count hd_roots_count hd_roots_offset payload_header].
  erewrite bind_Ok by done. erewrite bind_Ok by (eapply read_slice_ready; [exact Hr|done]).
  erewrite bind_Ok by (apply lift_Ok, overflow_fits, checked_add_fits; unfold U64_MAX; lia).
  erewrite bind_Ok by (apply lift_Ok, overflow_fits, checked_add_fits; unfold U64_MAX; lia).
  erewrite (bind_Ok _ _ _ (ly_node_hash_offset payload_layout)).
  2:{ apply lift_Ok. rewrite is_hashless_flags. cbn [ly_node_hash_offset payload_layout]. destruct hashless eqn:Eh; [done|].
      erewrite overflow_fits by (apply checked_add_fits; unfold U64_MAX; lia). cbn [rbind]. unfold entries_at. do 2 f_equal. lia. }
  erewrite bind_Ok by (apply lift_Ok, overflow_fits, checked_add_fits; unfold U64_MAX; lia).
  erewrite bind_Ok by (apply lift_Ok, overflow_fits, checked_add_fits; unfold U64_MAX; lia).
  erewrite (bind_Ok _ _ _ (mjoin ebs)).
  2:{ replace (Z.to_nat (Z.of_nat (length data))) with (length data) by lia.
      replace (Z.to_nat (Z.of_nat (length data) + Z.of_nat (ni + ne) * 8)) with (length data + length (mjoin ebs))%nat by lia.
      unfold core. by rewrite slice_middle. }
  erewrite bind_Ok.
  2:{ apply lift_Ok. unfold validate_node_entries. rewrite Nat2Z.id, <- Hc.
      rewrite (count_externals_ready es ebs _ 0 []); [|done|apply slice_reader_ready; unfold U64_MAX; lia|lia|unfold U64_MAX; lia].
      cbn [rbind]. by rewrite Hext, Z.add_0_l, Z.eqb_refl. }
  unfold ret, payload_layout, entries_at. do 3 f_equal; lia.
Qed.
 
Lemma layout_ready allow (r : R) : (hashless = true -> allow = true) -> ready r payload ->
  let t := tracking_new_recording r in
  ready t payload /\ read_header_and_scan_layout allow t =
    (Ok (flags_of, payload_layout), advance t (length (head ++ root_section ++ data_len ++ core))).
Proof.
  intros Ha Hr t. assert (Ht : ready t payload).
  { split; [done|]. change (0 + Z.of_nat (length payload) <= U64_MAX). pose proof (pk_size Hok). lia. }
  split; [done|]. unfold payload in Ht. set (h8 := MAGIC ++ [flags_of] ++ VERSION).
  assert (Hh : head = h8 ++ counts) by (unfold head, h8, counts; by rewrite <- !app_assoc).
  assert (length h8 = 8%nat) as H8 by done. rewrite Hh, <- !app_assoc in Ht. unfold read_header_and_scan_layout.
  erewrite bind_Ok.
  2:{ eapply magic_ready. unfold h8 in Ht. rewrite <- !app_assoc in Ht. exact Ht. }
  apply ready_advance in Ht. rewrite H8 in Ht. cbv beta iota. rewrite is_hashless_flags.
  assert (hashless && negb allow = false) as ->. { destruct hashless; [rewrite Ha|]; done. }
  erewrite bind_Ok by (eapply header_ready; exact Ht). do 2 rewrite app_assoc in Ht. rewrite <- (app_assoc counts) in Ht. apply ready_advance in Ht.
  erewrite bind_Ok.
  2:{ replace (tr_offset (advance t 8) + Z.of_nat (length counts)) with (Z.of_nat (length head)) by (rewrite Hh, (length_app h8), H8; cbn [advance tracking_reader_laws tr_offset t tracking_new_recording]; lia).
      eapply scan_ready; [exact Ht|]. cbn [advance tracking_reader_laws tr_offset t tracking_new_recording].
      rewrite Hh, (length_app h8), (length_app counts), (length_app root_section), H8. lia. }
  assert (8 + length (counts ++ root_section ++ data_len) + length core = length (head ++ root_section ++ data_len ++ core))%nat as Hn
    by (rewrite Hh, <- H8, <- !length_app; f_equal; by rewrite <- !app_assoc).
  unfold ret. by rewrite <- Hn, !advance_add.
Qed.

(** Decoding a payload consumes it and records its bytes. *)
Lemma decode_ready allow rem (r : R) : (hashless = true -> allow = true) -> ready r payload ->
  decode_from_reader_inner allow rem r =
    (Ok (flags_of, mkUntrustedMastForest payload payload_layout am rem), advance r (length payload)).
Proof.
  intros Ha Hr. destruct (layout_ready allow r Ha Hr) as [Ht Hl]. unfold decode_from_reader_inner.
  assert (Hp : payload = (head ++ root_section ++ data_len ++ core) ++ write_advice_map am ++ [])
    by (unfold payload; by rewrite app_nil_r, <- !app_assoc).
  assert (Hrec : into_recorded (advance (tracking_new_recording r) (length payload)) = payload)
    by (cbn; apply (upcoming_ready r payload []); by rewrite app_nil_r).
  erewrite bind_Ok by exact Hl. cbv beta iota. rewrite Hp in Ht. apply ready_advance in Ht.
  erewrite bind_Ok.
  2:{ eapply read_advice_map_ready; [|exact Ht]. pose proof (pk_size Hok) as Hs. rewrite payload_size in Hs. lia. }
  erewrite bind_Ok by done. rewrite advance_add, <- length_app.
  assert ((head ++ root_section ++ data_len ++ core) ++ write_advice_map am = payload) as -> by (by rewrite Hp, app_nil_r).
  unfold gets. rewrite Hrec. done.
Qed.

End Scan.

(** ** Random access into a payload *)

Lemma payload_entry i e : es !! i = Some e -> read_node_entry_at payload_layout payload (Z.of_nat i) = Ok e.
Proof.
  intros Hi. pose proof (pk_size Hok) as Hs. pose proof (pk_count Hok) as Hc. pose proof (lookup_lt_Some _ _ _ Hi).
  destruct (Forall2_lookup_l _ _ _ _ _ (pk_entries Hok) Hi) as (b & Hb & Hf & Hw).
  destruct (entry_write_fits e Hf) as (b' & Hw' & Hl & Hread). rewrite Hw in Hw'. apply (inj Some) in Hw' as <-.
  unfold read_node_entry_at. cbn [ly_node_count ly_node_entry_offset payload_layout]. rewrite (proj2 (Z.leb_gt _ _)) by lia.
  assert (entries_at = length (head ++ root_section ++ data_len ++ data)) as -> by (unfold entries_at; rewrite !length_app; lia).
  erewrite fixed_entry; [|unfold payload, core; rewrite <- !app_assoc; do 4 f_equal; reflexivity|exact entry_bytes_size|exact Hb|exact Hs|done].
  cbn [rbind]. rewrite (Hread _ _ slice_reader_laws _ []); [done|]. apply slice_reader_ready. by rewrite Hl.
Qed.

Lemma payload_data : basic_block_data payload (ly_basic_block_offset payload_layout) (ly_basic_block_len payload_layout) = Ok data.
Proof.
  pose proof (pk_size Hok) as Hs. unfold basic_block_data. cbn [ly_basic_block_offset ly_basic_block_len payload_layout].
  pose proof payload_size as Hp. pose proof root_section_size. assert (length data <= length core)%nat by (unfold core; rewrite length_app; lia).
  erewrite overflow_fits by (apply checked_add_fits; lia). cbn [rbind]. rewrite (proj2 (Z.ltb_ge _ _)) by lia.
  pose proof (slice_middle (head ++ root_section ++ data_len) data (mjoin ebs ++ (xs ≫= write_into) ++ (hs ≫= write_into) ++ write_advice_map am)) as Hsl.
  rewrite <- Nat2Z.inj_add, !Nat2Z.id. rewrite !(length_app head), (length_app root_section) in Hsl. rewrite !Nat.add_assoc in Hsl.
  unfold payload, core. rewrite <- !app_assoc in Hsl |- *. rewrite <- (app_assoc (xs ≫= write_into)). by rewrite Hsl.
Qed.

Lemma payload_root i r : roots !! i = Some r -> (r < ni + ne)%nat -> read_procedure_root_at payload_layout payload (Z.of_nat i) = Ok r.
Proof.
  intros Hi Hr. pose proof (lookup_lt_Some _ _ _ Hi). assert (MAX_NODES <= 1073741823) as HM by done. pose proof (pk_max Hok) as Hm.
  unfold read_procedure_root_at. cbn [ly_roots_count ly_roots_offset ly_node_count payload_layout].
  rewrite (proj2 (Z.leb_gt _ _)) by lia.
  rewrite (fixed_entry payload head ((fun r => write_u32 (Z.of_nat r)) <$> roots) (data_len ++ core ++ write_advice_map am) _ i (write_u32 (Z.of_nat r))).
  - cbn [rbind]. unfold write_u32, write_bytes. rewrite from_to_le_bytes_small by (change (256 ^ Z.of_nat 4) with 4294967296; lia).
    unfold from_u32_with_node_count. rewrite (proj2 (Z.ltb_lt _ _)), Nat2Z.id by lia. done.
  - by rewrite mjoin_fmap.
  - apply Forall_fmap, Forall_true. intros x. apply length_to_le_bytes.
  - by rewrite list_lookup_fmap, Hi.
  - apply (pk_size Hok).
  - done.
Qed.

Lemma payload_external i d : xs !! i = Some d -> read_digest_entry payload (ly_external_digest_offset payload_layout) (Z.of_nat i) = Ok d.
Proof.
  intros Hi. cbn [ly_external_digest_offset payload_layout].
  assert (entries_at + length (mjoin ebs) = length (head ++ root_section ++ data_len ++ data ++ mjoin ebs))%nat as -> by (unfold entries_at; rewrite !length_app; lia).
  eapply digest_entry; [|exact Hi|apply (pk_size Hok)]. unfold payload, core. rewrite <- !app_assoc. do 5 f_equal.
Qed.

Lemma payload_hash i d o : hs !! i = Some d -> ly_node_hash_offset payload_layout = Some o -> read_digest_entry payload o (Z.of_nat i) = Ok d.
Proof.
  intros Hi. cbn [ly_node_hash_offset payload_layout]. destruct hashless; [done|]. intros <-%(inj Some).
  assert (entries_at + length (mjoin ebs) + length (xs ≫= write_into) =
    length (head ++ root_section ++ data_len ++ data ++ mjoin ebs ++ (xs ≫= write_into)))%nat as -> by (unfold entries_at; rewrite !length_app; lia).
  eapply digest_entry; [|exact Hi|apply (pk_size Hok)]. unfold payload, core. rewrite <- !app_assoc. do 6 f_equal.
Qed.

End Payload.

(** ** Forests survive their wire format

    What the serializer writes for a forest, and that materializing it gives the
    forest back: with the stored hashes, and with hashes rebuilt from the nodes. *)

(** ** Blocks *)

(** The batches of the block come from the batching algorithm. *)
Definition batched (n : MastNode) : Prop :=
  match n with NBlock b => exists ops, batch_ops ops = Some (op_batches b) | _ => True end.

Definition block_bytes (n : MastNode) : option (list Z) :=
  match n with NBlock b => encode_basic_block b | _ => Some [] end.

Definition block_decodes (n : MastNode) (bytes : list Z) : Prop :=
  match n with
  | NBlock b => forall before after, Z.of_nat (length (before ++ bytes ++ after)) <= U32_MAX ->
      decode_operations (before ++ bytes ++ after) (Z.of_nat (length before)) = Ok (op_batches b)
  | _ => True
  end.

Lemma block_wire n : batched n -> exists bytes, block_bytes n = Some bytes /\ block_decodes n bytes.
Proof.
  destruct n as [[bs d]| | | | | |]; cbn [batched block_bytes op_batches]; try (intros _; by exists []).
  intros [ops Hb]. destruct (batch_ops_layout ops) as (gss & Hgss & Hwf & _). rewrite Hb in Hgss. apply (inj Some) in Hgss as ->.
  pose proof (encode_layout gss d Hwf) as He. eexists. split; [exact He|]. cbn [block_decodes op_batches]. intros before after Hlen.
  apply decode_encode_block with d; [done| |unfold U64_MAX; unfold U32_MAX in Hlen; lia|exact He].
  destruct (length_metadata gss Hwf) as [_ Hp]. revert Hlen. rewrite !length_app, Hp. lia.
Qed.

Lemma blocks_wire ns : Forall batched ns -> exists blks, Forall2 (fun n b => block_bytes n = Some b /\ block_decodes n b) ns blks.
Proof.
  induction 1 as [|n ns Hn _ [blks IH]]; [by exists []|]. destruct (block_wire n Hn) as (b & Hb & Hd). exists (b :: blks). by constructor.
Qed.

(** ** What is written *)

Notation is_internal n := (is_external n = false).

Lemma entry_new_external n o : entry_external (entry_new n o) = is_external n.
Proof. destruct n; try done; cbn; by case_match. Qed.

Lemma entry_new_offset n o o' : (match n with NBlock _ => False | _ => True end) -> entry_new n o = entry_new n o'.
Proof. by destruct n. Qed.

Definition block_offset (blks : list (list Z)) (i : nat) : Z := wrap32 (Z.of_nat (length (mjoin (take i blks)))).

Lemma write_nodes h ns blks : Forall2 (fun n b => block_bytes n = Some b /\ block_decodes n b) ns blks ->
  exists es, foldl (write_node h) (Some (mkWriteState [] [] [] [])) ns =
    Some (mkWriteState (mjoin blks) es (digest <$> filter (fun n => is_external n = true) ns)
            (if h then [] else digest <$> filter (fun n => is_internal n) ns)) /\
  length es = length ns /\ forall i n, ns !! i = Some n -> es !! i = Some (entry_new n (block_offset blks i)).
Proof.
  revert blks. induction ns as [|n ns IH] using rev_ind; intros blks Hf.
  { apply Forall2_nil_inv_l in Hf as ->. exists []. split; [by destruct h|]. by split. }
  apply Forall2_app_inv_l in Hf as (b1 & b2 & Hf1 & (b & b' & [Hb _] & ->%Forall2_nil_inv_l & ->)%Forall2_cons_inv_l & ->).
  destruct (IH b1 Hf1) as (es & Hfold & Hes & Hlook).
  exists (es ++ [entry_new n (wrap32 (Z.of_nat (length (mjoin b1))))]). rewrite foldl_app, Hfold. cbn [foldl write_node mbind option_bind].
  fold (block_bytes n). rewrite Hb. cbn [mbind option_bind ws_node_data ws_entries ws_external_digests ws_node_hashes].
  split; [|split].
  - rewrite join_app, !filter_app, !fmap_app. change (mjoin [b]) with (b ++ []). rewrite app_nil_r.
    assert (entry_new n (match n with NBlock _ => wrap32 (Z.of_nat (length (mjoin b1))) | _ => 0 end) = entry_new n (wrap32 (Z.of_nat (length (mjoin b1))))) as ->
      by (by destruct n).
    rewrite !filter_cons, !filter_nil. destruct (is_external n), h; cbn; by rewrite ?app_nil_r.
  - rewrite !length_app, Hes. done.
  - intros i m [Hi|[-> <-]]%lookup_snoc.
    + rewrite lookup_app_l by (rewrite Hes; by eapply lookup_lt_Some). rewrite (Hlook _ _ Hi). unfold block_offset.
      rewrite take_app_le; [done|]. rewrite <- (Forall2_length _ _ _ Hf1). apply lookup_lt_Some in Hi. lia.
    + rewrite <- Hes at 1. rewrite (proj2 (lookup_snoc es _ (length es) _)) by (by right). unfold block_offset.
      rewrite (Forall2_length _ _ _ Hf1), take_app_length. done.
Qed.

Lemma filter_position {A} (P : A -> Prop) `{!forall x, Decision (P x)} l i x : l !! i = Some x -> P x ->
  filter P l !! length (filter P (take i l)) = Some x.
Proof.
  intros Hi Hx. assert (filter P l = filter P (take i l) ++ filter P (x :: drop (S i) l)) as ->
    by (rewrite <- filter_app; f_equal; symmetry; by apply take_drop_middle).
  rewrite lookup_app_r, Nat.sub_diag by lia. by rewrite filter_cons_True.
Qed.

Lemma filter_none {A} (P : A -> Prop) `{!forall x, Decision (P x)} l : (forall x, x ∈ l -> ~ P x) -> filter P l = [].
Proof.
  intros Hl. destruct (filter P l) as [|x l'] eqn:Hf; [done|]. exfalso.
  assert (x ∈ filter P l) as [Hx Hin]%list_elem_of_filter by (rewrite Hf; apply list_elem_of_here). by apply (Hl x).
Qed.

Lemma count_while_dense ns : classes_sorted ns -> count_while_external ns = length (filter (fun n => is_external n = true) ns).
Proof.
  intros Hc. induction ns as [|n ns IH]; [done|]. cbn [count_while_external]. rewrite filter_cons.
  destruct (is_external n) eqn:En.
  - rewrite decide_True by done. cbn [length]. f_equal. apply IH. intros i j a b Ha Hb Hij. apply (Hc (S i) (S j) a b Ha Hb). lia.
  - rewrite decide_False by done. rewrite filter_none; [done|]. intros m [j Hj]%list_elem_of_lookup Em.
    pose proof (Hc 0%nat (S j) n m eq_refl Hj ltac:(lia)) as Hr. destruct m; try done. destruct n; cbn in Hr; try done; lia.
Qed.

Lemma filter_split ns : (length (filter (fun n => is_external n = true) ns) + length (filter (fun n => is_internal n) ns) = length ns)%nat.
Proof. induction ns as [|n ns IH]; [done|]. rewrite !filter_cons. destruct (is_external n); repeat case_decide; cbn [length]; try done; lia. Qed.

(** ** The payload of a forest *)

Record wire_ok (f : MastForest) : Prop := {
  wk_wf : forest_wf f;
  wk_count : Z.of_nat (length (nodes f)) <= MAX_NODES;
  wk_dense : dense (nodes f);
  wk_batched : Forall batched (nodes f)
}.

Section Forest.
Context `{Poseidon2} (f : MastForest) (Hf : wire_ok f) (h : bool).

Notation ns := (nodes f).
Notation ne := (length (filter (fun n => is_external n = true) (nodes f))).
Notation ni := (length (filter (fun n => is_internal n) (nodes f))).
Notation xs := (digest <$> filter (fun n => is_external n = true) (nodes f)).
Notation hs := (if h then [] else digest <$> filter (fun n => is_internal n) (nodes f)).

Lemma node_entry_fits i n blks : ns !! i = Some n -> entry_fits (entry_new n (block_offset blks i)).
Proof.
  intros Hn. pose proof (Forall_lookup_1 _ _ _ _ (fw_nodes _ (wk_wf _ Hf)) Hn) as [Hc _]. pose proof (wk_count _ Hf) as Hmax.
  assert (MAX_NODES <= 2 ^ 30) as HM by done.
  assert (Ho : 0 <= block_offset blks i <= 4294967295).
  { unfold block_offset, wrap32. pose proof (Z.mod_pos_bound (Z.of_nat (length (mjoin (take i blks)))) (2 ^ 32)). lia. }
  assert (Hid : forall c, c ∈ children n -> 0 <= Z.of_nat c < 2 ^ 30) by (intros c Hcc; eapply Forall_forall in Hcc; [|exact Hc]; cbv beta in Hcc; lia).
  destruct n as [n|n|n|n|n|n|n]; cbn [entry_new entry_fits children] in *; try done; repeat case_match; cbn [entry_fits]; unfold U32_MAX; try done;
    repeat split; try (apply Hid; repeat first [apply list_elem_of_here|apply list_elem_of_further]);
    pose proof (Hid _ ltac:(apply list_elem_of_here)); lia.
Qed.

Lemma write_roots (rs : list nat) :
  write_into ((fun r => mkU32 (Z.of_nat r)) <$> rs) = write_usize (Z.of_nat (length rs)) ++ root_section rs.
Proof.
  cbn [write_into vec_serializable]. rewrite length_fmap. f_equal. unfold root_section, write_many.
  induction rs as [|r rs IH]; [done|]. rewrite fmap_cons, !bind_cons, IH. done.
Qed.

Lemma write_data (l : list Z) : write_into (mkU8 <$> l) = data_len l ++ l.
Proof.
  cbn [write_into vec_serializable]. rewrite length_fmap. unfold data_len. f_equal. unfold write_many.
  induction l as [|x l IH]; [done|]. rewrite fmap_cons, bind_cons, IH. done.
Qed.

Lemma entry_externals l es : Forall2 (fun n e => entry_external e = is_external n) l es ->
  externals_of es = length (filter (fun n => is_external n = true) l).
Proof.
  unfold externals_of. induction 1 as [|n e l es He _ IH]; [done|]. rewrite !filter_cons, He. by case_decide; cbn [length]; rewrite IH.
Qed.

Lemma forest_payload : exists blks es ebs,
  Forall2 (fun n b => block_bytes n = Some b /\ block_decodes n b) ns blks /\
  (forall i n, ns !! i = Some n -> es !! i = Some (entry_new n (block_offset blks i))) /\
  write_into_with_options f h = Some (payload h ni ne (roots f) (mjoin blks) ebs xs hs (advice_map f)) /\
  (Z.of_nat (length (payload h ni ne (roots f) (mjoin blks) ebs xs hs (advice_map f))) <= U64_MAX ->
   payload_ok h ni ne (roots f) (mjoin blks) es ebs xs hs (advice_map f)).
Proof.
  destruct (blocks_wire ns (wk_batched _ Hf)) as [blks Hb]. destruct (write_nodes h ns blks Hb) as (es & Hfold & Hlen & Hes).
  assert (Hfit : Forall entry_fits es).
  { apply Forall_lookup. intros i e Hi. destruct (lookup_lt_is_Some_2 ns i) as [n Hn]; [apply lookup_lt_Some in Hi; lia|].
    rewrite (Hes _ _ Hn) in Hi. apply (inj Some) in Hi as <-. by apply node_entry_fits. }
  assert (exists ebs, Forall2 (fun e b => entry_fits e /\ entry_write e = Some b) es ebs) as [ebs Hebs].
  { clear -Hfit. induction Hfit as [|e es He _ [ebs IH]]; [by exists []|]. destruct (entry_write_fits e He) as (b & Hw & _).
    exists (b :: ebs). by constructor. }
  exists blks, es, ebs. split; [done|]. split; [done|]. split.
  - unfold write_into_with_options. rewrite (proj2 (validate_dense_iff ns) (wk_dense _ Hf)), Hfold. cbn [mbind option_bind ws_entries ws_node_data ws_external_digests ws_node_hashes].
    assert (mapM entry_write es = Some ebs) as -> by (apply mapM_Some; eapply Forall2_impl; [exact Hebs|]; by intros e b [_ ?]).
    cbn [mbind option_bind]. rewrite (count_while_dense ns (dense_classes _ (wk_dense _ Hf))). pose proof (filter_split ns) as Hsplit.
    replace (length ns - ne)%nat with ni by lia. rewrite write_roots, write_data.
    assert ((if h then [] else hs ≫= write_into) = (hs ≫= write_into)) as -> by (by destruct h).
    f_equal. unfold payload, head, core, flags_of, write_bytes, write_u8. rewrite <- !app_assoc. by do 11 f_equal.
  - intros Hsize. pose proof (filter_split ns) as Hsplit. pose proof (wk_count _ Hf) as Hmax. split; try done.
    + lia.
    + by replace (ni + ne)%nat with (length ns) by lia.
    + apply entry_externals. apply Forall2_same_length_lookup_2; [done|]. intros i n e Hn He. rewrite (Hes _ _ Hn) in He.
      apply (inj Some) in He as <-. apply entry_new_external.
    + by rewrite length_fmap.
    + destruct h; [done|]. by rewrite length_fmap.
Qed.

(** ** Reading the payload back *)

Section Back.
Context (blks : list (list Z)) (es : list MastNodeEntry) (ebs : list (list Z)).
Context (Hblks : Forall2 (fun n b => block_bytes n = Some b /\ block_decodes n b) ns blks).
Context (Hes : forall i n, ns !! i = Some n -> es !! i = Some (entry_new n (block_offset blks i))).
Context (Hok : payload_ok h ni ne (roots f) (mjoin blks) es ebs xs hs (advice_map f)).
Notation bytes := (payload h ni ne (roots f) (mjoin blks) ebs xs hs (advice_map f)).
Notation ly := (payload_layout h ni ne (roots f) (mjoin blks) ebs xs hs).
Context (Hsize : Z.of_nat (length bytes) <= U32_MAX).

Lemma node_count : ly_node_count ly = Z.of_nat (length ns).
Proof. cbn [ly_node_count payload_layout]. pose proof (filter_split ns). f_equal. lia. Qed.

Lemma data_fits : Z.of_nat (length (mjoin blks)) <= U32_MAX.
Proof. revert Hsize. unfold payload, core. rewrite !length_app. lia. Qed.

Lemma nodes_fit : 8 * Z.of_nat (length ns) <= Z.of_nat (length bytes).
Proof.
  rewrite payload_size. pose proof (core_size _ _ _ _ _ _ _ _ _ _ Hok). pose proof (filter_split ns). lia.
Qed.

Lemma hashless_layout : ly_is_hashless ly = h.
Proof. unfold ly_is_hashless. cbn [ly_node_hash_offset payload_layout]. by case h. Qed.

Definition at_offset (i : nat) : nat := length (mjoin (take i blks)).

Lemma block_offset_exact i : block_offset blks i = Z.of_nat (at_offset i).
Proof.
  unfold block_offset, wrap32, at_offset. apply Z.mod_small. pose proof data_fits as Hd. unfold U32_MAX in Hd.
  rewrite <- (take_drop i blks), join_app, length_app in Hd. lia.
Qed.

Lemma entry_back i n : ns !! i = Some n -> read_node_entry_at ly bytes (Z.of_nat i) = Ok (entry_new n (Z.of_nat (at_offset i))).
Proof. intros Hn. rewrite <- block_offset_exact. apply (payload_entry _ _ _ _ _ _ _ _ _ _ Hok). by apply Hes. Qed.

Lemma is_ext_back i n : ns !! i = Some n -> is_ext bytes ly i = is_external n.
Proof. intros Hn. unfold is_ext. rewrite (entry_back _ _ Hn), <- (entry_new_external n (Z.of_nat (at_offset i))). by destruct (entry_new n _). Qed.

Lemma ext_before_back i : (i <= length ns)%nat -> ext_before bytes ly i = Z.of_nat (length (filter (fun n => is_external n = true) (take i ns))).
Proof.
  induction i as [|i IH]; intros Hi; [done|]. destruct (lookup_lt_is_Some_2 ns i) as [n Hn]; [lia|]. cbn [ext_before].
  rewrite IH, (is_ext_back _ _ Hn), (take_S_r _ _ _ Hn), filter_app, length_app by lia. rewrite filter_cons, filter_nil.
  destruct (is_external n); case_decide; cbn [length]; try done; lia.
Qed.

Lemma rfold_seq_Ok {E T} (g : T -> nat -> res E T) (st : nat -> T) s0 k : s0 = st 0%nat -> (forall i, (i < k)%nat -> g (st i) i = Ok (st (S i))) ->
  rfold g s0 (seq 0 k) = Ok (st k).
Proof.
  intros ->. induction k as [|k IH]; intros Hg; [done|]. rewrite seq_S, rfold_app, IH by (intros i Hi; apply Hg; lia). cbn [rbind rfold].
  by rewrite Nat.add_0_l, Hg by lia.
Qed.

Lemma slots_back rem rem' : reserve_node_capacity rem (Z.of_nat (length ns)) 4 = Ok rem' ->
  build_digest_slot_by_node bytes ly rem = Ok (slot bytes ly <$> seq 0 (length ns), rem').
Proof.
  intros Hr. unfold build_digest_slot_by_node. rewrite node_count, Hr, Nat2Z.id. cbn [rbind].
  rewrite (rfold_seq_Ok _ (fun k => (slot bytes ly <$> seq 0 k, ext_before bytes ly k, Z.of_nat k - ext_before bytes ly k)) _ (length ns)); [done|done|].
  intros i Hi. destruct (lookup_lt_is_Some_2 ns i Hi) as [n Hn]. unfold digest_slot. rewrite (entry_back _ _ Hn). cbn [rbind].
  pose proof (ext_before_range bytes ly i). pose proof (wk_count _ Hf). assert (MAX_NODES < U32_MAX) by done.
  assert (Hx : is_ext bytes ly i = entry_external (entry_new n (Z.of_nat (at_offset i)))) by (by rewrite (is_ext_back _ _ Hn), entry_new_external).
  assert (Hsl : slot bytes ly <$> seq 0 (S i) = (slot bytes ly <$> seq 0 i) ++ [if is_ext bytes ly i then ext_before bytes ly i else Z.of_nat i - ext_before bytes ly i])
    by (by rewrite seq_S, fmap_app).
  rewrite Hsl. cbn [ext_before]. rewrite Hx. destruct (entry_new n _); cbn [entry_external]; rewrite (proj2 (Z.leb_le _ _)) by lia; f_equal; apply pair_eq; (split; [apply pair_eq; split; [done|lia]|lia]).
Qed.

(** The digests, stored or rebuilt. *)
Definition digests_back (ds : ForestDigests) : Prop :=
  slot_by_node ds = slot bytes ly <$> seq 0 (length ns) /\
  match hash_table ds with Some t => t = digest <$> ns | None => is_Some (ly_node_hash_offset ly) end.

Lemma external_back i n : ns !! i = Some n -> is_external n = true ->
  read_digest_entry bytes (ly_external_digest_offset ly) (ext_before bytes ly i) = Ok (digest n).
Proof.
  intros Hn En. pose proof (lookup_lt_Some _ _ _ Hn). rewrite ext_before_back by lia.
  apply (payload_external _ _ _ _ _ _ _ _ _ _ Hok). rewrite list_lookup_fmap.
  by rewrite (filter_position (fun n => is_external n = true) ns i n Hn En).
Qed.

Lemma hash_back i n o : ns !! i = Some n -> is_external n = false -> ly_node_hash_offset ly = Some o ->
  read_digest_entry bytes o (Z.of_nat i - ext_before bytes ly i) = Ok (digest n).
Proof.
  intros Hn En Ho. pose proof (lookup_lt_Some _ _ _ Hn). rewrite ext_before_back by lia. pose proof (filter_split (take i ns)) as Hsp.
  rewrite length_take_le in Hsp by lia.
  replace (Z.of_nat i - _) with (Z.of_nat (length (filter (fun n => is_internal n) (take i ns)))) by lia.
  apply (payload_hash _ _ _ _ _ _ _ _ _ _ Hok); [|exact Ho]. destruct h; [done|]. rewrite list_lookup_fmap.
  by rewrite (filter_position (fun n => is_internal n) ns i n Hn En).
Qed.

Lemma digest_back ds i n o : digests_back ds -> ns !! i = Some n -> digest_at ds bytes ly i (entry_new n o) = Ok (digest n).
Proof.
  intros [Hs Ht] Hn. pose proof (lookup_lt_Some _ _ _ Hn). unfold digest_at.
  rewrite Hs, list_lookup_fmap, lookup_seq_lt, Nat.add_0_l by done. cbn [fmap option_fmap option_map get_or rbind].
  pose proof (entry_new_external n o) as Ee. unfold slot. rewrite (is_ext_back _ _ Hn), <- Ee.
  destruct (entry_external (entry_new n o)) eqn:Ex.
  - destruct (entry_new n o); try done. by apply external_back.
  - destruct (hash_table ds) as [t|]; [subst t; rewrite list_lookup_fmap, Hn; by destruct (entry_new n o)|].
    destruct Ht as [o' Ho]. rewrite Ho. cbn [get_or rbind]. rewrite (hash_back i n o' Hn (eq_sym Ee) Ho). by destruct (entry_new n o).
Qed.

Lemma decode_back i b : ns !! i = Some (NBlock b) -> decode_operations (mjoin blks) (Z.of_nat (at_offset i)) = Ok (op_batches b).
Proof.
  intros Hn. destruct (Forall2_lookup_l _ _ _ _ _ Hblks Hn) as (x & Hx & _ & Hd). cbn [block_decodes] in Hd.
  assert (Hm : mjoin blks = mjoin (take i blks) ++ x ++ mjoin (drop (S i) blks)).
  { rewrite <- (take_drop_middle _ _ _ Hx) at 1. by rewrite join_app. }
  pose proof data_fits as Hdf. unfold at_offset. rewrite Hm in Hdf |- *. by apply Hd.
Qed.

Lemma child_back i n c : ns !! i = Some n -> c ∈ children n ->
  (c < i)%nat /\ from_u32_with_node_count (Z.of_nat c) (ly_node_count ly) = Ok c /\
  checked_child_index (Z.of_nat i) (Z.of_nat c) (ly_node_count ly) = Ok c.
Proof.
  intros Hn Hc. pose proof (dense_backward _ (wk_dense _ Hf) _ _ _ Hn Hc) as Hlt. apply lookup_lt_Some in Hn. split; [done|].
  unfold from_u32_with_node_count, checked_child_index. rewrite node_count.
  rewrite (proj2 (Z.ltb_lt _ _)), !(proj2 (Z.leb_gt _ _)), Nat2Z.id by lia. done.
Qed.

Lemma builder_back i n : ns !! i = Some n ->
  try_into_mast_node_builder (entry_new n (Z.of_nat (at_offset i))) (ly_node_count ly) (mjoin blks) (digest n) = Ok (to_builder n) /\
  build_linked (to_builder n) = Ok n.
Proof.
  intros Hn. pose proof (fun c Hc => proj1 (proj2 (child_back i n c Hn Hc))) as Hc.
  pose proof (Forall_lookup_1 _ _ _ _ (fw_nodes _ (wk_wf _ Hf)) Hn) as [_ Hne].
  destruct n as [[bs d]|[a b d]|[a b d]|[a d]|[a sys d]|[dy d]|[d]]; cbn [children] in Hc; cbn [entry_new to_builder];
    cbn [first second on_true on_false body callee is_syscall is_dyncall] in *.
  - cbn [try_into_mast_node_builder]. rewrite (decode_back _ _ Hn). split; [done|]. cbn in *. by destruct bs.
  - cbn [try_into_mast_node_builder]. by rewrite !Hc by (repeat first [apply list_elem_of_here|apply list_elem_of_further]).
  - cbn [try_into_mast_node_builder]. by rewrite !Hc by (repeat first [apply list_elem_of_here|apply list_elem_of_further]).
  - cbn [try_into_mast_node_builder]. by rewrite !Hc by (repeat first [apply list_elem_of_here|apply list_elem_of_further]).
  - destruct sys; cbn [try_into_mast_node_builder]; by rewrite !Hc by (repeat first [apply list_elem_of_here|apply list_elem_of_further]).
  - by destruct dy.
  - done.
Qed.

Lemma materialize_back ds : digests_back ds -> materialize ds bytes ly (advice_map f) = Ok f.
Proof.
  intros Hds. unfold materialize. rewrite (payload_data _ _ _ _ _ _ _ _ _ _ Hok). cbn [rbind]. rewrite node_count, Nat2Z.id.
  rewrite (rfold_seq_Ok _ (fun k => take k ns) _ (length ns)); [cbn [rbind]|done|].
  2:{ intros i Hi. destruct (lookup_lt_is_Some_2 ns i Hi) as [n Hn]. unfold materialize_node. rewrite (entry_back _ _ Hn). cbn [rbind].
      rewrite (digest_back _ _ _ _ Hds Hn). cbn [rbind]. destruct (builder_back _ _ Hn) as [-> Hb]. cbn [rbind]. rewrite Hb. cbn [map_err rbind].
      by rewrite (take_S_r _ _ _ Hn). }
  cbn [ly_roots_count payload_layout]. rewrite Nat2Z.id, (rfold_seq_Ok _ (fun k => take k (roots f)) _ (length (roots f))); [cbn [rbind]|done|].
  2:{ intros i Hi. destruct (lookup_lt_is_Some_2 (roots f) i Hi) as [r Hr]. rewrite (payload_root _ _ _ _ _ _ _ _ _ _ Hok i r Hr).
      - cbn [rbind]. by rewrite (take_S_r _ _ _ Hr).
      - pose proof (Forall_lookup_1 _ _ _ _ (fw_roots _ (wk_wf _ Hf)) Hr) as Hlt. cbv beta in Hlt. pose proof (filter_split ns). lia. }
  rewrite !firstn_all. unfold from_trusted_deserialization_parts.
  pose proof (parts_bounds_spec ns (roots f)) as Hb. pose proof (wk_count _ Hf). pose proof (fw_roots _ (wk_wf _ Hf)).
  destruct (validate_mast_forest_parts_bounds ns (roots f)) as [[]| |]; [|by exfalso; apply Hb|done]. cbn [rbind].
  rewrite (proj2 (validate_dense_iff ns) (wk_dense _ Hf)). cbn. by destruct f.
Qed.

Lemma recompute_back i n : digests_ok ns -> ns !! i = Some n ->
  recompute_hash bytes (mjoin blks) ly (digest <$> take i ns, ext_before bytes ly i) i =
    Ok (digest <$> take (S i) ns, ext_before bytes ly (S i)).
Proof.
  intros [_ Hd] Hn. specialize (Hd _ _ Hn). rewrite list_lookup_fmap, Hn in Hd. cbn [fmap option_fmap option_map] in Hd.
  assert (Hch : forall c, c ∈ children n -> checked_child_index (Z.of_nat i) (Z.of_nat c) (ly_node_count ly) = Ok c /\
    exists d, (digest <$> ns) !! c = Some d /\ (digest <$> take i ns) !! c = Some d).
  { intros c Hc. destruct (child_back _ _ _ Hn Hc) as (Hlt & _ & ->). split; [done|]. pose proof (lookup_lt_Some _ _ _ Hn).
    destruct (lookup_lt_is_Some_2 ns c) as [m Hm]; [lia|]. exists (digest m). by rewrite !list_lookup_fmap, lookup_take_lt, Hm by lia. }
  unfold recompute_hash. rewrite (entry_back _ _ Hn). cbn [rbind ext_before]. rewrite (is_ext_back _ _ Hn), (take_S_r _ _ _ Hn), fmap_app.
  destruct n as [b|n|n|n|n|n|n]; cbn [entry_new node_hash children is_external] in *.
  - rewrite (decode_back _ _ Hn), Z.add_0_r. cbn [rbind]. by apply (inj Some) in Hd as ->.
  - destruct (Hch (first n)) as (I1 & d1 & E1 & F1); [apply list_elem_of_here|].
    destruct (Hch (second n)) as (I2 & d2 & E2 & F2); [apply list_elem_of_further, list_elem_of_here|].
    rewrite E1, E2 in Hd. rewrite I1, I2, Z.add_0_r. cbn [rbind]. rewrite F1, F2. cbn in *. by apply (inj Some) in Hd as ->.
  - destruct (Hch (on_true n)) as (I1 & d1 & E1 & F1); [apply list_elem_of_here|].
    destruct (Hch (on_false n)) as (I2 & d2 & E2 & F2); [apply list_elem_of_further, list_elem_of_here|].
    rewrite E1, E2 in Hd. rewrite I1, I2, Z.add_0_r. cbn [rbind]. rewrite F1, F2. cbn in *. by apply (inj Some) in Hd as ->.
  - destruct (Hch (body n)) as (Hi & d1 & E1 & E2); [apply list_elem_of_here|]. rewrite Hi, Z.add_0_r. cbn [rbind]. rewrite E2.
    rewrite E1 in Hd. cbn in *. by apply (inj Some) in Hd as ->.
  - destruct (Hch (callee n)) as (Hi & d1 & E1 & E2); [apply list_elem_of_here|]. rewrite E1 in Hd. cbn [mbind option_bind] in Hd. apply (inj Some) in Hd.
    destruct (is_syscall n); rewrite Hi, Z.add_0_r; cbn [rbind]; rewrite E2; cbn; by rewrite Hd.
  - apply (inj Some) in Hd. cbn [digest] in Hd. revert Hd. destruct (is_dyncall n); intros Hd; rewrite Z.add_0_r; cbn [rbind fmap list_fmap digest]; by rewrite Hd.
  - rewrite (external_back _ _ Hn eq_refl). cbn [rbind]. pose proof (ext_before_range bytes ly i). pose proof (wk_count _ Hf).
    pose proof (lookup_lt_Some _ _ _ Hn). assert (MAX_NODES < U64_MAX) by done. by erewrite overflow_fits by (apply checked_add_fits; lia).
Qed.

Lemma table_back rem rem' : digests_ok ns -> reserve_node_capacity rem (Z.of_nat (length ns)) WORD_SERIALIZED_BYTES = Ok rem' ->
  recompute_hash_table bytes ly rem = Ok (digest <$> ns).
Proof.
  intros Hd Hr. unfold recompute_hash_table. rewrite (payload_data _ _ _ _ _ _ _ _ _ _ Hok). cbn [rbind]. rewrite node_count, Hr, Nat2Z.id. cbn [rbind].
  rewrite (rfold_seq_Ok _ (fun k => (digest <$> take k ns, ext_before bytes ly k)) _ (length ns)); [cbn [rbind]; by rewrite firstn_all|done|].
  intros i Hi. destruct (lookup_lt_is_Some_2 ns i Hi) as [n Hn]. by apply recompute_back with n.
Qed.

(** The forest comes back from its payload. *)
Lemma materialized_back rem am' : am' = advice_map f -> (h = true -> digests_ok ns) ->
  match rem with Some b => 36 * Z.of_nat (length ns) <= b | None => True end ->
  into_materialized (mkUntrustedMastForest bytes ly am' rem) = Ok f.
Proof.
  intros -> Hd Hrem. unfold into_materialized, digests_new. cbn [um_bytes um_layout um_remaining_allocation_budget um_advice_map].
  pose proof (wk_count _ Hf) as Hmax. assert (MAX_NODES * 36 < U64_MAX) as HM by done.
  assert (Hres : forall r s, 0 <= s <= 36 -> match r with Some b => s * Z.of_nat (length ns) <= b | None => True end ->
    reserve_node_capacity r (Z.of_nat (length ns)) s = Ok ((fun b => b - Z.of_nat (length ns) * s) <$> r)).
  { intros [b|] s Hs Hb; [|done]. cbn. unfold reserve_allocation. rewrite (overflow_fits _ _ _ (checked_mul_fits (Z.of_nat (length ns)) s ltac:(nia))).
    cbn [rbind]. rewrite (proj2 (Z.ltb_ge _ _)) by lia. done. }
  rewrite (slots_back rem _ (Hres rem 4 ltac:(lia) ltac:(destruct rem; lia))). cbn [rbind].
  destruct (ly_node_hash_offset ly) as [o|] eqn:Ho; cbn [rbind].
  - apply materialize_back. split; [done|]. cbn [hash_table]. by rewrite Ho.
  - assert (h = true) as Hh by (revert Ho; cbn; by destruct h).
    erewrite table_back; [|by apply Hd|apply Hres; [unfold WORD_SERIALIZED_BYTES; lia|destruct rem; cbn; unfold WORD_SERIALIZED_BYTES; lia]].
    cbn [rbind]. apply materialize_back. by split.
Qed.

End Back.

End Forest.
