(* ===== verification/ForestTheorems.v ===== *)
(** * Building, storing and loading forests

    What the builder, the wire format and the validation of untrusted bytes
    promise together. *)

From S2P Require Import Prelude Felt AdviceMap Serde SerdeTheory Operations OpSerde SerdeSafe.
From S2P Require Import OpBatch Mast BatchValid BatchTheory BatchCorrect BlockSerde BlockTheory.
From S2P Require Import Machine Merkle Forest ForestTheory CanonOrder ForestCorrect ForestWire.
From S2P Require Import WireSound WireRound.

Section Theorems.
Context `{Poseidon2}.

Lemma batched_map g n : batched (map_children g n) <-> batched n.
Proof. by destruct n. Qed.

Lemma batched_sized n : batched n -> node_sized n /\ block_valid n.
Proof. destruct n as [b| | | | | |]; try done. intros [ops Hb]. by destruct (batch_ops_valid _ _ Hb) as (? & ? & _). Qed.

Lemma built_batched s : built s -> Forall batched (db_nodes s).
Proof.
  induction 1 as [|s b id s' _ IH Hu Hp|s r s' _ IH Hm]; [constructor| |].
  - unfold push_node in Hp. destruct (builder_build (db_nodes s) b) as [n| |] eqn:Hb; [|done|done]. cbn [rbind] in Hp.
    destruct (_ <=? _); [done|]. injection Hp as _ <-. cbn [db_nodes]. apply Forall_app. split; [done|]. apply Forall_singleton.
    destruct b as [[ops|bs] [d|]|c sys [d|]|dy [d|]|d|l r [d|]|bd [d|]|t g [d|]]; try done; cbn [builder_build] in Hb.
    + destruct ops as [|op ops]; [done|]. cbn [build_basic_block] in Hb. unfold batch_and_hash_ops in Hb.
      destruct (batch_ops (op :: ops)) as [bs|] eqn:Hbs; [|done]. cbn in Hb. injection Hb as <-. by exists (op :: ops).
    + destruct (child_node _ _); cbn in Hb; [|done|done]. by injection Hb as <-.
    + by injection Hb as <-.
    + by injection Hb as <-.
    + destruct (child_node _ l); cbn in Hb; [|done|done]. destruct (child_node _ r); cbn in Hb; [|done|done]. by injection Hb as <-.
    + destruct (child_node _ _); cbn in Hb; [|done|done]. by injection Hb as <-.
    + destruct (child_node _ t); cbn in Hb; [|done|done]. destruct (child_node _ g); cbn in Hb; [|done|done]. by injection Hb as <-.
  - unfold mark_root in Hm. destruct (_ <? _)%nat; [|done]. by injection Hm as <-; destruct (bool_decide _).
Qed.

Lemma valid_wire f : forest_valid f -> Forall batched (nodes f) -> wire_ok f.
Proof. intros [? ? ? ? ?] ?. by split. Qed.

(** The payload is delivered, and then the reader has no more bytes if none
    follow or the budget is used up. *)
Lemma read_all bytes rest budget : Z.of_nat (length bytes) <= budget -> Z.of_nat (length (bytes ++ rest)) <= U64_MAX ->
  rest = [] \/ budget = Z.of_nat (length bytes) ->
  let r := mkBudgetedReader (slice_reader_new (bytes ++ rest)) budget in
  ready r bytes /\ has_more_bytes (advance r (length bytes)) = false.
Proof.
  intros Hb Hu Hrest r. split.
  - split; [|exact Hb]. split; [exact Hu|]. by exists [], rest.
  - change ((0 <? budget - Z.of_nat (length bytes)) && (0 + length bytes <? length (bytes ++ rest))%nat = false). apply andb_false_iff.
    destruct Hrest as [->| ->]; [right|left; apply Z.ltb_ge; lia]. rewrite app_nil_r. apply Nat.ltb_irrefl.
Qed.

Lemma validate_valid (f : MastForest) (h : bool) : wire_ok f -> digests_ok (nodes f) ->
  (do? (if h then Ok tt else validate_node_hashes f); do? forest_validate f; Ok f) = Ok f.
Proof.
  intros Hf Hd. assert ((if h then Ok tt else validate_node_hashes f) = Ok tt) as ->.
  { destruct h; [done|]. apply validate_hashes_iff. split; [apply (wk_dense _ Hf)|done]. }
  cbn [rbind]. unfold forest_validate. pose proof (validate_blocks_spec f) as Hv.
  lapply Hv; [clear Hv; intros Hv|eapply Forall_impl; [apply (wk_batched _ Hf)|]; by intros n [? _]%batched_sized].
  destruct (validate_basic_block_invariants f) as [[]| |]; [done| |done]. exfalso. apply Hv.
  eapply Forall_impl; [apply (wk_batched _ Hf)|]. by intros n [_ ?]%batched_sized.
Qed.

(** Reading what was written. *)
Lemma written_reads f h : wire_ok f -> exists bytes, write_into_with_options f h = Some bytes /\
  (Z.of_nat (length bytes) <= U32_MAX -> h = false -> forest_read_from_bytes bytes = Ok f) /\
  (forall rest options, digests_ok (nodes f) -> Z.of_nat (length (bytes ++ rest)) <= U32_MAX ->
   default (Z.of_nat (length (bytes ++ rest))) (ro_wire_byte_budget options) = Z.of_nat (length bytes) ->
   ro_validation_allocation_budget options = None ->
   exists u, untrusted_read_from_bytes_with_options (bytes ++ rest) options = Ok u /\ untrusted_validate u = Ok f).
Proof.
  intros Hf. destruct (forest_payload f Hf h) as (blks & es & ebs & Hb & He & Hw & Hok). eexists. split; [exact Hw|].
  assert (U32_MAX < U64_MAX) as Hlt by done. match type of Hw with _ = Some ?p => set (bytes := p) in * end. split.
  - intros Hs ->. specialize (Hok ltac:(lia)). unfold forest_read_from_bytes.
    destruct (read_all bytes [] (saturating_mul (Z.of_nat (length bytes)) TRUSTED_BYTE_READ_BUDGET_MULTIPLIER)) as [Hr Hm];
      [unfold saturating_mul, TRUSTED_BYTE_READ_BUDGET_MULTIPLIER; lia|rewrite app_nil_r; lia|by left|]. rewrite app_nil_r in Hr, Hm.
    rewrite (decode_ready _ _ _ _ _ _ _ _ _ _ Hok false None _ ltac:(done) Hr). cbn [rbind]. fold bytes. rewrite Hm.
    by rewrite (materialized_back f Hf false blks es ebs Hb He Hok Hs None _ eq_refl).
  - intros rest options Hd Hs Hbud Hal. assert (Hsb : Z.of_nat (length bytes) <= U32_MAX) by (rewrite length_app in Hs; lia).
    specialize (Hok ltac:(lia)). pose proof (nodes_fit f h blks es ebs Hok) as Hnn. pose proof (hashless_layout f h blks ebs) as Hhl. fold bytes in Hnn.
    unfold untrusted_read_from_bytes_with_options. rewrite Hbud, Hal. cbn [default].
    destruct (read_all bytes rest (Z.of_nat (length bytes)) ltac:(lia) ltac:(lia)) as [Hr Hm]; [by right|].
    rewrite (decode_ready _ _ _ _ _ _ _ _ _ _ Hok (R := BudgetedReader SliceReader) true
      (Some (default_untrusted_allocation_budget (Z.of_nat (length bytes)))) _ (fun _ => eq_refl) Hr). cbn [rbind]. fold bytes. rewrite Hm.
    eexists. split; [done|]. unfold untrusted_validate. rewrite (materialized_back f Hf h blks es ebs Hb He Hok Hsb); [|done|done|].
    + cbn [map_err rbind um_layout]. rewrite Hhl. by apply validate_valid.
    + unfold default_untrusted_allocation_budget, saturating_mul, DEFAULT_UNTRUSTED_ALLOCATION_BUDGET_MULTIPLIER.
      unfold U32_MAX, U64_MAX in *. lia.
Qed.

Lemma written_reads_back f h : wire_ok f -> exists bytes, write_into_with_options f h = Some bytes /\
  (Z.of_nat (length bytes) <= U32_MAX ->
   (h = false -> forest_read_from_bytes bytes = Ok f) /\
   (digests_ok (nodes f) -> exists u, untrusted_read_from_bytes bytes = Ok u /\ untrusted_validate u = Ok f)).
Proof.
  intros Hf. destruct (written_reads f h Hf) as (bytes & Hw & Ht & Hu). exists bytes. split; [done|]. intros Hs. split; [by apply Ht|].
  intros Hd. pose proof (Hu [] (mkReadOptions None None) Hd) as Hr. rewrite app_nil_r in Hr. by apply Hr.
Qed.

Lemma built_wire s : built s -> Z.of_nat (length (db_nodes s)) <= MAX_NODES -> distinct_externals (db_nodes s) ->
  exists f m, build_with_id_map s = Ok (f, m) /\ forest_valid f /\ wire_ok f /\ renumbers (db_nodes s) m (nodes f) /\
    roots f = remap_id m <$> db_roots s /\ advice_map f = db_advice_map s.
Proof.
  intros Hs Hc Hd. pose proof (built_parts s Hs Hc Hd) as Hp. pose proof (bi_built _ (built_inv s Hs)) as Hb. unfold build_with_id_map.
  pose proof (from_parts_spec (db_nodes s) (db_roots s) (db_advice_map s) Hb) as Hf.
  destruct (from_parts_with_id_map _ _ _) as [[f m]| |]; [|done|done]. destruct Hf as (_ & Hv & Hr & Hroots & Ham & _). exists f, m.
  assert (Hbt : Forall batched (nodes f)) by (apply (renumbered_Forall _ _ _ Hr); [apply batched_map|by apply built_batched]).
  repeat (split; [done|]). split; [by apply valid_wire|done].
Qed.

(** C5: Validation of untrusted bytes is sound.  On any bytes, with any read
    options, reading and then validating a forest ends without a panic: in an
    error, or in a forest whose ids are in range, whose nodes number at most
    [MAX_NODES] and are in the dense order, whose basic blocks satisfy the batch
    invariants, and whose digests are the hashes of its nodes, both when the
    bytes carry the hashes and when they are rebuilt.  The errors of validation
    are failed deserialization (which a forward reference is too), a wrong hash
    and a bad batch.  The trusted reader does not panic on any bytes either, and
    returns a well-formed dense forest. *)
Theorem untrusted_validation_sound bytes options : Forall is_u8 bytes ->
  match untrusted_read_from_bytes_with_options bytes options with
  | Ok u => match untrusted_validate u with Ok f => forest_valid f | Err e => validation_error e | Panic => False end
  | Err _ => True
  | Panic => False
  end /\
  match forest_read_from_bytes bytes with
  | Ok f => forest_wf f /\ Z.of_nat (length (nodes f)) <= MAX_NODES /\ dense (nodes f)
  | Err _ => True
  | Panic => False
  end.
Proof.
  intros Hu. split; [|exact (trusted_read_safe bytes Hu)]. pose proof (untrusted_read_safe bytes options Hu) as Hr.
  destruct (untrusted_read_from_bytes_with_options bytes options) as [u| |]; [|done|done].
  pose proof (untrusted_validate_safe u Hr) as Hv. pose proof (fun e => untrusted_validate_errors u e Hr) as He.
  destruct (untrusted_validate u); [done|by apply He|done].
Qed.

(** C6: Forests survive serialization.  A well-formed forest in dense order with
    blocks made by the batching algorithm can be written, with or without the
    hashes of its nodes; written with them, the trusted reader gives back the
    same forest; and if its digests are the hashes of its nodes, both forms pass
    the untrusted reader, within its default budgets, and validation, which gives
    back the same forest: nodes, roots and advice map.  The one limit is 4 GiB
    of bytes, as the offsets of blocks are 32 bits wide.  A byte budget in the
    read options that is exactly the size of the payload hides what follows it:
    the used-up budget reports no more bytes, so the check for extra bytes sees
    none and any trailing bytes are accepted. *)
Theorem forest_roundtrip f h : wire_ok f ->
  exists bytes, write_into_with_options f h = Some bytes /\
    (Z.of_nat (length bytes) <= U32_MAX ->
     (h = false -> forest_read_from_bytes bytes = Ok f) /\
     (digests_ok (nodes f) -> exists u, untrusted_read_from_bytes bytes = Ok u /\ untrusted_validate u = Ok f)) /\
    (forall rest, digests_ok (nodes f) -> Z.of_nat (length (bytes ++ rest)) <= U32_MAX ->
     exists u, untrusted_read_from_bytes_with_options (bytes ++ rest) (mkReadOptions (Some (Z.of_nat (length bytes))) None) = Ok u /\
       untrusted_validate u = Ok f).
Proof.
  intros Hf. destruct (written_reads_back f h Hf) as (bytes & Hw & Hr). exists bytes. split; [done|]. split; [done|].
  destruct (written_reads f h Hf) as (bytes' & Hw' & _ & Hu). rewrite Hw in Hw'. apply (inj Some) in Hw' as <-.
  intros rest Hd Hs. by apply Hu.
Qed.

(** C21: Building a forest from parts decides exactly whether the parts make one.
    [from_parts_with_id_map] succeeds if and only if there are at most
    [MAX_NODES] nodes, the roots and children exist, no two externals share a
    digest, children can be ranked below their parents, blocks satisfy the batch invariants and
    digests are hashes; it never panics.  The forest is then valid and in the
    canonical dense order, it is the given one renumbered by the id map (a
    bijection that commutes with children and roots), and parts that are dense
    already are kept as they are. *)
Theorem from_parts_correct ns rs am : Forall built_node ns ->
  match from_parts_with_id_map ns rs am with
  | Ok (f, m) => parts_ok ns rs /\ forest_valid f /\ renumbers ns m (nodes f) /\
      roots f = remap_id m <$> rs /\ advice_map f = am /\ (dense ns -> f = mkMastForest ns rs am)
  | Err _ => ~ parts_ok ns rs
  | Panic => False
  end.
Proof. apply from_parts_spec. Qed.


End Theorems.
