(* ===== verification/Deferred.v ===== *)
(** * Deferred statements

    core/src/deferred: the content-addressed DAG of statements whose truth is
    established by precompiles.  Nodes (node.rs), the registry that routes a tag
    to its precompile (precompile_registry.rs), and the state with its node
    store, evaluation memos, root and element budget (state.rs).

    A precompile is third-party code behind the trait [Precompile]; all it can
    do while it evaluates a node is call the methods of [DeferredContext].  So
    its [evaluate] is a tree of such calls ([Evaluation]), one branch per
    answer.

    Evaluation is recursive: [depth] bounds the nesting of calls, and a deeper
    nesting, which overflows the native stack, is a panic. *)

From S2P Require Import Prelude Felt Quad AceCircuit Machine Merkle.

(** ** Tags *)

Notation Digest := Word (only parsing).

Definition TRUE_DIGEST : Digest := mkWord ZERO ZERO ZERO ZERO.

Record Tag := mkTag { tag_id : Felt; tag_arg0 : Felt; tag_arg1 : Felt; tag_arg2 : Felt }.

Definition TAG_FELT_LEN : Z := 4.
Definition CHUNKS_ID : Felt := new_unchecked 2.
Definition Tag_TRUE : Tag := mkTag ZERO ZERO ZERO ZERO.
Definition Tag_AND : Tag := mkTag ONE ZERO ZERO ZERO.
Definition Tag_CHUNKS : Tag := mkTag CHUNKS_ID ZERO ZERO ZERO.

#[export] Instance tag_eq_dec : EqDecision Tag.
Proof. solve_decision. Defined.

Definition is_framework_reserved_id (id : Felt) : bool :=
  bool_decide (id = ZERO) || bool_decide (id = ONE) || bool_decide (id = CHUNKS_ID).
Definition is_framework_reserved (t : Tag) : bool := is_framework_reserved_id (tag_id t).

Definition tag_args (t : Tag) : Felt * Felt * Felt := (tag_arg0 t, tag_arg1 t, tag_arg2 t).
Definition as_word (t : Tag) : Word := mkWord (tag_id t) (tag_arg0 t) (tag_arg1 t) (tag_arg2 t).
Definition from_word (w : Word) : Tag := mkTag (word_a w) (word_b w) (word_c w) (word_d w).

(** ** Payloads *)

(** One rate block: [lhs || rhs]. *)
Record DataChunk := mkChunk { chunk_lo : Word; chunk_hi : Word }.

Inductive Payload :=
| PTrue
| PData (chunks : list DataChunk)
| PJoin (chunk : DataChunk)
| PPairList (chunks : list DataChunk).

#[export] Instance chunk_eq_dec : EqDecision DataChunk.
Proof. solve_decision. Defined.
#[export] Instance payload_eq_dec : EqDecision Payload.
Proof. solve_decision. Defined.

Definition as_chunks (p : Payload) : list DataChunk :=
  match p with PTrue => [] | PData l | PPairList l => l | PJoin c => [c] end.

Definition as_data (p : Payload) : res DeferredError (list DataChunk) :=
  match p with PData l => Ok l | _ => Err InvalidPayload end.

Definition as_join (p : Payload) : res DeferredError (Digest * Digest) :=
  match p with PJoin c => Ok (chunk_lo c, chunk_hi c) | _ => Err InvalidPayload end.

Definition as_value (p : Payload) : res DeferredError DataChunk :=
  match as_data p with
  | Ok [chunk] => Ok chunk
  | Ok _ => Err InvalidPayload
  | Err e => Err e
  | Panic => Panic
  end.

Definition pair_list_chunks (p : Payload) : res DeferredError (list DataChunk) :=
  match p with PPairList l => Ok l | _ => Err InvalidPayload end.

Definition chunk_to_pair (c : DataChunk) : Digest * Digest := (chunk_lo c, chunk_hi c).

Definition as_pair_list (p : Payload) : res DeferredError (list (Digest * Digest)) :=
  match pair_list_chunks p with
  | Ok l => Ok (chunk_to_pair <$> l)
  | Err e => Err e
  | Panic => Panic
  end.

Definition chunk_children (c : DataChunk) : list Digest := [chunk_lo c; chunk_hi c].

Definition payload_children (p : Payload) : list Digest :=
  match p with
  | PJoin c => chunk_children c
  | PPairList l => l ≫= chunk_children
  | PTrue | PData _ => []
  end.

(** ** Nodes *)

Record Node := mkNode { node_tag : Tag; node_payload : Payload }.

#[export] Instance node_eq_dec : EqDecision Node.
Proof. solve_decision. Defined.

Definition Node_TRUE : Node := mkNode Tag_TRUE PTrue.

Definition require_precompile_tag (t : Tag) : res DeferredError Tag :=
  if is_framework_reserved t then Err InvalidTag else Ok t.

Definition node_of (t : res DeferredError Tag) (p : res DeferredError Payload) : res DeferredError Node :=
  match t with
  | Ok t => match p with Ok p => Ok (mkNode t p) | Err e => Err e | Panic => Panic end
  | Err e => Err e
  | Panic => Panic
  end.

Definition payload_try_data (l : list DataChunk) : res DeferredError Payload :=
  match l with [] => Err InvalidPayload | _ => Ok (PData l) end.
Definition payload_try_pair_list_chunks (l : list DataChunk) : res DeferredError Payload :=
  match l with [] => Err InvalidPayload | _ => Ok (PPairList l) end.
Definition payload_join (lhs rhs : Digest) : Payload := PJoin (mkChunk lhs rhs).

Definition node_value (t : Tag) (c : DataChunk) : res DeferredError Node :=
  node_of (require_precompile_tag t) (Ok (PData [c])).
Definition node_try_data (t : Tag) (l : list DataChunk) : res DeferredError Node :=
  node_of (require_precompile_tag t) (payload_try_data l).
Definition node_chunks (l : list DataChunk) : res DeferredError Node :=
  node_of (Ok Tag_CHUNKS) (payload_try_data l).
Definition node_join (t : Tag) (lhs rhs : Digest) : res DeferredError Node :=
  node_of (require_precompile_tag t) (Ok (payload_join lhs rhs)).
Definition node_try_pair_list (t : Tag) (pairs : list (Digest * Digest)) : res DeferredError Node :=
  node_of (require_precompile_tag t)
    (payload_try_pair_list_chunks ((fun '(l, r) => mkChunk l r) <$> pairs)).
Definition node_try_pair_list_chunks (t : Tag) (l : list DataChunk) : res DeferredError Node :=
  node_of (require_precompile_tag t) (payload_try_pair_list_chunks l).
Definition node_and (lhs rhs : Digest) : Node := mkNode Tag_AND (payload_join lhs rhs).

Definition node_children (n : Node) : list Digest := payload_children (node_payload n).

Definition payload_for_tag (n : Node) (t : Tag) : res DeferredError Payload :=
  if decide (node_tag n = t) then Ok (node_payload n) else Err InvalidPayload.

Definition is_true (n : Node) : bool :=
  match node_payload n with PTrue => bool_decide (node_tag n = Tag_TRUE) | _ => false end.

Definition felt_len (n : Node) : Z :=
  TAG_FELT_LEN + 8 * Z.of_nat (length (as_chunks (node_payload n))).
Definition storage_felt_len (n : Node) : Z := if is_true n then 0 else felt_len n.

Definition chunk_felts (c : DataChunk) : list Felt :=
  into_elements (chunk_lo c) ++ into_elements (chunk_hi c).

Definition to_felts (n : Node) : list Felt :=
  into_elements (as_word (node_tag n)) ++ (as_chunks (node_payload n) ≫= chunk_felts).

Inductive NodeType := TyTrue | TyData | TyJoin | TyPairList.

Definition type_validate_node (ty : NodeType) (n : Node) : bool :=
  match ty with
  | TyTrue => is_true n
  | TyData => match as_data (node_payload n) with Ok _ => true | _ => false end
  | TyJoin => match as_join (node_payload n) with Ok _ => true | _ => false end
  | TyPairList => match pair_list_chunks (node_payload n) with Ok _ => true | _ => false end
  end.

(** ** Precompiles *)

(** What a precompile can do while it evaluates a node; an error of a context
    method may be handled or returned.  [Abort] is a panic. *)
Inductive Evaluation :=
| Return (n : Node)
| Raise (e : PrecompileError)
| Abort
| GetNode (d : Digest) (k : option Node -> Evaluation)
| EvaluateDigest (d : Digest) (k : PrecompileError + Digest -> Evaluation)
| RegisterNode (n : Node) (k : PrecompileError + Digest -> Evaluation).

Record Precompile := mkPrecompile {
  pc_name : string;
  pc_id : Felt;
  pc_init : unit -> option (list Node);
  pc_decode : Felt * Felt * Felt -> option NodeType;
  pc_evaluate : Felt * Felt * Felt -> Payload -> Evaluation
}.

Notation PrecompileRegistry := (gmap Felt Precompile) (only parsing).

(** [insert_precompile]; [derived_id] is [precompile_id], a hash of the name.
    [None] is a setup-time panic. *)
Definition insert_precompile (derived_id : string -> Felt) (p : Precompile) (r : PrecompileRegistry) :
    option PrecompileRegistry :=
  if negb (bool_decide (pc_id p = derived_id (pc_name p))) then None
  else if is_framework_reserved_id (pc_id p) then None
  else match r !! pc_id p with Some _ => None | None => Some (<[pc_id p := p]> r) end.

(** Registry order: by id. *)
Definition id_le (p q : Precompile) : Prop := ⟦pc_id p⟧ <= ⟦pc_id q⟧.
#[export] Instance id_le_dec : RelDecision id_le.
Proof. intros p q. unfold Decision, id_le. apply Z_le_dec. Defined.

Definition registry_values (r : PrecompileRegistry) : list Precompile :=
  merge_sort id_le (snd <$> map_to_list r).

Definition init_nodes (r : PrecompileRegistry) : option (list Node) :=
  @concat Node <$> mapM (fun p => pc_init p tt) (registry_values r).

(** [PrecompileRegistry::merge]. *)
Definition registry_merge (derived_id : string -> Felt) (r registry : PrecompileRegistry) :
    option PrecompileRegistry :=
  foldl (fun r p => r ≫= insert_precompile derived_id p) (Some r) (registry_values registry).

Definition decode_precompile_tag (r : PrecompileRegistry) (t : Tag) : res PrecompileError NodeType :=
  if is_framework_reserved t then Err InvalidNode else
  match r !! tag_id t with
  | None => Err InvalidNode
  | Some p =>
      match pc_decode p (tag_args t) with
      | None | Some TyTrue => Err (InPrecompile (pc_name p) InvalidNode)
      | Some ty => Ok ty
      end
  end.

Definition decode_node_type (r : PrecompileRegistry) (t : Tag) : res PrecompileError NodeType :=
  if decide (t = Tag_TRUE) then Ok TyTrue
  else if decide (t = Tag_AND) then Ok TyJoin
  else if decide (t = Tag_CHUNKS) then Ok TyData
  else decode_precompile_tag r t.

Definition validate_node (r : PrecompileRegistry) (n : Node) : res PrecompileError NodeType :=
  match decode_node_type r (node_tag n) with
  | Ok ty => if type_validate_node ty n then Ok ty else Err InvalidNode
  | Err e => Err e
  | Panic => Panic
  end.

(** [DeferredContext::evaluate_digest_pair] and [ensure_equal], the errors
    returned with [?]. *)
Definition evaluate_digest_pair (lhs rhs : Digest) (k : Digest -> Digest -> Evaluation) : Evaluation :=
  EvaluateDigest lhs (fun l =>
    match l with
    | inl e => Raise e
    | inr l =>
        EvaluateDigest rhs (fun r => match r with inl e => Raise e | inr r => k l r end)
    end).

Definition ensure_equal (lhs rhs : Digest) (k : Evaluation) : Evaluation :=
  evaluate_digest_pair lhs rhs (fun l r => if decide (l = r) then k else Raise AssertionFailed).

(** ** State *)

Definition MAX_DEFERRED_ELEMENTS : Z := 2 ^ 20.

Record DeferredState := mkDeferredState {
  ds_registry : PrecompileRegistry;
  ds_nodes : gmap Digest Node;
  ds_root : Digest;
  ds_evals : gmap Digest Digest;
  ds_remaining_elements : Z
}.

Notation DS A := (M PrecompileError DeferredState A).

Definition set_registry (r : PrecompileRegistry) (s : DeferredState) : DeferredState :=
  mkDeferredState r (ds_nodes s) (ds_root s) (ds_evals s) (ds_remaining_elements s).
Definition set_nodes (m : gmap Digest Node) (s : DeferredState) : DeferredState :=
  mkDeferredState (ds_registry s) m (ds_root s) (ds_evals s) (ds_remaining_elements s).
Definition set_root (d : Digest) (s : DeferredState) : DeferredState :=
  mkDeferredState (ds_registry s) (ds_nodes s) d (ds_evals s) (ds_remaining_elements s).
Definition set_evals (m : gmap Digest Digest) (s : DeferredState) : DeferredState :=
  mkDeferredState (ds_registry s) (ds_nodes s) (ds_root s) m (ds_remaining_elements s).
Definition set_remaining (n : Z) (s : DeferredState) : DeferredState :=
  mkDeferredState (ds_registry s) (ds_nodes s) (ds_root s) (ds_evals s) n.

Section State.
Context `{Poseidon2}.

(** Absorbs the payload blocks under the tag as capacity. *)
Definition absorb (s : HasherState) (c : DataChunk) : HasherState :=
  apply_permutation (mkHasherState (chunk_lo c) (chunk_hi c) (hs_capacity s)).

(** A TRUE payload has the tag TRUE in every node the constructors build, which
    the source asserts here. *)
Definition node_digest (n : Node) : Digest :=
  match node_payload n with
  | PTrue => TRUE_DIGEST
  | p => hs_rate0 (foldl absorb (mkHasherState EMPTY_WORD EMPTY_WORD (as_word (node_tag n))) (as_chunks p))
  end.

Definition fold_deferred_root (root statement : Digest) : Digest :=
  node_digest (node_and root statement).

Definition other {A} (r : res DeferredError A) : DS A :=
  match r with Ok a => ret a | Err e => fail (OtherDeferred e) | Panic => panic end.

Definition state_empty (registry : PrecompileRegistry) : DeferredState :=
  mkDeferredState registry {[ TRUE_DIGEST := Node_TRUE ]} TRUE_DIGEST
    {[ TRUE_DIGEST := TRUE_DIGEST ]} MAX_DEFERRED_ELEMENTS.

(** [get_canonical_digest]. *)
Definition get_canonical_digest (s : DeferredState) (d : Digest) : option Digest :=
  c ← ds_evals s !! d;
  match ds_nodes s !! c with Some _ => Some c | None => None end.

Definition get_canonical_node (s : DeferredState) (d : Digest) : option (Digest * Node) :=
  c ← get_canonical_digest s d; n ← ds_nodes s !! c; Some (c, n).

Definition require_canonical_node (d : Digest) : DS (Digest * Node) :=
  let! s := gets id in ok_or (get_canonical_node s d) MissingNode.

Definition num_elements (s : DeferredState) : Z :=
  map_fold (fun d n acc => if decide (d = TRUE_DIGEST) then acc else storage_felt_len n + acc) 0
    (ds_nodes s).

Definition decode (t : Tag) : DS NodeType :=
  let! r := gets ds_registry in lift_res (decode_node_type r t).

Definition state_get_node (d : Digest) : DS (option Node) := gets (fun s => ds_nodes s !! d).

(** The loop over the children of [validate_node_for_insertion]. *)
Definition missing_child (s : DeferredState) (n : Node) : bool :=
  existsb (fun c => negb (bool_decide (c = TRUE_DIGEST)) && negb (bool_decide (is_Some (ds_nodes s !! c))))
    (node_children n).

Definition validate_node_for_insertion (n : Node) : DS NodeType :=
  let! s := gets id in
  let! ty := lift_res (validate_node (ds_registry s) n) in
  if missing_child s n then fail MissingNode else ret ty.

Definition insert_node (n : Node) : DS Digest :=
  let d := node_digest n in
  let! s := gets id in
  match ds_nodes s !! d with
  | Some existing => if decide (existing = n) then ret d else fail (OtherDeferred ConflictingNode)
  | None =>
      let required := storage_felt_len n in
      if ds_remaining_elements s <? required
      then fail (OtherDeferred (DeferredStateTooLarge required (ds_remaining_elements s)))
      else
        do! modify (set_remaining (ds_remaining_elements s - required));
        do! modify (set_nodes (<[d := n]> (ds_nodes s)));
        ret d
  end.

Definition record_eval (input_digest : Digest) (canonical : Node) : DS unit :=
  let! s := gets id in
  match ds_nodes s !! input_digest with
  | None => fail MissingNode
  | Some _ =>
      do! validate_node_for_insertion canonical;
      let! canonical_digest := insert_node canonical in
      let! s := gets id in
      match ds_evals s !! input_digest with
      | Some existing =>
          if decide (existing = canonical_digest) then ret tt
          else fail (OtherDeferred ConflictingNode)
      | None => modify (set_evals (<[input_digest := canonical_digest]> (ds_evals s)))
      end
  end.

(** The answer of a context method, an error included. *)
Definition try {A} (m : DS A) : DS (PrecompileError + A) :=
  fun s =>
    match m s with
    | (Ok a, s') => (Ok (inr a), s')
    | (Err e, s') => (Ok (inl e), s')
    | (Panic, s') => (Panic, s')
    end.

Section Context.
Context (evaluate : Digest -> DS Digest).

Definition require_true_eval (d : Digest) : DS unit :=
  let! c := evaluate d in
  if decide (c = TRUE_DIGEST) then ret tt else fail AssertionFailed.

Definition register_with (n : Node) : DS Digest :=
  do! validate_node_for_insertion n;
  let! d := insert_node n in
  do! evaluate d;
  ret d.

(** A precompile's evaluation, its context methods answered from the state. *)
Fixpoint run (p : Evaluation) : DS Node :=
  match p with
  | Return n => ret n
  | Raise e => fail e
  | Abort => panic
  | GetNode d k => let! o := state_get_node d in run (k o)
  | EvaluateDigest d k => let! o := try (evaluate d) in run (k o)
  | RegisterNode n k => let! o := try (register_with n) in run (k o)
  end.

(** [PrecompileRegistry::evaluate]: errors are wrapped with the name. *)
Definition registry_evaluate (n : Node) : DS Node :=
  let t := node_tag n in
  if is_framework_reserved t then fail InvalidNode else
  let! r := gets ds_registry in
  match r !! tag_id t with
  | None => fail InvalidNode
  | Some p =>
      let! o := try (run (pc_evaluate p (tag_args t) (node_payload n))) in
      match o with
      | inr n => ret n
      | inl source => fail (InPrecompile (pc_name p) source)
      end
  end.

(** The canonical node of a node that has no memo. *)
Definition canonical_of (n : Node) : DS Node :=
  if decide (node_tag n = Tag_TRUE) then ret Node_TRUE
  else if decide (node_tag n = Tag_AND) then
    let! (lhs, rhs) := other (as_join (node_payload n)) in
    do! require_true_eval lhs;
    do! require_true_eval rhs;
    ret Node_TRUE
  else if decide (node_tag n = Tag_CHUNKS) then ret n
  else registry_evaluate n.

End Context.

Fixpoint evaluate_digest (depth : nat) (d : Digest) : DS Digest :=
  match depth with
  | O => panic
  | S depth =>
      let! s := gets id in
      let! n := ok_or (ds_nodes s !! d) MissingNode in
      match ds_evals s !! d with
      | Some c => match ds_nodes s !! c with Some _ => ret c | None => fail MissingNode end
      | None =>
          do! validate_node_for_insertion n;
          let! canonical := canonical_of (evaluate_digest depth) n in
          do! record_eval d canonical;
          let! s := gets id in
          ok_or (ds_evals s !! d) MissingNode
      end
  end.

Section Depth.
Context (depth : nat).

Definition register (n : Node) : DS Digest := register_with (evaluate_digest depth) n.

Definition log_statement (statement_digest : Digest) : DS Digest :=
  let! prev_root := gets ds_root in
  do! require_true_eval (evaluate_digest depth) prev_root;
  do! require_true_eval (evaluate_digest depth) statement_digest;
  let and_node := node_and prev_root statement_digest in
  let new_root := node_digest and_node in
  do! insert_node and_node;
  do! modify (set_root new_root);
  do! record_eval new_root Node_TRUE;
  ret new_root.

Definition state_log_verified_statement (statement_digest expected_new_root : Digest) : DS Digest :=
  let! root := gets ds_root in
  let actual_new_root := node_digest (node_and root statement_digest) in
  if decide (actual_new_root = expected_new_root) then log_statement statement_digest
  else fail (OtherDeferred (InvalidDeferredRootTransition expected_new_root actual_new_root)).

(** [initialize_precompile_nodes] and [new]. *)
Fixpoint load_nodes (l : list Node) : DS unit :=
  match l with
  | [] => ret tt
  | n :: l =>
      let! r := gets ds_registry in
      do! lift_res (validate_node r n);
      do! insert_node n;
      load_nodes l
  end.

Fixpoint evaluate_all (l : list Digest) : DS unit :=
  match l with
  | [] => ret tt
  | d :: l => do! evaluate_digest depth d; evaluate_all l
  end.

Definition initialize_precompile_nodes : DS unit :=
  let! r := gets ds_registry in
  let! nodes := expect (init_nodes r) in
  do! load_nodes nodes;
  evaluate_all (node_digest <$> nodes).

Definition deferred_state_new (registry : PrecompileRegistry) : res PrecompileError DeferredState :=
  match initialize_precompile_nodes (state_empty registry) with
  | (Ok _, s) => Ok s
  | (Err e, _) => Err e
  | (Panic, _) => Panic
  end.

(** A failed extension leaves the state as it was; a setup panic of the
    registry is a panic. *)
Definition extend_precompiles (derived_id : string -> Felt) (precompiles : PrecompileRegistry) :
    DS unit :=
  fun s =>
    match registry_merge derived_id (ds_registry s) precompiles with
    | None => (Panic, s)
    | Some r =>
        match initialize_precompile_nodes (set_registry r s) with
        | (Ok _, next) => (Ok tt, next)
        | (Err e, _) => (Err e, s)
        | (Panic, _) => (Panic, s)
        end
    end.

(** [import_reachable_from]; [fuel] bounds the pops of the work list. *)
Fixpoint import_reachable_from (fuel : nat) (source : gmap Digest Node) (pending : list (Digest * bool)) :
    DS unit :=
  match fuel with
  | O => panic
  | S fuel =>
      match pending with
      | [] => ret tt
      | (d, children_imported) :: pending =>
          if decide (d = TRUE_DIGEST) then import_reachable_from fuel source pending else
          let! n := ok_or (source !! d) MissingNode in
          let! s := gets id in
          match ds_nodes s !! d with
          | Some existing =>
              if decide (existing = n) then import_reachable_from fuel source pending
              else fail (OtherDeferred ConflictingNode)
          | None =>
              if children_imported then
                do! register n;
                import_reachable_from fuel source pending
              else
                import_reachable_from fuel source
                  (rev ((fun c => (c, false)) <$> node_children n) ++ (d, true) :: pending)
          end
      end
  end.

(** [compact]: consumes the state. *)
Definition compact (fuel : nat) (s : DeferredState) : res PrecompileError DeferredState :=
  match deferred_state_new (ds_registry s) with
  | Ok compacted =>
      match import_reachable_from fuel (ds_nodes s) [(ds_root s, false)] compacted with
      | (Ok _, compacted) => Ok (set_root (ds_root s) compacted)
      | (Err e, _) => Err e
      | (Panic, _) => Panic
      end
  | Err e => Err e
  | Panic => Panic
  end.

(** [merge]. *)
Definition deferred_merge (fuel : nat) (other : DeferredState) : DS unit :=
  do! import_reachable_from fuel (ds_nodes other) [(ds_root other, false)];
  do! log_statement (ds_root other);
  ret tt.

End Depth.
End State.
