(* ===== verification/DeferredTheory.v ===== *)
(** * Deferred statements: theory

    The invariant of [DeferredState]: nodes are stored under their digest and
    have the shape their tag declares, memos point to stored nodes and can be
    replayed from the table, the element budget is exact.  Every operation
    keeps it, on success and on error. *)

From S2P Require Import Prelude Felt Quad AceCircuit Machine Merkle Deferred.

Section Theory.
Context `{Poseidon2}.

(** ** Justified memos *)

(** A precompile that returns every error of a context method. *)
Inductive strict : Evaluation -> Prop :=
| strict_return n : strict (Return n)
| strict_raise e : strict (Raise e)
| strict_abort : strict Abort
| strict_get d k :
    (exists e, k None = Raise e) -> (forall n, strict (k (Some n))) -> strict (GetNode d k)
| strict_evaluate d k :
    (forall e, exists e', k (inl e) = Raise e') -> (forall c, strict (k (inr c))) ->
    strict (EvaluateDigest d k)
| strict_register n k :
    (forall e, exists e', k (inl e) = Raise e') -> (forall c, strict (k (inr c))) ->
    strict (RegisterNode n k).

(** The evaluation gives [n] when its calls are answered by the tables. *)
Inductive replays (s : DeferredState) : Evaluation -> Node -> Prop :=
| replays_return n : replays s (Return n) n
| replays_get d m k n :
    ds_nodes s !! d = Some m -> replays s (k (Some m)) n -> replays s (GetNode d k) n
| replays_evaluate d c k n :
    ds_evals s !! d = Some c -> replays s (k (inr c)) n -> replays s (EvaluateDigest d k) n
| replays_register m k n :
    ds_nodes s !! node_digest m = Some m -> is_Some (ds_evals s !! node_digest m) ->
    replays s (k (inr (node_digest m))) n -> replays s (RegisterNode m k) n.

(** What justifies the canonical node [m] of the node [n]. *)
Definition justified (s : DeferredState) (n m : Node) : Prop :=
  if decide (node_tag n = Tag_TRUE) then m = Node_TRUE
  else if decide (node_tag n = Tag_AND) then
    m = Node_TRUE /\ Forall (fun c => ds_evals s !! c = Some TRUE_DIGEST) (node_children n)
  else if decide (node_tag n = Tag_CHUNKS) then m = n
  else
    exists p, ds_registry s !! tag_id (node_tag n) = Some p /\
      let e := pc_evaluate p (tag_args (node_tag n)) (node_payload n) in
      strict e -> replays s e m.

(** ** The invariant *)

Definition memo_ok (s : DeferredState) (d c : Digest) : Prop :=
  exists n m, ds_nodes s !! d = Some n /\ ds_nodes s !! c = Some m /\ justified s n m.

Definition well_shaped (r : PrecompileRegistry) (n : Node) : Prop :=
  exists ty, validate_node r n = Ok ty.

Record inv (s : DeferredState) : Prop := {
  inv_true : ds_nodes s !! TRUE_DIGEST = Some Node_TRUE;
  inv_true_memo : ds_evals s !! TRUE_DIGEST = Some TRUE_DIGEST;
  inv_node d n : ds_nodes s !! d = Some n -> node_digest n = d /\ well_shaped (ds_registry s) n;
  inv_memo d c : ds_evals s !! d = Some c -> memo_ok s d c;
  inv_budget : 0 <= ds_remaining_elements s /\
    ds_remaining_elements s + num_elements s = MAX_DEFERRED_ELEMENTS
}.

(** Evaluation adds nodes and memos. *)
Record extends (s s' : DeferredState) : Prop := {
  ext_registry : ds_registry s ⊆ ds_registry s';
  ext_nodes : ds_nodes s ⊆ ds_nodes s';
  ext_evals : ds_evals s ⊆ ds_evals s'
}.

#[export] Instance extends_preorder : PreOrder extends.
Proof.
  split.
  - by split.
  - intros s1 s2 s3 [] []. split; by etrans.
Qed.

Lemma ext_node s s' d n : extends s s' -> ds_nodes s !! d = Some n -> ds_nodes s' !! d = Some n.
Proof. intros [] ?. by eapply lookup_weaken. Qed.

Lemma ext_memo s s' d c : extends s s' -> ds_evals s !! d = Some c -> ds_evals s' !! d = Some c.
Proof. intros [] ?. by eapply lookup_weaken. Qed.

Lemma replays_extends s s' e n : extends s s' -> replays s e n -> replays s' e n.
Proof.
  intros Hx Hr. induction Hr; econstructor; eauto using ext_node, ext_memo.
  destruct H1 as [c Hc]. exists c. by eapply ext_memo.
Qed.

Lemma justified_extends s s' n m : extends s s' -> justified s n m -> justified s' n m.
Proof.
  intros Hx. unfold justified. repeat case_decide; [done| |done|].
  - intros [-> Hc]. split; [done|]. eapply Forall_impl; [done|]. intros c. exact (ext_memo _ _ _ _ Hx).
  - intros (p & Hp & Hr). exists p. split; [by eapply lookup_weaken, Hx|].
    intros Hs. eapply replays_extends; eauto.
Qed.

Lemma memo_ok_extends s s' d c : extends s s' -> memo_ok s d c -> memo_ok s' d c.
Proof.
  intros Hx (n & m & Hn & Hm & Hj). exists n, m.
  split; [by apply (ext_node s)|]. split; [by apply (ext_node s)|]. by apply (justified_extends s).
Qed.

(** ** Computations that keep the invariant *)

Definition ok_at {A} (s : DeferredState) (m : M PrecompileError DeferredState A)
    (Q : A -> DeferredState -> Prop) : Prop :=
  let '(r, s') := m s in
  inv s' /\ extends s s' /\ ds_root s' = ds_root s /\ match r with Ok a => Q a s' | _ => True end.

Lemma ok_bind {A B} s (m : M PrecompileError DeferredState A)
    (k : A -> M PrecompileError DeferredState B) Q R :
  ok_at s m Q -> (forall a s', inv s' -> extends s s' -> Q a s' -> ok_at s' (k a) R) ->
  ok_at s (bind m k) R.
Proof.
  unfold ok_at, bind. destruct (m s) as [[a|e|] s']; intros (Hi & Hx & Hr & HQ) Hk; [|done..].
  specialize (Hk a s' Hi Hx HQ). destruct (k a s') as [r s'']. destruct Hk as (? & ? & ? & ?).
  split; [done|]. split; [by etrans|]. split; [congruence|done].
Qed.

Lemma ok_ret {A} s (a : A) (Q : A -> DeferredState -> Prop) : inv s -> Q a s -> ok_at s (ret a) Q.
Proof. intros. split; [done|]. split; [reflexivity|]. done. Qed.
Lemma ok_fail {A} s e (Q : A -> DeferredState -> Prop) : inv s -> ok_at s (fail e) Q.
Proof. intros. split; [done|]. split; [reflexivity|]. done. Qed.
Lemma ok_panic {A} s (Q : A -> DeferredState -> Prop) : inv s -> ok_at s panic Q.
Proof. intros. split; [done|]. split; [reflexivity|]. done. Qed.
Lemma ok_gets {A B} s (f : DeferredState -> A) (k : A -> M PrecompileError DeferredState B) Q :
  ok_at s (k (f s)) Q -> ok_at s (bind (gets f) k) Q.
Proof. done. Qed.

Lemma ok_ret_bind {A B} s (a : A) (k : A -> M PrecompileError DeferredState B) Q :
  ok_at s (k a) Q -> ok_at s (bind (ret a) k) Q.
Proof. done. Qed.

Lemma ok_mono {A} s (m : M PrecompileError DeferredState A) (Q R : A -> DeferredState -> Prop) :
  ok_at s m Q -> (forall a s', inv s' -> extends s s' -> Q a s' -> R a s') -> ok_at s m R.
Proof.
  unfold ok_at. destruct (m s) as [[a|e|] s']; intros (Hi & Hx & Hr & HQ) Hk; eauto.
Qed.

Lemma ok_try {A} s (m : M PrecompileError DeferredState A) Q :
  ok_at s m Q -> ok_at s (try m) (fun o s' => match o with inr a => Q a s' | inl _ => True end).
Proof. unfold ok_at, try. by destruct (m s) as [[a|e|] s']. Qed.

Lemma ok_lift {A} s (r : res PrecompileError A) (Q : A -> DeferredState -> Prop) :
  inv s -> (forall a, r = Ok a -> Q a s) -> ok_at s (lift_res r) Q.
Proof. intros Hi HQ. split; [done|]. split; [reflexivity|]. split; [done|]. destruct r; auto. Qed.

Lemma ok_ok_or {A} s (o : option A) e (Q : A -> DeferredState -> Prop) :
  inv s -> (forall a, o = Some a -> Q a s) -> ok_at s (ok_or o e) Q.
Proof. intros Hi HQ. destruct o; [apply ok_ret|apply ok_fail]; auto. Qed.

(** ** The operations *)

Lemma num_elements_insert s d n :
  ds_nodes s !! d = None -> d <> TRUE_DIGEST ->
  num_elements (set_nodes (<[d := n]> (ds_nodes s)) s) = storage_felt_len n + num_elements s.
Proof.
  intros Hd Ht. unfold num_elements. cbn. rewrite map_fold_insert_L; [|intros|done].
  - by rewrite decide_False.
  - repeat case_decide; lia.
Qed.

Lemma storage_felt_len_nonneg n : 0 <= storage_felt_len n.
Proof. unfold storage_felt_len, felt_len, TAG_FELT_LEN. destruct (is_true n); lia. Qed.

(** What [insert_node] does in the case it stores the node. *)
Definition inserted (n : Node) (s : DeferredState) : DeferredState :=
  set_nodes (<[node_digest n := n]> (ds_nodes s))
    (set_remaining (ds_remaining_elements s - storage_felt_len n) s).

Lemma inserted_extends n s : ds_nodes s !! node_digest n = None -> extends s (inserted n s).
Proof. intros Hn. split; try done. cbn. by apply insert_subseteq. Qed.

Lemma well_shaped_mono (r r' : gmap Felt Precompile) n : r ⊆ r' -> well_shaped r n -> well_shaped r' n.
Proof.
  intros Hr [ty Hty]. exists ty. unfold validate_node, decode_node_type in *.
  repeat case_decide; try done. unfold decode_precompile_tag in *.
  destruct (is_framework_reserved (node_tag n)); [done|]. destruct (r !! _) as [p|] eqn:Hp; [|done]. by rewrite (lookup_weaken _ _ _ _ Hp Hr).
Qed.

Lemma inserted_inv n s :
  inv s -> ds_nodes s !! node_digest n = None -> well_shaped (ds_registry s) n ->
  storage_felt_len n <= ds_remaining_elements s -> inv (inserted n s).
Proof.
  intros Hi Hn Hw Hr. pose proof (inserted_extends n s Hn) as Hx.
  assert (node_digest n <> TRUE_DIGEST) by (intros Hd; rewrite Hd, (inv_true s Hi) in Hn; done).
  split.
  - apply (ext_node _ _ _ _ Hx), Hi.
  - apply Hi.
  - intros d m. cbn. rewrite lookup_insert_Some. intros [[<- <-]|[_ Hm]]; [done|].
    by apply (inv_node s Hi).
  - intros d c Hd. by apply (memo_ok_extends s), Hi.
  - destruct (inv_budget s Hi) as [? Hb]. cbn.
    pose proof (num_elements_insert s _ n Hn ltac:(done)) as Hs.
    unfold num_elements in *. cbn in *. lia.
Qed.

Lemma insert_node_ok s n :
  inv s -> well_shaped (ds_registry s) n ->
  ok_at s (insert_node n) (fun d s' => d = node_digest n /\ ds_nodes s' !! d = Some n).
Proof.
  intros Hi Hw. unfold insert_node. apply ok_gets. cbn [id].
  destruct (ds_nodes s !! node_digest n) as [m|] eqn:Hn.
  - case_decide; subst; [by apply ok_ret|by apply ok_fail].
  - case_match; [by apply ok_fail|].
    change (ok_at s (fun s => (Ok (node_digest n), inserted n s))
      (fun d s' => d = node_digest n /\ ds_nodes s' !! d = Some n)).
    split; [apply inserted_inv; auto; lia|]. split; [by apply inserted_extends|].
    split; [done|]. split; [done|]. apply lookup_insert_eq.
Qed.

Definition children_stored (s : DeferredState) (n : Node) : Prop :=
  Forall (fun c => is_Some (ds_nodes s !! c)) (node_children n).

Lemma children_stored_extends s s' n : extends s s' -> children_stored s n -> children_stored s' n.
Proof.
  intros Hx Hc. eapply Forall_impl; [done|]. intros c [m Hm]. exists m. by apply (ext_node s).
Qed.

Lemma missing_child_spec s n : inv s -> missing_child s n = false <-> children_stored s n.
Proof.
  intros Hi. unfold missing_child, children_stored.
  induction (node_children n) as [|c l IH]; [by cbn|]. cbn.
  rewrite orb_false_iff, IH, Forall_cons.
  rewrite andb_false_iff, !negb_false_iff, !bool_decide_eq_true.
  split; intros [Hc ?]; (split; [|done]); [|by right].
  destruct Hc as [->|]; [|done]. by rewrite (inv_true s Hi).
Qed.

Lemma validate_node_for_insertion_ok s n :
  inv s -> ok_at s (validate_node_for_insertion n)
    (fun ty s' => s' = s /\ well_shaped (ds_registry s) n /\ children_stored s n).
Proof.
  intros Hi. unfold validate_node_for_insertion. apply ok_gets. cbn [id].
  unfold ok_at, bind, lift_res. destruct (validate_node (ds_registry s) n) as [ty|e|] eqn:Hv;
    [|split; [done|]; split; [reflexivity|done]..].
  destruct (missing_child s n) eqn:Hm; cbn; (split; [done|]); (split; [reflexivity|]); (split; [done|]); try done.
  split; [done|]. split; [by exists ty|]. by apply missing_child_spec.
Qed.

Lemma set_memo_extends s d c :
  ds_evals s !! d = None -> extends s (set_evals (<[d := c]> (ds_evals s)) s).
Proof. intros Hd. split; try done. cbn. by apply insert_subseteq. Qed.

Lemma set_memo_inv s d n m :
  inv s -> ds_evals s !! d = None -> ds_nodes s !! d = Some n ->
  ds_nodes s !! node_digest m = Some m -> justified s n m ->
  inv (set_evals (<[d := node_digest m]> (ds_evals s)) s).
Proof.
  intros Hi Hd Hn Hm Hj. pose proof (set_memo_extends s d (node_digest m) Hd) as Hx. split.
  - apply Hi.
  - apply (ext_memo _ _ _ _ Hx), Hi.
  - intros d' m'. apply Hi.
  - intros d' c'. cbn. rewrite lookup_insert_Some. intros [[<- <-]|[_ Hc]].
    + apply (memo_ok_extends s); [done|]. by exists n, m.
    + by apply (memo_ok_extends s), Hi.
  - apply Hi.
Qed.

Lemma record_eval_ok s d n m :
  inv s -> ds_nodes s !! d = Some n -> justified s n m ->
  ok_at s (record_eval d m) (fun _ s' => ds_evals s' !! d = Some (node_digest m)).
Proof.
  intros Hi Hn Hj. unfold record_eval. apply ok_gets. cbn [id]. rewrite Hn.
  eapply ok_bind; [by apply validate_node_for_insertion_ok|]. intros ty s' _ _ (-> & Hw & _).
  eapply ok_bind; [by apply insert_node_ok|]. intros c s1 Hi1 Hx1 [-> Hm].
  apply ok_gets. cbn [id]. destruct (ds_evals s1 !! d) as [c|] eqn:Hc.
  - case_decide; subst; [by apply ok_ret|by apply ok_fail].
  - split; [|split; [by apply set_memo_extends|split; [done|apply lookup_insert_eq]]].
    by apply (set_memo_inv _ _ n); [..|apply (ext_node s)|idtac|apply (justified_extends s)].
Qed.

(** ** Evaluation *)

Section Evaluation.
Context (ev : Digest -> M PrecompileError DeferredState Digest).
Context (Hev : forall s d, inv s -> ok_at s (ev d) (fun c s' => ds_evals s' !! d = Some c)).

Lemma require_true_eval_ok s d :
  inv s -> ok_at s (require_true_eval ev d) (fun _ s' => ds_evals s' !! d = Some TRUE_DIGEST).
Proof.
  intros Hi. eapply ok_bind; [by apply Hev|]. intros c s' Hi' _ Hc.
  case_decide; subst; [by apply ok_ret|by apply ok_fail].
Qed.

Lemma register_with_ok s n :
  inv s -> ok_at s (register_with ev n) (fun d s' =>
    d = node_digest n /\ ds_nodes s' !! d = Some n /\ children_stored s' n /\
    is_Some (ds_evals s' !! d)).
Proof.
  intros Hi. eapply ok_bind; [by apply validate_node_for_insertion_ok|].
  intros ty s' _ _ (-> & Hw & Hch).
  eapply ok_bind; [by apply insert_node_ok|]. intros d s1 Hi1 Hx1 [-> Hn].
  eapply ok_bind; [by apply Hev|]. intros c s2 Hi2 Hx2 Hc.
  apply ok_ret; [done|]. split; [done|]. split; [by apply (ext_node s1)|].
  split; [|by exists c]. apply (children_stored_extends s); [by etrans|done].
Qed.

Lemma run_raise s e (Q : Node -> DeferredState -> Prop) : inv s -> ok_at s (run ev (Raise e)) Q.
Proof. apply ok_fail. Qed.

Lemma run_ok p : forall s, inv s -> ok_at s (run ev p) (fun n s' => strict p -> replays s' p n).
Proof.
  induction p as [n|e| |d k IH|d k IH|m k IH]; intros s Hi.
  - apply ok_ret; [done|]. constructor.
  - by apply ok_fail.
  - by apply ok_panic.
  - eapply ok_mono; [by apply IH|]. intros n s' _ Hx Hr Hs. inversion Hs as [| | |? ? [e He] Hk| |]; subst.
    destruct (ds_nodes s !! d) as [m|] eqn:Hm.
    + econstructor; [by apply (ext_node s)|]. by apply Hr.
    + rewrite He in Hr. specialize (Hr (strict_raise e)). inversion Hr.
  - eapply ok_bind; [by apply ok_try, Hev|]. intros o s1 Hi1 Hx1 Ho.
    eapply ok_mono; [by apply IH|]. intros n s' _ Hx Hr Hs.
    inversion Hs as [| | | |? ? He Hk|]; subst. destruct o as [e|c].
    + destruct (He e) as [e' He']. rewrite He' in Hr. specialize (Hr (strict_raise e')). inversion Hr.
    + econstructor; [by apply (ext_memo s1)|]. by apply Hr.
  - eapply ok_bind; [by apply ok_try, register_with_ok|]. intros o s1 Hi1 Hx1 Ho.
    eapply ok_mono; [by apply IH|]. intros n s' _ Hx Hr Hs.
    inversion Hs as [| | | | |? ? He Hk]; subst. destruct o as [e|c].
    + destruct (He e) as [e' He']. rewrite He' in Hr. specialize (Hr (strict_raise e')). inversion Hr.
    + destruct Ho as (-> & Hn & _ & c' & Hc). econstructor; [by apply (ext_node s1)| |by apply Hr].
      exists c'. by apply (ext_memo s1).
Qed.

Lemma canonical_of_ok s n :
  inv s -> ok_at s (canonical_of ev n) (fun m s' => justified s' n m).
Proof.
  intros Hi. unfold canonical_of, justified. case_decide; [by apply ok_ret|].
  case_decide as Ha.
  { destruct (node_payload n) as [| |c|] eqn:Hp; try by apply ok_fail.
    apply ok_ret_bind. eapply ok_bind; [by apply require_true_eval_ok|]. intros [] s1 Hi1 _ Hl.
    eapply ok_bind; [by apply require_true_eval_ok|]. intros [] s2 Hi2 Hx2 Hr.
    apply ok_ret; [done|]. split; [done|]. unfold node_children. rewrite Hp.
    constructor; [by apply (ext_memo s1)|]. constructor; [done|constructor]. }
  case_decide; [by apply ok_ret|]. unfold registry_evaluate. case_match; [by apply ok_fail|].
  apply ok_gets. destruct (ds_registry s !! tag_id (node_tag n)) as [p|] eqn:Hp; [|by apply ok_fail].
  eapply ok_bind; [by apply ok_try, run_ok|]. intros [e|m] s1 Hi1 Hx1 Hr; [by apply ok_fail|].
  apply ok_ret; [done|]. exists p. split; [by eapply lookup_weaken, Hx1|done].
Qed.

End Evaluation.

Lemma evaluate_digest_ok depth : forall s d,
  inv s -> ok_at s (evaluate_digest depth d) (fun c s' => ds_evals s' !! d = Some c).
Proof.
  induction depth as [|depth IH]; intros s d Hi; [by apply ok_panic|]. cbn [evaluate_digest].
  apply ok_gets. cbn [id]. destruct (ds_nodes s !! d) as [n|] eqn:Hn; [|by apply ok_fail].
  apply ok_ret_bind. destruct (ds_evals s !! d) as [c|] eqn:Hc.
  - destruct (ds_nodes s !! c); [by apply ok_ret|by apply ok_fail].
  - eapply ok_bind; [by apply validate_node_for_insertion_ok|]. intros ty s' _ _ (-> & _ & _).
    eapply ok_bind; [by apply canonical_of_ok|]. intros m s1 Hi1 Hx1 Hj.
    eapply ok_bind; [by apply (record_eval_ok _ _ n); [|apply (ext_node s)|]|].
    intros [] s2 Hi2 Hx2 Hm. apply ok_gets. by apply ok_ok_or.
Qed.

Lemma register_ok depth s n :
  inv s -> ok_at s (register depth n) (fun d s' =>
    d = node_digest n /\ ds_nodes s' !! d = Some n /\ children_stored s' n /\
    is_Some (ds_evals s' !! d)).
Proof. apply register_with_ok. intros. by apply evaluate_digest_ok. Qed.

(** ** Logging *)

Lemma set_root_extends r s : extends s (set_root r s).
Proof. by split. Qed.

Lemma set_root_inv r s : inv s -> inv (set_root r s).
Proof.
  intros Hi. split; try apply Hi. intros d c Hc. by apply (memo_ok_extends s), Hi.
Qed.

Lemma node_and_shape r a b : well_shaped r (node_and a b).
Proof. by exists TyJoin. Qed.

(** An AND node is only ever memoized TRUE. *)
Lemma and_memo s d a b c :
  inv s -> ds_nodes s !! d = Some (node_and a b) -> ds_evals s !! d = Some c -> c = TRUE_DIGEST.
Proof.
  intros Hi Hn Hc. destruct (inv_memo s Hi d c Hc) as (n & m & Hn' & Hm & Hj).
  rewrite Hn in Hn'. simplify_eq. unfold justified in Hj. cbn in Hj.
  rewrite decide_False, decide_True in Hj by done. destruct Hj as [-> _].
  by destruct (inv_node s Hi _ _ Hm) as [<- _].
Qed.

(** Recording the new root cannot fail. *)
Lemma record_root_ok s d a b :
  inv s -> ds_nodes s !! d = Some (node_and a b) ->
  ds_evals s !! a = Some TRUE_DIGEST -> ds_evals s !! b = Some TRUE_DIGEST ->
  exists s', record_eval d Node_TRUE s = (Ok tt, s') /\ inv s' /\ extends s s' /\
    ds_root s' = ds_root s /\ ds_evals s' !! d = Some TRUE_DIGEST.
Proof.
  intros Hi Hd Ha Hb.
  assert (justified s (node_and a b) Node_TRUE) as Hj.
  { unfold justified. cbn. rewrite decide_False, decide_True by done. by repeat constructor. }
  pose proof (record_eval_ok s d _ _ Hi Hd Hj) as Hok. unfold ok_at in Hok.
  enough (exists s', record_eval d Node_TRUE s = (Ok tt, s')) as [s' Hs].
  { rewrite Hs in Hok. exists s'. naive_solver. }
  unfold record_eval. rewrite bind_gets. cbn [id]. rewrite Hd.
  erewrite bind_Ok; [|by unfold validate_node_for_insertion; rewrite bind_gets].
  erewrite bind_Ok; [|unfold insert_node; rewrite bind_gets; cbn [id node_digest Node_TRUE node_payload];
    rewrite (inv_true s Hi); by rewrite decide_True].
  rewrite bind_gets. cbn [id]. destruct (ds_evals s !! d) as [c|] eqn:Hc; [|by eexists].
  rewrite (and_memo s d a b c) by done. rewrite decide_True by done. by eexists.
Qed.

Definition root_ok (s : DeferredState) : Prop := ds_evals s !! ds_root s = Some TRUE_DIGEST.

(** The checks of [log_statement] and the insertion of the AND node. *)
Definition prepare_log (depth : nat) (root d : Digest) : M PrecompileError DeferredState Digest :=
  do! require_true_eval (evaluate_digest depth) root;
  do! require_true_eval (evaluate_digest depth) d;
  insert_node (node_and root d).

Lemma log_statement_prepare depth d s :
  log_statement depth d s =
  bind (prepare_log depth (ds_root s) d) (fun _ =>
    do! modify (set_root (fold_deferred_root (ds_root s) d));
    do! record_eval (fold_deferred_root (ds_root s) d) Node_TRUE;
    ret (fold_deferred_root (ds_root s) d)) s.
Proof.
  unfold log_statement, prepare_log. rewrite bind_gets. unfold bind at 1 6 7.
  destruct (require_true_eval _ _ s) as [[[]|e|] s1]; [|done..].
  unfold bind at 1 5. by destruct (require_true_eval _ _ s1) as [[[]|e|] s2].
Qed.

Lemma prepare_log_ok depth s root d :
  inv s -> ok_at s (prepare_log depth root d) (fun _ s' =>
    ds_nodes s' !! fold_deferred_root root d = Some (node_and root d) /\
    ds_evals s' !! root = Some TRUE_DIGEST /\ ds_evals s' !! d = Some TRUE_DIGEST).
Proof.
  intros Hi. pose proof (require_true_eval_ok _ (evaluate_digest_ok depth)) as Hreq.
  eapply ok_bind; [by apply Hreq|]. intros [] s1 Hi1 Hx1 Hm1.
  eapply ok_bind; [by apply Hreq|]. intros [] s2 Hi2 Hx2 Hm2.
  eapply ok_mono; [apply insert_node_ok; [done|apply node_and_shape]|].
  intros c s3 Hi3 Hx3 [-> Hn]. split; [done|].
  split; eapply ext_memo; eauto. by eapply ext_memo.
Qed.

(** The effect of [log_statement] on every path: the root advances exactly when
    it succeeds. *)
Lemma log_statement_spec depth s d :
  inv s -> root_ok s ->
  let '(r, s') := log_statement depth d s in
  inv s' /\ extends s s' /\ root_ok s' /\
  match r with
  | Ok root => root = fold_deferred_root (ds_root s) d /\ ds_root s' = root /\
      ds_evals s' !! d = Some TRUE_DIGEST
  | _ => ds_root s' = ds_root s
  end.
Proof.
  intros Hi Hr. rewrite log_statement_prepare. set (new := fold_deferred_root (ds_root s) d).
  pose proof (prepare_log_ok depth s (ds_root s) d Hi) as Hp. unfold ok_at in Hp. unfold bind at 1.
  destruct (prepare_log depth (ds_root s) d s) as [[c|e|] s1]; destruct Hp as (Hi1 & Hx1 & Hr1 & Hq);
    [|split; [done|]; split; [done|]; split; [by unfold root_ok; rewrite Hr1; apply (ext_memo s)|done]..].
  destruct Hq as (Hn & Ha & Hb).
  destruct (record_root_ok (set_root new s1) new (ds_root s) d) as (s2 & Hs2 & Hi2 & Hx2 & Hr2 & Hm2);
    [by apply set_root_inv|done..|].
  erewrite bind_Ok; [|done]. erewrite bind_Ok; [|done].
  split; [done|]. split; [by do 2 (etrans; [eassumption || apply (set_root_extends new)|])|]. split; [by unfold root_ok; rewrite Hr2|].
  split; [done|]. split; [done|]. by apply (ext_memo (set_root new s1)).
Qed.

(** ** Construction *)

Lemma state_empty_inv r : inv (state_empty r).
Proof.
  assert (num_elements (state_empty r) = 0) as Hn.
  { unfold num_elements, state_empty. cbn [ds_nodes]. rewrite map_fold_singleton. by rewrite decide_True. }
  split.
  - apply lookup_singleton_eq.
  - apply lookup_singleton_eq.
  - intros d n. cbn [state_empty ds_nodes]. rewrite lookup_singleton_Some. intros [<- <-]. split; [done|]. by exists TyTrue.
  - intros d c. cbn [state_empty ds_evals]. rewrite lookup_singleton_Some. intros [<- <-].
    exists Node_TRUE, Node_TRUE. cbn [state_empty ds_nodes]. by rewrite lookup_singleton_eq.
  - rewrite Hn. by cbn.
Qed.

Lemma load_nodes_ok l : forall s, inv s -> ok_at s (load_nodes l) (fun _ s' => True).
Proof.
  induction l as [|n l IH]; intros s Hi; [by apply ok_ret|]. cbn [load_nodes]. apply ok_gets.
  eapply ok_bind; [by apply (ok_lift s _ (fun _ s' => well_shaped (ds_registry s') n)); [|eexists]|].
  intros ty s1 Hi1 Hx1 Hw. eapply ok_bind; [by apply insert_node_ok|].
  intros d s2 Hi2 _ _. by apply IH.
Qed.

Lemma evaluate_all_ok depth l : forall s, inv s ->
  ok_at s (evaluate_all depth l) (fun _ s' => Forall (fun d => is_Some (ds_evals s' !! d)) l).
Proof.
  induction l as [|d l IH]; intros s Hi; [by apply ok_ret|]. cbn [evaluate_all].
  eapply ok_bind; [by apply evaluate_digest_ok|]. intros c s1 Hi1 _ Hc.
  eapply ok_mono; [by apply IH|]. intros [] s2 _ Hx2 Hl. constructor; [|done].
  exists c. by apply (ext_memo s1).
Qed.

Lemma initialize_ok depth s : inv s -> ok_at s (initialize_precompile_nodes depth) (fun _ _ => True).
Proof.
  intros Hi. apply ok_gets. destruct (init_nodes _) as [l|]; [|by apply ok_panic].
  apply ok_ret_bind. eapply ok_bind; [by apply load_nodes_ok|]. intros [] s1 Hi1 _ _.
  eapply ok_mono; [by apply evaluate_all_ok|]. done.
Qed.

Lemma deferred_state_new_ok depth r s :
  deferred_state_new depth r = Ok s ->
  inv s /\ extends (state_empty r) s /\ ds_root s = TRUE_DIGEST.
Proof.
  unfold deferred_state_new. pose proof (initialize_ok depth _ (state_empty_inv r)) as Hok.
  unfold ok_at in Hok. destruct (initialize_precompile_nodes _ _) as [[[]|e|] s']; [|done..].
  intros. simplify_eq. naive_solver.
Qed.

Lemma insert_precompile_mono f p (r r' : gmap Felt Precompile) : insert_precompile f p r = Some r' -> r ⊆ r'.
Proof.
  unfold insert_precompile. do 2 (case_match; [done|]). destruct (r !! pc_id p) eqn:Hp; [done|].
  intros. simplify_eq. by apply insert_subseteq.
Qed.

Lemma registry_merge_mono f r r' r'' : registry_merge f r r' = Some r'' -> r ⊆ r''.
Proof.
  unfold registry_merge. generalize (registry_values r'). intros l. revert r.
  induction l as [|p l IH]; cbn; intros r; [by intros [= ->]|].
  destruct (insert_precompile f p r) as [r1|] eqn:Hp.
  - intros Hl. etrans; [by eapply insert_precompile_mono|by apply IH].
  - intros Hl. exfalso. clear -Hl. induction l; [done|auto].
Qed.

Lemma set_registry_extends r s : ds_registry s ⊆ r -> extends s (set_registry r s).
Proof. by split. Qed.

Lemma set_registry_inv r s : inv s -> ds_registry s ⊆ r -> inv (set_registry r s).
Proof.
  intros Hi Hr. split; try apply Hi.
  - intros d n Hn. destruct (inv_node s Hi d n Hn). split; [done|]. by apply (well_shaped_mono (ds_registry s)).
  - intros d c Hc. by apply (memo_ok_extends s), Hi; [apply set_registry_extends|].
Qed.

Lemma extend_precompiles_ok depth f r s :
  inv s -> ok_at s (extend_precompiles depth f r) (fun _ _ => True).
Proof.
  intros Hi. unfold ok_at, extend_precompiles.
  destruct (registry_merge f (ds_registry s) r) as [r'|] eqn:Hr; [|by split].
  apply registry_merge_mono in Hr.
  pose proof (initialize_ok depth _ (set_registry_inv _ _ Hi Hr)) as Hok. unfold ok_at in Hok.
  destruct (initialize_precompile_nodes _ _) as [[[]|e|] s']; [|by split..].
  destruct Hok as (? & ? & ? & _). split; [done|]. split; [|done].
  etrans; [by apply set_registry_extends|done].
Qed.

(** ** Evaluation depth

    A precompile is structural when it evaluates only the children of the node
    it is given, and registers only nodes whose own evaluation makes no calls.
    Then the nesting of [evaluate_digest] is bounded by the height of the DAG. *)

Inductive leaf : Evaluation -> Prop :=
| leaf_return n : leaf (Return n)
| leaf_raise e : leaf (Raise e)
| leaf_get d k : (forall o, leaf (k o)) -> leaf (GetNode d k).

Definition leaf_node (r : PrecompileRegistry) (n : Node) : Prop :=
  node_tag n <> Tag_AND /\
  forall p, r !! tag_id (node_tag n) = Some p -> leaf (pc_evaluate p (tag_args (node_tag n)) (node_payload n)).

Inductive shallow (r : PrecompileRegistry) (children : list Digest) : Evaluation -> Prop :=
| shallow_return n : shallow r children (Return n)
| shallow_raise e : shallow r children (Raise e)
| shallow_get d k : (forall o, shallow r children (k o)) -> shallow r children (GetNode d k)
| shallow_evaluate d k :
    d ∈ children -> (forall o, shallow r children (k o)) -> shallow r children (EvaluateDigest d k)
| shallow_register n k :
    leaf_node r n -> (forall o, shallow r children (k o)) -> shallow r children (RegisterNode n k).

Definition structural (r : PrecompileRegistry) : Prop :=
  forall id p args payload, r !! id = Some p ->
    shallow r (payload_children payload) (pc_evaluate p args payload).

(** [rho] bounds the height of every stored node. *)
Definition ranks (s : DeferredState) (rho : Digest -> nat) : Prop :=
  (forall d, is_Some (ds_nodes s !! d) -> (rho d < size (ds_nodes s))%nat) /\
  (forall d n c, ds_nodes s !! d = Some n -> c ∈ node_children n ->
    is_Some (ds_nodes s !! c) /\ (rho c < rho d)%nat).

Definition agree (s : DeferredState) (rho rho' : Digest -> nat) : Prop :=
  forall d, is_Some (ds_nodes s !! d) -> rho' d = rho d.

Definition deep {A} (s : DeferredState) (rho : Digest -> nat)
    (m : M PrecompileError DeferredState A) : Prop :=
  let '(r, s') := m s in
  r <> Panic /\ ds_registry s' = ds_registry s /\ ds_nodes s ⊆ ds_nodes s' /\
  exists rho', ranks s' rho' /\ agree s rho rho'.

Lemma deep_same {A} s rho (m : M PrecompileError DeferredState A) r s' :
  ranks s rho -> m s = (r, s') -> r <> Panic -> ds_registry s' = ds_registry s ->
  ds_nodes s' = ds_nodes s -> deep s rho m.
Proof.
  intros Hr Hm Hp He Hn. unfold deep. rewrite Hm. split; [done|]. split; [done|].
  rewrite Hn. split; [done|]. exists rho. split; [|done]. unfold ranks. by rewrite Hn.
Qed.

Lemma deep_bind {A B} s rho (m : M PrecompileError DeferredState A)
    (k : A -> M PrecompileError DeferredState B) :
  deep s rho m ->
  (forall a s' rho', m s = (Ok a, s') -> ds_registry s' = ds_registry s ->
    ds_nodes s ⊆ ds_nodes s' -> ranks s' rho' -> agree s rho rho' -> deep s' rho' (k a)) ->
  deep s rho (bind m k).
Proof.
  unfold deep, bind. destruct (m s) as [[a|e|] s']; intros (Hp & He & Hn & rho' & Hr & Ha) Hk.
  - specialize (Hk a s' rho' eq_refl He Hn Hr Ha). destruct (k a s') as [r s''].
    destruct Hk as (? & ? & Hn' & rho'' & Hr' & Ha'). split; [done|]. split; [congruence|].
    split; [by etrans|]. exists rho''. split; [done|]. intros d [n Hd].
    rewrite Ha'; [by apply Ha; exists n|]. exists n. by eapply lookup_weaken.
  - split; [done|]. split; [done|]. split; [done|]. by exists rho'.
  - done.
Qed.

Lemma deep_gets {A B} s rho (f : DeferredState -> A) (k : A -> M PrecompileError DeferredState B) :
  deep s rho (k (f s)) -> deep s rho (bind (gets f) k).
Proof. done. Qed.

Lemma deep_ret_bind {A B} s rho (a : A) (k : A -> M PrecompileError DeferredState B) :
  deep s rho (k a) -> deep s rho (bind (ret a) k).
Proof. done. Qed.

Lemma deep_ret {A} s rho (a : A) : ranks s rho -> deep s rho (ret a).
Proof. intros Hr. by eapply deep_same. Qed.

Lemma deep_fail {A} s rho e : ranks s rho -> deep s rho (fail (A := A) e).
Proof. intros Hr. by eapply deep_same. Qed.

Lemma deep_try {A} s rho (m : M PrecompileError DeferredState A) : deep s rho m -> deep s rho (try m).
Proof. unfold deep, try. by destruct (m s) as [[a|e|] s']; intros []. Qed.

Lemma ok_Ok {A} s (m : M PrecompileError DeferredState A) (Q : A -> DeferredState -> Prop) a s' :
  ok_at s m Q -> m s = (Ok a, s') -> inv s' /\ extends s s' /\ Q a s'.
Proof. unfold ok_at. intros Hok Hm. rewrite Hm in Hok. naive_solver. Qed.

Lemma ranks_inserted s rho n :
  ranks s rho -> ds_nodes s !! node_digest n = None -> children_stored s n ->
  exists rho', ranks (inserted n s) rho' /\ agree s rho rho'.
Proof.
  intros [Hb Hl] Hn Hc. exists (fun d => if decide (d = node_digest n) then size (ds_nodes s) else rho d).
  assert (forall d, is_Some (ds_nodes s !! d) -> d <> node_digest n) as Hne.
  { intros d [m Hd] ->. congruence. }
  split; [split|].
  - intros d Hd. cbn in *. rewrite map_size_insert_None by done. case_decide; [lia|].
    rewrite lookup_insert_ne in Hd by done. specialize (Hb d Hd). lia.
  - intros d m c. cbn. rewrite lookup_insert_Some. intros [[<- <-]|[Hd Hm]] Hcm.
    + unfold children_stored in Hc. rewrite Forall_forall in Hc. specialize (Hc c Hcm).
      rewrite lookup_insert_ne by (symmetry; by apply Hne). split; [done|].
      rewrite decide_False, decide_True by auto. by apply Hb.
    + destruct (Hl d m c Hm Hcm) as [Hs Hlt]. rewrite lookup_insert_ne by (symmetry; by apply Hne).
      split; [done|]. by rewrite !decide_False by auto.
  - intros d Hd. by rewrite decide_False by auto.
Qed.

Lemma insert_node_deep s rho n :
  ranks s rho -> children_stored s n -> deep s rho (insert_node n).
Proof.
  intros Hr Hc. unfold deep, insert_node. rewrite bind_gets. cbn [id].
  assert (forall (r : res PrecompileError Digest), r <> Panic -> r <> Panic /\ ds_registry s = ds_registry s /\
    ds_nodes s ⊆ ds_nodes s /\ exists rho', ranks s rho' /\ agree s rho rho') as Hsame.
  { intros r Hp. do 3 (split; [done|]). by exists rho. }
  destruct (ds_nodes s !! node_digest n) as [m|] eqn:Hn; [case_decide; by apply Hsame|].
  destruct (_ <? _); [by apply Hsame|]. split; [done|]. split; [done|].
  split; [by apply insert_subseteq|]. by apply ranks_inserted.
Qed.

Lemma validate_node_total r n : validate_node r n <> Panic.
Proof. unfold validate_node, decode_node_type, decode_precompile_tag. repeat case_match; congruence. Qed.

Lemma validate_same s n :
  exists r, validate_node_for_insertion n s = (r, s) /\ r <> Panic.
Proof.
  unfold validate_node_for_insertion. rewrite bind_gets. unfold bind, lift_res. cbn [id].
  destruct (validate_node (ds_registry s) n) as [ty|e|] eqn:Hv.
  - destruct (missing_child s n); by eexists.
  - by eexists.
  - by apply validate_node_total in Hv.
Qed.

Lemma validate_deep {B} s rho n (k : NodeType -> M PrecompileError DeferredState B) :
  inv s -> ranks s rho ->
  (forall ty, well_shaped (ds_registry s) n -> children_stored s n -> deep s rho (k ty)) ->
  deep s rho (bind (validate_node_for_insertion n) k).
Proof.
  intros Hi Hr Hk. destruct (validate_same s n) as ([ty|e|] & Hv & Hp); [| |done].
  - destruct (ok_Ok _ _ _ _ _ (validate_node_for_insertion_ok s n Hi) Hv) as (_ & _ & _ & Hw & Hc).
    unfold deep. rewrite (bind_Ok _ _ _ _ _ Hv). by apply Hk.
  - eapply deep_same; [done|by apply bind_Err|done..].
Qed.

Lemma record_eval_deep s rho d n :
  inv s -> ranks s rho -> deep s rho (record_eval d n).
Proof.
  intros Hi Hr. unfold record_eval.
  apply deep_gets. cbn [id].
  destruct (ds_nodes s !! d); [|by eapply deep_same].
  apply validate_deep; [done..|]. intros ty Hw Hc.
  eapply deep_bind; [by apply insert_node_deep|]. intros c s2 rho3 _ _ _ Hr3 _.
  apply deep_gets. cbn [id].
  destruct (ds_evals s2 !! d); [case_decide|]; by eapply deep_same.
Qed.

(** A registered or evaluated leaf needs one level. *)
Lemma run_leaf ev p : leaf p -> forall s, exists r, run ev p s = (r, s) /\ r <> Panic.
Proof.
  induction 1 as [n|e|d k _ IH]; intros s; [by eexists..|]. apply IH.
Qed.

Lemma canonical_of_leaf ev s rho n :
  ranks s rho -> leaf_node (ds_registry s) n -> deep s rho (canonical_of ev n).
Proof.
  intros Hr [Ha Hl]. unfold canonical_of. case_decide; [by apply deep_ret|].
  rewrite decide_False by done. case_decide; [by apply deep_ret|]. unfold registry_evaluate.
  destruct (is_framework_reserved _); [by apply deep_fail|]. apply deep_gets.
  destruct (ds_registry s !! _) as [p|]; [|by apply deep_fail].
  destruct (run_leaf ev _ (Hl p eq_refl) s) as (r & Hrun & Hp).
  eapply deep_bind; [apply deep_try; by eapply deep_same|].
  intros [e|m] s1 rho1 _ _ _ Hr1 _; [by apply deep_fail|by apply deep_ret].
Qed.

Lemma ok_or_deep {A} s rho (o : option A) e : ranks s rho -> deep s rho (ok_or o e).
Proof. destruct o; [apply deep_ret|apply deep_fail]. Qed.

(** One level of evaluation, given the canonical node. *)
Lemma evaluate_digest_deep_step depth s rho d :
  inv s -> ranks s rho ->
  (forall n, ds_nodes s !! d = Some n -> deep s rho (canonical_of (evaluate_digest depth) n)) ->
  deep s rho (evaluate_digest (S depth) d).
Proof.
  intros Hi Hr Hc. cbn [evaluate_digest]. apply deep_gets. cbn [id].
  destruct (ds_nodes s !! d) as [n|]; [|by apply deep_fail]. cbn [ok_or].
  apply deep_ret_bind. destruct (ds_evals s !! d) as [c|]; [destruct (ds_nodes s !! c); [by apply deep_ret|by apply deep_fail]|].
  apply validate_deep; [done..|]. intros ty Hw Hch.
  eapply deep_bind; [by apply Hc|]. intros m s2 rho3 Hm _ _ Hr3 _.
  destruct (ok_Ok _ _ _ _ _ (canonical_of_ok _ (evaluate_digest_ok depth) s n Hi) Hm) as (Hi2 & _ & _).
  eapply deep_bind; [by apply record_eval_deep|]. intros [] s3 rho4 _ _ _ Hr4 _.
  apply deep_gets. by apply ok_or_deep.
Qed.

Lemma register_with_deep depth s rho n :
  inv s -> ranks s rho ->
  (forall s' rho', inv s' -> ds_registry s' = ds_registry s -> ds_nodes s' !! node_digest n = Some n ->
    ds_nodes s ⊆ ds_nodes s' -> ranks s' rho' -> agree s rho rho' ->
    deep s' rho' (evaluate_digest depth (node_digest n))) ->
  deep s rho (register_with (evaluate_digest depth) n).
Proof.
  intros Hi Hr He. apply validate_deep; [done..|]. intros ty Hw Hc.
  eapply deep_bind; [by apply insert_node_deep|]. intros d s1 rho1 Hd Hreg Hsub Hr1 Ha1.
  destruct (ok_Ok _ _ _ _ _ (insert_node_ok s n Hi Hw) Hd) as (Hi1 & _ & -> & Hn).
  eapply deep_bind; [by apply He|]. intros c s2 rho2 _ _ _ Hr2 _. by apply deep_ret.
Qed.

Lemma register_leaf_deep depth s rho n :
  (1 <= depth)%nat -> inv s -> ranks s rho -> leaf_node (ds_registry s) n ->
  deep s rho (register_with (evaluate_digest depth) n).
Proof.
  intros Hd Hi Hr Hl. apply register_with_deep; [done..|]. intros s' rho' Hi' He Hn _ Hr' _.
  destruct depth as [|depth]; [lia|]. apply evaluate_digest_deep_step; [done..|].
  intros m Hm. rewrite Hn in Hm. simplify_eq. apply canonical_of_leaf; [done|]. by rewrite He.
Qed.

(** The levels a stored digest may need. *)
Definition reachable_in (s : DeferredState) (rho : Digest -> nat) (depth : nat) (d : Digest) : Prop :=
  is_Some (ds_nodes s !! d) /\ (rho d + 2 <= depth)%nat.

Lemma reachable_in_mono s s' rho rho' depth d :
  ds_nodes s ⊆ ds_nodes s' -> agree s rho rho' -> reachable_in s rho depth d -> reachable_in s' rho' depth d.
Proof.
  intros Hs Ha [Hd Hl]. split; [|by rewrite Ha]. destruct Hd as [n Hn]. exists n. by eapply lookup_weaken.
Qed.

Section Level.
Context (depth : nat) (Hdepth : (1 <= depth)%nat).
Context (Hev : forall s rho d, inv s -> ranks s rho -> structural (ds_registry s) ->
  reachable_in s rho depth d -> deep s rho (evaluate_digest depth d)).

Lemma run_deep children p : forall s rho,
  inv s -> ranks s rho -> structural (ds_registry s) -> shallow (ds_registry s) children p ->
  Forall (reachable_in s rho depth) children -> deep s rho (run (evaluate_digest depth) p).
Proof.
  induction p as [n|e| |d k IH|d k IH|m k IH]; intros s rho Hi Hr Hst Hsh Hch; cbn [run];
    inversion Hsh; subst.
  - by apply deep_ret.
  - by apply deep_fail.
  - apply deep_gets. by apply IH.
  - eapply deep_bind; [apply deep_try, Hev; try done; by eapply Forall_forall|].
    intros o s1 rho1 Ho Hreg Hsub Hr1 Ha1.
    destruct (ok_Ok _ _ _ _ _ (ok_try _ _ _ (evaluate_digest_ok depth s d Hi)) Ho) as (Hi1 & _ & _).
    apply IH; rewrite ?Hreg; auto. eapply Forall_impl; [done|]. intros. by eapply reachable_in_mono.
  - eapply deep_bind; [by apply deep_try, register_leaf_deep|]. intros o s1 rho1 Ho Hreg Hsub Hr1 Ha1.
    pose proof (register_with_ok _ (evaluate_digest_ok depth) s m Hi) as Hok.
    destruct (ok_Ok _ _ _ _ _ (ok_try _ _ _ Hok) Ho) as (Hi1 & _ & _).
    apply IH; rewrite ?Hreg; auto. eapply Forall_impl; [done|]. intros. by eapply reachable_in_mono.
Qed.

Lemma require_true_deep s rho d :
  inv s -> ranks s rho -> structural (ds_registry s) -> reachable_in s rho depth d ->
  deep s rho (require_true_eval (evaluate_digest depth) d).
Proof.
  intros Hi Hr Hs Hd. eapply deep_bind; [by apply Hev|]. intros c s1 rho1 _ _ _ Hr1 _.
  case_decide; [by apply deep_ret|by apply deep_fail].
Qed.

Lemma canonical_of_deep s rho n :
  inv s -> ranks s rho -> structural (ds_registry s) ->
  Forall (reachable_in s rho depth) (node_children n) ->
  deep s rho (canonical_of (evaluate_digest depth) n).
Proof.
  intros Hi Hr Hst Hch. unfold canonical_of. case_decide; [by apply deep_ret|]. case_decide.
  { unfold node_children in Hch. destruct (node_payload n) as [| |c|]; try by apply deep_fail.
    apply deep_ret_bind. unfold payload_children, chunk_children in Hch. rewrite !Forall_cons in Hch. destruct Hch as (Hl & Hrt & _).
    eapply deep_bind; [by apply require_true_deep|]. intros [] s1 rho1 Ho Hreg Hsub Hr1 Ha1.
    destruct (ok_Ok _ _ _ _ _ (require_true_eval_ok _ (evaluate_digest_ok depth) s _ Hi) Ho) as (Hi1 & _ & _).
    eapply deep_bind; [apply require_true_deep; rewrite ?Hreg; try done; by eapply reachable_in_mono|].
    intros [] s2 rho2 _ _ _ Hr2 _. by apply deep_ret. }
  case_decide; [by apply deep_ret|]. unfold registry_evaluate.
  destruct (is_framework_reserved _); [by apply deep_fail|]. apply deep_gets.
  destruct (ds_registry s !! _) as [p|] eqn:Hp; [|by apply deep_fail].
  eapply deep_bind; [apply deep_try, (run_deep (node_children n)); eauto|].
  intros [e|m] s1 rho1 _ _ _ Hr1 _; [by apply deep_fail|by apply deep_ret].
Qed.

End Level.

Lemma evaluate_digest_deep depth : forall s rho d,
  inv s -> ranks s rho -> structural (ds_registry s) -> reachable_in s rho depth d ->
  deep s rho (evaluate_digest depth d).
Proof.
  induction depth as [|depth IH]; intros s rho d Hi Hr Hst [Hd Hl]; [lia|].
  apply evaluate_digest_deep_step; [done..|]. intros n Hn.
  apply canonical_of_deep; try done; [lia|]. apply Forall_forall. intros c Hc.
  destruct Hr as [_ Hr]. destruct (Hr d n c Hn Hc). split; [done|lia].
Qed.

End Theory.
