(* ===== verification/DeferredHistory.v ===== *)
(** * Deferred statements: reachable states

    What holds of a deferred state after any sequence of operations: the budget
    bounds the number of nodes, and so the nesting of evaluations; the root is
    the fold of the statements logged, each of which is memoized TRUE; and the
    root binds the statements. *)

From S2P Require Import Prelude Felt Quad AceCircuit Machine Merkle Deferred DeferredTheory.

Section Bounds.
Context `{Poseidon2}.

(** ** The size of a state *)

(** A stored node other than TRUE has a block, since without one its digest
    would be that of TRUE. *)
Lemma stored_felt_len s d n :
  inv s -> ds_nodes s !! d = Some n -> d <> TRUE_DIGEST -> 12 <= storage_felt_len n.
Proof.
  intros Hi Hn Hd. destruct (inv_node s Hi d n Hn) as [Hdig _].
  unfold storage_felt_len, is_true, felt_len, TAG_FELT_LEN, node_digest in *.
  destruct (node_payload n) as [|[|c l]|c|[|c l]]; cbn in *; try done; lia.
Qed.

Lemma fold_size (m : gmap Digest Node) :
  (forall d n, m !! d = Some n -> d <> TRUE_DIGEST -> 12 <= storage_felt_len n) ->
  12 * Z.of_nat (size m) <=
    map_fold (fun d n acc => if decide (d = TRUE_DIGEST) then acc else storage_felt_len n + acc) 0 m +
    (if decide (is_Some (m !! TRUE_DIGEST)) then 12 else 0).
Proof.
  induction m as [|d n m Hd IH] using map_ind; intros Hm.
  { rewrite map_size_empty, map_fold_empty. case_decide; lia. }
  rewrite map_size_insert_None, map_fold_insert_L by (try done; intros; repeat case_decide; lia).
  assert (forall d' n', m !! d' = Some n' -> d' <> TRUE_DIGEST -> 12 <= storage_felt_len n') as Hm'.
  { intros d' n' Hn'. apply (Hm d'). rewrite lookup_insert_ne; [done|]. intros ->. congruence. }
  specialize (IH Hm'). destruct (decide (d = TRUE_DIGEST)) as [->|Ht].
  - rewrite lookup_insert_eq, decide_True by done. rewrite Hd, decide_False in IH by (by intros []). lia.
  - rewrite lookup_insert_ne by done. specialize (Hm d n (lookup_insert_eq _ _ _) Ht). lia.
Qed.

Lemma nodes_bound s : inv s -> 12 * Z.of_nat (size (ds_nodes s)) <= MAX_DEFERRED_ELEMENTS + 12.
Proof.
  intros Hi. destruct (inv_budget s Hi). pose proof (fold_size (ds_nodes s)) as Hf.
  rewrite (inv_true s Hi), decide_True in Hf by done. unfold num_elements in *.
  specialize (Hf (fun d n => stored_felt_len s d n Hi)). lia.
Qed.

(** One level per node and one for a helper. *)
Definition MAX_EVALUATION_DEPTH : nat := Z.to_nat 87383.

(** ** Good states *)

(** The invariant, a DAG, precompiles that are structural, a root that holds. *)
Record good (s : DeferredState) : Prop := {
  good_inv : inv s;
  good_ranks : exists rho, ranks s rho;
  good_structural : structural (ds_registry s);
  good_root : root_ok s
}.

Lemma reachable_in_max s rho d :
  inv s -> ranks s rho -> is_Some (ds_nodes s !! d) -> reachable_in s rho MAX_EVALUATION_DEPTH d.
Proof.
  intros Hi [Hb _] Hd. split; [done|]. specialize (Hb d Hd). pose proof (nodes_bound s Hi).
  unfold MAX_EVALUATION_DEPTH, MAX_DEFERRED_ELEMENTS in *. lia.
Qed.

Notation evaluate := (evaluate_digest MAX_EVALUATION_DEPTH).

Lemma evaluate_deep s rho d :
  inv s -> ranks s rho -> structural (ds_registry s) -> deep s rho (evaluate d).
Proof.
  intros Hi Hr Hs. destruct (ds_nodes s !! d) as [n|] eqn:Hd.
  - apply evaluate_digest_deep; try done. by apply reachable_in_max.
  - replace MAX_EVALUATION_DEPTH with (S (pred MAX_EVALUATION_DEPTH)).
    + apply evaluate_digest_deep_step; try done. intros n Hn. congruence.
    + apply Nat.succ_pred. unfold MAX_EVALUATION_DEPTH. lia.
Qed.

Lemma max_depth_SS : exists k, MAX_EVALUATION_DEPTH = S (S k).
Proof. exists (MAX_EVALUATION_DEPTH - 2)%nat. unfold MAX_EVALUATION_DEPTH. lia. Qed.

Opaque MAX_EVALUATION_DEPTH.

Lemma require_true_max s rho d :
  inv s -> ranks s rho -> structural (ds_registry s) -> deep s rho (require_true_eval evaluate d).
Proof.
  intros Hi Hr Hs. eapply deep_bind; [by apply evaluate_deep|]. intros c s1 rho1 _ _ _ Hr1 _.
  case_decide; [by apply deep_ret|by apply deep_fail].
Qed.

Lemma register_deep s rho n :
  inv s -> ranks s rho -> structural (ds_registry s) -> deep s rho (register MAX_EVALUATION_DEPTH n).
Proof.
  intros Hi Hr Hs. apply register_with_deep; [done..|]. intros s' rho' Hi' He Hn _ Hr' _.
  apply evaluate_deep; [done..|]. by rewrite He.
Qed.

Lemma prepare_log_deep s rho root d :
  inv s -> ranks s rho -> structural (ds_registry s) ->
  is_Some (ds_nodes s !! root) -> deep s rho (prepare_log MAX_EVALUATION_DEPTH root d).
Proof.
  intros Hi Hr Hs Hroot.
  pose proof (require_true_eval_ok _ (evaluate_digest_ok MAX_EVALUATION_DEPTH)) as Hreq.
  eapply deep_bind; [by apply require_true_max|]. intros [] s1 rho1 Ho Hreg Hsub Hr1 _.
  destruct (ok_Ok _ _ _ _ _ (Hreq s root Hi) Ho) as (Hi1 & Hx1 & Hm1).
  eapply deep_bind; [apply require_true_max; rewrite ?Hreg; done|].
  intros [] s2 rho2 Ho2 _ _ Hr2 _. destruct (ok_Ok _ _ _ _ _ (Hreq s1 d Hi1) Ho2) as (Hi2 & Hx2 & Hm2).
  apply insert_node_deep; [done|]. repeat constructor; cbn.
  - destruct (inv_memo _ Hi2 root TRUE_DIGEST) as (n & m & Hn & _); [by apply (ext_memo s1)|]. by exists n.
  - destruct (inv_memo _ Hi2 d TRUE_DIGEST Hm2) as (n & m & Hn & _). by exists n.
Qed.

(** ** Fresh states *)

(** Every child of an initialization node is TRUE or an earlier node. *)
Fixpoint in_order (known : list Digest) (l : list Node) : Prop :=
  match l with
  | [] => True
  | n :: l => Forall (fun c => c ∈ known) (node_children n) /\ in_order (node_digest n :: known) l
  end.

Definition init_in_order (r : PrecompileRegistry) : Prop :=
  exists l, init_nodes r = Some l /\ in_order [TRUE_DIGEST] l.

Lemma load_nodes_deep l : forall known s rho,
  inv s -> ranks s rho -> Forall (fun c => is_Some (ds_nodes s !! c)) known -> in_order known l ->
  deep s rho (load_nodes l).
Proof.
  induction l as [|n l IH]; intros known s rho Hi Hr Hk Hl; [by apply deep_ret|].
  cbn [load_nodes]. destruct Hl as [Hc Hl]. apply deep_gets.
  destruct (validate_node (ds_registry s) n) as [ty|e|] eqn:Hv;
    [|by eapply deep_same|by destruct (validate_node_total (ds_registry s) n)].
  apply (deep_ret_bind _ _ ty). eapply deep_bind; [apply insert_node_deep; [done|]|].
  { eapply Forall_impl; [done|]. intros c Hcn. rewrite Forall_forall in Hk. by apply Hk. }
  intros d s1 rho1 Hd Hreg Hsub Hr1 _.
  destruct (ok_Ok _ _ _ _ _ (insert_node_ok s n Hi (ex_intro _ ty Hv)) Hd) as (Hi1 & Hx1 & -> & Hn).
  apply (IH (node_digest n :: known)); try done. constructor; [by exists n|].
  eapply Forall_impl; [done|]. intros c [m Hm]. exists m. by apply (ext_node s).
Qed.

Lemma evaluate_all_deep l : forall s rho,
  inv s -> ranks s rho -> structural (ds_registry s) -> deep s rho (evaluate_all MAX_EVALUATION_DEPTH l).
Proof.
  induction l as [|d l IH]; intros s rho Hi Hr Hs; [by apply deep_ret|]. cbn [evaluate_all].
  eapply deep_bind; [by apply evaluate_deep|]. intros c s1 rho1 Hc Hreg _ Hr1 _.
  destruct (ok_Ok _ _ _ _ _ (evaluate_digest_ok _ s d Hi) Hc) as (Hi1 & _ & _).
  apply IH; rewrite ?Hreg; done.
Qed.

Lemma initialize_deep s rho :
  inv s -> ranks s rho -> structural (ds_registry s) -> init_in_order (ds_registry s) ->
  deep s rho (initialize_precompile_nodes MAX_EVALUATION_DEPTH).
Proof.
  intros Hi Hr Hs (l & Hl & Ho). apply deep_gets. rewrite Hl. apply deep_ret_bind. eapply deep_bind.
  { apply (load_nodes_deep _ [TRUE_DIGEST]); try done. constructor; [|done]. by rewrite (inv_true s Hi). }
  intros [] s1 rho1 Hld Hreg _ Hr1 _.
  destruct (ok_Ok _ _ _ _ _ (load_nodes_ok _ s Hi) Hld) as (Hi1 & _ & _).
  apply evaluate_all_deep; rewrite ?Hreg; done.
Qed.

Lemma state_empty_ranks r : ranks (state_empty r) (fun _ => 0%nat).
Proof.
  split; cbn [state_empty ds_nodes].
  - intros d _. rewrite map_size_singleton. lia.
  - intros d n c. rewrite lookup_singleton_Some. intros [<- <-]. by rewrite elem_of_nil.
Qed.

(** A fresh state is good or construction reports an error. *)
Lemma fresh_good r :
  structural r -> init_in_order r ->
  match deferred_state_new MAX_EVALUATION_DEPTH r with
  | Ok s => good s /\ ds_root s = TRUE_DIGEST
  | Err _ => True
  | Panic => False
  end.
Proof.
  intros Hs Ho. destruct (deferred_state_new _ r) as [s|e|] eqn:Hn; [|done|].
  - pose proof (initialize_deep _ _ (state_empty_inv r) (state_empty_ranks r) Hs Ho) as Hd.
    destruct (deferred_state_new_ok _ _ _ Hn) as (Hi & Hx & Hr). revert Hn.
    unfold deep, deferred_state_new in *. destruct (initialize_precompile_nodes _ _) as [[[]|e|] s'];
      [|done..]. intros. simplify_eq. destruct Hd as (_ & Hreg & _ & rho' & Hr' & _).
    split; [|done]. split; [done|by exists rho'|by rewrite Hreg|].
    unfold root_ok. rewrite Hr. apply Hi.
  - pose proof (initialize_deep _ _ (state_empty_inv r) (state_empty_ranks r) Hs Ho) as Hd.
    unfold deep, deferred_state_new in *. destruct (initialize_precompile_nodes _ _) as [[[]|e|] s'];
      [done..|]. by destruct Hd.
Qed.

(** ** Histories *)

Inductive request :=
| ReqRegister (n : Node)
| ReqEvaluate (d : Digest)
| ReqLog (statement : Digest)
| ReqLogVerified (statement expected : Digest).

(** The statement a request has logged. *)
Definition perform (q : request) : M PrecompileError DeferredState (list Digest) :=
  match q with
  | ReqRegister n => do! register MAX_EVALUATION_DEPTH n; ret []
  | ReqEvaluate d => do! evaluate d; ret []
  | ReqLog d => do! log_statement MAX_EVALUATION_DEPTH d; ret [d]
  | ReqLogVerified d root => do! state_log_verified_statement MAX_EVALUATION_DEPTH d root; ret [d]
  end.

(** Serves every request, an error leaving what it has done to the state. *)
Fixpoint serve (l : list request) (s : DeferredState) : option (list Digest * DeferredState) :=
  match l with
  | [] => Some ([], s)
  | q :: l =>
      match perform q s with
      | (Ok logged, s) => '(logged', s) ← serve l s; Some (logged ++ logged', s)
      | (Err _, s) => serve l s
      | (Panic, _) => None
      end
  end.

Lemma good_step {A} s (m : M PrecompileError DeferredState A) Q r s' :
  good s -> (forall rho, ranks s rho -> deep s rho m) -> ok_at s m Q -> m s = (r, s') ->
  r <> Panic /\ good s' /\ extends s s' /\ ds_root s' = ds_root s.
Proof.
  intros [Hi [rho Hr] Hs Hroot] Hd Hok Hm. specialize (Hd rho Hr).
  unfold deep, ok_at in *. rewrite Hm in *. destruct Hd as (Hp & Hreg & _ & rho' & Hr' & _).
  destruct Hok as (Hi' & Hx & Hrt & _). split; [done|]. split; [|done].
  split; [done|by exists rho'|by rewrite Hreg|]. unfold root_ok. rewrite Hrt. by apply (ext_memo s).
Qed.

Lemma log_statement_deep s rho d :
  good s -> ranks s rho -> deep s rho (log_statement MAX_EVALUATION_DEPTH d).
Proof.
  intros [Hi _ Hs Hroot] Hr. unfold deep. rewrite log_statement_prepare.
  destruct (inv_memo s Hi _ _ Hroot) as (n & _ & Hn & _).
  apply (deep_bind s rho); [by apply prepare_log_deep|]. intros c s1 rho1 Hc Hreg Hsub Hr1 _.
  destruct (ok_Ok _ _ _ _ _ (prepare_log_ok _ s _ d Hi) Hc) as (Hi1 & _ & _).
  eapply deep_bind; [by eapply deep_same|]. intros [] ? rho2 [= <-] _ _ Hr2 _.
  eapply deep_bind; [apply record_eval_deep; [by apply set_root_inv|done]|].
  intros [] s3 rho3 _ _ _ Hr3 _. by apply deep_ret.
Qed.

(** Logging one statement. *)
Lemma log_statement_good s d r s' :
  good s -> log_statement MAX_EVALUATION_DEPTH d s = (r, s') ->
  r <> Panic /\ good s' /\ extends s s' /\
  match r with
  | Ok root => root = fold_deferred_root (ds_root s) d /\ ds_root s' = root /\
      ds_evals s' !! d = Some TRUE_DIGEST
  | _ => ds_root s' = ds_root s
  end.
Proof.
  intros Hg Hl. pose proof Hg as [Hi [rho Hr] Hs Hroot].
  pose proof (log_statement_deep s rho d Hg Hr) as Hd.
  pose proof (log_statement_spec MAX_EVALUATION_DEPTH s d Hi Hroot) as Hsp.
  unfold deep in Hd. rewrite Hl in *. destruct Hd as (Hp & Hreg & _ & rho' & Hr' & _).
  destruct Hsp as (Hi' & Hx & Hroot' & Hres). split; [done|]. split; [|done].
  split; [done|by exists rho'|by rewrite Hreg|done].
Qed.

(** A rejected transition leaves the state as it is. *)
Lemma log_verified_good s d root r s' :
  good s -> state_log_verified_statement MAX_EVALUATION_DEPTH d root s = (r, s') ->
  r <> Panic /\ good s' /\ extends s s' /\
  match r with
  | Ok new => new = root /\ new = fold_deferred_root (ds_root s) d /\ ds_root s' = new /\
      ds_evals s' !! d = Some TRUE_DIGEST
  | _ => ds_root s' = ds_root s
  end.
Proof.
  intros Hg. unfold state_log_verified_statement. rewrite bind_gets. case_decide as Hd.
  - intros Hl. destruct (log_statement_good s d r s' Hg Hl) as (Hp & Hg' & Hx & Hr).
    split; [done|]. split; [done|]. split; [done|]. destruct r as [new|e|]; [|done..].
    destruct Hr as (-> & Hr). by rewrite <- Hd.
  - intros [= <- <-]. do 2 (split; [done|]). by split.
Qed.

Lemma perform_good q s r s' :
  good s -> perform q s = (r, s') ->
  r <> Panic /\ good s' /\ extends s s' /\
  let logged := match r with Ok l => l | _ => [] end in
  ds_root s' = foldl fold_deferred_root (ds_root s) logged /\
  Forall (fun d => ds_evals s' !! d = Some TRUE_DIGEST) logged.
Proof.
  intros Hg. pose proof Hg as [Hi _ Hs _]. destruct q as [n|d|d|d root]; cbn [perform]; unfold bind.
  - destruct (register _ n s) as [r1 s1] eqn:Hm.
    destruct (good_step s (register _ n) _ r1 s1 Hg (fun rho Hr => register_deep s rho n Hi Hr Hs)
      (register_ok _ s n Hi) Hm) as (Hp & Hg' & Hx & Hroot).
    destruct r1; [| |done]; intros [= <- <-]; naive_solver.
  - destruct (evaluate d s) as [r1 s1] eqn:Hm.
    destruct (good_step s (evaluate d) _ r1 s1 Hg (fun rho Hr => evaluate_deep s rho d Hi Hr Hs)
      (evaluate_digest_ok _ s d Hi) Hm) as (Hp & Hg' & Hx & Hroot).
    destruct r1; [| |done]; intros [= <- <-]; naive_solver.
  - destruct (log_statement _ d s) as [r1 s1] eqn:Hm.
    destruct (log_statement_good s d r1 s1 Hg Hm) as (Hp & Hg' & Hx & Hr).
    destruct r1; [| |done]; intros [= <- <-]; naive_solver.
  - destruct (state_log_verified_statement _ d root s) as [r1 s1] eqn:Hm.
    destruct (log_verified_good s d root r1 s1 Hg Hm) as (Hp & Hg' & Hx & Hr).
    destruct r1; [| |done]; intros [= <- <-]; naive_solver.
Qed.

(** Serving requests, on every path. *)
Lemma serve_good l : forall s,
  good s ->
  exists logged s', serve l s = Some (logged, s') /\ good s' /\ extends s s' /\
    ds_root s' = foldl fold_deferred_root (ds_root s) logged /\
    Forall (fun d => ds_evals s' !! d = Some TRUE_DIGEST) logged.
Proof.
  induction l as [|q l IH]; intros s Hg; cbn [serve].
  { exists [], s. do 2 (split; [done|]). by split. }
  destruct (perform q s) as [r s1] eqn:Hq.
  destruct (perform_good q s r s1 Hg Hq) as (Hp & Hg1 & Hx1 & Hroot & Hall).
  destruct (IH s1 Hg1) as (logged & s' & Hs' & Hg' & Hx' & Hroot' & Hall').
  destruct r as [logged1|e|]; [| |done].
  - rewrite Hs'. exists (logged1 ++ logged), s'. split; [done|]. split; [done|]. split; [by etrans|].
    rewrite foldl_app, <- Hroot. split; [done|]. apply Forall_app. split; [|done].
    eapply Forall_impl; [done|]. intros d. exact (ext_memo _ _ _ _ Hx').
  - exists logged, s'. split; [done|]. split; [done|]. split; [by etrans|]. cbn in Hroot. by rewrite <- Hroot.
Qed.


(** ** The root binds the statements *)

(** The root after logging [l]. *)
Definition folded (l : list Word) : Word := foldl fold_deferred_root TRUE_DIGEST l.

(** At the same distance from their ends, the two histories fold different
    inputs into the same root. *)
Definition fold_collision (l l' : list Word) : Prop :=
  exists p d p' d' q, l = p ++ d :: q /\ l' = p' ++ d' :: q /\ (folded p, d) <> (folded p', d') /\
    fold_deferred_root (folded p) d = fold_deferred_root (folded p') d'.

(** The history has come back to the initial root. *)
Definition fold_cycle (l l' : list Word) : Prop :=
  exists p, p <> [] /\ l = p ++ l' /\ folded p = TRUE_DIGEST.

Lemma fold_collision_snoc l l' d : fold_collision l l' -> fold_collision (l ++ [d]) (l' ++ [d]).
Proof.
  intros (p & x & p' & x' & q & -> & -> & Hc). exists p, x, p', x', (q ++ [d]).
  by rewrite <- !app_assoc.
Qed.

Lemma fold_cycle_snoc l l' d : fold_cycle l l' -> fold_cycle (l ++ [d]) (l' ++ [d]).
Proof. intros (p & Hp & -> & Hf). exists p. by rewrite <- app_assoc. Qed.


(** ** Registration is idempotent *)

Lemma validate_stored s n :
  inv s -> well_shaped (ds_registry s) n -> children_stored s n ->
  exists ty, validate_node_for_insertion n s = (Ok ty, s).
Proof.
  intros Hi [ty Hty] Hc. exists ty. unfold validate_node_for_insertion. rewrite bind_gets.
  unfold bind, lift_res. cbn [id]. rewrite Hty. by rewrite (proj2 (missing_child_spec s n Hi)).
Qed.

Lemma insert_stored s n d :
  ds_nodes s !! d = Some n -> node_digest n = d -> insert_node n s = (Ok d, s).
Proof. intros Hn <-. unfold insert_node. rewrite bind_gets. cbn [id]. rewrite Hn. by rewrite decide_True. Qed.

(** A memoized digest is answered from the table. *)
Lemma evaluate_memo depth s d c :
  inv s -> ds_evals s !! d = Some c -> evaluate_digest (S depth) d s = (Ok c, s).
Proof.
  intros Hi Hc. destruct (inv_memo s Hi d c Hc) as (n & m & Hn & Hm & _). cbn [evaluate_digest].
  rewrite bind_gets. cbn [id]. rewrite Hn. cbn [ok_or]. rewrite bind_ret_l, Hc, Hm. done.
Qed.

(** Registering a node that was registered successfully returns the same
    digest again and changes nothing, the budget included, at any depth. *)
Lemma register_idempotent depth depth' s n d s' :
  inv s -> register depth n s = (Ok d, s') -> register (S depth') n s' = (Ok d, s').
Proof.
  intros Hi Hr.
  destruct (ok_Ok _ _ _ _ _ (register_ok depth s n Hi) Hr) as (Hi' & _ & -> & Hn & Hch & c & Hc).
  destruct (inv_node s' Hi' _ _ Hn) as [_ Hw]. destruct (validate_stored s' n Hi' Hw Hch) as [ty Hv].
  unfold register, register_with. rewrite (bind_Ok _ _ _ _ _ Hv).
  rewrite (bind_Ok _ _ _ _ _ (insert_stored s' n _ Hn eq_refl)).
  by rewrite (bind_Ok _ _ _ _ _ (evaluate_memo depth' s' _ c Hi' Hc)).
Qed.

(** ** What logging needs *)

(** A digest without a node has no memo. *)
Lemma no_node_no_memo s d : inv s -> ds_nodes s !! d = None -> ds_evals s !! d = None.
Proof.
  intros Hi Hn. destruct (ds_evals s !! d) as [c|] eqn:Hc; [|done].
  destruct (inv_memo s Hi d c Hc) as (n & _ & Hn' & _). congruence.
Qed.

(** Recording TRUE for a stored node without a memo. *)
Lemma record_true s d n :
  inv s -> ds_nodes s !! d = Some n -> ds_evals s !! d = None ->
  record_eval d Node_TRUE s = (Ok tt, set_evals (<[d := TRUE_DIGEST]> (ds_evals s)) s).
Proof.
  intros Hi Hn Hc. unfold record_eval. rewrite bind_gets. cbn [id]. rewrite Hn.
  erewrite bind_Ok; [|by unfold validate_node_for_insertion; rewrite bind_gets].
  rewrite (bind_Ok _ _ _ _ _ (insert_stored s Node_TRUE TRUE_DIGEST (inv_true s Hi) eq_refl)).
  rewrite bind_gets. cbn [id]. by rewrite Hc.
Qed.

Lemma insert_new s n :
  ds_nodes s !! node_digest n = None -> storage_felt_len n <= ds_remaining_elements s ->
  insert_node n s = (Ok (node_digest n), inserted n s).
Proof.
  intros Hn Hb. unfold insert_node. rewrite bind_gets. cbn [id]. rewrite Hn.
  by rewrite (proj2 (Z.ltb_ge _ _)).
Qed.

(** A statement memoized TRUE is logged when the AND node is new and fits. *)
Lemma log_statement_complete s d :
  inv s -> root_ok s -> ds_evals s !! d = Some TRUE_DIGEST ->
  ds_nodes s !! fold_deferred_root (ds_root s) d = None -> 12 <= ds_remaining_elements s ->
  exists s', log_statement MAX_EVALUATION_DEPTH d s = (Ok (fold_deferred_root (ds_root s) d), s').
Proof.
  intros Hi Hr Hd Hn Hb. destruct max_depth_SS as [k ->]. unfold log_statement. rewrite bind_gets.
  assert (forall x, ds_evals s !! x = Some TRUE_DIGEST ->
    require_true_eval (evaluate_digest (S (S k))) x s = (Ok tt, s)) as Hreq.
  { intros x Hx. unfold require_true_eval. rewrite (bind_Ok _ _ _ _ _ (evaluate_memo _ s x _ Hi Hx)).
    by rewrite decide_True. }
  rewrite (bind_Ok _ _ _ _ _ (Hreq _ Hr)), (bind_Ok _ _ _ _ _ (Hreq _ Hd)). cbv zeta.
  rewrite (bind_Ok _ _ _ _ _ (insert_new s (node_and (ds_root s) d) Hn Hb)).
  erewrite bind_Ok; [|done]. erewrite bind_Ok; [by eexists|].
  apply (record_true _ _ (node_and (ds_root s) d)).
  - apply set_root_inv, inserted_inv; try done. apply node_and_shape.
  - apply lookup_insert_eq.
  - by apply (no_node_no_memo s).
Qed.

End Bounds.
