(* ===== verification/UintPrecompile.v ===== *)
(** * The uint precompile

    crates/precompiles/src/math/uint: arithmetic over three fixed domains
    (spec.rs, domain.rs) as a precompile of the deferred framework
    (precompile.rs): VALUE nodes carry eight 32-bit limbs, ADD, SUB and MUL
    nodes evaluate their children and return the VALUE of the result, EQ nodes
    hold when the children evaluate to the same value.

    The precompile id is a hash of the name and a parameter of the section. *)

From S2P Require Import Prelude UintArith Felt Quad AceCircuit Machine Merkle Deferred.

(** ** Domains *)

Inductive UintDomain := U256 | K1Base | K1Scalar.

#[export] Instance domain_eq_dec : EqDecision UintDomain.
Proof. solve_decision. Defined.

Definition ALL_DOMAINS : list UintDomain := [U256; K1Base; K1Scalar].

Definition U256_BOUND_PTR : Z := 1.
Definition K1_BASE_BOUND_PTR : Z := 2.
Definition K1_SCALAR_BOUND_PTR : Z := 3.

Definition bound_ptr (d : UintDomain) : Z :=
  match d with
  | U256 => U256_BOUND_PTR | K1Base => K1_BASE_BOUND_PTR | K1Scalar => K1_SCALAR_BOUND_PTR
  end.

Definition from_bound_ptr (ptr : Z) : option UintDomain :=
  if ptr =? U256_BOUND_PTR then Some U256
  else if ptr =? K1_BASE_BOUND_PTR then Some K1Base
  else if ptr =? K1_SCALAR_BOUND_PTR then Some K1Scalar
  else None.

Definition K1_BASE_MODULUS : list Z :=
  [0xfffffc2f; 0xfffffffe; 0xffffffff; 0xffffffff; 0xffffffff; 0xffffffff; 0xffffffff; 0xffffffff].
Definition K1_SCALAR_MODULUS : list Z :=
  [0xd0364141; 0xbfd25e8c; 0xaf48a03b; 0xbaaedce6; 0xfffffffe; 0xffffffff; 0xffffffff; 0xffffffff].

Definition encoded_modulus (d : UintDomain) : list Z :=
  match d with U256 => ZERO_LIMBS | K1Base => K1_BASE_MODULUS | K1Scalar => K1_SCALAR_MODULUS end.

Definition is_prime_field (d : UintDomain) : bool := match d with U256 => false | _ => true end.

Definition BARRETT_MU (d : UintDomain) : list Z := barrett_mu (encoded_modulus d).

(** The comparison with the sentinel of the wrapping domain. *)
Definition is_wrapping (d : UintDomain) : bool := bool_decide (encoded_modulus d = ZERO_LIMBS).

Definition is_canonical (d : UintDomain) (value : list Z) : bool :=
  if is_wrapping d then true else bool_decide (cmp value (encoded_modulus d) = Lt).

Definition domain_add (d : UintDomain) (lhs rhs : list Z) : list Z :=
  if is_wrapping d then wrapping_add lhs rhs else add_mod lhs rhs (encoded_modulus d).
Definition domain_sub (d : UintDomain) (lhs rhs : list Z) : list Z :=
  if is_wrapping d then wrapping_sub lhs rhs else sub_mod lhs rhs (encoded_modulus d).
Definition domain_mul (d : UintDomain) (lhs rhs : list Z) : option (list Z) :=
  if is_wrapping d then wrapping_mul lhs rhs
  else mul_mod_barrett lhs rhs (encoded_modulus d) (BARRETT_MU d).

(** The outer option is a panic. *)
Definition domain_inv (d : UintDomain) (value : list Z) : option (option (list Z)) :=
  if is_prime_field d && negb (is_wrapping d)
  then inv_mod_prime_barrett value (encoded_modulus d) (BARRETT_MU d)
  else Some None.

Definition U256_MAX : list Z := replicate 8 0xffffffff.
Definition domain_max (d : UintDomain) : option (list Z) :=
  match d with U256 => Some U256_MAX | _ => None end.
Definition minus_one (d : UintDomain) : list Z :=
  if is_wrapping d then U256_MAX else sub_small (encoded_modulus d) 1.
Definition half (d : UintDomain) : option (option (list Z)) := domain_inv d TWO_LIMBS.

Fixpoint double_times (d : UintDomain) (exponent : nat) (value : list Z) : list Z :=
  match exponent with O => value | S n => double_times d n (domain_add d value value) end.

Definition pow2_mod (d : UintDomain) (exponent : nat) : option (list Z) :=
  if negb (is_prime_field d) || is_wrapping d then None else Some (double_times d exponent ONE_LIMBS).

Definition field_constants (d : UintDomain) : option (option (list (list Z))) :=
  if is_prime_field d then
    h ← half d;
    Some (h ← h; a ← pow2_mod d 128; b ← pow2_mod d 256; c ← pow2_mod d 384;
          Some [minus_one d; h; a; b; c])
  else Some None.

(** ** Operations *)

Inductive UintBinaryOp := UAdd | USub | UMul.

Inductive UintOp :=
| OpValue (domain : UintDomain)
| OpBinary (op : UintBinaryOp)
| OpEq.

Definition VALUE_OP_ID : Z := 0.
Definition ADD_OP_ID : Z := 1.
Definition SUB_OP_ID : Z := 2.
Definition MUL_OP_ID : Z := 3.
Definition EQ_OP_ID : Z := 4.

Definition domain_from_bound_ptr_arg (ptr : Felt) : option UintDomain :=
  if U32_MAX <? ⟦ptr⟧ then None else from_bound_ptr ⟦ptr⟧.

Definition op_decode (args : Felt * Felt * Felt) : option UintOp :=
  let '(a0, a1, a2) := args in
  let id := ⟦a0⟧ in
  if (id =? VALUE_OP_ID) && bool_decide (a2 = ZERO) then OpValue <$> domain_from_bound_ptr_arg a1
  else if (id =? ADD_OP_ID) && bool_decide (a1 = ZERO) && bool_decide (a2 = ZERO) then Some (OpBinary UAdd)
  else if (id =? SUB_OP_ID) && bool_decide (a1 = ZERO) && bool_decide (a2 = ZERO) then Some (OpBinary USub)
  else if (id =? MUL_OP_ID) && bool_decide (a1 = ZERO) && bool_decide (a2 = ZERO) then Some (OpBinary UMul)
  else if (id =? EQ_OP_ID) && bool_decide (a1 = ZERO) && bool_decide (a2 = ZERO) then Some OpEq
  else None.

Definition op_node_type (op : UintOp) : NodeType :=
  match op with OpValue _ => TyData | OpBinary _ | OpEq => TyJoin end.

(** [decode_limbs]. *)
Fixpoint decode_limb_list (l : list Felt) : res DeferredError (list Z) :=
  match l with
  | [] => Ok []
  | x :: l =>
      if U32_MAX <? ⟦x⟧ then Err InvalidPayload else
      match decode_limb_list l with Ok l => Ok (⟦x⟧ :: l) | Err e => Err e | Panic => Panic end
  end.
Definition decode_limbs (c : DataChunk) : res DeferredError (list Z) := decode_limb_list (chunk_felts c).

(** [limbs.map(Felt::from_u32)]. *)
Definition encode_limbs (l : list Z) : DataChunk :=
  let f i := from_u32 (nth i l 0) in
  mkChunk (mkWord (f 0%nat) (f 1%nat) (f 2%nat) (f 3%nat)) (mkWord (f 4%nat) (f 5%nat) (f 6%nat) (f 7%nat)).

Inductive UintNode :=
| NodeValue (domain : UintDomain) (limbs : list Z)
| NodeBinaryOp (op : UintBinaryOp) (lhs rhs : Digest)
| NodeEq (lhs rhs : Digest).

Definition node_parse (op : UintOp) (p : Payload) : res DeferredError UintNode :=
  match op with
  | OpValue domain =>
      match as_value p with
      | Ok chunk =>
          match decode_limbs chunk with
          | Ok limbs => if is_canonical domain limbs then Ok (NodeValue domain limbs) else Err InvalidPayload
          | Err e => Err e
          | Panic => Panic
          end
      | Err e => Err e
      | Panic => Panic
      end
  | OpBinary op =>
      match as_join p with Ok (l, r) => Ok (NodeBinaryOp op l r) | Err e => Err e | Panic => Panic end
  | OpEq => match as_join p with Ok (l, r) => Ok (NodeEq l r) | Err e => Err e | Panic => Panic end
  end.

(** ** The precompile *)

Section Precompile.
Context (uint_id : Felt).

Definition value_tag (domain : UintDomain) : Tag :=
  mkTag uint_id (new_unchecked VALUE_OP_ID) (from_u32 (bound_ptr domain)) ZERO.
Definition op_tag (op_id : Z) : Tag := mkTag uint_id (new_unchecked op_id) ZERO ZERO.

Definition value_node (domain : UintDomain) (limbs : list Z) : Node :=
  mkNode (value_tag domain) (PData [encode_limbs limbs]).

Definition limbs_from_typed_value_node (n : Node) : res DeferredError (UintDomain * list Z) :=
  match op_decode (tag_args (node_tag n)) with
  | Some (OpValue domain) =>
      match payload_for_tag n (value_tag domain) with
      | Ok p =>
          match as_value p with
          | Ok chunk =>
              match decode_limbs chunk with
              | Ok limbs => if is_canonical domain limbs then Ok (domain, limbs) else Err InvalidPayload
              | Err e => Err e
              | Panic => Panic
              end
          | Err e => Err e
          | Panic => Panic
          end
      | Err e => Err e
      | Panic => Panic
      end
  | _ => Err InvalidPayload
  end.

(** A result with [?]. *)
Definition and_then {A} (r : res DeferredError A) (k : A -> Evaluation) : Evaluation :=
  match r with Ok a => k a | Err e => Raise (OtherDeferred e) | Panic => Abort end.

Definition get_node_or (d : Digest) (k : Node -> Evaluation) : Evaluation :=
  GetNode d (fun o => match o with Some n => k n | None => Raise MissingNode end).

Definition evaluate_value_pair (lhs rhs : Digest) (k : UintDomain -> list Z -> list Z -> Evaluation) :
    Evaluation :=
  evaluate_digest_pair lhs rhs (fun lhs rhs =>
    get_node_or lhs (fun lhs => get_node_or rhs (fun rhs =>
      and_then (limbs_from_typed_value_node lhs) (fun '(lhs_domain, lhs) =>
      and_then (limbs_from_typed_value_node rhs) (fun '(rhs_domain, rhs) =>
        if decide (lhs_domain = rhs_domain) then k lhs_domain lhs rhs
        else Raise (OtherDeferred InvalidPayload)))))).

Definition binary_op (op : UintBinaryOp) (domain : UintDomain) (lhs rhs : list Z) : option (list Z) :=
  match op with
  | UAdd => Some (domain_add domain lhs rhs)
  | USub => Some (domain_sub domain lhs rhs)
  | UMul => domain_mul domain lhs rhs
  end.

Definition uint_evaluate (args : Felt * Felt * Felt) (p : Payload) : Evaluation :=
  match op_decode args with
  | None => Raise InvalidNode
  | Some op =>
      and_then (node_parse op p) (fun n =>
        match n with
        | NodeValue domain limbs => Return (value_node domain limbs)
        | NodeBinaryOp op lhs rhs =>
            evaluate_value_pair lhs rhs (fun domain lhs rhs =>
              match binary_op op domain lhs rhs with
              | Some value => Return (value_node domain value)
              | None => Abort
              end)
        | NodeEq lhs rhs =>
            evaluate_value_pair lhs rhs (fun _ lhs rhs =>
              if decide (lhs = rhs) then Return Node_TRUE else Raise AssertionFailed)
        end)
  end.

(** The constants of one domain. *)
Definition domain_nodes (d : UintDomain) : option (list Node) :=
  constants ← field_constants d;
  Some (value_node d <$> [ZERO_LIMBS; ONE_LIMBS; TWO_LIMBS] ++
    (match domain_max d with Some m => [m] | None => [] end) ++
    match constants with Some l => l | None => [] end).

Definition uint_init : option (list Node) := @concat Node <$> mapM domain_nodes ALL_DOMAINS.

Definition UintPrecompile : Precompile :=
  mkPrecompile "uint256" uint_id (fun _ => uint_init) (fun args => op_node_type <$> op_decode args) uint_evaluate.

(** [decode_node]: the structural view of a node; [Ok None] when another
    precompile owns it. *)
Definition decode_node (n : Node) : res PrecompileError (option UintNode) :=
  if decide (tag_id (node_tag n) = uint_id) then
    match op_decode (tag_args (node_tag n)) with
    | None => Err InvalidNode
    | Some op =>
        match node_parse op (node_payload n) with
        | Ok parsed => Ok (Some parsed)
        | Err e => Err (OtherDeferred e)
        | Panic => Panic
        end
    end
  else Ok None.

End Precompile.
