(* ===== verification/UintEquality.v ===== *)
(** * The uint precompile: correctness

    The domain operations compute integer arithmetic modulo the domain's
    modulus, and a logged equality of uint expressions is an equality of the
    integers they denote. *)

From S2P Require Import Prelude UintArith UintTheory Felt Quad AceCircuit Machine Merkle Deferred.
From S2P Require Import DeferredTheory DeferredHistory UintPrecompile.

(** ** Domains *)

Definition modulus (d : UintDomain) : Z :=
  if is_wrapping d then bpow 8 else value (encoded_modulus d).

Definition canonical (d : UintDomain) (l : list Z) : Prop := wf 8 l /\ value l < modulus d.

Lemma wf_decide n l : (length l =? n)%nat && forallb (fun x => (0 <=? x) && (x <? B)) l = true -> wf n l.
Proof.
  rewrite andb_true_iff, Nat.eqb_eq, forallb_forall. intros [Hl Hf]. split; [done|].
  apply Forall_forall. intros x Hx. apply list_elem_of_In, Hf in Hx. lia.
Qed.

Lemma domain_barrett d : is_wrapping d = false -> barrett_ok (encoded_modulus d) (BARRETT_MU d).
Proof.
  destruct d; intros H; try discriminate H; (split; [by apply wf_decide|by vm_compute|by apply wf_decide; vm_compute|by vm_compute]).
Qed.

Lemma modulus_bound d : bpow 7 <= modulus d <= bpow 8.
Proof. destruct d; by vm_compute. Qed.

Lemma is_canonical_spec d l : wf 8 l -> is_canonical d l = true <-> value l < modulus d.
Proof.
  intros Hl. unfold is_canonical, modulus. destruct (is_wrapping d) eqn:Hw.
  - split; [|done]. intros _. by apply value_bounds.
  - rewrite bool_decide_eq_true, (cmp_spec 8); [apply Z.compare_lt_iff|done|]. by apply (domain_barrett d).
Qed.

Definition op_Z (op : UintBinaryOp) : Z -> Z -> Z :=
  match op with UAdd => Z.add | USub => Z.sub | UMul => Z.mul end.

Lemma domain_ops_spec op d a b : canonical d a -> canonical d b ->
  exists c, binary_op op d a b = Some c /\ canonical d c /\
    value c = op_Z op (value a) (value b) mod modulus d.
Proof.
  intros [Ha Hav] [Hb Hbv]. unfold canonical, modulus, binary_op, domain_add, domain_sub, domain_mul in *.
  destruct (is_wrapping d) eqn:Hw.
  - destruct op; cbn [op_Z].
    + destruct (wrapping_add_spec 8 a b Ha Hb) as [Hc Hv]. eexists. split; [done|]. rewrite Hv. split; [|done].
      split; [done|]. apply Z.mod_pos_bound, bpow_pos.
    + destruct (wrapping_sub_spec 8 a b Ha Hb) as [Hc Hv]. eexists. split; [done|]. rewrite Hv. split; [|done].
      split; [done|]. apply Z.mod_pos_bound, bpow_pos.
    + destruct (wrapping_mul_spec a b Ha Hb) as (c & Hm & Hc & Hv). exists c. split; [done|]. rewrite Hv.
      split; [|done]. split; [done|]. apply Z.mod_pos_bound, bpow_pos.
  - pose proof (domain_barrett d Hw) as Hm. pose proof (bpow_pos 7).
    assert (0 < value (encoded_modulus d)) by (destruct Hm; lia).
    destruct op; cbn [op_Z].
    + destruct (add_mod_spec a b (encoded_modulus d)) as [Hc Hv]; try done; [apply Hm|].
      eexists. split; [done|]. rewrite Hv. split; [|done]. split; [done|]. by apply Z.mod_pos_bound.
    + destruct (sub_mod_spec a b (encoded_modulus d)) as [Hc Hv]; try done; [apply Hm|].
      eexists. split; [done|]. rewrite Hv. split; [|done]. split; [done|]. by apply Z.mod_pos_bound.
    + destruct (mul_mod_barrett_spec a b _ _ Ha Hb Hm Hav Hbv) as (c & Hmul & Hc & Hv). exists c.
      split; [done|]. rewrite Hv. split; [|done]. split; [done|]. by apply Z.mod_pos_bound.
Qed.

(** C20: addition, subtraction and multiplication of every domain return the
    canonical limbs of the integer result modulo the domain's modulus, and the
    inverse of a nonzero element of a prime field is its power
    [modulus - 2]: limbs, carries, borrows and the Barrett estimate are exact,
    no index is out of range and the correction loop ends. *)
Theorem domain_arithmetic_correct d a b : canonical d a -> canonical d b ->
  canonical d (domain_add d a b) /\ value (domain_add d a b) = (value a + value b) mod modulus d /\
  canonical d (domain_sub d a b) /\ value (domain_sub d a b) = (value a - value b) mod modulus d /\
  (exists c, domain_mul d a b = Some c /\ canonical d c /\ value c = (value a * value b) mod modulus d) /\
  (is_prime_field d = true -> value a <> 0 ->
    exists c, domain_inv d a = Some (Some c) /\ canonical d c /\ value c = value a ^ (modulus d - 2) mod modulus d).
Proof.
  intros Ha Hb.
  destruct (domain_ops_spec UAdd d a b Ha Hb) as (x & [= <-] & ? & ?).
  destruct (domain_ops_spec USub d a b Ha Hb) as (y & [= <-] & ? & ?).
  do 4 (split; [done|]). split; [exact (domain_ops_spec UMul d a b Ha Hb)|]. intros Hp Hz.
  assert (is_wrapping d = false) as Hw by (by destruct d). destruct Ha as [Ha Hav].
  pose proof (domain_barrett d Hw) as Hm. pose proof (value_bounds _ _ Ha). pose proof (bpow_pos 7).
  unfold canonical, modulus, domain_inv in *. rewrite Hw, Hp in *. cbn [andb negb].
  assert (2 < bpow 7) by done. assert (2 < value (encoded_modulus d)) by (destruct Hm; lia).
  destruct (inv_mod_prime_barrett_spec a _ _ Hm Ha ltac:(lia) ltac:(lia)) as (c & Hc & Hwc & Hvc).
  exists c. split; [done|]. rewrite Hvc. split; [|done]. split; [done|]. apply Z.mod_pos_bound. lia.
Qed.

(** ** Encodings *)

Lemma decode_limb_list_Ok l : forall r, decode_limb_list l = Ok r ->
  wf (length l) r /\ from_u32 <$> r = l.
Proof.
  induction l as [|x l IH]; intros r; cbn [decode_limb_list]; [by intros [= <-]|].
  destruct (Z.ltb_spec U32_MAX ⟦x⟧) as [|Hx]; [done|]. destruct (decode_limb_list l) as [t| |]; [|done..].
  intros [= <-]. destruct (IH t eq_refl) as [Hw Ht]. pose proof (felt_range x). split.
  - apply wf_cons. split; [|done]. unfold U32_MAX, B in *. lia.
  - cbn. rewrite Ht. f_equal. apply felt_of_canonical.
Qed.

Lemma decode_limb_list_encode l : Forall (fun x => 0 <= x < B) l ->
  decode_limb_list (from_u32 <$> l) = Ok l.
Proof.
  induction 1 as [|x l Hx _ IH]; [done|]. rewrite fmap_cons. cbn [decode_limb_list].
  assert (⟦from_u32 x⟧ = x) as -> by (apply felt_of_Z_small; unfold B, ORDER in *; lia).
  rewrite (proj2 (Z.ltb_ge _ _)) by (unfold U32_MAX, B in *; lia). by rewrite IH.
Qed.

Lemma chunk_felts_encode l : wf 8 l -> chunk_felts (encode_limbs l) = from_u32 <$> l.
Proof. intros [Hl _]. do 8 (destruct l as [|? l]; [done|]). by destruct l. Qed.

Lemma decode_encode l : wf 8 l -> decode_limbs (encode_limbs l) = Ok l.
Proof.
  intros Hl. unfold decode_limbs. rewrite chunk_felts_encode by done. apply decode_limb_list_encode, Hl.
Qed.

Lemma encode_decode c l : decode_limbs c = Ok l -> wf 8 l /\ encode_limbs l = c.
Proof.
  intros Hd. destruct (decode_limb_list_Ok _ _ Hd) as [Hw Hl]. destruct c as [[] []]. split; [done|].
  cbn in Hl. destruct Hw as [Hlen _]. do 8 (destruct l as [|? l]; [done|]). destruct l; [|done].
  cbn in Hl. injection Hl as <- <- <- <- <- <- <- <-. done.
Qed.

(** ** Evaluation *)

Section Equality.
Context `{Poseidon2} (uint_id : Felt).

Notation value_node := (value_node uint_id).

Lemma op_decode_value d : op_decode (tag_args (value_tag uint_id d)) = Some (OpValue d).
Proof. by destruct d. Qed.

Lemma typed_value_Ok n d l :
  limbs_from_typed_value_node uint_id n = Ok (d, l) -> n = value_node d l /\ canonical d l.
Proof.
  unfold limbs_from_typed_value_node, payload_for_tag. destruct (op_decode _) as [[d'| |]|]; try done.
  case_decide as Ht; [|done]. destruct n as [t p]. cbn [node_tag node_payload] in *. subst.
  destruct p as [|[|c [|]]| |]; try done. cbn [as_value as_data]. 
  destruct (decode_limbs c) as [l'| |] eqn:Hd; [|done..].
  destruct (is_canonical d' l') eqn:Hc; [|done]. intros [= <- <-].
  destruct (encode_decode c l' Hd) as [Hw <-]. split; [done|]. split; [done|]. by apply is_canonical_spec.
Qed.

Lemma typed_value_node d l : canonical d l -> limbs_from_typed_value_node uint_id (value_node d l) = Ok (d, l).
Proof.
  intros [Hw Hv]. unfold limbs_from_typed_value_node. cbn [node_tag UintPrecompile.value_node].
  rewrite op_decode_value. unfold payload_for_tag. rewrite decide_True by done.
  cbn [as_value as_data node_payload UintPrecompile.value_node]. rewrite decode_encode by done. by rewrite (proj2 (is_canonical_spec d l Hw)).
Qed.

Lemma decode_limb_list_total l : decode_limb_list l <> Panic.
Proof. induction l as [|x l IH]; cbn; [done|]. by destruct (_ <? _), (decode_limb_list l). Qed.

Lemma typed_value_total n : limbs_from_typed_value_node uint_id n <> Panic.
Proof.
  unfold limbs_from_typed_value_node, payload_for_tag. destruct (op_decode _) as [[d'| |]|]; try done.
  case_decide; [|done]. destruct (node_payload n) as [|[|c [|]]| |]; try done. cbn [as_value as_data].
  pose proof (decode_limb_list_total (chunk_felts c)). unfold decode_limbs.
  destruct (decode_limb_list _); [|done..]. by destruct (is_canonical _ _).
Qed.

(** The canonical value of a digest under the memo table. *)
Definition canonical_at (s : DeferredState) (d : Digest) (dom : UintDomain) (l : list Z) : Prop :=
  exists c, ds_evals s !! d = Some c /\ ds_nodes s !! c = Some (value_node dom l) /\ canonical dom l.

Lemma value_pair_shallow r children lhs rhs k :
  lhs ∈ children -> rhs ∈ children ->
  (forall d a b, canonical d a -> canonical d b -> shallow r children (k d a b)) ->
  shallow r children (evaluate_value_pair uint_id lhs rhs k).
Proof.
  intros Hl Hr Hk. constructor; [done|]. intros [e|l]; [constructor|].
  constructor; [done|]. intros [e|m]; [constructor|]. constructor. intros [n|]; [|constructor].
  constructor. intros [n'|]; [|constructor]. unfold and_then.
  destruct (limbs_from_typed_value_node uint_id n) as [[d a]| |] eqn:Hn; [|constructor|].
  - destruct (limbs_from_typed_value_node uint_id n') as [[d' b]| |] eqn:Hn'; [|constructor|].
    + apply typed_value_Ok in Hn as [_ Ha], Hn' as [_ Hb]. case_decide; [subst; by apply Hk|constructor].
    + by apply typed_value_total in Hn'.
  - by apply typed_value_total in Hn.
Qed.

Lemma value_pair_strict lhs rhs k :
  (forall d a b, strict (k d a b)) -> strict (evaluate_value_pair uint_id lhs rhs k).
Proof.
  intros Hk. constructor; [intros e; by exists e|]. intros l. constructor; [intros e; by exists e|].
  intros m. constructor; [by eexists|]. intros n. constructor; [by eexists|]. intros n'. unfold and_then.
  destruct (limbs_from_typed_value_node uint_id n) as [[d a]| |]; [|constructor..].
  destruct (limbs_from_typed_value_node uint_id n') as [[d' b]| |]; [|constructor..].
  case_decide; [apply Hk|constructor].
Qed.

(** A replayed pair evaluation has read the canonical values. *)
Lemma value_pair_replays s lhs rhs k n :
  replays s (evaluate_value_pair uint_id lhs rhs k) n ->
  exists d a b, canonical_at s lhs d a /\ canonical_at s rhs d b /\ replays s (k d a b) n.
Proof.
  intros Hr. inversion Hr as [| |? c ? ? Hc Hr1|]; subst. inversion Hr1 as [| |? c' ? ? Hc' Hr2|]; subst.
  inversion Hr2 as [|? m ? ? Hm Hr3| |]; subst. inversion Hr3 as [|? m' ? ? Hm' Hr4| |]; subst.
  unfold and_then in Hr4.
  destruct (limbs_from_typed_value_node uint_id m) as [[d a]| |] eqn:Ha; [|by inversion Hr4..].
  destruct (limbs_from_typed_value_node uint_id m') as [[d' b]| |] eqn:Hb; [|by inversion Hr4..].
  apply typed_value_Ok in Ha as [-> Ha], Hb as [-> Hb]. case_decide; [subst|by inversion Hr4].
  exists d', a, b. split; [by exists c|]. split; [by exists c'|done].
Qed.

(** ** The precompile as a whole *)

Lemma node_parse_total op p : node_parse op p <> Panic.
Proof.
  destruct op as [d|op|], p as [|[|c [|]]|c|]; try done. cbn [node_parse as_value as_data].
  pose proof (decode_limb_list_total (chunk_felts c)). unfold decode_limbs.
  destruct (decode_limb_list _); [|done..]. by destruct (is_canonical _ _).
Qed.

Lemma node_parse_join op p x : node_parse op p = Ok x ->
  match x with
  | NodeValue d l => op = OpValue d /\ p = PData [encode_limbs l] /\ canonical d l
  | NodeBinaryOp o l r => op = OpBinary o /\ p = payload_join l r
  | NodeEq l r => op = OpEq /\ p = payload_join l r
  end.
Proof.
  destruct op as [d|op|], p as [|[|c [|]]|[l r]|]; try done; cbn [node_parse as_value as_data as_join];
    [|by intros [= <-]..].
  destruct (decode_limbs c) as [l| |] eqn:Hd; [|done..]. destruct (is_canonical d l) eqn:Hc; [|done].
  intros [= <-]. destruct (encode_decode c l Hd) as [Hw <-]. split; [done|]. split; [done|].
  split; [done|]. by apply is_canonical_spec.
Qed.

Lemma uint_shallow r args p : shallow r (payload_children p) (uint_evaluate uint_id args p).
Proof.
  unfold uint_evaluate. destruct (op_decode args) as [op|]; [|constructor]. unfold and_then.
  destruct (node_parse op p) as [x|e|] eqn:Hp; [|constructor|by apply node_parse_total in Hp].
  apply node_parse_join in Hp. destruct x as [d l|o l r'|l r']; [constructor| |].
  - destruct Hp as [_ ->]. apply value_pair_shallow; [set_solver..|]. intros d a b Ha Hb.
    destruct (domain_ops_spec o d a b Ha Hb) as (c & -> & _). constructor.
  - destruct Hp as [_ ->]. apply value_pair_shallow; [set_solver..|]. intros d a b _ _.
    case_decide; constructor.
Qed.

Lemma uint_strict args p : strict (uint_evaluate uint_id args p).
Proof.
  unfold uint_evaluate. destruct (op_decode args) as [op|]; [|constructor]. unfold and_then.
  destruct (node_parse op p) as [[d l|o l r|l r]|e|]; [constructor| | |constructor|constructor].
  - apply value_pair_strict. intros d a b. destruct (binary_op o d a b); constructor.
  - apply value_pair_strict. intros d a b. case_decide; constructor.
Qed.

(** ** Initialization *)

Lemma half_Some d : exists h, half d = Some h.
Proof.
  unfold half, domain_inv. destruct (is_prime_field d && negb (is_wrapping d)) eqn:Hp; [|by eexists].
  apply andb_true_iff in Hp as [_ Hw]. apply negb_true_iff in Hw.
  pose proof (domain_barrett d Hw) as Hm. assert (2 < bpow 7) by done.
  assert (2 < value (encoded_modulus d)) by (destruct Hm; lia).
  destruct (inv_mod_prime_barrett_spec TWO_LIMBS _ _ Hm) as (h & -> & _); [|done| |by eexists].
  - by apply wf_decide.
  - change (value TWO_LIMBS) with 2. lia.
Qed.

Lemma value_nodes_in_order known d l : in_order known (value_node d <$> l).
Proof.
  revert known. induction l as [|x l IH]; intros known; [done|]. split; [constructor|apply IH].
Qed.

Lemma in_order_app known l l' :
  in_order known l -> (forall known', in_order known' l') -> in_order known (l ++ l').
Proof.
  revert known. induction l as [|n l IH]; intros known Hl Hl'; [apply Hl'|].
  destruct Hl as [Hn Hl]. split; [done|]. by apply IH.
Qed.

Lemma uint_init_in_order : exists l, uint_init uint_id = Some l /\ in_order [TRUE_DIGEST] l.
Proof.
  assert (forall d, exists l, domain_nodes uint_id d = Some (value_node d <$> l)) as Hd.
  { intros d. unfold domain_nodes, field_constants. destruct (is_prime_field d); [|by eexists].
    destruct (half_Some d) as [h ->]. by eexists. }
  destruct (Hd U256) as [l1 H1], (Hd K1Base) as [l2 H2], (Hd K1Scalar) as [l3 H3].
  exists ((value_node U256 <$> l1) ++ (value_node K1Base <$> l2) ++ (value_node K1Scalar <$> l3)).
  unfold uint_init, ALL_DOMAINS. cbn [mapM]. rewrite H1, H2, H3. cbn. rewrite app_nil_r. split; [done|].
  apply in_order_app; [apply value_nodes_in_order|]. intros k1.
  apply in_order_app; [apply value_nodes_in_order|]. intros k2. apply value_nodes_in_order.
Qed.

(** ** Equality statements *)

Definition op_id (op : UintBinaryOp) : Z :=
  match op with UAdd => ADD_OP_ID | USub => SUB_OP_ID | UMul => MUL_OP_ID end.

Definition binary_node (op : UintBinaryOp) (l r : Digest) : Node :=
  mkNode (op_tag uint_id (op_id op)) (payload_join l r).
Definition eq_node (l r : Digest) : Node := mkNode (op_tag uint_id EQ_OP_ID) (payload_join l r).

(** The integer an expression stands for: its leaves are VALUE nodes. *)
Inductive denotes (m : gmap Digest Node) : Digest -> UintDomain -> Z -> Prop :=
| denotes_value d dom l :
    m !! d = Some (value_node dom l) -> canonical dom l -> denotes m d dom (value l)
| denotes_binary d op l r dom a b :
    m !! d = Some (binary_node op l r) -> denotes m l dom a -> denotes m r dom b ->
    denotes m d dom (op_Z op a b mod modulus dom).

Definition uint_installed (s : DeferredState) : Prop :=
  ds_registry s !! uint_id = Some (UintPrecompile uint_id) /\ is_framework_reserved_id uint_id = false.

Lemma reserved_ids (n : Node) : is_framework_reserved_id (tag_id (node_tag n)) = false ->
  node_tag n <> Tag_TRUE /\ node_tag n <> Tag_AND /\ node_tag n <> Tag_CHUNKS.
Proof. intros Hr. repeat split; intros Ht; by rewrite Ht in Hr. Qed.

(** A memo of a uint node replays the precompile. *)
Lemma uint_memo s d n c :
  inv s -> uint_installed s -> ds_nodes s !! d = Some n -> tag_id (node_tag n) = uint_id ->
  ds_evals s !! d = Some c ->
  exists m, ds_nodes s !! c = Some m /\
    replays s (uint_evaluate uint_id (tag_args (node_tag n)) (node_payload n)) m.
Proof.
  intros Hi [Hreg Hid] Hn Ht Hc. destruct (inv_memo s Hi d c Hc) as (n' & m & Hn' & Hm & Hj).
  rewrite Hn in Hn'. injection Hn' as <-. exists m. split; [done|].
  destruct (reserved_ids n) as (H1 & H2 & H3); [by rewrite Ht|].
  unfold justified in Hj. rewrite !decide_False in Hj by done. destruct Hj as (p & Hp & Hr).
  rewrite Ht, Hreg in Hp. injection Hp as <-. apply Hr, uint_strict.
Qed.

Lemma binary_memo s d op l r c :
  inv s -> uint_installed s -> ds_nodes s !! d = Some (binary_node op l r) -> ds_evals s !! d = Some c ->
  exists dom a b x, canonical_at s l dom a /\ canonical_at s r dom b /\
    binary_op op dom a b = Some x /\ ds_nodes s !! c = Some (value_node dom x).
Proof.
  intros Hi Hu Hn Hc. destruct (uint_memo s d _ c Hi Hu Hn eq_refl Hc) as (m & Hm & Hr).
  assert (uint_evaluate uint_id (tag_args (op_tag uint_id (op_id op))) (payload_join l r) =
    evaluate_value_pair uint_id l r (fun dom a b =>
      match binary_op op dom a b with Some x => Return (value_node dom x) | None => Abort end)) as He
    by (by destruct op). cbn [binary_node node_tag node_payload] in Hr. rewrite He in Hr.
  apply value_pair_replays in Hr as (dom & a & b & Ha & Hb & Hr).
  destruct (binary_op op dom a b) as [x|] eqn:Hx; [|by inversion Hr]. inversion Hr; subst.
  by exists dom, a, b, x.
Qed.

Lemma eq_memo s d l r c :
  inv s -> uint_installed s -> ds_nodes s !! d = Some (eq_node l r) -> ds_evals s !! d = Some c ->
  exists dom a, canonical_at s l dom a /\ canonical_at s r dom a.
Proof.
  intros Hi Hu Hn Hc. destruct (uint_memo s d _ c Hi Hu Hn eq_refl Hc) as (m & Hm & Hr).
  assert (uint_evaluate uint_id (tag_args (op_tag uint_id EQ_OP_ID)) (payload_join l r) =
    evaluate_value_pair uint_id l r (fun _ a b =>
      if decide (a = b) then Return Node_TRUE else Raise AssertionFailed)) as He by done.
  cbn [eq_node node_tag node_payload] in Hr. rewrite He in Hr.
  apply value_pair_replays in Hr as (dom & a & b & Ha & Hb & Hr).
  case_decide; [subst; by exists dom, b|by inversion Hr].
Qed.

Lemma canonical_at_unique s d dom a dom' a' :
  canonical_at s d dom a -> canonical_at s d dom' a' -> dom = dom' /\ a = a'.
Proof.
  intros (c & Hc & Hn & Ha) (c' & Hc' & Hn' & Ha'). rewrite Hc in Hc'. injection Hc' as <-.
  rewrite Hn in Hn'. assert (value_node dom a = value_node dom' a') as Heq by congruence.
  pose proof (typed_value_node dom a Ha) as H1. pose proof (typed_value_node dom' a' Ha') as H2.
  rewrite Heq, H2 in H1. by injection H1.
Qed.

(** The memo of an expression is the value it denotes. *)
Lemma denotes_memo s d dom v :
  inv s -> uint_installed s -> denotes (ds_nodes s) d dom v -> is_Some (ds_evals s !! d) ->
  exists l, canonical_at s d dom l /\ value l = v.
Proof.
  intros Hi Hu Hd. induction Hd as [d dom l Hn Hl|d op l r dom a b Hn Hl IHl Hr IHr]; intros [c Hc].
  - exists l. split; [|done]. exists c. split; [done|]. split; [|done].
    destruct (uint_memo s d _ c Hi Hu Hn eq_refl Hc) as (m & Hm & Hrep). rewrite Hm. f_equal.
    assert (uint_evaluate uint_id (tag_args (value_tag uint_id dom)) (PData [encode_limbs l]) =
      Return (value_node dom l)) as He.
    { unfold uint_evaluate. rewrite op_decode_value. cbn [node_parse as_value as_data].
      destruct Hl as [Hw Hv]. rewrite decode_encode by done. by rewrite (proj2 (is_canonical_spec dom l Hw)). }
    cbn [UintPrecompile.value_node node_tag node_payload] in Hrep. rewrite He in Hrep. by inversion Hrep.
  - destruct (binary_memo s d op l r c Hi Hu Hn Hc) as (dom' & x & y & z & Hx & Hy & Hz & Hm).
    assert (is_Some (ds_evals s !! l) /\ is_Some (ds_evals s !! r)) as [Hls Hrs].
    { destruct Hx as (? & ? & _), Hy as (? & ? & _). eauto. }
    destruct (IHl Hls) as (x' & Hx' & <-), (IHr Hrs) as (y' & Hy' & <-).
    destruct (canonical_at_unique _ _ _ _ _ _ Hx Hx') as [-> ->].
    destruct (canonical_at_unique _ _ _ _ _ _ Hy Hy') as [_ ->].
    destruct Hx' as (? & _ & _ & Hcx), Hy' as (? & _ & _ & Hcy).
    destruct (domain_ops_spec op dom x' y' Hcx Hcy) as (z' & Hz' & Hcz & Hv). rewrite Hz in Hz'.
    injection Hz' as <-. exists z. split; [|done]. by exists c.
Qed.

(** C7: an equality statement that was logged, in any history of requests, is
    true: if its two sides are expressions over VALUE nodes with the operations
    ADD, SUB and MUL, they are over the same domain and denote the same
    integer. *)
Theorem logged_equality_sound s0 requests logged s d l r dom dom' a b :
  good s0 -> uint_installed s0 -> serve requests s0 = Some (logged, s) ->
  d ∈ logged -> ds_nodes s !! d = Some (eq_node l r) ->
  denotes (ds_nodes s) l dom a -> denotes (ds_nodes s) r dom' b ->
  dom = dom' /\ a = b.
Proof.
  intros Hg [Hreg Hid] Hs Hd Hn Ha Hb.
  destruct (serve_good requests s0 Hg) as (logged' & s' & Hs' & Hg' & Hx & _ & Hall).
  rewrite Hs in Hs'. injection Hs' as <- <-. rewrite Forall_forall in Hall. specialize (Hall d Hd).
  assert (uint_installed s) as Hu by (split; [by eapply lookup_weaken, Hx|done]).
  pose proof (good_inv s Hg') as Hi.
  destruct (eq_memo s d l r _ Hi Hu Hn Hall) as (dom0 & x & Hl & Hr).
  assert (is_Some (ds_evals s !! l) /\ is_Some (ds_evals s !! r)) as [Hls Hrs].
  { destruct Hl as (? & ? & _), Hr as (? & ? & _). eauto. }
  destruct (denotes_memo s l dom a Hi Hu Ha Hls) as (xa & Hxa & <-).
  destruct (denotes_memo s r dom' b Hi Hu Hb Hrs) as (xb & Hxb & <-).
  destruct (canonical_at_unique _ _ _ _ _ _ Hl Hxa) as [-> ->].
  destruct (canonical_at_unique _ _ _ _ _ _ Hr Hxb) as [-> ->]. done.
Qed.

(** ** True equalities can be logged *)

Lemma eq_node_shape s l r : uint_installed s -> well_shaped (ds_registry s) (eq_node l r).
Proof.
  intros [Hreg Hid]. exists TyJoin. unfold validate_node, decode_node_type.
  destruct (reserved_ids (eq_node l r) Hid) as (H1 & H2 & H3). rewrite !decide_False by done.
  unfold decode_precompile_tag, is_framework_reserved.
  change (tag_id (node_tag (eq_node l r))) with uint_id. by rewrite Hid, Hreg.
Qed.

Lemma eq_children_stored s l r dom a :
  inv s -> canonical_at s l dom a -> canonical_at s r dom a -> children_stored s (eq_node l r).
Proof.
  intros Hi (c & Hc & _) (c' & Hc' & _).
  destruct (inv_memo s Hi l c Hc) as (n & _ & Hn & _), (inv_memo s Hi r c' Hc') as (n' & _ & Hn' & _).
  change (Forall (fun c => is_Some (ds_nodes s !! c)) [l; r]). rewrite !Forall_cons. eauto.
Qed.

Lemma canonical_at_extends s s' d dom a : extends s s' -> canonical_at s d dom a -> canonical_at s' d dom a.
Proof.
  intros Hx (c & Hc & Hn & Ha). exists c.
  split; [by apply (ext_memo s)|]. split; [by apply (ext_node s)|done].
Qed.

(** The evaluation of an equality of memoized equal values. *)
Lemma eq_run s k l r dom a :
  inv s -> canonical_at s l dom a -> canonical_at s r dom a ->
  run (evaluate_digest (S k)) (uint_evaluate uint_id (tag_args (op_tag uint_id EQ_OP_ID)) (payload_join l r)) s =
    (Ok Node_TRUE, s).
Proof.
  intros Hi (c & Hc & Hn & Ha) (c' & Hc' & Hn' & Ha').
  change (uint_evaluate uint_id (tag_args (op_tag uint_id EQ_OP_ID)) (payload_join l r)) with
    (evaluate_value_pair uint_id l r (fun _ a b =>
      if decide (a = b) then Return Node_TRUE else Raise AssertionFailed)).
  assert (forall x cx, ds_evals s !! x = Some cx -> try (evaluate_digest (S k) x) s = (Ok (inr cx), s)) as Htry.
  { intros x cx Hx. unfold try. by rewrite (evaluate_memo k s x cx Hi Hx). }
  unfold evaluate_value_pair, evaluate_digest_pair. cbn [run].
  rewrite (bind_Ok _ _ _ _ _ (Htry l c Hc)). cbn [run].
  rewrite (bind_Ok _ _ _ _ _ (Htry r c' Hc')).
  unfold get_node_or. cbn [run]. unfold state_get_node. rewrite bind_gets, Hn. cbn [run].
  unfold state_get_node. rewrite bind_gets, Hn'. rewrite !typed_value_node by done. cbn [and_then].
  rewrite !decide_True by done. done.
Qed.

Lemma eq_canonical s k l r dom a :
  inv s -> uint_installed s -> canonical_at s l dom a -> canonical_at s r dom a ->
  canonical_of (evaluate_digest (S k)) (eq_node l r) s = (Ok Node_TRUE, s).
Proof.
  intros Hi [Hreg Hid] Hl Hr. unfold canonical_of.
  destruct (reserved_ids (eq_node l r) Hid) as (H1 & H2 & H3). rewrite !decide_False by done.
  unfold registry_evaluate, is_framework_reserved.
  change (tag_id (node_tag (eq_node l r))) with uint_id. rewrite Hid, bind_gets, Hreg.
  pose proof (eq_run s k l r dom a Hi Hl Hr) as Hrun. unfold bind, try.
  change (pc_evaluate (UintPrecompile uint_id)) with (uint_evaluate uint_id).
  cbn [eq_node node_tag node_payload]. by rewrite Hrun.
Qed.

(** Registering a new equality of memoized equal values, within the budget. *)
Lemma eq_register s l r dom a :
  let d := node_digest (eq_node l r) in
  inv s -> uint_installed s -> canonical_at s l dom a -> canonical_at s r dom a ->
  ds_nodes s !! d = None -> 12 <= ds_remaining_elements s ->
  register MAX_EVALUATION_DEPTH (eq_node l r) s =
    (Ok d, set_evals (<[d := TRUE_DIGEST]> (ds_evals s)) (inserted (eq_node l r) s)).
Proof.
  intros d Hi Hu Hl Hr Hn Hb. pose proof (eq_node_shape s l r Hu) as Hw.
  destruct (validate_stored s (eq_node l r) Hi Hw) as [ty Hv]; [by eapply eq_children_stored|].
  assert (inv (inserted (eq_node l r) s)) as Hi1 by (by apply inserted_inv).
  pose proof (inserted_extends (eq_node l r) s Hn) as Hx.
  set (s1 := inserted (eq_node l r) s) in *.
  assert (canonical_at s1 l dom a) as Hl1 by (by eapply canonical_at_extends).
  assert (canonical_at s1 r dom a) as Hr1 by (by eapply canonical_at_extends).
  assert (ds_nodes s1 !! d = Some (eq_node l r)) as Hd1 by apply lookup_insert_eq.
  assert (ds_evals s1 !! d = None) as Hm1 by (by apply (no_node_no_memo s)).
  destruct (validate_stored s1 (eq_node l r) Hi1 Hw) as [ty' Hv']; [by eapply eq_children_stored|].
  destruct max_depth_SS as [k ->]. unfold register, register_with.
  rewrite (bind_Ok _ _ _ _ _ Hv), (bind_Ok _ _ _ _ _ (insert_new s (eq_node l r) Hn Hb)). fold s1.
  erewrite bind_Ok; [done|]. cbn [evaluate_digest]. rewrite bind_gets. cbn [id]. fold d. rewrite Hd1.
  cbn [ok_or]. rewrite bind_ret_l, Hm1, (bind_Ok _ _ _ _ _ Hv').
  rewrite (bind_Ok _ _ _ _ _ (eq_canonical s1 k l r dom a Hi1 Hu Hl1 Hr1)).
  rewrite (bind_Ok _ _ _ _ _ (record_true s1 d _ Hi1 Hd1 Hm1)), bind_gets. cbn [id ds_evals set_evals].
  by rewrite lookup_insert_eq.
Qed.

(** C38: a true equality can be registered and logged: if both sides are memoized
    with the same value, the state has room for two nodes and their digests are
    new, then registering the EQ node and logging its digest succeed, and the
    root becomes the fold with it. *)
Theorem true_equality_logged s l r dom a :
  let d := node_digest (eq_node l r) in
  good s -> uint_installed s -> canonical_at s l dom a -> canonical_at s r dom a ->
  ds_nodes s !! d = None -> ds_nodes s !! fold_deferred_root (ds_root s) d = None ->
  fold_deferred_root (ds_root s) d <> d -> 24 <= ds_remaining_elements s ->
  exists s', serve [ReqRegister (eq_node l r); ReqLog d] s = Some ([d], s') /\
    ds_root s' = fold_deferred_root (ds_root s) d.
Proof.
  intros d Hg Hu Hl Hr Hd Hf Hne Hb. pose proof Hg as [Hi _ Hst Hroot].
  pose proof (eq_register s l r dom a Hi Hu Hl Hr Hd ltac:(lia)) as Hreg.
  fold d in Hreg. set (s1 := set_evals _ _) in Hreg.
  destruct (good_step s _ _ _ _ Hg (fun rho Hrho => register_deep s rho (eq_node l r) Hi Hrho Hst)
    (register_ok _ s (eq_node l r) Hi) Hreg) as (_ & Hg1 & Hx1 & Hr1).
  destruct (log_statement_complete s1 d) as [s2 Hlog].
  - apply Hg1.
  - apply Hg1.
  - apply lookup_insert_eq.
  - rewrite Hr1. cbn. by rewrite lookup_insert_ne by done.
  - change (12 <= ds_remaining_elements s - 12). lia.
  - destruct (log_statement_good s1 d _ _ Hg1 Hlog) as (_ & _ & _ & _ & Hroot2 & _).
    assert (perform (ReqRegister (eq_node l r)) s = (Ok [], s1)) as H1
      by (cbn [perform]; by rewrite (bind_Ok _ _ _ _ _ Hreg)).
    assert (perform (ReqLog d) s1 = (Ok [d], s2)) as H2
      by (cbn [perform]; by rewrite (bind_Ok _ _ _ _ _ Hlog)).
    exists s2. cbn [serve]. rewrite H1, H2. split; [done|]. by rewrite Hroot2, Hr1.
Qed.

End Equality.
