(* ===== verification/MerkleTheory.v ===== *)
(** * Correctness of Merkle paths and of the Merkle store

    Openings read from a well-formed store verify against the root they were
    asked for; openings bind the value they open to; adding a path makes it
    readable and leaves every other tree of the store readable. *)

From S2P Require Import Prelude Felt Quad AceCircuit Machine Merkle.


Section Theory.
Context `{Poseidon2}.

(** ** Indices *)

Lemma bit_len_spec p d : 0 <= p -> 0 <= d -> bit_len p <= d <-> p < 2 ^ d.
Proof.
  intros Hp Hd. unfold bit_len. destruct (Z.eqb_spec p 0) as [->|Hne].
  - pose proof (Z.pow_pos_nonneg 2 d). lia.
  - rewrite Z.log2_lt_pow2 by lia. lia.
Qed.

(** The indices [NodeIndex::new] builds. *)
Definition index_wf (i : NodeIndex) : Prop :=
  0 <= ni_depth i <= 64 /\ 0 <= ni_position i < 2 ^ ni_depth i.

Lemma node_index_new_spec d p : 0 <= d -> 0 <= p ->
  node_index_new d p =
    if decide (64 < d) then Err (DepthTooBig d)
    else if decide (p < 2 ^ d) then Ok (mkNodeIndex d p) else Err (InvalidNodeIndex d p).
Proof.
  intros Hd Hp. unfold node_index_new. destruct (Z.ltb_spec 64 d).
  - by rewrite decide_True.
  - rewrite decide_False by lia. pose proof (bit_len_spec p d Hp Hd).
    destruct (Z.ltb_spec d (bit_len p)).
    + rewrite decide_False by lia. done.
    + rewrite decide_True by lia. done.
Qed.

Lemma node_index_new_wf d p i : 0 <= d -> 0 <= p -> node_index_new d p = Ok i ->
  i = mkNodeIndex d p /\ index_wf i.
Proof.
  intros Hd Hp. rewrite node_index_new_spec by done.
  destruct (decide _); [done|]. destruct (decide _); [|done]. intros [= <-].
  unfold index_wf. simpl. split; [done|lia].
Qed.

Lemma land_1_odd x : (Z.land x 1 =? 1) = Z.odd x.
Proof.
  change 1 with (Z.ones 1) at 1. rewrite Z.land_ones, Z.pow_1_r by lia.
  rewrite Zmod_odd. by destruct (Z.odd x).
Qed.

(** ** Roots of paths, by recursion on the path *)

Definition children (odd : bool) (node sibling : Word) : Word * Word :=
  if odd then (sibling, node) else (node, sibling).

Definition parent (odd : bool) (node sibling : Word) : Word :=
  let '(l, r) := children odd node sibling in merge l r.

Fixpoint path_root (position : Z) (node : Word) (nodes : MerklePath) : Word :=
  match nodes with
  | [] => node
  | x :: rest => path_root (Z.shiftr position 1) (parent (Z.odd position) node x) rest
  end.

Fixpoint path_infos (position : Z) (node : Word) (nodes : MerklePath) : list InnerNodeInfo :=
  match nodes with
  | [] => []
  | x :: rest =>
      let p := parent (Z.odd position) node x in
      let '(l, r) := children (Z.odd position) node x in
      mkInnerNodeInfo p l r :: path_infos (Z.shiftr position 1) p rest
  end.

Lemma build_node_children i node sibling :
  build_node i node sibling = children (Z.odd (ni_position i)) node sibling.
Proof. unfold build_node, is_position_odd. by rewrite land_1_odd. Qed.

Lemma foldl_root_step nodes i node :
  snd (foldl root_step (i, node) nodes) = path_root (ni_position i) node nodes.
Proof.
  revert i node. induction nodes as [|x nodes IH]; intros i node; [done|].
  cbn [foldl]. unfold root_step at 2. cbn [fst snd]. rewrite build_node_children.
  cbn [path_root]. unfold parent. destruct (children _ _ _) as [l r].
  by rewrite IH.
Qed.

Lemma compute_root_spec nodes index node : 0 <= index ->
  compute_root nodes index node =
    if decide (Z.of_nat (length nodes) > 255) then Panic
    else if decide (Z.of_nat (length nodes) > 64) then Err (DepthTooBig (Z.of_nat (length nodes)))
    else if decide (index < 2 ^ Z.of_nat (length nodes)) then Ok (path_root index node nodes)
    else Err (InvalidNodeIndex (Z.of_nat (length nodes)) index).
Proof.
  intros Hi. unfold compute_root, path_depth. destruct (Z.leb_spec (Z.of_nat (length nodes)) 255).
  - rewrite (decide_False (P := _ > 255)) by lia. rewrite node_index_new_spec by lia.
    destruct (decide (64 < _)).
    + by rewrite decide_True by lia.
    + rewrite (decide_False (P := _ > 64)) by lia. destruct (decide _); [|done].
      by rewrite foldl_root_step.
  - by rewrite decide_True by lia.
Qed.

Lemma compute_root_Ok nodes index node root : 0 <= index ->
  compute_root nodes index node = Ok root <->
  (Z.of_nat (length nodes) <= 64 /\ index < 2 ^ Z.of_nat (length nodes) /\
   root = path_root index node nodes).
Proof.
  intros Hi. rewrite compute_root_spec by done.
  repeat case_decide; split; try (intros [= <-]); try (intros (?&?&->)); try lia; auto with lia.
Qed.

Lemma path_root_app p v l1 l2 :
  path_root p v (l1 ++ l2) = path_root (Z.shiftr p (Z.of_nat (length l1))) (path_root p v l1) l2.
Proof.
  revert p v. induction l1 as [|x l1 IH]; intros p v; [done|].
  cbn [app path_root length]. rewrite IH, Z.shiftr_shiftr by lia. do 2 f_equal. lia.
Qed.

Lemma path_root_snoc p v l x :
  path_root p v (l ++ [x]) = parent (Z.testbit p (Z.of_nat (length l))) (path_root p v l) x.
Proof.
  rewrite path_root_app. cbn [path_root]. f_equal.
  by rewrite <- Z.bit0_odd, Z.shiftr_spec, Z.add_0_l.
Qed.

Lemma path_infos_snoc p v l x :
  path_infos p v (l ++ [x]) = path_infos p v l ++
    [mkInnerNodeInfo (path_root p v (l ++ [x]))
       (fst (children (Z.testbit p (Z.of_nat (length l))) (path_root p v l) x))
       (snd (children (Z.testbit p (Z.of_nat (length l))) (path_root p v l) x))].
Proof.
  revert p v. induction l as [|y l IH]; intros p v.
  - cbn [app path_infos path_root length]. rewrite <- Z.bit0_odd.
    unfold children. by destruct (Z.testbit p _).
  - cbn [app path_infos path_root length]. destruct (children _ v y) as [a b].
    rewrite IH, Z.shiftr_spec, Nat2Z.inj_succ, Z.add_1_r by lia. done.
Qed.

Lemma path_infos_length p v l : length (path_infos p v l) = length l.
Proof.
  revert p v. induction l as [|x l IH]; intros p v; [done|]. cbn [path_infos].
  destruct (children _ v x). cbn [length]. by rewrite IH.
Qed.

(** The iterator of [authenticated_nodes] yields exactly these nodes. *)
Lemma inner_nodes_spec pre suf p v :
  inner_nodes (pre ++ suf) (length suf) p v = Some (path_infos p v suf).
Proof.
  revert pre p v. induction suf as [|x suf IH]; intros pre p v; [done|].
  cbn [length inner_nodes]. rewrite checked_sub_Some by (rewrite length_app; cbn [length]; lia).
  cbn [mbind option_bind]. rewrite length_app. cbn [length].
  replace (length pre + S (length suf) - S (length suf))%nat with (length pre) by lia.
  rewrite lookup_app_r, Nat.sub_diag by lia. cbn [lookup list_lookup mbind option_bind].
  rewrite build_node_children. cbn [ni_position path_infos]. unfold parent.
  destruct (children _ _ _) as [l r].
  specialize (IH (pre ++ [x]) (Z.shiftr p 1) (merge l r)).
  rewrite <- app_assoc in IH. cbn [app] in IH. by rewrite IH.
Qed.

Lemma authenticated_nodes_spec nodes index node : 0 <= index ->
  Z.of_nat (length nodes) <= 64 -> index < 2 ^ Z.of_nat (length nodes) ->
  authenticated_nodes nodes index node = Ok (path_infos index node nodes).
Proof.
  intros Hi Hl Hb. unfold authenticated_nodes, path_depth.
  destruct (Z.leb_spec (Z.of_nat (length nodes)) 255); [|lia].
  rewrite node_index_new_spec, decide_False, decide_True by lia.
  cbn [ni_depth ni_position]. rewrite Nat2Z.id.
  by rewrite (inner_nodes_spec [] nodes).
Qed.

Lemma last_value p v l d : l <> [] ->
  foldl (fun _ n => in_value n) d (path_infos p v l) = path_root p v l.
Proof.
  intros Hl. destruct (exists_last Hl) as (l' & x & ->).
  by rewrite path_infos_snoc, foldl_app.
Qed.

(** ** Well-formed stores *)

(** Every key is the hash of its children. *)
Definition store_wf (s : MerkleStore) : Prop :=
  forall k n, s !! k = Some n -> merge (sn_left n) (sn_right n) = k.

Definition info_wf (n : InnerNodeInfo) : Prop := merge (in_left n) (in_right n) = in_value n.

Lemma insert_node_wf s n : store_wf s -> info_wf n -> store_wf (insert_node s n).
Proof.
  intros Hs Hn k m. unfold insert_node. destruct (decide (in_value n = k)) as [<-|Hk].
  - rewrite lookup_insert_eq. by intros [= <-].
  - rewrite lookup_insert_ne by done. apply Hs.
Qed.

Lemma store_extend_wf s nodes : store_wf s -> Forall info_wf nodes -> store_wf (store_extend s nodes).
Proof.
  intros Hs Hn. revert s Hs. induction Hn as [|n nodes Hn _ IH]; intros s Hs; [done|].
  apply IH. by apply insert_node_wf.
Qed.

Lemma path_infos_wf p v l : Forall info_wf (path_infos p v l).
Proof.
  revert p v. induction l as [|x l IH]; intros p v; [constructor|]. cbn [path_infos].
  unfold parent. destruct (children _ v x) as [a b]. constructor; [done|apply IH].
Qed.

(** A node of the store. *)
Definition in_store (s : MerkleStore) (n : InnerNodeInfo) : Prop :=
  s !! in_value n = Some (mkStoreNode (in_left n) (in_right n)).

(** One of the nodes collides with another of them or with one of the store. *)
Definition store_collision (s : MerkleStore) (nodes : list InnerNodeInfo) : Prop :=
  exists n m, n ∈ nodes /\ (m ∈ nodes \/ in_store s m) /\ colliding n m.

Lemma store_collision_cons s n nodes :
  store_collision (insert_node s n) nodes -> store_collision s (n :: nodes).
Proof.
  intros (m & k & Hm & Hk & Hc). exists m, k. split; [by right|]. split; [|done].
  destruct Hk as [Hk|Hk]; [left; by right|]. unfold in_store, insert_node in Hk.
  destruct (decide (in_value n = in_value k)) as [He|Hne].
  - rewrite He, lookup_insert_eq in Hk. injection Hk as Hl Hr. left.
    destruct n, k; cbn in *. subst. by left.
  - rewrite lookup_insert_ne in Hk by done. by right.
Qed.

(** A well-formed store has one node per key, or two colliding ones. *)
Lemma insert_node_mono s n nodes : store_wf s -> info_wf n ->
  s ⊆ insert_node s n \/ store_collision s (n :: nodes).
Proof.
  intros Hs Hn. unfold insert_node. destruct (s !! in_value n) as [[l r]|] eqn:Hm.
  - destruct (decide ((l, r) = (in_left n, in_right n))) as [[= -> ->]|Hne].
    + left. by rewrite insert_id.
    + right. exists n, (mkInnerNodeInfo (in_value n) l r). split; [by left|].
      split; [by right|]. split; [by apply not_eq_sym|]. apply Hs in Hm. cbn in *. by rewrite Hm.
  - left. by apply insert_subseteq.
Qed.

Lemma store_extend_mono s nodes : store_wf s -> Forall info_wf nodes ->
  s ⊆ store_extend s nodes \/ store_collision s nodes.
Proof.
  intros Hs Hn. revert s Hs. induction Hn as [|n nodes Hn _ IH]; intros s Hs; [by left|].
  destruct (insert_node_mono s n nodes) as [Hsub|]; [done|done| |by right].
  destruct (IH (insert_node s n)) as [Hsub'|];
    [by apply insert_node_wf| |right; by apply store_collision_cons].
  left. cbn [store_extend foldl]. by etrans.
Qed.

Lemma store_extend_lookup s nodes : store_wf s -> Forall info_wf nodes ->
  (forall n, n ∈ nodes ->
     store_extend s nodes !! in_value n = Some (mkStoreNode (in_left n) (in_right n))) \/
  store_collision s nodes.
Proof.
  intros Hs Hn. revert s Hs. induction Hn as [|n nodes Hn Hns IH]; intros s Hs.
  { left. intros n Hn. by apply not_elem_of_nil in Hn. }
  cbn [store_extend foldl].
  destruct (IH (insert_node s n)) as [Hl|];
    [by apply insert_node_wf| |right; by apply store_collision_cons].
  destruct (store_extend_mono (insert_node s n) nodes) as [Hsub|];
    [by apply insert_node_wf|done| |right; by apply store_collision_cons].
  left. intros m [->|Hm]%elem_of_cons; [|by apply Hl].
  eapply lookup_weaken, Hsub. unfold insert_node. by rewrite lookup_insert_eq.
Qed.

(** ** Walks *)

Lemma nth_bit i n : is_nth_bit_odd i n = Z.testbit (ni_position i) (Z.of_nat n).
Proof.
  unfold is_nth_bit_odd.
  by rewrite land_1_odd, <- Z.bit0_odd, Z.shiftr_spec, Z.add_0_l.
Qed.

Lemma walk_sound s index d hash acc h path : store_wf s ->
  walk s index d hash acc = Ok (h, path) ->
  exists q, path = acc ++ q /\ length q = d /\ path_root (ni_position index) h (reverse q) = hash.
Proof.
  intros Hs. revert hash acc. induction d as [|i IH]; intros hash acc.
  { intros [= -> ->]. exists []. by rewrite app_nil_r. }
  cbn [walk]. destruct (s !! hash) as [node|] eqn:Hn; [|done]. apply Hs in Hn.
  rewrite nth_bit. destruct (Z.testbit _ _) eqn:Hb; intros (q & -> & Hq & Hr)%IH.
  - exists (sn_left node :: q). rewrite <- app_assoc. split_and!; [done|simpl; lia|].
    rewrite reverse_cons, path_root_snoc, length_reverse, Hq, Hb, Hr. done.
  - exists (sn_right node :: q). rewrite <- app_assoc. split_and!; [done|simpl; lia|].
    rewrite reverse_cons, path_root_snoc, length_reverse, Hq, Hb, Hr. done.
Qed.

Lemma walk_complete s index v path acc :
  (forall n, n ∈ path_infos (ni_position index) v path ->
     s !! in_value n = Some (mkStoreNode (in_left n) (in_right n))) ->
  walk s index (length path) (path_root (ni_position index) v path) acc
    = Ok (v, acc ++ reverse path).
Proof.
  revert acc. induction path as [|x path IH] using rev_ind; intros acc Hin.
  { cbn. by rewrite app_nil_r. }
  rewrite path_infos_snoc in Hin. rewrite length_app, Nat.add_1_r. cbn [walk].
  match type of Hin with forall n, n ∈ _ ++ [?m] -> _ =>
    assert (Hl : s !! in_value m = Some (mkStoreNode (in_left m) (in_right m)))
      by (apply Hin; set_solver)
  end.
  cbn [in_value in_left in_right] in Hl. rewrite Hl, nth_bit. cbn [sn_left sn_right].
  rewrite reverse_app, reverse_singleton.
  unfold children. destruct (Z.testbit _ _) eqn:Hb; cbn [fst snd];
    rewrite IH, <- app_assoc by (intros n Hn; apply Hin; set_solver); done.
Qed.

Lemma walk_mono s s' index d hash acc r :
  s ⊆ s' -> walk s index d hash acc = Ok r -> walk s' index d hash acc = Ok r.
Proof.
  intros Hsub. revert hash acc. induction d as [|i IH]; intros hash acc; [done|]. cbn [walk].
  destruct (s !! hash) as [n|] eqn:Hn; [|done]. rewrite (lookup_weaken _ _ _ _ Hn Hsub).
  destruct (is_nth_bit_odd index i); apply IH.
Qed.

Lemma walk_length s index d hash acc h path :
  walk s index d hash acc = Ok (h, path) -> length path = (length acc + d)%nat.
Proof.
  revert hash acc. induction d as [|i IH]; intros hash acc; cbn [walk].
  { intros [= -> ->]. lia. }
  destruct (s !! hash); [|done].
  destruct (is_nth_bit_odd index i); intros ->%IH; rewrite length_app; simpl; lia.
Qed.

(** ** The store's operations *)

Lemma get_path_spec s root index : index_wf index ->
  get_path s root index =
    match s !! root with
    | None => Err (RootNotInStore root)
    | Some _ =>
        match walk s index (Z.to_nat (ni_depth index)) root [] with
        | Ok (hash, path) => Ok (mkMerkleProof hash (reverse path))
        | Err e => Err e
        | Panic => Panic
        end
    end.
Proof.
  intros [Hd _]. unfold get_path. destruct (s !! root); [|done].
  destruct (walk _ _ _ _ _) as [[h q]| |] eqn:Hw; [|done..].
  apply walk_length in Hw. unfold path_depth. cbn [length] in Hw.
  by destruct (Z.leb_spec (Z.of_nat (length q)) 255); [|lia].
Qed.

Lemma walk_no_panic s index d hash acc : walk s index d hash acc <> Panic.
Proof.
  revert hash acc. induction d as [|i IH]; intros hash acc; cbn [walk]; [done|].
  destruct (s !! hash); [|done]. destruct (is_nth_bit_odd index i); apply IH.
Qed.

Lemma get_path_root s root index proof : store_wf s -> index_wf index ->
  get_path s root index = Ok proof ->
  length (mp_path proof) = Z.to_nat (ni_depth index) /\
  path_root (ni_position index) (mp_value proof) (mp_path proof) = root.
Proof.
  intros Hs Hi. rewrite get_path_spec by done. destruct (s !! root); [|done].
  destruct (walk _ _ _ _ _) as [[h q]| |] eqn:Hw; [|done..]. intros [= <-].
  apply walk_sound in Hw as (q' & -> & Hlen & Hr); [|done]. cbn [mp_path mp_value app].
  by rewrite length_reverse.
Qed.

Lemma get_path_mono s s' root index proof : index_wf index -> s ⊆ s' ->
  get_path s root index = Ok proof -> get_path s' root index = Ok proof.
Proof.
  intros Hi Hsub. rewrite !get_path_spec by done.
  destruct (s !! root) as [n|] eqn:Hn; [|done]. rewrite (lookup_weaken _ _ _ _ Hn Hsub).
  destruct (walk s _ _ _ _) as [[h q]| |] eqn:Hw; [|done..].
  by rewrite (walk_mono _ s' _ _ _ _ _ Hsub Hw).
Qed.

Lemma get_path_complete s v path index : index_wf index ->
  length path = Z.to_nat (ni_depth index) -> path <> [] ->
  (forall n, n ∈ path_infos (ni_position index) v path ->
     s !! in_value n = Some (mkStoreNode (in_left n) (in_right n))) ->
  get_path s (path_root (ni_position index) v path) index = Ok (mkMerkleProof v path).
Proof.
  intros Hi Hlen Hne Hin. rewrite get_path_spec by done.
  pose proof (walk_complete s index v path [] Hin) as Hw. rewrite <- Hlen.
  destruct (exists_last Hne) as (l & x & ->).
  rewrite path_infos_snoc in Hin.
  match type of Hin with forall n, n ∈ _ ++ [?m] -> _ =>
    assert (Hl : s !! in_value m = Some (mkStoreNode (in_left m) (in_right m)))
      by (apply Hin; set_solver)
  end. cbn [in_value] in Hl.
  rewrite Hl, Hw. cbn [app]. by rewrite reverse_involutive.
Qed.

Lemma add_merkle_path_spec s index node path : 0 <= index ->
  Z.of_nat (length path) <= 64 -> index < 2 ^ Z.of_nat (length path) -> path <> [] ->
  add_merkle_path s index node path =
    (Ok (path_root index node path), store_extend s (path_infos index node path)).
Proof.
  intros Hi Hl Hb Hne. unfold add_merkle_path.
  rewrite authenticated_nodes_spec by done. by rewrite last_value.
Qed.

(** An opening read from a well-formed store verifies: the path returned by
    [get_path] for an index, hashed upwards from the returned value by
    [compute_root], gives back the root that was asked for, and its length is
    the depth of the index. *)
Lemma get_path_verifies s root index proof :
  store_wf s -> index_wf index -> get_path s root index = Ok proof ->
  verify (mp_path proof) (ni_position index) (mp_value proof) root = Ok tt /\
  Z.of_nat (length (mp_path proof)) = ni_depth index.
Proof.
  intros Hs Hi Hp. destruct (get_path_root _ _ _ _ Hs Hi Hp) as [Hlen Hr].
  destruct Hi as [Hd Hpos].
  assert (Hl : Z.of_nat (length (mp_path proof)) = ni_depth index) by lia.
  split; [|done]. unfold verify.
  assert (Hc : compute_root (mp_path proof) (ni_position index) (mp_value proof) = Ok root)
    by (apply compute_root_Ok; rewrite ?Hl; auto with lia).
  rewrite Hc. by rewrite decide_True.
Qed.

(** ** Binding *)

(** The nodes two openings hash at the same height collide. *)
Definition path_collision (p : Z) (v : Word) (l : MerklePath) (v' : Word) (l' : MerklePath) : Prop :=
  exists i n n', path_infos p v l !! i = Some n /\ path_infos p v' l' !! i = Some n' /\ colliding n n'.

Lemma path_root_inj p v v' l l' : length l = length l' ->
  path_root p v l = path_root p v' l' -> (v = v' /\ l = l') \/ path_collision p v l v' l'.
Proof.
  revert p v v' l'. induction l as [|x l IH]; intros p v v' [|x' l'] Hlen Heq; try done.
  { by left. }
  cbn [path_root] in Heq. injection Hlen as Hlen. apply IH in Heq as [[Heq ->]|Hc]; [| |done].
  - destruct (decide (v = v' /\ x = x')) as [[-> ->]|Hne]; [by left|right].
    exists 0%nat. cbn [path_infos]. unfold parent, children in *.
    destruct (Z.odd p); (eexists _, _; split; [done|]; split; [done|]);
      (split; [cbn; naive_solver|done]).
  - right. destruct Hc as (i & n & n' & Hn & Hn' & Hc). exists (S i), n, n'. cbn [path_infos].
    unfold parent in *. by destruct (children _ v x), (children _ v' x').
Qed.

(** C40: a root binds its leaves: two openings of the same depth that both verify
    at the same index against the same root open to the same value by the
    same path, or the nodes they hash at some height are a collision of the
    hash function. *)
Theorem verify_binding nodes nodes' index node node' root :
  0 <= index -> length nodes = length nodes' ->
  verify nodes index node root = Ok tt -> verify nodes' index node' root = Ok tt ->
  (node = node' /\ nodes = nodes') \/ path_collision index node nodes node' nodes'.
Proof.
  unfold verify. intros Hi Hlen Hv Hv'.
  destruct (compute_root nodes _ _) as [r| |] eqn:Hr; [|done..].
  destruct (compute_root nodes' _ _) as [r'| |] eqn:Hr'; [|done..].
  apply compute_root_Ok in Hr as (_ & _ & ->); [|done].
  apply compute_root_Ok in Hr' as (_ & _ & ->); [|done].
  destruct (decide _) as [<-|]; [|done]. destruct (decide _) as [Heq|]; [|done].
  by eapply path_root_inj.
Qed.

(** Adding a path to a well-formed store returns the root that
    [compute_root] gives for it and keeps the store well formed; afterwards
    that root opens at the index to exactly the node and path added, and every
    opening the store already had is unchanged (unless one of the nodes added
    collides with another one or with a node of the store). *)
Lemma add_merkle_path_correct s index node path :
  store_wf s -> index_wf index -> Z.of_nat (length path) = ni_depth index -> path <> [] ->
  exists root s',
    add_merkle_path s (ni_position index) node path = (Ok root, s') /\
    compute_root path (ni_position index) node = Ok root /\ store_wf s' /\
    ((get_path s' root index = Ok (mkMerkleProof node path) /\
      forall root0 index0 proof, index_wf index0 ->
        get_path s root0 index0 = Ok proof -> get_path s' root0 index0 = Ok proof)
     \/ store_collision s (path_infos (ni_position index) node path)).
Proof.
  intros Hs Hi Hlen Hne. pose proof Hi as [Hd Hpos].
  exists (path_root (ni_position index) node path),
    (store_extend s (path_infos (ni_position index) node path)).
  pose proof (path_infos_wf (ni_position index) node path) as Hwf.
  split; [apply add_merkle_path_spec; rewrite ?Hlen; done || lia|].
  split; [apply compute_root_Ok; rewrite ?Hlen; auto with lia|].
  split; [by apply store_extend_wf|].
  destruct (store_extend_lookup s _ Hs Hwf) as [Hl|]; [|by right].
  destruct (store_extend_mono s _ Hs Hwf) as [Hm|]; [|by right].
  left. split; [apply get_path_complete; [done|lia|done..]|].
  intros root0 index0 proof Hi0. by apply get_path_mono.
Qed.

Lemma descend_walk s index d hash acc :
  descend s index d hash =
    match walk s index d hash acc with Ok (h, _) => Ok h | Err e => Err e | Panic => Panic end.
Proof.
  revert hash acc. induction d as [|i IH]; intros hash acc; cbn [descend walk]; [done|].
  destruct (s !! hash); [|done]. destruct (is_nth_bit_odd index i); apply IH.
Qed.

Lemma has_path_walk s index d hash acc :
  has_path_from s index d hash =
    match walk s index d hash acc with Ok _ => true | _ => false end.
Proof.
  revert hash acc. induction d as [|i IH]; intros hash acc; cbn [has_path_from walk]; [done|].
  destruct (s !! hash); [|done]. destruct (is_nth_bit_odd index i); apply IH.
Qed.

(** The three traversals of the store agree: [get_node] returns the value
    [get_path] returns, with the same error when there is none, and
    [has_path] tells whether [get_path] succeeds. *)
Lemma store_lookups_agree s root index : index_wf index ->
  get_node s root index =
    match get_path s root index with Ok p => Ok (mp_value p) | Err e => Err e | Panic => Panic end /\
  has_path s root index = match get_path s root index with Ok _ => true | _ => false end.
Proof.
  intros Hi. rewrite get_path_spec by done. unfold get_node, has_path.
  destruct (s !! root); [|done]. rewrite (descend_walk _ _ _ _ []), (has_path_walk _ _ _ _ []).
  by destruct (walk _ _ _ _ _) as [[h q]| |].
Qed.

(** Replacing the root node itself (depth 0) succeeds and reports the zero
    word as the new root, leaving the store as it was: the empty path has no
    inner node whose value could be returned. *)
Lemma set_node_at_root s root value :
  s !! root <> None -> value <> root ->
  set_node s root node_index_root value = (Ok (EMPTY_WORD, []), s).
Proof.
  intros Hin Hne. unfold set_node, get_path.
  destruct (s !! root); [|done]. change (Z.to_nat (ni_depth node_index_root)) with 0%nat.
  cbn [walk mp_value]. change (path_depth []) with (Some 0). cbv iota. cbn [mp_value].
  by rewrite decide_False.
Qed.

End Theory.
