(* ===== verification/SparsePath.v ===== *)
(** * Empty subtrees and sparse Merkle paths

    crates/crypto/src/merkle: the table of the roots of empty subtrees
    (empty_roots.rs), the navigation of node indices (index.rs), and Merkle paths
    that store their empty nodes as bits of a mask (sparse_path.rs).

    [None] is a panic: a failing assertion, an index out of range or an unsigned
    underflow. *)

From S2P Require Import Prelude Felt AceCircuit Machine Merkle MerkleTheory.

Definition SMT_MAX_DEPTH : Z := 64.

Lemma filter_agree {A} (P Q : A -> Prop) `{!forall x, Decision (P x)} `{!forall x, Decision (Q x)} (l : list A) :
  (forall x, x ∈ l -> P x <-> Q x) -> filter P l = filter Q l.
Proof.
  induction l as [|x l IH]; intros He; [done|]. rewrite !filter_cons.
  pose proof (He x (list_elem_of_here x l)) as Hx. rewrite IH by (intros y Hy; apply He; by right).
  repeat case_decide; tauto.
Qed.

Lemma filter_fmap_length {A B} (P : B -> Prop) `{!forall x, Decision (P x)} (f : A -> B) l :
  length (filter P (f <$> l)) = length (filter (fun x => P (f x)) l).
Proof.
  induction l as [|x l IH]; [done|]. rewrite fmap_cons, !filter_cons. case_decide; cbn [length]; auto.
Qed.

(** [u64::count_ones]. *)
Definition count_ones (x : Z) : nat := length (filter (fun i => Z.testbit x i = true) (seqZ 0 64)).

(** ** Node indices *)

Definition sibling (i : NodeIndex) : NodeIndex :=
  mkNodeIndex (ni_depth i) (Z.lxor (ni_position i) 1).

(** [ProofIter], from an index of depth [d] upwards. *)
Fixpoint proof_iter (d : nat) (next_index : NodeIndex) : list NodeIndex :=
  match d with
  | O => []
  | S d' => next_index :: proof_iter d' (sibling (move_up next_index))
  end.

Definition proof_indices (i : NodeIndex) : list NodeIndex :=
  proof_iter (Z.to_nat (ni_depth i)) (sibling i).

(** ** Sparse paths *)

Record SparseMerklePath := mkSparsePath { empty_nodes_mask : Z; sp_nodes : list Word }.

(** The depths of a path's nodes, deepest first. *)
Definition path_depth_iter (tree_depth : Z) : list Z := reverse (seqZ 1 tree_depth).

Definition bitmask_for_depth (node_depth : Z) : Z := Z.shiftl 1 (node_depth - 1).

Definition depth_from_parts (mask : Z) (nodes : list Word) : Z :=
  Z.of_nat (length nodes + count_ones mask).

(** [as u8]. *)
Definition sp_depth (p : SparseMerklePath) : Z :=
  depth_from_parts (empty_nodes_mask p) (sp_nodes p) mod 256.

Definition sp_from_parts (mask : Z) (nodes : list Word) : res MerkleError SparseMerklePath :=
  let min_path_len := bit_len mask in
  let empty_nodes_count := Z.of_nat (count_ones mask) in
  let min_non_empty_nodes := min_path_len - empty_nodes_count in
  if Z.of_nat (length nodes) <? min_non_empty_nodes
  then Err (InvalidPathLength min_non_empty_nodes)
  else
    let depth := depth_from_parts mask nodes in
    if SMT_MAX_DEPTH <? depth then Err (DepthTooBig depth)
    else Ok (mkSparsePath mask nodes).

Definition is_depth_empty (p : SparseMerklePath) (node_depth : Z) : bool :=
  negb (Z.land (empty_nodes_mask p) (bitmask_for_depth node_depth) =? 0).

(** The position among the stored nodes; the inner [None] is an empty node. *)
Definition get_nonempty_index (p : SparseMerklePath) (node_depth : Z) : option (option nat) :=
  if is_depth_empty p node_depth then Some None
  else
    let bit_index := node_depth - 1 in
    let without_shallower := Z.shiftr (empty_nodes_mask p) bit_index in
    let empty_deeper := count_ones without_shallower in
    let normal_index := sp_depth p - node_depth in
    if normal_index <? Z.of_nat empty_deeper then None
    else Some (Some (Z.to_nat normal_index - empty_deeper)%nat).

Section SparsePath.
Context `{Poseidon2}.

(** ** Roots of empty subtrees *)

(** A word and the words that merging it with itself gives, [n] in all. *)
Fixpoint empty_tower (n : nat) (w : Word) : list Word :=
  match n with O => [] | S n => w :: empty_tower n (merge w w) end.

(** [EMPTY_SUBTREES], root first: the empty word merged upward repeatedly. *)
Definition EMPTY_SUBTREES : list Word := reverse (empty_tower 256 EMPTY_WORD).

Definition entry (tree_depth node_depth : Z) : option Word :=
  if node_depth <=? tree_depth
  then EMPTY_SUBTREES !! Z.to_nat (255 - tree_depth + node_depth)
  else None.

(** ** Construction *)

(** The loop over the nodes, deepest first. *)
Definition sparse_step (tree_depth : Z) (acc : Z * list Word) (e : Z * Word) :
    option (Z * list Word) :=
  let '(mask, nodes) := acc in
  let '(depth, node) := e in
  equivalent_empty_node ← entry tree_depth depth;
  Some (if decide (node = equivalent_empty_node)
        then (Z.lor mask (bitmask_for_depth depth), nodes)
        else (mask, nodes ++ [node])).

Definition from_sized_iter (l : list Word) : res MerkleError SparseMerklePath :=
  let tree_depth := Z.of_nat (length l) in
  if SMT_MAX_DEPTH <? tree_depth then Err (DepthTooBig tree_depth)
  else
    match foldl (fun acc e => acc ← acc; sparse_step tree_depth acc e)
            (Some (0, [])) (zip (path_depth_iter tree_depth) l) with
    | Some (mask, nodes) => Ok (mkSparsePath mask nodes)
    | None => Panic
    end.

(** ** Reading *)

Definition at_depth (p : SparseMerklePath) (node_depth : Z) : res MerkleError Word :=
  if sp_depth p <? node_depth then Err (DepthTooBig node_depth)
  else
    match get_nonempty_index p node_depth with
    | None => Panic
    | Some (Some nonempty_index) => rexpect (sp_nodes p !! nonempty_index)
    | Some None => rexpect (entry (sp_depth p) node_depth)
    end.

(** [SparseMerklePathIter] run to exhaustion; its [expect] panics on an error. *)
Definition sp_iter (p : SparseMerklePath) : option (list Word) :=
  mapM (fun d => match at_depth p d with Ok w => Some w | _ => None end)
    (path_depth_iter (sp_depth p)).

Definition sp_compute_root (p : SparseMerklePath) (index : Z) (node_to_prove : Word) :
    res MerkleError Word :=
  let? i := node_index_new (sp_depth p) index in
  match sp_iter p with
  | Some nodes => Ok (snd (foldl root_step (i, node_to_prove) nodes))
  | None => Panic
  end.

Definition sp_verify (p : SparseMerklePath) (index : Z) (node expected_root : Word) :
    res MerkleError unit :=
  let? computed_root := sp_compute_root p index node in
  if decide (computed_root = expected_root) then Ok tt
  else Err (ConflictingRoots expected_root computed_root).

(** ** The table *)

(** The root of an empty subtree of a given height. *)
Fixpoint empty_root (h : nat) : Word :=
  match h with O => EMPTY_WORD | S h => merge (empty_root h) (empty_root h) end.

Lemma empty_tower_lookup n h i :
  (i < n)%nat -> empty_tower n (empty_root h) !! i = Some (empty_root (h + i)).
Proof.
  revert h i. induction n as [|n IH]; intros h i Hi; [lia|]. destruct i as [|i].
  - by rewrite Nat.add_0_r.
  - change (empty_tower n (empty_root (S h)) !! i = Some (empty_root (h + S i))).
    rewrite IH by lia. by rewrite Nat.add_succ_r.
Qed.

Lemma empty_tower_length n w : length (empty_tower n w) = n.
Proof. revert w. induction n as [|n IH]; intros w; [done|]. cbn. by rewrite IH. Qed.

Lemma entry_spec td nd : 0 <= nd <= td -> td <= 255 ->
  entry td nd = Some (empty_root (Z.to_nat (td - nd))).
Proof.
  intros Hn Ht. unfold entry, EMPTY_SUBTREES. destruct (Z.leb_spec nd td); [|lia].
  rewrite reverse_lookup by (rewrite empty_tower_length; lia). rewrite empty_tower_length.
  rewrite (empty_tower_lookup 256 0) by lia. do 2 f_equal. lia.
Qed.

(** ** Bits *)

Lemma bitmask_testbit d i : 1 <= d -> 0 <= i -> Z.testbit (bitmask_for_depth d) i = (i =? d - 1).
Proof.
  intros Hd Hi. unfold bitmask_for_depth. rewrite Z.shiftl_1_l, Z.pow2_bits_eqb by lia.
  apply Z.eqb_sym.
Qed.

Lemma is_depth_empty_spec p d : 1 <= d -> is_depth_empty p d = Z.testbit (empty_nodes_mask p) (d - 1).
Proof.
  intros Hd. unfold is_depth_empty. destruct (Z.eqb_spec (Z.land (empty_nodes_mask p) (bitmask_for_depth d)) 0) as [He|Hn].
  - apply (f_equal (fun x => Z.testbit x (d - 1))) in He. rewrite Z.land_spec, bitmask_testbit in He by lia.
    rewrite Z.eqb_refl, andb_true_r, Z.bits_0 in He. by rewrite He.
  - cbn [negb]. symmetry. destruct (Z.testbit _ _) eqn:Hb; [done|]. destruct Hn. apply Z.bits_inj'.
    intros i Hi. rewrite Z.land_spec, bitmask_testbit, Z.bits_0 by lia.
    destruct (Z.eqb_spec i (d - 1)) as [->|]; [by rewrite Hb|by rewrite andb_false_r].
Qed.

(** Counting depends on the bits alone. *)
Lemma count_ones_ext x y :
  (forall i, 0 <= i < 64 -> Z.testbit x i = Z.testbit y i) -> count_ones x = count_ones y.
Proof.
  intros He. unfold count_ones. f_equal. apply filter_agree. intros i Hi%elem_of_seqZ.
  by rewrite He by lia.
Qed.

(** A new highest bit. *)
Lemma count_ones_top m x : 0 <= m < 64 -> (forall i, m <= i -> Z.testbit x i = false) ->
  count_ones (Z.lor (Z.shiftl 1 m) x) = S (count_ones x).
Proof.
  intros Hm Hx. unfold count_ones.
  assert (seqZ 0 64 = seqZ 0 m ++ m :: seqZ (m + 1) (63 - m)) as ->.
  { replace 64 with (m + (64 - m)) at 1 by lia. rewrite seqZ_app by lia. f_equal.
    rewrite (seqZ_cons (0 + m)) by lia. f_equal. f_equal; lia. }
  rewrite !filter_app, !length_app, !filter_cons. rewrite (Hx m) by lia.
  rewrite Z.lor_spec, Z.shiftl_1_l, Z.pow2_bits_true by lia. cbn [orb].
  rewrite decide_True, decide_False by done. cbn [length]. rewrite Nat.add_succ_r.
  do 3 f_equal; apply filter_agree; intros i Hi%elem_of_seqZ;
    rewrite Z.lor_spec, Z.pow2_bits_eqb by lia; (destruct (Z.eqb_spec m i); [lia|done]).
Qed.

(** ** What construction stores *)

(** The mask and the stored nodes of a path whose first node has height [h]. *)
Fixpoint mask_of (h : nat) (l : list Word) : Z :=
  match l with
  | [] => 0
  | x :: l =>
      let rest := mask_of (S h) l in
      if decide (x = empty_root h) then Z.lor (Z.shiftl 1 (Z.of_nat (length l))) rest else rest
  end.

Fixpoint stored_of (h : nat) (l : list Word) : list Word :=
  match l with
  | [] => []
  | x :: l => if decide (x = empty_root h) then stored_of (S h) l else x :: stored_of (S h) l
  end.

Lemma path_depth_iter_S n :
  path_depth_iter (Z.of_nat (S n)) = Z.of_nat (S n) :: path_depth_iter (Z.of_nat n).
Proof.
  unfold path_depth_iter. rewrite Nat2Z.inj_succ, <- Z.add_1_r, seqZ_app, reverse_app by lia.
  change (seqZ (1 + Z.of_nat n) 1) with [1 + Z.of_nat n]. cbn [reverse rev_append app].
  f_equal; lia.
Qed.

Lemma sparse_fold td h l mask nodes : td <= 64 -> Z.of_nat (h + length l) = td ->
  foldl (fun acc e => acc ← acc; sparse_step td acc e) (Some (mask, nodes))
    (zip (path_depth_iter (Z.of_nat (length l))) l) =
  Some (Z.lor mask (mask_of h l), nodes ++ stored_of h l).
Proof.
  intros Htd. revert h mask nodes. induction l as [|x l IH]; intros h mask nodes Hh.
  { cbn. by rewrite Z.lor_0_r, app_nil_r. }
  cbn [length] in *. rewrite path_depth_iter_S. cbn [zip_with foldl mask_of stored_of].
  cbn [mbind option_bind sparse_step]. rewrite entry_spec by lia. cbn [mbind option_bind].
  replace (Z.to_nat (td - Z.of_nat (S (length l)))) with h by lia.
  destruct (decide (x = empty_root h)); rewrite (IH (S h)) by lia.
  - rewrite <- Z.lor_assoc. unfold bitmask_for_depth. do 5 f_equal. lia.
  - by rewrite <- app_assoc.
Qed.

Lemma from_sized_iter_spec l : (length l <= 64)%nat ->
  from_sized_iter l = Ok (mkSparsePath (mask_of 0 l) (stored_of 0 l)).
Proof.
  intros Hl. unfold from_sized_iter, SMT_MAX_DEPTH. destruct (Z.ltb_spec 64 (Z.of_nat (length l))); [lia|].
  rewrite (sparse_fold _ 0) by lia. by rewrite Z.lor_0_l.
Qed.

Lemma mask_of_range h l : 0 <= mask_of h l < 2 ^ Z.of_nat (length l).
Proof.
  revert h. induction l as [|x l IH]; intros h; cbn [mask_of length]; [done|]. specialize (IH (S h)).
  rewrite Nat2Z.inj_succ, Z.pow_succ_r by lia. destruct (decide _); [|lia].
  rewrite Z.shiftl_1_l. pose proof (Z.add_lor_land (2 ^ Z.of_nat (length l)) (mask_of (S h) l)).
  pose proof (proj2 (Z.land_nonneg (2 ^ Z.of_nat (length l)) (mask_of (S h) l))).
  pose proof (proj2 (Z.lor_nonneg (2 ^ Z.of_nat (length l)) (mask_of (S h) l))). lia.
Qed.

Lemma mask_of_bits h l i : Z.of_nat (length l) <= i -> Z.testbit (mask_of h l) i = false.
Proof.
  revert h. induction l as [|x l IH]; intros h Hi; cbn [mask_of length] in *; [apply Z.bits_0|].
  rewrite Nat2Z.inj_succ in Hi. destruct (decide _); [|apply IH; lia].
  rewrite Z.lor_spec, IH, Z.shiftl_1_l, Z.pow2_bits_false by lia. done.
Qed.

Lemma parts_length h l : (length l <= 64)%nat ->
  (length (stored_of h l) + count_ones (mask_of h l))%nat = length l.
Proof.
  revert h. induction l as [|x l IH]; intros h Hl; [done|]. cbn [mask_of stored_of length] in *.
  specialize (IH (S h)). destruct (decide _); cbn [length]; [|lia].
  rewrite count_ones_top; [lia..|]. intros i. apply mask_of_bits.
Qed.

(** The bit and the stored position of the [k]-th node. *)
Lemma mask_of_lookup h l k x : l !! k = Some x ->
  Z.testbit (mask_of h l) (Z.of_nat (length l - S k)) = bool_decide (x = empty_root (h + k)).
Proof.
  revert h k. induction l as [|y l IH]; intros h k Hk; [done|]. cbn [mask_of length].
  destruct k as [|k].
  - injection Hk as ->. rewrite Nat.add_0_r, Nat.sub_succ, Nat.sub_0_r.
    destruct (decide (x = empty_root h)) as [He|Hne].
    + rewrite Z.lor_spec, Z.shiftl_1_l, Z.pow2_bits_true by lia. by rewrite bool_decide_eq_true_2.
    + rewrite mask_of_bits by lia. by rewrite bool_decide_eq_false_2.
  - cbn [lookup list_lookup] in Hk. pose proof (lookup_lt_Some _ _ _ Hk).
    specialize (IH (S h) k Hk). replace (h + S k)%nat with (S h + k)%nat by lia. rewrite <- IH. rewrite Nat.sub_succ.
    destruct (decide (y = empty_root h)); [|done].
    rewrite Z.lor_spec, Z.shiftl_1_l, Z.pow2_bits_false by lia. done.
Qed.

Lemma stored_of_lookup h l k x : (length l <= 64)%nat -> l !! k = Some x -> x <> empty_root (h + k) ->
  exists c, count_ones (Z.shiftr (mask_of h l) (Z.of_nat (length l - S k))) = c /\ (c <= k)%nat /\
    stored_of h l !! (k - c)%nat = Some x.
Proof.
  revert h k. induction l as [|y l IH]; intros h k Hl Hk Hx; [done|]. cbn [mask_of stored_of length] in *.
  destruct k as [|k].
  - injection Hk as ->. rewrite Nat.add_0_r in Hx. rewrite Nat.sub_succ, Nat.sub_0_r.
    rewrite decide_False by done. exists 0%nat. rewrite decide_False by done. split; [|done].
    rewrite (count_ones_ext _ 0); [done|]. intros i Hi.
    rewrite Z.shiftr_spec, mask_of_bits, Z.bits_0 by lia. done.
  - cbn [lookup list_lookup] in Hk. pose proof (lookup_lt_Some _ _ _ Hk) as Hlt.
    rewrite Nat.add_succ_r in Hx. destruct (IH (S h) k) as (c & Hc & Hck & Hs); [lia|done..|].
    rewrite Nat.sub_succ. destruct (decide (y = empty_root h)).
    + exists (S c). split; [|split; [lia|done]]. rewrite Z.shiftr_lor, Z.shiftr_shiftl_l by lia.
      rewrite count_ones_top, Hc; [done|lia|]. intros i Hi.
      rewrite Z.shiftr_spec, mask_of_bits by lia. done.
    + exists c. split; [done|]. split; [lia|]. by rewrite Nat.sub_succ_l.
Qed.

Lemma path_depth_iter_lookup n k : (k < n)%nat ->
  path_depth_iter (Z.of_nat n) !! k = Some (Z.of_nat (n - k)).
Proof.
  revert k. induction n as [|n IH]; intros k Hk; [lia|]. rewrite path_depth_iter_S.
  destruct k as [|k]; [done|]. cbn [lookup list_lookup]. rewrite IH by lia. done.
Qed.

Lemma path_depth_iter_length n : length (path_depth_iter (Z.of_nat n)) = n.
Proof. unfold path_depth_iter. rewrite length_reverse, length_seqZ. lia. Qed.

(** Reading every depth of a path. *)
Lemma sp_iter_spec p l : Z.of_nat (length l) = sp_depth p ->
  (forall k x, l !! k = Some x -> at_depth p (Z.of_nat (length l - k)) = Ok x) -> sp_iter p = Some l.
Proof.
  intros Hl Hk. unfold sp_iter. rewrite <- Hl. apply mapM_Some, Forall2_same_length_lookup.
  rewrite path_depth_iter_length. split; [done|]. intros k d x Hd Hx.
  pose proof (lookup_lt_Some _ _ _ Hx). rewrite path_depth_iter_lookup in Hd by done.
  injection Hd as <-. by rewrite (Hk k x).
Qed.

Definition sparse (l : list Word) : SparseMerklePath := mkSparsePath (mask_of 0 l) (stored_of 0 l).

Lemma sparse_depth l : (length l <= 64)%nat -> sp_depth (sparse l) = Z.of_nat (length l).
Proof.
  intros Hl. unfold sp_depth, depth_from_parts. cbn [sparse empty_nodes_mask sp_nodes].
  rewrite parts_length by done. apply Z.mod_small. lia.
Qed.

Lemma sparse_at_depth l k x : (length l <= 64)%nat -> l !! k = Some x ->
  at_depth (sparse l) (Z.of_nat (length l - k)) = Ok x.
Proof.
  intros Hl Hk. pose proof (lookup_lt_Some _ _ _ Hk). unfold at_depth, get_nonempty_index.
  rewrite sparse_depth, is_depth_empty_spec by lia. destruct (Z.ltb_spec (Z.of_nat (length l)) (Z.of_nat (length l - k))); [lia|].
  cbn [sparse empty_nodes_mask sp_nodes].
  replace (Z.of_nat (length l - k) - 1) with (Z.of_nat (length l - S k)) by lia.
  rewrite (mask_of_lookup 0 l k x Hk). case_bool_decide as Hx.
  - rewrite entry_spec by lia. cbn [rexpect]. do 2 f_equal. rewrite Hx. f_equal. lia.
  - destruct (stored_of_lookup 0 l k x Hl Hk Hx) as (c & -> & Hc & Hs).
    destruct (Z.ltb_spec (Z.of_nat (length l) - Z.of_nat (length l - k)) (Z.of_nat c)); [lia|].
    replace (Z.to_nat (Z.of_nat (length l) - Z.of_nat (length l - k)) - c)%nat with (k - c)%nat by lia.
    by rewrite Hs.
Qed.

(** A path read back from its sparse form. *)
Lemma sparse_iter l : (length l <= 64)%nat -> sp_iter (sparse l) = Some l.
Proof.
  intros Hl. apply sp_iter_spec; [by rewrite sparse_depth|]. intros k x. by apply sparse_at_depth.
Qed.

Lemma sp_compute_root_spec p l index node : 0 <= index ->
  sp_iter p = Some l -> Z.of_nat (length l) = sp_depth p -> (length l <= 64)%nat ->
  sp_compute_root p index node = compute_root l index node.
Proof.
  intros Hi Hp Hl Hlen. unfold sp_compute_root, compute_root, path_depth. rewrite Hp, <- Hl.
  destruct (Z.leb_spec (Z.of_nat (length l)) 255); [|lia]. by destruct (node_index_new _ _).
Qed.

(** ** Paths from untrusted parts *)

(** What [from_parts] checks. *)
Definition sp_valid (p : SparseMerklePath) : Prop :=
  0 <= empty_nodes_mask p < 2 ^ 64 /\
  bit_len (empty_nodes_mask p) - Z.of_nat (count_ones (empty_nodes_mask p)) <= Z.of_nat (length (sp_nodes p)) /\
  depth_from_parts (empty_nodes_mask p) (sp_nodes p) <= 64.

Lemma sp_from_parts_spec mask nodes : 0 <= mask < 2 ^ 64 ->
  match sp_from_parts mask nodes with
  | Ok p => p = mkSparsePath mask nodes /\ sp_valid p
  | Err _ => ~ sp_valid (mkSparsePath mask nodes)
  | Panic => False
  end.
Proof.
  intros Hm. unfold sp_from_parts, sp_valid, SMT_MAX_DEPTH. cbn [empty_nodes_mask sp_nodes].
  destruct (Z.ltb_spec (Z.of_nat (length nodes)) (bit_len mask - Z.of_nat (count_ones mask))); [lia|].
  destruct (Z.ltb_spec 64 (depth_from_parts mask nodes)); [lia|]. done.
Qed.

(** The set bits among [len] bits from [a]. *)
Definition ones (m a len : Z) : Z := Z.of_nat (length (filter (fun i => Z.testbit m i = true) (seqZ a len))).

Lemma ones_app m a l1 l2 : 0 <= l1 -> 0 <= l2 -> ones m a (l1 + l2) = ones m a l1 + ones m (a + l1) l2.
Proof. intros. unfold ones. rewrite seqZ_app, filter_app, length_app by lia. lia. Qed.

Lemma ones_bound m a len : 0 <= len -> 0 <= ones m a len <= len.
Proof.
  intros. unfold ones. pose proof (length_filter (fun i => Z.testbit m i = true) (seqZ a len)).
  rewrite length_seqZ in *. lia.
Qed.

Lemma ones_zero m a len : (forall i, a <= i < a + len -> Z.testbit m i = false) -> ones m a len = 0.
Proof.
  intros Hz. unfold ones. destruct (filter _ _) as [|i l] eqn:Hf; [done|].
  pose proof (list_elem_of_here i l) as Hi. rewrite <- Hf in Hi.
  apply list_elem_of_filter in Hi as [Hb Hi%elem_of_seqZ]. by rewrite Hz in Hb.
Qed.

Lemma count_ones_shift m k : 0 <= m < 2 ^ 64 -> 0 <= k <= 64 ->
  Z.of_nat (count_ones (Z.shiftr m k)) = ones m k (64 - k).
Proof.
  intros Hm Hk. assert (Z.of_nat (count_ones (Z.shiftr m k)) = ones m k 64) as ->.
  { unfold count_ones, ones. f_equal. replace (seqZ k 64) with (Z.add k <$> seqZ 0 64)
      by (rewrite fmap_add_seqZ; f_equal; lia). rewrite filter_fmap_length. f_equal. apply filter_agree.
    intros i Hi%elem_of_seqZ. rewrite Z.shiftr_spec by lia. by rewrite Z.add_comm. }
  replace 64 with ((64 - k) + k) at 1 by lia. rewrite ones_app by lia.
  rewrite (ones_zero _ (k + (64 - k))); [lia|]. intros i Hi. apply Z.bits_above_log2; [lia|].
  destruct (Z.eq_dec m 0) as [->|]; [cbn; lia|]. apply Z.log2_lt_pow2; [lia|].
  apply (Z.lt_le_trans _ (2 ^ 64)); [lia|]. apply Z.pow_le_mono_r; lia.
Qed.

Lemma bit_len_above m i : 0 <= m -> bit_len m <= i -> Z.testbit m i = false.
Proof.
  intros Hm. unfold bit_len. destruct (Z.eqb_spec m 0) as [->|]; intros Hi; [apply Z.bits_0|].
  apply Z.bits_above_log2; lia.
Qed.

(** Every node of a valid path can be read. *)
Lemma sp_valid_index p d : sp_valid p -> 1 <= d <= sp_depth p ->
  Z.testbit (empty_nodes_mask p) (d - 1) = false ->
  exists i, get_nonempty_index p d = Some (Some i) /\ (i < length (sp_nodes p))%nat.
Proof.
  destruct p as [m nodes]. unfold sp_valid, sp_depth, depth_from_parts, get_nonempty_index.
  cbn [empty_nodes_mask sp_nodes]. intros (Hm & Hlen & Hdep) Hd Hb.
  rewrite Z.mod_small in Hd by lia. rewrite is_depth_empty_spec by lia. cbn [empty_nodes_mask].
  rewrite Hb. cbv zeta. unfold sp_depth, depth_from_parts. cbn [empty_nodes_mask sp_nodes].
  rewrite Z.mod_small by lia. pose proof (count_ones_shift m (d - 1) Hm) as Hs.
  pose proof (count_ones_shift m 0 Hm) as H0. rewrite Z.shiftr_0_r in H0.
  replace (64 - 0) with ((d - 1) + (64 - (d - 1))) in H0 by lia.
  rewrite ones_app, Z.add_0_l in H0 by lia. rewrite <- Hs in H0 by lia.
  pose proof (ones_bound m 0 (d - 1)) as Hlo.
  assert (d - ones m 0 (d - 1) <= Z.of_nat (length nodes)) as Hge.
  { destruct (Z.le_gt_cases d (bit_len m)) as [Hle|Hgt].
    - assert (bit_len m <= 64) by (apply bit_len_spec; lia).
      assert (Z.of_nat (count_ones m) = ones m 0 (d - 1) + ones m d (bit_len m - d)) as Hc.
      { pose proof (count_ones_shift m 0 Hm) as Hc. rewrite Z.shiftr_0_r in Hc. rewrite Hc by lia.
        replace (64 - 0) with ((d - 1) + (1 + ((bit_len m - d) + (64 - bit_len m)))) by lia.
        rewrite !ones_app by lia. rewrite (ones_zero m (0 + (d - 1)) 1).
        2:{ intros i Hi. by replace i with (d - 1) by lia. }
        rewrite (ones_zero m (0 + (d - 1) + 1 + (bit_len m - d))).
        2:{ intros i Hi. apply bit_len_above; lia. }
        replace (0 + (d - 1) + 1) with d by lia. lia. }
      pose proof (ones_bound m d (bit_len m - d)). lia.
    - assert (count_ones (Z.shiftr m (d - 1)) = 0%nat) as Hz.
      { apply Nat2Z.inj. rewrite Hs by lia. apply ones_zero. intros i Hi.
        apply bit_len_above; lia. }
      lia. }
  destruct (Z.ltb_spec (Z.of_nat (length nodes + count_ones m) - d)
    (Z.of_nat (count_ones (Z.shiftr m (d - 1))))); [lia|].
  eexists. split; [done|]. lia.
Qed.

Lemma sparse_from_parts l : (length l <= 64)%nat ->
  sp_from_parts (empty_nodes_mask (sparse l)) (sp_nodes (sparse l)) = Ok (sparse l).
Proof.
  intros Hl. pose proof (mask_of_range 0 l) as Hm. pose proof (parts_length 0 l Hl) as Hp.
  pose proof (proj2 (bit_len_spec (mask_of 0 l) (Z.of_nat (length l)) (proj1 Hm) ltac:(lia)) (proj2 Hm)) as Hb.
  unfold sp_from_parts, depth_from_parts, SMT_MAX_DEPTH. cbn [sparse empty_nodes_mask sp_nodes].
  destruct (Z.ltb_spec (Z.of_nat (length (stored_of 0 l))) (bit_len (mask_of 0 l) - Z.of_nat (count_ones (mask_of 0 l))));
    [lia|]. cbv zeta. rewrite Hp. by destruct (Z.ltb_spec 64 (Z.of_nat (length l))); [lia|].
Qed.

(** A path that passed the checks of [from_parts] is read without a panic. *)
Lemma sp_valid_iter p : sp_valid p ->
  exists l, sp_iter p = Some l /\ Z.of_nat (length l) = sp_depth p /\ (length l <= 64)%nat.
Proof.
  intros Hv. assert (0 <= sp_depth p <= 64) as Hd.
  { unfold sp_depth. destruct Hv as (_ & _ & Hv). pose proof (Z.mod_pos_bound (depth_from_parts
      (empty_nodes_mask p) (sp_nodes p)) 256). unfold depth_from_parts in *. rewrite Z.mod_small by lia. lia. }
  assert (Forall (fun d => is_Some (match at_depth p d with Ok w => Some w | _ => None end))
    (path_depth_iter (sp_depth p))) as Hall.
  { apply Forall_forall. intros d Hin. unfold path_depth_iter in Hin.
    rewrite elem_of_reverse, elem_of_seqZ in Hin. unfold at_depth.
    destruct (Z.ltb_spec (sp_depth p) d); [lia|].
    destruct (Z.testbit (empty_nodes_mask p) (d - 1)) eqn:Hb.
    - unfold get_nonempty_index. rewrite is_depth_empty_spec, Hb by lia. by rewrite entry_spec by lia.
    - destruct (sp_valid_index p d Hv) as (i & -> & Hi); [lia|done|].
      apply lookup_lt_is_Some_2 in Hi as [w ->]. done. }
  apply mapM_is_Some_2 in Hall as [l Hl]. exists l. split; [done|].
  assert (length l = length (path_depth_iter (sp_depth p))) as Hlen
    by (symmetry; by eapply Forall2_length, mapM_Some_1).
  unfold path_depth_iter in Hlen. rewrite length_reverse, length_seqZ in Hlen. lia.
Qed.

End SparsePath.
