(* ===== verification/SparseTree.v ===== *)
(** * Sparse Merkle trees: the traits

    crates/crypto/src/merkle/smt/mod.rs: the traits [SparseMerkleTreeReader] and
    [SparseMerkleTree] as one class, with the methods they provide, and the sets
    of prospective mutations.

    [Map] is a hash map or an ordered map, depending on the features of the
    crate: the order of iteration is a parameter ([MapOrder]).  [LeafIndex<DEPTH>]
    is its position, the depth being known from the type. *)

From S2P Require Import Prelude Felt AceCircuit Machine Merkle SparsePath.

#[export] Instance node_index_eq_dec : EqDecision NodeIndex.
Proof. solve_decision. Defined.

#[export] Instance node_index_countable : Countable NodeIndex.
Proof.
  refine (inj_countable' (fun i => (ni_depth i, ni_position i)) (fun p => mkNodeIndex (fst p) (snd p)) _).
  by intros [].
Defined.

(** ** Iteration over maps *)

Class MapOrder := map_entries : forall {K A} `{Countable K}, gmap K A -> list (K * A).

Class MapOrderLaws (O : MapOrder) : Prop :=
  map_entries_perm : forall {K A} `{Countable K} (m : gmap K A), map_entries m ≡ₚ map_to_list m.

(** ** Data *)

Record InnerNode := mkInnerNode { n_left : Word; n_right : Word }.

#[export] Instance inner_node_eq_dec : EqDecision InnerNode.
Proof. solve_decision. Defined.

Inductive NodeMutation :=
| Removal
| Addition (node : InnerNode).

Notation InnerNodes := (gmap NodeIndex InnerNode) (only parsing).
Notation NodeMutations := (gmap NodeIndex NodeMutation) (only parsing).

Record MutationSet (K V : Type) `{Countable K} := mkMutationSet {
  old_root : Word;
  node_mutations : NodeMutations;
  new_pairs : gmap K V;
  new_root : Word
}.
Arguments mkMutationSet {K V _ _} old_root node_mutations new_pairs new_root.
Arguments old_root {K V _ _} m.
Arguments node_mutations {K V _ _} m.
Arguments new_pairs {K V _ _} m.
Arguments new_root {K V _ _} m.

Inductive SmtLeafError :=
| InconsistentMultipleLeafKeys (key_1 key_2 : Word)
| InconsistentSingleLeafIndices (key : Word) (expected_leaf_index actual_leaf_index : Z)
| InconsistentMultipleLeafIndices (leaf_index_from_keys leaf_index_supplied : Z)
| MultipleLeafRequiresTwoEntries (len : Z)
| LeafTooManyEntries (actual : Z)
| DecodingError (message : string).

(** ** The traits *)

Class SparseMerkleTree (T K V L : Type) := {
  DEPTH : Z;
  EMPTY_VALUE : V;
  tree_root : T -> Word;
  (** [None] is a panic in the next two. *)
  get_inner_node : T -> NodeIndex -> option InnerNode;
  get_value : T -> K -> option V;
  get_leaf : T -> K -> L;
  hash_leaf : L -> Word;
  construct_prospective_leaf : L -> K -> V -> res SmtLeafError L;
  key_to_leaf_index : K -> Z;
  set_root : Word -> M MerkleError T unit;
  insert_inner_node : NodeIndex -> InnerNode -> M MerkleError T (option InnerNode);
  remove_inner_node : NodeIndex -> M MerkleError T (option InnerNode);
  insert_value : K -> V -> M MerkleError T (option V)
}.

Section Empty.
Context `{Poseidon2}.

Definition inner_hash (n : InnerNode) : Word := merge (n_left n) (n_right n).

(** [EmptySubtreeRoots::get_inner_node]. *)
Definition empty_inner_node (tree_depth node_depth : Z) : option InnerNode :=
  child ← entry tree_depth (node_depth + 1);
  Some (mkInnerNode child child).

End Empty.

Section Provided.
Context `{Poseidon2} {T K V L : Type} `{EqDecision V} `{Countable K} `{!SparseMerkleTree T K V L}.

Definition leaf_node (key : K) : NodeIndex := mkNodeIndex DEPTH (key_to_leaf_index key).

(** ** Reading *)

Definition get_node_hash (t : T) (index : NodeIndex) : option Word :=
  if ni_depth index =? 0 then Some (tree_root t)
  else
    node ← get_inner_node t (move_up index);
    Some (if is_position_odd index then n_right node else n_left node).

Definition tree_path (t : T) (key : K) : option SparseMerklePath :=
  nodes ← mapM (get_node_hash t) (proof_indices (leaf_node key));
  match from_sized_iter nodes with Ok path => Some path | _ => None end.

(** The path and the leaf of an opening. *)
Definition tree_open (t : T) (key : K) : option (SparseMerklePath * L) :=
  let leaf := get_leaf t key in
  merkle_path ← tree_path t key;
  Some (merkle_path, leaf).

(** ** Insertion *)

(** The loop over [(0..index.depth()).rev()]. *)
Fixpoint recompute_nodes (d : nat) (index : NodeIndex) (node_hash : Word) : M MerkleError T Word :=
  match d with
  | O => ret node_hash
  | S node_depth =>
      let is_right := is_position_odd index in
      let index := move_up index in
      let! t := gets id in
      let! node := expect (get_inner_node t index) in
      let '(l, r) := if is_right then (n_left node, node_hash) else (node_hash, n_right node) in
      let node_hash := merge l r in
      let! empty := expect (entry DEPTH (Z.of_nat node_depth)) in
      do! (if decide (node_hash = empty) then remove_inner_node index
           else insert_inner_node index (mkInnerNode l r));
      recompute_nodes node_depth index node_hash
  end.

Definition recompute_nodes_from_index_to_root (index : NodeIndex) (node_hash_at_index : Word) :
    M MerkleError T unit :=
  let! node_hash := recompute_nodes (Z.to_nat (ni_depth index)) index node_hash_at_index in
  set_root node_hash.

Definition tree_insert (key : K) (value : V) : M MerkleError T V :=
  let! old := insert_value key value in
  let old_value := default EMPTY_VALUE old in
  if decide (value = old_value) then ret value
  else
    let! t := gets id in
    let leaf := get_leaf t key in
    do! recompute_nodes_from_index_to_root (leaf_node key) (hash_leaf leaf);
    ret old_value.

(** ** Prospective mutations *)

Context `{MapOrder}.

Record MutationState := mkMutationState {
  ms_root : Word;
  ms_pairs : gmap K V;
  ms_nodes : NodeMutations;
  ms_seen : gset K
}.

(** The leaf with the pairs prospectively added so far; an error of
    [construct_prospective_leaf] is a failing [expect] here. *)
Definition prospective_leaf (t : T) (pairs : gmap K V) (key : K) : option L :=
  foldl (fun acc '(k, v) =>
           existing_leaf ← acc;
           match construct_prospective_leaf existing_leaf k v with Ok leaf => Some leaf | _ => None end)
    (Some (get_leaf t key))
    (filter (fun e => key_to_leaf_index (fst e) = key_to_leaf_index key) (map_entries pairs)).

(** The loop over [(0..node_index.depth()).rev()]. *)
Fixpoint mutate_nodes (t : T) (d : nat) (index : NodeIndex) (new_child_hash : Word)
    (nodes : NodeMutations) : option (Word * NodeMutations) :=
  match d with
  | O => Some (new_child_hash, nodes)
  | S node_depth =>
      let is_right := is_position_odd index in
      let index := move_up index in
      old_node ← match nodes !! index with
                 | Some (Addition node) => Some node
                 | Some Removal => empty_inner_node DEPTH (Z.of_nat node_depth)
                 | None => get_inner_node t index
                 end;
      let new_node := if is_right then mkInnerNode (n_left old_node) new_child_hash
                      else mkInnerNode new_child_hash (n_right old_node) in
      let new_child_hash := inner_hash new_node in
      equivalent_empty_hash ← entry DEPTH (Z.of_nat node_depth);
      let new_entry := if decide (new_child_hash = equivalent_empty_hash) then Removal
                       else Addition new_node in
      mutate_nodes t node_depth index new_child_hash (<[index := new_entry]> nodes)
  end.

(** One pair of [compute_mutations_sequential]. *)
Definition mutate_pair (t : T) (s : MutationState) (pair : K * V) : res MerkleError MutationState :=
  let '(key, value) := pair in
  if decide (key ∈ ms_seen s) then Err (DuplicateValuesForIndex (key_to_leaf_index key))
  else
    let seen := {[ key ]} ∪ ms_seen s in
    let? old_value := rexpect (match ms_pairs s !! key with
                               | Some v => Some v
                               | None => get_value t key
                               end) in
    if decide (value = old_value) then Ok (mkMutationState (ms_root s) (ms_pairs s) (ms_nodes s) seen)
    else
      let? old_leaf := rexpect (prospective_leaf t (ms_pairs s) key) in
      let? new_leaf :=
        match construct_prospective_leaf old_leaf key value with
        | Ok leaf => Ok leaf
        | Err (LeafTooManyEntries actual) => Err (TooManyLeafEntries actual)
        | Err _ => Panic
        | Panic => Panic
        end in
      let index := leaf_node key in
      let? r := rexpect (mutate_nodes t (Z.to_nat (ni_depth index)) index (hash_leaf new_leaf) (ms_nodes s)) in
      Ok (mkMutationState (fst r) (<[key := value]> (ms_pairs s)) (snd r) seen).

Definition compute_mutations (t : T) (kv_pairs : list (K * V)) : res MerkleError (MutationSet K V) :=
  let? s := rfold (mutate_pair t) (mkMutationState (tree_root t) ∅ ∅ ∅) kv_pairs in
  Ok (mkMutationSet (tree_root t) (ms_nodes s) (ms_pairs s) (ms_root s)).

(** [for (index, mutation) in node_mutations] and [for (key, value) in new_pairs]. *)
Fixpoint apply_node_mutations (l : list (NodeIndex * NodeMutation)) : M MerkleError T unit :=
  match l with
  | [] => ret tt
  | (index, Removal) :: l => do! remove_inner_node index; apply_node_mutations l
  | (index, Addition node) :: l => do! insert_inner_node index node; apply_node_mutations l
  end.

Fixpoint insert_values (l : list (K * V)) : M MerkleError T unit :=
  match l with
  | [] => ret tt
  | (key, value) :: l => do! insert_value key value; insert_values l
  end.

Definition tree_apply_mutations (mutations : MutationSet K V) : M MerkleError T unit :=
  let! t := gets id in
  if decide (old_root mutations = tree_root t) then
    do! apply_node_mutations (map_entries (node_mutations mutations));
    do! insert_values (map_entries (new_pairs mutations));
    set_root (new_root mutations)
  else fail (ConflictingRoots (tree_root t) (old_root mutations)).

(** The same loops, collecting the reverse mutations. *)
Fixpoint revert_node_mutations (l : list (NodeIndex * NodeMutation)) (reverse : NodeMutations) :
    M MerkleError T NodeMutations :=
  match l with
  | [] => ret reverse
  | (index, Removal) :: l =>
      let! removed := remove_inner_node index in
      revert_node_mutations l
        (match removed with Some node => <[index := Addition node]> reverse | None => reverse end)
  | (index, Addition node) :: l =>
      let! replaced := insert_inner_node index node in
      revert_node_mutations l
        (<[index := match replaced with Some old_node => Addition old_node | None => Removal end]> reverse)
  end.

Fixpoint revert_values (l : list (K * V)) (reverse : gmap K V) : M MerkleError T (gmap K V) :=
  match l with
  | [] => ret reverse
  | (key, value) :: l =>
      let! old := insert_value key value in
      revert_values l (<[key := default EMPTY_VALUE old]> reverse)
  end.

Definition tree_apply_mutations_with_reversion (mutations : MutationSet K V) :
    M MerkleError T (MutationSet K V) :=
  let! t := gets id in
  if decide (old_root mutations = tree_root t) then
    let! reverse_mutations := revert_node_mutations (map_entries (node_mutations mutations)) ∅ in
    let! reverse_pairs := revert_values (map_entries (new_pairs mutations)) ∅ in
    do! set_root (new_root mutations);
    ret (mkMutationSet (new_root mutations) reverse_mutations reverse_pairs (old_root mutations))
  else fail (ConflictingRoots (tree_root t) (old_root mutations)).

End Provided.
