(* ===== verification/FullSmt.v ===== *)
(** * The sparse Merkle trees [Smt] and [SimpleSmt]

    crates/crypto/src/merkle/smt: the leaves ([SmtLeaf], full/leaf.rs), the tree
    from words to words ([Smt], full/mod.rs) with its openings ([SmtProof],
    full/proof.rs), and the tree of a given depth whose leaves are words
    ([SimpleSmt], simple/mod.rs), as instances of the traits. *)

From S2P Require Import Prelude Felt AdviceMap OpBatch AceCircuit Machine Merkle SparsePath.
From S2P Require Import SparseTree.

Definition SMT_MIN_DEPTH : Z := 1.
Definition SMT_DEPTH : Z := 64.
Definition MAX_LEAF_ENTRIES : Z := 1024.
Definition LEAF_DOMAIN : Felt := new_unchecked 0x13af.

(** [LeafIndex::<SMT_DEPTH>::from]: the most significant element of the key. *)
Definition leaf_index_of (key : Word) : Z := ⟦word_d key⟧.

(** ** Leaves *)

Inductive SmtLeaf :=
| LeafEmpty (index : Z)
| LeafSingle (key value : Word)
| LeafMultiple (entries : list (Word * Word)).

(** [None] is an index out of range. *)
Definition leaf_index (leaf : SmtLeaf) : option Z :=
  match leaf with
  | LeafEmpty index => Some index
  | LeafSingle key _ => Some (leaf_index_of key)
  | LeafMultiple entries => '(first_key, _) ← entries !! 0%nat; Some (leaf_index_of first_key)
  end.

Definition new_multiple (entries : list (Word * Word)) : res SmtLeafError SmtLeaf :=
  if (length entries <? 2)%nat then Err (MultipleLeafRequiresTwoEntries (Z.of_nat (length entries)))
  else if MAX_LEAF_ENTRIES <? Z.of_nat (length entries)
  then Err (LeafTooManyEntries (Z.of_nat (length entries)))
  else
    match entries.*1 with
    | [] => Panic
    | first_key :: keys =>
        do? rfor keys (fun next_key =>
              if leaf_index_of next_key =? leaf_index_of first_key then Ok tt
              else Err (InconsistentMultipleLeafKeys first_key next_key));
        Ok (LeafMultiple entries)
    end.

(** [SmtLeaf::new]. *)
Definition leaf_new (entries : list (Word * Word)) (index : Z) : res SmtLeafError SmtLeaf :=
  match entries with
  | [] => Ok (LeafEmpty index)
  | [(key, value)] =>
      let computed_index := leaf_index_of key in
      if computed_index =? index then Ok (LeafSingle key value)
      else Err (InconsistentSingleLeafIndices key index computed_index)
  | _ =>
      let? leaf := new_multiple entries in
      match leaf_index leaf with
      | Some i => if i =? index then Ok leaf else Err (InconsistentMultipleLeafIndices i index)
      | None => Panic
      end
  end.

(** The value under the first entry with the key. *)
Fixpoint find_value (key : Word) (kv_pairs : list (Word * Word)) : Word :=
  match kv_pairs with
  | [] => EMPTY_WORD
  | (key_in_leaf, value_in_leaf) :: rest =>
      if decide (key = key_in_leaf) then value_in_leaf else find_value key rest
  end.

(** The outer [None] is a panic, the inner one a key of another leaf. *)
Definition leaf_get_value (leaf : SmtLeaf) (key : Word) : option (option Word) :=
  index ← leaf_index leaf;
  Some (if index =? leaf_index_of key then
          Some (match leaf with
                | LeafEmpty _ => EMPTY_WORD
                | LeafSingle key_in_leaf value_in_leaf =>
                    if decide (key = key_in_leaf) then value_in_leaf else EMPTY_WORD
                | LeafMultiple kv_pairs => find_value key kv_pairs
                end)
        else None).

Definition leaf_entries (leaf : SmtLeaf) : list (Word * Word) :=
  match leaf with
  | LeafEmpty _ => []
  | LeafSingle key value => [(key, value)]
  | LeafMultiple kv_pairs => kv_pairs
  end.

Definition leaf_num_entries (leaf : SmtLeaf) : nat :=
  match leaf with
  | LeafEmpty _ => 0
  | LeafSingle _ _ => 1
  | LeafMultiple entries => length entries
  end.

(** [binary_search_by] on the key, of a slice sorted by key: the position of the
    entry, or the one where it belongs. *)
Definition search_key (key : Word) (kv_pairs : list (Word * Word)) : nat * bool :=
  let pos := partition_point (fun e => word_ltb (fst e) key) kv_pairs in
  (pos, match kv_pairs !! pos with Some e => bool_decide (fst e = key) | None => false end).

Definition kv_le {A} (e1 e2 : Word * A) : Prop := word_cmp (fst e1) (fst e2) <> Gt.

#[export] Instance kv_le_dec {A} (e1 e2 : Word * A) : Decision (kv_le e1 e2).
Proof. unfold kv_le. apply _. Defined.

(** The leaf after insertion, with the previous value. *)
Definition leaf_insert (leaf : SmtLeaf) (key value : Word) : res SmtLeafError (option Word * SmtLeaf) :=
  match leaf with
  | LeafEmpty _ => Ok (None, LeafSingle key value)
  | LeafSingle key0 value0 =>
      if decide (key0 = key) then Ok (Some value0, LeafSingle key0 value)
      else
        let pairs := [(key0, value0); (key, value)] in
        Ok (None, LeafMultiple (merge_sort kv_le pairs))
  | LeafMultiple kv_pairs =>
      match search_key key kv_pairs with
      | (pos, true) =>
          match kv_pairs !! pos with
          | Some (k, old_value) => Ok (Some old_value, LeafMultiple (<[pos := (k, value)]> kv_pairs))
          | None => Panic
          end
      | (pos, false) =>
          if MAX_LEAF_ENTRIES <=? Z.of_nat (length kv_pairs)
          then Err (LeafTooManyEntries (Z.of_nat (length kv_pairs) + 1))
          else Ok (None, LeafMultiple (take pos kv_pairs ++ (key, value) :: drop pos kv_pairs))
      end
  end.

(** The leaf after removal, with the previous value and whether the leaf became
    empty. *)
Definition leaf_remove (leaf : SmtLeaf) (key : Word) : option (option Word * bool * SmtLeaf) :=
  match leaf with
  | LeafEmpty _ => Some (None, false, leaf)
  | LeafSingle key_at_leaf value_at_leaf =>
      if decide (key_at_leaf = key) then Some (Some value_at_leaf, true, LeafEmpty (leaf_index_of key))
      else Some (None, false, leaf)
  | LeafMultiple kv_pairs =>
      match search_key key kv_pairs with
      | (pos, true) =>
          '(_, old_value) ← kv_pairs !! pos;
          match take pos kv_pairs ++ drop (S pos) kv_pairs with
          | [] => None
          | [(k, v)] => Some (Some old_value, false, LeafSingle k v)
          | rest => Some (Some old_value, false, LeafMultiple rest)
          end
      | (_, false) => Some (None, false, leaf)
      end
  end.

Definition kv_to_elements (kv : Word * Word) : list Felt := into_elements (fst kv) ++ into_elements (snd kv).

Section Smt.
Context `{Poseidon2}.

Definition leaf_hash (leaf : SmtLeaf) : Word :=
  match leaf with
  | LeafEmpty _ => EMPTY_WORD
  | LeafSingle key value => merge_in_domain key value LEAF_DOMAIN
  | LeafMultiple kvs => hash_elements_in_domain (kvs ≫= kv_to_elements) LEAF_DOMAIN
  end.

(** ** [Smt] *)

Record Smt := mkSmt {
  smt_root : Word;
  num_entries : nat;
  leaves : gmap Z SmtLeaf;
  smt_nodes : InnerNodes
}.

Definition smt_set_leaves (n : nat) (ls : gmap Z SmtLeaf) : M MerkleError Smt unit :=
  modify (fun t => mkSmt (smt_root t) n ls (smt_nodes t)).

Definition smt_set_nodes (nodes : InnerNodes) : M MerkleError Smt unit :=
  modify (fun t => mkSmt (smt_root t) (num_entries t) (leaves t) nodes).

Definition perform_insert (key value : Word) : M MerkleError Smt (option Word) :=
  let index := leaf_index_of key in
  let! t := gets id in
  match leaves t !! index with
  | Some leaf =>
      let prev_entries := leaf_num_entries leaf in
      match leaf_insert leaf key value with
      | Ok (result, leaf) =>
          let current_entries := leaf_num_entries leaf in
          let! added := expect (checked_sub current_entries prev_entries) in
          do! smt_set_leaves (num_entries t + added) (<[index := leaf]> (leaves t));
          ret result
      | Err (LeafTooManyEntries actual) => fail (TooManyLeafEntries actual)
      | Err _ => panic
      | Panic => panic
      end
  | None =>
      do! smt_set_leaves (num_entries t + 1) (<[index := LeafSingle key value]> (leaves t));
      ret None
  end.

Definition perform_remove (key : Word) : M MerkleError Smt (option Word) :=
  let index := leaf_index_of key in
  let! t := gets id in
  match leaves t !! index with
  | Some leaf =>
      let prev_entries := leaf_num_entries leaf in
      let! r := expect (leaf_remove leaf key) in
      let '(old_value, is_empty, leaf) := r in
      let current_entries := leaf_num_entries leaf in
      let! removed := expect (checked_sub prev_entries current_entries) in
      let! n := expect (checked_sub (num_entries t) removed) in
      do! smt_set_leaves n (if is_empty : bool then delete index (leaves t) else <[index := leaf]> (leaves t));
      ret old_value
  | None => ret None
  end.

Definition smt_get_inner_node (t : Smt) (index : NodeIndex) : option InnerNode :=
  match smt_nodes t !! index with
  | Some node => Some node
  | None => empty_inner_node SMT_DEPTH (ni_depth index)
  end.

Definition smt_remove_inner_node (index : NodeIndex) : M MerkleError Smt (option InnerNode) :=
  let! t := gets id in
  do! smt_set_nodes (delete index (smt_nodes t));
  ret (smt_nodes t !! index).

#[export] Instance smt_tree : SparseMerkleTree Smt Word Word SmtLeaf := {
  DEPTH := SMT_DEPTH;
  EMPTY_VALUE := EMPTY_WORD;
  tree_root := smt_root;
  get_inner_node := smt_get_inner_node;
  get_value t key :=
    match leaves t !! leaf_index_of key with
    | Some leaf => default EMPTY_WORD <$> leaf_get_value leaf key
    | None => Some EMPTY_WORD
    end;
  get_leaf t key := default (LeafEmpty (leaf_index_of key)) (leaves t !! leaf_index_of key);
  hash_leaf := leaf_hash;
  construct_prospective_leaf existing_leaf key value :=
    if decide (leaf_index existing_leaf = Some (leaf_index_of key)) then
      match existing_leaf with
      | LeafEmpty _ => Ok (LeafSingle key value)
      | _ =>
          if decide (value <> EMPTY_WORD) then let? r := leaf_insert existing_leaf key value in Ok (snd r)
          else match leaf_remove existing_leaf key with Some r => Ok (snd r) | None => Panic end
      end
    else Panic;
  key_to_leaf_index := leaf_index_of;
  set_root root := modify (fun t => mkSmt root (num_entries t) (leaves t) (smt_nodes t));
  insert_inner_node index inner_node :=
    let! t := gets id in
    let! empty := expect (empty_inner_node SMT_DEPTH (ni_depth index)) in
    if decide (inner_node = empty) then smt_remove_inner_node index
    else
      do! smt_set_nodes (<[index := inner_node]> (smt_nodes t));
      ret (smt_nodes t !! index);
  remove_inner_node := smt_remove_inner_node;
  insert_value key value :=
    if decide (value <> EMPTY_WORD) then perform_insert key value else perform_remove key
}.

Definition smt_new : option Smt :=
  root ← entry SMT_DEPTH 0;
  Some (mkSmt root 0 ∅ ∅).

(** The loop of [with_entries_sequential]. *)
Fixpoint insert_entries (l : list (Word * Word)) (key_set_to_zero : gset Word) : M MerkleError Smt unit :=
  match l with
  | [] => ret tt
  | (key, value) :: l =>
      let! old_value := tree_insert key value in
      if decide (old_value <> EMPTY_WORD \/ key ∈ key_set_to_zero)
      then fail (DuplicateValuesForIndex (leaf_index_of key))
      else insert_entries l (if decide (value = EMPTY_WORD) then {[ key ]} ∪ key_set_to_zero else key_set_to_zero)
  end.

Definition with_entries_sequential (l : list (Word * Word)) : res MerkleError Smt :=
  let? tree := rexpect smt_new in
  match insert_entries l ∅ tree with
  | (Ok _, t) => Ok t
  | (Err e, _) => Err e
  | (Panic, _) => Panic
  end.

(** ** Openings *)

Record SmtProof := mkSmtProof { proof_path : SparseMerklePath; proof_leaf : SmtLeaf }.

Inductive SmtProofError :=
| InvalidMerklePathLength (len : Z)
| InvalidKeyForProof
| ValueMismatch (expected actual : Word)
| ProofConflictingRoots (expected_root actual_root : Word)
| ValuePresent (key value : Word).

Definition smt_proof_new (path : SparseMerklePath) (leaf : SmtLeaf) : res SmtProofError SmtProof :=
  let depth := sp_depth path in
  if depth =? SMT_DEPTH then Ok (mkSmtProof path leaf) else Err (InvalidMerklePathLength depth).

Definition smt_open (t : Smt) (key : Word) : option SmtProof :=
  '(path, leaf) ← tree_open t key;
  Some (mkSmtProof path leaf).

(** [None] is a failing [expect]. *)
Definition proof_compute_root (p : SmtProof) : option Word :=
  index ← leaf_index (proof_leaf p);
  match sp_compute_root (proof_path p) index (leaf_hash (proof_leaf p)) with
  | Ok root => Some root
  | _ => None
  end.

Definition verify_presence (p : SmtProof) (key value root : Word) : res SmtProofError unit :=
  let? found := rexpect (leaf_get_value (proof_leaf p) key) in
  match found with
  | None => Err InvalidKeyForProof
  | Some value_in_leaf =>
      let? computed_root := rexpect (proof_compute_root p) in
      if decide (computed_root = root) then
        if decide (value_in_leaf = value) then Ok tt else Err (ValueMismatch value value_in_leaf)
      else Err (ProofConflictingRoots root computed_root)
  end.

Definition verify_unset (p : SmtProof) (key root : Word) : res SmtProofError unit :=
  verify_presence p key EMPTY_WORD root.

Definition verify_absence (p : SmtProof) (key value root : Word) : res SmtProofError unit :=
  match verify_presence p key value root with
  | Ok _ => Err (ValuePresent key value)
  | Err (ValueMismatch _ _) => Ok tt
  | Err e => Err e
  | Panic => Panic
  end.

(** ** [SimpleSmt] *)

Record SimpleSmt (depth : Z) := mkSimpleSmt {
  simple_root : Word;
  simple_nodes : InnerNodes;
  simple_leaves : gmap Z Word
}.
Arguments mkSimpleSmt {depth} simple_root simple_nodes simple_leaves.
Arguments simple_root {depth} s.
Arguments simple_nodes {depth} s.
Arguments simple_leaves {depth} s.

#[export] Instance simple_tree (depth : Z) : SparseMerkleTree (SimpleSmt depth) Z Word Word := {
  DEPTH := depth;
  EMPTY_VALUE := EMPTY_WORD;
  tree_root := simple_root;
  get_inner_node t index :=
    match simple_nodes t !! index with
    | Some node => Some node
    | None => empty_inner_node depth (ni_depth index)
    end;
  get_value t key := Some (default EMPTY_WORD (simple_leaves t !! key));
  get_leaf t key := default EMPTY_WORD (simple_leaves t !! key);
  hash_leaf leaf := leaf;
  construct_prospective_leaf _ _ value := Ok value;
  key_to_leaf_index key := key;
  set_root root := modify (fun t => mkSimpleSmt root (simple_nodes t) (simple_leaves t));
  insert_inner_node index inner_node :=
    let! t := gets id in
    do! modify (fun t => mkSimpleSmt (simple_root t) (<[index := inner_node]> (simple_nodes t)) (simple_leaves t));
    ret (simple_nodes t !! index);
  remove_inner_node index :=
    let! t := gets id in
    do! modify (fun t => mkSimpleSmt (simple_root t) (delete index (simple_nodes t)) (simple_leaves t));
    ret (simple_nodes t !! index);
  insert_value key value :=
    let! t := gets id in
    do! modify (fun t => mkSimpleSmt (simple_root t) (simple_nodes t)
          (if decide (value = EMPTY_WORD) then delete key (simple_leaves t)
           else <[key := value]> (simple_leaves t)));
    ret (simple_leaves t !! key)
}.

Definition simple_new (depth : Z) : res MerkleError (SimpleSmt depth) :=
  if depth <? SMT_MIN_DEPTH then Err (DepthTooSmall depth)
  else if SMT_MAX_DEPTH <? depth then Err (DepthTooBig depth)
  else let? root := rexpect (entry depth 0) in Ok (mkSimpleSmt root ∅ ∅).

(** [LeafIndex::new]: the position, if it fits the depth. *)
Definition leaf_index_new (depth value : Z) : res MerkleError Z :=
  if depth <? SMT_MIN_DEPTH then Err (DepthTooSmall depth)
  else let? i := node_index_new depth value in Ok (ni_position i).

(** [SimpleSmt::insert]: an error of the trait method is a failing [expect]. *)
Definition simple_insert {depth : Z} (key : Z) (value : Word) : M MerkleError (SimpleSmt depth) Word :=
  fun t => match tree_insert key value t with
           | (Err _, t') => (Panic, t')
           | r => r
           end.

(** The loop of [with_leaves]. *)
Fixpoint insert_leaves {depth : Z} (idx : Z) (l : list (Z * Word)) (key_set_to_zero : gset Z) :
    M MerkleError (SimpleSmt depth) unit :=
  match l with
  | [] => ret tt
  | (key, value) :: l =>
      let max_num_entries := 2 ^ Z.min depth 63 in
      if max_num_entries <=? idx then fail (TooManyEntries depth)
      else
        let! position := lift_res (leaf_index_new depth key) in
        let! old_value := simple_insert position value in
        if decide (old_value <> EMPTY_WORD \/ key ∈ key_set_to_zero)
        then fail (DuplicateValuesForIndex key)
        else insert_leaves (idx + 1) l
               (if decide (value = EMPTY_WORD) then {[ key ]} ∪ key_set_to_zero else key_set_to_zero)
  end.

Definition with_leaves (depth : Z) (l : list (Z * Word)) : res MerkleError (SimpleSmt depth) :=
  let? tree := simple_new depth in
  match insert_leaves 0 l ∅ tree with
  | (Ok _, t) => Ok t
  | (Err e, _) => Err e
  | (Panic, _) => Panic
  end.

Definition with_contiguous_leaves (depth : Z) (l : list Word) : res MerkleError (SimpleSmt depth) :=
  with_leaves depth (imap (fun idx word => (Z.of_nat idx, word)) l).

(** [SimpleSmt::get_node]. *)
Definition simple_get_node {depth : Z} (t : SimpleSmt depth) (index : NodeIndex) : res MerkleError Word :=
  if ni_depth index =? 0 then Err (DepthTooSmall (ni_depth index))
  else if depth <? ni_depth index then Err (DepthTooBig (ni_depth index))
  else if ni_depth index =? depth then
    let? position := leaf_index_new depth (ni_position index) in
    Ok (get_leaf t position)
  else let? node := rexpect (get_inner_node t index) in Ok (inner_hash node).

(** ** Inserting a subtree *)

Definition leaf_is_in_subtree (subtree_depth leaf_idx subtree_insertion_index : Z) : bool :=
  if subtree_depth =? SMT_MAX_DEPTH then true
  else Z.shiftr leaf_idx subtree_depth =? subtree_insertion_index.

Definition node_is_in_subtree (node_idx : NodeIndex) (subtree_root_depth subtree_insertion_index : Z) : bool :=
  if ni_depth node_idx <? subtree_root_depth then false
  else
    let depth_offset := ni_depth node_idx - subtree_root_depth in
    if depth_offset =? SMT_MAX_DEPTH then subtree_insertion_index =? 0
    else Z.shiftr (ni_position node_idx) depth_offset =? subtree_insertion_index.

(** The index in the tree of a node of the subtree. *)
Definition branch_index (subtree_root_depth subtree_insertion_index : Z) (branch_idx : NodeIndex) :
    res MerkleError NodeIndex :=
  node_index_new (subtree_root_depth + ni_depth branch_idx)
    (subtree_insertion_index * 2 ^ ni_depth branch_idx + ni_position branch_idx).

(** [for (subtree_leaf_idx, leaf_value) in subtree.leaves()]. *)
Definition add_leaves (leaf_index_shift : Z) (l : list (Z * Word)) (ls : gmap Z Word) : gmap Z Word :=
  foldl (fun ls '(idx, value) => <[leaf_index_shift + idx := value]> ls) ls l.

(** [for (branch_idx, branch_node) in subtree.inner_nodes]. *)
Definition add_branches (subtree_root_depth subtree_insertion_index : Z) (l : list (NodeIndex * InnerNode))
    (ns : InnerNodes) : res MerkleError InnerNodes :=
  rfold (fun ns '(idx, node) =>
           match branch_index subtree_root_depth subtree_insertion_index idx with
           | Ok new_idx => Ok (<[new_idx := node]> ns)
           | _ => Panic
           end) ns l.

Definition set_subtree `{MapOrder} {depth subtree_depth : Z} (subtree_insertion_index : Z)
    (subtree : SimpleSmt subtree_depth) : M MerkleError (SimpleSmt depth) Word :=
  if depth <? subtree_depth then fail (SubtreeDepthExceedsDepth subtree_depth depth)
  else
    let subtree_root_depth := depth - subtree_depth in
    let! subtree_root_index := lift_res (node_index_new subtree_root_depth subtree_insertion_index) in
    let leaf_index_shift :=
      if subtree_depth =? SMT_MAX_DEPTH then 0 else Z.shiftl subtree_insertion_index subtree_depth in
    let! t := gets id in
    let ls := filter (fun e => leaf_is_in_subtree subtree_depth (fst e) subtree_insertion_index = false)
                (simple_leaves t) in
    let ns := filter (fun e => node_is_in_subtree (fst e) subtree_root_depth subtree_insertion_index = false)
                (simple_nodes t) in
    let ls := add_leaves leaf_index_shift (map_entries (simple_leaves subtree)) ls in
    let! ns := lift_res (add_branches subtree_root_depth subtree_insertion_index
                           (map_entries (simple_nodes subtree)) ns) in
    do! modify (fun t => mkSimpleSmt (simple_root t) ns ls);
    do! recompute_nodes_from_index_to_root subtree_root_index (simple_root subtree);
    gets simple_root.

End Smt.

Arguments mkSimpleSmt {depth} simple_root simple_nodes simple_leaves.
Arguments simple_root {depth} s.
Arguments simple_nodes {depth} s.
Arguments simple_leaves {depth} s.
