(* ===== verification/TreeTheory.v ===== *)
(** * Sparse Merkle trees: the theory of the traits

    What an implementation of the traits promises ([SparseTreeLaws]), and what the
    provided methods then do.  The specification of a tree is the hash of a full
    binary tree over its leaf hashes ([subtree]); a tree is sound ([tree_ok]) when
    its root and all its inner nodes, stored or not, are those of the
    specification.

    An inner node is dropped when its hash is the root of an empty subtree.  No
    hash function excludes that a subtree with other children has this hash, so
    the theorems ask of the trees at hand that it does not happen in them
    ([clean]). *)

From S2P Require Import Prelude Felt AceCircuit Machine Merkle MerkleTheory SparsePath SparseTree.

(** ** Positions *)

Lemma shiftr1 q : Z.shiftr q 1 = q / 2.
Proof. by rewrite Z.shiftr_div_pow2. Qed.

Lemma odd_half q : q = 2 * (q / 2) + Z.b2z (Z.odd q).
Proof. pose proof (Z.div_mod q 2). rewrite Zmod_odd in *. destruct (Z.odd q); cbn [Z.b2z]; lia. Qed.

Lemma lxor_low a b : Z.lxor (2 * a + Z.b2z b) 1 = 2 * a + Z.b2z (negb b).
Proof.
  apply Z.bits_inj'. intros i Hi. rewrite Z.lxor_spec. change 1 with (2 * 0 + Z.b2z true).
  destruct (Z.eq_dec i 0) as [->|Hn].
  - rewrite !Z.testbit_0_r. by destruct b.
  - replace i with (Z.succ (i - 1)) by lia. by rewrite !Z.testbit_succ_r, Z.bits_0, xorb_false_r by lia.
Qed.

Lemma lxor_1 q : Z.lxor q 1 = 2 * (q / 2) + Z.b2z (negb (Z.odd q)).
Proof. rewrite (odd_half q) at 1. apply lxor_low. Qed.

Lemma is_odd i : is_position_odd i = Z.odd (ni_position i).
Proof. unfold is_position_odd. apply land_1_odd. Qed.

Section Spec.
Context `{Poseidon2}.

(** ** The full tree over leaf hashes *)

Fixpoint subtree (lh : Z -> Word) (h : nat) (p : Z) : Word :=
  match h with
  | O => lh p
  | S h => merge (subtree lh h (2 * p)) (subtree lh h (2 * p + 1))
  end.

(** The children, of height [h], of the node at position [p]. *)
Definition children_at (lh : Z -> Word) (h : nat) (p : Z) : InnerNode :=
  mkInnerNode (subtree lh h (2 * p)) (subtree lh h (2 * p + 1)).

Definition empty_children (h : nat) : InnerNode := mkInnerNode (empty_root h) (empty_root h).

Lemma subtree_ext lh lh' h p :
  (forall q, p * 2 ^ Z.of_nat h <= q < (p + 1) * 2 ^ Z.of_nat h -> lh q = lh' q) ->
  subtree lh h p = subtree lh' h p.
Proof.
  revert p. induction h as [|h IH]; intros p Hq; cbn [subtree].
  - apply Hq. rewrite Z.pow_0_r. lia.
  - rewrite Nat2Z.inj_succ, Z.pow_succ_r in Hq by lia.
    f_equal; apply IH; intros q Hb; apply Hq; lia.
Qed.

(** The leaves differ only below the ancestor of [p] at height [m]. *)
Definition changed_below (m : nat) (p : Z) (lh lh' : Z -> Word) : Prop :=
  forall i, i / 2 ^ Z.of_nat m <> p / 2 ^ Z.of_nat m -> lh' i = lh i.

Lemma changed_at p lh lh' : (forall i, i <> p -> lh' i = lh i) -> changed_below 0 p lh lh'.
Proof. intros Hl i. rewrite !Z.div_1_r. apply Hl. Qed.

(** Such a change is seen only from the ancestors of [p]. *)
Lemma subtree_off m lh lh' h p q : (m <= h)%nat -> q <> p / 2 ^ Z.of_nat h ->
  changed_below m p lh lh' -> subtree lh' h q = subtree lh h q.
Proof.
  intros Hm Hq Hl. apply subtree_ext. intros i Hi. apply Hl. intros Heq. apply Hq.
  transitivity (i / 2 ^ Z.of_nat h); [apply (Z.div_unique _ _ _ (i - q * 2 ^ Z.of_nat h)); nia|].
  replace (Z.of_nat h) with (Z.of_nat m + Z.of_nat (h - m)) by lia.
  by rewrite Z.pow_add_r, <- !Z.div_div, Heq by lia.
Qed.

Lemma subtree_empty lh h p :
  (forall q, p * 2 ^ Z.of_nat h <= q < (p + 1) * 2 ^ Z.of_nat h -> lh q = EMPTY_WORD) ->
  subtree lh h p = empty_root h.
Proof.
  revert p. induction h as [|h IH]; intros p Hq; cbn [subtree empty_root].
  - apply Hq. rewrite Z.pow_0_r. lia.
  - rewrite Nat2Z.inj_succ, Z.pow_succ_r in Hq by lia.
    rewrite !IH; [done|..]; intros q Hb; apply Hq; lia.
Qed.

(** A function from indices to nodes is that of the full tree of depth [D]. *)
Definition describes (D : nat) (g : NodeIndex -> option InnerNode) (lh : Z -> Word) : Prop :=
  forall d p, (d < D)%nat -> 0 <= p < 2 ^ Z.of_nat d ->
    g (mkNodeIndex (Z.of_nat d) p) = Some (children_at lh (D - S d) p).

(** Only subtrees with empty children hash to the root of an empty subtree. *)
Definition clean (D : nat) (lh : Z -> Word) : Prop :=
  forall d p, (d < D)%nat -> 0 <= p < 2 ^ Z.of_nat d ->
    inner_hash (children_at lh (D - S d) p) = empty_root (D - d) ->
    children_at lh (D - S d) p = empty_children (D - S d).

Lemma empty_inner_node_spec D d : (d < D <= 64)%nat ->
  empty_inner_node (Z.of_nat D) (Z.of_nat d) = Some (empty_children (D - S d)).
Proof.
  intros Hd. unfold empty_inner_node. rewrite entry_spec by lia. cbn [mbind option_bind].
  by replace (Z.to_nat (Z.of_nat D - (Z.of_nat d + 1))) with (D - S d)%nat by lia.
Qed.

Lemma empty_entry_spec D d : (d <= D <= 64)%nat ->
  entry (Z.of_nat D) (Z.of_nat d) = Some (empty_root (D - d)).
Proof. intros Hd. rewrite entry_spec by lia. do 2 f_equal. lia. Qed.

(** The siblings on the way from the leaf at [p] upwards, from height [h]. *)
Fixpoint siblings (lh : Z -> Word) (h n : nat) (p : Z) : list Word :=
  match n with
  | O => []
  | S n => subtree lh h (Z.lxor p 1) :: siblings lh (S h) n (p / 2)
  end.

Lemma siblings_length lh h n p : length (siblings lh h n p) = n.
Proof. revert h p. induction n as [|n IH]; intros h p; [done|]. cbn. by rewrite IH. Qed.

Lemma parent_subtree lh h p :
  parent (Z.odd p) (subtree lh h p) (subtree lh h (Z.lxor p 1)) = subtree lh (S h) (p / 2).
Proof.
  cbn [subtree]. unfold parent, children. rewrite lxor_1. pose proof (odd_half p) as Hp.
  destruct (Z.odd p); cbn [negb Z.b2z] in *; f_equal; f_equal; lia.
Qed.

(** Hashing a leaf upwards along its siblings gives the root. *)
Lemma path_root_subtree lh h n p :
  path_root p (subtree lh h p) (siblings lh h n p) = subtree lh (h + n) (p / 2 ^ Z.of_nat n).
Proof.
  revert h p. induction n as [|n IH]; intros h p; cbn [siblings path_root].
  - by rewrite Z.div_1_r, Nat.add_0_r.
  - rewrite parent_subtree, shiftr1, IH, Z.div_div by lia. f_equal; [lia|].
    by rewrite Nat2Z.inj_succ, Z.pow_succ_r by lia.
Qed.

End Spec.

(** ** What implementations promise *)

Class TreeModel (T K V L : Type) := {
  (** the keys the tree accepts *)
  key_ok : K -> Prop;
  (** the representation invariant *)
  tree_valid : T -> Prop;
  (** the leaf at a position *)
  leaf_at : T -> Z -> L
}.

Section Laws.
Context `{Poseidon2} {T K V L : Type} `{EqDecision V} `{Countable K}.
Context `{!SparseMerkleTree T K V L} `{!TreeModel T K V L}.

(** The value of a key, where [get_value] does not panic. *)
Definition val (t : T) (k : K) : V := default EMPTY_VALUE (get_value t k).

Definition index_ok (i : NodeIndex) : Prop :=
  0 <= ni_depth i < DEPTH /\ 0 <= ni_position i < 2 ^ ni_depth i.

Definition same_leaves (t t' : T) : Prop :=
  (forall k, val t' k = val t k) /\ forall i, leaf_at t' i = leaf_at t i.

(** What is stored at an index, given that no empty node is. *)
Definition stored (t : T) (i : NodeIndex) (empty : InnerNode) : option InnerNode :=
  if decide (get_inner_node t i = Some empty) then None else get_inner_node t i.

(** [t'] is [t] with the node at [i] set. *)
Definition node_set (t t' : T) (i : NodeIndex) (node : InnerNode) : Prop :=
  tree_root t' = tree_root t /\ same_leaves t t' /\ (tree_valid t -> tree_valid t') /\
  forall j, get_inner_node t' j = if decide (j = i) then Some node else get_inner_node t j.

(** [t'] is [t] with the value of [k] set. *)
Record value_set (t t' : T) (k : K) (v : V) : Prop := mkValueSet {
  vs_valid : tree_valid t';
  vs_root : tree_root t' = tree_root t;
  vs_nodes i : get_inner_node t' i = get_inner_node t i;
  vs_value k' : key_ok k' -> val t' k' = if decide (k' = k) then v else val t k';
  vs_leaf i : i <> key_to_leaf_index k -> leaf_at t' i = leaf_at t i;
  vs_same : v = val t k -> t' = t
}.

Class SparseTreeLaws (fits : gset K -> Prop) : Prop := {
  depth_range : 1 <= DEPTH <= 64;
  key_range k : key_ok k -> 0 <= key_to_leaf_index k < 2 ^ DEPTH;
  get_leaf_at t k : get_leaf t k = leaf_at t (key_to_leaf_index k);
  get_inner_node_total t i : index_ok i -> is_Some (get_inner_node t i);
  get_value_val t k : tree_valid t -> key_ok k -> get_value t k = Some (val t k);
  set_root_spec t r : exists t', set_root r t = (Ok tt, t') /\ tree_root t' = r /\ same_leaves t t' /\
    (tree_valid t -> tree_valid t') /\ forall i, get_inner_node t' i = get_inner_node t i;
  insert_inner_node_spec t i node empty :
    index_ok i -> empty_inner_node DEPTH (ni_depth i) = Some empty -> node <> empty -> tree_valid t ->
    exists t', insert_inner_node i node t = (Ok (stored t i empty), t') /\ node_set t t' i node;
  remove_inner_node_spec t i empty :
    index_ok i -> empty_inner_node DEPTH (ni_depth i) = Some empty -> tree_valid t ->
    exists t', remove_inner_node i t = (Ok (stored t i empty), t') /\ node_set t t' i empty;
  insert_value_spec t k v : tree_valid t -> key_ok k ->
    match insert_value k v t with
    | (Ok old, t') => default EMPTY_VALUE old = val t k /\ value_set t t' k v
    | (Err e, t') => t' = t /\ exists n, e = TooManyLeafEntries n
    | (Panic, _) => False
    end;
  (** an insertion succeeds if the keys in use and the key fit *)
  insert_value_fits S t k v : tree_valid t -> key_ok k -> fits S -> k ∈ S ->
    (forall k', key_ok k' -> val t k' <> EMPTY_VALUE -> k' ∈ S) ->
    exists old t', insert_value k v t = (Ok old, t');
  prospective_spec t k v : tree_valid t -> key_ok k -> v <> val t k ->
    construct_prospective_leaf (get_leaf t k) k v =
      match insert_value k v t with
      | (Ok _, t') => Ok (get_leaf t' k)
      | (Err (TooManyLeafEntries n), _) => Err (LeafTooManyEntries n)
      | _ => Panic
      end;
  (** leaves and trees are determined by what they hold *)
  leaf_ext t t' i : tree_valid t -> tree_valid t' ->
    (forall k, key_ok k -> key_to_leaf_index k = i -> val t k = val t' k) -> leaf_at t i = leaf_at t' i;
  tree_ext t t' : tree_valid t -> tree_valid t' -> tree_root t = tree_root t' ->
    (forall i, index_ok i -> get_inner_node t i = get_inner_node t' i) ->
    (forall k, key_ok k -> val t k = val t' k) -> t = t'
}.

End Laws.

(** ** The provided methods *)

Section Theory.
Context `{Poseidon2} {T K V L : Type} `{EqDecision V} `{Countable K}.
Context `{!SparseMerkleTree T K V L} `{!TreeModel T K V L} {fits : gset K -> Prop} `{!SparseTreeLaws fits}.
Implicit Types (t u : T) (k : K) (v : V).

Definition levels : nat := Z.to_nat (DEPTH (T:=T)).

Lemma depth_levels : DEPTH (T:=T) = Z.of_nat levels.
Proof. unfold levels. pose proof depth_range. lia. Qed.

Lemma levels_range : (1 <= levels <= 64)%nat.
Proof. unfold levels. pose proof depth_range. lia. Qed.

Definition lh t (i : Z) : Word := hash_leaf (leaf_at t i).

(** The root and the inner nodes are those of the full tree over the leaves. *)
Record tree_ok t : Prop := mkTreeOk {
  ok_valid : tree_valid t;
  ok_nodes : describes levels (get_inner_node t) (lh t);
  ok_root : tree_root t = subtree (lh t) levels 0
}.

Definition tree_clean t : Prop := clean levels (lh t).

Lemma index_ok_of d p : (d < levels)%nat -> 0 <= p < 2 ^ Z.of_nat d ->
  index_ok (T:=T) (mkNodeIndex (Z.of_nat d) p).
Proof. intros Hd Hp. split; cbn; rewrite ?depth_levels; lia. Qed.

(** Replacing the node at an index by the one of the full tree, whether it is
    stored or dropped. *)
Lemma put_node t d p lh1 node : tree_valid t -> clean levels lh1 ->
  (d < levels)%nat -> 0 <= p < 2 ^ Z.of_nat d -> node = children_at lh1 (levels - S d) p ->
  exists o t',
    (if decide (inner_hash node = empty_root (levels - d)) then remove_inner_node (mkNodeIndex (Z.of_nat d) p)
     else insert_inner_node (mkNodeIndex (Z.of_nat d) p) node) t = (Ok o, t') /\
    node_set t t' (mkNodeIndex (Z.of_nat d) p) node.
Proof.
  intros Hv Hc Hd Hp ->. pose proof levels_range.
  pose proof (empty_inner_node_spec levels d) as He. rewrite <- depth_levels in He.
  case_decide as Hh.
  - destruct (remove_inner_node_spec t (mkNodeIndex (Z.of_nat d) p) (empty_children (levels - S d)))
      as (t' & Ht & Hs); [by apply index_ok_of|by apply He; lia|done|].
    rewrite (Hc d p Hd Hp Hh). eauto.
  - destruct (insert_inner_node_spec t (mkNodeIndex (Z.of_nat d) p) (children_at lh1 (levels - S d) p)
      (empty_children (levels - S d))) as (t' & Ht & Hs);
      [by apply index_ok_of|by apply He; lia| |done|eauto].
    intros Heq. apply Hh. rewrite Heq. unfold inner_hash, empty_children. cbn [n_left n_right].
    by replace (levels - d)%nat with (S (levels - S d)) by lia.
Qed.

Lemma same_leaves_trans t1 t2 t3 : same_leaves t1 t2 -> same_leaves t2 t3 -> same_leaves t1 t3.
Proof. intros [H1 H2] [H3 H4]. split; intros; [by rewrite H3|by rewrite H4]. Qed.

(** The children of the parent of a node, one of which has changed. *)
Lemma children_step m lh0 lh1 p h q : (m <= h)%nat -> q = p / 2 ^ Z.of_nat h ->
  changed_below m p lh0 lh1 ->
  (if Z.odd q then mkInnerNode (n_left (children_at lh0 h (q / 2))) (subtree lh1 h q)
   else mkInnerNode (subtree lh1 h q) (n_right (children_at lh0 h (q / 2)))) = children_at lh1 h (q / 2).
Proof.
  intros Hm Hq Hl. pose proof (odd_half q) as Ho. unfold children_at. cbn [n_left n_right].
  destruct (Z.odd q); cbn [Z.b2z] in Ho.
  - rewrite (subtree_off m lh0 lh1 h p (2 * (q / 2))) by (done || lia). by rewrite <- Ho.
  - rewrite (subtree_off m lh0 lh1 h p (2 * (q / 2) + 1)) by (done || lia).
    rewrite Z.add_0_r in Ho. by rewrite <- Ho.
Qed.

(** The ancestor of [p] at depth [d]. *)
Definition ancestor (p : Z) (d : nat) : Z := p / 2 ^ Z.of_nat (levels - d).

Lemma ancestor_up p d : (d < levels)%nat -> ancestor p (S d) / 2 = ancestor p d.
Proof.
  intros Hd. unfold ancestor. rewrite Z.div_div by lia. f_equal.
  replace (levels - d)%nat with (S (levels - S d)) by lia. rewrite Nat2Z.inj_succ, Z.pow_succ_r by lia. lia.
Qed.

Lemma ancestor_range p d : 0 <= p < 2 ^ Z.of_nat levels -> (d <= levels)%nat ->
  0 <= ancestor p d < 2 ^ Z.of_nat d.
Proof.
  intros Hp Hd. unfold ancestor. split; [apply Z.div_pos; lia|]. apply Z.div_lt_upper_bound; [lia|].
  rewrite <- Z.pow_add_r by lia. replace (Z.of_nat (levels - d) + Z.of_nat d) with (Z.of_nat levels) by lia. lia.
Qed.

Lemma ancestor_root p : 0 <= p < 2 ^ Z.of_nat levels -> ancestor p 0 = 0.
Proof. intros Hp. unfold ancestor. rewrite Nat.sub_0_r. by apply Z.div_small. Qed.

Lemma ancestor_leaf p : ancestor p levels = p.
Proof. unfold ancestor. by rewrite Nat.sub_diag, Z.div_1_r. Qed.

(** The nodes from depth [d] on are up to date. *)
Definition updated (lh0 lh1 : Z -> Word) (d : nat) (g : NodeIndex -> option InnerNode) : Prop :=
  forall e r, (e < levels)%nat -> 0 <= r < 2 ^ Z.of_nat e ->
    g (mkNodeIndex (Z.of_nat e) r) =
      Some (children_at (if decide (d <= e)%nat then lh1 else lh0) (levels - S e) r).

Lemma updated_start lh0 lh1 g : describes levels g lh0 -> updated lh0 lh1 levels g.
Proof. intros Hg e r He Hr. rewrite decide_False by lia. by apply Hg. Qed.

Lemma updated_end lh0 lh1 g : updated lh0 lh1 0 g -> describes levels g lh1.
Proof. intros Hg e r He Hr. rewrite Hg by done. by rewrite decide_True by lia. Qed.

(** Off the path, the old and the new nodes are the same. *)
Lemma updated_step m lh0 lh1 p d g g' : changed_below m p lh0 lh1 -> (d < levels)%nat -> (m <= levels - S d)%nat ->
  updated lh0 lh1 (S d) g ->
  (forall j, g' j = if decide (j = mkNodeIndex (Z.of_nat d) (ancestor p d))
             then Some (children_at lh1 (levels - S d) (ancestor p d)) else g j) ->
  updated lh0 lh1 d g'.
Proof.
  intros Hl Hd Hm Hg Hg' e r He Hr. rewrite Hg'. case_decide as Hj.
  - injection Hj as Hed ->. apply Nat2Z.inj in Hed as ->. by rewrite decide_True.
  - rewrite Hg by done. destruct (decide (d = e)) as [->|]; [|by repeat case_decide; done || lia].
    rewrite decide_False, decide_True by lia. assert (r <> ancestor p e) by (by intros ->).
    rewrite <- ancestor_up in * by done. set (q := ancestor p (S e)) in *.
    pose proof (odd_half q) as Hq. unfold children_at. do 2 f_equal; symmetry;
      (apply (subtree_off m lh0 lh1 _ p); [done| |done]);
      change (p / 2 ^ Z.of_nat (levels - S e)) with q; (destruct (Z.odd q); cbn [Z.b2z] in Hq; lia).
Qed.

(** Recomputing the nodes above a subtree that has changed. *)
Lemma recompute_nodes_ok m lh0 lh1 p d t : clean levels lh1 -> tree_valid t ->
  0 <= p < 2 ^ Z.of_nat levels -> changed_below m p lh0 lh1 -> (d <= levels)%nat -> (m <= levels - d)%nat ->
  updated lh0 lh1 d (get_inner_node t) ->
  exists t', recompute_nodes d (mkNodeIndex (Z.of_nat d) (ancestor p d))
               (subtree lh1 (levels - d) (ancestor p d)) t = (Ok (subtree lh1 levels 0), t') /\
    tree_valid t' /\ describes levels (get_inner_node t') lh1 /\ same_leaves t t'.
Proof.
  intros Hc Hv Hp Hl. revert t Hv. induction d as [|d IH]; intros t Hv Hd Hm Hn.
  { exists t. cbn [recompute_nodes]. rewrite Nat.sub_0_r, ancestor_root by done.
    split_and!; [done|done|by eapply updated_end|done]. }
  pose proof levels_range. cbn [recompute_nodes]. rewrite is_odd. unfold move_up. cbn [ni_depth ni_position].
  rewrite shiftr1, ancestor_up by lia. replace (Z.max 0 (Z.of_nat (S d) - 1)) with (Z.of_nat d) by lia.
  pose proof (ancestor_range p d Hp ltac:(lia)) as Hr.
  rewrite bind_gets. cbn [id]. rewrite Hn by lia. rewrite decide_False by lia. cbn [expect].
  rewrite bind_ret_l, depth_levels, empty_entry_spec by lia. cbn [expect].
  pose proof (children_step m lh0 lh1 p (levels - S d) (ancestor p (S d)) ltac:(lia) eq_refl Hl) as Hch.
  rewrite ancestor_up in Hch by lia. set (c := children_at lh1 (levels - S d) (ancestor p d)) in *.
  match goal with |- context [match ?x with (l, r) => _ end] => assert (x = (n_left c, n_right c)) as -> end.
  { rewrite <- Hch. by destruct (Z.odd _). }
  rewrite bind_ret_l.
  destruct (put_node t d (ancestor p d) lh1 c Hv Hc) as (o & t' & Ht & _ & Hsame & Hval & Hnode); [lia|done|done|].
  erewrite bind_Ok by exact Ht. specialize (Hval Hv).
  destruct (IH t' Hval) as (t'' & Hrec & Hv' & Hdesc & Hsame'); [lia|lia|by eapply updated_step; eauto; lia|].
  exists t''. replace (levels - d)%nat with (S (levels - S d)) in Hrec by lia.
  split_and!; [exact Hrec|done|done|by eapply same_leaves_trans].
Qed.

(** Recomputation returns, whatever the hashes. *)
Lemma recompute_nodes_total p d h t : tree_valid t -> 0 <= p < 2 ^ Z.of_nat levels -> (d <= levels)%nat ->
  exists h' t', recompute_nodes d (mkNodeIndex (Z.of_nat d) (ancestor p d)) h t = (Ok h', t') /\
    tree_valid t' /\ same_leaves t t'.
Proof.
  intros Hv Hp. revert h t Hv. induction d as [|d IH]; intros h t Hv Hd; [by exists h, t|].
  pose proof levels_range. cbn [recompute_nodes]. rewrite is_odd. unfold move_up. cbn [ni_depth ni_position].
  rewrite shiftr1, ancestor_up by lia. replace (Z.max 0 (Z.of_nat (S d) - 1)) with (Z.of_nat d) by lia.
  pose proof (index_ok_of d (ancestor p d) ltac:(lia) (ancestor_range p d Hp ltac:(lia))) as Hi.
  destruct (get_inner_node_total t _ Hi) as [node Hn]. rewrite bind_gets. cbn [id]. rewrite Hn. cbn [expect].
  rewrite bind_ret_l, depth_levels, empty_entry_spec by lia. cbn [expect].
  destruct (if Z.odd _ then _ else _) as [l r]. rewrite bind_ret_l.
  pose proof (empty_inner_node_spec levels d ltac:(lia)) as He. rewrite <- depth_levels in He.
  assert (exists o t', (if decide (merge l r = empty_root (levels - d))
      then remove_inner_node (mkNodeIndex (Z.of_nat d) (ancestor p d))
      else insert_inner_node (mkNodeIndex (Z.of_nat d) (ancestor p d)) (mkInnerNode l r)) t = (Ok o, t') /\
    tree_valid t' /\ same_leaves t t') as (o & t' & Ht & Hv' & Hsame).
  { case_decide as Hh.
    - destruct (remove_inner_node_spec t _ _ Hi He Hv) as (t' & Ht & _ & Hs & Hval & _). eauto 6.
    - destruct (insert_inner_node_spec t _ (mkInnerNode l r) _ Hi He) as (t' & Ht & _ & Hs & Hval & _); eauto 6.
      intros [= -> ->]. apply Hh. by replace (levels - d)%nat with (S (levels - S d)) by lia. }
  erewrite bind_Ok by exact Ht. destruct (IH (merge l r) t' Hv') as (h' & t'' & Hr & Hv'' & Hs'); [lia|].
  exists h', t''. split_and!; [done|done|by eapply same_leaves_trans].
Qed.

Lemma leaf_node_ancestor k : leaf_node k = mkNodeIndex (Z.of_nat levels) (ancestor (key_to_leaf_index k) levels).
Proof. unfold leaf_node. by rewrite ancestor_leaf, depth_levels. Qed.

Lemma key_position k : key_ok k -> 0 <= key_to_leaf_index k < 2 ^ Z.of_nat levels.
Proof. intros Hk. rewrite <- depth_levels. by apply key_range. Qed.

Lemma recompute_from_leaf t k h : tree_valid t -> key_ok k ->
  exists t', recompute_nodes_from_index_to_root (leaf_node k) h t = (Ok tt, t') /\ tree_valid t' /\ same_leaves t t' /\
    forall lh0 lh1, h = lh1 (key_to_leaf_index k) -> clean levels lh1 ->
      (forall i, i <> key_to_leaf_index k -> lh1 i = lh0 i) -> describes levels (get_inner_node t) lh0 ->
      describes levels (get_inner_node t') lh1 /\ tree_root t' = subtree lh1 levels 0.
Proof.
  intros Hv Hk. pose proof (key_position k Hk) as Hp. unfold recompute_nodes_from_index_to_root.
  rewrite leaf_node_ancestor. cbn [ni_depth]. rewrite Nat2Z.id.
  destruct (recompute_nodes_total (key_to_leaf_index k) levels h t Hv Hp) as (h' & t1 & Hr & Hv1 & Hs1); [lia|].
  destruct (set_root_spec t1 h') as (t2 & Ht2 & Hroot & Hs2 & Hv2 & Hn2). exists t2.
  erewrite bind_Ok by exact Hr. split; [done|]. split; [auto|]. split; [by eapply same_leaves_trans|].
  intros lh0 lh1 -> Hc Hl Hd.
  destruct (recompute_nodes_ok 0 lh0 lh1 (key_to_leaf_index k) levels t Hc Hv Hp (changed_at _ _ _ Hl))
    as (t1' & Hr' & _ & Hd' & _); [lia|lia|by apply updated_start|].
  rewrite Nat.sub_diag, ancestor_leaf in *. cbn [subtree] in Hr'. rewrite Hr in Hr'. injection Hr' as -> ->.
  split; [|done]. intros e r He Hr'. rewrite Hn2. by apply Hd'.
Qed.

(** ** Insertion *)

(** What insertion of a pair does to a tree. *)
Record inserted t t' k v : Prop := mkInserted {
  ins_valid : tree_valid t';
  ins_value k' : key_ok k' -> val t' k' = if decide (k' = k) then v else val t k';
  ins_ok : tree_ok t -> tree_clean t' -> tree_ok t';
  ins_same : v = val t k -> t' = t
}.

Lemma lh_same t t' : same_leaves t t' -> forall i, lh t' i = lh t i.
Proof. intros [_ Hl] i. unfold lh. by rewrite Hl. Qed.

Lemma clean_same lh0 lh1 : (forall i, lh1 i = lh0 i) -> clean levels lh0 -> clean levels lh1.
Proof.
  intros He Hc d p Hd Hp. assert (forall h q, subtree lh1 h q = subtree lh0 h q) as Hs
    by (intros; by apply subtree_ext). unfold children_at. rewrite !Hs. by apply Hc.
Qed.

Lemma describes_same g lh0 lh1 : (forall i, lh1 i = lh0 i) -> describes levels g lh0 -> describes levels g lh1.
Proof.
  intros He Hd d p Hdl Hp. assert (forall h q, subtree lh1 h q = subtree lh0 h q) as Hs
    by (intros; by apply subtree_ext). unfold children_at. rewrite !Hs. by apply Hd.
Qed.

Lemma tree_insert_spec t k v : tree_valid t -> key_ok k ->
  match tree_insert k v t with
  | (Ok old, t') => old = val t k /\ inserted t t' k v
  | (Err e, t') => t' = t /\ exists n, e = TooManyLeafEntries n
  | (Panic, _) => False
  end.
Proof.
  intros Hv Hk. pose proof (insert_value_spec t k v Hv Hk) as Hi. unfold tree_insert, bind at 1.
  destruct (insert_value k v t) as [[old|e|] t1]; [|done..]. destruct Hi as [Hold Hs].
  rewrite Hold. case_decide as Hsame.
  { cbn. split; [done|]. rewrite (vs_same _ _ _ _ Hs) by done. split; [done| |done|done].
    intros k' _. by case_decide; subst. }
  rewrite bind_gets. cbn [id]. cbv zeta. rewrite get_leaf_at.
  destruct (recompute_from_leaf t1 k (hash_leaf (leaf_at t1 (key_to_leaf_index k))) (vs_valid _ _ _ _ Hs) Hk)
    as (t2 & Ht2 & Hv2 & Hs2 & Hrec).
  erewrite bind_Ok by exact Ht2. cbn. split; [done|]. split; [done| | |done].
  - intros k' Hk'. rewrite (proj1 Hs2). by apply (vs_value _ _ _ _ Hs).
  - intros Hok Hc. destruct (Hrec (lh t) (lh t2)) as [Hd Hr].
    + by rewrite (lh_same _ _ Hs2).
    + done.
    + intros i Hne. rewrite (lh_same _ _ Hs2). unfold lh. by rewrite (vs_leaf _ _ _ _ Hs).
    + intros d p Hdl Hp. rewrite (vs_nodes _ _ _ _ Hs). by apply (ok_nodes _ Hok).
    + by split.
Qed.

(** The root is the hash of the topmost node. *)
Lemma root_node t : tree_ok t ->
  exists node, get_inner_node t (mkNodeIndex 0 0) = Some node /\ tree_root t = inner_hash node.
Proof.
  intros Hok. pose proof levels_range as Hlev. pose proof (ok_nodes _ Hok 0%nat 0 ltac:(lia) ltac:(done)) as Hn.
  eexists. split; [exact Hn|]. rewrite (ok_root _ Hok). destruct levels as [|h]; [lia|].
  unfold inner_hash, children_at. cbn [subtree n_left n_right]. by rewrite Nat.sub_1_r.
Qed.

(** ** Openings *)

Lemma get_node_hash_spec t d p : tree_ok t -> (1 <= d <= levels)%nat -> 0 <= p < 2 ^ Z.of_nat d ->
  get_node_hash t (mkNodeIndex (Z.of_nat d) p) = Some (subtree (lh t) (levels - d) p).
Proof.
  intros Hok Hd Hp. unfold get_node_hash. cbn [ni_depth]. destruct (Z.eqb_spec (Z.of_nat d) 0); [lia|].
  rewrite is_odd. unfold move_up. cbn [ni_depth ni_position]. rewrite shiftr1. destruct d as [|d]; [lia|].
  replace (Z.max 0 (Z.of_nat (S d) - 1)) with (Z.of_nat d) by lia.
  rewrite Nat2Z.inj_succ, Z.pow_succ_r in Hp by lia. pose proof (odd_half p) as Ho.
  rewrite (ok_nodes _ Hok d (p / 2)); [|lia|destruct (Z.odd p); cbn [Z.b2z] in Ho; lia].
  cbn [mbind option_bind children_at n_left n_right]. destruct (Z.odd p); cbn [Z.b2z] in Ho; f_equal; f_equal; lia.
Qed.

Lemma lxor_1_range p d : 0 <= p < 2 ^ Z.of_nat (S d) -> 0 <= Z.lxor p 1 < 2 ^ Z.of_nat (S d).
Proof.
  rewrite Nat2Z.inj_succ, Z.pow_succ_r, lxor_1 by lia. pose proof (odd_half p) as Ho. intros Hp.
  destruct (Z.odd p); cbn [negb Z.b2z] in *; lia.
Qed.

Lemma lxor_1_half p : Z.lxor p 1 / 2 = p / 2.
Proof. rewrite lxor_1. symmetry. apply (Z.div_unique _ _ _ (Z.b2z (negb (Z.odd p)))); [|lia]. destruct (Z.odd p); cbn; lia. Qed.

Lemma path_nodes t d p : tree_ok t -> (d <= levels)%nat -> 0 <= p < 2 ^ Z.of_nat d ->
  mapM (get_node_hash t) (proof_iter d (sibling (mkNodeIndex (Z.of_nat d) p))) =
    Some (siblings (lh t) (levels - d) d p).
Proof.
  intros Hok. revert p. induction d as [|d IH]; intros p Hd Hp; [done|].
  change (sibling (mkNodeIndex (Z.of_nat (S d)) p)) with (mkNodeIndex (Z.of_nat (S d)) (Z.lxor p 1)).
  cbn [proof_iter mapM].
  rewrite (get_node_hash_spec t (S d)) by (done || lia || by apply lxor_1_range).
  cbn [mbind option_bind]. unfold move_up. cbn [ni_depth ni_position].
  rewrite shiftr1, lxor_1_half. replace (Z.max 0 (Z.of_nat (S d) - 1)) with (Z.of_nat d) by lia.
  rewrite Nat2Z.inj_succ, Z.pow_succ_r in Hp by lia. rewrite IH; [|lia|].
  - cbn [mbind option_bind siblings]. by replace (levels - d)%nat with (S (levels - S d)) by lia.
  - pose proof (odd_half p). destruct (Z.odd p); cbn [Z.b2z] in *; lia.
Qed.

(** The opening of a key: the siblings of its leaf, in sparse form, which hash to
    the root. *)
Lemma tree_open_spec t k : tree_ok t -> key_ok k ->
  let p := key_to_leaf_index k in
  tree_open t k = Some (sparse (siblings (lh t) 0 levels p), leaf_at t p) /\
  path_root p (lh t p) (siblings (lh t) 0 levels p) = tree_root t.
Proof.
  intros Hok Hk p. pose proof (key_position k Hk) as Hp. fold p in Hp. pose proof levels_range. split.
  - unfold tree_open, tree_path, leaf_node, proof_indices. fold p. cbn [ni_depth].
    rewrite depth_levels, Nat2Z.id, path_nodes by (done || lia). cbn [mbind option_bind].
    rewrite Nat.sub_diag, from_sized_iter_spec by (rewrite siblings_length; lia).
    cbn [mbind option_bind]. by rewrite get_leaf_at.
  - change (lh t p) with (subtree (lh t) 0 p). rewrite path_root_subtree, (ok_root _ Hok).
    by rewrite Z.div_small.
Qed.

End Theory.
