(* ===== verification/TreeMutations.v ===== *)
(** * Sparse Merkle trees: prospective mutations

    Computing the mutations for some pairs and applying them is inserting the
    pairs one after the other, and applying the reverse mutations restores the
    tree, whatever the orders in which the maps are iterated. *)

From S2P Require Import Prelude Felt AceCircuit Machine Merkle MerkleTheory SparsePath SparseTree.
From S2P Require Import TreeTheory.

Lemma list_to_map_perm `{Countable K} {A} (l : list (K * A)) (m : gmap K A) :
  l ≡ₚ map_to_list m -> list_to_map l = m /\ NoDup l.*1.
Proof.
  intros Hl. assert (NoDup l.*1) as Hn by (rewrite Hl; apply NoDup_fst_map_to_list).
  split; [|done]. rewrite (list_to_map_proper l (map_to_list m)) by done. apply list_to_map_to_list.
Qed.

(** ** Entries for an empty tree *)

Section Fresh.
Context `{Countable K} {V : Type} (empty : V).

(** No key twice, no key with a value, and none that was already given the empty
    value. *)
Definition fresh (f : K -> V) (z : gset K) (l : list (K * V)) : Prop :=
  NoDup l.*1 /\ Forall (fun e => f (fst e) = empty /\ fst e ∉ z) l.

Lemma fresh_cons (f f' : K -> V) (z z' : gset K) k v l : f k = empty -> k ∉ z ->
  (forall k', k' ∈ l.*1 -> f' k' = if decide (k' = k) then v else f k') ->
  (forall k', k' ∈ z' <-> k' = k /\ v = empty \/ k' ∈ z) -> fresh f' z' l <-> fresh f z ((k, v) :: l).
Proof.
  intros Hk Hkz Hval Hz. unfold fresh. rewrite fmap_cons, NoDup_cons, Forall_cons. cbn [fst]. rewrite !Forall_forall.
  assert (forall e, e ∈ l -> k ∉ l.*1 -> fst e <> k) as Hne by (intros e He Hkl <-; by apply Hkl, list_elem_of_fmap_2).
  assert (forall e, e ∈ l -> fst e ∈ l.*1) as Hfst by (intros e He; by apply list_elem_of_fmap_2).
  split.
  - intros [Hnd Hall]. assert (k ∉ l.*1) as Hkl.
    { intros ([k' v'] & -> & He)%list_elem_of_fmap. pose proof (Hfst _ He) as Hin. apply Hall in He as [He Hz']. cbn in *.
      rewrite Hval, decide_True in He by done. apply Hz', Hz. tauto. }
    split_and!; [done|done|done..|]. intros e He. destruct (Hall e He) as [Hv' Hz'].
    rewrite Hval, decide_False in Hv' by auto. split; [done|]. rewrite Hz in Hz'. tauto.
  - intros [[Hkl Hnd] [_ Hall]]. split; [done|]. intros e He. destruct (Hall e He) as [Hv' Hz'].
    rewrite Hval, decide_False by auto. split; [done|]. rewrite Hz. specialize (Hne e He Hkl). tauto.
Qed.

End Fresh.

Section Mutations.
Context `{Poseidon2} {T K V L : Type} `{EqDecision V} `{Countable K}.
Context `{!SparseMerkleTree T K V L} `{!TreeModel T K V L} {fits : gset K -> Prop} `{!SparseTreeLaws fits}.
Implicit Types (t u : T) (k : K) (v : V) (l : list (K * V)) (S : gset K).

(** ** Values *)

(** All keys in use are in the set. *)
Definition supported t S : Prop := forall k, key_ok k -> val t k <> EMPTY_VALUE -> k ∈ S.

Definition keys_in l S : Prop := Forall (fun e => key_ok (fst e) /\ fst e ∈ S) l.

Lemma supported_value t t' k v S : supported t S -> k ∈ S ->
  (forall k', key_ok k' -> val t' k' = if decide (k' = k) then v else val t k') -> supported t' S.
Proof. intros Hs Hk Hv k' Hk'. rewrite Hv by done. case_decide; [by subst|by apply Hs]. Qed.

(** [t'] is [t] with the values of some pairs set. *)
Record values_set t t' (m : gmap K V) : Prop := mkValuesSet {
  vss_valid : tree_valid t';
  vss_root : tree_root t' = tree_root t;
  vss_nodes i : get_inner_node t' i = get_inner_node t i;
  vss_value k : key_ok k -> val t' k = default (val t k) (m !! k)
}.

Lemma values_set_cons t t1 t2 k v l : value_set t t1 k v -> values_set t1 t2 (list_to_map l) ->
  k ∉ l.*1 -> values_set t t2 (list_to_map ((k, v) :: l)).
Proof.
  intros H1 [Hv Hr Hn Hx] Hk. split; [done|by rewrite Hr, (vs_root _ _ _ _ H1)|
    intros i; by rewrite Hn, (vs_nodes _ _ _ _ H1)|].
  intros k' Hk'. rewrite Hx, (vs_value _ _ _ _ H1) by done. cbn [list_to_map foldr]. cbn.
  destruct (decide (k' = k)) as [->|Hne].
  - by rewrite lookup_insert_eq, not_elem_of_list_to_map_1.
  - by rewrite lookup_insert_ne by done.
Qed.

(** The old values of some pairs. *)
Definition collect t (rev : gmap K V) l : gmap K V := foldl (fun m e => <[fst e := val t (fst e)]> m) rev l.

Lemma collect_ext t t' k v l S rev : keys_in l S -> k ∉ l.*1 -> value_set t t' k v ->
  collect t' rev l = collect t rev l.
Proof.
  intros Hl Hk Hset. revert rev. induction l as [|[k' v'] l IH]; intros rev; [done|].
  inversion_clear Hl as [|? ? [Hok' _] Hl']. apply not_elem_of_cons in Hk as [Hne Hk].
  unfold collect in *. cbn [foldl fst] in *. rewrite (vs_value _ _ _ _ Hset) by done.
  rewrite decide_False by done. by apply IH.
Qed.

Lemma collect_lookup t l k : collect t ∅ l !! k = if decide (k ∈ l.*1) then Some (val t k) else None.
Proof.
  unfold collect. induction l as [|[k' v'] l IH] using rev_ind; [done|].
  rewrite foldl_snoc, fmap_app. cbn [fst fmap list_fmap]. destruct (decide (k' = k)) as [->|Hne].
  - rewrite lookup_insert_eq, decide_True by set_solver. done.
  - rewrite lookup_insert_ne, IH by done. repeat case_decide; set_solver.
Qed.

(** The loop of [apply_mutations_with_reversion] succeeds when the keys fit; it
    collects the old values. *)
Lemma revert_values_spec l S t rev : tree_valid t -> fits S -> supported t S -> keys_in l S -> NoDup l.*1 ->
  exists t', revert_values l rev t = (Ok (collect t rev l), t') /\ insert_values l t = (Ok tt, t') /\ values_set t t' (list_to_map l).
Proof.
  intros Hv Hf. revert t rev Hv. induction l as [|[k v] l IH]; intros t rev Hv Hs Hk Hn.
  { exists t. split; [done|]. split; [done|]. split; [done..|]. intros k _. cbn. by rewrite lookup_empty. }
  inversion_clear Hk as [|? ? [Hok Hin] Hl]. cbn [fst] in *. apply NoDup_cons in Hn as [Hnk Hn].
  destruct (insert_value_fits S t k v Hv Hok Hf Hin Hs) as (old & t1 & Ht).
  pose proof (insert_value_spec t k v Hv Hok) as Hi. rewrite Ht in Hi. destruct Hi as [Hold Hset].
  assert (supported t1 S) as Hs1 by (eapply supported_value; [done..|]; apply (vs_value _ _ _ _ Hset)).
  destruct (IH t1 (<[k := val t k]> rev) (vs_valid _ _ _ _ Hset) Hs1 Hl Hn) as (t2 & Hr & Hi & Hvs).
  exists t2. cbn [revert_values insert_values]. rewrite !(bind_Ok _ _ _ _ _ Ht), Hold.
  split; [|split; [done|by eapply values_set_cons]]. rewrite Hr.
  change (collect t rev ((k, v) :: l)) with (collect t (<[k := val t k]> rev) l).
  by rewrite (collect_ext t t1 k v l S).
Qed.

Lemma insert_values_fits l S t : tree_valid t -> fits S -> supported t S -> keys_in l S -> NoDup l.*1 ->
  exists t', insert_values l t = (Ok tt, t') /\ values_set t t' (list_to_map l).
Proof.
  intros Hv Hf Hs Hk Hn. destruct (revert_values_spec l S t ∅ Hv Hf Hs Hk Hn) as (t' & _ & Hi & Hvs). eauto.
Qed.

(** ** Nodes *)

(** The node at an index with some mutations laid over the tree. *)
Definition overlay (nodes : NodeMutations) t (i : NodeIndex) : option InnerNode :=
  match nodes !! i with
  | Some (Addition node) => Some node
  | Some Removal => empty_inner_node DEPTH (ni_depth i)
  | None => get_inner_node t i
  end.

Definition mutation_ok (i : NodeIndex) (m : NodeMutation) : Prop :=
  index_ok (T:=T) i /\
  match m with Addition node => empty_inner_node (DEPTH (T:=T)) (ni_depth i) <> Some node | Removal => True end.

Lemma empty_node_at i : index_ok (T:=T) i ->
  exists e, empty_inner_node (DEPTH (T:=T)) (ni_depth i) = Some e.
Proof.
  destruct i as [d p]. intros [Hd _]. cbn [ni_depth] in *. rewrite depth_levels in *. pose proof levels_range.
  exists (empty_children (levels - S (Z.to_nat d))). rewrite <- empty_inner_node_spec by lia. f_equal. lia.
Qed.

(** [t'] is [t] with the mutations applied. *)
Record nodes_set t t' (nodes : NodeMutations) : Prop := mkNodesSet {
  ns_valid : tree_valid t';
  ns_root : tree_root t' = tree_root t;
  ns_leaves : same_leaves t t';
  ns_nodes i : get_inner_node t' i = overlay nodes t i
}.

(** What [insert_inner_node] or [remove_inner_node] returned, as a reverse
    mutation. *)
Definition reverse_of (m : NodeMutation) (old : option InnerNode) : option NodeMutation :=
  match m, old with
  | _, Some node => Some (Addition node)
  | Removal, None => None
  | Addition _, None => Some Removal
  end.

Definition put_reverse (rev : NodeMutations) (i : NodeIndex) (o : option NodeMutation) : NodeMutations :=
  match o with Some m => <[i := m]> rev | None => rev end.

Lemma apply_one i m t : tree_valid t -> mutation_ok i m ->
  exists e t', empty_inner_node DEPTH (ni_depth i) = Some e /\
    nodes_set t t' {[i := m]} /\
    (forall ms, apply_node_mutations ((i, m) :: ms) t = apply_node_mutations ms t') /\
    (forall ms rev, revert_node_mutations ((i, m) :: ms) rev t =
       revert_node_mutations ms (put_reverse rev i (reverse_of m (stored t i e))) t').
Proof.
  intros Hv [Hi Hm]. destruct (empty_node_at i Hi) as [e He]. exists e.
  assert (exists t', nodes_set t t' {[i := m]} /\
    match m with Removal => remove_inner_node i t | Addition node => insert_inner_node i node t end =
      (Ok (stored t i e), t')) as (t' & Hs & Ht).
  { destruct m as [|node].
    - destruct (remove_inner_node_spec t i e Hi He Hv) as (t' & Ht & Hr & Hs & Hval & Hn). exists t'.
      split; [|done]. split; [auto..|]. intros j. rewrite Hn. unfold overlay. case_decide as Hj.
      + subst. by rewrite lookup_singleton_eq.
      + by rewrite lookup_singleton_ne.
    - destruct (insert_inner_node_spec t i node e Hi He) as (t' & Ht & Hr & Hs & Hval & Hn); [congruence|done|].
      exists t'. split; [|done]. split; [auto..|]. intros j. rewrite Hn. unfold overlay. case_decide as Hj.
      + subst. by rewrite lookup_singleton_eq.
      + by rewrite lookup_singleton_ne. }
  exists t'. split; [done|]. split; [done|]. destruct m; (split; intros; cbn [apply_node_mutations revert_node_mutations];
    rewrite (bind_Ok _ _ _ _ _ Ht); [done|]); cbn [reverse_of]; by destruct (stored t i e).
Qed.

(** The reverse of a mutation at an index of [t]. *)
Definition reverse_at t (i : NodeIndex) (m : NodeMutation) : option NodeMutation :=
  e ← empty_inner_node DEPTH (ni_depth i); reverse_of m (stored t i e).

Lemma apply_nodes_spec ms t rev : tree_valid t -> Forall (fun e => mutation_ok (fst e) (snd e)) ms -> NoDup ms.*1 ->
  exists t' rev', apply_node_mutations ms t = (Ok tt, t') /\ revert_node_mutations ms rev t = (Ok rev', t') /\
    nodes_set t t' (list_to_map ms) /\
    forall i, rev' !! i =
      match (list_to_map ms : NodeMutations) !! i ≫= reverse_at t i with Some r => Some r | None => rev !! i end.
Proof.
  revert t rev. induction ms as [|[i m] ms IH]; intros t rev Hv Hms Hn.
  { exists t, rev. split_and!; [done|done|by split|]. intros i. by rewrite list_to_map_nil, lookup_empty. }
  inversion_clear Hms as [|? ? Hm Hms']. apply NoDup_cons in Hn as [Hni Hn]. cbn [fst snd] in *.
  destruct (apply_one i m t Hv Hm) as (e & t1 & He & Hs1 & Ha & Hr).
  destruct (IH t1 (put_reverse rev i (reverse_of m (stored t i e))) (ns_valid _ _ _ Hs1) Hms' Hn)
    as (t' & rev' & Ha' & Hr' & Hs' & Hrev). exists t', rev'. rewrite Ha, Hr. split; [done|]. split; [done|].
  assert (forall j, j <> i -> get_inner_node t1 j = get_inner_node t j) as Hoff.
  { intros j Hj. rewrite (ns_nodes _ _ _ Hs1). unfold overlay. by rewrite lookup_singleton_ne. }
  assert ((list_to_map ms : NodeMutations) !! i = None) as Hnone by (by apply not_elem_of_list_to_map_1).
  split.
  - split; [apply Hs'|by rewrite (ns_root _ _ _ Hs'), (ns_root _ _ _ Hs1)|
      by eapply same_leaves_trans; [apply (ns_leaves _ _ _ Hs1)|apply (ns_leaves _ _ _ Hs')]|].
    intros j. rewrite (ns_nodes _ _ _ Hs'). unfold overlay. cbn [list_to_map foldr fst snd]. cbn.
    destruct (decide (j = i)) as [->|Hj].
    + rewrite lookup_insert_eq, Hnone, (ns_nodes _ _ _ Hs1). unfold overlay. by rewrite lookup_singleton_eq.
    + rewrite lookup_insert_ne by done. destruct (_ !! j); [done|by apply Hoff].
  - intros j. rewrite Hrev. cbn [list_to_map foldr fst snd]. cbn. destruct (decide (j = i)) as [->|Hj].
    + rewrite lookup_insert_eq, Hnone. cbn. unfold reverse_at. rewrite He. cbn.
      destruct (reverse_of _ _); cbn; [by rewrite lookup_insert_eq|done].
    + rewrite lookup_insert_ne by done. unfold reverse_at, stored. rewrite (Hoff j Hj).
      destruct (_ ≫= _); [done|]. destruct (reverse_of _ _); cbn; [by rewrite lookup_insert_ne|done].
Qed.

(** Reversed mutations are mutations, and lead back to the nodes of the tree. *)
Lemma reverse_at_ok t i m r : mutation_ok i m -> reverse_at t i m = Some r -> mutation_ok i r.
Proof.
  intros [Hi _]. unfold reverse_at. destruct (empty_node_at i Hi) as [e He]. rewrite He. cbn.
  unfold stored. destruct (decide _) as [Hs|Hs]; [by destruct m; intros [= <-]|].
  destruct (get_inner_node_total t i Hi) as [n Hn]. rewrite Hn in *. intros Hr.
  assert (r = Addition n) as -> by (by destruct m; injection Hr). split; [done|]. by rewrite He.
Qed.

Lemma overlay_reverse t u nodes rev i : index_ok (T:=T) i -> get_inner_node u i = overlay nodes t i ->
  rev !! i = nodes !! i ≫= reverse_at t i -> overlay rev u i = get_inner_node t i.
Proof.
  intros Hi Hu Hr. unfold overlay in *. rewrite Hr. destruct (nodes !! i) as [m|] eqn:Hm; cbn; [|by rewrite Hu].
  unfold reverse_at. destruct (empty_node_at i Hi) as [e He]. rewrite He. cbn. unfold stored.
  destruct (decide (get_inner_node t i = Some e)) as [Hs|Hs].
  - rewrite Hs. destruct m; cbn; rewrite ?Hu; auto.
  - destruct (get_inner_node_total t i Hi) as [n Hn]. rewrite Hn. by destruct m.
Qed.

(** ** Computing mutations *)

(** The leaf obtained by adding pairs of one leaf, in any order, is that of the
    tree with the pairs. *)
Lemma prospective_fold l S t i : tree_valid t -> fits S -> supported t S -> keys_in l S -> NoDup l.*1 ->
  Forall (fun e => key_to_leaf_index (fst e) = i /\ snd e <> val t (fst e)) l ->
  exists t', insert_values l t = (Ok tt, t') /\ values_set t t' (list_to_map l) /\
    foldl (fun acc '(k, v) => existing_leaf ← acc;
             match construct_prospective_leaf existing_leaf k v with Ok leaf => Some leaf | _ => None end)
      (Some (leaf_at t i)) l = Some (leaf_at t' i).
Proof.
  intros Hv Hf. revert t Hv. induction l as [|[k v] l IH]; intros t Hv Hs Hk Hn Hi.
  { destruct (insert_values_fits [] S t Hv Hf Hs Hk Hn) as (t' & Ht & Hvs). exists t'.
    injection Ht as <-. done. }
  inversion_clear Hk as [|? ? [Hok Hin] Hl]. inversion_clear Hi as [|? ? [Hki Hne] Hli].
  cbn [fst snd] in *. apply NoDup_cons in Hn as [Hnk Hn].
  destruct (insert_value_fits S t k v Hv Hok Hf Hin Hs) as (old & t1 & Ht).
  pose proof (insert_value_spec t k v Hv Hok) as Hspec. rewrite Ht in Hspec. destruct Hspec as [_ Hset].
  destruct (IH t1 (vs_valid _ _ _ _ Hset)) as (t' & Hi & Hvs & Hfold); [|done|done| |].
  { eapply supported_value; [done..|]. apply (vs_value _ _ _ _ Hset). }
  { clear -Hli Hl Hnk Hset. induction l as [|[k' v'] l IH]; [constructor|]. inversion_clear Hl as [|? ? [Hok' _] ?].
    inversion_clear Hli as [|? ? [? ?] ?]. apply not_elem_of_cons in Hnk as [? ?]. constructor; [|by apply IH].
    cbn [fst snd] in *. rewrite (vs_value _ _ _ _ Hset), decide_False by done. done. }
  exists t'. split; [cbn [insert_values]; by rewrite (bind_Ok _ _ _ _ _ Ht)|].
  split; [by eapply values_set_cons|]. cbn [foldl]. cbn [mbind option_bind]. subst i.
  pose proof (prospective_spec t k v Hv Hok Hne) as Hp. rewrite Ht, !get_leaf_at in Hp. by rewrite Hp.
Qed.

Lemma prospective_leaf_spec `{O : MapOrder} `{!MapOrderLaws O} t u pairs key S :
  tree_valid t -> tree_valid u -> fits S -> supported t S -> key_ok key ->
  (forall k, key_ok k -> val u k = default (val t k) (pairs !! k)) ->
  (forall k v, pairs !! k = Some v -> key_ok k /\ k ∈ S /\ v <> val t k) ->
  prospective_leaf t pairs key = Some (leaf_at u (key_to_leaf_index key)).
Proof.
  intros Hv Hu Hf Hs Hkey Hval Hp. unfold prospective_leaf. rewrite get_leaf_at.
  set (l := filter _ _). destruct (list_to_map_perm (map_entries pairs) pairs (map_entries_perm pairs)) as [Hm Hnd].
  assert (forall e, e ∈ l <-> pairs !! fst e = Some (snd e) /\ key_to_leaf_index (fst e) = key_to_leaf_index key) as Hl.
  { intros [k v]. unfold l. rewrite list_elem_of_filter, map_entries_perm, elem_of_map_to_list. cbn. tauto. }
  assert (NoDup l.*1) as Hn. { unfold l. clear -Hnd. induction (map_entries pairs) as [|[k v] es IH]; [constructor|].
    apply NoDup_cons in Hnd as [Hk Hnd]. rewrite filter_cons. case_decide; [|by apply IH]. cbn.
    constructor; [|by apply IH]. intros ([k' v'] & He & Hin)%list_elem_of_fmap. cbn in He. subst k'.
    apply Hk. apply list_elem_of_filter in Hin as [_ Hin]. by apply (list_elem_of_fmap_2 fst) in Hin. }
  destruct (prospective_fold l S t (key_to_leaf_index key) Hv Hf Hs) as (t' & _ & Hvs & Hfold); [|done| |].
  { apply Forall_forall. intros [k v] [He _]%Hl. cbn in *. by destruct (Hp k v He) as (? & ? & _). }
  { apply Forall_forall. intros [k v] [He Hi]%Hl. cbn in *. by destruct (Hp k v He) as (_ & _ & ?). }
  rewrite Hfold. f_equal. apply leaf_ext; [apply Hvs|done|]. intros k Hk Hki.
  rewrite (vss_value _ _ _ Hvs), Hval by done. f_equal. apply option_eq. intros v.
  rewrite <- elem_of_list_to_map by done. rewrite Hl. cbn. tauto.
Qed.

(** The walk up from a leaf that changes. *)
Lemma mutate_nodes_ok lh0 lh1 p d t nodes : clean levels lh1 ->
  0 <= p < 2 ^ Z.of_nat (levels (T:=T)) -> (forall i, i <> p -> lh1 i = lh0 i) -> (d <= levels (T:=T))%nat ->
  updated (T:=T) lh0 lh1 d (overlay nodes t) -> map_Forall mutation_ok nodes ->
  exists nodes', mutate_nodes t d (mkNodeIndex (Z.of_nat d) (ancestor (T:=T) p d))
                   (subtree lh1 (levels (T:=T) - d) (ancestor (T:=T) p d)) nodes =
      Some (subtree lh1 (levels (T:=T)) 0, nodes') /\
    describes (levels (T:=T)) (overlay nodes' t) lh1 /\ map_Forall mutation_ok nodes'.
Proof.
  intros Hc Hp Hl. revert nodes. induction d as [|d IH]; intros nodes Hd Hu Hn.
  { exists nodes. cbn [mutate_nodes]. rewrite Nat.sub_0_r, ancestor_root by done.
    split_and!; [done|by eapply updated_end|done]. }
  pose proof (levels_range (T:=T)). cbn [mutate_nodes]. rewrite is_odd. unfold move_up. cbn [ni_depth ni_position].
  rewrite shiftr1, ancestor_up by lia. replace (Z.max 0 (Z.of_nat (S d) - 1)) with (Z.of_nat d) by lia.
  set (q := ancestor (T:=T) p d) in *. set (j := mkNodeIndex (Z.of_nat d) q).
  pose proof (ancestor_range (T:=T) p d Hp ltac:(lia)) as Hr. fold q in Hr.
  assert (match nodes !! j with Some (Addition node) => Some node
      | Some Removal => empty_inner_node (DEPTH (T:=T)) (Z.of_nat d) | None => get_inner_node t j end =
    overlay nodes t j) as -> by done.
  pose proof (Hu d q ltac:(lia) Hr) as Hj. fold j in Hj.
  rewrite decide_False in Hj by lia. rewrite Hj. cbn [mbind option_bind].
  pose proof (children_step 0 lh0 lh1 p (levels (T:=T) - S d) (ancestor (T:=T) p (S d)) ltac:(lia) eq_refl
    (changed_at _ _ _ Hl)) as Hch.
  rewrite ancestor_up in Hch by lia. fold q in Hch. rewrite Hch. clear Hch.
  rewrite depth_levels, empty_entry_spec by lia. cbn [mbind option_bind].
  set (c := children_at lh1 (levels (T:=T) - S d) q).
  set (m := if decide _ then Removal else Addition c).
  pose proof (empty_inner_node_spec (levels (T:=T)) d ltac:(lia)) as He. rewrite <- depth_levels in He.
  assert (mutation_ok j m /\ overlay (<[j := m]> nodes) t j = Some c) as [Hm Ho].
  { unfold overlay. rewrite lookup_insert_eq. unfold m, mutation_ok. case_decide as Hh.
    - split; [split; [by apply index_ok_of; lia|done]|]. change (ni_depth j) with (Z.of_nat d). rewrite He.
      unfold c. by rewrite (Hc d q) by (done || lia).
    - split; [split; [by apply index_ok_of; lia|]|done]. change (ni_depth j) with (Z.of_nat d). rewrite He. intros Heq%(inj Some).
      apply Hh. rewrite <- Heq. unfold inner_hash, empty_children. cbn [n_left n_right].
      by replace (levels (T:=T) - d)%nat with (S (levels (T:=T) - S d)) by lia. }
  destruct (IH (<[j := m]> nodes)) as (nodes' & Hmn & Hd' & Hn'); [lia| | |].
  { eapply (updated_step (T:=T) 0 lh0 lh1 p d); [by apply changed_at|lia|lia|exact Hu|]. intros i. case_decide as Hi; [by subst|].
    unfold overlay. by rewrite lookup_insert_ne by (intros <-; by apply Hi). }
  { by apply map_Forall_insert_2. }
  exists nodes'. replace (levels (T:=T) - d)%nat with (S (levels (T:=T) - S d)) in Hmn by lia. done.
Qed.

(** ** Sequential insertion, the specification *)

Fixpoint insert_all l : M MerkleError T unit :=
  match l with
  | [] => ret tt
  | (key, value) :: l => do! tree_insert key value; insert_all l
  end.

(** Every tree on the way is clean. *)
Fixpoint clean_run l t : Prop :=
  match l with
  | [] => True
  | (key, value) :: l =>
      match tree_insert key value t with
      | (Ok _, t') => tree_clean t' /\ clean_run l t'
      | _ => True
      end
  end.

(** An insertion succeeds if the value can be inserted. *)
Lemma tree_insert_Ok t k v old t1 : tree_valid t -> key_ok k -> insert_value k v t = (Ok old, t1) ->
  exists t', tree_insert k v t = (Ok (val t k), t') /\ inserted t t' k v.
Proof.
  intros Hv Hk Ht. pose proof (tree_insert_spec t k v Hv Hk) as Hi.
  destruct (tree_insert k v t) as [[o|e|] t'] eqn:Hti; [destruct Hi as [-> Hi]; eauto| |done].
  exfalso. unfold tree_insert in Hti. rewrite (bind_Ok _ _ _ _ _ Ht) in Hti. case_decide; [done|].
  rewrite bind_gets in Hti. cbn [id] in Hti. cbv zeta in Hti.
  pose proof (insert_value_spec t k v Hv Hk) as Hspec. rewrite Ht in Hspec. destruct Hspec as [_ Hspec].
  destruct (recompute_from_leaf t1 k (hash_leaf (get_leaf t1 k)) (vs_valid _ _ _ _ Hspec) Hk) as (t2 & Ht2 & _).
  by rewrite (bind_Ok _ _ _ _ _ Ht2) in Hti.
Qed.

Lemma tree_insert_fits S t k v : tree_valid t -> key_ok k -> fits S -> k ∈ S -> supported t S ->
  exists t', tree_insert k v t = (Ok (val t k), t') /\ inserted t t' k v.
Proof.
  intros Hv Hk Hf Hin Hs. destruct (insert_value_fits S t k v Hv Hk Hf Hin Hs) as (old & t1 & Ht).
  by eapply tree_insert_Ok.
Qed.

Lemma inserted_leaf t t' k v i : tree_valid t -> inserted t t' k v -> i <> key_to_leaf_index k ->
  leaf_at t' i = leaf_at t i.
Proof.
  intros Hv Hi Hne. apply leaf_ext; [apply Hi|done|]. intros k' Hk' <-.
  rewrite (ins_value _ _ _ _ Hi), decide_False by (done || congruence). done.
Qed.

Lemma insert_all_values l t u : tree_valid t -> Forall (fun e => key_ok (fst e)) l -> NoDup l.*1 ->
  insert_all l t = (Ok tt, u) ->
  tree_valid u /\ forall k, key_ok k -> val u k = default (val t k) (list_to_map (M:=gmap K V) l !! k).
Proof.
  revert t. induction l as [|[k v] l IH]; intros t Hv Hl Hn Hi.
  { injection Hi as <-. split; [done|]. intros k _. by rewrite list_to_map_nil, lookup_empty. }
  inversion_clear Hl as [|? ? Hk Hl']. apply NoDup_cons in Hn as [Hnk Hn]. cbn [fst insert_all] in *.
  pose proof (tree_insert_spec t k v Hv Hk) as Ht. unfold bind in Hi.
  destruct (tree_insert k v t) as [[o|e|] t1]; [|done..]. destruct Ht as [_ Ht].
  destruct (IH t1 (ins_valid _ _ _ _ Ht) Hl' Hn Hi) as [Hu Hvals]. split; [done|].
  intros k' Hk'. rewrite Hvals, (ins_value _ _ _ _ Ht), list_to_map_cons by done. case_decide as Hkk.
  - subst. by rewrite lookup_insert_eq, not_elem_of_list_to_map_1.
  - by rewrite lookup_insert_ne by done.
Qed.

Lemma insert_all_ok l t u : tree_ok t -> Forall (fun e => key_ok (fst e)) l -> clean_run l t ->
  insert_all l t = (Ok tt, u) -> tree_ok u.
Proof.
  revert t. induction l as [|[k v] l IH]; intros t Hok Hl Hc Hi; [by injection Hi as <-|].
  inversion_clear Hl as [|? ? Hk Hl']. cbn [fst insert_all clean_run] in *.
  pose proof (tree_insert_spec t k v (ok_valid _ Hok) Hk) as Ht. unfold bind in Hi.
  destruct (tree_insert k v t) as [[o|e|] t1]; [|done..]. destruct Ht as [_ Ht], Hc as [Hc1 Hc].
  by apply (IH t1); [apply Ht| | |].
Qed.

(** The state of [compute_mutations] describes the tree [u]. *)
Record mutating S t (s : MutationState) u : Prop := mkMutating {
  mi_ok : tree_ok u;
  mi_root : ms_root s = tree_root u;
  mi_nodes : describes (levels (T:=T)) (overlay (ms_nodes s) t) (lh u);
  mi_mutations : map_Forall mutation_ok (ms_nodes s);
  mi_values k : key_ok k -> val u k = default (val t k) (ms_pairs s !! k);
  mi_pairs k v : ms_pairs s !! k = Some v -> k ∈ ms_seen s /\ key_ok k /\ k ∈ S /\ v <> val t k
}.

Lemma mutating_supported S t s u : supported t S -> mutating S t s u -> supported u S.
Proof.
  intros Hs Hm k Hk. rewrite (mi_values _ _ _ _ Hm) by done.
  destruct (ms_pairs s !! k) as [v|] eqn:He; [|by apply Hs]. intros _. by apply (mi_pairs _ _ _ _ Hm k v).
Qed.

(** One pair, given that the value can be inserted and that the leaf with the pairs
    so far is that of the tree. *)
Lemma mutate_pair_step `{O : MapOrder} S t s u k v o u1 :
  tree_valid t -> mutating S t s u -> key_ok k -> k ∈ S -> k ∉ ms_seen s ->
  insert_value k v u = (Ok o, u1) ->
  prospective_leaf t (ms_pairs s) k = Some (leaf_at u (key_to_leaf_index k)) ->
  exists u', tree_insert k v u = (Ok (val u k), u') /\ inserted u u' k v /\
    (tree_clean u' -> exists s', mutate_pair t s (k, v) = Ok s' /\ mutating S t s' u' /\
       ms_seen s' = {[ k ]} ∪ ms_seen s /\
       ms_pairs s' = if decide (v = val t k) then ms_pairs s else <[k := v]> (ms_pairs s)).
Proof.
  intros Hv Hm Hk Hin Hnew Hu1 Hpl. pose proof (mi_ok _ _ _ _ Hm) as Hok. pose proof (ok_valid _ Hok) as Hvu.
  destruct (tree_insert_Ok u k v _ _ Hvu Hk Hu1) as (u' & Ht & Hi). exists u'.
  split; [done|]. split; [done|]. intros Hc.
  assert (ms_pairs s !! k = None) as Hnone.
  { destruct (ms_pairs s !! k) eqn:He; [|done]. by destruct Hnew; apply (mi_pairs _ _ _ _ Hm _ _ He). }
  pose proof (mi_values _ _ _ _ Hm k Hk) as Huk. rewrite Hnone in Huk. cbn in Huk.
  unfold mutate_pair. rewrite decide_False, Hnone, get_value_val by done. cbn [rexpect rbind].
  case_decide as Hsame.
  { eexists. split; [done|]. split; [|by split]. rewrite (ins_same _ _ _ _ Hi) by congruence.
    destruct Hm as [H1 H2 H3 H4 H5 H6]. split; cbn; try done. intros k' v' He. destruct (H6 k' v' He). set_solver. }
  rewrite Hpl. cbn [rexpect rbind].
  pose proof (insert_value_spec u k v Hvu Hk) as Hspec. rewrite Hu1 in Hspec. destruct Hspec as [_ Hset].
  assert (v <> val u k) as Hne by (by rewrite Huk).
  pose proof (prospective_spec u k v Hvu Hk Hne) as Hp. rewrite Hu1, !get_leaf_at in Hp. rewrite Hp.
  cbn [rbind]. assert (leaf_at u1 (key_to_leaf_index k) = leaf_at u' (key_to_leaf_index k)) as ->.
  { apply leaf_ext; [apply Hset|apply Hi|]. intros k' Hk' _.
    by rewrite (vs_value _ _ _ _ Hset), (ins_value _ _ _ _ Hi). }
  pose proof (key_position k Hk) as Hpos. rewrite leaf_node_ancestor. cbn [ni_depth]. rewrite Nat2Z.id.
  destruct (mutate_nodes_ok (lh u) (lh u') (key_to_leaf_index k) (levels (T:=T)) t (ms_nodes s))
    as (nodes' & Hmn & Hd & Hn'); [done|done| |lia|apply updated_start, Hm|apply Hm|].
  { intros i Hni. unfold lh. by rewrite (inserted_leaf u u' k v i). }
  rewrite Nat.sub_diag, ancestor_leaf in *. cbn [subtree] in Hmn. unfold lh in Hmn at 1. rewrite Hmn.
  cbn [rexpect rbind fst snd]. pose proof (ins_ok _ _ _ _ Hi Hok Hc) as Hok'.
  eexists. split; [done|]. split; [|by split]. split; cbn; [done|by rewrite (ok_root _ Hok')|done|done| |].
  - intros k' Hk'. rewrite (ins_value _ _ _ _ Hi) by done. case_decide as Hkk.
    + subst. by rewrite lookup_insert_eq.
    + rewrite lookup_insert_ne by done. by apply Hm.
  - intros k' v' [[<- <-]|[Hnk He]]%lookup_insert_Some; [set_solver|].
    destruct (mi_pairs _ _ _ _ Hm k' v' He). set_solver.
Qed.

Lemma mutate_pair_ok `{O : MapOrder} `{!MapOrderLaws O} S t s u k v :
  tree_valid t -> fits S -> supported t S -> mutating S t s u -> key_ok k -> k ∈ S -> k ∉ ms_seen s ->
  exists u', tree_insert k v u = (Ok (val u k), u') /\ supported u' S /\
    (tree_clean u' -> exists s', mutate_pair t s (k, v) = Ok s' /\ mutating S t s' u' /\
       ms_seen s' = {[ k ]} ∪ ms_seen s).
Proof.
  intros Hv Hf Hs Hm Hk Hin Hnew. pose proof (ok_valid _ (mi_ok _ _ _ _ Hm)) as Hvu.
  pose proof (mutating_supported S t s u Hs Hm) as Hsu.
  destruct (insert_value_fits S u k v Hvu Hk Hf Hin Hsu) as (o & u1 & Hu1).
  destruct (mutate_pair_step S t s u k v o u1) as (u' & Ht & Hi & Hc); [done..| |].
  { apply (prospective_leaf_spec t u (ms_pairs s) k S); [done..|apply Hm|intros; by eapply (mi_pairs _ _ _ _ Hm)]. }
  exists u'. split; [done|]. split; [eapply supported_value; [done..|]; apply Hi|].
  intros Hcl. destruct (Hc Hcl) as (s' & Hs' & Hm' & Hseen & _). eauto.
Qed.

(** Nothing mutated yet. *)
Lemma mutating_start S t : tree_ok t -> mutating S t (mkMutationState (tree_root t) ∅ ∅ ∅) t.
Proof.
  intros Hok. split; cbn; [done|done| |apply map_Forall_empty|intros k Hk; by rewrite lookup_empty|
    intros k v; by rewrite lookup_empty].
  intros d p Hd Hp. unfold overlay. rewrite lookup_empty. by apply Hok.
Qed.

Lemma mutate_pairs_ok `{O : MapOrder} `{!MapOrderLaws O} S t l s u :
  tree_valid t -> fits S -> supported t S -> mutating S t s u -> keys_in l S -> NoDup l.*1 ->
  (forall k, k ∈ l.*1 -> k ∉ ms_seen s) -> clean_run l u ->
  exists u' s', insert_all l u = (Ok tt, u') /\ rfold (mutate_pair t) s l = Ok s' /\ mutating S t s' u'.
Proof.
  intros Hv Hf Hs. revert s u. induction l as [|[k v] l IH]; intros s u Hm Hl Hn Hseen Hc.
  { by exists u, s. }
  inversion_clear Hl as [|? ? [Hk Hin] Hl']. cbn [fst] in *. apply NoDup_cons in Hn as [Hnk Hn].
  destruct (mutate_pair_ok S t s u k v Hv Hf Hs Hm Hk Hin) as (u1 & Ht & _ & Hs1).
  { apply Hseen. by left. }
  cbn [clean_run] in Hc. rewrite Ht in Hc. destruct Hc as [Hc1 Hc].
  destruct (Hs1 Hc1) as (s1 & Hp & Hm1 & Hseen1).
  destruct (IH s1 u1 Hm1 Hl' Hn) as (u' & s' & Hu' & Hs' & Hm'); [|done|].
  { intros k' Hk'. rewrite Hseen1. intros [->%elem_of_singleton|Hin']%elem_of_union; [done|].
    by apply (Hseen k'); [right|]. }
  exists u', s'. cbn [insert_all rfold]. rewrite (bind_Ok _ _ _ _ _ Ht), Hp. done.
Qed.

(** ** Applying mutations *)

(** Nodes, values and root laid over [t] give [u]. *)
Lemma overlaid t t1 t2 t3 u nodes pairs : tree_ok u -> nodes_set t t1 nodes -> values_set t1 t2 pairs ->
  (forall i, index_ok (T:=T) i -> overlay nodes t i = get_inner_node u i) ->
  (forall k, key_ok k -> val u k = default (val t k) (pairs !! k)) ->
  set_root (tree_root u) t2 = (Ok tt, t3) -> t3 = u.
Proof.
  intros Hu H1 H2 Hn Hv Hr. destruct (set_root_spec t2 (tree_root u)) as (t3' & Hr' & Hroot & Hs & Hv3 & Hn3).
  rewrite Hr in Hr'. injection Hr' as <-. apply tree_ext; [apply Hv3, H2|apply Hu|done| |].
  - intros i Hi. by rewrite Hn3, (vss_nodes _ _ _ H2), (ns_nodes _ _ _ H1), Hn.
  - intros k Hk. rewrite (proj1 Hs), (vss_value _ _ _ H2) by done. rewrite (proj1 (ns_leaves _ _ _ H1)).
    by rewrite Hv.
Qed.

Lemma describes_index g g' f : describes (levels (T:=T)) g f -> describes (levels (T:=T)) g' f ->
  forall i, index_ok (T:=T) i -> g i = g' i.
Proof.
  intros Hg Hg' [d p] [Hd Hp]. cbn [ni_depth ni_position] in *. rewrite depth_levels in Hd.
  replace d with (Z.of_nat (Z.to_nat d)) in * by lia. by rewrite Hg, Hg' by lia.
Qed.

(** A mutation set that leads from [t] to [u]. *)
Record leads_to S t (ms : MutationSet K V) u : Prop := mkLeadsTo {
  lt_old : old_root ms = tree_root t;
  lt_new : new_root ms = tree_root u;
  lt_mutations : map_Forall mutation_ok (node_mutations ms);
  lt_nodes i : index_ok (T:=T) i -> overlay (node_mutations ms) t i = get_inner_node u i;
  lt_values k : key_ok k -> val u k = default (val t k) (new_pairs ms !! k);
  lt_keys k v : new_pairs ms !! k = Some v -> key_ok k /\ k ∈ S
}.

Lemma entries_ok `{O : MapOrder} `{!MapOrderLaws O} {J A} `{Countable J} (P : J * A -> Prop) (m : gmap J A) :
  (forall i x, m !! i = Some x -> P (i, x)) -> Forall P (map_entries m).
Proof. intros Hm. apply Forall_forall. intros [i x]. rewrite map_entries_perm, elem_of_map_to_list. apply Hm. Qed.

Lemma apply_leads_to `{O : MapOrder} `{!MapOrderLaws O} S t ms u :
  tree_valid t -> tree_ok u -> fits S -> supported t S -> leads_to S t ms u ->
  tree_apply_mutations ms t = (Ok tt, u) /\
  exists rev, tree_apply_mutations_with_reversion ms t = (Ok rev, u) /\
    (tree_ok t -> leads_to S u rev t).
Proof.
  intros Hv Hu Hf Hs Hl. destruct (list_to_map_perm _ _ (map_entries_perm (node_mutations ms))) as [Hnm Hnn].
  destruct (list_to_map_perm _ _ (map_entries_perm (new_pairs ms))) as [Hpm Hpn].
  destruct (apply_nodes_spec (map_entries (node_mutations ms)) t ∅ Hv) as (t1 & rn & Ha & Hr & Hs1 & Hrev);
    [apply entries_ok; intros i m; apply (lt_mutations _ _ _ _ Hl)|done|]. rewrite Hnm in Hs1, Hrev.
  destruct (revert_values_spec (map_entries (new_pairs ms)) S t1 ∅ (ns_valid _ _ _ Hs1) Hf) as (t2 & Hrv & Hi & Hs2);
    [intros k Hk; rewrite (proj1 (ns_leaves _ _ _ Hs1)); by apply Hs|apply entries_ok; intros k v; apply (lt_keys _ _ _ _ Hl)|done|].
  rewrite Hpm in Hs2. destruct (set_root_spec t2 (tree_root u)) as (t3 & Ht3 & _).
  assert (t3 = u) as -> by (eapply (overlaid t t1 t2); [done|done|done|apply Hl|apply Hl|done]).
  unfold tree_apply_mutations, tree_apply_mutations_with_reversion. rewrite !bind_gets. cbn [id].
  rewrite !(decide_True (P := old_root ms = tree_root t)) by apply Hl. rewrite (lt_new _ _ _ _ Hl).
  split; [by rewrite (bind_Ok _ _ _ _ _ Ha), (bind_Ok _ _ _ _ _ Hi)|].
  eexists. split; [by rewrite (bind_Ok _ _ _ _ _ Hr), (bind_Ok _ _ _ _ _ Hrv), (bind_Ok _ _ _ _ _ Ht3)|].
  intros Hok. assert (forall i, rn !! i = node_mutations ms !! i ≫= reverse_at t i) as Hrn.
  { intros i. rewrite Hrev, lookup_empty. by destruct (_ ≫= _). }
  split; cbn; [done|by rewrite (lt_old _ _ _ _ Hl)| | | |].
  - intros i r Hi'. rewrite Hrn in Hi'. destruct (node_mutations ms !! i) as [m|] eqn:Hm; [|done].
    eapply reverse_at_ok; [by apply (lt_mutations _ _ _ _ Hl)|exact Hi'].
  - intros i Hio. eapply overlay_reverse; [done| |apply Hrn]. symmetry. by apply (lt_nodes _ _ _ _ Hl).
  - intros k Hk. rewrite collect_lookup, (proj1 (ns_leaves _ _ _ Hs1)). rewrite (lt_values _ _ _ _ Hl) by done.
    case_decide as Hin; [done|]. pose proof (not_elem_of_list_to_map_1 _ k Hin) as Hnone.
    rewrite Hpm in Hnone. by rewrite Hnone.
  - intros k v. rewrite collect_lookup. case_decide as Hin; [|done]. intros _.
    apply list_elem_of_fmap in Hin as ([k' v'] & -> & Hin). rewrite map_entries_perm, elem_of_map_to_list in Hin.
    by eapply (lt_keys _ _ _ _ Hl).
Qed.

(** Computing mutations, applying them and reverting them, each with its own
    order of iteration. *)
Lemma mutations_spec (O1 O2 O3 : MapOrder) `{!MapOrderLaws O1} `{!MapOrderLaws O2} `{!MapOrderLaws O3} S t l :
  tree_ok t -> fits S -> supported t S -> keys_in l S -> NoDup l.*1 -> clean_run l t ->
  exists ms rev u,
    compute_mutations (H1:=O1) t l = Ok ms /\ insert_all l t = (Ok tt, u) /\ tree_ok u /\
    (forall k, key_ok k -> val u k = default (val t k) (list_to_map (M:=gmap K V) l !! k)) /\
    old_root ms = tree_root t /\ new_root ms = tree_root u /\
    tree_apply_mutations (H1:=O2) ms t = (Ok tt, u) /\
    tree_apply_mutations_with_reversion (H1:=O2) ms t = (Ok rev, u) /\
    tree_apply_mutations (H1:=O3) rev u = (Ok tt, t).
Proof.
  intros Hok Hf Hs Hl Hn Hc. pose proof (ok_valid _ Hok) as Hv.
  destruct (mutate_pairs_ok (O:=O1) S t l (mkMutationState (tree_root t) ∅ ∅ ∅) t) as (u & s & Hu & Hms & Hm);
    [done..|by apply mutating_start|done|done|set_solver|done|].
  set (ms := mkMutationSet (tree_root t) (ms_nodes s) (ms_pairs s) (ms_root s)).
  pose proof (mi_ok _ _ _ _ Hm) as Hoku.
  assert (leads_to S t ms u) as Hlt.
  { split; cbn; [done|apply Hm|apply Hm| |apply Hm|intros k v Hk; by destruct (mi_pairs _ _ _ _ Hm k v Hk) as (_ & ? & ? & _)].
    eapply describes_index; [apply Hm|apply Hoku]. }
  destruct (apply_leads_to (O:=O2) S t ms u Hv Hoku Hf Hs Hlt) as (Ha & rev & Hr & Hrev).
  destruct (apply_leads_to (O:=O3) S u rev t (ok_valid _ Hoku) Hok Hf (mutating_supported S t s u Hs Hm) (Hrev Hok))
    as (Hb & _).
  exists ms, rev, u. split; [unfold compute_mutations; by rewrite Hms|].
  split; [done|]. split; [done|]. split; [eapply (insert_all_values l t u); [done| |done|done]; by eapply Forall_impl; [exact Hl|intros e []]|].
  split; [done|]. split; [apply Hm|]. done.
Qed.

End Mutations.
