(* ===== verification/SmtTheory.v ===== *)
(** * [Smt] implements the traits

    A leaf is a list of entries sorted by key, and with it every operation on
    leaves is one on sorted lists; [Smt] keeps the promises of
    [SparseTreeLaws]. *)

From S2P Require Import Prelude Felt AdviceMap OpBatch AceCircuit Machine Merkle Forest.
From S2P Require Import ForestTheory MerkleTheory SparsePath SparseTree FullSmt TreeTheory.
From S2P Require Import TreeMutations.

(** The number of entries a leaf can hold. *)
Definition leaf_cap : nat := Z.to_nat MAX_LEAF_ENTRIES.

Lemma leaf_cap_Z : Z.of_nat leaf_cap = 1024.
Proof. apply Z2Nat.id. done. Qed.

#[global] Opaque leaf_cap.

(** ** Sorted entries *)

Definition key_lt (e e' : Word * Word) : Prop := word_lt (fst e) (fst e').

Record entries_ok (i : Z) (l : list (Word * Word)) : Prop := mkEntriesOk {
  eo_sorted : StronglySorted key_lt l;
  eo_index : Forall (fun e => leaf_index_of (fst e) = i) l;
  eo_values : Forall (fun e => snd e <> EMPTY_WORD) l;
  eo_length : (length l <= leaf_cap)%nat
}.

Definition leaf_of (i : Z) (l : list (Word * Word)) : SmtLeaf :=
  match l with
  | [] => LeafEmpty i
  | [(k, v)] => LeafSingle k v
  | _ => LeafMultiple l
  end.

Lemma leaf_of_entries i l : leaf_entries (leaf_of i l) = l.
Proof. by destruct l as [|[k v] [|]]. Qed.

Lemma leaf_of_num i l : leaf_num_entries (leaf_of i l) = length l.
Proof. by destruct l as [|[k v] [|]]. Qed.

Lemma leaf_of_index i l : Forall (fun e => leaf_index_of (fst e) = i) l -> leaf_index (leaf_of i l) = Some i.
Proof. destruct l as [|[k v] [|]]; intros Hl; [done|..]; inversion_clear Hl; cbn in *; by subst. Qed.

(** The entries below a key, at the key, and above it. *)
Record split_at (k : Word) (l pre mid post : list (Word * Word)) : Prop := mkSplitAt {
  sa_eq : l = pre ++ mid ++ post;
  sa_pre : Forall (fun e => word_lt (fst e) k) pre;
  sa_mid : mid = [] \/ exists v, mid = [(k, v)];
  sa_post : Forall (fun e => word_lt k (fst e)) post
}.

Lemma sorted_split k l : StronglySorted key_lt l -> exists pre mid post, split_at k l pre mid post.
Proof.
  induction 1 as [|[k' v'] l Hs IH Hall]; [exists [], [], []; split; auto|].
  destruct IH as (pre & mid & post & [-> Hpre Hmid Hpost]).
  destruct (word_lt_total k' k) as [Hlt|[->|Hlt]].
  - exists ((k', v') :: pre), mid, post. split; auto.
  - exists [], [(k, v')], (pre ++ mid ++ post). split; [done|constructor|eauto|].
    eapply Forall_impl; [exact Hall|]. by intros [].
  - exists [], [], ((k', v') :: pre ++ mid ++ post). split; [done|constructor|by left|].
    constructor; [done|]. eapply Forall_impl; [exact Hall|]. intros [k2 v2] Hk. by eapply word_lt_trans.
Qed.

Lemma word_ltb_true a b : word_lt a b -> word_ltb a b = true.
Proof. apply word_ltb_spec. Qed.

Lemma word_ltb_false a b : ~ word_lt a b -> word_ltb a b = false.
Proof. intros Hn. destruct (word_ltb a b) eqn:He; [|done]. by apply word_ltb_spec in He. Qed.

Lemma word_lt_asym a b : word_lt a b -> ~ word_lt b a.
Proof. unfold word_lt. lia. Qed.

Lemma word_lt_ne a b : word_lt a b -> a <> b.
Proof. intros Hlt ->. by apply word_lt_irrefl in Hlt. Qed.

(** The binary search finds the key. *)
Lemma search_key_split k l pre mid post : split_at k l pre mid post ->
  search_key k l = (length pre, match mid with [] => false | _ => true end).
Proof.
  intros [-> Hpre Hmid Hpost]. unfold search_key.
  assert (partition_point (fun e => word_ltb (fst e) k) (pre ++ mid ++ post) = length pre) as ->.
  { induction Hpre as [|[k' v'] pre Hlt Hpre IH]; cbn [app partition_point length].
    - destruct Hmid as [->|[v ->]]; cbn [app].
      + destruct Hpost as [|[k' v'] post Hlt Hpost]; [done|]. cbn [partition_point fst].
        by rewrite word_ltb_false by (by apply word_lt_asym).
      + cbn [partition_point fst]. by rewrite word_ltb_false by apply word_lt_irrefl.
    - cbn [fst] in *. by rewrite word_ltb_true, IH. }
  f_equal. rewrite lookup_app_r, Nat.sub_diag by lia. destruct Hmid as [->|[v ->]]; cbn.
  - destruct Hpost as [|[k' v'] post Hlt Hpost]; [done|]. cbn in *.
    apply bool_decide_eq_false_2. intros ->. by apply word_lt_irrefl in Hlt.
  - by apply bool_decide_eq_true_2.
Qed.

Lemma find_value_other k l : Forall (fun e => fst e <> k) l -> find_value k l = EMPTY_WORD.
Proof.
  induction 1 as [|[k' v'] l Hne Hl IH]; [done|]. cbn in *. by rewrite decide_False.
Qed.

Lemma find_value_app k l l' : Forall (fun e => fst e <> k) l -> find_value k (l ++ l') = find_value k l'.
Proof.
  induction 1 as [|[k' v'] l Hne Hl IH]; [done|]. cbn in *. by rewrite decide_False.
Qed.

Lemma split_pre_ne k l pre mid post : split_at k l pre mid post -> Forall (fun e => fst e <> k) pre.
Proof. intros Hs. eapply Forall_impl; [apply Hs|]. intros e He. by apply word_lt_ne. Qed.

Lemma split_post_ne k l pre mid post : split_at k l pre mid post -> Forall (fun e => fst e <> k) post.
Proof. intros Hs. eapply Forall_impl; [apply Hs|]. intros e He Hk. by apply (word_lt_ne _ _ He). Qed.

(** The value of the key, and of the others, with the key set or removed. *)
Lemma find_value_split k l pre mid post : split_at k l pre mid post ->
  find_value k l = match mid with (_, v) :: _ => v | [] => EMPTY_WORD end.
Proof.
  intros Hs. rewrite (sa_eq _ _ _ _ _ Hs), find_value_app by (by eapply split_pre_ne).
  destruct (sa_mid _ _ _ _ _ Hs) as [->|[v ->]]; cbn.
  - apply find_value_other. by eapply split_post_ne.
  - by rewrite decide_True.
Qed.

Lemma find_value_mid k k' l1 m m' l2 : k' <> k -> Forall (fun e => fst e = k) m -> Forall (fun e => fst e = k) m' ->
  find_value k' (l1 ++ m ++ l2) = find_value k' (l1 ++ m' ++ l2).
Proof.
  intros Hne Hm Hm'. assert (forall m0, Forall (fun e => fst e = k) m0 -> find_value k' (m0 ++ l2) = find_value k' l2) as Hskip.
  { intros m0 H0. apply find_value_app. eapply Forall_impl; [exact H0|]. cbn. congruence. }
  induction l1 as [|[k1 v1] l1 IH]; cbn [app find_value]; [by rewrite !Hskip|by rewrite IH].
Qed.

(** Membership is having a value. *)
Lemma find_value_elem i l k v : entries_ok i l -> (k, v) ∈ l <-> find_value k l = v /\ v <> EMPTY_WORD.
Proof.
  intros [Hs _ Hv _]. destruct (sorted_split k l Hs) as (pre & mid & post & Hsp).
  rewrite (find_value_split _ _ _ _ _ Hsp). rewrite Forall_forall in Hv. split.
  - intros Hin. split; [|by apply (Hv (k, v))]. rewrite (sa_eq _ _ _ _ _ Hsp), !elem_of_app in Hin.
    destruct Hin as [Hin|[Hin|Hin]].
    + apply (proj1 (Forall_forall _ _) (split_pre_ne _ _ _ _ _ Hsp)) in Hin. done.
    + destruct (sa_mid _ _ _ _ _ Hsp) as [->|[w ->]]; [by apply elem_of_nil in Hin|].
      apply list_elem_of_singleton in Hin. by injection Hin.
    + apply (proj1 (Forall_forall _ _) (split_post_ne _ _ _ _ _ Hsp)) in Hin. done.
  - intros [He Hne]. destruct (sa_mid _ _ _ _ _ Hsp) as [->|[w ->]]; [done|]. subst w.
    rewrite (sa_eq _ _ _ _ _ Hsp), !elem_of_app, list_elem_of_singleton. auto.
Qed.

(** Sorted entries are determined by their values. *)
Lemma entries_ext i l l' : entries_ok i l -> entries_ok i l' ->
  (forall k, leaf_index_of k = i -> find_value k l = find_value k l') -> l = l'.
Proof.
  intros Hl Hl' He. assert (forall l0, entries_ok i l0 -> NoDup l0) as Hnd.
  { intros l0 [Hs _ _ _]. clear -Hs. induction Hs as [|e l0 Hs IH Hall]; constructor; [|done].
    intros Hin. rewrite Forall_forall in Hall. by apply (word_lt_irrefl (fst e)), (Hall e). }
  apply (StronglySorted_unique_strong key_lt); [|apply Hl|apply Hl'|].
  - intros e1 e2 _ _ H1 H2. exfalso. by eapply word_lt_asym.
  - apply NoDup_Permutation; [by apply Hnd..|]. intros [k v].
    rewrite (find_value_elem i l k v Hl), (find_value_elem i l' k v Hl').
    assert (forall l0, entries_ok i l0 -> v <> EMPTY_WORD -> find_value k l0 = v -> leaf_index_of k = i) as Hidx.
    { intros l0 Hl0 Hne Hf. pose proof (proj2 (find_value_elem i l0 k v Hl0) (conj Hf Hne)) as Hin.
      by apply (proj1 (Forall_forall _ _) (eo_index _ _ Hl0)) in Hin. }
    split; intros [Hf Hne]; (split; [|done]).
    + rewrite <- He by eauto. done.
    + rewrite He by eauto. done.
Qed.

(** Setting and removing the key keep the entries sorted. *)
Lemma sorted_app_inv (l1 l2 : list (Word * Word)) : StronglySorted key_lt (l1 ++ l2) ->
  StronglySorted key_lt l1 /\ StronglySorted key_lt l2 /\ Forall (fun e => Forall (key_lt e) l2) l1.
Proof.
  induction l1 as [|e l1 IH]; cbn [app]; intros Hs; [split_and!; [constructor|done|constructor]|].
  apply StronglySorted_inv in Hs as [Hs Hall]. apply Forall_app in Hall as [H1 H2].
  destruct (IH Hs) as (Hs1 & Hs2 & Hf). split_and!; [by constructor|done|by constructor].
Qed.

Lemma sorted_nodup (l : list (Word * Word)) : StronglySorted key_lt l -> NoDup l.*1.
Proof.
  induction 1 as [|e l Hs IH Hall]; cbn; constructor; [|done]. intros (e' & He & Hin)%list_elem_of_fmap.
  rewrite Forall_forall in Hall. specialize (Hall e' Hin). unfold key_lt in Hall. rewrite He in Hall.
  by apply word_lt_irrefl in Hall.
Qed.

Lemma sorted_app (l1 l2 : list (Word * Word)) : StronglySorted key_lt l1 -> StronglySorted key_lt l2 ->
  Forall (fun e => Forall (key_lt e) l2) l1 -> StronglySorted key_lt (l1 ++ l2).
Proof.
  intros H1 H2 Hf. induction H1 as [|e l1 H1 IH Hall]; [done|]. inversion_clear Hf.
  cbn [app]. constructor; [by apply IH|]. by apply Forall_app.
Qed.

Lemma split_forall (P : Word * Word -> Prop) k l pre mid post : split_at k l pre mid post -> Forall P l ->
  Forall P pre /\ Forall P post.
Proof. intros Hs. rewrite (sa_eq _ _ _ _ _ Hs), !Forall_app. tauto. Qed.

Lemma entries_put i l k v pre mid post : entries_ok i l -> split_at k l pre mid post ->
  leaf_index_of k = i -> v <> EMPTY_WORD -> (mid = [] -> (length l < leaf_cap)%nat) ->
  entries_ok i (pre ++ (k, v) :: post).
Proof.
  intros [Hs Hi Hv Hl] Hsp Hk Hne Hroom. pose proof Hsp as [-> Hpre Hmid Hpost].
  apply sorted_app_inv in Hs as (Hs1 & Hs2 & Hf). apply sorted_app_inv in Hs2 as (_ & Hs2 & _).
  destruct (split_forall _ _ _ _ _ _ Hsp Hi) as [Hi1 Hi2]. destruct (split_forall _ _ _ _ _ _ Hsp Hv) as [Hv1 Hv2].
  split; [|by apply Forall_app; split; [done|constructor]..|].
  - apply sorted_app; [done|by constructor|]. apply Forall_forall. intros e He.
    rewrite Forall_forall in Hpre, Hf. constructor; [by apply Hpre|].
    specialize (Hf e He). apply Forall_app in Hf as [_ Hf]. done.
  - rewrite !length_app in *. destruct Hmid as [->|[w ->]]; cbn [length] in *; [specialize (Hroom eq_refl)|]; lia.
Qed.

Lemma entries_del i l k pre mid post : entries_ok i l -> split_at k l pre mid post -> entries_ok i (pre ++ post).
Proof.
  intros [Hs Hi Hv Hl] Hsp. pose proof Hsp as [-> Hpre Hmid Hpost].
  apply sorted_app_inv in Hs as (Hs1 & Hs2 & Hf). apply sorted_app_inv in Hs2 as (_ & Hs2 & _).
  destruct (split_forall _ _ _ _ _ _ Hsp Hi) as [Hi1 Hi2]. destruct (split_forall _ _ _ _ _ _ Hsp Hv) as [Hv1 Hv2].
  split; [|by apply Forall_app..|rewrite !length_app in *; lia].
  apply sorted_app; [done..|]. eapply Forall_impl; [exact Hf|]. intros e He. by apply Forall_app in He as [_ He].
Qed.

(** ** Operations on leaves *)

Lemma leaf_get_value_of i l k : Forall (fun e => leaf_index_of (fst e) = i) l -> leaf_index_of k = i ->
  leaf_get_value (leaf_of i l) k = Some (Some (find_value k l)).
Proof.
  intros Hl Hk. unfold leaf_get_value. rewrite leaf_of_index by done. cbn [mbind option_bind].
  rewrite Hk, Z.eqb_refl. by destruct l as [|[k' v'] [|]].
Qed.

Lemma merge_sort_two (a b : Word * Word) : fst a <> fst b ->
  merge_sort kv_le [a; b] = if decide (word_lt (fst a) (fst b)) then [a; b] else [b; a].
Proof.
  intros Hne. unfold merge_sort. cbn. pose proof (word_cmp_spec (fst a) (fst b)) as Hc.
  destruct (decide (kv_le a b)) as [Hle|Hle]; unfold kv_le in Hle; cbn;
    destruct Hc as [He|Hlt|Hlt]; try done; try (exfalso; by apply Hle).
  - by rewrite decide_True.
  - by rewrite decide_False by (by apply word_lt_asym).
Qed.

(** Setting a key in a leaf. *)
Lemma leaf_insert_of i l k v pre mid post : (length l <= leaf_cap)%nat -> split_at k l pre mid post ->
  leaf_insert (leaf_of i l) k v =
    match mid with
    | (_, old) :: _ => Ok (Some old, leaf_of i (pre ++ (k, v) :: post))
    | [] => if decide (length l = leaf_cap) then Err (LeafTooManyEntries 1025)
            else Ok (None, leaf_of i (pre ++ (k, v) :: post))
    end.
Proof.
  intros Hl Hsp. pose proof (search_key_split _ _ _ _ _ Hsp) as Hsk. pose proof Hsp as [He Hpre Hmid Hpost].
  destruct l as [|[k0 v0] [|e l]].
  - destruct pre, mid, post; done.
  - destruct Hmid as [->|[w ->]].
    + cbn [leaf_of leaf_insert length]. rewrite (decide_False (P := 1%nat = leaf_cap)) by (pose proof leaf_cap_Z; lia).
      assert (k0 <> k) as Hne.
      { intros ->. pose proof (find_value_split _ _ _ _ _ Hsp) as Hf. cbn [app] in He.
        destruct pre as [|e pre]; cbn [app] in He.
        - destruct Hpost as [|e post Hlt Hpost]; [done|]. injection He as <- <-. by apply word_lt_irrefl in Hlt.
        - inversion_clear Hpre as [|? ? Hlt ?]. injection He as <- _. by apply word_lt_irrefl in Hlt. }
      rewrite decide_False by done. rewrite merge_sort_two by done. cbn [fst].
      destruct pre as [|e pre]; cbn [app] in He.
      * subst post. inversion_clear Hpost as [|? ? Hlt ?]. cbn [fst] in *. by rewrite decide_False by (by apply word_lt_asym).
      * injection He as <- He. destruct pre, post; try done. inversion_clear Hpre as [|? ? Hlt ?].
        cbn [fst] in *. by rewrite decide_True.
    + destruct pre as [|e pre]; cbn [app] in He; [|destruct pre; done]. injection He as -> -> <-.
      cbn. by rewrite decide_True.
  - assert (leaf_of i ((k0, v0) :: e :: l) = LeafMultiple ((k0, v0) :: e :: l)) as -> by done.
    cbn [leaf_insert]. rewrite Hsk.
    assert (forall x, (2 <= length (pre ++ x :: post))%nat -> leaf_of i (pre ++ x :: post) = LeafMultiple (pre ++ x :: post)) as Hmul.
    { intros x. destruct (pre ++ x :: post) as [|[] [|]]; cbn; done || lia. }
    assert (2 <= length (pre ++ (k, v) :: post))%nat as Hlen.
    { apply (f_equal length) in He. rewrite !length_app in *. destruct Hmid as [->|[w ->]]; cbn [length] in *; lia. }
    rewrite Hmul by done. rewrite He in *. destruct Hmid as [->|[w ->]]; cbn [app] in *.
    + pose proof leaf_cap_Z. unfold MAX_LEAF_ENTRIES. destruct (Z.leb_spec 1024 (Z.of_nat (length (pre ++ post)))).
      * rewrite decide_True by lia. do 2 f_equal. lia.
      * rewrite decide_False by lia. by rewrite take_app_length, drop_app_length.
    + rewrite list_lookup_middle by done. do 3 f_equal. by rewrite insert_app_r_alt, Nat.sub_diag by lia.
Qed.

(** Removing a key from a leaf. *)
Lemma leaf_remove_of l k pre mid post : split_at k l pre mid post ->
  leaf_remove (leaf_of (leaf_index_of k) l) k =
    Some (match mid with
          | (_, old) :: _ => (Some old, bool_decide (pre ++ post = []), leaf_of (leaf_index_of k) (pre ++ post))
          | [] => (None, false, leaf_of (leaf_index_of k) l)
          end).
Proof.
  intros Hsp. pose proof (search_key_split _ _ _ _ _ Hsp) as Hsk. pose proof Hsp as [He Hpre Hmid Hpost].
  destruct l as [|[k0 v0] [|e l]].
  - destruct pre, mid, post; done.
  - cbn [leaf_of leaf_remove]. destruct Hmid as [->|[w ->]].
    + rewrite decide_False; [done|]. intros ->. assert (Forall (fun e => fst e <> k) (pre ++ post)) as Hf
        by (apply Forall_app; split; [by eapply split_pre_ne|by eapply split_post_ne]).
      cbn [app] in He. rewrite <- He in Hf. by inversion_clear Hf.
    + destruct pre as [|e pre]; cbn [app] in He; [|destruct pre; done]. injection He as -> -> <-.
      by rewrite decide_True.
  - assert (leaf_of (leaf_index_of k) ((k0, v0) :: e :: l) = LeafMultiple ((k0, v0) :: e :: l)) as -> by done.
    cbn [leaf_remove]. rewrite Hsk. destruct Hmid as [->|[w ->]]; [done|].
    rewrite He. cbn [app]. rewrite list_lookup_middle by done. cbn [mbind option_bind].
    rewrite take_app_length, <- Nat.add_1_r, drop_app_add. cbn [drop]. rewrite drop_0.
    apply (f_equal length) in He. rewrite !length_app in He. cbn [length] in He.
    destruct (pre ++ post) as [|[k1 v1] [|]] eqn:Hr;
      [|by rewrite bool_decide_eq_false_2 by done..].
    apply (f_equal length) in Hr. rewrite length_app in Hr. cbn [length] in Hr. lia.
Qed.

(** ** [Smt] *)

Definition total_entries (ls : gmap Z SmtLeaf) : nat := sum_list (leaf_num_entries <$> (map_to_list ls).*2).

Lemma total_insert ls i leaf : ls !! i = None ->
  total_entries (<[i := leaf]> ls) = (leaf_num_entries leaf + total_entries ls)%nat.
Proof. intros Hi. unfold total_entries. by rewrite map_to_list_insert. Qed.

Lemma total_delete ls i leaf : ls !! i = Some leaf ->
  total_entries ls = (leaf_num_entries leaf + total_entries (delete i ls))%nat.
Proof. intros Hi. rewrite <- (insert_delete_id ls i leaf) at 1 by done. apply total_insert, lookup_delete_eq. Qed.

Lemma total_replace ls i leaf leaf' : ls !! i = Some leaf ->
  (total_entries (<[i := leaf']> ls) + leaf_num_entries leaf = total_entries ls + leaf_num_entries leaf')%nat.
Proof.
  intros Hi. rewrite (total_delete ls i leaf) by done. rewrite <- insert_delete_eq, total_insert by apply lookup_delete_eq. lia.
Qed.

Section Smt.
Context `{Poseidon2}.

(** The representation invariant. *)
Record smt_valid (t : Smt) : Prop := mkSmtValid {
  sv_leaves i leaf : leaves t !! i = Some leaf -> exists l, l <> [] /\ entries_ok i l /\ leaf = leaf_of i l;
  sv_entries : num_entries t = total_entries (leaves t);
  sv_nodes i n : smt_nodes t !! i = Some n ->
    index_ok (T:=Smt) i /\ empty_inner_node SMT_DEPTH (ni_depth i) <> Some n
}.

#[export] Instance smt_model : TreeModel Smt Word Word SmtLeaf := {
  key_ok _ := True;
  tree_valid := smt_valid;
  leaf_at t i := default (LeafEmpty i) (leaves t !! i)
}.

(** At most 1024 of the keys share a leaf. *)
Definition smt_fits (S : gset Word) : Prop :=
  forall i, (size (filter (fun k => leaf_index_of k = i) S) <= leaf_cap)%nat.

(** The entries of the leaf at a position. *)
Definition entries_at (t : Smt) (i : Z) : list (Word * Word) := leaf_entries (leaf_at t i).

Lemma entries_at_ok t i : smt_valid t -> entries_ok i (entries_at t i) /\ leaf_at t i = leaf_of i (entries_at t i).
Proof.
  intros Hv. unfold entries_at. cbn. destruct (leaves t !! i) as [leaf|] eqn:Hl; cbn.
  - destruct (sv_leaves _ Hv i leaf Hl) as (l & _ & Hl' & ->). by rewrite leaf_of_entries.
  - split; [|done]. split; [constructor..|cbn; lia].
Qed.

Lemma smt_get_value t k : smt_valid t -> get_value t k = Some (find_value k (entries_at t (leaf_index_of k))).
Proof.
  intros Hv. destruct (entries_at_ok t (leaf_index_of k) Hv) as [Hok Hl]. unfold entries_at in *. cbn in *.
  destruct (leaves t !! leaf_index_of k) as [leaf|]; cbn in *; [|done].
  rewrite Hl. rewrite leaf_get_value_of; [|apply Hok|done]. by rewrite leaf_of_entries.
Qed.

Lemma smt_val t k : smt_valid t -> val t k = find_value k (entries_at t (leaf_index_of k)).
Proof. intros Hv. unfold val. by rewrite smt_get_value. Qed.

(** The tree with the leaf at a position replaced, an empty one being dropped. *)
Definition set_entries (t : Smt) (i : Z) (l : list (Word * Word)) : Smt :=
  mkSmt (smt_root t) (num_entries t + length l - length (entries_at t i))
    (if decide (l = []) then delete i (leaves t) else <[i := leaf_of i l]> (leaves t)) (smt_nodes t).

Lemma set_entries_valid t i l : smt_valid t -> entries_ok i l -> smt_valid (set_entries t i l).
Proof.
  intros Hv Hl. destruct (entries_at_ok t i Hv) as [_ Ha]. split; cbn; [| |apply (sv_nodes _ Hv)].
  - intros j leaf. case_decide as Hn.
    + rewrite lookup_delete_Some. intros [_ Hj]. by apply (sv_leaves _ Hv).
    + rewrite lookup_insert_Some. intros [[<- <-]|[_ Hj]]; [by exists l|by apply (sv_leaves _ Hv)].
  - rewrite (sv_entries _ Hv). unfold entries_at in *. cbn in *.
    destruct (leaves t !! i) as [leaf|] eqn:Hi; cbn in *.
    + rewrite Ha in Hi. pose proof (leaf_of_num i (leaf_entries leaf)) as Hnum. case_decide as Hn.
      * subst l. rewrite (total_delete _ _ _ Hi), Hnum. cbn [length]. lia.
      * pose proof (total_replace _ i _ (leaf_of i l) Hi) as Ht. rewrite Hnum, leaf_of_num in Ht. lia.
    + case_decide as Hn; [by subst l; rewrite delete_id by done; cbn; lia|].
      rewrite total_insert, leaf_of_num by done. lia.
Qed.

Lemma set_entries_leaf t i l j : leaf_at (set_entries t i l) j = if decide (j = i) then leaf_of i l else leaf_at t j.
Proof.
  cbn. case_decide as Hl; case_decide as Hj; subst; rewrite ?lookup_delete_eq, ?lookup_insert_eq,
    ?lookup_delete_ne, ?lookup_insert_ne by done; done.
Qed.

Lemma set_entries_val t k l k' : smt_valid t -> entries_ok (leaf_index_of k) l ->
  val (set_entries t (leaf_index_of k) l) k' =
    if decide (leaf_index_of k' = leaf_index_of k) then find_value k' l else val t k'.
Proof.
  intros Hv Hl. rewrite smt_val by (by apply set_entries_valid). unfold entries_at. rewrite set_entries_leaf.
  case_decide as Hk; [by rewrite leaf_of_entries|]. by rewrite smt_val by done.
Qed.

(** Nothing changes when the entries stay the same. *)
Lemma set_entries_same t i : smt_valid t -> set_entries t i (entries_at t i) = t.
Proof.
  intros Hv. destruct (entries_at_ok t i Hv) as [_ Ha]. unfold set_entries. destruct t as [r n ls ns]. cbn in *.
  f_equal; [lia|]. rewrite <- Ha. unfold entries_at. cbn. destruct (ls !! i) as [leaf|] eqn:Hi; cbn.
  - destruct (sv_leaves _ Hv i leaf Hi) as (l & Hne & _ & ->). rewrite leaf_of_entries, decide_False by done.
    by apply insert_id.
  - by rewrite decide_True, delete_id.
Qed.

(** The entries after setting a key. *)
Definition put_entries (k v : Word) (pre post : list (Word * Word)) : list (Word * Word) :=
  pre ++ (if decide (v = EMPTY_WORD) then [] else [(k, v)]) ++ post.

Lemma perform_insert_spec t k v pre mid post : smt_valid t -> v <> EMPTY_WORD ->
  split_at k (entries_at t (leaf_index_of k)) pre mid post ->
  perform_insert k v t =
    match mid with
    | (_, old) :: _ => (Ok (Some old), set_entries t (leaf_index_of k) (pre ++ (k, v) :: post))
    | [] => if decide (length (entries_at t (leaf_index_of k)) = leaf_cap)
            then (Err (TooManyLeafEntries 1025), t)
            else (Ok None, set_entries t (leaf_index_of k) (pre ++ (k, v) :: post))
    end.
Proof.
  intros Hv Hne Hsp. set (i := leaf_index_of k) in *. destruct (entries_at_ok t i Hv) as [Hok Ha].
  unfold perform_insert. fold i. rewrite bind_gets. cbn [id].
  pose proof (leaf_insert_of i _ k v _ _ _ (eo_length _ _ Hok) Hsp) as Hins. rewrite <- Ha in Hins.
  assert (length (entries_at t i) = length pre + length mid + length post)%nat as Hlen
    by (rewrite (sa_eq _ _ _ _ _ Hsp) at 1; rewrite !length_app; lia).
  assert (pre ++ (k, v) :: post <> []) as Hnil by (by destruct pre).
  unfold set_entries. rewrite (decide_False (P := pre ++ (k, v) :: post = [])) by done. cbn in Ha, Hins.
  destruct (leaves t !! i) as [leaf|] eqn:Hi; cbn in Ha, Hins.
  - pose proof (leaf_of_num i (entries_at t i)) as Hnum. rewrite <- Ha in Hnum. rewrite Hins.
    assert (length (pre ++ (k, v) :: post) = length pre + S (length post))%nat as Hl' by (by rewrite length_app).
    destruct (sa_mid _ _ _ _ _ Hsp) as [->|[w ->]]; cbn [length] in Hlen.
    + case_decide; [done|]. rewrite leaf_of_num, Hnum, checked_sub_Some by lia. cbn. do 3 f_equal. lia.
    + rewrite leaf_of_num, Hnum, checked_sub_Some by lia. cbn. do 3 f_equal. lia.
  - unfold entries_at in *. cbn in *. rewrite Hi in *. cbn in *.
    destruct pre, mid, post; cbn in Hlen; try lia. cbn. do 2 f_equal. lia.
Qed.

Lemma perform_remove_spec t k pre mid post : smt_valid t ->
  split_at k (entries_at t (leaf_index_of k)) pre mid post ->
  perform_remove k t =
    (Ok (match mid with (_, old) :: _ => Some old | [] => None end),
     set_entries t (leaf_index_of k) (pre ++ post)).
Proof.
  intros Hv Hsp. set (i := leaf_index_of k) in *. destruct (entries_at_ok t i Hv) as [Hok Ha].
  unfold perform_remove. fold i. rewrite bind_gets. cbn [id].
  pose proof (leaf_remove_of _ k _ _ _ Hsp) as Hrem. fold i in Hrem. rewrite <- Ha in Hrem.
  assert (length (entries_at t i) = length pre + length mid + length post)%nat as Hlen
    by (rewrite (sa_eq _ _ _ _ _ Hsp) at 1; rewrite !length_app; lia).
  cbn in Ha, Hrem. destruct (leaves t !! i) as [leaf|] eqn:Hi; cbn in Ha, Hrem.
  - pose proof (leaf_of_num i (entries_at t i)) as Hnum. rewrite <- Ha in Hnum. rewrite Hrem.
    assert (leaf_num_entries leaf <= num_entries t)%nat as Hle
      by (rewrite (sv_entries _ Hv), (total_delete _ _ _ Hi); lia).
    destruct (sa_mid _ _ _ _ _ Hsp) as [->|[w ->]]; cbn [length] in Hlen; cbn [expect]; rewrite bind_ret_l.
    + rewrite checked_sub_Some by lia. cbn [expect]. rewrite bind_ret_l, checked_sub_Some by lia. cbn.
      pose proof (sa_eq _ _ _ _ _ Hsp) as He. cbn [app] in He. rewrite <- He, set_entries_same by done.
      rewrite insert_id by done. destruct t. cbn. do 2 f_equal. lia.
    + rewrite leaf_of_num, Hnum, checked_sub_Some by (rewrite length_app; lia). cbn [expect].
      rewrite bind_ret_l, checked_sub_Some by (rewrite length_app; lia). cbn. unfold set_entries.
      rewrite length_app. f_equal. f_equal; [lia|]. by destruct (pre ++ post).
  - assert (entries_at t i = []) as Hnil by (unfold entries_at; cbn; by rewrite Hi).
    rewrite Hnil in Hlen. destruct pre, mid, post; cbn in Hlen; try lia. cbn.
    pose proof (set_entries_same t i Hv) as Hsame. rewrite Hnil in Hsame. by rewrite Hsame.
Qed.

Lemma smt_insert_value_spec t k v pre mid post : smt_valid t ->
  split_at k (entries_at t (leaf_index_of k)) pre mid post ->
  insert_value k v t =
    if decide (v <> EMPTY_WORD /\ mid = [] /\ length (entries_at t (leaf_index_of k)) = leaf_cap)
    then (Err (TooManyLeafEntries 1025), t)
    else (Ok (match mid with (_, old) :: _ => Some old | [] => None end),
          set_entries t (leaf_index_of k) (put_entries k v pre post)).
Proof.
  intros Hv Hsp. unfold put_entries. cbn [insert_value smt_tree]. case_decide as Hne.
  - rewrite (perform_insert_spec t k v pre mid post) by done. rewrite (decide_False (P := v = EMPTY_WORD)) by done.
    destruct mid as [|[k0 old] mid]; [|by rewrite decide_False by naive_solver].
    cbn [app]. repeat case_decide; naive_solver.
  - rewrite (perform_remove_spec t k pre mid post) by done.
    rewrite (decide_True (P := v = EMPTY_WORD)) by (destruct (decide (v = EMPTY_WORD)); tauto).
    by rewrite decide_False by tauto.
Qed.

Lemma put_entries_ok i l k v pre mid post : entries_ok i l -> split_at k l pre mid post -> leaf_index_of k = i ->
  ~ (v <> EMPTY_WORD /\ mid = [] /\ length l = leaf_cap) -> entries_ok i (put_entries k v pre post).
Proof.
  intros Hl Hsp Hk Hroom. unfold put_entries. case_decide as Hv; cbn [app]; [by eapply entries_del|].
  eapply entries_put; [done..|]. intros Hmid. pose proof (eo_length _ _ Hl).
  destruct (decide (length l = leaf_cap)); [tauto|lia].
Qed.

Lemma put_entries_value k v l pre mid post k' : split_at k l pre mid post ->
  find_value k' (put_entries k v pre post) = if decide (k' = k) then v else find_value k' l.
Proof.
  intros Hsp. unfold put_entries. destruct (decide (k' = k)) as [->|Hk].
  - rewrite find_value_app by (by eapply split_pre_ne). case_decide as Hv; cbn.
    + rewrite find_value_other by (by eapply split_post_ne). done.
    + by rewrite decide_True.
  - rewrite (sa_eq _ _ _ _ _ Hsp). apply (find_value_mid k); [done|by case_decide; repeat constructor|].
    destruct (sa_mid _ _ _ _ _ Hsp) as [->|[w ->]]; repeat constructor.
Qed.

Lemma put_entries_same i k v l pre mid post : entries_ok i l -> split_at k l pre mid post ->
  v = find_value k l -> put_entries k v pre post = l.
Proof.
  intros Hl Hsp ->. rewrite (find_value_split _ _ _ _ _ Hsp), (sa_eq _ _ _ _ _ Hsp). unfold put_entries.
  destruct (sa_mid _ _ _ _ _ Hsp) as [->|[w ->]]; [by rewrite decide_True|].
  rewrite decide_False; [done|]. pose proof (eo_values _ _ Hl) as Hv. rewrite (sa_eq _ _ _ _ _ Hsp) in Hv.
  apply Forall_app in Hv as [_ Hv]. by inversion_clear Hv.
Qed.

Lemma smt_value_set t k v pre mid post : smt_valid t -> split_at k (entries_at t (leaf_index_of k)) pre mid post ->
  ~ (v <> EMPTY_WORD /\ mid = [] /\ length (entries_at t (leaf_index_of k)) = leaf_cap) ->
  value_set t (set_entries t (leaf_index_of k) (put_entries k v pre post)) k v.
Proof.
  intros Hv Hsp Hroom. destruct (entries_at_ok t (leaf_index_of k) Hv) as [Hok Ha].
  pose proof (put_entries_ok _ _ k v _ _ _ Hok Hsp eq_refl Hroom) as Hput.
  split; [by apply set_entries_valid|done|done| | |].
  - intros k' _. rewrite set_entries_val by done. case_decide as Hi.
    + rewrite (put_entries_value k v _ _ _ _ k' Hsp). case_decide; [done|]. by rewrite smt_val, Hi by done.
    + rewrite decide_False by congruence. done.
  - intros i Hi. rewrite set_entries_leaf. by rewrite decide_False.
  - rewrite smt_val by done. intros Hval. rewrite (put_entries_same _ k v _ _ _ _ Hok Hsp Hval). by apply set_entries_same.
Qed.

Lemma fits_length S t k : smt_valid t -> smt_fits S -> k ∈ S ->
  (forall k', val t k' <> EMPTY_WORD -> k' ∈ S) ->
  find_value k (entries_at t (leaf_index_of k)) = EMPTY_WORD ->
  (length (entries_at t (leaf_index_of k)) < leaf_cap)%nat.
Proof.
  intros Hv Hf Hk Hs He. set (i := leaf_index_of k) in *. destruct (entries_at_ok t i Hv) as [Hok _].
  specialize (Hf i). set (l := entries_at t i) in *.
  assert (forall k' v', (k', v') ∈ l -> k' ∈ S /\ leaf_index_of k' = i /\ k' <> k) as Hl.
  { intros k' v' Hin. pose proof (proj1 (find_value_elem i l k' v' Hok) Hin) as [Hf' Hne].
    pose proof (proj1 (Forall_forall _ _) (eo_index _ _ Hok) _ Hin) as Hi. cbn in Hi. split_and!; [|done|by intros ->; congruence].
    apply Hs. rewrite smt_val by done. rewrite Hi. fold l. congruence. }
  assert (NoDup (k :: l.*1)) as Hnd.
  { constructor.
    - intros ([k' v'] & -> & Hin)%list_elem_of_fmap. by destruct (Hl k' v' Hin) as (_ & _ & ?).
    - apply sorted_nodup, Hok. }
  assert (list_to_set (k :: l.*1) ⊆ filter (fun k => leaf_index_of k = i) S) as Hsub.
  { intros x. rewrite elem_of_list_to_set, elem_of_filter, elem_of_cons. intros [->|([k' v'] & -> & Hin)%list_elem_of_fmap]; [done|].
    by destruct (Hl k' v' Hin) as (? & ? & _). }
  apply subseteq_size in Hsub. rewrite size_list_to_set in Hsub by done. cbn [length] in Hsub.
  rewrite length_fmap in Hsub. lia.
Qed.

Lemma smt_prospective t k v : smt_valid t -> v <> val t k ->
  construct_prospective_leaf (get_leaf t k) k v =
    match insert_value k v t with
    | (Ok _, t') => Ok (get_leaf t' k)
    | (Err (TooManyLeafEntries n), _) => Err (LeafTooManyEntries n)
    | _ => Panic
    end.
Proof.
  intros Hv Hne. rewrite smt_val in Hne by done. set (i := leaf_index_of k) in *.
  destruct (entries_at_ok t i Hv) as [Hok Ha]. set (l := entries_at t i) in *.
  destruct (sorted_split k l (eo_sorted _ _ Hok)) as (pre & mid & post & Hsp).
  rewrite (smt_insert_value_spec t k v pre mid post Hv Hsp). fold i. fold l.
  pose proof (leaf_insert_of i l k v _ _ _ (eo_length _ _ Hok) Hsp) as Hins.
  pose proof (leaf_remove_of l k _ _ _ Hsp) as Hrem. fold i in Hrem.
  pose proof (find_value_split _ _ _ _ _ Hsp) as Hfv.
  assert (get_leaf t k = leaf_of i l) as -> by exact Ha. cbn [construct_prospective_leaf smt_tree].
  rewrite leaf_of_index by apply Hok. rewrite decide_True by done.
  assert (forall l', get_leaf (set_entries t i l') k = leaf_of i l') as Hget.
  { intros l'. pose proof (set_entries_leaf t i l' i) as Hl'. by rewrite decide_True in Hl'. }
  unfold put_entries. destruct l as [|e l'] eqn:El.
  - pose proof (sa_eq _ _ _ _ _ Hsp) as He0. destruct pre, mid, post; try discriminate He0. cbn [leaf_of app].
    rewrite (decide_False (P := _ /\ _)) by (intros (_ & _ & He); pose proof leaf_cap_Z; cbn in He; lia).
    rewrite Hget. cbn in Hne. by rewrite (decide_False (P := v = EMPTY_WORD)).
  - assert (forall A (a b : A), match leaf_of i (e :: l') with LeafEmpty _ => a | _ => b end = b) as Hm
      by (intros; by destruct e, l'). rewrite <- El in *.
    destruct (decide (v <> EMPTY_WORD)) as [Hv0|Hv0].
    + transitivity (let? r := leaf_insert (leaf_of i l) k v in Ok (snd r)).
      { rewrite El. by destruct e, l'. }
      rewrite Hins, (decide_False (P := v = EMPTY_WORD)) by done. destruct mid as [|[k0 w] mid].
      * destruct (decide (length l = leaf_cap)) as [Hf|Hf]; [by rewrite decide_True by done|].
        rewrite decide_False by tauto. cbn [rbind snd]. by rewrite Hget.
      * rewrite decide_False by naive_solver. cbn [rbind snd]. by rewrite Hget.
    + transitivity (match leaf_remove (leaf_of i l) k with Some r => Ok (snd r) | None => Panic (E:=SmtLeafError) end).
      { rewrite El. by destruct e, l'. }
      rewrite Hrem, decide_False, Hget by tauto. rewrite (decide_True (P := v = EMPTY_WORD)) by (destruct (decide (v = EMPTY_WORD)); tauto).
      cbn [app]. destruct mid as [|[k0 w] mid]; [|done]. exfalso. apply Hne. rewrite Hfv.
      destruct (decide (v = EMPTY_WORD)); tauto.
Qed.

Lemma smt_leaf_ext t t' i : smt_valid t -> smt_valid t' ->
  (forall k, leaf_index_of k = i -> val t k = val t' k) -> leaf_at t i = leaf_at t' i.
Proof.
  intros Hv Hv' He. destruct (entries_at_ok t i Hv) as [Hok Ha]. destruct (entries_at_ok t' i Hv') as [Hok' Ha'].
  rewrite Ha, Ha'. f_equal. apply (entries_ext i); [done..|]. intros k Hk. specialize (He k Hk).
  rewrite !smt_val, Hk in He by done. done.
Qed.

(** What is stored is what is visible and not empty. *)
Lemma smt_stored t i e : smt_valid t -> empty_inner_node SMT_DEPTH (ni_depth i) = Some e ->
  stored t i e = smt_nodes t !! i.
Proof.
  intros Hv He. unfold stored. cbn [get_inner_node smt_tree]. unfold smt_get_inner_node.
  destruct (smt_nodes t !! i) as [n|] eqn:Hn; [|by rewrite decide_True].
  rewrite decide_False; [done|]. rewrite <- He. intros Heq. by destruct (sv_nodes _ Hv i n Hn).
Qed.

Lemma smt_tree_ext t t' : smt_valid t -> smt_valid t' -> tree_root t = tree_root t' ->
  (forall i, index_ok (T:=Smt) i -> get_inner_node t i = get_inner_node t' i) ->
  (forall k, val t k = val t' k) -> t = t'.
Proof.
  intros Hv Hv' Hr Hn Hval. assert (leaves t = leaves t') as Hl.
  { apply map_eq. intros i. pose proof (smt_leaf_ext t t' i Hv Hv' (fun k _ => Hval k)) as Hl. cbn in Hl.
    destruct (leaves t !! i) as [x|] eqn:Hx, (leaves t' !! i) as [y|] eqn:Hy; cbn in Hl; [by subst|..|done].
    - destruct (sv_leaves _ Hv i x Hx) as (l & Hne & _ & ->). by destruct l as [|[] [|]].
    - destruct (sv_leaves _ Hv' i y Hy) as (l & Hne & _ & ->). by destruct l as [|[] [|]]. }
  assert (smt_nodes t = smt_nodes t') as Hns.
  { apply map_eq. intros i. destruct (decide (is_Some (smt_nodes t !! i) \/ is_Some (smt_nodes t' !! i))) as [Hs|Hs].
    - assert (index_ok (T:=Smt) i) as Hi by (destruct Hs as [[n Hs]|[n Hs]]; [apply (sv_nodes _ Hv i n Hs)|apply (sv_nodes _ Hv' i n Hs)]).
      destruct (empty_inner_node SMT_DEPTH (ni_depth i)) as [e|] eqn:He.
      + rewrite <- (smt_stored t i e), <- (smt_stored t' i e) by done. unfold stored. by rewrite Hn.
      + specialize (Hn i Hi). cbn in Hn. unfold smt_get_inner_node in Hn. rewrite He in Hn.
        by destruct (smt_nodes t !! i), (smt_nodes t' !! i).
    - destruct (smt_nodes t !! i) eqn:H1, (smt_nodes t' !! i) eqn:H2; [exfalso; apply Hs; eauto..|done]. }
  pose proof (sv_entries _ Hv) as He. pose proof (sv_entries _ Hv') as He'.
  destruct t, t'. cbn in *. congruence.
Qed.

Lemma smt_node_set t i node ns : smt_valid t -> index_ok (T:=Smt) i ->
  (forall j, match ns !! j with Some n => Some n | None => empty_inner_node SMT_DEPTH (ni_depth j) end =
     if decide (j = i) then Some node else smt_get_inner_node t j) ->
  (forall j n, ns !! j = Some n -> j = i /\ empty_inner_node SMT_DEPTH (ni_depth i) <> Some n \/ smt_nodes t !! j = Some n) ->
  node_set t (mkSmt (smt_root t) (num_entries t) (leaves t) ns) i node.
Proof.
  intros Hv Hi Hn Hs. split; [done|]. split; [by split|]. split; [|exact Hn]. intros _.
  split; cbn; [apply (sv_leaves _ Hv)|apply (sv_entries _ Hv)|].
  intros j n Hj. destruct (Hs j n Hj) as [[-> Hne]|Hj']; [done|by apply (sv_nodes _ Hv)].
Qed.

Lemma smt_remove_node t i e : smt_valid t -> index_ok (T:=Smt) i ->
  empty_inner_node SMT_DEPTH (ni_depth i) = Some e ->
  exists t', smt_remove_inner_node i t = (Ok (stored t i e), t') /\ node_set t t' i e.
Proof.
  intros Hv Hi He. eexists. split; [cbn; by rewrite (smt_stored t i e)|].
  apply (smt_node_set t i e (delete i (smt_nodes t))); [done..| |].
  - intros j. unfold smt_get_inner_node. case_decide as Hj; [subst; by rewrite lookup_delete_eq|by rewrite lookup_delete_ne].
  - intros j n. rewrite lookup_delete_Some. tauto.
Qed.

#[export] Instance smt_laws : SparseTreeLaws (T:=Smt) (L:=SmtLeaf) smt_fits.
Proof.
  split.
  - done.
  - intros k _. cbn. unfold leaf_index_of, SMT_DEPTH. pose proof (felt_range (word_d k)). unfold ORDER in *. lia.
  - done.
  - intros t i Hi. cbn. unfold smt_get_inner_node. destruct (smt_nodes t !! i); [done|].
    destruct Hi as [Hd _]. cbn in Hd. unfold SMT_DEPTH in *. unfold empty_inner_node. by rewrite entry_spec by lia.
  - intros t k Hv _. unfold val. by rewrite smt_get_value.
  - intros t r. eexists. split; [done|]. split; [done|]. split; [by split|]. split; [|done].
    intros Hv. split; cbn; [apply (sv_leaves _ Hv)|apply (sv_entries _ Hv)|apply (sv_nodes _ Hv)].
  - intros t i node e Hi He Hne Hv. cbn [insert_inner_node smt_tree DEPTH] in *. rewrite bind_gets. cbn [id].
    rewrite He. cbn [expect]. rewrite bind_ret_l, decide_False by done. eexists.
    split; [cbn; by rewrite (smt_stored t i e)|]. apply (smt_node_set t i node (<[i := node]> (smt_nodes t))); [done..| |].
    + intros j. unfold smt_get_inner_node. case_decide as Hj; [subst; by rewrite lookup_insert_eq|by rewrite lookup_insert_ne].
    + intros j n [[<- <-]|[_ Hj]]%lookup_insert_Some; [left|by right]. split; [done|]. rewrite He. congruence.
  - intros t i e Hi He Hv. by apply smt_remove_node.
  - intros t k v Hv _. destruct (entries_at_ok t (leaf_index_of k) Hv) as [Hok _].
    destruct (sorted_split k _ (eo_sorted _ _ Hok)) as (pre & mid & post & Hsp).
    rewrite (smt_insert_value_spec t k v pre mid post Hv Hsp). case_decide as Hfull; [eauto|].
    split; [|by eapply smt_value_set]. rewrite smt_val, (find_value_split _ _ _ _ _ Hsp) by done. by destruct mid as [|[]].
  - intros S t k v Hv _ Hf Hk Hs. destruct (entries_at_ok t (leaf_index_of k) Hv) as [Hok _].
    destruct (sorted_split k _ (eo_sorted _ _ Hok)) as (pre & mid & post & Hsp).
    rewrite (smt_insert_value_spec t k v pre mid post Hv Hsp). rewrite decide_False; [eauto|].
    intros (_ & -> & Hlen). pose proof (find_value_split _ _ _ _ _ Hsp) as Hfv. cbn in Hfv.
    pose proof (fits_length S t k Hv Hf Hk (fun k' => Hs k' Logic.I) Hfv). lia.
  - intros t k v Hv _ Hne. by apply smt_prospective.
  - intros t t' i Hv Hv' He. apply smt_leaf_ext; [done..|]. intros k. by apply He.
  - intros t t' Hv Hv' Hr Hn He. apply smt_tree_ext; [done..|]. intros k. by apply He.
Qed.

(** The empty tree. *)
Lemma smt_new_ok : exists t, smt_new = Some t /\ tree_ok t /\ forall k, val t k = EMPTY_WORD.
Proof.
  unfold smt_new. rewrite entry_spec by (unfold SMT_DEPTH; lia). cbn [mbind option_bind].
  eexists. split; [done|]. split; [|done].
  split; [split; cbn [leaves smt_nodes]; [intros i l; by rewrite lookup_empty|done|intros i n; by rewrite lookup_empty]| |].
  - intros d p Hd Hp. cbn [get_inner_node smt_tree]. unfold smt_get_inner_node. cbn [smt_nodes ni_depth].
    rewrite lookup_empty.
    pose proof (empty_inner_node_spec 64 d) as He. change (Z.of_nat 64) with SMT_DEPTH in He.
    rewrite He by (split; [exact Hd|done]). f_equal. unfold children_at, empty_children.
    by rewrite !subtree_empty by done.
  - cbn. symmetry. by apply (subtree_empty _ 64).
Qed.

End Smt.
