(* ===== verification/SimpleTheory.v ===== *)
(** * The theory of [SimpleSmt]

    [SimpleSmt] satisfies the laws of the sparse tree traits at every depth from 1
    to 64, and inserting a subtree replaces the leaves below a node by those of
    another tree. *)

From S2P Require Import Prelude Felt AdviceMap OpBatch AceCircuit Machine Merkle Forest.
From S2P Require Import ForestTheory MerkleTheory SparsePath SparseTree FullSmt TreeTheory.
From S2P Require Import TreeMutations.

Section Simple.
Context `{Poseidon2} (depth : Z).

Record simple_valid (t : SimpleSmt depth) : Prop := mkSimpleValid {
  mv_leaves i v : simple_leaves t !! i = Some v -> 0 <= i < 2 ^ depth /\ v <> EMPTY_WORD;
  mv_nodes i n : simple_nodes t !! i = Some n ->
    index_ok (T:=SimpleSmt depth) i /\ empty_inner_node depth (ni_depth i) <> Some n
}.

#[export] Instance simple_model : TreeModel (SimpleSmt depth) Z Word Word := {
  key_ok k := 0 <= k < 2 ^ depth;
  tree_valid := simple_valid;
  leaf_at t i := default EMPTY_WORD (simple_leaves t !! i)
}.

Lemma simple_stored (t : SimpleSmt depth) i e : simple_valid t ->
  empty_inner_node depth (ni_depth i) = Some e -> stored t i e = simple_nodes t !! i.
Proof.
  intros Hv He. unfold stored. cbn [get_inner_node simple_tree].
  destruct (simple_nodes t !! i) as [n|] eqn:Hn; [|by rewrite decide_True].
  rewrite decide_False; [done|]. rewrite <- He. intros Heq. by destruct (mv_nodes _ Hv i n Hn).
Qed.

Lemma simple_node_set (t : SimpleSmt depth) i node ns : simple_valid t -> index_ok (T:=SimpleSmt depth) i ->
  (forall j, match ns !! j with Some n => Some n | None => empty_inner_node depth (ni_depth j) end =
     if decide (j = i) then Some node else get_inner_node t j) ->
  (forall j n, ns !! j = Some n -> j = i /\ empty_inner_node depth (ni_depth i) <> Some n \/ simple_nodes t !! j = Some n) ->
  node_set t (mkSimpleSmt (simple_root t) ns (simple_leaves t)) i node.
Proof.
  intros Hv Hi Hn Hs. split; [done|]. split; [by split|]. split; [|exact Hn]. intros _.
  split; cbn; [apply (mv_leaves _ Hv)|].
  intros j n Hj. destruct (Hs j n Hj) as [[-> Hne]|Hj']; [done|by apply (mv_nodes _ Hv)].
Qed.

Lemma simple_val (t : SimpleSmt depth) k : val t k = default EMPTY_WORD (simple_leaves t !! k).
Proof. done. Qed.

Lemma simple_tree_ext (t t' : SimpleSmt depth) : simple_valid t -> simple_valid t' -> tree_root t = tree_root t' ->
  (forall i, index_ok (T:=SimpleSmt depth) i -> get_inner_node t i = get_inner_node t' i) ->
  (forall k, 0 <= k < 2 ^ depth -> val t k = val t' k) -> t = t'.
Proof.
  intros Hv Hv' Hr Hn Hval. assert (simple_leaves t = simple_leaves t') as Hl.
  { apply map_eq. intros i. destruct (simple_leaves t !! i) as [x|] eqn:Hx, (simple_leaves t' !! i) as [y|] eqn:Hy; [..|done].
    - destruct (mv_leaves _ Hv i x Hx) as [Hi _]. specialize (Hval i Hi). rewrite !simple_val, Hx, Hy in Hval. cbn in Hval. by subst.
    - destruct (mv_leaves _ Hv i x Hx) as [Hi Hne]. specialize (Hval i Hi). by rewrite !simple_val, Hx, Hy in Hval.
    - destruct (mv_leaves _ Hv' i y Hy) as [Hi Hne]. specialize (Hval i Hi). by rewrite !simple_val, Hx, Hy in Hval. }
  assert (simple_nodes t = simple_nodes t') as Hns.
  { apply map_eq. intros i.
    destruct (decide (is_Some (simple_nodes t !! i) \/ is_Some (simple_nodes t' !! i))) as [Hs|Hs].
    - assert (index_ok (T:=SimpleSmt depth) i) as Hi
        by (destruct Hs as [[n Hs]|[n Hs]]; [apply (mv_nodes _ Hv i n Hs)|apply (mv_nodes _ Hv' i n Hs)]).
      destruct (empty_inner_node depth (ni_depth i)) as [e|] eqn:He.
      + rewrite <- (simple_stored t i e), <- (simple_stored t' i e) by done. unfold stored. by rewrite Hn.
      + specialize (Hn i Hi). cbn in Hn. rewrite He in Hn. by destruct (simple_nodes t !! i), (simple_nodes t' !! i).
    - destruct (simple_nodes t !! i) eqn:H1, (simple_nodes t' !! i) eqn:H2; [exfalso; apply Hs; eauto..|done]. }
  destruct t, t'. cbn in *. congruence.
Qed.

Lemma simple_laws : 1 <= depth <= 64 ->
  SparseTreeLaws (T:=SimpleSmt depth) (L:=Word) (fun _ : gset Z => True).
Proof.
  intros Hdep. split.
  - done.
  - done.
  - done.
  - intros t i Hi. cbn. destruct (simple_nodes t !! i); [done|].
    destruct Hi as [Hd _]. cbn in Hd. unfold empty_inner_node. by rewrite entry_spec by lia.
  - done.
  - intros t r. eexists. split; [done|]. split; [done|]. split; [by split|]. split; [|done].
    intros Hv. split; cbn; [apply (mv_leaves _ Hv)|apply (mv_nodes _ Hv)].
  - intros t i node e Hi He Hne Hv. eexists. split; [cbn; by rewrite (simple_stored t i e)|].
    apply (simple_node_set t i node (<[i := node]> (simple_nodes t))); [done..| |].
    + intros j. case_decide as Hj; [subst; by rewrite lookup_insert_eq|by rewrite lookup_insert_ne].
    + intros j n [[<- <-]|[_ Hj]]%lookup_insert_Some; [left|by right]. split; [done|]. cbn in He. rewrite He. congruence.
  - intros t i e Hi He Hv. eexists. split; [cbn; by rewrite (simple_stored t i e)|].
    apply (simple_node_set t i e (delete i (simple_nodes t))); [done..| |].
    + intros j. case_decide as Hj; [subst; by rewrite lookup_delete_eq|by rewrite lookup_delete_ne].
    + intros j n. rewrite lookup_delete_Some. tauto.
  - intros t k v Hv Hk. cbn. split; [done|]. split; [|done|done| | |].
    + split; cbn; [|apply (mv_nodes _ Hv)]. intros i w. case_decide.
      * rewrite lookup_delete_Some. intros [_ Hi]. by apply (mv_leaves _ Hv).
      * rewrite lookup_insert_Some. intros [[<- <-]|[_ Hi]]; [done|by apply (mv_leaves _ Hv)].
    + intros k' _. rewrite !simple_val. cbn. destruct (decide (k' = k)) as [->|Hne]; case_decide; subst;
        rewrite ?lookup_delete_eq, ?lookup_insert_eq, ?lookup_delete_ne, ?lookup_insert_ne by done; done.
    + intros i Hi. cbn in *. case_decide; by rewrite ?lookup_delete_ne, ?lookup_insert_ne by done.
    + rewrite simple_val. intros ->. destruct t as [r ns ls]. cbn. f_equal.
      destruct (ls !! k) as [w|] eqn:Hw; cbn.
      * destruct (mv_leaves _ Hv k w Hw) as [_ Hne]. by rewrite decide_False, insert_id.
      * by rewrite decide_True, delete_id.
  - intros S t k v _ _ _ _ _. cbn. eauto.
  - intros t k v Hv Hk Hne. cbn. case_decide; by rewrite ?lookup_delete_eq, ?lookup_insert_eq; subst.
  - intros t t' i Hv Hv' He. cbn. destruct (decide (0 <= i < 2 ^ depth)) as [Hi|Hi].
    + apply (He i Hi eq_refl).
    + assert (forall u, simple_valid u -> simple_leaves u !! i = None) as Hnone.
      { intros u Hu. destruct (simple_leaves u !! i) as [x|] eqn:Hx; [|done]. by destruct (mv_leaves _ Hu i x Hx). }
      by rewrite !Hnone.
  - intros t t' Hv Hv' Hr Hn He. by apply simple_tree_ext.
Qed.

Lemma simple_new_ok : 1 <= depth <= 64 ->
  exists t, simple_new depth = Ok t /\ tree_ok (L:=Word) t /\ forall k, val t k = EMPTY_WORD.
Proof.
  intros Hdep. pose proof (simple_laws Hdep) as HL. unfold simple_new, SMT_MIN_DEPTH, SMT_MAX_DEPTH.
  destruct (Z.ltb_spec depth 1); [lia|]. destruct (Z.ltb_spec 64 depth); [lia|].
  rewrite entry_spec by lia. cbn [rexpect rbind]. eexists. split; [done|]. split; [|done].
  split; [split; cbn [simple_leaves simple_nodes]; intros i l; by rewrite lookup_empty| |].
  - intros d p Hd Hp. cbn [get_inner_node simple_tree simple_nodes ni_depth]. rewrite lookup_empty.
    pose proof (empty_inner_node_spec (levels (T:=SimpleSmt depth)) d) as He.
    pose proof (levels_range (T:=SimpleSmt depth)). rewrite <- depth_levels in He.
    cbn [DEPTH simple_tree] in He. rewrite He by lia. f_equal. unfold children_at, empty_children.
    by rewrite !subtree_empty by done.
  - cbn. symmetry. rewrite Z.sub_0_r. by apply (subtree_empty _ (Z.to_nat depth)).
Qed.

End Simple.

(** ** Inserting a subtree *)

(** The entries of a map, under other keys. *)
Lemma foldl_insert_other {K A K'} `{Countable K'} (f : K -> K') (l : list (K * A)) (m : gmap K' A) j :
  (forall e, e ∈ l -> f (fst e) <> j) ->
  foldl (fun m '(k, v) => <[f k := v]> m) m l !! j = m !! j.
Proof.
  revert m. induction l as [|[k v] l IH]; intros m Hj; [done|]. cbn [foldl].
  rewrite IH by (intros e He; apply Hj; by right). apply lookup_insert_ne, (Hj (k, v)). by left.
Qed.

Lemma foldl_insert_entry {K A K'} `{Countable K'} (f : K -> K') (l : list (K * A)) (m : gmap K' A) k v :
  NoDup l.*1 -> (forall e, e ∈ l -> f (fst e) = f k -> fst e = k) -> (k, v) ∈ l ->
  foldl (fun m '(k, v) => <[f k := v]> m) m l !! f k = Some v.
Proof.
  revert m. induction l as [|[k' v'] l IH]; intros m Hnd Hf Hin; [by apply not_elem_of_nil in Hin|].
  cbn in Hnd. apply NoDup_cons in Hnd as [Hk Hnd]. cbn [foldl]. apply elem_of_cons in Hin as [[= <- <-]|Hin].
  - rewrite foldl_insert_other; [apply lookup_insert_eq|]. intros e He Heq. apply Hk.
    rewrite <- (Hf e (list_elem_of_further _ _ _ He) Heq). by apply list_elem_of_fmap_2.
  - apply IH; [done| |done]. intros e He. apply Hf. by right.
Qed.

Section Entries.
Context `{O : MapOrder} `{!MapOrderLaws O}.

Lemma map_entries_nodup {K A} `{Countable K} (m : gmap K A) : NoDup (map_entries m).*1.
Proof. rewrite map_entries_perm. apply NoDup_fst_map_to_list. Qed.

Lemma elem_of_map_entries {K A} `{Countable K} (m : gmap K A) k v : (k, v) ∈ map_entries m <-> m !! k = Some v.
Proof. rewrite map_entries_perm. apply elem_of_map_to_list. Qed.

Lemma foldl_map_entries {K A K'} `{Countable K} `{Countable K'} (f : K -> K') (m : gmap K A) (m' : gmap K' A) k :
  (forall k', is_Some (m !! k') -> f k' = f k -> k' = k) ->
  foldl (fun m '(k, v) => <[f k := v]> m) m' (map_entries m) !! f k =
    match m !! k with Some v => Some v | None => m' !! f k end.
Proof.
  intros Hf. destruct (m !! k) as [v|] eqn:Hk.
  - apply foldl_insert_entry; [apply map_entries_nodup| |by apply elem_of_map_entries].
    intros [k' v'] He%elem_of_map_entries. apply Hf. eauto.
  - apply foldl_insert_other. intros [k' v'] He%elem_of_map_entries Heq. cbn in Heq.
    rewrite (Hf k') in He by eauto. congruence.
Qed.

End Entries.

Section SubtreeSpec.
Context `{Poseidon2}.

(** A subtree of a tree, as a tree of its own. *)
Lemma subtree_shift (lh0 lh1 : Z -> Word) h c q :
  (forall j, q * 2 ^ Z.of_nat h <= j < (q + 1) * 2 ^ Z.of_nat h -> lh1 (c * 2 ^ Z.of_nat h + j) = lh0 j) ->
  subtree lh1 h (c + q) = subtree lh0 h q.
Proof.
  revert c q. induction h as [|h IH]; intros c q Hj; cbn [subtree].
  - specialize (Hj q). change (2 ^ Z.of_nat 0) with 1 in Hj. rewrite !Z.mul_1_r in Hj. apply Hj. lia.
  - rewrite Nat2Z.inj_succ, Z.pow_succ_r in Hj by lia.
    replace (2 * (c + q)) with (2 * c + 2 * q) by lia.
    replace (2 * c + 2 * q + 1) with (2 * c + (2 * q + 1)) by lia.
    f_equal; apply IH; intros j Hb; rewrite <- Hj by lia; f_equal; lia.
Qed.

End SubtreeSpec.

Section SetSubtree.
Context `{Poseidon2} `{O : MapOrder} `{!MapOrderLaws O} (depth sd idx : Z).
Context (Hdepth : 1 <= sd <= depth) (Hmax : depth <= 64) (Hidx : 0 <= idx < 2 ^ (depth - sd)).
Implicit Types (t : SimpleSmt depth) (s : SimpleSmt sd).

Lemma leaf_in t i v : simple_valid depth t -> simple_leaves t !! i = Some v ->
  leaf_is_in_subtree sd i idx = bool_decide (i / 2 ^ sd = idx).
Proof.
  intros Hv Hi. destruct (mv_leaves _ _ Hv i v Hi) as [Hr _]. unfold leaf_is_in_subtree, SMT_MAX_DEPTH.
  destruct (Z.eqb_spec sd 64) as [->|Hne].
  - assert (depth = 64) as -> by lia. rewrite Z.div_small by done. rewrite bool_decide_true; [done|]. cbn in Hidx. lia.
  - rewrite Z.shiftr_div_pow2 by lia. by case_bool_decide; destruct (Z.eqb_spec (i / 2 ^ sd) idx).
Qed.

(** The node is in the subtree. *)
Definition below (i : NodeIndex) : Prop :=
  depth - sd <= ni_depth i /\ ni_position i / 2 ^ (ni_depth i - (depth - sd)) = idx.

#[global] Instance below_dec i : Decision (below i).
Proof. unfold below. apply _. Defined.

Lemma node_in i : index_ok (T:=SimpleSmt depth) i ->
  node_is_in_subtree i (depth - sd) idx = bool_decide (below i).
Proof.
  intros [Hd Hp]. cbn in Hd. unfold node_is_in_subtree, below, SMT_MAX_DEPTH.
  destruct (Z.ltb_spec (ni_depth i) (depth - sd)); [by rewrite bool_decide_false by lia|].
  destruct (Z.eqb_spec (ni_depth i - (depth - sd)) 64); [lia|].
  rewrite Z.shiftr_div_pow2 by lia.
  case_bool_decide; destruct (Z.eqb_spec (ni_position i / 2 ^ (ni_depth i - (depth - sd))) idx); tauto.
Qed.

(** The leaves after the insertion. *)
Definition merged_leaves t s : gmap Z Word :=
  add_leaves (if sd =? SMT_MAX_DEPTH then 0 else Z.shiftl idx sd) (map_entries (simple_leaves s))
    (filter (fun e => leaf_is_in_subtree sd (fst e) idx = false) (simple_leaves t)).

Lemma shift_eq : (if sd =? SMT_MAX_DEPTH then 0 else Z.shiftl idx sd) = idx * 2 ^ sd.
Proof.
  unfold SMT_MAX_DEPTH. destruct (Z.eqb_spec sd 64) as [->|]; [|by rewrite Z.shiftl_mul_pow2 by lia].
  assert (depth = 64) as -> by lia. cbn in Hidx. lia.
Qed.

Lemma merged_leaves_spec t s i : simple_valid depth t -> simple_valid sd s ->
  merged_leaves t s !! i =
    if decide (i / 2 ^ sd = idx) then simple_leaves s !! (i - idx * 2 ^ sd) else simple_leaves t !! i.
Proof.
  intros Ht Hs. unfold merged_leaves. rewrite shift_eq. unfold add_leaves.
  pose proof (foldl_map_entries (fun j => idx * 2 ^ sd + j) (simple_leaves s)
    (filter (fun e => leaf_is_in_subtree sd (fst e) idx = false) (simple_leaves t)) (i - idx * 2 ^ sd)) as Hf.
  cbn beta in Hf. replace (idx * 2 ^ sd + (i - idx * 2 ^ sd)) with i in Hf by lia.
  rewrite Hf by (intros; lia). clear Hf. destruct (decide _) as [Hi|Hi].
  - destruct (simple_leaves s !! _); [done|]. apply map_lookup_filter_None. right. intros v Hv. cbn.
    by rewrite (leaf_in t i v), bool_decide_true.
  - destruct (simple_leaves s !! _) as [w|] eqn:Hw.
    { destruct (mv_leaves _ _ Hs _ _ Hw) as [Hr _]. exfalso. apply Hi. symmetry.
      apply (Z.div_unique _ _ _ (i - idx * 2 ^ sd)); lia. }
    destruct (simple_leaves t !! i) as [v|] eqn:Hv.
    + apply map_lookup_filter_Some. split; [done|]. cbn. by rewrite (leaf_in t i v), bool_decide_false.
    + apply map_lookup_filter_None. by left.
Qed.

(** The index of a node of the subtree. *)
Definition branch (i : NodeIndex) : NodeIndex :=
  mkNodeIndex (depth - sd + ni_depth i) (idx * 2 ^ ni_depth i + ni_position i).

Lemma branch_ok i : index_ok (T:=SimpleSmt sd) i -> index_ok (T:=SimpleSmt depth) (branch i).
Proof.
  intros [Hd Hp]. cbn in Hd. split; cbn; [lia|]. rewrite Z.pow_add_r by lia. nia.
Qed.

Lemma branch_index_spec i : index_ok (T:=SimpleSmt sd) i -> branch_index (depth - sd) idx i = Ok (branch i).
Proof.
  intros Hi. destruct (branch_ok i Hi) as [Hd Hp]. cbn in Hd, Hp.
  unfold branch_index. rewrite node_index_new_spec by lia. by rewrite decide_False, decide_True by lia.
Qed.

Lemma add_branches_spec l (ns : InnerNodes) : (forall i n, (i, n) ∈ l -> index_ok (T:=SimpleSmt sd) i) ->
  add_branches (depth - sd) idx l ns = Ok (foldl (fun m '(k, v) => <[branch k := v]> m) ns l).
Proof.
  unfold add_branches. revert ns. induction l as [|[i n] l IH]; intros ns Hl; [done|]. cbn [rfold foldl].
  rewrite branch_index_spec by (apply (Hl i n); by left). cbn [rbind]. apply IH. intros i' n' Hi. eapply Hl. by right.
Qed.

(** The nodes after the insertion, below the new root of the subtree. *)
Definition merged_nodes t s : InnerNodes :=
  foldl (fun m '(k, v) => <[branch k := v]> m)
    (filter (fun e => node_is_in_subtree (fst e) (depth - sd) idx = false) (simple_nodes t))
    (map_entries (simple_nodes s)).

(** The index in the subtree of a node below its root. *)
Definition unbranch (i : NodeIndex) : NodeIndex :=
  mkNodeIndex (ni_depth i - (depth - sd)) (ni_position i - idx * 2 ^ (ni_depth i - (depth - sd))).

Lemma branch_unbranch i : branch (unbranch i) = i.
Proof. destruct i as [d p]. unfold branch, unbranch. cbn. f_equal; lia. Qed.

Lemma branch_inj i j : branch i = branch j -> i = j.
Proof. destruct i as [d p], j as [d' p']. unfold branch. cbn. intros Hb.
  injection Hb as Hd Hp. assert (d = d') as -> by lia. f_equal. lia. Qed.

Lemma branch_below i : index_ok (T:=SimpleSmt sd) i -> below (branch i).
Proof.
  intros [Hd Hp]. cbn in Hd. split; cbn; [lia|]. replace (depth - sd + ni_depth i - (depth - sd)) with (ni_depth i) by lia.
  symmetry. apply (Z.div_unique _ _ _ (ni_position i)); lia.
Qed.

Lemma merged_nodes_spec t s i : simple_valid depth t -> simple_valid sd s ->
  merged_nodes t s !! i = if decide (below i) then simple_nodes s !! unbranch i else simple_nodes t !! i.
Proof.
  intros Ht Hs. unfold merged_nodes.
  pose proof (foldl_map_entries branch (simple_nodes s)
    (filter (fun e => node_is_in_subtree (fst e) (depth - sd) idx = false) (simple_nodes t)) (unbranch i)) as Hf.
  rewrite branch_unbranch in Hf.
  rewrite Hf by (intros k _ Hk; apply branch_inj; by rewrite branch_unbranch). clear Hf. destruct (decide _) as [Hi|Hi].
  - destruct (simple_nodes s !! _); [done|]. apply map_lookup_filter_None. right. intros n Hn. cbn.
    by rewrite node_in, bool_decide_true by (done || by apply (mv_nodes _ _ Ht i n)).
  - destruct (simple_nodes s !! _) as [w|] eqn:Hw.
    { destruct (mv_nodes _ _ Hs _ _ Hw) as [Hr _]. exfalso. apply Hi. rewrite <- branch_unbranch. by apply branch_below. }
    destruct (simple_nodes t !! i) as [n|] eqn:Hn.
    + apply map_lookup_filter_Some. split; [done|]. cbn.
      by rewrite node_in, bool_decide_false by (done || by apply (mv_nodes _ _ Ht i n)).
    + apply map_lookup_filter_None. by left.
Qed.

(** The empty subtrees of the two trees are the same. *)
Lemma empty_branch i : index_ok (T:=SimpleSmt sd) i ->
  empty_inner_node depth (ni_depth (branch i)) = empty_inner_node sd (ni_depth i).
Proof.
  intros [Hd _]. cbn in *. unfold empty_inner_node. rewrite !entry_spec by lia.
  by replace (depth - (depth - sd + ni_depth i + 1)) with (sd - (ni_depth i + 1)) by lia.
Qed.

(** The tree before the nodes above the subtree are recomputed. *)
Definition merged t s : SimpleSmt depth := mkSimpleSmt (simple_root t) (merged_nodes t s) (merged_leaves t s).

Lemma merged_valid t s : simple_valid depth t -> simple_valid sd s -> simple_valid depth (merged t s).
Proof.
  intros Ht Hs. split; cbn.
  - intros i v. rewrite merged_leaves_spec by done. case_decide as Hi; [|by apply (mv_leaves _ _ Ht)].
    intros Hv. destruct (mv_leaves _ _ Hs _ _ Hv) as [Hr Hne]. split; [|done].
    replace depth with (depth - sd + sd) by lia. rewrite Z.pow_add_r by lia. nia.
  - intros i n. rewrite merged_nodes_spec by done. case_decide as Hi; [|by apply (mv_nodes _ _ Ht)].
    intros Hn. destruct (mv_nodes _ _ Hs _ _ Hn) as [Hr Hne]. rewrite <- (branch_unbranch i).
    split; [by apply branch_ok|by rewrite empty_branch].
Qed.

Lemma unbranch_ok i : index_ok (T:=SimpleSmt depth) i -> below i -> index_ok (T:=SimpleSmt sd) (unbranch i).
Proof.
  intros [Hd Hp] [Hb Hq]. cbn in Hd. split; cbn; [lia|].
  set (o := ni_depth i - (depth - sd)) in *. pose proof (Z.div_mod (ni_position i) (2 ^ o)).
  pose proof (Z.mod_pos_bound (ni_position i) (2 ^ o)). lia.
Qed.

Lemma merged_node t s i : simple_valid depth t -> simple_valid sd s -> index_ok (T:=SimpleSmt depth) i ->
  get_inner_node (merged t s) i =
    if decide (below i) then get_inner_node s (unbranch i) else get_inner_node t i.
Proof.
  intros Ht Hs Hi. cbn. rewrite merged_nodes_spec by done. destruct (decide (below i)) as [Hb|Hb]; [|done].
  destruct (simple_nodes s !! unbranch i); [done|]. rewrite <- (branch_unbranch i) at 1.
  by apply empty_branch, unbranch_ok.
Qed.

Lemma merged_leaf t s i : simple_valid depth t -> simple_valid sd s ->
  leaf_at (merged t s) i = if decide (i / 2 ^ sd = idx) then leaf_at s (i - idx * 2 ^ sd) else leaf_at t i.
Proof. intros Ht Hs. cbn. rewrite merged_leaves_spec by done. by case_decide. Qed.

(** The nodes of the merged tree from the root of the subtree on are those of its
    leaves, the nodes above are those of the old tree. *)
Lemma merged_updated t s : tree_ok (L:=Word) t -> tree_ok (L:=Word) s ->
  updated (T:=SimpleSmt depth) (lh t) (lh (merged t s)) (Z.to_nat (depth - sd)) (get_inner_node (merged t s)).
Proof.
  intros Ht Hs e r He Hr. unfold levels in *. cbn [DEPTH simple_tree] in *.
  rewrite merged_node; [|apply Ht|apply Hs|split; cbn; lia].
  assert (forall j, lh (merged t s) j = if decide (j / 2 ^ sd = idx) then lh s (j - idx * 2 ^ sd) else lh t j) as Hl
    by (intros j; unfold lh; rewrite merged_leaf by (apply Ht || apply Hs); by case_decide).
  destruct (decide (below (mkNodeIndex (Z.of_nat e) r))) as [Hb|Hb]; cbn in Hb.
  - pose proof (unbranch_ok (mkNodeIndex (Z.of_nat e) r) ltac:(split; cbn; lia) Hb) as [Hu1 Hu2].
    destruct Hb as [Hb1 Hb2]. cbn [ni_depth ni_position unbranch DEPTH simple_tree] in *. rewrite decide_True by lia.
    unfold unbranch in *. cbn [ni_depth ni_position] in *. set (o := Z.of_nat e - (depth - sd)) in *.
    pose proof (ok_nodes _ Hs (Z.to_nat o) (r - idx * 2 ^ o)) as Hn. unfold levels in Hn. cbn [DEPTH simple_tree] in Hn.
    rewrite Z2Nat.id in Hn by lia. rewrite Hn by lia. f_equal. unfold children_at.
    replace (Z.to_nat sd - S (Z.to_nat o))%nat with (Z.to_nat depth - S e)%nat by lia.
    set (h := (Z.to_nat depth - S e)%nat).
    assert (2 ^ sd = 2 * 2 ^ o * 2 ^ Z.of_nat h) as Hsd.
    { rewrite <- Z.pow_succ_r, <- Z.pow_add_r by lia. f_equal. lia. }
    assert (forall q, 0 <= q < 2 * 2 ^ o -> subtree (lh (merged t s)) h (2 * idx * 2 ^ o + q) = subtree (lh s) h q) as Hsh.
    { intros q Hq. apply subtree_shift. intros j Hj. rewrite Hl.
      replace (2 * idx * 2 ^ o * 2 ^ Z.of_nat h) with (idx * 2 ^ sd) by (rewrite Hsd; ring).
      rewrite decide_True; [f_equal; lia|]. symmetry. apply (Z.div_unique _ _ _ j); [left|lia]. nia. }
    rewrite <- !Hsh by lia. f_equal; f_equal; lia.
  - rewrite (ok_nodes _ Ht e r) by done. unfold levels. cbn [DEPTH simple_tree]. f_equal.
    case_decide as Hd; [|done]. unfold children_at. set (h := (Z.to_nat depth - S e)%nat).
    set (o := Z.of_nat e - (depth - sd)) in *.
    assert (forall j, 2 * r * 2 ^ Z.of_nat h <= j < (2 * r + 2) * 2 ^ Z.of_nat h -> lh (merged t s) j = lh t j) as Hsame.
    { intros j Hj. rewrite Hl, decide_False; [done|]. intros Hq. apply Hb. split; cbn; [lia|]. fold o. rewrite <- Hq.
      replace sd with (1 + Z.of_nat h + o) by lia. rewrite Z.pow_add_r, <- Z.div_div by lia. f_equal.
      rewrite Z.pow_add_r by lia. apply (Z.div_unique _ _ _ (j - 2 * r * 2 ^ Z.of_nat h)); lia. }
    f_equal; symmetry; apply subtree_ext; intros j Hj; apply Hsame; lia.
Qed.

Lemma merged_changed t s : simple_valid depth t -> simple_valid sd s ->
  changed_below (Z.to_nat sd) (idx * 2 ^ sd) (lh t) (lh (merged t s)).
Proof.
  intros Ht Hs i. rewrite Z2Nat.id, Z.div_mul by lia. intros Hi. unfold lh. rewrite merged_leaf by done.
  by rewrite decide_False.
Qed.

Lemma merged_subtree t s : simple_valid depth t -> tree_ok (L:=Word) s ->
  subtree (lh (merged t s)) (Z.to_nat sd) idx = simple_root s.
Proof.
  intros Ht Hs. transitivity (subtree (lh s) (Z.to_nat sd) 0); [|symmetry; apply (ok_root _ Hs)].
  rewrite <- (Z.add_0_r idx) at 1. apply subtree_shift. rewrite Z2Nat.id by lia. intros j Hj. unfold lh.
  rewrite merged_leaf by (done || apply Hs). rewrite decide_True; [do 2 f_equal; lia|].
  symmetry. apply (Z.div_unique _ _ _ j); lia.
Qed.

Lemma set_subtree_spec t s : tree_ok (L:=Word) t -> tree_ok (L:=Word) s ->
  exists t', set_subtree idx s t = (Ok (tree_root t'), t') /\ tree_valid t' /\
    (tree_clean (L:=Word) t' -> tree_ok (L:=Word) t') /\
    forall k, val t' k = if decide (k / 2 ^ sd = idx) then val s (k - idx * 2 ^ sd) else val t k.
Proof.
  intros Ht Hs. pose proof (simple_laws depth ltac:(lia)) as HL.
  assert (tree_valid (merged t s)) as Hv by exact (merged_valid t s (ok_valid _ Ht) (ok_valid _ Hs)).
  unfold set_subtree. destruct (Z.ltb_spec depth sd); [lia|]. cbv zeta.
  rewrite node_index_new_spec, decide_False, decide_True by lia. erewrite bind_Ok by reflexivity. rewrite bind_gets. cbn [id].
  rewrite add_branches_spec.
  2:{ intros i n Hi%elem_of_map_entries. by apply (mv_nodes _ _ (ok_valid _ Hs) i n). }
  erewrite bind_Ok by reflexivity. erewrite bind_Ok by reflexivity. fold (merged_nodes t s).
  fold (merged_leaves t s). fold (merged t s). unfold recompute_nodes_from_index_to_root. cbn [ni_depth].
  set (d := Z.to_nat (depth - sd)). assert (levels (T:=SimpleSmt depth) = Z.to_nat depth) as Hlev by done.
  assert (ancestor (T:=SimpleSmt depth) (idx * 2 ^ sd) d = idx) as Ha.
  { unfold ancestor. rewrite Hlev. replace (Z.of_nat (Z.to_nat depth - d)) with sd by lia. apply Z.div_mul. lia. }
  assert (0 <= idx * 2 ^ sd < 2 ^ Z.of_nat (levels (T:=SimpleSmt depth))) as Hp.
  { rewrite Hlev, Z2Nat.id by lia. replace depth with (depth - sd + sd) by lia. rewrite Z.pow_add_r by lia. nia. }
  replace (mkNodeIndex (depth - sd) idx) with (mkNodeIndex (Z.of_nat d) (ancestor (T:=SimpleSmt depth) (idx * 2 ^ sd) d))
    by (rewrite Ha; f_equal; lia).
  destruct (recompute_nodes_total (T:=SimpleSmt depth) (K:=Z) (V:=Word) (L:=Word) (idx * 2 ^ sd) d (simple_root s) (merged t s) Hv Hp)
    as (h' & t1 & Hr & Hv1 & Hs1); [lia|].
  exists (mkSimpleSmt h' (simple_nodes t1) (simple_leaves t1)).
  split; [erewrite bind_Ok; [done|]; erewrite bind_Ok by exact Hr; done|].
  split; [by split; [apply (mv_leaves _ _ Hv1)|apply (mv_nodes _ _ Hv1)]|]. split.
  - intros Hc. assert (forall i, lh (T:=SimpleSmt depth) (mkSimpleSmt h' (simple_nodes t1) (simple_leaves t1)) i = lh (merged t s) i) as Hlh
      by (intros i; apply (lh_same _ _ Hs1)).
    destruct (recompute_nodes_ok (T:=SimpleSmt depth) (K:=Z) (V:=Word) (L:=Word) (Z.to_nat sd) (lh t) (lh (merged t s)) (idx * 2 ^ sd) d (merged t s))
      as (t1' & Hr' & _ & Hd' & _); [|done|done| |lia|rewrite Hlev; lia|by apply merged_updated|].
    + by eapply clean_same; [|exact Hc].
    + by apply merged_changed; [apply Ht|apply Hs].
    + rewrite Ha in *. replace (levels (T:=SimpleSmt depth) - d)%nat with (Z.to_nat sd) in Hr' by (rewrite Hlev; lia).
      rewrite merged_subtree in Hr' by (done || apply Ht). rewrite Hr in Hr'. injection Hr' as Hh Ht1. subst h' t1'.
      split; [by split; [apply (mv_leaves _ _ Hv1)|apply (mv_nodes _ _ Hv1)]| |].
      * eapply describes_same; [exact Hlh|exact Hd'].
      * symmetry. apply subtree_ext. intros q _. apply Hlh.
  - intros k. transitivity (val (merged t s) k); [exact (proj1 Hs1 k)|].
    exact (merged_leaf t s k (ok_valid _ Ht) (ok_valid _ Hs)).
Qed.

End SetSubtree.
