(* ===== verification/SmtTheorems.v ===== *)
(** * Sparse Merkle trees: correctness

    What the sparse Merkle trees promise to their users: [Smt] is a map from words
    to words whose root commits to its contents, openings prove what the map holds
    and nothing else, prospective mutations do what insertions do, and [SimpleSmt]
    takes over the leaves of an inserted subtree. *)

From S2P Require Import Prelude Felt AdviceMap OpBatch AceCircuit Machine Merkle Forest.
From S2P Require Import ForestTheory MerkleTheory SparsePath SparseTree FullSmt TreeTheory.
From S2P Require Import TreeMutations SmtTheory SimpleTheory.

(** ** Sparse paths *)

Section Path.
Context `{Poseidon2}.

(** C19: a path of at most 64 nodes has a sparse form, which leaves out the roots of
    empty subtrees; expanding it gives the path back, every node is found at its
    depth, the root computed from it is the one of the path, and the form passes
    the checks of [from_parts].  Longer paths are refused. *)
Theorem sparse_path_correct (l : list Word) :
  if decide (length l <= 64)%nat then
    exists p, from_sized_iter l = Ok p /\ sp_iter p = Some l /\ sp_depth p = Z.of_nat (length l) /\
      (forall k x, l !! k = Some x -> at_depth p (Z.of_nat (length l - k)) = Ok x) /\
      (forall index node, 0 <= index -> sp_compute_root p index node = compute_root l index node) /\
      sp_from_parts (empty_nodes_mask p) (sp_nodes p) = Ok p
  else from_sized_iter l = Err (DepthTooBig (Z.of_nat (length l))).
Proof.
  case_decide as Hl.
  - exists (sparse l). split; [by apply from_sized_iter_spec|]. split; [by apply sparse_iter|].
    split; [by apply sparse_depth|]. split; [intros k x; by apply sparse_at_depth|]. split.
    + intros index node Hi. apply sp_compute_root_spec; [done|by apply sparse_iter| |done]. by rewrite sparse_depth.
    + by apply sparse_from_parts.
  - unfold from_sized_iter, SMT_MAX_DEPTH. by destruct (Z.ltb_spec 64 (Z.of_nat (length l))); [|lia].
Qed.

End Path.

(** ** [Smt] *)

Section Full.
Context `{Poseidon2}.
Implicit Types (t u : Smt) (k v : Word).

(** The leaf of the key has no room for another entry. *)
Definition leaf_full t k : Prop := Z.of_nat (length (entries_at t (leaf_index_of k))) = MAX_LEAF_ENTRIES.

Lemma leaf_full_cap t k : leaf_full t k <-> length (entries_at t (leaf_index_of k)) = leaf_cap.
Proof. unfold leaf_full, MAX_LEAF_ENTRIES. pose proof leaf_cap_Z. lia. Qed.

Lemma split_empty i l k pre mid post : entries_ok i l -> split_at k l pre mid post ->
  find_value k l = EMPTY_WORD <-> mid = [].
Proof.
  intros Hok Hsp. rewrite (find_value_split _ _ _ _ _ Hsp). destruct (sa_mid _ _ _ _ _ Hsp) as [->|[v ->]]; [done|].
  split; [|done]. intros ->. exfalso. pose proof (eo_values _ _ Hok) as Hv. rewrite (sa_eq _ _ _ _ _ Hsp) in Hv.
  apply Forall_app in Hv as [_ Hv]. by inversion_clear Hv.
Qed.

(** C12: [Smt::insert] updates a map from words to words: it returns the old value of
    the key and changes no other key.  The root and all inner nodes are those of the
    full tree over the new leaves, if no subtree of it hashes to the root of an empty
    one without being empty.  The only error is that the leaf of a new key is full,
    and then the tree is unchanged. *)
Theorem smt_insert_correct t k v : tree_ok t ->
  let refused := v <> EMPTY_WORD /\ val t k = EMPTY_WORD /\ leaf_full t k in
  match tree_insert k v t with
  | (Ok old, t') =>
      ~ refused /\ old = val t k /\ (forall k', val t' k' = if decide (k' = k) then v else val t k') /\
      smt_valid t' /\ (tree_clean t' -> tree_ok t') /\ (v = val t k -> t' = t)
  | (Err e, t') => refused /\ e = TooManyLeafEntries 1025 /\ t' = t
  | (Panic, _) => False
  end.
Proof.
  intros Hok refused. pose proof (ok_valid _ Hok) as Hv. pose proof (tree_insert_spec t k v Hv Logic.I) as Hi.
  destruct (entries_at_ok t (leaf_index_of k) Hv) as [Hent _].
  destruct (sorted_split k _ (eo_sorted _ _ Hent)) as (pre & mid & post & Hsp).
  pose proof (smt_insert_value_spec t k v pre mid post Hv Hsp) as Hs.
  assert (refused <-> v <> EMPTY_WORD /\ mid = [] /\ length (entries_at t (leaf_index_of k)) = leaf_cap) as Href.
  { unfold refused. rewrite leaf_full_cap, smt_val, (find_value_split _ _ _ _ _ Hsp) by done.
    by rewrite <- (find_value_split _ _ _ _ _ Hsp), (split_empty _ _ _ _ _ _ Hent Hsp). }
  clear Hi. destruct (decide _) as [Hf|Hf] in Hs; [apply Href in Hf|rewrite <- Href in Hf].
  - assert (tree_insert k v t = (Err (TooManyLeafEntries 1025), t)) as -> by
      (unfold tree_insert, bind at 1; by rewrite Hs). done.
  - destruct (tree_insert_Ok t k v _ _ Hv Logic.I Hs) as (t' & -> & Hins).
    split_and!; [done|done|intros k'; by apply (ins_value _ _ _ _ Hins)|apply Hins..]; auto.
Qed.

(** ** Openings *)

(** Two leaves with different entries and the same hash. *)
Definition leaf_collision (l l' : SmtLeaf) : Prop := leaf_entries l <> leaf_entries l' /\ leaf_hash l = leaf_hash l'.

(** The nodes next to the path from the leaf of a key to the root, leaf first. *)
Definition path_of t k : MerklePath := siblings (lh t) 0 64 (leaf_index_of k).

Lemma leaf_index_range k : 0 <= leaf_index_of k < 2 ^ 64.
Proof. unfold leaf_index_of. pose proof (felt_range (word_d k)). unfold ORDER in *. lia. Qed.

Lemma smt_path_root t k : tree_ok t ->
  path_root (leaf_index_of k) (leaf_hash (get_leaf t k)) (path_of t k) = smt_root t.
Proof. intros Hok. apply (tree_open_spec t k Hok Logic.I). Qed.

Lemma smt_open_eq t k : tree_ok t -> smt_open t k = Some (mkSmtProof (sparse (path_of t k)) (get_leaf t k)).
Proof. intros Hok. unfold smt_open. by rewrite (proj1 (tree_open_spec t k Hok Logic.I)). Qed.

Lemma smt_leaf_value t k k' : smt_valid t ->
  leaf_get_value (get_leaf t k) k' =
    Some (if leaf_index_of k =? leaf_index_of k' then Some (val t k') else None).
Proof.
  intros Hv. destruct (entries_at_ok t (leaf_index_of k) Hv) as [Hent Hl].
  assert (get_leaf t k = leaf_of (leaf_index_of k) (entries_at t (leaf_index_of k))) as -> by exact Hl.
  destruct (Z.eqb_spec (leaf_index_of k) (leaf_index_of k')) as [He|He].
  - rewrite leaf_get_value_of by (apply Hent || done). by rewrite smt_val, He by done.
  - unfold leaf_get_value. rewrite leaf_of_index by apply Hent. cbn [mbind option_bind].
    by destruct (Z.eqb_spec (leaf_index_of k) (leaf_index_of k')).
Qed.

(** The root a path of depth 64 gives. *)
Lemma compute_root_64 l i w : 0 <= i < 2 ^ 64 -> length l = 64%nat -> compute_root l i w = Ok (path_root i w l).
Proof.
  intros Hi Hl. apply compute_root_Ok; [lia|]. rewrite Hl. split_and!; [done|apply Hi|done].
Qed.

Lemma path_of_length t k : length (path_of t k) = 64%nat.
Proof. apply siblings_length. Qed.

(** The root of a proof whose path has passed the checks of the constructors. *)
Lemma proof_root p i : sp_valid (proof_path p) -> sp_depth (proof_path p) = SMT_DEPTH ->
  leaf_index (proof_leaf p) = Some i -> 0 <= i < 2 ^ 64 ->
  exists l, sp_iter (proof_path p) = Some l /\ length l = 64%nat /\
    proof_compute_root p = Some (path_root i (leaf_hash (proof_leaf p)) l).
Proof.
  intros Hp Hd Hl Hi. destruct (sp_valid_iter _ Hp) as (l & Hit & Hlen & Hmax). rewrite Hd in Hlen. unfold SMT_DEPTH in Hlen.
  exists l. split_and!; [done|lia|]. unfold proof_compute_root. rewrite Hl. cbn [mbind option_bind].
  rewrite (sp_compute_root_spec _ l) by (done || lia || by rewrite Hd). by rewrite compute_root_64 by lia.
Qed.

(** C15: the opening of a key of a tree is accepted by the verifier: it proves the
    value of every key of the leaf, proves that such a key has no other value, and
    is refused for the keys of other leaves. *)
Theorem smt_open_correct t k : tree_ok t ->
  exists p, smt_open t k = Some p /\ smt_proof_new (proof_path p) (proof_leaf p) = Ok p /\
    proof_compute_root p = Some (smt_root t) /\
    forall k' v,
      let same_leaf := leaf_index_of k' = leaf_index_of k in
      (same_leaf -> verify_presence p k' v (smt_root t) =
         if decide (val t k' = v) then Ok tt else Err (ValueMismatch v (val t k'))) /\
      (same_leaf -> verify_unset p k' (smt_root t) =
         if decide (val t k' = EMPTY_WORD) then Ok tt else Err (ValueMismatch EMPTY_WORD (val t k'))) /\
      (same_leaf -> verify_absence p k' v (smt_root t) =
         if decide (val t k' = v) then Err (ValuePresent k' v) else Ok tt) /\
      (~ same_leaf -> verify_presence p k' v (smt_root t) = Err InvalidKeyForProof).
Proof.
  intros Hok. pose proof (ok_valid _ Hok) as Hv. rewrite smt_open_eq by done. eexists. split; [done|].
  pose proof (sparse_depth (path_of t k)) as Hd. rewrite path_of_length in Hd. specialize (Hd ltac:(lia)).
  assert (proof_compute_root (mkSmtProof (sparse (path_of t k)) (get_leaf t k)) = Some (smt_root t)) as Hr.
  { unfold proof_compute_root. cbn [proof_path proof_leaf].
    assert (leaf_index (get_leaf t k) = Some (leaf_index_of k)) as ->.
    { destruct (entries_at_ok t (leaf_index_of k) Hv) as [Hent Hl].
      transitivity (leaf_index (leaf_of (leaf_index_of k) (entries_at t (leaf_index_of k)))); [by rewrite <- Hl|].
      apply leaf_of_index, Hent. }
    pose proof (leaf_index_range k). cbn [mbind option_bind].
    rewrite (sp_compute_root_spec _ (path_of t k)), compute_root_64, smt_path_root;
      rewrite ?sparse_iter, ?path_of_length, ?Hd by (rewrite ?path_of_length; lia); done || lia. }
  split; [unfold smt_proof_new; cbn [proof_path proof_leaf]; by rewrite Hd|]. split; [done|]. intros k' v same_leaf.
  assert (forall v, verify_presence (mkSmtProof (sparse (path_of t k)) (get_leaf t k)) k' v (smt_root t) =
    if leaf_index_of k =? leaf_index_of k'
    then if decide (val t k' = v) then Ok tt else Err (ValueMismatch v (val t k')) else Err InvalidKeyForProof) as Hp.
  { intros w. unfold verify_presence. rewrite Hr. cbn [proof_leaf]. rewrite smt_leaf_value by done. cbn [rexpect rbind].
    by destruct (_ =? _); [rewrite decide_True|]. }
  unfold verify_absence, verify_unset. rewrite !Hp. unfold same_leaf.
  destruct (Z.eqb_spec (leaf_index_of k) (leaf_index_of k')); split_and!; intros; try done; by case_decide.
Qed.

(** The leaf or the path of a proof collides with those of the tree. *)
Definition forged t p k : Prop :=
  leaf_collision (proof_leaf p) (get_leaf t k) \/
  exists nodes, sp_iter (proof_path p) = Some nodes /\
    path_collision (leaf_index_of k) (leaf_hash (proof_leaf p)) nodes (leaf_hash (get_leaf t k)) (path_of t k).

Lemma leaf_get_value_find leaf k w : leaf_get_value leaf k = Some (Some w) ->
  leaf_index leaf = Some (leaf_index_of k) /\ w = find_value k (leaf_entries leaf).
Proof.
  unfold leaf_get_value. destruct (leaf_index leaf) as [i|]; [|done]. cbn [mbind option_bind].
  destruct (Z.eqb_spec i (leaf_index_of k)) as [->|]; [|done]. intros [= <-]. split; [done|]. by destruct leaf.
Qed.

Lemma val_find t k : smt_valid t -> val t k = find_value k (leaf_entries (get_leaf t k)).
Proof. intros Hv. by rewrite smt_val. Qed.

Lemma proof_binds t p k w : tree_ok t -> sp_valid (proof_path p) -> sp_depth (proof_path p) = SMT_DEPTH ->
  leaf_get_value (proof_leaf p) k = Some (Some w) -> proof_compute_root p = Some (smt_root t) ->
  w = val t k \/ forged t p k.
Proof.
  intros Hok Hp Hd Hw Hr. apply leaf_get_value_find in Hw as [Hi ->].
  destruct (proof_root p (leaf_index_of k) Hp Hd Hi (leaf_index_range k)) as (l & Hit & Hlen & Hr').
  rewrite Hr, <- (smt_path_root t k Hok) in Hr'. apply (inj Some) in Hr'. symmetry in Hr'.
  rewrite val_find by apply Hok. destruct (decide (leaf_entries (proof_leaf p) = leaf_entries (get_leaf t k))) as [->|Hne].
  { by left. }
  right. apply path_root_inj in Hr' as [[Hh _]|Hc]; [..|by rewrite path_of_length].
  - by left.
  - right. by exists l.
Qed.

(** A proof that is accepted is true, or forged. *)
Lemma proof_sound t p k v : tree_ok t -> sp_valid (proof_path p) -> sp_depth (proof_path p) = SMT_DEPTH ->
  (verify_presence p k v (smt_root t) = Ok tt -> val t k = v \/ forged t p k) /\
  (verify_unset p k (smt_root t) = Ok tt -> val t k = EMPTY_WORD \/ forged t p k) /\
  (verify_absence p k v (smt_root t) = Ok tt -> val t k <> v \/ forged t p k).
Proof.
  intros Hok Hp Hd.
  assert (forall w x, leaf_get_value (proof_leaf p) k = Some (Some w) -> proof_compute_root p = Some x -> x = smt_root t ->
    w = val t k \/ forged t p k) as Hb by (intros w x Hw Hx ->; by apply proof_binds).
  assert (forall w, verify_presence p k w (smt_root t) = Ok tt -> val t k = w \/ forged t p k) as Hpres.
  { intros w. unfold verify_presence. destruct (leaf_get_value _ k) as [[x|]|] eqn:Hx; [|done..].
    destruct (proof_compute_root p) as [r|] eqn:Hr; [|done]. cbn [rexpect rbind].
    destruct (decide (r = smt_root t)) as [Hroot|]; [|done]. destruct (decide (x = w)) as [<-|]; [|done].
    intros _. destruct (Hb x r eq_refl eq_refl Hroot); auto. }
  split_and!; [apply Hpres|apply Hpres|]. unfold verify_absence, verify_presence.
  destruct (leaf_get_value _ k) as [[x|]|] eqn:Hx; [|done..].
  destruct (proof_compute_root p) as [r|] eqn:Hr; [|done]. cbn [rexpect rbind].
  destruct (decide (r = smt_root t)) as [Hroot|]; [|done]. destruct (decide (x = v)) as [|Hne]; [done|].
  intros _. destruct (Hb x r eq_refl eq_refl Hroot) as [->|]; auto.
Qed.

(** ** Commitment *)

Lemma tree_contents t u : tree_ok t -> tree_ok u -> (forall k, val t k = val u k) -> t = u.
Proof.
  intros Ht Hu Hval. assert (forall i, lh t i = lh u i) as Hl
    by (intros i; unfold lh; f_equal; apply leaf_ext; [apply Ht|apply Hu|auto]).
  apply tree_ext; [apply Ht|apply Hu| | |auto].
  - rewrite (ok_root _ Ht), (ok_root _ Hu). by apply subtree_ext.
  - apply (describes_index (T:=Smt) _ _ (lh u)); [|apply Hu]. by eapply describes_same; [|apply Ht].
Qed.

(** C11: the root of a tree is a commitment to its contents.  Two trees with the same
    contents are the same, root and inner nodes included, whatever insertions and
    removals led to them; and if two trees have the same root, then every key has
    the same value in both, or their leaves or paths at the key collide. *)
Theorem smt_root_commits t u : tree_ok t -> tree_ok u ->
  ((forall k, val t k = val u k) -> t = u) /\
  (smt_root t = smt_root u -> forall k, val t k = val u k \/
     leaf_collision (get_leaf t k) (get_leaf u k) \/
     path_collision (leaf_index_of k) (leaf_hash (get_leaf t k)) (path_of t k)
       (leaf_hash (get_leaf u k)) (path_of u k)).
Proof.
  intros Ht Hu. split; [by apply tree_contents|]. intros Hr k.
  rewrite <- (smt_path_root t k Ht), <- (smt_path_root u k Hu) in Hr. rewrite !val_find by (apply Ht || apply Hu).
  destruct (decide (leaf_entries (get_leaf t k) = leaf_entries (get_leaf u k))) as [->|Hne]; [by left|right].
  apply path_root_inj in Hr as [[Hh _]|Hc]; [by left|by right|]. by rewrite !path_of_length.
Qed.

(** ** Construction *)

(** No leaf would hold more than 1024 of the keys. *)
Definition keys_fit (S : gset Word) : Prop :=
  forall i, Z.of_nat (size (filter (fun k => leaf_index_of k = i) S)) <= MAX_LEAF_ENTRIES.

Lemma keys_fit_fits S : keys_fit S -> smt_fits S.
Proof. intros Hf i. specialize (Hf i). unfold MAX_LEAF_ENTRIES in Hf. pose proof leaf_cap_Z. lia. Qed.

#[local] Instance fresh_dec (f : Word -> Word) z l : Decision (fresh EMPTY_WORD f z l).
Proof. unfold fresh. apply _. Defined.

Lemma seen_empty `{Countable K} (k k' : K) (v : Word) (z : gset K) :
  k' ∈ (if decide (v = EMPTY_WORD) then {[ k ]} ∪ z else z) <-> k' = k /\ v = EMPTY_WORD \/ k' ∈ z.
Proof. case_decide; rewrite ?elem_of_union, ?elem_of_singleton; tauto. Qed.

Lemma insert_entries_spec S l z t : tree_valid t -> smt_fits S -> supported t S -> keys_in l S ->
  if decide (fresh EMPTY_WORD (val t) z l)
  then exists u, insert_entries l z t = (Ok tt, u) /\ insert_all l t = (Ok tt, u)
  else exists k u, insert_entries l z t = (Err (DuplicateValuesForIndex (leaf_index_of k)), u).
Proof.
  intros Hv Hf. revert z t Hv. induction l as [|[k v] l IH]; intros z t Hv Hs Hl.
  { rewrite decide_True by (split; constructor). by exists t. }
  inversion_clear Hl as [|? ? [_ Hin] Hl']. cbn [fst] in *.
  destruct (tree_insert_fits S t k v Hv Logic.I Hf Hin Hs) as (t' & Ht & Hi).
  cbn [insert_entries insert_all]. rewrite !(bind_Ok _ _ _ _ _ Ht).
  destruct (decide (val t k <> EMPTY_WORD \/ k ∈ z)) as [Hd|Hd].
  - rewrite decide_False; [by eexists _, _|]. intros [_ Hall]. inversion_clear Hall. cbn in *. tauto.
  - assert (val t k = EMPTY_WORD /\ k ∉ z) as [Hk Hkz] by (destruct (decide (val t k = EMPTY_WORD)); tauto).
    assert (forall k', val t' k' = if decide (k' = k) then v else val t k') as Hval
      by (intros k'; by apply (ins_value _ _ _ _ Hi)).
    specialize (IH (if decide (v = EMPTY_WORD) then {[ k ]} ∪ z else z) t' (ins_valid _ _ _ _ Hi)
      (supported_value t t' k v S Hs Hin (fun k' _ => Hval k')) Hl').
    pose proof (fresh_cons EMPTY_WORD (val t) (val t') z _ k v l Hk Hkz (fun k' _ => Hval k') (fun k' => seen_empty k k' v z)) as Hiff.
    destruct (decide (fresh _ _ _ l)) as [Hg|Hg]; [rewrite decide_True by (by apply Hiff)|rewrite decide_False by (by rewrite <- Hiff)]; done.
Qed.

Lemma keys_in_set (l : list (Word * Word)) (S : gset Word) : (forall k, k ∈ l.*1 -> k ∈ S) -> keys_in (T:=Smt) l S.
Proof. intros Hl. apply Forall_forall. intros e He. split; [done|]. by apply Hl, list_elem_of_fmap_2. Qed.

Lemma with_entries_spec l empty : smt_new = Some empty -> smt_fits (list_to_set l.*1) -> clean_run l empty ->
  if decide (NoDup l.*1) then
    exists t, with_entries_sequential l = Ok t /\ tree_ok t /\
      forall k, val t k = default EMPTY_WORD (list_to_map (M:=gmap Word Word) l !! k)
  else exists k, with_entries_sequential l = Err (DuplicateValuesForIndex (leaf_index_of k)).
Proof.
  intros Hnew Hf Hc. destruct smt_new_ok as (e & He & Hok & Hval). rewrite He in Hnew.
  injection Hnew as ->. assert (forall E, rexpect (E:=E) smt_new = Ok empty) as Hr by (intros E; by rewrite He).
  unfold with_entries_sequential. rewrite Hr. cbn [rbind]. clear Hr He.
  pose proof (insert_entries_spec _ l ∅ empty (ok_valid _ Hok) Hf) as Hspec.
  assert (supported empty (list_to_set l.*1)) as Hs by (intros k _ Hk; by rewrite Hval in Hk).
  specialize (Hspec Hs (keys_in_set l _ (fun k => proj2 (elem_of_list_to_set k l.*1)))).
  assert (Forall (fun e => val empty (fst e) = EMPTY_WORD /\ fst e ∉ (∅ : gset Word)) l) as Hall
    by (apply Forall_forall; intros e' _; split; [apply Hval|apply not_elem_of_empty]).
  destruct (decide (NoDup l.*1)) as [Hnd|Hnd].
  - rewrite decide_True in Hspec by done. destruct Hspec as (u & -> & Hu). exists u.
    assert (Forall (fun e => key_ok (T:=Smt) (fst e)) l) as Hk by (by apply Forall_forall). split_and!; [done|by eapply insert_all_ok|].
    intros k. destruct (insert_all_values l empty u (ok_valid _ Hok) Hk Hnd Hu) as [_ Hv].
    by rewrite Hv, Hval by done.
  - rewrite decide_False in Hspec by (by intros [? _]). destruct Hspec as (k & u & ->). by exists k.
Qed.


(** ** Prospective mutations *)

(** C13: computing mutations and applying them does what inserting the pairs one after
    the other does; the reverse mutations lead back to the tree.  The hash maps that
    hold the mutations may be iterated in any order, a different one each time.  All
    keys in use and all keys of the pairs must fit into their leaves together. *)
Theorem smt_mutations_correct (O1 O2 O3 : MapOrder) (L1 : MapOrderLaws O1) (L2 : MapOrderLaws O2)
    (L3 : MapOrderLaws O3) (S : gset Word) t l :
  tree_ok t -> keys_fit S -> (forall k, val t k <> EMPTY_WORD -> k ∈ S) -> (forall k, k ∈ l.*1 -> k ∈ S) ->
  NoDup l.*1 -> clean_run l t ->
  exists ms rev u,
    insert_all l t = (Ok tt, u) /\ tree_ok u /\
    (forall k, val u k = default (val t k) (list_to_map (M:=gmap Word Word) l !! k)) /\
    compute_mutations (H1:=O1) t l = Ok ms /\ old_root ms = smt_root t /\ new_root ms = smt_root u /\
    tree_apply_mutations (H1:=O2) ms t = (Ok tt, u) /\
    tree_apply_mutations_with_reversion (H1:=O2) ms t = (Ok rev, u) /\
    tree_apply_mutations (H1:=O3) rev u = (Ok tt, t).
Proof.
  intros Hok Hf%keys_fit_fits Hs Hl Hnd Hc.
  destruct (mutations_spec O1 O2 O3 S t l Hok Hf (fun k _ => Hs k) (keys_in_set l S Hl) Hnd Hc)
    as (ms & rev & u & Hcm & Hi & Hu & Hv & Hrest). exists ms, rev, u. split_and!; try done; [|apply Hrest..].
  intros k. by apply Hv.
Qed.

(** Mutations of a tree whose node mutations lead to [u]: the nodes can be applied. *)
Lemma apply_nodes_to (O : MapOrder) (L : MapOrderLaws O) S t (st : MutationState) u : tree_valid t -> mutating S t st u ->
  exists t', apply_node_mutations (map_entries (ms_nodes st)) t = (Ok tt, t') /\ tree_valid t' /\
    smt_root t' = smt_root t /\ same_leaves t t' /\
    forall i, index_ok (T:=Smt) i -> get_inner_node t' i = get_inner_node u i.
Proof.
  intros Hv Hm. destruct (list_to_map_perm _ _ (map_entries_perm (ms_nodes st))) as [Hmap Hnd].
  destruct (apply_nodes_spec (map_entries (ms_nodes st)) t ∅ Hv) as (t' & _ & Ha & _ & Hns & _); [|done|].
  { apply Forall_forall. intros [i m] Hin%elem_of_map_entries. by apply (mi_mutations _ _ _ _ Hm i m). }
  rewrite Hmap in Hns. exists t'. split; [done|]. split; [apply Hns|]. split; [apply (ns_root _ _ _ Hns)|]. split; [apply Hns|].
  intros i Hi. rewrite (ns_nodes _ _ _ Hns). revert i Hi.
  apply (describes_index (T:=Smt) _ _ (lh u)); [apply Hm|apply (mi_ok _ _ _ _ Hm)].
Qed.

(** Room for an entry, after one was removed. *)
Lemma removed_room t u k : tree_ok t -> val t k <> EMPTY_WORD -> leaf_full t k -> inserted t u k EMPTY_WORD ->
  (length (entries_at u (leaf_index_of k)) < leaf_cap)%nat.
Proof.
  intros Hok Hk Hfull%leaf_full_cap Hi. pose proof (ok_valid _ Hok) as Hv. set (i := leaf_index_of k) in *.
  destruct (entries_at_ok t i Hv) as [Hent _].
  destruct (sorted_split k _ (eo_sorted _ _ Hent)) as (pre & mid & post & Hsp).
  pose proof (smt_insert_value_spec t k EMPTY_WORD pre mid post Hv Hsp) as Hs. rewrite decide_False in Hs by tauto.
  pose proof (insert_value_spec t k EMPTY_WORD Hv Logic.I) as Hset. rewrite Hs in Hset. destruct Hset as [_ Hset].
  assert (leaf_at u i = leaf_at (set_entries t i (put_entries k EMPTY_WORD pre post)) i) as Hl.
  { apply leaf_ext; [apply Hi|apply Hset|]. intros k' _ _. by rewrite (ins_value _ _ _ _ Hi), (vs_value _ _ _ _ Hset). }
  unfold entries_at at 1. rewrite Hl, set_entries_leaf, decide_True, leaf_of_entries by done.
  rewrite <- Hfull, (sa_eq _ _ _ _ _ Hsp). unfold put_entries. rewrite decide_True by done.
  rewrite smt_val in Hk by done. fold i in Hk. rewrite (split_empty _ _ _ _ _ _ Hent Hsp) in Hk. destruct mid; [done|].
  rewrite !length_app. cbn. lia.
Qed.

Lemma insert_room t k v : tree_valid t -> (length (entries_at t (leaf_index_of k)) < leaf_cap)%nat ->
  exists old t', insert_value k v t = (Ok old, t').
Proof.
  intros Hv Hl. destruct (entries_at_ok t (leaf_index_of k) Hv) as [Hent _].
  destruct (sorted_split k _ (eo_sorted _ _ Hent)) as (pre & mid & post & Hsp).
  rewrite (smt_insert_value_spec t k v pre mid post Hv Hsp), decide_False by lia. eauto.
Qed.

Lemma insert_refused t k v : tree_valid t -> v <> EMPTY_WORD -> val t k = EMPTY_WORD -> leaf_full t k ->
  insert_value k v t = (Err (TooManyLeafEntries 1025), t).
Proof.
  intros Hv Hne Hk Hf%leaf_full_cap. destruct (entries_at_ok t (leaf_index_of k) Hv) as [Hent _].
  destruct (sorted_split k _ (eo_sorted _ _ Hent)) as (pre & mid & post & Hsp).
  rewrite smt_val, (split_empty _ _ _ _ _ _ Hent Hsp) in Hk by done.
  by rewrite (smt_insert_value_spec t k v pre mid post Hv Hsp), decide_True by done.
Qed.

Lemma insert_removal t k : tree_valid t -> exists old t', insert_value k EMPTY_WORD t = (Ok old, t').
Proof.
  intros Hv. destruct (entries_at_ok t (leaf_index_of k) Hv) as [Hent _].
  destruct (sorted_split k _ (eo_sorted _ _ Hent)) as (pre & mid & post & Hsp).
  rewrite (smt_insert_value_spec t k EMPTY_WORD pre mid post Hv Hsp), decide_False by tauto. eauto.
Qed.

Lemma map_entries_empty `{O : MapOrder} `{!MapOrderLaws O} {K A} `{Countable K} : map_entries (∅ : gmap K A) = [].
Proof. apply Permutation_nil_r. by rewrite map_entries_perm, map_to_list_empty. Qed.

Lemma map_entries_singleton `{O : MapOrder} `{!MapOrderLaws O} {K A} `{Countable K} (k : K) (x : A) :
  map_entries ({[ k := x ]} : gmap K A) = [(k, x)].
Proof. apply Permutation_singleton_r. by rewrite map_entries_perm, map_to_list_singleton. Qed.

(** A removal and an insertion in the same full leaf, computed in this order. *)
Lemma full_leaf_computed (O : MapOrder) (L : MapOrderLaws O) t k0 k1 v : tree_ok t ->
  leaf_index_of k0 = leaf_index_of k1 -> leaf_full t k0 -> val t k0 = EMPTY_WORD -> val t k1 <> EMPTY_WORD ->
  v <> EMPTY_WORD -> clean_run [(k1, EMPTY_WORD); (k0, v)] t ->
  exists st u, insert_all [(k1, EMPTY_WORD); (k0, v)] t = (Ok tt, u) /\
    rfold (mutate_pair t) (mkMutationState (tree_root t) ∅ ∅ ∅) [(k1, EMPTY_WORD); (k0, v)] = Ok st /\
    mutating {[ k0; k1 ]} t st u /\ ms_pairs st = {[ k0 := v; k1 := EMPTY_WORD ]}.
Proof.
  intros Hok Hi Hf H0 H1 Hv Hc. pose proof (ok_valid _ Hok) as Hval.
  assert (k0 <> k1) as Hk by congruence. set (S := {[ k0; k1 ]} : gset Word).
  destruct (insert_removal t k1 Hval) as (o1 & t1 & Ht1).
  destruct (mutate_pair_step (O:=O) S t (mkMutationState (tree_root t) ∅ ∅ ∅) t k1 EMPTY_WORD o1 t1)
    as (u1 & Hu1 & Hins1 & Hs1); [done|by apply mutating_start|done|set_solver|set_solver|exact Ht1| |].
  { unfold prospective_leaf. cbn [ms_pairs]. by rewrite map_entries_empty, get_leaf_at. }
  cbn [clean_run] in Hc. rewrite Hu1 in Hc. destruct Hc as [Hc1 Hc].
  destruct (Hs1 Hc1) as (s1 & Hp1 & Hm1 & Hseen1 & Hpairs1). rewrite decide_False in Hpairs1 by congruence.
  cbn [ms_pairs ms_seen] in *.
  assert (leaf_full t k1) as Hf1 by (unfold leaf_full in *; by rewrite <- Hi).
  pose proof (removed_room t u1 k1 Hok H1 Hf1 Hins1) as Hroom. rewrite <- Hi in Hroom.
  destruct (insert_room u1 k0 v (ins_valid _ _ _ _ Hins1) Hroom) as (o2 & t2 & Ht2).
  destruct (mutate_pair_step (O:=O) S t s1 u1 k0 v o2 t2)
    as (u & Hu & Hins & Hs2); [exact Hval|exact Hm1|done|by apply elem_of_union_l, elem_of_singleton|
    rewrite Hseen1, elem_of_union, elem_of_singleton; intros [Hkk|Hkk%not_elem_of_empty]; [by apply Hk|exact Hkk]|exact Ht2| |].
  { unfold prospective_leaf. rewrite Hpairs1, insert_empty, map_entries_singleton, filter_cons_True by done.
    cbn [foldl filter list_filter]. pose proof (prospective_spec t k1 EMPTY_WORD Hval Logic.I (not_eq_sym H1)) as Hps.
    rewrite !get_leaf_at in *. cbn [key_to_leaf_index smt_tree] in *. rewrite Hi, Ht1 in *. cbn [mbind option_bind].
    rewrite Hps, get_leaf_at. f_equal. pose proof (insert_value_spec t k1 EMPTY_WORD Hval Logic.I) as Hset.
    rewrite Ht1 in Hset. destruct Hset as [_ Hset]. apply leaf_ext; [apply Hset|apply Hins1|].
    intros k' _ _. by rewrite (ins_value _ _ _ _ Hins1), (vs_value _ _ _ _ Hset). }
  rewrite Hu in Hc. destruct (Hs2 (proj1 Hc)) as (s2 & Hp2 & Hm2 & _ & Hpairs2).
  rewrite decide_False, Hpairs1 in Hpairs2 by congruence.
  exists s2, u. cbn [insert_all rfold]. rewrite (bind_Ok _ _ _ _ _ Hu1), (bind_Ok _ _ _ _ _ Hu), Hp1. cbn [rbind]. rewrite Hp2.
  done.
Qed.

(** C14: mutations of a full leaf can be computed and yet fail to apply.  In a tree with
    a leaf of 1024 entries, remove one entry and add another one to the same leaf:
    inserting the pairs one after the other works, and so does computing the
    mutations.  Applying them inserts the pairs in the order of the map that holds
    them; if the added key comes first, [apply_mutations] returns an error, after it
    has already replaced the inner nodes.  The tree is left with the leaves and the
    root of before and the inner nodes of after, and is not sound. *)
Theorem full_leaf_mutations_fail (O1 O2 : MapOrder) (L1 : MapOrderLaws O1) (L2 : MapOrderLaws O2) t k0 k1 v :
  tree_ok t -> leaf_index_of k0 = leaf_index_of k1 -> leaf_full t k0 -> val t k0 = EMPTY_WORD ->
  val t k1 <> EMPTY_WORD -> v <> EMPTY_WORD -> clean_run [(k1, EMPTY_WORD); (k0, v)] t ->
  @map_entries O2 _ _ _ _ ({[ k0 := v; k1 := EMPTY_WORD ]} : gmap Word Word) = [(k0, v); (k1, EMPTY_WORD)] ->
  exists ms u t',
    insert_all [(k1, EMPTY_WORD); (k0, v)] t = (Ok tt, u) /\ tree_ok u /\
    compute_mutations (H1:=O1) t [(k1, EMPTY_WORD); (k0, v)] = Ok ms /\
    tree_apply_mutations (H1:=O2) ms t = (Err (TooManyLeafEntries 1025), t') /\
    smt_root t' = smt_root t /\ (forall k, val t' k = val t k) /\
    (forall i, index_ok (T:=Smt) i -> get_inner_node t' i = get_inner_node u i) /\
    (smt_root u <> smt_root t -> ~ tree_ok t').
Proof.
  intros Hok Hi Hf H0 H1 Hv Hc Hord.
  destruct (full_leaf_computed O1 L1 t k0 k1 v Hok Hi Hf H0 H1 Hv Hc) as (st & u & Hu & Hst & Hm & Hp).
  destruct (apply_nodes_to O2 L2 _ t st u (ok_valid _ Hok) Hm) as (t' & Ha & Hv' & Hroot & [Hval Hleaf] & Hn).
  pose proof (mi_ok _ _ _ _ Hm) as Hoku.
  exists (mkMutationSet (tree_root t) (ms_nodes st) (ms_pairs st) (ms_root st)), u, t'.
  split; [done|]. split; [done|]. split; [unfold compute_mutations; by rewrite Hst|]. split.
  { unfold tree_apply_mutations. rewrite bind_gets. cbn [id old_root node_mutations new_pairs].
    rewrite decide_True by done. rewrite (bind_Ok _ _ _ _ _ Ha), Hp, Hord. cbn [insert_values].
    unfold bind. rewrite (insert_refused t' k0 v); [done|done|done|by rewrite Hval|].
    unfold leaf_full, entries_at in *. by rewrite Hleaf. }
  split_and!; [done|done|done|]. intros Hne Hok'. apply Hne.
  assert (t' = t) as -> by (by apply tree_contents).
  destruct (root_node t Hok) as (n & Hn1 & Hr1), (root_node u Hoku) as (n' & Hn2 & Hr2).
  rewrite Hn, Hn2 in Hn1 by (split; cbn; done). injection Hn1 as ->.
  change (tree_root u = tree_root t). by rewrite Hr1, Hr2.
Qed.

End Full.

(** ** [SimpleSmt] *)

Section Simple.
Context `{Poseidon2} (depth : Z).

Lemma leaf_index_new_spec k : 1 <= depth <= 64 -> 0 <= k < 2 ^ depth -> leaf_index_new depth k = Ok k.
Proof.
  intros Hd Hk. unfold leaf_index_new, SMT_MIN_DEPTH. destruct (Z.ltb_spec depth 1); [lia|].
  by rewrite node_index_new_spec, decide_False, decide_True by lia.
Qed.

#[local] Instance simple_fresh_dec (f : Z -> Word) z l : Decision (fresh EMPTY_WORD f z l).
Proof. unfold fresh. apply _. Defined.

Lemma insert_leaves_spec l idx z (t : SimpleSmt depth) : 1 <= depth <= 64 -> tree_valid t ->
  Forall (fun e => 0 <= fst e < 2 ^ depth) l -> 0 <= idx -> idx + Z.of_nat (length l) <= 2 ^ Z.min depth 63 ->
  if decide (fresh EMPTY_WORD (val t) z l)
  then exists u, insert_leaves idx l z t = (Ok tt, u) /\ insert_all l t = (Ok tt, u)
  else exists k u, insert_leaves idx l z t = (Err (DuplicateValuesForIndex k), u).
Proof.
  intros Hd. pose proof (simple_laws depth Hd) as HL. revert idx z t.
  induction l as [|[k v] l IH]; intros idx z t Hv Hl Hidx Hlen.
  { rewrite decide_True by (split; constructor). by exists t. }
  inversion_clear Hl as [|? ? Hk Hl']. cbn [fst length] in *.
  destruct (insert_value_fits ({[ k ]} ∪ dom (simple_leaves t)) t k v Hv Hk Logic.I) as (o & t1 & Ht1); [set_solver| |].
  { intros k' _ Hk'. apply elem_of_union_r, elem_of_dom. unfold val in Hk'. cbn in Hk'.
    destruct (simple_leaves t !! k'); [done|by destruct Hk']. }
  destruct (tree_insert_Ok t k v _ _ Hv Hk Ht1) as (t' & Ht & Hi).
  cbn [insert_leaves insert_all]. destruct (Z.leb_spec (2 ^ Z.min depth 63) idx); [lia|].
  rewrite leaf_index_new_spec by done. erewrite bind_Ok by reflexivity.
  assert (simple_insert k v t = (Ok (val t k), t')) as Hsi by (unfold simple_insert; by rewrite Ht).
  rewrite (bind_Ok _ _ _ _ _ Hsi), (bind_Ok _ _ _ _ _ Ht).
  destruct (decide (val t k <> EMPTY_WORD \/ k ∈ z)) as [Hdup|Hdup].
  - rewrite decide_False; [by eexists _, _|]. intros [_ Hall]. inversion_clear Hall. cbn in *. tauto.
  - assert (val t k = EMPTY_WORD /\ k ∉ z) as [Hke Hkz] by (destruct (decide (val t k = EMPTY_WORD)); tauto).
    assert (forall k', k' ∈ l.*1 -> val t' k' = if decide (k' = k) then v else val t k') as Hval.
    { intros k' (e & -> & He)%list_elem_of_fmap. apply (ins_value _ _ _ _ Hi). by apply (proj1 (Forall_forall _ _) Hl'). }
    specialize (IH (idx + 1) (if decide (v = EMPTY_WORD) then {[ k ]} ∪ z else z) t' (ins_valid _ _ _ _ Hi)
      Hl' ltac:(lia) ltac:(lia)).
    pose proof (fresh_cons EMPTY_WORD (val t) (val t') z _ k v l Hke Hkz Hval (fun k' => seen_empty k k' v z)) as Hiff.
    destruct (decide (fresh _ _ _ l)) as [Hg|Hg]; [rewrite decide_True by (by apply Hiff)|rewrite decide_False by (by rewrite <- Hiff)]; done.
Qed.

(** [SimpleSmt::with_leaves] gives the tree with the given leaves and no others,
    with the root and the inner nodes of the full tree over them; entries with a key
    twice are refused. *)
Lemma with_leaves_spec l empty : 1 <= depth <= 64 -> simple_new depth = Ok empty ->
  Forall (fun e => 0 <= fst e < 2 ^ depth) l -> Z.of_nat (length l) <= 2 ^ Z.min depth 63 ->
  clean_run (L:=Word) l empty ->
  if decide (NoDup l.*1) then
    exists t, with_leaves depth l = Ok t /\ tree_ok (L:=Word) t /\
      forall k, 0 <= k < 2 ^ depth -> get_leaf t k = default EMPTY_WORD (list_to_map (M:=gmap Z Word) l !! k)
  else exists k, with_leaves depth l = Err (DuplicateValuesForIndex k).
Proof.
  intros Hd Hnew Hl Hlen Hc. pose proof (simple_laws depth Hd) as HL.
  destruct (simple_new_ok depth Hd) as (e & He & Hok & Hval). rewrite He in Hnew. injection Hnew as ->.
  unfold with_leaves. rewrite He. cbn [rbind]. clear He.
  pose proof (insert_leaves_spec l 0 ∅ empty Hd (ok_valid _ Hok) Hl ltac:(lia) Hlen) as Hspec.
  assert (Forall (fun e => val empty (fst e) = EMPTY_WORD /\ fst e ∉ (∅ : gset Z)) l) as Hall
    by (apply Forall_forall; intros e' _; split; [apply Hval|apply not_elem_of_empty]).
  destruct (decide (NoDup l.*1)) as [Hnd|Hnd].
  - rewrite decide_True in Hspec by done. destruct Hspec as (u & -> & Hu). exists u.
    split_and!; [done|by eapply insert_all_ok|].
    intros k Hk. destruct (insert_all_values l empty u (ok_valid _ Hok) Hl Hnd Hu) as [_ Hv].
    specialize (Hv k Hk). by rewrite Hval in Hv.
  - rewrite decide_False in Hspec by (by intros [? _]). destruct Hspec as (k & u & ->). by exists k.
Qed.

(** C18: inserting a subtree into a [SimpleSmt] replaces the leaves below the node at
    the insertion index by the leaves of the subtree and leaves the other leaves as
    they are; the root and all inner nodes are then those of the full tree over the
    new leaves.  A subtree deeper than the tree and an index out of range are
    errors, which leave the tree unchanged. *)
Theorem set_subtree_correct (O : MapOrder) (L : MapOrderLaws O) (sd idx : Z) (t : SimpleSmt depth) (s : SimpleSmt sd) :
  1 <= depth <= 64 -> 1 <= sd <= 64 -> 0 <= idx -> tree_ok (L:=Word) t -> tree_ok (L:=Word) s ->
  if decide (depth < sd) then set_subtree idx s t = (Err (SubtreeDepthExceedsDepth sd depth), t)
  else if decide (2 ^ (depth - sd) <= idx) then set_subtree idx s t = (Err (InvalidNodeIndex (depth - sd) idx), t)
  else exists t', set_subtree idx s t = (Ok (simple_root t'), t') /\
    (tree_clean (L:=Word) t' -> tree_ok (L:=Word) t') /\
    forall k, val t' k = if decide (k / 2 ^ sd = idx) then val s (k - idx * 2 ^ sd) else val t k.
Proof.
  intros Hd Hsd Hidx Ht Hs. case_decide as Hlt; [unfold set_subtree; by destruct (Z.ltb_spec depth sd); [|lia]|].
  case_decide as Hout.
  - unfold set_subtree. destruct (Z.ltb_spec depth sd); [lia|].
    rewrite node_index_new_spec, decide_False, decide_False by lia. done.
  - destruct (set_subtree_spec depth sd idx ltac:(lia) ltac:(lia) ltac:(lia) t s Ht Hs) as (t' & Hset & _ & Hok & Hval).
    by exists t'.
Qed.

End Simple.
