(* ===== verification/SmtSerde.v ===== *)
(** * The wire format of sparse Merkle trees

    The serialization of [SparseMerklePath] (sparse_path.rs), [SmtLeaf]
    (smt/full/leaf.rs), [SmtProof] (smt/full/proof.rs) and [Smt]
    (smt/full/mod.rs), and what it is worth: trees and openings survive the
    round trip, and a proof read from bytes of unknown origin neither makes the
    verifier panic nor convinces it of anything false, up to collisions. *)

From S2P Require Import Prelude Felt AdviceMap Serde SerdeTheory Operations OpSerde SerdeSafe.
From S2P Require Import OpBatch AceCircuit Machine Merkle Forest ForestTheory MerkleTheory.
From S2P Require Import SparsePath SparseTree FullSmt TreeTheory TreeMutations SmtTheory.
From S2P Require Import SimpleTheory SmtTheorems.

(** ** Definitions *)

Section Serde.
Context `{Poseidon2}.

(** An error of a constructor, as an error of the reader. *)
Definition or_invalid {E A R} (m : res E A) (message : string) : DM R A :=
  fun r => (match m with Ok a => Ok a | Err _ => Err (InvalidValue message) | Panic => Panic end, r).

Definition path_write_into (p : SparseMerklePath) : list Z :=
  write_u8 (sp_depth p) ++ write_u64 (empty_nodes_mask p) ++ write_many (sp_nodes p).

Definition path_read_from {R} `{ByteReader R} : DM R SparseMerklePath :=
  let! depth := read_u8 in
  if SMT_MAX_DEPTH <? depth then fail (InvalidValue "SparseMerklePath max depth exceeded")
  else
    let! empty_nodes_mask := read_u64 in
    let empty_nodes_count := Z.of_nat (count_ones empty_nodes_mask) in
    if depth <? empty_nodes_count
    then fail (InvalidValue "SparseMerklePath has more empty nodes than its full length")
    else
      let count := depth - empty_nodes_count in
      let! nodes := read_many count in
      or_invalid (sp_from_parts empty_nodes_mask nodes) "invalid SparseMerklePath".

(** [None] is a panic: the index of a leaf without entries. *)
Definition leaf_write_into (leaf : SmtLeaf) : option (list Z) :=
  index ← leaf_index leaf;
  Some (write_usize (Z.of_nat (leaf_num_entries leaf)) ++ write_u64 index ++ write_many (leaf_entries leaf)).

Definition leaf_read_from {R} `{ByteReader R} : DM R SmtLeaf :=
  let! num_entries := read_usize in
  let! leaf_index := read_u64 in
  let! entries := read_many num_entries in
  or_invalid (leaf_new entries leaf_index) "invalid SmtLeaf".

Definition proof_write_into (p : SmtProof) : option (list Z) :=
  leaf ← leaf_write_into (proof_leaf p);
  Some (path_write_into (proof_path p) ++ leaf).

Definition proof_read_from {R} `{ByteReader R} : DM R SmtProof :=
  let! path := path_read_from in
  let! leaf := leaf_read_from in
  or_invalid (smt_proof_new path leaf) "invalid SmtProof".

(** [Smt::entries]: the leaves in the order of the map that holds them. *)
Definition smt_entries `{MapOrder} (t : Smt) : list (Word * Word) :=
  map_entries (leaves t) ≫= fun '(_, leaf) => leaf_entries leaf.

Definition smt_write_into `{MapOrder} (t : Smt) : list Z :=
  write_usize (Z.of_nat (length (smt_entries t))) ++ write_many (smt_entries t).

Definition smt_get_size_hint `{MapOrder} (t : Smt) : Z :=
  let entries_count := Z.of_nat (length (smt_entries t)) in
  Z.of_nat (usize_encoded_len entries_count) +
  entries_count * (WORD_SERIALIZED_BYTES + get_size_hint EMPTY_WORD).

Definition smt_read_from {R} `{ByteReader R} : DM R Smt :=
  let! num_filled_leaves := read_usize in
  let! entries := read_many num_filled_leaves in
  or_invalid (with_entries_sequential entries) "invalid entries".

(** ** Reading what was written *)

Lemma read_u64_ready {R} `{RL : ReaderLaws R} x r bs : 0 <= x < 2 ^ 64 -> ready r (write_u64 x ++ bs) ->
  read_u64 r = (Ok x, advance r 8).
Proof. intros Hx Hr. by apply (read_le_ready 8 x r bs). Qed.

Lemma length_write_u64 x : length (write_u64 x) = 8%nat.
Proof. apply length_to_le_bytes. Qed.

Lemma sp_valid_from_parts p : sp_valid p -> sp_from_parts (empty_nodes_mask p) (sp_nodes p) = Ok p.
Proof.
  intros Hv. pose proof (sp_from_parts_spec (empty_nodes_mask p) (sp_nodes p) (proj1 Hv)) as Hs. destruct p as [mask nodes].
  cbn [empty_nodes_mask sp_nodes] in *. by destruct (sp_from_parts mask nodes) as [q|e|]; [destruct Hs as [-> _]| |].
Qed.

Lemma path_roundtrip {R} `{RL : ReaderLaws R} p r bs : sp_valid p ->
  ready r (path_write_into p ++ bs) -> path_read_from r = (Ok p, advance r (length (path_write_into p))).
Proof.
  intros Hv Hr. pose proof (sp_valid_from_parts p Hv) as Hp. destruct Hv as (Hm & Hlen & Hd).
  unfold path_write_into, path_read_from in *. unfold sp_depth in *.
  set (d := depth_from_parts (empty_nodes_mask p) (sp_nodes p)) in *.
  assert (d = Z.of_nat (length (sp_nodes p)) + Z.of_nat (count_ones (empty_nodes_mask p))) as Hd'
    by (unfold d, depth_from_parts; lia).
  rewrite Z.mod_small in * by lia. rewrite <- !app_assoc in Hr.
  erewrite bind_Ok by exact (read_u8_ready _ _ _ Hr). apply (ready_advance r [d]) in Hr. cbn [length] in Hr.
  unfold SMT_MAX_DEPTH. destruct (Z.ltb_spec 64 d); [lia|].
  erewrite bind_Ok by exact (read_u64_ready _ _ _ Hm Hr). apply ready_advance in Hr.
  rewrite length_write_u64 in Hr. cbv zeta.
  destruct (Z.ltb_spec d (Z.of_nat (count_ones (empty_nodes_mask p)))); [lia|].
  erewrite bind_Ok by (apply (read_many_ready (sp_nodes p) _ bs); [by apply Forall_true|lia|exact Hr]).
  unfold or_invalid. rewrite Hp. rewrite !advance_add, !length_app. rewrite length_write_u64.
  done.
Qed.

(** A leaf that [SmtLeaf::new] can give. *)
Definition leaf_wf (leaf : SmtLeaf) : Prop :=
  exists i, leaf_index leaf = Some i /\ 0 <= i < 2 ^ 64 /\ leaf_new (leaf_entries leaf) i = Ok leaf.

Lemma leaf_num_length leaf : leaf_num_entries leaf = length (leaf_entries leaf).
Proof. by destruct leaf. Qed.

Lemma leaf_roundtrip {R} `{RL : ReaderLaws R} leaf bytes r bs : leaf_wf leaf ->
  Z.of_nat (length (leaf_entries leaf)) <= U64_MAX -> leaf_write_into leaf = Some bytes -> ready r (bytes ++ bs) ->
  leaf_read_from r = (Ok leaf, advance r (length bytes)).
Proof.
  intros (i & Hi & Hr64 & Hnew) Hlen Hw Hr. unfold leaf_write_into in Hw. rewrite Hi in Hw. cbn [mbind option_bind] in Hw. apply (inj Some) in Hw as <-.
  rewrite leaf_num_length in *. rewrite <- !app_assoc in Hr. unfold leaf_read_from.
  erewrite bind_Ok by (eapply read_usize_ready; [|exact Hr]; lia). apply ready_advance in Hr.
  erewrite bind_Ok by exact (read_u64_ready _ _ _ Hr64 Hr). apply ready_advance in Hr.
  rewrite length_write_u64 in Hr.
  erewrite bind_Ok by (apply (read_many_ready (leaf_entries leaf) _ bs); [by apply Forall_true|done|exact Hr]).
  unfold or_invalid. rewrite Hnew, !advance_add, !length_app. rewrite length_write_u64.
  done.
Qed.

Lemma proof_roundtrip {R} `{RL : ReaderLaws R} p bytes r bs : sp_valid (proof_path p) -> leaf_wf (proof_leaf p) ->
  sp_depth (proof_path p) = SMT_DEPTH ->
  Z.of_nat (length (leaf_entries (proof_leaf p))) <= U64_MAX -> proof_write_into p = Some bytes -> ready r (bytes ++ bs) ->
  proof_read_from r = (Ok p, advance r (length bytes)).
Proof.
  intros Hp Hl Hd Hlen Hw Hr. unfold proof_write_into in Hw. destruct (leaf_write_into (proof_leaf p)) as [lb|] eqn:Hlw; [|done].
  apply (inj Some) in Hw as <-. rewrite <- app_assoc in Hr. unfold proof_read_from.
  erewrite bind_Ok by (apply (path_roundtrip (proof_path p) r (lb ++ bs)); [exact Hp|exact Hr]). apply ready_advance in Hr.
  erewrite bind_Ok by (apply (leaf_roundtrip (proof_leaf p) lb _ bs); [exact Hl|exact Hlen|exact Hlw|exact Hr]).
  unfold or_invalid, smt_proof_new. rewrite Hd, Z.eqb_refl, advance_add, length_app. by destruct p.
Qed.

(** ** The entries of a tree *)

Section Entries.
Context `{O : MapOrder} `{!MapOrderLaws O}.

Lemma elem_of_smt_entries t k v : smt_valid t -> (k, v) ∈ smt_entries t <-> val t k = v /\ v <> EMPTY_WORD.
Proof.
  intros Hv. unfold smt_entries. rewrite list_elem_of_bind. split.
  - intros ([i leaf] & Hin & Hm%elem_of_map_entries). destruct (sv_leaves _ Hv i leaf Hm) as (l & _ & Hok & ->).
    rewrite leaf_of_entries in Hin. pose proof (proj1 (Forall_forall _ _) (eo_index _ _ Hok) _ Hin) as Hi. cbn in Hi.
    rewrite smt_val by done. unfold entries_at. cbn. rewrite Hi, Hm. cbn. rewrite leaf_of_entries.
    by apply (find_value_elem i).
  - intros [Hk Hne]. rewrite smt_val in Hk by done. destruct (entries_at_ok t (leaf_index_of k) Hv) as [Hok _].
    pose proof (proj2 (find_value_elem _ _ k v Hok) (conj Hk Hne)) as Hin. unfold entries_at in Hin. cbn in Hin.
    destruct (leaves t !! leaf_index_of k) as [leaf|] eqn:Hm; cbn in Hin; [|by apply not_elem_of_nil in Hin].
    exists (leaf_index_of k, leaf). split; [done|]. by apply elem_of_map_entries.
Qed.

Lemma smt_entries_nodup t : smt_valid t -> NoDup (smt_entries t).*1.
Proof.
  intros Hv. unfold smt_entries. pose proof (map_entries_nodup (leaves t)) as Hnd.
  assert (Forall (fun e => leaves t !! fst e = Some (snd e)) (map_entries (leaves t))) as Hall
    by (apply Forall_forall; intros [i leaf]; apply elem_of_map_entries).
  induction (map_entries (leaves t)) as [|[i leaf] es IH]; [constructor|]. cbn [mbind list_bind].
  cbn in Hnd. apply NoDup_cons in Hnd as [Hi Hnd]. inversion_clear Hall as [|? ? Hleaf Hrest]. cbn in Hleaf.
  rewrite fmap_app. apply NoDup_app. split; [|split; [|by apply IH]].
  - destruct (sv_leaves _ Hv i leaf Hleaf) as (l & _ & Hok & ->). rewrite leaf_of_entries. apply sorted_nodup, Hok.
  - intros k ([k' v] & -> & Hin)%list_elem_of_fmap ([k2 v2] & Hk & Hin2)%list_elem_of_fmap. cbn in Hk. subst k2.
    apply list_elem_of_bind in Hin2 as ([j leaf2] & Hin2 & Hj).
    pose proof (proj1 (Forall_forall _ _) Hrest _ Hj) as Hl2. cbn in Hl2.
    destruct (sv_leaves _ Hv i leaf Hleaf) as (l & _ & Hok & ->), (sv_leaves _ Hv j leaf2 Hl2) as (l2 & _ & Hok2 & ->).
    rewrite leaf_of_entries in *. apply Hi. 
    pose proof (proj1 (Forall_forall _ _) (eo_index _ _ Hok) _ Hin) as E1.
    pose proof (proj1 (Forall_forall _ _) (eo_index _ _ Hok2) _ Hin2) as E2. cbn in E1, E2.
    rewrite <- E1, E2. by apply (list_elem_of_fmap_2 fst) in Hj.
Qed.

Lemma smt_entries_fit t : smt_valid t -> smt_fits (list_to_set (smt_entries t).*1).
Proof.
  intros Hv i. destruct (entries_at_ok t i Hv) as [Hok _].
  assert (filter (fun k => leaf_index_of k = i) (list_to_set (smt_entries t).*1 : gset Word) ⊆ list_to_set (entries_at t i).*1) as Hsub.
  { intros k [Hi Hin]%elem_of_filter. apply elem_of_list_to_set in Hin. apply list_elem_of_fmap in Hin as ([k' v] & -> & Hin).
    apply elem_of_smt_entries in Hin as [Hk Hne]; [|done]. cbn in Hi. apply elem_of_list_to_set.
    rewrite smt_val, Hi in Hk by done. by apply (list_elem_of_fmap_2 fst _ (k', v)), (find_value_elem i). }
  apply subseteq_size in Hsub. pose proof (eo_length _ _ Hok).
  assert (size (list_to_set (entries_at t i).*1 : gset Word) <= length (entries_at t i).*1)%nat as Hsz.
  { rewrite size_list_to_set; [done|]. apply sorted_nodup, Hok. }
  rewrite length_fmap in Hsz. lia.
Qed.

End Entries.

Lemma leaf_of_wf i l : entries_ok i l -> 0 <= i < 2 ^ 64 -> leaf_wf (leaf_of i l).
Proof.
  intros Hok Hi. exists i. split; [apply leaf_of_index, Hok|]. split; [done|]. rewrite leaf_of_entries.
  destruct l as [|[k1 v1] [|[k2 v2] l]]; [done|..]; pose proof (eo_index _ _ Hok) as Hidx; inversion_clear Hidx as [|? ? H1 Hrest];
    cbn [fst] in H1; unfold leaf_new; cbn [leaf_of].
  - by rewrite H1, Z.eqb_refl.
  - unfold new_multiple. pose proof (eo_length _ _ Hok) as Hlen. pose proof leaf_cap_Z as Hcap.
    destruct (Nat.ltb_spec (length ((k1, v1) :: (k2, v2) :: l)) 2) as [Hs|]; [cbn [length] in Hs; lia|].
    unfold MAX_LEAF_ENTRIES. destruct (Z.ltb_spec 1024 (Z.of_nat (length ((k1, v1) :: (k2, v2) :: l)))); [lia|].
    rewrite fmap_cons. cbn [fst]. rewrite rfor_Ok.
    + cbn [rbind leaf_index lookup list_lookup]. cbn. by rewrite H1, Z.eqb_refl.
    + intros k (e & -> & He)%list_elem_of_fmap. rewrite Forall_forall in Hrest. by rewrite H1, (Hrest e He), Z.eqb_refl.
Qed.

Lemma get_leaf_wf t k : smt_valid t -> leaf_wf (get_leaf t k) /\ Z.of_nat (length (leaf_entries (get_leaf t k))) <= U64_MAX.
Proof.
  intros Hv. destruct (entries_at_ok t (leaf_index_of k) Hv) as [Hok Hl].
  assert (get_leaf t k = leaf_of (leaf_index_of k) (entries_at t (leaf_index_of k))) as -> by exact Hl.
  split; [apply leaf_of_wf; [done|apply leaf_index_range]|]. rewrite leaf_of_entries. pose proof (eo_length _ _ Hok).
  pose proof leaf_cap_Z. unfold U64_MAX. lia.
Qed.

Lemma smt_roundtrip {R} `{RL : ReaderLaws R} `{O : MapOrder} `{!MapOrderLaws O} t empty r bs :
  tree_ok t -> smt_new = Some empty -> clean_run (smt_entries t) empty ->
  Z.of_nat (length (smt_entries t)) <= U64_MAX -> ready r (smt_write_into t ++ bs) ->
  smt_read_from r = (Ok t, advance r (length (smt_write_into t))).
Proof.
  intros Hok Hnew Hc Hlen Hr. pose proof (ok_valid _ Hok) as Hv.
  pose proof (with_entries_spec (smt_entries t) empty Hnew (smt_entries_fit t Hv) Hc) as Hw. clear Hnew Hc.
  unfold smt_write_into, smt_read_from in *.
  rewrite <- app_assoc in Hr. erewrite bind_Ok by (eapply read_usize_ready; [|exact Hr]; lia). apply ready_advance in Hr.
  erewrite bind_Ok by (apply (read_many_ready (smt_entries t) _ bs); [by apply Forall_true|done|exact Hr]).
  rewrite decide_True in Hw by (by apply smt_entries_nodup). destruct Hw as (u & Hu & Huok & Hval).
  unfold or_invalid. rewrite Hu, advance_add, length_app. clear Hu. do 2 f_equal. apply tree_contents; [done|done|].
  intros k. rewrite Hval. destruct (list_to_map (smt_entries t) !! k) as [v|] eqn:Hk; cbn [default from_option id].
  - apply elem_of_list_to_map_2, elem_of_smt_entries in Hk as [? _]; done.
  - destruct (decide (val t k = EMPTY_WORD)) as [He|Hne]; [by rewrite He|]. apply not_elem_of_list_to_map in Hk. exfalso. apply Hk.
    apply (list_elem_of_fmap_2 fst _ (k, val t k)). by apply elem_of_smt_entries.
Qed.

Lemma sr_ready_start bytes rest : Z.of_nat (length (bytes ++ rest)) <= U64_MAX ->
  ready (slice_reader_new (bytes ++ rest)) (bytes ++ rest).
Proof. intros Hl. split; [exact Hl|]. exists [], []. by rewrite app_nil_r. Qed.

Lemma write_entries_length (l : list (Word * Word)) :
  Z.of_nat (length (write_many l)) = Z.of_nat (length l) * 64.
Proof.
  assert (forall e : Word * Word, length (write_into e) = 64%nat) as He by (by intros [[] []]).
  induction l as [|e l IH]; [done|]. unfold write_many in *. cbn [mbind list_bind length].
  rewrite length_app, He. lia.
Qed.

Lemma sparse_valid l : (length l <= 64)%nat -> sp_valid (sparse l).
Proof.
  intros Hl. assert (0 <= mask_of 0 l < 2 ^ 64) as Hm.
  { pose proof (mask_of_range 0 l). split; [lia|]. eapply Z.lt_le_trans; [apply mask_of_range|]. apply Z.pow_le_mono_r; lia. }
  pose proof (sp_from_parts_spec (mask_of 0 l) (stored_of 0 l) Hm) as Hs.
  pose proof (sparse_from_parts l Hl) as Hp. cbn [sparse empty_nodes_mask sp_nodes] in Hp. rewrite Hp in Hs. apply Hs.
Qed.

Lemma opening_roundtrip t k : tree_ok t ->
  exists p bytes, smt_open t k = Some p /\ proof_write_into p = Some bytes /\
    forall rest, Z.of_nat (length (bytes ++ rest)) <= U64_MAX ->
    proof_read_from (slice_reader_new (bytes ++ rest)) = (Ok p, mkSliceReader (bytes ++ rest) (length bytes)).
Proof.
  intros Hok. destruct (get_leaf_wf t k (ok_valid _ Hok)) as [Hwf Hsz]. rewrite smt_open_eq by done.
  set (p := mkSmtProof (sparse (path_of t k)) (get_leaf t k)). exists p.
  destruct (proof_write_into p) as [bytes|] eqn:Hw.
  - exists bytes. split; [done|]. split; [done|]. intros rest Hb. pose proof (path_of_length t k) as Hl.
    rewrite (proof_roundtrip p bytes _ rest); [done|apply sparse_valid; cbn; lia|done| |done|done|by apply sr_ready_start].
    cbn [proof_path p]. by rewrite sparse_depth, Hl by lia.
  - exfalso. destruct Hwf as (i & Hi & _). unfold proof_write_into, leaf_write_into in Hw. cbn [proof_leaf p] in Hw.
    by rewrite Hi in Hw.
Qed.

(** C16: a tree survives serialization, whatever the order in which its leaves are
    written, and takes as many bytes as its size hint says; every opening of a tree
    can be written and reads back as itself. *)
Theorem smt_serialization_roundtrip (O : MapOrder) (L : MapOrderLaws O) t empty k rest :
  tree_ok t -> smt_new = Some empty -> clean_run (smt_entries t) empty ->
  Z.of_nat (length (smt_write_into t ++ rest)) <= U64_MAX ->
  smt_read_from (slice_reader_new (smt_write_into t ++ rest)) =
    (Ok t, mkSliceReader (smt_write_into t ++ rest) (length (smt_write_into t))) /\
  Z.of_nat (length (smt_write_into t)) = smt_get_size_hint t /\
  exists p bytes, smt_open t k = Some p /\ proof_write_into p = Some bytes /\
    (Z.of_nat (length (bytes ++ rest)) <= U64_MAX ->
     proof_read_from (slice_reader_new (bytes ++ rest)) = (Ok p, mkSliceReader (bytes ++ rest) (length bytes))).
Proof.
  intros Hok Hnew Hc Hlen. pose proof (ok_valid _ Hok) as Hv.
  pose proof (write_entries_length (smt_entries t)) as Hn.
  assert (Z.of_nat (length (smt_entries t)) <= U64_MAX) as Hent.
  { unfold smt_write_into in Hlen. rewrite !length_app in Hlen. lia. }
  split; [rewrite (smt_roundtrip t empty _ rest Hok Hnew Hc Hent (sr_ready_start _ _ Hlen)); reflexivity|].
  clear Hnew Hc. split.
  { unfold smt_write_into, smt_get_size_hint. rewrite length_app, length_write_usize by lia. rewrite Nat2Z.inj_add, Hn. done. }
  destruct (opening_roundtrip t k Hok) as (p & bytes & Ho & Hw & Hread). exists p, bytes. auto.
Qed.

(** ** Reading from unknown sources *)

Lemma reads_or_invalid {R} `{RS : ReaderSafe R} {E A} (m : res E A) message (Q : A -> Prop) :
  rok m Q -> reads (or_invalid m message) Q.
Proof. intros Hm r Hr. unfold or_invalid. by destruct m. Qed.

Lemma reads_path {R} `{RS : ReaderSafe R} : reads path_read_from sp_valid.
Proof.
  unfold path_read_from. eapply reads_bind; [apply reads_u8|]. intros d _. destruct (_ <? _); [apply reads_fail|].
  eapply reads_bind; [apply reads_u64|]. intros mask Hm. cbv zeta. destruct (_ <? _); [apply reads_fail|].
  eapply reads_bind; [apply reads_many|]. intros nodes _. apply reads_or_invalid.
  pose proof (sp_from_parts_spec mask nodes) as Hs. unfold is_u64, U64_MAX in Hm. specialize (Hs ltac:(cbv beta in Hm; lia)).
  destruct (sp_from_parts mask nodes); cbn; [by destruct Hs|done|done].
Qed.

Lemma leaf_new_index entries i : rok (leaf_new entries i) (fun leaf => leaf_index leaf = Some i).
Proof.
  unfold leaf_new. destruct entries as [|[k1 v1] [|e l]]; [done| |].
  - destruct (Z.eqb_spec (leaf_index_of k1) i) as [<-|]; done.
  - eapply (rok_bind _ _ (fun leaf => leaf = LeafMultiple ((k1, v1) :: e :: l))).
    + unfold new_multiple. destruct (_ <? _)%nat; [done|]. destruct (_ <? _); [done|]. rewrite fmap_cons.
      eapply rok_bind; [apply (rok_for _ (fun _ => True))|done]. intros k _. by destruct (_ =? _).
    + intros leaf ->. cbn. destruct (Z.eqb_spec (leaf_index_of k1) i) as [<-|]; done.
Qed.

Lemma reads_leaf {R} `{RS : ReaderSafe R} :
  reads leaf_read_from (fun leaf => exists i, leaf_index leaf = Some i /\ 0 <= i < 2 ^ 64).
Proof.
  unfold leaf_read_from. eapply reads_bind; [apply reads_usize|]. intros n _.
  eapply reads_bind; [apply reads_u64|]. intros i Hi. unfold is_u64, U64_MAX in Hi. cbv beta in Hi.
  eapply reads_bind; [apply (reads_many (T:=Word * Word))|]. intros entries _. apply reads_or_invalid.
  eapply rok_mono; [apply leaf_new_index|]. intros leaf Hl. exists i. split; [done|lia].
Qed.

Lemma reads_proof {R} `{RS : ReaderSafe R} :
  reads proof_read_from (fun p => sp_valid (proof_path p) /\ sp_depth (proof_path p) = SMT_DEPTH /\
    exists i, leaf_index (proof_leaf p) = Some i /\ 0 <= i < 2 ^ 64).
Proof.
  unfold proof_read_from. eapply reads_bind; [apply reads_path|]. intros path Hp.
  eapply reads_bind; [apply reads_leaf|]. intros leaf Hl. apply reads_or_invalid. unfold smt_proof_new.
  by destruct (Z.eqb_spec (sp_depth path) SMT_DEPTH).
Qed.

(** C10: a proof read from bytes of unknown origin does not make reading or verifying
    panic, and if it is accepted against the root of a tree then it tells the truth
    about the tree: a proof of presence has the value of the key, one of absence a
    value the key does not have.  Otherwise its leaf and the leaf of the tree, or two
    nodes at the same height of their paths, are different with the same hash. *)
Theorem untrusted_proof_sound {R} (BR : ByteReader R) (RS : ReaderSafe R) (r : R) t k v : rinv r -> tree_ok t ->
  match fst (proof_read_from r) with
  | Ok p =>
      verify_presence p k v (smt_root t) <> Panic /\ verify_absence p k v (smt_root t) <> Panic /\
      (verify_presence p k v (smt_root t) = Ok tt -> val t k = v \/ forged t p k) /\
      (verify_unset p k (smt_root t) = Ok tt -> val t k = EMPTY_WORD \/ forged t p k) /\
      (verify_absence p k v (smt_root t) = Ok tt -> val t k <> v \/ forged t p k)
  | Err _ => True
  | Panic => False
  end.
Proof.
  intros Hr Hok. destruct (reads_proof r Hr) as [_ Hp]. destruct (fst (proof_read_from r)) as [p|e|]; [|done|done].
  destruct Hp as (Hp & Hd & i & Hi & Hrange). destruct (proof_root p i Hp Hd Hi Hrange) as (l & _ & _ & Hroot).
  assert (verify_presence p k v (smt_root t) <> Panic) as Hnp.
  { unfold verify_presence, leaf_get_value. rewrite Hi, Hroot. cbn [mbind option_bind rexpect rbind].
    destruct (_ =? _); [|done]. by repeat case_decide. }
  split; [done|]. split; [|by apply proof_sound]. unfold verify_absence.
  by destruct (verify_presence p k v (smt_root t)) as [|[]|].
Qed.

End Serde.
