(* ===== verification/SmtWitnesses.v ===== *)
(** * Sparse Merkle trees: instances

    The theorems on sparse Merkle trees at concrete trees, with a hash function
    for which a node hashes to the empty word only if both children are empty, so
    that all trees are clean. *)

From S2P Require Import Prelude Felt AdviceMap Serde SerdeTheory Operations OpSerde SerdeSafe.
From S2P Require Import OpBatch AceCircuit Machine Merkle Forest ForestTheory MerkleTheory.
From S2P Require Import SparsePath SparseTree FullSmt TreeTheory TreeMutations SmtTheory.
From S2P Require Import SimpleTheory SmtTheorems SmtSerde.

Definition first_nonempty (a b : Word) : Word := if decide (a = EMPTY_WORD) then b else a.

#[local] Instance simple_permutation : Poseidon2 :=
  fun s => mkHasherState (first_nonempty (hs_rate0 s) (hs_rate1 s)) (hs_rate1 s) (hs_capacity s).

#[local] Instance list_order : MapOrder := fun K A _ _ m => map_to_list m.

#[local] Instance list_order_laws : MapOrderLaws list_order.
Proof. intros K A EqK CK m. reflexivity. Qed.

Lemma simple_merge_empty l r : merge l r = EMPTY_WORD -> l = EMPTY_WORD /\ r = EMPTY_WORD.
Proof. unfold merge, apply_permutation, simple_permutation, first_nonempty. cbn. by case_decide. Qed.

Lemma simple_empty_root h : empty_root h = EMPTY_WORD.
Proof.
  induction h as [|h IH]; [done|]. cbn [empty_root]. rewrite IH. unfold merge, apply_permutation, simple_permutation. cbn.
  unfold first_nonempty. by case_decide.
Qed.

Lemma simple_clean D lh : clean D lh.
Proof.
  intros d p _ _ Hh. rewrite simple_empty_root in Hh. apply simple_merge_empty in Hh as [Hl Hr].
  unfold empty_children. rewrite simple_empty_root. unfold children_at in *. cbn in Hl, Hr. by rewrite Hl, Hr.
Qed.

Lemma simple_clean_run `{EqDecision V} `{Countable K} `{!SparseMerkleTree T K V L} `{!TreeModel T K V L} l (t : T) :
  clean_run (L:=L) l t.
Proof.
  revert t. induction l as [|[k v] l IH]; intros t; [done|]. cbn [clean_run].
  destruct (tree_insert k v t) as [[o|e|] t']; [|done..]. split; [apply simple_clean|apply IH].
Qed.

(** ** A tree of three entries, two of them in one leaf *)

Definition small_word (a d : Z) : Word := mkWord (new_unchecked a) ZERO ZERO (new_unchecked d).

Definition three_entries : list (Word * Word) :=
  [(small_word 1 5, small_word 10 0); (small_word 2 5, small_word 20 0); (small_word 1 9, small_word 30 0)].

Definition empty_tree : Smt := mkSmt EMPTY_WORD 0 ∅ ∅.

Lemma empty_tree_new : smt_new = Some empty_tree.
Proof. vm_compute. reflexivity. Qed.

Definition three_tree : Smt :=
  match with_entries_sequential three_entries with Ok t => t | _ => empty_tree end.

Lemma small_fit (S : gset Word) : Z.of_nat (size S) <= MAX_LEAF_ENTRIES -> keys_fit S.
Proof.
  intros Hs i. assert (filter (fun k => leaf_index_of k = i) S ⊆ S) as Hsub by set_solver.
  apply subseteq_size in Hsub. lia.
Qed.

Lemma built_tree l : keys_fit (list_to_set l.*1) -> NoDup l.*1 ->
  exists t, with_entries_sequential l = Ok t /\ tree_ok t /\
    forall k, val t k = default EMPTY_WORD (list_to_map (M:=gmap Word Word) l !! k).
Proof.
  intros Hf%keys_fit_fits Hnd. pose proof (with_entries_spec l empty_tree empty_tree_new Hf (simple_clean_run _ _)) as Hw.
  rewrite decide_True in Hw by exact Hnd. exact Hw.
Qed.

Lemma three_tree_ok : tree_ok three_tree /\
  forall k, val three_tree k = default EMPTY_WORD (list_to_map (M:=gmap Word Word) three_entries !! k).
Proof.
  destruct (built_tree three_entries) as (t & Ht & Hok & Hval).
  - apply small_fit. vm_compute. discriminate.
  - apply (bool_decide_unpack _). vm_compute. exact Logic.I.
  - unfold three_tree. rewrite Ht. exact (conj Hok Hval).
Qed.

Lemma three_nodup : NoDup three_entries.*1.
Proof. apply (bool_decide_unpack _). vm_compute. exact Logic.I. Qed.

Lemma three_values k v : (k, v) ∈ three_entries -> val three_tree k = v.
Proof.
  intros Hin. rewrite (proj2 three_tree_ok). by rewrite (elem_of_list_to_map_1 _ _ _ three_nodup Hin).
Qed.

Lemma three_value : val three_tree (small_word 1 5) = small_word 10 0.
Proof. apply three_values. left. Qed.

Lemma smt_insert_correct_witness :
  exists t', tree_insert (small_word 1 5) (small_word 11 0) three_tree = (Ok (small_word 10 0), t') /\
    val t' (small_word 1 5) = small_word 11 0 /\ tree_ok t'.
Proof.
  pose proof (smt_insert_correct three_tree (small_word 1 5) (small_word 11 0) (proj1 three_tree_ok)) as Hi.
  assert (fst (tree_insert (small_word 1 5) (small_word 11 0) three_tree) = Ok (small_word 10 0)) as Hf
    by (vm_compute; reflexivity).
  destruct (tree_insert _ _ three_tree) as [r t']. cbn [fst] in Hf. subst r.
  destruct Hi as (_ & _ & Hval & _ & Hok & _). exists t'. split; [reflexivity|].
  split; [rewrite Hval, decide_True by reflexivity; reflexivity|apply Hok, simple_clean].
Defined.

Lemma smt_open_correct_witness :
  exists p, smt_open three_tree (small_word 2 5) = Some p /\
    verify_presence p (small_word 1 5) (small_word 10 0) (smt_root three_tree) = Ok tt.
Proof.
  destruct (smt_open_correct three_tree (small_word 2 5) (proj1 three_tree_ok)) as (p & Hp & _ & _ & Hv).
  exists p. split; [exact Hp|]. destruct (Hv (small_word 1 5) (small_word 10 0)) as [Hpres _].
  rewrite Hpres by reflexivity. rewrite decide_True by exact three_value. reflexivity.
Defined.

(** The same entries in another order give the same tree. *)
Lemma smt_root_commits_witness :
  exists u, with_entries_sequential (rev three_entries) = Ok u /\ three_tree = u.
Proof.
  destruct (built_tree (rev three_entries)) as (u & Hu & Hok & Hval).
  - apply small_fit. vm_compute. discriminate.
  - apply (bool_decide_unpack _). vm_compute. exact Logic.I.
  - exists u. split; [exact Hu|]. clear Hu. apply (proj1 (smt_root_commits three_tree u (proj1 three_tree_ok) Hok)). intros k.
    rewrite (proj2 three_tree_ok), Hval. f_equal.
Defined.


(** A change, a removal and an addition. *)
Definition three_changes : list (Word * Word) :=
  [(small_word 1 5, small_word 11 0); (small_word 2 5, EMPTY_WORD); (small_word 7 7, small_word 70 0)].

Lemma three_supported : forall k, val three_tree k <> EMPTY_WORD -> k ∈ three_entries.*1.
Proof.
  intros k. rewrite (proj2 three_tree_ok). intros Hne.
  destruct (list_to_map three_entries !! k) as [v|] eqn:Hk; [|by destruct Hne].
  apply elem_of_list_to_map_2 in Hk. by apply (list_elem_of_fmap_2 fst) in Hk.
Qed.

Lemma smt_mutations_correct_witness :
  exists ms rev u, compute_mutations three_tree three_changes = Ok ms /\
    tree_apply_mutations ms three_tree = (Ok tt, u) /\ tree_ok u /\
    tree_apply_mutations rev u = (Ok tt, three_tree).
Proof.
  destruct (smt_mutations_correct list_order list_order list_order _ _ _
    (list_to_set (three_entries.*1 ++ three_changes.*1)) three_tree three_changes (proj1 three_tree_ok))
    as (ms & rev & u & _ & Hok & _ & Hc & _ & _ & Ha & _ & Hb).
  - apply small_fit. vm_compute. discriminate.
  - intros k Hk%three_supported. apply elem_of_list_to_set, elem_of_app. by left.
  - intros k Hk. apply elem_of_list_to_set, elem_of_app. by right.
  - apply (bool_decide_unpack _). vm_compute. exact Logic.I.
  - apply simple_clean_run.
  - exists ms, rev, u. exact (conj Hc (conj Ha (conj Hok Hb))).
Defined.

Lemma smt_serialization_roundtrip_witness :
  smt_read_from (slice_reader_new (smt_write_into three_tree ++ [7])) =
    (Ok three_tree, mkSliceReader (smt_write_into three_tree ++ [7]) 193).
Proof.
  assert (length (smt_write_into three_tree) = 193%nat) as Hl by (vm_compute; reflexivity).
  rewrite (proj1 (smt_serialization_roundtrip list_order _ three_tree empty_tree (small_word 1 5) [7]
    (proj1 three_tree_ok) empty_tree_new (simple_clean_run _ _) ltac:(rewrite length_app, Hl; vm_compute; discriminate))).
  by rewrite Hl.
Defined.

(** The bytes of an opening, read back as if of unknown origin. *)
Definition opening_bytes : list Z :=
  default [] (p ← smt_open three_tree (small_word 1 5); proof_write_into p).

Lemma untrusted_proof_sound_witness :
  exists p, fst (proof_read_from (slice_reader_new opening_bytes)) = Ok p /\
    verify_presence p (small_word 1 5) (small_word 10 0) (smt_root three_tree) <> Panic.
Proof.
  assert (rinv (slice_reader_new opening_bytes)) as Hr.
  { split; [cbn; lia|]. apply (bool_decide_unpack _). vm_compute. exact Logic.I. }
  pose proof (untrusted_proof_sound _ _ (slice_reader_new opening_bytes) three_tree (small_word 1 5) (small_word 10 0) Hr
    (proj1 three_tree_ok)) as Hp.
  assert (exists p, fst (proof_read_from (slice_reader_new opening_bytes)) = Ok p) as (p & Hread)
    by (eexists; vm_compute; reflexivity).
  rewrite Hread in Hp. exists p. exact (conj Hread (proj1 Hp)).
Defined.

(** ** A full leaf *)

Definition full_entries : list (Word * Word) :=
  (fun i => (small_word (Z.of_nat i) 5, small_word 1 0)) <$> seq 1 1024.

Lemma full_nodup : NoDup full_entries.*1.
Proof. apply (bool_decide_unpack _). vm_compute. exact Logic.I. Qed.

Lemma full_absent : small_word 0 5 ∉ full_entries.*1.
Proof. apply (bool_decide_unpack _). vm_compute. exact Logic.I. Qed.

Lemma full_length : length full_entries.*1 = leaf_cap.
Proof. unfold full_entries. rewrite !length_fmap, length_seq. apply Nat2Z.inj. rewrite leaf_cap_Z. reflexivity. Qed.

Lemma full_leaf_of l t : tree_ok t -> NoDup l.*1 -> length l.*1 = leaf_cap ->
  (forall k v, (k, v) ∈ l -> val t k = v /\ v <> EMPTY_WORD /\ leaf_index_of k = 5) -> leaf_full t (small_word 0 5).
Proof.
  intros Hok Hnd Hlen Hl. apply leaf_full_cap. destruct (entries_at_ok t 5 (ok_valid _ Hok)) as [Hent _].
  assert (leaf_index_of (small_word 0 5) = 5) as -> by reflexivity.
  assert (l.*1 ⊆+ (entries_at t 5).*1) as Hsub%submseteq_length.
  { apply NoDup_submseteq; [exact Hnd|]. intros k ([k' v] & -> & Hin)%list_elem_of_fmap.
    destruct (Hl k' v Hin) as (Hv & Hne & Hi). apply (list_elem_of_fmap_2 fst _ (k', v)), (find_value_elem 5); [exact Hent|].
    rewrite smt_val, Hi in Hv by apply Hok. split; assumption. }
  pose proof (eo_length _ _ Hent). rewrite Hlen, (length_fmap fst (entries_at t 5)) in Hsub. lia.
Qed.

Lemma full_tree : exists t, tree_ok t /\ leaf_full t (small_word 0 5) /\
  val t (small_word 0 5) = EMPTY_WORD /\ val t (small_word 3 5) = small_word 1 0.
Proof.
  destruct (built_tree full_entries) as (t & _ & Hok & Hval); [|exact full_nodup|].
  { apply small_fit. rewrite size_list_to_set, full_length, leaf_cap_Z by exact full_nodup. vm_compute. discriminate. }
  exists t. split; [exact Hok|]. split_and!.
  - apply (full_leaf_of full_entries t Hok full_nodup full_length). intros k v Hin.
    rewrite Hval, (elem_of_list_to_map_1 _ _ _ full_nodup Hin).
    apply list_elem_of_fmap in Hin as (i & [= -> ->] & _). split_and!; [reflexivity|vm_compute; discriminate|reflexivity].
  - rewrite Hval, not_elem_of_list_to_map_1 by exact full_absent. reflexivity.
  - rewrite Hval, (elem_of_list_to_map_1 _ _ (small_word 1 0) full_nodup); [reflexivity|].
    apply (list_elem_of_fmap_2 (fun i => (small_word (Z.of_nat i) 5, small_word 1 0)) (seq 1 1024) 3%nat), elem_of_seq. lia.
Qed.

Lemma full_leaf_mutations_fail_witness :
  exists t t' ms, compute_mutations t [(small_word 3 5, EMPTY_WORD); (small_word 0 5, small_word 1 0)] = Ok ms /\
    tree_apply_mutations ms t = (Err (TooManyLeafEntries 1025), t').
Proof.
  destruct full_tree as (t & Hok & Hf & H0 & H1).
  destruct (full_leaf_mutations_fail list_order list_order _ _ t (small_word 0 5) (small_word 3 5) (small_word 1 0))
    as (ms & u & t' & _ & _ & Hc & Ha & _); [exact Hok|reflexivity|exact Hf|exact H0| | |apply simple_clean_run| |].
  - rewrite H1. vm_compute. discriminate.
  - vm_compute. discriminate.
  - vm_compute. reflexivity.
  - exists t, t', ms. split; assumption.
Defined.

(** ** [SimpleSmt] *)

Definition simple_entries : list (Z * Word) := [(1, small_word 10 0); (6, small_word 60 0)].

Lemma simple_built depth l : 1 <= depth <= 64 -> Forall (fun e => 0 <= fst e < 2 ^ depth) l ->
  Z.of_nat (length l) <= 2 ^ Z.min depth 63 -> NoDup l.*1 ->
  exists t, with_leaves depth l = Ok t /\ tree_ok (L:=Word) t /\
    forall k, 0 <= k < 2 ^ depth -> get_leaf t k = default EMPTY_WORD (list_to_map (M:=gmap Z Word) l !! k).
Proof.
  intros Hd Hl Hlen Hnd. destruct (simple_new_ok depth Hd) as (e & He & _).
  pose proof (with_leaves_spec depth l e Hd He Hl Hlen (simple_clean_run _ _)) as Hw. by rewrite decide_True in Hw by exact Hnd.
Qed.

(** A subtree of depth 2 as the right half of a tree of depth 3. *)
Lemma set_subtree_correct_witness :
  exists (t t' : SimpleSmt 3) (s : SimpleSmt 2), set_subtree 1 s t = (Ok (simple_root t'), t') /\
    tree_ok (L:=Word) t' /\ get_leaf t' 6 = small_word 20 0 /\ get_leaf t' 1 = small_word 10 0.
Proof.
  destruct (simple_built 3 simple_entries) as (t & _ & Ht & Hvt);
    [lia|repeat constructor; cbn; lia|vm_compute; discriminate|apply (bool_decide_unpack _); vm_compute; exact Logic.I|].
  destruct (simple_built 2 [(2, small_word 20 0)]) as (s & _ & Hs & Hvs);
    [lia|repeat constructor; cbn; lia|vm_compute; discriminate|apply (bool_decide_unpack _); vm_compute; exact Logic.I|].
  pose proof (set_subtree_correct 3 list_order _ 2 1 t s ltac:(lia) ltac:(lia) ltac:(lia) Ht Hs) as Hset.
  rewrite decide_False, decide_False in Hset by lia. destruct Hset as (t' & Hset & Hok & Hval).
  exists t, t', s. split; [exact Hset|]. split; [apply Hok, simple_clean|].
  assert (forall d (u : SimpleSmt d) k, get_leaf u k = val u k) as Hg by reflexivity. rewrite !Hg, !Hval. split.
  - rewrite decide_True by reflexivity. rewrite <- Hg, Hvs by lia. vm_compute. reflexivity.
  - rewrite decide_False by (vm_compute; discriminate). rewrite <- Hg, Hvt by lia. vm_compute. reflexivity.
Defined.
