(* ===== verification/Advice.v ===== *)
(** * The advice provider

    processor/src/host/advice/mod.rs: the nondeterministic inputs a program
    consumes, as a stack (core/src/advice/stack.rs), a map
    (core/src/advice/map.rs) and a Merkle store, under one budget in bytes.
    [usize] arithmetic that the source does not check panics on overflow, as it
    does in the checked build profiles. *)

From S2P Require Import Prelude Felt AdviceMap Quad AceCircuit Machine Memory Merkle.

(** ** [usize] arithmetic *)

Definition usize_add (a b : Z) : option Z := checked_add a b.
Definition usize_sub (a b : Z) : option Z := if b <=? a then Some (a - b) else None.

(** ** The provider *)

Definition FELT_SIZE_BYTES : Z := 8.
Definition WORD_SERIALIZED_SIZE : Z := 32.
Definition INTERNAL_NODE_SIZE_BYTES : Z := 3 * WORD_SERIALIZED_SIZE.

Record AdviceProvider := mkAdviceProvider {
  ap_stack : list Felt;
  ap_map : AdviceMap;
  ap_store : MerkleStore;
  merkle_store_node_count : Z;
  advice_size_bytes : Z;
  max_advice_size_bytes : Z
}.

Inductive AdviceMutation :=
| ExtendStack (stack : list Felt)
| ExtendMap (map : AdviceMap)
| ExtendMerkleStore (inner_nodes : list InnerNodeInfo).

Notation AP A := (M AdviceError AdviceProvider A).

Section Provider.
Context `{Poseidon2}.

Definition set_stack (l : list Felt) : AP unit :=
  modify (fun a => mkAdviceProvider l (ap_map a) (ap_store a) (merkle_store_node_count a)
                     (advice_size_bytes a) (max_advice_size_bytes a)).

Definition set_map (m : AdviceMap) : AP unit :=
  modify (fun a => mkAdviceProvider (ap_stack a) m (ap_store a) (merkle_store_node_count a)
                     (advice_size_bytes a) (max_advice_size_bytes a)).

Definition set_store (s : MerkleStore) : AP unit :=
  modify (fun a => mkAdviceProvider (ap_stack a) (ap_map a) s (merkle_store_node_count a)
                     (advice_size_bytes a) (max_advice_size_bytes a)).

Definition set_node_count (n : Z) : AP unit :=
  modify (fun a => mkAdviceProvider (ap_stack a) (ap_map a) (ap_store a) n
                     (advice_size_bytes a) (max_advice_size_bytes a)).

Definition set_size (n : Z) : AP unit :=
  modify (fun a => mkAdviceProvider (ap_stack a) (ap_map a) (ap_store a)
                     (merkle_store_node_count a) n (max_advice_size_bytes a)).

Definition set_max (n : Z) : AP unit :=
  modify (fun a => mkAdviceProvider (ap_stack a) (ap_map a) (ap_store a)
                     (merkle_store_node_count a) (advice_size_bytes a) n).

(** [self.advice_size_bytes += n] and [-= n]. *)
Definition add_size (n : Z) : AP unit :=
  let! cur := gets advice_size_bytes in
  let! new := expect (usize_add cur n) in
  set_size new.

Definition sub_size (n : Z) : AP unit :=
  let! cur := gets advice_size_bytes in
  let! new := expect (usize_sub cur n) in
  set_size new.

Definition add_node_count (n : Z) : AP unit :=
  let! cur := gets merkle_store_node_count in
  let! new := expect (usize_add cur n) in
  set_node_count new.

(** *** The budget *)

Definition budget_error (a : AdviceProvider) (added : Z) : AdviceError :=
  SizeBudgetExceeded (advice_size_bytes a) added (max_advice_size_bytes a).

Definition overflow_error : AdviceError := SizeBudgetExceeded 0 USIZE_MAX 0.

Definition felt_bytes (count : Z) : AP Z := ok_or (checked_mul count FELT_SIZE_BYTES) overflow_error.

Definition map_entry_bytes (value_len : Z) : AP Z :=
  let! b := felt_bytes value_len in
  ok_or (checked_add b WORD_SERIALIZED_SIZE) overflow_error.

Definition merkle_node_bytes (count : Z) : AP Z :=
  ok_or (checked_mul count INTERNAL_NODE_SIZE_BYTES) overflow_error.

Definition compute_advice_size_bytes : AP Z :=
  let! a := gets id in
  let! stack := felt_bytes (Z.of_nat (length (ap_stack a))) in
  let! map_elements := ok_or (total_element_count (ap_map a)) overflow_error in
  let! map := felt_bytes map_elements in
  let! store := merkle_node_bytes (merkle_store_node_count a) in
  ok_or (size ← checked_add stack map; checked_add size store)
    (SizeBudgetExceeded 0 USIZE_MAX (max_advice_size_bytes a)).

Definition check_advice_size_addition (added : Z) : AP unit :=
  let! a := gets id in
  match checked_add (advice_size_bytes a) added with
  | None => fail (budget_error a added)
  | Some new_total =>
      if max_advice_size_bytes a <? new_total then fail (budget_error a added) else ret tt
  end.

Definition check_merkle_store_node_addition (added : Z) : AP unit :=
  let! b := merkle_node_bytes added in
  check_advice_size_addition b.

Definition check_stack_capacity (count : Z) : AP unit :=
  let! b := felt_bytes count in
  check_advice_size_addition b.

Definition check_map_value_allocation (value_len : Z) : AP unit :=
  let! added := map_entry_bytes value_len in
  check_advice_size_addition added.

Definition set_options (max : Z) : AP unit :=
  let! size := compute_advice_size_bytes in
  if max <? size then fail (SizeBudgetExceeded size 0 max)
  else
    do! set_size size;
    set_max max.

(** *** The stack *)

Definition consume_element (l : list Felt) : option (Felt * list Felt) :=
  match l with x :: r => Some (x, r) | [] => None end.

Definition consume_word (l : list Felt) : option (Word * list Felt) :=
  match l with
  | a :: b :: c :: d :: r => Some (mkWord a b c d, r)
  | _ => None
  end.

(** The length is checked first, so that nothing is consumed on failure. *)
Definition consume_dword (l : list Felt) : option (Word * Word * list Felt) :=
  if (length l <? 8)%nat then None
  else
    '(w1, l) ← consume_word l;
    '(w2, l) ← consume_word l;
    Some (w1, w2, l).

Definition pop_stack : AP Felt :=
  let! l := gets ap_stack in
  let! (value, l) := ok_or (consume_element l) StackReadFailed in
  do! set_stack l;
  do! sub_size FELT_SIZE_BYTES;
  ret value.

Definition pop_stack_word : AP Word :=
  let! l := gets ap_stack in
  let! (value, l) := ok_or (consume_word l) StackReadFailed in
  do! set_stack l;
  do! sub_size WORD_SERIALIZED_SIZE;
  ret value.

Definition pop_stack_dword : AP (Word * Word) :=
  let! l := gets ap_stack in
  let! (w1, w2, l) := ok_or (consume_dword l) StackReadFailed in
  do! set_stack l;
  do! sub_size (2 * WORD_SERIALIZED_SIZE);
  ret (w1, w2).

Definition push_stack (value : Felt) : AP unit :=
  do! check_stack_capacity 1;
  let! l := gets ap_stack in
  do! set_stack (value :: l);
  add_size FELT_SIZE_BYTES.

Definition push_stack_word (word : Word) : AP unit :=
  do! check_stack_capacity 4;
  let! l := gets ap_stack in
  do! set_stack (into_elements word ++ l);
  add_size WORD_SERIALIZED_SIZE.

Definition extend_advice_stack (stack : list Felt) : AP unit :=
  do! check_stack_capacity (Z.of_nat (length stack));
  let! added := felt_bytes (Z.of_nat (length stack)) in
  let! l := gets ap_stack in
  do! set_stack (stack ++ l);
  add_size added.

(** [usize::next_multiple_of]. *)
Definition next_multiple_of (n k : Z) : option Z :=
  if div_ceil n k * k <=? USIZE_MAX then Some (div_ceil n k * k) else None.

Definition push_from_map (key : Word) (include_len : bool) (pad_to : Z) : AP unit :=
  let! a := gets id in
  let! values := ok_or (ap_map a !! key) (MapKeyNotFound key) in
  let len := Z.of_nat (length values) in
  let! num_pad_elements :=
    (if pad_to =? 0 then ret 0
     else let! m := expect (next_multiple_of len pad_to) in expect (usize_sub m len)) in
  let! total_push :=
    ok_or (n ← checked_add len num_pad_elements; checked_add n (if include_len then 1 else 0))
      (budget_error a USIZE_MAX) in
  do! check_stack_capacity total_push;
  let stack := (if include_len then [new_unchecked len] else []) ++ values
                 ++ replicate (Z.to_nat num_pad_elements) ZERO in
  do! set_stack (stack ++ ap_stack a);
  let! b := felt_bytes total_push in
  add_size b.

(** *** The map *)

Definition insert_into_map (key : Word) (values : list Felt) : AP unit :=
  let! m := gets ap_map in
  match m !! key with
  | Some existing_values =>
      if decide (existing_values = values) then ret tt
      else fail (MapKeyAlreadyPresent key existing_values values)
  | None =>
      let! added := map_entry_bytes (Z.of_nat (length values)) in
      do! check_advice_size_addition added;
      do! set_map (<[key := values]> m);
      add_size added
  end.

(** The first loop of [extend_map]: the bytes of the entries to be added. *)
Fixpoint extend_map_bytes (entries : list (Word * list Felt)) (added : Z) : AP Z :=
  match entries with
  | [] => ret added
  | (key, values) :: rest =>
      let! a := gets id in
      match ap_map a !! key with
      | Some existing_values =>
          if decide (existing_values = values) then extend_map_bytes rest added
          else fail (MapKeyAlreadyPresent key existing_values values)
      | None =>
          let! entry_bytes := map_entry_bytes (Z.of_nat (length values)) in
          let! added := ok_or (checked_add added entry_bytes) (budget_error a USIZE_MAX) in
          extend_map_bytes rest added
      end
  end.

Definition extend_map (other : AdviceMap) : AP unit :=
  let! added := extend_map_bytes (map_iter other) 0 in
  do! check_advice_size_addition added;
  let! m := gets ap_map in
  match find_conflicting_entry m (map_iter other) with
  | Some (key, prev_values, new_values) => fail (MapKeyAlreadyPresent key prev_values new_values)
  | None =>
      do! set_map (merge_new m (map_iter other));
      add_size added
  end.

(** *** The Merkle store *)

Definition contains_internal_node (s : MerkleStore) (root : Word) : bool :=
  match get_node s root node_index_root with Ok _ => true | _ => false end.

(** The loop of [new_internal_node_count], with the roots seen so far. *)
Fixpoint count_new (s : MerkleStore) (seen_roots : gset Word) (count : Z) (roots : list Word) : Z :=
  match roots with
  | [] => count
  | root :: rest =>
      let fresh := bool_decide (root ∉ seen_roots) && negb (contains_internal_node s root) in
      count_new s ({[root]} ∪ seen_roots) (if fresh then count + 1 else count) rest
  end.

Definition new_internal_node_count (s : MerkleStore) (roots : list Word) : Z :=
  count_new s ∅ 0 roots.

Definition new_path_node_count (s : MerkleStore) (index : Z) (node : Word) (path : MerklePath) :
    res MerkleError Z :=
  match authenticated_nodes path index node with
  | Ok nodes => Ok (new_internal_node_count s (in_value <$> nodes))
  | Err e => Err e
  | Panic => Panic
  end.

(** [map_err] on a result of the Merkle store. *)
Definition lift_merkle {A} (f : MerkleError -> AdviceError) (r : res MerkleError A) : AP A :=
  match r with Ok a => ret a | Err e => fail (f e) | Panic => panic end.

Definition node_index_of (depth index : Felt) : AP NodeIndex :=
  lift_merkle (fun _ => InvalidMerkleTreeNodeIndex depth index) (from_elements depth index).

Definition get_tree_node (root : Word) (depth index : Felt) : AP Word :=
  let! index := node_index_of depth index in
  let! s := gets ap_store in
  lift_merkle MerkleStoreLookupFailed (get_node s root index).

Definition has_merkle_path (root : Word) (depth index : Felt) : AP bool :=
  let! index := node_index_of depth index in
  let! s := gets ap_store in
  ret (has_path s root index).

Definition get_merkle_path (root : Word) (depth index : Felt) : AP MerklePath :=
  let! index := node_index_of depth index in
  let! s := gets ap_store in
  let! proof := lift_merkle MerkleStoreLookupFailed (get_path s root index) in
  ret (mp_path proof).

(** [add_merkle_path] on the store field. *)
Definition store_add_path (index : Z) (node : Word) (path : MerklePath) : AP Word :=
  let! s := gets ap_store in
  let '(r, s') := add_merkle_path s index node path in
  do! set_store s';
  lift_merkle MerkleStoreUpdateFailed r.

Definition update_merkle_node (root : Word) (depth index : Felt) (value : Word) :
    AP (MerklePath * Word) :=
  let! node_index := node_index_of depth index in
  let! s := gets ap_store in
  let! proof := lift_merkle MerkleStoreUpdateFailed (get_path s root node_index) in
  let path := mp_path proof in
  if decide (mp_value proof = value) then ret (path, root)
  else
    let! added := lift_merkle MerkleStoreUpdateFailed
                    (new_path_node_count s (ni_position node_index) value path) in
    do! check_merkle_store_node_addition added;
    let! new_root := store_add_path (ni_position node_index) value path in
    do! add_node_count added;
    let! b := merkle_node_bytes added in
    do! add_size b;
    ret (path, new_root).

Definition adv_merge_roots (lhs rhs : Word) : AP Word :=
  let root := merge lhs rhs in
  let! s := gets ap_store in
  let added := new_internal_node_count s [root] in
  do! check_merkle_store_node_addition added;
  let '(root, s') := merge_roots s lhs rhs in
  do! set_store s';
  do! add_node_count added;
  let! b := merkle_node_bytes added in
  do! add_size b;
  ret root.

Definition has_merkle_root (root : Word) : AP bool :=
  let! s := gets ap_store in
  ret (contains_internal_node s root).

Definition extend_merkle_store (nodes : list InnerNodeInfo) : AP unit :=
  let! s := gets ap_store in
  let added := new_internal_node_count s (in_value <$> nodes) in
  do! check_merkle_store_node_addition added;
  do! set_store (store_extend s nodes);
  do! add_node_count added;
  let! b := merkle_node_bytes added in
  do! add_size b;
  ret tt.

(** *** Mutations *)

Record Pending := mkPending {
  added_bytes : Z;
  new_map_entries : AdviceMap;
  new_merkle_nodes : gset Word
}.

Definition add_pending (a : AdviceProvider) (p : Pending) (n : Z) : AP Z :=
  ok_or (checked_add (added_bytes p) n) (budget_error a USIZE_MAX).

Fixpoint validate_entries (p : Pending) (entries : list (Word * list Felt)) : AP Pending :=
  match entries with
  | [] => ret p
  | (key, values) :: rest =>
      let! a := gets id in
      match (match ap_map a !! key with Some v => Some v | None => new_map_entries p !! key end) with
      | Some existing_values =>
          if decide (existing_values = values) then validate_entries p rest
          else fail (MapKeyAlreadyPresent key existing_values values)
      | None =>
          let! added := map_entry_bytes (Z.of_nat (length values)) in
          let! n := add_pending a p added in
          validate_entries (mkPending n (<[key := values]> (new_map_entries p))
                              (new_merkle_nodes p)) rest
      end
  end.

Fixpoint validate_nodes (p : Pending) (nodes : list InnerNodeInfo) : AP Pending :=
  match nodes with
  | [] => ret p
  | node :: rest =>
      let! a := gets id in
      if negb (contains_internal_node (ap_store a) (in_value node))
      then
        if bool_decide (in_value node ∉ new_merkle_nodes p)
        then
          let! n := add_pending a p INTERNAL_NODE_SIZE_BYTES in
          validate_nodes (mkPending n (new_map_entries p)
                            ({[in_value node]} ∪ new_merkle_nodes p)) rest
        else validate_nodes p rest
      else validate_nodes p rest
  end.

Definition validate_mutation (p : Pending) (m : AdviceMutation) : AP Pending :=
  match m with
  | ExtendStack stack =>
      let! a := gets id in
      let! added := felt_bytes (Z.of_nat (length stack)) in
      let! n := add_pending a p added in
      ret (mkPending n (new_map_entries p) (new_merkle_nodes p))
  | ExtendMap map => validate_entries p (map_iter map)
  | ExtendMerkleStore inner_nodes => validate_nodes p inner_nodes
  end.

Fixpoint validate_all (p : Pending) (ms : list AdviceMutation) : AP Pending :=
  match ms with
  | [] => ret p
  | m :: rest => let! p := validate_mutation p m in validate_all p rest
  end.

Definition validate_mutations (ms : list AdviceMutation) : AP unit :=
  let! p := validate_all (mkPending 0 ∅ ∅) ms in
  check_advice_size_addition (added_bytes p).

Definition apply_mutation (m : AdviceMutation) : AP unit :=
  match m with
  | ExtendStack stack => extend_advice_stack stack
  | ExtendMap map => extend_map map
  | ExtendMerkleStore inner_nodes => extend_merkle_store inner_nodes
  end.

Fixpoint apply_all (ms : list AdviceMutation) : AP unit :=
  match ms with
  | [] => ret tt
  | m :: rest => do! apply_mutation m; apply_all rest
  end.

Definition apply_mutations (ms : list AdviceMutation) : AP unit :=
  do! validate_mutations ms;
  apply_all ms.

(** *** Construction *)

(** [MerkleStore::inner_nodes]. *)
Definition store_inner_nodes (s : MerkleStore) : list InnerNodeInfo :=
  (fun e => mkInnerNodeInfo (fst e) (sn_left (snd e)) (sn_right (snd e))) <$> map_to_list s.

(** [empty], given the store of empty subtrees. *)
Definition provider_empty (store : MerkleStore) (max : Z) : AdviceProvider :=
  let n := num_internal_nodes store in
  mkAdviceProvider [] ∅ store n (n * INTERNAL_NODE_SIZE_BYTES) max.

Definition provider_load (stack : list Felt) (map : AdviceMap) (store : MerkleStore) : AP unit :=
  do! check_advice_size_addition 0;
  do! extend_advice_stack stack;
  do! extend_merkle_store (store_inner_nodes store);
  extend_map map.

Definition provider_new (default_store : MerkleStore) (max : Z) (stack : list Felt)
    (map : AdviceMap) (store : MerkleStore) : res AdviceError AdviceProvider :=
  match provider_load stack map store (provider_empty default_store max) with
  | (Ok _, a) => Ok a
  | (Err e, _) => Err e
  | (Panic, _) => Panic
  end.

End Provider.
