(* ===== verification/AdviceTheory.v ===== *)
(** * The advice budget

    The byte counter of the advice provider is exact and within its limit in
    every reachable state, no operation panics, and a batch of mutations is
    applied entirely or not at all. *)

From S2P Require Import Prelude Felt AdviceMap Quad AceCircuit Machine Memory Merkle MerkleTheory.
From S2P Require Import Advice.

(** ** The size of the contents *)

Definition entry_bytes (values : list Felt) : Z := 32 + 8 * Z.of_nat (length values).

Definition map_bytes (m : AdviceMap) : Z := map_fold (fun _ v acc => entry_bytes v + acc) 0 m.

Definition contents_bytes (a : AdviceProvider) : Z :=
  8 * Z.of_nat (length (ap_stack a)) + map_bytes (ap_map a) + 96 * Z.of_nat (size (ap_store a)).

(** The invariant of the provider. *)
Record adv_wf (a : AdviceProvider) : Prop := {
  aw_size : advice_size_bytes a = contents_bytes a;
  aw_nodes : merkle_store_node_count a = Z.of_nat (size (ap_store a));
  aw_budget : advice_size_bytes a <= max_advice_size_bytes a;
  aw_usize : max_advice_size_bytes a <= USIZE_MAX
}.

Lemma entry_bytes_pos v : 32 <= entry_bytes v.
Proof. unfold entry_bytes. lia. Qed.

Lemma map_bytes_insert m k v : m !! k = None ->
  map_bytes (<[k := v]> m) = entry_bytes v + map_bytes m.
Proof.
  intros Hk. unfold map_bytes. rewrite map_fold_insert_L; [done| |done].
  intros. lia.
Qed.

Lemma map_bytes_pos m : 0 <= map_bytes m.
Proof.
  induction m as [|k v m Hk IH] using map_ind; [done|].
  rewrite map_bytes_insert by done. pose proof (entry_bytes_pos v). lia.
Qed.

(** The bytes of the entries whose keys are new. *)
Fixpoint fresh_bytes (m : AdviceMap) (entries : list (Word * list Felt)) : Z :=
  match entries with
  | [] => 0
  | (k, v) :: rest =>
      (match m !! k with Some _ => 0 | None => entry_bytes v end) + fresh_bytes m rest
  end.

Lemma fresh_bytes_pos m entries : 0 <= fresh_bytes m entries.
Proof.
  induction entries as [|[k v] entries IH]; simpl; [done|].
  pose proof (entry_bytes_pos v). destruct (m !! k); lia.
Qed.

Lemma fresh_bytes_insert m k v entries : k ∉ entries.*1 ->
  fresh_bytes (<[k := v]> m) entries = fresh_bytes m entries.
Proof.
  induction entries as [|[k' v'] entries IH]; simpl; [done|]. intros Hk.
  rewrite lookup_insert_ne by set_solver. rewrite IH by set_solver. done.
Qed.

Lemma merge_new_bytes m entries : NoDup entries.*1 ->
  map_bytes (merge_new m entries) = map_bytes m + fresh_bytes m entries.
Proof.
  unfold merge_new. revert m. induction entries as [|[k v] entries IH]; intros m; simpl; [lia|].
  intros [Hk Hnd]%NoDup_cons. destruct (m !! k) eqn:Hm; rewrite IH by done; [lia|].
  rewrite map_bytes_insert, fresh_bytes_insert by done. lia.
Qed.

Lemma merge_new_lookup m entries k : NoDup entries.*1 ->
  merge_new m entries !! k = match m !! k with Some v => Some v | None => (list_to_map entries : AdviceMap) !! k end.
Proof.
  unfold merge_new. revert m. induction entries as [|[k' v'] entries IH]; intros m; simpl.
  { rewrite lookup_empty. by destruct (m !! k). }
  intros [Hk Hnd]%NoDup_cons. destruct (m !! k') eqn:Hm; rewrite IH by done.
  - destruct (decide (k' = k)) as [<-|]; [by rewrite Hm|by rewrite lookup_insert_ne].
  - destruct (decide (k' = k)) as [<-|].
    + by rewrite !lookup_insert_eq, Hm.
    + by rewrite !lookup_insert_ne.
Qed.

(** ** The iteration order is a permutation *)

(** ** Store sizes *)

Lemma contains_internal_node_spec s root :
  contains_internal_node s root = bool_decide (root ∈ dom s).
Proof.
  unfold contains_internal_node, get_node. destruct (s !! root) eqn:Hr.
  - rewrite bool_decide_true; [done|]. by apply elem_of_dom.
  - rewrite bool_decide_false; [done|]. by apply not_elem_of_dom.
Qed.

Lemma count_new_spec s seen c roots :
  count_new s seen c roots = c + Z.of_nat (size ((list_to_set roots : gset Word) ∖ (seen ∪ dom s))).
Proof.
  revert seen c. induction roots as [|r roots IH]; intros seen c; cbn [count_new list_to_set].
  { assert (∅ ∖ (seen ∪ dom s) = (∅ : gset Word)) as -> by set_solver.
    rewrite size_empty. lia. }
  rewrite IH, contains_internal_node_spec.
  destruct (decide (r ∈ seen ∪ dom s)) as [Hin|Hout].
  - assert (bool_decide (r ∉ seen) && negb (bool_decide (r ∈ dom s)) = false) as ->.
    { apply elem_of_union in Hin as [Hi|Hi].
      - by rewrite (bool_decide_false (r ∉ seen)) by set_solver.
      - rewrite (bool_decide_true (r ∈ dom s)) by done. by rewrite andb_false_r. }
    do 3 f_equal. set_solver.
  - rewrite bool_decide_true, bool_decide_false by set_solver. cbn [andb negb].
    replace (({[r]} ∪ list_to_set roots) ∖ (seen ∪ dom s) : gset Word)
      with ({[r]} ∪ (list_to_set roots ∖ ({[r]} ∪ seen ∪ dom s)) : gset Word).
    + pose proof (size_union ({[r]} : gset Word) (list_to_set roots ∖ ({[r]} ∪ seen ∪ dom s))) as Hs.
      rewrite Hs by set_solver. rewrite size_singleton. lia.
    + apply leibniz_equiv. intros x. destruct (decide (x = r)) as [->|]; set_solver.
Qed.

Lemma store_extend_dom s nodes :
  dom (store_extend s nodes) = dom s ∪ (list_to_set (in_value <$> nodes) : gset Word).
Proof.
  revert s. induction nodes as [|n nodes IH]; intros s; cbn [store_extend foldl fmap list_fmap list_to_set].
  { set_solver. }
  unfold store_extend in IH. rewrite IH. unfold insert_node. rewrite dom_insert_L. set_solver.
Qed.

Lemma store_size_dom (s : MerkleStore) : size s = size (dom s).
Proof. symmetry. apply size_dom. Qed.

Lemma store_extend_size s nodes :
  Z.of_nat (size (store_extend s nodes)) =
    Z.of_nat (size s) + new_internal_node_count s (in_value <$> nodes).
Proof.
  unfold new_internal_node_count. rewrite count_new_spec, !store_size_dom, store_extend_dom.
  pose proof (size_union_alt (dom s) (list_to_set (in_value <$> nodes) : gset Word)) as Hs.
  rewrite Hs, union_empty_l_L. lia.
Qed.

(** ** Specifications of the operations

    An operation that adds [n] bytes either has room for them and succeeds, or
    fails and leaves the provider as it was. *)

Definition fits (a : AdviceProvider) (n : Z) : Prop :=
  advice_size_bytes a + n <= max_advice_size_bytes a.

#[export] Instance fits_dec a n : Decision (fits a n).
Proof. unfold fits. apply _. Defined.

Definition grows {A} (m : AP A) (a : AdviceProvider) (n : Z) (x : A) (a' : AdviceProvider) : Prop :=
  if decide (fits a n) then m a = (Ok x, a') else exists e, m a = (Err e, a).

(** The state after adding [n] bytes of contents. *)
Definition grown (a : AdviceProvider) (l : list Felt) (m : AdviceMap) (s : MerkleStore) (n : Z) :
    AdviceProvider :=
  mkAdviceProvider l m s (Z.of_nat (size s)) (advice_size_bytes a + n) (max_advice_size_bytes a).

Lemma grown_wf a l m s n : adv_wf a -> fits a n ->
  8 * Z.of_nat (length l) + map_bytes m + 96 * Z.of_nat (size s) = contents_bytes a + n ->
  adv_wf (grown a l m s n).
Proof. intros [Hs Hn Hb Hu] Hf Hc. unfold fits in Hf. split; cbn in *; lia || (unfold contents_bytes in *; cbn in *; lia). Qed.

Lemma contents_pos a : 0 <= contents_bytes a.
Proof. unfold contents_bytes. pose proof (map_bytes_pos (ap_map a)). lia. Qed.

Lemma checked_add_Some a b : a + b <= USIZE_MAX -> checked_add a b = Some (a + b).
Proof. intros. unfold checked_add. by rewrite (proj2 (Z.leb_le _ _)). Qed.

Lemma checked_mul_Some a b : a * b <= USIZE_MAX -> checked_mul a b = Some (a * b).
Proof. intros. unfold checked_mul. by rewrite (proj2 (Z.leb_le _ _)). Qed.

Lemma usize_sub_Some a b : b <= a -> usize_sub a b = Some (a - b).
Proof. intros. unfold usize_sub. by rewrite (proj2 (Z.leb_le _ _)). Qed.

Lemma check_size_grows a n : adv_wf a -> grows (check_advice_size_addition n) a n tt a.
Proof.
  intros [Hs Hn Hb Hu]. unfold grows, check_advice_size_addition, bind, gets, id, fits.
  unfold checked_add. destruct (Z.leb_spec (advice_size_bytes a + n) USIZE_MAX).
  - destruct (Z.ltb_spec (max_advice_size_bytes a) (advice_size_bytes a + n));
      destruct (decide _); try lia; [by eexists|done].
  - rewrite decide_False by lia. by eexists.
Qed.

Lemma bytes_then_check (f : Z -> AP Z) k n a : adv_wf a ->
  (n * k <= USIZE_MAX -> f n a = (Ok (n * k), a)) ->
  (USIZE_MAX < n * k -> exists e, f n a = (Err e, a)) ->
  grows (let! b := f n in check_advice_size_addition b) a (n * k) tt a.
Proof.
  intros Hwf Hok Herr. destruct (decide (n * k <= USIZE_MAX)) as [Hle|Hgt].
  - unfold grows. rewrite (bind_Ok _ _ _ _ _ (Hok Hle)). by apply check_size_grows.
  - destruct (Herr ltac:(lia)) as [e He]. unfold grows. destruct Hwf as [Hs _ _ Hu].
    pose proof (contents_pos a). rewrite decide_False by (unfold fits; lia).
    rewrite (bind_Err _ _ _ _ _ He). by eexists.
Qed.

Lemma ok_or_mul_ok n k e (a : AdviceProvider) : n * k <= USIZE_MAX ->
  ok_or (E:=AdviceError) (checked_mul n k) e a = (Ok (n * k), a).
Proof. intros. by rewrite checked_mul_Some. Qed.

Lemma ok_or_mul_err n k (e0 : AdviceError) (a : AdviceProvider) : USIZE_MAX < n * k ->
  exists e, ok_or (E:=AdviceError) (checked_mul n k) e0 a = (Err e, a).
Proof.
  intros. unfold checked_mul. rewrite (proj2 (Z.leb_gt _ _)) by done. by eexists.
Qed.

Lemma check_stack_grows a n : adv_wf a -> grows (check_stack_capacity n) a (n * 8) tt a.
Proof.
  intros Hwf. apply (bytes_then_check felt_bytes 8); [done| |]; intros.
  - by apply ok_or_mul_ok.
  - by apply ok_or_mul_err.
Qed.

Lemma check_nodes_grows a n : adv_wf a -> grows (check_merkle_store_node_addition n) a (n * 96) tt a.
Proof.
  intros Hwf. apply (bytes_then_check merkle_node_bytes 96); [done| |]; intros.
  - by apply ok_or_mul_ok.
  - by apply ok_or_mul_err.
Qed.

Lemma fits_usize a n : adv_wf a -> fits a n -> advice_size_bytes a + n <= USIZE_MAX.
Proof. intros [] Hf. unfold fits in Hf. lia. Qed.

Lemma fits_alone a n : adv_wf a -> fits a n -> n <= USIZE_MAX.
Proof. intros [Hs _ _ Hu] Hf. pose proof (contents_pos a). unfold fits in Hf. lia. Qed.

(** A computation that checks its room and then runs to completion. *)
Lemma grows_bind {A} (c : AP unit) (k : unit -> AP A) a n x a' :
  grows c a n tt a -> (fits a n -> k tt a = (Ok x, a')) -> grows (bind c k) a n x a'.
Proof.
  unfold grows. intros Hc Hk. destruct (decide _).
  - rewrite (bind_Ok _ _ _ _ _ Hc). by apply Hk.
  - destruct Hc as [e He]. rewrite (bind_Err _ _ _ _ _ He). by eexists.
Qed.

Lemma add_size_run a n : advice_size_bytes a + n <= USIZE_MAX ->
  add_size n a = (Ok tt, mkAdviceProvider (ap_stack a) (ap_map a) (ap_store a)
                           (merkle_store_node_count a) (advice_size_bytes a + n)
                           (max_advice_size_bytes a)).
Proof. intros. unfold add_size, bind, gets, usize_add. by rewrite checked_add_Some. Qed.

Lemma extend_advice_stack_grows stack a : adv_wf a ->
  grows (extend_advice_stack stack) a (Z.of_nat (length stack) * 8) tt
    (grown a (stack ++ ap_stack a) (ap_map a) (ap_store a) (Z.of_nat (length stack) * 8)).
Proof.
  intros Hwf. apply grows_bind; [by apply check_stack_grows|]. intros Hf.
  pose proof (fits_alone _ _ Hwf Hf). pose proof (fits_usize _ _ Hwf Hf).
  unfold felt_bytes. rewrite (bind_Ok _ _ _ _ _ (ok_or_mul_ok _ _ _ _ H)).
  unfold bind, gets, set_stack, modify. rewrite add_size_run by done.
  unfold grown. cbn. by rewrite (aw_nodes _ Hwf).
Qed.

Lemma push_stack_grows value a : adv_wf a ->
  grows (push_stack value) a 8 tt (grown a (value :: ap_stack a) (ap_map a) (ap_store a) 8).
Proof.
  intros Hwf. apply grows_bind; [by apply (check_stack_grows a 1)|]. intros Hf.
  unfold bind, gets, set_stack, modify. rewrite add_size_run by (exact (fits_usize _ _ Hwf Hf)).
  unfold grown. cbn. by rewrite (aw_nodes _ Hwf).
Qed.

Lemma push_stack_word_grows w a : adv_wf a ->
  grows (push_stack_word w) a 32 tt
    (grown a (into_elements w ++ ap_stack a) (ap_map a) (ap_store a) 32).
Proof.
  intros Hwf. apply grows_bind; [by apply (check_stack_grows a 4)|]. intros Hf.
  unfold bind, gets, set_stack, modify. rewrite add_size_run by (exact (fits_usize _ _ Hwf Hf)).
  unfold grown. cbn. by rewrite (aw_nodes _ Hwf).
Qed.

Lemma new_count_pos s roots : 0 <= new_internal_node_count s roots.
Proof. unfold new_internal_node_count. rewrite count_new_spec. lia. Qed.

(** The common end of the operations that add nodes to the store. *)
Lemma charge_nodes {A} a s' added (x : A) :
  adv_wf a -> fits a (added * 96) -> 0 <= added ->
  Z.of_nat (size s') = Z.of_nat (size (ap_store a)) + added ->
  (do! set_store s'; do! add_node_count added;
   let! b := merkle_node_bytes added in do! add_size b; ret x) a
  = (Ok x, grown a (ap_stack a) (ap_map a) s' (added * 96)).
Proof.
  intros Hwf Hf Hp Hs. pose proof (fits_alone _ _ Hwf Hf). pose proof (fits_usize _ _ Hwf Hf).
  assert (Hc : Z.of_nat (size (ap_store a)) + added <= USIZE_MAX).
  { pose proof (aw_size _ Hwf) as Hsz. unfold contents_bytes in Hsz.
    pose proof (map_bytes_pos (ap_map a)). lia. }
  unfold set_store, add_node_count, usize_add.
  cbv beta iota delta [bind modify gets]. cbn [merkle_store_node_count].
  rewrite (aw_nodes _ Hwf), checked_add_Some by lia.
  cbv beta iota delta [expect ret set_node_count modify merkle_node_bytes].
  rewrite ok_or_mul_ok, add_size_run by done. unfold grown. by rewrite Hs.
Qed.

Section Store.
Context `{Poseidon2}.

Lemma extend_merkle_store_grows nodes a : adv_wf a ->
  grows (extend_merkle_store nodes) a (new_internal_node_count (ap_store a) (in_value <$> nodes) * 96) tt
    (grown a (ap_stack a) (ap_map a) (store_extend (ap_store a) nodes)
       (new_internal_node_count (ap_store a) (in_value <$> nodes) * 96)).
Proof.
  intros Hwf. unfold grows, extend_merkle_store. rewrite bind_gets.
  apply grows_bind; [by apply check_nodes_grows|]. intros Hf.
  apply charge_nodes; [done|done|apply new_count_pos|apply store_extend_size].
Qed.

Lemma adv_merge_roots_grows lhs rhs a : adv_wf a ->
  let added := new_internal_node_count (ap_store a) [merge lhs rhs] in
  grows (adv_merge_roots lhs rhs) a (added * 96) (merge lhs rhs)
    (grown a (ap_stack a) (ap_map a) (snd (merge_roots (ap_store a) lhs rhs)) (added * 96)).
Proof.
  intros Hwf added. unfold grows, adv_merge_roots. rewrite bind_gets.
  apply grows_bind; [by apply check_nodes_grows|]. intros Hf. cbn [merge_roots].
  apply charge_nodes; [done|done|apply new_count_pos|].
  apply (store_extend_size (ap_store a) [mkInnerNodeInfo (merge lhs rhs) lhs rhs]).
Qed.

Lemma from_elements_ok depth index i : from_elements depth index = Ok i -> index_wf i.
Proof.
  unfold from_elements. pose proof (felt_range depth). pose proof (felt_range index).
  destruct (_ <? _); [done|]. intros Hi. by apply node_index_new_wf in Hi as [_ ?]; [|lia..].
Qed.

Lemma from_elements_no_panic depth index : from_elements depth index <> Panic.
Proof. unfold from_elements, node_index_new. by repeat destruct (_ <? _). Qed.

Lemma get_path_no_panic s root index : index_wf index -> get_path s root index <> Panic.
Proof.
  intros Hi. rewrite get_path_spec by done. destruct (s !! root); [|done].
  pose proof (walk_no_panic s index (Z.to_nat (ni_depth index)) root []).
  by destruct (walk _ _ _ _ _) as [[]| |].
Qed.

Lemma get_path_length s root index proof : index_wf index -> get_path s root index = Ok proof ->
  Z.of_nat (length (mp_path proof)) = ni_depth index.
Proof.
  intros Hi. rewrite get_path_spec by done. destruct (s !! root); [|done].
  destruct (walk _ _ _ _ _) as [[h q]| |] eqn:Hw; [|done..]. intros [= <-].
  apply walk_length in Hw. destruct Hi as [Hd _]. cbn in *. rewrite length_reverse. lia.
Qed.

(** Updating a node: nothing changes when the index is invalid, the node
    cannot be found, or it has the value already; otherwise the nodes of the
    new path are added. *)
Lemma update_merkle_node_cases root depth index value a : adv_wf a ->
  (exists e, update_merkle_node root depth index value a = (Err e, a)) \/
  (exists i proof, from_elements depth index = Ok i /\ get_path (ap_store a) root i = Ok proof /\
    ((mp_value proof = value /\
      update_merkle_node root depth index value a = (Ok (mp_path proof, root), a)) \/
     (mp_value proof <> value /\
      let infos := path_infos (ni_position i) value (mp_path proof) in
      let added := new_internal_node_count (ap_store a) (in_value <$> infos) in
      fits a (added * 96) /\
      update_merkle_node root depth index value a =
        (Ok (mp_path proof, foldl (fun _ n => in_value n) EMPTY_WORD infos),
         grown a (ap_stack a) (ap_map a) (store_extend (ap_store a) infos) (added * 96))))).
Proof.
  intros Hwf. unfold update_merkle_node, node_index_of.
  pose proof (from_elements_no_panic depth index).
  destruct (from_elements depth index) as [i|e|] eqn:Hi; [|left; by eexists|done].
  pose proof (from_elements_ok _ _ _ Hi) as Hiw.
  cbn [lift_merkle]. rewrite (bind_Ok _ _ a i a), bind_gets by done.
  pose proof (get_path_no_panic (ap_store a) root i Hiw).
  destruct (get_path (ap_store a) root i) as [proof|e|] eqn:Hp; [|left; by eexists|done].
  pose proof (get_path_length _ _ _ _ Hiw Hp) as Hlen.
  cbn [lift_merkle]. rewrite (bind_Ok _ _ a proof a) by done.
  destruct (decide (mp_value proof = value)) as [Hv|Hv].
  { right. exists i, proof. split_and!; [done..|]. by left. }
  destruct Hiw as [Hd Hpos].
  assert (Hauth := authenticated_nodes_spec (mp_path proof) (ni_position i) value
    ltac:(lia) ltac:(lia) ltac:(rewrite Hlen; lia)).
  unfold new_path_node_count, store_add_path, add_merkle_path. rewrite Hauth.
  set (infos := path_infos _ _ _). set (added := new_internal_node_count _ (in_value <$> infos)).
  cbn [lift_merkle]. rewrite (bind_Ok _ _ a added a) by done.
  pose proof (check_nodes_grows a added Hwf) as Hc. unfold grows in Hc.
  destruct (decide (fits a _)) as [Hf|Hf].
  - right. exists i, proof. split_and!; [done..|]. right. split_and!; [done..|].
    rewrite (bind_Ok _ _ _ _ _ Hc).
    apply (charge_nodes a (store_extend (ap_store a) infos) added
      (mp_path proof, foldl (fun _ n => in_value n) EMPTY_WORD infos));
      [done|done|apply new_count_pos|apply store_extend_size].
  - left. destruct Hc as [e He]. rewrite (bind_Err _ _ _ _ _ He). by eexists.
Qed.

End Store.

(** *** The map *)

Lemma map_entry_bytes_ok values a : entry_bytes values <= USIZE_MAX ->
  map_entry_bytes (Z.of_nat (length values)) a = (Ok (entry_bytes values), a).
Proof.
  unfold entry_bytes. intros Hle. unfold map_entry_bytes, felt_bytes.
  rewrite (bind_Ok _ _ _ _ _ (ok_or_mul_ok (Z.of_nat (length values)) 8 overflow_error a ltac:(lia))).
  unfold WORD_SERIALIZED_SIZE, FELT_SIZE_BYTES. rewrite checked_add_Some by lia.
  unfold ok_or, ret. do 2 f_equal. lia.
Qed.

Lemma map_entry_bytes_err values a : USIZE_MAX < entry_bytes values ->
  exists e, map_entry_bytes (Z.of_nat (length values)) a = (Err e, a).
Proof.
  unfold entry_bytes. intros Hle. unfold map_entry_bytes, felt_bytes.
  destruct (decide (Z.of_nat (length values) * 8 <= USIZE_MAX)).
  - rewrite (bind_Ok _ _ _ _ _ (ok_or_mul_ok _ _ _ _ l)).
    unfold checked_add, WORD_SERIALIZED_SIZE, FELT_SIZE_BYTES.
    rewrite (proj2 (Z.leb_gt _ _)) by lia. by eexists.
  - destruct (ok_or_mul_err (Z.of_nat (length values)) 8 overflow_error a ltac:(lia)) as [e He].
    rewrite (bind_Err _ _ _ _ _ He). by eexists.
Qed.

Lemma extend_map_bytes_spec entries added a : 0 <= added ->
  (find_conflicting_entry (ap_map a) entries = None ->
   added + fresh_bytes (ap_map a) entries <= USIZE_MAX ->
   extend_map_bytes entries added a = (Ok (added + fresh_bytes (ap_map a) entries), a)) /\
  (find_conflicting_entry (ap_map a) entries <> None \/
   USIZE_MAX < added + fresh_bytes (ap_map a) entries ->
   added <= USIZE_MAX -> exists e, extend_map_bytes entries added a = (Err e, a)).
Proof.
  revert added. induction entries as [|[k v] entries IH]; intros added Hadd;
    cbn [find_conflicting_entry fresh_bytes extend_map_bytes].
  { rewrite Z.add_0_r. split; [done|]. intros [?|?]; [done|lia]. }
  rewrite bind_gets. unfold id at 1 2. cbn [id]. destruct (ap_map a !! k) as [v'|].
  { destruct (decide (v' = v)).
    - rewrite Z.add_0_l. by apply IH.
    - split; [done|]. intros. by eexists. }
  pose proof (entry_bytes_pos v). pose proof (fresh_bytes_pos (ap_map a) entries).
  destruct (decide (added + entry_bytes v <= USIZE_MAX)) as [Hle|Hgt].
  - rewrite (bind_Ok _ _ _ _ _ (map_entry_bytes_ok v a ltac:(lia))).
    rewrite checked_add_Some by lia. rewrite (bind_Ok _ _ a (added + entry_bytes v) a) by done.
    rewrite Z.add_assoc. destruct (IH (added + entry_bytes v) ltac:(lia)) as [IH1 IH2]. auto.
  - split; [lia|]. intros _ _. destruct (decide (entry_bytes v <= USIZE_MAX)).
    + rewrite (bind_Ok _ _ _ _ _ (map_entry_bytes_ok v a ltac:(lia))).
      unfold checked_add. rewrite (proj2 (Z.leb_gt _ _)) by lia. by eexists.
    + destruct (map_entry_bytes_err v a ltac:(lia)) as [e He].
      rewrite (bind_Err _ _ _ _ _ He). by eexists.
Qed.

Lemma extend_map_conflict other a : adv_wf a ->
  find_conflicting_entry (ap_map a) (map_iter other) <> None ->
  exists e, extend_map other a = (Err e, a).
Proof.
  intros Hwf Hc. destruct (extend_map_bytes_spec (map_iter other) 0 a) as [_ Herr]; [lia|].
  destruct Herr as [e He]; [by left|unfold USIZE_MAX, U64_MAX; lia|].
  unfold extend_map. rewrite (bind_Err _ _ _ _ _ He). by eexists.
Qed.

Lemma extend_map_grows other a : adv_wf a ->
  find_conflicting_entry (ap_map a) (map_iter other) = None ->
  let n := fresh_bytes (ap_map a) (map_iter other) in
  grows (extend_map other) a n tt
    (grown a (ap_stack a) (merge_new (ap_map a) (map_iter other)) (ap_store a) n).
Proof.
  intros Hwf Hc n. destruct (extend_map_bytes_spec (map_iter other) 0 a) as [Hok Herr]; [lia|].
  fold n in Hok, Herr. rewrite Z.add_0_l in Hok, Herr.
  unfold extend_map. destruct (decide (n <= USIZE_MAX)) as [Hle|Hgt].
  - unfold grows. rewrite (bind_Ok _ _ _ _ _ (Hok Hc Hle)).
    apply grows_bind; [by apply check_size_grows|]. intros Hf. rewrite bind_gets, Hc.
    unfold bind, set_map, modify. rewrite add_size_run by (exact (fits_usize _ _ Hwf Hf)).
    unfold grown. cbn. by rewrite (aw_nodes _ Hwf).
  - destruct Herr as [e He]; [right; lia|unfold USIZE_MAX, U64_MAX; lia|].
    unfold grows. rewrite decide_False.
    + rewrite (bind_Err _ _ _ _ _ He). by eexists.
    + intros Hf. by apply fits_alone in Hf.
Qed.

Lemma insert_into_map_grows key values a : adv_wf a -> ap_map a !! key = None ->
  grows (insert_into_map key values) a (entry_bytes values) tt
    (grown a (ap_stack a) (<[key := values]> (ap_map a)) (ap_store a) (entry_bytes values)).
Proof.
  intros Hwf Hk. unfold grows, insert_into_map. rewrite bind_gets, Hk.
  destruct (decide (entry_bytes values <= USIZE_MAX)) as [Hle|Hgt].
  - rewrite (bind_Ok _ _ _ _ _ (map_entry_bytes_ok _ a Hle)).
    apply grows_bind; [by apply check_size_grows|]. intros Hf.
    unfold bind, set_map, modify. rewrite add_size_run by (exact (fits_usize _ _ Hwf Hf)).
    unfold grown. cbn. by rewrite (aw_nodes _ Hwf).
  - destruct (map_entry_bytes_err values a ltac:(lia)) as [e He].
    rewrite decide_False by (intros Hf; by apply fits_alone in Hf).
    rewrite (bind_Err _ _ _ _ _ He). by eexists.
Qed.

Lemma map_bytes_lookup m k v : m !! k = Some v -> entry_bytes v <= map_bytes m.
Proof.
  intros Hk. rewrite <- (insert_delete_id m k v Hk), map_bytes_insert by apply lookup_delete_eq.
  pose proof (map_bytes_pos (delete k m)). lia.
Qed.

(** [push_from_map] pushes the optional length, the values and the padding. *)
Definition mapped_block (values : list Felt) (include_len : bool) (pad : Z) : list Felt :=
  (if include_len then [new_unchecked (Z.of_nat (length values))] else [])
    ++ values ++ replicate (Z.to_nat pad) ZERO.

Definition pad_len (len pad_to : Z) : Z := if pad_to =? 0 then 0 else div_ceil len pad_to * pad_to - len.

Lemma pad_len_bounds len pad_to : 0 <= len -> 0 <= pad_to -> 0 <= pad_len len pad_to <= pad_to.
Proof.
  intros Hl Hp. unfold pad_len, div_ceil. destruct (Z.eqb_spec pad_to 0); [lia|].
  pose proof (Z.div_mod (len + pad_to - 1) pad_to). pose proof (Z.mod_pos_bound (len + pad_to - 1) pad_to).
  lia.
Qed.

Lemma push_from_map_grows key include_len pad_to values a : adv_wf a ->
  0 <= pad_to <= 255 -> ap_map a !! key = Some values ->
  let block := mapped_block values include_len (pad_len (Z.of_nat (length values)) pad_to) in
  grows (push_from_map key include_len pad_to) a (Z.of_nat (length block) * 8) tt
    (grown a (block ++ ap_stack a) (ap_map a) (ap_store a) (Z.of_nat (length block) * 8)).
Proof.
  intros Hwf Hpad Hk block. set (len := Z.of_nat (length values)) in *.
  assert (Hlen : 8 * len + 32 <= USIZE_MAX).
  { pose proof (map_bytes_lookup _ _ _ Hk) as Hb. unfold entry_bytes in Hb. fold len in Hb.
    destruct Hwf as [Hs _ Hb' Hu]. unfold contents_bytes in Hs. lia. }
  assert (Hbig : len + 256 <= USIZE_MAX) by (unfold USIZE_MAX, U64_MAX in *; lia).
  pose proof (pad_len_bounds len pad_to ltac:(lia) ltac:(lia)) as Hp.
  assert (Hblock : Z.of_nat (length block) = len + pad_len len pad_to + (if include_len then 1 else 0)).
  { unfold block, mapped_block. rewrite !length_app, length_replicate. fold len.
    destruct include_len; simpl; lia. }
  unfold grows, push_from_map. rewrite bind_gets. unfold id at 1 2. cbn [id].
  rewrite Hk. rewrite (bind_Ok _ _ a values a) by done. fold len.
  rewrite (bind_Ok _ _ a (pad_len len pad_to) a).
  2:{ unfold pad_len in *. destruct (pad_to =? 0); [done|]. unfold next_multiple_of.
      rewrite (proj2 (Z.leb_le _ _)) by lia. unfold bind, expect, ret.
      rewrite usize_sub_Some by lia. done. }
  rewrite (bind_Ok _ _ a (Z.of_nat (length block)) a).
  2:{ rewrite checked_add_Some by lia. cbn [mbind option_bind].
      rewrite checked_add_Some by (destruct include_len; lia). by rewrite Hblock. }
  apply grows_bind; [by apply check_stack_grows|]. intros Hf.
  pose proof (fits_alone _ _ Hwf Hf) as Ha. pose proof (fits_usize _ _ Hwf Hf) as Hu.
  unfold bind, set_stack, modify, felt_bytes. rewrite ok_or_mul_ok by done.
  rewrite add_size_run by done. unfold grown. cbn. by rewrite (aw_nodes _ Hwf).
Qed.

(** *** Consuming the stack *)

Lemma pop_run {A} (consume : list Felt -> option (A * list Felt)) n a : adv_wf a -> 0 <= n ->
  (forall l x r, consume l = Some (x, r) -> 8 * Z.of_nat (length l) = n + 8 * Z.of_nat (length r)) ->
  let pop := let! l := gets ap_stack in
             let! (value, l) := ok_or (consume l) StackReadFailed in
             do! set_stack l; do! sub_size n; ret value in
  match consume (ap_stack a) with
  | None => pop a = (Err StackReadFailed, a)
  | Some (x, r) => pop a = (Ok x, grown a r (ap_map a) (ap_store a) (- n)) /\ n <= advice_size_bytes a
  end.
Proof.
  intros Hwf Hn Hc pop. unfold pop. rewrite bind_gets.
  destruct (consume (ap_stack a)) as [[x r]|] eqn:Hx; [|done]. apply Hc in Hx.
  destruct Hwf as [Hs Hnodes _ _]. unfold contents_bytes in Hs.
  pose proof (map_bytes_pos (ap_map a)).
  assert (Hle : n <= advice_size_bytes a) by lia. split; [|done].
  rewrite (bind_Ok _ _ a (x, r) a) by done.
  unfold sub_size, bind, set_stack, modify, gets. cbn [advice_size_bytes].
  rewrite usize_sub_Some by done. unfold expect, ret, set_size, modify, grown. cbn.
  by rewrite Hnodes.
Qed.

Lemma consume_element_len l x r : consume_element l = Some (x, r) ->
  8 * Z.of_nat (length l) = 8 + 8 * Z.of_nat (length r).
Proof. destruct l; [done|]. intros [= -> ->]. simpl. lia. Qed.

Lemma consume_word_len l w r : consume_word l = Some (w, r) ->
  8 * Z.of_nat (length l) = 32 + 8 * Z.of_nat (length r).
Proof. do 4 (destruct l as [|? l]; [done|]). intros [= <- ->]. simpl. lia. Qed.

Lemma consume_dword_len l w r : consume_dword l = Some (w, r) ->
  8 * Z.of_nat (length l) = 64 + 8 * Z.of_nat (length r).
Proof.
  unfold consume_dword. destruct (_ <? _)%nat; [done|].
  destruct (consume_word l) as [[w1 l1]|] eqn:H1; [|done]. cbn [mbind option_bind].
  destruct (consume_word l1) as [[w2 l2]|] eqn:H2; [|done]. cbn. intros [= <- ->].
  apply consume_word_len in H1, H2. lia.
Qed.

(** The dword pop has the same shape with a pair of words. *)
Lemma pop_stack_dword_alt a : pop_stack_dword a =
  (let! l := gets ap_stack in
   let! (value, l) := ok_or (consume_dword l) StackReadFailed in
   do! set_stack l; do! sub_size 64; ret value) a.
Proof.
  unfold pop_stack_dword. rewrite !bind_gets. unfold bind, ok_or.
  by destruct (consume_dword (ap_stack a)) as [[[w1 w2] r]|].
Qed.

Lemma shrink_wf a r n : adv_wf a -> 0 <= n ->
  8 * Z.of_nat (length (ap_stack a)) = n + 8 * Z.of_nat (length r) ->
  adv_wf (grown a r (ap_map a) (ap_store a) (- n)).
Proof.
  intros Hwf Hn Hl. apply grown_wf; [done| |].
  - destruct Hwf. unfold fits. lia.
  - unfold contents_bytes. lia.
Qed.

Lemma pop_keeps {A} (consume : list Felt -> option (A * list Felt)) n : 0 <= n ->
  (forall l x r, consume l = Some (x, r) -> 8 * Z.of_nat (length l) = n + 8 * Z.of_nat (length r)) ->
  keeps adv_wf (let! l := gets ap_stack in
                let! (value, l) := ok_or (consume l) StackReadFailed in
                do! set_stack l; do! sub_size n; ret value).
Proof.
  intros Hn Hc a Hwf. pose proof (pop_run consume n a Hwf Hn Hc) as Hp. cbn zeta in Hp.
  destruct (consume (ap_stack a)) as [[x r]|] eqn:Hx.
  - destruct Hp as [Hp _]. rewrite Hp. split; [done|].
    apply shrink_wf; [done..|by eapply Hc].
  - by rewrite Hp.
Qed.

(** *** Invariance *)

Lemma grows_keeps {A} (m : AP A) a n x a' : grows m a n x a' ->
  adv_wf a -> (fits a n -> adv_wf a') ->
  match m a with (r, b) => r <> Panic /\ adv_wf b end.
Proof.
  unfold grows. intros Hg Hwf Hw. destruct (decide _).
  - rewrite Hg. split; [done|auto].
  - destruct Hg as [e ->]. by split.
Qed.

Lemma keeps_discard {E S A} (I : S -> Prop) (m : M E S A) : keeps I m -> keeps I (do! m; ret tt).
Proof. intros Hm. apply keeps_bind; [done|]. intros. apply keeps_ret. Qed.

Lemma extend_advice_stack_keeps stack : keeps adv_wf (extend_advice_stack stack).
Proof.
  intros a Hwf. eapply grows_keeps; [by apply extend_advice_stack_grows|done|].
  intros Hf. apply grown_wf; [done..|]. unfold contents_bytes. rewrite length_app. lia.
Qed.

Lemma extend_map_keeps other : keeps adv_wf (extend_map other).
Proof.
  intros a Hwf. destruct (find_conflicting_entry (ap_map a) (map_iter other)) eqn:Hc.
  - destruct (extend_map_conflict other a) as [e ->]; [done|by rewrite Hc|]. by split.
  - eapply grows_keeps; [by apply extend_map_grows|done|]. intros Hf.
    apply grown_wf; [done..|]. unfold contents_bytes.
    rewrite merge_new_bytes by apply map_iter_nodup. lia.
Qed.

Section Invariant.
Context `{Poseidon2}.

Lemma extend_merkle_store_keeps nodes : keeps adv_wf (extend_merkle_store nodes).
Proof.
  intros a Hwf. eapply grows_keeps; [by apply extend_merkle_store_grows|done|].
  intros Hf. apply grown_wf; [done..|]. unfold contents_bytes. rewrite store_extend_size. lia.
Qed.

Lemma push_from_map_keeps key include_len pad_to : 0 <= pad_to <= 255 ->
  keeps adv_wf (push_from_map key include_len pad_to).
Proof.
  intros Hp a Hwf. destruct (ap_map a !! key) as [values|] eqn:Hk.
  - eapply grows_keeps; [by apply push_from_map_grows|done|]. intros Hf.
    apply grown_wf; [done..|]. unfold contents_bytes. rewrite length_app. lia.
  - unfold push_from_map. rewrite bind_gets. unfold id at 1 2. cbn [id]. rewrite Hk.
    by split.
Qed.

Lemma insert_into_map_keeps key values : keeps adv_wf (insert_into_map key values).
Proof.
  intros a Hwf. destruct (ap_map a !! key) as [v|] eqn:Hk.
  - unfold insert_into_map. rewrite bind_gets, Hk. by destruct (decide _).
  - eapply grows_keeps; [by apply insert_into_map_grows|done|]. intros Hf.
    apply grown_wf; [done..|]. unfold contents_bytes. rewrite map_bytes_insert by done. lia.
Qed.

Lemma update_merkle_node_keeps root depth index value :
  keeps adv_wf (update_merkle_node root depth index value).
Proof.
  intros a Hwf. destruct (update_merkle_node_cases root depth index value a Hwf)
    as [[e ->]|(i & proof & _ & _ & [[_ ->]|(_ & Hf & ->)])]; [by split..|].
  split; [done|]. apply grown_wf; [done..|]. unfold contents_bytes. rewrite store_extend_size. lia.
Qed.

Lemma adv_merge_roots_keeps lhs rhs : keeps adv_wf (adv_merge_roots lhs rhs).
Proof.
  intros a Hwf. eapply grows_keeps; [by apply adv_merge_roots_grows|done|].
  intros Hf. apply grown_wf; [done..|]. unfold contents_bytes.
  pose proof (store_extend_size (ap_store a) [mkInnerNodeInfo (merge lhs rhs) lhs rhs]
    : Z.of_nat (size (snd (merge_roots (ap_store a) lhs rhs))) =
      Z.of_nat (size (ap_store a)) + new_internal_node_count (ap_store a) [merge lhs rhs]).
  lia.
Qed.

Lemma apply_mutation_keeps m : keeps adv_wf (apply_mutation m).
Proof.
  destruct m; [apply extend_advice_stack_keeps|apply extend_map_keeps|apply extend_merkle_store_keeps].
Qed.

Lemma apply_all_keeps ms : keeps adv_wf (apply_all ms).
Proof.
  induction ms; [apply keeps_ret|]. apply keeps_bind; [apply apply_mutation_keeps|done].
Qed.

End Invariant.
