(* ===== verification/AdviceAtomic.v ===== *)
(** * Mutations of the advice provider are atomic, and its budget is exact

    [apply_mutations] validates a batch before it applies it; the validation
    accepts only batches whose application succeeds throughout.  With the
    per-operation specifications of AdviceTheory this gives the invariant of
    the provider over all of its mutators. *)

From S2P Require Import Prelude Felt AdviceMap Quad AceCircuit Machine Memory Merkle MerkleTheory.
From S2P Require Import Advice AdviceTheory.

Section Atomic.
Context `{Poseidon2}.

(** ** Validation only reads *)

Definition only_reads {A} (m : AP A) (a : AdviceProvider) : Prop := snd (m a) = a /\ fst (m a) <> Panic.

Lemma only_reads_ok_or {A} (o : option A) e a : only_reads (ok_or o e) a.
Proof. by destruct o. Qed.

Lemma only_reads_ret {A} (x : A) a : only_reads (ret x) a.
Proof. done. Qed.

Lemma only_reads_bind {A B} (m : AP A) (k : A -> AP B) a :
  only_reads m a -> (forall x, only_reads (k x) a) -> only_reads (bind m k) a.
Proof.
  intros [Hs Hp] Hk. unfold only_reads, bind. destruct (m a) as [[x|e|] a']; simpl in *; subst;
    [apply Hk|done|done].
Qed.

Lemma only_reads_gets {A B} (f : AdviceProvider -> A) (k : A -> AP B) a :
  only_reads (k (f a)) a -> only_reads (bind (gets f) k) a.
Proof. done. Qed.

Lemma only_reads_map_entry n a : only_reads (map_entry_bytes n) a.
Proof. apply only_reads_bind; intros; apply only_reads_ok_or. Qed.

Lemma only_reads_validate_entries p entries a : only_reads (validate_entries p entries) a.
Proof.
  revert p. induction entries as [|[k v] entries IH]; intros p; cbn [validate_entries]; [done|].
  apply only_reads_gets. destruct (match _ with Some v => _ | None => _ end).
  - destruct (decide _); [apply IH|done].
  - apply only_reads_bind; [apply only_reads_map_entry|]. intros n. apply only_reads_bind; [apply only_reads_ok_or|auto].
Qed.

Lemma only_reads_validate_nodes p nodes a : only_reads (validate_nodes p nodes) a.
Proof.
  revert p. induction nodes as [|n nodes IH]; intros p; cbn [validate_nodes]; [done|].
  apply only_reads_gets. destruct (negb _); [|apply IH]. destruct (bool_decide _); [|apply IH].
  apply only_reads_bind; [apply only_reads_ok_or|auto].
Qed.

Lemma only_reads_validate_mutation p m a : only_reads (validate_mutation p m) a.
Proof.
  destruct m; [|apply only_reads_validate_entries|apply only_reads_validate_nodes].
  apply only_reads_gets. apply only_reads_bind; [apply only_reads_ok_or|]. intros n.
  apply only_reads_bind; [apply only_reads_ok_or|]. intros. apply only_reads_ret.
Qed.

Lemma only_reads_validate_all p ms a : only_reads (validate_all p ms) a.
Proof.
  revert p. induction ms as [|m ms IH]; intros p; [done|].
  apply only_reads_bind; [apply only_reads_validate_mutation|auto].
Qed.

Lemma only_reads_check n a : only_reads (check_advice_size_addition n) a.
Proof.
  apply only_reads_gets. unfold id. destruct (checked_add _ _); [|done]. by destruct (_ <? _).
Qed.

Lemma only_reads_validate_mutations ms a : only_reads (validate_mutations ms) a.
Proof. apply only_reads_bind; [apply only_reads_validate_all|]. intros. apply only_reads_check. Qed.

Lemma only_reads_Ok {A} (m : AP A) a x a' : only_reads m a -> m a = (Ok x, a') -> a' = a.
Proof. intros [Hs _] Hm. rewrite Hm in Hs. done. Qed.

(** ** What the validation has computed

    [pending a p b]: [b] is [a] with the mutations recorded in [p] applied. *)

Record pending (a : AdviceProvider) (p : Pending) (b : AdviceProvider) : Prop := {
  pd_wf : adv_wf b;
  pd_max : max_advice_size_bytes b = max_advice_size_bytes a;
  pd_size : advice_size_bytes b = advice_size_bytes a + added_bytes p;
  pd_map : forall k, ap_map b !! k =
    match ap_map a !! k with Some v => Some v | None => new_map_entries p !! k end;
  pd_nodes : dom (ap_store b) = dom (ap_store a) ∪ new_merkle_nodes p;
  pd_disj : new_merkle_nodes p ## dom (ap_store a)
}.

Lemma pending_start a : adv_wf a -> pending a (mkPending 0 ∅ ∅) a.
Proof.
  intros Hwf. split; cbn; [done|done|lia| |set_solver|set_solver].
  intros k. rewrite lookup_empty. by destruct (ap_map a !! k).
Qed.

(** Validating entries: no conflict with the virtual map, and its new bytes. *)
Lemma validate_entries_spec a p entries p' a' m :
  NoDup entries.*1 ->
  (forall k, m !! k = match ap_map a !! k with Some v => Some v | None => new_map_entries p !! k end) ->
  validate_entries p entries a = (Ok p', a') ->
  find_conflicting_entry m entries = None /\
  added_bytes p' = added_bytes p + fresh_bytes m entries /\
  new_merkle_nodes p' = new_merkle_nodes p /\
  (forall k, merge_new m entries !! k =
     match ap_map a !! k with Some v => Some v | None => new_map_entries p' !! k end).
Proof.
  revert p m. induction entries as [|[k v] entries IH]; intros p m Hnd Hm.
  { intros [= <- <-]. cbn. split_and!; [done|lia|done|done]. }
  apply NoDup_cons in Hnd as [Hk Hnd].
  cbn [validate_entries find_conflicting_entry fresh_bytes]. rewrite bind_gets. cbn [id].
  rewrite <- Hm. destruct (m !! k) as [v'|] eqn:Hmk.
  { destruct (decide (v' = v)); [|done]. intros Hv. cbn [merge_new foldl fst]. rewrite Hmk.
    destruct (IH _ _ Hnd Hm Hv) as (? & ? & ? & ?). split_and!; [done|lia|done|done]. }
  destruct (decide (entry_bytes v <= USIZE_MAX)).
  2:{ destruct (map_entry_bytes_err v a ltac:(lia)) as [e He].
      rewrite (bind_Err _ _ _ _ _ He). done. }
  rewrite (bind_Ok _ _ _ _ _ (map_entry_bytes_ok v a ltac:(lia))).
  unfold add_pending, checked_add. destruct (_ <=? _); [|done].
  rewrite (bind_Ok _ _ a (added_bytes p + entry_bytes v) a) by done. intros Hv.
  assert (Hm' : forall k', (<[k := v]> m : AdviceMap) !! k' =
    match ap_map a !! k' with Some v => Some v | None => <[k := v]> (new_map_entries p) !! k' end).
  { intros k'. specialize (Hm k').
    destruct (decide (k = k')) as [<-|]; [|by rewrite !lookup_insert_ne].
    rewrite !lookup_insert_eq. rewrite Hmk in Hm. by destruct (ap_map a !! k). }
  destruct (IH (mkPending (added_bytes p + entry_bytes v) (<[k := v]> (new_map_entries p))
    (new_merkle_nodes p)) _ Hnd Hm' Hv) as (Hc & Hb & Hn & Hl).
  cbn [merge_new foldl fst snd]. rewrite Hmk. cbn [added_bytes new_merkle_nodes] in *.
  rewrite fresh_bytes_insert in Hb by done. split_and!; [|lia|done|done].
  clear -Hc Hk. induction entries as [|[k' v'] entries IH]; [done|]. cbn in *.
  rewrite lookup_insert_ne in Hc by set_solver.
  destruct (m !! k'); [destruct (decide _); [|done]|]; apply IH; set_solver.
Qed.

Lemma validate_nodes_spec a p nodes p' a' :
  validate_nodes p nodes a = (Ok p', a') ->
  let fresh := (list_to_set (in_value <$> nodes) : gset Word) ∖ (dom (ap_store a) ∪ new_merkle_nodes p) in
  added_bytes p' = added_bytes p + Z.of_nat (size fresh) * 96 /\
  new_map_entries p' = new_map_entries p /\
  new_merkle_nodes p' = new_merkle_nodes p ∪ fresh.
Proof.
  revert p. induction nodes as [|n nodes IH]; intros p.
  { intros [= <- <-]. cbn zeta. cbn [fmap list_fmap list_to_set].
    assert (∅ ∖ (dom (ap_store a) ∪ new_merkle_nodes p) = (∅ : gset Word)) as -> by set_solver.
    rewrite size_empty. split_and!; [lia|done|set_solver]. }
  cbn [validate_nodes]. rewrite bind_gets. cbn [id]. rewrite contains_internal_node_spec.
  cbn [fmap list_fmap list_to_set]. set (X := list_to_set (in_value <$> nodes)) in *.
  assert (Hold : in_value n ∈ dom (ap_store a) ∪ new_merkle_nodes p ->
    ({[in_value n]} ∪ X) ∖ (dom (ap_store a) ∪ new_merkle_nodes p) =
    X ∖ (dom (ap_store a) ∪ new_merkle_nodes p)) by (unfold X; set_solver).
  destruct (bool_decide_reflect (in_value n ∈ dom (ap_store a))) as [Hin|Hout]; cbn [negb].
  { intros Hv. rewrite Hold by set_solver. by apply IH. }
  destruct (bool_decide_reflect (in_value n ∉ new_merkle_nodes p)) as [Hnew|Hseen].
  2:{ intros Hv. rewrite Hold by (apply elem_of_union_r; by destruct (decide (in_value n ∈ new_merkle_nodes p))).
      by apply IH. }
  unfold add_pending, checked_add. destruct (_ <=? _); [|done].
  rewrite (bind_Ok _ _ a (added_bytes p + INTERNAL_NODE_SIZE_BYTES) a) by done.
  intros Hv. destruct (IH _ Hv) as (Hb & Hm & Hs). cbn [added_bytes new_map_entries new_merkle_nodes] in *.
  assert (Heq : ({[in_value n]} ∪ X) ∖ (dom (ap_store a) ∪ new_merkle_nodes p) =
    {[in_value n]} ∪ X ∖ (dom (ap_store a) ∪ ({[in_value n]} ∪ new_merkle_nodes p))).
  { apply leibniz_equiv. intros x. destruct (decide (x = in_value n)) as [->|]; set_solver. }
  cbn zeta. rewrite Heq.
  pose proof (size_union ({[in_value n]} : gset Word)
    (X ∖ (dom (ap_store a) ∪ ({[in_value n]} ∪ new_merkle_nodes p)))) as Hsz.
  rewrite Hsz, size_singleton by set_solver. unfold INTERNAL_NODE_SIZE_BYTES, WORD_SERIALIZED_SIZE in Hb.
  split_and!; [lia|done|]. rewrite Hs. set_solver.
Qed.

Lemma grows_ok {A} (m : AP A) a n x a' : grows m a n x a' -> fits a n -> m a = (Ok x, a').
Proof. unfold grows. intros Hg Hf. by rewrite decide_True in Hg. Qed.

Lemma fresh_count s (X : gset Word) roots : dom s = X ->
  new_internal_node_count s roots = Z.of_nat (size ((list_to_set roots : gset Word) ∖ X)).
Proof.
  intros <-. unfold new_internal_node_count. rewrite count_new_spec, union_empty_l_L. lia.
Qed.

Lemma keeps_Ok {A} (m : AP A) a x b : keeps adv_wf m -> adv_wf a -> m a = (Ok x, b) -> adv_wf b.
Proof. intros Hm Hwf Hr. specialize (Hm a Hwf). rewrite Hr in Hm. apply Hm. Qed.

(** One mutation: what validation accepted, application does. *)
Lemma apply_mutation_pending a p m p' a' b :
  pending a p b -> validate_mutation p m a = (Ok p', a') ->
  fits a (added_bytes p') ->
  exists b', apply_mutation m b = (Ok tt, b') /\ pending a p' b'.
Proof.
  intros Hp Hv Hf. pose proof (pd_wf _ _ _ Hp) as Hwf.
  enough (exists n b', grows (apply_mutation m) b n tt b' /\ added_bytes p' = added_bytes p + n /\
    (adv_wf b' -> pending a p' b')) as (n & b' & Hg & Hn & Hp').
  { assert (Hok : apply_mutation m b = (Ok tt, b')).
    { apply (grows_ok _ _ _ _ _ Hg). unfold fits in *. rewrite (pd_size _ _ _ Hp), (pd_max _ _ _ Hp). lia. }
    exists b'. split; [done|]. apply Hp'. eapply keeps_Ok; [apply apply_mutation_keeps|done|done]. }
  destruct m as [stack|map|nodes]; cbn [validate_mutation apply_mutation] in *.
  - rewrite bind_gets in Hv. unfold felt_bytes, checked_mul in Hv.
    destruct (_ <=? _) in Hv; [|done]. unfold add_pending, checked_add in Hv.
    rewrite (bind_Ok _ _ a (Z.of_nat (length stack) * 8) a) in Hv by done.
    destruct (_ <=? _) in Hv; [|done]. injection Hv as <- <-.
    eexists _, _. split; [by apply extend_advice_stack_grows|]. split; [done|].
    intros Hb. destruct Hp. split; cbn in *; [done|done|lia|done|done|done].
  - destruct (validate_entries_spec a p (map_iter map) p' a' (ap_map b)) as (Hc & Hb & Hn & Hl);
      [apply map_iter_nodup|apply (pd_map _ _ _ Hp)|done|].
    eexists _, _. split; [by apply extend_map_grows|]. split; [done|].
    intros Hw. destruct Hp. split; cbn in *; [done|done|lia|done|by rewrite Hn|by rewrite Hn].
  - destruct (validate_nodes_spec _ _ _ _ _ Hv) as (Hb & Hm & Hs). cbn zeta in *.
    eexists _, _. split; [by apply extend_merkle_store_grows|].
    rewrite (fresh_count _ _ _ (pd_nodes _ _ _ Hp)). split; [done|].
    intros Hw. destruct Hp. split; cbn in *; [done|done|lia| | |].
    + intros k. by rewrite Hm.
    + rewrite store_extend_dom, Hs, pd_nodes0. apply leibniz_equiv. intros x.
      destruct (decide (x ∈ dom (ap_store a) ∪ new_merkle_nodes p)); set_solver.
    + rewrite Hs. set_solver.
Qed.

Lemma validate_mutation_mono a p m p' a' :
  validate_mutation p m a = (Ok p', a') -> added_bytes p <= added_bytes p'.
Proof.
  intros Hv. destruct m as [stack|map|nodes]; cbn [validate_mutation] in Hv.
  - rewrite bind_gets in Hv. unfold felt_bytes, checked_mul in Hv.
    destruct (_ <=? _) in Hv; [|done]. unfold add_pending, checked_add in Hv.
    rewrite (bind_Ok _ _ a (Z.of_nat (length stack) * 8) a) in Hv by done.
    destruct (_ <=? _) in Hv; [|done]. injection Hv as <- <-. cbn. lia.
  - destruct (validate_entries_spec a p (map_iter map) p' a' (ap_map a ∪ new_map_entries p))
      as (_ & Hb & _); [apply map_iter_nodup| |done|].
    { intros k. rewrite lookup_union. by destruct (ap_map a !! k), (new_map_entries p !! k). }
    pose proof (fresh_bytes_pos (ap_map a ∪ new_map_entries p) (map_iter map)). lia.
  - destruct (validate_nodes_spec _ _ _ _ _ Hv) as (Hb & _). lia.
Qed.

(** The first step of a validation that succeeds. *)
Lemma validate_all_cons p m ms a p' a' : validate_all p (m :: ms) a = (Ok p', a') ->
  exists p1, validate_mutation p m a = (Ok p1, a) /\ validate_all p1 ms a = (Ok p', a').
Proof.
  cbn [validate_all]. intros Hv. pose proof (only_reads_validate_mutation p m a) as Hr.
  destruct (validate_mutation p m a) as [[p1|e|] a1] eqn:Hv1.
  - rewrite (bind_Ok _ _ _ _ _ Hv1) in Hv. pose proof (only_reads_Ok _ _ _ _ Hr Hv1) as ->. by exists p1.
  - by rewrite (bind_Err _ _ _ _ _ Hv1) in Hv.
  - destruct Hr as [_ Hr]. by rewrite Hv1 in Hr.
Qed.

Lemma validate_all_mono a p ms p' a' :
  validate_all p ms a = (Ok p', a') -> added_bytes p <= added_bytes p'.
Proof.
  revert p. induction ms as [|m ms IH]; intros p; [by intros [= <- <-]|].
  intros (p1 & Hv1 & Hv)%validate_all_cons. apply validate_mutation_mono in Hv1.
  apply IH in Hv. lia.
Qed.

Lemma apply_all_pending a p ms p' a' b :
  pending a p b -> validate_all p ms a = (Ok p', a') -> fits a (added_bytes p') ->
  exists b', apply_all ms b = (Ok tt, b') /\ pending a p' b'.
Proof.
  revert p b. induction ms as [|m ms IH]; intros p b Hp Hv Hf.
  { injection Hv as <- <-. by exists b. }
  apply validate_all_cons in Hv as (p1 & Hv1 & Hv).
  pose proof (validate_all_mono _ _ _ _ _ Hv).
  destruct (apply_mutation_pending _ _ _ _ _ _ Hp Hv1) as (b1 & Ha & Hp1);
    [unfold fits in *; lia|].
  destruct (IH _ _ Hp1 Hv Hf) as (b' & Hb & Hp').
  exists b'. cbn [apply_all]. by rewrite (bind_Ok _ _ _ _ _ Ha).
Qed.

(** C27: a batch of mutations is applied entirely or not at all: from a provider
    satisfying its invariant, [apply_mutations] either fails and leaves the
    provider exactly as it was, or applies every mutation of the batch and
    ends in a provider whose invariant and size limit still hold. *)
Theorem apply_mutations_atomic ms a : adv_wf a ->
  (exists e, apply_mutations ms a = (Err e, a)) \/
  (exists a', apply_mutations ms a = (Ok tt, a') /\ apply_all ms a = (Ok tt, a') /\ adv_wf a' /\
     max_advice_size_bytes a' = max_advice_size_bytes a).
Proof.
  intros Hwf. unfold apply_mutations, validate_mutations.
  destruct (only_reads_validate_all (mkPending 0 ∅ ∅) ms a) as [Hs Hnp].
  destruct (validate_all _ ms a) as [[p|e|] a1] eqn:Hv; cbn in Hs, Hnp; subst a1; [|left|done].
  2:{ exists e. unfold bind. by rewrite Hv. }
  pose proof (check_size_grows a (added_bytes p) Hwf) as Hc. unfold grows in Hc.
  destruct (decide (fits a (added_bytes p))) as [Hf|Hf].
  - right. destruct (apply_all_pending _ _ _ _ _ _ (pending_start a Hwf) Hv Hf) as (a' & Ha & Hp).
    exists a'. split_and!; [|done|apply Hp|apply Hp]. unfold bind at 1 2. by rewrite Hv, Hc.
  - left. destruct Hc as [e Hc]. exists e. unfold bind at 1 2. by rewrite Hv, Hc.
Qed.

(** ** The invariant over all mutators *)

Inductive AdviceOp :=
| OpPopStack
| OpPopStackWord
| OpPopStackDword
| OpPushStack (value : Felt)
| OpPushStackWord (word : Word)
| OpPushFromMap (key : Word) (include_len : bool) (pad_to : Z)
| OpExtendStack (stack : list Felt)
| OpInsertIntoMap (key : Word) (values : list Felt)
| OpExtendMap (other : AdviceMap)
| OpUpdateMerkleNode (root : Word) (depth index : Felt) (value : Word)
| OpMergeRoots (lhs rhs : Word)
| OpExtendMerkleStore (nodes : list InnerNodeInfo)
| OpApplyMutations (ms : list AdviceMutation)
| OpSetOptions (max : Z).

Definition run_op (op : AdviceOp) : AP unit :=
  match op with
  | OpPopStack => do! pop_stack; ret tt
  | OpPopStackWord => do! pop_stack_word; ret tt
  | OpPopStackDword => do! pop_stack_dword; ret tt
  | OpPushStack v => push_stack v
  | OpPushStackWord w => push_stack_word w
  | OpPushFromMap k l p => push_from_map k l p
  | OpExtendStack l => extend_advice_stack l
  | OpInsertIntoMap k v => insert_into_map k v
  | OpExtendMap m => extend_map m
  | OpUpdateMerkleNode r d i v => do! update_merkle_node r d i v; ret tt
  | OpMergeRoots l r => do! adv_merge_roots l r; ret tt
  | OpExtendMerkleStore ns => extend_merkle_store ns
  | OpApplyMutations ms => apply_mutations ms
  | OpSetOptions max => set_options max
  end.

(** The arguments are values of their machine types ([u8], [usize]). *)
Definition op_typed (op : AdviceOp) : Prop :=
  match op with
  | OpPushFromMap _ _ pad_to => 0 <= pad_to <= 255
  | OpSetOptions max => 0 <= max <= USIZE_MAX
  | _ => True
  end.

Lemma count_elements_spec entries total m : 0 <= total ->
  (forall k v, (k, v) ∈ entries -> m !! k = None) ->
  8 * total + fresh_bytes m entries <= USIZE_MAX ->
  exists n, count_elements entries total = Some n /\ 8 * n = 8 * total + fresh_bytes m entries.
Proof.
  revert total. induction entries as [|[k v] entries IH]; intros total Ht Hm Hu.
  { exists total. cbn. split; [done|lia]. }
  cbn [fresh_bytes count_elements] in *. rewrite (Hm k v) in * by set_solver.
  pose proof (fresh_bytes_pos m entries). unfold entry_bytes in *.
  rewrite checked_add_Some by lia. cbn [mbind option_bind].
  rewrite checked_add_Some by lia. cbn [mbind option_bind].
  destruct (IH (total + (4 + Z.of_nat (length v)))) as (n & Hn & He); [lia|set_solver|lia|].
  exists n. split; [done|lia].
Qed.

Lemma merge_new_empty m : merge_new ∅ (map_iter m) = m.
Proof.
  apply map_eq. intros k. rewrite merge_new_lookup by apply map_iter_nodup.
  by rewrite lookup_empty, map_iter_list_to_map.
Qed.

Lemma total_element_count_spec m : map_bytes m <= USIZE_MAX ->
  exists n, total_element_count m = Some n /\ 8 * n = map_bytes m.
Proof.
  intros Hu. pose proof (merge_new_bytes ∅ (map_iter m) (map_iter_nodup m)) as Hb.
  rewrite merge_new_empty in Hb. change (map_bytes ∅) with 0 in Hb. rewrite Z.add_0_l in Hb.
  destruct (count_elements_spec (map_iter m) 0 ∅) as (n & Hn & He); [done| |lia|].
  - intros k v _. apply lookup_empty.
  - exists n. split; [done|lia].
Qed.

(** Recomputing the size gives the counter. *)
Lemma compute_size_exact a : adv_wf a -> compute_advice_size_bytes a = (Ok (advice_size_bytes a), a).
Proof.
  intros [Hs Hn Hb Hu]. unfold contents_bytes in Hs. pose proof (map_bytes_pos (ap_map a)).
  destruct (total_element_count_spec (ap_map a)) as (n & Ht & He); [lia|].
  unfold compute_advice_size_bytes. rewrite bind_gets. cbn [id]. unfold felt_bytes.
  rewrite (bind_Ok _ _ _ _ _ (ok_or_mul_ok (Z.of_nat (length (ap_stack a))) 8 overflow_error a ltac:(lia))).
  rewrite Ht. rewrite (bind_Ok _ _ a n a) by done.
  rewrite (bind_Ok _ _ _ _ _ (ok_or_mul_ok n 8 overflow_error a ltac:(lia))).
  assert (Hst : Z.of_nat (size (ap_store a)) * 96 <= USIZE_MAX) by lia.
  unfold merkle_node_bytes. rewrite Hn. rewrite (bind_Ok _ _ _ _ _ (ok_or_mul_ok _ 96 overflow_error a Hst)).
  unfold FELT_SIZE_BYTES, INTERNAL_NODE_SIZE_BYTES, WORD_SERIALIZED_SIZE.
  rewrite checked_add_Some by lia. cbn [mbind option_bind]. rewrite checked_add_Some by lia.
  unfold ok_or, ret. do 2 f_equal. lia.
Qed.

Lemma set_options_keeps max : max <= USIZE_MAX -> keeps adv_wf (set_options max).
Proof.
  intros Hm a Hwf. unfold set_options. rewrite (bind_Ok _ _ _ _ _ (compute_size_exact a Hwf)).
  destruct (Z.ltb_spec max (advice_size_bytes a)); [by split|].
  split; [done|]. destruct Hwf. by split.
Qed.

Lemma apply_mutations_keeps ms : keeps adv_wf (apply_mutations ms).
Proof.
  intros a Hwf. destruct (only_reads_validate_mutations ms a) as [Hs Hnp].
  unfold apply_mutations, bind.
  destruct (validate_mutations ms a) as [[[]|e|] a1]; cbn in Hs, Hnp; subst a1; [|by split|done].
  by apply apply_all_keeps.
Qed.

(** C31: the advice budget is exact: whatever mutator runs, with whatever
    arguments and outcome, it does not panic (in particular the byte counter
    never underflows or overflows) and leaves the counter equal to the size of
    the stack, map and store it describes, and within the configured limit. *)
Theorem advice_budget_exact op : op_typed op -> keeps adv_wf (run_op op).
Proof.
  destruct op; intros Hop; cbn [run_op op_typed] in *.
  - apply keeps_discard, (pop_keeps consume_element); [done|apply consume_element_len].
  - apply keeps_discard, (pop_keeps consume_word); [done|apply consume_word_len].
  - apply keeps_discard. intros a Hwf. rewrite pop_stack_dword_alt.
    by apply (pop_keeps consume_dword); [|apply consume_dword_len|].
  - intros a Hwf. eapply grows_keeps; [by apply push_stack_grows|done|].
    intros Hf. apply grown_wf; [done..|]. unfold contents_bytes. cbn. lia.
  - intros a Hwf. eapply grows_keeps; [by apply push_stack_word_grows|done|].
    intros Hf. apply grown_wf; [done..|]. unfold contents_bytes. cbn. lia.
  - by apply push_from_map_keeps.
  - apply extend_advice_stack_keeps.
  - apply insert_into_map_keeps.
  - apply extend_map_keeps.
  - apply keeps_discard, update_merkle_node_keeps.
  - apply keeps_discard, adv_merge_roots_keeps.
  - apply extend_merkle_store_keeps.
  - apply apply_mutations_keeps.
  - apply set_options_keeps. lia.
Qed.

Lemma provider_empty_wf store max : 0 <= max <= USIZE_MAX ->
  num_internal_nodes store * 96 <= max -> adv_wf (provider_empty store max).
Proof.
  intros Hm Hn. unfold num_internal_nodes in Hn.
  split; unfold provider_empty, contents_bytes, INTERNAL_NODE_SIZE_BYTES, WORD_SERIALIZED_SIZE,
    num_internal_nodes; cbn; [change (map_bytes ∅) with 0; lia|done|lia|lia].
Qed.

(** A provider built from advice inputs satisfies the invariant: [new] never
    panics, and when it succeeds the counter is exact and within the limit. *)
Lemma provider_new_wf default_store max stack map store : 0 <= max <= USIZE_MAX ->
  num_internal_nodes default_store * 96 <= USIZE_MAX ->
  match provider_new default_store max stack map store with
  | Ok a => adv_wf a
  | Err _ => True
  | Panic => False
  end.
Proof.
  intros Hm Hs. unfold provider_new, provider_load.
  destruct (decide (num_internal_nodes default_store * 96 <= max)) as [Hle|Hgt].
  - pose proof (provider_empty_wf default_store max Hm Hle) as Hwf.
    assert (Hk : keeps adv_wf (provider_load stack map store)).
    { apply keeps_bind; [|intros; apply keeps_bind; [apply extend_advice_stack_keeps|intros;
        apply keeps_bind; [apply extend_merkle_store_keeps|intros; apply extend_map_keeps]]].
      intros b Hb. destruct (only_reads_check 0 b) as [Hrs Hrp].
      destruct (check_advice_size_addition 0 b). cbn in *. by subst. }
    specialize (Hk _ Hwf). unfold provider_load in Hk.
    destruct ((do! _; _) _) as [[[]|e|] a]; tauto.
  - assert (exists e, check_advice_size_addition 0 (provider_empty default_store max) =
      (Err e, provider_empty default_store max)) as [e He].
    { unfold check_advice_size_addition. rewrite bind_gets. cbn [id provider_empty
        advice_size_bytes max_advice_size_bytes]. unfold checked_add.
      change INTERNAL_NODE_SIZE_BYTES with 96. rewrite Z.add_0_r.
      rewrite (proj2 (Z.leb_le _ _)), (proj2 (Z.ltb_lt _ _)) by lia. by eexists. }
    by rewrite (bind_Err _ _ _ _ _ He).
Qed.

End Atomic.
