(* ===== verification/FastStack.v ===== *)
(** * The operand stack of the fast processor

    The stack fields of [FastProcessor] (processor/src/fast/mod.rs) and the
    stack part of its [StackInterface] implementation (fast/operation.rs).  The
    live stack is the range [[stack_bot_idx, stack_top_idx)] of a buffer, the
    top element last; the buffer is recentred or regrown when either end is
    reached, and the overflow of a suspended context is moved to a save stack.

    Buffer indices are [nat] with Rust's checks written out ([checked_sub],
    [slice], [copy_at], [update] give [None] where the code panics); the
    capacity arithmetic, which saturates, is in [Z]. *)

From S2P Require Import Prelude Felt Quad AceCircuit Machine.

Definition MIN_STACK_DEPTH : nat := 16.
Definition INITIAL_STACK_BUFFER_SIZE : nat := 6850.
Definition INITIAL_STACK_TOP_IDX : nat := 250.
Definition STACK_BUFFER_BASE_IDX : nat := INITIAL_STACK_TOP_IDX - MIN_STACK_DEPTH.
Definition DEFAULT_MAX_STACK_DEPTH : nat :=
  INITIAL_STACK_BUFFER_SIZE - INITIAL_STACK_TOP_IDX - 1 + MIN_STACK_DEPTH.

Record FastStack := mkFastStack {
  stack : list Felt;
  stack_top_idx : nat;
  stack_bot_idx : nat;
  stack_overflow_save_stack : list (list Felt);
  saved_overflow_len : nat;
  max_stack_depth : Z
}.

(** Functional record update of the buffer and the indices. *)
Definition with_stack (s : FastStack) (b : list Felt) : FastStack :=
  mkFastStack b (stack_top_idx s) (stack_bot_idx s) (stack_overflow_save_stack s)
    (saved_overflow_len s) (max_stack_depth s).
Definition with_buffer (s : FastStack) (b : list Felt) (top bot : nat) : FastStack :=
  mkFastStack b top bot (stack_overflow_save_stack s) (saved_overflow_len s) (max_stack_depth s).

(** A state change that may panic. *)
Definition upd {S : Type} (f : S -> option S) : PM S unit :=
  fun s => match f s with Some s' => (Ok tt, s') | None => (Panic, s) end.

(** ** Construction *)

(** [stack[stack_top_idx - 1 - i] = input] for the [i]-th input. *)
Fixpoint write_inputs (b : list Felt) (i : nat) (inputs : list Felt) : option (list Felt) :=
  match inputs with
  | [] => Some b
  | x :: inputs =>
      j ← checked_sub (INITIAL_STACK_TOP_IDX - 1) i;
      b' ← update j x b;
      write_inputs b' (S i) inputs
  end.

Definition fast_stack_new (inputs : list Felt) (max_depth : Z) : option FastStack :=
  b ← write_inputs (replicate INITIAL_STACK_BUFFER_SIZE ZERO) 0 inputs;
  Some (mkFastStack b INITIAL_STACK_TOP_IDX (INITIAL_STACK_TOP_IDX - MIN_STACK_DEPTH) [] 0
          max_depth).

(** ** Accessors *)

Definition stack_size (s : FastStack) : option nat :=
  checked_sub (stack_top_idx s) (stack_bot_idx s).

(** [stack_top_idx - idx - 1]. *)
Definition idx_from_top (s : FastStack) (idx : nat) : option nat :=
  checked_sub (stack_top_idx s) (idx + 1).

Definition fs_get (idx : nat) : PM FastStack Felt :=
  fun s => match (i ← idx_from_top s idx; stack s !! i) with
           | Some x => (Ok x, s)
           | None => (Panic, s)
           end.

Definition fs_get_word (start_idx : nat) : PM FastStack Word :=
  fun s =>
    match (word_start_idx ← checked_sub (stack_top_idx s) (start_idx + WORD_SIZE);
           result ← slice word_start_idx (word_start_idx + WORD_SIZE) (stack s);
           word_of_list (rev result)) with
    | Some w => (Ok w, s)
    | None => (Panic, s)
    end.

Definition fs_depth : PM FastStack Z :=
  fun s => match stack_size s with
           | Some n => (Ok (wrap32 (Z.of_nat n)), s)
           | None => (Panic, s)
           end.

(** ** Element mutators *)

Definition fs_set (idx : nat) (element : Felt) : PM FastStack unit :=
  upd (fun s => i ← idx_from_top s idx; b ← update i element (stack s); Some (with_stack s b)).

Definition fs_set_word (start_idx : nat) (word : Word) : PM FastStack unit :=
  upd (fun s =>
    word_start_idx ← checked_sub (stack_top_idx s) (start_idx + 4);
    b ← copy_at word_start_idx (rev (into_elements word)) (stack s);
    Some (with_stack s b)).

Definition fs_swap (idx1 idx2 : nat) : PM FastStack unit :=
  let! a := fs_get idx1 in
  let! b := fs_get idx2 in
  do! fs_set idx1 b;
  fs_set idx2 a.

(** [split_at_mut] twice, then [swap_with_slice] on the two words. *)
Definition fs_swapw_nth (n : nat) : PM FastStack unit :=
  upd (fun s =>
    split ← checked_sub (stack_top_idx s) WORD_SIZE;
    nth_start ← checked_sub split (n * WORD_SIZE);
    nth_word ← slice nth_start (nth_start + WORD_SIZE) (take split (stack s));
    top_word ← slice split (split + WORD_SIZE) (stack s);
    b ← copy_at nth_start top_word (stack s);
    b ← copy_at split nth_word b;
    Some (with_stack s b)).

(** [for i in lo..hi { stack[base + i] = stack[base + i + 1] }]. *)
Fixpoint shift_down (k : nat) (j : nat) (b : list Felt) : option (list Felt) :=
  match k with
  | O => Some b
  | S k =>
      x ← b !! (j + 1)%nat;
      b' ← update j x b;
      shift_down k (j + 1) b'
  end.

Definition fs_rotate_left (n : nat) : PM FastStack unit :=
  upd (fun s =>
    rotation_bot_index ← checked_sub (stack_top_idx s) n;
    new_stack_top_element ← stack s !! rotation_bot_index;
    iters ← checked_sub n 1;
    b ← shift_down iters rotation_bot_index (stack s);
    i ← idx_from_top s 0;
    b ← update i new_stack_top_element b;
    Some (with_stack s b)).

(** [for i in 1..n { stack[top - i] = stack[top - i - 1] }], by descending
    position [j = top - i]. *)
Fixpoint shift_up (k : nat) (j : nat) (b : list Felt) : option (list Felt) :=
  match k with
  | O => Some b
  | S k =>
      i ← checked_sub j 1;
      x ← b !! i;
      b' ← update j x b;
      shift_up k i b'
  end.

Definition fs_rotate_right (n : nat) : PM FastStack unit :=
  upd (fun s =>
    rotation_bot_index ← checked_sub (stack_top_idx s) n;
    top1 ← checked_sub (stack_top_idx s) 1;
    new_stack_bot_element ← stack s !! top1;
    b ← shift_up (n - 1) top1 (stack s);
    b ← update rotation_bot_index new_stack_bot_element b;
    Some (with_stack s b)).

(** ** Growth *)

Definition USIZE_SAT (x : Z) : Z := Z.min U64_MAX x.

Definition grow_stack_buffer (requested_min_len : nat) (s : FastStack) : option FastStack :=
  let max_len := USIZE_SAT (USIZE_SAT (Z.of_nat STACK_BUFFER_BASE_IDX + max_stack_depth s) + 1) in
  live_len ← stack_size s;
  let recentered_min_len :=
    USIZE_SAT (USIZE_SAT (Z.of_nat STACK_BUFFER_BASE_IDX + Z.of_nat live_len) + 2) in
  let new_len := Z.min (Z.max (USIZE_SAT (recentered_min_len * 2)) (Z.of_nat requested_min_len))
                       max_len in
  let new_stack := replicate (Z.to_nat new_len) ZERO in
  let new_stack_bot_idx := STACK_BUFFER_BASE_IDX in
  let new_stack_top_idx := (new_stack_bot_idx + live_len)%nat in
  live ← slice (stack_bot_idx s) (stack_top_idx s) (stack s);
  b ← copy_at new_stack_bot_idx live new_stack;
  Some (with_buffer s b new_stack_top_idx new_stack_bot_idx).

(** The push check: [Err (depth, max)] when the aggregate depth is exceeded. *)
Definition ensure_stack_capacity_for_push : PM FastStack unit :=
  fun s =>
    match stack_size s with
    | None => (Panic, s)
    | Some size =>
        let depth := Z.of_nat (size + saved_overflow_len s + 1) in
        let max := max_stack_depth s in
        if max <? depth then (Err (StackDepthLimitExceeded depth max), s)
        else
          match checked_sub (length (stack s)) 1 with
          | None => (Panic, s)
          | Some last =>
              if (last <=? stack_top_idx s)%nat
              then upd (grow_stack_buffer (stack_top_idx s + 2)) s
              else (Ok tt, s)
          end
    end.

Definition ensure_stack_capacity_for_top_idx (top_idx : nat) (s : FastStack) : option FastStack :=
  if (length (stack s) <=? top_idx)%nat then grow_stack_buffer (top_idx + 1) s else Some s.

Definition increment_stack_size (s : FastStack) : FastStack :=
  with_buffer s (stack s) (stack_top_idx s + 1) (stack_bot_idx s).

Definition fs_increment_size : PM FastStack unit :=
  do! ensure_stack_capacity_for_push;
  modify increment_stack_size.

(** ** Shrinking *)

Definition reset_stack_in_buffer (new_stack_top_idx : nat) (s : FastStack) : option FastStack :=
  new_stack_bot_idx ← checked_sub new_stack_top_idx MIN_STACK_DEPTH;
  live ← slice (stack_bot_idx s) (stack_top_idx s) (stack s);
  b ← copy_at new_stack_bot_idx live (stack s);
  b ← fill 0 new_stack_bot_idx ZERO b;
  Some (with_buffer s b new_stack_top_idx new_stack_bot_idx).

Definition decrement_stack_size (s : FastStack) : option FastStack :=
  s ← (if (stack_top_idx s =? MIN_STACK_DEPTH)%nat
       then reset_stack_in_buffer INITIAL_STACK_TOP_IDX s else Some s);
  top ← checked_sub (stack_top_idx s) 1;
  lim ← checked_sub top MIN_STACK_DEPTH;
  Some (with_buffer s (stack s) top (Nat.min (stack_bot_idx s) lim)).

Definition fs_decrement_size : PM FastStack unit := upd decrement_stack_size.

(** ** Contexts *)

Definition start_context (s : FastStack) : option FastStack :=
  size ← stack_size s;
  new_bot ← checked_sub (stack_top_idx s) MIN_STACK_DEPTH;
  '(overflow_stack, b) ←
    (if (MIN_STACK_DEPTH <? size)%nat then
       overflow_stack ← slice (stack_bot_idx s) new_bot (stack s);
       b ← fill (stack_bot_idx s) new_bot ZERO (stack s);
       Some (overflow_stack, b)
     else Some ([], stack s));
  Some (mkFastStack b (stack_top_idx s) new_bot
          (overflow_stack :: stack_overflow_save_stack s)
          (saved_overflow_len s + length overflow_stack) (max_stack_depth s)).

Definition fs_start_context : PM FastStack unit := upd start_context.

(** The part of [restore_context] after the pop of the save stack. *)
Definition restore_overflow (overflow_stack : list Felt) (s : FastStack) : option FastStack :=
  let target_overflow_len := length overflow_stack in
  saved ← checked_sub (saved_overflow_len s) target_overflow_len;
  let s := mkFastStack (stack s) (stack_top_idx s) (stack_bot_idx s)
             (stack_overflow_save_stack s) saved (max_stack_depth s) in
  s ← (if (stack_bot_idx s <? target_overflow_len)%nat then
         let new_stack_top_idx := (INITIAL_STACK_TOP_IDX + target_overflow_len)%nat in
         s ← ensure_stack_capacity_for_top_idx new_stack_top_idx s;
         reset_stack_in_buffer new_stack_top_idx s
       else Some s);
  start ← checked_sub (stack_bot_idx s) target_overflow_len;
  b ← copy_at start overflow_stack (stack s);
  Some (with_buffer s b (stack_top_idx s) start).

Definition fs_restore_context : PM FastStack unit :=
  fun s =>
    match stack_size s with
    | None => (Panic, s)
    | Some size =>
        if (MIN_STACK_DEPTH <? size)%nat
        then (Err (EOperation (InvalidStackDepthOnReturn (Z.of_nat size))), s)
        else
          match stack_overflow_save_stack s with
          | [] => (Err (EOperation (OpInternal
                     "stack overflow save stack should never be empty when restoring context")), s)
          | overflow_stack :: rest =>
              upd (restore_overflow overflow_stack)
                (mkFastStack (stack s) (stack_top_idx s) (stack_bot_idx s) rest
                   (saved_overflow_len s) (max_stack_depth s))
          end
    end.

#[export] Instance fast_stack_interface : StackInterface FastStack := {|
  stack_get := fs_get;
  stack_get_word := fs_get_word;
  stack_depth := fs_depth;
  stack_set := fs_set;
  stack_set_word := fs_set_word;
  stack_swap := fs_swap;
  stack_swapw_nth := fs_swapw_nth;
  stack_rotate_left := fs_rotate_left;
  stack_rotate_right := fs_rotate_right;
  stack_increment_size := fs_increment_size;
  stack_decrement_size := fs_decrement_size;
  stack_start_context := fs_start_context;
  stack_restore_context := fs_restore_context
|}.

(** ** The operand stack as an abstract list

    The contract of [StackInterface] (processor/src/processor.rs): a list of at
    least 16 cells, head on top, over a stack of suspended overflows.  A cell
    announced by [increment_size] and not yet written is [None], as the trait's
    documentation puts it; reading it is undefined ([Panic] here). *)

Notation cell := (option Felt) (only parsing).

Record SpecStack := mkSpecStack {
  sp_cells : list cell;
  sp_saved : list (list cell);
  sp_max : Z
}.

Definition with_cells (s : SpecStack) (l : list cell) : SpecStack :=
  mkSpecStack l (sp_saved s) (sp_max s).

(** The number of elements suspended in callers. *)
Definition saved_len (saved : list (list cell)) : nat := sum_list (length <$> saved).

Definition cell_get (l : list cell) (i : nat) : option Felt := l !! i ≫= id.

Definition sp_get (i : nat) : PM SpecStack Felt :=
  fun s => match cell_get (sp_cells s) i with Some x => (Ok x, s) | None => (Panic, s) end.

Definition sp_get_word (i : nat) : PM SpecStack Word :=
  fun s =>
    match cell_get (sp_cells s) i, cell_get (sp_cells s) (i + 1),
          cell_get (sp_cells s) (i + 2), cell_get (sp_cells s) (i + 3) with
    | Some a, Some b, Some c, Some d => (Ok (mkWord a b c d), s)
    | _, _, _, _ => (Panic, s)
    end.

Definition sp_depth : PM SpecStack Z := gets (fun s => wrap32 (Z.of_nat (length (sp_cells s)))).

Definition sp_set (i : nat) (x : Felt) : PM SpecStack unit :=
  upd (fun s => l ← update i (Some x) (sp_cells s); Some (with_cells s l)).

Definition sp_set_word (i : nat) (w : Word) : PM SpecStack unit :=
  upd (fun s => l ← copy_at i (Some <$> into_elements w) (sp_cells s); Some (with_cells s l)).

Definition list_swap {A} (i j : nat) (l : list A) : option (list A) :=
  x ← l !! i; y ← l !! j; Some (<[j := x]> (<[i := y]> l)).

Definition sp_swap (i j : nat) : PM SpecStack unit :=
  upd (fun s => l ← list_swap i j (sp_cells s); Some (with_cells s l)).

(** Exchange the top word with the [n]-th word. *)
Definition list_swapw {A} (n : nat) (l : list A) : option (list A) :=
  if (1 <=? n)%nat && (4 * n + 4 <=? length l)%nat
  then Some (take 4 (drop (4 * n) l) ++ drop 4 (take (4 * n) l) ++ take 4 l ++ drop (4 * n + 4) l)
  else None.

Definition sp_swapw_nth (n : nat) : PM SpecStack unit :=
  upd (fun s => l ← list_swapw n (sp_cells s); Some (with_cells s l)).

(** Move the [n]-th element (from one) to the top, and back. *)
Definition list_movup {A} (n : nat) (l : list A) : option (list A) :=
  if (1 <=? n)%nat then x ← l !! (n - 1)%nat; Some (x :: take (n - 1) l ++ drop n l) else None.

Definition list_movdn {A} (n : nat) (l : list A) : option (list A) :=
  if (1 <=? n)%nat && (n <=? length l)%nat then
    match l with
    | x :: r => Some (take (n - 1) r ++ x :: drop (n - 1) r)
    | [] => None
    end
  else None.

Definition sp_rotate_left (n : nat) : PM SpecStack unit :=
  upd (fun s => l ← list_movup n (sp_cells s); Some (with_cells s l)).

Definition sp_rotate_right (n : nat) : PM SpecStack unit :=
  upd (fun s => l ← list_movdn n (sp_cells s); Some (with_cells s l)).

Definition sp_increment_size : PM SpecStack unit :=
  fun s =>
    let depth := Z.of_nat (length (sp_cells s) + saved_len (sp_saved s) + 1) in
    if sp_max s <? depth then (Err (StackDepthLimitExceeded depth (sp_max s)), s)
    else (Ok tt, with_cells s (None :: sp_cells s)).

(** Drop the top; a [ZERO] enters at the bottom when only 16 cells are left. *)
Definition list_pop (l : list cell) : list cell :=
  if (length l <=? MIN_STACK_DEPTH)%nat then tail l ++ [Some ZERO] else tail l.

Definition sp_decrement_size : PM SpecStack unit :=
  modify (fun s => with_cells s (list_pop (sp_cells s))).

Definition sp_start_context : PM SpecStack unit :=
  modify (fun s => mkSpecStack (take MIN_STACK_DEPTH (sp_cells s))
                     (drop MIN_STACK_DEPTH (sp_cells s) :: sp_saved s) (sp_max s)).

Definition sp_restore_context : PM SpecStack unit :=
  fun s =>
    if (MIN_STACK_DEPTH <? length (sp_cells s))%nat
    then (Err (EOperation (InvalidStackDepthOnReturn (Z.of_nat (length (sp_cells s))))), s)
    else
      match sp_saved s with
      | [] => (Err (EOperation (OpInternal
                 "stack overflow save stack should never be empty when restoring context")), s)
      | overflow :: rest => (Ok tt, mkSpecStack (sp_cells s ++ overflow) rest (sp_max s))
      end.

#[export] Instance spec_stack_interface : StackInterface SpecStack := {|
  stack_get := sp_get;
  stack_get_word := sp_get_word;
  stack_depth := sp_depth;
  stack_set := sp_set;
  stack_set_word := sp_set_word;
  stack_swap := sp_swap;
  stack_swapw_nth := sp_swapw_nth;
  stack_rotate_left := sp_rotate_left;
  stack_rotate_right := sp_rotate_right;
  stack_increment_size := sp_increment_size;
  stack_decrement_size := sp_decrement_size;
  stack_start_context := sp_start_context;
  stack_restore_context := sp_restore_context
|}.
