(* ===== verification/StackRefine.v ===== *)
(** * The buffer implements the abstract stack

    [stack_rel] relates the buffer of [FastStack] to the list of [SpecStack];
    it contains the representation invariant of the fast processor (indices in
    range, zeros below the live range, the depth budget).  Every operation of
    the buffer simulates the list operation. *)

From S2P Require Import Prelude Felt Quad AceCircuit Machine FastStack.

(** A saved overflow, stored bottom first in the implementation. *)
Definition overflow_rel (f : list Felt) (t : list cell) : Prop :=
  length f = length t /\
  forall i x, t !! i = Some (Some x) -> f !! (length f - 1 - i)%nat = Some x.

Record stack_rel (s : FastStack) (t : SpecStack) : Prop := {
  rel_depth : (stack_bot_idx s + length (sp_cells t) = stack_top_idx s)%nat;
  rel_min : (MIN_STACK_DEPTH <= length (sp_cells t))%nat;
  rel_top : (stack_top_idx s < length (stack s))%nat;
  rel_len : (INITIAL_STACK_TOP_IDX < length (stack s))%nat;
  rel_cells i x : sp_cells t !! i = Some (Some x) ->
    stack s !! (stack_top_idx s - 1 - i)%nat = Some x;
  rel_zero i : (i < stack_bot_idx s)%nat -> stack s !! i = Some ZERO;
  rel_saved : Forall2 overflow_rel (stack_overflow_save_stack s) (sp_saved t);
  rel_saved_len : saved_overflow_len s = saved_len (sp_saved t);
  rel_max : max_stack_depth s = sp_max t;
  rel_budget : Z.of_nat (length (sp_cells t) + saved_len (sp_saved t)) <= sp_max t;
  rel_usize : sp_max t + 235 <= U64_MAX
}.

(** A change of the buffer and of the cells that keeps indices and depth. *)
Lemma rel_with_stack s t b l :
  stack_rel s t ->
  length b = length (stack s) -> length l = length (sp_cells t) ->
  (forall i x, (i < length (sp_cells t))%nat ->
    l !! i = Some (Some x) -> b !! (stack_top_idx s - 1 - i)%nat = Some x) ->
  (forall i, (i < stack_bot_idx s)%nat -> b !! i = stack s !! i) ->
  stack_rel (with_stack s b) (with_cells t l).
Proof.
  intros [] Hb Hl Hc Hz.
  split; cbn [stack stack_top_idx stack_bot_idx stack_overflow_save_stack saved_overflow_len
    max_stack_depth sp_cells sp_saved sp_max with_stack with_cells];
    rewrite ?Hb, ?Hl; auto.
  - intros i x Hx. apply Hc; [|done]. rewrite <- Hl. by eapply lookup_lt_Some.
  - intros i Hi. rewrite Hz by done. auto.
Qed.

Lemma cell_get_Some l i x : cell_get l i = Some x -> l !! i = Some (Some x).
Proof. unfold cell_get. by destruct (l !! i) as [[y|]|]; simpl; intros [= ->]. Qed.

Lemma cells_lt (l : list cell) i x : l !! i = Some x -> (i < length l)%nat.
Proof. apply lookup_lt_Some. Qed.

Lemma idx_from_top_Some s t i :
  stack_rel s t -> (i < length (sp_cells t))%nat ->
  idx_from_top s i = Some (stack_top_idx s - 1 - i)%nat.
Proof.
  intros [] Hi. unfold idx_from_top. rewrite checked_sub_Some by lia. f_equal. lia.
Qed.

(** ** Reads *)

Lemma sim_get i : sim stack_rel (fs_get i) (sp_get i).
Proof.
  intros s t H. unfold sp_get. destruct (cell_get _ i) as [x|] eqn:Hx; [|done].
  apply cell_get_Some in Hx. exists s. split; [|done]. unfold fs_get.
  rewrite (idx_from_top_Some s t) by eauto using cells_lt.
  simpl. by rewrite (rel_cells _ _ H _ _ Hx).
Qed.

Lemma sim_depth : sim stack_rel fs_depth sp_depth.
Proof.
  intros s t H. exists s. split; [|done]. destruct H. unfold fs_depth, stack_size.
  rewrite checked_sub_Some by lia. do 4 f_equal. lia.
Qed.

Lemma list_eq_4 {A} (l : list A) a b c d :
  length l = 4%nat -> l !! 0%nat = Some a -> l !! 1%nat = Some b ->
  l !! 2%nat = Some c -> l !! 3%nat = Some d -> l = [a; b; c; d].
Proof.
  intros Hl ????. do 5 (destruct l as [|? l]; simplify_eq/=; try done).
Qed.

Lemma sim_get_word i : sim stack_rel (fs_get_word i) (sp_get_word i).
Proof.
  intros s t H. unfold sp_get_word.
  destruct (cell_get _ i) as [x0|] eqn:H0; [|done].
  destruct (cell_get _ (i + 1)) as [x1|] eqn:H1; [|done].
  destruct (cell_get _ (i + 2)) as [x2|] eqn:H2; [|done].
  destruct (cell_get _ (i + 3)) as [x3|] eqn:H3; [|done].
  apply cell_get_Some in H0, H1, H2, H3.
  pose proof (cells_lt _ _ _ H3). exists s. split; [|done]. unfold fs_get_word, WORD_SIZE.
  destruct H. rewrite checked_sub_Some by lia. simpl.
  destruct (slice_Some (stack_top_idx s - (i + 4)) (stack_top_idx s - (i + 4) + 4) (stack s))
    as (r & -> & Hlen & Hr); [lia|]. simpl.
  rewrite (list_eq_4 r x3 x2 x1 x0); [done|lia|..]; rewrite Hr, decide_True by lia;
    [erewrite <- (rel_cells0 _ _ H3)|erewrite <- (rel_cells0 _ _ H2)
    |erewrite <- (rel_cells0 _ _ H1)|erewrite <- (rel_cells0 _ _ H0)]; f_equal; lia.
Qed.

(** ** Element writes *)

Lemma sim_set i x : sim stack_rel (fs_set i x) (sp_set i x).
Proof.
  intros s t H. unfold sp_set, upd.
  destruct (decide (i < length (sp_cells t))%nat) as [Hi|Hi].
  2: { unfold update. by rewrite (proj2 (Nat.ltb_ge _ _)) by lia. }
  rewrite update_Some by done. simpl.
  exists (with_stack s (<[(stack_top_idx s - 1 - i)%nat := x]> (stack s))).
  pose proof (rel_depth _ _ H). pose proof (rel_top _ _ H).
  split.
  - unfold fs_set, upd. rewrite (idx_from_top_Some s t) by done. simpl.
    by rewrite update_Some by lia.
  - apply rel_with_stack; rewrite ?length_insert; auto.
    + intros j y Hjl. rewrite !list_lookup_insert.
      repeat destruct (decide _); intros; simplify_eq; try lia; auto.
      by apply (rel_cells _ _ H).
    + intros j Hj. rewrite list_lookup_insert_ne by lia. done.
Qed.

Lemma sim_set_word i w : sim stack_rel (fs_set_word i w) (sp_set_word i w).
Proof.
  intros s t H. unfold sp_set_word, upd.
  destruct (decide (i + 4 <= length (sp_cells t))%nat) as [Hi|Hi].
  2: { unfold copy_at. by rewrite (proj2 (Nat.leb_gt _ _)) by (simpl; lia). }
  pose proof (rel_depth _ _ H). pose proof (rel_top _ _ H).
  destruct (copy_at_Some i (Some <$> into_elements w) (sp_cells t)) as (l & -> & Hl & Hlk);
    [done|].
  destruct (copy_at_Some (stack_top_idx s - (i + 4)) (rev (into_elements w)) (stack s))
    as (b & Hb & Hbl & Hbk); [simpl; lia|]. simpl.
  exists (with_stack s b). split.
  - unfold fs_set_word, upd. rewrite checked_sub_Some by lia.
    cbn [mbind option_bind]. by rewrite Hb.
  - apply rel_with_stack; auto.
    + intros j y Hjl. rewrite Hlk, Hbk, length_fmap, length_rev.
      change (length (into_elements w)) with 4%nat.
      destruct (decide _); destruct (decide _); try lia; [|by apply (rel_cells _ _ H)].
      intros Hy. rewrite list_lookup_fmap in Hy.
      destruct (into_elements w !! (j - i)%nat) as [z|] eqn:Hz; simplify_eq/=.
      rewrite <- Hz. assert (j - i < 4)%nat as Hji by lia.
      replace (stack_top_idx s - 1 - j - (stack_top_idx s - (i + 4)))%nat
        with (3 - (j - i))%nat by lia.
      revert Hji. generalize (j - i)%nat. intros k Hk.
      do 4 (destruct k as [|k]; [done|]). lia.
    + intros j Hj. rewrite Hbk. simpl. rewrite decide_False by lia. done.
Qed.

Lemma sim_swap i j : sim stack_rel (fs_swap i j) (sp_swap i j).
Proof.
  intros s t H. unfold sp_swap, upd, list_swap.
  destruct (sp_cells t !! i) as [c|] eqn:Hi; [|done]. simpl.
  destruct (sp_cells t !! j) as [d|] eqn:Hj; [|done]. simpl.
  pose proof (rel_depth _ _ H). pose proof (rel_top _ _ H).
  pose proof (cells_lt _ _ _ Hi). pose proof (cells_lt _ _ _ Hj).
  destruct (lookup_lt_is_Some_2 (stack s) (stack_top_idx s - 1 - i)%nat) as [x Hx]; [lia|].
  destruct (lookup_lt_is_Some_2 (stack s) (stack_top_idx s - 1 - j)%nat) as [y Hy]; [lia|].
  exists (with_stack s (<[(stack_top_idx s - 1 - j)%nat := x]>
            (<[(stack_top_idx s - 1 - i)%nat := y]> (stack s)))).
  split.
  - unfold fs_swap, bind, fs_get. rewrite !(idx_from_top_Some s t) by done. simpl.
    rewrite Hx. rewrite (idx_from_top_Some s t) by done. simpl. rewrite Hy.
    unfold fs_set, upd. rewrite (idx_from_top_Some s t) by done. simpl.
    rewrite update_Some by lia. simpl. unfold idx_from_top. simpl.
    rewrite checked_sub_Some by lia. simpl.
    replace (stack_top_idx s - (j + 1))%nat with (stack_top_idx s - 1 - j)%nat by lia.
    rewrite update_Some by (rewrite length_insert; lia). done.
  - apply rel_with_stack; rewrite ?length_insert; auto.
    + intros k z Hkl. rewrite !list_lookup_insert, !length_insert.
      repeat destruct (decide _); intros Hz; simplify_eq; try lia;
        try (rewrite <- Hx || rewrite <- Hy);
        try (apply (rel_cells _ _ H); done).
      all: apply (rel_cells _ _ H); congruence.
    + intros k Hk. rewrite !list_lookup_insert_ne by lia. done.
Qed.

(** ** Word swaps and rotations *)

Lemma list_swapw_Some {A} n (l : list A) :
  (1 <= n)%nat -> (4 * n + 4 <= length l)%nat ->
  exists r, list_swapw n l = Some r /\ length r = length l /\
    forall i, r !! i =
      if decide (i < 4)%nat then l !! (4 * n + i)%nat
      else if decide (4 * n <= i < 4 * n + 4)%nat then l !! (i - 4 * n)%nat
      else l !! i.
Proof.
  intros Hn Hl. unfold list_swapw.
  rewrite (proj2 (Nat.leb_le _ _)), (proj2 (Nat.leb_le (4 * n + 4) _)) by lia.
  eexists. split; [done|]. split.
  { rewrite !length_app, !length_take, !length_drop, !length_take. lia. }
  intros i. destruct (decide (i < 4)%nat).
  { by rewrite lookup_app_l, lookup_take_lt, lookup_drop
      by (rewrite ?length_take, ?length_drop; lia). }
  rewrite lookup_app_r by (rewrite length_take; lia).
  rewrite length_take, length_drop, Nat.min_l by lia.
  destruct (decide (i < 4 * n)%nat).
  { rewrite decide_False by lia.
    rewrite lookup_app_l by (rewrite length_drop, length_take; lia).
    rewrite lookup_drop, lookup_take_lt by lia. f_equal. lia. }
  rewrite lookup_app_r by (rewrite length_drop, length_take; lia).
  rewrite length_drop, length_take, Nat.min_l by lia.
  destruct (decide (4 * n <= i < 4 * n + 4)%nat).
  - rewrite lookup_app_l, lookup_take_lt by (rewrite ?length_take; lia). f_equal. lia.
  - rewrite lookup_app_r, length_take, Nat.min_l, lookup_drop by (rewrite ?length_take; lia).
    f_equal. lia.
Qed.

Lemma list_movup_Some {A} n (l : list A) :
  (1 <= n <= length l)%nat ->
  exists r, list_movup n l = Some r /\ length r = length l /\
    forall i, r !! i =
      if decide (i = 0)%nat then l !! (n - 1)%nat
      else if decide (i < n)%nat then l !! (i - 1)%nat else l !! i.
Proof.
  intros Hn. unfold list_movup. rewrite (proj2 (Nat.leb_le _ _)) by lia.
  destruct (lookup_lt_is_Some_2 l (n - 1)) as [x Hx]; [lia|]. rewrite Hx. simpl.
  eexists. split; [done|]. split.
  { simpl. rewrite length_app, length_take, length_drop. lia. }
  intros [|i]; [done|]. rewrite decide_False by done. simpl.
  destruct (decide (S i < n)%nat).
  - rewrite lookup_app_l, lookup_take_lt by (rewrite ?length_take; lia). f_equal. lia.
  - rewrite lookup_app_r, length_take, lookup_drop by (rewrite ?length_take; lia).
    f_equal. lia.
Qed.

Lemma list_movdn_Some {A} n (l : list A) :
  (1 <= n <= length l)%nat ->
  exists r, list_movdn n l = Some r /\ length r = length l /\
    forall i, r !! i =
      if decide (i < n - 1)%nat then l !! (i + 1)%nat
      else if decide (i = n - 1)%nat then l !! 0%nat else l !! i.
Proof.
  intros Hn. unfold list_movdn.
  rewrite (proj2 (Nat.leb_le _ _)), (proj2 (Nat.leb_le n _)) by lia.
  destruct l as [|x l]; [simpl in Hn; lia|]. simpl in *.
  eexists. split; [done|]. split.
  { rewrite length_app. simpl. rewrite length_take, length_drop. lia. }
  intros i. destruct (decide (i < n - 1)%nat).
  { rewrite lookup_app_l, lookup_take_lt by (rewrite ?length_take; lia).
    by rewrite Nat.add_1_r. }
  rewrite lookup_app_r, length_take, Nat.min_l by (rewrite ?length_take; lia).
  destruct (decide (i = n - 1)%nat) as [->|].
  - by rewrite Nat.sub_diag.
  - destruct (i - (n - 1))%nat as [|k] eqn:Hk; [lia|]. simpl. rewrite lookup_drop.
    destruct i as [|i]; [lia|]. simpl. f_equal. lia.
Qed.

Lemma shift_down_Some k j (b : list Felt) : (j + k < length b)%nat ->
  exists b', shift_down k j b = Some b' /\ length b' = length b /\
    forall i, b' !! i = if decide (j <= i < j + k)%nat then b !! (i + 1)%nat else b !! i.
Proof.
  revert j b. induction k as [|k IH]; intros j b Hk; simpl.
  { eexists. split; [done|]. split; [done|]. intros i. by rewrite decide_False by lia. }
  destruct (lookup_lt_is_Some_2 b (j + 1)) as [x Hx]; [lia|]. rewrite Hx. simpl.
  rewrite update_Some by lia. simpl.
  destruct (IH (j + 1)%nat (<[j := x]> b)) as (b' & -> & Hl & Hb'); [rewrite length_insert; lia|].
  eexists. split; [done|]. split; [by rewrite Hl, length_insert|].
  intros i. rewrite Hb'. destruct (decide (i = j)) as [->|].
  - rewrite decide_False by lia. rewrite list_lookup_insert_eq by lia.
    by rewrite decide_True by lia.
  - rewrite (list_lookup_insert_ne _ _ i) by lia.
    destruct (decide _); destruct (decide _); try lia; [|done].
    rewrite list_lookup_insert_ne by lia. done.
Qed.

Lemma shift_up_Some k j (b : list Felt) : (k <= j < length b)%nat ->
  exists b', shift_up k j b = Some b' /\ length b' = length b /\
    forall i, b' !! i = if decide (j - k < i <= j)%nat then b !! (i - 1)%nat else b !! i.
Proof.
  revert j b. induction k as [|k IH]; intros j b Hk; simpl.
  { eexists. split; [done|]. split; [done|]. intros i. by rewrite decide_False by lia. }
  rewrite checked_sub_Some by lia. simpl.
  destruct (lookup_lt_is_Some_2 b (j - 1)) as [x Hx]; [lia|]. rewrite Hx. simpl.
  rewrite update_Some by lia. simpl.
  destruct (IH (j - 1)%nat (<[j := x]> b)) as (b' & -> & Hl & Hb'); [rewrite length_insert; lia|].
  eexists. split; [done|]. split; [by rewrite Hl, length_insert|].
  intros i. rewrite Hb'. destruct (decide (i = j)) as [->|].
  - rewrite decide_False by lia. rewrite list_lookup_insert_eq by lia.
    by rewrite decide_True by lia.
  - rewrite (list_lookup_insert_ne _ _ i) by lia.
    destruct (decide _); destruct (decide _); try lia; [|done].
    rewrite list_lookup_insert_ne by lia. done.
Qed.

Lemma sim_swapw_nth n : sim stack_rel (fs_swapw_nth n) (sp_swapw_nth n).
Proof.
  intros s t H. unfold sp_swapw_nth, upd.
  destruct (decide (1 <= n /\ 4 * n + 4 <= length (sp_cells t))%nat) as [[Hn Hl]|Hn].
  2: { unfold list_swapw. destruct (Nat.leb_spec 1 n); [|done].
       by rewrite (proj2 (Nat.leb_gt _ _)) by lia. }
  destruct (list_swapw_Some n (sp_cells t)) as (l & -> & Hll & Hlk); [done..|]. simpl.
  pose proof (rel_depth _ _ H). pose proof (rel_top _ _ H).
  unfold fs_swapw_nth, upd, WORD_SIZE. rewrite !checked_sub_Some by lia. cbn [mbind option_bind].
  rewrite checked_sub_Some by lia. cbn [mbind option_bind].
  destruct (slice_Some (stack_top_idx s - 4 - n * 4) (stack_top_idx s - 4 - n * 4 + 4)
    (take (stack_top_idx s - 4) (stack s))) as (nw & -> & Hnl & Hnk);
    [rewrite length_take; lia|]. cbn [mbind option_bind].
  destruct (slice_Some (stack_top_idx s - 4) (stack_top_idx s - 4 + 4) (stack s))
    as (tw & -> & Htl & Htk); [lia|]. cbn [mbind option_bind].
  destruct (copy_at_Some (stack_top_idx s - 4 - n * 4) tw (stack s)) as (b1 & -> & Hb1 & Hk1);
    [lia|]. cbn [mbind option_bind].
  destruct (copy_at_Some (stack_top_idx s - 4) nw b1) as (b2 & -> & Hb2 & Hk2);
    [lia|]. cbn [mbind option_bind].
  eexists. split; [done|]. apply rel_with_stack; [done|lia|done| |].
  - intros i x Hi. rewrite Hlk, Hk2, Hk1, Hnl, Htl.
    destruct (decide (i < 4)%nat).
    { rewrite decide_True, Hnk, decide_True, lookup_take_lt by lia. intros Hx.
      rewrite <- (rel_cells _ _ H _ _ Hx). f_equal. lia. }
    rewrite (decide_False (P := (stack_top_idx s - 4 <= _ < _)%nat)) by lia.
    destruct (decide (4 * n <= i < 4 * n + 4)%nat).
    + rewrite decide_True, Htk, decide_True by lia. intros Hx.
      rewrite <- (rel_cells _ _ H _ _ Hx). f_equal. lia.
    + rewrite decide_False by lia. apply (rel_cells _ _ H).
  - intros i Hi. rewrite Hk2, Hk1, Hnl, Htl. by rewrite !decide_False by lia.
Qed.

Lemma sim_rotate_left n : sim stack_rel (fs_rotate_left n) (sp_rotate_left n).
Proof.
  intros s t H. unfold sp_rotate_left, upd.
  destruct (decide (1 <= n <= length (sp_cells t))%nat) as [Hn|Hn].
  2: { unfold list_movup. destruct (Nat.leb_spec 1 n); [|done].
       by rewrite (lookup_ge_None_2 (sp_cells t)) by lia. }
  destruct (list_movup_Some n (sp_cells t)) as (l & -> & Hll & Hlk); [done|]. simpl.
  pose proof (rel_depth _ _ H). pose proof (rel_top _ _ H).
  unfold fs_rotate_left, upd. rewrite !checked_sub_Some by lia. cbn [mbind option_bind].
  destruct (lookup_lt_is_Some_2 (stack s) (stack_top_idx s - n)) as [x Hx]; [lia|].
  rewrite Hx. cbn [mbind option_bind].
  destruct (shift_down_Some (n - 1) (stack_top_idx s - n) (stack s)) as (b & -> & Hbl & Hbk);
    [lia|]. cbn [mbind option_bind].
  rewrite (idx_from_top_Some s t) by (done || lia). cbn [mbind option_bind].
  rewrite update_Some by lia. cbn [mbind option_bind].
  eexists. split; [done|]. apply rel_with_stack; rewrite ?length_insert; auto.
  - intros i y Hi. rewrite Hlk, list_lookup_insert.
    destruct (decide (i = 0)%nat) as [->|].
    { rewrite decide_True by lia. intros Hy. rewrite <- Hx, <- (rel_cells _ _ H _ _ Hy).
      f_equal. lia. }
    rewrite (decide_False (P := _ = _ /\ _)), Hbk by lia. destruct (decide (i < n)%nat).
    + rewrite decide_True by lia. intros Hy. rewrite <- (rel_cells _ _ H _ _ Hy). f_equal. lia.
    + rewrite decide_False by lia. apply (rel_cells _ _ H).
  - intros i Hi. rewrite list_lookup_insert_ne, Hbk by lia. by rewrite decide_False by lia.
Qed.

Lemma sim_rotate_right n : sim stack_rel (fs_rotate_right n) (sp_rotate_right n).
Proof.
  intros s t H. unfold sp_rotate_right, upd.
  destruct (decide (1 <= n <= length (sp_cells t))%nat) as [Hn|Hn].
  2: { unfold list_movdn. destruct (Nat.leb_spec 1 n); [|done].
       by rewrite (proj2 (Nat.leb_gt _ _)) by lia. }
  destruct (list_movdn_Some n (sp_cells t)) as (l & -> & Hll & Hlk); [done|]. simpl.
  pose proof (rel_depth _ _ H). pose proof (rel_top _ _ H).
  unfold fs_rotate_right, upd. rewrite !checked_sub_Some by lia. cbn [mbind option_bind].
  destruct (lookup_lt_is_Some_2 (stack s) (stack_top_idx s - 1)) as [x Hx]; [lia|].
  rewrite Hx. cbn [mbind option_bind].
  destruct (shift_up_Some (n - 1) (stack_top_idx s - 1) (stack s)) as (b & -> & Hbl & Hbk);
    [lia|]. cbn [mbind option_bind].
  rewrite update_Some by lia. cbn [mbind option_bind].
  eexists. split; [done|]. apply rel_with_stack; rewrite ?length_insert; auto.
  - intros i y Hi. rewrite Hlk, list_lookup_insert.
    destruct (decide (i = n - 1)%nat) as [->|].
    { rewrite decide_False, decide_True by lia. intros Hy.
      rewrite <- Hx, <- (rel_cells _ _ H _ _ Hy). f_equal. lia. }
    rewrite (decide_False (P := _ = _ /\ _)), Hbk by lia. destruct (decide (i < n - 1)%nat).
    + rewrite decide_True by lia. intros Hy. rewrite <- (rel_cells _ _ H _ _ Hy). f_equal. lia.
    + rewrite decide_False by lia. apply (rel_cells _ _ H).
  - intros i Hi. rewrite list_lookup_insert_ne, Hbk by lia. by rewrite decide_False by lia.
Qed.

(** ** Moving the live range within the buffer *)

(** The part of the relation that a move of the live range has to re-establish. *)
Lemma rel_with_buffer s t b top bot :
  stack_rel s t ->
  (bot + length (sp_cells t) = top)%nat ->
  (top < length b)%nat -> (INITIAL_STACK_TOP_IDX < length b)%nat ->
  (forall i, (i < length (sp_cells t))%nat -> b !! (bot + i)%nat = stack s !! (stack_bot_idx s + i)%nat) ->
  (forall i, (i < bot)%nat -> b !! i = Some ZERO) ->
  stack_rel (with_buffer s b top bot) t.
Proof.
  intros [] Htop Hb Hlen Hc Hz.
  split; cbn [stack stack_top_idx stack_bot_idx stack_overflow_save_stack saved_overflow_len
    max_stack_depth with_buffer]; auto.
  intros i x Hx. pose proof (lookup_lt_Some _ _ _ Hx).
  rewrite <- (rel_cells0 _ _ Hx).
  replace (top - 1 - i)%nat with (bot + (length (sp_cells t) - 1 - i))%nat by lia.
  rewrite Hc by lia. f_equal. lia.
Qed.

Lemma stack_size_rel s t : stack_rel s t -> stack_size s = Some (length (sp_cells t)).
Proof. intros []. unfold stack_size. rewrite checked_sub_Some by lia. f_equal. lia. Qed.

Lemma live_slice s t : stack_rel s t ->
  exists r, slice (stack_bot_idx s) (stack_top_idx s) (stack s) = Some r /\
    length r = length (sp_cells t) /\
    forall i, (i < length (sp_cells t))%nat -> r !! i = stack s !! (stack_bot_idx s + i)%nat.
Proof.
  intros []. destruct (slice_Some (stack_bot_idx s) (stack_top_idx s) (stack s))
    as (r & -> & Hl & Hr); [lia|].
  eexists. split; [done|]. split; [lia|]. intros i Hi. by rewrite Hr, decide_True by lia.
Qed.

Lemma grow_rel s t req :
  stack_rel s t -> Z.of_nat (length (sp_cells t)) + 1 <= sp_max t ->
  exists s', grow_stack_buffer req s = Some s' /\ stack_rel s' t /\
    (stack_top_idx s' + 1 < length (stack s'))%nat /\
    (Z.of_nat req <= sp_max t + 235 -> (req <= length (stack s'))%nat).
Proof.
  intros H Hroom. unfold grow_stack_buffer. rewrite (stack_size_rel s t H).
  cbn [mbind option_bind].
  destruct (live_slice s t H) as (live & -> & Hll & Hlk). cbn [mbind option_bind].
  rewrite (rel_max _ _ H). pose proof (rel_usize _ _ H). pose proof (rel_min _ _ H).
  set (n := Z.to_nat _).
  assert (Hn : (STACK_BUFFER_BASE_IDX + length (sp_cells t) + 2 <= n)%nat /\
               (Z.of_nat req <= sp_max t + 235 -> (req <= n)%nat)).
  { unfold n, USIZE_SAT, STACK_BUFFER_BASE_IDX, INITIAL_STACK_TOP_IDX, MIN_STACK_DEPTH in *. lia. }
  clearbody n. destruct Hn as [Hn Hreq].
  destruct (copy_at_Some STACK_BUFFER_BASE_IDX live (replicate n ZERO)) as (b & -> & Hbl & Hbk);
    [rewrite length_replicate; lia|]. cbn [mbind option_bind]. rewrite length_replicate in Hbl.
  eexists. split; [done|]. split;
    [|cbn [stack stack_top_idx with_buffer]; rewrite Hbl; split; [lia|done]].
  apply rel_with_buffer; auto; try (unfold STACK_BUFFER_BASE_IDX, MIN_STACK_DEPTH in *; lia).
  - intros i Hi. rewrite Hbk, decide_True by lia. rewrite <- Hlk by done. f_equal. lia.
  - intros i Hi. rewrite Hbk, decide_False by lia. apply lookup_replicate_2. lia.
Qed.

Lemma reset_rel s t new_top :
  stack_rel s t -> length (sp_cells t) = MIN_STACK_DEPTH ->
  (MIN_STACK_DEPTH <= new_top < length (stack s))%nat ->
  exists s', reset_stack_in_buffer new_top s = Some s' /\ stack_rel s' t /\
    stack_top_idx s' = new_top /\ length (stack s') = length (stack s).
Proof.
  intros H H16 Hnt. unfold reset_stack_in_buffer. rewrite checked_sub_Some by lia.
  cbn [mbind option_bind].
  destruct (live_slice s t H) as (live & -> & Hll & Hlk). cbn [mbind option_bind].
  destruct (copy_at_Some (new_top - MIN_STACK_DEPTH) live (stack s)) as (b1 & -> & Hl1 & Hk1);
    [lia|]. cbn [mbind option_bind].
  destruct (fill_Some 0 (new_top - MIN_STACK_DEPTH) ZERO b1) as (b2 & -> & Hl2 & Hk2);
    [lia|]. cbn [mbind option_bind].
  eexists. split; [done|]. split;
    [|cbn [stack stack_top_idx with_buffer]; split; [done|lia]].
  pose proof (rel_len _ _ H).
  apply rel_with_buffer; auto; try lia.
  - intros i Hi. rewrite Hk2, decide_False, Hk1, decide_True by lia.
    rewrite <- Hlk by done. f_equal. lia.
  - intros i Hi. by rewrite Hk2, decide_True by lia.
Qed.

(** ** Growing and shrinking *)

Lemma rel_push s t : stack_rel s t ->
  Z.of_nat (length (sp_cells t) + saved_len (sp_saved t) + 1) <= sp_max t ->
  (stack_top_idx s + 1 < length (stack s))%nat ->
  stack_rel (increment_stack_size s) (with_cells t (None :: sp_cells t)).
Proof.
  intros [] Hb Ht.
  split; cbn [stack stack_top_idx stack_bot_idx stack_overflow_save_stack saved_overflow_len
    max_stack_depth sp_cells sp_saved sp_max with_buffer with_cells increment_stack_size length];
    auto; try lia.
  intros [|i] x; simpl; [done|]. intros Hx. rewrite <- (rel_cells0 _ _ Hx). f_equal. lia.
Qed.

Lemma sim_increment_size : sim stack_rel fs_increment_size sp_increment_size.
Proof.
  intros s t H. unfold sp_increment_size, fs_increment_size, bind, ensure_stack_capacity_for_push.
  rewrite (stack_size_rel s t H), (rel_max _ _ H), (rel_saved_len _ _ H).
  destruct (Z.ltb_spec (sp_max t) (Z.of_nat (length (sp_cells t) + saved_len (sp_saved t) + 1)));
    [by eexists|].
  pose proof (rel_len _ _ H). rewrite checked_sub_Some by lia.
  destruct (Nat.leb_spec (length (stack s) - 1) (stack_top_idx s)).
  - destruct (grow_rel s t (stack_top_idx s + 2) H) as (s' & Hg & H' & Ht & _); [lia|].
    unfold upd. rewrite Hg. eexists. split; [done|]. by apply rel_push.
  - eexists. split; [done|]. apply rel_push; [done|done|lia].
Qed.

Lemma list_pop_lookup l i : (MIN_STACK_DEPTH <= length l)%nat ->
  list_pop l !! i =
    if decide (i + 1 < length l)%nat then l !! (i + 1)%nat
    else if decide (length l = MIN_STACK_DEPTH /\ i + 1 = length l)%nat then Some (Some ZERO)
    else None.
Proof.
  unfold list_pop, MIN_STACK_DEPTH. intros Hl. destruct l as [|c l]; [simpl in Hl; lia|].
  cbn [length tail] in *. destruct (Nat.leb_spec (S (length l)) 16).
  - destruct (decide (i < length l)%nat).
    + rewrite decide_True, lookup_app_l, Nat.add_1_r by lia. done.
    + rewrite decide_False, lookup_app_r by lia. destruct (decide _) as [[? Hi]|Hi].
      * by replace (i - length l)%nat with 0%nat by lia.
      * apply lookup_ge_None_2. cbn [length]. lia.
  - destruct (decide (i + 1 < S (length l))%nat).
    + by rewrite Nat.add_1_r.
    + rewrite decide_False by lia. apply lookup_ge_None_2. lia.
Qed.

Lemma list_pop_length l : (MIN_STACK_DEPTH <= length l)%nat ->
  length (list_pop l) = Nat.max MIN_STACK_DEPTH (length l - 1).
Proof.
  unfold list_pop, MIN_STACK_DEPTH. intros Hl. destruct l as [|c l]; [simpl in *; lia|].
  cbn [length tail] in *. destruct (Nat.leb_spec (S (length l)) 16); rewrite ?length_app; simpl; lia.
Qed.

Lemma rel_pop s t : stack_rel s t -> (MIN_STACK_DEPTH < stack_top_idx s)%nat ->
  stack_rel (with_buffer s (stack s) (stack_top_idx s - 1)
               (Nat.min (stack_bot_idx s) (stack_top_idx s - 1 - MIN_STACK_DEPTH)))
            (with_cells t (list_pop (sp_cells t))).
Proof.
  intros [] Ht. pose proof (list_pop_length (sp_cells t) rel_min0) as Hl.
  split; cbn [stack stack_top_idx stack_bot_idx stack_overflow_save_stack saved_overflow_len
    max_stack_depth sp_cells sp_saved sp_max with_buffer with_cells];
    rewrite ?Hl; auto; try (unfold MIN_STACK_DEPTH in *; lia).
  - intros i x. rewrite list_pop_lookup by done.
    destruct (decide (i + 1 < length (sp_cells t))%nat).
    + intros Hx. rewrite <- (rel_cells0 _ _ Hx). f_equal. lia.
    + destruct (decide _) as [[H16 Hi]|]; [|done]. intros [= <-].
      apply rel_zero0. unfold MIN_STACK_DEPTH in *. lia.
  - intros i Hi. apply rel_zero0. lia.
Qed.

Lemma sim_decrement_size : sim stack_rel fs_decrement_size sp_decrement_size.
Proof.
  intros s t H. unfold sp_decrement_size, modify, fs_decrement_size, upd, decrement_stack_size.
  assert (exists s', (if (stack_top_idx s =? MIN_STACK_DEPTH)%nat
     then reset_stack_in_buffer INITIAL_STACK_TOP_IDX s else Some s) = Some s' /\
     stack_rel s' t /\ (MIN_STACK_DEPTH < stack_top_idx s')%nat) as (s' & -> & H' & Ht).
  { pose proof (rel_depth _ _ H). pose proof (rel_min _ _ H). pose proof (rel_len _ _ H).
    destruct (Nat.eqb_spec (stack_top_idx s) MIN_STACK_DEPTH) as [E|E].
    - destruct (reset_rel s t INITIAL_STACK_TOP_IDX H) as (s' & -> & H' & Ht & _);
        [lia|unfold MIN_STACK_DEPTH, INITIAL_STACK_TOP_IDX in *; lia|].
      eexists. split; [done|]. split; [done|]. rewrite Ht.
      unfold MIN_STACK_DEPTH, INITIAL_STACK_TOP_IDX. lia.
    - eexists. split; [done|]. split; [done|lia]. }
  cbn [mbind option_bind]. rewrite checked_sub_Some by lia. cbn [mbind option_bind].
  rewrite checked_sub_Some by lia. cbn [mbind option_bind].
  eexists. split; [done|]. by apply rel_pop.
Qed.

(** ** Contexts *)

Lemma sim_start_context : sim stack_rel fs_start_context sp_start_context.
Proof.
  intros s t H. unfold sp_start_context, modify, fs_start_context, upd, start_context.
  rewrite (stack_size_rel s t H). cbn [mbind option_bind]. destruct H.
  rewrite checked_sub_Some by lia. cbn [mbind option_bind].
  assert (exists o b,
    (if (MIN_STACK_DEPTH <? length (sp_cells t))%nat then
       overflow_stack ← slice (stack_bot_idx s) (stack_top_idx s - MIN_STACK_DEPTH) (stack s);
       b ← fill (stack_bot_idx s) (stack_top_idx s - MIN_STACK_DEPTH) ZERO (stack s);
       Some (overflow_stack, b)
     else Some ([], stack s)) = Some (o, b) /\
    length b = length (stack s) /\ length o = (length (sp_cells t) - MIN_STACK_DEPTH)%nat /\
    (forall i, (i < length o)%nat -> o !! i = stack s !! (stack_bot_idx s + i)%nat) /\
    (forall i, b !! i = if decide (stack_bot_idx s <= i < stack_top_idx s - MIN_STACK_DEPTH)%nat
                        then Some ZERO else stack s !! i))
    as (o & b & -> & Hbl & Hol & Hok & Hbk).
  { destruct (Nat.ltb_spec MIN_STACK_DEPTH (length (sp_cells t))).
    - destruct (slice_Some (stack_bot_idx s) (stack_top_idx s - MIN_STACK_DEPTH) (stack s))
        as (o & -> & Hol & Hok); [lia|]. cbn [mbind option_bind].
      destruct (fill_Some (stack_bot_idx s) (stack_top_idx s - MIN_STACK_DEPTH) ZERO (stack s))
        as (b & -> & Hbl & Hbk); [lia|]. cbn [mbind option_bind].
      exists o, b. repeat split; auto; [lia|]. intros i Hi. by rewrite Hok, decide_True by lia.
    - exists [], (stack s). repeat split; auto; [simpl; lia|simpl; lia|].
      intros i. by rewrite decide_False by lia. }
  cbn [mbind option_bind]. eexists. split; [done|].
  assert (Hs : saved_len (drop MIN_STACK_DEPTH (sp_cells t) :: sp_saved t) =
               (length (sp_cells t) - MIN_STACK_DEPTH + saved_len (sp_saved t))%nat).
  { unfold saved_len. rewrite fmap_cons. simpl. by rewrite length_drop. }
  split; cbn [stack stack_top_idx stack_bot_idx stack_overflow_save_stack saved_overflow_len
    max_stack_depth sp_cells sp_saved sp_max]; rewrite ?Hs, ?length_take; auto; try lia.
  - intros i x Hx. assert (i < MIN_STACK_DEPTH)%nat.
    { apply lookup_lt_Some in Hx. rewrite length_take in Hx. lia. }
    rewrite lookup_take_lt in Hx by done.
    rewrite Hbk, decide_False by lia. auto.
  - intros i Hi. rewrite Hbk. destruct (decide _); [done|]. apply rel_zero0. lia.
  - constructor; [|done]. split; [by rewrite length_drop|].
    intros i x Hx. rewrite lookup_drop in Hx. pose proof (lookup_lt_Some _ _ _ Hx).
    rewrite Hok by lia. rewrite <- (rel_cells0 _ _ Hx). f_equal. lia.
Qed.

Lemma saved_len_cons o rest : saved_len (o :: rest) = (length o + saved_len rest)%nat.
Proof. reflexivity. Qed.

(** Room for an overflow of [len] elements below the live range. *)
Lemma restore_room s t len :
  stack_rel s t -> length (sp_cells t) = MIN_STACK_DEPTH ->
  Z.of_nat (MIN_STACK_DEPTH + len) <= sp_max t -> (stack_bot_idx s < len)%nat ->
  exists s', (s ← ensure_stack_capacity_for_top_idx (INITIAL_STACK_TOP_IDX + len) s;
              reset_stack_in_buffer (INITIAL_STACK_TOP_IDX + len) s) = Some s' /\
    stack_rel s' t /\ (len <= stack_bot_idx s')%nat.
Proof.
  intros H H16 Hb Hbot.
  assert (exists s1, ensure_stack_capacity_for_top_idx (INITIAL_STACK_TOP_IDX + len) s = Some s1 /\
            stack_rel s1 t /\ (INITIAL_STACK_TOP_IDX + len < length (stack s1))%nat)
    as (s1 & -> & H1 & Hl1).
  { unfold ensure_stack_capacity_for_top_idx.
    destruct (Nat.leb_spec (length (stack s)) (INITIAL_STACK_TOP_IDX + len)).
    - destruct (grow_rel s t (INITIAL_STACK_TOP_IDX + len + 1) H) as (s1 & -> & H1 & _ & Hl);
        [lia|]. eexists. split; [done|]. split; [done|].
      specialize (Hl ltac:(unfold INITIAL_STACK_TOP_IDX, MIN_STACK_DEPTH in *; lia)). lia.
    - by exists s. }
  cbn [mbind option_bind].
  destruct (reset_rel s1 t (INITIAL_STACK_TOP_IDX + len) H1 H16) as (s2 & -> & H2 & Ht & _).
  { unfold INITIAL_STACK_TOP_IDX, MIN_STACK_DEPTH in *. lia. }
  eexists. split; [done|]. split; [done|].
  pose proof (rel_depth _ _ H2). unfold INITIAL_STACK_TOP_IDX, MIN_STACK_DEPTH in *. lia.
Qed.

Lemma rel_restore s t b o f rest :
  stack_rel s (mkSpecStack (sp_cells t) rest (sp_max t)) ->
  length (sp_cells t) = MIN_STACK_DEPTH -> overflow_rel f o ->
  (length o <= stack_bot_idx s)%nat ->
  Z.of_nat (MIN_STACK_DEPTH + length o + saved_len rest) <= sp_max t ->
  length b = length (stack s) ->
  (forall j, b !! j = if decide (stack_bot_idx s - length o <= j < stack_bot_idx s)%nat
                      then f !! (j - (stack_bot_idx s - length o))%nat else stack s !! j) ->
  stack_rel (with_buffer s b (stack_top_idx s) (stack_bot_idx s - length o))
            (mkSpecStack (sp_cells t ++ o) rest (sp_max t)).
Proof.
  intros [] H16 [Hfl Hf] Hbot Hbud Hbl Hbk. cbn [sp_cells sp_saved sp_max] in *.
  split; cbn [stack stack_top_idx stack_bot_idx stack_overflow_save_stack saved_overflow_len
    max_stack_depth sp_cells sp_saved sp_max with_buffer]; rewrite ?length_app, ?Hbl; auto; try lia.
  - intros i x Hx. destruct (decide (i < length (sp_cells t))%nat).
    + rewrite lookup_app_l in Hx by done. rewrite Hbk, decide_False by lia. auto.
    + rewrite lookup_app_r in Hx by lia. pose proof (lookup_lt_Some _ _ _ Hx).
      rewrite Hbk, decide_True by lia. rewrite <- (Hf _ _ Hx). f_equal. lia.
  - intros i Hi. rewrite Hbk, decide_False by lia. apply rel_zero0. lia.
Qed.

(** Popping the save stack and releasing its budget. *)
Lemma rel_release s cells f fs o rest mx :
  stack_rel s (mkSpecStack cells (o :: rest) mx) -> stack_overflow_save_stack s = f :: fs ->
  overflow_rel f o /\
  checked_sub (saved_overflow_len s) (length f) = Some (saved_len rest) /\
  stack_rel (mkFastStack (stack s) (stack_top_idx s) (stack_bot_idx s) fs (saved_len rest)
               (max_stack_depth s)) (mkSpecStack cells rest mx).
Proof.
  intros [] Ef. simpl in *. rewrite Ef in rel_saved0. inversion rel_saved0 as [|???? [Hl Hf]]; subst.
  rewrite saved_len_cons in *. split; [done|]. split.
  - rewrite rel_saved_len0, checked_sub_Some by lia. f_equal. lia.
  - split; simpl; auto. lia.
Qed.

Lemma sim_restore_context : sim stack_rel fs_restore_context sp_restore_context.
Proof.
  intros s [cells saved mx] H. unfold sp_restore_context, fs_restore_context.
  rewrite (stack_size_rel s _ H). cbn [sp_cells sp_saved sp_max].
  destruct (Nat.ltb_spec MIN_STACK_DEPTH (length cells)); [by eexists|].
  pose proof (rel_min _ _ H) as Hmin. cbn [sp_cells] in Hmin.
  assert (H16 : length cells = MIN_STACK_DEPTH) by lia.
  pose proof (rel_saved _ _ H) as Hsv. cbn [sp_saved] in Hsv.
  destruct (stack_overflow_save_stack s) as [|f fs] eqn:Ef; inversion Hsv; subst; [by eexists|].
  destruct (rel_release _ _ _ _ _ _ _ H Ef) as (Hfo & Hsub & H1).
  pose proof (rel_budget _ _ H) as Hbud. cbn [sp_cells sp_saved sp_max] in Hbud.
  rewrite saved_len_cons in Hbud. pose proof (proj1 Hfo) as Hlf.
  unfold upd, restore_overflow. cbn [saved_overflow_len stack_overflow_save_stack max_stack_depth
    stack stack_top_idx stack_bot_idx].
  rewrite Hsub. cbn [mbind option_bind].
  match type of H1 with stack_rel ?x _ => set (s1 := x) in * end.
  change (stack_bot_idx s) with (stack_bot_idx s1).
  assert (exists s2, (if (stack_bot_idx s1 <? length f)%nat then
            s ← ensure_stack_capacity_for_top_idx (INITIAL_STACK_TOP_IDX + length f) s1;
            reset_stack_in_buffer (INITIAL_STACK_TOP_IDX + length f) s
          else Some s1) = Some s2 /\ stack_rel s2 (mkSpecStack cells l' mx) /\
          (length f <= stack_bot_idx s2)%nat) as (s2 & -> & H2 & Hb2).
  { destruct (Nat.ltb_spec (stack_bot_idx s1) (length f)).
    - apply restore_room; cbn [sp_cells sp_max]; auto; lia.
    - by exists s1. }
  cbn [mbind option_bind]. rewrite checked_sub_Some by done. cbn [mbind option_bind].
  pose proof (rel_depth _ _ H2). pose proof (rel_top _ _ H2).
  destruct (copy_at_Some (stack_bot_idx s2 - length f) f (stack s2)) as (b & -> & Hbl & Hbk);
    [lia|]. cbn [mbind option_bind].
  eexists. split; [done|]. rewrite Hlf in *.
  apply (rel_restore s2 (mkSpecStack cells l' mx) b y f); cbn [sp_cells sp_max]; auto; [lia|].
  intros j. rewrite Hbk. destruct (decide _); destruct (decide _); try lia; done.
Qed.
