(* ===== verification/FastProcessor.v ===== *)
(** * The fast processor

    [FastProcessor] (processor/src/fast/mod.rs) with its implementations of the
    processor traits (fast/operation.rs).  The record is polymorphic in the type
    of its stack component, so that the same system, memory, advice and hasher
    code runs over the buffer stack ([FastProcessor]) and over the abstract
    list stack ([SpecProcessor]).

    The deferred-statement state (core/src/deferred) is used through the
    interface the processor needs of it. *)

From S2P Require Import Prelude Felt AdviceMap Quad AceCircuit Machine Memory Merkle Advice.
From S2P Require Import FastStack.

(** What the processor needs of [DeferredState]: its root, and logging a
    statement against the root the hasher computed. *)
Class DeferredInterface (D : Type) := {
  deferred_root : D -> Word;
  log_verified_statement : Word -> Word -> D -> res PrecompileError unit * D
}.

(** Logging reports failures as errors. *)
Class DeferredLaws (D : Type) `{DeferredInterface D} : Prop :=
  log_no_panic (a b : Word) (d : D) : fst (log_verified_statement a b d) <> Panic.

Record SystemCallState := mkSystemCallState { scs_ctx : Z; scs_caller_hash : Word }.

Record Proc (Stk D : Type) := mkProc {
  p_stack : Stk;
  p_clk : Z;
  p_ctx : Z;
  p_caller_hash : Word;
  p_memory : Memory;
  p_advice : AdviceProvider;
  p_call_states : list SystemCallState;
  p_deferred : D
}.
Arguments mkProc {Stk D}.
Arguments p_stack {Stk D}.
Arguments p_clk {Stk D}.
Arguments p_ctx {Stk D}.
Arguments p_caller_hash {Stk D}.
Arguments p_memory {Stk D}.
Arguments p_advice {Stk D}.
Arguments p_call_states {Stk D}.
Arguments p_deferred {Stk D}.

Notation FastProcessor := (Proc FastStack) (only parsing).
Notation SpecProcessor := (Proc SpecStack) (only parsing).

(** Running a method of a component that is a field, with its errors mapped
    into [ExecutionError]. *)
Definition zoom {E T S A} (proj : S -> T) (put : T -> S -> S) (inj : E -> ExecutionError)
    (m : M E T A) : PM S A :=
  fun s =>
    match m (proj s) with
    | (Ok a, t) => (Ok a, put t s)
    | (Err e, t) => (Err (inj e), put t s)
    | (Panic, t) => (Panic, put t s)
    end.

Section Processor.
Context `{Poseidon2} {Stk D : Type} `{StackInterface Stk} `{DeferredInterface D}.

Notation P := (Proc Stk D).

(** ** Field updates *)

Definition put_stack (s : Stk) (p : P) : P :=
  mkProc s (p_clk p) (p_ctx p) (p_caller_hash p) (p_memory p) (p_advice p) (p_call_states p)
    (p_deferred p).
Definition put_clk (clk : Z) (p : P) : P :=
  mkProc (p_stack p) clk (p_ctx p) (p_caller_hash p) (p_memory p) (p_advice p) (p_call_states p)
    (p_deferred p).
Definition put_ctx (c : Z) (p : P) : P :=
  mkProc (p_stack p) (p_clk p) c (p_caller_hash p) (p_memory p) (p_advice p) (p_call_states p)
    (p_deferred p).
Definition put_caller_hash (h : Word) (p : P) : P :=
  mkProc (p_stack p) (p_clk p) (p_ctx p) h (p_memory p) (p_advice p) (p_call_states p)
    (p_deferred p).
Definition put_memory (m : Memory) (p : P) : P :=
  mkProc (p_stack p) (p_clk p) (p_ctx p) (p_caller_hash p) m (p_advice p) (p_call_states p)
    (p_deferred p).
Definition put_advice (a : AdviceProvider) (p : P) : P :=
  mkProc (p_stack p) (p_clk p) (p_ctx p) (p_caller_hash p) (p_memory p) a (p_call_states p)
    (p_deferred p).
Definition put_call_states (l : list SystemCallState) (p : P) : P :=
  mkProc (p_stack p) (p_clk p) (p_ctx p) (p_caller_hash p) (p_memory p) (p_advice p) l
    (p_deferred p).
Definition put_deferred (d : D) (p : P) : P :=
  mkProc (p_stack p) (p_clk p) (p_ctx p) (p_caller_hash p) (p_memory p) (p_advice p)
    (p_call_states p) d.

Definition on_stack {A} (m : PM Stk A) : PM P A := zoom p_stack put_stack id m.
Definition on_advice {A} (m : AP A) : PM P A := zoom p_advice put_advice EAdvice m.
Definition on_memory {A} (m : M MemoryError Memory A) : PM P A := zoom p_memory put_memory EMemory m.

(** ** System *)

(** [self.clk += 1_u32]. *)
Definition increment_clock : PM P unit :=
  let! clk := gets p_clk in
  if clk <? U32_MAX then modify (put_clk (clk + 1)) else panic.

Definition log_deferred_statement (statement_digest expected_new_root : Word) : PM P unit :=
  zoom p_deferred put_deferred (fun e => EOperation (Deferred e))
    (log_verified_statement statement_digest expected_new_root).

Definition save_call_state : PM P unit :=
  modify (fun p => put_call_states
    (mkSystemCallState (p_ctx p) (p_caller_hash p) :: p_call_states p) p).

Definition restore_call_state : PM P unit :=
  let! l := gets p_call_states in
  match l with
  | [] => fail_op (OpInternal "system call state stack should never be empty when restoring context")
  | saved :: rest =>
      do! modify (put_call_states rest);
      do! modify (put_ctx (scs_ctx saved));
      modify (put_caller_hash (scs_caller_hash saved))
  end.

#[export] Instance proc_system : SystemInterface P := {|
  sys_caller_hash := gets p_caller_hash;
  sys_clock := gets p_clk;
  sys_ctx := gets p_ctx;
  sys_deferred_root := gets (fun p => deferred_root (p_deferred p));
  sys_set_caller_hash h := modify (put_caller_hash h);
  sys_set_ctx c := modify (put_ctx c);
  sys_increment_clock := increment_clock;
  sys_log_deferred_statement := log_deferred_statement;
  sys_save_call_state := save_call_state;
  sys_restore_call_state := restore_call_state
|}.

(** ** Stack *)

#[export] Instance proc_stack : StackInterface P := {|
  stack_get i := on_stack (stack_get i);
  stack_get_word i := on_stack (stack_get_word i);
  stack_depth := on_stack stack_depth;
  stack_set i x := on_stack (stack_set i x);
  stack_set_word i w := on_stack (stack_set_word i w);
  stack_swap i j := on_stack (stack_swap i j);
  stack_swapw_nth n := on_stack (stack_swapw_nth n);
  stack_rotate_left n := on_stack (stack_rotate_left n);
  stack_rotate_right n := on_stack (stack_rotate_right n);
  stack_increment_size := on_stack stack_increment_size;
  stack_decrement_size := on_stack stack_decrement_size;
  stack_start_context := on_stack stack_start_context;
  stack_restore_context := on_stack stack_restore_context
|}.

(** ** Memory and advice *)

#[export] Instance proc_memory : MemoryInterface P := {|
  mem_read_element ctx addr := on_memory (fun m => (read_element m ctx addr, m));
  mem_read_word ctx addr _ := on_memory (fun m => (read_word m ctx addr, m));
  mem_write_element ctx addr element := on_memory (fun m => write_element m ctx addr element);
  mem_write_word ctx addr _ word := on_memory (fun m => write_word m ctx addr word)
|}.

#[export] Instance proc_advice : AdviceProviderInterface P := {|
  adv_pop_stack := on_advice pop_stack;
  adv_pop_stack_word := on_advice pop_stack_word;
  adv_pop_stack_dword := on_advice pop_stack_dword;
  adv_get_merkle_path root depth index :=
    let! path := on_advice (get_merkle_path root depth index) in
    ret (Some path);
  adv_update_merkle_node root depth index value :=
    let! (path, _) := on_advice (update_merkle_node root depth index value) in
    ret (Some path)
|}.

(** ** Hasher *)

Definition permute (input_state : HasherState) : PM P (Felt * HasherState) :=
  ret (ZERO, apply_permutation input_state).

Definition verify_merkle_root (claimed_root value : Word) (path : option MerklePath) (index : Felt)
    (on_err : OperationError) : PM P Felt :=
  let! path := expect path in
  match verify path ⟦index⟧ value claimed_root with
  | Ok _ => ret ZERO
  | Err _ => fail_op on_err
  | Panic => panic
  end.

Definition update_merkle_root (claimed_old_root old_value new_value : Word)
    (path : option MerklePath) (index : Felt) (on_err : OperationError) : PM P (Felt * Word) :=
  let! path := expect path in
  match verify path ⟦index⟧ old_value claimed_old_root with
  | Err _ => fail_op on_err
  | Panic => panic
  | Ok _ =>
      match compute_root path ⟦index⟧ new_value with
      | Ok new_root => ret (ZERO, new_root)
      | Err _ => fail_op on_err
      | Panic => panic
      end
  end.

#[export] Instance proc_hasher : HasherInterface P := {|
  hash_permute := permute;
  hash_verify_merkle_root := verify_merkle_root;
  hash_update_merkle_root := update_merkle_root
|}.

#[export] Instance proc_processor : Processor P := {|
  processor_system := proc_system;
  processor_stack := proc_stack;
  processor_advice := proc_advice;
  processor_memory := proc_memory;
  processor_hasher := proc_hasher
|}.

End Processor.

(** ** Construction *)

(** [new_with_options] over a stack already built from the stack inputs: the
    advice inputs may be rejected.  [d] is the deferred state of a fresh
    registry, [default_store] the store of empty subtrees. *)
Definition proc_new `{Poseidon2} {Stk D : Type} (stk : Stk) (default_store : MerkleStore)
    (advice_stack : list Felt) (advice_map : AdviceMap) (advice_store : MerkleStore)
    (max_advice_size_bytes max_memory_elements : Z) (d : D) : res AdviceError (Proc Stk D) :=
  match provider_new default_store max_advice_size_bytes advice_stack advice_map advice_store with
  | Ok advice => Ok (mkProc stk 0 0 EMPTY_WORD (memory_new max_memory_elements) advice [] d)
  | Err e => Err e
  | Panic => Panic
  end.
