(* ===== verification/ExecSim.v ===== *)
(** * Simulation of processors

    What it means for one implementation of the processor traits to simulate
    another, and the theorem that the instruction set then simulates as well:
    every handler, and so [execute_op], is a composition of trait methods that
    preserves the simulation. *)

From S2P Require Import Prelude Felt AdviceMap Quad Operations OpBatch Mast AceCircuit Machine.
From S2P Require Import StackOps ArithOps IoOps CryptoOps FriOps ExecuteOp Control Exec Memory.
From S2P Require Import Merkle MerkleTheory Advice AdviceTheory AdviceAtomic FastStack StackRefine.
From S2P Require Import FastProcessor.

(** [P1] simulates [P2]: related states give the same results and errors, and
    related states, for every method the instruction handlers call. *)
Class OperationSim {P1 P2 : Type} {H1 : Processor P1} {H2 : Processor P2}
    (R : P1 -> P2 -> Prop) : Prop := {
  ps_caller_hash : sim R sys_caller_hash sys_caller_hash;
  ps_clock : sim R sys_clock sys_clock;
  ps_ctx : sim R sys_ctx sys_ctx;
  ps_deferred_root : sim R sys_deferred_root sys_deferred_root;
  ps_log_deferred a b : sim R (sys_log_deferred_statement a b) (sys_log_deferred_statement a b);
  ps_get i : sim R (stack_get i) (stack_get i);
  ps_get_word i : sim R (stack_get_word i) (stack_get_word i);
  ps_depth : sim R stack_depth stack_depth;
  ps_set i x : sim R (stack_set i x) (stack_set i x);
  ps_set_word i w : sim R (stack_set_word i w) (stack_set_word i w);
  ps_swap i j : sim R (stack_swap i j) (stack_swap i j);
  ps_swapw_nth n : sim R (stack_swapw_nth n) (stack_swapw_nth n);
  ps_rotate_left n : sim R (stack_rotate_left n) (stack_rotate_left n);
  ps_rotate_right n : sim R (stack_rotate_right n) (stack_rotate_right n);
  ps_increment_size : sim R stack_increment_size stack_increment_size;
  ps_decrement_size : sim R stack_decrement_size stack_decrement_size;
  ps_pop_stack : sim R adv_pop_stack adv_pop_stack;
  ps_pop_stack_word : sim R adv_pop_stack_word adv_pop_stack_word;
  ps_pop_stack_dword : sim R adv_pop_stack_dword adv_pop_stack_dword;
  ps_get_merkle_path r d i : sim R (adv_get_merkle_path r d i) (adv_get_merkle_path r d i);
  ps_update_merkle_node r d i v :
    sim R (adv_update_merkle_node r d i v) (adv_update_merkle_node r d i v);
  ps_read_element c a : sim R (mem_read_element c a) (mem_read_element c a);
  ps_read_word c a k : sim R (mem_read_word c a k) (mem_read_word c a k);
  ps_write_element c a x : sim R (mem_write_element c a x) (mem_write_element c a x);
  ps_write_word c a k w : sim R (mem_write_word c a k w) (mem_write_word c a k w);
  ps_permute s : sim R (hash_permute s) (hash_permute s);
  ps_verify_merkle_root a b p i e :
    sim R (hash_verify_merkle_root a b p i e) (hash_verify_merkle_root a b p i e);
  ps_update_merkle_root a b c p i e :
    sim R (hash_update_merkle_root a b c p i e) (hash_update_merkle_root a b c p i e)
}.

(** The same for the methods that only control flow calls. *)
Class ProcessorSim {P1 P2 : Type} {H1 : Processor P1} {H2 : Processor P2}
    (R : P1 -> P2 -> Prop) : Prop := {
  #[global] ps_operations :: OperationSim R;
  ps_set_caller_hash h : sim R (sys_set_caller_hash h) (sys_set_caller_hash h);
  ps_set_ctx c : sim R (sys_set_ctx c) (sys_set_ctx c);
  ps_increment_clock : sim R sys_increment_clock sys_increment_clock;
  ps_save_call_state : sim R sys_save_call_state sys_save_call_state;
  ps_restore_call_state : sim R sys_restore_call_state sys_restore_call_state;
  ps_start_context : sim R stack_start_context stack_start_context;
  ps_restore_context : sim R stack_restore_context stack_restore_context
}.

#[export] Hint Resolve ps_caller_hash ps_clock ps_ctx ps_deferred_root ps_set_caller_hash ps_set_ctx
  ps_increment_clock ps_log_deferred ps_save_call_state ps_restore_call_state ps_get ps_get_word
  ps_depth ps_set ps_set_word ps_swap ps_swapw_nth ps_rotate_left ps_rotate_right
  ps_increment_size ps_decrement_size ps_start_context ps_restore_context ps_pop_stack
  ps_pop_stack_word ps_pop_stack_dword ps_get_merkle_path ps_update_merkle_node ps_read_element
  ps_read_word ps_write_element ps_write_word ps_permute ps_verify_merkle_root
  ps_update_merkle_root : sim.

(** States of the handlers: related processors, the same tracer calls. *)
Definition st_rel {P1 P2} (R : P1 -> P2 -> Prop) (s1 : St P1) (s2 : St P2) : Prop :=
  R (st_proc s1) (st_proc s2) /\ st_trace s1 = st_trace s2.

Section Lift.
Context {P1 P2 : Type} (R : P1 -> P2 -> Prop).

Lemma sim_on_proc {A} (m1 : PM P1 A) (m2 : PM P2 A) :
  sim R m1 m2 -> sim (st_rel R) (on_proc m1) (on_proc m2).
Proof.
  intros Hm s1 s2 [Hr Ht]. specialize (Hm _ _ Hr). unfold on_proc.
  destruct (m2 (st_proc s2)) as [[a|e|] p2']; [| |done];
    destruct Hm as (p1' & -> & Hp); (eexists; split; [done|by split; cbn]).
Qed.

Lemma sim_trace e : sim (st_rel R) (trace e) (trace e).
Proof. apply sim_modify. intros s1 s2 [Hr Ht]. split; cbn; [done|by rewrite Ht]. Qed.

Lemma sim_fail_op {S1 S2 A} (R' : S1 -> S2 -> Prop) e : sim (A:=A) R' (fail_op e) (fail_op e).
Proof. apply sim_fail. Qed.

Lemma sim_fail_mem {S1 S2 A} (R' : S1 -> S2 -> Prop) e : sim (A:=A) R' (fail_mem e) (fail_mem e).
Proof. apply sim_fail. Qed.

End Lift.

#[export] Hint Resolve sim_on_proc sim_trace sim_fail_op sim_fail_mem : sim.

(** The two sides are the same code at two types, so they branch together. *)
Ltac sim_step :=
  match goal with
  | |- sim _ (bind _ _) (bind _ _) => apply sim_bind; [|intros ?]
  | |- sim _ (let '(_, _) := ?x in _) _ => destruct x
  | |- sim _ (match ?x with _ => _ end) _ => destruct x eqn:?
  | |- _ => solve [eauto 4 with sim typeclass_instances]
  end.

Ltac sim_auto := repeat (cbv zeta; sim_step).

Create HintDb ops discriminated.
#[export] Hint Unfold op_push op_pad op_swap op_swap_double_word dup_nth op_cswap op_cswapw op_drop
  op_swapw_nth op_movup op_movdn op_assert op_sdepth op_caller op_clk : ops.
#[export] Hint Unfold assert_binary pop2_applyfn_push pop2_applyfn_push_op op_add op_neg op_mul
  op_inv op_incr op_and op_or op_not op_eq op_eqz op_expacc op_ext2mul : ops.
#[export] Hint Unfold require_u32_operands2 require_u32_operands3 op_u32split op_u32add op_u32add3
  op_u32sub op_u32mul op_u32madd op_u32div op_u32and op_u32xor op_u32assert2 : ops.
#[export] Hint Unfold op_advpop op_advpopw op_mloadw op_mstorew op_mload op_mstore op_mstream
  op_pipe : ops.
#[export] Hint Unfold op_hperm validate_merkle_depth validate_materialized_merkle_path_length
  validate_merkle_path_length op_mpverify op_mrupdate read_horner_eval_point op_horner_eval_base
  op_horner_eval_ext op_log_deferred validate_dual_word_stream_addrs op_crypto_stream : ops.
#[export] Hint Unfold get_query_values op_fri_ext2fold4 op_eval_circuit : ops.

Section Handlers.
Context `{G : Goldilocks} `{Q : QuadField}.
Context {P1 P2 : Type} {H1 : Processor P1} {H2 : Processor P2} (R : P1 -> P2 -> Prop).
Context {HR : OperationSim R}.

Lemma sim_vm_get i : sim (st_rel R) (get i) (get i).
Proof. unfold get. sim_auto. Qed.
Lemma sim_vm_set i x : sim (st_rel R) (set i x) (set i x).
Proof. unfold set. sim_auto. Qed.
Lemma sim_vm_get_word i : sim (st_rel R) (get_word i) (get_word i).
Proof. unfold get_word. sim_auto. Qed.
Lemma sim_vm_set_word i w : sim (st_rel R) (set_word i w) (set_word i w).
Proof. unfold set_word. sim_auto. Qed.
Lemma sim_vm_swap i j : sim (st_rel R) (swap i j) (swap i j).
Proof. unfold swap. sim_auto. Qed.
Lemma sim_vm_increment_size : sim (st_rel R) increment_size increment_size.
Proof. unfold increment_size. sim_auto. Qed.
Lemma sim_vm_decrement_size : sim (st_rel R) decrement_size decrement_size.
Proof. unfold decrement_size. sim_auto. Qed.
Lemma sim_vm_ctx : sim (st_rel R) ctx ctx.
Proof. unfold ctx. sim_auto. Qed.
Lemma sim_vm_clock : sim (st_rel R) clock clock.
Proof. unfold clock. sim_auto. Qed.

#[local] Hint Resolve sim_vm_get sim_vm_set sim_vm_get_word sim_vm_set_word sim_vm_swap
  sim_vm_increment_size sim_vm_decrement_size sim_vm_ctx sim_vm_clock : sim.

Lemma sim_vm_get_double_word i : sim (st_rel R) (get_double_word i) (get_double_word i).
Proof. unfold get_double_word. sim_auto. Qed.

#[local] Hint Resolve sim_vm_get_double_word : sim.

(** The two loops of circuit evaluation. *)
Lemma sim_ace_read_rows n c k ptr e : sim R (ace_read_rows n c k ptr e) (ace_read_rows n c k ptr e).
Proof. revert ptr e. induction n; intros; cbn [ace_read_rows]; sim_auto. Qed.

Lemma sim_ace_eval_rows n c ptr e : sim R (ace_eval_rows n c ptr e) (ace_eval_rows n c ptr e).
Proof. revert ptr e. induction n; intros; cbn [ace_eval_rows]; sim_auto. Qed.

#[local] Hint Resolve sim_ace_read_rows sim_ace_eval_rows : sim.

Lemma sim_eval_circuit_impl c ptr k v n :
  sim R (eval_circuit_impl c ptr k v n) (eval_circuit_impl c ptr k v n).
Proof. unfold eval_circuit_impl. sim_auto. Qed.

#[local] Hint Resolve sim_eval_circuit_impl : sim.

(** The instruction set preserves the simulation. *)
Lemma execute_op_sim op : sim (st_rel R) (execute_op op) (execute_op op).
Proof. destruct op; cbn [execute_op]; autounfold with ops; sim_auto. Qed.

End Handlers.

(** ** Simulation of program runs

    If one processor simulates another, and the tracers, stoppers and hosts of
    the two sides treat related processors alike, then whole program runs
    simulate: the execution loop and the loops around it only use the processor
    through its interfaces. *)

Create HintDb control discriminated.

(** ** What the two sides share *)

Class TracerSim {P1 P2 F T : Type} (R : P1 -> P2 -> Prop) `{T1 : Tracer T P1 F} `{T2 : Tracer T P2 F} :
    Prop := {
  ts_start p1 p2 c l f t : R p1 p2 -> tr_start_clock_cycle p1 c l f t = tr_start_clock_cycle p2 c l f t;
  ts_finalize p1 p2 h f t :
    R p1 p2 -> tr_finalize_clock_cycle p1 h f t = tr_finalize_clock_cycle p2 h f t;
  ts_resolution id f t :
    tr_record_mast_forest_resolution (Tracer := T1) id f t =
    tr_record_mast_forest_resolution (Tracer := T2) id f t;
  ts_external id f t :
    tr_record_external_node_entered (Tracer := T1) id f t =
    tr_record_external_node_entered (Tracer := T2) id f t;
  ts_event e t : tr_event (Tracer := T1) e t = tr_event (Tracer := T2) e t
}.

#[export] Instance noop_tracer_sim {P1 P2 F : Type} (R : P1 -> P2 -> Prop) :
  TracerSim (F := F) R (T1 := noop_tracer) (T2 := noop_tracer).
Proof. done. Qed.

Class StopperSim {P1 P2 F : Type} (R : P1 -> P2 -> Prop) (S1 : Stopper P1 F) (S2 : Stopper P2 F) : Prop :=
  ss_should_stop p1 p2 l a : R p1 p2 -> S1 p1 l a = S2 p2 l a.

Class ViewSim {P1 P2 : Type} (R : P1 -> P2 -> Prop) `{V1 : ProcessorView P1} `{V2 : ProcessorView P2} :
    Prop := {
  vs_clk p1 p2 : R p1 p2 -> view_clk p1 = view_clk p2;
  vs_max_cycles p1 p2 : R p1 p2 -> view_max_cycles p1 = view_max_cycles p2;
  vs_max_continuations p1 p2 :
    R p1 p2 -> view_max_num_continuations p1 = view_max_num_continuations p2;
  vs_stack p1 p2 l : R p1 p2 -> view_stack p2 = Some l -> view_stack p1 = Some l;
  vs_extend_map m : sim R (view_extend_map m) (view_extend_map m)
}.

(** A processor with its host. *)
Definition pair_rel {P1 P2 H : Type} (R : P1 -> P2 -> Prop) (s1 : P1 * H) (s2 : P2 * H) : Prop :=
  R s1.1 s2.1 /\ s1.2 = s2.2.

Class HostSim {P1 P2 F H : Type} (R : P1 -> P2 -> Prop) `{H1 : SyncHost H P1 F} `{H2 : SyncHost H P2 F} :
    Prop := {
  hs_get_mast_forest h d : get_mast_forest (SyncHost := H1) h d = get_mast_forest (SyncHost := H2) h d;
  hs_emit n : sim (pair_rel R) (op_emit_sync (SyncHost := H1) n) (op_emit_sync (SyncHost := H2) n)
}.

Section Sim.
Context `{G : Goldilocks} `{Q : QuadField}.
Context {P1 P2 : Type} `{PP1 : Processor P1} `{PP2 : Processor P2} (R : P1 -> P2 -> Prop).
Context `{PS : !ProcessorSim R}.
Context {F : Type} `{EF : ExecutableMastForest F} {H T : Type}.
Context `{T1 : Tracer T P1 F} `{T2 : Tracer T P2 F} `{TS : !TracerSim R}.

Record x_rel (x1 : XState P1 F H T) (x2 : XState P2 F H T) : Prop := {
  xr_processor : R (x_processor x1) (x_processor x2);
  xr_stack : x_stack x1 = x_stack x2;
  xr_forest : x_forest x1 = x_forest x2;
  xr_host : x_host x1 = x_host x2;
  xr_tracer : x_tracer x1 = x_tracer x2
}.

(** ** The primitives *)

Lemma sim_map_break {A} (m1 : M (BreakReason F) (XState P1 F H T) A) m2 :
  sim x_rel m1 m2 -> sim x_rel (map_break m1) (map_break m2).
Proof.
  intros Hm x1 x2 Hx. specialize (Hm x1 x2 Hx). unfold map_break.
  destruct (m2 x2) as [[a|e|] y2]; [| |done]; destruct Hm as (y1 & -> & Hy); by eexists.
Qed.

Lemma sim_on_processor {A} (m1 : PM P1 A) (m2 : PM P2 A) :
  sim R m1 m2 -> sim x_rel (on_processor m1) (on_processor m2).
Proof.
  intros Hm x1 x2 [Hp Hs Hf Hh Ht]. specialize (Hm _ _ Hp). unfold on_processor.
  destruct (m2 (x_processor x2)) as [[a|e|] p2]; [| |done];
    destruct Hm as (p1 & -> & Hp'); (eexists; split; [done|by split]).
Qed.

Lemma fold_events (evs : list TracerEvent) t :
  foldl (fun t e => tr_event (Tracer := T1) e t) t evs = foldl (fun t e => tr_event (Tracer := T2) e t) t evs.
Proof.
  revert t. induction evs as [|e evs IH]; intros t; [done|]. cbn.
  by rewrite (ts_event (T1 := T1) (T2 := T2)).
Qed.

Lemma sim_on_handler {A} (m1 : VM P1 A) (m2 : VM P2 A) :
  sim (st_rel R) m1 m2 -> sim x_rel (on_handler m1) (on_handler m2).
Proof.
  intros Hm x1 x2 [Hp Hs Hf Hh Ht]. unfold on_handler.
  specialize (Hm (mkSt (x_processor x1) []) (mkSt (x_processor x2) []) (conj Hp eq_refl)).
  destruct (m2 _) as [[a|e|] s2]; [| |done]; destruct Hm as (s1 & -> & Hp' & Hev); cbn [st_proc st_trace] in *;
    (eexists; split; [done|]; split; cbn; try done; by rewrite Hev, Ht, fold_events).
Qed.

Lemma sim_push c : sim x_rel (push_continuation c) (push_continuation c).
Proof. apply sim_modify. intros x1 x2 []. split; cbn; congruence. Qed.

Lemma sim_start c : sim x_rel (start_clock_cycle c) (start_clock_cycle c).
Proof.
  apply sim_modify. intros x1 x2 [Hp Hs Hf Hh Ht]. split; cbn; try done.
  rewrite Hs, Hf, Ht. by apply ts_start.
Qed.

Lemma sim_put_forest f : sim (E := BreakReason F) x_rel (modify (put_forest f)) (modify (put_forest f)).
Proof. apply sim_modify. intros x1 x2 []. split; cbn; congruence. Qed.

Lemma sim_enter_forest f : sim (E := InternalBreakReason F) x_rel (modify (put_forest f)) (modify (put_forest f)).
Proof. apply sim_modify. intros x1 x2 []. split; cbn; congruence. Qed.

Lemma sim_record e : sim x_rel (record e) (record e).
Proof.
  apply sim_modify. intros x1 x2 []. split; cbn; try done.
  rewrite (ts_event (T1 := T1) (T2 := T2)). congruence.
Qed.

Lemma sim_resolution id f :
  sim x_rel (trace_call (tr_record_mast_forest_resolution (Tracer := T1) id f))
    (trace_call (tr_record_mast_forest_resolution (Tracer := T2) id f)).
Proof.
  apply sim_modify. intros x1 x2 []. split; cbn; try done.
  rewrite (ts_resolution (T1 := T1) (T2 := T2)). congruence.
Qed.

Lemma sim_external_entered id f :
  sim x_rel (trace_call (tr_record_external_node_entered (Tracer := T1) id f))
    (trace_call (tr_record_external_node_entered (Tracer := T2) id f)).
Proof.
  apply sim_modify. intros x1 x2 []. split; cbn; try done.
  rewrite (ts_external (T1 := T1) (T2 := T2)). congruence.
Qed.

Lemma sim_get_forest E : sim (E := E) x_rel (gets x_forest) (gets x_forest).
Proof. apply sim_gets. by intros x1 x2 []. Qed.

Lemma sim_get_host E : sim (E := E) x_rel (gets x_host) (gets x_host).
Proof. apply sim_gets. by intros x1 x2 []. Qed.

Lemma sim_option {A} (o : option A) msg :
  sim x_rel (option_map_break_reason o msg) (option_map_break_reason o msg).
Proof. apply sim_ok_or. Qed.

Lemma sim_fail_operation {A} e : sim (A := A) x_rel (fail_operation e) (fail_operation e).
Proof. apply sim_fail. Qed.

Hint Resolve sim_map_break sim_on_processor sim_on_handler sim_push sim_start sim_put_forest
  sim_enter_forest sim_record sim_resolution sim_external_entered sim_get_forest sim_get_host sim_option
  sim_fail_operation : sim.

Lemma sim_next_ctx : sim x_rel get_next_ctx_id get_next_ctx_id.
Proof. unfold get_next_ctx_id. sim_auto. Qed.

Section Stoppers.
Context (S1 : Stopper P1 F) (S2 : Stopper P2 F) `{SS : !StopperSim R S1 S2} (kernel : KernelDescriptor).

Lemma sim_finalize a h f :
  sim x_rel (finalize_clock_cycle_with_continuation_and_op_helpers (SS := S1) a h f)
    (finalize_clock_cycle_with_continuation_and_op_helpers (SS := S2) a h f).
Proof.
  apply sim_bind; [|intros _; apply sim_bind; [auto with sim|intros _]].
  - intros x1 x2 [Hp Hs Hf Hh Ht]. rewrite Ht, (ts_finalize _ _ _ _ _ Hp).
    destruct (tr_finalize_clock_cycle _ _ _ _) as [[[]|e|] t]; [| |done]; by eexists.
  - intros x1 x2 Hx. destruct Hx as [Hp Hs Hf Hh Ht] eqn:E. unfold should_stop.
    rewrite Hs, (ss_should_stop (x_processor x1) (x_processor x2) _ _ Hp).
    destruct (S2 _ _ _); [| |done]; by eexists.
Qed.

Hint Resolve sim_finalize sim_next_ctx : sim.
Hint Unfold finalize_clock_cycle finalize_clock_cycle_with_continuation : control.
Hint Unfold start_join_node finish_join_node start_split_node finish_split_node start_loop_node
  finish_loop_node start_call_node finish_call_node start_dyn_node finish_dyn_node
  execute_external_node finish_basic_block finish_emit_op_execution
  finish_load_mast_forest_from_dyn_start finish_load_mast_forest_from_external : control.

Ltac control_auto :=
  autounfold with control;
  repeat (cbv zeta;
    match goal with
    | |- sim _ (map_break _) (map_break _) => apply sim_map_break
    | |- _ => sim_step
    end).

Lemma sim_batch_op bb id b off i op f :
  sim x_rel (execute_batch_op (SS := S1) bb id b off i op f) (execute_batch_op (SS := S2) bb id b off i op f).
Proof.
  unfold execute_batch_op. apply sim_bind; [control_auto|intros _].
  apply sim_bind; [|intros h; control_auto].
  destruct op; try (apply sim_map_break, sim_on_handler, execute_op_sim, PS). sim_auto.
Qed.

Lemma sim_op_batch bb id b i off f :
  sim x_rel (execute_op_batch (SS := S1) bb id b i off f) (execute_op_batch (SS := S2) bb id b i off f).
Proof.
  unfold execute_op_batch. apply sim_bind; [auto with sim|]. intros batch.
  generalize (drop i (ob_ops batch)) as ops. intros ops. revert i.
  induction ops as [|op ops IH]; intros i; [apply sim_ret|].
  apply sim_bind; [apply sim_batch_op|intros _; apply IH].
Qed.

Lemma sim_from_batch bb id b f :
  sim x_rel (execute_basic_block_node_from_batch (SS := S1) bb id b f)
    (execute_basic_block_node_from_batch (SS := S2) bb id b f).
Proof.
  unfold execute_basic_block_node_from_batch. generalize (drop b (op_batches bb)) as l.
  generalize (batch_offset bb b) as off. intros off l. revert b off.
  induction l as [|batch l IH]; intros b off; cbn [execute_batches]; [control_auto|].
  do 2 (apply sim_bind; [control_auto|intros _]).
  apply sim_bind; [apply sim_op_batch|intros _; apply IH].
Qed.

Hint Resolve sim_op_batch sim_from_batch : sim.

Lemma sim_execute_continuation c :
  sim x_rel (execute_continuation (SS := S1) kernel c) (execute_continuation (SS := S2) kernel c).
Proof.
  apply sim_bind; [auto with sim|]. intros f.
  destruct c as [id|id|id|id|id|id|id b i|id b|id|f'];
    try (unfold execute_basic_block_node_from_op_idx; control_auto; fail).
  apply sim_bind; [auto with sim|]. intros n. destruct n as [n|n|n|n|n|n|n]; try (control_auto; fail).
  unfold execute_basic_block_node_from_start. control_auto.
Qed.

(** ** The loops *)

(** A bounded run: it stops at the bound on both sides or on none, unless the
    specification panics. *)
Definition run_sim {E A} (o1 : option (res E A * XState P1 F H T)) (o2 : option (res E A * XState P2 F H T)) :
    Prop :=
  match o2 with
  | None => o1 = None
  | Some (Panic, _) => True
  | Some (r, y2) => exists y1, o1 = Some (r, y1) /\ x_rel y1 y2
  end.

Lemma run_sim_of {E A} (m1 : M E (XState P1 F H T) A) m2 x1 x2 : sim x_rel m1 m2 -> x_rel x1 x2 ->
  run_sim (Some (m1 x1)) (Some (m2 x2)).
Proof.
  intros Hm Hx. specialize (Hm x1 x2 Hx). unfold run_sim.
  destruct (m2 x2) as [[a|e|] y2]; [| |done]; destruct Hm as (y1 & -> & Hy); by eexists.
Qed.

Lemma put_conts_rel l x1 x2 : x_rel x1 x2 -> x_rel (put_conts l x1) (put_conts l x2).
Proof. intros []. by split. Qed.

Lemma sim_execute_impl n x1 x2 : x_rel x1 x2 ->
  run_sim (execute_impl (SS := S1) kernel n x1) (execute_impl (SS := S2) kernel n x2).
Proof.
  revert x1 x2. induction n as [|n IH]; intros x1 x2 Hx; [done|]. cbn [execute_impl].
  rewrite (xr_stack _ _ Hx). destruct (x_stack x2) as [|c rest]; [by eexists|].
  pose proof (sim_execute_continuation c _ _ (put_conts_rel rest _ _ Hx)) as Hc.
  destruct (execute_continuation (SS := S2) kernel c _) as [[a|r|] y2]; [| |done];
    destruct Hc as (y1 & -> & Hy); [by apply IH|by eexists].
Qed.

Context `{V1 : ProcessorView P1} `{V2 : ProcessorView P2} `{VS : !ViewSim R}.
Context `{H1 : SyncHost H P1 F} `{H2 : SyncHost H P2 F} `{HS : !HostSim R}.

Lemma sim_on_host {A} (m1 : M ExecutionError (P1 * H) A) (m2 : M ExecutionError (P2 * H) A) :
  sim (pair_rel R) m1 m2 -> sim x_rel (on_host m1) (on_host m2).
Proof.
  intros Hm x1 x2 [Hp Hs Hf Hh Ht]. unfold on_host.
  specialize (Hm (x_processor x1, x_host x1) (x_processor x2, x_host x2) (conj Hp Hh)).
  destruct (m2 _) as [[a|e|] [p2 h2]]; [| |done]; destruct Hm as ([p1 h1] & -> & Hp' & Hh');
    (eexists; split; [done|by split]).
Qed.

Lemma sim_load d : sim x_rel (load_mast_forest_sync (HH := H1) d) (load_mast_forest_sync (HH := H2) d).
Proof.
  unfold load_mast_forest_sync. apply sim_bind; [auto with sim|]. intros h.
  rewrite (hs_get_mast_forest (H1 := H1) (H2 := H2)).
  apply sim_bind; [auto with sim|]. intros f. apply sim_bind; [auto with sim|]. intros o.
  apply sim_bind; [auto with sim|]. intros id. apply sim_bind; [|intros _; apply sim_ret].
  apply sim_on_processor, vs_extend_map.
Qed.

Lemma sim_handle_break r :
  sim x_rel (handle_break (HH := H1) S1 r) (handle_break (HH := H2) S2 r).
Proof.
  destruct r as [b|n k|d|id d]; cbn [handle_break].
  - apply sim_fail.
  - apply sim_bind; [apply sim_on_host, hs_emit|intros _]. control_auto.
  - apply sim_bind; [apply sim_load|]. intros [root f]. control_auto.
  - apply sim_bind; [apply sim_load|]. intros [root f]. control_auto.
Qed.

Lemma sim_take_outputs : sim x_rel (take_outputs (P := P1) (F := F)) take_outputs.
Proof.
  intros x1 x2 Hx. unfold take_outputs. rewrite !bind_gets.
  destruct (view_stack (x_processor x2)) as [l|] eqn:Hl; [|done].
  rewrite (vs_stack _ _ _ (xr_processor _ _ Hx) Hl). cbn [expect].
  rewrite !(bind_ret_l _ _ x2), !(bind_ret_l _ _ x1).
  destruct (stack_outputs_new l); [by eexists|].
  destruct (checked_sub _ _); [by eexists|done].
Qed.

Lemma sim_execute_program n x1 x2 : x_rel x1 x2 ->
  run_sim (execute_program (HH := H1) kernel S1 n x1) (execute_program (HH := H2) kernel S2 n x2).
Proof.
  revert x1 x2. induction n as [|n IH]; intros x1 x2 Hx; [done|]. cbn [execute_program].
  pose proof (sim_execute_impl (S n) x1 x2 Hx) as Hi. unfold run_sim in Hi at 1.
  destruct (execute_impl (SS := S2) kernel (S n) x2) as [[[a|r|] y2]|]; [| |done|by rewrite Hi];
    destruct Hi as (y1 & -> & Hy).
  - by apply (run_sim_of _ _ _ _ sim_take_outputs).
  - pose proof (sim_handle_break r y1 y2 Hy) as Hb.
    destruct (handle_break (HH := H2) S2 r y2) as [[b|b|] z2]; [| |done];
      destruct Hb as (z1 & -> & Hz); [by apply IH|by eexists].
Qed.

End Stoppers.

#[export] Instance never_sim `{V1 : ProcessorView P1} `{V2 : ProcessorView P2} `{VS : !ViewSim R} :
  StopperSim (F := F) R NeverStopper NeverStopper.
Proof.
  intros p1 p2 l a Hp. unfold NeverStopper, check_if_max_cycles_exceeded, check_if_continuation_stack_too_large.
  by rewrite (vs_clk _ _ Hp), (vs_max_cycles _ _ Hp), (vs_max_continuations _ _ Hp).
Qed.

End Sim.

(** ** The fast processor refines the abstract one

    The processor over the buffer stack simulates the processor over the list
    stack, method by method; the instruction set follows by ExecSim.  On the
    abstract side no instruction panics from a state whose stack cells are all
    written and whose advice budget is exact, so the buffer processor does not
    either. *)

Section Refine.
Context `{Poseidon2} {D : Type} `{DeferredInterface D}.

Notation Fast := (FastProcessor D).
Notation Spec := (SpecProcessor D).

(** Same system registers, memory and advice; related stacks. *)
Record proc_rel (p1 : Fast) (p2 : Spec) : Prop := {
  pr_stack : stack_rel (p_stack p1) (p_stack p2);
  pr_clk : p_clk p1 = p_clk p2;
  pr_ctx : p_ctx p1 = p_ctx p2;
  pr_caller_hash : p_caller_hash p1 = p_caller_hash p2;
  pr_memory : p_memory p1 = p_memory p2;
  pr_advice : p_advice p1 = p_advice p2;
  pr_call_states : p_call_states p1 = p_call_states p2;
  pr_deferred : p_deferred p1 = p_deferred p2
}.

Lemma sim_on_stack {A} (m1 : PM FastStack A) (m2 : PM SpecStack A) :
  sim stack_rel m1 m2 -> sim proc_rel (on_stack m1) (on_stack m2).
Proof.
  intros Hm p1 p2 Hp. specialize (Hm _ _ (pr_stack _ _ Hp)). unfold on_stack, zoom.
  destruct (m2 (p_stack p2)) as [[a|e|] t]; [| |done];
    destruct Hm as (s & -> & Hs); (eexists; split; [done|destruct Hp; by split]).
Qed.

(** A method of a component the two processors share. *)
Lemma sim_zoom {E T A} (proj1 : Fast -> T) (proj2 : Spec -> T) put1 put2 (inj : E -> ExecutionError)
    (m : M E T A) :
  (forall p1 p2, proc_rel p1 p2 -> proj1 p1 = proj2 p2) ->
  (forall p1 p2 t, proc_rel p1 p2 -> proc_rel (put1 t p1) (put2 t p2)) ->
  sim proc_rel (zoom proj1 put1 inj m) (zoom proj2 put2 inj m).
Proof.
  intros Hproj Hput p1 p2 Hp. unfold zoom. rewrite (Hproj p1 p2 Hp).
  destruct (m (proj2 p2)) as [[a|e|] t]; [| |done]; (eexists; split; [done|by apply Hput]).
Qed.

Ltac rel_split := intros p1 p2; intros; match goal with Hp : proc_rel _ _ |- _ => destruct Hp end.

Lemma sim_on_advice {A} (m : AP A) : sim proc_rel (on_advice m) (on_advice m).
Proof. apply sim_zoom; rel_split; [done|by split]. Qed.

Lemma sim_on_memory {A} (m : M MemoryError Memory A) : sim proc_rel (on_memory m) (on_memory m).
Proof. apply sim_zoom; rel_split; [done|by split]. Qed.

Lemma sim_increment_clock : sim proc_rel increment_clock increment_clock.
Proof.
  apply sim_bind; [apply sim_gets; by rel_split|]. intros c. destruct (_ <? _); [|apply sim_panic].
  apply sim_modify. rel_split. by split.
Qed.

Lemma sim_restore_call_state : sim proc_rel restore_call_state restore_call_state.
Proof.
  apply sim_bind; [apply sim_gets; by rel_split|]. intros [|saved rest]; [apply sim_fail|].
  repeat (apply sim_bind; [|intros _]); apply sim_modify; rel_split; by split.
Qed.

Lemma sim_save_call_state : sim proc_rel save_call_state save_call_state.
Proof. apply sim_modify. rel_split. split; cbn; congruence. Qed.

#[local] Hint Resolve sim_on_stack sim_on_advice sim_on_memory sim_increment_clock
  sim_restore_call_state sim_save_call_state : sim.
#[local] Hint Resolve sim_get sim_depth sim_get_word sim_set sim_set_word sim_swap sim_swapw_nth
  sim_rotate_left sim_rotate_right sim_increment_size sim_decrement_size sim_start_context
  sim_restore_context : sim.

#[export] Instance fast_spec_sim : ProcessorSim proc_rel.
Proof.
  split; [split|..]; intros; cbn; unfold permute, verify_merkle_root, update_merkle_root; sim_auto;
    try (apply sim_gets; rel_split; congruence); try (apply sim_modify; rel_split; by split).
  apply sim_zoom; rel_split; [done|by split].
Qed.

End Refine.
