(* ===== verification/ProcView.v ===== *)
(** * Options and construction of the processor

    [ExecutionOptions] (processor/src/execution_options.rs), the constructor of
    [FastProcessor] from its options (fast/mod.rs), and what the loops of
    fast/execution_api.rs read of a processor besides its traits. *)

From S2P Require Import Prelude Felt AdviceMap Quad Mast AceCircuit Machine Control Exec Memory.
From S2P Require Import Merkle Advice FastStack StackRefine FastProcessor ExecSim.

(** ** Execution options *)

Definition MIN_TRACE_LEN : Z := 64.
Definition MAX_CYCLES : Z := 2 ^ 29.
Definition DEFAULT_CORE_TRACE_FRAGMENT_SIZE : Z := 4096.
Definition DEFAULT_MAX_ADVICE_SIZE_BYTES : Z := 16 * 1024 * 1024.
Definition DEFAULT_MAX_HASH_LEN_BYTES : Z := 2 ^ 20.
Definition DEFAULT_MAX_NUM_CONTINUATIONS : Z := 2 ^ 16.
Definition DEFAULT_MAX_STACK_DEPTH : Z := 6615.
Definition DEFAULT_MAX_MEMORY_ELEMENTS : Z := 2 ^ 28.

Record ExecutionOptions := mkExecutionOptions {
  eo_max_cycles : Z;
  eo_expected_cycles : Z;
  eo_core_trace_fragment_size : Z;
  eo_max_advice_size_bytes : Z;
  eo_overlapped_trace_build : bool;
  eo_max_hash_len_bytes : Z;
  eo_max_num_continuations : Z;
  eo_max_stack_depth : Z;
  eo_max_memory_elements : Z
}.

Inductive ExecutionOptionsError :=
| ExpectedCyclesTooBig (max_cycles expected_cycles : Z)
| MaxCycleNumTooSmall (max_cycles min_cycles_limit : Z)
| MaxCycleNumTooBig (max_cycles max_cycles_limit : Z)
| CoreTraceFragmentSizeTooSmall
| MaxStackDepthTooSmall (max_stack_depth min_stack_depth : Z).

Definition options_default : ExecutionOptions :=
  mkExecutionOptions MAX_CYCLES MIN_TRACE_LEN DEFAULT_CORE_TRACE_FRAGMENT_SIZE
    DEFAULT_MAX_ADVICE_SIZE_BYTES true DEFAULT_MAX_HASH_LEN_BYTES DEFAULT_MAX_NUM_CONTINUATIONS
    DEFAULT_MAX_STACK_DEPTH DEFAULT_MAX_MEMORY_ELEMENTS.

(** [u32::u32_next_power_of_two], which overflows above [2^31]. *)
Definition u32_next_power_of_two (x : Z) : option Z :=
  let p := if x <=? 1 then 1 else 2 ^ Z.log2_up x in
  if p <=? U32_MAX then Some p else None.

Definition options_new (max_cycles : option Z) (expected_cycles core_trace_fragment_size : Z) :
    res ExecutionOptionsError ExecutionOptions :=
  let checked :=
    match max_cycles with
    | Some max_cycles =>
        if MAX_CYCLES <? max_cycles then Err (MaxCycleNumTooBig max_cycles MAX_CYCLES)
        else if max_cycles <? MIN_TRACE_LEN then Err (MaxCycleNumTooSmall max_cycles MIN_TRACE_LEN)
        else Ok max_cycles
    | None => Ok MAX_CYCLES
    end in
  match checked with
  | Ok max_cycles =>
      match u32_next_power_of_two expected_cycles with
      | None => Panic
      | Some p =>
          let expected_cycles := Z.max p MIN_TRACE_LEN in
          if max_cycles <? expected_cycles then Err (ExpectedCyclesTooBig max_cycles expected_cycles)
          else if core_trace_fragment_size =? 0 then Err CoreTraceFragmentSizeTooSmall
          else Ok (mkExecutionOptions max_cycles expected_cycles core_trace_fragment_size
                     DEFAULT_MAX_ADVICE_SIZE_BYTES true DEFAULT_MAX_HASH_LEN_BYTES
                     DEFAULT_MAX_NUM_CONTINUATIONS DEFAULT_MAX_STACK_DEPTH
                     DEFAULT_MAX_MEMORY_ELEMENTS)
      end
  | Err e => Err e
  | Panic => Panic
  end.

Definition with_max_stack_depth (max_stack_depth : Z) (o : ExecutionOptions) :
    res ExecutionOptionsError ExecutionOptions :=
  if max_stack_depth <? Z.of_nat MIN_STACK_DEPTH
  then Err (MaxStackDepthTooSmall max_stack_depth (Z.of_nat MIN_STACK_DEPTH))
  else Ok (mkExecutionOptions (eo_max_cycles o) (eo_expected_cycles o) (eo_core_trace_fragment_size o)
             (eo_max_advice_size_bytes o) (eo_overlapped_trace_build o) (eo_max_hash_len_bytes o)
             (eo_max_num_continuations o) max_stack_depth (eo_max_memory_elements o)).

Definition with_max_num_continuations (n : Z) (o : ExecutionOptions) : ExecutionOptions :=
  mkExecutionOptions (eo_max_cycles o) (eo_expected_cycles o) (eo_core_trace_fragment_size o)
    (eo_max_advice_size_bytes o) (eo_overlapped_trace_build o) (eo_max_hash_len_bytes o) n
    (eo_max_stack_depth o) (eo_max_memory_elements o).

(** What the executor relies on; [Default], [new] and the setters establish it
    (a stack limit within 235 elements of the address space does not fit in the
    memory of a 64-bit machine). *)
Record options_ok (o : ExecutionOptions) : Prop := {
  oo_cycles : 0 <= eo_max_cycles o <= MAX_CYCLES;
  oo_depth : 16 <= eo_max_stack_depth o <= U64_MAX - 235;
  oo_advice : 0 <= eo_max_advice_size_bytes o <= USIZE_MAX
}.

Lemma options_default_ok : options_ok options_default.
Proof. by split. Qed.

Lemma options_new_ok max_cycles expected size o :
  options_new max_cycles expected size = Ok o -> options_ok o.
Proof.
  unfold options_new. intros Ho.
  assert (forall c, (match max_cycles with
    | Some max_cycles =>
        if MAX_CYCLES <? max_cycles then Err (MaxCycleNumTooBig max_cycles MAX_CYCLES)
        else if max_cycles <? MIN_TRACE_LEN then Err (MaxCycleNumTooSmall max_cycles MIN_TRACE_LEN)
        else Ok max_cycles
    | None => Ok MAX_CYCLES end) = Ok c -> 0 <= c <= MAX_CYCLES) as Hc.
  { intros c. destruct max_cycles as [m|]; [|by intros [= <-]].
    destruct (Z.ltb_spec MAX_CYCLES m), (Z.ltb_spec m MIN_TRACE_LEN); try done.
    intros [= <-]. unfold MIN_TRACE_LEN in *. lia. }
  destruct (match max_cycles with Some _ => _ | None => _ end) as [c| |]; [|done|done].
  destruct (u32_next_power_of_two expected); [|done]. destruct (_ <? _); [done|].
  destruct (_ =? _); [done|].
  injection Ho as <-. split; cbn; [by apply Hc|by vm_compute..].
Qed.

(** ** Construction *)

(** [FastProcessor::new_with_options], for the stack inputs as their 16
    elements. *)
Definition new_with_options `{Poseidon2} {D : Type} (stack_inputs : list Felt)
    (default_store : MerkleStore) (advice_stack : list Felt) (advice_map : AdviceMap)
    (advice_store : MerkleStore) (options : ExecutionOptions) (d : D) :
    res AdviceError (FastProcessor D) :=
  match fast_stack_new stack_inputs (eo_max_stack_depth options) with
  | None => Panic
  | Some stk => proc_new stk default_store advice_stack advice_map advice_store
                  (eo_max_advice_size_bytes options) (eo_max_memory_elements options) d
  end.

(** An expected number of cycles above [2^31] is not reported as an error. *)
Lemma options_new_overflow expected fragment : 2 ^ 31 < expected -> options_new None expected fragment = Panic.
Proof.
  intros He. unfold options_new, u32_next_power_of_two. rewrite (proj2 (Z.leb_gt expected 1)) by lia.
  assert (31 < Z.log2_up expected) as Hl by (by apply Z.log2_up_lt_pow2; lia).
  assert (2 ^ 32 <= 2 ^ Z.log2_up expected) as Hp by (apply Z.pow_le_mono_r; lia).
  unfold U32_MAX. by rewrite (proj2 (Z.leb_gt _ _)) by lia.
Qed.

(** ** The view of the execution loops *)

(** The elements of the active context, top first. *)
Class StackView (Stk : Type) := stack_contents : Stk -> option (list Felt).

#[export] Instance fast_stack_view : StackView FastStack := fun s =>
  reverse <$> slice (stack_bot_idx s) (stack_top_idx s) (stack s).

#[export] Instance spec_stack_view : StackView SpecStack := fun s => mapM id (sp_cells s).

Section View.
Context `{Poseidon2} {Stk D : Type} `{StackView Stk} (options : ExecutionOptions).

#[export] Instance proc_view : ProcessorView (Proc Stk D) := {|
  view_clk := p_clk;
  view_max_cycles _ := eo_max_cycles options;
  view_max_num_continuations _ := Z.to_nat (eo_max_num_continuations options);
  view_stack p := stack_contents (p_stack p);
  view_extend_map m := on_advice (extend_map m)
|}.

End View.

Lemma mapM_id_lookup {A} (l : list (option A)) r : mapM id l = Some r ->
  length r = length l /\ forall i, r !! i = l !! i ≫= id.
Proof.
  intros Hl. apply mapM_Some_1 in Hl. split; [by apply Forall2_length in Hl|]. intros i.
  destruct (r !! i) as [y|] eqn:Hy.
  - by destruct (Forall2_lookup_r _ _ _ _ _ Hl Hy) as (x & -> & Hx).
  - destruct (l !! i) as [x|] eqn:Hx; [|done].
    destruct (Forall2_lookup_l _ _ _ _ _ Hl Hx) as (y & Hy' & _). congruence.
Qed.

(** The buffer shows the abstract contents. *)
Lemma stack_contents_rel s t l : stack_rel s t -> stack_contents t = Some l -> stack_contents s = Some l.
Proof.
  intros [Hd Hm Ht _ Hc _ _ _ _ _ _] Hl. apply mapM_id_lookup in Hl as [Hlen Hl].
  unfold stack_contents, fast_stack_view.
  destruct (slice_Some (stack_bot_idx s) (stack_top_idx s) (stack s)) as (r & -> & Hr & Hri); [lia|].
  cbn. f_equal. apply list_eq. intros i. destruct (decide (i < length l)%nat) as [Hi|Hi].
  - destruct (lookup_lt_is_Some_2 l i Hi) as [x Hx]. rewrite Hx. rewrite Hl in Hx.
    destruct (sp_cells t !! i) as [[y|]|] eqn:Hy; [|done|done]. cbn in Hx. injection Hx as <-.
    rewrite reverse_lookup by (rewrite Hr; lia).
    rewrite Hri, Hr, decide_True by lia. rewrite <- (Hc _ _ Hy). f_equal. lia.
  - rewrite (lookup_ge_None_2 l), (lookup_ge_None_2 (reverse r)); [done| |lia].
    rewrite length_reverse, Hr. lia.
Qed.

#[export] Instance fast_spec_view `{Poseidon2} {D : Type} `{DeferredInterface D} options :
  ViewSim (proc_rel (D := D)) (V1 := proc_view options) (V2 := proc_view options).
Proof.
  split; cbn; try done.
  - by intros p1 p2 [].
  - intros p1 p2 l [Hs _ _ _ _ _ _ _]. by apply stack_contents_rel.
  - intros m. apply sim_on_advice.
Qed.
