(* ===== verification/SysEvents.v ===== *)
(** * System events

    The events the processor itself handles when a program emits them
    (core/src/events/sys_events.rs, processor/src/fast/basic_block): they read
    the operand stack and memory and change the advice provider or the deferred
    state.  All other events go to the host, which sees a view of the processor
    and answers with advice mutations.

    What the handlers need of the deferred state is [DeferredEvents]; the
    inverse in the extension field is library code ([QuadInverse]). *)

From S2P Require Import Prelude Felt AdviceMap Quad AceCircuit Machine Exec Memory Merkle Deferred.
From S2P Require Import Advice FastStack FastProcessor ProcView.

(** ** The events *)

Inductive SystemEvent :=
| MerkleNodeMerge | MerkleNodeToStack | MapValueToStack | MapValueCountToStack | MapValueToStackN0
| MapValueToStackN4 | MapValueToStackN8 | HasMapKey | Ext2Inv | U32Clz | U32Ctz | U32Clo | U32Cto
| ILog2 | MemToMap | HdwordToMap | HdwordToMapWithDomain | HqwordToMap | HpermToMap
| DeferredRegister | DeferredEvaluate | DeferredEvaluateTag | DeferredEvaluatePayload
| DeferredRegisterData | TraceEvent.

#[export] Instance system_event_eq_dec : EqDecision SystemEvent.
Proof. solve_decision. Defined.

Definition LOOKUP : list (Z * SystemEvent) := [
  (7243907139105902342, MerkleNodeMerge);
  (6873007751276594108, MerkleNodeToStack);
  (17843484659000820118, MapValueToStack);
  (3470274154276391308, MapValueCountToStack);
  (11775886982554463322, MapValueToStackN0);
  (3443305460233942990, MapValueToStackN4);
  (1741586542981559489, MapValueToStackN8);
  (5642583036089175977, HasMapKey);
  (9660728691489438960, Ext2Inv);
  (1503707361178382932, U32Clz);
  (10656887096526143429, U32Ctz);
  (12846584985739176048, U32Clo);
  (6773574803673468616, U32Cto);
  (7444351342957461231, ILog2);
  (5768534446586058686, MemToMap);
  (5988159172915333521, HdwordToMap);
  (6143777601072385586, HdwordToMapWithDomain);
  (11723176702659679401, HqwordToMap);
  (6190830263511605775, HpermToMap);
  (3200266522440553751, DeferredRegister);
  (12566028600487412345, DeferredEvaluate);
  (15463062559264590613, DeferredEvaluateTag);
  (8091749904895009326, DeferredEvaluatePayload);
  (13021247594355482329, DeferredRegisterData);
  (1768618069850226410, TraceEvent) ].

(** [EventId::from_u64] reduces modulo the field order. *)
Definition event_id_from_u64 (id : Z) : Z := id mod ORDER.

Fixpoint lookup_event (event_id : Z) (l : list (Z * SystemEvent)) : option SystemEvent :=
  match l with
  | [] => None
  | (id, event) :: l =>
      if event_id_from_u64 id =? event_id then Some event else lookup_event event_id l
  end.

Definition from_event_id (event_id : Felt) : option SystemEvent := lookup_event ⟦event_id⟧ LOOKUP.

(** ** Bit counts of [u32] *)

Definition leading_zeros (x : Z) : Z := if x =? 0 then 32 else 31 - Z.log2 x.

Fixpoint count_trailing (n : nat) (x : Z) : Z :=
  match n with
  | O => 0
  | S n => if Z.odd x then 0 else 1 + count_trailing n (x / 2)
  end.
Definition trailing_zeros (x : Z) : Z := count_trailing 32 x.

(** [!x] in [u32]. *)
Definition not32 (x : Z) : Z := U32_MAX - x.
Definition leading_ones (x : Z) : Z := leading_zeros (not32 x).
Definition trailing_ones (x : Z) : Z := trailing_zeros (not32 x).

(** ** Reads below the sixteenth element *)

Class StackSafeRead (Stk : Type) := stack_get_word_safe : nat -> PM Stk Word.

(** [stack_get_word_safe]: what lies below the buffer reads as [ZERO]. *)
Definition fs_get_word_safe (start_idx : nat) : PM FastStack Word :=
  fun s =>
    let buf_end := (stack_top_idx s - start_idx)%nat in
    let buf_start := (stack_top_idx s - (start_idx + 4))%nat in
    let n := (buf_end - buf_start)%nat in
    match (r ← slice buf_start (buf_start + n) (stack s);
           word_of_list (reverse (replicate (4 - n) ZERO ++ r))) with
    | Some w => (Ok w, s)
    | None => (Panic, s)
    end.

Definition cell_get_safe (l : list (option Felt)) (i : nat) : option Felt := default (Some ZERO) (l !! i).

(** What lies below the stack reads as [ZERO]. *)
Definition sp_get_word_safe (i : nat) : PM SpecStack Word :=
  fun s =>
    match mapM (cell_get_safe (sp_cells s)) [i; i + 1; i + 2; i + 3]%nat ≫= word_of_list with
    | Some w => (Ok w, s)
    | None => (Panic, s)
    end.

#[export] Instance fast_safe_read : StackSafeRead FastStack := fs_get_word_safe.
#[export] Instance spec_safe_read : StackSafeRead SpecStack := sp_get_word_safe.

(** ** The interfaces of the handlers *)

Class DeferredEvents (D : Type) := {
  de_decode : Tag -> D -> res PrecompileError NodeType;
  de_register : Node -> D -> res PrecompileError Word * D;
  de_evaluate_digest : Word -> D -> res PrecompileError Word * D;
  de_get_node : Word -> D -> option Node
}.

(** They report failures as errors. *)
Class DeferredEventsLaws (D : Type) `{DeferredEvents D} : Prop := {
  de_decode_no_panic t d : de_decode t d <> Panic;
  de_register_no_panic n d : fst (de_register n d) <> Panic;
  de_evaluate_no_panic x d : fst (de_evaluate_digest x d) <> Panic
}.

(** What a host sees of the processor.  The elements of the active context are
    top first; reads below them give [ZERO]. *)
Record ProcessorState (D : Type) := mkProcessorState {
  ps_stack : list Felt;
  ps_clk : Z;
  ps_ctx : Z;
  ps_memory : Memory;
  ps_advice : AdviceProvider;
  ps_deferred : D
}.
Arguments mkProcessorState {D}.

(** The host's side of [SyncHost]; [None] and [false] are errors of the
    handler. *)
Class EventHost (H D F : Type) := {
  host_get_mast_forest : H -> Word -> option F;
  on_event : ProcessorState D -> H -> option (list AdviceMutation) * H;
  on_trace : ProcessorState D -> H -> bool * H
}.

Section Handlers.
Context `{G : Goldilocks} `{QI : QuadInverse} `{PO : Poseidon2}.
Context {Stk D : Type} `{SI : StackInterface Stk} `{SR : StackSafeRead Stk} `{DE : DeferredEvents D}.

Notation P := (Proc Stk D).

(** Shared reads of the processor's fields. *)
Definition get_at (i : nat) : PM P Felt := on_stack (stack_get i).
Definition get_word_at (i : nat) : PM P Word := on_stack (stack_get_word i).
Definition get_word_safe_at (i : nat) : PM P Word := on_stack (stack_get_word_safe i).

Definition on_deferred {A} (m : M PrecompileError D A) : PM P A := zoom p_deferred put_deferred EDeferred m.

(** [map_err(PrecompileError::from)?]. *)
Definition node_or_fail (r : res DeferredError Node) : PM P Node :=
  match r with Ok n => ret n | Err e => fail (EDeferred (OtherDeferred e)) | Panic => panic end.

Definition decode_tag (t : Tag) : PM P NodeType := on_deferred (fun d => (de_decode t d, d)).

(** ** Advice map *)

Definition contains_map_key (key : Word) : AP bool := gets (fun a => bool_decide (is_Some (ap_map a !! key))).
Definition get_mapped_values (key : Word) : AP (option (list Felt)) := gets (fun a => ap_map a !! key).

(** The elements [memory[start..end]]. *)
Definition read_range (m : Memory) (ctx start_addr end_addr : Z) : list Felt :=
  (fun addr => default ZERO (read_element_impl m ctx addr)) <$> seqZ start_addr (end_addr - start_addr).

Definition insert_mem_values_into_adv_map : PM P unit :=
  let! start_felt := get_at 5 in
  let! end_felt := get_at 6 in
  let start_addr := ⟦start_felt⟧ in
  let end_addr := ⟦end_felt⟧ in
  if U32_MAX <? start_addr then fail (EMemory (AddressOutOfBounds start_addr)) else
  if U32_MAX <? end_addr then fail (EMemory (AddressOutOfBounds end_addr)) else
  if end_addr <? start_addr then fail (EMemory (InvalidMemoryRange start_addr end_addr)) else
  let! key := get_word_at 1 in
  let! present := on_advice (contains_map_key key) in
  do! (if present then ret tt else on_advice (check_map_value_allocation (end_addr - start_addr)));
  let! ctx := gets p_ctx in
  let! m := gets p_memory in
  on_advice (insert_into_map key (read_range m ctx start_addr end_addr)).

Definition insert_hdword_into_adv_map (domain : Felt) : PM P unit :=
  let! a := get_word_at 1 in
  let! b := get_word_at 5 in
  let key := merge_in_domain a b domain in
  on_advice (insert_into_map key (into_elements a ++ into_elements b)).

Definition insert_hqword_into_adv_map : PM P unit :=
  let! a := get_word_at 1 in
  let! b := get_word_at 5 in
  let! c := get_word_at 9 in
  let! d := get_word_safe_at 13 in
  let values := into_elements a ++ into_elements b ++ into_elements c ++ into_elements d in
  on_advice (insert_into_map (hash_elements values) values).

(** The twelve [stack_get]s read three words. *)
Definition insert_hperm_into_adv_map : PM P unit :=
  let! a := get_word_at 1 in
  let! b := get_word_at 5 in
  let! c := get_word_at 9 in
  let key := hs_rate0 (apply_permutation (mkHasherState a b c)) in
  on_advice (insert_into_map key (into_elements a ++ into_elements b)).

Definition copy_map_value_to_adv_stack (include_len : bool) (pad_to : Z) : PM P unit :=
  let! key := get_word_at 1 in
  on_advice (push_from_map key include_len pad_to).

Definition copy_map_value_length_to_adv_stack : PM P unit :=
  let! key := get_word_at 1 in
  let! values := on_advice (get_mapped_values key) in
  let! values := ok_or values (EAdvice (MapKeyNotFound key)) in
  on_advice (push_stack (new_unchecked (Z.of_nat (length values)))).

Definition push_key_presence_flag : PM P unit :=
  let! key := get_word_at 1 in
  let! present := on_advice (contains_map_key key) in
  on_advice (push_stack (from_bool present)).

(** ** Merkle store *)

Definition merge_merkle_nodes : PM P unit :=
  let! lhs := get_word_at 1 in
  let! rhs := get_word_at 5 in
  do! on_advice (adv_merge_roots lhs rhs);
  ret tt.

Definition copy_merkle_node_to_adv_stack : PM P unit :=
  let! depth := get_at 1 in
  let! index := get_at 2 in
  let! root := get_word_at 3 in
  let! node := on_advice (get_tree_node root depth index) in
  on_advice (push_stack_word node).

(** ** Arithmetic hints *)

Definition push_ext2_inv_result : PM P unit :=
  let! coef0 := get_at 1 in
  let! coef1 := get_at 2 in
  let element := mkQuad coef0 coef1 in
  if decide (element = QUAD_ZERO) then fail (EOperation DivideByZero) else
  let! result := expect (q_inverse element) in
  do! on_advice (push_stack (q0 result));
  on_advice (push_stack (q1 result)).

Definition push_transformed_stack_top (f : Z -> Felt) : PM P unit :=
  let! stack_top := get_at 1 in
  if U32_MAX <? ⟦stack_top⟧ then fail (EOperation (NotU32Values [stack_top])) else
  on_advice (push_stack (f ⟦stack_top⟧)).

Definition push_ilog2 : PM P unit :=
  let! n := get_at 1 in
  if ⟦n⟧ =? 0 then fail (EOperation LogArgumentZero) else
  on_advice (push_stack (from_u32 (Z.log2 ⟦n⟧))).

(** ** Deferred statements *)

Definition handle_deferred_register : PM P unit :=
  let! lo := get_word_at 1 in
  let! hi := get_word_at 5 in
  let! tag_word := get_word_at 9 in
  let tag := from_word tag_word in
  let block := mkChunk lo hi in
  let! node_type := decode_tag tag in
  let! node :=
    match node_type with
    | TyData => node_or_fail (if decide (tag = Tag_CHUNKS) then node_chunks [block] else node_value tag block)
    | TyJoin => node_or_fail (node_join tag lo hi)
    | TyPairList => node_or_fail (node_try_pair_list tag [(lo, hi)])
    | TyTrue => fail (EDeferred InvalidNode)
    end in
  do! on_deferred (de_register node);
  ret tt.

Definition evaluate_canonical_node : PM P Node :=
  let! digest := get_word_at 1 in
  let! canonical_digest := on_deferred (de_evaluate_digest digest) in
  let! d := gets p_deferred in
  ok_or (de_get_node canonical_digest d) (EDeferred MissingNode).

Definition push_evaluated_tag (n : Node) : PM P unit := on_advice (push_stack_word (as_word (node_tag n))).

Fixpoint push_chunks (l : list DataChunk) : PM P unit :=
  match l with
  | [] => ret tt
  | chunk :: l =>
      do! on_advice (push_stack_word (chunk_lo chunk));
      do! on_advice (push_stack_word (chunk_hi chunk));
      push_chunks l
  end.

Definition push_evaluated_payload (n : Node) : PM P unit := push_chunks (reverse (as_chunks (node_payload n))).

Definition handle_deferred_evaluate : PM P unit :=
  let! n := evaluate_canonical_node in
  do! push_evaluated_payload n;
  push_evaluated_tag n.

Definition handle_deferred_evaluate_tag : PM P unit :=
  let! n := evaluate_canonical_node in
  push_evaluated_tag n.

Definition handle_deferred_evaluate_payload : PM P unit :=
  let! n := evaluate_canonical_node in
  push_evaluated_payload n.

Definition payload_node_num_elements (n_blocks : Z) : Z :=
  default USIZE_MAX (e ← checked_mul n_blocks 8; checked_add e 4).

(** The chunk at [base]; the range was checked, so that [base + 7] is a [u32]. *)
Definition read_chunk (m : Memory) (ctx base : Z) : DataChunk :=
  let at_ i := default ZERO (read_element_impl m ctx (base + i)) in
  mkChunk (mkWord (at_ 0) (at_ 1) (at_ 2) (at_ 3)) (mkWord (at_ 4) (at_ 5) (at_ 6) (at_ 7)).

Definition handle_deferred_register_data : PM P unit :=
  let! tag_word := get_word_at 1 in
  let tag := from_word tag_word in
  let! ptr_felt := get_at 5 in
  let! n_chunks_felt := get_at 6 in
  let ptr := ⟦ptr_felt⟧ in
  let n := ⟦n_chunks_felt⟧ in
  if U32_MAX <? n then fail (EDeferred InvalidNode) else
  if n =? 0 then fail (EDeferred InvalidNode) else
  let! node_type := decode_tag tag in
  if negb (match node_type with TyData | TyPairList => true | TyJoin => n =? 1 | TyTrue => false end)
  then fail (EDeferred InvalidNode) else
  let num_elements := payload_node_num_elements n in
  if MAX_DEFERRED_ELEMENTS <? num_elements
  then fail (EDeferred (OtherDeferred (DeferredStateTooLarge num_elements MAX_DEFERRED_ELEMENTS))) else
  if U32_MAX <? ptr then fail (EMemory (AddressOutOfBounds ptr)) else
  let! ctx := gets p_ctx in
  if negb (ptr mod 4 =? 0) then fail (EMemory (UnalignedWordAccess ptr ctx)) else
  let! end_ := ok_or (checked_add ptr (8 * n)) (EMemory (AddressOutOfBounds U64_MAX)) in
  if U32_MAX <? end_ then fail (EMemory (AddressOutOfBounds end_)) else
  let! m := gets p_memory in
  let chunks := (fun k => read_chunk m ctx (ptr + k * 8)) <$> seqZ 0 n in
  let! node :=
    match node_type with
    | TyData => node_or_fail (if decide (tag = Tag_CHUNKS) then node_chunks chunks else node_try_data tag chunks)
    | TyJoin =>
        match chunks with
        | block :: _ => node_or_fail (node_join tag (chunk_lo block) (chunk_hi block))
        | [] => fail (EDeferred InvalidNode)
        end
    | TyPairList => node_or_fail (node_try_pair_list_chunks tag chunks)
    | TyTrue => panic
    end in
  do! on_deferred (de_register node);
  ret tt.

(** ** Dispatch *)

Definition handle_system_event (system_event : SystemEvent) : PM P unit :=
  match system_event with
  | MerkleNodeMerge => merge_merkle_nodes
  | MerkleNodeToStack => copy_merkle_node_to_adv_stack
  | MapValueToStack => copy_map_value_to_adv_stack false 0
  | MapValueCountToStack => copy_map_value_length_to_adv_stack
  | MapValueToStackN0 => copy_map_value_to_adv_stack true 0
  | MapValueToStackN4 => copy_map_value_to_adv_stack true 4
  | MapValueToStackN8 => copy_map_value_to_adv_stack true 8
  | HasMapKey => push_key_presence_flag
  | Ext2Inv => push_ext2_inv_result
  | U32Clz => push_transformed_stack_top (fun x => from_u32 (leading_zeros x))
  | U32Ctz => push_transformed_stack_top (fun x => from_u32 (trailing_zeros x))
  | U32Clo => push_transformed_stack_top (fun x => from_u32 (leading_ones x))
  | U32Cto => push_transformed_stack_top (fun x => from_u32 (trailing_ones x))
  | ILog2 => push_ilog2
  | MemToMap => insert_mem_values_into_adv_map
  | HdwordToMap => insert_hdword_into_adv_map ZERO
  | HdwordToMapWithDomain => let! domain := get_at 9 in insert_hdword_into_adv_map domain
  | HqwordToMap => insert_hqword_into_adv_map
  | HpermToMap => insert_hperm_into_adv_map
  | DeferredRegister => handle_deferred_register
  | DeferredEvaluate => handle_deferred_evaluate
  | DeferredEvaluateTag => handle_deferred_evaluate_tag
  | DeferredEvaluatePayload => handle_deferred_evaluate_payload
  | DeferredRegisterData => handle_deferred_register_data
  | TraceEvent => ret tt
  end.

(** ** Emitting an event *)

Context `{SV : StackView Stk} {F H : Type} `{EH : EventHost H D F}.

Definition on_fst {A} (m : PM P A) : M ExecutionError (P * H) A :=
  fun x => let '(r, p) := m (fst x) in (r, (p, snd x)).

Definition on_snd {A} (f : H -> A * H) : M ExecutionError (P * H) A :=
  fun x => let '(a, h) := f (snd x) in (Ok a, (fst x, h)).

(** [FastProcessor::state]. *)
Definition processor_state : PM P (ProcessorState D) :=
  let! p := gets id in
  let! l := expect (stack_contents (p_stack p)) in
  ret (mkProcessorState l (p_clk p) (p_ctx p) (p_memory p) (p_advice p) (p_deferred p)).

Definition apply_host_event_mutations (event_id : Felt) (mutations : option (list AdviceMutation)) : PM P unit :=
  let! mutations := ok_or mutations (EventError event_id) in
  on_advice (apply_mutations mutations).

Definition handle_trace_result (trace_id : Felt) (result : bool) : PM P unit :=
  if result then ret tt else fail (EventError trace_id).

Definition emit_event : M ExecutionError (P * H) unit :=
  let! event_id := on_fst (get_at 0) in
  match from_event_id event_id with
  | Some TraceEvent =>
      let! state := on_fst processor_state in
      let! result := on_snd (on_trace state) in
      let! trace_id := on_fst (get_at 1) in
      on_fst (handle_trace_result trace_id result)
  | Some system_event => on_fst (handle_system_event system_event)
  | None =>
      let! state := on_fst processor_state in
      let! mutations := on_snd (on_event state) in
      on_fst (apply_host_event_mutations event_id mutations)
  end.

#[export] Instance event_sync_host : SyncHost H P F := {|
  get_mast_forest := host_get_mast_forest;
  op_emit_sync _ := emit_event
|}.

End Handlers.
