(* ===== verification/SpecSafe.v ===== *)
(** * The abstract processor does not panic

    A small program logic for handlers over the abstract processor: [safe h m Q]
    runs [m] from a state whose top [h] cells may be unwritten (a push announces
    its cell before writing it) and asks that it does not panic and that [Q]
    holds of the result and of the number of unwritten cells left. *)

From S2P Require Import Prelude Felt AdviceMap Quad Operations AceCircuit Machine StackOps ArithOps.
From S2P Require Import IoOps CryptoOps FriOps ExecuteOp Memory Merkle MerkleTheory Advice.
From S2P Require Import AdviceTheory AdviceAtomic FastStack StackRefine FastProcessor ExecSim.

Section Safe.
Context `{G : Goldilocks} `{GL : !GoldilocksLaws G} `{Q0 : QuadField}.
Context `{Poseidon2} {D : Type} `{DI : DeferredInterface D} `{DL : !DeferredLaws D}.

(** Every cell from position [h] on is written, here and in the callers. *)
Record cells_ok (h : nat) (t : SpecStack) : Prop := {
  co_min : (MIN_STACK_DEPTH <= length (sp_cells t))%nat;
  co_written : forall i, (h <= i < length (sp_cells t))%nat -> exists x, sp_cells t !! i = Some (Some x);
  co_saved : Forall (Forall is_Some) (sp_saved t)
}.

Record proc_ok (h : nat) (p : SpecProcessor D) : Prop := {
  po_cells : cells_ok h (p_stack p);
  po_advice : adv_wf (p_advice p)
}.

Definition safe {A} (h : nat) (m : VM (SpecProcessor D) A) (Q : A -> nat -> Prop) : Prop :=
  forall s, proc_ok h (st_proc s) ->
    match m s with
    | (Ok a, s') => exists h', Q a h' /\ proc_ok h' (st_proc s')
    | (Err _, _) => True
    | (Panic, _) => False
    end.

Lemma safe_bind {A B} h (m : VM (SpecProcessor D) A) (k : A -> VM (SpecProcessor D) B) Q1 Q2 :
  safe h m Q1 -> (forall a h', Q1 a h' -> safe h' (k a) Q2) -> safe h (bind m k) Q2.
Proof.
  intros Hm Hk s Hs. specialize (Hm s Hs). unfold bind.
  destruct (m s) as [[a|e|] s']; [|done|done]. destruct Hm as (h' & HQ & Hs').
  by apply (Hk a h').
Qed.

Lemma safe_ret {A} h (a : A) (Q : A -> nat -> Prop) : Q a h -> safe h (ret a) Q.
Proof. intros HQ s Hs. by exists h. Qed.

Lemma safe_fail {A} h e (Q : A -> nat -> Prop) : safe h (fail e) Q.
Proof. by intros s Hs. Qed.

Lemma safe_trace h e : safe h (trace e) (fun _ h' => h' = h).
Proof. intros s Hs. by exists h. Qed.

Lemma safe_expect {A} h (o : option A) x : o = Some x -> safe h (expect o) (fun a h' => a = x /\ h' = h).
Proof. intros -> s Hs. by exists h. Qed.

(** A method of the processor. *)
Definition psafe {A} (h : nat) (m : PM (SpecProcessor D) A) (Q : A -> nat -> Prop) : Prop :=
  forall p, proc_ok h p ->
    match m p with
    | (Ok a, p') => exists h', Q a h' /\ proc_ok h' p'
    | (Err _, _) => True
    | (Panic, _) => False
    end.

Lemma safe_on_proc {A} h (m : PM (SpecProcessor D) A) Q : psafe h m Q -> safe h (on_proc m) Q.
Proof.
  intros Hm s Hs. specialize (Hm _ Hs). unfold on_proc. by destruct (m (st_proc s)) as [[]].
Qed.

Lemma psafe_bind {A B} h (m : PM (SpecProcessor D) A) (k : A -> PM (SpecProcessor D) B) Q1 Q2 :
  psafe h m Q1 -> (forall a h', Q1 a h' -> psafe h' (k a) Q2) -> psafe h (bind m k) Q2.
Proof.
  intros Hm Hk s Hs. specialize (Hm s Hs). unfold bind.
  destruct (m s) as [[a|e|] s']; [|done|done]. destruct Hm as (h' & HQ & Hs').
  by apply (Hk a h').
Qed.

Lemma psafe_ret {A} h (a : A) (Q : A -> nat -> Prop) : Q a h -> psafe h (ret a) Q.
Proof. intros HQ s Hs. by exists h. Qed.

Lemma psafe_gets {A} h (f : SpecProcessor D -> A) : psafe h (gets f) (fun _ h' => h' = h).
Proof. intros s Hs. by exists h. Qed.

(** ** The stack *)

Lemma stack_safe {A} h (m : PM SpecStack A) Q :
  (forall t, cells_ok h t ->
    match m t with
    | (Ok a, t') => exists h', Q a h' /\ cells_ok h' t'
    | (Err _, _) => True
    | (Panic, _) => False
    end) ->
  psafe h (on_stack m) Q.
Proof.
  intros Hm p [Hc Ha]. specialize (Hm _ Hc). unfold on_stack, zoom.
  destruct (m (p_stack p)) as [[a|e|] t]; [|done|done]. destruct Hm as (h' & HQ & Hc').
  exists h'. split; [done|]. by split.
Qed.

Lemma cells_get h t i : cells_ok h t -> (h <= i < MIN_STACK_DEPTH)%nat ->
  exists x, cell_get (sp_cells t) i = Some x.
Proof.
  intros [Hm Hw _] Hi. destruct (Hw i) as [x Hx]; [lia|]. exists x. unfold cell_get. by rewrite Hx.
Qed.

Lemma safe_get h i : (h <= i < MIN_STACK_DEPTH)%nat -> safe h (get i) (fun _ h' => h' = h).
Proof.
  intros Hi. apply safe_on_proc, stack_safe. intros t Ht. cbn. unfold sp_get.
  destruct (cells_get h t i Ht Hi) as [x ->]. by exists h.
Qed.

Lemma safe_get_word h i : (h <= i)%nat -> (i + 3 < MIN_STACK_DEPTH)%nat ->
  safe h (get_word i) (fun _ h' => h' = h).
Proof.
  intros Hi Hi3. apply safe_on_proc, stack_safe. intros t Ht. cbn. unfold sp_get_word.
  destruct (cells_get h t i Ht) as [x ->]; [lia|].
  destruct (cells_get h t (i + 1) Ht) as [y ->]; [lia|].
  destruct (cells_get h t (i + 2) Ht) as [z ->]; [lia|].
  destruct (cells_get h t (i + 3) Ht) as [w ->]; [lia|]. by exists h.
Qed.

Lemma safe_depth h : safe h (on_proc stack_depth) (fun _ h' => h' = h).
Proof. apply safe_on_proc, stack_safe. intros t Ht. by exists h. Qed.

(** The new hole count after a write at [i]. *)
Definition fill_hole (h i : nat) : nat := if (i =? 0)%nat && (h =? 1)%nat then 0%nat else h.

Lemma safe_set h i x : (i < MIN_STACK_DEPTH)%nat -> safe h (set i x) (fun _ h' => h' = fill_hole h i).
Proof.
  intros Hi. apply safe_on_proc, stack_safe. intros t [Hm Hw Hs]. cbn. unfold sp_set, upd.
  rewrite update_Some by lia. cbn [mbind option_bind]. eexists. split; [done|].
  split; cbn; [by rewrite length_insert| |done]. rewrite length_insert. intros j Hj.
  destruct (decide (i = j)) as [<-|Hne]; [exists x; apply list_lookup_insert_eq; lia|].
  rewrite list_lookup_insert_ne by done. apply Hw. unfold fill_hole in Hj.
  destruct (Nat.eqb_spec i 0), (Nat.eqb_spec h 1); cbn in Hj; lia.
Qed.

Lemma safe_set_word i w : (i + 3 < MIN_STACK_DEPTH)%nat -> safe 0 (set_word i w) (fun _ h' => h' = 0%nat).
Proof.
  intros Hi. apply safe_on_proc, stack_safe. intros t [Hm Hw Hs]. cbn. unfold sp_set_word, upd.
  destruct (copy_at_Some i (Some <$> into_elements w) (sp_cells t)) as (l & -> & Hlen & Hl).
  { rewrite length_fmap. cbn [into_elements length]. lia. }
  cbn [mbind option_bind]. eexists. split; [done|]. split; cbn; [by rewrite Hlen| |done].
  rewrite Hlen. intros j Hj. rewrite Hl. destruct (decide _) as [Hd|]; [|auto].
  rewrite list_lookup_fmap. rewrite length_fmap in Hd.
  destruct (lookup_lt_is_Some_2 (into_elements w) (j - i)) as [x ->]; [lia|]. by exists x.
Qed.

(** Rearrangements: every cell of the result is a cell of the source. *)
Lemma rearrange_ok t l : cells_ok 0 t -> length l = length (sp_cells t) ->
  (forall i, (i < length l)%nat -> exists j, (j < length (sp_cells t))%nat /\ l !! i = sp_cells t !! j) ->
  cells_ok 0 (with_cells t l).
Proof.
  intros [Hm Hw Hs] Hlen Hl. split; cbn; [by rewrite Hlen| |done]. intros i Hi.
  destruct (Hl i) as (j & Hj & ->); [lia|]. apply Hw. lia.
Qed.

Lemma rearrange_safe (f : list (option Felt) -> option (list (option Felt))) :
  (forall l, (MIN_STACK_DEPTH <= length l)%nat -> exists r, f l = Some r /\ length r = length l /\
     forall i, (i < length r)%nat -> exists j, (j < length l)%nat /\ r !! i = l !! j) ->
  psafe 0 (on_stack (upd (fun s => l ← f (sp_cells s); Some (with_cells s l)))) (fun _ h' => h' = 0%nat).
Proof.
  intros Hf. apply stack_safe. intros t Ht. unfold upd.
  destruct (Hf (sp_cells t)) as (r & -> & Hlen & Hr); [apply Ht|]. cbn [mbind option_bind].
  eexists. split; [done|]. by apply rearrange_ok.
Qed.

Lemma safe_swap i j : (i < MIN_STACK_DEPTH)%nat -> (j < MIN_STACK_DEPTH)%nat ->
  safe 0 (swap i j) (fun _ h' => h' = 0%nat).
Proof.
  intros Hi Hj. apply safe_on_proc, (rearrange_safe (list_swap i j)). intros l Hl. unfold list_swap.
  destruct (lookup_lt_is_Some_2 l i) as [x Hx]; [lia|].
  destruct (lookup_lt_is_Some_2 l j) as [y Hy]; [lia|].
  rewrite Hx, Hy. cbn [mbind option_bind]. eexists. split; [done|].
  rewrite !length_insert. split; [done|]. intros k Hk.
  destruct (decide (j = k)) as [<-|].
  { exists i. rewrite list_lookup_insert_eq by (rewrite length_insert; lia). split; [lia|done]. }
  rewrite list_lookup_insert_ne by done. destruct (decide (i = k)) as [<-|].
  { exists j. rewrite list_lookup_insert_eq by lia. split; [lia|done]. }
  rewrite list_lookup_insert_ne by done. by exists k.
Qed.

Lemma safe_swapw_nth n : (1 <= n <= 3)%nat ->
  safe 0 (on_proc (stack_swapw_nth n)) (fun _ h' => h' = 0%nat).
Proof.
  intros Hn. apply safe_on_proc, (rearrange_safe (list_swapw n)). intros l Hl.
  unfold MIN_STACK_DEPTH in Hl. destruct (list_swapw_Some n l) as (r & -> & Hlen & Hr); [lia|lia|].
  exists r. split_and!; [done..|]. intros i Hi. rewrite Hr.
  repeat case_decide; eexists; (split; [|done]); lia.
Qed.

Lemma safe_rotate_left n : (1 <= n <= MIN_STACK_DEPTH)%nat ->
  safe 0 (on_proc (stack_rotate_left n)) (fun _ h' => h' = 0%nat).
Proof.
  intros Hn. apply safe_on_proc, (rearrange_safe (list_movup n)). intros l Hl.
  destruct (list_movup_Some n l) as (r & -> & Hlen & Hr); [lia|].
  exists r. split_and!; [done..|]. intros i Hi. rewrite Hr.
  repeat case_decide; eexists; (split; [|done]); lia.
Qed.

Lemma safe_rotate_right n : (1 <= n <= MIN_STACK_DEPTH)%nat ->
  safe 0 (on_proc (stack_rotate_right n)) (fun _ h' => h' = 0%nat).
Proof.
  intros Hn. apply safe_on_proc, (rearrange_safe (list_movdn n)). intros l Hl.
  destruct (list_movdn_Some n l) as (r & -> & Hlen & Hr); [lia|].
  exists r. split_and!; [done..|]. intros i Hi. rewrite Hr.
  repeat case_decide; eexists; (split; [|done]); lia.
Qed.

Lemma safe_increment_size : safe 0 increment_size (fun _ h' => h' = 1%nat).
Proof.
  apply safe_on_proc, stack_safe. intros t [Hm Hw Hs]. cbn. unfold sp_increment_size.
  destruct (_ <? _); [done|]. exists 1%nat. split; [done|]. split; cbn; [lia| |done].
  intros i Hi. destruct i as [|i]; [lia|]. apply Hw. lia.
Qed.

Lemma safe_decrement_size : safe 0 decrement_size (fun _ h' => h' = 0%nat).
Proof.
  apply safe_on_proc, stack_safe. intros t [Hm Hw Hs]. cbn. exists 0%nat. split; [done|].
  split; cbn; [rewrite list_pop_length by done; lia| |done]. intros i Hi.
  rewrite list_pop_length in Hi by done. rewrite list_pop_lookup by done.
  destruct (decide _); [apply Hw; lia|]. rewrite decide_True by lia. by eexists.
Qed.

(** ** System, memory, advice and hasher *)

Lemma safe_sys {A} h (f : SpecProcessor D -> A) : safe h (on_proc (gets f)) (fun _ h' => h' = h).
Proof. apply safe_on_proc, psafe_gets. Qed.

Lemma zoom_safe {E T A} h (proj : SpecProcessor D -> T) put (inj : E -> ExecutionError) (m : M E T A) :
  (forall p t, proc_ok h p -> proc_ok h (put t p)) ->
  (forall p, proc_ok h p -> fst (m (proj p)) <> Panic) ->
  psafe h (zoom proj put inj m) (fun _ h' => h' = h).
Proof.
  intros Hput Hnp p Hp. specialize (Hnp p Hp). unfold zoom.
  destruct (m (proj p)) as [[a|e|] t]; [|done|done]. exists h. split; [done|]. by apply Hput.
Qed.

Lemma memory_safe {A} h (m : M MemoryError Memory A) : (forall s, fst (m s) <> Panic) ->
  psafe h (on_memory m) (fun _ h' => h' = h).
Proof. intros Hm. apply zoom_safe; [intros p t []; by split|auto]. Qed.

Lemma safe_read_element h c a : psafe h (mem_read_element c a) (fun _ h' => h' = h).
Proof. apply memory_safe. intros s. cbn. rewrite read_element_elem_at. by case_decide. Qed.

Lemma safe_read_word h c a k : psafe h (mem_read_word c a k) (fun _ h' => h' = h).
Proof. apply memory_safe. intros s. cbn. rewrite read_word_elems. by repeat case_decide. Qed.

Lemma safe_write_element h c a x : psafe h (mem_write_element c a x) (fun _ h' => h' = h).
Proof.
  apply memory_safe. intros s. cbn. unfold write_element. pose proof (clean_addr_no_panic a).
  destruct (clean_addr a) as [b| |]; [|done|done]. cbn [split_addr].
  destruct (would_exceed _ _); [done|].
  destruct (word_set_is_Some (default EMPTY_WORD (memory s !! (c, b - b mod 4))) (Z.to_nat (b mod 4)) x)
    as [w ->]; [dlia|done].
Qed.

Lemma safe_write_word h c a k w : psafe h (mem_write_word c a k w) (fun _ h' => h' = h).
Proof.
  apply memory_safe. intros s. cbn. unfold write_word. pose proof (clean_addr_no_panic a).
  destruct (clean_addr a) as [b| |]; [|done|done]. unfold enforce_word_aligned_addr.
  destruct (_ =? _); [|done]. by destruct (would_exceed _ _).
Qed.

Lemma advice_safe {A} h (m : AP A) : keeps adv_wf m -> psafe h (on_advice m) (fun _ h' => h' = h).
Proof.
  intros Hm p [Hc Ha]. specialize (Hm _ Ha). unfold on_advice, zoom.
  destruct (m (p_advice p)) as [[a|e|] t]; destruct Hm as [Hp Ht]; [|done|done].
  exists h. split; [done|]. by split.
Qed.

Lemma pop_stack_keeps : keeps adv_wf pop_stack.
Proof. apply (pop_keeps consume_element); [done|apply consume_element_len]. Qed.
Lemma pop_stack_word_keeps : keeps adv_wf pop_stack_word.
Proof. apply (pop_keeps consume_word); [done|apply consume_word_len]. Qed.
Lemma pop_stack_dword_keeps : keeps adv_wf pop_stack_dword.
Proof.
  intros a Hwf. rewrite pop_stack_dword_alt.
  by apply (pop_keeps consume_dword); [|apply consume_dword_len|].
Qed.

(** A path from the store is never longer than a path can be. *)
Definition short_path (o : option MerklePath) : Prop :=
  exists path, o = Some path /\ Z.of_nat (length path) <= 64.

Lemma get_merkle_path_safe h r d i :
  psafe h (adv_get_merkle_path r d i) (fun o h' => short_path o /\ h' = h).
Proof.
  intros p [Hc Ha]. cbn. unfold on_advice, zoom, get_merkle_path, node_index_of, bind, gets.
  pose proof (from_elements_no_panic d i). destruct (from_elements d i) as [x|e|] eqn:Hx; [|done|done].
  apply from_elements_ok in Hx. cbn [lift_merkle ret].
  pose proof (get_path_no_panic (ap_store (p_advice p)) r x Hx).
  destruct (get_path _ r x) as [proof|e|] eqn:Hp; [|done|done]. cbn.
  apply get_path_length in Hp; [|done]. destruct Hx as [Hd _].
  exists h. split; [split; [|done]; exists (mp_path proof); split; [done|lia]|]. by split.
Qed.

Lemma update_merkle_node_safe h r d i v :
  psafe h (adv_update_merkle_node r d i v) (fun o h' => short_path o /\ h' = h).
Proof.
  intros p [Hc Ha]. cbn. pose proof (update_merkle_node_keeps r d i v _ Ha) as Hk.
  unfold on_advice, zoom, bind.
  destruct (update_merkle_node_cases r d i v _ Ha)
    as [[e Hu]|(x & proof & Hx & Hp & [[_ Hu]|(_ & _ & Hu)])]; rewrite Hu in *; [done| |];
    apply from_elements_ok in Hx; apply get_path_length in Hp; try done;
    destruct Hx as [Hd _]; exists h; (split; [split; [|done]; exists (mp_path proof); split; [done|lia]|]);
    split; [done|apply Hk|done|apply Hk].
Qed.

Lemma compute_root_no_panic path index node : Z.of_nat (length path) <= 64 ->
  compute_root path index node <> Panic.
Proof.
  intros Hl. unfold compute_root, path_depth. rewrite (proj2 (Z.leb_le _ _)) by lia.
  unfold node_index_new. by repeat destruct (_ <? _).
Qed.

Lemma verify_merkle_root_safe h a b o i e : short_path o ->
  psafe h (hash_verify_merkle_root a b o i e) (fun _ h' => h' = h).
Proof.
  intros (path & -> & Hl) p Hp. cbn. unfold verify_merkle_root, bind, expect, ret, verify.
  pose proof (compute_root_no_panic path ⟦i⟧ b Hl).
  destruct (compute_root _ _ _); [|done|done]. destruct (decide _); [|done]. by exists h.
Qed.

Lemma update_merkle_root_safe h a b c o i e : short_path o ->
  psafe h (hash_update_merkle_root a b c o i e) (fun _ h' => h' = h).
Proof.
  intros (path & -> & Hl) p Hp. cbn. unfold update_merkle_root, bind, expect, ret, verify.
  pose proof (compute_root_no_panic path ⟦i⟧ b Hl).
  pose proof (compute_root_no_panic path ⟦i⟧ c Hl).
  destruct (compute_root path ⟦i⟧ b); [|done|done]. destruct (decide _); [|done].
  destruct (compute_root path ⟦i⟧ c); [|done|done]. by exists h.
Qed.

Lemma permute_safe h s : psafe h (hash_permute s) (fun _ h' => h' = h).
Proof. by apply psafe_ret. Qed.

(** ** Circuit evaluation *)

Lemma ace_read_rows_safe h n c k ptr e :
  psafe h (ace_read_rows n c k ptr e) (fun _ h' => h' = h).
Proof.
  revert ptr e. induction n; intros; cbn [ace_read_rows]; [by apply psafe_ret|].
  eapply psafe_bind; [apply safe_read_word|]. cbn. intros w h' ->. apply IHn.
Qed.

Lemma ace_eval_rows_safe h n c ptr e : psafe h (ace_eval_rows n c ptr e) (fun _ h' => h' = h).
Proof.
  revert ptr e. induction n; intros; cbn [ace_eval_rows]; [by apply psafe_ret|].
  eapply psafe_bind; [apply safe_read_element|]. cbn. intros i h' ->.
  unfold do_eval. destruct (decode_instruction i) as [[[l r] o]|]; [|done].
  destruct (wire_bus_read_value _ l) as [[vl b]|]; [|done].
  destruct (wire_bus_read_value _ r) as [[vr b']|]; [|done]. apply IHn.
Qed.

Lemma eval_circuit_impl_safe h c ptr k v n :
  psafe h (eval_circuit_impl c ptr k v n) (fun _ h' => h' = h).
Proof.
  unfold eval_circuit_impl. pose proof (felt_range v). pose proof (felt_range n).
  destruct (Z.ltb_spec MAX_NUM_ACE_WIRES (Z.min U64_MAX (⟦v⟧ + ⟦n⟧))); [done|].
  destruct (Z.eqb_spec (⟦v⟧ mod 2) 0) as [Hv|]; [|done]. destruct (⟦v⟧ =? 0); [done|].
  destruct (⟦n⟧ mod 4 =? 0); [|done]. destruct (⟦n⟧ =? 0); [done|]. cbn [negb orb].
  unfold circuit_evaluation_new.
  change MAX_NUM_ACE_WIRES with 1073741823 in *. change U64_MAX with 18446744073709551615 in *.
  rewrite (proj2 (Z.leb_le _ _)) by dlia.
  cbn [expect]. eapply psafe_bind; [by apply (psafe_ret h _ (fun _ h' => h' = h))|].
  intros e h' ->. eapply psafe_bind; [apply ace_read_rows_safe|]. cbn. intros [ptr' e'] h' ->.
  eapply psafe_bind; [apply ace_eval_rows_safe|]. cbn. intros e'' h' ->.
  destruct (output_value e''); [|done]. destruct (decide _); [by apply psafe_ret|done].
Qed.

(** ** The instruction set *)

Lemma log_deferred_safe h a b : psafe h (sys_log_deferred_statement a b) (fun _ h' => h' = h).
Proof. apply zoom_safe; [intros p t []; by split|]. intros p _. apply log_no_panic. Qed.

Lemma safe_get_double_word i : (i + 7 < MIN_STACK_DEPTH)%nat ->
  safe 0 (get_double_word i) (fun _ h' => h' = 0%nat).
Proof.
  intros Hi. unfold get_double_word.
  do 8 (eapply safe_bind; [apply safe_get; lia|cbn; intros ? ? ->]). by apply safe_ret.
Qed.

Ltac safe_bounds := unfold MIN_STACK_DEPTH, MEM_ADDR_STACK_IDX, ALPHA_ADDR_INDEX, ACC_LOW_INDEX, ACC_HIGH_INDEX,
  SRC_PTR_IDX, DST_PTR_IDX; lia.

Ltac safe_prim :=
  lazymatch goal with
  | |- safe _ (get _) _ => apply safe_get; safe_bounds
  | |- safe _ (get_word _) _ => apply safe_get_word; safe_bounds
  | |- safe _ (get_double_word _) _ => apply safe_get_double_word; safe_bounds
  | |- safe _ (set _ _) _ => apply safe_set; safe_bounds
  | |- safe _ (set_word _ _) _ => apply safe_set_word; safe_bounds
  | |- safe _ (swap _ _) _ => apply safe_swap; safe_bounds
  | |- safe _ increment_size _ => apply safe_increment_size
  | |- safe _ decrement_size _ => apply safe_decrement_size
  | |- safe _ (trace _) _ => apply safe_trace
  | |- safe _ ctx _ => apply safe_sys
  | |- safe _ clock _ => apply safe_sys
  | |- safe _ (on_proc (stack_swapw_nth _)) _ => apply safe_swapw_nth; lia
  | |- safe _ (on_proc (stack_rotate_left _)) _ => apply safe_rotate_left; safe_bounds
  | |- safe _ (on_proc (stack_rotate_right _)) _ => apply safe_rotate_right; safe_bounds
  | |- safe _ (on_proc stack_depth) _ => apply safe_depth
  | |- safe _ (on_proc sys_caller_hash) _ => apply safe_sys
  | |- safe _ (on_proc sys_deferred_root) _ => apply safe_sys
  | |- safe _ (on_proc (sys_log_deferred_statement _ _)) _ => apply safe_on_proc, log_deferred_safe
  | |- safe _ (on_proc (mem_read_element _ _)) _ => apply safe_on_proc, safe_read_element
  | |- safe _ (on_proc (mem_read_word _ _ _)) _ => apply safe_on_proc, safe_read_word
  | |- safe _ (on_proc (mem_write_element _ _ _)) _ => apply safe_on_proc, safe_write_element
  | |- safe _ (on_proc (mem_write_word _ _ _ _)) _ => apply safe_on_proc, safe_write_word
  | |- safe _ (on_proc (hash_permute _)) _ => apply safe_on_proc, permute_safe
  | |- safe _ (on_proc adv_pop_stack) _ => apply safe_on_proc, advice_safe, pop_stack_keeps
  | |- safe _ (on_proc adv_pop_stack_word) _ => apply safe_on_proc, advice_safe, pop_stack_word_keeps
  | |- safe _ (on_proc adv_pop_stack_dword) _ => apply safe_on_proc, advice_safe, pop_stack_dword_keeps
  | |- safe _ (on_proc (adv_get_merkle_path _ _ _)) _ => apply safe_on_proc, get_merkle_path_safe
  | |- safe _ (on_proc (adv_update_merkle_node _ _ _ _)) _ => apply safe_on_proc, update_merkle_node_safe
  | |- safe _ (on_proc (hash_verify_merkle_root _ _ _ _ _)) _ =>
      apply safe_on_proc, verify_merkle_root_safe; assumption
  | |- safe _ (on_proc (hash_update_merkle_root _ _ _ _ _ _)) _ =>
      apply safe_on_proc, update_merkle_root_safe; assumption
  | |- safe _ (on_proc (eval_circuit_impl _ _ _ _ _)) _ => apply safe_on_proc, eval_circuit_impl_safe
  end.

Ltac safe_intro :=
  cbn beta; intros ? ? ?; cbn [fill_hole Nat.eqb andb MEM_ADDR_STACK_IDX ALPHA_ADDR_INDEX ACC_LOW_INDEX ACC_HIGH_INDEX
  SRC_PTR_IDX DST_PTR_IDX] in *; destruct_and?; subst; cbn beta iota.

Ltac safe_step :=
  cbv zeta;
  match goal with
  | |- safe ?h (bind _ _) _ =>
      first [ eapply safe_bind; [safe_prim|safe_intro]
            | apply (safe_bind h _ _ (fun _ h' => h' = h)); [|safe_intro] ]
  | |- safe _ (ret _) _ => apply safe_ret; reflexivity
  | |- safe _ (fail _) _ => apply safe_fail
  | |- safe _ (fail_op _) _ => apply safe_fail
  | |- safe _ (fail_mem _) _ => apply safe_fail
  | |- safe _ (let '(_, _) := ?x in _) _ => destruct x
  | |- safe _ (match ?x with _ => _ end) _ => destruct x eqn:?
  | |- _ => safe_prim
  end.

Ltac safe_auto := repeat safe_step.

Lemma op_inv_safe : safe 0 op_inv (fun _ h' => h' = 0%nat).
Proof.
  unfold op_inv. safe_step. destruct (decide _) as [|Hne]; [apply safe_fail|].
  destruct (gl_inverse_spec _ Hne) as (i & Hi & _). unfold gl_inverse. rewrite Hi.
  eapply safe_bind; [by apply safe_expect|]. safe_intro. safe_auto.
Qed.

Lemma tau_factor_nonzero coset f : get_tau_factor coset = Some f -> f <> ZERO.
Proof.
  unfold get_tau_factor. intros Hf ->.
  repeat destruct (_ =? _) in Hf; simplify_eq; by vm_compute in Hf.
Qed.

Lemma fri_coset_tables coset : 0 <= coset <= 3 ->
  exists i f w, bit_reverse_coset coset = Some i /\ (i < 4)%nat /\
    get_tau_factor coset = Some f /\ get_coset_flags coset = Some w.
Proof.
  intros Hc. assert (coset = 0 \/ coset = 1 \/ coset = 2 \/ coset = 3) as [->|[->|[->| ->]]] by lia;
    (eexists _, _, _; split; [reflexivity|]; split; [lia|]; split; reflexivity).
Qed.

Lemma op_fri_ext2fold4_safe : safe 0 op_fri_ext2fold4 (fun _ h' => h' = 0%nat).
Proof.
  unfold op_fri_ext2fold4.
  apply (safe_bind 0 _ _ (fun l h' => h' = 0%nat /\ exists a b c d, l = [a; b; c; d])).
  { unfold get_query_values. do 2 safe_step. apply safe_ret. split; [done|]. by eexists _, _, _, _. }
  intros l h' (-> & v0 & v1 & v2 & v3 & ->). cbn [reorder_bitrev4].
  eapply safe_bind; [by apply safe_expect|]. safe_intro. safe_step. rename a into coset.
  pose proof (felt_range coset). destruct (Z.ltb_spec 3 ⟦coset⟧); [apply safe_fail|].
  destruct (fri_coset_tables ⟦coset⟧) as (i & f & w & -> & Hi & Hf & ->); [lia|]. rewrite Hf.
  do 2 safe_step. rename a0 into poe. destruct (decide (poe = ZERO)) as [|Hpoe]; [apply safe_fail|].
  do 5 safe_step. eapply safe_bind; [by apply safe_expect|]. safe_intro.
  destruct (lookup_lt_is_Some_2 [v0; v1; v2; v3] i Hi) as [v Hv]. rewrite Hv.
  eapply safe_bind; [by apply safe_expect|]. safe_intro. destruct (decide _); [apply safe_fail|].
  eapply safe_bind; [by apply safe_expect|]. safe_intro.
  assert (Hx : (poe * f)%F <> ZERO).
  { intros [?|?]%felt_integral; [done|]. by eapply tau_factor_nonzero. }
  destruct (gl_inverse_spec _ Hx) as (xi & Hxi & _). unfold gl_inverse. rewrite Hxi.
  eapply safe_bind; [by apply safe_expect|]. safe_intro.
  destruct (compute_evaluation_points _ _), (fold4 _ _ _ _ _ _) as [[? ?] ?].
  eapply safe_bind; [by apply safe_expect|]. safe_intro. safe_auto.
Qed.

(** No instruction panics ([Emit] is not executed by [execute_op]). *)
Lemma execute_op_safe op : op <> Op.Emit -> safe 0 (execute_op op) (fun _ h' => h' = 0%nat).
Proof.
  intros He. destruct op; cbn [execute_op]; try done;
    try apply op_inv_safe; try apply op_fri_ext2fold4_safe; autounfold with ops; safe_auto.
Qed.

End Safe.
