(* ===== verification/ExecSafe.v ===== *)
(** * Program runs of the abstract processor terminate without panicking

    The invariant of the execution loop: the continuations refer to nodes of
    the forest they will run in, every stack cell is written, the advice budget
    is exact and the clock is within its limit.  Popping a continuation keeps
    it, and either advances the clock or brings the next clock cycle closer, so
    the cycle limit bounds every run. *)

From S2P Require Import Prelude Felt AdviceMap Quad Operations OpBatch Mast AceCircuit Machine.
From S2P Require Import StackOps ExecuteOp Control Exec StepTheory Memory Merkle MerkleTheory.
From S2P Require Import Advice AdviceTheory AdviceAtomic FastStack StackRefine FastProcessor.
From S2P Require Import ExecSim ProcView SpecSafe.

(** ** Instructions leave the system registers alone *)

Section Registers.
Context `{G : Goldilocks} `{Q0 : QuadField} `{Poseidon2} {Stk D : Type} `{StackInterface Stk}.
Context `{DeferredInterface D}.

Definition registers (p : Proc Stk D) : Z * Z * Word * list SystemCallState :=
  (p_clk p, p_ctx p, p_caller_hash p, p_call_states p).

(** Equal states with the given registers: simulating oneself along this
    relation is keeping the registers. *)
Definition with_registers r (p q : Proc Stk D) : Prop := p = q /\ registers q = r.

Lemma zoom_registers {E T A} r (proj : Proc Stk D -> T) put (inj : E -> ExecutionError) (m : M E T A) :
  (forall t p, registers (put t p) = registers p) ->
  sim (with_registers r) (zoom proj put inj m) (zoom proj put inj m).
Proof.
  intros Hput p q [-> Hr]. unfold zoom.
  destruct (m (proj q)) as [[a|e|] t]; [| |done]; (eexists; split; [done|]; split; [done|]);
    by rewrite Hput.
Qed.

Lemma gets_registers {E A} r (f : Proc Stk D -> A) : sim (E := E) (with_registers r) (gets f) (gets f).
Proof. apply sim_gets. by intros p q [-> _]. Qed.

#[export] Instance operation_registers r : OperationSim (with_registers r).
Proof.
  split; intros; cbn; try (by apply zoom_registers); try apply gets_registers;
    unfold permute, verify_merkle_root, update_merkle_root; sim_auto; by apply zoom_registers.
Qed.

Lemma execute_op_registers op s : match execute_op op s with
  | (Panic, _) => True
  | (_, s') => registers (st_proc s') = registers (st_proc s)
  end.
Proof.
  pose proof (execute_op_sim (with_registers (registers (st_proc s))) op s s) as Hsim.
  destruct (execute_op op s) as [[a|e|] s']; [| |done];
    destruct Hsim as (s1 & [= <-] & [_ Hr] & _); done.
Qed.

End Registers.

(** ** Well-formed forests and continuation stacks *)

Section Conts.
Context {F : Type} `{EF : ExecutableMastForest F}.

Definition is_node (f : F) (id : MastNodeId) : Prop := is_Some (get_node_by_id f id).

(** The children of a node are nodes, and so is a procedure root. *)
Record forest_ok (f : F) : Prop := {
  fo_children id n : get_node_by_id f id = Some n -> Forall (is_node f) (Mast.children n);
  fo_root d : exists o, find_procedure_root f d = Some o /\ (forall id, o = Some id -> is_node f id)
}.

Definition cont_ok (f : F) (c : Continuation F) : Prop :=
  match c with
  | StartNode id => is_node f id
  | FinishLoop id => exists n, get_node_by_id f id = Some (NLoop n)
  | FinishDyn id => exists n, get_node_by_id f id = Some (NDyn n)
  | ResumeBasicBlock id b _ =>
      exists bb, get_node_by_id f id = Some (NBlock bb) /\ (b < num_op_batches bb)%nat
  | Respan id _ => exists bb, get_node_by_id f id = Some (NBlock bb)
  | FinishJoin _ | FinishSplit _ | FinishCall _ | FinishBasicBlock _ | EnterForest _ => True
  end.

(** Each continuation is read in the forest current when it is popped. *)
Fixpoint conts_ok (f : F) (l : list (Continuation F)) : Prop :=
  match l with
  | [] => True
  | EnterForest f' :: l => forest_ok f' /\ conts_ok f' l
  | c :: l => cont_ok f c /\ conts_ok f l
  end.

(** The continuations left to pop before the clock advances, beyond the one
    that advances it. *)
Fixpoint idle (f : F) (l : list (Continuation F)) : nat :=
  match l with
  | EnterForest f' :: l => S (idle f' l)
  | StartNode id :: _ => match get_node_by_id f id with Some (NExternal _) => 1 | _ => 0 end
  | _ => 0
  end%nat.

End Conts.

Lemma dense_forest_ok (f : MastForest) : forest_wf f -> forest_ok f.
Proof.
  intros [Hn Hr]. split.
  - intros id n Hid. cbn in Hid. apply (Forall_lookup_1 _ _ _ _ Hn) in Hid as [Hc _].
    eapply Forall_impl; [exact Hc|]. intros c Hc'. by apply lookup_lt_is_Some_2.
  - intros d. cbn. destruct (find_root_spec f d (roots f) Hr) as (o & -> & Ho). exists o.
    split; [done|]. intros id ->. destruct Ho as (_ & n & Hid & _). by exists n.
Qed.

(** ** What the tracer and the host promise *)

Class TracerLaws (T P F : Type) `{Tracer T P F} : Prop :=
  finalize_no_panic (p : P) h (f : F) (t : T) : fst (tr_finalize_clock_cycle p h f t) <> Panic.

#[export] Instance noop_tracer_laws {P F : Type} : TracerLaws unit P F.
Proof. done. Qed.

(** The host serves well-formed forests; handling an event reports failures as
    errors and changes the advice provider and the deferred state only. *)
Class HostLaws (H D F : Type) `{ExecutableMastForest F} `{SyncHost H (SpecProcessor D) F} : Prop := {
  hl_forest (h : H) d f : get_mast_forest h d = Some f -> forest_ok f;
  hl_emit (n : nat) (p : SpecProcessor D) (h : H) : proc_ok 0 p ->
    match op_emit_sync n (p, h) with
    | (Ok _, (p', _)) => exists a d, adv_wf a /\ p' = put_deferred d (put_advice a p)
    | (Err _, _) => True
    | (Panic, _) => False
    end
}.

Section Safe.
Context `{G : Goldilocks} `{GL : !GoldilocksLaws G} `{Q0 : QuadField}.
Context `{PO : Poseidon2} {D : Type} `{DI : DeferredInterface D} `{DL : !DeferredLaws D}.
Context {F : Type} `{EF : ExecutableMastForest F} {H T : Type}.
Context `{HH : SyncHost H (SpecProcessor D) F} `{HL : !HostLaws H D F}.
Context `{TT : Tracer T (SpecProcessor D) F} `{TL : !TracerLaws T (SpecProcessor D) F}.
Context (options : ExecutionOptions) (Hopt : options_ok options) (kernel : KernelDescriptor).

Notation P := (SpecProcessor D).
Notation X := (XState P F H T).
Notation BM A := (M (BreakReason F) X A).
Notation XM A := (M (InternalBreakReason F) X A).
Notation max := (eo_max_cycles options).

#[local] Instance view : ProcessorView P := proc_view options.
Notation never := (NeverStopper : Stopper P F).

(** ** A program logic for the loop *)

Definition hoare {E A} (Pre : X -> Prop) (m : M E X A) (Post : A -> X -> Prop)
    (Exc : E -> X -> Prop) : Prop :=
  forall x, Pre x ->
    match m x with
    | (Ok a, y) => Post a y
    | (Err e, y) => Exc e y
    | (Panic, _) => False
    end.

(** The handlers that return [ControlFlow<BreakReason>] only break with an
    error: the never-stopper does not stop. *)
Definition is_error (b : BreakReason F) (_ : X) : Prop := exists e, b = BreakErr e.
Notation bsafe Pre m Post := (hoare Pre m Post is_error).

Lemma hoare_bind {E A B} Pre (m : M E X A) (k : A -> M E X B) Mid Post Exc :
  hoare Pre m Mid Exc -> (forall a, hoare (Mid a) (k a) Post Exc) -> hoare Pre (bind m k) Post Exc.
Proof.
  intros Hm Hk x Hx. specialize (Hm x Hx). unfold bind.
  destruct (m x) as [[a|e|] y]; [by apply Hk|done|done].
Qed.

Lemma hoare_ret {E A} Pre (a : A) (Exc : E -> X -> Prop) : hoare Pre (ret a) (fun _ => Pre) Exc.
Proof. by intros x Hx. Qed.

Lemma hoare_post {E A} Pre (m : M E X A) (Q1 Q2 : A -> X -> Prop) Exc :
  hoare Pre m Q1 Exc -> (forall a y, Q1 a y -> Q2 a y) -> hoare Pre m Q2 Exc.
Proof.
  intros Hm HQ x Hx. specialize (Hm x Hx). destruct (m x) as [[a|e|] y]; [by apply HQ|done|done].
Qed.

Lemma hoare_pure {E A} (phi : Prop) Pre (m : M E X A) Post Exc :
  (phi -> hoare Pre m Post Exc) -> hoare (fun x => phi /\ Pre x) m Post Exc.
Proof. intros Hm x [Hphi Hx]. by apply Hm. Qed.

Lemma hoare_expect {E A} Pre (o : option A) a (Exc : E -> X -> Prop) : o = Some a ->
  hoare Pre (expect o) (fun a' x => a' = a /\ Pre x) Exc.
Proof. by intros -> x Hx. Qed.

Lemma bsafe_ok_or {A} Pre (o : option A) e :
  bsafe Pre (ok_or o (BreakErr e)) (fun a x => o = Some a /\ Pre x).
Proof. destruct o; [done|]. intros x Hx. by exists e. Qed.

Lemma bsafe_fail {A} Pre e (Post : A -> X -> Prop) : bsafe Pre (fail_operation e) Post.
Proof. intros x Hx. by eexists. Qed.

Lemma bsafe_bind_fail {A B} Pre e (k : A -> BM B) Post : bsafe Pre (bind (fail_operation e) k) Post.
Proof. intros x Hx. by eexists. Qed.

(** A state, with its clock, forest and continuations. *)
Record st (c : Z) (f : F) (l : list (Continuation F)) (x : X) : Prop := {
  st_ok : proc_ok 0 (x_processor x);
  st_clk : p_clk (x_processor x) = c;
  st_forest : x_forest x = f;
  st_stack : x_stack x = l
}.

Lemma hoare_forest {E} c f l (Exc : E -> X -> Prop) :
  hoare (st c f l) (gets x_forest) (fun f' x => f' = f /\ st c f l x) Exc.
Proof. intros x Hx. split; [apply Hx|done]. Qed.

Lemma hoare_gets {E A} Pre (g : X -> A) (Exc : E -> X -> Prop) :
  hoare Pre (gets g) (fun _ => Pre) Exc.
Proof. by intros x Hx. Qed.

(** The invariant, with a lower bound on the clock. *)
Record inv (c : Z) (x : X) : Prop := {
  iv_ok : proc_ok 0 (x_processor x);
  iv_clk : c <= p_clk (x_processor x) <= max;
  iv_forest : forest_ok (x_forest x);
  iv_stack : conts_ok (x_forest x) (x_stack x)
}.

Lemma st_inv c c' f l x : st c' f l x -> c <= c' <= max -> forest_ok f -> conts_ok f l -> inv c x.
Proof. intros [Hp <- <- <-] Hc Hf Hl. by split. Qed.

(** ** The primitives *)

(** A method that keeps the clock. *)
Definition steady {A} (m : PM P A) : Prop :=
  forall p, proc_ok 0 p ->
    match m p with
    | (Ok _, p') => proc_ok 0 p' /\ p_clk p' = p_clk p
    | (Err _, _) => True
    | (Panic, _) => False
    end.

Lemma bsafe_processor {A} c f l (m : PM P A) : steady m ->
  bsafe (st c f l) (on_processor m) (fun _ => st c f l).
Proof.
  intros Hm x [Hp Hc Hf Hl]. specialize (Hm _ Hp). unfold on_processor.
  destruct (m (x_processor x)) as [[a|e|] p]; [|by eexists|done].
  destruct Hm as [Hp' Hc']. split; cbn; congruence.
Qed.

Lemma steady_operation {A} (m : PM P A) : psafe 0 m (fun _ h => h = 0%nat) ->
  (forall r, sim (with_registers r) m m) -> steady m.
Proof.
  intros Hs Hr p Hp. specialize (Hs p Hp). specialize (Hr (registers p) p p (conj eq_refl eq_refl)).
  destruct (m p) as [[a|e|] p']; [|done|done]. destruct Hs as (h & -> & Hp').
  destruct Hr as (p1 & _ & _ & Hr). by injection Hr.
Qed.

Lemma steady_gets {A} (g : P -> A) : steady (gets g).
Proof. by intros p Hp. Qed.

Lemma steady_get i : (i < MIN_STACK_DEPTH)%nat -> steady (stack_get i).
Proof.
  intros Hi. apply steady_operation; [|intros r; exact (ps_get i)]. intros p Hp.
  pose proof (safe_get 0 i (conj (Nat.le_0_l _) Hi) (mkSt p []) Hp) as Hs. unfold get, on_proc in Hs.
  cbn [st_proc] in Hs. by destruct (stack_get i p) as [[]].
Qed.

Lemma steady_decrement : steady stack_decrement_size.
Proof.
  apply steady_operation; [|intros r; exact ps_decrement_size]. intros p Hp.
  pose proof (safe_decrement_size (mkSt p []) Hp) as Hs. unfold decrement_size, on_proc in Hs.
  cbn [st_proc] in Hs. by destruct (stack_decrement_size p) as [[]].
Qed.

Lemma steady_read_word c a k : steady (mem_read_word c a k).
Proof. apply steady_operation; [apply safe_read_word|intros r; exact (ps_read_word c a k)]. Qed.

Lemma steady_write_element c a x : steady (mem_write_element c a x).
Proof. apply steady_operation; [apply safe_write_element|intros r; exact (ps_write_element c a x)]. Qed.

Lemma steady_stack {A} (m : PM SpecStack A) :
  (forall t, cells_ok 0 t ->
    match m t with (Ok _, t') => cells_ok 0 t' | (Err _, _) => True | (Panic, _) => False end) ->
  steady (on_stack m).
Proof.
  intros Hm p [Hc Ha]. specialize (Hm _ Hc). unfold on_stack, zoom.
  destruct (m (p_stack p)) as [[a|e|] t]; [|done|done]. split; [by split|done].
Qed.

Lemma cells_all_written t : cells_ok 0 t -> Forall is_Some (sp_cells t).
Proof.
  intros [_ Hw _]. apply Forall_lookup. intros i o Hi. apply lookup_lt_Some in Hi as Hlt.
  destruct (Hw i) as [x Hx]; [lia|]. rewrite Hx in Hi. injection Hi as <-. by eexists.
Qed.

Lemma cells_ok_intro l saved m : (MIN_STACK_DEPTH <= length l)%nat -> Forall is_Some l ->
  Forall (Forall is_Some) saved -> cells_ok 0 (mkSpecStack l saved m).
Proof.
  intros Hl Hw Hs. split; cbn; [done| |done]. intros i [_ Hi].
  destruct (lookup_lt_is_Some_2 l i Hi) as [o Ho].
  destruct (Forall_lookup_1 _ _ _ _ Hw Ho) as [x ->]. by exists x.
Qed.

Lemma steady_start_context : steady stack_start_context.
Proof.
  apply steady_stack. intros t Ht. cbn. pose proof (cells_all_written t Ht) as Hw.
  destruct Ht as [Hm _ Hs]. apply cells_ok_intro.
  - rewrite length_take. unfold MIN_STACK_DEPTH in *. lia.
  - by apply Forall_take.
  - constructor; [by apply Forall_drop|done].
Qed.

Lemma steady_restore_context : steady stack_restore_context.
Proof.
  apply steady_stack. intros t Ht. cbn. pose proof (cells_all_written t Ht) as Hw.
  destruct Ht as [Hm _ Hs]. unfold sp_restore_context. destruct (_ <? _)%nat; [done|].
  destruct (sp_saved t) as [|o saved]; [done|]. apply Forall_cons in Hs as [Ho Hs].
  apply cells_ok_intro; [rewrite length_app; lia|by apply Forall_app|done].
Qed.

Lemma steady_modify (g : P -> P) : (forall p, p_stack (g p) = p_stack p) ->
  (forall p, p_advice (g p) = p_advice p) -> (forall p, p_clk (g p) = p_clk p) -> steady (modify g).
Proof. intros Hs Ha Hc p [Hp Hp']. cbn. split; [|done]. split; [by rewrite Hs|by rewrite Ha]. Qed.

Lemma steady_bind {A B} (m : PM P A) (k : A -> PM P B) :
  steady m -> (forall a, steady (k a)) -> steady (bind m k).
Proof.
  intros Hm Hk p Hp. specialize (Hm p Hp). unfold bind.
  destruct (m p) as [[a|e|] p1]; [|done|done]. destruct Hm as [Hp1 <-]. by apply Hk.
Qed.

Lemma steady_save_call_state : steady sys_save_call_state.
Proof. by apply steady_modify. Qed.

Lemma steady_restore_call_state : steady sys_restore_call_state.
Proof.
  apply steady_bind; [apply steady_gets|]. intros [|s rest]; [by intros p Hp|].
  repeat (apply steady_bind; [|intros _]); by apply steady_modify.
Qed.

Lemma bsafe_push c f l k : bsafe (st c f l) (push_continuation k) (fun _ => st c f (k :: l)).
Proof. intros x []. split; cbn; congruence. Qed.

Lemma bsafe_trace c f l g : bsafe (st c f l) (trace_call g) (fun _ => st c f l).
Proof. intros x []. by split. Qed.

Lemma bsafe_start c f l k : bsafe (st c f l) (start_clock_cycle k) (fun _ => st c f l).
Proof. intros x []. by split. Qed.

Lemma bsafe_put_forest c f l f' : bsafe (st c f l) (modify (put_forest f')) (fun _ => st c f' l).
Proof. intros x []. by split. Qed.

Lemma max_cycles_lt : max < U32_MAX.
Proof. destruct Hopt as [Hc _]. assert (MAX_CYCLES < U32_MAX) by done. lia. Qed.

Lemma bsafe_next_ctx c f l : c <= max -> bsafe (st c f l) get_next_ctx_id (fun _ => st c f l).
Proof.
  intros Hc x Hx. pose proof max_cycles_lt. unfold get_next_ctx_id.
  destruct x as [p s f' h t]. rewrite (bind_Ok _ _ _ (p_clk p) (mkX p s f' h t)) by done.
  replace (p_clk p) with c by apply (eq_sym (st_clk _ _ _ _ Hx)).
  destruct (Z.ltb_spec c U32_MAX); [done|lia].
Qed.

Lemma never_cases (p : P) l a :
  (never p l a = Ok tt /\ p_clk p <= max) \/ exists e, never p l a = Err (BreakErr e).
Proof.
  unfold NeverStopper, check_if_max_cycles_exceeded, check_if_continuation_stack_too_large.
  change (view_max_cycles p) with max. change (view_clk p) with (p_clk p).
  destruct (Z.ltb_spec max (p_clk p)); [right; by eexists|].
  destruct (_ <? _)%nat; [right; by eexists|by left].
Qed.

(** A finished cycle: the clock has advanced and is within the limit. *)
Lemma bsafe_finalize c f l after h f' : c <= max ->
  bsafe (st c f l)
    (finalize_clock_cycle_with_continuation_and_op_helpers (SS := never) after h f')
    (fun _ y => c + 1 <= max /\ st (c + 1) f l y).
Proof.
  intros Hc x [Hp Hclk Hf Hl]. pose proof max_cycles_lt.
  unfold finalize_clock_cycle_with_continuation_and_op_helpers, bind.
  pose proof (finalize_no_panic (x_processor x) h f' (x_tracer x)) as Hn.
  destruct (tr_finalize_clock_cycle _ _ _ _) as [[[]|e|] t]; [|by eexists|done].
  unfold on_processor. cbn. unfold increment_clock, bind, gets. cbn. rewrite Hclk.
  destruct (Z.ltb_spec c U32_MAX); [|lia]. cbn. unfold should_stop.
  destruct (never_cases (put_clk (c + 1) (x_processor x)) (x_stack x) after) as [[-> Hm]|[e ->]];
    [|by eexists].
  split; [done|]. destruct Hp. constructor; cbn; [by constructor|done..].
Qed.

Lemma bsafe_finalize_inv c f l after h f' : c <= max -> forest_ok f -> conts_ok f l ->
  bsafe (st c f l)
    (finalize_clock_cycle_with_continuation_and_op_helpers (SS := never) after h f')
    (fun _ => inv (c + 1)).
Proof.
  intros Hc Hf Hl. eapply hoare_post; [by apply bsafe_finalize|]. intros _ y [Hc' Hy].
  by eapply st_inv; [exact Hy|lia|..].
Qed.

Lemma bsafe_option {A} Pre (o : option A) msg :
  bsafe Pre (option_map_break_reason o msg) (fun a x => o = Some a /\ Pre x).
Proof. apply bsafe_ok_or. Qed.

Lemma steady_set_ctx c : steady (sys_set_ctx c).
Proof. by apply steady_modify. Qed.

Lemma steady_set_caller_hash h : steady (sys_set_caller_hash h).
Proof. by apply steady_modify. Qed.

Hint Resolve steady_get steady_decrement steady_read_word steady_write_element steady_start_context
  steady_restore_context steady_save_call_state steady_restore_call_state steady_set_ctx
  steady_set_caller_hash : steady.

Ltac bprim :=
  lazymatch goal with
  | |- hoare _ (on_processor sys_ctx) _ _ => apply bsafe_processor, steady_gets
  | |- hoare _ (on_processor sys_clock) _ _ => apply bsafe_processor, steady_gets
  | |- hoare _ (on_processor (stack_get _)) _ _ =>
      apply bsafe_processor, steady_get; unfold MIN_STACK_DEPTH; lia
  | |- hoare _ (on_processor _) _ _ => apply bsafe_processor; auto with steady nocore
  | |- hoare _ (push_continuation _) _ _ => apply bsafe_push
  | |- hoare _ (record _) _ _ => apply bsafe_trace
  | |- hoare _ (trace_call _) _ _ => apply bsafe_trace
  | |- hoare _ (start_clock_cycle _) _ _ => apply bsafe_start
  | |- hoare _ get_next_ctx_id _ _ => by apply bsafe_next_ctx
  | |- hoare _ (modify (put_forest _)) _ _ => apply bsafe_put_forest
  | |- hoare _ (option_map_break_reason _ _) _ _ => apply bsafe_option
  | |- hoare _ (ret tt) _ _ => apply hoare_ret
  | |- hoare _ (fail_operation _) _ _ => apply bsafe_fail
  end.

Ltac bstep :=
  cbn beta;
  match goal with
  | |- hoare (fun x => ?phi /\ @?Pre x) _ _ _ => apply hoare_pure; intros ?
  | |- hoare _ (if ?b then _ else _) _ _ => destruct b
  | |- hoare _ (bind (if ?b then _ else _) _) _ _ => destruct b
  | |- hoare _ (bind (fail_operation _) _) _ _ => apply bsafe_bind_fail
  | |- hoare _ (bind _ _) _ _ => eapply hoare_bind; [|intros ?]
  | |- _ => bprim
  end.

Ltac bauto := repeat bstep.

Ltac bfinal :=
  lazymatch goal with
  | |- hoare _ (finalize_clock_cycle_with_continuation_and_op_helpers _ _ _) _ _ =>
      apply bsafe_finalize_inv
  | |- hoare _ (finalize_clock_cycle_with_continuation _ _) _ _ => apply bsafe_finalize_inv
  | |- hoare _ (finalize_clock_cycle _) _ _ => apply bsafe_finalize_inv
  end.

(** ** The handlers *)

Section Handlers.
Context (c : Z) (f : F) (l : list (Continuation F)).
Context (Hc : c <= max) (Hf : forest_ok f) (Hl : conts_ok f l).

Lemma child_node id n i : get_node_by_id f id = Some n -> i ∈ Mast.children n -> is_node f i.
Proof. intros Hn Hi. pose proof (fo_children f Hf id n Hn) as Hch. by eapply Forall_forall. Qed.

Lemma start_join_safe n id : get_node_by_id f id = Some (NJoin n) ->
  bsafe (st c f l) (start_join_node (SS := never) n id f) (fun _ => inv (c + 1)).
Proof.
  intros Hn. unfold start_join_node. bauto. bfinal; [done..|]. cbn.
  split_and!; try done; eapply child_node; try done; set_solver.
Qed.

Lemma start_split_safe n id : get_node_by_id f id = Some (NSplit n) ->
  bsafe (st c f l) (start_split_node (SS := never) n id f) (fun _ => inv (c + 1)).
Proof.
  intros Hn. unfold start_split_node. bauto; (bfinal; [done..|]); cbn;
    (split_and!; try done; eapply child_node; try done; set_solver).
Qed.

Lemma start_loop_safe n id : get_node_by_id f id = Some (NLoop n) ->
  bsafe (st c f l) (start_loop_node (SS := never) n id f) (fun _ => inv (c + 1)).
Proof.
  intros Hn. unfold start_loop_node. bauto. bfinal; [done..|]. cbn.
  split_and!; try done; [eapply child_node; try done; set_solver|by eexists].
Qed.

Lemma finish_loop_safe n id : get_node_by_id f id = Some (NLoop n) ->
  bsafe (st c f l) (finish_loop_node (SS := never) id f) (fun _ => inv (c + 1)).
Proof.
  intros Hn. unfold finish_loop_node. do 2 (bstep; [bprim|]). bstep. simplify_eq.
  eapply hoare_bind; [by apply hoare_expect|]. intros ?. bstep. subst.
  bauto; (bfinal; [done..|]); try done.
  cbn. split_and!; try done; [eapply child_node; try done; set_solver|by eexists].
Qed.

Lemma start_call_safe n id : get_node_by_id f id = Some (NCall n) ->
  bsafe (st c f l) (start_call_node (SS := never) kernel n id f) (fun _ => inv (c + 1)).
Proof.
  intros Hn. unfold start_call_node. bauto; (bfinal; [done..|]); cbn;
    (split_and!; try done; eapply child_node; try done; set_solver).
Qed.

Lemma finish_call_safe id :
  bsafe (st c f l) (finish_call_node (SS := never) id f) (fun _ => inv (c + 1)).
Proof. unfold finish_call_node. bauto. by bfinal. Qed.

Lemma finish_dyn_safe n id : get_node_by_id f id = Some (NDyn n) ->
  bsafe (st c f l) (finish_dyn_node (SS := never) id f) (fun _ => inv (c + 1)).
Proof.
  intros Hn. unfold finish_dyn_node. do 2 (bstep; [bprim|]). bstep. simplify_eq.
  eapply hoare_bind; [by apply hoare_expect|]. intros ?. bstep. subst.
  bauto; by bfinal.
Qed.

Lemma finish_block_safe id :
  bsafe (st c f l) (finish_basic_block (SS := never) id f) (fun _ => inv (c + 1)).
Proof. unfold finish_basic_block. bauto. by bfinal. Qed.

End Handlers.

(** ** Breaks *)

(** What holds when the loop breaks: the handler of the break finds the state
    it needs.  [External] is separate: it does not advance the clock. *)
Definition break_ok (c : Z) (r : InternalBreakReason F) (y : X) : Prop :=
  match r with
  | User b => exists e, b = BreakErr e
  | EmitBreak _ k => inv c y /\ conts_ok (x_forest y) (k :: x_stack y)
  | LoadMastForestFromDyn _ => inv c y
  | LoadMastForestFromExternal _ _ => False
  end.
Notation xsafe c Pre m Post := (hoare Pre m Post (break_ok c)).

Lemma xsafe_map_break {A} c Pre (m : BM A) Post : bsafe Pre m Post -> xsafe c Pre (map_break m) Post.
Proof.
  intros Hm x Hx. specialize (Hm x Hx). unfold map_break. by destruct (m x) as [[a|b|] y].
Qed.

Lemma break_ok_mono c c' r y : c' <= c -> break_ok c r y -> break_ok c' r y.
Proof.
  intros Hc. assert (forall y, inv c y -> inv c' y) as Hi by (intros ? [? [] ? ?]; split; try done; lia).
  destruct r; cbn; [done|intros []; auto|auto|done].
Qed.

Lemma xsafe_mono {A} c c' Pre (m : XM A) Post : c' <= c -> xsafe c Pre m Post -> xsafe c' Pre m Post.
Proof.
  intros Hc Hm x Hx. specialize (Hm x Hx).
  destruct (m x) as [[a|r|] y]; [done|by eapply break_ok_mono|done].
Qed.

Ltac xstep :=
  cbn beta;
  lazymatch goal with
  | |- hoare (fun x => ?phi /\ @?Pre x) _ _ _ => apply hoare_pure; intros ?
  | |- hoare _ (map_break _) _ _ => apply xsafe_map_break
  | |- hoare _ (bind _ _) _ _ => eapply hoare_bind; [|intros ?]
  | |- _ => bstep
  end.

Lemma start_dyn_safe c f l n id : c <= max -> forest_ok f -> conts_ok f l ->
  get_node_by_id f id = Some (NDyn n) ->
  xsafe c (st c f l) (start_dyn_node (SS := never) id f) (fun _ => inv (c + 1)).
Proof.
  intros Hc Hf Hl Hn. unfold start_dyn_node. do 2 (xstep; [by repeat xstep|]). xstep. simplify_eq.
  eapply hoare_bind; [by apply hoare_expect|]. intros ?. xstep. subst.
  do 5 (xstep; [by repeat xstep|]). eapply (hoare_bind _ _ _ (fun _ => st c f l)).
  { apply xsafe_map_break. destruct (is_dyncall n); by bauto. }
  intros _. xstep; [by repeat xstep|]. destruct (fo_root f Hf a3) as (o & Ho & Hid).
  eapply hoare_bind; [by apply hoare_expect|]. intros ?. xstep. subst.
  assert (conts_ok f (FinishDyn id :: l)) as Hl' by (cbn; split; [by eexists|done]).
  destruct o as [i|].
  - repeat xstep. bfinal; [done..|]. cbn. split; [by apply Hid|done].
  - intros x Hx. cbn. by eapply st_inv.
Qed.

(** ** Basic blocks *)

Lemma execute_op_steady c f l op : op <> Op.Emit ->
  bsafe (st c f l) (on_handler (execute_op op)) (fun _ => st c f l).
Proof.
  intros He x [Hp Hc Hf Hl]. unfold on_handler.
  pose proof (execute_op_safe op He (mkSt (x_processor x) []) Hp) as Hs.
  pose proof (execute_op_registers op (mkSt (x_processor x) [])) as Hr.
  destruct (execute_op op _) as [[a|e|] s]; [|by eexists|done]. destruct Hs as (h & -> & Hp').
  injection Hr as Hr _ _ _. split; cbn in *; congruence.
Qed.

Section Block.
Context (bb : BasicBlockNode) (id : MastNodeId) (f : F) (l : list (Continuation F)).
Context (Hn : get_node_by_id f id = Some (NBlock bb)) (Hf : forest_ok f) (Hl : conts_ok f l).

(** At some later clock, same forest and continuations. *)
Definition later (c : Z) (y : X) : Prop := exists c', c < c' <= max /\ st c' f l y.

Lemma continuation_after_ok b i batch : op_batches bb !! b = Some batch -> ob_ops batch <> [] ->
  exists k, get_continuation_after_executing_operation bb id b i = Some k /\
    conts_ok f (k :: l).
Proof.
  intros Hb Hops. pose proof (lookup_lt_Some _ _ _ Hb).
  unfold get_continuation_after_executing_operation, num_op_batches. rewrite Hb. cbn [mbind option_bind].
  assert (1 <= length (ob_ops batch))%nat by (destruct (ob_ops batch); cbn; [done|lia]).
  do 2 (rewrite checked_sub_Some by lia; cbn [mbind option_bind]). eexists. split; [done|].
  destruct (_ <? _)%nat; [cbn; split; [|done]; by exists bb|].
  destruct (_ <? _)%nat; cbn; (split; [|done]); [by exists bb|done].
Qed.

Lemma batch_op_safe c b off i op batch : c <= max -> op_batches bb !! b = Some batch ->
  ob_ops batch <> [] ->
  xsafe c (st c f l) (execute_batch_op (SS := never) bb id b off i op f) (fun _ => later c).
Proof.
  intros Hc Hb Hops. destruct (continuation_after_ok b i batch Hb Hops) as (k & Hk & Hok).
  unfold execute_batch_op. rewrite Hk. xstep; [repeat xstep|].
  eapply (hoare_bind _ _ _ (fun _ => st c f l)).
  - assert (op = Op.Emit \/ op <> Op.Emit) as [->|He] by (destruct op; auto).
    + intros x Hx. cbn. split; [by eapply st_inv; [exact Hx|lia|..]|].
      by rewrite (st_forest _ _ _ _ Hx), (st_stack _ _ _ _ Hx).
    + destruct op; try done; by apply xsafe_map_break, execute_op_steady.
  - intros h. apply xsafe_map_break. eapply hoare_post; [by apply bsafe_finalize|].
    intros _ y [? ?]. exists (c + 1). split; [lia|done].
Qed.

(** One block step after another. *)
Lemma later_bind {A} c (m : XM unit) (k : unit -> XM A) Post :
  xsafe c (st c f l) m (fun _ => later c) ->
  (forall c', c < c' <= max -> xsafe c' (st c' f l) (k tt) Post) ->
  xsafe c (st c f l) (bind m k) Post.
Proof.
  intros Hm Hk. eapply hoare_bind; [exact Hm|]. intros [] y (c' & Hc & Hy).
  by apply (xsafe_mono c' c _ _ _ ltac:(lia) (Hk c' Hc)).
Qed.

Lemma later_mono c c' y : c' <= c -> later c y -> later c' y.
Proof. intros Hc (c'' & Hc' & Hy). exists c''. split; [lia|done]. Qed.

(** The same, when nothing may have run. *)
Definition since (c : Z) (y : X) : Prop := exists c', c <= c' <= max /\ st c' f l y.

Lemma op_batch_safe c b i off batch : c <= max -> op_batches bb !! b = Some batch ->
  xsafe c (st c f l) (execute_op_batch (SS := never) bb id b i off f) (fun _ => since c).
Proof.
  intros Hc Hb. unfold execute_op_batch. eapply hoare_bind; [by apply hoare_expect|].
  intros ?. xstep. subst. destruct (decide (ob_ops batch = [])) as [->|Hops].
  { rewrite drop_nil. intros x Hx. exists c. split; [lia|done]. }
  generalize (drop i (ob_ops batch)) as ops. intros ops. revert c i Hc.
  induction ops as [|op ops IH]; intros c i Hc; [intros x Hx; exists c; split; [lia|done]|].
  apply later_bind; [by eapply batch_op_safe|]. intros c' Hc'.
  eapply hoare_post; [apply IH; lia|]. intros _ y (c'' & ? & ?). exists c''. split; [lia|done].
Qed.

Lemma since_bind {A} c (m : XM unit) (k : unit -> XM A) Post :
  xsafe c (st c f l) m (fun _ => since c) ->
  (forall c', c <= c' <= max -> xsafe c' (st c' f l) (k tt) Post) ->
  xsafe c (st c f l) (bind m k) Post.
Proof.
  intros Hm Hk. eapply hoare_bind; [exact Hm|]. intros [] y (c' & Hc & Hy).
  by apply (xsafe_mono c' c _ _ _ ltac:(lia) (Hk c' Hc)).
Qed.

Lemma finalize_later c after h f' : c <= max ->
  xsafe c (st c f l)
    (map_break (finalize_clock_cycle_with_continuation_and_op_helpers (SS := never) after h f'))
    (fun _ => later c).
Proof.
  intros Hc. apply xsafe_map_break. eapply hoare_post; [by apply bsafe_finalize|].
  intros _ y [? ?]. exists (c + 1). split; [lia|done].
Qed.

Lemma inv_mono c c' y : c' <= c -> inv c y -> inv c' y.
Proof. intros Hc []. split; try done. lia. Qed.

Lemma from_batch_safe c b : c <= max ->
  xsafe c (st c f l) (execute_basic_block_node_from_batch (SS := never) bb id b f)
    (fun _ => inv (c + 1)).
Proof.
  unfold execute_basic_block_node_from_batch. generalize (batch_offset bb b) as off.
  remember (drop b (op_batches bb)) as batches eqn:Hd. revert b Hd c.
  induction batches as [|batch batches IH]; intros b Hd c off Hc; cbn [execute_batches].
  { apply xsafe_map_break. by apply finish_block_safe. }
  assert (op_batches bb !! b = Some batch) as Hb.
  { rewrite <- (Nat.add_0_r b), <- lookup_drop, <- Hd. done. }
  assert (batches = drop (S b) (op_batches bb)) as Hd'.
  { rewrite (drop_S _ _ _ Hb) in Hd. by injection Hd. }
  xstep; [repeat xstep|]. apply later_bind; [by apply finalize_later|]. intros c1 Hc1.
  apply since_bind; [eapply op_batch_safe; [lia|done]|]. intros c2 Hc2.
  eapply hoare_post; [apply (IH _ Hd'); lia|]. intros [] y Hy. eapply inv_mono; [|exact Hy]. lia.
Qed.

Lemma from_op_idx_safe c b i : c <= max -> (b < num_op_batches bb)%nat ->
  xsafe c (st c f l) (execute_basic_block_node_from_op_idx (SS := never) bb id b i f)
    (fun _ => inv (c + 1)).
Proof.
  intros Hc Hb. apply lookup_lt_is_Some_2 in Hb as [batch Hb].
  apply since_bind; [by eapply op_batch_safe|]. intros c1 Hc1.
  eapply hoare_post; [apply from_batch_safe; lia|]. intros [] y Hy. eapply inv_mono; [|exact Hy]. lia.
Qed.

Lemma from_start_safe c : c <= max ->
  xsafe c (st c f l) (execute_basic_block_node_from_start (SS := never) bb id f)
    (fun _ => inv (c + 1)).
Proof.
  intros Hc. unfold execute_basic_block_node_from_start. xstep; [repeat xstep|].
  apply later_bind; [by apply finalize_later|]. intros c1 Hc1. apply since_bind.
  - destruct (op_batches bb) as [|batch rest] eqn:Hb; [intros x Hx; exists c1; split; [lia|done]|].
    eapply op_batch_safe; [lia|by rewrite Hb].
  - intros c2 Hc2. eapply hoare_post; [apply from_batch_safe; lia|]. intros [] y Hy.
    eapply inv_mono; [|exact Hy]. lia.
Qed.

End Block.

(** ** One continuation *)

(** The continuations that take a clock cycle. *)
Definition active (f : F) (k : Continuation F) : Prop :=
  match k with
  | EnterForest _ => False
  | StartNode id => forall n, get_node_by_id f id <> Some (NExternal n)
  | _ => True
  end.

Lemma execute_continuation_safe c f l k : c <= max -> forest_ok f -> conts_ok f (k :: l) ->
  active f k ->
  xsafe c (st c f l) (execute_continuation (SS := never) kernel k) (fun _ => inv (c + 1)).
Proof.
  intros Hc Hf Hkl Ha. unfold execute_continuation.
  eapply hoare_bind; [apply hoare_forest|].
  intros ?. xstep. subst.
  destruct k as [id|id|id|id|id|id|id b i|id b|id|f']; destruct Hkl as [Hk Hl]; cbn in Hk.
  - destruct Hk as [n Hn]. eapply hoare_bind; [by apply hoare_expect|]. intros ?. xstep. subst.
    destruct n as [n|n|n|n|n|n|n]; [by apply from_start_safe|xstep|xstep|xstep|xstep| |].
    + by apply start_join_safe.
    + by apply start_split_safe.
    + by apply start_loop_safe.
    + by apply start_call_safe.
    + by eapply start_dyn_safe.
    + by destruct (Ha n).
  - xstep. unfold finish_join_node. bauto. by bfinal.
  - xstep. unfold finish_split_node. bauto. by bfinal.
  - destruct Hk as [n Hn]. xstep. by eapply finish_loop_safe.
  - xstep. by apply finish_call_safe.
  - destruct Hk as [n Hn]. xstep. by eapply finish_dyn_safe.
  - destruct Hk as (bb & Hn & Hb). do 2 (eapply hoare_bind; [by apply hoare_expect|]; intros ?; xstep; subst).
    by apply from_op_idx_safe.
  - destruct Hk as (bb & Hn). do 2 (eapply hoare_bind; [by apply hoare_expect|]; intros ?; xstep; subst).
    by apply from_batch_safe.
  - xstep. by apply finish_block_safe.
  - done.
Qed.

(** ** The handlers of the breaks *)

Lemma st_of_inv c x : inv c x -> exists c' f l,
  st c' f l x /\ c <= c' <= max /\ forest_ok f /\ conts_ok f l.
Proof. intros [Hp Hc Hf Hl]. by exists (p_clk (x_processor x)), (x_forest x), (x_stack x). Qed.

Lemma emit_safe c f l n : bsafe (st c f l) (on_host (op_emit_sync n)) (fun _ => st c f l).
Proof.
  intros x [Hp Hc Hf Hl]. unfold on_host.
  pose proof (hl_emit n (x_processor x) (x_host x) Hp) as He.
  destruct (op_emit_sync n _) as [[a|e|] [p h]]; [|by eexists|done].
  destruct He as (adv & d & Hadv & ->). destruct Hp. by split.
Qed.

Lemma load_safe c f l d :
  bsafe (st c f l) (load_mast_forest_sync d)
    (fun r x => (forest_ok r.2 /\ is_node r.2 r.1) /\ st c f l x).
Proof.
  unfold load_mast_forest_sync. eapply hoare_bind; [apply hoare_gets|]. intros h. cbn beta.
  eapply hoare_bind; [apply bsafe_ok_or|]. intros f'. bstep.
  assert (forest_ok f') as Hf' by (by eapply hl_forest). destruct (fo_root f' Hf' d) as (o & Ho & Hid).
  eapply hoare_bind; [by apply hoare_expect|]. intros ?. bstep. subst.
  eapply hoare_bind; [apply bsafe_ok_or|]. intros i. bstep.
  eapply (hoare_bind _ _ _ (fun _ => st c f l)).
  - apply bsafe_processor. intros p Hp. pose proof (advice_safe 0 _ (extend_map_keeps (forest_advice_map f')) p Hp) as Ha.
    cbn. unfold on_advice, zoom in *. destruct (extend_map _ _) as [[a|e|] adv]; [|done|done].
    destruct Ha as (h' & -> & Ha). done.
  - intros []. intros x Hx. cbn. split; [|done]. split; [done|by apply Hid].
Qed.

Lemma handle_break_safe c r y : break_ok c r y ->
  match handle_break never r y with
  | (Ok _, z) => inv (c + 1) z
  | (Err b, _) => exists e, b = BreakErr e
  | (Panic, _) => False
  end.
Proof.
  destruct r as [b|n k|d|id d]; cbn [break_ok handle_break].
  - intros [e ->]. by exists e.
  - intros [Hi Hk]. apply st_of_inv in Hi as (c' & f & l & Hy & Hc & Hf & Hl).
    rewrite (st_forest _ _ _ _ Hy), (st_stack _ _ _ _ Hy) in Hk. revert y Hy.
    change (bsafe (st c' f l) (handle_break never (EmitBreak n k)) (fun _ => inv (c + 1))).
    cbn [handle_break]. eapply hoare_bind; [apply emit_safe|]. intros [].
    eapply hoare_bind; [apply hoare_gets|]. intros f'. unfold finish_emit_op_execution.
    eapply hoare_bind; [apply bsafe_finalize; lia|]. intros []. bstep.
    eapply hoare_post; [apply bsafe_push|]. intros [] z Hz. eapply st_inv; [exact Hz|lia|done..].
  - intros Hi. apply st_of_inv in Hi as (c' & f & l & Hy & Hc & Hf & Hl). revert y Hy.
    change (bsafe (st c' f l) (handle_break never (LoadMastForestFromDyn d)) (fun _ => inv (c + 1))).
    cbn [handle_break]. eapply hoare_bind; [apply load_safe|]. intros [root f']. bstep.
    destruct_and!. cbn in *. unfold finish_load_mast_forest_from_dyn_start.
    eapply hoare_bind; [apply hoare_forest|].
    intros ?. bstep. subst. do 3 (bstep; [bprim|]). bstep; [apply bsafe_finalize; lia|]. bstep.
    eapply hoare_post; [apply bsafe_trace|]. intros [] z Hz. eapply st_inv; [exact Hz|lia|done|].
    cbn. done.
  - done.
Qed.

(** An external node: its forest is loaded, the clock stands still and the node
    entered is not external. *)
Lemma external_safe c f l id n : c <= max -> forest_ok f -> conts_ok f l ->
  get_node_by_id f id = Some (NExternal n) ->
  bsafe (st c f l) (handle_break never (LoadMastForestFromExternal id (external_digest n)))
    (fun _ y => inv c y /\ idle (x_forest y) (x_stack y) = 0%nat).
Proof.
  intros Hc Hf Hl Hn. cbn [handle_break]. eapply hoare_bind; [apply load_safe|].
  intros [root f']. bstep. destruct_and!. cbn in *. unfold finish_load_mast_forest_from_external.
  eapply hoare_bind; [apply hoare_forest|].
  intros ?. bstep. subst. bstep; [bprim|]. bstep. simplify_eq.
  eapply hoare_bind; [by apply hoare_expect|]. intros ?. bstep. subst. bstep; [bprim|]. bstep.
  match goal with Hr : get_node_by_id f' root = Some ?a |- _ => rename Hr into Hroot, a into node end.
  destruct (is_external node) eqn:He; [apply bsafe_fail|]. do 3 (bstep; [bprim|]).
  eapply hoare_post; [apply bsafe_put_forest|]. intros [] z Hz. split.
  - eapply st_inv; [exact Hz|lia|done|]. cbn. done.
  - rewrite (st_forest _ _ _ _ Hz), (st_stack _ _ _ _ Hz). cbn. rewrite Hroot. by destruct node.
Qed.

(** ** One tick *)

(** The invariant holds again, and either the clock has advanced or the next
    clock cycle is closer. *)
Definition progress (x y : X) : Prop :=
  inv (p_clk (x_processor x)) y /\
  (p_clk (x_processor x) < p_clk (x_processor y) \/
   (idle (x_forest y) (x_stack y) < idle (x_forest x) (x_stack x))%nat).

Lemma active_cases f (k : Continuation F) : cont_ok f k ->
  active f k \/ (exists f', k = EnterForest f') \/
  exists id n, k = StartNode id /\ get_node_by_id f id = Some (NExternal n).
Proof.
  destruct k as [id|id|id|id|id|id|id b i|id b|id|f']; cbn; try (by left); [|right; left; by eexists].
  intros [n Hn]. destruct n as [n|n|n|n|n|n|n]; try (left; congruence).
  right. right. by exists id, n.
Qed.

Lemma conts_ok_head f k l : conts_ok f (k :: l) -> cont_ok f k.
Proof. by destruct k; cbn; intros []. Qed.

Lemma tick_active c f l k x : active f k -> conts_ok f (k :: l) -> forest_ok f -> c <= max ->
  st c f l x ->
  match tick_with kernel never k x with
  | (Ok _, y) => inv (c + 1) y
  | (Err b, _) => exists e, b = BreakErr e
  | (Panic, _) => False
  end.
Proof.
  intros Ha Hl Hf Hc Hx. pose proof (execute_continuation_safe c f l k Hc Hf Hl Ha x Hx) as Hs.
  unfold tick_with. destruct (execute_continuation kernel k x) as [[[]|r|] y]; [done| |done].
  by apply handle_break_safe.
Qed.

Lemma tick_external c f l id n x : c <= max -> forest_ok f -> conts_ok f l ->
  get_node_by_id f id = Some (NExternal n) -> st c f l x ->
  match tick_with kernel never (StartNode id) x with
  | (Ok _, y) => inv c y /\ idle (x_forest y) (x_stack y) = 0%nat
  | (Err b, _) => exists e, b = BreakErr e
  | (Panic, _) => False
  end.
Proof.
  intros Hc Hf Hl Hn Hx. unfold tick_with, execute_continuation. rewrite bind_gets.
  rewrite (st_forest _ _ _ _ Hx), Hn. cbn [expect].
  rewrite bind_ret_l. unfold execute_external_node, bind, trace_call, modify, map_break. rewrite Hn. cbn.
  apply (external_safe c f l id n Hc Hf Hl Hn). destruct Hx. by split.
Qed.

Lemma tick_safe c x k rest : inv c x -> x_stack x = k :: rest ->
  match tick_with kernel never k (put_conts rest x) with
  | (Ok _, y) => progress x y
  | (Err b, _) => exists e, b = BreakErr e
  | (Panic, _) => False
  end.
Proof.
  intros [Hp Hc Hf Hl] Hx. rewrite Hx in Hl. set (c' := p_clk (x_processor x)).
  assert (st c' (x_forest x) rest (put_conts rest x)) as Hst by (by split).
  assert (c' <= max) as Hc' by (subst c'; lia).
  destruct (active_cases _ _ (conts_ok_head _ _ _ Hl)) as [Ha|[[f' ->]|(id & n & -> & Hn)]].
  - pose proof (tick_active c' _ _ _ _ Ha Hl Hf Hc' Hst) as Ht.
    destruct (tick_with _ _ _ _) as [[[]|b|] y]; [|done|done]. split.
    + eapply inv_mono; [|exact Ht]. subst c'. lia.
    + left. destruct Ht as [_ Ht _ _]. subst c'. lia.
  - destruct Hl as [Hf' Hl]. cbn. split; [by split; cbn|]. right. cbn. rewrite Hx. cbn. lia.
  - destruct Hl as [_ Hl]. pose proof (tick_external c' _ _ id n _ Hc' Hf Hl Hn Hst) as Ht.
    destruct (tick_with _ _ _ _) as [[[]|b|] y]; [|done|done]. destruct Ht as [Hi Hz].
    split; [done|]. right. rewrite Hz, Hx. cbn. rewrite Hn. lia.
Qed.

(** ** Runs *)

Lemma take_outputs_safe c x : inv c x ->
  exists r, take_outputs x = (r, x) /\ r <> Panic /\ forall k, r <> Err (Stopped k).
Proof.
  intros [Hp _ _ _]. unfold take_outputs. rewrite bind_gets.
  assert (exists l, view_stack (x_processor x) = Some l) as [l ->].
  { cbn. unfold stack_contents, spec_stack_view. apply mapM_is_Some_2.
    apply (cells_all_written _ (po_cells _ _ Hp)). }
  cbn [expect]. rewrite bind_ret_l. unfold stack_outputs_new.
  destruct (Nat.ltb_spec STACK_OUTPUTS_SIZE (length l)); [|by eexists].
  rewrite checked_sub_Some by lia. by eexists.
Qed.

(** Every run from the invariant ends, without a panic. *)
Lemma runs_total x c : inv c x ->
  exists r y, runs kernel never x r y /\ r <> Panic /\ forall k, r <> Err (Stopped k).
Proof.
  remember (Z.to_nat (max - p_clk (x_processor x))) as n eqn:Hn.
  remember (idle (x_forest x) (x_stack x)) as m eqn:Hm. revert m c x Hn Hm.
  induction n as [n IHn] using lt_wf_ind. induction m as [m IHm] using lt_wf_ind.
  intros c x -> -> Hi. destruct (x_stack x) as [|k rest] eqn:Hx.
  { destruct (take_outputs_safe c x Hi) as (r & Hr & Hp). exists r, x. split; [by apply runs_done|done]. }
  pose proof (tick_safe c x k rest Hi Hx) as Ht.
  destruct (tick_with kernel never k (put_conts rest x)) as [[[]|b|] x1] eqn:Hk; [| |done].
  - destruct Ht as [Hi1 Hprog]. pose proof (iv_clk _ _ Hi) as Hc. pose proof (iv_clk _ _ Hi1) as Hc1.
    assert (exists r y, runs kernel never x1 r y /\ r <> Panic /\ forall k, r <> Err (Stopped k))
      as (r & y & Hr & Hp).
    { destruct (decide (p_clk (x_processor x) < p_clk (x_processor x1))).
      - eapply IHn; [|done|done|exact Hi1]. lia.
      - eapply IHm; [|f_equal; lia|done|exact Hi1]. rewrite <- Hx. destruct Hprog; [lia|done]. }
    exists r, y. split; [by eapply runs_tick|done].
  - destruct Ht as [e ->]. exists (Err (BreakErr e)), x1. split; [by eapply runs_break|done].
Qed.

End Safe.
