(* ===== verification/EventSim.v ===== *)
(** * Events on the two processors

    Emitting an event simulates between the buffer processor and the abstract
    one, and on the abstract one it does not panic and changes the advice
    provider and the deferred state only.  So the processor's own event handling
    discharges what program execution asks of [SyncHost]. *)

From S2P Require Import Prelude Felt AdviceMap Quad Operations OpBatch Mast AceCircuit Machine.
From S2P Require Import ExecuteOp Control Exec Memory Merkle Deferred MerkleTheory Advice.
From S2P Require Import AdviceTheory AdviceAtomic FastStack StackRefine FastProcessor ExecSim.
From S2P Require Import ProcView SysEvents SpecSafe ExecSafe.

(** ** Reads below the sixteenth element *)

(** The element [k] of the padded slice, top first. *)
Lemma padded_lookup (b : list Felt) n k top i : (k < 4)%nat -> (top < length b)%nat ->
  n = (top - i - (top - (i + 4)))%nat ->
  exists r, slice (top - (i + 4)) (top - (i + 4) + n) b = Some r /\ length r = n /\
    reverse (replicate (4 - n) ZERO ++ r) !! k =
      if decide (i + k < top)%nat then b !! (top - 1 - (i + k))%nat else Some ZERO.
Proof.
  intros Hk Ht Hn. destruct (slice_Some (top - (i + 4)) (top - (i + 4) + n) b) as (r & Hr & Hl & Hi); [lia|].
  exists r. split; [done|]. split; [lia|].
  rewrite reverse_lookup by (rewrite length_app, length_replicate; lia).
  rewrite length_app, length_replicate, Hl.
  destruct (decide (i + k < top)%nat) as [Hd|Hd].
  - rewrite lookup_app_r by (rewrite length_replicate; lia). rewrite length_replicate, Hi, decide_True by lia.
    f_equal. lia.
  - rewrite lookup_app_l by (rewrite length_replicate; lia). rewrite lookup_replicate_2 by lia. done.
Qed.

Lemma cell_get_safe_rel s t i x : stack_rel s t -> cell_get_safe (sp_cells t) i = Some x ->
  (if decide (i < stack_top_idx s)%nat then stack s !! (stack_top_idx s - 1 - i)%nat else Some ZERO) = Some x.
Proof.
  intros [Hd Hm Ht _ Hc Hz _ _ _ _ _]. unfold cell_get_safe.
  destruct (sp_cells t !! i) as [c|] eqn:Hi; cbn; intros Hx.
  - subst. pose proof (cells_lt _ _ _ Hi). rewrite decide_True by lia. by apply Hc.
  - apply lookup_ge_None_1 in Hi. injection Hx as <-. destruct (decide _); [|done]. apply Hz. lia.
Qed.

Lemma sim_get_word_safe i : sim stack_rel (fs_get_word_safe i) (sp_get_word_safe i).
Proof.
  intros s t Hrel. unfold sp_get_word_safe.
  destruct (mapM _ _) as [l|] eqn:Hl; [|done]. apply mapM_Some_1 in Hl.
  repeat match goal with
  | Hf : Forall2 _ (_ :: _) _ |- _ => apply Forall2_cons_inv_l in Hf as (? & ? & ? & ? & ->)
  | Hf : Forall2 _ [] _ |- _ => apply Forall2_nil_inv_l in Hf as ->
  end.
  cbn. exists s. split; [|done]. unfold fs_get_word_safe.
  pose proof (rel_top _ _ Hrel) as Ht.
  set (n := (stack_top_idx s - i - (stack_top_idx s - (i + 4)))%nat).
  destruct (padded_lookup (stack s) n 0 (stack_top_idx s) i) as (r & Hs & Hr & _); [lia|done|done|]. rewrite Hs.
  assert (forall k y, (k < 4)%nat -> cell_get_safe (sp_cells t) (i + k) = Some y ->
    reverse (replicate (4 - n) ZERO ++ r) !! k = Some y) as Hk.
  { intros k y Hk Hy. destruct (padded_lookup (stack s) n k (stack_top_idx s) i) as (r' & Hr' & _ & Hlk);
      [done..|]. rewrite Hs in Hr'. injection Hr' as <-. rewrite Hlk. by apply (cell_get_safe_rel s t). }
  cbn [mbind option_bind].
  erewrite (list_eq_4 (reverse _)); [done| |apply Hk; [lia|rewrite Nat.add_0_r; eassumption]|apply Hk; [lia|eassumption]..].
  rewrite length_reverse, length_app, length_replicate. lia.
Qed.

(** ** Simulation *)

Section Sim.
Context `{G : Goldilocks} `{Q : QuadField} `{QI : QuadInverse} `{PO : Poseidon2} {D : Type} `{DI : DeferredInterface D}.
Context `{DE : DeferredEvents D} {F H : Type} `{EH : EventHost H D F}.

Notation Fast := (FastProcessor D).
Notation Spec := (SpecProcessor D).
Notation R := (proc_rel (D := D)).

Lemma sim_on_deferred {A} (m : M PrecompileError D A) : sim R (on_deferred m) (on_deferred m).
Proof. apply sim_zoom; intros p1 p2; intros [] || intros ? []; [done|by split]. Qed.

Lemma sim_get_at i : sim R (get_at i) (get_at i).
Proof. apply sim_on_stack, sim_get. Qed.
Lemma sim_get_word_at i : sim R (get_word_at i) (get_word_at i).
Proof. apply sim_on_stack, sim_get_word. Qed.
Lemma sim_get_word_safe_at i : sim R (get_word_safe_at i) (get_word_safe_at i).
Proof. apply sim_on_stack, sim_get_word_safe. Qed.

Lemma sim_p_ctx : sim R (E := ExecutionError) (gets p_ctx) (gets p_ctx).
Proof. apply sim_gets. by intros p1 p2 []. Qed.
Lemma sim_p_memory : sim R (E := ExecutionError) (gets p_memory) (gets p_memory).
Proof. apply sim_gets. by intros p1 p2 []. Qed.
Lemma sim_p_deferred : sim R (E := ExecutionError) (gets p_deferred) (gets p_deferred).
Proof. apply sim_gets. by intros p1 p2 []. Qed.

Lemma sim_node_or_fail r : sim R (node_or_fail r) (node_or_fail r).
Proof. destruct r; [apply sim_ret|apply sim_fail|apply sim_panic]. Qed.

#[local] Hint Resolve sim_on_deferred sim_get_at sim_get_word_at sim_get_word_safe_at sim_p_ctx
  sim_p_memory sim_p_deferred sim_node_or_fail sim_on_advice : sim.

Lemma sim_push_chunks l : sim R (push_chunks l) (push_chunks l).
Proof. induction l as [|c l IH]; cbn; sim_auto. Qed.

#[local] Hint Resolve sim_push_chunks : sim.

Create HintDb events discriminated.
#[local] Hint Unfold insert_mem_values_into_adv_map insert_hdword_into_adv_map insert_hqword_into_adv_map
  insert_hperm_into_adv_map copy_map_value_to_adv_stack copy_map_value_length_to_adv_stack
  push_key_presence_flag merge_merkle_nodes copy_merkle_node_to_adv_stack push_ext2_inv_result
  push_transformed_stack_top push_ilog2 handle_deferred_register evaluate_canonical_node
  push_evaluated_tag push_evaluated_payload handle_deferred_evaluate handle_deferred_evaluate_tag
  handle_deferred_evaluate_payload handle_deferred_register_data decode_tag : events.

Lemma sim_system_event e : sim R (handle_system_event e) (handle_system_event e).
Proof. destruct e; cbn [handle_system_event]; autounfold with events; sim_auto. Qed.

Lemma sim_processor_state : sim R processor_state processor_state.
Proof.
  intros p1 p2 Hp. unfold processor_state, bind, gets, id, expect.
  destruct (stack_contents (p_stack p2)) as [l|] eqn:Hl; [|done].
  rewrite (stack_contents_rel _ _ _ (pr_stack _ _ Hp) Hl). exists p1. split; [|done].
  by destruct Hp as [_ -> -> _ -> -> _ ->].
Qed.

Lemma sim_on_fst {A} (m1 : PM Fast A) (m2 : PM Spec A) :
  sim R m1 m2 -> sim (pair_rel (H := H) R) (on_fst m1) (on_fst m2).
Proof.
  intros Hm [p1 h1] [p2 h2] [Hp Hh]. cbn in *. subst. specialize (Hm _ _ Hp). unfold on_fst. cbn.
  destruct (m2 p2) as [[a|e|] q2]; [| |done]; destruct Hm as (q1 & -> & Hq); (eexists; split; [done|by split]).
Qed.

Lemma sim_on_snd {A} (f : H -> A * H) : sim (pair_rel R) (on_snd f) (on_snd f).
Proof.
  intros [p1 h1] [p2 h2] [Hp Hh]. cbn in *. subst. unfold on_snd. cbn.
  destruct (f h2) as [a h]. eexists. split; [done|by split].
Qed.

#[local] Hint Resolve sim_system_event sim_processor_state sim_on_fst sim_on_snd : sim.

Lemma sim_emit_event : sim (pair_rel R) emit_event emit_event.
Proof.
  unfold emit_event, apply_host_event_mutations, handle_trace_result.
  apply sim_bind; [sim_auto|]. intros id.
  destruct (from_event_id id) as [[]|]; sim_auto; apply sim_on_fst; sim_auto.
Qed.

#[export] Instance event_host_sim : HostSim (F := F) (H := H) R.
Proof. split; [done|]. intros n. apply sim_emit_event. Qed.

End Sim.

(** ** Safety *)

Section Contained.
Context `{G : Goldilocks} `{Q : QuadField} `{QI : QuadInverse} `{QIL : !QuadInverseLaws Q QI}.
Context `{PO : Poseidon2} {D : Type} `{DI : DeferredInterface D}.
Context `{DE : DeferredEvents D} `{DEL : !DeferredEventsLaws D} {F H : Type} `{EH : EventHost H D F}.

Notation P := (SpecProcessor D).

(** No panic, whatever the outcome, and only the advice provider and the
    deferred state change. *)
Definition contained {A} (m : PM P A) : Prop :=
  forall p, proc_ok 0 p ->
    fst (m p) <> Panic /\ exists a d, adv_wf a /\ snd (m p) = put_deferred d (put_advice a p).

Lemma put_same (p : P) : p = put_deferred (p_deferred p) (put_advice (p_advice p) p).
Proof. by destruct p. Qed.

Lemma proc_ok_put a d (p : P) : proc_ok 0 p -> adv_wf a -> proc_ok 0 (put_deferred d (put_advice a p)).
Proof. intros [Hc _] Ha. by split. Qed.

Lemma contained_bind {A B} (m : PM P A) (k : A -> PM P B) :
  contained m -> (forall a, contained (k a)) -> contained (bind m k).
Proof.
  intros Hm Hk p Hp. destruct (Hm p Hp) as (Hn & a & d & Ha & Hs). unfold bind.
  destruct (m p) as [[x|e|] q]; cbn in *; [|split; [done|by exists a, d]|done]. subst.
  destruct (Hk x _ (proc_ok_put a d p Hp Ha)) as (Hn' & a' & d' & Ha' & ->).
  split; [done|]. by exists a', d'.
Qed.

(** A computation that leaves the state alone. *)
Lemma contained_read {A} (m : PM P A) : (forall p, proc_ok 0 p -> fst (m p) <> Panic /\ snd (m p) = p) -> contained m.
Proof.
  intros Hm p Hp. destruct (Hm p Hp) as [Hn ->]. split; [done|].
  exists (p_advice p), (p_deferred p). split; [apply Hp|apply put_same].
Qed.

Lemma contained_ret {A} (a : A) : contained (ret a).
Proof. by apply contained_read. Qed.
Lemma contained_fail {A} e : contained (fail (A := A) e).
Proof. by apply contained_read. Qed.
Lemma contained_gets {A} (f : P -> A) : contained (gets f).
Proof. by apply contained_read. Qed.
Lemma contained_ok_or {A} (o : option A) e : contained (ok_or o e).
Proof. destruct o; [apply contained_ret|apply contained_fail]. Qed.
Lemma contained_expect {A} (o : option A) : is_Some o -> contained (expect o).
Proof. intros [a ->]. apply contained_ret. Qed.

Lemma contained_advice {A} (m : AP A) : keeps adv_wf m -> contained (on_advice m).
Proof.
  intros Hm p [Hc Ha]. specialize (Hm _ Ha). unfold on_advice, zoom.
  destruct (m (p_advice p)) as [[a|e|] t]; destruct Hm as [Hp Ht]; [| |done];
    (split; [done|]; exists t, (p_deferred p); by destruct p).
Qed.

Lemma contained_deferred {A} (m : M PrecompileError D A) : (forall d, fst (m d) <> Panic) -> contained (on_deferred m).
Proof.
  intros Hm p Hp. specialize (Hm (p_deferred p)). unfold on_deferred, zoom.
  destruct (m (p_deferred p)) as [[a|e|] t]; [| |done];
    (split; [done|]; exists (p_advice p), t; split; [apply Hp|by destruct p]).
Qed.

Lemma cell_at (p : P) i : proc_ok 0 p -> (i < MIN_STACK_DEPTH)%nat ->
  exists x, cell_get (sp_cells (p_stack p)) i = Some x.
Proof. intros [Hc _] Hi. apply (cells_get 0); [done|lia]. Qed.

Lemma contained_get_at i : (i < MIN_STACK_DEPTH)%nat -> contained (get_at i).
Proof.
  intros Hi. apply contained_read. intros p Hp. destruct (cell_at p i Hp Hi) as [x Hx].
  unfold get_at, on_stack, zoom. cbn. unfold sp_get. rewrite Hx. by destruct p.
Qed.

Lemma contained_get_word_at i : (i + 3 < MIN_STACK_DEPTH)%nat -> contained (get_word_at i).
Proof.
  intros Hi. apply contained_read. intros p Hp. unfold get_word_at, on_stack, zoom. cbn. unfold sp_get_word.
  destruct (cell_at p i Hp) as [x0 ->]; [lia|]. destruct (cell_at p (i + 1) Hp) as [x1 ->]; [lia|].
  destruct (cell_at p (i + 2) Hp) as [x2 ->]; [lia|]. destruct (cell_at p (i + 3) Hp) as [x3 ->]; [lia|].
  by destruct p.
Qed.

Lemma cell_get_safe_Some (p : P) i : proc_ok 0 p -> exists x, cell_get_safe (sp_cells (p_stack p)) i = Some x.
Proof.
  intros [Hc _]. unfold cell_get_safe. destruct (sp_cells (p_stack p) !! i) as [c|] eqn:Hi; [|by eexists].
  pose proof (lookup_lt_Some _ _ _ Hi).
  destruct (co_written _ _ Hc i) as [x Hx]; [lia|]. exists x. cbn. congruence.
Qed.

Lemma contained_get_word_safe_at i : contained (get_word_safe_at i).
Proof.
  apply contained_read. intros p Hp. unfold get_word_safe_at, on_stack, zoom, stack_get_word_safe.
  unfold spec_safe_read, sp_get_word_safe. cbn [mapM].
  destruct (cell_get_safe_Some p i Hp) as [x0 ->], (cell_get_safe_Some p (i + 1) Hp) as [x1 ->],
    (cell_get_safe_Some p (i + 2) Hp) as [x2 ->], (cell_get_safe_Some p (i + 3) Hp) as [x3 ->].
  by destruct p.
Qed.

Lemma gets_keeps {E S A} (I : S -> Prop) (f : S -> A) : keeps (E := E) I (gets f).
Proof. intros s Hs. by split. Qed.

Lemma push_stack_keeps x : keeps adv_wf (push_stack x).
Proof.
  intros a Ha. eapply grows_keeps; [by apply push_stack_grows|done|]. intros Hf.
  apply grown_wf; [done..|]. unfold contents_bytes. cbn [length]. lia.
Qed.

Lemma push_stack_word_keeps w : keeps adv_wf (push_stack_word w).
Proof.
  intros a Ha. eapply grows_keeps; [by apply push_stack_word_grows|done|]. intros Hf.
  apply grown_wf; [done..|]. unfold contents_bytes. rewrite length_app. cbn [length into_elements]. lia.
Qed.

Lemma check_allocation_keeps n : 0 <= n -> keeps adv_wf (check_map_value_allocation n).
Proof.
  intros Hn a Ha. unfold check_map_value_allocation, map_entry_bytes, felt_bytes, bind, ok_or.
  destruct (checked_mul n FELT_SIZE_BYTES); [|by split]. cbn.
  destruct (checked_add _ _) as [k|]; [|by split]. cbn.
  eapply grows_keeps; [by apply (check_size_grows a k)|done|done].
Qed.

Lemma get_tree_node_keeps root depth index : keeps adv_wf (get_tree_node root depth index).
Proof.
  intros a Ha. unfold get_tree_node, node_index_of, bind, gets.
  pose proof (from_elements_no_panic depth index) as Hn.
  destruct (from_elements depth index) as [i|e|] eqn:Hi; [|by split|done]. apply from_elements_ok in Hi.
  cbn. unfold get_node. destruct (ap_store a !! root); [|by split]. rewrite (descend_walk _ _ _ _ []).
  pose proof (walk_no_panic (ap_store a) i (Z.to_nat (ni_depth i)) root []) as Hw.
  by destruct (walk _ _ _ _ _) as [[]| |].
Qed.

Lemma contained_node_or_fail r : r <> Panic -> contained (node_or_fail r).
Proof. destruct r; intros; [apply contained_ret|apply contained_fail|done]. Qed.

Lemma node_of_no_panic t p : t <> Panic -> p <> Panic -> node_of t p <> Panic.
Proof. by destruct t, p. Qed.

Lemma contained_push_chunks l : contained (push_chunks l).
Proof.
  induction l as [|c l IH]; [apply contained_ret|].
  repeat (apply contained_bind; [apply contained_advice, push_stack_word_keeps|intros ?]). done.
Qed.

(** The constructors of nodes report failures as errors. *)
Ltac node_no_panic :=
  unfold node_chunks, node_try_data, node_join, node_try_pair_list_chunks, node_value, node_try_pair_list,
    require_precompile_tag, payload_try_data, payload_try_pair_list_chunks;
  apply node_of_no_panic; by repeat case_match.

Lemma contained_deferred_ops t n x :
  contained (decode_tag t) /\ contained (on_deferred (de_register n)) /\ contained (on_deferred (de_evaluate_digest x)).
Proof.
  split_and!; apply contained_deferred; intros d; [apply (de_decode_no_panic t d)|apply de_register_no_panic|
    apply de_evaluate_no_panic].
Qed.

Lemma contained_decode t : contained (decode_tag t).
Proof. apply (contained_deferred_ops t Node_TRUE EMPTY_WORD). Qed.
Lemma contained_register n : contained (on_deferred (de_register n)).
Proof. apply (contained_deferred_ops Tag_TRUE n EMPTY_WORD). Qed.
Lemma contained_evaluate x : contained (on_deferred (de_evaluate_digest x)).
Proof. apply (contained_deferred_ops Tag_TRUE Node_TRUE x). Qed.

Hint Resolve contained_ret contained_fail contained_gets contained_ok_or contained_get_word_safe_at contained_push_chunks
  contained_decode contained_register contained_evaluate contained_node_or_fail : contained.
Hint Resolve contained_advice gets_keeps push_stack_keeps push_stack_word_keeps insert_into_map_keeps
  get_tree_node_keeps adv_merge_roots_keeps apply_mutations_keeps : contained.

Ltac contained_step :=
  match goal with
  | |- contained (bind _ _) => apply contained_bind; [|intros ?]
  | |- contained (get_at _) => apply contained_get_at; unfold MIN_STACK_DEPTH; lia
  | |- contained (get_word_at _) => apply contained_get_word_at; unfold MIN_STACK_DEPTH; lia
  | |- contained (on_advice (push_from_map _ _ _)) => apply contained_advice, push_from_map_keeps; lia
  | |- contained (on_advice (check_map_value_allocation _)) => apply contained_advice, check_allocation_keeps; lia
  | |- contained (node_or_fail _) => apply contained_node_or_fail; try case_decide; node_no_panic
  | |- contained (if ?b then _ else _) => destruct b eqn:?
  | |- contained (match ?x with _ => _ end) => destruct x
  | |- _ => solve [eauto 4 with contained]
  end.
Ltac contained_auto := repeat (cbv zeta; contained_step).

Lemma contained_ext2_inv : contained push_ext2_inv_result.
Proof.
  unfold push_ext2_inv_result. apply contained_bind; [contained_auto|intros a].
  apply contained_bind; [contained_auto|intros b]. cbv zeta. destruct (decide _) as [|Hz]; [contained_auto|].
  destruct (q_inverse_spec _ Hz) as (r & Hr & _).
  apply contained_bind; [apply contained_expect; by exists r|intros x]. contained_auto.
Qed.

Lemma contained_register_data : contained handle_deferred_register_data.
Proof.
  unfold handle_deferred_register_data.
  do 3 (apply contained_bind; [contained_auto|intros ?]). cbv zeta.
  do 2 (match goal with |- contained (if ?b then _ else _) => destruct b; [contained_auto|] end).
  apply contained_bind; [contained_auto|]. intros []; cbn [negb]; contained_auto.
Qed.

Lemma contained_system_event e : contained (handle_system_event e).
Proof.
  destruct e; cbn [handle_system_event]; try apply contained_ext2_inv; try apply contained_register_data;
    unfold insert_mem_values_into_adv_map, insert_hdword_into_adv_map, insert_hqword_into_adv_map,
      insert_hperm_into_adv_map, copy_map_value_to_adv_stack, copy_map_value_length_to_adv_stack,
      push_key_presence_flag, merge_merkle_nodes, copy_merkle_node_to_adv_stack,
      push_transformed_stack_top, push_ilog2, handle_deferred_register, handle_deferred_evaluate,
      handle_deferred_evaluate_tag, handle_deferred_evaluate_payload, evaluate_canonical_node,
      push_evaluated_tag, push_evaluated_payload, contains_map_key, get_mapped_values; contained_auto.
Qed.

Lemma contained_processor_state : contained processor_state.
Proof.
  apply contained_read. intros p [Hc _]. unfold processor_state, bind, gets, id, expect.
  destruct (stack_contents (p_stack p)) as [l|] eqn:Hl; [done|]. exfalso.
  change (mapM id (sp_cells (p_stack p)) = None) in Hl. apply eq_None_not_Some in Hl. apply Hl.
  apply mapM_is_Some, Forall_lookup. intros i c Hi. pose proof (lookup_lt_Some _ _ _ Hi).
  destruct (co_written _ _ Hc i) as [x Hx]; [lia|]. exists x. unfold id. congruence.
Qed.

(** The same on a processor with its host. *)
Definition contained_host {A} (m : M ExecutionError (P * H) A) : Prop :=
  forall p h, proc_ok 0 p ->
    fst (m (p, h)) <> Panic /\ exists a d, adv_wf a /\ fst (snd (m (p, h))) = put_deferred d (put_advice a p).

Lemma contained_host_fst {A} (m : PM P A) : contained m -> contained_host (on_fst m).
Proof. intros Hm p h Hp. specialize (Hm p Hp). unfold on_fst. cbn. by destruct (m p). Qed.

Lemma contained_host_snd {A} (f : H -> A * H) : contained_host (on_snd f).
Proof.
  intros p h Hp. unfold on_snd. cbn. destruct (f h). split; [done|].
  exists (p_advice p), (p_deferred p). split; [apply Hp|apply put_same].
Qed.

Lemma contained_host_bind {A B} (m : M ExecutionError (P * H) A) (k : A -> M ExecutionError (P * H) B) :
  contained_host m -> (forall a, contained_host (k a)) -> contained_host (bind m k).
Proof.
  intros Hm Hk p h Hp. destruct (Hm p h Hp) as (Hn & a & d & Ha & Hs). unfold bind.
  destruct (m (p, h)) as [[x|e|] [q h']]; cbn in *; [|split; [done|by exists a, d]|done]. subst.
  destruct (Hk x _ h' (proc_ok_put a d p Hp Ha)) as (Hn' & a' & d' & Ha' & Hs').
  split; [done|]. exists a', d'. by rewrite Hs'.
Qed.

Lemma contained_emit : contained_host emit_event.
Proof.
  unfold emit_event. apply contained_host_bind; [apply contained_host_fst; contained_auto|]. intros id.
  assert (forall s, contained_host (on_fst (handle_system_event s))) as Hs
    by (intros s; apply contained_host_fst, contained_system_event).
  assert (contained_host (on_fst processor_state)) as Hv by apply contained_host_fst, contained_processor_state.
  destruct (from_event_id id) as [[]|]; try apply Hs;
    (apply contained_host_bind; [done|intros v]; apply contained_host_bind; [apply contained_host_snd|intros x]).
  - apply contained_host_bind; [apply contained_host_fst; contained_auto|intros t]. apply contained_host_fst.
    unfold handle_trace_result. contained_auto.
  - apply contained_host_fst. unfold apply_host_event_mutations. contained_auto.
Qed.

End Contained.

(** A host that serves well-formed forests, with the processor's own event
    handling, is a host for program execution. *)
Lemma event_host_laws `{Q : QuadField} `{QI : QuadInverse} `{!QuadInverseLaws Q QI}
    `{PO : Poseidon2} {D F H : Type} `{DI : DeferredInterface D} `{DE : DeferredEvents D}
    `{!DeferredEventsLaws D} `{EF : ExecutableMastForest F} `{EH : EventHost H D F}
    (Hf : forall (h : H) d f, host_get_mast_forest h d = Some f -> forest_ok f) : HostLaws H D F.
Proof.
  split; [exact Hf|]. intros n p h Hp. cbn [op_emit_sync event_sync_host].
  destruct (contained_emit (F := F) p h Hp) as (Hn & a & d & Ha & Hs).
  destruct (emit_event (p, h)) as [[x|e|] [q h']]; cbn in *; [|done|done]. by exists a, d.
Qed.
