(* ===== verification/ProgramRefine.v ===== *)
(** * Instructions and programs on the fast processor are correct and safe

    The refinement of the stack, the simulation of the handlers and the safety
    of the abstract processor, put together: from any state that represents an
    abstract one, every instruction of the fast processor returns what the
    abstract instruction returns, without panicking.  The same then holds of whole
    program runs, also of programs loaded from their serialized form. *)

From S2P Require Import Prelude Felt AdviceMap Serde Quad Operations OpBatch Mast AceCircuit.
From S2P Require Import Machine StackOps ArithOps IoOps CryptoOps FriOps ExecuteOp Control Exec.
From S2P Require Import StepTheory Memory Merkle Forest ForestTheory ForestCorrect ForestWire.
From S2P Require Import WireSound MerkleTheory Advice AdviceTheory AdviceAtomic FastStack.
From S2P Require Import StackRefine FastProcessor ExecSim ProcView SpecSafe ExecSafe.

(** ** The initial state *)

Lemma write_inputs_spec b i inputs : (i + length inputs <= INITIAL_STACK_TOP_IDX)%nat ->
  (INITIAL_STACK_TOP_IDX <= length b)%nat ->
  exists b', write_inputs b i inputs = Some b' /\ length b' = length b /\
    forall j, (j < INITIAL_STACK_TOP_IDX)%nat ->
      b' !! (INITIAL_STACK_TOP_IDX - 1 - j)%nat =
      if decide (i <= j < i + length inputs)%nat then inputs !! (j - i)%nat
      else b !! (INITIAL_STACK_TOP_IDX - 1 - j)%nat.
Proof.
  unfold INITIAL_STACK_TOP_IDX. revert b i. induction inputs as [|x inputs IH]; intros b i Hi Hb.
  { exists b. split_and!; [done..|]. intros j Hj. cbn [length]. by rewrite decide_False by lia. }
  cbn [write_inputs length] in *. unfold INITIAL_STACK_TOP_IDX.
  rewrite checked_sub_Some by lia. cbn [mbind option_bind].
  rewrite update_Some by lia. cbn [mbind option_bind].
  destruct (IH (<[(250 - 1 - i)%nat := x]> b) (S i)) as (b' & Hw & Hlen & Hl);
    [lia|by rewrite length_insert|].
  exists b'. rewrite length_insert in Hlen. split_and!; [done..|]. intros j Hj. rewrite Hl by done.
  destruct (decide (j = i)) as [->|Hne].
  - rewrite decide_False, decide_True by lia. rewrite list_lookup_insert_eq by lia.
    by rewrite Nat.sub_diag.
  - rewrite list_lookup_insert_ne by lia.
    destruct (decide (S i <= j < _)%nat).
    + rewrite decide_True by lia. replace (j - i)%nat with (S (j - S i)) by lia. done.
    + by rewrite decide_False by lia.
Qed.

Lemma buffer_size_large : (4000 < INITIAL_STACK_BUFFER_SIZE)%nat.
Proof. apply Nat.ltb_lt. by vm_compute. Qed.

(** The abstract stack of the given inputs. *)
Definition spec_stack_new (inputs : list Felt) (max_depth : Z) : SpecStack :=
  mkSpecStack (Some <$> inputs) [] max_depth.

(** The depth limits the options accept, for a 64-bit address space. *)
Definition depth_limit_ok (max_depth : Z) : Prop := 16 <= max_depth <= U64_MAX - 235.

Lemma fast_stack_new_rel inputs max_depth : length inputs = MIN_STACK_DEPTH ->
  depth_limit_ok max_depth ->
  exists s, fast_stack_new inputs max_depth = Some s /\ stack_rel s (spec_stack_new inputs max_depth).
Proof.
  intros Hlen [Hmin Hmax]. unfold fast_stack_new. pose proof buffer_size_large.
  destruct (write_inputs_spec (replicate INITIAL_STACK_BUFFER_SIZE ZERO) 0 inputs)
    as (b & Hw & Hb & Hl); [rewrite Hlen; unfold MIN_STACK_DEPTH, INITIAL_STACK_TOP_IDX; lia| |].
  { rewrite length_replicate. unfold INITIAL_STACK_TOP_IDX. lia. }
  rewrite Hw. cbn [mbind option_bind]. eexists. split; [done|]. rewrite length_replicate in Hb.
  unfold INITIAL_STACK_TOP_IDX, MIN_STACK_DEPTH in *.
  split; cbn [stack stack_top_idx stack_bot_idx stack_overflow_save_stack saved_overflow_len
    max_stack_depth sp_cells sp_saved sp_max spec_stack_new]; rewrite ?length_fmap, ?Hlen;
    unfold INITIAL_STACK_TOP_IDX, MIN_STACK_DEPTH, saved_len in *; cbn [fmap list_fmap sum_list]; try lia.
  - intros i x Hx. rewrite list_lookup_fmap in Hx.
    destruct (inputs !! i) as [y|] eqn:Hi; [|done]. injection Hx as ->.
    apply lookup_lt_Some in Hi as Hlt. rewrite Hl by lia. rewrite decide_True by lia.
    by rewrite Nat.sub_0_r.
  - intros i Hi. replace i with (250 - 1 - (249 - i))%nat by lia.
    rewrite Hl, decide_False by lia. apply lookup_replicate_2. lia.
  - done.
Qed.

Section Exec.
Context `{G : Goldilocks} `{GL : !GoldilocksLaws G} `{Q0 : QuadField}.
Context `{Poseidon2} {D : Type} `{DI : DeferredInterface D} `{DL : !DeferredLaws D}.

(** A fast state that represents a state of the abstract machine all of whose
    cells are written. *)
Definition represents (s1 : St (FastProcessor D)) (s2 : St (SpecProcessor D)) : Prop :=
  st_rel proc_rel s1 s2 /\ proc_ok 0 (st_proc s2).

(** C4: the instruction set of the fast processor is safe and refines the
    abstract machine: from a state representing an abstract state, every
    operation but [Emit] terminates without panicking (no index of the stack
    buffer out of range, no counter underflow, no failed [expect]), returns
    exactly the result or error of the same operation on the abstract list
    stack, emits the same tracer events, and ends in a state that again
    represents the abstract state reached. *)
Theorem execute_op_refines op s1 s2 : represents s1 s2 -> op <> Op.Emit ->
  exists r s1' s2',
    execute_op op s1 = (r, s1') /\ execute_op op s2 = (r, s2') /\ r <> Panic /\
    st_rel proc_rel s1' s2' /\ (forall x, r = Ok x -> represents s1' s2').
Proof.
  intros [Hr Hok] He. pose proof (execute_op_sim proc_rel op s1 s2 Hr) as Hsim.
  pose proof (execute_op_safe op He s2 Hok) as Hsafe.
  destruct (execute_op op s2) as [[x|e|] s2'].
  - destruct Hsim as (s1' & -> & Hr'). destruct Hsafe as (h & -> & Hok').
    exists (Ok x), s1', s2'. split_and!; try done.
  - destruct Hsim as (s1' & -> & Hr'). by exists (Err e), s1', s2'.
  - done.
Qed.

(** A sequence of operations, stopping at the first error. *)
Fixpoint execute_ops {P : Type} `{Processor P} (ops : list Operation) : VM P unit :=
  match ops with
  | [] => ret tt
  | op :: ops => do! execute_op op; execute_ops ops
  end.

Lemma execute_ops_sim ops : sim (st_rel proc_rel) (execute_ops ops) (execute_ops (P := SpecProcessor D) ops).
Proof.
  induction ops as [|op ops IH]; [apply sim_ret|]. apply sim_bind; [apply execute_op_sim, _|done].
Qed.

Lemma execute_ops_refines ops s1 s2 : represents s1 s2 -> Forall (fun op => op <> Op.Emit) ops ->
  exists r s1' s2',
    execute_ops ops s1 = (r, s1') /\ execute_ops ops s2 = (r, s2') /\ r <> Panic /\
    st_rel proc_rel s1' s2' /\ (forall x, r = Ok x -> represents s1' s2').
Proof.
  intros Hr Hops. revert s1 s2 Hr. induction Hops as [|op ops Hop _ IH]; intros s1 s2 Hr.
  { exists (Ok tt), s1, s2. split_and!; try done. apply Hr. }
  pose proof (execute_op_sim proc_rel op s1 s2 (proj1 Hr)) as Hsim.
  pose proof (execute_op_safe op Hop s2 (proj2 Hr)) as Hsafe.
  cbn [execute_ops]. destruct (execute_op op s2) as [[x|e|] s2'] eqn:H2; [| |done].
  - destruct Hsim as (s1' & H1 & Hr'). destruct Hsafe as (h & -> & Hok').
    rewrite (bind_Ok _ _ _ _ _ H1), (bind_Ok _ _ _ _ _ H2). by apply IH.
  - destruct Hsim as (s1' & H1 & Hr').
    rewrite (bind_Err _ _ _ _ _ H1), (bind_Err _ _ _ _ _ H2). by exists (Err e), s1', s2'.
Qed.

End Exec.

(** ** Program runs of the fast processor

    Executing a program with the fast processor returns what the abstract
    machine returns, terminates and does not panic: the simulation of runs
    (ExecSim) applied to the total correctness of the abstract runs (ExecSafe),
    from the constructor of the processor on. *)

Section Program.
Context `{G : Goldilocks} `{GL : !GoldilocksLaws G} `{Q0 : QuadField}.
Context `{PO : Poseidon2} {D : Type} `{DI : DeferredInterface D} `{DL : !DeferredLaws D}.
Context {F : Type} `{EF : ExecutableMastForest F} {H : Type}.
Context `{H1 : SyncHost H (FastProcessor D) F} `{H2 : SyncHost H (SpecProcessor D) F}.
Context `{HS : !HostSim proc_rel} `{HL : !HostLaws H D F}.
Context (options : ExecutionOptions) (kernel : KernelDescriptor).

#[local] Instance view_of {Stk} `{StackView Stk} : ProcessorView (Proc Stk D) := proc_view options.

Notation Fast := (FastProcessor D).
Notation Spec := (SpecProcessor D).

(** ** Construction *)

(** The abstract processor of the same inputs. *)
Definition spec_new_with_options (stack_inputs : list Felt) (default_store : MerkleStore)
    (advice_stack : list Felt) (advice_map : AdviceMap) (advice_store : MerkleStore) (d : D) :
    res AdviceError Spec :=
  proc_new (spec_stack_new stack_inputs (eo_max_stack_depth options)) default_store advice_stack
    advice_map advice_store (eo_max_advice_size_bytes options) (eo_max_memory_elements options) d.

Lemma spec_stack_new_ok inputs m : length inputs = MIN_STACK_DEPTH ->
  cells_ok 0 (spec_stack_new inputs m).
Proof.
  intros Hl. apply cells_ok_intro; [rewrite length_fmap; lia| |done].
  apply Forall_fmap, Forall_true. by eexists.
Qed.

(** The two constructors succeed together. *)
Lemma new_with_options_rel inputs store astack amap astore d :
  options_ok options -> length inputs = MIN_STACK_DEPTH ->
  num_internal_nodes store * 96 <= USIZE_MAX ->
  match new_with_options inputs store astack amap astore options d,
        spec_new_with_options inputs store astack amap astore d with
  | Ok p1, Ok p2 => proc_rel p1 p2 /\ proc_ok 0 p2 /\ p_clk p2 = 0
  | Err e1, Err e2 => e1 = e2
  | _, _ => False
  end.
Proof.
  intros [_ Hd Ha] Hl Hs. unfold new_with_options, spec_new_with_options, proc_new.
  destruct (fast_stack_new_rel inputs (eo_max_stack_depth options) Hl Hd) as (s & -> & Hrel).
  pose proof (provider_new_wf store (eo_max_advice_size_bytes options) astack amap astore Ha Hs) as Hw.
  destruct (provider_new _ _ _ _ _) as [a|e|]; [|done|done].
  split_and!; [by split| |done]. split; [by apply spec_stack_new_ok|done].
Qed.

(** ** Runs *)

Definition never1 : Stopper Fast F := NeverStopper.
Definition never2 : Stopper Spec F := NeverStopper.

Lemma program_run (x1 : XState Fast F H unit) (x2 : XState Spec F H unit) c :
  options_ok options -> x_rel proc_rel x1 x2 -> inv options c x2 ->
  exists n r y1 y2,
    execute_program kernel never1 n x1 = Some (r, y1) /\
    execute_program kernel never2 n x2 = Some (r, y2) /\
    x_rel proc_rel y1 y2 /\ r <> Panic /\ forall k, r <> Err (Stopped k).
Proof.
  intros Ho Hx Hi. destruct (runs_total options Ho kernel x2 c Hi) as (r & y2 & Hr & Hp & Hst).
  apply execute_program_complete in Hr as [n Hn].
  pose proof (sim_execute_program proc_rel never1 never2 kernel n x1 x2 Hx) as Hsim.
  unfold run_sim in Hsim. change (execute_program kernel never2 n x2 = Some (r, y2)) in Hn.
  rewrite Hn in Hsim. exists n, r.
  destruct r as [o|b|]; [| |done]; destruct Hsim as (y1 & Hy & Hrel); by exists y1, y2.
Qed.

(** More fuel gives the same result. *)
Lemma execute_sync_mono {P} `{PP : Processor P} `{PV : !ProcessorView P} `{HH : SyncHost H P F}
    n m p h f entry r : (n <= m)%nat ->
  execute_sync kernel n p h f entry = Some r -> execute_sync kernel m p h f entry = Some r.
Proof.
  intros Hm. unfold execute_sync, execute_with_tracer_sync.
  destruct (initial_state p h tt f entry) as [[[]|e|] x]; [|done|done].
  destruct (execute_program kernel NeverStopper n x) as [v|] eqn:Hn; [|done].
  by rewrite (execute_program_mono_le _ _ _ _ _ _ Hm Hn).
Qed.

(** Entering a forest extends the advice map. *)
Lemma extend_map_rel m p1 p2 : proc_rel p1 p2 -> proc_ok 0 p2 ->
  match view_extend_map m p2 with
  | (Ok _, q2) => exists q1, view_extend_map m p1 = (Ok tt, q1) /\ proc_rel q1 q2 /\
      proc_ok 0 q2 /\ p_clk q2 = p_clk p2
  | (Err e, q2) => exists q1, view_extend_map m p1 = (Err e, q1) /\ proc_rel q1 q2
  | (Panic, _) => False
  end.
Proof.
  intros Hrel Hok. pose proof (sim_on_advice (extend_map m) p1 p2 Hrel) as Hm.
  destruct Hok as [Hc Ha]. pose proof (extend_map_keeps m _ Ha) as Hk. cbn. unfold on_advice, zoom in *.
  destruct (extend_map m (p_advice p2)) as [[[]|e|] a]; destruct Hk as [Hp Hk]; [| |done].
  - destruct Hm as (q1 & -> & Hq). exists q1. split_and!; [done|done|by split|done].
  - destruct Hm as (q1 & -> & Hq). by exists q1.
Qed.

Lemma execute_sync_run p1 p2 h f entry : options_ok options ->
  proc_rel p1 p2 -> proc_ok 0 p2 -> p_clk p2 = 0 -> forest_ok f -> is_node f entry ->
  exists n r y1 y2,
    execute_sync kernel n p1 h f entry = Some (r, y1) /\
    execute_sync kernel n p2 h f entry = Some (r, y2) /\
    x_rel proc_rel y1 y2 /\ r <> Panic.
Proof.
  intros Ho Hrel Hok Hclk Hf He. unfold execute_sync, execute_with_tracer_sync, initial_state.
  pose proof (extend_map_rel (forest_advice_map f) p1 p2 Hrel Hok) as Hm.
  destruct (view_extend_map (forest_advice_map f) p2) as [[[]|e|] q2]; [| |done].
  - destruct Hm as (q1 & -> & Hq & Hq2 & Hc).
    assert (inv options 0 (mkX q2 [StartNode entry] f h tt)) as Hi.
    { pose proof (oo_cycles _ Ho). split; cbn; [done|rewrite Hc, Hclk; lia|done|by split]. }
    assert (x_rel proc_rel (mkX q1 [StartNode entry] f h tt) (mkX q2 [StartNode entry] f h tt)) as Hx
      by (by split).
    destruct (program_run _ _ 0 Ho Hx Hi) as (n & r & y1 & y2 & Hn1 & Hn2 & Hy & Hp & Hst).
    exists n. unfold never1, never2 in *. rewrite Hn1, Hn2.
    destruct r as [o|[e|k]|]; [|by exists (Err e), y1, y2|by destruct (Hst k)|done].
    by exists (Ok o), y1, y2.
  - destruct Hm as (q1 & -> & Hq).
    exists 0%nat, (Err e), (mkX q1 [StartNode entry] f h tt), (mkX q2 [StartNode entry] f h tt).
    split_and!; [done|done|by split|done].
Qed.

(** C1: total correctness of program execution.  Build the fast processor from
    any stack inputs, advice inputs and options, and run any program whose
    forest is well formed with [execute_sync].  If the abstract machine rejects
    the advice inputs, so does the constructor.  Otherwise the run terminates,
    without a panic, with exactly the result (the stack outputs or the error)
    of the abstract list-stack machine run on the same program, in a state
    that represents its final state.  The bound on the number of cycles is
    what makes every program terminate.  The host is any host whose event
    handling only touches the advice provider and the deferred state and whose
    forests are well formed. *)
Theorem execute_sync_total inputs store astack amap astore d h f entry :
  options_ok options -> length inputs = MIN_STACK_DEPTH ->
  num_internal_nodes store * 96 <= USIZE_MAX -> forest_ok f -> is_node f entry ->
  match new_with_options inputs store astack amap astore options d with
  | Ok p1 =>
      exists p2, spec_new_with_options inputs store astack amap astore d = Ok p2 /\
      exists n r y1 y2, r <> Panic /\ x_rel proc_rel y1 y2 /\
        forall m, (n <= m)%nat ->
          execute_sync kernel m p1 h f entry = Some (r, y1) /\
          execute_sync kernel m p2 h f entry = Some (r, y2)
  | Err e => spec_new_with_options inputs store astack amap astore d = Err e
  | Panic => False
  end.
Proof.
  intros Ho Hl Hs Hf He.
  pose proof (new_with_options_rel inputs store astack amap astore d Ho Hl Hs) as Hn.
  destruct (new_with_options inputs store astack amap astore options d) as [p1|e|];
    destruct (spec_new_with_options inputs store astack amap astore d) as [p2|e'|]; try done;
    [|by subst].
  destruct Hn as (Hrel & Hok & Hclk). exists p2. split; [done|].
  destruct (execute_sync_run p1 p2 h f entry Ho Hrel Hok Hclk Hf He)
    as (n & r & y1 & y2 & Hn1 & Hn2 & Hy & Hp).
  exists n, r, y1, y2. split_and!; [done..|]. intros m Hm.
  split; by eapply execute_sync_mono.
Qed.

End Program.

(** ** Running programs from untrusted bytes

    The whole way from bytes to a result: reading, validating and executing. *)

Section Loaded.
Context `{G : Goldilocks} `{GL : !GoldilocksLaws G} `{Q0 : QuadField}.
Context `{PO : Poseidon2} {D : Type} `{DI : DeferredInterface D} `{DL : !DeferredLaws D} {H : Type}.
Context `{H1 : SyncHost H (FastProcessor D) MastForest} `{H2 : SyncHost H (SpecProcessor D) MastForest}.
Context `{HS : !HostSim proc_rel} `{HL : !HostLaws H D MastForest}.
Context (options : ExecutionOptions) (kernel : KernelDescriptor).

#[local] Instance loaded_view {Stk} `{StackView Stk} : ProcessorView (Proc Stk D) := proc_view options.

Lemma root_is_node (f : MastForest) entry : forest_wf f -> entry ∈ roots f -> is_node f entry.
Proof.
  intros [_ Hr] He. eapply Forall_forall in He; [|exact Hr]. cbv beta in He. unfold is_node. cbn. by apply lookup_lt_is_Some_2.
Qed.

(** C2: No bytes make the virtual machine panic.  Whatever bytes are read as an
    untrusted forest with whatever options, reading and validating them ends in
    an error or in a forest any root of which can be executed: the processor
    built from any inputs runs it to an end, without a panic, with the result of
    the abstract machine. *)
Theorem untrusted_program_runs bytes read_options inputs store astack amap astore d h :
  Forall is_u8 bytes -> options_ok options -> length inputs = MIN_STACK_DEPTH ->
  num_internal_nodes store * 96 <= USIZE_MAX ->
  match untrusted_read_from_bytes_with_options bytes read_options with
  | Ok u =>
      match untrusted_validate u with
      | Ok f => forall entry, entry ∈ roots f ->
          match new_with_options inputs store astack amap astore options d with
          | Ok p1 => exists p2 n r y1 y2, spec_new_with_options options inputs store astack amap astore d = Ok p2 /\
              r <> Panic /\ x_rel proc_rel y1 y2 /\
              forall m, (n <= m)%nat ->
                execute_sync kernel m p1 h f entry = Some (r, y1) /\ execute_sync kernel m p2 h f entry = Some (r, y2)
          | Err e => spec_new_with_options options inputs store astack amap astore d = Err e
          | Panic => False
          end
      | Err _ => True
      | Panic => False
      end
  | Err _ => True
  | Panic => False
  end.
Proof.
  intros Hu Ho Hl Hs. pose proof (untrusted_read_safe bytes read_options Hu) as Hr.
  destruct (untrusted_read_from_bytes_with_options bytes read_options) as [u| |]; [|done|done].
  pose proof (untrusted_validate_safe u Hr) as Hv. destruct (untrusted_validate u) as [f| |]; [|done|done]. intros entry He.
  pose proof (fv_wf _ Hv) as Hwf. pose proof (dense_forest_ok f Hwf) as Hf. pose proof (root_is_node f entry Hwf He) as Hn.
  pose proof (new_with_options_rel options inputs store astack amap astore d Ho Hl Hs) as Hnew.
  destruct (new_with_options inputs store astack amap astore options d) as [p1|e|];
    destruct (spec_new_with_options options inputs store astack amap astore d) as [p2|e'|]; try done; [|by subst].
  destruct Hnew as (Hrel & Hok & Hclk).
  destruct (execute_sync_run options kernel p1 p2 h f entry Ho Hrel Hok Hclk Hf Hn) as (n & r & y1 & y2 & Hn1 & Hn2 & Hy & Hp).
  exists p2, n, r, y1, y2. split_and!; [done..|]. intros m Hm. split; by eapply execute_sync_mono.
Qed.

End Loaded.
