(* ===== verification/AbstractRun.v ===== *)
(** * Running handlers on an abstract state

    [at_stack l s] is the abstract state [s] with operand stack [l] (all cells
    written, top first).  The lemmas run the primitive calls of the handlers on
    such states, so that the effect of an instruction is computed by
    rewriting. *)

From S2P Require Import Prelude Felt AdviceMap Quad Operations AceCircuit Machine StackOps ArithOps.
From S2P Require Import IoOps CryptoOps FriOps ExecuteOp Memory Merkle MerkleTheory Advice.
From S2P Require Import AdviceTheory AdviceAtomic FastStack StackRefine FastProcessor ExecSim.
From S2P Require Import SpecSafe ProgramRefine.

Section Run.
Context `{Poseidon2} {D : Type} `{DI : DeferredInterface D}.

Notation Spec := (SpecProcessor D).

Definition at_stack (l : list Felt) (s : St Spec) : St Spec :=
  mkSt (put_stack (with_cells (p_stack (st_proc s)) (Some <$> l)) (st_proc s)) (st_trace s).

(** The state with further tracer events. *)
Definition traced (evs : list TracerEvent) (s : St Spec) : St Spec :=
  mkSt (st_proc s) (st_trace s ++ evs).

(** The stack after a pop: never shorter than 16. *)
Definition pop_stack_list (l : list Felt) : list Felt :=
  if (length l <=? MIN_STACK_DEPTH)%nat then tail l ++ [ZERO] else tail l.

(** Whether one more element is within the depth limit. *)
Definition has_room (l : list Felt) (s : St Spec) : Prop :=
  Z.of_nat (length l + saved_len (sp_saved (p_stack (st_proc s))) + 1) <= sp_max (p_stack (st_proc s)).

#[export] Instance has_room_dec l s : Decision (has_room l s).
Proof. unfold has_room. apply _. Defined.

Lemma at_stack_traced l evs s : at_stack l (traced evs s) = traced evs (at_stack l s).
Proof. done. Qed.

Lemma traced_traced e1 e2 s : traced e2 (traced e1 s) = traced (e1 ++ e2) s.
Proof. unfold traced. cbn. by rewrite app_assoc. Qed.

Lemma run_get l s i x : l !! i = Some x -> get i (at_stack l s) = (Ok x, at_stack l s).
Proof.
  intros Hx. unfold get, on_proc, at_stack. cbn. unfold on_stack, zoom, sp_get, cell_get. cbn.
  by rewrite list_lookup_fmap, Hx.
Qed.

Lemma run_set l s i x : (i < length l)%nat -> set i x (at_stack l s) = (Ok tt, at_stack (<[i := x]> l) s).
Proof.
  intros Hi. unfold set, on_proc, at_stack. cbn. unfold on_stack, zoom, sp_set, upd. cbn.
  rewrite update_Some by (by rewrite length_fmap). cbn. unfold at_stack, with_cells. cbn.
  by rewrite list_fmap_insert.
Qed.

Lemma run_get_word l s i a b c d :
  l !! i = Some a -> l !! (i + 1)%nat = Some b -> l !! (i + 2)%nat = Some c -> l !! (i + 3)%nat = Some d ->
  get_word i (at_stack l s) = (Ok (mkWord a b c d), at_stack l s).
Proof.
  intros Ha Hb Hc Hd. unfold get_word, on_proc, at_stack. cbn. unfold on_stack, zoom, sp_get_word, cell_get.
  cbn. by rewrite !list_lookup_fmap, Ha, Hb, Hc, Hd.
Qed.

Lemma run_decrement_size l s :
  decrement_size (at_stack l s) = (Ok tt, at_stack (pop_stack_list l) s).
Proof.
  unfold decrement_size, on_proc, at_stack. cbn. unfold on_stack, zoom. cbn.
  unfold list_pop, pop_stack_list. rewrite length_fmap. unfold with_cells. cbn.
  destruct (_ <=? _)%nat; [|by rewrite fmap_tail]. by rewrite fmap_app, fmap_tail.
Qed.

Lemma sp_increment_spec l t :
  sp_increment_size (with_cells t (Some <$> l)) =
    if decide (Z.of_nat (length l + saved_len (sp_saved t) + 1) <= sp_max t)
    then (Ok tt, with_cells t (None :: (Some <$> l)))
    else (Err (StackDepthLimitExceeded (Z.of_nat (length l + saved_len (sp_saved t) + 1)) (sp_max t)),
          with_cells t (Some <$> l)).
Proof.
  unfold sp_increment_size. cbn [with_cells sp_cells sp_saved sp_max]. rewrite length_fmap.
  destruct (Z.ltb_spec (sp_max t) (Z.of_nat (length l + saved_len (sp_saved t) + 1)));
    [by rewrite decide_False by lia|by rewrite decide_True by lia].
Qed.

(** A push is announced and then written. *)
Lemma run_push {A} l s x (k : VM Spec A) : has_room l s ->
  (do! increment_size; do! set 0 x; k) (at_stack l s) = k (at_stack (x :: l) s).
Proof.
  unfold has_room. intros Hr. unfold bind, increment_size, on_proc, at_stack.
  cbn [st_proc stack_increment_size processor_stack proc_processor proc_stack spec_stack_interface].
  unfold on_stack, zoom. cbn [p_stack put_stack]. by rewrite sp_increment_spec, decide_True.
Qed.

Lemma run_push_limit {A} l s x (k : VM Spec A) : ~ has_room l s ->
  exists d m, (do! increment_size; do! set 0 x; k) (at_stack l s) =
    (Err (StackDepthLimitExceeded d m), at_stack l s).
Proof.
  unfold has_room. intros Hr. unfold bind, increment_size, on_proc, at_stack.
  cbn [st_proc stack_increment_size processor_stack proc_processor proc_stack spec_stack_interface].
  unfold on_stack, zoom. cbn [p_stack put_stack]. rewrite sp_increment_spec, decide_False by done.
  by eexists _, _.
Qed.

(** The rest of a stack after its top is popped. *)
Definition refill (l : list Felt) : list Felt :=
  if (length l <? MIN_STACK_DEPTH)%nat then l ++ [ZERO] else l.

Lemma pop_cons x l : pop_stack_list (x :: l) = refill l.
Proof.
  unfold pop_stack_list, refill, MIN_STACK_DEPTH. cbn [length tail].
  destruct (Nat.leb_spec (S (length l)) 16), (Nat.ltb_spec (length l) 16); done || lia.
Qed.

Lemma refill_insert i x l : (i < length l)%nat -> <[i := x]> (refill l) = refill (<[i := x]> l).
Proof.
  intros Hi. unfold refill. rewrite length_insert. destruct (_ <? _)%nat; [|done].
  by rewrite insert_app_l.
Qed.

Lemma refill_length l : (length l <= length (refill l))%nat.
Proof. unfold refill. destruct (_ <? _)%nat; rewrite ?length_app; lia. Qed.

Lemma refill_lookup l i : (i < length l)%nat -> refill l !! i = l !! i.
Proof. intros Hi. unfold refill. destruct (_ <? _)%nat; [|done]. by rewrite lookup_app_l. Qed.

Lemma run_set_refill l s i x : (i < length l)%nat ->
  set i x (at_stack (refill l) s) = (Ok tt, at_stack (refill (<[i := x]> l)) s).
Proof.
  intros Hi. pose proof (refill_length l). rewrite run_set by lia. by rewrite refill_insert.
Qed.

Lemma run_trace s e : trace e s = (Ok tt, traced [e] s).
Proof. done. Qed.

(** ** Transfer to the buffer processor *)

Definition fast_runs `{Goldilocks} `{QuadField} (op : Operation) (s1 : St (FastProcessor D))
    (r : res ExecutionError OperationHelperRegisters) (s2' : St Spec) : Prop :=
  exists s1', execute_op op s1 = (r, s1') /\ st_rel proc_rel s1' s2'.

Lemma fast_runs_of `{Goldilocks} `{QuadField} op s1 s2 r s2' :
  st_rel proc_rel s1 s2 -> execute_op op s2 = (r, s2') -> r <> Panic -> fast_runs op s1 r s2'.
Proof.
  intros Hr He Hp. pose proof (execute_op_sim proc_rel op s1 s2 Hr) as Hsim.
  rewrite He in Hsim. by destruct r.
Qed.

Definition fast_runs_ops `{Goldilocks} `{QuadField} (ops : list Operation) (s1 : St (FastProcessor D))
    (r : res ExecutionError unit) (s2' : St Spec) : Prop :=
  exists s1', execute_ops ops s1 = (r, s1') /\ st_rel proc_rel s1' s2'.

Lemma fast_runs_ops_of `{Goldilocks} `{QuadField} ops s1 s2 r s2' :
  st_rel proc_rel s1 s2 -> execute_ops ops s2 = (r, s2') -> r <> Panic -> fast_runs_ops ops s1 r s2'.
Proof.
  intros Hr He Hp. pose proof (execute_ops_sim ops s1 s2 Hr) as Hsim.
  rewrite He in Hsim. by destruct r.
Qed.

End Run.

(** Run the next primitive call of a handler on a concrete list. *)
Ltac run_step :=
  cbv zeta;
  lazymatch goal with
  | |- context [bind (get _) _ (at_stack _ _)] => erewrite bind_Ok by (apply run_get; reflexivity)
  | |- context [bind (get_word _) _ (at_stack _ _)] =>
      erewrite bind_Ok by (apply run_get_word; reflexivity)
  | |- context [bind (trace ?e) _ _] => erewrite bind_Ok by (apply run_trace)
  | |- context [bind (set _ _) _ (at_stack (refill _) _)] =>
      erewrite bind_Ok by (apply run_set_refill; cbn [length]; lia); cbn [insert list_insert]
  | |- context [bind (set _ _) _ (at_stack _ _)] =>
      erewrite bind_Ok by (apply run_set; cbn [length]; lia); cbn [insert list_insert]
  | |- context [bind decrement_size _ (at_stack _ _)] =>
      erewrite bind_Ok by (apply run_decrement_size); rewrite ?pop_cons
  | |- context [bind (ret ?x) _ ?s] => rewrite (bind_Ok (ret x) _ s x s eq_refl)
  end.

(** Tracer calls commute with stack updates. *)
Ltac run_auto := repeat (repeat rewrite <- at_stack_traced; run_step); repeat rewrite at_stack_traced.
