(* ===== verification/DeferredOp.v ===== *)
(** * Logging deferred statements from the processor

    The deferred state behind the processor's interface: the states that
    satisfy the invariant, with [log_verified_statement] of
    core/src/deferred/state.rs.  The instruction LOG_DEFERRED computes the new
    root with the hasher, and that root is always the one the state expects. *)

From S2P Require Import Prelude Felt AdviceMap Quad Operations AceCircuit Machine StackOps ArithOps.
From S2P Require Import IoOps CryptoOps FriOps ExecuteOp Memory Merkle Deferred DeferredTheory.
From S2P Require Import DeferredHistory MerkleTheory Advice AdviceTheory AdviceAtomic FastStack.
From S2P Require Import StackRefine FastProcessor ExecSim SpecSafe ProgramRefine AbstractRun.

Section Interface.
Context `{Poseidon2}.

Definition VerifiedState : Type := { s : DeferredState | good s }.

Definition log_in (statement root : Word) (s : DeferredState) : res PrecompileError Word * DeferredState :=
  state_log_verified_statement MAX_EVALUATION_DEPTH statement root s.

Lemma log_in_good statement root s : good s -> good (snd (log_in statement root s)).
Proof.
  intros Hg. destruct (log_in statement root s) as [r s'] eqn:Hl. by eapply log_verified_good.
Qed.

Definition res_unit {E A} (r : res E A) : res E unit :=
  match r with Ok _ => Ok tt | Err e => Err e | Panic => Panic end.

#[export] Instance verified_interface : DeferredInterface VerifiedState := {|
  deferred_root d := ds_root (proj1_sig d);
  log_verified_statement statement root d :=
    (res_unit (fst (log_in statement root (proj1_sig d))),
     exist good (snd (log_in statement root (proj1_sig d))) (log_in_good _ _ _ (proj2_sig d)))
|}.

#[export] Instance verified_laws : DeferredLaws VerifiedState.
Proof.
  intros a b [s Hg]. change (res_unit (fst (log_in a b s)) <> Panic). destruct (log_in a b s) as [r s'] eqn:Hl.
  destruct (log_verified_good s a b r s' Hg Hl) as [Hp _]. by destruct r.
Qed.

(** The hasher's fold is the state's. *)
Lemma permute_fold root statement :
  hs_rate0 (apply_permutation (mkHasherState root statement TAG_AND)) = fold_deferred_root root statement.
Proof. done. Qed.

Lemma log_in_fold s statement :
  log_in statement (fold_deferred_root (ds_root s) statement) s =
    log_statement MAX_EVALUATION_DEPTH statement s.
Proof. unfold log_in, state_log_verified_statement. rewrite bind_gets. by rewrite decide_True. Qed.

Lemma log_verified_fold (d : VerifiedState) statement r s' :
  log_statement MAX_EVALUATION_DEPTH statement (proj1_sig d) = (r, s') ->
  exists d', proj1_sig d' = s' /\
    log_verified_statement statement (fold_deferred_root (ds_root (proj1_sig d)) statement) d =
      (res_unit r, d').
Proof.
  intros Hl. rewrite <- log_in_fold in Hl. set (root := fold_deferred_root _ _) in *.
  exists (snd (log_verified_statement statement root d)). split.
  - change (snd (log_in statement root (proj1_sig d)) = s'). by rewrite Hl.
  - rewrite (surjective_pairing (log_verified_statement statement root d)). f_equal.
    change (res_unit (fst (log_in statement root (proj1_sig d))) = res_unit r). by rewrite Hl.
Qed.

End Interface.

Section Log.
Context `{G : Goldilocks} `{Q0 : QuadField} `{Poseidon2}.

Notation Spec := (SpecProcessor VerifiedState).

Definition with_deferred (d : VerifiedState) (s : St Spec) : St Spec :=
  mkSt (put_deferred d (st_proc s)) (st_trace s).

Lemma run_set_word_app p a b c d l w (s : St Spec) :
  set_word (length p) w (at_stack (p ++ [a; b; c; d] ++ l) s) = (Ok tt, at_stack (p ++ into_elements w ++ l) s).
Proof.
  unfold set_word, on_proc, at_stack. cbn. unfold on_stack, zoom, sp_set_word, upd, copy_at. cbn.
  rewrite length_fmap, !length_app. cbn [length fmap list_fmap into_elements].
  rewrite (proj2 (Nat.leb_le _ _)) by lia. cbn. unfold with_cells. cbn.
  rewrite !fmap_app, take_app_length', drop_app_ge by (rewrite ?length_fmap; lia).
  rewrite length_fmap. replace (length p + 4 - length p)%nat with 4%nat by lia. done.
Qed.

Lemma run_log_deferred l (s : St Spec) statement root :
  on_proc (sys_log_deferred_statement statement root) (at_stack l s) =
  let '(r, d) := log_verified_statement statement root (p_deferred (st_proc s)) in
  (match r with Ok _ => Ok tt | Err e => Err (EOperation (Machine.Deferred e)) | Panic => Panic end,
   at_stack l (with_deferred d s)).
Proof.
  unfold on_proc, at_stack. cbn [st_proc sys_log_deferred_statement processor_system proc_processor proc_system].
  unfold log_deferred_statement, zoom.
  change (p_deferred (put_stack (with_cells (p_stack (st_proc s)) (Some <$> l)) (st_proc s)))
    with (p_deferred (st_proc s)).
  by destruct (log_verified_statement statement root (p_deferred (st_proc s))) as [[[]|e|] d].
Qed.

(** C35: LOG_DEFERRED on the buffer processor, with the previous root in the
    deferred state and a statement digest at stack positions 4 to 7, logs the
    statement exactly as [log_statement] does.  The root the hasher computes is
    always the one the state expects: on success it is the new deferred root
    and the top word, the statement is memoized TRUE, and the rest of the
    permutation is written below it; on failure the root and the stack are
    unchanged. *)
Theorem log_deferred_correct (w0 statement w2 : Word) rest (s : St Spec) s1 :
  let l := into_elements w0 ++ into_elements statement ++ into_elements w2 ++ rest in
  st_rel proc_rel s1 (at_stack l s) ->
  let state := proj1_sig (p_deferred (st_proc s)) in
  let out := apply_permutation (mkHasherState (ds_root state) statement (as_word Tag_AND)) in
  match log_statement MAX_EVALUATION_DEPTH statement state with
  | (Ok root, state') =>
      root = hs_rate0 out /\ ds_root state' = root /\ ds_evals state' !! statement = Some TRUE_DIGEST /\
      exists h evs d', proj1_sig d' = state' /\
        fast_runs Op.LogDeferred s1 (Ok h)
          (traced evs (at_stack (into_elements (hs_rate0 out) ++ into_elements (hs_rate1 out) ++
            into_elements (hs_capacity out) ++ rest) (with_deferred d' s)))
  | (Err e, state') =>
      ds_root state' = ds_root state /\
      exists d', proj1_sig d' = state' /\
        fast_runs Op.LogDeferred s1 (Err (EOperation (Machine.Deferred e))) (at_stack l (with_deferred d' s))
  | (Panic, _) => False
  end.
Proof.
  intros l Hs1 state out. destruct (log_statement _ statement state) as [r state'] eqn:Hlog.
  pose proof (proj2_sig (p_deferred (st_proc s))) as Hg. fold state in Hg.
  destruct (log_statement_good state statement r state' Hg Hlog) as (Hp & _ & _ & Hres).
  destruct (log_verified_fold _ _ _ _ Hlog) as (d' & Hd' & Hver).
  assert (on_proc (sys_log_deferred_statement statement (hs_rate0 out)) (at_stack l s) =
    (match r with Ok _ => Ok tt | Err e => Err (EOperation (Machine.Deferred e)) | Panic => Panic end,
     at_stack l (with_deferred d' s))) as Hrun.
  { rewrite run_log_deferred. change (hs_rate0 out)
      with (fold_deferred_root (ds_root (proj1_sig (p_deferred (st_proc s)))) statement).
    rewrite Hver. by destruct r. }
  assert (get_word 4 (at_stack l s) = (Ok statement, at_stack l s)) as Hget.
  { rewrite (run_get_word _ _ _ (word_a statement) (word_b statement) (word_c statement) (word_d statement));
      try done. by destruct statement. }
  destruct r as [root|e|]; [| |done].
  - destruct Hres as (-> & Hroot & Hm). split; [done|]. split; [done|]. split; [done|].
    eexists _, _, d'. split; [done|]. eapply fast_runs_of; [done| |done]. cbn [execute_op].
    unfold op_log_deferred. rewrite (bind_Ok _ _ _ _ _ Hget).
    erewrite bind_Ok; [|done]. erewrite bind_Ok; [|done]. cbv beta iota zeta.
    erewrite bind_Ok; [|exact Hrun].
    erewrite bind_Ok; [|apply (run_set_word_app [])].
    erewrite bind_Ok; [|apply (run_set_word_app (into_elements _))].
    erewrite bind_Ok; [|apply (run_set_word_app (into_elements _ ++ into_elements _))].
    by run_auto.
  - split; [done|]. exists d'. split; [done|]. eapply fast_runs_of; [done| |done]. cbn [execute_op].
    unfold op_log_deferred. rewrite (bind_Ok _ _ _ _ _ Hget).
    erewrite bind_Ok; [|done]. erewrite bind_Ok; [|done]. cbv beta iota zeta.
    by erewrite bind_Err; [|exact Hrun].
Qed.

End Log.
