(* ===== verification/EventTheorems.v ===== *)
(** * What the system events do

    The functional behaviour of the system events on the buffer processor: the
    hints they put on the advice stack, the entries they add to the advice map
    and read back, and that handling any event, the host's included, refines the
    abstract processor and leaves everything but the advice provider and the
    deferred state alone. *)

From S2P Require Import Prelude Felt AdviceMap Quad Operations OpBatch Mast AceCircuit Machine.
From S2P Require Import ExecuteOp Control Exec Memory Merkle Deferred MerkleTheory Advice.
From S2P Require Import AdviceTheory AdviceAtomic FastStack StackRefine FastProcessor ExecSim.
From S2P Require Import ProcView SysEvents SpecSafe ExecSafe EventSim.

(** ** Bit counts *)

(** The [n] top bits of the 32-bit value [x] are [b], and the next one is not. *)
Definition run_top (b : bool) (x n : Z) : Prop :=
  0 <= n <= 32 /\ (forall i, 32 - n <= i < 32 -> Z.testbit x i = b) /\
  (n < 32 -> Z.testbit x (31 - n) = negb b).

(** The [n] low bits are [b], and the next one is not. *)
Definition run_bottom (b : bool) (x n : Z) : Prop :=
  0 <= n <= 32 /\ (forall i, 0 <= i < n -> Z.testbit x i = b) /\ (n < 32 -> Z.testbit x n = negb b).

Lemma leading_zeros_run x : 0 <= x <= U32_MAX -> run_top false x (leading_zeros x).
Proof.
  unfold U32_MAX. intros Hx. unfold leading_zeros. destruct (Z.eqb_spec x 0) as [->|Hn].
  - split; [lia|]. split; [intros; apply Z.testbit_0_l|lia].
  - pose proof (Z.log2_nonneg x). assert (Z.log2 x < 32) by (apply Z.log2_lt_pow2; lia).
    split; [lia|]. split; [intros i Hi; apply Z.bits_above_log2; lia|]. intros _.
    replace (31 - (31 - Z.log2 x)) with (Z.log2 x) by lia. apply Z.bit_log2. lia.
Qed.

Lemma count_trailing_run n : forall x, 0 <= count_trailing n x <= Z.of_nat n /\
  (forall i, 0 <= i < count_trailing n x -> Z.testbit x i = false) /\
  (count_trailing n x < Z.of_nat n -> Z.testbit x (count_trailing n x) = true).
Proof.
  induction n as [|n IH]; intros x; cbn [count_trailing]; [split_and!; lia|].
  destruct (Z.odd x) eqn:Ho; [split_and!; [lia..|by rewrite Z.bit0_odd]|].
  destruct (IH (x / 2)) as (Hb & Hf & Ht). split; [lia|].
  assert (forall i, 0 <= i -> Z.testbit (x / 2) i = Z.testbit x (1 + i)) as Hs.
  { intros i Hi. change 2 with (2 ^ 1). rewrite Z.div_pow2_bits by lia. f_equal. lia. }
  split; [|intros Hc; rewrite <- Hs by lia; apply Ht; lia].
  intros i Hi. destruct (Z.eq_dec i 0) as [->|]; [by rewrite Z.bit0_odd|].
  replace i with (1 + (i - 1)) by lia. rewrite <- Hs by lia. apply Hf. lia.
Qed.

Lemma trailing_zeros_run x : run_bottom false x (trailing_zeros x).
Proof. apply (count_trailing_run 32). Qed.

Lemma not32_bits x i : 0 <= x <= U32_MAX -> 0 <= i < 32 -> Z.testbit (not32 x) i = negb (Z.testbit x i).
Proof.
  unfold not32, U32_MAX. intros Hx Hi. rewrite <- Z.lnot_spec by lia.
  rewrite <- (Z.mod_pow2_bits_low (Z.lnot x) 32) by lia. f_equal.
  unfold Z.lnot. apply (Z.mod_unique _ _ (-1)); lia.
Qed.

Lemma not32_range x : 0 <= x <= U32_MAX -> 0 <= not32 x <= U32_MAX.
Proof. unfold not32. lia. Qed.

Lemma leading_ones_run x : 0 <= x <= U32_MAX -> run_top true x (leading_ones x).
Proof.
  intros Hx. destruct (leading_zeros_run _ (not32_range x Hx)) as (Hb & Hf & Ht). fold (leading_ones x) in *.
  split; [done|]. split.
  - intros i Hi. specialize (Hf i Hi). rewrite not32_bits in Hf by lia. by destruct (Z.testbit x i).
  - intros Hn. specialize (Ht Hn). rewrite not32_bits in Ht by lia. by destruct (Z.testbit x _).
Qed.

Lemma trailing_ones_run x : 0 <= x <= U32_MAX -> run_bottom true x (trailing_ones x).
Proof.
  intros Hx. destruct (trailing_zeros_run (not32 x)) as (Hb & Hf & Ht). fold (trailing_ones x) in *.
  split; [done|]. split.
  - intros i Hi. specialize (Hf i Hi). rewrite not32_bits in Hf by lia. by destruct (Z.testbit x i).
  - intros Hn. specialize (Ht Hn). rewrite not32_bits in Ht by lia. by destruct (Z.testbit x _).
Qed.

Section Reads.
Context `{G : Goldilocks} `{Q : QuadField} `{QI : QuadInverse} `{QIL : !QuadInverseLaws Q QI}.
Context `{PO : Poseidon2} {D : Type} `{DI : DeferredInterface D}.
Context `{DE : DeferredEvents D} `{DEL : !DeferredEventsLaws D}.

Notation Fast := (FastProcessor D).
Notation Spec := (SpecProcessor D).

(** The event [e] on the buffer processor ends with [r] in a state that
    represents [p2]. *)
Definition emits (e : SystemEvent) (p1 : Fast) (r : res ExecutionError unit) (p2 : Spec) : Prop :=
  exists p1', handle_system_event e p1 = (r, p1') /\ proc_rel p1' p2.

Lemma emits_of e p1 p2 r p2' : proc_rel p1 p2 -> handle_system_event e p2 = (r, p2') -> r <> Panic ->
  emits e p1 r p2'.
Proof.
  intros Hp Hr Hn. pose proof (sim_system_event e p1 p2 Hp) as Hs. rewrite Hr in Hs. by destruct r.
Qed.

(** ** Reading the operand stack *)

(** The stack holds [l], top first. *)
Definition holds (p : Spec) (l : list Felt) : Prop :=
  sp_cells (p_stack p) = Some <$> l /\ (MIN_STACK_DEPTH <= length l)%nat.

(** Below the stack everything is zero. *)
Definition elem (l : list Felt) (i : nat) : Felt := default ZERO (l !! i).
Definition word_from (l : list Felt) (i : nat) : Word :=
  mkWord (elem l i) (elem l (i + 1)) (elem l (i + 2)) (elem l (i + 3)).

Lemma elem_lookup l i : (i < length l)%nat -> l !! i = Some (elem l i).
Proof. intros Hi. unfold elem. by destruct (lookup_lt_is_Some_2 l i Hi) as [x ->]. Qed.

Lemma holds_get p l i : holds p l -> (i < length l)%nat -> cell_get (sp_cells (p_stack p)) i = Some (elem l i).
Proof. intros [-> _] Hi. unfold cell_get. by rewrite list_lookup_fmap, elem_lookup. Qed.

Lemma run_get_at p l i : holds p l -> (i < length l)%nat -> get_at i p = (Ok (elem l i), p).
Proof.
  intros Hl Hi. unfold get_at, on_stack, zoom. cbn. unfold sp_get. rewrite (holds_get p l) by done.
  by destruct p.
Qed.

Lemma run_get_word_at p l i : holds p l -> (i + 3 < length l)%nat -> get_word_at i p = (Ok (word_from l i), p).
Proof.
  intros Hl Hi. unfold get_word_at, on_stack, zoom. cbn. unfold sp_get_word.
  rewrite !(holds_get p l) by (done || lia). by destruct p.
Qed.

Lemma run_get_word_safe p l i : holds p l -> get_word_safe_at i p = (Ok (word_from l i), p).
Proof.
  intros [Hl _]. unfold get_word_safe_at, on_stack, zoom, stack_get_word_safe, spec_safe_read, sp_get_word_safe.
  assert (forall k, cell_get_safe (sp_cells (p_stack p)) k = Some (elem l k)) as Hk.
  { intros k. unfold cell_get_safe, elem. rewrite Hl, list_lookup_fmap. by destruct (l !! k). }
  cbn [mapM]. rewrite !Hk. by destruct p.
Qed.

Lemma holds_depth p l : holds p l -> (16 <= length l)%nat.
Proof. by intros [_ Hl]. Qed.

End Reads.

(** One step of a handler that reads the stack. *)
Ltac read_step Hl :=
  let Hd := fresh in pose proof (holds_depth _ _ Hl) as Hd;
  first
    [ erewrite bind_Ok; [|apply (run_get_word_at _ _ _ Hl); lia]
    | erewrite bind_Ok; [|apply (run_get_at _ _ _ Hl); lia]
    | erewrite bind_Ok; [|apply (run_get_word_safe _ _ _ Hl)] ];
  clear Hd.

Section Events.
Context `{G : Goldilocks} `{Q : QuadField} `{QI : QuadInverse} `{QIL : !QuadInverseLaws Q QI}.
Context `{PO : Poseidon2} {D : Type} `{DI : DeferredInterface D}.
Context `{DE : DeferredEvents D} `{DEL : !DeferredEventsLaws D}.

Notation Fast := (FastProcessor D).
Notation Spec := (SpecProcessor D).

(** ** Pushing hints *)

(** The provider after pushing [l] on the advice stack. *)
Definition pushed (l : list Felt) (a : AdviceProvider) : AdviceProvider :=
  grown a (l ++ ap_stack a) (ap_map a) (ap_store a) (8 * Z.of_nat (length l)).

(** [e] pushes [l] if the budget allows it, and otherwise fails without effect. *)
Definition pushes (e : SystemEvent) (p1 : Fast) (p2 : Spec) (l : list Felt) : Prop :=
  if decide (fits (p_advice p2) (8 * Z.of_nat (length l)))
  then emits e p1 (Ok tt) (put_advice (pushed l (p_advice p2)) p2)
  else exists err, emits e p1 (Err err) p2.

Lemma run_advice_grows {A} (m : AP A) n x a' (p : Spec) : grows m (p_advice p) n x a' ->
  if decide (fits (p_advice p) n) then on_advice m p = (Ok x, put_advice a' p)
  else exists err, on_advice m p = (Err err, p).
Proof.
  unfold grows, on_advice, zoom. destruct (decide _).
  - by intros ->.
  - intros [e ->]. exists (EAdvice e). by destruct p.
Qed.

Lemma pushes_of e p1 (p2 : Spec) l m : proc_rel p1 p2 ->
  handle_system_event e p2 = on_advice m p2 ->
  grows m (p_advice p2) (8 * Z.of_nat (length l)) tt (pushed l (p_advice p2)) ->
  pushes e p1 p2 l.
Proof.
  intros Hp He Hg. apply run_advice_grows in Hg. unfold pushes.
  destruct (decide _); [by apply (emits_of e p1 p2); [|rewrite He|]|].
  destruct Hg as [err Hg]. exists err. by apply (emits_of e p1 p2); [|rewrite He|].
Qed.

Lemma push_one e p1 (p2 : Spec) x : proc_rel p1 p2 -> proc_ok 0 p2 ->
  handle_system_event e p2 = on_advice (push_stack x) p2 -> pushes e p1 p2 [x].
Proof. intros Hp [_ Ha] He. apply (pushes_of e p1 p2 [x] _ Hp He), (push_stack_grows x _ Ha). Qed.

(** ** Arithmetic hints *)

Lemma pushed_app l1 l2 a : pushed l2 (pushed l1 a) = pushed (l2 ++ l1) a.
Proof. unfold pushed, grown. cbn. rewrite length_app, <- app_assoc. f_equal. lia. Qed.

Lemma fits_pushed a l n : fits a (8 * Z.of_nat (length l) + n) -> 0 <= n -> fits (pushed l a) n.
Proof. unfold fits, pushed, grown. cbn. lia. Qed.

Lemma run_push_advice (p : Spec) x : adv_wf (p_advice p) -> fits (p_advice p) 8 ->
  on_advice (push_stack x) p = (Ok tt, put_advice (pushed [x] (p_advice p)) p) /\
  adv_wf (pushed [x] (p_advice p)).
Proof.
  intros Ha Hf. pose proof (run_advice_grows _ _ _ _ p (push_stack_grows x _ Ha)) as Hr.
  rewrite decide_True in Hr by done. split; [done|]. apply grown_wf; [done..|].
  unfold contents_bytes. cbn [length app]. lia.
Qed.

Lemma transformed_run f (p : Spec) l : holds p l -> ⟦elem l 1⟧ <= U32_MAX ->
  push_transformed_stack_top f p = on_advice (push_stack (f ⟦elem l 1⟧)) p.
Proof.
  intros Hl Hx. unfold push_transformed_stack_top. read_step Hl. by rewrite (proj2 (Z.ltb_ge _ _)).
Qed.

Lemma transformed_error f (p : Spec) l : holds p l -> U32_MAX < ⟦elem l 1⟧ ->
  push_transformed_stack_top f p = (Err (EOperation (NotU32Values [elem l 1])), p).
Proof.
  intros Hl Hx. unfold push_transformed_stack_top. read_step Hl. by rewrite (proj2 (Z.ltb_lt _ _)).
Qed.

(** The arithmetic hints.  On a 32-bit value below the event id, U32Clz, U32Ctz,
    U32Clo and U32Cto push the length of the run of zeros or ones at its top or
    bottom, and fail on any other value; ILog2 pushes the binary logarithm of a
    nonzero element; Ext2Inv pushes the coefficients of the inverse of a nonzero
    element of the extension field, the high one on top.  Nothing else changes. *)
Lemma hint_events_correct p1 p2 l :
  proc_rel p1 p2 -> proc_ok 0 p2 -> holds p2 l ->
  let x := elem l 1 in
  (if decide (⟦x⟧ <= U32_MAX) then
     (exists n, run_top false ⟦x⟧ n /\ pushes U32Clz p1 p2 [from_u32 n]) /\
     (exists n, run_bottom false ⟦x⟧ n /\ pushes U32Ctz p1 p2 [from_u32 n]) /\
     (exists n, run_top true ⟦x⟧ n /\ pushes U32Clo p1 p2 [from_u32 n]) /\
     (exists n, run_bottom true ⟦x⟧ n /\ pushes U32Cto p1 p2 [from_u32 n])
   else
     Forall (fun e => emits e p1 (Err (EOperation (NotU32Values [x]))) p2) [U32Clz; U32Ctz; U32Clo; U32Cto]) /\
  (if decide (x = ZERO) then emits ILog2 p1 (Err (EOperation LogArgumentZero)) p2
   else exists n, 2 ^ n <= ⟦x⟧ < 2 ^ (n + 1) /\ pushes ILog2 p1 p2 [from_u32 n]) /\
  (let q := mkQuad x (elem l 2) in
   if decide (q = QUAD_ZERO) then emits Ext2Inv p1 (Err (EOperation DivideByZero)) p2
   else exists b, (q * b)%Q = QUAD_ONE /\
     (fits (p_advice p2) 16 ->
      emits Ext2Inv p1 (Ok tt) (put_advice (pushed [q1 b; q0 b] (p_advice p2)) p2))).
Proof.
  intros Hp Hok Hl x. pose proof (felt_range x) as Hx. split_and!.
  - destruct (decide _) as [Hu|Hu].
    + assert (0 <= ⟦x⟧ <= U32_MAX) as Hr by lia.
      split_and!; eexists; (split; [by first [apply leading_zeros_run|apply trailing_zeros_run|
        apply leading_ones_run|apply trailing_ones_run]|]); apply push_one; try done;
        by apply (transformed_run (fun v => from_u32 _)).
    + repeat apply Forall_cons_2; try apply Forall_nil_2;
        (apply (emits_of _ p1 p2); [done| |done]; apply transformed_error; [done|change (U32_MAX < ⟦x⟧); lia]).
  - assert (handle_system_event ILog2 p2 = (if ⟦x⟧ =? 0 then fail (EOperation LogArgumentZero) else
      on_advice (push_stack (from_u32 (Z.log2 ⟦x⟧)))) p2) as He
      by (cbn [handle_system_event]; unfold push_ilog2; by read_step Hl).
    destruct (decide _) as [Hz|Hz].
    + apply (emits_of _ p1 p2); [done| |done]. rewrite He. by rewrite Hz.
    + assert (⟦x⟧ <> 0) as Hn by (intros E; destruct Hz; by apply felt_eq).
      rewrite (proj2 (Z.eqb_neq _ _)) in He by done. exists (Z.log2 ⟦x⟧).
      split; [apply Z.log2_spec; lia|]. by apply push_one.
  - cbv zeta. destruct (decide _) as [Hz|Hz].
    + apply (emits_of _ p1 p2); [done| |done]. cbn [handle_system_event]. unfold push_ext2_inv_result.
      do 2 read_step Hl. fold x. by rewrite decide_True.
    + destruct (q_inverse_spec _ Hz) as (b & Hb & Hone). exists b. split; [done|]. intros Hf.
      apply (emits_of _ p1 p2); [done| |done]. cbn [handle_system_event]. unfold push_ext2_inv_result.
      do 2 read_step Hl. fold x. cbv zeta. rewrite decide_False, Hb by done.
      destruct (run_push_advice p2 (q0 b)) as [H1 Ha1]; [apply Hok|unfold fits in *; lia|].
      erewrite bind_Ok; [|done]. rewrite (bind_Ok _ _ _ _ _ H1).
      destruct (run_push_advice (put_advice (pushed [q0 b] (p_advice p2)) p2) (q1 b)) as [H2 _];
        [done|apply fits_pushed; [done|lia]|]. rewrite H2. cbn [p_advice put_advice]. by rewrite pushed_app.
Qed.

(** ** Entries of the advice map *)

Lemma pad_len_spec len k : 0 <= len -> 0 < k -> (len + pad_len len k) mod k = 0 /\ 0 <= pad_len len k < k.
Proof.
  intros Hl Hk. unfold pad_len, div_ceil. rewrite (proj2 (Z.eqb_neq k 0)) by lia.
  replace (len + ((len + k - 1) / k * k - len)) with ((len + k - 1) / k * k) by lia.
  split; [apply Z.mod_mul; lia|].
  pose proof (Z.div_mod (len + k - 1) k). pose proof (Z.mod_pos_bound (len + k - 1) k). lia.
Qed.

Lemma map_value_run e include_len pad_to p1 (p2 : Spec) l values :
  proc_rel p1 p2 -> proc_ok 0 p2 -> holds p2 l -> 0 <= pad_to <= 255 ->
  handle_system_event e = copy_map_value_to_adv_stack (Stk := SpecStack) include_len pad_to ->
  ap_map (p_advice p2) !! word_from l 1 = Some values ->
  pushes e p1 p2 (mapped_block values include_len (pad_len (Z.of_nat (length values)) pad_to)).
Proof.
  intros Hp [_ Ha] Hl Hpad He Hk.
  apply (pushes_of e p1 p2 _ (push_from_map (word_from l 1) include_len pad_to)); [done| |].
  - rewrite He. unfold copy_map_value_to_adv_stack. by read_step Hl.
  - unfold pushed. rewrite (Z.mul_comm 8). by apply push_from_map_grows.
Qed.

Lemma map_value_missing e include_len pad_to p1 (p2 : Spec) l :
  proc_rel p1 p2 -> holds p2 l ->
  handle_system_event e = copy_map_value_to_adv_stack (Stk := SpecStack) include_len pad_to ->
  ap_map (p_advice p2) !! word_from l 1 = None ->
  emits e p1 (Err (EAdvice (MapKeyNotFound (word_from l 1)))) p2.
Proof.
  intros Hp Hl He Hk. apply (emits_of e p1 p2); [done| |done]. rewrite He.
  unfold copy_map_value_to_adv_stack. read_step Hl. unfold on_advice, zoom, push_from_map.
  rewrite bind_gets. cbn [id]. rewrite Hk. by destruct p2.
Qed.

Lemma has_key_run (p2 : Spec) l : holds p2 l ->
  push_key_presence_flag p2 =
    on_advice (push_stack (from_bool (bool_decide (is_Some (ap_map (p_advice p2) !! word_from l 1))))) p2.
Proof.
  intros Hl. unfold push_key_presence_flag. read_step Hl.
  by rewrite (bind_Ok _ _ p2 (bool_decide (is_Some (ap_map (p_advice p2) !! word_from l 1))) p2)
    by (by destruct p2).
Qed.

Lemma count_event_run (p2 : Spec) l : holds p2 l ->
  copy_map_value_length_to_adv_stack p2 =
    match ap_map (p_advice p2) !! word_from l 1 with
    | Some values => on_advice (push_stack (new_unchecked (Z.of_nat (length values)))) p2
    | None => (Err (EAdvice (MapKeyNotFound (word_from l 1))), p2)
    end.
Proof.
  intros Hl. unfold copy_map_value_length_to_adv_stack. read_step Hl.
  rewrite (bind_Ok _ _ p2 (ap_map (p_advice p2) !! word_from l 1) p2) by (by destruct p2).
  by destruct (ap_map (p_advice p2) !! _).
Qed.

(** [values] followed by the zeros that make its length a multiple of [k]. *)
Definition padded (k : Z) (values block : list Felt) : Prop :=
  exists n, block = values ++ replicate n ZERO /\ Z.of_nat n < k /\ Z.of_nat (length values + n) mod k = 0.

Lemma mapped_block_padded k values : 0 < k ->
  exists block, padded k values block /\
    mapped_block values true (pad_len (Z.of_nat (length values)) k) =
      new_unchecked (Z.of_nat (length values)) :: block.
Proof.
  intros Hk. destruct (pad_len_spec (Z.of_nat (length values)) k ltac:(lia) Hk) as [Hm Hp].
  eexists. split; [|done]. eexists. split; [done|]. split; [lia|].
  rewrite Nat2Z.inj_add, Z2Nat.id by lia. done.
Qed.

(** Looking up the advice map.  With a key on the operand stack, HasMapKey
    pushes whether the map has it; for a key it has, MapValueCountToStack pushes
    the length of the values, MapValueToStack the values, and the N0, N4 and N8
    events the length and the values, padded with the fewest zeros to a multiple
    of 4 or 8; for a key it has not, they fail with the key.  Without room in the
    advice budget they fail without effect. *)
Lemma map_value_events_correct p1 p2 l :
  proc_rel p1 p2 -> proc_ok 0 p2 -> holds p2 l ->
  let key := word_from l 1 in
  match ap_map (p_advice p2) !! key with
  | Some values =>
      let len := new_unchecked (Z.of_nat (length values)) in
      pushes HasMapKey p1 p2 [ONE] /\
      pushes MapValueCountToStack p1 p2 [len] /\
      pushes MapValueToStack p1 p2 values /\
      pushes MapValueToStackN0 p1 p2 (len :: values) /\
      (exists block, padded 4 values block /\ pushes MapValueToStackN4 p1 p2 (len :: block)) /\
      (exists block, padded 8 values block /\ pushes MapValueToStackN8 p1 p2 (len :: block))
  | None =>
      pushes HasMapKey p1 p2 [ZERO] /\
      Forall (fun e => emits e p1 (Err (EAdvice (MapKeyNotFound key))) p2)
        [MapValueCountToStack; MapValueToStack; MapValueToStackN0; MapValueToStackN4; MapValueToStackN8]
  end.
Proof.
  intros Hp Hok Hl key. destruct (ap_map (p_advice p2) !! key) as [values|] eqn:Hk.
  - cbv zeta. split_and!.
    + apply push_one; [done..|]. etrans; [apply (has_key_run p2 l Hl)|]. fold key. by rewrite Hk.
    + apply push_one; [done..|]. etrans; [apply (count_event_run p2 l Hl)|]. fold key. by rewrite Hk.
    + pose proof (map_value_run MapValueToStack false 0 p1 p2 l values Hp Hok Hl ltac:(lia) eq_refl Hk) as Hm.
      unfold mapped_block, pad_len in Hm. cbn in Hm. by rewrite app_nil_r in Hm.
    + pose proof (map_value_run MapValueToStackN0 true 0 p1 p2 l values Hp Hok Hl ltac:(lia) eq_refl Hk) as Hm.
      unfold mapped_block, pad_len in Hm. cbn in Hm. by rewrite app_nil_r in Hm.
    + destruct (mapped_block_padded 4 values) as (b & Hb & Heq); [lia|]. exists b. split; [done|].
      rewrite <- Heq. by apply (map_value_run MapValueToStackN4 true 4 p1 p2 l).
    + destruct (mapped_block_padded 8 values) as (b & Hb & Heq); [lia|]. exists b. split; [done|].
      rewrite <- Heq. by apply (map_value_run MapValueToStackN8 true 8 p1 p2 l).
  - split; [apply push_one; [done..|]; etrans; [apply (has_key_run p2 l Hl)|]; fold key; by rewrite Hk|].
    apply Forall_cons_2.
    + apply (emits_of _ p1 p2); [done| |done]. etrans; [apply (count_event_run p2 l Hl)|]. fold key. by rewrite Hk.
    + repeat apply Forall_cons_2; try apply Forall_nil_2; by eapply map_value_missing.
Qed.

(** ** Adding entries *)

(** The entry an event adds: words of the stack under their hash, or a range of
    memory under the key on the stack. *)
Definition preimage (e : SystemEvent) (p : Spec) (l : list Felt) : option (Word * list Felt) :=
  let a := word_from l 1 in
  let b := word_from l 5 in
  let c := word_from l 9 in
  let d := word_from l 13 in
  match e with
  | HdwordToMap =>
      Some (hs_rate0 (apply_permutation (mkHasherState a b EMPTY_WORD)), into_elements a ++ into_elements b)
  | HdwordToMapWithDomain =>
      Some (hs_rate0 (apply_permutation (mkHasherState a b (mkWord ZERO (elem l 9) ZERO ZERO))),
            into_elements a ++ into_elements b)
  | HqwordToMap =>
      Some (hs_rate0 (foldl absorb_block zero_state [(a, b); (c, d)]), block_felts (a, b) ++ block_felts (c, d))
  | HpermToMap =>
      Some (hs_rate0 (apply_permutation (mkHasherState a b c)), into_elements a ++ into_elements b)
  | MemToMap =>
      if decide (⟦elem l 5⟧ <= ⟦elem l 6⟧ <= U32_MAX)
      then Some (a, read_range (p_memory p) (p_ctx p) ⟦elem l 5⟧ ⟦elem l 6⟧) else None
  | _ => None
  end.

Lemma hash_two_blocks a b c d :
  hash_elements (into_elements a ++ into_elements b ++ into_elements c ++ into_elements d) =
    hs_rate0 (foldl absorb_block zero_state [(a, b); (c, d)]).
Proof.
  by rewrite <- hash_elements_blocks.
Qed.

(** The allocation check passes without effect, or fails as the insertion does. *)
Lemma check_then_insert key values a : adv_wf a -> ap_map a !! key = None ->
  check_map_value_allocation (Z.of_nat (length values)) a = (Ok tt, a) \/
  exists e, check_map_value_allocation (Z.of_nat (length values)) a = (Err e, a) /\
    insert_into_map key values a = (Err e, a).
Proof.
  intros Ha Hk. unfold check_map_value_allocation, insert_into_map. rewrite bind_gets, Hk.
  destruct (decide (entry_bytes values <= USIZE_MAX)) as [Hle|Hgt].
  - rewrite !(bind_Ok _ _ _ _ _ (map_entry_bytes_ok _ a Hle)).
    pose proof (check_size_grows a (entry_bytes values) Ha) as Hc. unfold grows in Hc.
    destruct (decide _); [by left|]. destruct Hc as [e He]. right. exists e. split; [done|].
    by rewrite (bind_Err _ _ _ _ _ He).
  - destruct (map_entry_bytes_err values a ltac:(lia)) as [e He]. right. exists e.
    by rewrite !(bind_Err _ _ _ _ _ He).
Qed.

Lemma checked_insert key values (p : Spec) (k : PM Spec unit) : adv_wf (p_advice p) ->
  k p = on_advice (insert_into_map key values) p ->
  (do! (if bool_decide (is_Some (ap_map (p_advice p) !! key)) then ret tt
        else on_advice (check_map_value_allocation (Z.of_nat (length values)))); k) p =
  on_advice (insert_into_map key values) p.
Proof.
  intros Ha Hi. case_bool_decide as Hk; [by rewrite (bind_Ok _ _ p tt p)|].
  apply eq_None_not_Some in Hk. destruct (check_then_insert key values _ Ha Hk) as [Hc|(e & Hc & He)].
  - rewrite (bind_Ok _ _ p tt p); [done|]. unfold on_advice, zoom. rewrite Hc. by destruct p.
  - rewrite (bind_Err _ _ p (EAdvice e) p); [|unfold on_advice, zoom; rewrite Hc; by destruct p].
    unfold on_advice, zoom. rewrite He. by destruct p.
Qed.

Lemma preimage_run e (p : Spec) l key values : proc_ok 0 p -> holds p l -> preimage e p l = Some (key, values) ->
  handle_system_event e p = on_advice (insert_into_map key values) p.
Proof.
  intros [_ Ha] Hl. destruct e; cbn [preimage]; try done; cbn [handle_system_event].
  - case_decide as Hr; [|done]. intros [= <- <-]. unfold insert_mem_values_into_adv_map.
    do 2 read_step Hl. cbv zeta. rewrite !(proj2 (Z.ltb_ge _ _)) by lia. read_step Hl.
    rewrite (bind_Ok _ _ p (bool_decide (is_Some (ap_map (p_advice p) !! word_from l 1))) p)
      by (by destruct p).
    replace (⟦elem l 6⟧ - ⟦elem l 5⟧)
      with (Z.of_nat (length (read_range (p_memory p) (p_ctx p) ⟦elem l 5⟧ ⟦elem l 6⟧)))
      by (unfold read_range; rewrite length_fmap, length_seqZ; lia).
    by apply checked_insert.
  - intros [= <- <-]. unfold insert_hdword_into_adv_map. by do 2 read_step Hl.
  - intros [= <- <-]. read_step Hl. unfold insert_hdword_into_adv_map. by do 2 read_step Hl.
  - intros [= <- <-]. unfold insert_hqword_into_adv_map. do 4 read_step Hl. cbv zeta.
    by rewrite hash_two_blocks.
  - intros [= <- <-]. unfold insert_hperm_into_adv_map. by do 3 read_step Hl.
Qed.

(** The provider after adding an entry. *)
Definition with_entry (key : Word) (values : list Felt) (a : AdviceProvider) : AdviceProvider :=
  grown a (ap_stack a) (<[key := values]> (ap_map a)) (ap_store a) (entry_bytes values).

(** C37: adding entries to the advice map.  HdwordToMap, HdwordToMapWithDomain,
    HqwordToMap and HpermToMap add words of the operand stack under the digest
    that hashing them in the VM gives: one permutation of the words with the
    capacity zero, the domain or the third word, or two absorptions.  MemToMap
    adds the elements of a range of memory under the key on the stack.  A new
    key is added if the budget allows it; an entry that is present already is
    accepted, and a different one for the same key is an error, both without
    effect. *)
Theorem preimage_events_correct p1 p2 l e key values :
  proc_rel p1 p2 -> proc_ok 0 p2 -> holds p2 l -> preimage e p2 l = Some (key, values) ->
  match ap_map (p_advice p2) !! key with
  | Some v =>
      if decide (v = values) then emits e p1 (Ok tt) p2
      else emits e p1 (Err (EAdvice (MapKeyAlreadyPresent key v values))) p2
  | None =>
      if decide (fits (p_advice p2) (entry_bytes values))
      then emits e p1 (Ok tt) (put_advice (with_entry key values (p_advice p2)) p2)
      else exists err, emits e p1 (Err err) p2
  end.
Proof.
  intros Hp Hok Hl He. pose proof (preimage_run e p2 l key values Hok Hl He) as Hr.
  destruct (ap_map (p_advice p2) !! key) as [v|] eqn:Hk.
  - assert (forall r, on_advice (insert_into_map key values) p2 = (r, p2) -> r <> Panic -> emits e p1 r p2) as Hem
      by (intros r Hi Hn; apply (emits_of e p1 p2); [done|by rewrite Hr|done]).
    destruct (decide _) as [Hv|Hv]; (apply Hem; [|done]); unfold on_advice, zoom, insert_into_map;
      rewrite bind_gets, Hk; [rewrite decide_True by done|rewrite decide_False by done]; by destruct p2.
  - pose proof (run_advice_grows _ _ _ _ p2 (insert_into_map_grows key values _ (po_advice _ _ Hok) Hk)) as Hg.
    destruct (decide _); [by apply (emits_of e p1 p2); [|rewrite Hr|]|].
    destruct Hg as [err Hg]. exists err. by apply (emits_of e p1 p2); [|rewrite Hr|].
Qed.

(** ** Every event *)

Context {F H : Type} `{EH : EventHost H D F}.

(** C9: emitting any event, whichever host handler or system event it selects,
    does not panic.  The buffer processor and the abstract one return the same
    result and leave the host in the same state and their own states related;
    of the processor only the advice provider, which stays well formed and
    within its budget, and the deferred state may change.  An event that is not
    a system event gives the host the view of the processor and applies its
    mutations. *)
Theorem emit_total p1 p2 (h : H) :
  proc_rel p1 p2 -> proc_ok 0 p2 ->
  exists r p1' p2' h',
    emit_event (p1, h) = (r, (p1', h')) /\ emit_event (p2, h) = (r, (p2', h')) /\
    r <> Panic /\ proc_rel p1' p2' /\
    (exists a d, adv_wf a /\ p2' = put_deferred d (put_advice a p2)) /\
    forall l, holds p2 l -> from_event_id (elem l 0) = None ->
      let view := mkProcessorState l (p_clk p2) (p_ctx p2) (p_memory p2) (p_advice p2) (p_deferred p2) in
      h' = snd (on_event view h) /\
      match fst (on_event view h) with
      | None => r = Err (EventError (elem l 0)) /\ p2' = p2
      | Some mutations => (r, p2') = on_advice (apply_mutations mutations) p2
      end.
Proof.
  intros Hp Hok. destruct (contained_emit (F := F) p2 h Hok) as (Hn & a & d & Ha & Hs).
  pose proof (sim_emit_event (F := F) (p1, h) (p2, h) (conj Hp eq_refl)) as Hsim.
  assert (forall l, holds p2 l -> from_event_id (elem l 0) = None ->
    let view := mkProcessorState l (p_clk p2) (p_ctx p2) (p_memory p2) (p_advice p2) (p_deferred p2) in
    emit_event (F := F) (p2, h) =
      on_fst (apply_host_event_mutations (elem l 0) (fst (on_event view h))) (p2, snd (on_event view h))) as Hh.
  { intros l Hl Hid view. pose proof (holds_depth _ _ Hl). unfold emit_event.
    erewrite bind_Ok; [|unfold on_fst; cbn [fst snd]; by rewrite (run_get_at p2 l 0 Hl) by lia].
    rewrite Hid. erewrite bind_Ok; [|]. 2:{ unfold on_fst, processor_state. cbn [fst snd]. rewrite bind_gets.
      assert (stack_contents (p_stack p2) = Some l) as Hc.
      { destruct Hl as [Hl _]. unfold stack_contents, spec_stack_view. rewrite Hl. clear.
        induction l as [|x l IH]; [done|]. cbn. by rewrite IH. }
      unfold id. by rewrite Hc. }
    fold view. unfold bind at 1, on_snd. cbn [fst snd]. by destruct (on_event view h). }
  destruct (emit_event (p2, h)) as [r [p2' h']] eqn:He2. cbn in Hn, Hs.
  destruct r as [[]|err|]; [| |done]; destruct Hsim as ([p1' h1] & He1 & Hrel & Hh1); cbn in Hrel, Hh1; subst h1;
    (eexists _, p1', p2', h'; split_and!; [done..|by exists a, d|]);
    intros l Hl Hid; specialize (Hh l Hl Hid); cbv zeta in *; revert Hh;
    unfold on_fst, apply_host_event_mutations; cbn [fst snd];
    destruct (on_event _ h) as [[ms|] h'']; cbn [fst snd ok_or]; unfold bind, ret, fail;
    try (destruct (on_advice (apply_mutations ms) p2) as [r q]); by intros [= -> -> ->].
Qed.

End Events.
