(* ===== verification/DeferredEvents.v ===== *)
(** * Deferred statements through events

    The verified deferred state behind the deferred system events: registering a
    node with DeferredRegister stores it under the digest that one permutation of
    the twelve stack elements gives, and the DeferredEvaluate events push the
    components of its canonical node. *)

From S2P Require Import Prelude Felt AdviceMap Quad Operations OpBatch Mast AceCircuit Machine.
From S2P Require Import ExecuteOp Control Exec Memory Merkle Deferred DeferredTheory.
From S2P Require Import DeferredHistory MerkleTheory Advice AdviceTheory AdviceAtomic FastStack.
From S2P Require Import StackRefine FastProcessor ExecSim ProcView SysEvents SpecSafe ExecSafe.
From S2P Require Import EventSim DeferredOp EventTheorems.

Section Interface.
Context `{Poseidon2}.

Notation evaluate := (evaluate_digest MAX_EVALUATION_DEPTH).

Lemma register_good s n r s' : good s -> register MAX_EVALUATION_DEPTH n s = (r, s') ->
  r <> Panic /\ good s' /\ extends s s' /\ ds_root s' = ds_root s.
Proof.
  intros Hg. pose proof Hg as [Hi _ Hs _].
  apply (good_step s _ _ r s' Hg (fun rho Hr => register_deep s rho n Hi Hr Hs) (register_ok _ s n Hi)).
Qed.

Lemma evaluate_good s d r s' : good s -> evaluate d s = (r, s') ->
  r <> Panic /\ good s' /\ extends s s' /\ ds_root s' = ds_root s.
Proof.
  intros Hg. pose proof Hg as [Hi _ Hs _].
  apply (good_step s _ _ r s' Hg (fun rho Hr => evaluate_deep s rho d Hi Hr Hs) (evaluate_digest_ok _ s d Hi)).
Qed.

(** A method that keeps states good, on the verified state. *)
Definition in_good {A} (m : M PrecompileError DeferredState A) (Hm : forall s, good s -> good (snd (m s)))
    (d : VerifiedState) : res PrecompileError A * VerifiedState :=
  (fst (m (proj1_sig d)), exist good (snd (m (proj1_sig d))) (Hm _ (proj2_sig d))).

Lemma in_good_run {A} (m : M PrecompileError DeferredState A) Hm (d : VerifiedState) r s' :
  m (proj1_sig d) = (r, s') -> exists d' : VerifiedState, proj1_sig d' = s' /\ in_good m Hm d = (r, d').
Proof.
  intros He. exists (snd (in_good m Hm d)). split; [unfold in_good; cbn; by rewrite He|].
  rewrite (surjective_pairing (in_good m Hm d)) at 1. f_equal. unfold in_good. cbn. by rewrite He.
Qed.

Lemma register_keeps_good n s : good s -> good (snd (register MAX_EVALUATION_DEPTH n s)).
Proof. intros Hg. destruct (register _ n s) eqn:Hr. by eapply register_good. Qed.

Lemma evaluate_keeps_good d s : good s -> good (snd (evaluate d s)).
Proof. intros Hg. destruct (evaluate d s) eqn:Hr. by eapply evaluate_good. Qed.

#[export] Instance verified_events : DeferredEvents VerifiedState := {|
  de_decode t d := fst (decode t (proj1_sig d));
  de_register n := in_good (register MAX_EVALUATION_DEPTH n) (register_keeps_good n);
  de_evaluate_digest x := in_good (evaluate x) (evaluate_keeps_good x);
  de_get_node x d := ds_nodes (proj1_sig d) !! x
|}.

Lemma decode_no_panic t s : fst (decode t s) <> Panic.
Proof.
  unfold decode. rewrite bind_gets. unfold lift_res, decode_precompile_tag, decode_node_type, decode_precompile_tag. by repeat case_match.
Qed.

#[export] Instance verified_events_laws : DeferredEventsLaws VerifiedState.
Proof.
  split.
  - intros t d. apply decode_no_panic.
  - intros n [s Hg]. unfold de_register. cbn [verified_events in_good fst proj1_sig].
    destruct (register _ n s) eqn:Hr. by destruct (register_good s n _ _ Hg Hr).
  - intros x [s Hg]. unfold de_evaluate_digest. cbn [verified_events in_good fst proj1_sig].
    destruct (evaluate x s) eqn:Hr. by destruct (evaluate_good s x _ _ Hg Hr).
Qed.

End Interface.

Section Events.
Context `{G : Goldilocks} `{Q : QuadField} `{QI : QuadInverse} `{QIL : !QuadInverseLaws Q QI} `{PO : Poseidon2}.

Notation Fast := (FastProcessor VerifiedState).
Notation Spec := (SpecProcessor VerifiedState).
Notation state p := (proj1_sig (p_deferred p)).

(** ** Registering *)

(** A node with one block of payload. *)
Definition single (n : Node) (t : Tag) (lo hi : Word) : Prop :=
  node_tag n = t /\ as_chunks (node_payload n) = [mkChunk lo hi].

Lemma single_digest n w lo hi : single n (from_word w) lo hi ->
  node_digest n = hs_rate0 (apply_permutation (mkHasherState lo hi w)).
Proof.
  intros [Ht Hc]. destruct n as [t p]. cbn in Ht. subst t. destruct w, p; cbn in Hc; by simplify_eq.
Qed.

(** A constructor fails, or returns a node of that tag with that block. *)
Definition makes (r : res DeferredError Node) (t : Tag) (lo hi : Word) : Prop :=
  (exists e, r = Err e) \/ (exists n, r = Ok n /\ single n t lo hi).

Lemma constructors_make t lo hi :
  makes (if decide (t = Tag_CHUNKS) then node_chunks [mkChunk lo hi] else node_value t (mkChunk lo hi)) t lo hi /\
  makes (node_join t lo hi) t lo hi /\ makes (node_try_pair_list t [(lo, hi)]) t lo hi.
Proof.
  unfold makes, node_value, node_join, node_try_pair_list, require_precompile_tag. split_and!.
  - case_decide; [right; subst; by eexists|].
    destruct (is_framework_reserved t); [left; by eexists|right; by eexists].
  - destruct (is_framework_reserved t); [left; by eexists|right; by eexists].
  - destruct (is_framework_reserved t); [left; by eexists|right; by eexists].
Qed.

Lemma decode_run t (p : Spec) :
  decode_tag t p = (match fst (decode t (state p)) with
                    | Ok ty => Ok ty | Err e => Err (EDeferred e) | Panic => Panic end, p).
Proof.
  unfold decode_tag, on_deferred, zoom. cbn [de_decode verified_events].
  by destruct (fst (decode t (state p))), p.
Qed.

Lemma register_cases (p : Spec) l : holds p l ->
  (exists e, handle_system_event DeferredRegister p = (Err e, p)) \/
  (exists n, single n (from_word (word_from l 9)) (word_from l 1) (word_from l 5) /\
    handle_system_event DeferredRegister p = (do! on_deferred (de_register n); ret tt) p).
Proof.
  intros Hl. cbn [handle_system_event]. unfold handle_deferred_register. do 3 read_step Hl. cbv zeta.
  set (t := from_word (word_from l 9)). set (lo := word_from l 1). set (hi := word_from l 5).
  pose proof (decode_no_panic t (state p)) as Hn. pose proof (decode_run t p) as Hd.
  destruct (fst (decode t (state p))) as [ty|e|]; [|by left; rewrite (bind_Err _ _ _ _ _ Hd); eexists|done].
  rewrite (bind_Ok _ _ _ _ _ Hd).
  assert (forall r, makes r t lo hi ->
    (exists e, (let! n := node_or_fail r in do! on_deferred (de_register n); ret tt) p = (Err e, p)) \/
    (exists n, single n t lo hi /\ (let! n := node_or_fail r in do! on_deferred (de_register n); ret tt) p =
      (do! on_deferred (de_register n); ret tt) p)) as Hc.
  { intros r [[e ->]|(n & -> & Hs)]; [left; by eexists|right]. by exists n. }
  destruct (constructors_make t lo hi) as (H1 & H2 & H3).
  destruct ty; [left; by eexists|by apply Hc..].
Qed.

(** ** Pushing a canonical node *)

(** [m] pushes [l] when there is room. *)
Definition pushing (m : PM Spec unit) (l : list Felt) : Prop :=
  forall p, adv_wf (p_advice p) -> fits (p_advice p) (8 * Z.of_nat (length l)) ->
    m p = (Ok tt, put_advice (pushed l (p_advice p)) p) /\ adv_wf (pushed l (p_advice p)).

Lemma pushing_bind m1 m2 l1 l2 : pushing m1 l1 -> pushing m2 l2 -> pushing (do! m1; m2) (l2 ++ l1).
Proof.
  intros H1 H2 p Ha Hf. rewrite length_app in Hf.
  destruct (H1 p Ha) as [Hm1 Ha1]; [unfold fits in *; lia|].
  destruct (H2 (put_advice (pushed l1 (p_advice p)) p) Ha1) as [Hm2 Ha2].
  { apply fits_pushed; [|lia]. unfold fits in *. lia. }
  rewrite (bind_Ok _ _ _ _ _ Hm1), Hm2. cbn [p_advice put_advice] in *. by rewrite pushed_app in *.
Qed.

Lemma pushing_ret : pushing (ret tt) [].
Proof.
  intros p Ha Hf. assert (pushed [] (p_advice p) = p_advice p) as ->.
  { destruct Ha. unfold pushed, grown. destruct p as [? ? ? ? ? [] ? ?]. cbn in *. f_equal; lia. }
  split; [by destruct p|done].
Qed.

Lemma pushing_word w : pushing (on_advice (push_stack_word w)) (into_elements w).
Proof.
  intros p Ha Hf. pose proof (run_advice_grows _ _ _ _ p (push_stack_word_grows w _ Ha)) as Hr.
  rewrite decide_True in Hr by done. split; [done|]. apply grown_wf; [done..|].
  unfold contents_bytes. rewrite length_app. cbn [length into_elements]. lia.
Qed.

(** The chunks as the payload events leave them, high word first. *)
Definition chunk_words (c : DataChunk) : list Felt := into_elements (chunk_hi c) ++ into_elements (chunk_lo c).

Lemma pushing_chunks l : pushing (push_chunks l) (reverse l ≫= chunk_words).
Proof.
  induction l as [|c l IH]; [apply pushing_ret|]. cbn [push_chunks].
  replace (reverse (c :: l) ≫= chunk_words)
    with (((reverse l ≫= chunk_words) ++ into_elements (chunk_hi c)) ++ into_elements (chunk_lo c)).
  - apply (pushing_bind _ _ (into_elements (chunk_lo c))); [apply pushing_word|].
    apply (pushing_bind _ _ (into_elements (chunk_hi c))); [apply pushing_word|done].
  - rewrite reverse_cons, bind_app.
    change ([c] ≫= chunk_words) with (chunk_words c ++ []). unfold chunk_words at 3.
    by rewrite app_nil_r, <- !app_assoc.
Qed.

Definition tag_words (n : Node) : list Felt := into_elements (as_word (node_tag n)).
Definition payload_words (n : Node) : list Felt := as_chunks (node_payload n) ≫= chunk_words.

Lemma pushing_payload n : pushing (push_evaluated_payload n) (payload_words n).
Proof.
  unfold push_evaluated_payload, payload_words. rewrite <- (reverse_involutive (as_chunks (node_payload n))) at 2.
  apply pushing_chunks.
Qed.

Lemma pushing_tag n : pushing (push_evaluated_tag n) (tag_words n).
Proof. apply pushing_word. Qed.

(** [e] pushes [l] when there is room; the deferred state keeps its contents. *)
Definition hints (e : SystemEvent) (p1 : Fast) (p2 : Spec) (l : list Felt) : Prop :=
  fits (p_advice p2) (8 * Z.of_nat (length l)) ->
  exists d : VerifiedState, proj1_sig d = state p2 /\
    emits e p1 (Ok tt) (put_deferred d (put_advice (pushed l (p_advice p2)) p2)).

Lemma canonical_run (p : Spec) l c cn : holds p l ->
  ds_evals (state p) !! word_from l 1 = Some c -> ds_nodes (state p) !! c = Some cn ->
  exists d : VerifiedState, proj1_sig d = state p /\ evaluate_canonical_node p = (Ok cn, put_deferred d p).
Proof.
  intros Hl Hc Hn. unfold evaluate_canonical_node. read_step Hl.
  destruct max_depth_SS as [k Hk].
  pose proof (evaluate_memo (S k) (state p) _ c (good_inv _ (proj2_sig (p_deferred p))) Hc) as He.
  rewrite <- Hk in He.
  destruct (in_good_run _ (evaluate_keeps_good (word_from l 1)) _ _ _ He) as (d & Hd & Hr).
  exists d. split; [done|]. rewrite (bind_Ok _ _ p c (put_deferred d p)).
  - rewrite bind_gets. cbn [p_deferred put_deferred de_get_node verified_events]. by rewrite Hd, Hn.
  - unfold on_deferred, zoom. cbn [de_evaluate_digest verified_events]. by rewrite Hr.
Qed.

Lemma hints_of e (p1 : Fast) (p2 : Spec) l m w c cn : proc_rel p1 p2 -> proc_ok 0 p2 -> holds p2 l ->
  handle_system_event e = (let! n := evaluate_canonical_node in m n) -> pushing (m cn) w ->
  ds_evals (state p2) !! word_from l 1 = Some c -> ds_nodes (state p2) !! c = Some cn ->
  hints e p1 p2 w.
Proof.
  intros Hp [_ Ha] Hl He Hw Hc Hn Hf. destruct (canonical_run p2 l c cn Hl Hc Hn) as (d & Hd & Hr).
  exists d. split; [done|]. apply (emits_of e p1 p2); [done| |done].
  rewrite He, (bind_Ok _ _ _ _ _ Hr). by destruct (Hw (put_deferred d p2) Ha Hf) as [-> _].
Qed.

Lemma hints_all (p1 : Fast) (p2 : Spec) l c cn : proc_rel p1 p2 -> proc_ok 0 p2 -> holds p2 l ->
  ds_evals (state p2) !! word_from l 1 = Some c -> ds_nodes (state p2) !! c = Some cn ->
  hints DeferredEvaluate p1 p2 (tag_words cn ++ payload_words cn) /\
  hints DeferredEvaluateTag p1 p2 (tag_words cn) /\ hints DeferredEvaluatePayload p1 p2 (payload_words cn).
Proof.
  intros Hp Hok Hl Hc Hn. split_and!.
  - eapply (hints_of _ _ _ l (fun n => do! push_evaluated_payload n; push_evaluated_tag n)); try done.
    apply pushing_bind; [apply pushing_payload|apply pushing_tag].
  - eapply (hints_of _ _ _ l push_evaluated_tag); try done. apply pushing_tag.
  - eapply (hints_of _ _ _ l push_evaluated_payload); try done. apply pushing_payload.
Qed.

(** C36: deferred statements through events.  DeferredRegister with
    [PAYLOAD_LO, PAYLOAD_HI, TAG] below the event id succeeds or reports an
    error; either way only the deferred state changes, its root stays and what
    it held stays.  On success it holds a node with that tag and payload under
    the digest that one permutation of those twelve elements gives, and from any
    later state with that digest on the stack the DeferredEvaluate events push
    the tag and the payload, or one of them, of its canonical node. *)
Theorem deferred_events_correct (p1 : Fast) (p2 : Spec) l :
  proc_rel p1 p2 -> proc_ok 0 p2 -> holds p2 l ->
  let lo := word_from l 1 in
  let hi := word_from l 5 in
  let digest := hs_rate0 (apply_permutation (mkHasherState lo hi (word_from l 9))) in
  exists r (p2' : Spec), emits DeferredRegister p1 r p2' /\ r <> Panic /\ p2' = put_deferred (p_deferred p2') p2 /\
    extends (state p2) (state p2') /\ ds_root (state p2') = ds_root (state p2) /\
    (r = Ok tt -> exists n c cn,
      single n (from_word (word_from l 9)) lo hi /\ ds_nodes (state p2') !! digest = Some n /\
      ds_evals (state p2') !! digest = Some c /\ ds_nodes (state p2') !! c = Some cn /\
      forall (q1 : Fast) (q2 : Spec) l', proc_rel q1 q2 -> proc_ok 0 q2 -> holds q2 l' -> word_from l' 1 = digest ->
        p_deferred q2 = p_deferred p2' ->
        hints DeferredEvaluate q1 q2 (tag_words cn ++ payload_words cn) /\
        hints DeferredEvaluateTag q1 q2 (tag_words cn) /\
        hints DeferredEvaluatePayload q1 q2 (payload_words cn)).
Proof.
  intros Hp Hok Hl lo hi digest. destruct (register_cases p2 l Hl) as [[e He]|(n & Hs & He)].
  { exists (Err e), p2. split; [by apply (emits_of _ p1 p2)|]. split_and!; [done|by destruct p2|done..]. }
  pose proof (proj2_sig (p_deferred p2)) as Hg. cbv beta in Hg.
  destruct (register MAX_EVALUATION_DEPTH n (state p2)) as [r s'] eqn:Hr.
  destruct (register_good _ n r s' Hg Hr) as (Hn & Hg' & Hx & Hroot).
  destruct (in_good_run _ (register_keeps_good n) _ _ _ Hr) as (d & Hd & Hin).
  assert (on_deferred (de_register n) p2 =
    (match r with Ok a => Ok a | Err e => Err (EDeferred e) | Panic => Panic end, put_deferred d p2)) as Hrun.
  { unfold on_deferred, zoom. cbn [de_register verified_events]. rewrite Hin. by destruct r. }
  destruct r as [x|e|]; [| |done].
  - rewrite (bind_Ok _ _ _ _ _ Hrun) in He. exists (Ok tt), (put_deferred d p2).
    split; [by apply (emits_of _ p1 p2)|]. cbn [p_deferred put_deferred]. rewrite Hd.
    split_and!; [done|done|done|done|]. intros _.
    destruct (ok_Ok _ _ _ _ _ (register_ok _ _ n (good_inv _ Hg)) Hr) as (Hi' & _ & -> & Hnode & _ & c & Hc).
    rewrite (single_digest n _ _ _ Hs) in Hnode, Hc.
    destruct (inv_memo s' Hi' _ _ Hc) as (_ & cn & _ & Hcn & _). exists n, c, cn.
    split_and!; [done..|]. intros q1 q2 l' Hq Hq2 Hl' Hw Hdef. apply (hints_all q1 q2 l' c cn); try done.
    + by rewrite Hdef, Hd, Hw.
    + by rewrite Hdef, Hd.
  - rewrite (bind_Err _ _ _ _ _ Hrun) in He. exists (Err (EDeferred e)), (put_deferred d p2).
    split; [by apply (emits_of _ p1 p2)|]. cbn [p_deferred put_deferred]. rewrite Hd. by split_and!.
Qed.

End Events.
