(* ===== verification/ArithTheorems.v ===== *)
(** * The u32 operations and the field operations compute arithmetic

    The reference semantics on integers, and the theorem that every u32 handler
    replaces its operands by the reference results; operands that are not
    32-bit values are reported and leave the stack as it was. *)

From S2P Require Import Prelude Felt AdviceMap Quad Operations AceCircuit Machine StackOps ArithOps.
From S2P Require Import IoOps CryptoOps FriOps ExecuteOp Memory Merkle MerkleTheory Advice.
From S2P Require Import AdviceTheory AdviceAtomic FastStack StackRefine FastProcessor ExecSim.
From S2P Require Import SpecSafe ProgramRefine AbstractRun.

(** Operands from the top of the stack down; results likewise. *)
Definition u32_ref (op : Operation) (args : list Z) : option (list Z) :=
  match op, args with
  | Op.U32add, [a; b] => Some [(a + b) mod 2 ^ 32; (a + b) / 2 ^ 32]
  | Op.U32add3, [a; b; c] => Some [(a + b + c) mod 2 ^ 32; (a + b + c) / 2 ^ 32]
  | Op.U32sub, [b; a] => Some [if a <? b then 1 else 0; (a - b) mod 2 ^ 32]
  | Op.U32mul, [a; b] => Some [(a * b) mod 2 ^ 32; (a * b) / 2 ^ 32]
  | Op.U32madd, [a; b; c] => Some [(a * b + c) mod 2 ^ 32; (a * b + c) / 2 ^ 32]
  | Op.U32div, [b; a] => if b =? 0 then None else Some [a mod b; a / b]
  | Op.U32and, [a; b] => Some [Z.land a b]
  | Op.U32xor, [a; b] => Some [Z.lxor a b]
  | _, _ => None
  end.

(** ** Arithmetic *)

Lemma new_unchecked_value v : 0 <= v < ORDER -> ⟦new_unchecked v⟧ = v.
Proof. intros. unfold new_unchecked. by apply felt_of_Z_small. Qed.

Lemma split_element_spec v : 0 <= v < ORDER ->
  split_element (new_unchecked v) = (new_unchecked (v / 2 ^ 32), new_unchecked (v mod 2 ^ 32)).
Proof.
  intros Hv. unfold split_element, wrap32. rewrite new_unchecked_value by done.
  by rewrite Z.shiftr_div_pow2.
Qed.

Lemma u32_felt a : is_u32 a -> ⟦new_unchecked a⟧ = a.
Proof. intros Ha. apply new_unchecked_value. unfold is_u32, U32_MAX, ORDER in *. lia. Qed.

Lemma not_u32_false a : is_u32 a -> not_u32 (new_unchecked a) = false.
Proof. intros Ha. unfold not_u32. rewrite u32_felt by done. apply Z.ltb_ge. apply Ha. Qed.

Lemma mul_u32_bound a b c : is_u32 a -> is_u32 b -> is_u32 c -> 0 <= a * b + c < ORDER.
Proof.
  unfold is_u32, U32_MAX, ORDER. intros. assert (0 <= a * b <= 4294967295 * 4294967295) by nia. lia.
Qed.

(** The wrapping subtraction: bit 63 is the borrow. *)
Lemma u32sub_borrow a b : is_u32 a -> is_u32 b ->
  Z.shiftr (wrap64 (a - b)) 63 = (if a <? b then 1 else 0) /\
  Z.land (wrap64 (a - b)) U32_MAX = (a - b) mod 2 ^ 32.
Proof.
  unfold is_u32, U32_MAX, wrap64. intros Ha Hb. split.
  - rewrite Z.shiftr_div_pow2 by lia. change (2 ^ 63) with 9223372036854775808.
    change (2 ^ 64) with 18446744073709551616. destruct (Z.ltb_spec a b); dlia.
  - change 4294967295 with (Z.ones 32). rewrite Z.land_ones by lia.
    change (2 ^ 64) with (2 ^ 32 * 2 ^ 32). rewrite Z.rem_mul_r by lia.
    rewrite Z.mul_comm, Z_mod_plus_full. apply Z.mod_mod. lia.
Qed.

Lemma u32_bits (f : Z -> Z -> Z) (g : bool -> bool -> bool) a b :
  (forall n, Z.testbit (f a b) n = g (Z.testbit a n) (Z.testbit b n)) -> g false false = false ->
  0 <= f a b -> is_u32 a -> is_u32 b -> is_u32 (f a b).
Proof.
  intros Hf Hg Hpos Ha Hb. unfold is_u32, U32_MAX in *. split; [done|].
  enough (f a b < 2 ^ 32) by lia. destruct (decide (f a b = 0)) as [->|Hne]; [lia|].
  apply Z.log2_lt_pow2; [lia|]. destruct (Z.lt_ge_cases (Z.log2 (f a b)) 32) as [|Hge]; [done|].
  exfalso. pose proof (Z.bit_log2 (f a b) ltac:(lia)) as Hbit. rewrite Hf in Hbit.
  assert (Hhigh : forall x, 0 <= x <= 4294967295 -> Z.testbit x (Z.log2 (f a b)) = false).
  { intros x Hx. destruct (decide (x = 0)) as [->|]; [apply Z.bits_0|].
    apply Z.bits_above_log2; [lia|]. apply Z.lt_le_trans with 32; [|done].
    apply Z.log2_lt_pow2; lia. }
  rewrite (Hhigh a Ha), (Hhigh b Hb), Hg in Hbit. done.
Qed.

Lemma land_u32 a b : is_u32 a -> is_u32 b -> is_u32 (Z.land a b).
Proof.
  intros Ha Hb. apply (u32_bits Z.land andb); [intros; apply Z.land_spec|done| |done|done].
  apply Z.land_nonneg. left. apply Ha.
Qed.

Lemma lxor_u32 a b : is_u32 a -> is_u32 b -> is_u32 (Z.lxor a b).
Proof.
  intros Ha Hb. apply (u32_bits Z.lxor xorb); [intros; apply Z.lxor_spec|done| |done|done].
  apply Z.lxor_nonneg. unfold is_u32 in *. lia.
Qed.

Ltac u32_cases Hr op args :=
  destruct op; cbn [u32_ref] in Hr; try discriminate Hr;
  destruct args as [|a [|b [|c [|d args]]]]; try discriminate Hr.

(** All results of the reference semantics are 32-bit values. *)
Lemma u32_ref_range op args results : u32_ref op args = Some results ->
  Forall is_u32 args -> Forall is_u32 results.
Proof.
  intros Hr Ha.
  assert (Hm : forall x, is_u32 (x mod 2 ^ 32)) by (intros; unfold is_u32, U32_MAX; dlia).
  assert (Hd : forall x, 0 <= x < ORDER -> is_u32 (x / 2 ^ 32))
    by (intros; unfold is_u32, U32_MAX, ORDER in *; dlia).
  u32_cases Hr op args; rewrite ?Forall_cons in Ha; destruct_and?;
    try (destruct (Z.eqb_spec a 0); [discriminate Hr|]); injection Hr as <-;
    rewrite ?Forall_cons, ?Forall_nil; split_and!; auto using land_u32, lxor_u32;
    try (apply Hd; unfold is_u32, U32_MAX, ORDER in *; lia);
    try (apply Hd; by apply mul_u32_bound).
  - by destruct (_ <? _).
  - apply Hd. rewrite <- (Z.add_0_r (a * b)). by apply mul_u32_bound.
  - unfold is_u32 in *. pose proof (Z.mod_pos_bound b a). lia.
  - unfold is_u32 in *. pose proof (Z.div_pos b a). pose proof (Z.div_le_upper_bound b a U32_MAX). nia.
Qed.

Section U32.
Context `{G : Goldilocks} `{Q0 : QuadField}.
Context `{Poseidon2} {D : Type} `{DI : DeferredInterface D}.

Notation felts := (fmap new_unchecked).

Lemma require2_ok a b l s : is_u32 a -> is_u32 b ->
  require_u32_operands2 0 1 (at_stack (new_unchecked a :: new_unchecked b :: l) s) =
    (Ok (new_unchecked a, new_unchecked b), at_stack (new_unchecked a :: new_unchecked b :: l) s).
Proof.
  intros Ha Hb. unfold require_u32_operands2. run_auto. cbn [List.filter].
  by rewrite !not_u32_false.
Qed.

Lemma require3_ok a b c l s : is_u32 a -> is_u32 b -> is_u32 c ->
  require_u32_operands3 0 1 2
    (at_stack (new_unchecked a :: new_unchecked b :: new_unchecked c :: l) s) =
    (Ok (new_unchecked a, new_unchecked b, new_unchecked c),
     at_stack (new_unchecked a :: new_unchecked b :: new_unchecked c :: l) s).
Proof.
  intros Ha Hb Hc. unfold require_u32_operands3. run_auto. cbn [List.filter].
  by rewrite !not_u32_false.
Qed.

(** The abstract effect of the u32 operations. *)
Lemma u32_ops_run op args results l s :
  u32_ref op args = Some results -> Forall is_u32 args ->
  (MIN_STACK_DEPTH <= length args + length l)%nat ->
  exists h evs, execute_op op (at_stack (felts args ++ l) s) =
    (Ok h, traced evs (at_stack (refill (felts results ++ l)) s)).
Proof.
  intros Hr Ha Hlen.
  assert (Hfull : (MIN_STACK_DEPTH <= length results + length l)%nat ->
    refill (felts results ++ l) = felts results ++ l).
  { intros Hl. unfold refill. rewrite length_app, length_fmap.
    by rewrite (proj2 (Nat.ltb_ge _ _)) by lia. }
  u32_cases Hr op args; rewrite ?Forall_cons in Ha; destruct_and?; cbn [execute_op];
    try (destruct (Z.eqb_spec a 0); [discriminate Hr|]); injection Hr as <-;
    cbn [fmap list_fmap app length] in *; rewrite ?Hfull by lia; clear Hfull.
  - unfold op_u32add. erewrite bind_Ok by (by apply require2_ok). cbv beta iota.
    rewrite !u32_felt, split_element_spec by (try done; unfold is_u32, U32_MAX, ORDER in *; lia).
    run_auto. eexists _, [_]. reflexivity.
  - unfold op_u32add3. erewrite bind_Ok by (by apply require3_ok). cbv beta iota.
    rewrite !u32_felt, split_element_spec by (try done; unfold is_u32, U32_MAX, ORDER in *; lia).
    run_auto. eexists _, [_]. reflexivity.
  - unfold op_u32sub. erewrite bind_Ok by (by apply require2_ok). cbv beta iota.
    rewrite !u32_felt by done. destruct (u32sub_borrow b a) as [-> ->]; [done..|].
    run_auto. eexists _, [_]. reflexivity.
  - unfold op_u32mul. erewrite bind_Ok by (by apply require2_ok). cbv beta iota.
    rewrite !u32_felt, split_element_spec
      by (try done; rewrite <- (Z.add_0_r (a * b)); by apply mul_u32_bound).
    run_auto. eexists _, [_]. reflexivity.
  - unfold op_u32madd. erewrite bind_Ok by (by apply require3_ok). cbv beta iota.
    rewrite !u32_felt, split_element_spec by (try done; by apply mul_u32_bound).
    run_auto. eexists _, [_]. reflexivity.
  - unfold op_u32div. erewrite bind_Ok by (by apply require2_ok). cbv beta iota zeta.
    rewrite !u32_felt by done. rewrite (proj2 (Z.eqb_neq a 0)) by done.
    rewrite (Z.mul_comm (b / a)), <- Z.mod_eq by done.
    run_auto. eexists _, [_]. reflexivity.
  - unfold op_u32and. erewrite bind_Ok by (by apply require2_ok). cbv beta iota zeta.
    rewrite !u32_felt by done. run_auto. eexists _, [_]. reflexivity.
  - unfold op_u32xor. erewrite bind_Ok by (by apply require2_ok). cbv beta iota zeta.
    rewrite !u32_felt by done. run_auto. eexists _, [_]. reflexivity.
Qed.

(** C28: the u32 operations compute 32-bit arithmetic on the fast processor: with
    32-bit operands on top of the stack, [U32add], [U32add3], [U32mul] and
    [U32madd] replace them by the low and high halves of the exact result,
    [U32sub] by the borrow and the wrapped difference, [U32div] by remainder
    and quotient, [U32and] and [U32xor] by the bitwise result; all results are
    32-bit values, the rest of the stack is unchanged and the depth never goes
    below 16. *)
Theorem u32_ops_correct op args results l s s1 :
  st_rel proc_rel s1 (at_stack (felts args ++ l) s) ->
  u32_ref op args = Some results -> Forall is_u32 args ->
  (MIN_STACK_DEPTH <= length args + length l)%nat ->
  Forall is_u32 results /\
  exists h evs, fast_runs op s1 (Ok h) (traced evs (at_stack (refill (felts results ++ l)) s)).
Proof.
  intros Hs Hr Ha Hl. split; [by eapply u32_ref_range|].
  destruct (u32_ops_run op args results l s Hr Ha Hl) as (h & evs & He).
  exists h, evs. by eapply fast_runs_of.
Qed.

(** ** Operands that are not 32-bit values *)

Definition u32_arity (op : Operation) : option nat :=
  match op with
  | Op.U32add | Op.U32sub | Op.U32mul | Op.U32div | Op.U32and | Op.U32xor => Some 2%nat
  | Op.U32add3 | Op.U32madd => Some 3%nat
  | _ => None
  end.

Lemma require2_err a b l s x xs : List.filter not_u32 [a; b] = x :: xs ->
  require_u32_operands2 0 1 (at_stack (a :: b :: l) s) =
    (Err (EOperation (NotU32Values (x :: xs))), at_stack (a :: b :: l) s).
Proof. intros Hf. unfold require_u32_operands2. run_auto. by rewrite Hf. Qed.

Lemma require3_err a b c l s x xs : List.filter not_u32 [a; b; c] = x :: xs ->
  require_u32_operands3 0 1 2 (at_stack (a :: b :: c :: l) s) =
    (Err (EOperation (NotU32Values (x :: xs))), at_stack (a :: b :: c :: l) s).
Proof. intros Hf. unfold require_u32_operands3. run_auto. by rewrite Hf. Qed.

(** An operand that is not a 32-bit value is an error: when some operand of
    a u32 operation exceeds [u32::MAX], the fast processor reports exactly the
    offending operands, top first, and changes nothing. *)
Lemma u32_operands_checked op args l s s1 :
  u32_arity op = Some (length args) -> Exists (fun x => not_u32 x = true) args ->
  st_rel proc_rel s1 (at_stack (args ++ l) s) ->
  fast_runs op s1 (Err (EOperation (NotU32Values (List.filter not_u32 args)))) (at_stack (args ++ l) s).
Proof.
  intros Har Hex Hs. eapply fast_runs_of; [done| |done].
  assert (Hf : exists x xs, List.filter not_u32 args = x :: xs).
  { clear -Hex. induction Hex as [x args Hx|x args _ (y & ys & IH)]; cbn [List.filter].
    - rewrite Hx. by eexists _, _.
    - destruct (not_u32 x); [by eexists _, _|by exists y, ys]. }
  destruct Hf as (x & xs & Hf). rewrite Hf.
  destruct op; try discriminate Har; injection Har as Har;
    repeat (destruct args as [|? args]; try discriminate Har); cbn [app execute_op]; autounfold with ops;
    eapply bind_Err; first [by apply (require2_err _ _ l s x xs)|by apply (require3_err _ _ _ l s x xs)].
Qed.

(** [U32split] decomposes any field element into its 32-bit halves: the new
    top two elements are [lo] and [hi] with [x = lo + 2^32 * hi], unless the
    depth limit is reached, in which case nothing changes. *)
Lemma u32split_correct x l s s1 : st_rel proc_rel s1 (at_stack (x :: l) s) ->
  if decide (has_room (x :: l) s) then
    exists lo hi h evs, ⟦x⟧ = ⟦lo⟧ + 2 ^ 32 * ⟦hi⟧ /\ is_u32 ⟦lo⟧ /\ is_u32 ⟦hi⟧ /\
      fast_runs Op.U32split s1 (Ok h) (traced evs (at_stack (lo :: hi :: l) s))
  else exists d m evs, fast_runs Op.U32split s1 (Err (StackDepthLimitExceeded d m))
    (traced evs (at_stack (x :: l) s)).
Proof.
  intros Hs. pose proof (felt_range x) as Hx. unfold ORDER in Hx.
  set (lo := new_unchecked (wrap32 ⟦x⟧)). set (hi := new_unchecked (Z.shiftr ⟦x⟧ 32)).
  assert (Hsp : split_element x = (hi, lo)) by done.
  destruct (decide _) as [Hroom|Hfull].
  - exists lo, hi, (Helper.U32Split lo hi), [record_u32_range_checks lo hi].
    assert (Hlo : ⟦lo⟧ = ⟦x⟧ mod 2 ^ 32)
      by (apply new_unchecked_value; unfold wrap32, ORDER; dlia).
    assert (Hhi : ⟦hi⟧ = ⟦x⟧ / 2 ^ 32).
    { unfold hi. rewrite Z.shiftr_div_pow2 by lia. apply new_unchecked_value. unfold ORDER. dlia. }
    rewrite Hlo, Hhi. unfold is_u32, U32_MAX. split_and!; [dlia..|].
    eapply fast_runs_of; [done| |done]. cbn [execute_op]. unfold op_u32split. run_step.
    rewrite Hsp. run_auto. rewrite <- at_stack_traced. rewrite run_push by done. run_auto. done.
  - destruct (run_push_limit (x :: l) (traced [record_u32_range_checks lo hi] s) lo
      (do! set 1 hi; ret (Helper.U32Split lo hi)) Hfull) as (d & m & He).
    exists d, m, [record_u32_range_checks lo hi]. eapply fast_runs_of; [done| |done].
    cbn [execute_op]. unfold op_u32split. run_step. rewrite Hsp. run_auto.
    rewrite <- at_stack_traced. exact He.
Qed.

End U32.

(** ** The field operations compute in the Goldilocks field

    Reference semantics on canonical integers modulo the prime, the errors of
    the fallible operations, exponentiation by repeated [Expacc], and
    multiplication in the quadratic extension. *)

Definition binary (x : Z) : Prop := x = 0 \/ x = 1.

(** Operands from the top of the stack down, and the result on top. *)
Inductive field_ref : Operation -> list Z -> Z -> Prop :=
| ref_add a b : field_ref Op.Add [b; a] ((a + b) mod ORDER)
| ref_mul a b : field_ref Op.Mul [b; a] ((a * b) mod ORDER)
| ref_neg a : field_ref Op.Neg [a] ((- a) mod ORDER)
| ref_incr a : field_ref Op.Incr [a] ((a + 1) mod ORDER)
| ref_inv a i : a <> 0 -> 0 <= i < ORDER -> (a * i) mod ORDER = 1 -> field_ref Op.Inv [a] i
| ref_and a b : binary a -> binary b -> field_ref Op.And [b; a] (a * b)
| ref_or a b : binary a -> binary b -> field_ref Op.Or [b; a] (Z.max a b)
| ref_not a : binary a -> field_ref Op.Not [a] (1 - a)
| ref_eq a b : field_ref Op.Eq [b; a] (if a =? b then 1 else 0)
| ref_eqz a : field_ref Op.Eqz [a] (if a =? 0 then 1 else 0).

Section Field.
Context `{G : Goldilocks} `{GL : !GoldilocksLaws G} `{Q0 : QuadField}.
Context `{Poseidon2} {D : Type} `{DI : DeferredInterface D}.

Notation val := as_canonical_u64.

Lemma felt_val_eq a b : ⟦a⟧ = ⟦b⟧ -> a = b.
Proof. apply felt_eq. Qed.

(** The inverse is unique, so [Inv] agrees with the reference. *)
Lemma inverse_unique a i j : 0 <= i < ORDER -> (⟦a⟧ * i) mod ORDER = 1 -> (a * j)%F = ONE -> ⟦j⟧ = i.
Proof.
  intros Hi Hai Haj. apply (f_equal val) in Haj. rewrite gl_mul_spec in Haj. cbn in Haj.
  pose proof (felt_range j).
  assert (Hj : (⟦j⟧ * (⟦a⟧ * i)) mod ORDER = i).
  { rewrite Z.mul_assoc, (Z.mul_comm ⟦j⟧), Z.mul_mod, Haj, (Z.mod_small i), Z.mul_1_l by done.
    by apply Z.mod_small. }
  rewrite Z.mul_mod, Hai, Z.mul_1_r, Z.mod_mod, Z.mod_small in Hj by done. done.
Qed.

Lemma binary_val x : binary ⟦x⟧ -> x = ZERO \/ x = ONE.
Proof. intros [H0|H1]; [left|right]; by apply felt_val_eq. Qed.

Lemma pop2_run f a b l s :
  pop2_applyfn_push f (at_stack (b :: a :: l) s) = (Ok tt, at_stack (refill (f a b :: l)) s).
Proof.
  unfold pop2_applyfn_push. run_auto. by rewrite run_set_refill by (cbn; lia).
Qed.

Lemma pop2_op_run f a b l s x :
  f a b (at_stack (refill (a :: l)) s) = (Ok x, at_stack (refill (a :: l)) s) ->
  pop2_applyfn_push_op f (at_stack (b :: a :: l) s) = (Ok tt, at_stack (refill (x :: l)) s).
Proof.
  intros Hf. unfold pop2_applyfn_push_op. run_auto. rewrite (bind_Ok _ _ _ _ _ Hf).
  by rewrite run_set_refill by (cbn; lia).
Qed.

Lemma field_ops_run op args res l s : field_ref op (val <$> args) res ->
  exists x h, ⟦x⟧ = res /\ execute_op op (at_stack (args ++ l) s) =
    (Ok h, at_stack (if (length args =? 2)%nat then refill (x :: l) else x :: l) s).
Proof.
  intros Hr. inversion Hr as [?? E0 E|?? E0 E|? E0 E|? E0 E|?? Hnz Hi Hai E0 E|?? Ha Hb E0 E|
    ?? Ha Hb E0 E|? Ha E0 E|?? E0 E|? E0 E]; subst op res;
    repeat (destruct args as [|? args]; try discriminate E); injection E as E; subst;
    cbn [app execute_op length Nat.eqb].
  - exists (f0 + f)%F, Helper.Empty. split; [apply gl_add_spec|].
    unfold op_add. by rewrite (bind_Ok _ _ _ _ _ (pop2_run _ _ _ _ _)).
  - exists (f0 * f)%F, Helper.Empty. split; [apply gl_mul_spec|].
    unfold op_mul. by rewrite (bind_Ok _ _ _ _ _ (pop2_run _ _ _ _ _)).
  - exists (- f)%F, Helper.Empty. split; [apply gl_neg_spec|]. unfold op_neg. by run_auto.
  - exists (f + ONE)%F, Helper.Empty. split; [apply gl_add_spec|]. unfold op_incr. by run_auto.
  - assert (Hf : f <> ZERO) by (intros ->; done).
    destruct (gl_inverse_spec f Hf) as (j & Hj & Haj).
    exists j, Helper.Empty. split; [by eapply inverse_unique|].
    unfold op_inv. run_auto. rewrite decide_False by done. unfold gl_inverse. rewrite Hj.
    cbn [expect]. by run_auto.
  - apply binary_val in Ha as [-> | ->], Hb as [-> | ->]; unfold op_and;
      (eexists _, Helper.Empty; split; cycle 1;
       [erewrite bind_Ok by (apply pop2_op_run; reflexivity); reflexivity|reflexivity]).
  - apply binary_val in Ha as [-> | ->], Hb as [-> | ->]; unfold op_or;
      (eexists _, Helper.Empty; split; cycle 1;
       [erewrite bind_Ok by (apply pop2_op_run; reflexivity); reflexivity|reflexivity]).
  - apply binary_val in Ha as [-> | ->]; unfold op_not; run_auto.
    + exists ONE, Helper.Empty. split; [done|]. by rewrite decide_True by done.
    + exists ZERO, Helper.Empty. split; [done|]. by rewrite decide_False, decide_True by done.
  - exists (if decide (f0 = f) then ONE else ZERO), (Helper.Eq f0 f). split.
    + destruct (decide (f0 = f)) as [->|Hne]; [by rewrite Z.eqb_refl|].
      rewrite (proj2 (Z.eqb_neq _ _)); [done|]. intros He. by apply felt_val_eq in He.
    + unfold op_eq. by run_auto.
  - exists (if decide (f = ZERO) then ONE else ZERO), (Helper.Eqz f). split.
    + destruct (decide (f = ZERO)) as [->|Hne]; [done|].
      rewrite (proj2 (Z.eqb_neq _ _)); [done|]. intros He. by apply (felt_val_eq f ZERO) in He.
    + unfold op_eqz. run_auto. by destruct (decide (f = ZERO)).
Qed.

(** C34: the field operations are arithmetic modulo the Goldilocks prime on the
    fast processor: whenever the reference relates the canonical operands on
    top of the stack to a result, the operation succeeds and replaces the
    operands by the element with exactly that canonical value (booleans for
    the comparisons and the logical operations), leaving the rest of the stack
    unchanged and the depth at least 16. *)
Theorem field_ops_correct op args res l s s1 :
  st_rel proc_rel s1 (at_stack (args ++ l) s) -> field_ref op (val <$> args) res ->
  exists x h, ⟦x⟧ = res /\ fast_runs op s1 (Ok h)
    (at_stack (if (length args =? 2)%nat then refill (x :: l) else x :: l) s).
Proof.
  intros Hs Hr. destruct (field_ops_run op args res l s Hr) as (x & h & Hx & He).
  exists x, h. split; [done|]. by eapply fast_runs_of.
Qed.

(** ** Exponentiation *)

Lemma pow2_double n : 2 ^ Z.of_nat (S n) = 2 * 2 ^ Z.of_nat n.
Proof. rewrite Nat2Z.inj_succ, Z.pow_succ_r by lia. done. Qed.

Lemma mod_pow2_succ e n : 0 <= e ->
  e mod 2 ^ Z.of_nat (S n) = e mod 2 + 2 * ((e / 2) mod 2 ^ Z.of_nat n).
Proof. intros He. rewrite pow2_double. apply Z.rem_mul_r; [lia|apply Z.pow_pos_nonneg; lia]. Qed.

Lemma expacc_step b acc e l s x :
  execute_op Op.Expacc (at_stack (x :: b :: acc :: e :: l) s) =
    (Ok (Helper.Expacc (if ⟦e⟧ mod 2 =? 1 then b else ONE)),
     at_stack (new_unchecked (⟦e⟧ mod 2) :: (b * b)%F ::
               (acc * (if (⟦e⟧ mod 2 =? 1)%Z then b else ONE))%F :: new_unchecked (⟦e⟧ / 2) :: l) s).
Proof.
  assert (Hland : Z.land ⟦e⟧ 1 = ⟦e⟧ mod 2) by (apply (Z.land_ones _ 1); lia).
  cbn [execute_op]. unfold op_expacc. run_auto.
  by rewrite Hland, Z.shiftr_div_pow2.
Qed.

(** Repeating [Expacc] exponentiates: [n] executions of [Expacc] on a stack
    [bit, base, acc, exp] leave [acc * base^(exp mod 2^n)] in the accumulator,
    [exp / 2^n] in the exponent and [base^(2^n)] in the base position; after as
    many executions as the exponent has bits the accumulator holds
    [acc * base^exp] and the exponent 0. *)
Lemma expacc_exponentiates n x b acc e l s s1 :
  st_rel proc_rel s1 (at_stack (x :: b :: acc :: e :: l) s) ->
  exists x' b' acc' e',
    fast_runs_ops (replicate n Op.Expacc) s1 (Ok tt) (at_stack (x' :: b' :: acc' :: e' :: l) s) /\
    ⟦acc'⟧ = (⟦acc⟧ * ⟦b⟧ ^ (⟦e⟧ mod 2 ^ Z.of_nat n)) mod ORDER /\
    ⟦e'⟧ = ⟦e⟧ / 2 ^ Z.of_nat n /\ ⟦b'⟧ = ⟦b⟧ ^ (2 ^ Z.of_nat n) mod ORDER.
Proof.
  intros Hs. enough (exists x' b' acc' e',
    execute_ops (replicate n Op.Expacc) (at_stack (x :: b :: acc :: e :: l) s) =
      (Ok tt, at_stack (x' :: b' :: acc' :: e' :: l) s) /\
    ⟦acc'⟧ = (⟦acc⟧ * ⟦b⟧ ^ (⟦e⟧ mod 2 ^ Z.of_nat n)) mod ORDER /\
    ⟦e'⟧ = ⟦e⟧ / 2 ^ Z.of_nat n /\ ⟦b'⟧ = ⟦b⟧ ^ (2 ^ Z.of_nat n) mod ORDER)
    as (x' & b' & acc' & e' & He & Hrest).
  { exists x', b', acc', e'. split; [by eapply fast_runs_ops_of|done]. }
  clear Hs. revert x b acc e. induction n as [|n IH]; intros x b acc e.
  { exists x, b, acc, e. split; [done|]. change (2 ^ Z.of_nat 0) with 1.
    rewrite Z.mod_1_r, Z.div_1_r, Z.pow_0_r, Z.pow_1_r, Z.mul_1_r.
    by rewrite !Z.mod_small by apply felt_range. }
  pose proof (felt_range e) as Hr.
  set (acc1 := (acc * (if (⟦e⟧ mod 2 =? 1)%Z then b else ONE))%F).
  destruct (IH (new_unchecked (⟦e⟧ mod 2)) (b * b)%F acc1 (new_unchecked (⟦e⟧ / 2)))
    as (x' & b' & acc' & e' & He & Hacc & Hexp & Hb).
  exists x', b', acc', e'. split.
  { cbn [replicate execute_ops]. by rewrite (bind_Ok _ _ _ _ _ (expacc_step _ _ _ _ _ _)). }
  unfold new_unchecked in Hexp, Hacc. rewrite felt_of_Z_small in Hexp, Hacc by (unfold ORDER in *; dlia).
  set (p := 2 ^ Z.of_nat n) in *. assert (Hp : 0 < p) by (apply Z.pow_pos_nonneg; lia).
  assert (Hbb : forall k, 0 <= k -> ⟦(b * b)%F⟧ ^ k mod ORDER = ⟦b⟧ ^ (2 * k) mod ORDER).
  { intros k Hk. rewrite gl_mul_spec, <- Zpow_facts.Zpower_mod by done.
    by rewrite Z.pow_mul_r, Z.pow_2_r by lia. }
  split_and!.
  - rewrite Hacc, mod_pow2_succ by lia. fold p.
    rewrite Z.pow_add_r by dlia. rewrite Z.mul_mod, Hbb, <- Z.mul_mod by (dlia || done).
    rewrite (Z.mul_assoc ⟦acc⟧), Z.mul_mod by done. rewrite (Z.mul_mod (_ * _)) by done. f_equal. f_equal.
    unfold acc1. rewrite gl_mul_spec, Z.mod_mod by done. f_equal. f_equal.
    destruct (Z.eqb_spec (⟦e⟧ mod 2) 1) as [->|Hne]; [by rewrite Z.pow_1_r|].
    replace (⟦e⟧ mod 2) with 0 by dlia. done.
  - rewrite Hexp, pow2_double, Z.div_div by lia. done.
  - rewrite Hb, Hbb, pow2_double by lia. done.
Qed.

(** ** The quadratic extension *)

Add Ring felt_ring : felt_ring_theory.

(** [Ext2Mul] multiplies in the quadratic extension field: on a stack
    [b0, b1, a0, a1] it replaces the lower pair by the product of
    [a0 + a1*x] and [b0 + b1*x] modulo [x^2 - 7] (computed with three base
    multiplications) and leaves the upper pair in place. *)
Lemma ext2mul_correct `{QL : !QuadFieldLaws G Q0} b0 b1 a0 a1 l s s1 :
  st_rel proc_rel s1 (at_stack (b0 :: b1 :: a0 :: a1 :: l) s) ->
  let c := (mkQuad a0 a1 * mkQuad b0 b1)%Q in
  fast_runs Op.Ext2Mul s1 (Ok Helper.Empty) (at_stack (b0 :: b1 :: q0 c :: q1 c :: l) s).
Proof.
  intros Hs c.
  assert (H0 : q0 c = (b0 * a0 + SEVEN * (b1 * a1))%F)
    by (unfold c; rewrite q_mul_spec; cbn [q0 q1]; ring).
  assert (H1 : q1 c = ((b0 + b1) * (a1 + a0) - b0 * a0 - b1 * a1)%F)
    by (unfold c; rewrite q_mul_spec; cbn [q0 q1]; ring).
  rewrite H0, H1. eapply fast_runs_of; [done| |done]. cbn [execute_op]. unfold op_ext2mul.
  by run_auto.
Qed.

(** ** Errors *)

(** The partial field operations report their errors: [Inv] of zero is
    [DivideByZero] and changes nothing; [Not], and [And] and [Or] whose top
    operand (or else the second) is not 0 or 1, are [NotBinaryValue] of that
    operand. *)
Lemma field_op_errors l s s1 :
  (st_rel proc_rel s1 (at_stack (ZERO :: l) s) ->
     fast_runs Op.Inv s1 (Err (EOperation DivideByZero)) (at_stack (ZERO :: l) s)) /\
  (forall a, a <> ZERO -> a <> ONE -> st_rel proc_rel s1 (at_stack (a :: l) s) ->
     fast_runs Op.Not s1 (Err (EOperation (NotBinaryValue BvOperation a))) (at_stack (a :: l) s)) /\
  (forall op a b bad, op = Op.And \/ op = Op.Or -> bad <> ZERO -> bad <> ONE ->
     bad = b \/ (bad = a /\ (b = ZERO \/ b = ONE)) ->
     st_rel proc_rel s1 (at_stack (b :: a :: l) s) ->
     fast_runs op s1 (Err (EOperation (NotBinaryValue BvOperation bad)))
       (at_stack (refill (a :: l)) s)).
Proof.
  split_and!.
  - intros Hs. eapply fast_runs_of; [done| |done]. cbn [execute_op]. unfold op_inv. run_auto.
    by rewrite decide_True.
  - intros a H0 H1 Hs. eapply fast_runs_of; [done| |done]. cbn [execute_op]. unfold op_not. run_auto.
    by rewrite !decide_False.
  - intros op a b bad Hop H0 H1 Hbad Hs. eapply fast_runs_of; [done| |done].
    assert (Hf : forall k : Felt, (do! assert_binary b; do! assert_binary a; ret k)
      (at_stack (refill (a :: l)) s) =
      (Err (EOperation (NotBinaryValue BvOperation bad)), at_stack (refill (a :: l)) s)).
    { intros k. destruct Hbad as [->|[-> Hb]]; unfold assert_binary.
      - by rewrite decide_True.
      - rewrite (decide_False (P := b <> ZERO /\ _)) by naive_solver. run_auto. by rewrite decide_True. }
    destruct Hop as [->| ->]; cbn [execute_op]; unfold op_and, op_or; apply bind_Err;
      unfold pop2_applyfn_push_op; run_auto; by apply bind_Err.
Qed.

End Field.
