(* ===== verification/StackTheorems.v ===== *)
(** * Stack effects of the instructions

    The static classification of operations by their effect on the stack depth
    (core/src/operations/mod.rs) agrees with what the processor does; the
    rearranging operations apply fixed permutations, and undo one another. *)

From S2P Require Import Prelude Felt AdviceMap Quad Operations AceCircuit Machine StackOps ArithOps.
From S2P Require Import IoOps CryptoOps FriOps ExecuteOp Memory Merkle MerkleTheory Advice.
From S2P Require Import AdviceTheory AdviceAtomic FastStack StackRefine FastProcessor ExecSim.
From S2P Require Import SpecSafe ProgramRefine AbstractRun.

(** ** Depth changes *)

Section Depth.
Context `{G : Goldilocks} `{Q0 : QuadField}.
Context `{Poseidon2} {D : Type} `{DI : DeferredInterface D}.

Notation Spec := (SpecProcessor D).

Definition depth_of (p : Spec) : nat := length (sp_cells (p_stack p)).

(** A successful run changes the depth by [f] and keeps it at 16 or more. *)
Definition changes {A} (f : nat -> nat) (m : VM Spec A) : Prop :=
  forall s a s', m s = (Ok a, s') -> (MIN_STACK_DEPTH <= depth_of (st_proc s))%nat ->
    depth_of (st_proc s') = f (depth_of (st_proc s)) /\ (MIN_STACK_DEPTH <= depth_of (st_proc s'))%nat.

Lemma changes_bind_l {A B} f (m : VM Spec A) (k : A -> VM Spec B) :
  changes f m -> (forall a, changes id (k a)) -> changes f (bind m k).
Proof.
  intros Hm Hk s b s' He Hd. unfold bind in He. destruct (m s) as [[a|e|] s0] eqn:H0; [|done|done].
  destruct (Hm _ _ _ H0 Hd) as [Hf Hd0]. destruct (Hk _ _ _ _ He Hd0) as [Hk' ?].
  split; [by rewrite Hk'|done].
Qed.

Lemma changes_bind_r {A B} f (m : VM Spec A) (k : A -> VM Spec B) :
  changes id m -> (forall a, changes f (k a)) -> changes f (bind m k).
Proof.
  intros Hm Hk s b s' He Hd. unfold bind in He. destruct (m s) as [[a|e|] s0] eqn:H0; [|done|done].
  destruct (Hm _ _ _ H0 Hd) as [Hf Hd0]. destruct (Hk _ _ _ _ He Hd0) as [Hk' ?].
  split; [by rewrite Hk', Hf|done].
Qed.

Lemma changes_ret {A} (a : A) : changes id (ret a).
Proof. by intros s b s' [= <- <-]. Qed.

Lemma changes_fail {A} f e : changes (A := A) f (fail e).
Proof. by intros s b s' [=]. Qed.

Lemma changes_panic {A} f : changes (A := A) f panic.
Proof. by intros s b s' [=]. Qed.

Lemma changes_expect {A} (o : option A) : changes id (expect o).
Proof. destruct o; [apply changes_ret|apply changes_panic]. Qed.

Lemma changes_trace e : changes id (trace e).
Proof. by intros s b s' [= <- <-]. Qed.

(** Methods of the stack. *)
Definition stk_changes {A} (f : nat -> nat) (m : PM SpecStack A) : Prop :=
  forall t a t', m t = (Ok a, t') -> (MIN_STACK_DEPTH <= length (sp_cells t))%nat ->
    length (sp_cells t') = f (length (sp_cells t)) /\ (MIN_STACK_DEPTH <= length (sp_cells t'))%nat.

Lemma changes_on_stack {A} f (m : PM SpecStack A) : stk_changes f m -> changes f (on_proc (on_stack m)).
Proof.
  intros Hm s a s' He Hd. unfold on_proc, on_stack, zoom in He.
  destruct (m (p_stack (st_proc s))) as [[x|e|] t] eqn:Ht in He; simplify_eq/=.
  by apply (Hm _ _ _ Ht).
Qed.

(** Methods that do not touch the stack. *)
Lemma changes_off_stack {A} (m : PM Spec A) :
  (forall p a p', m p = (Ok a, p') -> p_stack p' = p_stack p) -> changes id (on_proc m).
Proof.
  intros Hm s a s' He Hd. unfold on_proc in He.
  destruct (m (st_proc s)) as [r p'] eqn:Hp in He. simplify_eq.
  unfold depth_of. cbn. by rewrite (Hm _ _ _ Hp).
Qed.

Lemma stk_upd f (g : SpecStack -> option SpecStack) :
  (forall t t', g t = Some t' -> (MIN_STACK_DEPTH <= length (sp_cells t))%nat ->
    length (sp_cells t') = f (length (sp_cells t)) /\ (MIN_STACK_DEPTH <= length (sp_cells t'))%nat) ->
  stk_changes f (upd g).
Proof.
  intros Hg t a t' He Hd. unfold upd in He. destruct (g t) eqn:Ht; [|done]. injection He as <- <-. auto.
Qed.

(** An update of the cells that keeps their number. *)
Lemma stk_same_length (g : list (option Felt) -> option (list (option Felt))) :
  (forall l l', g l = Some l' -> length l' = length l) ->
  stk_changes id (upd (fun t => l ← g (sp_cells t); Some (with_cells t l))).
Proof.
  intros Hg. apply stk_upd. intros t t' He Hd. destruct (g (sp_cells t)) eqn:Hl; [|done].
  cbn in He. injection He as <-. cbn. by rewrite (Hg _ _ Hl).
Qed.

Lemma update_length {A} i (x : A) l l' : update i x l = Some l' -> length l' = length l.
Proof. unfold update. destruct (_ <? _)%nat; [|done]. intros [= <-]. apply length_insert. Qed.

Lemma copy_at_length {A} i (src l l' : list A) : copy_at i src l = Some l' -> length l' = length l.
Proof.
  unfold copy_at. destruct (Nat.leb_spec (i + length src) (length l)); [|done]. intros [= <-].
  rewrite !length_app, length_take, length_drop. lia.
Qed.

Lemma list_swap_length {A} i j (l l' : list A) : list_swap i j l = Some l' -> length l' = length l.
Proof.
  unfold list_swap. destruct (l !! i), (l !! j); try done. cbn. intros [= <-]. by rewrite !length_insert.
Qed.

Lemma list_swapw_length {A} n (l l' : list A) : list_swapw n l = Some l' -> length l' = length l.
Proof.
  intros He. unfold list_swapw in He. destruct (Nat.leb_spec 1 n); [|done].
  destruct (Nat.leb_spec (4 * n + 4) (length l)); [|done].
  destruct (list_swapw_Some n l) as (r & Hr & Hl & _); [done..|]. unfold list_swapw in Hr.
  rewrite (proj2 (Nat.leb_le _ _)), (proj2 (Nat.leb_le _ _)) in Hr by done. cbn [andb] in *. congruence.
Qed.

Lemma list_movup_length {A} n (l l' : list A) : list_movup n l = Some l' -> length l' = length l.
Proof.
  intros He. destruct (decide (1 <= n <= length l)%nat) as [Hn|Hn].
  - destruct (list_movup_Some n l Hn) as (r & Hr & Hl & _). congruence.
  - unfold list_movup in He. destruct (Nat.leb_spec 1 n); [|done].
    rewrite lookup_ge_None_2 in He by lia. done.
Qed.

Lemma list_movdn_length {A} n (l l' : list A) : list_movdn n l = Some l' -> length l' = length l.
Proof.
  intros He. destruct (decide (1 <= n <= length l)%nat) as [Hn|Hn].
  - destruct (list_movdn_Some n l Hn) as (r & Hr & Hl & _). congruence.
  - unfold list_movdn in He. destruct (Nat.leb_spec 1 n), (Nat.leb_spec n (length l)); done || lia.
Qed.

Lemma changes_reads {A} (m : PM SpecStack A) :
  (forall t a t', m t = (Ok a, t') -> t' = t) -> changes id (on_proc (on_stack m)).
Proof. intros Hm. apply changes_on_stack. intros t a t' He Hd. by apply Hm in He as ->. Qed.

Lemma changes_get i : changes id (get i).
Proof. apply changes_reads. intros t a t'. cbn. unfold sp_get. by destruct (cell_get _ _); intros [= _ <-]. Qed.
Lemma changes_get_word i : changes id (get_word i).
Proof.
  apply changes_reads. intros t a t'. cbn. unfold sp_get_word.
  by do 4 (destruct (cell_get _ _); [|by intros [= _ <-]]); intros [= _ <-].
Qed.
Lemma changes_set i x : changes id (set i x).
Proof. apply changes_on_stack, stk_same_length. intros l l'. apply update_length. Qed.
Lemma changes_set_word i w : changes id (set_word i w).
Proof. apply changes_on_stack, stk_same_length. intros l l'. apply copy_at_length. Qed.
Lemma changes_swap i j : changes id (swap i j).
Proof. apply changes_on_stack, stk_same_length. intros l l'. apply list_swap_length. Qed.
Lemma changes_swapw_nth n : changes id (on_proc (stack_swapw_nth n)).
Proof. apply changes_on_stack, stk_same_length. intros l l'. apply list_swapw_length. Qed.
Lemma changes_rotate_left n : changes id (on_proc (stack_rotate_left n)).
Proof. apply changes_on_stack, stk_same_length. intros l l'. apply list_movup_length. Qed.
Lemma changes_rotate_right n : changes id (on_proc (stack_rotate_right n)).
Proof. apply changes_on_stack, stk_same_length. intros l l'. apply list_movdn_length. Qed.
Lemma changes_depth : changes id (on_proc stack_depth).
Proof. apply changes_reads. by intros t a t' [= _ <-]. Qed.

Lemma changes_increment_size : changes S increment_size.
Proof.
  apply changes_on_stack. intros t a t'. cbn. unfold sp_increment_size.
  destruct (_ <? _); [done|]. intros [= <- <-] Hd. cbn. lia.
Qed.

(** A pop never goes below 16 elements. *)
Definition pop_depth (n : nat) : nat := Nat.max MIN_STACK_DEPTH (n - 1).

Lemma changes_decrement_size : changes pop_depth decrement_size.
Proof.
  apply changes_on_stack. intros t a t' [= <- <-] Hd. cbn.
  rewrite list_pop_length by done. unfold pop_depth. lia.
Qed.

Lemma zoom_stack {E T A} (proj : Spec -> T) put (inj : E -> ExecutionError) (m : M E T A) p a p' :
  (forall t q, p_stack (put t q) = p_stack q) ->
  zoom proj put inj m p = (Ok a, p') -> p_stack p' = p_stack p.
Proof.
  intros Hput. unfold zoom. by destruct (m (proj p)) as [[]]; intros [= <- <-].
Qed.

Lemma changes_memory {A} (m : M MemoryError Memory A) : changes id (on_proc (on_memory m)).
Proof. apply changes_off_stack. intros p a p'. by apply zoom_stack. Qed.

Lemma changes_advice {A} (m : AP A) : changes id (on_proc (on_advice m)).
Proof. apply changes_off_stack. intros p a p'. by apply zoom_stack. Qed.

Lemma bind_zoom_stack {A B} (m : PM Spec A) (k : A -> B) p b p' :
  (forall a p', m p = (Ok a, p') -> p_stack p' = p_stack p) ->
  (let! a := m in ret (k a)) p = (Ok b, p') -> p_stack p' = p_stack p.
Proof.
  intros Hm. unfold bind. destruct (m p) as [[a|e|] q] eqn:Hq; [|done|done].
  intros [= _ <-]. by eapply Hm.
Qed.

Lemma changes_get_double_word i : changes id (get_double_word i).
Proof.
  unfold get_double_word. do 8 (apply changes_bind_r; [apply changes_get|intros ?]). apply changes_ret.
Qed.

Lemma changes_get_merkle_path r d i : changes id (on_proc (adv_get_merkle_path r d i)).
Proof.
  apply changes_off_stack. intros p a p'. cbn. apply bind_zoom_stack. intros b q. by apply zoom_stack.
Qed.

Lemma changes_update_merkle_node r d i v : changes id (on_proc (adv_update_merkle_node r d i v)).
Proof.
  apply changes_off_stack. intros p a p'. cbn. unfold bind.
  destruct (on_advice _ p) as [[[path w]|e|] q] eqn:Hq; [|done|done]. intros [= _ <-].
  revert Hq. by apply zoom_stack.
Qed.

Lemma changes_verify a b p i e : changes id (on_proc (hash_verify_merkle_root a b p i e)).
Proof.
  apply changes_off_stack. intros q x q'. cbn. unfold verify_merkle_root, bind, expect.
  destruct p as [p|]; [|done]. cbn. by destruct (verify _ _ _ _); intros [= _ <-].
Qed.

Lemma changes_update a b c p i e : changes id (on_proc (hash_update_merkle_root a b c p i e)).
Proof.
  apply changes_off_stack. intros q x q'. cbn. unfold update_merkle_root, bind, expect.
  destruct p as [p|]; [|done]. cbn. destruct (verify _ _ _ _); [|done|done].
  by destruct (compute_root _ _ _); intros [= _ <-].
Qed.

Lemma changes_sys {A} (f : Spec -> A) : changes id (on_proc (gets f)).
Proof. apply changes_off_stack. by intros p a p' [= _ <-]. Qed.

Lemma changes_permute h : changes id (on_proc (hash_permute h)).
Proof. apply changes_off_stack. by intros p a p' [= _ <-]. Qed.

Lemma changes_log_deferred a b : changes id (on_proc (sys_log_deferred_statement a b)).
Proof. apply changes_off_stack. intros p x p'. by apply zoom_stack. Qed.

(** Circuit evaluation only reads memory. *)
Definition stack_fixed {A} (m : PM Spec A) : Prop :=
  forall p a p', m p = (Ok a, p') -> p_stack p' = p_stack p.

Lemma stack_fixed_bind {A B} (m : PM Spec A) (k : A -> PM Spec B) :
  stack_fixed m -> (forall a, stack_fixed (k a)) -> stack_fixed (bind m k).
Proof.
  intros Hm Hk p b p' He. unfold bind in He. destruct (m p) as [[a|e|] q] eqn:Hq; [|done|done].
  rewrite (Hk _ _ _ _ He). by eapply Hm.
Qed.

Lemma stack_fixed_ret {A} (a : A) : stack_fixed (ret a).
Proof. by intros p b p' [= _ <-]. Qed.

Lemma stack_fixed_fail {A} e : stack_fixed (A := A) (fail e).
Proof. by intros p b p' [=]. Qed.

Lemma stack_fixed_memory {A} (m : M MemoryError Memory A) : stack_fixed (on_memory m).
Proof. intros p a p'. by apply zoom_stack. Qed.

Lemma stack_fixed_read_rows n c k ptr e : stack_fixed (ace_read_rows n c k ptr e).
Proof.
  revert ptr e. induction n; intros; cbn [ace_read_rows]; [apply stack_fixed_ret|].
  apply stack_fixed_bind; [apply stack_fixed_memory|auto].
Qed.

Lemma stack_fixed_eval_rows n c ptr e : stack_fixed (ace_eval_rows n c ptr e).
Proof.
  revert ptr e. induction n; intros; cbn [ace_eval_rows]; [apply stack_fixed_ret|].
  apply stack_fixed_bind; [apply stack_fixed_memory|]. intros i.
  destruct (do_eval _ _ _); [auto|apply stack_fixed_fail|by intros p b p' [=]].
Qed.

Lemma stack_fixed_eval_circuit c ptr k v n : stack_fixed (eval_circuit_impl c ptr k v n).
Proof.
  unfold eval_circuit_impl. repeat (destruct (_ : bool); [apply stack_fixed_fail|]).
  apply stack_fixed_bind.
  { destruct (circuit_evaluation_new _ _ _ _); [apply stack_fixed_ret|by intros p b p' [=]]. }
  intros e. apply stack_fixed_bind; [apply stack_fixed_read_rows|]. intros [ptr' e'].
  apply stack_fixed_bind; [apply stack_fixed_eval_rows|]. intros e''.
  destruct (output_value e''); [|apply stack_fixed_fail].
  destruct (decide _); [apply stack_fixed_ret|apply stack_fixed_fail].
Qed.

Lemma changes_eval_circuit c ptr k v n : changes id (on_proc (eval_circuit_impl c ptr k v n)).
Proof. apply changes_off_stack, stack_fixed_eval_circuit. Qed.

End Depth.

Create HintDb depth discriminated.
#[export] Hint Resolve changes_ret changes_fail changes_panic changes_expect changes_trace changes_get
  changes_get_word changes_set changes_set_word changes_swap changes_swapw_nth changes_rotate_left
  changes_rotate_right changes_depth changes_increment_size changes_decrement_size
  changes_get_double_word changes_eval_circuit : depth.

Ltac depth_step :=
  cbv zeta;
  lazymatch goal with
  | |- changes _ (bind increment_size _) => apply changes_bind_l; [apply changes_increment_size|intros ?]
  | |- changes _ (bind decrement_size _) => apply changes_bind_l; [apply changes_decrement_size|intros ?]
  | |- changes _ (bind (bind _ _) _) =>
      first [apply changes_bind_r; [solve [repeat depth_step_inner]|intros ?]
            |apply changes_bind_l; [|intros ?]]
  | |- changes _ (bind _ _) => apply changes_bind_r; [|intros ?]
  | |- changes _ (let '(_, _) := ?x in _) => destruct x
  | |- changes _ (match ?x with _ => _ end) => destruct x
  | |- changes _ (fail_op _) => apply changes_fail
  | |- changes _ (fail_mem _) => apply changes_fail
  | |- changes _ (on_proc (mem_read_word _ _ _)) => apply changes_memory
  | |- changes _ (on_proc (mem_read_element _ _)) => apply changes_memory
  | |- changes _ (on_proc (mem_write_word _ _ _ _)) => apply changes_memory
  | |- changes _ (on_proc (mem_write_element _ _ _)) => apply changes_memory
  | |- changes _ (on_proc adv_pop_stack) => apply changes_advice
  | |- changes _ (on_proc adv_pop_stack_word) => apply changes_advice
  | |- changes _ (on_proc adv_pop_stack_dword) => apply changes_advice
  | |- changes _ (on_proc (hash_permute _)) => apply changes_permute
  | |- changes _ (on_proc (adv_get_merkle_path _ _ _)) => apply changes_get_merkle_path
  | |- changes _ (on_proc (adv_update_merkle_node _ _ _ _)) => apply changes_update_merkle_node
  | |- changes _ (on_proc (hash_verify_merkle_root _ _ _ _ _)) => apply changes_verify
  | |- changes _ (on_proc (hash_update_merkle_root _ _ _ _ _ _)) => apply changes_update
  | |- changes _ (on_proc (sys_log_deferred_statement _ _)) => apply changes_log_deferred
  | |- changes _ ctx => apply changes_sys
  | |- changes _ clock => apply changes_sys
  | |- changes _ (on_proc sys_caller_hash) => apply changes_sys
  | |- changes _ (on_proc sys_deferred_root) => apply changes_sys
  | |- _ => solve [eauto 2 with depth]
  end
with depth_step_inner := depth_step.

Section Flags.
Context `{G : Goldilocks} `{GL : !GoldilocksLaws G} `{Q0 : QuadField}.
Context `{Poseidon2} {D : Type} `{DI : DeferredInterface D} `{DL : !DeferredLaws D}.

(** The depth change the static classification announces. *)
Definition flag_depth (op : Operation) : nat -> nat :=
  if increments_stack_size op then S
  else if decrements_stack_size op then pop_depth else id.

Lemma execute_op_depth op : changes (D := D) (flag_depth op) (execute_op op).
Proof.
  destruct op; cbn [flag_depth increments_stack_size decrements_stack_size execute_op];
    autounfold with ops; repeat depth_step.
Qed.

(** C32: the static depth classification is what the processor does: whenever an
    operation succeeds on the fast processor, its stack depth grows by one if
    [increments_stack_size] holds, shrinks by one (but never below 16) if
    [decrements_stack_size] holds, and is unchanged otherwise. *)
Theorem depth_flags_correct op s1 s2 h s1' :
  represents (D := D) s1 s2 -> op <> Op.Emit -> execute_op op s1 = (Ok h, s1') ->
  stack_size (p_stack (st_proc s1')) =
    flag_depth op <$> stack_size (p_stack (st_proc s1)).
Proof.
  intros [Hr Hok] He H1. pose proof (execute_op_sim proc_rel op s1 s2 Hr) as Hsim.
  pose proof (execute_op_safe op He s2 Hok) as Hsafe.
  destruct (execute_op op s2) as [[x|e|] s2'] eqn:H2; [|by destruct Hsim as (? & Hc & _); rewrite H1 in Hc|done].
  destruct Hsim as (s1'' & Hc & Hr'). rewrite H1 in Hc. injection Hc as <- <-.
  rewrite (stack_size_rel _ _ (pr_stack _ _ (proj1 Hr))), (stack_size_rel _ _ (pr_stack _ _ (proj1 Hr'))).
  cbn [fmap option_fmap option_map]. f_equal.
  apply (execute_op_depth op _ _ _ H2). apply Hok.
Qed.

End Flags.

(** ** Rearrangements *)

(** Where the element at each of the top 16 positions comes from. *)
Definition source_positions (op : Operation) : option (list nat) :=
  match op with
  | Op.Swap => Some [1; 0; 2; 3; 4; 5; 6; 7; 8; 9; 10; 11; 12; 13; 14; 15]
  | Op.SwapW => Some [4; 5; 6; 7; 0; 1; 2; 3; 8; 9; 10; 11; 12; 13; 14; 15]
  | Op.SwapW2 => Some [8; 9; 10; 11; 4; 5; 6; 7; 0; 1; 2; 3; 12; 13; 14; 15]
  | Op.SwapW3 => Some [12; 13; 14; 15; 4; 5; 6; 7; 8; 9; 10; 11; 0; 1; 2; 3]
  | Op.SwapDW => Some [8; 9; 10; 11; 12; 13; 14; 15; 0; 1; 2; 3; 4; 5; 6; 7]
  | Op.MovUp2 => Some [2; 0; 1; 3; 4; 5; 6; 7; 8; 9; 10; 11; 12; 13; 14; 15]
  | Op.MovUp3 => Some [3; 0; 1; 2; 4; 5; 6; 7; 8; 9; 10; 11; 12; 13; 14; 15]
  | Op.MovUp4 => Some [4; 0; 1; 2; 3; 5; 6; 7; 8; 9; 10; 11; 12; 13; 14; 15]
  | Op.MovUp5 => Some [5; 0; 1; 2; 3; 4; 6; 7; 8; 9; 10; 11; 12; 13; 14; 15]
  | Op.MovUp6 => Some [6; 0; 1; 2; 3; 4; 5; 7; 8; 9; 10; 11; 12; 13; 14; 15]
  | Op.MovUp7 => Some [7; 0; 1; 2; 3; 4; 5; 6; 8; 9; 10; 11; 12; 13; 14; 15]
  | Op.MovUp8 => Some [8; 0; 1; 2; 3; 4; 5; 6; 7; 9; 10; 11; 12; 13; 14; 15]
  | Op.MovDn2 => Some [1; 2; 0; 3; 4; 5; 6; 7; 8; 9; 10; 11; 12; 13; 14; 15]
  | Op.MovDn3 => Some [1; 2; 3; 0; 4; 5; 6; 7; 8; 9; 10; 11; 12; 13; 14; 15]
  | Op.MovDn4 => Some [1; 2; 3; 4; 0; 5; 6; 7; 8; 9; 10; 11; 12; 13; 14; 15]
  | Op.MovDn5 => Some [1; 2; 3; 4; 5; 0; 6; 7; 8; 9; 10; 11; 12; 13; 14; 15]
  | Op.MovDn6 => Some [1; 2; 3; 4; 5; 6; 0; 7; 8; 9; 10; 11; 12; 13; 14; 15]
  | Op.MovDn7 => Some [1; 2; 3; 4; 5; 6; 7; 0; 8; 9; 10; 11; 12; 13; 14; 15]
  | Op.MovDn8 => Some [1; 2; 3; 4; 5; 6; 7; 8; 0; 9; 10; 11; 12; 13; 14; 15]
  | _ => None
  end%nat.

(** The operation that undoes a rearrangement. *)
Definition undo (op : Operation) : Operation :=
  match op with
  | Op.MovUp2 => Op.MovDn2 | Op.MovUp3 => Op.MovDn3 | Op.MovUp4 => Op.MovDn4
  | Op.MovUp5 => Op.MovDn5 | Op.MovUp6 => Op.MovDn6 | Op.MovUp7 => Op.MovDn7
  | Op.MovUp8 => Op.MovDn8
  | Op.MovDn2 => Op.MovUp2 | Op.MovDn3 => Op.MovUp3 | Op.MovDn4 => Op.MovUp4
  | Op.MovDn5 => Op.MovUp5 | Op.MovDn6 => Op.MovUp6 | Op.MovDn7 => Op.MovUp7
  | Op.MovDn8 => Op.MovUp8
  | op => op
  end.

(** The stack with its top 16 elements taken from the given positions. *)
Definition take_from (positions : list nat) (l : list Felt) : list Felt :=
  (fun i => nth i l ZERO) <$> positions.

Lemma split16 (l : list Felt) : (MIN_STACK_DEPTH <= length l)%nat ->
  exists x0 x1 x2 x3 x4 x5 x6 x7 x8 x9 x10 x11 x12 x13 x14 x15 r,
    l = x0 :: x1 :: x2 :: x3 :: x4 :: x5 :: x6 :: x7 :: x8 :: x9 :: x10 :: x11 :: x12 :: x13 :: x14
          :: x15 :: r.
Proof.
  unfold MIN_STACK_DEPTH. intros Hl.
  do 16 (destruct l as [|? l]; [cbn [length] in Hl; lia|]).
  by do 17 eexists.
Qed.

Section Rearrange.
Context `{G : Goldilocks} `{Q0 : QuadField}.
Context `{Poseidon2} {D : Type} `{DI : DeferredInterface D}.

Lemma rearrange_run op ps l (s : St (SpecProcessor D)) :
  source_positions op = Some ps -> (MIN_STACK_DEPTH <= length l)%nat ->
  execute_op op (at_stack l s) = (Ok Helper.Empty, at_stack (take_from ps l ++ drop 16 l) s).
Proof.
  intros Hp Hl. destruct (split16 l Hl) as (x0 & x1 & x2 & x3 & x4 & x5 & x6 & x7 & x8 & x9 & x10 & x11
    & x12 & x13 & x14 & x15 & r & ->).
  destruct op; try discriminate Hp; injection Hp as <-; reflexivity.
Qed.

(** The rearranging operations permute the top 16 elements of the stack as
    documented (swaps of elements, words and double words, and moves of one
    element up or down), keep everything below in place, and each one is undone
    by its counterpart ([MovUp] by [MovDn], a swap by itself). *)
Lemma rearrangements_correct op ps l s s1 :
  source_positions op = Some ps -> (MIN_STACK_DEPTH <= length l)%nat ->
  st_rel (proc_rel (D := D)) s1 (at_stack l s) ->
  ps ≡ₚ seq 0 16 /\
  fast_runs op s1 (Ok Helper.Empty) (at_stack (take_from ps l ++ drop 16 l) s) /\
  fast_runs_ops [op; undo op] s1 (Ok tt) (at_stack l s).
Proof.
  intros Hp Hl Hs. split.
  { destruct op; try discriminate Hp; injection Hp as <-; apply (bool_decide_unpack _); by vm_compute. }
  pose proof (rearrange_run op ps l s Hp Hl) as Hrun. split; [by eapply fast_runs_of|].
  eapply fast_runs_ops_of; [done| |done]. cbn [execute_ops].
  rewrite (bind_Ok _ _ _ _ _ Hrun). clear -Hp Hl.
  destruct (split16 l Hl) as (x0 & x1 & x2 & x3 & x4 & x5 & x6 & x7 & x8 & x9 & x10 & x11
    & x12 & x13 & x14 & x15 & r & ->).
  destruct op; try discriminate Hp; injection Hp as <-; reflexivity.
Qed.

(** ** Pushes *)

(** The element an operation pushes, given the stack and the clock. *)
Definition pushed (op : Operation) (l : list Felt) (s : St (SpecProcessor D)) : option Felt :=
  match op with
  | Op.Push v => Some v
  | Op.Pad => Some ZERO
  | Op.Dup0 => l !! 0%nat | Op.Dup1 => l !! 1%nat | Op.Dup2 => l !! 2%nat | Op.Dup3 => l !! 3%nat
  | Op.Dup4 => l !! 4%nat | Op.Dup5 => l !! 5%nat | Op.Dup6 => l !! 6%nat | Op.Dup7 => l !! 7%nat
  | Op.Dup9 => l !! 9%nat | Op.Dup11 => l !! 11%nat | Op.Dup13 => l !! 13%nat | Op.Dup15 => l !! 15%nat
  | Op.SDepth => Some (from_u32 (wrap32 (Z.of_nat (length l))))
  | Op.Clk => Some (from_u32 (p_clk (st_proc s)))
  | _ => None
  end.

Lemma pushed_run op l s x k : pushed op l s = Some x ->
  (forall y, execute_op op (at_stack l s) =
     (do! increment_size; do! set 0 y; ret Helper.Empty) (at_stack l s) -> y = x -> k) -> k.
Proof.
  intros Hx Hk. destruct op; try discriminate Hx;
    try (injection Hx as <-; eapply Hk; [reflexivity|done]);
    try (eapply Hk; [cbn [execute_op]; unfold dup_nth; erewrite bind_Ok by (by apply run_get); reflexivity|done]).
  injection Hx as <-. eapply Hk; [cbn [execute_op]; unfold op_sdepth; erewrite bind_Ok by reflexivity;
    reflexivity|]. cbn. by rewrite length_fmap.
Qed.

(** The pushing operations push what they document (a constant, a zero, a
    copy of the [n]-th element, the depth, the clock) when the depth limit
    leaves room, and [Drop] takes it off again; at the limit they fail with
    [StackDepthLimitExceeded] and leave the stack as it was. *)
Lemma pushes_correct op l s s1 x :
  pushed op l s = Some x -> (MIN_STACK_DEPTH <= length l)%nat ->
  st_rel proc_rel s1 (at_stack l s) ->
  if decide (has_room l s) then
    fast_runs op s1 (Ok Helper.Empty) (at_stack (x :: l) s) /\
    fast_runs_ops [op; Op.Drop] s1 (Ok tt) (at_stack l s)
  else exists d m, fast_runs op s1 (Err (StackDepthLimitExceeded d m)) (at_stack l s).
Proof.
  intros Hx Hl Hs. apply (pushed_run op l s x _ Hx). intros y He ->.
  destruct (decide _) as [Hr|Hr].
  - rewrite run_push in He by done. split; [by eapply fast_runs_of|].
    eapply fast_runs_ops_of; [done| |done]. cbn [execute_ops execute_op].
    erewrite bind_Ok by exact He. unfold op_drop. unfold bind at 1.
    erewrite bind_Ok by apply run_decrement_size. rewrite pop_cons. unfold refill.
    by rewrite (proj2 (Nat.ltb_ge _ _)).
  - destruct (run_push_limit l s x (ret Helper.Empty) Hr) as (d & m & Hp).
    exists d, m. rewrite Hp in He. by eapply fast_runs_of.
Qed.

End Rearrange.
