(* ===== verification/MemoryTheorems.v ===== *)
(** * Memory and its instructions

    What the memory component promises (every write is visible at exactly the
    addresses written, contexts are isolated, errors change nothing, the entry
    limit holds) and the memory instructions of the processor on top of it. *)

From S2P Require Import Prelude Felt AdviceMap Quad Operations AceCircuit Machine StackOps ArithOps.
From S2P Require Import IoOps CryptoOps FriOps ExecuteOp Memory Merkle MerkleTheory Advice.
From S2P Require Import AdviceTheory AdviceAtomic FastStack StackRefine FastProcessor ExecSim.
From S2P Require Import SpecSafe ProgramRefine AbstractRun.

(** ** The component *)

Lemma would_exceed_true m k : would_exceed m k = true ->
  memory m !! k = None /\ max_entries m <= Z.of_nat (size (memory m)).
Proof.
  unfold would_exceed. intros [Hk Hs]%andb_prop. split; [by apply bool_decide_eq_true_1 in Hk|].
  by apply Z.leb_le.
Qed.

(** An element write is exact: it fails, changing nothing, precisely when
    the address is not a 32-bit value or a new word would exceed the entry
    limit; otherwise the written address of the written context, and no other
    address and no other context, reads back the new element, and the entry
    limit still holds. *)
Lemma write_element_exact m ctx addr x :
  match write_element m ctx addr x with
  | (Ok _, m') =>
      read_element m' ctx addr = Ok x /\
      (forall ctx' addr', (ctx', addr') <> (ctx, addr) ->
         read_element m' ctx' addr' = read_element m ctx' addr') /\
      max_entries m' = max_entries m /\ (within_limit m -> within_limit m')
  | (Err e, m') =>
      m' = m /\
      ((e = AddressOutOfBounds ⟦addr⟧ /\ U32_MAX < ⟦addr⟧) \/
       (memory m !! word_key ctx ⟦addr⟧ = None /\ max_entries m <= Z.of_nat (size (memory m)) /\
        e = MemoryElementLimitExceeded ctx (⟦addr⟧ - ⟦addr⟧ mod 4) (max_element_limit m)))
  | (Panic, _) => False
  end.
Proof.
  destruct (write_element m ctx addr x) as [[[]|e|] m'] eqn:Hw.
  - destruct (write_element_inv _ _ _ _ _ Hw) as (Ha & Hex & w' & _ & ->).
    pose proof (elem_at_write_element _ _ _ _ _ Hw) as Hel.
    split_and!; [| |done|by intros; apply insert_within_limit].
    + rewrite read_element_elem_at, decide_True, Hel by done. by rewrite decide_True.
    + intros ctx' addr' Hne. rewrite !read_element_elem_at. case_decide; [|done].
      rewrite Hel, decide_False; [done|]. intros [-> Heq%felt_eq]. by subst.
  - unfold write_element, clean_addr in Hw. destruct (Z.leb_spec ⟦addr⟧ U32_MAX) as [Hle|Hgt].
    + cbn [split_addr] in Hw. destruct (would_exceed _ _) eqn:Hex.
      * apply would_exceed_true in Hex as [Hn Hs]. injection Hw as <- <-. split; [done|right].
        by split_and!.
      * destruct (word_set_is_Some (default EMPTY_WORD (memory m !! (ctx, ⟦addr⟧ - ⟦addr⟧ mod 4)))
          (Z.to_nat (⟦addr⟧ mod 4)) x) as [w Hs]; [dlia|]. by rewrite Hs in Hw.
    + injection Hw as <- <-. split; [done|]. by left.
  - unfold write_element in Hw. pose proof (clean_addr_no_panic addr).
    destruct (clean_addr addr) as [a| |]; [|done|done]. cbn [split_addr] in Hw.
    destruct (would_exceed _ _); [done|].
    destruct (word_set_is_Some (default EMPTY_WORD (memory m !! (ctx, a - a mod 4))) (Z.to_nat (a mod 4)) x)
      as [w Hs]; [dlia|]. by rewrite Hs in Hw.
Qed.

(** A word write is exact: it fails, changing nothing, precisely when the
    address is not a 32-bit value, is not a multiple of 4, or would exceed the
    entry limit; otherwise the word reads back at that address, each of its
    elements reads back at its own address, and no other element of any
    context changes. *)
Lemma write_word_exact m ctx addr w :
  match write_word m ctx addr w with
  | (Ok _, m') =>
      read_word m' ctx addr = Ok w /\
      (forall ctx' a x, read_element m' ctx' a = Ok x ->
         if decide (ctx' = ctx /\ ⟦addr⟧ <= ⟦a⟧ < ⟦addr⟧ + 4)
         then word_get w (Z.to_nat (⟦a⟧ - ⟦addr⟧)) = Some x
         else read_element m ctx' a = Ok x) /\
      (within_limit m -> within_limit m')
  | (Err e, m') =>
      m' = m /\
      ((e = AddressOutOfBounds ⟦addr⟧ /\ U32_MAX < ⟦addr⟧) \/
       (e = UnalignedWordAccess ⟦addr⟧ ctx /\ ⟦addr⟧ mod 4 <> 0) \/
       (e = MemoryElementLimitExceeded ctx ⟦addr⟧ (max_element_limit m) /\
        memory m !! (ctx, ⟦addr⟧) = None /\ max_entries m <= Z.of_nat (size (memory m))))
  | (Panic, _) => False
  end.
Proof.
  destruct (write_word m ctx addr w) as [[[]|e|] m'] eqn:Hw.
  - pose proof (elem_at_write_word _ _ _ _ _ Hw) as Hel.
    destruct (write_word_inv _ _ _ _ _ Hw) as (Ha & Hal & Hex & ->).
    split_and!; [| |by intros; apply insert_within_limit].
    + unfold read_word, clean_addr, read_word_impl, enforce_word_aligned_addr.
      rewrite (proj2 (Z.leb_le _ _)) by apply Ha. rewrite Hal. cbn [Z.eqb memory].
      by rewrite lookup_insert_eq.
    + intros ctx' a x. rewrite !read_element_elem_at. case_decide; [|done]. intros [= <-].
      specialize (Hel ctx' ⟦a⟧). destruct (decide (ctx' = ctx /\ _)); [done|].
      by injection Hel as ->.
  - unfold write_word, clean_addr, enforce_word_aligned_addr in Hw.
    destruct (Z.leb_spec ⟦addr⟧ U32_MAX); [|injection Hw as <- <-; split; [done|by left]].
    destruct (Z.eqb_spec (⟦addr⟧ mod 4) 0); [|injection Hw as <- <-; split; [done|by right; left]].
    destruct (would_exceed _ _) eqn:Hex; [|done]. apply would_exceed_true in Hex as [Hn Hs].
    injection Hw as <- <-. split; [done|]. right. by right.
  - unfold write_word, clean_addr, enforce_word_aligned_addr in Hw.
    destruct (_ <=? _); [|done]. destruct (_ =? _); [|done]. by destruct (would_exceed _ _).
Qed.

(** Writes to memory are exact.  An element write fails, changing nothing,
    precisely when the address is not a 32-bit value or a new word would exceed
    the entry limit; otherwise the written address of the written context, and
    no other address and no other context, reads back the new element.  A word
    write fails, changing nothing, precisely when the address is not a 32-bit
    value, is not a multiple of 4, or would exceed the entry limit; otherwise
    the word and each of its elements read back, and no other element of any
    context changes.  The entry limit holds afterwards. *)
Lemma memory_writes_exact m ctx addr :
  (forall x,
     match write_element m ctx addr x with
     | (Ok _, m') =>
         read_element m' ctx addr = Ok x /\
         (forall ctx' addr', (ctx', addr') <> (ctx, addr) ->
            read_element m' ctx' addr' = read_element m ctx' addr') /\
         max_entries m' = max_entries m /\ (within_limit m -> within_limit m')
     | (Err e, m') =>
         m' = m /\
         ((e = AddressOutOfBounds ⟦addr⟧ /\ U32_MAX < ⟦addr⟧) \/
          (memory m !! word_key ctx ⟦addr⟧ = None /\ max_entries m <= Z.of_nat (size (memory m)) /\
           e = MemoryElementLimitExceeded ctx (⟦addr⟧ - ⟦addr⟧ mod 4) (max_element_limit m)))
     | (Panic, _) => False
     end) /\
  (forall w,
     match write_word m ctx addr w with
     | (Ok _, m') =>
         read_word m' ctx addr = Ok w /\
         (forall ctx' a x, read_element m' ctx' a = Ok x ->
            if decide (ctx' = ctx /\ ⟦addr⟧ <= ⟦a⟧ < ⟦addr⟧ + 4)
            then word_get w (Z.to_nat (⟦a⟧ - ⟦addr⟧)) = Some x
            else read_element m ctx' a = Ok x) /\
         (within_limit m -> within_limit m')
     | (Err e, m') =>
         m' = m /\
         ((e = AddressOutOfBounds ⟦addr⟧ /\ U32_MAX < ⟦addr⟧) \/
          (e = UnalignedWordAccess ⟦addr⟧ ctx /\ ⟦addr⟧ mod 4 <> 0) \/
          (e = MemoryElementLimitExceeded ctx ⟦addr⟧ (max_element_limit m) /\
           memory m !! (ctx, ⟦addr⟧) = None /\ max_entries m <= Z.of_nat (size (memory m))))
     | (Panic, _) => False
     end).
Proof. split; intros; [apply write_element_exact|apply write_word_exact]. Qed.

(** ** The instructions *)

Section IoRun.
Context `{Poseidon2} {D : Type} `{DI : DeferredInterface D}.

Notation Spec := (SpecProcessor D).

Definition set_mem (m : Memory) (s : St Spec) : St Spec := mkSt (put_memory m (st_proc s)) (st_trace s).
Definition set_adv (a : AdviceProvider) (s : St Spec) : St Spec :=
  mkSt (put_advice a (st_proc s)) (st_trace s).

Notation mem s := (p_memory (st_proc s)).
Notation cx s := (p_ctx (st_proc s)).

Lemma run_ctx l (s : St Spec) : ctx (at_stack l s) = (Ok (cx s), at_stack l s).
Proof. done. Qed.

Lemma run_clock l (s : St Spec) : clock (at_stack l s) = (Ok (p_clk (st_proc s)), at_stack l s).
Proof. done. Qed.

Lemma run_read_element l (s : St Spec) c a x : read_element (mem s) c a = Ok x ->
  on_proc (mem_read_element c a) (at_stack l s) = (Ok x, at_stack l s).
Proof. intros Hr. unfold on_proc. cbn. unfold on_memory, zoom. cbn. by rewrite Hr. Qed.

Lemma run_read_word l (s : St Spec) c a k w : read_word (mem s) c a = Ok w ->
  on_proc (mem_read_word c a k) (at_stack l s) = (Ok w, at_stack l s).
Proof. intros Hr. unfold on_proc. cbn. unfold on_memory, zoom. cbn. by rewrite Hr. Qed.

Lemma run_write_element l (s : St Spec) c a x m : write_element (mem s) c a x = (Ok tt, m) ->
  on_proc (mem_write_element c a x) (at_stack l s) = (Ok tt, at_stack l (set_mem m s)).
Proof. intros Hr. unfold on_proc. cbn. unfold on_memory, zoom. cbn. by rewrite Hr. Qed.

Lemma run_write_word l (s : St Spec) c a k w m : write_word (mem s) c a w = (Ok tt, m) ->
  on_proc (mem_write_word c a k w) (at_stack l s) = (Ok tt, at_stack l (set_mem m s)).
Proof. intros Hr. unfold on_proc. cbn. unfold on_memory, zoom. cbn. by rewrite Hr. Qed.

Lemma run_set_word l (s : St Spec) i w : (i + 4 <= length l)%nat ->
  set_word i w (at_stack l s) = (Ok tt, at_stack (take i l ++ into_elements w ++ drop (i + 4) l) s).
Proof.
  intros Hi.
  assert (Hc : sp_set_word i w (with_cells (p_stack (st_proc s)) (Some <$> l)) =
    (Ok tt, with_cells (p_stack (st_proc s)) (Some <$> (take i l ++ into_elements w ++ drop (i + 4) l)))).
  { unfold sp_set_word, upd, copy_at. cbn [with_cells sp_cells]. rewrite !length_fmap.
    change (length (into_elements w)) with 4%nat.
    rewrite (proj2 (Nat.leb_le _ _)) by done. cbn [mbind option_bind].
    by rewrite !fmap_app, fmap_take, fmap_drop. }
  unfold set_word, on_proc, at_stack. cbn [st_proc stack_set_word processor_stack proc_processor
    proc_stack spec_stack_interface]. unfold on_stack, zoom. cbn [p_stack put_stack]. by rewrite Hc.
Qed.

End IoRun.

(** Run the next call of a handler, memory and system calls included. *)
Ltac io_step :=
  first
    [ run_step
    | lazymatch goal with
      | |- context [bind ctx _ (at_stack _ _)] => erewrite bind_Ok by (apply run_ctx)
      | |- context [bind clock _ (at_stack _ _)] => erewrite bind_Ok by (apply run_clock)
      | |- context [bind (on_proc (mem_read_element _ _)) _ (at_stack _ _)] =>
          erewrite bind_Ok by (apply run_read_element; eassumption)
      | |- context [bind (on_proc (mem_read_word _ _ _)) _ (at_stack _ _)] =>
          erewrite bind_Ok by (apply run_read_word; eassumption)
      | |- context [bind (on_proc (mem_write_element _ _ _)) _ (at_stack _ _)] =>
          erewrite bind_Ok by (apply run_write_element; eassumption)
      | |- context [bind (on_proc (mem_write_word _ _ _ _)) _ (at_stack _ _)] =>
          erewrite bind_Ok by (apply run_write_word; eassumption)
      | |- context [bind (set_word _ _) _ (at_stack _ _)] =>
          erewrite bind_Ok by (apply run_set_word; cbn [length]; lia);
          cbn [take drop app into_elements Nat.add]
      end ].

Ltac io_auto := repeat (repeat rewrite <- at_stack_traced; io_step); repeat rewrite at_stack_traced.

Section Io.
Context `{G : Goldilocks} `{GL : !GoldilocksLaws G} `{Q0 : QuadField}.
Context `{Poseidon2} {D : Type} `{DI : DeferredInterface D}.

Notation Spec := (SpecProcessor D).

Notation mem s := (p_memory (st_proc s)).
Notation cx s := (p_ctx (st_proc s)).

Lemma mload_run a x l s : read_element (mem s) (cx s) a = Ok x ->
  exists evs, execute_op Op.MLoad (at_stack (a :: l) s) =
    (Ok Helper.Empty, traced evs (at_stack (x :: l) s)).
Proof.
  intros Hr. cbn [execute_op]. unfold op_mload. io_auto. by eexists [_].
Qed.

Lemma mstore_run a v l s m : write_element (mem s) (cx s) a v = (Ok tt, m) ->
  exists evs, execute_op Op.MStore (at_stack (a :: v :: l) s) =
    (Ok Helper.Empty, traced evs (at_stack (refill (v :: l)) (set_mem m s))).
Proof.
  intros Hr. cbn [execute_op]. unfold op_mstore. io_auto. by eexists [_].
Qed.

Lemma mloadw_run a w l s x0 x1 x2 x3 : read_word (mem s) (cx s) a = Ok w ->
  exists evs, execute_op Op.MLoadW (at_stack (a :: x0 :: x1 :: x2 :: x3 :: l) s) =
    (Ok Helper.Empty, traced evs (at_stack (refill (into_elements w ++ l)) s)).
Proof.
  intros Hr. cbn [execute_op]. unfold op_mloadw. do 7 io_step. eexists [_].
  rewrite (bind_Ok _ _ _ _ _ (run_trace _ _)), <- at_stack_traced.
  assert (Hl : (0 + 4 <= length (refill (x0 :: x1 :: x2 :: x3 :: l)))%nat).
  { pose proof (refill_length (x0 :: x1 :: x2 :: x3 :: l)). cbn [length] in *. lia. }
  rewrite (bind_Ok _ _ _ _ _ (run_set_word _ _ 0 w Hl)). unfold ret. do 2 f_equal.
  unfold refill, MIN_STACK_DEPTH. cbn [length app into_elements].
  by destruct (_ <? _)%nat.
Qed.

Lemma mstorew_run a x0 x1 x2 x3 l s m : write_word (mem s) (cx s) a (mkWord x0 x1 x2 x3) = (Ok tt, m) ->
  exists evs, execute_op Op.MStoreW (at_stack (a :: x0 :: x1 :: x2 :: x3 :: l) s) =
    (Ok Helper.Empty, traced evs (at_stack (refill (x0 :: x1 :: x2 :: x3 :: l)) (set_mem m s))).
Proof. intros Hr. cbn [execute_op]. unfold op_mstorew. io_auto. by eexists [_]. Qed.

(** Running one operation of a sequence. *)
Lemma run_one_op op ops (s : St Spec) h s' : execute_op op s = (Ok h, s') ->
  execute_ops (op :: ops) s = execute_ops ops s'.
Proof. intros He. cbn [execute_ops]. by rewrite (bind_Ok _ _ _ _ _ He). Qed.

Lemma push_run v l (s : St Spec) : has_room l s ->
  execute_op (Op.Push v) (at_stack l s) = (Ok Helper.Empty, at_stack (v :: l) s).
Proof. intros Hr. cbn [execute_op]. unfold op_push. by rewrite run_push. Qed.

Lemma refill_refill l : (15 <= length l)%nat -> refill (refill l) = refill l.
Proof.
  intros Hl. unfold refill at 1. unfold refill, MIN_STACK_DEPTH.
  destruct (Nat.ltb_spec (length l) 16); rewrite ?length_app; cbn [length];
    by rewrite (proj2 (Nat.ltb_ge _ _)) by lia.
Qed.

(** What is stored is loaded: on the fast processor, storing the second
    stack element at the address on top and loading from the same address
    yields that element again, in any execution context; the same holds for
    words at aligned addresses. *)
Lemma store_load_roundtrip a v x1 x2 x3 l s s1 :
  (16 <= length (a :: v :: x1 :: x2 :: x3 :: l))%nat ->
  st_rel proc_rel s1 (at_stack (a :: v :: x1 :: x2 :: x3 :: l) s) ->
  has_room (a :: v :: x1 :: x2 :: x3 :: l) s ->
  (forall m, write_element (mem s) (cx s) a v = (Ok tt, m) ->
    exists evs, fast_runs_ops [Op.MStore; Op.Push a; Op.MLoad] s1 (Ok tt)
      (traced evs (at_stack (v :: refill (v :: x1 :: x2 :: x3 :: l)) (set_mem m s)))) /\
  (forall m, write_word (mem s) (cx s) a (mkWord v x1 x2 x3) = (Ok tt, m) ->
    exists evs, fast_runs_ops [Op.MStoreW; Op.Push a; Op.MLoadW] s1 (Ok tt)
      (traced evs (at_stack (refill (v :: x1 :: x2 :: x3 :: l)) (set_mem m s)))).
Proof.
  intros Hlen Hs Hroom. cbn [length] in Hlen.
  assert (Hr : has_room (refill (v :: x1 :: x2 :: x3 :: l)) s).
  { unfold has_room in *. unfold refill, MIN_STACK_DEPTH. cbn [length] in Hroom.
    destruct (_ <? _)%nat; rewrite ?length_app; cbn [length] in *; lia. }
  split; intros m Hw.
  - destruct (mstore_run a v (x1 :: x2 :: x3 :: l) s m Hw) as [e1 H1].
    assert (Hrd : read_element m (cx s) a = Ok v).
    { pose proof (write_element_inv _ _ _ _ _ Hw) as [Ha _].
      rewrite read_element_elem_at, decide_True by done.
      rewrite (elem_at_write_element _ _ _ _ _ Hw). by rewrite decide_True. }
    destruct (mload_run a v (refill (v :: x1 :: x2 :: x3 :: l)) (traced e1 (set_mem m s)) Hrd) as [e2 H2].
    exists (e1 ++ e2). eapply fast_runs_ops_of; [done| |done].
    rewrite (run_one_op _ _ _ _ _ H1), <- at_stack_traced, (run_one_op _ _ _ _ _ (push_run a _ (traced e1 (set_mem m s)) Hr)).
    rewrite (run_one_op _ _ _ _ _ H2). by rewrite !at_stack_traced, traced_traced.
  - destruct (mstorew_run a v x1 x2 x3 l s m Hw) as [e1 H1].
    assert (Hrd : read_word m (cx s) a = Ok (mkWord v x1 x2 x3)).
    { pose proof (write_word_inv _ _ _ _ _ Hw) as (Ha & Hal & _ & ->).
      unfold read_word, clean_addr, read_word_impl, enforce_word_aligned_addr.
      rewrite (proj2 (Z.leb_le _ _)) by apply Ha. rewrite Hal. cbn [Z.eqb memory].
      by rewrite lookup_insert_eq. }
    set (l' := (if (length (v :: x1 :: x2 :: x3 :: l) <? MIN_STACK_DEPTH)%nat then l ++ [ZERO] else l)).
    assert (Hl' : refill (v :: x1 :: x2 :: x3 :: l) = v :: x1 :: x2 :: x3 :: l').
    { unfold refill, l'. by destruct (_ <? _)%nat. }
    destruct (mloadw_run a (mkWord v x1 x2 x3) l' (traced e1 (set_mem m s)) v x1 x2 x3 Hrd) as [e2 H2].
    exists (e1 ++ e2). eapply fast_runs_ops_of; [done| |done].
    rewrite (run_one_op _ _ _ _ _ H1), <- at_stack_traced, (run_one_op _ _ _ _ _ (push_run a _ (traced e1 (set_mem m s)) Hr)).
    rewrite Hl', (run_one_op _ _ _ _ _ H2). cbn [into_elements app word_a word_b word_c word_d].
    rewrite at_stack_traced, traced_traced. cbn [execute_ops]. unfold ret. do 3 f_equal.
    rewrite <- Hl'. apply refill_refill. cbn [length]. lia.
Qed.

(** ** Double-word transfers *)

Lemma run_pop_dword l (s : St Spec) w0 w1 a : pop_stack_dword (p_advice (st_proc s)) = (Ok (w0, w1), a) ->
  on_proc adv_pop_stack_dword (at_stack l s) = (Ok (w0, w1), at_stack l (set_adv a s)).
Proof.
  intros Hp. unfold on_proc, at_stack.
  cbn [st_proc adv_pop_stack_dword processor_advice proc_processor proc_advice].
  unfold on_advice, zoom. cbn [p_advice put_stack]. by rewrite Hp.
Qed.

(** [Pipe] moves eight elements from the advice stack to memory: with the
    destination address at position 12, the two advice words are written to
    memory at the address and four elements further, replace the top eight
    stack elements, and the address is advanced by 8; [MStream] reads the two
    words back from memory into the top eight stack elements and advances the
    address by 8. *)
Lemma pipe_mstream_correct l s s1 addr w0 w1 adv m1 m2 :
  l !! 12%nat = Some addr -> (16 <= length l)%nat -> st_rel proc_rel s1 (at_stack l s) ->
  let next := (addr + new_unchecked 8)%F in
  let l' := into_elements w0 ++ into_elements w1 ++ take 4 (drop 8 l) ++ next :: drop 13 l in
  (pop_stack_dword (p_advice (st_proc s)) = (Ok (w0, w1), adv) ->
   write_word (mem s) (cx s) addr w0 = (Ok tt, m1) ->
   write_word m1 (cx s) (addr + new_unchecked 4)%F w1 = (Ok tt, m2) ->
   exists evs, fast_runs Op.Pipe s1 (Ok Helper.Empty)
     (traced evs (at_stack l' (set_mem m2 (set_adv adv s))))) /\
  (read_word (mem s) (cx s) addr = Ok w0 ->
   read_word (mem s) (cx s) (addr + new_unchecked 4)%F = Ok w1 ->
   exists evs, fast_runs Op.MStream s1 (Ok Helper.Empty) (traced evs (at_stack l' s))).
Proof.
  intros Ha Hl Hs next l'.
  do 13 (destruct l as [|? l]; [cbn [length] in Hl; lia|]). injection Ha as ->.
  split.
  - intros Hadv Hw1 Hw2. eexists. eapply fast_runs_of; [done| |done].
    cbn [execute_op]. unfold op_pipe. do 3 io_step.
    erewrite bind_Ok by (apply run_pop_dword; exact Hadv). cbv beta iota.
    erewrite bind_Ok by (apply (run_write_word _ (set_adv adv s)); exact Hw1).
    erewrite bind_Ok by (apply (run_write_word _ (set_mem m1 (set_adv adv s))); exact Hw2).
    io_auto. reflexivity.
  - intros Hr1 Hr2. eexists. eapply fast_runs_of; [done| |done].
    cbn [execute_op]. unfold op_mstream. io_auto. reflexivity.
Qed.

End Io.
