(* ===== verification/CryptoTheorems.v ===== *)
(** * The cryptographic instructions

    Horner evaluation is polynomial evaluation, FRI folding evaluates the
    folded polynomial, the stream cipher adds the keystream word by word, and
    the Merkle instructions accept exactly valid openings. *)

From S2P Require Import Prelude Felt AdviceMap Quad Operations AceCircuit Machine StackOps ArithOps.
From S2P Require Import IoOps CryptoOps FriOps ExecuteOp Memory Merkle MerkleTheory Advice.
From S2P Require Import AdviceTheory AdviceAtomic FastStack StackRefine FastProcessor ExecSim.
From S2P Require Import SpecSafe ProgramRefine AbstractRun MemoryTheorems.

(** ** Polynomials over the extension field *)

Section Polynomials.
Context `{G : Goldilocks} `{GL : !GoldilocksLaws G} `{Q0 : QuadField} `{QL : !QuadFieldLaws G Q0}.

Add Ring felt_ring : felt_ring_theory.
Add Ring quad_ring : quad_ring_theory.

Fixpoint q_pow (a : QuadFelt) (n : nat) : QuadFelt :=
  match n with O => QUAD_ONE | S n => (a * q_pow a n)%Q end.

(** The polynomial with the given coefficients, highest degree first. *)
Fixpoint poly_eval (coeffs : list QuadFelt) (x : QuadFelt) : QuadFelt :=
  match coeffs with
  | [] => QUAD_ZERO
  | c :: cs => (c * q_pow x (length cs) + poly_eval cs x)%Q
  end.

(** Horner's rule with a starting accumulator. *)
Lemma horner_fold alpha coeffs acc :
  fold_left (horner_step alpha) coeffs acc =
    (acc * q_pow alpha (length coeffs) + poly_eval coeffs alpha)%Q.
Proof.
  revert acc. induction coeffs as [|c cs IH]; intros acc; cbn [fold_left length q_pow poly_eval].
  - unfold QUAD_ONE, QUAD_ZERO. change (quad_from ONE) with QUAD_ONE.
    change (quad_from ZERO) with QUAD_ZERO. ring.
  - rewrite IH. unfold horner_step. ring.
Qed.

End Polynomials.

Section Crypto.
Context `{G : Goldilocks} `{GL : !GoldilocksLaws G} `{Q0 : QuadField} `{QL : !QuadFieldLaws G Q0}.
Context `{Poseidon2} {D : Type} `{DI : DeferredInterface D}.

Add Ring felt_ring1 : felt_ring_theory.
Add Ring quad_ring1 : quad_ring_theory.

Notation Spec := (SpecProcessor D).
Notation mem s := (p_memory (st_proc s)).
Notation cx s := (p_ctx (st_proc s)).

(** *** Horner evaluation *)

Lemma read_point_run l (s : St Spec) addr a0 a1 :
  read_word (mem s) (cx s) addr = Ok (mkWord a0 a1 ZERO ZERO) ->
  exists ev, read_horner_eval_point addr (at_stack l s) = (Ok (mkQuad a0 a1), traced [ev] (at_stack l s)).
Proof.
  intros Hr. unfold read_horner_eval_point.
  rewrite (bind_Ok _ _ _ _ _ (run_clock l s)), (bind_Ok _ _ _ _ _ (run_ctx l s)).
  rewrite (bind_Ok _ _ _ _ _ (run_read_word l s _ _ _ _ Hr)). cbn [word_a word_b word_c word_d].
  rewrite decide_False by naive_solver. by eexists.
Qed.

Lemma run_get_double_word l (s : St Spec) x0 x1 x2 x3 x4 x5 x6 x7 :
  get_double_word 0 (at_stack (x0 :: x1 :: x2 :: x3 :: x4 :: x5 :: x6 :: x7 :: l) s) =
    (Ok (mkWord x0 x1 x2 x3, mkWord x4 x5 x6 x7),
     at_stack (x0 :: x1 :: x2 :: x3 :: x4 :: x5 :: x6 :: x7 :: l) s).
Proof. unfold get_double_word. cbn [Nat.add]. by run_auto. Qed.

(** Writes a list of known length out as its elements. *)
Ltac explicit l Hl :=
  destruct l as [|? l]; [try discriminate Hl|first [discriminate Hl|explicit l Hl]].

(** The coefficient pairs of [HornerExt]. *)
Definition ext_coeffs (cs : list Felt) : list QuadFelt :=
  match cs with
  | [c0; c1; c2; c3; c4; c5; c6; c7] => [mkQuad c0 c1; mkQuad c2 c3; mkQuad c4 c5; mkQuad c6 c7]
  | _ => []
  end.

(** [HornerBase] and [HornerExt] evaluate polynomials: with eight base-field
    (respectively four extension-field) coefficients on top of the stack, the
    address of the evaluation point [alpha] at position 13 and an accumulator
    [acc] at positions 14 and 15, the accumulator becomes
    [acc * alpha^n + c_0 * alpha^(n-1) + ... + c_(n-1)] with [n = 8]
    (respectively [n = 4]), and nothing else on the stack changes. *)
Lemma horner_correct cs rest addr acc0 acc1 r s s1 a0 a1 :
  length cs = 8%nat -> length rest = 5%nat ->
  st_rel proc_rel s1 (at_stack (cs ++ rest ++ addr :: acc0 :: acc1 :: r) s) ->
  read_word (mem s) (cx s) addr = Ok (mkWord a0 a1 ZERO ZERO) ->
  let alpha := mkQuad a0 a1 in
  let result coeffs := (mkQuad acc0 acc1 * q_pow alpha (length coeffs) + poly_eval coeffs alpha)%Q in
  let final v := at_stack (cs ++ rest ++ addr :: q0 v :: q1 v :: r) s in
  exists h h' evs evs',
    fast_runs Op.HornerBase s1 (Ok h) (traced evs (final (result (quad_from <$> cs)))) /\
    fast_runs Op.HornerExt s1 (Ok h') (traced evs' (final (result (ext_coeffs cs)))).
Proof.
  intros Hcs Hrest Hs Hr alpha result final. explicit cs Hcs. explicit rest Hrest.
  cbn [app] in Hs. set (l0 := f :: _) in Hs.
  destruct (read_point_run l0 s addr a0 a1 Hr) as [ev Hev].
  eexists _, _, [ev], [ev]. split; (eapply fast_runs_of; [done| |done]); cbn [execute_op].
  - unfold op_horner_eval_base, ACC_HIGH_INDEX, ACC_LOW_INDEX, ALPHA_ADDR_INDEX.
    erewrite bind_Ok by (apply run_get; reflexivity).
    erewrite bind_Ok by exact Hev. rewrite <- at_stack_traced.
    erewrite bind_Ok by apply run_get_double_word. cbv beta iota.
    match goal with |- context [bind _ _ (at_stack ?l ?t)] => change l with l0 end. subst l0.
    run_auto. unfold ret. cbn [word_a word_b word_c word_d].
    match goal with |- (Ok _, traced _ (at_stack (_ :: _ :: _ :: _ :: _ :: _ :: _ :: _ :: _ :: _ :: _ :: _ :: _ :: _ :: q0 ?v :: q1 ?v :: _) _)) = _ =>
      replace v with (result (quad_from <$> [f; f0; f1; f2; f3; f4; f5; f6])) end; [reflexivity|].
    unfold result. rewrite <- horner_fold. cbn [fmap list_fmap fold_left]. unfold horner_step.
    fold alpha. ring.
  - unfold op_horner_eval_ext, ACC_HIGH_INDEX, ACC_LOW_INDEX, ALPHA_ADDR_INDEX. subst l0. do 8 run_step. erewrite bind_Ok by (apply run_get; reflexivity).
    erewrite bind_Ok by exact Hev. run_auto. unfold ret.
    match goal with |- (Ok _, traced _ (at_stack (_ :: _ :: _ :: _ :: _ :: _ :: _ :: _ :: _ :: _ :: _ :: _ :: _ :: _ :: q0 ?v :: q1 ?v :: _) _)) = _ =>
      replace v with (result (ext_coeffs [f; f0; f1; f2; f3; f4; f5; f6])) end; [reflexivity|].
    unfold result. by rewrite <- horner_fold.
Qed.

(** *** FRI folding *)

(** The generator of the subgroup of order four whose inverse powers the code
    tabulates. *)
Definition TAU : Felt := TAU3_INV.

Fixpoint f_pow (a : Felt) (n : nat) : Felt :=
  match n with O => ONE | S n => (a * f_pow a n)%F end.

Lemma tau_tables : (TAU * TAU = TAU2_INV)%F /\ (TAU * TAU_INV = ONE)%F /\ (TWO_INV + TWO_INV = ONE)%F /\
  (TAU2_INV = ZERO - ONE)%F.
Proof. split_and!; apply felt_eq; rewrite ?gl_mul_spec, ?gl_add_spec, ?gl_sub_spec; vm_compute; reflexivity. Qed.

Lemma fold2_spec a b v w ep : v = (a + b)%Q -> w = (a - b)%Q -> fold2 v w ep = (a + b * ep)%Q.
Proof.
  intros -> ->. unfold fold2. rewrite q_mul_base_from.
  transitivity ((a + b * ep) * (quad_from TWO_INV + quad_from TWO_INV))%Q; [ring|].
  rewrite <- quad_from_add. destruct tau_tables as (_ & _ & -> & _).
  change (quad_from ONE) with QUAD_ONE. ring.
Qed.

(** The value at [y] of the polynomial with coefficients [cs]. *)
Definition base_eval (cs : list QuadFelt) (y : Felt) : QuadFelt := poly_eval cs (quad_from y).

Definition coset_point (x : Felt) (k : nat) : Felt := (f_pow TAU k * x)%F.

Lemma fold4_poly c3 c2 c1 c0 x x_inv alpha :
  (x * x_inv)%F = ONE ->
  let f k := base_eval [c3; c2; c1; c0] (coset_point x k) in
  let '(ev, es) := compute_evaluation_points alpha x_inv in
  (fold4 (f 0%nat) (f 1%nat) (f 2%nat) (f 3%nat) ev es).1.1 = poly_eval [c3; c2; c1; c0] alpha.
Proof.
  intros Hx f. destruct tau_tables as (T2 & Ti & _ & Tn). cbv [compute_evaluation_points fold4]. cbn [fst].
  rewrite !q_mul_base_from.
  apply (f_equal quad_from) in Hx, T2, Ti, Tn. rewrite quad_from_mul in Hx, T2, Ti.
  change (quad_from ONE) with QUAD_ONE in *.
  assert (HT : (quad_from TAU * quad_from TAU = q_neg QUAD_ONE)%Q).
  { rewrite T2, Tn. unfold q_neg, QUAD_ZERO, QUAD_ONE, quad_from. rewrite q_sub_spec. cbn. f_equal. ring. }
  subst f. unfold base_eval, coset_point. cbn [f_pow poly_eval length q_pow].
  rewrite !quad_from_mul. change (quad_from ONE) with QUAD_ONE.
  set (X := quad_from x) in *. set (Xi := quad_from x_inv) in *. set (T := quad_from TAU) in *.
  set (Ui := quad_from TAU_INV) in *. clearbody X Xi T Ui. clear T2 Tn.
  unfold q_neg in HT. change (quad_from ONE) with QUAD_ONE. change (quad_from ZERO) with QUAD_ZERO.
  rewrite (fold2_spec (c0 + c2 * (X * X)) (X * (c1 + c3 * (X * X))) _ _ (alpha * Xi)) by ring [HT].
  rewrite (fold2_spec (c0 - c2 * (X * X)) (T * X * (c1 - c3 * (X * X))) _ _ (alpha * Xi * Ui)) by ring [HT].
  rewrite (fold2_spec (c0 + alpha * c1) (X * X * (c2 + alpha * c3)))%Q by ring [Hx Ti].
  ring [Hx].
Qed.

(** The coefficients of the values of a folded row, in stack order: the row is
    committed in bit-reversed order. *)
Definition fri_row (cs : list QuadFelt) (x : Felt) : list Felt :=
  mjoin ((fun k => let v := base_eval cs (coset_point x k) in [q0 v; q1 v]) <$> [0; 2; 1; 3]%nat).

Lemma coset_point_start x k : (k < 4)%nat ->
  exists t, get_tau_factor (Z.of_nat k) = Some t /\ (coset_point x k * t)%F = x.
Proof.
  destruct tau_tables as (T2 & Ti & _ & Tn). unfold coset_point.
  intros Hk. destruct k as [|[|[|[|]]]]; [..|lia]; eexists; (split; [reflexivity|]); cbn [f_pow].
  - ring.
  - ring [Ti].
  - rewrite Tn in T2 |- *. ring [T2].
  - change TAU3_INV with TAU. rewrite Tn in T2. ring [T2].
Qed.

Lemma run_query_values x0 x1 x2 x3 x4 x5 x6 x7 l (s : St Spec) :
  get_query_values (at_stack (x0 :: x1 :: x2 :: x3 :: x4 :: x5 :: x6 :: x7 :: l) s) =
    (Ok [mkQuad x0 x1; mkQuad x2 x3; mkQuad x4 x5; mkQuad x6 x7],
     at_stack (x0 :: x1 :: x2 :: x3 :: x4 :: x5 :: x6 :: x7 :: l) s).
Proof. unfold get_query_values. by run_auto. Qed.

Lemma bind_expect {A B} (o : option A) x (k : A -> VM Spec B) s :
  o = Some x -> bind (expect o) k s = k x s.
Proof. by intros ->. Qed.

Lemma quad_eta (v : QuadFelt) : mkQuad (q0 v) (q1 v) = v.
Proof. by destruct v. Qed.

(** The element of the row the consistency check looks at. *)
Lemma row_element cs x k : (k < 4)%nat ->
  exists j, bit_reverse_coset (Z.of_nat k) = Some j /\
    ((fun k => base_eval cs (coset_point x k)) <$> [0; 2; 1; 3]%nat) !! j =
      Some (base_eval cs (coset_point x k)).
Proof. intros Hk. destruct k as [|[|[|[|]]]]; [by eexists..|lia]. Qed.

(** The run on the abstract stack. *)
Lemma fri_run c3 c2 c1 c0 x k a0 a1 f_pos cptr r (s : St Spec) :
  x <> ZERO -> (k < 4)%nat ->
  let cs := [c3; c2; c1; c0] in
  let poe := coset_point x k in
  let prev := base_eval cs poe in
  let v := poly_eval cs (mkQuad a0 a1) in
  let next := (cptr + EIGHT)%F in
  exists h scratch, length scratch = 8%nat /\
    op_fri_ext2fold4 (at_stack (fri_row cs x ++
      f_pos :: from_u32 (Z.of_nat k) :: poe :: q0 prev :: q1 prev :: a0 :: a1 :: cptr :: r) s) =
    (Ok h, at_stack (refill (scratch ++
      next :: next :: f_pow poe 4 :: f_pos :: q0 v :: q1 v :: next :: r)) s).
Proof.
  intros Hx Hk cs poe prev v next.
  destruct (coset_point_start x k Hk) as (t & Ht & Hpt). fold poe in Hpt.
  destruct (gl_inverse_spec x Hx) as (xi & Hxi & Hxx).
  destruct (row_element cs x k Hk) as (j & Hj & Hrow). fold poe prev in Hrow.
  assert (Hck : ⟦from_u32 (Z.of_nat k)⟧ = Z.of_nat k).
  { unfold from_u32. rewrite felt_of_Z_small; [done|unfold ORDER; lia]. }
  assert (Hpoe : poe <> ZERO).
  { intros Hz. apply Hx. rewrite <- Hpt, Hz. ring. }
  assert (Hfl : exists fl, get_coset_flags (Z.of_nat k) = Some fl).
  { destruct k as [|[|[|[|]]]]; [by eexists..|lia]. }
  destruct Hfl as [fl Hfl].
  pose proof (fold4_poly c3 c2 c1 c0 x xi (mkQuad a0 a1) Hxx) as Hfold. cbv zeta in Hfold.
  destruct (compute_evaluation_points _ _) as [ev es] eqn:Hpts.
  unfold op_fri_ext2fold4, fri_row. cbn [fmap list_fmap mjoin list_join app].
  erewrite bind_Ok by apply run_query_values. rewrite !quad_eta.
  erewrite bind_expect by reflexivity. cbv beta iota. run_step. rewrite Hck.
  rewrite (proj2 (Z.ltb_ge 3 (Z.of_nat k))) by lia. do 2 run_step. rewrite decide_False by done.
  do 5 run_step. rewrite quad_eta. erewrite bind_expect by exact Hj.
  erewrite bind_expect by exact Hrow. rewrite decide_False by (by intros []).
  erewrite bind_expect by exact Ht. rewrite Hpt. erewrite bind_expect by exact Hxi.
  rewrite Hpts. destruct (fold4 _ _ _ _ _ _) as [[folded tmp0] tmp1]. cbn [fst] in Hfold.
  erewrite bind_expect by exact Hfl. run_auto. subst folded.
  replace (poe * poe * (poe * poe))%F with (f_pow poe 4) by (cbn [f_pow]; ring).
  eexists _, [_; _; _; _; _; _; _; _]. by split.
Qed.

(** C33: [FriE2F4] folds: if the top of the stack holds, in bit-reversed order,
    the evaluations of a polynomial of degree below four on the coset
    [x, tau x, tau^2 x, tau^3 x] and the stack carries the coset index [k], the
    point [poe = tau^k x] and the polynomial's value there, then the instruction
    succeeds and leaves the value of the polynomial at the challenge [alpha],
    together with [poe^4] and the layer pointer advanced by eight. *)
Theorem fri_fold_correct c3 c2 c1 c0 x k a0 a1 f_pos cptr r s s1 :
  x <> ZERO -> (k < 4)%nat ->
  let cs := [c3; c2; c1; c0] in
  let poe := coset_point x k in
  let prev := base_eval cs poe in
  st_rel proc_rel s1 (at_stack (fri_row cs x ++
    f_pos :: from_u32 (Z.of_nat k) :: poe :: q0 prev :: q1 prev :: a0 :: a1 :: cptr :: r) s) ->
  let v := poly_eval cs (mkQuad a0 a1) in
  let next := (cptr + EIGHT)%F in
  exists h scratch, length scratch = 8%nat /\
    fast_runs Op.FriE2F4 s1 (Ok h) (at_stack (refill (scratch ++
      next :: next :: f_pow poe 4 :: f_pos :: q0 v :: q1 v :: next :: r)) s).
Proof.
  intros Hx Hk cs poe prev Hs v next.
  destruct (fri_run c3 c2 c1 c0 x k a0 a1 f_pos cptr r s Hx Hk) as (h & scratch & Hl & Hrun).
  exists h, scratch. split; [done|]. by eapply fast_runs_of.
Qed.

(** *** The stream cipher *)

(** The two-word regions at [src] and [dst]: inside the address space, and
    without a common element. *)
Definition regions_ok (src dst : Felt) : Prop :=
  ⟦src⟧ + 8 <= 2 ^ 32 /\ ⟦dst⟧ + 8 <= 2 ^ 32.
Definition regions_disjoint (src dst : Felt) : Prop :=
  forall a, ~ (⟦src⟧ <= a < ⟦src⟧ + 8 /\ ⟦dst⟧ <= a < ⟦dst⟧ + 8).

Lemma regions_disjoint_cases src dst :
  (regions_disjoint src dst /\ (⟦src⟧ <? ⟦dst⟧ + 8) && (⟦dst⟧ <? ⟦src⟧ + 8) = false) \/
  (~ regions_disjoint src dst /\ (⟦src⟧ <? ⟦dst⟧ + 8) && (⟦dst⟧ <? ⟦src⟧ + 8) = true).
Proof.
  unfold regions_disjoint.
  destruct (Z.ltb_spec ⟦src⟧ (⟦dst⟧ + 8)), (Z.ltb_spec ⟦dst⟧ (⟦src⟧ + 8)); cbn [andb];
    [right; split; [|done]; intros Hd; apply (Hd (Z.max ⟦src⟧ ⟦dst⟧)); lia|left; split; [lia|done]..].
Qed.

Lemma validate_stream_run src dst c k (s : St Spec) : regions_ok src dst ->
  (regions_disjoint src dst /\ validate_dual_word_stream_addrs src dst c k s = (Ok tt, s)) \/
  (~ regions_disjoint src dst /\ exists a,
     validate_dual_word_stream_addrs src dst c k s = (Err (EMemory (IllegalMemoryAccess c a (from_u32 k))), s)).
Proof.
  unfold regions_ok, validate_dual_word_stream_addrs, MEMORY_SIZE, U32_MAX. intros [Hs Hd].
  do 4 rewrite (proj2 (Z.ltb_ge _ _)) by lia.
  destruct (regions_disjoint_cases src dst) as [[H1 ->]|[H1 ->]]; [by left|right].
  split; [done|]. by eexists.
Qed.

(** [CryptoStream] encrypts two words from memory to memory: for disjoint
    source and destination regions inside the address space it adds the
    keystream words on top of the stack to the plaintext words, writes the sums
    at the destination, leaves them on the stack and advances both pointers by
    eight; for overlapping regions it fails and changes neither stack nor
    memory. *)
Lemma crypto_stream_correct k0 k1 mid src dst r s s1 p0 p1 m1 m2 :
  length mid = 4%nat -> regions_ok src dst ->
  let l := into_elements k0 ++ into_elements k1 ++ mid ++ src :: dst :: r in
  st_rel proc_rel s1 (at_stack l s) ->
  let l' := into_elements (word_add p0 k0) ++ into_elements (word_add p1 k1) ++ mid ++
    (src + DOUBLE_WORD_SIZE)%F :: (dst + DOUBLE_WORD_SIZE)%F :: r in
  (regions_disjoint src dst ->
     read_word (mem s) (cx s) src = Ok p0 ->
     read_word (mem s) (cx s) (src + WORD_SIZE_FELT)%F = Ok p1 ->
     write_word (mem s) (cx s) dst (word_add p0 k0) = (Ok tt, m1) ->
     write_word m1 (cx s) (dst + WORD_SIZE_FELT)%F (word_add p1 k1) = (Ok tt, m2) ->
     exists evs, fast_runs Op.CryptoStream s1 (Ok Helper.Empty) (traced evs (at_stack l' (set_mem m2 s)))) /\
  (~ regions_disjoint src dst ->
     exists e, fast_runs Op.CryptoStream s1 (Err (EMemory e)) (at_stack l s)).
Proof.
  intros Hmid Hok l Hs l'. explicit mid Hmid.
  destruct k0 as [x0 x1 x2 x3], k1 as [x4 x5 x6 x7]. subst l. cbn [into_elements app] in Hs.
  destruct (validate_stream_run src dst (cx s) (p_clk (st_proc s))
    (at_stack (x0 :: x1 :: x2 :: x3 :: x4 :: x5 :: x6 :: x7 :: f :: f0 :: f1 :: f2 :: src :: dst :: r) s) Hok)
    as [[Hd Hv]|[Hd [a Hv]]]; (split; intros Hd'); try done.
  - intros Hr0 Hr1 Hw0 Hw1. eexists. eapply fast_runs_of; [exact Hs| |done]. cbn [execute_op].
    unfold op_crypto_stream, SRC_PTR_IDX, DST_PTR_IDX. do 4 io_step. erewrite bind_Ok by exact Hv.
    do 2 io_step. erewrite bind_Ok by apply run_get_double_word. cbv beta iota. io_step.
    erewrite bind_Ok by (apply (run_write_word _ (set_mem m1 s)); exact Hw1).
    io_auto. reflexivity.
  - eexists. eapply fast_runs_of; [exact Hs| |done]. cbn [execute_op].
    unfold op_crypto_stream, SRC_PTR_IDX, DST_PTR_IDX. do 4 io_step. by erewrite bind_Err by exact Hv.
Qed.

End Crypto.

(** ** The Merkle instructions

    [MpVerify] accepts exactly the node the advice store opens under the root,
    and [MrUpdate] computes the root of the tree with the node replaced, of
    which the store then has an opening. *)

Section MerkleOps.
Context `{G : Goldilocks} `{Q0 : QuadField}.
Context `{Poseidon2} {D : Type} `{DI : DeferredInterface D}.

Notation Spec := (SpecProcessor D).
Notation adv s := (p_advice (st_proc s)).
Notation store s := (ap_store (p_advice (st_proc s))).

(** A depth and an index the instructions accept. *)
Definition valid_position (depth index : Felt) : Prop :=
  1 <= ⟦depth⟧ <= 64 /\ ⟦index⟧ < 2 ^ ⟦depth⟧.

Definition position (depth index : Felt) : NodeIndex := mkNodeIndex ⟦depth⟧ ⟦index⟧.

Lemma position_wf depth index : valid_position depth index -> index_wf (position depth index).
Proof. intros [Hd Hi]. pose proof (felt_range index). unfold index_wf, position. cbn. lia. Qed.

Lemma position_elements depth index : valid_position depth index ->
  from_elements depth index = Ok (position depth index).
Proof.
  intros [Hd Hi]. pose proof (felt_range index). unfold from_elements.
  rewrite (proj2 (Z.ltb_ge 255 _)), node_index_new_spec by lia.
  by rewrite decide_False, decide_True by lia.
Qed.

Lemma run_validate_depth depth index (s : St Spec) : valid_position depth index ->
  validate_merkle_depth depth s = (Ok tt, s).
Proof.
  intros [Hd _]. unfold validate_merkle_depth, MAX_MERKLE_DEPTH.
  rewrite (proj2 (Z.eqb_neq _ _)), (proj2 (Z.ltb_ge _ _)) by lia. done.
Qed.

Lemma run_validate_length depth path (s : St Spec) : Z.of_nat (length path) = ⟦depth⟧ ->
  validate_merkle_path_length (Some path) depth s = (Ok tt, s).
Proof.
  intros Hl. cbn. unfold validate_materialized_merkle_path_length. by rewrite (proj2 (Z.eqb_eq _ _)).
Qed.

(** An advice call that keeps the provider. *)
Lemma run_get_merkle_path l (s : St Spec) root depth index : valid_position depth index ->
  on_proc (adv_get_merkle_path root depth index) (at_stack l s) =
    (match get_path (store s) root (position depth index) with
     | Ok proof => Ok (Some (mp_path proof))
     | Err e => Err (EAdvice (MerkleStoreLookupFailed e))
     | Panic => Panic
     end, at_stack l s).
Proof.
  intros Hv. unfold on_proc, at_stack. cbn [st_proc adv_get_merkle_path processor_advice proc_processor proc_advice].
  unfold bind, on_advice, zoom. cbn [p_advice put_stack]. unfold get_merkle_path, node_index_of.
  rewrite position_elements by done. unfold bind, lift_merkle, gets, ret, fail, panic. cbn.
  by destruct (get_path _ _ _).
Qed.

Lemma run_update_merkle_node l (s : St Spec) root depth index value path nr a :
  update_merkle_node root depth index value (adv s) = (Ok (path, nr), a) ->
  on_proc (adv_update_merkle_node root depth index value) (at_stack l s) =
    (Ok (Some path), at_stack l (set_adv a s)).
Proof.
  intros Hu. unfold on_proc, at_stack.
  cbn [st_proc adv_update_merkle_node processor_advice proc_processor proc_advice].
  unfold bind, on_advice, zoom. cbn [p_advice put_stack]. by rewrite Hu.
Qed.

Lemma run_hash_verify root node path index e (s : St Spec) :
  on_proc (hash_verify_merkle_root root node (Some path) index e) s =
    (match verify path ⟦index⟧ node root with
     | Ok _ => Ok ZERO | Err _ => Err (EOperation e) | Panic => Panic end, s).
Proof.
  unfold on_proc. destruct s as [p t].
  cbn [st_proc hash_verify_merkle_root processor_hasher proc_processor proc_hasher].
  unfold verify_merkle_root. cbn. by destruct (verify _ _ _ _).
Qed.

(** Verifying another value against a path of the store. *)
Lemma verify_path s root depth index proof node : store_wf s -> valid_position depth index ->
  get_path s root (position depth index) = Ok proof ->
  if decide (mp_value proof = node) then verify (mp_path proof) ⟦index⟧ node root = Ok tt
  else (exists e, verify (mp_path proof) ⟦index⟧ node root = Err e) \/
    path_collision ⟦index⟧ node (mp_path proof) (mp_value proof) (mp_path proof).
Proof.
  intros Hs Hv Hp. pose proof (position_wf _ _ Hv) as Hi.
  destruct (get_path_root _ _ _ _ Hs Hi Hp) as [Hlen Hr]. cbn [position ni_depth ni_position] in *.
  destruct Hv as [Hd Hb]. pose proof (felt_range index).
  assert (Hc : forall v, compute_root (mp_path proof) ⟦index⟧ v = Ok (path_root ⟦index⟧ v (mp_path proof))).
  { intros v. apply compute_root_Ok; [lia|]. rewrite Hlen, Z2Nat.id by lia. split_and!; [lia..|done]. }
  unfold verify. rewrite Hc. destruct (decide (mp_value proof = node)) as [<-|Hne].
  - by rewrite Hr, decide_True.
  - destruct (decide (path_root ⟦index⟧ node (mp_path proof) = root)) as [Heq|Hneq].
    + right. rewrite <- Hr in Heq. apply path_root_inj in Heq as [[-> _]|]; [done..|done].
    + left. by eexists.
Qed.

(** C30: [MpVerify] accepts exactly the node the advice store opens: for a valid
    depth and index it succeeds, leaving the stack unchanged, when the node on
    top of the stack is the one the store holds under the root at that
    position; it fails with the store's error when the store has no such
    opening, and with a verification error when the node is a different one
    (unless the two nodes hash to the root through colliding nodes). *)
Theorem mpverify_correct node depth index root err r s s1 :
  store_wf (store s) -> valid_position depth index ->
  let l := into_elements node ++ depth :: index :: into_elements root ++ r in
  st_rel proc_rel s1 (at_stack l s) ->
  match get_node (store s) root (position depth index) with
  | Ok v =>
      if decide (v = node)
      then exists h evs, fast_runs (Op.MpVerify err) s1 (Ok h) (traced evs (at_stack l s))
      else (exists evs, fast_runs (Op.MpVerify err) s1
              (Err (EOperation (MerklePathVerificationFailed node index root err)))
              (traced evs (at_stack l s))) \/
           exists path, get_path (store s) root (position depth index) = Ok (mkMerkleProof v path) /\
             path_collision ⟦index⟧ node path v path
  | Err e => fast_runs (Op.MpVerify err) s1 (Err (EAdvice (MerkleStoreLookupFailed e))) (at_stack l s)
  | Panic => False
  end.
Proof.
  intros Hwf Hv l Hs. pose proof (position_wf _ _ Hv) as Hi.
  assert (Hnode : get_node (store s) root (position depth index) =
    match get_path (store s) root (position depth index) with
    | Ok p => Ok (mp_value p) | Err e => Err e | Panic => Panic end).
  { rewrite get_path_spec by done. unfold get_node. destruct (_ !! root); [|done].
    rewrite (descend_walk _ _ _ _ []). by destruct (walk _ _ _ _ _) as [[]| |]. }
  rewrite Hnode.
  pose proof (get_path_no_panic (store s) root _ Hi). pose proof (run_get_merkle_path l s root _ _ Hv) as Hrun.
  destruct node as [n0 n1 n2 n3], root as [r0 r1 r2 r3]. subst l. cbn [into_elements app] in *.
  destruct (get_path _ _ _) as [proof|e|] eqn:Hp; [| |done].
  - pose proof (verify_path _ _ _ _ _ (mkWord n0 n1 n2 n3) Hwf Hv Hp) as Hver.
    pose proof (get_path_length _ _ _ _ Hi Hp) as Hlen. cbn [position ni_depth] in Hlen.
    assert (Hstep : forall res, execute_op (Op.MpVerify err) (at_stack
        (n0 :: n1 :: n2 :: n3 :: depth :: index :: r0 :: r1 :: r2 :: r3 :: r) s) = res <->
      (let! addr := on_proc (hash_verify_merkle_root (mkWord r0 r1 r2 r3) (mkWord n0 n1 n2 n3)
         (Some (mp_path proof)) index (MerklePathVerificationFailed (mkWord n0 n1 n2 n3) index
            (mkWord r0 r1 r2 r3) err)) in ret (Helper.MerklePath addr))
        (traced [record_hasher_build_merkle_root (mkWord n0 n1 n2 n3) (Some (mp_path proof)) depth index
          (mkWord r0 r1 r2 r3)] (at_stack
            (n0 :: n1 :: n2 :: n3 :: depth :: index :: r0 :: r1 :: r2 :: r3 :: r) s)) = res).
    { intros res. cbn [execute_op]. unfold op_mpverify. do 4 io_step.
      erewrite bind_Ok by (by eapply run_validate_depth). erewrite bind_Ok by exact Hrun.
      erewrite bind_Ok by (by apply run_validate_length). by io_step. }
    case_decide.
    + eexists _, _. eapply fast_runs_of; [exact Hs| |done]. apply Hstep.
      erewrite bind_Ok; [done|]. by rewrite run_hash_verify, Hver.
    + destruct Hver as [[e He]|]; [left|right; exists (mp_path proof); by destruct proof]. eexists. eapply fast_runs_of; [exact Hs| |done].
      apply Hstep. erewrite bind_Err; [done|]. by rewrite run_hash_verify, He.
  - eapply fast_runs_of; [exact Hs| |done]. cbn [execute_op]. unfold op_mpverify. do 4 io_step.
    erewrite bind_Ok by (by eapply run_validate_depth). by erewrite bind_Err by exact Hrun.
Qed.

(** What a successful update of the advice store leaves behind. *)
Lemma update_merkle_node_opens root depth index value a proof path nr a' :
  adv_wf a -> store_wf (ap_store a) -> valid_position depth index ->
  get_path (ap_store a) root (position depth index) = Ok proof ->
  update_merkle_node root depth index value a = (Ok (path, nr), a') ->
  path = mp_path proof /\ compute_root path ⟦index⟧ value = Ok nr /\ store_wf (ap_store a') /\
  (get_path (ap_store a') nr (position depth index) = Ok (mkMerkleProof value path) \/
   store_collision (ap_store a) (path_infos ⟦index⟧ value path)).
Proof.
  intros Ha Hs Hv Hp Hu. pose proof (position_wf _ _ Hv) as Hi.
  destruct (get_path_root _ _ _ _ Hs Hi Hp) as [Hlen Hr]. cbn [position ni_depth ni_position] in *.
  pose proof (felt_range index). pose proof Hv as [Hd Hb].
  assert (Hc : forall v, compute_root (mp_path proof) ⟦index⟧ v = Ok (path_root ⟦index⟧ v (mp_path proof))).
  { intros v. apply compute_root_Ok; [lia|]. rewrite Hlen, Z2Nat.id by lia. split_and!; [lia..|done]. }
  assert (Hne : mp_path proof <> []) by (intros E; rewrite E in Hlen; cbn in Hlen; lia).
  destruct (update_merkle_node_cases root depth index value a Ha) as [[e He]|(i & pr & Hfe & Hg & Hcase)].
  { by rewrite He in Hu. }
  rewrite position_elements in Hfe by done. injection Hfe as <-. rewrite Hp in Hg. injection Hg as <-.
  destruct Hcase as [[Heq Hu']|(Hneq & Hf & Hu')]; rewrite Hu' in Hu; injection Hu as <- <- <-.
  - split_and!; [done|by rewrite Hc, <- Heq, Hr|done|]. left. rewrite Hp, <- Heq. by destruct proof.
  - cbn [position ni_position grown ap_store]. rewrite last_value, Hc by done.
    pose proof (path_infos_wf ⟦index⟧ value (mp_path proof)) as Hpw.
    split_and!; [done..|by apply store_extend_wf|].
    destruct (store_extend_lookup (ap_store a) _ Hs Hpw) as [Hl|]; [left|by right].
    by apply (get_path_complete _ value (mp_path proof) (position depth index)).
Qed.

Lemma run_hash_update root old new path index e nr res (s : St Spec) :
  compute_root path ⟦index⟧ new = Ok nr -> verify path ⟦index⟧ old root = res ->
  on_proc (hash_update_merkle_root root old new (Some path) index e) s =
    (match res with
     | Ok _ => Ok (ZERO, nr) | Err _ => Err (EOperation e) | Panic => Panic end, s).
Proof.
  intros Hc <-. unfold on_proc. destruct s as [p t].
  cbn [st_proc hash_update_merkle_root processor_hasher proc_processor proc_hasher].
  unfold update_merkle_root. cbn. rewrite Hc. by destruct (verify _ _ _ _).
Qed.

(** C29: [MrUpdate] replaces a node of a Merkle tree: when the advice store opens
    the old root at the position and takes the new node, the instruction
    succeeds exactly for the node the tree holds there (any other claimed old
    node fails, or hashes to the old root through colliding nodes); the new root
    it leaves on the stack is the root that the path and the new node compute,
    and the store opens that root at the same position to the new node (unless
    a node of the new path collides with another or with one of the store). *)
Theorem mrupdate_correct old depth index root new r s s1 proof path nr a' :
  adv_wf (adv s) -> store_wf (store s) -> valid_position depth index ->
  get_path (store s) root (position depth index) = Ok proof ->
  update_merkle_node root depth index new (adv s) = (Ok (path, nr), a') ->
  let rest := depth :: index :: into_elements root ++ into_elements new ++ r in
  st_rel proc_rel s1 (at_stack (into_elements old ++ rest) s) ->
  compute_root path ⟦index⟧ new = Ok nr /\
  (get_path (ap_store a') nr (position depth index) = Ok (mkMerkleProof new path) \/
   store_collision (store s) (path_infos ⟦index⟧ new path)) /\
  if decide (mp_value proof = old)
  then exists h evs, fast_runs Op.MrUpdate s1 (Ok h)
         (traced evs (at_stack (into_elements nr ++ rest) (set_adv a' s)))
  else fast_runs Op.MrUpdate s1 (Err (EOperation (MerklePathVerificationFailed old index root ZERO)))
         (at_stack (into_elements old ++ rest) (set_adv a' s)) \/
       path_collision ⟦index⟧ old path (mp_value proof) path.
Proof.
  intros Ha Hwf Hv Hp Hu rest Hs.
  destruct (update_merkle_node_opens _ _ _ _ _ _ _ _ _ Ha Hwf Hv Hp Hu) as (-> & Hc & _ & Hopen).
  split; [done|]. split; [done|]. pose proof (position_wf _ _ Hv) as Hi.
  pose proof (verify_path _ _ _ _ _ old Hwf Hv Hp) as Hver.
  pose proof (get_path_length _ _ _ _ Hi Hp) as Hlen. cbn [position ni_depth] in Hlen.
  pose proof (run_update_merkle_node (into_elements old ++ rest) s root depth index new _ _ _ Hu) as Hrun.
  destruct old as [n0 n1 n2 n3], root as [r0 r1 r2 r3], new as [v0 v1 v2 v3]. subst rest.
  cbn [into_elements app] in *.
  case_decide; [eexists _, _|destruct Hver as [[e He]|]; [left|by right]];
    (eapply fast_runs_of; [exact Hs| |done]); cbn [execute_op]; unfold op_mrupdate; do 5 io_step;
    (erewrite bind_Ok by (by eapply run_validate_depth)); (erewrite bind_Ok by exact Hrun);
    (erewrite bind_Ok by (by apply run_validate_length)).
  - erewrite bind_Ok by (exact (run_hash_update _ _ _ _ _ _ _ _ _ Hc Hver)).
    cbv beta iota. io_auto. destruct nr. reflexivity.
  - by erewrite bind_Err by (exact (run_hash_update _ _ _ _ _ _ _ _ _ Hc He)).
Qed.

End MerkleOps.
