(* ===== verification/Witnesses.v ===== *)
(** * The theorems at concrete inputs

    A concrete machine (reference field arithmetic, a small mixing function in
    place of the permutation, a deferred state that records digests) on which
    every hypothesis of the theorems is met. *)

From S2P Require Import Prelude Felt AdviceMap Quad Operations OpBatch Mast AceCircuit Machine.
From S2P Require Import StackOps ArithOps IoOps CryptoOps FriOps ExecuteOp Control Exec StepTheory.
From S2P Require Import StepExec Memory Merkle MerkleTheory Advice AdviceTheory AdviceAtomic.
From S2P Require Import FastStack StackRefine FastProcessor ExecSim ProcView SpecSafe ExecSafe.
From S2P Require Import ProgramRefine AbstractRun ArithTheorems StackTheorems MemoryTheorems.
From S2P Require Import CryptoTheorems.

(** ** A concrete machine *)

#[local] Instance concrete_field : Goldilocks := goldilocks_ref.
#[local] Instance concrete_field_laws : GoldilocksLaws concrete_field := goldilocks_ref_laws.
#[local] Instance concrete_quad : QuadField := quad_ref concrete_field.
#[local] Instance concrete_quad_laws : QuadFieldLaws concrete_field concrete_quad :=
  quad_ref_laws concrete_field.

Definition mix (a b : Word) : Word := word_add (word_add a (word_add b b)) (mkWord ONE ONE ONE ONE).

#[local] Instance concrete_permutation : Poseidon2 :=
  fun s => mkHasherState (mix (hs_rate0 s) (hs_rate1 s)) (mix (hs_rate1 s) (hs_capacity s))
             (mix (hs_capacity s) (hs_rate0 s)).

#[local] Instance concrete_deferred : DeferredInterface (list Word) := {|
  deferred_root d := default EMPTY_WORD (head d);
  log_verified_statement digest root d := (Ok tt, root :: digest :: d)
|}.

#[local] Instance concrete_deferred_laws : DeferredLaws (list Word).
Proof. by intros a b d. Qed.

Definition felt (n : Z) : Felt := new_unchecked n.

(** The processors over sixteen inputs. *)
Definition depth_limit : Z := 6615.

Definition advice : AdviceProvider := mkAdviceProvider [] ∅ ∅ 0 0 1000.

Definition spec_state (a : AdviceProvider) (l : list Felt) : St (SpecProcessor (list Word)) :=
  mkSt (mkProc (spec_stack_new l depth_limit) 0 0 EMPTY_WORD (memory_new 64) a [] []) [].

Definition fast_state (a : AdviceProvider) (l : list Felt) : St (FastProcessor (list Word)) :=
  mkSt (mkProc (default (mkFastStack [] 0 0 [] 0 0) (fast_stack_new l depth_limit)) 0 0 EMPTY_WORD
          (memory_new 64) a [] []) [].

Lemma concrete_rel a l : length l = MIN_STACK_DEPTH ->
  st_rel proc_rel (fast_state a l) (at_stack l (spec_state a l)).
Proof.
  intros Hl. destruct (fast_stack_new_rel l depth_limit Hl) as (s & Hs & Hr).
  { unfold depth_limit_ok, depth_limit, U64_MAX. lia. }
  split; [|done]. unfold fast_state. rewrite Hs. by split.
Qed.

Lemma concrete_ok a l : adv_wf a -> length l = MIN_STACK_DEPTH -> proc_ok 0 (st_proc (spec_state a l)).
Proof.
  intros Ha Hl. split; [|done]. split; cbn; rewrite ?length_fmap, ?Hl; [done| |constructor].
  intros i [_ Hi]. rewrite list_lookup_fmap. rewrite <- Hl in Hi.
  destruct (lookup_lt_is_Some_2 l i Hi) as [x ->]. by eexists.
Qed.

Lemma advice_concrete : adv_wf advice.
Proof. by split. Qed.

(** Elements filling a stack up to depth sixteen below the given ones. *)
Definition below (top : list Felt) : list Felt :=
  felt <$> seqZ 100 (Z.of_nat (16 - length top)).

Notation spec_on a top := (spec_state a (top ++ below top)).
Notation fast_on a top := (fast_state a (top ++ below top)).

Lemma on_rel a top : (length top <= 16)%nat ->
  st_rel proc_rel (fast_on a top) (at_stack (top ++ below top) (spec_on a top)).
Proof.
  intros Hl. apply concrete_rel. unfold below, MIN_STACK_DEPTH.
  rewrite length_app, length_fmap, length_seqZ, Nat2Z.id. lia.
Qed.

(** ** Instruction set *)

Lemma execute_op_refines_witness :
  exists r s1' s2',
    execute_op Op.Add (fast_on advice []) = (r, s1') /\
    execute_op Op.Add (spec_on advice []) = (r, s2') /\ r <> Panic /\
    st_rel proc_rel s1' s2' /\ (forall x, r = Ok x -> represents s1' s2').
Proof.
  apply (execute_op_refines Op.Add); [|done]. split.
  - apply (on_rel advice []). cbn; lia.
  - apply concrete_ok; [apply advice_concrete|done].
Defined.

Lemma u32_ops_correct_witness :
  let args := new_unchecked <$> [4294967295; 6; 11] in
  Forall is_u32 [5; 6] /\ exists h evs, fast_runs Op.U32madd (fast_on advice args)
    (Ok h) (traced evs (at_stack (refill ((new_unchecked <$> [5; 6]) ++ below args)) (spec_on advice args))).
Proof.
  apply (u32_ops_correct Op.U32madd [4294967295; 6; 11]).
  - apply (on_rel advice (new_unchecked <$> [4294967295; 6; 11])). cbn; lia.
  - reflexivity.
  - repeat constructor; done.
  - by apply Nat.leb_le.
Defined.

Lemma field_ops_correct_witness :
  let args := [felt 5; felt 18446744069414584320] in
  exists x h, ⟦x⟧ = (⟦felt 18446744069414584320⟧ + ⟦felt 5⟧) mod ORDER /\
    fast_runs Op.Add (fast_on advice args) (Ok h)
      (at_stack (refill (x :: below args)) (spec_on advice args)).
Proof.
  apply (field_ops_correct Op.Add [felt 5; felt 18446744069414584320]).
  - apply (on_rel advice [felt 5; felt 18446744069414584320]). cbn; lia.
  - apply ref_add.
Defined.

Lemma depth_flags_correct_witness :
  exists s1', execute_op Op.Pad (fast_on advice []) = (Ok Helper.Empty, s1') /\
    stack_size (p_stack (st_proc s1')) =
      flag_depth Op.Pad <$> stack_size (p_stack (st_proc (fast_on advice []))).
Proof.
  assert (Hr : st_rel proc_rel (fast_on advice []) (spec_on advice []))
    by (apply (on_rel advice []); cbn; lia).
  destruct (fast_runs_of Op.Pad _ _ (Ok Helper.Empty) _ Hr ltac:(reflexivity) ltac:(done)) as (s1' & He & _).
  exists s1'. split; [exact He|]. apply (depth_flags_correct Op.Pad _ (spec_on advice []) Helper.Empty).
  - split; [exact Hr|]. apply concrete_ok; [apply advice_concrete|done].
  - done.
  - exact He.
Defined.

(** ** Memory *)

(** ** Cryptographic instructions *)

Lemma fri_fold_correct_witness :
  let cs := [mkQuad (felt 4) (felt 1); mkQuad (felt 3) (felt 2); mkQuad (felt 2) (felt 3); mkQuad (felt 1) (felt 5)] in
  let poe := coset_point (felt 3) 1 in
  let prev := base_eval cs poe in
  let l := fri_row cs (felt 3) ++
    [felt 0; from_u32 1; poe; q0 prev; q1 prev; felt 6; felt 7; felt 40] in
  let v := poly_eval cs (mkQuad (felt 6) (felt 7)) in
  let next := (felt 40 + EIGHT)%F in
  exists h scratch, length scratch = 8%nat /\
    fast_runs Op.FriE2F4 (fast_state advice l) (Ok h) (at_stack (refill (scratch ++
      [next; next; f_pow poe 4; felt 0; q0 v; q1 v; next])) (spec_state advice l)).
Proof.
  intros cs poe prev l v next.
  apply (fri_fold_correct (mkQuad (felt 4) (felt 1)) (mkQuad (felt 3) (felt 2)) (mkQuad (felt 2) (felt 3))
    (mkQuad (felt 1) (felt 5)) (felt 3) 1 (felt 6) (felt 7) (felt 0) (felt 40) []).
  - discriminate.
  - lia.
  - by apply (concrete_rel advice l).
Defined.

(** ** Merkle trees: a tree with two leaves *)

Definition leaf (n : Z) : Word := mkWord (felt n) (felt (n + 1)) (felt (n + 2)) (felt (n + 3)).
Definition tree_root : Word := merge (leaf 1) (leaf 5).
Definition tree : MerkleStore := {[tree_root := mkStoreNode (leaf 1) (leaf 5)]}.
Definition left_leaf : NodeIndex := mkNodeIndex 1 0.

Lemma tree_wf : store_wf tree.
Proof. intros k n. unfold tree. by intros [<- <-]%lookup_singleton_Some. Qed.

Lemma left_leaf_wf : index_wf left_leaf.
Proof. split; cbn; lia. Qed.

Lemma verify_binding_witness :
  (leaf 1 = leaf 1 /\ [leaf 5] = [leaf 5]) \/ path_collision 0 (leaf 1) [leaf 5] (leaf 1) [leaf 5].
Proof.
  apply (verify_binding [leaf 5] [leaf 5] 0 (leaf 1) (leaf 1) tree_root).
  - lia.
  - reflexivity.
  - by vm_compute.
  - by vm_compute.
Defined.

Definition tree_advice : AdviceProvider := mkAdviceProvider [] ∅ tree 1 96 1000.

Lemma tree_advice_wf : adv_wf tree_advice.
Proof. split; by vm_compute. Qed.

Lemma left_valid : valid_position (felt 1) (felt 0).
Proof. split; [by split|done]. Qed.

Lemma mpverify_correct_witness :
  let top := into_elements (leaf 1) ++ felt 1 :: felt 0 :: into_elements tree_root in
  let l := into_elements (leaf 1) ++ felt 1 :: felt 0 :: into_elements tree_root ++ below top in
  exists h evs, fast_runs (Op.MpVerify ZERO) (fast_state tree_advice l) (Ok h)
    (traced evs (at_stack l (spec_state tree_advice l))).
Proof.
  intros top l.
  pose proof (mpverify_correct (leaf 1) (felt 1) (felt 0) tree_root ZERO (below top)
    (spec_state tree_advice l) (fast_state tree_advice l) tree_wf left_valid
    (concrete_rel tree_advice l ltac:(reflexivity))) as Hw.
  assert (Hn : get_node tree tree_root (position (felt 1) (felt 0)) = Ok (leaf 1)) by (by vm_compute).
  cbn [st_proc spec_state p_advice tree_advice ap_store] in Hw. rewrite Hn in Hw.
  destruct (decide (leaf 1 = leaf 1)) as [_|Hne] in Hw; [exact Hw|destruct (Hne eq_refl)].
Defined.

Lemma mrupdate_correct_witness :
  let rest := felt 1 :: felt 0 :: into_elements tree_root ++ into_elements (leaf 9) ++ [felt 20; felt 21] in
  let l := into_elements (leaf 1) ++ rest in
  let nr := merge (leaf 9) (leaf 5) in
  let a' := snd (update_merkle_node tree_root (felt 1) (felt 0) (leaf 9) tree_advice) in
  compute_root [leaf 5] ⟦felt 0⟧ (leaf 9) = Ok nr /\
  (get_path (ap_store a') nr (position (felt 1) (felt 0)) = Ok (mkMerkleProof (leaf 9) [leaf 5]) \/
   store_collision tree (path_infos ⟦felt 0⟧ (leaf 9) [leaf 5])) /\
  exists h evs, fast_runs Op.MrUpdate (fast_state tree_advice l) (Ok h)
    (traced evs (at_stack (into_elements nr ++ rest) (set_adv a' (spec_state tree_advice l)))).
Proof.
  intros rest l nr a'.
  assert (Hp : get_path tree tree_root (position (felt 1) (felt 0)) = Ok (mkMerkleProof (leaf 1) [leaf 5]))
    by (by vm_compute).
  assert (Hu : update_merkle_node tree_root (felt 1) (felt 0) (leaf 9) tree_advice = (Ok ([leaf 5], nr), a')).
  { etrans; [apply surjective_pairing|]. apply (f_equal (fun r => (r, a'))). by vm_compute. }
  pose proof (mrupdate_correct (leaf 1) (felt 1) (felt 0) tree_root (leaf 9) [felt 20; felt 21]
    (spec_state tree_advice l) (fast_state tree_advice l) (mkMerkleProof (leaf 1) [leaf 5]) [leaf 5] nr a'
    tree_advice_wf tree_wf left_valid Hp Hu (concrete_rel tree_advice l ltac:(reflexivity))) as (H1 & H2 & H3).
  split; [exact H1|]. split; [exact H2|]. cbn [mp_value] in H3.
  destruct (decide (leaf 1 = leaf 1)) as [_|Hne] in H3; [exact H3|destruct (Hne eq_refl)].
Defined.

(** ** Advice *)

Lemma apply_mutations_atomic_witness :
  let ms := [ExtendStack [felt 1; felt 2]; ExtendStack [felt 3]] in
  (exists e, apply_mutations ms advice = (Err e, advice)) \/
  (exists a', apply_mutations ms advice = (Ok tt, a') /\ apply_all ms advice = (Ok tt, a') /\ adv_wf a' /\
     max_advice_size_bytes a' = max_advice_size_bytes advice).
Proof.
  apply (apply_mutations_atomic [ExtendStack [felt 1; felt 2]; ExtendStack [felt 3]] advice), advice_concrete.
Defined.

Lemma advice_budget_exact_witness :
  keeps adv_wf (run_op (OpUpdateMerkleNode tree_root (felt 1) (felt 0) (leaf 9))).
Proof. by apply (advice_budget_exact (OpUpdateMerkleNode tree_root (felt 1) (felt 0) (leaf 9))). Defined.

(** ** The theorems on program runs at a concrete program

    The concrete machine of Witnesses.v, with a host that knows no forest and
    ignores events, on a program with a join, a loop and two basic blocks. *)

#[local] Existing Instance concrete_field.
#[local] Existing Instance concrete_field_laws.
#[local] Existing Instance concrete_quad.
#[local] Existing Instance concrete_permutation.
#[local] Existing Instance concrete_deferred.
#[local] Existing Instance concrete_deferred_laws.

Definition block (ops : list Operation) : MastNode :=
  NBlock (mkBasicBlockNode (default [] (batch_ops ops)) (mkWord (felt 1) (felt 2) (felt 3) (felt 4))).

(** [push 3, add, push 1] and then, once: [drop, push 0, emit]. *)
Definition forest : MastForest :=
  mkMastForest
    [ block [Op.Push (felt 3); Op.Add; Op.Push (felt 1)];
      block [Op.Drop; Op.Push ZERO; Op.Emit];
      NLoop (mkLoopNode 1 EMPTY_WORD);
      NJoin (mkJoinNode 0 2 EMPTY_WORD) ]
    [3%nat] ∅.

Lemma forest_is_wf : forest_wf forest.
Proof.
  split.
  - repeat constructor; by vm_compute.
  - repeat constructor.
Qed.

#[local] Instance quiet_host {Stk} : SyncHost unit (Proc Stk (list Word)) MastForest := {|
  get_mast_forest _ _ := None;
  op_emit_sync _ := ret tt
|}.

Definition inputs : list Felt := felt <$> seqZ 10 16.

#[local] Instance default_view {Stk} `{StackView Stk} : ProcessorView (Proc Stk (list Word)) :=
  proc_view options_default.

(** What the program does, evaluated on the fast processor. *)
Definition fast_initial : FastProcessor (list Word) :=
  mkProc (default (mkFastStack [] 0 0 [] 0 0) (fast_stack_new inputs DEFAULT_MAX_STACK_DEPTH)) 0 0
    EMPTY_WORD (memory_new DEFAULT_MAX_MEMORY_ELEMENTS) advice [] [].

Definition outputs_of {X} (o : option (res ExecutionError (list Felt) * X)) : option (list Felt) :=
  match o with Some (Ok l, _) => Some l | _ => None end.

Lemma forest_runs :
  outputs_of (execute_sync [] 20 fast_initial tt forest 3) = Some (felt 13 :: tail inputs).
Proof. by vm_compute. Qed.

Lemma execute_by_step_equiv_witness :
  blocks_ok forest /\ forall r y,
    (exists n, execute_by_step_sync [] n fast_initial tt forest 3 = Some (r, y)) <->
    (exists n, execute_sync [] n fast_initial tt forest 3 = Some (r, y)).
Proof.
  split; [apply dense_blocks_ok, forest_is_wf|].
  apply (execute_by_step_equiv [] fast_initial tt forest 3); [apply dense_blocks_ok, forest_is_wf|done].
Defined.
