(* ===== verification/EventWitnesses.v ===== *)
(** * The theorems on deferred statements and events at concrete inputs

    A small mixing function in place of the permutation, and the uint precompile
    installed under a concrete id: the statement [2 + 3 = 5] is registered and
    logged. *)

From S2P Require Import Prelude UintArith UintTheory Felt AdviceMap Quad Operations OpBatch Mast.
From S2P Require Import AceCircuit Machine CryptoOps ExecuteOp Control Exec Memory Merkle Deferred.
From S2P Require Import DeferredTheory DeferredHistory UintPrecompile UintEquality MerkleTheory.
From S2P Require Import Advice AdviceTheory AdviceAtomic FastStack StackRefine FastProcessor.
From S2P Require Import ExecSim ProcView SysEvents SpecSafe ExecSafe EventSim ProgramRefine.
From S2P Require Import AbstractRun DeferredOp EventTheorems DeferredEvents Witnesses.

#[local] Existing Instance concrete_field.
#[local] Existing Instance concrete_quad.

(** Unlike [mix], the digest depends on the tag. *)
Definition stir (a b c : Word) : Word := mix (mix a b) (word_add c (word_add c c)).

#[local] Instance tag_permutation : Poseidon2 :=
  fun s => mkHasherState (stir (hs_rate0 s) (hs_rate1 s) (hs_capacity s))
             (stir (hs_rate1 s) (hs_capacity s) (hs_rate0 s))
             (stir (hs_capacity s) (hs_rate0 s) (hs_rate1 s)).

Definition id7 : Felt := felt 7.

Definition uint_registry : gmap Felt Precompile := {[ id7 := UintPrecompile id7 ]}.

Lemma uint_registry_structural : structural uint_registry.
Proof.
  intros id p args payload. unfold uint_registry. rewrite lookup_singleton_Some.
  intros [<- <-]. apply uint_shallow.
Qed.

Lemma uint_registry_in_order : init_in_order uint_registry.
Proof.
  destruct (uint_init_in_order id7) as (l & Hl & Ho). exists l. split; [|done].
  assert (registry_values uint_registry = [UintPrecompile id7]) as Hv.
  { unfold registry_values, uint_registry. by rewrite map_to_list_singleton. }
  unfold init_nodes. rewrite Hv. cbn [mapM]. change (pc_init (UintPrecompile id7) tt) with (uint_init id7).
  rewrite Hl. cbn [mbind option_bind mret option_ret fmap option_fmap option_map concat].
  f_equal. apply app_nil_r.
Qed.

Definition initial : DeferredState := state_empty uint_registry.

Lemma initial_good : good initial.
Proof.
  split; [apply state_empty_inv|by eexists; apply state_empty_ranks|apply uint_registry_structural|done].
Qed.

Lemma initial_uint : uint_installed id7 initial.
Proof. by split. Qed.

Definition small (n : Z) : list Z := n :: replicate 7 0.
Definition num (n : Z) : Node := value_node id7 U256 (small n).
Definition sum_node : Node := binary_node id7 UAdd (node_digest (num 2)) (node_digest (num 3)).
Definition statement : Node := eq_node id7 (node_digest sum_node) (node_digest (num 5)).

Definition requests : list request :=
  [ReqRegister (num 2); ReqRegister (num 3); ReqRegister (num 5); ReqRegister sum_node;
   ReqRegister statement; ReqLog (node_digest statement)].

(** The final state has the statement logged and its expressions stored. *)
Definition requests_check : bool :=
  match serve requests initial with
  | Some (logged, s) =>
      bool_decide (logged = [node_digest statement]) &&
      forallb (fun n => bool_decide (ds_nodes s !! node_digest n = Some n))
        [num 2; num 3; num 5; sum_node; statement]
  | None => false
  end.

Lemma requests_checked : requests_check = true.
Proof. vm_compute. done. Qed.

Lemma requests_run : exists logged s, serve requests initial = Some (logged, s) /\
  logged = [node_digest statement] /\
  Forall (fun n => ds_nodes s !! node_digest n = Some n) [num 2; num 3; num 5; sum_node; statement].
Proof.
  pose proof requests_checked as Hc. unfold requests_check in Hc.
  destruct (serve requests initial) as [[logged s]|]; [|done]. exists logged, s. split; [done|].
  apply andb_true_iff in Hc as [Hl Hf]. apply bool_decide_eq_true in Hl. split; [done|].
  rewrite forallb_forall in Hf. apply Forall_forall. intros n Hn.
  apply list_elem_of_In, Hf, bool_decide_eq_true in Hn. done.
Qed.

Lemma small_canonical n : 0 <= n < 100 -> canonical U256 (small n).
Proof.
  intros Hn. assert (wf 8 (small n)) by (apply wf_cons; split; [unfold B; lia|apply wf_replicate]).
  split; [done|]. by apply value_bounds.
Qed.

Lemma logged_equality_sound_witness :
  requests_check = true /\
  op_Z UAdd (value (small 2)) (value (small 3)) mod modulus U256 = value (small 5).
Proof.
  split; [exact requests_checked|].
  destruct requests_run as (logged & s & Hs & -> & Hf).
  rewrite !Forall_cons in Hf. destruct Hf as (H2 & H3 & H5 & Hsum & Hst & _).
  destruct (logged_equality_sound id7 initial requests _ s (node_digest statement) (node_digest sum_node)
    (node_digest (num 5)) U256 U256 _ _ initial_good initial_uint Hs ltac:(by left) Hst
    (denotes_binary id7 _ _ UAdd _ _ U256 _ _ Hsum
      (denotes_value id7 _ _ _ _ H2 (small_canonical 2 ltac:(lia)))
      (denotes_value id7 _ _ _ _ H3 (small_canonical 3 ltac:(lia))))
    (denotes_value id7 _ _ _ _ H5 (small_canonical 5 ltac:(lia)))) as [_ Heq].
  exact Heq.
Defined.

Definition fresh : res PrecompileError DeferredState := deferred_state_new MAX_EVALUATION_DEPTH uint_registry.



Definition registered : res PrecompileError Word * DeferredState := register 5 (num 2) initial.

Lemma base_canonical n : 0 <= n < 100 -> canonical K1Base (small n).
Proof.
  intros Hn. assert (wf 8 (small n)) by (apply wf_cons; split; [unfold B; lia|apply wf_replicate]).
  split; [done|]. assert (100 < modulus K1Base) by (by vm_compute).
  unfold small. rewrite value_cons. change (value (replicate 7 0)) with 0. lia.
Qed.

Lemma domain_arithmetic_correct_witness :
  canonical K1Base (small 2) /\ canonical K1Base (small 3) /\
  value (domain_sub K1Base (small 2) (small 3)) = (2 - 3) mod modulus K1Base.
Proof.
  assert (canonical K1Base (small 2)) as H2 by (apply base_canonical; lia).
  assert (canonical K1Base (small 3)) as H3 by (apply base_canonical; lia).
  split; [exact H2|]. split; [exact H3|].
  destruct (domain_arithmetic_correct K1Base (small 2) (small 3) H2 H3) as (_ & _ & _ & Hv & _). exact Hv.
Defined.

(** *** A true equality is logged *)

Definition setup : list request := take 4 requests.

Definition setup_check : bool :=
  match serve setup initial with
  | Some (_, s) =>
      bool_decide (ds_evals s !! node_digest sum_node = Some (node_digest (num 5))) &&
      bool_decide (ds_evals s !! node_digest (num 5) = Some (node_digest (num 5))) &&
      bool_decide (ds_nodes s !! node_digest (num 5) = Some (num 5)) &&
      bool_decide (ds_nodes s !! node_digest statement = None) &&
      bool_decide (ds_nodes s !! fold_deferred_root (ds_root s) (node_digest statement) = None) &&
      bool_decide (fold_deferred_root (ds_root s) (node_digest statement) <> node_digest statement) &&
      (24 <=? ds_remaining_elements s)
  | None => false
  end.

Lemma setup_checked : setup_check = true.
Proof. vm_compute. done. Qed.

Lemma true_equality_logged_witness :
  exists s s', good s /\
    serve [ReqRegister statement; ReqLog (node_digest statement)] s = Some ([node_digest statement], s').
Proof.
  pose proof setup_checked as Hc. unfold setup_check in Hc.
  destruct (serve_good setup initial initial_good) as (logged & s & Hs & Hg & Hx & _).
  rewrite Hs in Hc. repeat (apply andb_true_iff in Hc as [Hc ?]).
  repeat match goal with H : bool_decide _ = true |- _ => apply bool_decide_eq_true in H end.
  assert (canonical_at id7 s (node_digest (num 5)) U256 (small 5)) as H5.
  { exists (node_digest (num 5)). split; [done|]. split; [done|]. apply small_canonical. lia. }
  assert (canonical_at id7 s (node_digest sum_node) U256 (small 5)) as Hsum.
  { exists (node_digest (num 5)). split; [done|]. split; [done|]. apply small_canonical. lia. }
  assert (uint_installed id7 s) as Hu by (split; [by eapply lookup_weaken, Hx|done]).
  destruct (true_equality_logged id7 s (node_digest sum_node) (node_digest (num 5)) U256 (small 5))
    as (s' & Hs' & _); try assumption; [by apply Z.leb_le|].
  exists s, s'. split; [exact Hg|exact Hs'].
Defined.

(** *** The instruction *)

Definition verified : VerifiedState := exist good initial initial_good.

Definition log_spec (l : list Felt) : St (SpecProcessor VerifiedState) :=
  mkSt (mkProc (spec_stack_new l depth_limit) 0 0 EMPTY_WORD (memory_new 64) advice [] verified) [].
Definition log_fast (l : list Felt) : St (FastProcessor VerifiedState) :=
  mkSt (mkProc (default (mkFastStack [] 0 0 [] 0 0) (fast_stack_new l depth_limit)) 0 0 EMPTY_WORD
          (memory_new 64) advice [] verified) [].

(** Logging TRUE. *)
Definition log_inputs : list Felt :=
  into_elements EMPTY_WORD ++ into_elements TRUE_DIGEST ++ into_elements EMPTY_WORD ++ into_elements EMPTY_WORD.

Lemma log_rel : st_rel proc_rel (log_fast log_inputs) (at_stack log_inputs (log_spec log_inputs)).
Proof.
  destruct (fast_stack_new_rel log_inputs depth_limit eq_refl) as (s & Hs & Hr).
  { unfold depth_limit_ok, depth_limit, U64_MAX. lia. }
  split; [|done]. unfold log_fast. rewrite Hs. by split.
Qed.

Definition log_ok : bool :=
  match fst (log_statement MAX_EVALUATION_DEPTH TRUE_DIGEST initial) with Ok _ => true | _ => false end.

Lemma log_checked : log_ok = true.
Proof. vm_compute. done. Qed.

Lemma log_deferred_correct_witness :
  st_rel proc_rel (log_fast log_inputs) (at_stack log_inputs (log_spec log_inputs)) /\
  exists h s', fast_runs Op.LogDeferred (log_fast log_inputs) (Ok h) s'.
Proof.
  split; [exact log_rel|].
  pose proof (log_deferred_correct EMPTY_WORD TRUE_DIGEST EMPTY_WORD (into_elements EMPTY_WORD)
    (log_spec log_inputs) (log_fast log_inputs) log_rel) as Hl.
  pose proof log_checked as Hc. unfold log_ok in Hc.
  change (proj1_sig (p_deferred (st_proc (log_spec log_inputs)))) with initial in Hl.
  destruct (log_statement MAX_EVALUATION_DEPTH TRUE_DIGEST initial) as [[root|e|] s']; [|done..].
  destruct Hl as (_ & _ & _ & h & evs & d' & _ & Hrun). exists h. eexists. exact Hrun.
Defined.

(** ** The theorems on events at concrete inputs

    The verified deferred state with the uint precompile behind the processor,
    and the reference inverse of the extension field. *)

#[local] Existing Instance concrete_field.
#[local] Existing Instance concrete_field_laws.
#[local] Existing Instance concrete_quad.
#[local] Existing Instance concrete_quad_laws.
#[local] Existing Instance tag_permutation.

#[local] Instance concrete_inverse : QuadInverse := quad_inverse_ref (G := concrete_field).
#[local] Instance concrete_inverse_laws : QuadInverseLaws concrete_quad concrete_inverse :=
  quad_inverse_ref_laws (Q := concrete_quad).

Definition spec_of (a : AdviceProvider) (l : list Felt) : SpecProcessor VerifiedState :=
  put_advice a (st_proc (log_spec l)).
Definition fast_of (a : AdviceProvider) (l : list Felt) : FastProcessor VerifiedState :=
  put_advice a (st_proc (log_fast l)).

Lemma event_rel a l : length l = MIN_STACK_DEPTH -> proc_rel (fast_of a l) (spec_of a l).
Proof.
  intros Hl. destruct (fast_stack_new_rel l depth_limit Hl) as (s & Hs & Hr).
  { unfold depth_limit_ok, depth_limit, U64_MAX. lia. }
  unfold fast_of, log_fast. rewrite Hs. by split.
Qed.

Lemma event_ok a l : adv_wf a -> length l = MIN_STACK_DEPTH -> proc_ok 0 (spec_of a l).
Proof. intros Ha Hl. destruct (concrete_ok a l Ha Hl) as [Hc _]. by split. Qed.

Lemma event_holds a l : length l = MIN_STACK_DEPTH -> holds (spec_of a l) l.
Proof. intros Hl. split; [done|by rewrite Hl]. Qed.

(** A stack with the event id, [l] and zeros. *)
Definition on_top (l : list Felt) : list Felt := take 16 (ZERO :: l ++ replicate 16 ZERO).

(** *** The advice map *)

Definition key_word : Word := mkWord (felt 1) (felt 2) (felt 3) (felt 4).
Definition map_advice : AdviceProvider :=
  mkAdviceProvider [] {[ key_word := [felt 7; felt 8; felt 9] ]} ∅ 0 56 1000.

Lemma map_advice_wf : adv_wf map_advice.
Proof. by split. Qed.

Lemma preimage_events_correct_witness :
  let l := on_top (felt <$> seqZ 1 15) in
  let p2 := spec_of advice l in
  exists key values, preimage HqwordToMap p2 l = Some (key, values) /\
    emits HqwordToMap (fast_of advice l) (Ok tt) (put_advice (with_entry key values (p_advice p2)) p2).
Proof.
  intros l p2. destruct (preimage HqwordToMap p2 l) as [[key values]|] eqn:He; [|discriminate].
  exists key, values. split; [done|].
  pose proof (preimage_events_correct (fast_of advice l) p2 l HqwordToMap key values
    (event_rel advice l eq_refl) (event_ok advice l advice_concrete eq_refl) (event_holds advice l eq_refl) He)
    as Hm.
  injection He as _ Hv. rewrite decide_True in Hm by (subst values; by vm_compute). exact Hm.
Defined.

(** *** Deferred statements *)

(** The value node of 2: payload and tag. *)
Definition value_inputs : list Felt :=
  on_top (chunk_felts (encode_limbs (small 2)) ++ into_elements (as_word (node_tag (num 2)))).

Definition value_registered : bool :=
  match fst (handle_system_event DeferredRegister (spec_of advice value_inputs)) with Ok _ => true | _ => false end.

Lemma value_checked : value_registered = true.
Proof. by vm_compute. Qed.

Lemma value_tag_read : from_word (word_from value_inputs 9) = node_tag (num 2).
Proof. vm_compute. reflexivity. Qed.

Lemma value_digest_read :
  hs_rate0 (apply_permutation (mkHasherState (word_from value_inputs 1) (word_from value_inputs 5)
    (word_from value_inputs 9))) = node_digest (num 2).
Proof. vm_compute. reflexivity. Qed.

Lemma deferred_events_correct_witness :
  exists p2' n, emits DeferredRegister (fast_of advice value_inputs) (Ok tt) p2' /\
    ds_nodes (proj1_sig (p_deferred p2')) !! node_digest (num 2) = Some n /\ node_tag n = node_tag (num 2).
Proof.
  destruct (deferred_events_correct (fast_of advice value_inputs) (spec_of advice value_inputs) value_inputs
    (event_rel advice value_inputs eq_refl) (event_ok advice value_inputs advice_concrete eq_refl)
    (event_holds advice value_inputs eq_refl))
    as (r & p2' & (p1' & Hr & Hrel) & _ & _ & _ & _ & Hok).
  pose proof (sim_system_event DeferredRegister _ _ (event_rel advice value_inputs eq_refl)) as Hs.
  pose proof value_checked as Hc. unfold value_registered in Hc.
  destruct (handle_system_event DeferredRegister (spec_of advice value_inputs)) as [[[]|e|] q]; [|done..].
  destruct Hs as (q1 & Hq & _). rewrite Hr in Hq. injection Hq as -> ->.
  destruct (Hok eq_refl) as (n & c & cn & [Ht _] & Hn & _). exists p2', n.
  rewrite value_tag_read in Ht. rewrite value_digest_read in Hn.
  split; [exact (ex_intro _ q1 (conj Hr Hrel))|exact (conj Hn Ht)].
Defined.

(** *** A host *)

(** A host that answers every event with one element and refuses traces. *)
#[local] Instance one_host : EventHost unit VerifiedState MastForest := {|
  host_get_mast_forest _ _ := None;
  on_event _ h := (Some [ExtendStack [ONE]], h);
  on_trace _ h := (false, h)
|}.

Lemma emit_total_witness :
  let l := on_top [felt 40] in
  exists p1' p2', emit_event (F := MastForest) (fast_of advice l, tt) = (Ok tt, (p1', tt)) /\ proc_rel p1' p2' /\
    ap_stack (p_advice p2') = [ONE].
Proof.
  intros l.
  destruct (emit_total (F := MastForest) (fast_of advice l) (spec_of advice l) tt (event_rel advice l eq_refl)
    (event_ok advice l advice_concrete eq_refl)) as (r & p1' & p2' & h' & He & _ & _ & Hrel & _ & Hh).
  destruct (Hh l (event_holds advice l eq_refl) eq_refl) as [_ Hm]. cbn [on_event one_host fst] in Hm.
  destruct h'. exists p1', p2'.
  assert (on_advice (apply_mutations [ExtendStack [ONE]]) (spec_of advice l) =
    (Ok tt, put_advice (pushed [ONE] advice) (spec_of advice l))) as Ha.
  { unfold on_advice, zoom. change (p_advice (spec_of advice l)) with advice.
    assert (apply_mutations [ExtendStack [ONE]] advice = (Ok tt, pushed [ONE] advice)) as -> by (by vm_compute).
    reflexivity. }
  rewrite Ha in Hm. injection Hm as -> ->. split; [exact He|]. split; [exact Hrel|done].
Defined.

(** *** Programs *)

(** The processor's own event handling, with the verified deferred state and
    that host, under the execution loop. *)
#[local] Instance one_host_laws : HostLaws unit VerifiedState MastForest.
Proof. apply event_host_laws. done. Qed.

#[local] Instance verified_view {Stk} `{StackView Stk} : ProcessorView (Proc Stk VerifiedState) :=
  proc_view options_default.

Lemma execute_sync_total_witness :
  match new_with_options inputs ∅ [] ∅ ∅ options_default verified with
  | Ok p1 =>
      exists p2, spec_new_with_options options_default inputs ∅ [] ∅ ∅ verified = Ok p2 /\
      exists n r y1 y2, r <> Panic /\ x_rel proc_rel y1 y2 /\
        forall m, (n <= m)%nat ->
          execute_sync [] m p1 tt forest 3 = Some (r, y1) /\
          execute_sync [] m p2 tt forest 3 = Some (r, y2)
  | Err e => spec_new_with_options options_default inputs ∅ [] ∅ ∅ verified = Err e
  | Panic => False
  end.
Proof.
  apply (execute_sync_total options_default [] inputs ∅ [] ∅ ∅ verified tt forest 3).
  - apply options_default_ok.
  - reflexivity.
  - by vm_compute.
  - apply dense_forest_ok, forest_is_wf.
  - by eexists.
Defined.
