(* ===== verification/WireWitnesses.v ===== *)
(** * The theorems on forests at a concrete forest

    A join of an external node and a basic block, built with the forest builder
    in an order that has to be renumbered, written and read back. *)

From S2P Require Import Prelude Felt AdviceMap Serde SerdeTheory Quad Operations OpSerde OpBatch.
From S2P Require Import Mast BatchValid BatchTheory BatchCorrect BlockSerde BlockTheory AceCircuit.
From S2P Require Import Machine ExecuteOp Control Exec Memory Merkle Forest ForestTheory CanonOrder.
From S2P Require Import ForestCorrect ForestWire WireSound WireRound ForestTheorems Deferred.
From S2P Require Import DeferredTheory DeferredHistory UintPrecompile MerkleTheory Advice.
From S2P Require Import AdviceTheory AdviceAtomic FastStack StackRefine FastProcessor ExecSim.
From S2P Require Import ProcView SysEvents SpecSafe ExecSafe EventSim ProgramRefine AbstractRun.
From S2P Require Import DeferredOp EventTheorems DeferredEvents Witnesses EventWitnesses.

#[local] Existing Instance concrete_field.
#[local] Existing Instance concrete_field_laws.
#[local] Existing Instance concrete_quad.
#[local] Existing Instance concrete_quad_laws.
#[local] Existing Instance tag_permutation.

(** ** Encodings *)

Lemma u8_check l : forallb (fun x => (0 <=? x) && (x <? 256)) l = true -> Forall is_u8 l.
Proof.
  intros Hl. apply Forall_forall. intros x Hx%list_elem_of_In. rewrite forallb_forall in Hl. specialize (Hl x Hx).
  apply andb_true_iff in Hl as [H1%Z.leb_le H2%Z.ltb_lt]. done.
Qed.

Lemma usize_encoding_bounds_witness :
  length (write_usize 300) = 2%nat /\ 300 < 2 ^ 14 /\ 2 ^ 7 <= 300 /\
  read_usize (slice_reader_new (write_usize 300 ++ [9])) = (Ok 300, mkSliceReader (write_usize 300 ++ [9]) 2).
Proof.
  destruct (usize_encoding_bounds 300 [9]) as (_ & _ & _ & H1 & H2 & H3); [unfold U64_MAX; lia|].
  split; [reflexivity|]. split; [exact (H1 ltac:(vm_compute; lia))|]. split; [exact (H2 ltac:(vm_compute; lia))|].
  apply H3. by vm_compute.
Defined.

Lemma operation_encoding_witness :
  exists rest, op_write_into (Op.Push (felt 7)) ++ [1; 2] = op_write_into (Op.Push (felt 7)) ++ rest.
Proof.
  apply (operation_encoding (op_write_into (Op.Push (felt 7)) ++ [1; 2]) (Op.Push (felt 7))
    (mkSliceReader (op_write_into (Op.Push (felt 7)) ++ [1; 2]) 9)); [by apply u8_check; vm_compute|by vm_compute|by vm_compute].
Defined.

Definition some_ops : list Operation := [Op.Push (felt 3); Op.Add; Op.Push (felt 1); Op.Mul].

Lemma basic_block_roundtrip_witness :
  exists bytes, encode_basic_block (mkBasicBlockNode (default [] (batch_ops some_ops)) EMPTY_WORD) = Some bytes /\
    (Z.of_nat (length ([7] ++ bytes ++ [8])) <= U64_MAX ->
     Z.of_nat (length bytes) = basic_block_data_len (mkBasicBlockNode (default [] (batch_ops some_ops)) EMPTY_WORD) /\
     decode_operations ([7] ++ bytes ++ [8]) 1 = Ok (default [] (batch_ops some_ops))).
Proof. apply (basic_block_roundtrip some_ops EMPTY_WORD [7] [8]); [by vm_compute|by vm_compute]. Defined.

(** ** A forest *)

Definition push (b : MastNodeBuilder) (s : DenseMastForestBuilder) : DenseMastForestBuilder :=
  match push_node s b with Ok (_, s') => s' | _ => s end.

Definition one_block : DenseMastForestBuilder := push (BBasicBlock (Raw some_ops) None) builder_new.
Definition two_nodes : DenseMastForestBuilder := push (BExternal (leaf 7)) one_block.
Definition three_nodes : DenseMastForestBuilder := push (BExternal (leaf 5)) two_nodes.
Definition four_nodes : DenseMastForestBuilder := push (BJoin 2 0 None) three_nodes.
Definition builder : DenseMastForestBuilder := default four_nodes (mark_root four_nodes 3).

Lemma builder_built : built builder.
Proof.
  apply (built_root four_nodes 3); [|by vm_compute].
  apply (built_push three_nodes (BJoin 2 0 None) 3); [|done|by vm_compute].
  apply (built_push two_nodes (BExternal (leaf 5)) 2); [|done|by vm_compute].
  apply (built_push one_block (BExternal (leaf 7)) 1); [|done|by vm_compute].
  apply (built_push builder_new (BBasicBlock (Raw some_ops) None) 0); [constructor|done|by vm_compute].
Qed.

Lemma builder_externals : distinct_externals (db_nodes builder).
Proof.
  assert (Hx : forall i a, db_nodes builder !! i = Some a -> is_external a = true ->
    i = 1%nat /\ digest a = leaf 7 \/ i = 2%nat /\ digest a = leaf 5).
  { intros i a Ha Ea. destruct i as [|[|[|[|i]]]]; vm_compute in Ha; try discriminate Ha; injection Ha as <-; try discriminate Ea; [left|right]; (split; [done|vm_compute; reflexivity]). }
  intros i j a b Ha Hb Ea Eb Hd. destruct (Hx i a Ha Ea) as [[-> E1]|[-> E1]], (Hx j b Hb Eb) as [[-> E2]|[-> E2]]; try reflexivity;
    rewrite E1, E2 in Hd; vm_compute in Hd; discriminate Hd.
Qed.

Definition loaded : MastForest :=
  match build_with_id_map builder with Ok (f, _) => f | _ => mkMastForest [] [] ∅ end.

Lemma loaded_wire : wire_ok loaded /\ digests_ok (nodes loaded).
Proof.
  destruct (built_wire builder builder_built) as (f & m & Hb & Hv & Hk & _); [by vm_compute|apply builder_externals|].
  unfold loaded. rewrite Hb. split; [done|apply Hv].
Qed.

Definition stored (h : bool) : list Z := default [] (write_into_with_options loaded h).

Lemma stored_u8 h : Forall is_u8 (stored h).
Proof. apply u8_check. destruct h; by vm_compute. Qed.

Lemma stored_reads : match untrusted_read_from_bytes_with_options (stored true) (mkReadOptions None None) with
  | Ok u => match untrusted_validate u with Ok _ => true | _ => false end
  | _ => false
  end = true.
Proof. vm_compute. reflexivity. Qed.

(** The forest is read, so the theorem gives a valid one. *)
Lemma untrusted_validation_sound_witness :
  exists u f, untrusted_read_from_bytes_with_options (stored true) (mkReadOptions None None) = Ok u /\
    untrusted_validate u = Ok f /\ forest_valid f.
Proof.
  destruct (untrusted_validation_sound (stored true) (mkReadOptions None None) (stored_u8 true)) as [Hv _].
  pose proof stored_reads as Hr. destruct (untrusted_read_from_bytes_with_options _ _) as [u| |]; [|discriminate Hr..].
  destruct (untrusted_validate u) as [f| |] eqn:Hf; [|discriminate Hr..]. exists u, f. split; [reflexivity|]. split; [exact Hf|exact Hv].
Defined.

Lemma forest_roundtrip_witness : forest_read_from_bytes (stored false) = Ok loaded /\
  (exists u, untrusted_read_from_bytes (stored false) = Ok u /\ untrusted_validate u = Ok loaded) /\
  exists u, untrusted_read_from_bytes_with_options (stored false ++ [1; 2; 3])
      (mkReadOptions (Some (Z.of_nat (length (stored false)))) None) = Ok u /\ untrusted_validate u = Ok loaded.
Proof.
  destruct (forest_roundtrip loaded false (proj1 loaded_wire)) as (bytes & Hw & Hr & Ht).
  assert (bytes = stored false) as -> by (unfold stored; by rewrite Hw).
  destruct Hr as [H1 H2]; [by vm_compute|]. split; [by apply H1|]. split; [apply H2, loaded_wire|].
  apply Ht; [apply loaded_wire|by vm_compute].
Defined.

Lemma parts_build : match from_parts_with_id_map (db_nodes builder) (db_roots builder) ∅ with
  | Ok (f, m) => bool_decide (roots f = [3%nat])
  | _ => false
  end = true.
Proof. vm_compute. reflexivity. Qed.

Lemma from_parts_correct_witness :
  exists f m, from_parts_with_id_map (db_nodes builder) (db_roots builder) ∅ = Ok (f, m) /\
    forest_valid f /\ renumbers (db_nodes builder) m (nodes f) /\ roots f = [3%nat].
Proof.
  pose proof (from_parts_correct (db_nodes builder) (db_roots builder) ∅ (bi_built _ (built_inv _ builder_built))) as Hf.
  pose proof parts_build as Hr. destruct (from_parts_with_id_map _ _ _) as [[f m]| |]; [|discriminate Hr..].
  apply bool_decide_eq_true in Hr. destruct Hf as (_ & Hv & Hn & _). exists f, m.
  split; [reflexivity|]. split; [exact Hv|]. split; [exact Hn|exact Hr].
Defined.


(** ** Running it *)

#[local] Existing Instance concrete_inverse.
#[local] Existing Instance concrete_inverse_laws.
#[local] Existing Instance one_host.
#[local] Existing Instance one_host_laws.
#[local] Existing Instance verified_view.

(** The validated forest at its root, with empty advice. *)
Lemma untrusted_program_runs_witness :
  exists u f, untrusted_read_from_bytes_with_options (stored true) (mkReadOptions None None) = Ok u /\ untrusted_validate u = Ok f /\
    forall entry, entry ∈ roots f ->
      match new_with_options inputs ∅ [] ∅ ∅ options_default verified with
      | Ok p1 => exists n r y1, r <> Panic /\ forall m, (n <= m)%nat -> execute_sync [] m p1 tt f entry = Some (r, y1)
      | _ => True
      end.
Proof.
  pose proof (untrusted_program_runs options_default [] (stored true) (mkReadOptions None None) inputs ∅ [] ∅ ∅ verified tt) as Hv.
  specialize (Hv (stored_u8 true) options_default_ok eq_refl).
  assert (Hs : num_internal_nodes ∅ * 96 <= USIZE_MAX) by (by vm_compute). specialize (Hv Hs).
  pose proof stored_reads as Hr. destruct (untrusted_read_from_bytes_with_options _ _) as [u| |]; [|discriminate Hr..].
  destruct (untrusted_validate u) as [f| |] eqn:Hf; [|discriminate Hr..]. exists u, f. split; [reflexivity|]. split; [exact Hf|].
  intros entry He. specialize (Hv entry He). destruct (new_with_options _ _ _ _ _ _ _) as [p1| |]; [|exact I|exact I].
  destruct Hv as (p2 & n & r & y1 & y2 & _ & Hp & _ & Hm). exists n, r, y1. split; [exact Hp|]. intros m Hle. exact (proj1 (Hm m Hle)).
Defined.
